(* ===== verification/_CoqProject ===== *)
-Q . S2P
Prelude.v
IndexFile.v
FixedIndex.v
FixedIndexSpec.v
LruCache.v
DynamicIndex.v
DynamicIndexSpec.v
Chunker.v
ChunkerSpec.v
ClientStreams.v
ClientStreamsSpec.v
DataBlob.v
DataBlobSpec.v
Catalog.v
CatalogSpec.v
Manifest.v
ManifestSpec.v
Prune.v
PruneSpec.v
ChunkStore.v
ChunkStoreSpec.v
GarbageCollection.v
GarbageCollectionSpec.v
GarbageCollectionRuns.v
Verify.v
VerifySpec.v
VerifySnapshot.v
VerifySnapshotSpec.v
Text.v
Acl.v
AclSpec.v
Tape.v
TapeSpec.v
ChunkArchive.v
ChunkArchiveSpec.v
MediaLabel.v
MediaCatalog.v
MediaCatalogSpec.v
Inventory.v
InventorySpec.v
MediaPool.v
MediaPoolSpec.v
PoolWriter.v
PoolWriterSpec.v
BackupEnv.v
BackupEnvSpec.v
BackupFlow.v
PullChunks.v
PullChunksSpec.v
BlobReader.v
BlobReaderSpec.v
Hierarchy.v
HierarchySpec.v
GroupDir.v
GroupDirSpec.v
Pull.v
PullSpec.v
PullGroup.v
PullGroupSpec.v
PullExample.v
Datastore.v
DatastoreSpec.v
MoveSpec.v
MoveProgress.v
MoveExample.v
