(* ===== verification/Prelude.v ===== *)
(** * Verification of the Proxmox Backup Server core

    Proxmox Backup Server stores backups as deduplicated chunks.  A client cuts its data into
    chunks, uploads those the server does not have, and the server writes index files that list
    the chunks of each archive.  A snapshot is a directory of index files and blobs with a manifest,
    a group is the sequence of snapshots of one machine.  Old snapshots are pruned, and a garbage collection
    removes chunks no index file refers to.  The development is a shallow embedding of this
    core: one file with definitions translated from the source per component, and one or two files with
    its theorems.  Paths below are relative to [src/].

    ** Parts, and where they are modelled

    - [Prelude]: outcomes of Rust functions ([res]: a value, an error, a panic; undefined
      behaviour counts as a panic), the notations that thread state and errors, machine integers
      ([u64], [i64], ... are integers of [Z] with the wrap-around written out), little endian bytes, and
      the list lemmas, tactics and hints that are shared.
    - [IndexFile]: the trait [IndexFile] of [pbs-datastore/src/index.rs] as a type class with a second
      class for its laws, [find_most_used_chunks], the mapped layout of [index_mmap.rs] and the magic
      numbers of [file_formats.rs].
    - [FixedIndex], [FixedIndexSpec]: [pbs-datastore/src/fixed_index.rs], the reader and the writer with its
      growing temporary file.
    - [LruCache]: [pbs-tools/src/lru_cache.rs], with a heap of nodes and raw pointers.
    - [DynamicIndex], [DynamicIndexSpec]: [pbs-datastore/src/dynamic_index.rs], reader, writer and the buffered
      reader of an archive on top of the cache.
    - [Chunker], [ChunkerSpec]: [pbs-datastore/src/chunker.rs], the rolling hash and the payload chunker.
    - [ClientStreams], [ClientStreamsSpec]: the upload pipeline of the client,
      [pbs-client/src/chunk_stream.rs], [inject_reused_chunks.rs], [merge_known_chunks.rs].
    - [DataBlob], [DataBlobSpec]: [pbs-datastore/src/data_blob.rs], the format of chunks and blobs, with the digests of
      [pbs-tools/src/crypt_config.rs].
    - [Catalog], [CatalogSpec]: [pbs-datastore/src/catalog.rs], the file catalog of a snapshot.
    - [Manifest], [ManifestSpec]: [pbs-datastore/src/manifest.rs], the signed list of the files of a snapshot.
    - [Prune], [PruneSpec]: [pbs-datastore/src/prune.rs] and the removal loop of
      [src/server/prune_job.rs].
    - [ChunkStore], [ChunkStoreSpec]: [pbs-datastore/src/chunk_store.rs], the directory of chunk files.
    - [GarbageCollection], [GarbageCollectionSpec], [GarbageCollectionRuns]: the garbage collection of
      [pbs-datastore/src/datastore.rs] with [move_journal.rs] and the sweep of [chunk_store.rs].
    - [Verify], [VerifySpec]: [verify_index_chunks] of [src/backup/verify.rs], the threads that read and check the
      chunks of an index, interleaved in any order.
    - [VerifySnapshot], [VerifySnapshotSpec]: the rest of [verify.rs], snapshots, groups and jobs, with the
      functions of [pbs-datastore/src/backup_info.rs] that read and update a manifest.
    - [Text], [Acl], [AclSpec]: text processing shared by parsers; [pbs-config/src/acl.rs], the tree of
      access rules with its file format, and [cached_user_info.rs], the privileges computed from it.
    - [Tape], [TapeSpec]: block streams on tape, [pbs-tape/src/] ([blocked_writer.rs], [blocked_reader.rs], the
      emulated devices, the content header).
    - [ChunkArchive], [ChunkArchiveSpec]: [src/tape/file_formats/chunk_archive.rs] on top of them, and its use by
      [write_chunk_archive] of [src/tape/pool_writer/mod.rs].
    - [MediaLabel], [MediaCatalog], [MediaCatalogSpec]: the labels of tape media and [src/tape/media_catalog.rs] with
      [pool_writer/catalog_set.rs], what is on a media, in memory and as a log of records on disk.
    - [Inventory], [InventorySpec]: [src/tape/inventory.rs], [media_set.rs] and [changer/online_status_map.rs], all known
      media with their status and location in one file, shared by processes.
    - [MediaPool], [MediaPoolSpec]: [src/tape/media_pool.rs] on top of both, the selection and allocation of media for
      backups; the tests of [src/tape/test/alloc_writable_media.rs] are run on the model.
    - [PoolWriter], [PoolWriterSpec]: [src/tape/pool_writer/mod.rs] on top of all these, with the archives of
      [src/tape/file_formats]: media are loaded, archives written and registered, and committed; the drive is the
      trait [TapeDriver], as a class with its laws.
    - [PullChunks], [PullChunksSpec]: [pull_index_chunks] of [src/server/pull.rs], the tasks that download the chunks of
      an archive and the threads that check and write them, interleaved in any order, with the map of chunks
      that were encountered.
    - [BlobReader], [BlobReaderSpec]: the readers of [pbs-datastore/src/] ([data_blob_reader.rs], [crypt_reader.rs],
      [checksum_reader.rs]) and the decryption of blobs in [src/server/sync.rs].
    - [Hierarchy], [HierarchySpec]: [pbs-datastore/src/hierarchy.rs], the iterators over snapshots, groups and namespaces.
    - [GroupDir], [GroupDirSpec]: the directory of a group, with the functions of [datastore.rs] and [backup_info.rs]
      that create, list and destroy snapshots.
    - [Pull], [PullSpec]: archives and snapshots in [pull.rs], on the readers of the source in [sync.rs].
    - [PullGroup], [PullGroupSpec]: groups in [pull.rs]; [PullExample] runs them on small inputs.
    - [Datastore], [DatastoreSpec]: the tree of namespaces and groups in [pbs-datastore/src/datastore.rs] and
      [backup_info.rs]: namespaces and groups are created and removed, and moved.  [MoveSpec] and
      [MoveProgress] are about moving, [MoveExample] runs these operations on small trees.
    - [BackupEnv], [BackupEnvSpec], [BackupFlow]: [src/api2/backup/], the state of a backup session and the
      requests on it.

    The pipeline of a backup is [Chunker], [ClientStreams], [DataBlob], [BackupEnv] with
    [ChunkStore], [DynamicIndex] and [FixedIndex], then [Manifest]; reading back goes through the index
    readers, [DataBlob] and [LruCache]; [Prune] and [GarbageCollection] work on what is stored.

    ** How code becomes definitions

    A pure function is a Rocq function; a method that changes its object takes and returns the
    object; [Result] is [res].  Outcomes of system calls are arguments: a theorem about an operation holds
    for every failure at every call.  What is done while a mutex is held is one
    function; where the code releases it in between there are several, where it takes a second one (in
    verification) locking and unlocking are steps of their own, and theorems about concurrent requests are
    about all interleavings of these ([BackupEnvSpec], [VerifySpec]) or about an arbitrary schedule of what others do
    between the steps ([GarbageCollection]).  Functions of libraries (encryption, compression, hashes, JSON
    text, time formatting, sorting, hexadecimal text, ...) are fields of records or section variables,
    their documented behaviour are classes of laws ([PrimsLaws], [HexLaws], [SortLaws], ...), and every class
    used by a theorem has an instance in the development.

    ** What the theorems show

    - Round trips: index files, blobs, manifests, catalogs and number codecs read back what was written.
    - Refinement: the cache with raw pointers behaves as a list of entries and never touches memory that is not
      allocated; the buffered reader returns the bytes of the archive; the
      rolling hash cuts a stream into the chunks of a definition that mentions only the bytes since the last
      boundary.
    - The streams of the client neither lose, duplicate nor reorder bytes, and do not depend on how input
      arrives.
    - Sessions: a finished backup has every file its manifest lists, with the sizes and checksums recorded by
      the server; nothing changes the state afterwards except what is listed as a finding; chunks are stored
      only if their content matches their digest.
    - Retention: the newest snapshots are kept, protected ones are never removed, and the removals are
      exactly those computed.
    - Garbage collection: while others upload, remove and move snapshots at any time, a chunk of an index file
      that stays in the datastore, where it was or moved, or one that was accessed since the oldest running backup
      started, is not removed, however the run ends, as long as the clock is not set back;
      explicit schedules show that the run stops when the clock was set back, and one that defeats its retry.
    - Verification: under every schedule of the threads it ends without a deadlock on their mutexes, it raises no false alarm, and a success says that
      every chunk was checked except for those the decoders still had; explicit runs show that such a
      chunk can be corrupt.  The result recorded in a manifest is what was found, and a job that succeeds
      has checked or skipped every snapshot.
    - Access control: the roles of a user or token on a path are those of the deepest rules; writing
      and parsing the rules is a round trip; a token never exceeds its owner; [any_privs_below] only
      reports paths where a privilege exists.
    - Tape: what is written in any pieces is read back by reads of any sizes; on arbitrary content, only
      a complete stream is read to its end without error; every chunk reported as archived is decoded
      again, also when the media ended, and on a device without errors the archive is written.
    - Media catalogs: a catalog that is opened again is the one that was written as long as no commit fails while it writes, after a crash it is one of its
      earlier states or an error, and file numbers and indices of a catalog are well formed after all operations; an
      explicit run shows that a commit with a failed sync can make a catalog unreadable.
    - Inventory and media pools: updates of the inventory are not lost, whatever copies processes hold; allocation
      only touches media that are at hand and empty, free or expired, labels them alike in inventory and
      catalog, returns the same media until it is full, and agrees with its guess; a pool agrees with the inventory
      file at all times; an explicit run shows that the end of the protection can overflow.
    - Writing to tape: whatever operation fails in whatever way, the catalog on disk lists only chunks and snapshots whose archives
      have been synced to the tape, at the positions it lists and with their content, and a commit that succeeds makes it list all that was
      registered; snapshot and catalog archives that are reported as complete hold their files as a whole.  A file that gets
      shorter while it is copied makes the loop run forever.
    - Pulling: under every schedule, an archive that was pulled has all its chunks in the store, those that were written with their digests checked
      unless they are encrypted (their digest needs the key),
      and a decrypted one has a new index with the plain chunks in the order of the source; the manifest of a
      snapshot changes only once all its files and chunks are complete, whatever fails before; a group loses only
      snapshots that were not selected on the source and are not protected; the keys decide as documented when
      a snapshot is decrypted.  Explicit runs show the cases where protection, logs or archives get lost.
    - Namespaces and groups: the recursive iterator yields the tree in preorder, and does not end when a directory cannot be
      read and errors are skipped.  Removing namespaces keeps all that is protected or outside of them, and leaves nothing
      behind when it says so.  Moving groups or namespaces loses, duplicates and replaces no snapshot, whatever fails; what was moved
      is older than what is left, is in the journal, and an interrupted move can be resumed.  Explicit runs show
      what an incomplete listing, a failed write or a lock at the wrong time can do.
    - Errors: corrupt, truncated or forged input leads to an error value, never to a panic or an access
      outside of a mapping.

    ** Bounds and fuel

    Loops that are structural in the source (over lists, positions, retries) are structural here.
    Where a measure is needed it is a number that the code itself bounds: positions up to
    [index_count], the remaining bytes of a buffer, 10 retries, 10 names of corrupt chunks, the depth of
    offsets in a catalog, which strictly decrease.  Theorems that a loop returns are proved for
    the fuel the definition passes, never assumed; [br_skip_data], whose end is decided by the tape,
    gets its fuel as an argument, and one more than the unread bytes is enough; so does [copy_loop], where the number of
    reads is enough for a file that delivers its size, and nothing is for one that does not.  Times are assumed below [2 ^ 62] where [i64]
    arithmetic is involved.

    ** Not modelled

    I/O and interfaces of the operating system (sockets, HTTP, FUSE, block devices, tape drives),
    command line tools and daemons, the web interface, request handlers that only read and write
    configuration files, section configuration syntax (a library), key derivation, the S3 object store,
    of the synchronisation jobs the loops over namespaces and pushing, and of the tape backup the drives, changers and jobs, and what the pool writer does with a changer. *)

From stdpp Require Export base tactics option list numbers strings gmap sorting.
From Stdlib Require Export ZArith Lia.
From Stdlib Require Import Strings.Byte.

#[global] Set Default Goal Selector "!".
#[global] Open Scope Z_scope.

(** ** Outcomes of Rust code

    A Rust function that returns [Result<T, Error>] either returns a value,
    returns an error that the caller may propagate with [?], or panics
    ([assert!], [unwrap] on [None], a slice index out of range, ...).  Undefined
    behaviour of an [unsafe] block (an access outside of a mapping or through a
    dangling pointer) is modelled as a panic with message ["UB"], so that a
    theorem "never panics" also excludes it. *)
Inductive res (A : Type) : Type :=
| Ok (a : A)
| Err (e : string)
| Panic (e : string).
Arguments Ok {A} _.
Arguments Err {A} _%_string.
Arguments Panic {A} _%_string.

#[global] Instance res_eq_dec {A} `{EqDecision A} : EqDecision (res A).
Proof. solve_decision. Defined.

#[global] Instance res_ret : MRet res := fun A a => Ok a.
#[global] Instance res_bind : MBind res := fun A B f m =>
  match m with
  | Ok a => f a
  | Err e => Err e
  | Panic e => Panic e
  end.
#[global] Instance res_fmap : FMap res := fun A B f m =>
  match m with
  | Ok a => Ok (f a)
  | Err e => Err e
  | Panic e => Panic e
  end.

Definition is_ok {A} (r : res A) : bool :=
  match r with Ok _ => true | _ => false end.
Definition is_err {A} (r : res A) : bool :=
  match r with Err _ => true | _ => false end.
Definition is_panic {A} (r : res A) : bool :=
  match r with Panic _ => true | _ => false end.

(** [opt.ok_or(e)] and [opt.unwrap()]. *)
Definition ok_or {A} (o : option A) (e : string) : res A :=
  match o with Some a => Ok a | None => Err e end.
Definition unwrap {A} (o : option A) : res A :=
  match o with
  | Some a => Ok a
  | None => Panic "called `Option::unwrap()` on a `None` value"
  end.

(** Methods that take [&mut self]: the object after the call is returned next
    to the outcome, because a method that fails may have changed it. *)
Declare Scope rust_scope.
Delimit Scope rust_scope with rust.
#[global] Open Scope rust_scope.

Notation "'let!' x , s ':=' m 'in' k" :=
  (match m with
   | (Ok x, s) => k
   | (Err e, s') => (Err e, s')
   | (Panic e, s') => (Panic e, s')
   end)
  (at level 10, x pattern at level 0, s name, k at level 200) : rust_scope.
Notation "'let?' x ':=' m 'in' k" :=
  (match m with
   | Ok x => k
   | Err e => Err e
   | Panic e => Panic e
   end)
  (at level 10, x pattern at level 0, k at level 200) : rust_scope.

(** [x <- m; k] for a fallible [m] that does not change the state [s]. *)
Notation "'try!' x ':=' m 'for' s 'in' k" :=
  (match m with
   | Ok x => k
   | Err e => (Err e, s)
   | Panic e => (Panic e, s)
   end)
  (at level 10, x pattern at level 0, s at level 0, k at level 200) : rust_scope.

(** ** Machine integers

    [u64], [usize] (64 bit targets), [u32] and [i64] are integers of [Z] kept in
    range by the operations.  The release profile has no overflow checks, so
    [+], [-] and [*] wrap and the shift amount is taken modulo the width. *)
Definition wrapu (w : Z) (z : Z) : Z := z mod 2 ^ w.
Definition wrapi (w : Z) (z : Z) : Z := (z + 2 ^ (w - 1)) mod 2 ^ w - 2 ^ (w - 1).
Abbreviation u64 := (wrapu 64).
Abbreviation u32 := (wrapu 32).
Abbreviation i64 := (wrapi 64).
Definition U64_MAX : Z := 2 ^ 64 - 1.
Definition I64_MAX : Z := 2 ^ 63 - 1.

Definition checked_add (a b : Z) : option Z :=
  if a + b <=? U64_MAX then Some (a + b) else None.
Definition checked_sub (a b : Z) : option Z :=
  if b <=? a then Some (a - b) else None.
Definition checked_mul (a b : Z) : option Z :=
  if a * b <=? U64_MAX then Some (a * b) else None.
Definition div_ceil (a b : Z) : Z := (a + b - 1) / b.
Definition is_power_of_two (a : Z) : bool :=
  (0 <? a) && (Z.land a (a - 1) =? 0).
(** [usize::checked_next_power_of_two]. *)
Definition checked_next_power_of_two (a : Z) : option Z :=
  let p := 2 ^ Z.log2_up a in
  if p <=? U64_MAX then Some p else None.
Definition shl64 (a s : Z) : Z := u64 (Z.shiftl a (s mod 64)).

Definition in_u64 (z : Z) : Prop := 0 <= z <= U64_MAX.
Definition in_u32 (z : Z) : Prop := 0 <= z < 2 ^ 32.
Definition in_i64 (z : Z) : Prop := - 2 ^ 63 <= z < 2 ^ 63.

Lemma wrapu_small w z : 0 <= z < 2 ^ w -> wrapu w z = z.
Proof. apply Z.mod_small. Qed.

Lemma wrapu_range w z : 0 <= w -> 0 <= wrapu w z < 2 ^ w.
Proof. intros. apply Z.mod_pos_bound. lia. Qed.

Lemma u64_small z : in_u64 z -> u64 z = z.
Proof. unfold in_u64, U64_MAX. intros. apply wrapu_small. lia. Qed.

Lemma i64_small z : in_i64 z -> i64 z = z.
Proof.
  unfold in_i64, wrapi. intros. change (64 - 1) with 63.
  rewrite Z.mod_small; lia.
Qed.

Lemma i64_u64 z : in_i64 z -> i64 (u64 z) = z.
Proof.
  unfold in_i64, wrapi, wrapu. intros H. change (64 - 1) with 63.
  rewrite <- Zplus_mod_idemp_l, Z.mod_mod, Zplus_mod_idemp_l by lia.
  rewrite Z.mod_small; lia.
Qed.

Lemma div_ceil_spec a b :
  0 < b -> 0 <= a -> (div_ceil a b - 1) * b < a <= div_ceil a b * b \/ (a = 0 /\ div_ceil a b = 0).
Proof.
  intros Hb Ha. unfold div_ceil.
  pose proof (Z.div_mod (a + b - 1) b ltac:(lia)).
  pose proof (Z.mod_pos_bound (a + b - 1) b Hb). destruct (decide (a = 0)) as [->|]; [|left; nia].
  right. split; [done|]. apply Z.div_small. lia.
Qed.

Lemma div_ceil_nonneg a b : 0 < b -> 0 <= a -> 0 <= div_ceil a b.
Proof. intros. unfold div_ceil. apply Z.div_pos; lia. Qed.

Lemma div_ceil_le a b : 0 < b -> 0 <= a -> div_ceil a b <= a.
Proof. intros Hb Ha. destruct (div_ceil_spec a b Hb Ha); nia. Qed.

Lemma land_pred_pow2 a n : 0 <= n -> Z.land a (2 ^ n - 1) = a mod 2 ^ n.
Proof. intros. rewrite <- Z.land_ones by lia. by rewrite Z.ones_equiv, Z.sub_1_r. Qed.

(** ** Bytes and little endian integers *)
#[global] Instance byte_eq_dec : EqDecision byte := Byte.byte_eq_dec.

Definition byte_to_Z (b : byte) : Z := Z.of_N (Byte.to_N b).
Definition byte_of_Z (z : Z) : byte :=
  match Byte.of_N (Z.to_N (z mod 256)) with Some b => b | None => x00 end.

Lemma byte_to_Z_range b : 0 <= byte_to_Z b < 256.
Proof. unfold byte_to_Z. pose proof (Byte.to_N_bounded b). lia. Qed.

Lemma byte_of_to_Z b : byte_of_Z (byte_to_Z b) = b.
Proof.
  unfold byte_of_Z. rewrite Z.mod_small by apply byte_to_Z_range.
  unfold byte_to_Z. by rewrite N2Z.id, Byte.of_to_N.
Qed.

Lemma byte_to_of_Z z : byte_to_Z (byte_of_Z z) = z mod 256.
Proof.
  unfold byte_of_Z, byte_to_Z. pose proof (Z.mod_pos_bound z 256 ltac:(lia)).
  destruct (Byte.of_N _) eqn:E.
  - apply Byte.to_of_N in E. lia.
  - apply Byte.of_N_None_iff in E. lia.
Qed.

#[global] Instance byte_to_Z_inj : Inj (=) (=) byte_to_Z.
Proof. intros b1 b2 H. by rewrite <- (byte_of_to_Z b1), H, byte_of_to_Z. Qed.

#[global] Instance byte_countable : Countable byte :=
  inj_countable' Byte.to_N (fun n => default x00 (Byte.of_N n))
    (fun b => eq_trans (f_equal _ (Byte.of_to_N b)) eq_refl).

(** Bytes of a Rust string literal. *)
Definition bytes (s : string) : list byte := String.list_byte_of_string s.

(** [to_le_bytes] of a [k] byte integer and its inverse [from_le_bytes]. *)
Fixpoint le_bytes (k : nat) (z : Z) : list byte :=
  match k with
  | O => []
  | S k => byte_of_Z z :: le_bytes k (z / 256)
  end.
Fixpoint le_val (l : list byte) : Z :=
  match l with
  | [] => 0
  | b :: l => byte_to_Z b + 256 * le_val l
  end.

Lemma length_le_bytes k z : length (le_bytes k z) = k.
Proof. revert z. induction k; simpl; auto. Qed.

Lemma le_val_bytes k z : le_val (le_bytes k z) = z mod 256 ^ Z.of_nat k.
Proof.
  revert z. induction k as [|k IH]; intros z; cbn [le_bytes le_val].
  - by rewrite Z.mod_1_r.
  - rewrite IH, byte_to_of_Z, Nat2Z.inj_succ, Z.pow_succ_r by lia.
    rewrite Z.rem_mul_r by lia. lia.
Qed.

Lemma le_bytes_val l : le_bytes (length l) (le_val l) = l.
Proof.
  induction l as [|b l IH]; [done|]. cbn [le_val length le_bytes].
  pose proof (byte_to_Z_range b). f_equal.
  - rewrite <- (byte_of_to_Z b) at 2. unfold byte_of_Z at 1.
    replace ((byte_to_Z b + 256 * le_val l) mod 256) with (byte_to_Z b mod 256); [done|].
    by rewrite Z.mul_comm, Z_mod_plus_full.
  - rewrite Z.mul_comm, Z.div_add, Z.div_small by lia. by rewrite Z.add_0_l.
Qed.

Lemma le_val_range l : 0 <= le_val l < 256 ^ Z.of_nat (length l).
Proof.
  induction l as [|b l IH]; cbn [le_val length]; [lia|].
  pose proof (byte_to_Z_range b). rewrite Nat2Z.inj_succ, Z.pow_succ_r by lia. lia.
Qed.

Lemma le_val_u64_bytes z : in_u64 z -> le_val (le_bytes 8 z) = z.
Proof.
  unfold in_u64, U64_MAX. intros. rewrite le_val_bytes. apply Z.mod_small.
  change (256 ^ Z.of_nat 8) with (2 ^ 64). lia.
Qed.

(** ** Slices and memory *)

(** [&l[a..b]], which panics when the range is not inside of the slice. *)
Definition slice {A} (l : list A) (a b : Z) : res (list A) :=
  if (0 <=? a) && (a <=? b) && (b <=? Z.of_nat (length l))
  then Ok (take (Z.to_nat (b - a)) (drop (Z.to_nat a) l))
  else Panic "range out of bounds for slice".

(** [copy_from_slice] into [mem] at byte offset [i] (through a raw pointer):
    outside of the allocation this is undefined behaviour. *)
Definition write_at {A} (i : nat) (k mem : list A) : list A :=
  take i mem ++ k ++ drop (i + length k) mem.
Definition ptr_write {A} (i : Z) (k mem : list A) : res (list A) :=
  if (0 <=? i) && (i + Z.of_nat (length k) <=? Z.of_nat (length mem))
  then Ok (write_at (Z.to_nat i) k mem)
  else Panic "UB".

(** [ftruncate]: cut, or extend with zero bytes. *)
Definition ftruncate (n : Z) (l : list byte) : list byte :=
  resize (Z.to_nat n) x00 l.

Section write_at.
Context {A : Type}.
Implicit Types (k mem : list A).

Lemma length_write_at i k mem :
  (i + length k <= length mem)%nat -> length (write_at i k mem) = length mem.
Proof. intros. unfold write_at. rewrite !length_app, length_take, length_drop. lia. Qed.

Lemma write_at_read i k mem :
  (i + length k <= length mem)%nat -> take (length k) (drop i (write_at i k mem)) = k.
Proof.
  intros. unfold write_at. rewrite drop_app_length'; [|rewrite length_take; lia].
  by rewrite take_app_length.
Qed.

Lemma write_at_read_before i j n k mem :
  (j + n <= i)%nat -> (i + length k <= length mem)%nat ->
  take n (drop j (write_at i k mem)) = take n (drop j mem).
Proof.
  intros. apply list_eq. intros x. destruct (decide (x < n)%nat).
  - rewrite !lookup_take, !decide_True, !lookup_drop by lia. unfold write_at.
    rewrite lookup_app_l by (rewrite length_take; lia). by rewrite lookup_take_lt by lia.
  - by rewrite !lookup_take_ge by lia.
Qed.

Lemma write_at_read_after i j n k mem :
  (i + length k <= j)%nat -> (i + length k <= length mem)%nat ->
  take n (drop j (write_at i k mem)) = take n (drop j mem).
Proof.
  intros. f_equal. unfold write_at. rewrite app_assoc, drop_app_ge.
  - rewrite drop_drop. f_equal. rewrite length_app, length_take. lia.
  - rewrite length_app, length_take. lia.
Qed.
End write_at.

(** ** Automation *)

(** Case analysis on the tests of a Rust function, with the boolean tests of
    integers turned into propositions. *)
Ltac zify_bool :=
  repeat match goal with
  | H : (_ && _)%bool = true |- _ => apply andb_true_iff in H as [? ?]
  | H : (_ || _)%bool = false |- _ => apply orb_false_iff in H as [? ?]
  | H : negb _ = true |- _ => apply negb_true_iff in H
  | H : negb _ = false |- _ => apply negb_false_iff in H
  | H : (_ <=? _) = true |- _ => apply Z.leb_le in H
  | H : (_ <=? _) = false |- _ => apply Z.leb_gt in H
  | H : (_ <? _) = true |- _ => apply Z.ltb_lt in H
  | H : (_ <? _) = false |- _ => apply Z.ltb_ge in H
  | H : (_ =? _) = true |- _ => apply Z.eqb_eq in H
  | H : (_ =? _) = false |- _ => apply Z.eqb_neq in H
  | H : bool_decide _ = true |- _ => apply bool_decide_eq_true in H
  | H : bool_decide _ = false |- _ => apply bool_decide_eq_false in H
  end.

Ltac case_if :=
  match goal with
  | |- context [if ?b then _ else _] => destruct b eqn:?
  end.
Ltac case_if_in H :=
  match type of H with
  | context [if ?b then _ else _] => destruct b eqn:?
  end.

(** Inversion of a hypothesis [f x = Ok y] through the tests and calls of [f]. *)
Ltac inv_res H :=
  repeat (first
    [ progress simplify_eq/=
    | match type of H with
      | context [match ?m with _ => _ end] => destruct m eqn:?
      end ]).

Lemma ok_or_Ok {A} (o : option A) e a : ok_or o e = Ok a <-> o = Some a.
Proof. destruct o; simpl; naive_solver. Qed.

(** The same on every hypothesis [_ = Ok _] and [_ = Some _]. *)
Ltac inv_ok :=
  repeat (first
    [ progress simplify_eq/=
    | match goal with
      | H : ok_or _ _ = Ok _ |- _ => apply ok_or_Ok in H
      | H : ?l = Ok _ |- _ =>
          match l with context [match ?m with _ => _ end] => destruct m eqn:? end
      | H : ?l = Some _ |- _ =>
          match l with context [match ?m with _ => _ end] => destruct m eqn:? end
      | H : ?l = (Ok _, _) |- _ =>
          match l with context [match ?m with _ => _ end] => destruct m eqn:? end
      end ]); zify_bool.

Lemma slice_ok {A} (l : list A) a b :
  0 <= a -> a <= b -> b <= Z.of_nat (length l) ->
  slice l a b = Ok (take (Z.to_nat (b - a)) (drop (Z.to_nat a) l)).
Proof. intros. unfold slice. by rewrite !(proj2 (Z.leb_le _ _)) by lia. Qed.

Lemma ptr_write_ok {A} i (k mem : list A) :
  0 <= i -> i + Z.of_nat (length k) <= Z.of_nat (length mem) ->
  ptr_write i k mem = Ok (write_at (Z.to_nat i) k mem).
Proof. intros. unfold ptr_write. by rewrite !(proj2 (Z.leb_le _ _)) by lia. Qed.

Lemma ptr_write_Ok_inv {A} i (k mem mem' : list A) :
  ptr_write i k mem = Ok mem' ->
  mem' = write_at (Z.to_nat i) k mem /\ 0 <= i /\
  i + Z.of_nat (length k) <= Z.of_nat (length mem).
Proof. unfold ptr_write. intros H. case_if_in H; zify_bool; naive_solver. Qed.

Create HintDb rust discriminated.
#[export] Hint Resolve byte_to_Z_range le_val_range div_ceil_nonneg : rust.
Create Rewrite HintDb rust_len.
#[export] Hint Rewrite @length_app @length_take @length_drop @length_replicate
  @length_insert length_le_bytes : rust_len.
Ltac solve_len := autorewrite with rust_len in *; simpl in *; lia.

(** ** Arrays of fixed size records inside of a byte buffer *)
Section blocks.
Context {A : Type} (n : nat).
Implicit Types (bs : list (list A)) (b : list A).

Definition blocks_ok bs : Prop := Forall (fun b => length b = n) bs.

Lemma length_blocks bs : blocks_ok bs -> length (concat bs) = (n * length bs)%nat.
Proof. induction 1; simpl; [lia|]. rewrite length_app. lia. Qed.

Lemma blocks_take bs i : blocks_ok bs -> take (n * i) (concat bs) = concat (take i bs).
Proof.
  intros H. revert i. induction H as [|b bs Hb H IH]; intros i.
  - simpl. by rewrite !take_nil.
  - destruct i as [|i]; [by rewrite Nat.mul_0_r|]. simpl.
    rewrite take_app, (take_ge b), <- IH by lia. do 2 f_equal. lia.
Qed.

Lemma blocks_drop bs i : blocks_ok bs -> drop (n * i) (concat bs) = concat (drop i bs).
Proof.
  intros H. revert i. induction H as [|b bs Hb H IH]; intros i.
  - simpl. by rewrite !drop_nil.
  - destruct i as [|i]; [by rewrite Nat.mul_0_r|]. simpl.
    rewrite drop_app, (drop_ge b), <- IH by lia. simpl. f_equal. lia.
Qed.

Lemma blocks_read bs i b :
  blocks_ok bs -> bs !! i = Some b -> take n (drop (n * i) (concat bs)) = b.
Proof.
  intros H Hb. rewrite blocks_drop by done. rewrite (drop_S _ _ _ Hb). simpl.
  rewrite take_app_length'; [done|]. symmetry. by eapply Forall_lookup_1 in H.
Qed.

Lemma blocks_write bs i b :
  blocks_ok bs -> length b = n -> (i < length bs)%nat ->
  write_at (n * i) b (concat bs) = concat (<[i:=b]> bs).
Proof.
  intros H Hb Hi. unfold write_at. rewrite Hb, blocks_take by done.
  replace (n * i + n)%nat with (n * S i)%nat by lia.
  rewrite blocks_drop by done. rewrite insert_take_drop by done.
  by rewrite concat_app.
Qed.

Lemma blocks_ok_insert bs i b : blocks_ok bs -> length b = n -> blocks_ok (<[i:=b]> bs).
Proof. intros. by apply Forall_insert. Qed.

Lemma blocks_ok_take bs i : blocks_ok bs -> blocks_ok (take i bs).
Proof. intros. by apply Forall_take. Qed.

Lemma blocks_ok_replicate b k : length b = n -> blocks_ok (replicate k b).
Proof. intros. by apply Forall_replicate. Qed.

Lemma blocks_ok_resize bs b k : blocks_ok bs -> length b = n -> blocks_ok (resize k b bs).
Proof. intros. by apply Forall_resize. Qed.
End blocks.

Lemma concat_replicate {A} k (b : A) n :
  concat (replicate k (replicate n b)) = replicate (n * k) b.
Proof.
  induction k as [|k IH]; simpl; [by rewrite Nat.mul_0_r|].
  rewrite IH, <- replicate_add. f_equal. lia.
Qed.

(** Truncating or extending the buffer truncates or extends the array. *)
Lemma resize_blocks {A} n k (x : A) (bs : list (list A)) :
  blocks_ok n bs ->
  resize (n * k) x (concat bs) = concat (resize k (replicate n x) bs).
Proof.
  intros H. destruct (decide (k <= length bs)%nat).
  - rewrite !resize_le, (blocks_take n) by (try done; rewrite ?(length_blocks n) by done; nia).
    done.
  - rewrite !resize_ge by (rewrite ?(length_blocks n) by done; nia).
    rewrite concat_app, concat_replicate, (length_blocks n) by done. do 2 f_equal. nia.
Qed.
