(* ===== verification/IndexFile.v ===== *)
(** * Index files: the common interface and the memory mapped file layout

    [pbs-datastore/src/index.rs] (the [IndexFile] trait and
    [find_most_used_chunks]), [pbs-datastore/src/index_mmap.rs] (a header
    followed by an array, mapped read-only) and the magic numbers of
    [pbs-datastore/src/file_formats.rs].  The trait is a type class; the laws that
    clients (garbage collection, buffered readers, verification) rely on are a second
    class, [IndexFileLaws], which the fixed and the dynamic index discharge. *)

From S2P Require Import Prelude.
From Stdlib Require Import Strings.Byte.

(** A SHA-256 digest, [[u8; 32]]. *)
Abbreviation digest := (list byte).

(** Magic numbers, [file_formats.rs]. *)
Definition PROXMOX_CATALOG_FILE_MAGIC_1_0 : list byte :=
  byte_of_Z <$> [145; 253; 96; 249; 196; 103; 88; 213].
Definition UNCOMPRESSED_BLOB_MAGIC_1_0 : list byte :=
  byte_of_Z <$> [66; 171; 56; 7; 190; 131; 112; 161].
Definition COMPRESSED_BLOB_MAGIC_1_0 : list byte :=
  byte_of_Z <$> [49; 185; 88; 66; 111; 182; 163; 127].
Definition ENCRYPTED_BLOB_MAGIC_1_0 : list byte :=
  byte_of_Z <$> [123; 103; 133; 190; 34; 45; 76; 240].
Definition ENCR_COMPR_BLOB_MAGIC_1_0 : list byte :=
  byte_of_Z <$> [230; 89; 27; 191; 11; 191; 216; 11].
Definition FIXED_SIZED_CHUNK_INDEX_1_0 : list byte :=
  byte_of_Z <$> [47; 127; 65; 237; 145; 253; 15; 205].
Definition DYNAMIC_SIZED_CHUNK_INDEX_1_0 : list byte :=
  byte_of_Z <$> [28; 145; 78; 165; 25; 186; 179; 205].

(** [struct ChunkReadInfo]: the range of the content and the digest of its chunk. *)
Record ChunkReadInfo := {
  range_start : Z;
  range_end : Z;
  cri_digest : digest;
}.

Definition ChunkReadInfo_size (i : ChunkReadInfo) : Z :=
  u64 (range_end i - range_start i).

(** The trait [IndexFile]. *)
Class IndexFile (R : Type) := {
  index_count : R -> Z;
  index_digest : R -> Z -> option digest;
  index_bytes : R -> res Z;
  chunk_info : R -> Z -> option ChunkReadInfo;
  index_ctime : R -> Z;
  index_size : R -> Z;
  chunk_from_offset : R -> Z -> res (option (Z * Z));
}.

(** What an index promises to its users, for the readers that satisfy [ok]:
    every position below [index_count] has a digest and a range, the ranges are
    adjacent, start at 0 and end at [index_bytes], and [chunk_from_offset]
    finds the range that holds an offset. *)
Class IndexFileLaws (R : Type) `{IndexFile R} (ok : R -> Prop) := {
  law_count r : ok r -> 0 < index_count r;
  law_digest r pos :
    ok r -> 0 <= pos -> is_Some (index_digest r pos) <-> pos < index_count r;
  law_chunk_info r pos :
    ok r -> 0 <= pos < index_count r -> exists i,
      chunk_info r pos = Some i /\ index_digest r pos = Some (cri_digest i) /\
      0 <= range_start i <= range_end i;
  law_first r i : ok r -> chunk_info r 0 = Some i -> range_start i = 0;
  law_adjacent r pos i j :
    ok r -> 0 <= pos -> chunk_info r pos = Some i -> chunk_info r (pos + 1) = Some j ->
    range_start j = range_end i;
  law_last r i :
    ok r -> chunk_info r (index_count r - 1) = Some i -> index_bytes r = Ok (range_end i);
  law_offset r off n :
    ok r -> index_bytes r = Ok n -> 0 <= off < n -> exists pos i,
      chunk_from_offset r off = Ok (Some (pos, off - range_start i)) /\
      0 <= pos /\ chunk_info r pos = Some i /\ range_start i <= off < range_end i;
  law_offset_past r off n :
    ok r -> index_bytes r = Ok n -> n <= off -> chunk_from_offset r off = Ok None;
}.

(** ** [IndexMmap]

    A file is its content and whether it is a regular file; [mmap] is the
    outcome of the mapping call (the page aligned address, or a failure).
    [H] and [T] are given by their sizes and alignments. *)
Record File := { f_regular : bool; f_data : list byte }.

Record IndexMmap := { memory : list byte; index_len : Z; header_len : Z; elem_len : Z }.

Definition map_read (size_H align_H size_T align_T : Z) (file : File) (mmap : option Z)
    : res IndexMmap :=
  if negb (f_regular file) then Err "not a regular file" else
  let size := Z.of_nat (length (f_data file)) in
  let? index_size := ok_or (checked_sub size size_H) "file too small" in
  let? index_len := ok_or
      (if size_T =? 0 then None
       else let l := index_size / size_T in
            if u64 (l * size_T) =? index_size then Some l else None)
      "index size is not divisible by element size" in
  let? base := ok_or mmap "mmap failed" in
  if negb ((base mod align_H =? 0) && ((base + size_H) mod align_T =? 0))
  then Err "alignment error"
  else Ok {| memory := f_data file; index_len := index_len;
             header_len := size_H; elem_len := size_T |}.

Definition mmap_header (m : IndexMmap) : list byte :=
  take (Z.to_nat (header_len m)) (memory m).
(** Element [pos] of [index()], as [slice::get]. *)
Definition mmap_index (m : IndexMmap) (pos : Z) : option (list byte) :=
  if (0 <=? pos) && (pos <? index_len m)
  then Some (take (Z.to_nat (elem_len m))
               (drop (Z.to_nat (header_len m + elem_len m * pos)) (memory m)))
  else None.
Definition mmap_size (m : IndexMmap) : Z := Z.of_nat (length (memory m)).

Lemma map_read_Ok_inv size_H align_H size_T align_T file mm m :
  0 <= size_H -> 0 < size_T ->
  map_read size_H align_H size_T align_T file mm = Ok m ->
  memory m = f_data file /\ header_len m = size_H /\ elem_len m = size_T /\
  0 <= index_len m /\
  Z.of_nat (length (f_data file)) = size_H + index_len m * size_T.
Proof.
  intros ??. unfold map_read, checked_sub. intros HH. inv_ok.
  split_and!; [done..|apply Z.div_pos; lia|].
  match goal with H : u64 _ = _ |- _ => unfold wrapu in H end.
  set (s := Z.of_nat (length (f_data file)) - size_H) in *.
  pose proof (Z.mod_pos_bound (s / size_T * size_T) (2 ^ 64) ltac:(done)).
  assert (0 <= s / size_T * size_T <= s).
  { pose proof (Z.div_pos s size_T). pose proof (Z.mul_div_le s size_T). nia. }
  rewrite Z.mod_small in * by lia. lia.
Qed.

(** A mapping cannot be larger than the address space of a process
    (47 bits on the platforms the program supports). *)
Definition ADDRESS_SPACE : Z := 2 ^ 47.

(** A file that is a header followed by an array of records maps to them. *)
Lemma map_read_blocks size_H align_H size_T align_T hdr bs base :
  0 < size_H -> 0 < size_T ->
  Z.of_nat (length hdr) = size_H -> blocks_ok (Z.to_nat size_T) bs ->
  Z.of_nat (length (hdr ++ concat bs)) <= U64_MAX ->
  base mod align_H = 0 -> (base + size_H) mod align_T = 0 ->
  map_read size_H align_H size_T align_T
    {| f_regular := true; f_data := hdr ++ concat bs |} (Some base)
  = Ok {| memory := hdr ++ concat bs; index_len := Z.of_nat (length bs);
          header_len := size_H; elem_len := size_T |}.
Proof.
  intros HH HT Hhdr Hbs Hmax Ha1 Ha2. unfold map_read, checked_sub. simpl.
  rewrite length_app, (length_blocks _ _ Hbs) in *.
  replace (Z.of_nat (length hdr + Z.to_nat size_T * length bs) - size_H)
    with (Z.of_nat (length bs) * size_T) by lia.
  rewrite (proj2 (Z.leb_le _ _)) by lia. simpl.
  rewrite (proj2 (Z.eqb_neq _ _)) by lia. rewrite Z.div_mul by lia.
  rewrite u64_small by (unfold in_u64, U64_MAX in *; lia).
  rewrite Z.eqb_refl. simpl. rewrite Ha1, Ha2. done.
Qed.

Lemma mmap_index_blocks hdr bs size_H size_T pos :
  0 <= size_H -> 0 <= size_T -> 0 <= pos ->
  Z.of_nat (length hdr) = size_H -> blocks_ok (Z.to_nat size_T) bs ->
  mmap_index {| memory := hdr ++ concat bs; index_len := Z.of_nat (length bs);
                header_len := size_H; elem_len := size_T |} pos
  = bs !! Z.to_nat pos.
Proof.
  intros ??? Hhdr Hbs. unfold mmap_index. simpl.
  destruct (decide (pos < Z.of_nat (length bs))) as [Hp|Hp].
  - rewrite (proj2 (Z.leb_le 0 _)), (proj2 (Z.ltb_lt _ _)) by lia. simpl.
    destruct (lookup_lt_is_Some_2 bs (Z.to_nat pos)) as [b Hb]; [lia|].
    rewrite Hb. f_equal. rewrite drop_app_ge by lia.
    replace (Z.to_nat (size_H + size_T * pos) - length hdr)%nat
      with (Z.to_nat size_T * Z.to_nat pos)%nat by lia.
    by apply blocks_read.
  - rewrite (proj2 (Z.ltb_ge _ _)) by lia. rewrite andb_false_r.
    symmetry. apply lookup_ge_None_2. lia.
Qed.

(** ** [IndexFile::find_most_used_chunks]

    The iteration order of the [HashMap] is the parameter [iter] and the
    position that [binary_search_by_key] returns the parameter [search] (with
    several matches any of them may be returned). *)
Section find_most_used.
Context {R : Type} `{IndexFile R}.
Variable iter : gmap digest Z -> list (digest * Z).
Variable search : list (digest * Z) -> Z -> nat + nat.

Definition count_digest (r : R) (acc : res (gmap digest Z)) (pos : Z)
    : res (gmap digest Z) :=
  let? map := acc in
  let? d := unwrap (index_digest r pos) in
  Ok (<[d := default 0 (map !! d) + 1]> map).

Definition count_digests (r : R) : res (gmap digest Z) :=
  foldl (count_digest r) (Ok ∅) (seqZ 0 (index_count r)).

Definition most_used_step (max : Z) (most_used : list (digest * Z)) (e : digest * Z)
    : list (digest * Z) :=
  if e.2 <=? 1 then most_used else
  let most_used :=
    match search most_used e.2 with
    | inl p => take p most_used ++ [e] ++ drop p most_used
    | inr p => take p most_used ++ [e] ++ drop p most_used
    end in
  if max <? Z.of_nat (length most_used)
  then take (length most_used - 1) most_used
  else most_used.

Definition find_most_used_chunks (r : R) (max : Z) : res (gmap digest Z) :=
  let? map := count_digests r in
  let most_used := foldl (most_used_step max) [] (iter map) in
  Ok (foldl (fun (map : gmap digest Z) (e : digest * Z) => <[e.1 := e.2]> map) ∅ most_used).
End find_most_used.

Lemma count_digests_fold {R} `{IndexFile R} (r : R) l m :
  (forall pos, pos ∈ l -> is_Some (index_digest r pos)) ->
  exists m', foldl (count_digest r) (Ok m) l = Ok m'.
Proof.
  revert m. induction l as [|p l IH]; intros m Hl; [by eexists|]. simpl.
  destruct (Hl p) as [d Hd]; [set_solver|]. rewrite Hd. simpl. apply IH. set_solver.
Qed.

Lemma count_digests_total {R} `{IndexFile R} (ok : R -> Prop) `{!IndexFileLaws R ok} r :
  ok r -> exists m, count_digests r = Ok m.
Proof.
  intros Hr. apply count_digests_fold. intros pos Hpos%elem_of_seqZ.
  apply (law_digest (ok := ok)); [done|lia..].
Qed.

Section find_most_used_facts.
Variable iter : gmap digest Z -> list (digest * Z).
Variable search : list (digest * Z) -> Z -> nat + nat.

Definition le_count (a b : digest * Z) : Prop := a.2 <= b.2.

(** [HashMap] iteration visits every entry once, in some order. *)
Definition iter_ok : Prop := forall m, iter m ≡ₚ map_to_list m.
(** The documented result of [binary_search_by_key] on a sorted slice. *)
Definition search_ok : Prop := forall l c, StronglySorted le_count l ->
  match search l c with
  | inl p => exists e, l !! p = Some e /\ e.2 = c
  | inr p => (p <= length l)%nat /\
      forall i e, l !! i = Some e -> if decide (i < p)%nat then e.2 < c else c < e.2
  end.

Lemma StronglySorted_lookup l i j a b :
  StronglySorted le_count l -> (i <= j)%nat -> l !! i = Some a -> l !! j = Some b -> a.2 <= b.2.
Proof.
  intros Hs. revert i j. induction Hs as [|x l Hs IH Hx]; intros i j Hij Ha Hb; [done|].
  destruct i as [|i], j as [|j]; simplify_eq/=; try lia.
  - rewrite Forall_forall in Hx. apply Hx, list_elem_of_lookup. eauto.
  - eapply IH; [|done..]. lia.
Qed.

(** Wherever the search lands, inserting there keeps the order. *)
Lemma search_pos l c :
  search_ok -> StronglySorted le_count l ->
  let p := match search l c with inl p => p | inr p => p end in
  (p <= length l)%nat /\
  (forall a, a ∈ take p l -> a.2 <= c) /\ (forall a, a ∈ drop p l -> c <= a.2).
Proof.
  intros Hok Hs. specialize (Hok l c Hs). destruct (search l c) as [p|p].
  - destruct Hok as (e & He & <-). pose proof (lookup_lt_Some _ _ _ He).
    split; [lia|]. split; intros a (i & Hi)%list_elem_of_lookup.
    + apply lookup_take_Some in Hi as [Hi ?]. eapply StronglySorted_lookup; [done| |done..]. lia.
    + rewrite lookup_drop in Hi. eapply StronglySorted_lookup; [done| |done..]. lia.
  - destruct Hok as [? Hok]. split; [lia|]. split; intros a (i & Hi)%list_elem_of_lookup.
    + apply lookup_take_Some in Hi as [Hi ?]. specialize (Hok _ _ Hi). case_decide; lia.
    + rewrite lookup_drop in Hi. specialize (Hok _ _ Hi). case_decide; lia.
Qed.

(** The entries visited so far against the list kept: it is sorted, and an
    entry that is not in it was pushed out by entries with smaller counts. *)
Record most_used_inv (max : Z) (seen acc : list (digest * Z)) : Prop := {
  mu_sorted : StronglySorted le_count acc;
  mu_sub a : a ∈ acc -> a ∈ seen /\ 1 < a.2;
  mu_len : Z.of_nat (length acc) <= max;
  mu_out e : e ∈ seen -> 1 < e.2 -> e ∉ acc ->
    Z.of_nat (length acc) = max /\ forall a, a ∈ acc -> a.2 <= e.2;
  mu_nodup : NoDup acc;
}.

Lemma most_used_step_inv max seen acc e :
  search_ok -> e ∉ seen ->
  most_used_inv max seen acc ->
  most_used_inv max (e :: seen) (most_used_step search max acc e).
Proof.
  intros Hok Hnew [Hs Hsub Hlen Hout Hnd]. unfold most_used_step.
  destruct (e.2 <=? 1) eqn:He; zify_bool.
  { split; [done|set_solver|done| |done]. intros x [->|?]%elem_of_cons; [lia|]. by apply Hout. }
  pose proof (search_pos acc e.2 Hok Hs) as Hp. simpl in Hp.
  set (p := match search acc e.2 with inl p => p | inr p => p end) in Hp.
  replace (match search acc e.2 with
           | inl p => take p acc ++ [e] ++ drop p acc
           | inr p => take p acc ++ [e] ++ drop p acc
           end) with (take p acc ++ [e] ++ drop p acc) by (unfold p; by destruct (search acc e.2)).
  destruct Hp as (Hple & Hbefore & Hafter).
  set (acc' := take p acc ++ [e] ++ drop p acc).
  assert (acc' ≡ₚ e :: acc) as Hperm.
  { unfold acc'. simpl. rewrite <- Permutation_middle. by rewrite take_drop. }
  assert (StronglySorted le_count acc') as Hs'.
  { unfold acc'. rewrite <- (take_drop p acc) in Hs.
    apply StronglySorted_app in Hs as (Hcross & Hs1 & Hs2).
    apply StronglySorted_app. repeat split; [|done|].
    - intros a b Ha [->%list_elem_of_singleton|Hb]%elem_of_app; [by apply Hbefore|].
      by apply Hcross.
    - constructor; [done|]. apply Forall_forall. apply Hafter. }
  assert (length acc' = S (length acc)) as Hlen' by by rewrite Hperm.
  assert (NoDup acc') as Hnd' by (rewrite Hperm; constructor; [naive_solver|done]).
  clearbody acc' p. clear Hbefore Hafter Hple.
  destruct (max <? _) eqn:Hm; zify_bool.
  - (* the list is full: [pop] *)
    destruct acc' as [|x acc' _] using rev_ind; [done|].
    rewrite length_app in Hlen', Hm |- *. simpl in Hlen', Hm |- *.
    rewrite Nat.add_sub, take_app_length.
    apply StronglySorted_app in Hs' as (Hlast & Hs' & _).
    assert (forall a, a ∈ acc' -> a.2 <= x.2) as Hlast' by (intros; apply Hlast; set_solver).
    assert (forall a, a ∈ acc' \/ a = x <-> a = e \/ a ∈ acc) as Hel.
    { intros a. rewrite <- elem_of_cons, <- Hperm. set_solver. }
    split; [done| |lia| |by apply NoDup_app in Hnd' as [? _]].
    + intros a Ha. rewrite elem_of_cons. destruct (proj1 (Hel a)) as [->|?]; [by left|auto|].
      naive_solver.
    + intros y Hy Hy1 Hyacc. split; [lia|]. intros a Ha.
      destruct (decide (y = x)) as [->|Hyx]; [by apply Hlast'|].
      assert (y ∉ acc) by (intros ?; destruct (proj2 (Hel y)); naive_solver).
      assert (y <> e) by (intros ->; destruct (proj2 (Hel e)); naive_solver).
      apply elem_of_cons in Hy as [?|Hy]; [done|].
      destruct (Hout y Hy Hy1) as [Hfull Hy2]; [done|].
      destruct (proj1 (Hel a)) as [->|?]; [by left| |by apply Hy2].
      destruct (proj1 (Hel x)) as [->|?]; [by right| |].
      * exfalso. rewrite (Permutation_app_comm acc' [e]) in Hperm.
        apply Permutation_cons_inv in Hperm. rewrite Hperm in Ha. naive_solver.
      * etrans; [by apply Hlast'|]. by apply Hy2.
  - split; [done| |lia| |done].
    + intros a Ha. rewrite Hperm, elem_of_cons in Ha. set_solver.
    + intros y Hy Hy1 Hyacc. rewrite Hperm, not_elem_of_cons in Hyacc.
      apply elem_of_cons in Hy as [->|Hy]; [naive_solver|].
      destruct (Hout y Hy Hy1) as [? _]; [naive_solver|lia].
Qed.

Lemma most_used_fold_inv max seen acc l :
  search_ok -> NoDup (seen ++ l) -> most_used_inv max seen acc ->
  most_used_inv max (reverse l ++ seen) (foldl (most_used_step search max) acc l).
Proof.
  intros Hok. revert seen acc. induction l as [|e l IH]; intros seen acc Hnd Hinv; [done|].
  cbn [foldl]. rewrite reverse_cons, <- (assoc_L (++)). apply IH.
  - simpl. by rewrite Permutation_middle.
  - apply most_used_step_inv; [done| |done].
    rewrite NoDup_app in Hnd. set_solver.
Qed.

Lemma foldl_insert_union (l : list (digest * Z)) (m : gmap digest Z) :
  foldl (fun (map : gmap digest Z) e => <[e.1 := e.2]> map) m l
  = list_to_map (reverse l) ∪ m.
Proof.
  revert m. induction l as [|[d c] l IH]; intros m; simpl.
  - by rewrite (left_id_L ∅ (∪)).
  - rewrite IH, reverse_cons, list_to_map_app, <- (assoc_L (∪)). f_equal. simpl.
    rewrite insert_empty. by rewrite insert_union_singleton_l.
Qed.
End find_most_used_facts.

(** [find_most_used_chunks] documents that it returns the most often used
    chunks, but the list it keeps is sorted by ascending count and [pop]
    removes its last entry: whenever an entry is left out, every entry
    returned is used at most as often.  The call always succeeds, returns only
    chunks that are used more than once, with their true counts, and at most
    [max] of them. *)
Theorem find_most_used_keeps_least {R} `{IndexFile R} (ok : R -> Prop) `{!IndexFileLaws R ok}
    iter search (r : R) (max : Z) :
  iter_ok iter -> search_ok search -> ok r -> 0 <= max ->
  exists counts result,
    count_digests r = Ok counts /\
    find_most_used_chunks iter search r max = Ok result /\
    Z.of_nat (size result) <= max /\
    (forall d c, result !! d = Some c -> counts !! d = Some c /\ 1 < c) /\
    (forall d' c', counts !! d' = Some c' -> 1 < c' -> result !! d' = None ->
       Z.of_nat (size result) = max /\ forall d c, result !! d = Some c -> c <= c').
Proof.
  intros Hit Hse Hr Hmax.
  destruct (count_digests_total ok r Hr) as [counts Hc].
  exists counts. unfold find_most_used_chunks. rewrite Hc. eexists. split; [done|]. split; [done|].
  assert (NoDup (iter counts)) as Hnd by (rewrite (Hit counts); apply NoDup_map_to_list).
  pose proof (most_used_fold_inv search max [] [] (iter counts) Hse) as Hinv.
  rewrite app_nil_r in Hinv. destruct Hinv as [_ Hsub Hlen Hout Hkey]; [done| |].
  { split; [constructor|set_solver|simpl; lia|set_solver|constructor]. }
  set (acc := foldl _ _ _) in *.
  assert (forall a, a ∈ acc -> counts !! a.1 = Some a.2 /\ 1 < a.2) as Hacc.
  { intros [d c] Ha. destruct (Hsub _ Ha) as [Hin ?]. split; [|done].
    rewrite elem_of_reverse, (Hit counts) in Hin. by apply elem_of_map_to_list in Hin. }
  assert (NoDup acc.*1) as Hkeys.
  { apply NoDup_fmap_2_strong; [|done]. intros [d c] [d' c'] Ha Ha' ?.
    apply Hacc in Ha as [??], Ha' as [??]. simpl in *. congruence. }
  rewrite (foldl_insert_union acc ∅), (right_id_L ∅ (∪)).
  assert (NoDup (reverse acc).*1) as Hkeys' by by rewrite fmap_reverse, reverse_Permutation.
  assert (size (list_to_map (reverse acc) : gmap digest Z) = length acc) as ->.
  { rewrite <- length_map_to_list, map_to_list_to_map by done. apply length_reverse. }
  assert (forall d c, (list_to_map (reverse acc) : gmap digest Z) !! d = Some c <-> (d, c) ∈ acc)
    as Hlook.
  { intros d c. rewrite <- elem_of_list_to_map by done. by rewrite elem_of_reverse. }
  split; [done|]. split; [intros d c Hd%Hlook; by apply (Hacc (d, c))|].
  intros d' c' Hd' Hc' Hnone. destruct (Hout (d', c')) as [Hfull Hle]; [|done| |].
  - rewrite elem_of_reverse, (Hit counts). by apply elem_of_map_to_list.
  - intros Hin%Hlook. congruence.
  - split; [done|]. intros d c Hd%Hlook. by apply (Hle (d, c)).
Qed.
