(* ===== verification/FixedIndex.v ===== *)
(** * Fixed size chunk index, [pbs-datastore/src/fixed_index.rs]

    Module [Reader] models [FixedIndexReader] (opening and checking a mapped
    file, and its [IndexFile] methods), module [Writer] models
    [FixedIndexWriter]: a temporary file that is mapped read-write, grows with
    [ftruncate]/[mremap], and is renamed into place by [close].

    The writer's [file] is the content of the open temporary file; the mapping
    is [MAP_SHARED], so the mapped memory and the file content are one list of
    bytes, and [memory] records whether it is mapped.  System calls may fail:
    every operation takes the outcomes [io] of the calls it makes. *)

From S2P Require Import Prelude IndexFile.
From Stdlib Require Import Strings.Byte.

Definition FIXED_CHUNK_SIZE : Z := 4096 * 1024.
(** [size_of::<FixedIndexHeader>()], checked by [static_assert_size!]. *)
Definition HEADER_SIZE : Z := 4096.

Ltac unfold_consts :=
  unfold div_ceil, FIXED_CHUNK_SIZE, in_u64, in_u32, U64_MAX, HEADER_SIZE, I64_MAX in *.

(** [#[repr(C)] struct FixedIndexHeader], field by field. *)
Record FixedIndexHeader := {
  h_magic : list byte;
  h_uuid : list byte;
  h_ctime : Z;
  h_index_csum : list byte;
  h_size : Z;
  h_chunk_size : Z;
  h_reserved : list byte;
}.

Definition off_magic : Z := 0.
Definition off_uuid : Z := 8.
Definition off_ctime : Z := 24.
Definition off_index_csum : Z := 32.
Definition off_size : Z := 64.
Definition off_chunk_size : Z := 72.

Definition field (o n : Z) (b : list byte) : list byte :=
  take (Z.to_nat n) (drop (Z.to_nat o) b).

Definition FixedIndexHeader_of_bytes (b : list byte) : FixedIndexHeader := {|
  h_magic := field off_magic 8 b;
  h_uuid := field off_uuid 16 b;
  h_ctime := i64 (le_val (field off_ctime 8 b));
  h_index_csum := field off_index_csum 32 b;
  h_size := le_val (field off_size 8 b);
  h_chunk_size := le_val (field off_chunk_size 8 b);
  h_reserved := field 80 4016 b;
|}.

Module Reader.
Record FixedIndexReader := {
  mmap : IndexMmap;
  chunk_size : Z;
  size : Z;
  uuid : list byte;
  ctime : Z;
  index_csum : list byte;
}.

Definition new (file : File) (map_addr : option Z) : res FixedIndexReader :=
  let? mmap := map_read HEADER_SIZE 8 32 1 file map_addr in
  let header := FixedIndexHeader_of_bytes (mmap_header mmap) in
  if negb (bool_decide (h_magic header = FIXED_SIZED_CHUNK_INDEX_1_0))
  then Err "got unknown magic number" else
  let size := h_size header in
  let ctime := h_ctime header in
  let chunk_size := h_chunk_size header in
  if negb (chunk_size =? FIXED_CHUNK_SIZE) then Err "got unsupported fixed chunk size" else
  if negb (is_power_of_two chunk_size) then Err "got non-power-of-two chunk size" else
  let index_length := div_ceil size chunk_size in
  let expected_index_size := index_len mmap * 32 in
  if negb (bool_decide (checked_mul index_length 32 = Some expected_index_size))
  then Err "unexpected index size" else
  if index_len mmap =? 0 then Err "index must not be empty" else
  Ok {| mmap := mmap; chunk_size := chunk_size; size := size; uuid := h_uuid header;
        ctime := ctime; index_csum := h_index_csum header |}.

(** [open]: the file system lookup is the parameter [file]. *)
Definition open (file : option File) (map_addr : option Z) : res FixedIndexReader :=
  match file with
  | None => Err "Unable to open fixed index"
  | Some f =>
      match new f map_addr with
      | Err _ => Err "Unable to open fixed index"
      | r => r
      end
  end.

Definition index_count (r : FixedIndexReader) : Z := index_len (mmap r).

Definition index_digest (r : FixedIndexReader) (pos : Z) : option digest :=
  mmap_index (mmap r) pos.

Definition index_bytes (r : FixedIndexReader) : Z := size r.

Definition chunk_info (r : FixedIndexReader) (pos : Z) : option ChunkReadInfo :=
  digest ← index_digest r pos;
  let start := u64 (pos * chunk_size r) in
  let end_ := u64 (start + chunk_size r) `min` size r in
  Some {| range_start := start; range_end := end_; cri_digest := digest |}.

Definition chunk_from_offset (r : FixedIndexReader) (offset : Z) : option (Z * Z) :=
  if size r <=? offset then None
  else Some (offset / chunk_size r, Z.land offset (chunk_size r - 1)).

(** [compute_csum]: the hash of all digests in order and the end of the last
    chunk; [sha256] stands for the OpenSSL function. *)
Definition csum_step (r : FixedIndexReader) (acc : res (list byte * Z)) (pos : Z)
    : res (list byte * Z) :=
  let? (data, _) := acc in
  let? info := unwrap (chunk_info r pos) in
  Ok (data ++ cri_digest info, range_end info).
Definition compute_csum (sha256 : list byte -> list byte) (r : FixedIndexReader)
    : res (list byte * Z) :=
  let? (data, chunk_end) :=
    foldl (csum_step r) (Ok ([], 0)) (seqZ 0 (index_count r)) in
  Ok (sha256 data, chunk_end).
End Reader.

#[export] Instance FixedIndexReader_IndexFile : IndexFile Reader.FixedIndexReader := {
  index_count := Reader.index_count;
  index_digest := Reader.index_digest;
  index_bytes r := Ok (Reader.index_bytes r);
  chunk_info := Reader.chunk_info;
  index_ctime := Reader.ctime;
  index_size r := mmap_size (Reader.mmap r);
  chunk_from_offset r off := Ok (Reader.chunk_from_offset r off);
}.

Module Writer.
Record FixedIndexWriter := {
  file : list byte;
  filename : string;
  tmp_filename : string;
  chunk_size : Z;
  size : Z;
  index_length : Z;
  index_capacity : Z;
  memory : bool;
  uuid : list byte;
  ctime : Z;
  growable_size : bool;
}.

(** Outcomes of the system calls made by one operation. *)
Record Io := {
  open_ok : bool;
  ftruncate_ok : bool;
  mmap_ok : bool;
  mremap_ok : bool;
  munmap_ok : bool;
  rename_ok : bool;
}.
Definition io_ok : Io := Build_Io true true true true true true.

Definition set_file (f : list byte) (w : FixedIndexWriter) : FixedIndexWriter :=
  {| file := f; filename := filename w; tmp_filename := tmp_filename w;
     chunk_size := chunk_size w; size := size w; index_length := index_length w;
     index_capacity := index_capacity w; memory := memory w; uuid := uuid w;
     ctime := ctime w; growable_size := growable_size w |}.
Definition set_memory (m : bool) (w : FixedIndexWriter) : FixedIndexWriter :=
  {| file := file w; filename := filename w; tmp_filename := tmp_filename w;
     chunk_size := chunk_size w; size := size w; index_length := index_length w;
     index_capacity := index_capacity w; memory := m; uuid := uuid w;
     ctime := ctime w; growable_size := growable_size w |}.
Definition set_capacity (c : Z) (w : FixedIndexWriter) : FixedIndexWriter :=
  {| file := file w; filename := filename w; tmp_filename := tmp_filename w;
     chunk_size := chunk_size w; size := size w; index_length := index_length w;
     index_capacity := c; memory := memory w; uuid := uuid w;
     ctime := ctime w; growable_size := growable_size w |}.
Definition set_growable (g : bool) (w : FixedIndexWriter) : FixedIndexWriter :=
  {| file := file w; filename := filename w; tmp_filename := tmp_filename w;
     chunk_size := chunk_size w; size := size w; index_length := index_length w;
     index_capacity := index_capacity w; memory := memory w; uuid := uuid w;
     ctime := ctime w; growable_size := g |}.
Definition set_length_size (l s : Z) (w : FixedIndexWriter) : FixedIndexWriter :=
  {| file := file w; filename := filename w; tmp_filename := tmp_filename w;
     chunk_size := chunk_size w; size := s; index_length := l;
     index_capacity := index_capacity w; memory := memory w; uuid := uuid w;
     ctime := ctime w; growable_size := growable_size w |}.

Definition INITIAL_CAPACITY : Z := 4096 / 32.

Definition file_size (index_length : Z) : res Z :=
  if index_length =? 0 then Err "fidx file must have at least one chunk" else
  ok_or
    (s ← checked_mul index_length 32;
     s ← checked_add s HEADER_SIZE;
     if s <=? I64_MAX then Some s else None)
    "fidx file size overflow".

(** [create]: [ctime] and [uuid] are the current time and a fresh UUID, and
    [tmp_path] the path with extension [tmp_fidx]. *)
Definition create (io : Io) (ctime : Z) (uuid : list byte) (full_path tmp_path : string)
    (known_size : option Z) (chunk_size : Z) : res FixedIndexWriter :=
  if negb (open_ok io) then Err "open failed" else
  if negb (is_power_of_two chunk_size) then Err "got non-power-of-two chunk size" else
  if negb (chunk_size =? FIXED_CHUNK_SIZE) then Err "got unsupported fixed chunk size" else
  let size := default 0 known_size in
  let '(index_length, index_capacity) :=
    match known_size with
    | Some s => let len := div_ceil s chunk_size in (len, len)
    | None => (0, INITIAL_CAPACITY)
    end in
  let? file_size := file_size index_capacity in
  if negb (ftruncate_ok io) then Err "ftruncate failed" else
  let mem := ftruncate file_size [] in
  if file_size =? 0 then Err "index file size cannot be zero" else
  if negb (mmap_ok io) then Err "mmap failed" else
  let? mem := ptr_write off_magic FIXED_SIZED_CHUNK_INDEX_1_0 mem in
  let? mem := ptr_write off_ctime (le_bytes 8 ctime) mem in
  let? mem := ptr_write off_chunk_size (le_bytes 8 chunk_size) mem in
  let? mem := ptr_write off_uuid uuid mem in
  Ok {| file := mem; filename := full_path; tmp_filename := tmp_path;
        chunk_size := chunk_size; size := size; index_length := index_length;
        index_capacity := index_capacity; memory := true; uuid := uuid; ctime := ctime;
        growable_size := negb (bool_decide (is_Some known_size)) |}.

Definition set_index_capacity (io : Io) (new_capacity : Z) (w : FixedIndexWriter)
    : res unit * FixedIndexWriter :=
  if new_capacity =? index_capacity w then (Ok tt, w) else
  try! _ := file_size (index_capacity w) for w in
  try! new_size := file_size new_capacity for w in
  if negb (memory w) then (Err "Can't resize unmapped FixedIndexWriter", w) else
  if negb (ftruncate_ok io) then (Err "ftruncate failed", w) else
  let w := set_file (ftruncate new_size (file w)) w in
  if negb (mremap_ok io) then (Err "mremap failed", w) else
  (Ok tt, set_capacity new_capacity w).

Definition unmap (io : Io) (w : FixedIndexWriter) : res unit * FixedIndexWriter :=
  if memory w then
    let w := set_memory false w in
    match file_size (index_capacity w) with
    | Err _ => (Err "calculation of index file size for unmapping failed", w)
    | Panic e => (Panic e, w)
    | Ok _ =>
        if negb (munmap_ok io) then (Err "unmap file failed", w) else (Ok tt, w)
    end
  else (Ok tt, w).

Definition set_index_capacity_or_unmap (io : Io) (new_capacity : Z) (w : FixedIndexWriter)
    : res unit * FixedIndexWriter :=
  match set_index_capacity io new_capacity w with
  | (Err e, w) =>
      let '(_, w) := unmap io w in (Err "failed to resize index capacity", w)
  | r => r
  end.

(** The two resizing branches of [grow_to_size]. *)
Definition grow_capacity (io : Io) (requested_size new_len : Z) (w : FixedIndexWriter)
    : res unit * FixedIndexWriter :=
  if negb (u64 (new_len * chunk_size w) =? requested_size) then
    (* not a full chunk, so this must be the last one *)
    set_index_capacity_or_unmap io new_len (set_growable false w)
  else if index_capacity w <? new_len then
    match checked_next_power_of_two new_len with
    | None => (Err "capacity overflow", w)
    | Some new_capacity => set_index_capacity_or_unmap io new_capacity w
    end
  else (Ok tt, w).

Definition grow_to_size (io : Io) (requested_size : Z) (w : FixedIndexWriter)
    : res unit * FixedIndexWriter :=
  if size w <? requested_size then
    if negb (growable_size w) then (Err "refusing to resize", w) else
    let new_len := div_ceil requested_size (chunk_size w) in
    let! _, w := grow_capacity io requested_size new_len w in
    if negb (new_len <=? index_capacity w)
    then (Panic "assertion failed: new_len <= self.index_capacity", w)
    else (Ok tt, set_length_size new_len requested_size w)
  else (Ok tt, w).

(** The published files; [close] moves the temporary file over [filename]. *)
Abbreviation fs_t := (gmap string (list byte)).

(** The part of [close] that cuts off unused capacity. *)
Definition cut_capacity (io : Io) (w : FixedIndexWriter) : res unit * FixedIndexWriter :=
  if index_length w <? index_capacity w then
    try! file_size := file_size (index_length w) for w in
    if negb (ftruncate_ok io) then (Err "ftruncate failed", w)
    else (Ok tt, set_capacity (index_length w) (set_file (ftruncate file_size (file w)) w))
  else (Ok tt, w).

Definition close (io : Io) (sha256 : list byte -> list byte) (w : FixedIndexWriter) (fs : fs_t)
    : res digest * (FixedIndexWriter * fs_t) :=
  if negb (memory w) then (Err "cannot close already closed index file.", (w, fs)) else
  let index_size := u64 (index_length w * 32) in
  try! data := slice (file w) HEADER_SIZE (HEADER_SIZE + index_size) for (w, fs) in
  let index_csum := sha256 data in
  try! mem := ptr_write off_index_csum index_csum (file w) for (w, fs) in
  try! mem := ptr_write off_size (le_bytes 8 (size w)) mem for (w, fs) in
  let '(r, w) :=
    let! _, w := unmap io (set_file mem w) in
    cut_capacity io w in
  try! _ := r for (w, fs) in
  if negb (rename_ok io) then (Err "Atomic rename file failed", (w, fs))
  else (Ok index_csum, (w, <[filename w := file w]> (delete (tmp_filename w) fs))).

Definition drop (io : Io) (w : FixedIndexWriter) (fs : fs_t) : FixedIndexWriter * fs_t :=
  let '(_, w') := unmap io w in (w', delete (tmp_filename w) fs).

Definition check_chunk_alignment (w : FixedIndexWriter) (offset chunk_len : Z) : res Z :=
  let? pos := ok_or (checked_sub offset chunk_len) "got chunk with small offset" in
  if size w <? offset then Err "chunk data exceeds size" else
  if (negb (offset =? size w) && negb (chunk_len =? chunk_size w))
     || (chunk_size w <? chunk_len) || (chunk_len =? 0)
  then Err "chunk with unexpected length" else
  if negb (Z.land pos (chunk_size w - 1) =? 0) then Err "got unaligned chunk" else
  Ok (pos / chunk_size w).

Definition add_digest_unchecked (index : Z) (d : digest) (w : FixedIndexWriter)
    : res unit * FixedIndexWriter :=
  if negb (memory w) then (Err "cannot write to closed index file.", w) else
  let index_pos := u64 (index * 32) in
  try! mem := ptr_write (HEADER_SIZE + index_pos) d (file w) for w in
  (Ok tt, set_file mem w).

Definition add_digest (index : Z) (d : digest) (w : FixedIndexWriter)
    : res unit * FixedIndexWriter :=
  if index_length w <=? index then (Err "add digest failed - index out of range", w)
  else add_digest_unchecked index d w.

Definition add_chunk (io : Io) (start size : Z) (d : digest) (w : FixedIndexWriter)
    : res unit * FixedIndexWriter :=
  try! end_ := ok_or (checked_add start size) "add_chunk: start and size are too large" for w in
  let! _, w := grow_to_size io end_ w in
  try! idx := check_chunk_alignment w end_ size for w in
  add_digest idx d w.

Definition clone_step (r : Reader.FixedIndexReader) (acc : res unit * FixedIndexWriter) (i : Z)
    : res unit * FixedIndexWriter :=
  let! _, w := acc in
  try! d := unwrap (Reader.index_digest r i) for w in
  add_digest_unchecked i d w.

Definition clone_data_from (io : Io) (r : Reader.FixedIndexReader) (w : FixedIndexWriter)
    : res unit * FixedIndexWriter :=
  if negb (chunk_size w =? Reader.chunk_size r)
  then (Err "can't reuse file with different chunk size", w) else
  let count := Reader.index_count r in
  let! _, w :=
    if growable_size w && (index_capacity w <? count)
    then set_index_capacity_or_unmap io count w
    else (Ok tt, w) in
  foldl (clone_step r) (Ok tt, w) (seqZ 0 (count `min` index_capacity w)).
End Writer.

(** ** The writer as an array of digests

    [fw_repr w hdr slots]: the mapped file is a 4096 byte header followed by
    [index_capacity] digests. *)
Module WriterSpec.
Import Writer.

Definition zero_digest : digest := replicate 32 x00.

Record fw_repr (w : FixedIndexWriter) (hdr : list byte) (slots : list digest) : Prop := {
  rep_file : file w = hdr ++ concat slots;
  rep_hdr : length hdr = Z.to_nat HEADER_SIZE;
  rep_slots : blocks_ok 32 slots;
  rep_cap : Z.of_nat (length slots) = index_capacity w;
  rep_size : is_ok (file_size (index_capacity w)) = true;
}.

(** The invariant of the writer between two operations. *)
Record fw_inv (w : FixedIndexWriter) : Prop := {
  inv_chunk_size : chunk_size w = FIXED_CHUNK_SIZE;
  inv_size : in_u64 (size w);
  inv_length : index_length w = div_ceil (size w) (chunk_size w);
  inv_growable : growable_size w = true -> size w mod chunk_size w = 0;
  inv_memory : memory w = true ->
    index_length w <= index_capacity w /\ exists hdr slots, fw_repr w hdr slots;
}.

(** What an operation on the mapping leaves alone. *)
Record same_meta (w w' : FixedIndexWriter) : Prop := {
  sm_filename : filename w' = filename w;
  sm_tmp : tmp_filename w' = tmp_filename w;
  sm_chunk_size : chunk_size w' = chunk_size w;
  sm_uuid : uuid w' = uuid w;
  sm_ctime : ctime w' = ctime w;
}.
Record same_sizes (w w' : FixedIndexWriter) : Prop := {
  ss_meta : same_meta w w';
  ss_size : size w' = size w;
  ss_length : index_length w' = index_length w;
  ss_growable : growable_size w' = growable_size w;
}.

#[global] Instance same_meta_po : PreOrder same_meta.
Proof. split; [by intros w|]. intros w1 w2 w3 [] []. split; congruence. Qed.
#[global] Instance same_sizes_po : PreOrder same_sizes.
Proof. split; [by intros w|]. intros w1 w2 w3 [] []. split; [by etrans|congruence..]. Qed.

Lemma file_size_Ok n s :
  0 <= n -> file_size n = Ok s <-> 0 < n /\ s = n * 32 + HEADER_SIZE /\ s <= I64_MAX.
Proof.
  unfold file_size, checked_mul, checked_add, HEADER_SIZE, U64_MAX, I64_MAX. intros Hn.
  split.
  - intros Hs. inv_ok; simpl in *; inv_ok. lia.
  - intros (? & -> & ?). rewrite (proj2 (Z.eqb_neq _ _)) by lia. simpl.
    rewrite (proj2 (Z.leb_le (n * 32) _)) by lia. simpl.
    rewrite (proj2 (Z.leb_le (n * 32 + 4096) _)) by lia. simpl.
    by rewrite (proj2 (Z.leb_le (n * 32 + 4096) _)) by lia.
Qed.

Lemma file_size_is_ok n : 0 <= n ->
  is_ok (file_size n) = true <-> 0 < n /\ n * 32 + HEADER_SIZE <= I64_MAX.
Proof.
  intros Hn. destruct (file_size n) as [s|e|e] eqn:E; simpl.
  - apply file_size_Ok in E; [|done]. naive_solver.
  - split; [done|]. intros [??]. rewrite (proj2 (file_size_Ok n (n * 32 + HEADER_SIZE) Hn)) in E by done; done.
  - split; [done|]. intros [??]. rewrite (proj2 (file_size_Ok n (n * 32 + HEADER_SIZE) Hn)) in E by done; done.
Qed.

Lemma file_size_no_panic n : is_panic (file_size n) = false.
Proof. unfold file_size. case_if; [done|]. by destruct (_ ≫= _). Qed.

Lemma fw_repr_cap_nonneg w hdr slots : fw_repr w hdr slots -> 0 <= index_capacity w.
Proof. intros []. lia. Qed.

Lemma ftruncate_blocks hdr (slots : list digest) n :
  length hdr = Z.to_nat HEADER_SIZE -> blocks_ok 32 slots -> 0 <= n ->
  ftruncate (n * 32 + HEADER_SIZE) (hdr ++ concat slots)
  = hdr ++ concat (resize (Z.to_nat n) zero_digest slots).
Proof.
  intros Hh Hs Hn. unfold ftruncate, zero_digest, HEADER_SIZE in *.
  rewrite <- resize_blocks by done. rewrite resize_app_ge by lia. do 2 f_equal. lia.
Qed.

Lemma unmap_spec io w r w' :
  unmap io w = (r, w') -> is_panic r = false /\ memory w' = false /\ same_sizes w w'.
Proof.
  unfold unmap. pose proof (file_size_no_panic (index_capacity w)).
  destruct (memory w) eqn:Hm; intros Hu; simplify_eq.
  - simpl in Hu. destruct (file_size _); simplify_eq/=; [|by repeat split].
    destruct (munmap_ok io); simplify_eq/=; by repeat split.
  - by repeat split.
Qed.

#[local] Ltac fail_case :=
  match goal with Hfail : forall _ _, same_sizes _ _ -> _ |- _ =>
    intros Hf; apply Hfail in Hf as [? ?]; [split; [done|by right]|by repeat split]
  end.

(** Growing or shrinking the mapping: on success the slots are cut or
    extended with zero digests; on failure the mapping is gone, so that later
    writes and [close] fail. *)
Lemma resize_spec io c w r w' :
  0 <= c -> set_index_capacity_or_unmap io c w = (r, w') ->
  same_sizes w w' /\
  ((r = Ok tt /\ memory w' = memory w /\ index_capacity w' = c /\
    forall hdr slots, memory w = true -> fw_repr w hdr slots ->
      fw_repr w' hdr (resize (Z.to_nat c) zero_digest slots))
   \/ (is_err r = true /\ memory w' = false)).
Proof.
  intros Hc. unfold set_index_capacity_or_unmap, set_index_capacity.
  pose proof (file_size_no_panic (index_capacity w)) as Hp1.
  pose proof (file_size_no_panic c) as Hp2.
  assert (forall w0 e, same_sizes w w0 ->
    (let '(_, w1) := unmap io w0 in (Err e : res unit, w1)) = (r, w') ->
    same_sizes w w' /\ (is_err r = true /\ memory w' = false)) as Hfail.
  { intros w0 e Hss Hu. destruct (unmap io w0) eqn:E. apply unmap_spec in E as (?&?&?).
    simplify_eq/=. split; [by etrans|done]. }
  destruct (c =? index_capacity w) eqn:E; zify_bool.
  { intros [= <- <-]. split; [done|]. left. split_and!; [done..|].
    intros hdr slots _ [????]. rewrite resize_all_alt by lia. by split. }
  destruct (file_size (index_capacity w)) eqn:E1; [|fail_case|done].
  destruct (file_size c) eqn:E2; [|fail_case|done].
  destruct (memory w) eqn:Em; simpl; [|fail_case].
  destruct (ftruncate_ok io); simpl; [|fail_case].
  destruct (mremap_ok io); simpl; [|fail_case].
  intros [= <- <-]. split; [by repeat split|]. left. split_and!; [done..|].
  intros hdr slots _ [Hf Hh Hs Hcap Hsz].
  pose proof (proj1 (file_size_Ok c a0 Hc) E2) as (? & -> & ?).
  split; simpl.
  - rewrite Hf. by apply ftruncate_blocks.
  - done.
  - by apply blocks_ok_resize.
  - rewrite length_resize. lia.
  - by rewrite E2.
Qed.

#[local] Ltac Zify.zify_post_hook ::= Z.to_euclidean_division_equations.

Lemma fw_inv_same_sizes w w' :
  fw_inv w -> same_sizes w w' ->
  (memory w' = true ->
     index_length w <= index_capacity w' /\ exists hdr slots, fw_repr w' hdr slots) ->
  fw_inv w'.
Proof.
  intros [] [[] Hs Hl Hg] Hm. split; try congruence; rewrite ?Hs, ?Hl, ?Hg; try congruence.
  - intros. rewrite sm_chunk_size0. auto.
  - done.
Qed.

(** A capacity for a content of at most [2^64] bytes never overflows. *)
Lemma capacity_ok n : 0 < n <= 2 ^ 42 -> is_ok (file_size n) = true.
Proof. intros. apply file_size_is_ok; unfold_consts; lia. Qed.

Lemma next_pow2_spec n :
  0 < n <= 2 ^ 42 -> exists c, checked_next_power_of_two n = Some c /\ n <= c <= 2 ^ 42.
Proof.
  intros Hn. unfold checked_next_power_of_two, U64_MAX.
  assert (n <= 2 ^ Z.log2_up n) by (apply Z.log2_log2_up_spec; lia).
  assert (Z.log2_up n <= 42) by (apply Z.log2_up_le_pow2; lia).
  assert (2 ^ Z.log2_up n <= 2 ^ 42) by (apply Z.pow_le_mono_r; lia).
  rewrite (proj2 (Z.leb_le _ _)) by lia. eauto.
Qed.

(** The capacity after [grow_capacity] holds the requested chunks. *)
Lemma grow_capacity_spec io req w r w' :
  fw_inv w -> in_u64 req -> 0 < req -> growable_size w = true ->
  let n := div_ceil req FIXED_CHUNK_SIZE in
  grow_capacity io req n w = (r, w') ->
  same_meta w w' /\ size w' = size w /\ index_length w' = index_length w /\
  (r = Ok tt /\ memory w' = memory w /\ n <= index_capacity w' /\
     (growable_size w' = true <-> req mod FIXED_CHUNK_SIZE = 0) /\
     (forall hdr slots, memory w = true -> fw_repr w hdr slots ->
        fw_repr w' hdr (resize (Z.to_nat (index_capacity w')) zero_digest slots))
   \/ is_err r = true /\ memory w' = false).
Proof.
  intros Hinv Hreq Hpos Hg n. pose proof Hinv as [Hcs Hsz Hlen Hgr Hmem].
  assert (0 < n <= 2 ^ 42) as Hn by (unfold n; unfold_consts; lia).
  unfold grow_capacity. rewrite Hcs.
  destruct (negb (u64 (n * FIXED_CHUNK_SIZE) =? req)) eqn:Efull; zify_bool.
  - assert (req mod FIXED_CHUNK_SIZE <> 0) as Hmod.
    { intros Hz. apply Efull. rewrite u64_small; unfold n; unfold_consts; lia. }
    intros Hr. apply resize_spec in Hr as [[[] ? ? Hg'] Hr]; [|lia].
    split_and!; [by split|done..|]. destruct Hr as [(Hr & ? & Hc' & Hrep)|[??]]; [left|by right].
    split_and!; [done..|lia| |].
    + rewrite Hg'. simpl. naive_solver.
    + intros hdr slots Hm []. rewrite Hc'. by apply Hrep.
  - assert (req mod FIXED_CHUNK_SIZE = 0) as Hmod.
    { unfold wrapu, n in *. unfold_consts. lia. }
    destruct (index_capacity w <? n) eqn:Ecap; zify_bool.
    + destruct (next_pow2_spec n Hn) as (c & -> & Hc). intros Hr.
      apply resize_spec in Hr as [[[] ? ? Hg'] Hr]; [|lia].
      split_and!; [by split|done..|]. destruct Hr as [(Hr & ? & Hc' & Hrep)|[??]]; [left|by right].
      split_and!; [done..|lia| |].
      * rewrite Hg'. naive_solver.
      * rewrite Hc'. auto.
    + intros [= <- <-]. split_and!; [done..|]. left. split_and!; [done..| |].
      * naive_solver.
      * intros hdr slots _ Hrep. pose proof (rep_cap _ _ _ Hrep).
        by rewrite resize_all_alt by lia.
Qed.

Lemma fw_repr_eq w w' hdr slots :
  fw_repr w hdr slots -> file w' = file w -> index_capacity w' = index_capacity w ->
  fw_repr w' hdr slots.
Proof. intros [] Hf Hc. split; congruence. Qed.

Lemma grow_spec io req w r w' :
  fw_inv w -> in_u64 req -> grow_to_size io req w = (r, w') ->
  is_panic r = false /\ fw_inv w' /\ same_meta w w' /\
  (r = Ok tt ->
     memory w' = memory w /\ size w' = size w `max` req /\
     (growable_size w' = true <->
        growable_size w = true /\ size w' mod FIXED_CHUNK_SIZE = 0) /\
     forall hdr slots, memory w = true -> fw_repr w hdr slots ->
       fw_repr w' hdr (resize (Z.to_nat (index_capacity w')) zero_digest slots)).
Proof.
  intros Hinv Hreq. pose proof Hinv as [Hcs Hsz Hlen Hgr Hmem].
  unfold grow_to_size. destruct (size w <? req) eqn:Es; zify_bool; last first.
  { intros [= <- <-]. split_and!; [done..|]. intros _. split_and!; [done|lia| |].
    - rewrite <- Hcs. naive_solver.
    - intros hdr slots _ Hrep. pose proof (rep_cap _ _ _ Hrep).
      by rewrite resize_all_alt by lia. }
  destruct (growable_size w) eqn:Eg; simpl; [|intros [= <- <-]; by split_and!].
  rewrite Hcs. destruct (grow_capacity io req _ w) as [r1 w1] eqn:E1.
  apply grow_capacity_spec in E1 as (Hsm & Hs1 & Hl1 & E1); [|unfold_consts; done || lia..].
  destruct Hsm as [? ? Hcs1 ? ?].
  destruct E1 as [(-> & Hm1 & Hc1 & Hg1 & Hrep1)|[Hr1 Hm1]].
  - rewrite (proj2 (Z.leb_le _ _)) by lia. simpl. intros [= <- <-].
    split_and!; [done| |by split|].
    + split; simpl; rewrite ?Hcs1, ?Hcs; try done; [naive_solver|].
      rewrite Hm1. intros Hm. split; [done|]. destruct (Hmem Hm) as [_ (hdr & slots & Hrep)].
      eexists _, _. by eapply fw_repr_eq; [apply Hrep1|..].
    + intros _. simpl. split_and!; [done|lia|naive_solver|].
      intros. by eapply fw_repr_eq; [apply Hrep1|..].
  - destruct r1; simplify_eq/=. intros [= <- <-]. split_and!; [done| |by split|done].
    split; rewrite ?Hcs1, ?Hl1, ?Hs1, ?Hcs; try done; [by rewrite Hlen, Hcs| |congruence].
    intros _. rewrite <- Hcs. auto.
Qed.

Lemma land_chunk_mask a : Z.land a (FIXED_CHUNK_SIZE - 1) = a mod FIXED_CHUNK_SIZE.
Proof. change FIXED_CHUNK_SIZE with (2 ^ 22). by apply land_pred_pow2. Qed.

(** The checks accept exactly the aligned full chunks inside of the content
    and its (possibly short) last chunk. *)
Lemma check_chunk_alignment_spec w off len idx :
  fw_inv w -> in_u64 off -> 0 <= len ->
  check_chunk_alignment w off len = Ok idx <->
  0 <= idx /\ off = idx * FIXED_CHUNK_SIZE + len /\ off <= size w /\
  0 < len <= FIXED_CHUNK_SIZE /\ (len = FIXED_CHUNK_SIZE \/ off = size w).
Proof.
  intros [Hcs Hsz Hlen _ _] Hoff Hl. unfold check_chunk_alignment, checked_sub. rewrite Hcs.
  split.
  - intros H. inv_ok; simpl in *; inv_ok.
    rewrite land_chunk_mask in *.
    match goal with H : negb _ && negb _ = false |- _ => apply andb_false_iff in H end.
    rewrite !negb_false_iff, !Z.eqb_eq in *. unfold_consts. lia.
  - intros (? & Hi & ? & ? & Hor).
    rewrite (proj2 (Z.leb_le _ _)) by (unfold_consts; lia). simpl.
    rewrite (proj2 (Z.ltb_ge _ _)) by lia.
    replace (negb (off =? size w) && negb (len =? FIXED_CHUNK_SIZE)) with false
      by (symmetry; apply andb_false_iff; rewrite !negb_false_iff, !Z.eqb_eq; tauto).
    rewrite (proj2 (Z.ltb_ge _ _)), (proj2 (Z.eqb_neq len 0)) by lia. simpl.
    rewrite land_chunk_mask. replace (off - len) with (idx * FIXED_CHUNK_SIZE) by lia.
    rewrite Z.mod_mul, Z.div_mul by done. done.
Qed.

Lemma ptr_write_repr w hdr slots i d :
  fw_repr w hdr slots -> length d = 32%nat -> 0 <= i < index_capacity w ->
  ptr_write (HEADER_SIZE + i * 32) d (file w)
  = Ok (hdr ++ concat (<[Z.to_nat i := d]> slots)).
Proof.
  intros [Hf Hh Hs Hc Hsz] Hd Hi. unfold HEADER_SIZE in *.
  rewrite ptr_write_ok; [|lia|rewrite Hf, length_app, (length_blocks 32) by done; lia].
  rewrite Hf. f_equal. rewrite <- (blocks_write 32) by (done || lia). unfold write_at.
  rewrite take_app, drop_app, take_ge, drop_ge by lia. rewrite app_nil_l.
  rewrite <- (assoc_L (++)). do 2 f_equal; [f_equal; lia|]. f_equal. f_equal. lia.
Qed.

Lemma add_digest_unchecked_spec idx d w :
  fw_inv w -> length d = 32%nat -> 0 <= idx ->
  (memory w = true -> idx < index_capacity w) ->
  memory w = true /\ (exists f, add_digest_unchecked idx d w = (Ok tt, set_file f w) /\
    forall hdr slots, fw_repr w hdr slots ->
      fw_repr (set_file f w) hdr (<[Z.to_nat idx := d]> slots))
  \/ memory w = false /\
     add_digest_unchecked idx d w = (Err "cannot write to closed index file.", w).
Proof.
  intros [_ _ _ _ Hmem] Hd Hi Hcap. unfold add_digest_unchecked.
  destruct (memory w) eqn:Em; [left|by right]. split; [done|]. simpl.
  destruct (Hmem eq_refl) as [_ (hdr & slots & Hrep)].
  pose proof Hrep as [Hf _ _ _ Hsz]. pose proof (Hcap eq_refl).
  apply file_size_is_ok in Hsz; [|lia].
  rewrite u64_small by (unfold_consts; lia).
  rewrite (ptr_write_repr _ _ _ _ _ Hrep) by (done || lia).
  eexists. split; [done|]. intros hdr' slots' Hrep'. destruct Hrep' as [Hf' Hh' ? ? ?].
  split; simpl; try done; [|by apply blocks_ok_insert|by rewrite length_insert].
  rewrite Hf in Hf'. pose proof (rep_hdr _ _ _ Hrep) as Hh.
  apply app_inj_1 in Hf' as [-> Hcc]; [|congruence].
  f_equal. rewrite <- !(blocks_write 32) by (done || (try apply Hrep) || (try destruct Hrep; lia)).
  by rewrite Hcc.
Qed.

Lemma add_digest_spec idx d w r w' :
  fw_inv w -> length d = 32%nat -> 0 <= idx -> add_digest idx d w = (r, w') ->
  is_panic r = false /\ fw_inv w' /\ same_sizes w w' /\ memory w' = memory w /\
  index_capacity w' = index_capacity w /\
  (r = Ok tt <-> memory w = true /\ idx < index_length w) /\
  (r = Ok tt -> forall hdr slots, fw_repr w hdr slots ->
     fw_repr w' hdr (<[Z.to_nat idx := d]> slots)).
Proof.
  intros Hinv Hd Hi. pose proof Hinv as [_ _ _ _ Hmem]. unfold add_digest.
  destruct (index_length w <=? idx) eqn:E; zify_bool.
  { intros [= <- <-]. split_and!; [done..| |done]. naive_solver lia. }
  destruct (add_digest_unchecked_spec idx d w Hinv Hd Hi) as [[Hm (f & -> & Hrep)]|[Hm ->]].
  { intros Hm. destruct (Hmem Hm). lia. }
  - intros [= <- <-]. split_and!; [done| |by repeat split|done|done|done|auto].
    eapply fw_inv_same_sizes; [done|by repeat split|]. intros _.
    destruct (Hmem Hm) as [? (hdr & slots & ?)]. eauto.
  - intros [= <- <-]. split_and!; try done. naive_solver congruence.
Qed.

Lemma add_chunk_spec io start len d w r w' :
  fw_inv w -> in_u64 start -> in_u32 len -> length d = 32%nat ->
  add_chunk io start len d w = (r, w') ->
  is_panic r = false /\ fw_inv w' /\ same_meta w w' /\
  (r = Ok tt ->
     memory w = true /\ memory w' = true /\
     start mod FIXED_CHUNK_SIZE = 0 /\ 0 < len <= FIXED_CHUNK_SIZE /\
     size w' = size w `max` (start + len) /\
     (len = FIXED_CHUNK_SIZE \/ start + len = size w') /\
     (growable_size w' = true <->
        growable_size w = true /\ size w' mod FIXED_CHUNK_SIZE = 0) /\
     forall hdr slots, fw_repr w hdr slots ->
       fw_repr w' hdr (<[Z.to_nat (start / FIXED_CHUNK_SIZE) := d]>
         (resize (Z.to_nat (index_capacity w')) zero_digest slots))).
Proof.
  intros Hinv Hst Hl Hd. unfold add_chunk, checked_add, ok_or.
  destruct (start + len <=? U64_MAX) eqn:E; zify_bool; [|intros [= <- <-]; done].
  assert (in_u64 (start + len)) as Hend by (unfold in_u64, in_u32 in *; lia).
  destruct (grow_to_size io (start + len) w) as [r1 w1] eqn:E1.
  apply grow_spec in E1 as (Hp1 & Hinv1 & Hsm & Hgrow); [|done..].
  destruct r1 as [[]|e|e]; [|intros [= <- <-]; done|done].
  destruct (Hgrow eq_refl) as (Hm1 & Hs1 & Hg1 & Hrep1).
  destruct (check_chunk_alignment w1 (start + len) len) as [idx|e|e] eqn:E2.
  2: { intros [= <- <-]. done. }
  2: { exfalso. revert E2. unfold check_chunk_alignment, checked_sub, ok_or.
       repeat case_match; done. }
  apply check_chunk_alignment_spec in E2 as (Hi & Hidx & Hsz & Hlen & Hlast);
    [|unfold in_u32 in *; done || lia..].
  intros Hadd. apply add_digest_spec in Hadd as (Hp & Hinv' & Hss & Hm & Hc & Hok & Hrep);
    [|done..].
  split_and!; [done..|etrans; [done|apply Hss]|].
  intros ->. destruct (proj1 Hok eq_refl) as [Hm2 _].
  assert (start = idx * FIXED_CHUNK_SIZE) as Hst' by lia.
  rewrite (ss_size _ _ Hss), (ss_growable _ _ Hss), Hs1 in *.
  split_and!; [congruence|congruence| |lia|lia|lia|lia|done|].
  - rewrite Hst'. by apply Z.mod_mul.
  - intros hdr slots Hr. rewrite Hst', Z.div_mul, Hc by done. apply Hrep; [done|].
    apply Hrep1; [congruence|done].
Qed.
End WriterSpec.

(** [FixedIndexWriter::add_chunk], the method through which a backup client
    fills a fixed index.  From a writer that satisfies its invariant it never
    panics, never writes outside of the mapping, and keeps the invariant
    whatever the system calls return.  When it succeeds the chunk was aligned,
    a full chunk or the last chunk of the content, the content size became
    [max size (start + len)], and the index is the old one, extended with
    zero digests, with the digest stored at [start / chunk_size]. *)
Theorem add_chunk_correct io start len d w r w' :
  WriterSpec.fw_inv w -> in_u64 start -> in_u32 len -> length d = 32%nat ->
  Writer.add_chunk io start len d w = (r, w') ->
  is_panic r = false /\ WriterSpec.fw_inv w' /\
  (r = Ok tt ->
     Writer.memory w = true /\ Writer.memory w' = true /\
     start mod FIXED_CHUNK_SIZE = 0 /\ 0 < len <= FIXED_CHUNK_SIZE /\
     Writer.size w' = Writer.size w `max` (start + len) /\
     (len = FIXED_CHUNK_SIZE \/ start + len = Writer.size w') /\
     forall hdr slots, WriterSpec.fw_repr w hdr slots ->
       WriterSpec.fw_repr w' hdr
         (<[Z.to_nat (start / FIXED_CHUNK_SIZE) := d]>
            (resize (Z.to_nat (Writer.index_capacity w')) WriterSpec.zero_digest slots))).
Proof.
  intros Hinv Hst Hl Hd Hadd.
  apply WriterSpec.add_chunk_spec in Hadd as (? & ? & _ & Hok); [|done..].
  split_and!; [done..|]. intros Hr. destruct (Hok Hr) as (?&?&?&[? ?]&?&?&_&?). by split_and!.
Qed.

(** ** Creating, closing and reading back *)
Module FileSpec.
Import Writer WriterSpec.
#[local] Ltac Zify.zify_post_hook ::= Z.to_euclidean_division_equations.

Lemma write_at_app {A} (a b c k : list A) i :
  length a = i -> length b = length k -> write_at i k (a ++ b ++ c) = a ++ k ++ c.
Proof.
  intros <- Hb. unfold write_at. rewrite take_app_length. do 2 f_equal.
  rewrite <- Hb, <- length_app, (assoc_L (++)). by rewrite drop_app_length.
Qed.

Lemma field_app (a b c : list byte) o n :
  Z.of_nat (length a) = o -> Z.of_nat (length b) = n -> field o n (a ++ b ++ c) = b.
Proof.
  intros <- <-. unfold field. rewrite !Nat2Z.id, drop_app_length. by rewrite take_app_length.
Qed.

(** The header of an index file, with its fields in order. *)
Definition header (uuid : list byte) (ctime : Z) (csum : list byte) (size : list byte) : list byte :=
  FIXED_SIZED_CHUNK_INDEX_1_0 ++ uuid ++ le_bytes 8 ctime ++ csum ++ size
    ++ le_bytes 8 FIXED_CHUNK_SIZE ++ replicate (Z.to_nat 4016) x00.

Lemma length_header uu ct cs sz :
  length uu = 16%nat -> length cs = 32%nat -> length sz = 8%nat ->
  length (header uu ct cs sz) = Z.to_nat HEADER_SIZE.
Proof.
  intros. unfold header. rewrite !length_app, !length_le_bytes, length_replicate.
  rewrite H, H0, H1. vm_compute. done.
Qed.

Lemma header_csum uu ct cs sz cs' : length uu = 16%nat -> length cs = length cs' ->
  write_at (Z.to_nat off_index_csum) cs' (header uu ct cs sz) = header uu ct cs' sz.
Proof.
  intros Hu Hc. unfold header.
  rewrite !(assoc_L (++) FIXED_SIZED_CHUNK_INDEX_1_0), !(assoc_L (++) (_ ++ uu)).
  rewrite write_at_app; [done| |done].
  rewrite !length_app, length_le_bytes, Hu. done.
Qed.

Lemma header_size uu ct cs sz sz' :
  length uu = 16%nat -> length cs = 32%nat -> length sz = length sz' ->
  write_at (Z.to_nat off_size) sz' (header uu ct cs sz) = header uu ct cs sz'.
Proof.
  intros Hu Hc Hs. unfold header.
  rewrite !(assoc_L (++) FIXED_SIZED_CHUNK_INDEX_1_0), !(assoc_L (++) (_ ++ uu)),
    !(assoc_L (++) (_ ++ le_bytes 8 ct)).
  rewrite write_at_app; [done| |done].
  rewrite !length_app, length_le_bytes, Hu, Hc. done.
Qed.

Lemma header_fields uu ct cs sz :
  length uu = 16%nat -> length cs = 32%nat -> in_i64 ct -> in_u64 sz ->
  FixedIndexHeader_of_bytes (header uu ct cs (le_bytes 8 sz)) =
    {| h_magic := FIXED_SIZED_CHUNK_INDEX_1_0; h_uuid := uu; h_ctime := ct;
       h_index_csum := cs; h_size := sz; h_chunk_size := FIXED_CHUNK_SIZE;
       h_reserved := replicate (Z.to_nat 4016) x00 |}.
Proof.
  intros Hu Hc Hct Hsz. unfold FixedIndexHeader_of_bytes, header. f_equal.
  - apply field_app; [done|by rewrite Hu].
  - rewrite (assoc_L (++) FIXED_SIZED_CHUNK_INDEX_1_0).
    rewrite field_app; [|by rewrite length_app, Hu|by rewrite length_le_bytes].
    rewrite le_val_bytes. by apply i64_u64.
  - rewrite !(assoc_L (++) FIXED_SIZED_CHUNK_INDEX_1_0), !(assoc_L (++) (_ ++ uu)).
    apply field_app; [by rewrite !length_app, length_le_bytes, Hu|by rewrite Hc].
  - rewrite !(assoc_L (++) FIXED_SIZED_CHUNK_INDEX_1_0), !(assoc_L (++) (_ ++ uu)),
      !(assoc_L (++) (_ ++ le_bytes 8 ct)).
    rewrite field_app; [by apply le_val_u64_bytes|by rewrite !length_app, length_le_bytes, Hu, Hc|].
    by rewrite length_le_bytes.
  - rewrite !(assoc_L (++) FIXED_SIZED_CHUNK_INDEX_1_0), !(assoc_L (++) (_ ++ uu)),
      !(assoc_L (++) (_ ++ le_bytes 8 ct)), !(assoc_L (++) (_ ++ cs)).
    rewrite field_app; [done|by rewrite !length_app, !length_le_bytes, Hu, Hc|].
    by rewrite length_le_bytes.
  - rewrite !(assoc_L (++)).
    rewrite <- (app_nil_r (_ ++ replicate _ _)), <- (assoc_L (++) _ (replicate _ _)).
    apply field_app; [by rewrite !length_app, !length_le_bytes, Hu, Hc|by rewrite length_replicate].
Qed.

Definition zero8 : list byte := replicate 8 x00.

Lemma ptr_write_app i (k hdr rest : list byte) :
  0 <= i -> i + Z.of_nat (length k) <= Z.of_nat (length hdr) ->
  ptr_write i k (hdr ++ rest) = Ok (write_at (Z.to_nat i) k hdr ++ rest).
Proof.
  intros. rewrite ptr_write_ok by (rewrite ?length_app; lia). f_equal. unfold write_at.
  rewrite take_app_le, drop_app_le by lia. by rewrite <- !(assoc_L (++)).
Qed.

Lemma ptr_write_is i (k mem a b c : list byte) :
  mem = a ++ b ++ c -> Z.of_nat (length a) = i -> length b = length k ->
  ptr_write i k mem = Ok (a ++ k ++ c).
Proof.
  intros -> Ha Hb. rewrite ptr_write_ok; [|lia|rewrite !length_app; lia].
  rewrite write_at_app; [done|lia|done].
Qed.

(** The writes of [create] turn a zeroed page into a header. *)
Lemma create_header uu ct rest : length uu = 16%nat ->
  (let? mem := ptr_write off_magic FIXED_SIZED_CHUNK_INDEX_1_0
                 (replicate (Z.to_nat HEADER_SIZE) x00 ++ rest) in
   let? mem := ptr_write off_ctime (le_bytes 8 ct) mem in
   let? mem := ptr_write off_chunk_size (le_bytes 8 FIXED_CHUNK_SIZE) mem in
   ptr_write off_uuid uu mem) = Ok (header uu ct zero_digest zero8 ++ rest).
Proof.
  intros Hu. set (z16 := replicate 16 x00 : list byte).
  set (tail := replicate (Z.to_nat 4016) x00 ++ rest).
  assert (replicate (Z.to_nat HEADER_SIZE) x00 ++ rest
    = [] ++ zero8 ++ z16 ++ zero8 ++ zero_digest ++ zero8 ++ zero8 ++ tail) as ->.
  { unfold tail, zero8, z16, zero_digest. rewrite app_nil_l, !(assoc_L (++)).
    rewrite <- !replicate_add. done. }
  rewrite (ptr_write_is _ _ _ [] zero8 _ eq_refl) by done. cbv beta iota.
  rewrite (ptr_write_is _ _ _ (FIXED_SIZED_CHUNK_INDEX_1_0 ++ z16) zero8
    (zero_digest ++ zero8 ++ zero8 ++ tail)) by (rewrite <- ?(assoc_L (++)); done).
  cbv beta iota.
  rewrite (ptr_write_is _ _ _ (FIXED_SIZED_CHUNK_INDEX_1_0 ++ z16 ++ le_bytes 8 ct
    ++ zero_digest ++ zero8) zero8 tail) by (rewrite <- ?(assoc_L (++)); done).
  cbv beta iota.
  rewrite (ptr_write_is _ _ _ FIXED_SIZED_CHUNK_INDEX_1_0 z16 (le_bytes 8 ct
    ++ zero_digest ++ zero8 ++ le_bytes 8 FIXED_CHUNK_SIZE ++ tail))
    by (rewrite <- ?(assoc_L (++)); done).
  unfold header, tail. by rewrite <- !(assoc_L (++)).
Qed.

Lemma ftruncate_nil n : 0 <= n ->
  ftruncate (n * 32 + HEADER_SIZE) [] =
  replicate (Z.to_nat HEADER_SIZE) x00 ++ concat (replicate (Z.to_nat n) zero_digest).
Proof.
  intros. unfold ftruncate, zero_digest, HEADER_SIZE.
  rewrite resize_nil, concat_replicate, <- replicate_add. f_equal. lia.
Qed.

Lemma create_spec io ct uu path tmp known w :
  length uu = 16%nat -> (forall s, known = Some s -> in_u64 s) ->
  create io ct uu path tmp known FIXED_CHUNK_SIZE = Ok w ->
  fw_inv w /\ memory w = true /\ size w = default 0 known /\
  growable_size w = negb (bool_decide (is_Some known)) /\
  filename w = path /\ tmp_filename w = tmp /\
  fw_repr w (header uu ct zero_digest zero8)
    (replicate (Z.to_nat (index_capacity w)) zero_digest).
Proof.
  intros Hu Hk. unfold create. change (is_power_of_two FIXED_CHUNK_SIZE) with true.
  change (FIXED_CHUNK_SIZE =? FIXED_CHUNK_SIZE) with true. cbv [negb].
  set (lc := match known with Some s => _ | None => _ end). destruct lc as [len cap] eqn:Elc.
  assert (0 <= len <= cap /\ len = div_ceil (default 0 known) FIXED_CHUNK_SIZE) as [Hlc Hlen].
  { subst lc. destruct known as [s|]; simplify_eq/=.
    - specialize (Hk s eq_refl). unfold_consts. lia.
    - done. }
  clearbody lc. subst lc.
  destruct (open_ok io); [|done]. destruct (file_size cap) as [n| |] eqn:En; [|done..].
  destruct (ftruncate_ok io); [|done]. destruct (n =? 0); [done|]. destruct (mmap_ok io); [|done].
  pose proof (proj1 (file_size_Ok cap n ltac:(lia)) En) as (Hcap & Hn & _).
  rewrite Hn, ftruncate_nil by lia.
  pose proof (create_header uu ct (concat (replicate (Z.to_nat cap) zero_digest)) Hu) as Hch.
  repeat match goal with
  | Hch : match ?m with _ => _ end = Ok _ |- _ => destruct m; [|done..]
  end. rewrite Hch. intros [= <-]. clear Hch.
  assert (fw_repr (Build_FixedIndexWriter
    (header uu ct zero_digest zero8 ++ concat (replicate (Z.to_nat cap) zero_digest))
    path tmp FIXED_CHUNK_SIZE (default 0 known) len cap true uu ct
    (negb (bool_decide (is_Some known))))
    (header uu ct zero_digest zero8) (replicate (Z.to_nat cap) zero_digest)) as Hrep.
  { split; cbn [file index_capacity];
      [done|by apply length_header|by apply blocks_ok_replicate| |by rewrite En].
    rewrite length_replicate. lia. }
  split_and!; [|done..]. split; simpl; [done| |done| |].
  - destruct known; [by apply Hk|done].
  - destruct known; [done|]. done.
  - intros _. split; [lia|]. eauto.
Qed.

Section close.
Variable sha256 : list byte -> list byte.
Hypothesis sha256_len : forall l, length (sha256 l) = 32%nat.

(** The bytes of a finished index file. *)
Definition fidx_file (uuid : list byte) (ctime size : Z) (ds : list digest) : list byte :=
  header uuid ctime (sha256 (concat ds)) (le_bytes 8 size) ++ concat ds.

Lemma slice_index w hdr slots :
  fw_repr w hdr slots -> 0 <= index_length w <= index_capacity w ->
  slice (file w) HEADER_SIZE (HEADER_SIZE + index_length w * 32)
  = Ok (concat (take (Z.to_nat (index_length w)) slots)).
Proof.
  intros [Hf Hh Hs Hc Hz] Hl. unfold HEADER_SIZE in *.
  rewrite slice_ok; [|lia..|rewrite Hf, length_app, (length_blocks 32) by done; lia].
  rewrite Hf, drop_app_length' by lia. f_equal. rewrite <- (blocks_take 32) by done.
  f_equal. lia.
Qed.

(** [unmap] of a mapped writer only clears the mapping, unless [munmap] fails. *)
Lemma unmap_mapped io w :
  memory w = true -> is_ok (file_size (index_capacity w)) = true ->
  unmap io w = (if munmap_ok io then Ok tt else Err "unmap file failed", set_memory false w).
Proof.
  intros Hm Hz. unfold unmap. rewrite Hm. simpl. destruct (file_size _); [|done..].
  by destruct (munmap_ok io).
Qed.

Lemma cut_capacity_spec io w hdr slots r w' :
  memory w = false -> 0 <= index_length w <= index_capacity w ->
  index_capacity w * 32 + HEADER_SIZE <= I64_MAX -> 0 < index_capacity w ->
  file w = hdr ++ concat slots -> length hdr = Z.to_nat HEADER_SIZE -> blocks_ok 32 slots ->
  Z.of_nat (length slots) = index_capacity w ->
  cut_capacity io w = (r, w') ->
  is_panic r = false /\ memory w' = false /\ same_sizes w w' /\
  (is_ok r = (0 <? index_length w) &&
             (ftruncate_ok io || (index_length w =? index_capacity w))) /\
  (is_ok r = true -> file w' = hdr ++ concat (take (Z.to_nat (index_length w)) slots)).
Proof.
  intros Hm Hl Hz Hc0 Hf Hh Hs Hc. unfold cut_capacity.
  destruct (index_length w <? index_capacity w) eqn:E; zify_bool; last first.
  { intros [= <- <-]. assert (index_length w = index_capacity w) as Heq by lia.
    rewrite Heq, Z.eqb_refl, orb_true_r, (proj2 (Z.ltb_lt _ _)) by lia.
    split_and!; [done..|]. intros _. rewrite take_ge by lia. done. }
  rewrite (proj2 (Z.eqb_neq _ _)), orb_false_r by lia.
  destruct (0 <? index_length w) eqn:E0; zify_bool.
  - rewrite (proj2 (file_size_Ok (index_length w) (index_length w * 32 + HEADER_SIZE) ltac:(lia)))
      by (split_and!; [lia|done|lia]).
    destruct (ftruncate_ok io); intros [= <- <-]; (split_and!; [done..|by repeat split|done|]); [|done].
    intros _. cbn [file set_capacity set_file]. rewrite Hf, ftruncate_blocks by (done || lia).
    rewrite resize_le by lia. done.
  - assert (index_length w = 0) as -> by lia. intros [= <- <-]. done.
Qed.

(** [close] never panics and always unmaps; it publishes the file exactly
    when it returns [Ok], and can only do so for a non-empty index. *)
Lemma close_spec io w fs uu ct slots r w' fs' :
  fw_inv w -> memory w = true -> length uu = 16%nat ->
  fw_repr w (header uu ct zero_digest zero8) slots ->
  close io sha256 w fs = (r, (w', fs')) ->
  let ds := take (Z.to_nat (index_length w)) slots in
  is_panic r = false /\ fw_inv w' /\ memory w' = false /\
  (is_ok r = munmap_ok io && rename_ok io && (0 <? index_length w) &&
     (ftruncate_ok io || (index_length w =? index_capacity w))) /\
  (is_ok r = false -> fs' = fs) /\
  (forall csum, r = Ok csum -> csum = sha256 (concat ds) /\
     fs' = <[filename w := fidx_file uu ct (size w) ds]> (delete (tmp_filename w) fs)).
Proof.
  intros Hinv Hm Hu Hrep. pose proof Hinv as [Hcs Hsz Hlen _ Hmem].
  destruct (Hmem Hm) as [Hcap _]. pose proof Hrep as [Hf Hh Hs Hc Hz].
  pose proof (proj1 (file_size_is_ok _ (fw_repr_cap_nonneg _ _ _ Hrep)) Hz) as [Hc0 Hc1].
  assert (0 <= index_length w) by (rewrite Hlen, Hcs; unfold_consts; lia).
  unfold close. rewrite Hm. cbn [negb].
  rewrite u64_small by (unfold_consts; lia). rewrite (slice_index _ _ _ Hrep) by lia.
  cbv zeta. set (ds := take _ slots). rewrite Hf. clear Hf.
  assert (forall cs sz, length cs = 32%nat -> length sz = 8%nat ->
    length (header uu ct cs sz) = Z.to_nat HEADER_SIZE) as Hhl by (intros; by apply length_header).
  rewrite ptr_write_app; [|done|rewrite sha256_len, Hh; done].
  rewrite header_csum; [|done|by rewrite sha256_len].
  rewrite ptr_write_app; [|done|rewrite Hhl, length_le_bytes by (done || apply sha256_len); done].
  rewrite header_size; [|done|apply sha256_len|done].
  set (hdr1 := header uu ct _ (le_bytes 8 _)).
  assert (length hdr1 = Z.to_nat HEADER_SIZE) as Hh1 by (apply Hhl; [apply sha256_len|done]).
  rewrite unmap_mapped by done. destruct (munmap_ok io); last first.
  { intros [= <- <- <-]. split_and!; try done. by eapply fw_inv_same_sizes; [done|by repeat split|]. }
  cbv beta iota. destruct (cut_capacity io _) as [r1 w1] eqn:E1.
  apply (cut_capacity_spec io _ hdr1 slots) in E1 as (Hp & Hm1 & Hss & Hok & Hf1); [|done || lia..].
  assert (fw_inv w1) as Hinv1.
  { eapply fw_inv_same_sizes; [exact Hinv|by etrans; [|exact Hss]|congruence]. }
  cbn [index_length index_capacity set_file set_memory] in Hok.
  destruct r1 as [[]|e|e]; cbn [is_ok] in Hok; [|intros [= <- <- <-]|done]; last first.
  { split_and!; try done. rewrite <- (andb_assoc _ (0 <? _)), <- Hok. by rewrite andb_false_r. }
  rewrite <- (andb_assoc _ (0 <? _)), <- Hok, andb_true_r.
  destruct (rename_ok io); intros [= <- <- <-]; (split_and!; [done..| |]); try done.
  intros csum [= <-]. split; [done|]. rewrite Hf1 by done. destruct Hss as [[-> -> ? ? ?] ? ? ?].
  done.
Qed.
End close.

(** A finished file opens as a reader with the same size and digests. *)
Definition reader_of (file : list byte) (uu : list byte) (ct size : Z) (csum : list byte)
    (n : Z) : Reader.FixedIndexReader :=
  {| Reader.mmap := {| IndexFile.memory := file; index_len := n;
                       header_len := HEADER_SIZE; elem_len := 32 |};
     Reader.chunk_size := FIXED_CHUNK_SIZE; Reader.size := size; Reader.uuid := uu;
     Reader.ctime := ct; Reader.index_csum := csum |}.

Lemma reader_new_file sha256 uu ct size ds base :
  (forall l, length (sha256 l) = 32%nat) ->
  length uu = 16%nat -> in_i64 ct -> in_u64 size -> 0 < size ->
  blocks_ok 32 ds -> Z.of_nat (length ds) = div_ceil size FIXED_CHUNK_SIZE ->
  base mod 4096 = 0 ->
  Reader.new {| f_regular := true; f_data := fidx_file sha256 uu ct size ds |} (Some base)
  = Ok (reader_of (fidx_file sha256 uu ct size ds) uu ct size (sha256 (concat ds))
          (Z.of_nat (length ds))).
Proof.
  intros Hsha Hu Hct Hsz Hpos Hds Hn Hb. unfold Reader.new, fidx_file.
  assert (length (header uu ct (sha256 (concat ds)) (le_bytes 8 size)) = Z.to_nat HEADER_SIZE)
    as Hh by by apply length_header.
  rewrite map_read_blocks; [|done|done| |done| |lia|apply Z.mod_1_r]; cycle 1.
  { rewrite Hh. done. }
  { rewrite length_app, (length_blocks 32), Hh by done. unfold_consts. lia. }
  unfold mmap_header. cbn [IndexFile.memory header_len index_len].
  rewrite take_app_length' by done. rewrite header_fields by done.
  cbn [h_magic h_uuid h_ctime h_index_csum h_size h_chunk_size].
  rewrite bool_decide_eq_true_2 by done.
  change (is_power_of_two FIXED_CHUNK_SIZE) with true.
  change (FIXED_CHUNK_SIZE =? FIXED_CHUNK_SIZE) with true. cbn [negb].
  rewrite bool_decide_eq_true_2; cbn [negb].
  - rewrite (proj2 (Z.eqb_neq _ _)) by (unfold_consts; lia). done.
  - unfold checked_mul. rewrite <- Hn. rewrite (proj2 (Z.leb_le _ _)); [done|].
    unfold_consts. lia.
Qed.

Lemma reader_of_digest sha256 uu ct size ds pos :
  (forall l, length (sha256 l) = 32%nat) -> length uu = 16%nat -> blocks_ok 32 ds -> 0 <= pos ->
  Reader.index_digest (reader_of (fidx_file sha256 uu ct size ds) uu ct size
    (sha256 (concat ds)) (Z.of_nat (length ds))) pos = ds !! Z.to_nat pos.
Proof.
  intros Hsha Hu Hds Hpos. unfold Reader.index_digest, reader_of, fidx_file.
  apply mmap_index_blocks; [done|done|done| |done].
  by rewrite length_header by (done || apply Hsha).
Qed.

(** A client that uploads the chunks [ds] of a content of [total] bytes in order. *)
Definition chunk_len_at (total i : Z) : Z :=
  FIXED_CHUNK_SIZE `min` (total - i * FIXED_CHUNK_SIZE).
Fixpoint add_all (io : Io) (total i : Z) (ds : list digest) (w : FixedIndexWriter)
    : res unit * FixedIndexWriter :=
  match ds with
  | [] => (Ok tt, w)
  | d :: ds =>
      let! _, w := add_chunk io (i * FIXED_CHUNK_SIZE) (chunk_len_at total i) d w in
      add_all io total (i + 1) ds w
  end.

Lemma resize_io_ok c w :
  memory w = true -> is_ok (file_size (index_capacity w)) = true -> 0 < c <= 2 ^ 42 ->
  is_ok (set_index_capacity_or_unmap io_ok c w).1 = true.
Proof.
  intros Hm Hz Hc. unfold set_index_capacity_or_unmap, set_index_capacity. case_if; [done|].
  pose proof (capacity_ok c Hc). destruct (file_size (index_capacity w)); [|done..].
  destruct (file_size c); [|done..]. by rewrite Hm.
Qed.

Lemma grow_io_ok req w :
  fw_inv w -> memory w = true -> in_u64 req -> req <= size w \/ growable_size w = true ->
  (grow_to_size io_ok req w).1 = Ok tt.
Proof.
  intros Hinv Hm Hreq Hg. pose proof Hinv as [Hcs _ _ _ Hmem].
  destruct (Hmem Hm) as [_ (hdr & slots & Hrep)]. pose proof (rep_size _ _ _ Hrep).
  unfold grow_to_size. destruct (size w <? req) eqn:E; zify_bool; [|done].
  destruct Hg as [?|Hg]; [lia|]. rewrite Hg. cbn [negb].
  rewrite Hcs. set (n := div_ceil req FIXED_CHUNK_SIZE).
  assert (0 < n <= 2 ^ 42) by (unfold n; pose proof (inv_size _ Hinv); unfold_consts; lia).
  destruct (grow_capacity io_ok req n w) as [r w1] eqn:Egc.
  assert (is_ok r = true) as Hr.
  { revert Egc. unfold grow_capacity. case_if.
    - intros E1. change r with ((r, w1).1). rewrite <- E1. by apply resize_io_ok.
    - case_if; [|by intros [= <- <-]].
      destruct (next_pow2_spec n) as (c & -> & ?); [done|].
      intros E1. change r with ((r, w1).1). rewrite <- E1. apply resize_io_ok; [done..|lia]. }
  apply grow_capacity_spec in Egc as (_ & _ & _ & Egc);
    [|done|done|pose proof (inv_size _ Hinv); unfold_consts; lia|done].
  destruct Egc as [(-> & _ & Hle & _)|[He _]]; [|by destruct r].
  by rewrite (proj2 (Z.leb_le _ _)) by done.
Qed.

Lemma add_chunk_io_ok start len d w :
  fw_inv w -> memory w = true -> length d = 32%nat ->
  0 <= start -> start mod FIXED_CHUNK_SIZE = 0 -> 0 < len <= FIXED_CHUNK_SIZE ->
  start + len <= U64_MAX ->
  start + len <= size w \/ growable_size w = true ->
  len = FIXED_CHUNK_SIZE \/ size w <= start + len ->
  (add_chunk io_ok start len d w).1 = Ok tt.
Proof.
  intros Hinv Hm Hd Hst Hal Hl Hmax Hg Hlast. unfold add_chunk, checked_add, ok_or.
  rewrite (proj2 (Z.leb_le _ _)) by done.
  pose proof (grow_io_ok (start + len) w Hinv Hm ltac:(unfold in_u64; lia) Hg) as Hgr.
  destruct (grow_to_size io_ok (start + len) w) as [r w1] eqn:E1. simpl in Hgr. subst r.
  apply grow_spec in E1 as (_ & Hinv1 & _ & E1); [|done|unfold in_u64; lia].
  destruct (E1 eq_refl) as (Hm1 & Hs1 & _ & _).
  rewrite (proj2 (check_chunk_alignment_spec w1 (start + len) len (start / FIXED_CHUNK_SIZE)
    Hinv1 ltac:(unfold in_u64; lia) ltac:(lia)))
    by (unfold FIXED_CHUNK_SIZE in *; rewrite Hs1; lia).
  destruct (add_digest _ d w1) as [r w2] eqn:E2. simpl.
  apply add_digest_spec in E2 as (_ & _ & _ & _ & _ & Hok & _);
    [|done|done|unfold FIXED_CHUNK_SIZE; lia].
  apply Hok. split; [congruence|]. rewrite (inv_length _ Hinv1), (inv_chunk_size _ Hinv1), Hs1.
  unfold_consts. lia.
Qed.

Lemma take_insert_resize n (pre slots : list digest) cap d z :
  take n slots = pre -> length pre = n -> (n < cap)%nat ->
  take (S n) (<[n:=d]> (resize cap z slots)) = pre ++ [d].
Proof.
  intros Hpre Hn Hcap. rewrite (take_S_r _ _ d).
  - rewrite take_insert_ge by lia. rewrite take_resize_le by lia.
    rewrite resize_le, Hpre; [done|]. rewrite <- Hn, <- Hpre, length_take. lia.
  - apply list_lookup_insert_eq. rewrite length_resize. lia.
Qed.

Lemma add_all_ok total i ds pre w hdr slots :
  fw_inv w -> memory w = true -> fw_repr w hdr slots ->
  in_u64 total -> 0 < total -> blocks_ok 32 ds ->
  take (Z.to_nat i) slots = pre -> Z.of_nat (length pre) = i ->
  i + Z.of_nat (length ds) = div_ceil total FIXED_CHUNK_SIZE ->
  size w = total \/
    (growable_size w = true /\ size w = i * FIXED_CHUNK_SIZE /\ size w <= total) ->
  exists w' slots', add_all io_ok total i ds w = (Ok tt, w') /\
    fw_inv w' /\ memory w' = true /\ same_meta w w' /\ size w' = total /\
    fw_repr w' hdr slots' /\ take (Z.to_nat (index_length w')) slots' = pre ++ ds.
Proof.
  intros Hinv Hm Hrep Htot Hpos Hds. revert i pre w slots Hinv Hm Hrep.
  induction Hds as [|d ds Hd Hds IH]; intros i pre w slots Hinv Hm Hrep Hpre Hi Hn Hsz.
  - assert (size w = total) as Hst by (simpl in Hn; unfold_consts; lia).
    exists w, slots. split_and!; [done..|]. rewrite app_nil_r, <- Hpre.
    rewrite (inv_length _ Hinv), (inv_chunk_size _ Hinv), Hst. simpl in Hn. f_equal. lia.
  - cbn [length] in Hn. cbn [add_all].
    set (len := chunk_len_at total i). set (st := i * FIXED_CHUNK_SIZE).
    assert (0 < len <= FIXED_CHUNK_SIZE) as Hlen by (unfold len, chunk_len_at; unfold_consts; lia).
    assert (st + len <= total) by (unfold st, len, chunk_len_at; unfold_consts; lia).
    assert (len = FIXED_CHUNK_SIZE \/ st + len = total) as Hlast
      by (unfold st, len, chunk_len_at; unfold_consts; lia).
    assert (st mod FIXED_CHUNK_SIZE = 0) as Hal by by apply Z.mod_mul.
    assert (st / FIXED_CHUNK_SIZE = i) as Hdiv by by apply Z.div_mul.
    assert (0 <= st) by (unfold st; unfold_consts; lia).
    pose proof (add_chunk_io_ok st len d w Hinv Hm Hd) as Hok.
    destruct (add_chunk io_ok st len d w) as [r w1] eqn:E1. cbn [fst] in Hok.
    assert (r = Ok tt) as ->.
    { apply Hok; try done; unfold_consts; [lia| |lia]. destruct Hsz as [->|[? _]]; [left; lia|auto]. }
    apply add_chunk_spec in E1 as (_ & Hinv1 & Hsm1 & Hr1); [|done|unfold_consts; lia..|done].
    destruct (Hr1 eq_refl) as (_ & Hm1 & _ & _ & Hs1 & _ & Hg1 & Hrep1).
    specialize (Hrep1 _ _ Hrep). rewrite Hdiv in Hrep1.
    assert (i < index_capacity w1) as Hcap.
    { pose proof (inv_memory _ Hinv1 Hm1) as [Hle _]. pose proof (inv_length _ Hinv1) as Hl1.
      rewrite (inv_chunk_size _ Hinv1) in Hl1. unfold st in *. unfold_consts. lia. }
    edestruct (IH (i + 1) (pre ++ [d])) as (w' & slots' & Hall & ? & ? & ? & ? & ? & Htake);
      [exact Hinv1|exact Hm1|exact Hrep1| |rewrite length_app; simpl; lia|lia| |].
    + replace (Z.to_nat (i + 1)) with (S (Z.to_nat i)) by (clear -Hi; lia).
      apply take_insert_resize; [done|clear -Hi; lia|clear -Hi Hcap; lia].
    + destruct Hsz as [Hsz|(Hg & Hsz & _)]; [left; lia|].
      destruct (decide (st + len = total)); [left; lia|right].
      assert (size w1 = (i + 1) * FIXED_CHUNK_SIZE) as Hs2 by (unfold st in *; lia).
      split_and!; [apply Hg1; split; [done|]; rewrite Hs2; by apply Z.mod_mul|done|lia].
    + exists w', slots'. split_and!; try done; [by etrans|].
      by rewrite <- (assoc_L (++)) in Htake.
Qed.
End FileSpec.
