(* ===== verification/FixedIndexSpec.v ===== *)
(** * Fixed index: what its users rely on

    [ReaderSpec]: every file that [FixedIndexReader::new] accepts behaves as an
    index ([IndexFileLaws]).  Then the main theorems of the component: uploading
    a content and reading the published file back, whether or not the size was
    announced, and reusing the digests of a previous index. *)

From S2P Require Import Prelude IndexFile FixedIndex.
From Stdlib Require Import Strings.Byte.

(** ** The reader keeps the promises of an index *)
Module ReaderSpec.
Import Reader.
#[local] Ltac Zify.zify_post_hook ::= Z.to_euclidean_division_equations.

(** Readers that [new] returns, for whatever file content. *)
Definition opened (r : FixedIndexReader) : Prop :=
  exists file addr, new file addr = Ok r /\ Z.of_nat (length (f_data file)) <= ADDRESS_SPACE.

(** What the checks of [new] establish. *)
Lemma new_spec file addr r :
  new file addr = Ok r ->
  chunk_size r = FIXED_CHUNK_SIZE /\ 0 < index_count r /\ 0 <= size r /\
  index_count r = div_ceil (size r) FIXED_CHUNK_SIZE /\
  memory (mmap r) = f_data file /\ header_len (mmap r) = HEADER_SIZE /\ elem_len (mmap r) = 32 /\
  Z.of_nat (length (f_data file)) = HEADER_SIZE + index_count r * 32.
Proof.
  unfold new, checked_mul. intros H. inv_ok.
  match goal with H : map_read _ _ _ _ _ _ = Ok _ |- _ =>
    apply map_read_Ok_inv in H as (? & ? & ? & Hpos & Hlen); [|done..] end.
  unfold index_count. simpl. inv_ok.
  match goal with H : le_val _ = FIXED_CHUNK_SIZE |- _ => rewrite H in * end.
  split_and!; [done|lia|apply le_val_range|lia|done..].
Qed.

Record reader_ok (r : FixedIndexReader) : Prop := {
  ro_chunk_size : chunk_size r = FIXED_CHUNK_SIZE;
  ro_pos : 0 < index_count r;
  ro_size : 0 <= size r <= U64_MAX - FIXED_CHUNK_SIZE;
  ro_count : index_count r = div_ceil (size r) FIXED_CHUNK_SIZE;
  ro_digest pos : index_digest r pos =
    if (0 <=? pos) && (pos <? index_count r)
    then Some (take 32 (drop (Z.to_nat (HEADER_SIZE + 32 * pos)) (memory (mmap r))))
    else None;
  ro_len : Z.of_nat (length (memory (mmap r))) = HEADER_SIZE + index_count r * 32;
}.

Lemma opened_ok r : opened r -> reader_ok r.
Proof.
  intros (file & addr & Hnew & Hmax).
  apply new_spec in Hnew as (? & ? & ? & ? & Hm & Hh & He & Hlen). split; try done.
  - unfold ADDRESS_SPACE, HEADER_SIZE in *. unfold_consts. lia.
  - intros pos. unfold index_digest, mmap_index. rewrite Hh, He. done.
  - congruence.
Qed.

Lemma index_digest_is_Some r pos :
  reader_ok r -> is_Some (index_digest r pos) <-> 0 <= pos < index_count r.
Proof.
  intros Hr. rewrite (ro_digest r Hr). destruct (_ && _) eqn:E; zify_bool.
  - split; [lia|by eexists].
  - split; [by intros []|]. intros [H1 H2]. apply Z.leb_le in H1. apply Z.ltb_lt in H2.
    by rewrite H1, H2 in E.
Qed.

Lemma index_digest_length r pos d :
  reader_ok r -> index_digest r pos = Some d -> length d = 32%nat.
Proof.
  intros Hr. rewrite (ro_digest r Hr). destruct (_ && _) eqn:E; [|done]. zify_bool.
  intros [= <-]. rewrite length_take, length_drop. pose proof (ro_len r Hr).
  unfold HEADER_SIZE in *. lia.
Qed.

Lemma chunk_info_eq r pos :
  reader_ok r -> 0 <= pos < index_count r -> exists d,
    index_digest r pos = Some d /\
    chunk_info r pos = Some {| range_start := pos * FIXED_CHUNK_SIZE;
      range_end := ((pos + 1) * FIXED_CHUNK_SIZE) `min` size r; cri_digest := d |}.
Proof.
  intros Hr Hpos. destruct (proj2 (index_digest_is_Some r pos Hr) Hpos) as [d Hd].
  exists d. split; [done|]. unfold chunk_info. rewrite Hd, (ro_chunk_size r Hr). simpl.
  pose proof (ro_size r Hr). pose proof (ro_count r Hr).
  rewrite !u64_small; [do 2 f_equal; lia|unfold_consts; lia..].
Qed.

Lemma chunk_info_Some r pos i :
  reader_ok r -> chunk_info r pos = Some i -> 0 <= pos < index_count r /\
    range_start i = pos * FIXED_CHUNK_SIZE /\
    range_end i = ((pos + 1) * FIXED_CHUNK_SIZE) `min` size r.
Proof.
  intros Hr Hi. assert (0 <= pos < index_count r) as Hpos.
  { apply index_digest_is_Some; [done|]. unfold chunk_info in Hi.
    destruct (index_digest r pos); [by eexists|done]. }
  destruct (chunk_info_eq r pos Hr Hpos) as (d & _ & Heq). rewrite Heq in Hi. by simplify_eq.
Qed.

Lemma csum_fold r ds (n : nat) :
  reader_ok r -> Z.of_nat n <= index_count r -> (n <= length ds)%nat ->
  (forall pos, 0 <= pos -> index_digest r pos = ds !! Z.to_nat pos) ->
  foldl (csum_step r) (Ok ([], 0)) (seqZ 0 (Z.of_nat n))
  = Ok (concat (take n ds),
        if decide (n = O) then 0 else (Z.of_nat n * FIXED_CHUNK_SIZE) `min` size r).
Proof.
  intros Hr Hn Hl Hd. induction n as [|n IH]; [done|].
  rewrite Nat2Z.inj_succ, <- Z.add_1_r, seqZ_app, foldl_app by lia.
  replace (seqZ (0 + Z.of_nat n) 1) with [Z.of_nat n] by (rewrite seqZ_cons by lia; done).
  rewrite IH by lia. cbn [foldl]. unfold csum_step.
  destruct (chunk_info_eq r (Z.of_nat n) Hr ltac:(lia)) as (d & Hdn & ->). simpl.
  rewrite Hd, Nat2Z.id in Hdn by lia.
  rewrite (take_S_r _ _ _ Hdn), concat_app. simpl. by rewrite app_nil_r.
Qed.

(** [compute_csum] hashes the digests in order, and ends at the content size. *)
Lemma compute_csum_ok sha256 r ds :
  reader_ok r -> Z.of_nat (length ds) = index_count r ->
  (forall pos, 0 <= pos -> index_digest r pos = ds !! Z.to_nat pos) ->
  compute_csum sha256 r = Ok (sha256 (concat ds), size r).
Proof.
  intros Hr Hl Hd. unfold compute_csum. rewrite <- Hl, (csum_fold r ds) by (done || lia).
  pose proof (ro_pos r Hr). pose proof (ro_count r Hr). pose proof (ro_size r Hr).
  rewrite firstn_all. rewrite decide_False by lia. do 2 f_equal. unfold_consts. lia.
Qed.
End ReaderSpec.

(** The fixed index is an index: for every file that opens, positions, ranges
    and offsets agree. *)
#[export] Instance FixedIndexReader_laws :
  IndexFileLaws Reader.FixedIndexReader ReaderSpec.reader_ok.
Proof.
  split; simpl; unfold Reader.index_bytes.
  - intros r Hr. by apply ReaderSpec.ro_pos.
  - intros r pos Hr ?. rewrite ReaderSpec.index_digest_is_Some by done. lia.
  - intros r pos Hr Hpos. destruct (ReaderSpec.chunk_info_eq r pos Hr Hpos) as (d & ? & ?).
    eexists. split_and!; [done..|simpl; unfold FIXED_CHUNK_SIZE; lia|].
    simpl. rewrite (ReaderSpec.ro_count r Hr) in Hpos. pose proof (ReaderSpec.ro_size r Hr).
    unfold div_ceil, FIXED_CHUNK_SIZE in *. Z.to_euclidean_division_equations. lia.
  - intros r i Hr Hi. by apply ReaderSpec.chunk_info_Some in Hi as (_ & -> & _).
  - intros r pos i j Hr ? Hi Hj. apply ReaderSpec.chunk_info_Some in Hi as (_ & _ & ->); [|done].
    apply ReaderSpec.chunk_info_Some in Hj as (Hc & -> & _); [|done].
    rewrite (ReaderSpec.ro_count r Hr) in Hc. pose proof (ReaderSpec.ro_size r Hr).
    unfold div_ceil, FIXED_CHUNK_SIZE in *. Z.to_euclidean_division_equations. lia.
  - intros r i Hr Hi. apply ReaderSpec.chunk_info_Some in Hi as (Hc & _ & ->); [|done].
    f_equal. rewrite (ReaderSpec.ro_count r Hr) in Hc |- *. pose proof (ReaderSpec.ro_size r Hr).
    unfold div_ceil, FIXED_CHUNK_SIZE in *. Z.to_euclidean_division_equations. lia.
  - intros r off n Hr [= <-] Hoff. unfold Reader.chunk_from_offset.
    rewrite (proj2 (Z.leb_gt _ _)), (ReaderSpec.ro_chunk_size r Hr), WriterSpec.land_chunk_mask by lia.
    destruct (ReaderSpec.chunk_info_eq r (off / FIXED_CHUNK_SIZE) Hr) as (d & _ & Hi).
    { rewrite (ReaderSpec.ro_count r Hr).
      unfold div_ceil, FIXED_CHUNK_SIZE in *. Z.to_euclidean_division_equations. lia. }
    eexists _, _. split_and!; [|..|exact Hi| |]; simpl; [do 3 f_equal|..];
      unfold div_ceil, FIXED_CHUNK_SIZE in *; Z.to_euclidean_division_equations; lia.
  - intros r off n Hr [= <-] Hoff. unfold Reader.chunk_from_offset.
    by rewrite (proj2 (Z.leb_le _ _)) by lia.
Qed.

(** ** Reusing the digests of a previous index *)
Module CloneSpec.
Import Writer WriterSpec.

Lemma clone_fold r (n : nat) w res w' :
  fw_inv w -> ReaderSpec.reader_ok r -> Z.of_nat n <= Reader.index_count r ->
  (memory w = true -> Z.of_nat n <= index_capacity w) ->
  foldl (clone_step r) (Ok tt, w) (seqZ 0 (Z.of_nat n)) = (res, w') ->
  is_panic res = false /\ fw_inv w' /\ same_sizes w w' /\
  index_capacity w' = index_capacity w /\
  (res = Ok tt -> memory w' = memory w /\ forall hdr slots, fw_repr w hdr slots ->
     exists slots', fw_repr w' hdr slots' /\
       (forall i, (i < n)%nat -> slots' !! i = Reader.index_digest r (Z.of_nat i)) /\
       (forall i, (n <= i)%nat -> slots' !! i = slots !! i)).
Proof.
  intros Hinv Hr. revert res w'. induction n as [|n IH]; intros res w' Hn Hcap.
  { intros [= <- <-]. split_and!; [done..|]. intros _. split; [done|].
    intros hdr slots Hrep. exists slots. split_and!; [done|lia|done]. }
  rewrite Nat2Z.inj_succ, <- Z.add_1_r, seqZ_app, foldl_app by lia.
  replace (seqZ (0 + Z.of_nat n) 1) with [Z.of_nat n] by (rewrite seqZ_cons by lia; done).
  destruct (foldl _ _ _) as [r1 w1] eqn:E1. specialize (IH r1 w1).
  destruct IH as (Hp & Hinv1 & Hss & Hc1 & Hok); [lia|intros; specialize (Hcap H); lia|done|].
  cbn [foldl]. unfold clone_step. destruct r1 as [[]|e|e]; [|intros [= <- <-]; done|done].
  destruct (Hok eq_refl) as [Hm1 Hrep1]. clear Hok.
  destruct (proj2 (ReaderSpec.index_digest_is_Some r (Z.of_nat n) Hr)) as [d Hd]; [lia|].
  rewrite Hd. cbn [unwrap]. pose proof (ReaderSpec.index_digest_length _ _ _ Hr Hd) as Hdl.
  destruct (add_digest_unchecked_spec (Z.of_nat n) d w1 Hinv1 Hdl)
    as [[Hm (f & -> & Hrep)]|[Hm ->]]; [lia| | |intros [= <- <-]; done].
  { intros Hm. rewrite Hm1 in Hm. specialize (Hcap Hm). lia. }
  intros [= <- <-]. rewrite Nat2Z.id in Hrep.
  assert (same_sizes w (set_file f w1)) as Hss' by (etrans; [exact Hss|by repeat split]).
  split_and!; [done| |done|done|].
  - eapply fw_inv_same_sizes; [exact Hinv1|by repeat split|]. intros _.
    destruct (inv_memory _ Hinv1 Hm) as [? (hdr & slots & ?)]. eauto.
  - intros _. split; [done|]. intros hdr slots Hs.
    destruct (Hrep1 _ _ Hs) as (slots' & Hs' & Hlt & Hge).
    exists (<[n := d]> slots'). split_and!; [by apply Hrep| |].
    + intros i Hi. destruct (decide (i = n)) as [->|].
      * rewrite Hd. apply list_lookup_insert_eq. pose proof (rep_cap _ _ _ Hs').
        rewrite Hm1 in Hm. specialize (Hcap Hm). lia.
      * rewrite list_lookup_insert_ne by done. apply Hlt. lia.
    + intros i Hi. rewrite list_lookup_insert_ne by lia. apply Hge. lia.
Qed.

Lemma clone_resize io c w r1 w1 :
  fw_inv w -> 0 < c ->
  (if growable_size w && (index_capacity w <? c)
   then set_index_capacity_or_unmap io c w else (Ok tt, w)) = (r1, w1) ->
  is_panic r1 = false /\ fw_inv w1 /\ same_sizes w w1 /\
  (r1 = Ok tt -> memory w1 = memory w /\ (growable_size w = true -> c <= index_capacity w1) /\
     forall hdr slots, memory w = true -> fw_repr w hdr slots ->
       fw_repr w1 hdr (resize (Z.to_nat (index_capacity w1)) zero_digest slots)).
Proof.
  intros Hinv Hc. destruct (_ && _) eqn:E; zify_bool.
  - intros Hr. apply resize_spec in Hr as [Hss Hr]; [|lia].
    destruct Hr as [(-> & Hm & Hcap & Hrep)|[He Hm]].
    + split_and!; [done| |done|].
      * eapply fw_inv_same_sizes; [done..|]. rewrite Hm. intros Hm'.
        destruct (inv_memory _ Hinv Hm') as [? (hdr & slots & ?)].
        split; [lia|]. eexists _, _. by apply Hrep.
      * intros _. rewrite Hcap. split_and!; [done|lia|done].
    + split_and!; [by destruct r1| |done|by destruct r1].
      eapply fw_inv_same_sizes; [done..|congruence].
  - intros [= <- <-]. split_and!; [done..|]. intros _. split_and!; [done| |].
    + intros Hg. rewrite Hg in E. simpl in E. by zify_bool.
    + intros hdr slots _ Hrep. pose proof (rep_cap _ _ _ Hrep).
      by rewrite resize_all_alt by lia.
Qed.
End CloneSpec.

(** [FixedIndexWriter::clone_data_from], which starts an incremental backup
    from the previous index.  It never panics and never leaves the invariant; it
    does not change the content size.  When it succeeds, slot [i] of the writer is
    the digest of chunk [i] of the previous index for every [i] that both have,
    the other slots are unchanged, and a writer of unknown size holds all of them. *)
Theorem clone_data_from_correct io r w res w' :
  WriterSpec.fw_inv w -> ReaderSpec.opened r ->
  Writer.clone_data_from io r w = (res, w') ->
  is_panic res = false /\ WriterSpec.fw_inv w' /\ WriterSpec.same_sizes w w' /\
  (res = Ok tt -> Writer.memory w' = Writer.memory w /\
     (Writer.growable_size w = true -> Reader.index_count r <= Writer.index_capacity w') /\
     forall hdr slots, Writer.memory w = true -> WriterSpec.fw_repr w hdr slots ->
       exists slots', WriterSpec.fw_repr w' hdr slots' /\
         forall i, slots' !! i =
           if decide (Z.of_nat i < Reader.index_count r `min` Writer.index_capacity w')
           then Reader.index_digest r (Z.of_nat i)
           else resize (Z.to_nat (Writer.index_capacity w')) WriterSpec.zero_digest slots !! i).
Proof.
  intros Hinv Ho%ReaderSpec.opened_ok. pose proof (ReaderSpec.ro_pos _ Ho) as Hpos.
  unfold Writer.clone_data_from. case_if; [by intros [= <- <-]|].
  destruct (if _ && _ then _ else _) as [r1 w1] eqn:E1.
  apply CloneSpec.clone_resize in E1 as (Hp1 & Hinv1 & Hss1 & Hok1); [|done..].
  destruct r1 as [[]|e|e]; [|by intros [= <- <-]|done].
  destruct (Hok1 eq_refl) as (Hm1 & Hg1 & Hrep1).
  set (n := Reader.index_count r `min` Writer.index_capacity w1).
  replace (seqZ 0 n) with (seqZ 0 (Z.of_nat (Z.to_nat n))) by (unfold seqZ; by rewrite Nat2Z.id).
  intros Hf. apply CloneSpec.clone_fold in Hf as (Hp & Hinv' & Hss & Hc & Hok); [|done|done|lia|].
  2: { intros Hm. destruct (WriterSpec.inv_memory _ Hinv1 Hm) as [_ (?&?&Hrep)].
       pose proof (WriterSpec.fw_repr_cap_nonneg _ _ _ Hrep). lia. }
  split_and!; [done..|by etrans|]. intros Hr. destruct (Hok Hr) as [Hm Hrep]. rewrite Hc.
  split_and!; [congruence|done|]. intros hdr slots Hmem Hs.
  destruct (Hrep _ _ (Hrep1 _ _ Hmem Hs)) as (slots' & Hs' & Hlt & Hge).
  exists slots'. split; [done|]. intros i. case_decide; [apply Hlt|apply Hge]; lia.
Qed.

(** ** Uploading a content and reading the index back *)
Module UploadSpec.
Import Writer WriterSpec FileSpec.
#[local] Ltac Zify.zify_post_hook ::= Z.to_euclidean_division_equations.

Lemma create_io_ok ct uu path tmp known :
  length uu = 16%nat -> (forall s, known = Some s -> in_u64 s /\ 0 < s) ->
  exists w, create io_ok ct uu path tmp known FIXED_CHUNK_SIZE = Ok w.
Proof.
  intros Hu Hk. unfold create. change (is_power_of_two FIXED_CHUNK_SIZE) with true.
  change (FIXED_CHUNK_SIZE =? FIXED_CHUNK_SIZE) with true. cbn [negb open_ok io_ok ftruncate_ok mmap_ok].
  set (lc := match known with Some s => _ | None => _ end). destruct lc as [len cap] eqn:Elc.
  assert (0 < cap <= 2 ^ 42) as Hcap.
  { subst lc. destruct known as [s|]; simplify_eq/=; [|done].
    destruct (Hk s eq_refl). unfold_consts. lia. }
  pose proof (capacity_ok cap Hcap) as Hok. destruct (file_size cap) as [n| |] eqn:En; [|done..].
  apply file_size_Ok in En as (_ & -> & _); [|lia].
  rewrite (proj2 (Z.eqb_neq _ _)) by (unfold HEADER_SIZE; lia).
  rewrite ftruncate_nil by lia.
  pose proof (create_header uu ct (concat (replicate (Z.to_nat cap) zero_digest)) Hu) as Hch.
  repeat match goal with
  | Hch : match ?m with _ => _ end = Ok _ |- _ => destruct m; [|done..]
  end. rewrite Hch. by eexists.
Qed.

(** A whole upload: create the writer, add the chunks in order, close it. *)
Definition upload (sha256 : list byte -> list byte) (ct : Z) (uu : list byte)
    (path tmp : string) (known : option Z) (total : Z) (ds : list digest) (fs : fs_t)
    : res digest * fs_t :=
  match create io_ok ct uu path tmp known FIXED_CHUNK_SIZE with
  | Ok w =>
      let '(r, w) := add_all io_ok total 0 ds w in
      match r with
      | Ok _ => let '(r, (_, fs)) := close io_ok sha256 w fs in (r, fs)
      | Err e => (Err e, fs)
      | Panic e => (Panic e, fs)
      end
  | Err e => (Err e, fs)
  | Panic e => (Panic e, fs)
  end.

Lemma upload_ok sha256 ct uu path tmp known total ds fs :
  (forall l, length (sha256 l) = 32%nat) -> length uu = 16%nat ->
  in_u64 total -> 0 < total -> known = None \/ known = Some total ->
  blocks_ok 32 ds -> Z.of_nat (length ds) = div_ceil total FIXED_CHUNK_SIZE ->
  upload sha256 ct uu path tmp known total ds fs =
    (Ok (sha256 (concat ds)),
     <[path := fidx_file sha256 uu ct total ds]> (delete tmp fs)).
Proof.
  intros Hsha Hu Ht Hpos Hk Hds Hn. unfold upload.
  assert (forall s, known = Some s -> in_u64 s /\ 0 < s) as Hk' by naive_solver.
  destruct (create_io_ok ct uu path tmp known Hu Hk') as [w Hw]. rewrite Hw.
  apply create_spec in Hw as (Hinv & Hm & Hsz & Hg & Hp & Htmp & Hrep); [|done|naive_solver].
  destruct (add_all_ok total 0 ds [] w _ _ Hinv Hm Hrep Ht Hpos Hds)
    as (w' & slots' & -> & Hinv' & Hm' & [Hp' Htmp' _ _ _] & Hsz' & Hrep' & Htake);
    [done..|lia| |].
  { destruct Hk as [->| ->]; simpl in *; [right|by left]. rewrite Hg, Hsz. split_and!; lia || done. }
  destruct (close io_ok sha256 w' fs) as [r [w2 fs2]] eqn:Ec.
  apply (close_spec sha256 Hsha _ _ _ uu ct slots') in Ec
    as (Hnp & _ & _ & Hok & _ & Hres); [|done..].
  rewrite (proj2 (Z.ltb_lt _ _)) in Hok
    by (rewrite (inv_length _ Hinv'), (inv_chunk_size _ Hinv'), Hsz'; unfold_consts; lia).
  destruct r as [c|e|e]; [|done..]. destruct (Hres c eq_refl) as [-> ->].
  rewrite Htake, Hp', Htmp', Hp, Htmp, Hsz'. done.
Qed.
End UploadSpec.

(** C37.  Round trip of a fixed index.  Uploading the chunks of a content in order
    succeeds when the system calls do, whether the size was announced at the start
    or the index grows with the upload, and publishes one file under the final name;
    [FixedIndexReader::new] accepts that file, and its count, size and digests are
    those of the upload; the checksum that [compute_csum] recomputes from the
    mapped digests is the one stored in the header. *)
Theorem upload_roundtrip sha256 ct uu path tmp known total ds fs base :
  (forall l, length (sha256 l) = 32%nat) -> length uu = 16%nat -> in_i64 ct ->
  in_u64 total -> 0 < total -> known = None \/ known = Some total ->
  blocks_ok 32 ds -> Z.of_nat (length ds) = div_ceil total FIXED_CHUNK_SIZE ->
  base mod 4096 = 0 ->
  exists fs' data r,
    UploadSpec.upload sha256 ct uu path tmp known total ds fs = (Ok (sha256 (concat ds)), fs') /\
    fs' = <[path := data]> (delete tmp fs) /\
    Reader.new {| f_regular := true; f_data := data |} (Some base) = Ok r /\
    Reader.index_count r = Z.of_nat (length ds) /\ Reader.index_bytes r = total /\
    Reader.ctime r = ct /\ Reader.uuid r = uu /\ Reader.index_csum r = sha256 (concat ds) /\
    (forall pos, 0 <= pos -> Reader.index_digest r pos = ds !! Z.to_nat pos) /\
    (Z.of_nat (length data) <= ADDRESS_SPACE ->
       Reader.compute_csum sha256 r = Ok (Reader.index_csum r, total)).
Proof.
  intros Hsha Hu Hct Ht Hpos Hk Hds Hn Hb. eexists _, _, _.
  split; [by apply UploadSpec.upload_ok|]. split; [done|].
  split; [by apply FileSpec.reader_new_file|].
  assert (forall pos, 0 <= pos -> Reader.index_digest (FileSpec.reader_of
    (FileSpec.fidx_file sha256 uu ct total ds) uu ct total (sha256 (concat ds))
    (Z.of_nat (length ds))) pos = ds !! Z.to_nat pos) as Hd
    by (intros; by apply FileSpec.reader_of_digest).
  split_and!; [done..|]. intros Hmax. apply ReaderSpec.compute_csum_ok; [|done..].
  apply ReaderSpec.opened_ok.
  exists {| f_regular := true; f_data := FileSpec.fidx_file sha256 uu ct total ds |}, (Some base).
  split; [by apply FileSpec.reader_new_file|exact Hmax].
Qed.

(** ** Witnesses *)
Module FixedWitness.
Definition uu : list byte := replicate 16 x01.
Definition sha (l : list byte) : list byte := take 32 (l ++ replicate 32 x00).
Definition d1 : digest := replicate 32 x02.
Definition d2 : digest := replicate 32 x03.
Definition total : Z := FIXED_CHUNK_SIZE + 5.

Lemma sha_len l : length (sha l) = 32%nat.
Proof. unfold sha. rewrite length_take, length_app, length_replicate. lia. Qed.

(** A writer of unknown size, and the state after its creation. *)
Lemma new_writer_inv : exists w,
  Writer.create Writer.io_ok 7 uu "a.fidx" "a.tmp_fidx" None FIXED_CHUNK_SIZE = Ok w /\
  WriterSpec.fw_inv w /\ Writer.memory w = true.
Proof.
  destruct (UploadSpec.create_io_ok 7 uu "a.fidx" "a.tmp_fidx" None) as [w Hw]; [done..|].
  exists w. split; [done|]. apply FileSpec.create_spec in Hw; [|done..]. naive_solver.
Qed.

Definition file2 : list byte := FileSpec.fidx_file sha uu 7 total [d1; d2].
Lemma open_file2 : exists r,
  Reader.new {| f_regular := true; f_data := file2 |} (Some 8192) = Ok r /\
  ReaderSpec.opened r.
Proof.
  assert (blocks_ok 32 [d1; d2]) as Hds by by repeat constructor.
  pose proof (FileSpec.reader_new_file sha uu 7 total [d1; d2] 8192 sha_len eq_refl
    ltac:(done) ltac:(done) ltac:(done) Hds eq_refl eq_refl) as Hnew.
  eexists. split; [exact Hnew|]. eexists _, _. split; [exact Hnew|].
  unfold f_data, FileSpec.fidx_file.
  by rewrite length_app, FileSpec.length_header by (done || apply sha_len).
Qed.

(** A search that meets the documentation of [binary_search_by_key]. *)
Fixpoint search (l : list (digest * Z)) (c : Z) : nat + nat :=
  match l with
  | [] => inr O
  | e :: l =>
      if e.2 <? c then match search l c with inl p => inl (S p) | inr p => inr (S p) end
      else if e.2 =? c then inl O else inr O
  end.
Lemma search_correct : search_ok search.
Proof.
  intros l c Hs. induction Hs as [|x l Hs IH Hx]; simpl.
  { split; [done|]. intros i e ?. done. }
  rewrite Forall_forall in Hx. destruct (x.2 <? c) eqn:E; zify_bool.
  - destruct (search l c) as [p|p]; [done|]. destruct IH as [? IH]. split; [lia|].
    intros [|i] e Hi; simplify_eq/=; [done|]. specialize (IH i e Hi).
    repeat case_decide; lia.
  - destruct (x.2 =? c) eqn:E2; zify_bool; [by eexists|]. split; [lia|].
    intros i e Hi. rewrite decide_False by lia. destruct i as [|i]; simplify_eq/=; [lia|].
    specialize (Hx e). unfold le_count in Hx. apply list_elem_of_lookup_2 in Hi.
    specialize (Hx Hi). lia.
Qed.
End FixedWitness.

Lemma add_chunk_correct_witness :
  exists w, Writer.memory w = true /\
    WriterSpec.fw_inv (Writer.add_chunk Writer.io_ok 0 5 FixedWitness.d1 w).2.
Proof.
  destruct FixedWitness.new_writer_inv as (w & _ & Hinv & Hm). exists w. split; [exact Hm|].
  destruct (Writer.add_chunk Writer.io_ok 0 5 FixedWitness.d1 w) as [r w'] eqn:E.
  apply (add_chunk_correct Writer.io_ok 0 5 FixedWitness.d1 w r w' Hinv ltac:(done) ltac:(done)
    eq_refl E).
Defined.

Lemma clone_data_from_correct_witness :
  exists w r, Writer.memory w = true /\
    WriterSpec.fw_inv (Writer.clone_data_from Writer.io_ok r w).2.
Proof.
  destruct FixedWitness.new_writer_inv as (w & _ & Hinv & Hm).
  destruct FixedWitness.open_file2 as (r & _ & Hr). exists w, r. split; [exact Hm|].
  destruct (Writer.clone_data_from Writer.io_ok r w) as [res w'] eqn:E.
  apply (clone_data_from_correct Writer.io_ok r w res w' Hinv Hr E).
Defined.

Lemma upload_roundtrip_witness : exists fs',
  UploadSpec.upload FixedWitness.sha 7 FixedWitness.uu "a.fidx" "a.tmp_fidx" None
    FixedWitness.total [FixedWitness.d1; FixedWitness.d2] ∅
  = (Ok FixedWitness.d1, fs') /\
  is_Some (fs' !! "a.fidx").
Proof.
  destruct (upload_roundtrip FixedWitness.sha 7 FixedWitness.uu "a.fidx" "a.tmp_fidx" None
    FixedWitness.total [FixedWitness.d1; FixedWitness.d2] ∅ 8192)
    as (fs' & data & r & Hu & -> & _);
    [exact FixedWitness.sha_len|reflexivity|done|done|done|by left|by repeat constructor|
     reflexivity|reflexivity|].
  eexists. split; [exact Hu|]. rewrite lookup_insert. by eexists.
Defined.

Lemma find_most_used_keeps_least_witness : exists r result,
  find_most_used_chunks (fun m => map_to_list m) FixedWitness.search
    (r : Reader.FixedIndexReader) 1 = Ok result /\ Z.of_nat (size result) <= 1.
Proof.
  destruct FixedWitness.open_file2 as (r & _ & Hr). exists r.
  destruct (find_most_used_keeps_least ReaderSpec.reader_ok (fun m => map_to_list m) FixedWitness.search r 1)
    as (counts & result & _ & Hf & Hsz & _);
    [intros m; done|exact FixedWitness.search_correct|by apply ReaderSpec.opened_ok|done|].
  exists result. split; [exact Hf|exact Hsz].
Defined.
