(* ===== verification/LruCache.v ===== *)
(** * Least recently used cache, [pbs-tools/src/lru_cache.rs]

    The cache is a hash map from keys to raw pointers and a doubly linked list of
    heap nodes.  The nodes are modelled as a heap, a finite map from addresses to
    [CacheNode]s: dereferencing, or freeing, an address that is not allocated is
    undefined behaviour and evaluates to [Panic].  The theorems refine the whole
    to a list of entries, most recently used first ([Abs]): no operation is
    undefined, results agree, and the heap holds exactly the cached entries, so
    nothing leaks. *)

From S2P Require Import Prelude.

(** Addresses; [None] is the null pointer. *)
Abbreviation loc := positive.
Abbreviation ptr := (option loc).

Record CacheNode (K V : Type) := CacheNode_new {
  key : K;
  value : V;
  prev : ptr;
  next : ptr;
}.
Arguments CacheNode_new {K V} _ _ _ _.
Arguments key {K V} _.
Arguments value {K V} _.
Arguments prev {K V} _.
Arguments next {K V} _.

(** ** The heap *)
Section heap.
Context {K V : Type}.
Abbreviation node := (CacheNode K V).
Abbreviation heap := (gmap loc node).

Definition deref (p : ptr) (h : heap) : res node :=
  match p with
  | Some l => match h !! l with Some n => Ok n | None => Panic "UB: dangling pointer" end
  | None => Panic "UB: null pointer"
  end.

Definition update (p : ptr) (f : node -> node) (h : heap) : res heap :=
  let? n := deref p h in
  match p with
  | Some l => Ok (<[l := f n]> h)
  | None => Panic "UB: null pointer"
  end.

(** [Box::into_raw(Box::new(n))]: some address that is not in use. *)
Definition alloc (n : node) (h : heap) : loc * heap :=
  let l := fresh (dom h) in (l, <[l := n]> h).

(** Dropping the box. *)
Definition free (l : loc) (h : heap) : heap := delete l h.

Definition set_value (v : V) (n : node) : node := CacheNode_new (key n) v (prev n) (next n).
Definition set_prev (p : ptr) (n : node) : node := CacheNode_new (key n) (value n) p (next n).
Definition set_next (p : ptr) (n : node) : node := CacheNode_new (key n) (value n) (prev n) p.
End heap.

(** ** [LinkedList] *)
Record LinkedList (K V : Type) := {
  nodes : gmap loc (CacheNode K V);
  head : ptr;
  tail : ptr;
}.
Arguments Build_LinkedList {K V} _ _ _.
Arguments nodes {K V} _.
Arguments head {K V} _.
Arguments tail {K V} _.

Module List.
Section list.
Context {K V : Type}.

Definition new : LinkedList K V := Build_LinkedList ∅ None None.

Definition bring_to_front (node_ptr : loc) (l : LinkedList K V) : res (LinkedList K V) :=
  if decide (Some node_ptr = head l) then Ok l else
  let? node := deref (Some node_ptr) (nodes l) in
  let? h := update (prev node) (set_next (next node)) (nodes l) in
  let? (h, tl) :=
    match next node with
    | Some _ => let? h := update (next node) (set_prev (prev node)) h in Ok (h, tail l)
    | None => Ok (h, prev node)
    end in
  let? h := update (Some node_ptr) (set_prev None) h in
  let? h := update (Some node_ptr) (set_next (head l)) h in
  let? h := update (head l) (set_prev (Some node_ptr)) h in
  Ok (Build_LinkedList h (Some node_ptr) tl).

Definition push_front (node_ptr : loc) (l : LinkedList K V) : res (LinkedList K V) :=
  let? h := update (Some node_ptr) (set_next (head l)) (nodes l) in
  let? h :=
    match head l with
    | Some _ => update (head l) (set_prev (Some node_ptr)) h
    | None => Ok h
    end in
  Ok (Build_LinkedList h (Some node_ptr)
        (match tail l with None => Some node_ptr | Some t => Some t end)).

(** [remove] returns the box; the caller takes its value and drops it. *)
Definition remove (node_ptr : loc) (l : LinkedList K V)
    : res (CacheNode K V * LinkedList K V) :=
  let? node := deref (Some node_ptr) (nodes l) in
  let? (h, hd) :=
    match prev node with
    | Some _ => let? h := update (prev node) (set_next (next node)) (nodes l) in Ok (h, head l)
    | None => Ok (nodes l, next node)
    end in
  let? (h, tl) :=
    match next node with
    | Some _ => let? h := update (next node) (set_prev (prev node)) h in Ok (h, tail l)
    | None => Ok (h, prev node)
    end in
  Ok (node, Build_LinkedList (free node_ptr h) hd tl).

(** [pop_tail]; note that it does not touch [head]. *)
Definition pop_tail (l : LinkedList K V) : res (option (CacheNode K V) * LinkedList K V) :=
  match tail l with
  | None => Ok (None, l)
  | Some t =>
      let? old_tail := deref (Some t) (nodes l) in
      let tl := prev old_tail in
      let? h :=
        match tl with
        | Some _ => update tl (set_next None) (nodes l)
        | None => Ok (nodes l)
        end in
      Ok (Some old_tail, Build_LinkedList (free t h) (head l) tl)
  end.

(** The loop of [clear]; every turn frees a node, so the number of allocated
    nodes bounds the number of turns. *)
Fixpoint clear_loop (fuel : nat) (nxt : ptr) (h : gmap loc (CacheNode K V))
    : res (gmap loc (CacheNode K V)) :=
  match nxt with
  | None => Ok h
  | Some l =>
      match fuel with
      | O => Panic "out of fuel"
      | S fuel =>
          let? current := deref (Some l) h in
          clear_loop fuel (next current) (free l h)
      end
  end.
Definition clear (l : LinkedList K V) : res (LinkedList K V) :=
  let? h := clear_loop (S (size (nodes l))) (head l) (nodes l) in
  Ok (Build_LinkedList h None None).
End list.
End List.

(** ** [LruCache] *)
Record LruCache (K V : Type) `{Countable K} := {
  lru_map : gmap K loc;
  lru_list : LinkedList K V;
  lru_capacity : Z;
}.
Arguments Build_LruCache {K V _ _} _ _ _.
Arguments lru_map {K V _ _} _.
Arguments lru_list {K V _ _} _.
Arguments lru_capacity {K V _ _} _.

Module Lru.
Section lru.
(** [E] is what the callbacks of the caller act upon. *)
Context {K V : Type} `{Countable K} {E : Type}.
Abbreviation cache := (LruCache K V).

Definition new (capacity : Z) : cache :=
  Build_LruCache ∅ List.new (capacity `max` 1).

Definition clear (c : cache) : res cache :=
  let? l := List.clear (lru_list c) in
  Ok (Build_LruCache ∅ l (lru_capacity c)).

Definition len (c : cache) : Z := Z.of_nat (size (lru_map c)).
Definition is_empty (c : cache) : bool := bool_decide (lru_map c = ∅).

Definition remove (k : K) (c : cache) : res (option V) * cache :=
  match lru_map c !! k with
  | None => (Ok None, c)
  | Some node_ptr =>
      try! (node, l) := List.remove node_ptr (lru_list c) for c in
      (Ok (Some (value node)), Build_LruCache (delete k (lru_map c)) l (lru_capacity c))
  end.

Definition pop_tail (c : cache) : res (option K * cache) :=
  let? (old_tail, l) := List.pop_tail (lru_list c) in
  match old_tail with
  | None => Ok (None, Build_LruCache (lru_map c) l (lru_capacity c))
  | Some node =>
      Ok (match lru_map c !! key node with Some _ => Some (key node) | None => None end,
          Build_LruCache (delete (key node) (lru_map c)) l (lru_capacity c))
  end.

(** The value of the node at the head of the list. *)
Definition head_value (c : cache) : res V :=
  let? n := deref (head (lru_list c)) (nodes (lru_list c)) in Ok (value n).

Definition bring_to_front (node_ptr : loc) (c : cache) : res cache :=
  let? l := List.bring_to_front node_ptr (lru_list c) in
  Ok (Build_LruCache (lru_map c) l (lru_capacity c)).

(** The [Entry::Vacant] arm shared by [insert] and [access]: a new head node,
    and the removal of the tail when the capacity is exceeded. *)
Definition insert_vacant (k : K) (v : V) (removed : K -> E -> res unit * E) (c : cache) (e : E)
    : res unit * (cache * E) :=
  let '(node_ptr, h) := alloc (CacheNode_new k v None None) (nodes (lru_list c)) in
  try! l := List.push_front node_ptr
              (Build_LinkedList h (head (lru_list c)) (tail (lru_list c))) for (c, e) in
  let c := Build_LruCache (<[k := node_ptr]> (lru_map c)) l (lru_capacity c) in
  if lru_capacity c <? Z.of_nat (size (lru_map c)) then
    try! (removed_node, c) := pop_tail c for (c, e) in
    match removed_node with
    | Some removed_node => let '(r, e) := removed removed_node e in (r, (c, e))
    | None => (Ok tt, (c, e))
    end
  else (Ok tt, (c, e)).

Definition insert (k : K) (v : V) (removed : K -> E -> res unit * E) (c : cache) (e : E)
    : res bool * (cache * E) :=
  match lru_map c !! k with
  | Some node_ptr =>
      try! c := bring_to_front node_ptr c for (c, e) in
      try! h := update (Some node_ptr) (set_value v) (nodes (lru_list c)) for (c, e) in
      (Ok true, (Build_LruCache (lru_map c)
        (Build_LinkedList h (head (lru_list c)) (tail (lru_list c))) (lru_capacity c), e))
  | None =>
      let! _, ce := insert_vacant k v removed c e in (Ok false, ce)
  end.

Definition get_mut (k : K) (c : cache) : res (option V) * cache :=
  match lru_map c !! k with
  | None => (Ok None, c)
  | Some node_ptr =>
      try! c := bring_to_front node_ptr c for c in
      try! v := head_value c for c in
      (Ok (Some v), c)
  end.

Definition access (k : K) (fetch : K -> E -> res (option V) * E)
    (removed : K -> E -> res unit * E) (c : cache) (e : E) : res (option V) * (cache * E) :=
  match lru_map c !! k with
  | Some node_ptr =>
      try! c := bring_to_front node_ptr c for (c, e) in
      try! v := head_value c for (c, e) in
      (Ok (Some v), (c, e))
  | None =>
      let '(r, e) := fetch k e in
      try! fetched := r for (c, e) in
      match fetched with
      | None => (Ok None, (c, e))
      | Some v =>
          let! _, ce := insert_vacant k v removed c e in
          try! v := head_value ce.1 for ce in
          (Ok (Some v), ce)
      end
  end.
End lru.
End Lru.

(** ** The abstract cache: entries, most recently used first *)
Module Abs.
Section abs.
Context {K V : Type} `{Countable K} {E : Type}.

Fixpoint find (k : K) (l : list (K * V)) : option V :=
  match l with
  | [] => None
  | (k', v) :: l => if decide (k' = k) then Some v else find k l
  end.
Definition without (k : K) (l : list (K * V)) : list (K * V) :=
  filter (fun x => x.1 <> k) l.

(** Cut the least recently used entry when the capacity is exceeded. *)
Definition shrink (cap : Z) (removed : K -> E -> res unit * E) (l : list (K * V)) (e : E)
    : res unit * (list (K * V) * E) :=
  if cap <? Z.of_nat (length l) then
    match last l with
    | Some (k, _) => let '(r, e) := removed k e in (r, (take (length l - 1) l, e))
    | None => (Ok tt, (l, e))
    end
  else (Ok tt, (l, e)).

Definition insert (cap : Z) (k : K) (v : V) removed l (e : E) : res bool * (list (K * V) * E) :=
  match find k l with
  | Some _ => (Ok true, ((k, v) :: without k l, e))
  | None => let! _, le := shrink cap removed ((k, v) :: l) e in (Ok false, le)
  end.

Definition remove (k : K) (l : list (K * V)) : option V * list (K * V) :=
  (find k l, without k l).

Definition get_mut (k : K) (l : list (K * V)) : option V * list (K * V) :=
  match find k l with
  | Some v => (Some v, (k, v) :: without k l)
  | None => (None, l)
  end.

Definition access (cap : Z) (k : K) (fetch : K -> E -> res (option V) * E) removed l (e : E)
    : res (option V) * (list (K * V) * E) :=
  match find k l with
  | Some v => (Ok (Some v), ((k, v) :: without k l, e))
  | None =>
      let '(r, e) := fetch k e in
      try! fetched := r for (l, e) in
      match fetched with
      | None => (Ok None, (l, e))
      | Some v =>
          let! _, le := shrink cap removed ((k, v) :: l) e in (Ok (Some v), le)
      end
  end.
End abs.
End Abs.

(** ** Representation *)
Module LruSpec.
Section spec.
Context {K V : Type} `{Countable K}.
Abbreviation entry := (loc * (K * V))%type.

Definition hd_ptr (l : list entry) (d : ptr) : ptr :=
  match l with [] => d | x :: _ => Some x.1 end.
Definition last_ptr (l : list entry) (d : ptr) : ptr :=
  match last l with None => d | Some x => Some x.1 end.

(** The nodes of a list segment between [prv] and [nxt]. *)
Fixpoint seg (prv : ptr) (l : list entry) (nxt : ptr) : list (loc * CacheNode K V) :=
  match l with
  | [] => []
  | (p, (k, v)) :: l => (p, CacheNode_new k v prv (hd_ptr l nxt)) :: seg (Some p) l nxt
  end.

Record list_repr (ll : LinkedList K V) (l : list entry) : Prop := {
  lr_nodup : NoDup l.*1;
  lr_nodes : nodes ll = list_to_map (seg None l None);
  lr_head : head ll = hd_ptr l None;
  lr_tail : tail ll = last_ptr l None;
}.

Record lru_repr (c : LruCache K V) (l : list entry) : Prop := {
  cr_list : list_repr (lru_list c) l;
  cr_keys : NoDup (l.*2).*1;
  cr_map : lru_map c = list_to_map ((fun x => (x.2.1, x.1)) <$> l);
  cr_len : Z.of_nat (length l) <= lru_capacity c;
  cr_cap : 1 <= lru_capacity c;
}.

Lemma seg_fst prv l nxt : (seg prv l nxt).*1 = l.*1.
Proof. revert prv. induction l as [|[p [k v]] l IH]; intros prv; simpl; [done|]. by rewrite IH. Qed.

Lemma last_ptr_cons x l d : last_ptr (x :: l) d = last_ptr l (Some x.1).
Proof. unfold last_ptr. rewrite last_cons. by destruct (last l). Qed.
Lemma last_ptr_snoc l x d : last_ptr (l ++ [x]) d = Some x.1.
Proof. unfold last_ptr. by rewrite last_snoc. Qed.
Lemma hd_ptr_app l1 l2 d : hd_ptr (l1 ++ l2) d = hd_ptr l1 (hd_ptr l2 d).
Proof. by destruct l1. Qed.

Lemma seg_app prv l1 l2 nxt :
  seg prv (l1 ++ l2) nxt = seg prv l1 (hd_ptr l2 nxt) ++ seg (last_ptr l1 prv) l2 nxt.
Proof.
  revert prv. induction l1 as [|[p [k v]] l1 IH]; intros prv; simpl; [done|].
  by rewrite IH, hd_ptr_app, last_ptr_cons.
Qed.

(** Operations on a heap that is given as a list of nodes. *)
Lemma ltm_lookup (A B : list (loc * CacheNode K V)) p n :
  NoDup (A ++ (p, n) :: B).*1 -> (list_to_map (A ++ (p, n) :: B) : gmap loc _) !! p = Some n.
Proof. intros Hnd. apply elem_of_list_to_map_1; [done|]. set_solver. Qed.

Lemma ltm_insert (A B : list (loc * CacheNode K V)) p n n' :
  NoDup (A ++ (p, n) :: B).*1 ->
  <[p := n']> (list_to_map (A ++ (p, n) :: B) : gmap loc _) = list_to_map (A ++ (p, n') :: B).
Proof.
  intros Hnd. rewrite fmap_app, fmap_cons in Hnd. apply NoDup_app in Hnd as (HA & Hp & HB).
  rewrite !list_to_map_app. simpl. rewrite <- insert_union_r.
  - rewrite <- insert_union_r; [by rewrite insert_insert_eq|].
    apply not_elem_of_list_to_map_1. intros ?. by apply (Hp p); [|left].
  - apply not_elem_of_list_to_map_1. intros ?. by apply (Hp p); [|left].
Qed.

Lemma ltm_delete (A B : list (loc * CacheNode K V)) p n :
  NoDup (A ++ (p, n) :: B).*1 ->
  delete p (list_to_map (A ++ (p, n) :: B) : gmap loc _) = list_to_map (A ++ B).
Proof.
  intros Hnd. rewrite fmap_app, fmap_cons in Hnd. apply NoDup_app in Hnd as (HA & Hp & HB).
  apply NoDup_cons in HB as [HpB HB].
  rewrite !list_to_map_app. simpl. rewrite delete_union, delete_insert_eq.
  rewrite !delete_id; [done|..]; apply not_elem_of_list_to_map_1; [done|].
  intros ?. by apply (Hp p); [|left].
Qed.

Lemma update_ltm (A B : list (loc * CacheNode K V)) p n f :
  NoDup (A ++ (p, n) :: B).*1 ->
  update (Some p) f (list_to_map (A ++ (p, n) :: B)) = Ok (list_to_map (A ++ (p, f n) :: B)).
Proof.
  intros Hnd. unfold update, deref. rewrite ltm_lookup by done. simpl. by rewrite ltm_insert.
Qed.

(** Updating the last [next] or the first [prev] of a segment. *)
Lemma update_last A B prv l nxt nxt' :
  NoDup (A ++ seg prv l nxt ++ B).*1 -> l <> [] ->
  update (last_ptr l None) (set_next nxt') (list_to_map (A ++ seg prv l nxt ++ B))
  = Ok (list_to_map (A ++ seg prv l nxt' ++ B)).
Proof.
  intros Hnd Hl. destruct l as [|[p [k v]] l _] using rev_ind; [done|].
  rewrite last_ptr_snoc. rewrite !seg_app in *. simpl in *.
  rewrite <- !(assoc_L (++)), !(assoc_L (++) A) in *. by apply update_ltm.
Qed.
Lemma update_first A B prv prv' l nxt :
  NoDup (A ++ seg prv l nxt ++ B).*1 -> l <> [] ->
  update (hd_ptr l None) (set_prev prv') (list_to_map (A ++ seg prv l nxt ++ B))
  = Ok (list_to_map (A ++ seg prv' l nxt ++ B)).
Proof. intros Hnd Hl. destruct l as [|[p [k v]] l]; [done|]. by apply update_ltm. Qed.

#[local] Ltac solve_nodup :=
  repeat (rewrite fmap_app in * || rewrite fmap_cons in * || rewrite seg_fst in *);
  simpl in *; rewrite <- ?(assoc_L (++)) in *; simpl in *; done.

Lemma last_ptr_ne l d d' : l <> [] -> last_ptr l d = last_ptr l d'.
Proof. intros Hl. unfold last_ptr. destruct (last l) eqn:E; [done|]. by apply last_None in E. Qed.
Lemma hd_ptr_ne l d d' : l <> [] -> hd_ptr l d = hd_ptr l d'.
Proof. by destruct l. Qed.

Lemma new_repr : list_repr List.new [].
Proof. split; [constructor|done..]. Qed.

(** Unlinking a node from its right neighbour, shared by [bring_to_front] and [remove]. *)
Lemma update_next_prev l1 l2 p (k : K) (v : V) n :
  NoDup (l1 ++ (p, (k, v)) :: l2).*1 ->
  exists tl, match hd_ptr l2 None with
    | Some _ =>
        let? h := update (hd_ptr l2 None) (set_prev (last_ptr l1 None))
          (list_to_map (seg None l1 (hd_ptr l2 None) ++ (p, n) :: seg (Some p) l2 None))
        in Ok (h, last_ptr (l1 ++ (p, (k, v)) :: l2) None)
    | None =>
        Ok (list_to_map (seg None l1 (hd_ptr l2 None) ++ (p, n) :: seg (Some p) l2 None),
            last_ptr l1 None)
    end = Ok (list_to_map (seg None l1 (hd_ptr l2 None) ++ (p, n) :: seg (last_ptr l1 None) l2 None),
      tl) /\ tl = last_ptr (l1 ++ l2) None.
Proof.
  intros Hnd. destruct (decide (l2 = [])) as [->|Hl2].
  - simpl. eexists. split; [done|]. by rewrite app_nil_r.
  - pose proof (update_first (seg None l1 (hd_ptr l2 None) ++ [(p, n)]) [] (Some p)
      (last_ptr l1 None) l2 None) as Hu. rewrite !app_nil_r, <- !(assoc_L (++)) in Hu.
    simpl in Hu. rewrite Hu by (done || solve_nodup).
    exists (last_ptr (l1 ++ (p, (k, v)) :: l2) None). split; [by destruct l2|]. unfold last_ptr.
    rewrite !last_app, last_cons. destruct (last l2) eqn:E; [done|]. by apply last_None in E.
Qed.

Lemma bring_to_front_spec ll l1 l2 p k v :
  list_repr ll (l1 ++ (p, (k, v)) :: l2) ->
  exists ll', List.bring_to_front p ll = Ok ll' /\ list_repr ll' ((p, (k, v)) :: l1 ++ l2).
Proof.
  intros [Hnd Hn Hh Ht]. unfold List.bring_to_front. rewrite Hh, Hn, hd_ptr_app. simpl.
  destruct (decide (l1 = [])) as [->|Hl1].
  { simpl. rewrite decide_True by done. eexists. by split. }
  rewrite decide_False; last first.
  { destruct l1 as [|x l1]; [done|]. simpl. intros [= ->]. simpl in Hnd.
    apply NoDup_cons in Hnd as [Hx _]. rewrite fmap_app in Hx. set_solver. }
  rewrite seg_app. cbn [seg]. set (n := CacheNode_new k v _ _). cbn [hd_ptr fst] in *.
  rewrite ltm_lookup by solve_nodup. cbn [prev next n].
  rewrite <- (app_nil_l (seg None l1 _ ++ _)).
  rewrite (update_last [] _ None l1) by (done || solve_nodup). cbn [app].
  destruct (update_next_prev l1 l2 p k v n Hnd) as (tl & Hm & Htl). rewrite Ht, Hm.
  cbn iota beta. clear Hm.
  rewrite update_ltm by solve_nodup. rewrite update_ltm by solve_nodup.
  rewrite (hd_ptr_ne l1 (Some p) None) by done.
  rewrite <- (app_nil_l (seg None l1 _ ++ _)).
  rewrite (update_first [] _ None) by (done || solve_nodup). cbn [app].
  eexists. split; [done|]. split; cbn [nodes head tail].
  - by rewrite Permutation_middle.
  - cbn [seg]. rewrite seg_app, hd_ptr_app, (hd_ptr_ne l1 (hd_ptr l2 None) None) by done.
    rewrite (last_ptr_ne l1 (Some p) None) by done. unfold set_next, set_prev, n.
    cbn [key value prev next]. apply list_to_map_proper; [solve_nodup|]. by rewrite Permutation_middle.
  - done.
  - rewrite last_ptr_cons. rewrite Htl. apply last_ptr_ne. by destruct l1.
Qed.

Lemma push_front_spec ll l p k v :
  list_repr ll l -> p ∉ l.*1 ->
  exists ll', List.push_front p (Build_LinkedList
      (<[p := CacheNode_new k v None None]> (nodes ll)) (head ll) (tail ll)) = Ok ll' /\
    list_repr ll' ((p, (k, v)) :: l).
Proof.
  intros [Hnd Hn Hh Ht] Hp. unfold List.push_front. cbn [nodes head tail]. rewrite Hn, Hh, Ht.
  set (n := CacheNode_new k v None None).
  assert (NoDup ((p, n) :: seg None l None).*1) as Hnd'
    by (rewrite fmap_cons, seg_fst; by constructor).
  change (<[p:=n]> (list_to_map (seg None l None)))
    with (list_to_map ((p, n) :: seg None l None) : gmap loc (CacheNode K V)).
  rewrite <- (app_nil_l ((p, n) :: _)), update_ltm by done. cbn [app].
  destruct l as [|x l].
  - eexists. split; [done|]. split; [by constructor; [set_solver|constructor]|done..].
  - pose proof (update_first [(p, set_next (hd_ptr (x :: l) None) n)] [] None (Some p) (x :: l) None)
      as Hu. rewrite !app_nil_r in Hu. cbn [app] in Hu. cbn [hd_ptr] in Hu |- *.
    rewrite Hu by (done || solve_nodup). eexists. split; [done|].
    split; cbn [nodes head tail]; [by constructor|done..|].
    rewrite !last_ptr_cons. by destruct (last_ptr l (Some x.1)) eqn:E;
      [|unfold last_ptr in E; destruct (last l)].
Qed.

Lemma remove_spec ll l1 l2 p k v :
  list_repr ll (l1 ++ (p, (k, v)) :: l2) ->
  exists ll', List.remove p ll
      = Ok (CacheNode_new k v (last_ptr l1 None) (hd_ptr l2 None), ll') /\
    list_repr ll' (l1 ++ l2).
Proof.
  intros [Hnd Hn Hh Ht]. unfold List.remove. rewrite Hh, Ht, Hn, seg_app, hd_ptr_app.
  cbn [seg deref hd_ptr fst]. set (n := CacheNode_new k v _ _).
  rewrite ltm_lookup by solve_nodup. cbn [prev next n].
  assert (exists hd, match last_ptr l1 None with
    | Some _ =>
        let? h := update (last_ptr l1 None) (set_next (hd_ptr l2 None))
          (list_to_map (seg None l1 (Some p) ++ (p, n) :: seg (Some p) l2 None))
        in Ok (h, hd_ptr l1 (Some p))
    | None =>
        Ok (list_to_map (seg None l1 (Some p) ++ (p, n) :: seg (Some p) l2 None), hd_ptr l2 None)
    end = Ok (list_to_map (seg None l1 (hd_ptr l2 None) ++ (p, n) :: seg (Some p) l2 None), hd)
    /\ hd = hd_ptr (l1 ++ l2) None) as (hd & -> & ->).
  { destruct (decide (l1 = [])) as [->|Hl1]; [simpl; eauto|].
    rewrite <- (app_nil_l (seg None l1 _ ++ _)), (update_last [] _ None l1)
      by (done || solve_nodup). exists (hd_ptr l1 (Some p)). split.
    - destruct (last_ptr l1 None) eqn:E; [done|]. rewrite (last_ptr_ne _ _ (Some p)) in E by done.
      unfold last_ptr in E. by destruct (last l1).
    - rewrite hd_ptr_app. by apply hd_ptr_ne. }
  destruct (update_next_prev l1 l2 p k v n Hnd) as (tl & -> & ->).
  eexists. split; [done|]. split; cbn [nodes head tail]; [| |done..].
  - rewrite fmap_app in *. simpl in Hnd. rewrite <- Permutation_middle in Hnd.
    by apply NoDup_cons in Hnd as [_ ?].
  - unfold free. rewrite ltm_delete by solve_nodup. by rewrite seg_app.
Qed.

(** With at least two nodes [pop_tail] leaves a list; the single node of a list
    would leave [head] dangling, but the cache only evicts above its capacity,
    which is at least one. *)
Lemma pop_tail_spec ll l p k v :
  list_repr ll (l ++ [(p, (k, v))]) -> l <> [] ->
  exists ll', List.pop_tail ll = Ok (Some (CacheNode_new k v (last_ptr l None) None), ll') /\
    list_repr ll' l.
Proof.
  intros [Hnd Hn Hh Ht] Hl. unfold List.pop_tail. rewrite Ht, last_ptr_snoc, Hn, seg_app.
  cbn [fst seg deref hd_ptr]. set (n := CacheNode_new k v _ _).
  rewrite ltm_lookup by solve_nodup. cbn [prev n].
  rewrite <- (app_nil_l (seg None l _ ++ _)), (update_last [] _ None l) by (done || solve_nodup).
  cbn [app]. destruct (last_ptr l None) as [q|] eqn:E; last first.
  { rewrite (last_ptr_ne _ _ (Some p)) in E by done. unfold last_ptr in E. by destruct (last l). }
  eexists. split; [done|]. split; cbn [nodes head tail].
  - rewrite fmap_app in Hnd. by apply NoDup_app in Hnd as [? _].
  - unfold free. rewrite ltm_delete by solve_nodup. by rewrite app_nil_r.
  - rewrite Hh, hd_ptr_app. by apply hd_ptr_ne.
  - done.
Qed.

Lemma clear_loop_spec fuel prv l :
  NoDup l.*1 -> (length l <= fuel)%nat ->
  List.clear_loop fuel (hd_ptr l None) (list_to_map (seg prv l None)) = Ok ∅.
Proof.
  revert fuel prv. induction l as [|[p [k v]] l IH]; intros fuel prv Hnd Hf;
    [by destruct fuel|].
  destruct fuel as [|fuel]; [simpl in Hf; lia|]. cbn [List.clear_loop hd_ptr fst deref seg].
  set (n := CacheNode_new k v _ _).
  pose proof (ltm_lookup [] (seg (Some p) l None) p n) as Hlk.
  pose proof (ltm_delete [] (seg (Some p) l None) p n) as Hdel. cbn [app] in Hlk, Hdel.
  rewrite Hlk by solve_nodup. unfold free. rewrite Hdel by solve_nodup. cbn [next n].
  apply NoDup_cons in Hnd as [_ ?]. apply IH; [done|simpl in Hf; lia].
Qed.

(** [clear] frees every node. *)
Lemma clear_spec ll l : list_repr ll l -> List.clear ll = Ok List.new.
Proof.
  intros [Hnd Hn Hh Ht]. unfold List.clear. rewrite Hh, Hn, clear_loop_spec; [done|done|].
  assert (NoDup (seg None l None).*1) by by rewrite seg_fst.
  rewrite <- length_map_to_list, map_to_list_to_map by done.
  rewrite <- (length_fmap fst (seg None l None)), seg_fst, length_fmap. lia.
Qed.

(** ** The cache *)
Lemma find_app_here k v (l1 l2 : list (K * V)) :
  k ∉ l1.*1 -> Abs.find k (l1 ++ (k, v) :: l2) = Some v.
Proof.
  induction l1 as [|[k' v'] l1 IH]; simpl; intros Hk; [by rewrite decide_True|].
  rewrite decide_False by set_solver. apply IH. set_solver.
Qed.
Lemma find_None k (l : list (K * V)) : k ∉ l.*1 -> Abs.find k l = None.
Proof.
  induction l as [|[k' v'] l IH]; simpl; intros Hk; [done|].
  rewrite decide_False by set_solver. apply IH. set_solver.
Qed.
Lemma without_id k (l : list (K * V)) : k ∉ l.*1 -> Abs.without k l = l.
Proof.
  unfold Abs.without. induction l as [|[k' v'] l IH]; simpl; intros Hk; [done|].
  rewrite filter_cons_True by set_solver. rewrite IH by set_solver. done.
Qed.
Lemma without_here k v (l1 l2 : list (K * V)) :
  k ∉ l1.*1 -> k ∉ l2.*1 -> Abs.without k (l1 ++ (k, v) :: l2) = l1 ++ l2.
Proof.
  intros H1%without_id H2%without_id. unfold Abs.without in *.
  rewrite filter_app, filter_cons_False by naive_solver. by rewrite H1, H2.
Qed.

Lemma lru_lookup c l k :
  lru_repr c l ->
  match lru_map c !! k with
  | Some p => exists l1 v l2, l = l1 ++ (p, (k, v)) :: l2 /\
      Abs.find k l.*2 = Some v /\ Abs.without k l.*2 = (l1 ++ l2).*2
  | None => Abs.find k l.*2 = None /\ Abs.without k l.*2 = l.*2 /\ k ∉ (l.*2).*1
  end.
Proof.
  intros [_ Hk Hm _ _]. rewrite Hm.
  assert (((fun x : entry => (x.2.1, x.1)) <$> l).*1 = (l.*2).*1) as Hkeys
    by (rewrite <- !list_fmap_compose; done).
  destruct (list_to_map _ !! k) as [p|] eqn:E.
  - apply elem_of_list_to_map in E; [|by rewrite Hkeys].
    apply list_elem_of_fmap in E as ([p' [k' v]] & [= -> ->] & Hin).
    apply list_elem_of_split in Hin as (l1 & l2 & ->). exists l1, v, l2.
    rewrite !fmap_app in *. simpl in *. apply NoDup_app in Hk as (_ & Hk1 & Hk2).
    apply NoDup_cons in Hk2 as [Hk2 _]. assert (k' ∉ (l1.*2).*1) by set_solver.
    split_and!; [done|by apply find_app_here|by apply without_here].
  - apply not_elem_of_list_to_map in E. rewrite Hkeys in E.
    split_and!; [by apply find_None|by apply without_id|done].
Qed.

Lemma map_pairs_fst (l : list entry) :
  ((fun x : entry => (x.2.1, x.1)) <$> l).*1 = (l.*2).*1.
Proof. by rewrite <- !list_fmap_compose. Qed.

Lemma lru_repr_perm c l l' ll :
  lru_repr c l -> l ≡ₚ l' -> list_repr ll l' ->
  lru_repr (Build_LruCache (lru_map c) ll (lru_capacity c)) l'.
Proof.
  intros [Hl Hk Hm Hlen Hcap] Hp Hll. split; cbn [lru_list lru_map lru_capacity]; try done.
  - by rewrite <- Hp.
  - rewrite Hm. apply list_to_map_proper; [by rewrite map_pairs_fst|by rewrite Hp].
  - by rewrite <- Hp.
Qed.

Lemma bring_spec c l1 l2 p k v :
  lru_repr c (l1 ++ (p, (k, v)) :: l2) ->
  exists c', Lru.bring_to_front p c = Ok c' /\ lru_capacity c' = lru_capacity c /\
    lru_repr c' ((p, (k, v)) :: l1 ++ l2).
Proof.
  intros Hr. pose proof (cr_list _ _ Hr) as Hl.
  apply bring_to_front_spec in Hl as (ll' & Hb & Hl'). unfold Lru.bring_to_front. rewrite Hb.
  eexists. split; [done|]. split; [done|].
  eapply lru_repr_perm; [done| |done]. by rewrite Permutation_middle.
Qed.

Lemma head_value_spec c l p k v :
  lru_repr c ((p, (k, v)) :: l) -> Lru.head_value c = Ok v.
Proof.
  intros [[Hnd Hn Hh Ht] _ _ _ _]. unfold Lru.head_value. rewrite Hh, Hn.
  cbn [hd_ptr fst deref seg]. set (n := CacheNode_new k v _ _).
  pose proof (ltm_lookup [] (seg (Some p) l None) p n) as Hlk. cbn [app] in Hlk.
  by rewrite Hlk by solve_nodup.
Qed.

Lemma set_value_spec c l p k v v' :
  lru_repr c ((p, (k, v)) :: l) ->
  exists h, update (Some p) (set_value v') (nodes (lru_list c)) = Ok h /\
    lru_repr (Build_LruCache (lru_map c)
      (Build_LinkedList h (head (lru_list c)) (tail (lru_list c))) (lru_capacity c))
      ((p, (k, v')) :: l).
Proof.
  intros [[Hnd Hn Hh Ht] Hk Hm Hlen Hcap]. rewrite Hn. cbn [seg].
  set (n := CacheNode_new k v _ _).
  pose proof (update_ltm [] (seg (Some p) l None) p n (set_value v')) as Hu. cbn [app] in Hu.
  rewrite Hu by solve_nodup. eexists. split; [done|].
  split; cbn [lru_list lru_map lru_capacity]; try done. split; cbn [nodes head tail]; try done.
  rewrite Ht. by rewrite !last_ptr_cons.
Qed.

Lemma size_lru_map c l : lru_repr c l -> size (lru_map c) = length l.
Proof.
  intros [_ Hk -> _ _]. rewrite <- length_map_to_list, map_to_list_to_map, length_fmap; [done|].
  by rewrite map_pairs_fst.
Qed.

Lemma alloc_spec (n : CacheNode K V) h p h' :
  alloc n h = (p, h') -> h' = <[p := n]> h /\ p ∉ dom h.
Proof. intros [= <- <-]. split; [done|]. apply is_fresh. Qed.

Lemma push_repr c l k v p ll :
  lru_repr c l -> k ∉ (l.*2).*1 -> list_repr ll ((p, (k, v)) :: l) ->
  NoDup (((p, (k, v)) :: l).*2).*1 /\
  <[k := p]> (lru_map c) = list_to_map ((fun x : entry => (x.2.1, x.1)) <$> (p, (k, v)) :: l).
Proof. intros [_ Hk -> _ _] Hnew Hl. split; [|done]. by constructor. Qed.

Lemma lru_pop_spec m ll cap l p k v :
  list_repr ll (l ++ [(p, (k, v))]) -> l <> [] ->
  NoDup ((l ++ [(p, (k, v))]).*2).*1 ->
  m = list_to_map ((fun x : entry => (x.2.1, x.1)) <$> l ++ [(p, (k, v))]) ->
  Z.of_nat (length l) <= cap -> 1 <= cap ->
  exists c', Lru.pop_tail (Build_LruCache m ll cap) = Ok (Some k, c') /\
    lru_capacity c' = cap /\ lru_repr c' l.
Proof.
  intros Hl Hne Hk -> Hlen Hcap. unfold Lru.pop_tail. cbn [lru_list lru_map].
  apply pop_tail_spec in Hl as (ll' & -> & Hl'); [|done]. cbn [key].
  assert (list_to_map ((fun x : entry => (x.2.1, x.1)) <$> l ++ [(p, (k, v))])
    = <[k := p]> (list_to_map ((fun x : entry => (x.2.1, x.1)) <$> l) : gmap K loc)) as ->.
  { change (<[k := p]> (list_to_map ((fun x : entry => (x.2.1, x.1)) <$> l) : gmap K loc))
      with (list_to_map ((fun x : entry => (x.2.1, x.1)) <$> (p, (k, v)) :: l) : gmap K loc).
    apply list_to_map_proper; [by rewrite map_pairs_fst|].
    by rewrite <- Permutation_cons_append. }
  rewrite lookup_insert. eexists. split; [by rewrite decide_True|]. split; [done|].
  rewrite !fmap_app in Hk. apply NoDup_app in Hk as (Hk1 & Hk2 & _).
  split; cbn [lru_list lru_map lru_capacity]; try done.
  rewrite delete_insert_id; [done|]. apply not_elem_of_list_to_map_1.
  rewrite map_pairs_fst. set_solver.
Qed.

Section callbacks.
Context {E : Type} (fetch : K -> E -> res (option V) * E) (removed : K -> E -> res unit * E).

Lemma insert_vacant_spec c l k v e r c' e' :
  lru_repr c l -> k ∉ (l.*2).*1 ->
  Lru.insert_vacant k v removed c e = (r, (c', e')) ->
  exists p t, lru_repr c' ((p, (k, v)) :: t) /\ lru_capacity c' = lru_capacity c /\
    Abs.shrink (lru_capacity c) removed ((k, v) :: l.*2) e = (r, ((k, v) :: t.*2, e')).
Proof.
  intros Hr Hk. pose proof Hr as [Hl _ _ Hlen Hcap]. pose proof Hl as [_ Hn _ _].
  unfold Lru.insert_vacant. destruct (alloc _ _) as [p h] eqn:Ea.
  apply alloc_spec in Ea as [-> Hp].
  assert (p ∉ l.*1) as Hp'.
  { rewrite <- (seg_fst None l None). intros Hin. apply Hp. rewrite Hn.
    by rewrite dom_list_to_map_L, elem_of_list_to_set. }
  destruct (push_front_spec _ l p k v Hl Hp') as (ll' & -> & Hl').
  destruct (push_repr c l k v p ll' Hr Hk Hl') as [Hnd Hm]. rewrite Hm.
  assert (size (list_to_map ((fun x : entry => (x.2.1, x.1)) <$> (p, (k, v)) :: l) : gmap K loc)
    = S (length l)) as Hsz.
  { rewrite <- length_map_to_list, map_to_list_to_map, length_fmap; [done|].
    by rewrite map_pairs_fst. }
  cbn [lru_map lru_capacity]. rewrite Hsz. unfold Abs.shrink. cbn [length].
  rewrite length_fmap. destruct (_ <? _) eqn:Elt; zify_bool; last first.
  { intros [= <- <- <-]. exists p, l. split_and!; [|done..].
    split; cbn [lru_list lru_map lru_capacity]; [done..|simpl; lia|done]. }
  destruct l as [|[p1 [k1 v1]] t _] using rev_ind; [simpl in *; lia|].
  rewrite app_comm_cons in Hl', Hnd |- *.
  destruct (lru_pop_spec _ _ (lru_capacity c) _ _ _ _ Hl' ltac:(done) Hnd eq_refl)
    as (c2 & -> & Hc2 & Hr2); [rewrite length_app in *; simpl in *; lia|done|].
  destruct (removed k1 e) as [r1 e1] eqn:Er. intros [= <- <- <-]. exists p, t.
  split; [done|]. split; [done|].
  rewrite fmap_app. cbn [fmap list_fmap snd].
  rewrite app_comm_cons, last_snoc, Er. do 2 f_equal.
  rewrite length_app. replace (S (length t + length [(p1, (k1, v1))]) - 1)%nat
    with (length ((k, v) :: t.*2)) by (simpl; rewrite length_fmap; lia).
  by rewrite take_app_length.
Qed.

Lemma insert_refines c l k v e r c' e' :
  lru_repr c l -> Lru.insert k v removed c e = (r, (c', e')) ->
  exists l', lru_repr c' l' /\ lru_capacity c' = lru_capacity c /\
    Abs.insert (lru_capacity c) k v removed l.*2 e = (r, (l'.*2, e')).
Proof.
  intros Hr. pose proof (lru_lookup c l k Hr) as Hk. unfold Lru.insert, Abs.insert.
  destruct (lru_map c !! k) as [p|].
  - destruct Hk as (l1 & v0 & l2 & -> & -> & ->).
    destruct (bring_spec _ _ _ _ _ _ Hr) as (c1 & -> & Hc1 & Hr1).
    destruct (set_value_spec _ _ _ _ _ v Hr1) as (h & -> & Hr2).
    intros [= <- <- <-]. eexists. split_and!; [exact Hr2|done|done].
  - destruct Hk as (-> & _ & Hk). destruct (Lru.insert_vacant _ _ _ _ _) as [r1 [c1 e1]] eqn:Ei.
    apply (insert_vacant_spec _ l) in Ei as (p & t & Hr1 & Hc1 & ->); [|done..].
    destruct r1; intros [= <- <- <-]; by eexists.
Qed.

Lemma access_refines c l k e r c' e' :
  lru_repr c l -> Lru.access k fetch removed c e = (r, (c', e')) ->
  exists l', lru_repr c' l' /\ lru_capacity c' = lru_capacity c /\
    Abs.access (lru_capacity c) k fetch removed l.*2 e = (r, (l'.*2, e')).
Proof.
  intros Hr. pose proof (lru_lookup c l k Hr) as Hk. unfold Lru.access, Abs.access.
  destruct (lru_map c !! k) as [p|].
  - destruct Hk as (l1 & v0 & l2 & -> & -> & ->).
    destruct (bring_spec _ _ _ _ _ _ Hr) as (c1 & -> & Hc1 & Hr1).
    rewrite (head_value_spec _ _ _ _ _ Hr1). intros [= <- <- <-]. by eexists.
  - destruct Hk as (-> & _ & Hk). destruct (fetch k e) as [[[v|]|x|x] e0];
      [|intros [= <- <- <-]; by eexists..].
    destruct (Lru.insert_vacant _ _ _ _ _) as [r1 [c1 e1]] eqn:Ei.
    apply (insert_vacant_spec _ l) in Ei as (p & t & Hr1 & Hc1 & ->); [|done..].
    destruct r1; [|intros [= <- <- <-]; by eexists..]. cbn [fst].
    rewrite (head_value_spec _ _ _ _ _ Hr1). intros [= <- <- <-]. by eexists.
Qed.
End callbacks.

Lemma get_mut_refines c l k r c' :
  lru_repr c l -> Lru.get_mut k c = (r, c') ->
  exists l', lru_repr c' l' /\ lru_capacity c' = lru_capacity c /\
    r = Ok (Abs.get_mut k l.*2).1 /\ l'.*2 = (Abs.get_mut k l.*2).2.
Proof.
  intros Hr. pose proof (lru_lookup c l k Hr) as Hk. unfold Lru.get_mut, Abs.get_mut.
  destruct (lru_map c !! k) as [p|].
  - destruct Hk as (l1 & v0 & l2 & -> & -> & ->).
    destruct (bring_spec _ _ _ _ _ _ Hr) as (c1 & -> & Hc1 & Hr1).
    rewrite (head_value_spec _ _ _ _ _ Hr1). intros [= <- <-]. by eexists.
  - destruct Hk as (-> & _ & Hk). intros [= <- <-]. by eexists.
Qed.

Lemma remove_refines c l k r c' :
  lru_repr c l -> Lru.remove k c = (r, c') ->
  exists l', lru_repr c' l' /\ lru_capacity c' = lru_capacity c /\
    r = Ok (Abs.remove k l.*2).1 /\ l'.*2 = (Abs.remove k l.*2).2.
Proof.
  intros Hr. pose proof (lru_lookup c l k Hr) as Hk. unfold Lru.remove, Abs.remove.
  destruct (lru_map c !! k) as [p|].
  - destruct Hk as (l1 & v0 & l2 & -> & -> & ->). pose proof Hr as [Hl Hnd Hm Hlen Hcap].
    destruct (remove_spec _ _ _ _ _ _ Hl) as (ll' & -> & Hl').
    intros [= <- <-]. exists (l1 ++ l2). split; [|done].
    rewrite <- Permutation_middle in Hnd. apply NoDup_cons in Hnd as [Hkn Hnd].
    split; cbn [lru_list lru_map lru_capacity]; try done;
      [|rewrite length_app in *; simpl in *; lia].
    rewrite Hm. rewrite (list_to_map_proper _
      ((fun x : entry => (x.2.1, x.1)) <$> (p, (k, v0)) :: l1 ++ l2)).
    + cbn [fmap list_fmap list_to_map foldr]. rewrite delete_insert_id; [done|].
      apply not_elem_of_list_to_map_1. by rewrite map_pairs_fst.
    + rewrite map_pairs_fst, <- Permutation_middle. by constructor.
    + by rewrite <- Permutation_middle.
  - destruct Hk as (-> & -> & Hk). intros [= <- <-]. by eexists.
Qed.

Lemma new_refines cap : lru_repr (Lru.new cap : LruCache K V) [].
Proof. split; [apply new_repr|constructor|done|simpl; lia|simpl; lia]. Qed.

Lemma clear_refines c l :
  lru_repr c l -> Lru.clear c = Ok (Build_LruCache ∅ List.new (lru_capacity c)).
Proof. intros [Hl _ _ _ _]. unfold Lru.clear. by rewrite (clear_spec _ _ Hl). Qed.
End spec.
End LruSpec.

(** A property of the entries that [fetch] establishes holds of all cached
    entries and of every value [access] returns. *)
Section abs_access.
Context {K V : Type} `{Countable K} {E : Type}.
Variable P : K * V -> Prop.

Lemma find_Forall k v (l : list (K * V)) : Forall P l -> Abs.find k l = Some v -> P (k, v).
Proof.
  induction 1 as [|[k' v'] l Hx Hl IH]; [done|]. simpl. case_decide; [|done].
  by intros [= <-]; subst.
Qed.

Lemma shrink_Forall cap removed (l : list (K * V)) (e : E) r l' e' :
  Forall P l -> Abs.shrink cap removed l e = (r, (l', e')) -> Forall P l'.
Proof.
  intros Hl. unfold Abs.shrink. case_if; [|by intros [= <- <- <-]].
  destruct (last l) as [[k v]|]; [|by intros [= <- <- <-]].
  destruct (removed k e). intros [= <- <- <-]. by apply Forall_take.
Qed.

Lemma access_Forall cap k (fetch : K -> E -> res (option V) * E) l e r l' e' :
  (forall v, (fetch k e).1 = Ok (Some v) -> P (k, v)) -> Forall P l ->
  Abs.access cap k fetch (fun _ e => (Ok tt, e)) l e = (r, (l', e')) ->
  Forall P l' /\
  match r with
  | Ok (Some v) => P (k, v)
  | _ => r = (fetch k e).1 /\ Abs.find k l = None
  end.
Proof.
  intros Hf Hl. unfold Abs.access. destruct (Abs.find k l) as [v|] eqn:Ek.
  - intros [= <- <- <-]. pose proof (find_Forall _ _ _ Hl Ek). split; [|done].
    constructor; [done|]. rewrite Forall_forall in Hl. apply Forall_forall.
    intros x [_ Hx]%list_elem_of_filter. by apply Hl.
  - destruct (fetch k e) as [[[v|]|x|x] e1]; simpl in Hf |- *; [|by intros [= <- <- <-]..].
    destruct (Abs.shrink _ _ _ _) as [r1 [l1 e2]] eqn:Es.
    assert (r1 = Ok tt) as ->.
    { revert Es. unfold Abs.shrink. case_if; [|by intros [= <- _ _]].
      destruct (last _) as [[??]|]; by intros [= <- _ _]. }
    apply shrink_Forall in Es; [|constructor; [by apply Hf|done]].
    intros [= <- <- <-]. split; [done|]. by apply Hf.
Qed.
End abs_access.

(** ** Sequences of operations *)
Module LruRun.
Section run.
Context {K V : Type} `{Countable K} {E : Type}.
Context (fetch : K -> E -> res (option V) * E) (removed : K -> E -> res unit * E).

Inductive op := OInsert (k : K) (v : V) | ORemove (k : K) | OGetMut (k : K) | OAccess (k : K)
  | OClear | OLen.
Inductive out := OutBool (r : res bool) | OutVal (r : res (option V)) | OutLen (n : Z)
  | OutClear (r : res unit).

Definition step (o : op) (s : LruCache K V * E) : out * (LruCache K V * E) :=
  match o with
  | OInsert k v => let '(r, s) := Lru.insert k v removed s.1 s.2 in (OutBool r, s)
  | ORemove k => let '(r, c) := Lru.remove k s.1 in (OutVal r, (c, s.2))
  | OGetMut k => let '(r, c) := Lru.get_mut k s.1 in (OutVal r, (c, s.2))
  | OAccess k => let '(r, s) := Lru.access k fetch removed s.1 s.2 in (OutVal r, s)
  | OClear =>
      match Lru.clear s.1 with
      | Ok c => (OutClear (Ok tt), (c, s.2))
      | Err x => (OutClear (Err x), s)
      | Panic x => (OutClear (Panic x), s)
      end
  | OLen => (OutLen (Lru.len s.1), s)
  end.
Definition abs_step (cap : Z) (o : op) (s : list (K * V) * E) : out * (list (K * V) * E) :=
  match o with
  | OInsert k v => let '(r, s) := Abs.insert cap k v removed s.1 s.2 in (OutBool r, s)
  | ORemove k => (OutVal (Ok (Abs.remove k s.1).1), ((Abs.remove k s.1).2, s.2))
  | OGetMut k => (OutVal (Ok (Abs.get_mut k s.1).1), ((Abs.get_mut k s.1).2, s.2))
  | OAccess k => let '(r, s) := Abs.access cap k fetch removed s.1 s.2 in (OutVal r, s)
  | OClear => (OutClear (Ok tt), ([], s.2))
  | OLen => (OutLen (Z.of_nat (length s.1)), s)
  end.

Fixpoint run {S} (step : op -> S -> out * S) (os : list op) (s : S) : list out * S :=
  match os with
  | [] => ([], s)
  | o :: os =>
      let '(x, s) := step o s in
      let '(xs, s) := run step os s in (x :: xs, s)
  end.

Lemma step_refines cap o c e l x c' e' :
  LruSpec.lru_repr c l -> lru_capacity c = cap -> step o (c, e) = (x, (c', e')) ->
  exists l', LruSpec.lru_repr c' l' /\ lru_capacity c' = cap /\
    abs_step cap o (l.*2, e) = (x, (l'.*2, e')).
Proof.
  intros Hr <-. destruct o as [k v|k|k|k| |]; cbn [step abs_step fst snd].
  - destruct (Lru.insert _ _ _ _ _) as [r [c1 e1]] eqn:Eo. intros [= <- <- <-].
    apply (LruSpec.insert_refines _ _ l) in Eo as (l' & ? & ? & ->); [by eexists|done].
  - destruct (Lru.remove _ _) as [r c1] eqn:Eo. intros [= <- <- <-].
    apply (LruSpec.remove_refines _ l) in Eo as (l' & ? & ? & -> & <-); [by eexists|done].
  - destruct (Lru.get_mut _ _) as [r c1] eqn:Eo. intros [= <- <- <-].
    apply (LruSpec.get_mut_refines _ l) in Eo as (l' & ? & ? & -> & <-); [by eexists|done].
  - destruct (Lru.access _ _ _ _ _) as [r [c1 e1]] eqn:Eo. intros [= <- <- <-].
    apply (LruSpec.access_refines _ _ _ l) in Eo as (l' & ? & ? & ->); [by eexists|done].
  - rewrite (LruSpec.clear_refines _ _ Hr). intros [= <- <- <-]. exists [].
    pose proof (LruSpec.cr_cap _ _ Hr). split_and!; [|done..].
    split; [apply LruSpec.new_repr|constructor|done|simpl; lia|done].
  - unfold Lru.len. rewrite (LruSpec.size_lru_map _ _ Hr). intros [= <- <- <-].
    exists l. by rewrite length_fmap.
Qed.

Lemma run_refines cap os c e l xs c' e' :
  LruSpec.lru_repr c l -> lru_capacity c = cap -> run step os (c, e) = (xs, (c', e')) ->
  exists l', LruSpec.lru_repr c' l' /\ lru_capacity c' = cap /\
    run (abs_step cap) os (l.*2, e) = (xs, (l'.*2, e')).
Proof.
  revert c e l xs. induction os as [|o os IH]; intros c e l xs Hr Hc; cbn [run].
  { intros [= <- <- <-]. by eexists. }
  destruct (step o (c, e)) as [x [c1 e1]] eqn:Eo.
  apply (step_refines cap _ _ _ l) in Eo as (l1 & Hr1 & Hc1 & ->); [|done..].
  destruct (run step os (c1, e1)) as [xs' [c2 e2]] eqn:Er. intros [= <- <- <-].
  destruct (IH _ _ _ _ Hr1 Hc1 Er) as (l' & ? & ? & ->). by eexists.
Qed.
End run.
End LruRun.

(** C31.  The cache with its raw pointers refines a list of entries, most recently
    used first.  Any sequence of operations on a new cache returns what the list
    returns (so no dereference, update or free of a node is ever undefined), the
    callbacks are called with the same keys in the same order, the number of
    entries never exceeds the capacity (at least one), and the allocated nodes are
    exactly the entries of the list: no node leaks, and a final [clear] frees all. *)
Theorem lru_cache_refines {K V} `{Countable K} {E} fetch removed capacity
    (os : list (LruRun.op (K := K) (V := V))) (e : E) :
  let cap := capacity `max` 1 in
  let '(outs, (c, e')) := LruRun.run (LruRun.step fetch removed) os (Lru.new capacity, e) in
  exists l : list (K * V),
    LruRun.run (LruRun.abs_step fetch removed cap) os ([], e) = (outs, (l, e')) /\
    Z.of_nat (length l) <= cap /\ NoDup l.*1 /\
    size (nodes (lru_list c)) = length l /\
    Lru.clear c = Ok (Lru.new capacity).
Proof.
  cbv zeta. destruct (LruRun.run _ _ _) as [outs [c e']] eqn:Er.
  apply (LruRun.run_refines fetch removed (capacity `max` 1) _ _ _ []) in Er as (l & Hr & Hc & Ha);
    [|apply LruSpec.new_refines|done].
  exists l.*2. pose proof Hr as [[Hnd Hn _ _] Hk _ Hlen _].
  split_and!; [done|rewrite length_fmap; lia|done| |].
  - rewrite Hn, <- length_map_to_list, map_to_list_to_map by (by rewrite LruSpec.seg_fst).
    by rewrite <- (length_fmap fst (LruSpec.seg _ _ _)), LruSpec.seg_fst, !length_fmap.
  - rewrite (LruSpec.clear_refines _ _ Hr), Hc. done.
Qed.
