(* ===== verification/DynamicIndex.v ===== *)
(** * Dynamic chunk index, [pbs-datastore/src/dynamic_index.rs]

    Module [DynReader] models [DynamicIndexReader] (an array of chunk end offsets
    and digests behind a header page), [DynWriter] models [DynamicIndexWriter], and
    [Buffered] models [BufferedDynamicReader], which serves byte ranges of the
    archive from a chunk store through the LRU cache. *)

From S2P Require Import Prelude IndexFile LruCache.
From Stdlib Require Import Strings.Byte.

(** [size_of::<DynamicIndexHeader>()] and [size_of::<DynamicEntry>()]. *)
Definition DYN_HEADER_SIZE : Z := 4096.
Definition DYN_ENTRY_SIZE : Z := 40.

(** [#[repr(C)] struct DynamicIndexHeader]. *)
Record DynamicIndexHeader := {
  dh_magic : list byte;
  dh_uuid : list byte;
  dh_ctime : Z;
  dh_index_csum : list byte;
  dh_reserved : list byte;
}.

Definition dh_as_bytes (h : DynamicIndexHeader) : list byte :=
  dh_magic h ++ dh_uuid h ++ le_bytes 8 (dh_ctime h) ++ dh_index_csum h ++ dh_reserved h.

Definition dh_of_bytes (b : list byte) : DynamicIndexHeader := {|
  dh_magic := take 8 b;
  dh_uuid := take 16 (drop 8 b);
  dh_ctime := i64 (le_val (take 8 (drop 24 b)));
  dh_index_csum := take 32 (drop 32 b);
  dh_reserved := drop 64 b;
|}.
Definition off_dyn_csum : Z := 32.

(** [#[repr(C)] struct DynamicEntry]. *)
Record DynamicEntry := { end_le : list byte; de_digest : digest }.
Definition DynamicEntry_of_bytes (b : list byte) : DynamicEntry :=
  {| end_le := take 8 b; de_digest := take 32 (drop 8 b) |}.
Definition DynamicEntry_end (e : DynamicEntry) : Z := le_val (end_le e).

Module DynReader.
Record DynamicIndexReader := {
  mmap : IndexMmap;
  uuid : list byte;
  ctime : Z;
  index_csum : list byte;
}.

Definition new (file : File) (map_addr : option Z) : res DynamicIndexReader :=
  let? mmap := map_read DYN_HEADER_SIZE 8 DYN_ENTRY_SIZE 8 file map_addr in
  let header := dh_of_bytes (mmap_header mmap) in
  if negb (bool_decide (dh_magic header = DYNAMIC_SIZED_CHUNK_INDEX_1_0))
  then Err "got unknown magic number" else
  if index_len mmap =? 0 then Err "index must not be empty" else
  Ok {| mmap := mmap; ctime := dh_ctime header; uuid := dh_uuid header;
        index_csum := dh_index_csum header |}.

(** [open]: the file system lookup is the parameter [file]. *)
Definition open (file : option File) (map_addr : option Z) : res DynamicIndexReader :=
  match file with
  | None => Err "Unable to open dynamic index"
  | Some f =>
      match new f map_addr with
      | Err _ => Err "Unable to open dynamic index"
      | r => r
      end
  end.

(** [self.index().len()] and [self.index()[pos]], which panics out of range. *)
Definition index_len (r : DynamicIndexReader) : Z := IndexFile.index_len (mmap r).
Definition index_at (r : DynamicIndexReader) (pos : Z) : res DynamicEntry :=
  match mmap_index (mmap r) pos with
  | Some b => Ok (DynamicEntry_of_bytes b)
  | None => Panic "index out of bounds"
  end.

Definition chunk_end (r : DynamicIndexReader) (pos : Z) : res Z :=
  if index_len r <=? pos then Panic "chunk index out of range" else
  let? e := index_at r pos in Ok (DynamicEntry_end e).

Definition chunk_digest (r : DynamicIndexReader) (pos : Z) : res digest :=
  if index_len r <=? pos then Panic "chunk index out of range" else
  let? e := index_at r pos in Ok (de_digest e).

Fixpoint binary_search_fuel (fuel : nat) (r : DynamicIndexReader)
    (start_idx start end_idx end_ offset : Z) : res Z :=
  match fuel with
  | O => Panic "out of fuel"
  | S fuel =>
      if (end_ <=? offset) || (offset <? start) then Err "offset out of range" else
      if end_idx =? start_idx then Ok start_idx else
      let middle_idx := (start_idx + end_idx) / 2 in
      let? middle_end := chunk_end r middle_idx in
      if offset <? middle_end
      then binary_search_fuel fuel r start_idx start middle_idx middle_end offset
      else binary_search_fuel fuel r (middle_idx + 1) middle_end end_idx end_ offset
  end.
(** Every call halves the interval of indices, so its length bounds the depth. *)
Definition binary_search (r : DynamicIndexReader) (start_idx start end_idx end_ offset : Z)
    : res Z :=
  binary_search_fuel (S (Z.to_nat (end_idx - start_idx))) r start_idx start end_idx end_ offset.

Definition index_count (r : DynamicIndexReader) : Z := index_len r.

Definition index_digest (r : DynamicIndexReader) (pos : Z) : option digest :=
  if index_len r <=? pos then None else
  match chunk_digest r pos with Ok d => Some d | _ => None end.

Definition index_bytes (r : DynamicIndexReader) : res Z :=
  if index_len r =? 0 then Ok 0 else chunk_end r (index_len r - 1).

Definition chunk_info (r : DynamicIndexReader) (pos : Z) : option ChunkReadInfo :=
  if index_len r <=? pos then None else
  let start :=
    if pos =? 0 then Ok 0
    else let? e := index_at r (pos - 1) in Ok (DynamicEntry_end e) in
  match start, index_at r pos with
  | Ok start, Ok e =>
      Some {| range_start := start; range_end := DynamicEntry_end e; cri_digest := de_digest e |}
  | _, _ => None
  end.

(** [compute_csum]: hashes end offset and digest of every chunk. *)
Definition csum_step (r : DynamicIndexReader) (acc : res (list byte * Z)) (pos : Z)
    : res (list byte * Z) :=
  let? (data, _) := acc in
  let? info := unwrap (chunk_info r pos) in
  Ok (data ++ le_bytes 8 (range_end info) ++ cri_digest info, range_end info).
Definition compute_csum (sha256 : list byte -> list byte) (r : DynamicIndexReader)
    : res (list byte * Z) :=
  let? (data, chunk_end) :=
    foldl (csum_step r) (Ok ([], 0)) (seqZ 0 (index_count r)) in
  Ok (sha256 data, chunk_end).

Definition chunk_from_offset (r : DynamicIndexReader) (offset : Z) : res (option (Z * Z)) :=
  let end_idx := u64 (index_len r - 1) in
  let? end_ := chunk_end r end_idx in
  match binary_search r 0 0 end_idx end_ offset with
  | Ok found_idx =>
      let? found_start := if found_idx =? 0 then Ok 0 else chunk_end r (found_idx - 1) in
      Ok (Some (found_idx, u64 (offset - found_start)))
  | Err _ => Ok None
  | Panic e => Panic e
  end.
End DynReader.

#[export] Instance DynamicIndexReader_IndexFile : IndexFile DynReader.DynamicIndexReader := {
  index_count := DynReader.index_count;
  index_digest := DynReader.index_digest;
  index_bytes := DynReader.index_bytes;
  chunk_info := DynReader.chunk_info;
  index_ctime := DynReader.ctime;
  index_size r := mmap_size (DynReader.mmap r);
  chunk_from_offset := DynReader.chunk_from_offset;
}.

Module DynWriter.
(** [content] and [pos] are the bytes and the position of the temporary file
    as seen through the [BufWriter]; [csum] the bytes absorbed by the hasher. *)
Record DynamicIndexWriter := {
  content : list byte;
  pos : Z;
  closed : bool;
  filename : string;
  tmp_filename : string;
  csum : option (list byte);
  uuid : list byte;
  ctime : Z;
}.
Abbreviation fs_t := (gmap string (list byte)).

(** Outcomes of the system calls of one operation; a failing write stores some
    prefix of its data. *)
Record Io := {
  open_ok : bool;
  write1 : option nat;
  write2 : option nat;
  flush_ok : bool;
  seek_ok : bool;
  rename_ok : bool;
}.
Definition io_ok : Io := Build_Io true None None true true true.

Definition set_content (c : list byte) (p : Z) (w : DynamicIndexWriter) : DynamicIndexWriter :=
  {| content := c; pos := p; closed := closed w; filename := filename w;
     tmp_filename := tmp_filename w; csum := csum w; uuid := uuid w; ctime := ctime w |}.
Definition set_csum (c : option (list byte)) (w : DynamicIndexWriter) : DynamicIndexWriter :=
  {| content := content w; pos := pos w; closed := closed w; filename := filename w;
     tmp_filename := tmp_filename w; csum := c; uuid := uuid w; ctime := ctime w |}.
Definition set_closed (b : bool) (w : DynamicIndexWriter) : DynamicIndexWriter :=
  {| content := content w; pos := pos w; closed := b; filename := filename w;
     tmp_filename := tmp_filename w; csum := csum w; uuid := uuid w; ctime := ctime w |}.

(** A write at the position of the file, which extends it when needed. *)
Definition write_file (data : list byte) (w : DynamicIndexWriter) : DynamicIndexWriter :=
  set_content (take (Z.to_nat (pos w)) (content w) ++ data ++
                 drop (Z.to_nat (pos w) + length data) (content w))
    (pos w + Z.of_nat (length data)) w.
Definition write_all (outcome : option nat) (data : list byte) (w : DynamicIndexWriter)
    : res unit * DynamicIndexWriter :=
  match outcome with
  | None => (Ok tt, write_file data w)
  | Some k => (Err "write failed", write_file (take k data) w)
  end.

Definition create (io : Io) (ctime : Z) (uuid : list byte) (full_path tmp_path : string)
    : res DynamicIndexWriter :=
  if negb (open_ok io) then Err "open failed" else
  let header := {| dh_magic := DYNAMIC_SIZED_CHUNK_INDEX_1_0; dh_uuid := uuid;
                   dh_ctime := ctime; dh_index_csum := replicate 32 x00;
                   dh_reserved := replicate (Z.to_nat 4032) x00 |} in
  let w := {| content := []; pos := 0; closed := false; filename := full_path;
              tmp_filename := tmp_path; csum := Some []; uuid := uuid; ctime := ctime |} in
  match write_all (write1 io) (dh_as_bytes header) w with
  | (Ok _, w) => Ok w
  | (Err e, _) => Err e
  | (Panic e, _) => Panic e
  end.

Definition add_chunk (io : Io) (offset : Z) (d : digest) (w : DynamicIndexWriter)
    : res unit * DynamicIndexWriter :=
  if closed w then (Err "cannot write to closed dynamic index file", w) else
  let offset_le := le_bytes 8 offset in
  let w := match csum w with
           | Some c => set_csum (Some (c ++ offset_le ++ d)) w
           | None => w
           end in
  let! _, w := write_all (write1 io) offset_le w in
  write_all (write2 io) d w.

Definition close (io : Io) (sha256 : list byte -> list byte) (w : DynamicIndexWriter) (fs : fs_t)
    : res digest * (DynamicIndexWriter * fs_t) :=
  if closed w then (Err "cannot close already closed archive index file", (w, fs)) else
  let w := set_closed true w in
  if negb (flush_ok io) then (Err "flush failed", (w, fs)) else
  if negb (seek_ok io) then (Err "seek failed", (w, fs)) else
  let w := set_content (content w) off_dyn_csum w in
  try! absorbed := unwrap (csum w) for (w, fs) in
  let w := set_csum None w in
  let index_csum := sha256 absorbed in
  let '(r, w) := write_all (write1 io) index_csum w in
  try! _ := r for (w, fs) in
  if negb (rename_ok io) then (Err "Atomic rename file failed", (w, fs))
  else (Ok index_csum, (w, <[filename w := content w]> (delete (tmp_filename w) fs))).

Definition drop (w : DynamicIndexWriter) (fs : fs_t) : fs_t := delete (tmp_filename w) fs.
End DynWriter.

(** ** [BufferedDynamicReader] *)
Module Buffered.
Record CachedChunk := { range_s : Z; range_e : Z; data : list byte }.

Definition CachedChunk_new (s e : Z) (d : list byte) : res CachedChunk :=
  if negb (Z.of_nat (length d) =? u64 (e - s)) then Err "read chunk with wrong size"
  else Ok {| range_s := s; range_e := e; data := d |}.

Record BufferedDynamicReader := {
  index : DynReader.DynamicIndexReader;
  archive_size : Z;
  read_buffer : list byte;
  buffered_chunk_idx : Z;
  buffered_chunk_start : Z;
  read_offset : Z;
  lru_cache : LruCache Z CachedChunk;
}.

Definition new (index : DynReader.DynamicIndexReader) : res BufferedDynamicReader :=
  let? archive_size := DynReader.index_bytes index in
  Ok {| index := index; archive_size := archive_size; read_buffer := [];
        buffered_chunk_idx := 0; buffered_chunk_start := 0; read_offset := 0;
        lru_cache := Lru.new 32 |}.

Definition set_cache (c : LruCache Z CachedChunk) (b : BufferedDynamicReader) : BufferedDynamicReader :=
  {| index := index b; archive_size := archive_size b; read_buffer := read_buffer b;
     buffered_chunk_idx := buffered_chunk_idx b;
     buffered_chunk_start := buffered_chunk_start b; read_offset := read_offset b;
     lru_cache := c |}.
Definition set_buffer (buf : list byte) (idx start : Z) (b : BufferedDynamicReader)
    : BufferedDynamicReader :=
  {| index := index b; archive_size := archive_size b; read_buffer := buf;
     buffered_chunk_idx := idx; buffered_chunk_start := start; read_offset := read_offset b;
     lru_cache := lru_cache b |}.
Definition set_offset (o : Z) (b : BufferedDynamicReader) : BufferedDynamicReader :=
  {| index := index b; archive_size := archive_size b; read_buffer := read_buffer b;
     buffered_chunk_idx := buffered_chunk_idx b;
     buffered_chunk_start := buffered_chunk_start b; read_offset := o;
     lru_cache := lru_cache b |}.

Section reader.
(** The chunk store, trait [ReadChunk]. *)
Variable read_chunk : digest -> res (list byte).

(** [ChunkCacher::fetch] *)
Definition fetch (index : DynReader.DynamicIndexReader) (idx : Z) (e : unit)
    : res (option CachedChunk) * unit :=
  (match DynReader.chunk_info index idx with
   | None => Err "chunk index out of range"
   | Some info =>
       let? data := read_chunk (cri_digest info) in
       let? c := CachedChunk_new (range_start info) (range_end info) data in
       Ok (Some c)
   end, e).

Definition buffer_chunk (idx : Z) (b : BufferedDynamicReader) : res unit * BufferedDynamicReader :=
  let '(r, (cache, _)) :=
    Lru.access idx (fetch (index b)) (fun _ e => (Ok tt, e)) (lru_cache b) tt in
  let b := set_cache cache b in
  try! found := r for b in
  try! cached_chunk := ok_or found "chunk not found by cacher" for b in
  (Ok tt, set_buffer (data cached_chunk) idx (range_s cached_chunk) b).

(** The slice [&self.read_buffer[(offset - self.buffered_chunk_start) as usize..]]. *)
Definition buffer_from (offset : Z) (b : BufferedDynamicReader) : res (list byte) :=
  slice (read_buffer b) (u64 (offset - buffered_chunk_start b)) (Z.of_nat (length (read_buffer b))).

Definition buffered_read (offset : Z) (b : BufferedDynamicReader)
    : res (list byte) * BufferedDynamicReader :=
  if offset =? archive_size b then (Ok [], b) else
  let buffer_len := Z.of_nat (length (read_buffer b)) in
  let next_idx := buffered_chunk_idx b + 1 in
  let past_buffer := u64 (buffered_chunk_start b + buffer_len) <=? offset in
  (* optimization for sequential read *)
  try! sequential :=
    if (0 <? buffer_len) && (next_idx <? DynReader.index_len (index b)) && past_buffer
    then let? next_end := DynReader.chunk_end (index b) next_idx in Ok (offset <? next_end)
    else Ok false for b in
  if sequential then
    let! _, b := buffer_chunk next_idx b in
    (buffer_from offset b, b)
  else
    let! _, b :=
      if (buffer_len =? 0) || (offset <? buffered_chunk_start b) || past_buffer then
        let end_idx := u64 (DynReader.index_len (index b) - 1) in
        try! end_ := DynReader.chunk_end (index b) end_idx for b in
        try! idx := DynReader.binary_search (index b) 0 0 end_idx end_ offset for b in
        buffer_chunk idx b
      else (Ok tt, b) in
    (buffer_from offset b, b).

(** [Read::read] with a buffer of [len] bytes: the bytes copied into it. *)
Definition read (len : Z) (b : BufferedDynamicReader) : res (list byte) * BufferedDynamicReader :=
  let! data, b := buffered_read (read_offset b) b in
  let n := if len <? Z.of_nat (length data) then len else Z.of_nat (length data) in
  (Ok (take (Z.to_nat n) data), set_offset (u64 (read_offset b + n)) b).

Inductive SeekFrom := Start (o : Z) | End_ (o : Z) | Current (o : Z).
Definition seek (p : SeekFrom) (b : BufferedDynamicReader) : res Z * BufferedDynamicReader :=
  let new_offset :=
    match p with
    | Start o => i64 o
    | End_ o => i64 (i64 (archive_size b) + o)
    | Current o => i64 (i64 (read_offset b) + o)
    end in
  if (new_offset <? 0) || (i64 (archive_size b) <? new_offset)
  then (Err "seek is out of range", b)
  else (Ok (u64 new_offset), set_offset (u64 new_offset) b).

(** [LocalDynamicReadAt::start_read_at] *)
Definition start_read_at (len offset : Z) (b : BufferedDynamicReader)
    : res (list byte) * BufferedDynamicReader :=
  let! _, b := seek (Start offset) b in
  read len b.
End reader.
End Buffered.
