(* ===== verification/DynamicIndexSpec.v ===== *)
(** * Dynamic index: what its users rely on

    [DynReaderSpec]: search and ranges of any file that opens; [DynFile]: writing
    and reading back; [BufferedSpec]: the buffered reader returns the archive. *)

From S2P Require Import Prelude IndexFile LruCache DynamicIndex.
From Stdlib Require Import Strings.Byte.

Module DynReaderSpec.
Import DynReader.

Definition opened (r : DynamicIndexReader) : Prop :=
  exists file addr, new file addr = Ok r /\ Z.of_nat (length (f_data file)) <= ADDRESS_SPACE.

(** The end of chunk [pos] and its start, the end of the previous chunk. *)
Definition entry_end (r : DynamicIndexReader) (pos : Z) : Z :=
  match index_at r pos with Ok e => DynamicEntry_end e | _ => 0 end.
Definition start_of (r : DynamicIndexReader) (pos : Z) : Z :=
  if pos =? 0 then 0 else entry_end r (pos - 1).

Record reader_ok (r : DynamicIndexReader) : Prop := {
  do_pos : 0 < index_len r <= 2 ^ 42;
  do_at pos : 0 <= pos < index_len r -> exists e, index_at r pos = Ok e /\ length (de_digest e) = 32%nat;
}.

Lemma entry_end_u64 r pos : in_u64 (entry_end r pos).
Proof.
  unfold entry_end, index_at. destruct (mmap_index _ _) as [b|]; [|done].
  unfold DynamicEntry_end, DynamicEntry_of_bytes. simpl.
  pose proof (le_val_range (take 8 b)) as Hr. rewrite length_take in Hr.
  assert (256 ^ Z.of_nat (8 `min` length b) <= 256 ^ 8) by (apply Z.pow_le_mono_r; lia).
  unfold in_u64, U64_MAX. lia.
Qed.
Lemma start_of_u64 r pos : in_u64 (start_of r pos).
Proof. unfold start_of. case_if; [done|apply entry_end_u64]. Qed.

Lemma dyn_opened_ok r : opened r -> reader_ok r.
Proof.
  intros (file & addr & Hnew & Hmax). unfold new in Hnew. inv_ok.
  match goal with H : map_read _ _ _ _ _ _ = Ok _ |- _ =>
    apply map_read_Ok_inv in H as (Hm & Hh & He & Hpos & Hlen); [|done..] end.
  split; unfold index_len, index_at, mmap_index; cbn [mmap].
  - unfold ADDRESS_SPACE, DYN_HEADER_SIZE, DYN_ENTRY_SIZE in *. lia.
  - intros pos Hp. rewrite (proj2 (Z.leb_le _ _)), (proj2 (Z.ltb_lt _ _)) by lia. simpl.
    eexists. split; [done|]. rewrite He, Hh, Hm. simpl.
    unfold DYN_HEADER_SIZE, DYN_ENTRY_SIZE in *.
    rewrite length_take, length_drop, length_take, length_drop. lia.
Qed.

Lemma chunk_end_eq r pos :
  reader_ok r -> 0 <= pos < index_len r -> chunk_end r pos = Ok (entry_end r pos).
Proof.
  intros Hr Hp. destruct (do_at r Hr pos Hp) as (e & He & _). unfold chunk_end, entry_end.
  rewrite He, (proj2 (Z.leb_gt _ _)) by lia. done.
Qed.

Lemma bs_spec fuel r si st ei en off :
  reader_ok r -> 0 <= si <= ei -> ei < index_len r ->
  st = start_of r si -> en = entry_end r ei -> (Z.to_nat (ei - si) < fuel)%nat ->
  let res := binary_search_fuel fuel r si st ei en off in
  (off < st \/ en <= off -> res = Err "offset out of range") /\
  (st <= off < en -> exists idx, res = Ok idx /\ si <= idx <= ei /\
     start_of r idx <= off < entry_end r idx).
Proof.
  intros Hr. revert si st ei en. induction fuel as [|fuel IH]; intros si st ei en Hi Hlen -> -> Hf; [lia|].
  cbv zeta. cbn [binary_search_fuel].
  destruct (_ || _) eqn:Eo.
  { apply orb_true_iff in Eo as [?|?]; zify_bool; (split; [done|lia]). }
  zify_bool. split; [lia|intros _].
  destruct (ei =? si) eqn:Ei; zify_bool; [subst; exists si; split; [done|lia]|].
  set (mid := (si + ei) / 2).
  assert (si <= mid < ei) as Hmid by (unfold mid; Z.to_euclidean_division_equations; lia).
  rewrite chunk_end_eq by (done || lia).
  destruct (off <? entry_end r mid) eqn:Em; zify_bool.
  - destruct (IH si (start_of r si) mid (entry_end r mid)) as [_ IH']; [lia..|done|done|lia|].
    destruct IH' as (idx & ? & ? & ?); [lia|]. exists idx. split_and!; [done|lia..].
  - destruct (IH (mid + 1) (entry_end r mid) ei (entry_end r ei)) as [_ IH']; [lia..| |done|lia|].
    { unfold start_of. rewrite (proj2 (Z.eqb_neq _ _)) by lia. f_equal. lia. }
    destruct IH' as (idx & ? & ? & ?); [lia|]. exists idx. split_and!; [done|lia..].
Qed.

Lemma search_all r off :
  reader_ok r -> 0 <= off ->
  let total := entry_end r (index_len r - 1) in
  (total <= off -> binary_search r 0 0 (index_len r - 1) total off = Err "offset out of range") /\
  (off < total -> exists idx, binary_search r 0 0 (index_len r - 1) total off = Ok idx /\
     0 <= idx < index_len r /\ start_of r idx <= off < entry_end r idx).
Proof.
  intros Hr Hoff. pose proof (do_pos r Hr). cbv zeta.
  destruct (bs_spec (S (Z.to_nat (index_len r - 1 - 0))) r 0 0 (index_len r - 1)
    (entry_end r (index_len r - 1)) off) as [H1 H2]; try done; [lia..|].
  split; [intros; apply H1; lia|]. intros Ho. destruct H2 as (idx & ? & ? & ?); [lia|].
  exists idx. split_and!; [done|lia..].
Qed.

Lemma last_idx r : reader_ok r -> u64 (index_len r - 1) = index_len r - 1.
Proof. intros Hr. pose proof (do_pos r Hr). apply u64_small. unfold in_u64, U64_MAX. lia. Qed.

Lemma chunk_from_offset_spec r off :
  reader_ok r -> 0 <= off ->
  let total := entry_end r (index_len r - 1) in
  (total <= off -> chunk_from_offset r off = Ok None) /\
  (off < total -> exists idx, chunk_from_offset r off = Ok (Some (idx, off - start_of r idx)) /\
     0 <= idx < index_len r /\ start_of r idx <= off < entry_end r idx).
Proof.
  intros Hr Hoff. pose proof (do_pos r Hr). cbv zeta. unfold chunk_from_offset.
  rewrite last_idx, chunk_end_eq by (done || lia).
  destruct (search_all r off Hr Hoff) as [H1 H2]. split.
  - intros Ho. by rewrite H1.
  - intros Ho. destruct (H2 Ho) as (idx & -> & Hidx & Hin). exists idx. split; [|done].
    pose proof (start_of_u64 r idx). pose proof (entry_end_u64 r idx).
    unfold start_of in *. destruct (idx =? 0) eqn:E; zify_bool.
    + rewrite u64_small; [done|unfold in_u64 in *; lia].
    + rewrite chunk_end_eq by (done || lia). rewrite u64_small; [done|unfold in_u64 in *; lia].
Qed.

Lemma dyn_chunk_info_eq r pos :
  reader_ok r -> 0 <= pos < index_len r -> exists d,
    index_digest r pos = Some d /\ length d = 32%nat /\
    chunk_info r pos = Some {| range_start := start_of r pos;
      range_end := entry_end r pos; cri_digest := d |}.
Proof.
  intros Hr Hp. destruct (do_at r Hr pos Hp) as (e & He & Hd). exists (de_digest e).
  unfold index_digest, chunk_digest, chunk_info. rewrite (proj2 (Z.leb_gt _ _)) by lia.
  rewrite He. split_and!; [done|done|].
  unfold start_of, entry_end. rewrite He. destruct (pos =? 0) eqn:E; zify_bool; [done|].
  destruct (do_at r Hr (pos - 1)) as (e' & He' & _); [lia|]. by rewrite He'.
Qed.

Lemma chunk_info_range r pos : 0 <= pos -> is_Some (chunk_info r pos) -> pos < index_len r.
Proof. unfold chunk_info. intros ? [i Hi]. case_if_in Hi; [done|]. by zify_bool. Qed.

(** The end offsets do not decrease. *)
Definition sorted (r : DynamicIndexReader) : Prop :=
  forall pos, 0 <= pos < index_len r -> start_of r pos <= entry_end r pos.
Definition reader_sorted (r : DynamicIndexReader) : Prop := reader_ok r /\ sorted r.
End DynReaderSpec.

(** The dynamic index is an index, when its end offsets do not decrease. *)
#[export] Instance DynamicIndexReader_laws :
  IndexFileLaws DynReader.DynamicIndexReader DynReaderSpec.reader_sorted.
Proof.
  assert (forall r pos i, DynReaderSpec.reader_ok r -> 0 <= pos ->
    DynReader.chunk_info r pos = Some i -> pos < DynReader.index_len r /\
    range_start i = DynReaderSpec.start_of r pos /\ range_end i = DynReaderSpec.entry_end r pos)
    as Hinfo.
  { intros r pos i Hr Hp Hi. assert (pos < DynReader.index_len r) as Hlt
      by (apply DynReaderSpec.chunk_info_range; [done|by eexists]).
    destruct (DynReaderSpec.dyn_chunk_info_eq r pos Hr ltac:(lia)) as (d & _ & _ & Hi').
    by simplify_eq. }
  split; simpl.
  - intros r [Hr _]. apply (DynReaderSpec.do_pos r Hr).
  - intros r pos [Hr _] Hp. unfold DynReader.index_count. split.
    + unfold DynReader.index_digest. intros [d Hd]. case_if_in Hd; [done|]. by zify_bool.
    + intros Hlt. destruct (DynReaderSpec.dyn_chunk_info_eq r pos Hr ltac:(lia)) as (d & -> & _).
      by eexists.
  - intros r pos [Hr Hs] Hp. destruct (DynReaderSpec.dyn_chunk_info_eq r pos Hr Hp) as (d & -> & _ & Hi).
    eexists. split_and!; [exact Hi|done|apply DynReaderSpec.start_of_u64|by apply Hs].
  - intros r i [Hr _] Hi. by apply Hinfo in Hi as (_ & -> & _).
  - intros r pos i j [Hr _] Hp Hi Hj. apply Hinfo in Hi as (_ & _ & ->); [|done..].
    apply Hinfo in Hj as (_ & -> & _); [|done|lia]. unfold DynReaderSpec.start_of.
    rewrite (proj2 (Z.eqb_neq _ _)) by lia. f_equal. lia.
  - intros r i [Hr _] Hi. pose proof (DynReaderSpec.do_pos r Hr). unfold DynReader.index_count in *.
    apply Hinfo in Hi as (_ & _ & ->); [|done|lia]. unfold DynReader.index_bytes.
    rewrite (proj2 (Z.eqb_neq _ _)) by lia. apply DynReaderSpec.chunk_end_eq; [done|lia].
  - intros r off n [Hr _] Hn Hoff. pose proof (DynReaderSpec.do_pos r Hr).
    unfold DynReader.index_bytes in Hn. rewrite (proj2 (Z.eqb_neq _ _)) in Hn by lia.
    rewrite DynReaderSpec.chunk_end_eq in Hn by (done || lia). injection Hn as <-.
    destruct (DynReaderSpec.chunk_from_offset_spec r off Hr) as [_ H2]; [lia|].
    destruct H2 as (idx & -> & Hidx & Hin); [lia|].
    destruct (DynReaderSpec.dyn_chunk_info_eq r idx Hr Hidx) as (d & _ & _ & Hi).
    eexists _, _. split_and!; [..|exact Hi| |]; simpl; done || lia.
  - intros r off n [Hr _] Hn Hoff. pose proof (DynReaderSpec.do_pos r Hr).
    unfold DynReader.index_bytes in Hn. rewrite (proj2 (Z.eqb_neq _ _)) in Hn by lia.
    rewrite DynReaderSpec.chunk_end_eq in Hn by (done || lia). injection Hn as <-.
    pose proof (DynReaderSpec.entry_end_u64 r (DynReader.index_len r - 1)).
    apply (DynReaderSpec.chunk_from_offset_spec r off Hr); [unfold in_u64 in *; lia|done].
Qed.

(** [chunk_from_offset] on any dynamic index file that opens, even one whose
    end offsets are not sorted: the recursive binary search terminates, no index is
    out of range and no subtraction underflows; an offset below the end of the last
    chunk is answered with a chunk that contains it and the position inside of it,
    any other offset with [None]. *)
Theorem dynamic_chunk_from_offset_correct r off :
  DynReaderSpec.opened r -> 0 <= off ->
  exists total, DynReader.index_bytes r = Ok total /\
  if decide (off < total) then
    exists idx i, DynReader.chunk_from_offset r off = Ok (Some (idx, off - range_start i)) /\
      0 <= idx < DynReader.index_count r /\ DynReader.chunk_info r idx = Some i /\
      range_start i <= off < range_end i
  else DynReader.chunk_from_offset r off = Ok None.
Proof.
  intros Hr%DynReaderSpec.dyn_opened_ok Hoff. pose proof (DynReaderSpec.do_pos r Hr).
  eexists. split.
  { unfold DynReader.index_bytes. rewrite (proj2 (Z.eqb_neq _ _)) by lia.
    apply DynReaderSpec.chunk_end_eq; [done|lia]. }
  destruct (DynReaderSpec.chunk_from_offset_spec r off Hr Hoff) as [H1 H2].
  case_decide; [|apply H1; lia]. destruct H2 as (idx & -> & Hidx & Hin); [done|].
  destruct (DynReaderSpec.dyn_chunk_info_eq r idx Hr Hidx) as (d & _ & _ & Hi).
  unfold DynReader.index_count.
  eexists idx, _. split_and!; [..|exact Hi| |]; simpl; done || lia.
Qed.

(** ** Writing an index and reading it back *)
Module DynFile.
Import DynWriter.

Definition header (uu : list byte) (ct : Z) (cs : list byte) : list byte :=
  dh_as_bytes {| dh_magic := DYNAMIC_SIZED_CHUNK_INDEX_1_0; dh_uuid := uu; dh_ctime := ct;
                 dh_index_csum := cs; dh_reserved := replicate (Z.to_nat 4032) x00 |}.
Definition entry_bytes (e : Z * digest) : list byte := le_bytes 8 e.1 ++ e.2.
Definition entries_ok (es : list (Z * digest)) : Prop :=
  Forall (fun e => in_u64 e.1 /\ length e.2 = 32%nat) es.
Definition didx_file (sha256 : list byte -> list byte) uu ct (es : list (Z * digest)) : list byte :=
  header uu ct (sha256 (concat (entry_bytes <$> es))) ++ concat (entry_bytes <$> es).

Lemma dyn_length_header uu ct cs :
  length uu = 16%nat -> length cs = 32%nat -> length (header uu ct cs) = Z.to_nat DYN_HEADER_SIZE.
Proof.
  intros Hu Hc. unfold header, dh_as_bytes. cbn [dh_magic dh_uuid dh_ctime dh_index_csum dh_reserved].
  rewrite !length_app, length_le_bytes, length_replicate, Hu, Hc. vm_compute. done.
Qed.

Lemma dyn_header_fields uu ct cs :
  length uu = 16%nat -> length cs = 32%nat -> in_i64 ct ->
  dh_of_bytes (header uu ct cs) =
    {| dh_magic := DYNAMIC_SIZED_CHUNK_INDEX_1_0; dh_uuid := uu; dh_ctime := ct;
       dh_index_csum := cs; dh_reserved := replicate (Z.to_nat 4032) x00 |}.
Proof.
  intros Hu Hc Hct. unfold header, dh_as_bytes, dh_of_bytes.
  cbn [dh_magic dh_uuid dh_ctime dh_index_csum dh_reserved].
  set (rest := replicate _ _).
  assert (length DYNAMIC_SIZED_CHUNK_INDEX_1_0 = 8%nat) as Hm by done.
  assert (length (le_bytes 8 ct) = 8%nat) as Hl by by rewrite length_le_bytes.
  f_equal.
  - by rewrite drop_app_length', take_app_length'.
  - rewrite (assoc_L (++)), drop_app_length' by (rewrite length_app; lia).
    rewrite take_app_length' by done. rewrite le_val_bytes. by apply i64_u64.
  - rewrite 2!(assoc_L (++)), drop_app_length' by (rewrite !length_app; lia).
    by rewrite take_app_length'.
  - rewrite 3!(assoc_L (++)), drop_app_length' by (rewrite !length_app; lia). done.
Qed.

Lemma dyn_header_csum uu ct cs (cs' rest : list byte) :
  length uu = 16%nat -> length cs = 32%nat -> length cs' = 32%nat ->
  take (Z.to_nat 32) (header uu ct cs ++ rest) ++ cs' ++
    skipn (Z.to_nat 32 + length cs')%nat (header uu ct cs ++ rest) = header uu ct cs' ++ rest.
Proof.
  intros Hu Hc Hc'. rewrite Hc'. change (Z.to_nat 32 + 32)%nat with 64%nat.
  change (Z.to_nat 32) with 32%nat. unfold header, dh_as_bytes.
  cbn [dh_magic dh_uuid dh_ctime dh_index_csum dh_reserved]. set (res := replicate _ _).
  assert (length (DYNAMIC_SIZED_CHUNK_INDEX_1_0 ++ uu ++ le_bytes 8 ct) = 32%nat) as Hl
    by (rewrite !length_app, length_le_bytes, Hu; done).
  revert Hl. generalize DYNAMIC_SIZED_CHUNK_INDEX_1_0, (le_bytes 8 ct). intros m t Hl.
  replace ((m ++ uu ++ t ++ cs ++ res) ++ rest) with ((m ++ uu ++ t) ++ cs ++ res ++ rest)
    by by rewrite <- !(assoc_L (++)).
  rewrite take_app_length' by done. rewrite (assoc_L (++) (m ++ uu ++ t) cs).
  rewrite drop_app_length' by (rewrite length_app; lia). by rewrite <- !(assoc_L (++)).
Qed.

Lemma entries_blocks es : entries_ok es -> blocks_ok (Z.to_nat DYN_ENTRY_SIZE) (entry_bytes <$> es).
Proof.
  intros Hes. apply Forall_fmap. eapply Forall_impl; [done|]. intros e [_ He].
  unfold compose, entry_bytes. rewrite length_app, length_le_bytes, He. done.
Qed.

Lemma write_end data w :
  pos w = Z.of_nat (length (content w)) ->
  write_file data w = set_content (content w ++ data) (pos w + Z.of_nat (length data)) w.
Proof.
  intros Hp. unfold write_file. rewrite Hp, Nat2Z.id, take_ge, drop_ge by lia.
  by rewrite app_nil_r.
Qed.

(** Adding chunks one after the other. *)
Fixpoint add_all (es : list (Z * digest)) (w : DynamicIndexWriter)
    : res unit * DynamicIndexWriter :=
  match es with
  | [] => (Ok tt, w)
  | e :: es => let! _, w := add_chunk io_ok e.1 e.2 w in add_all es w
  end.

Definition writer_at (uu : list byte) (ct : Z) (path tmp : string) (es : list (Z * digest))
    : DynamicIndexWriter :=
  let c := header uu ct (replicate 32 x00) ++ concat (entry_bytes <$> es) in
  {| content := c; pos := Z.of_nat (length c); closed := false; filename := path;
     tmp_filename := tmp; csum := Some (concat (entry_bytes <$> es)); uuid := uu; ctime := ct |}.

Lemma add_all_spec uu ct path tmp es es' :
  add_all es' (writer_at uu ct path tmp es) = (Ok tt, writer_at uu ct path tmp (es ++ es')).
Proof.
  revert es. induction es' as [|e es' IH]; intros es; [by rewrite app_nil_r|].
  cbn [add_all]. unfold add_chunk. cbn [closed writer_at csum].
  unfold io_ok, write_all. cbn [write1 write2].
  rewrite (write_end (le_bytes 8 e.1)) by reflexivity. cbn iota beta.
  rewrite (write_end e.2) by (unfold writer_at; cbn [pos content set_content set_csum];
    rewrite (length_app (_ ++ _)); lia).
  replace (es ++ e :: es') with ((es ++ [e]) ++ es') by by rewrite <- (assoc_L (++)).
  rewrite <- IH. f_equal. unfold writer_at, set_content, set_csum.
  cbn [content pos closed filename tmp_filename csum uuid ctime].
  replace (concat (entry_bytes <$> es ++ [e]))
    with (concat (entry_bytes <$> es) ++ le_bytes 8 e.1 ++ e.2)
    by (rewrite fmap_app, concat_app; cbn [fmap list_fmap concat]; by rewrite app_nil_r).
  generalize (header uu ct (replicate 32 x00)), (le_bytes 8 e.1). intros h d.
  rewrite <- !(assoc_L (++)). f_equal. rewrite !length_app. lia.
Qed.

(** A whole upload of a dynamic index. *)
Definition upload (sha256 : list byte -> list byte) (ct : Z) (uu : list byte) (path tmp : string)
    (es : list (Z * digest)) (fs : fs_t) : res digest * fs_t :=
  match create io_ok ct uu path tmp with
  | Ok w =>
      let '(r, w) := add_all es w in
      match r with
      | Ok _ => let '(r, (_, fs)) := close io_ok sha256 w fs in (r, fs)
      | Err e => (Err e, fs)
      | Panic e => (Panic e, fs)
      end
  | Err e => (Err e, fs)
  | Panic e => (Panic e, fs)
  end.

Lemma dyn_upload_ok sha256 ct uu path tmp es fs :
  (forall l, length (sha256 l) = 32%nat) -> length uu = 16%nat ->
  upload sha256 ct uu path tmp es fs =
    (Ok (sha256 (concat (entry_bytes <$> es))),
     <[path := didx_file sha256 uu ct es]> (delete tmp fs)).
Proof.
  intros Hsha Hu. unfold upload, create, io_ok. cbn [open_ok negb write1]. unfold write_all.
  rewrite write_end by done.
  match goal with |- context [add_all es ?w] =>
    replace w with (writer_at uu ct path tmp []) by
      (unfold writer_at, set_content; simpl; by rewrite app_nil_r) end.
  rewrite add_all_spec. cbn [app]. unfold close. cbn [closed writer_at negb flush_ok seek_ok rename_ok].
  cbn [csum set_content set_closed unwrap write_all write1].
  unfold didx_file, write_file, off_dyn_csum.
  cbn [pos content set_content set_csum set_closed writer_at filename tmp_filename].
  unfold writer_at at 1. cbn [csum unwrap].
  rewrite dyn_header_csum by (done || apply Hsha). done.
Qed.

Definition reader_of sha256 uu ct (es : list (Z * digest)) : DynReader.DynamicIndexReader :=
  {| DynReader.mmap := {| IndexFile.memory := didx_file sha256 uu ct es;
       index_len := Z.of_nat (length es); header_len := DYN_HEADER_SIZE;
       elem_len := DYN_ENTRY_SIZE |};
     DynReader.uuid := uu; DynReader.ctime := ct;
     DynReader.index_csum := sha256 (concat (entry_bytes <$> es)) |}.

Lemma dyn_reader_new_file sha256 uu ct es base :
  (forall l, length (sha256 l) = 32%nat) -> length uu = 16%nat -> in_i64 ct ->
  entries_ok es -> es <> [] ->
  Z.of_nat (length (didx_file sha256 uu ct es)) <= ADDRESS_SPACE -> base mod 4096 = 0 ->
  DynReader.new {| f_regular := true; f_data := didx_file sha256 uu ct es |} (Some base)
  = Ok (reader_of sha256 uu ct es).
Proof.
  intros Hsha Hu Hct Hes Hne Hmax Hb. pose proof (entries_blocks es Hes) as Hbl.
  assert (length (header uu ct (sha256 (concat (entry_bytes <$> es)))) = Z.to_nat DYN_HEADER_SIZE)
    as Hh by by apply dyn_length_header.
  unfold DynReader.new, reader_of, didx_file in *.
  rewrite map_read_blocks; [|done|done|by rewrite Hh|done| | |].
  - unfold mmap_header. cbn [IndexFile.memory header_len index_len].
    rewrite take_app_length' by done. rewrite dyn_header_fields by done.
    cbn [dh_magic dh_uuid dh_ctime dh_index_csum]. rewrite bool_decide_eq_true_2 by done.
    rewrite length_fmap. cbn [negb]. rewrite (proj2 (Z.eqb_neq _ _)); [done|].
    destruct es; simpl; [done|lia].
  - unfold ADDRESS_SPACE, U64_MAX in *. lia.
  - Z.to_euclidean_division_equations. lia.
  - unfold DYN_HEADER_SIZE. Z.to_euclidean_division_equations. lia.
Qed.

Lemma reader_of_at sha256 uu ct es pos :
  (forall l, length (sha256 l) = 32%nat) -> length uu = 16%nat -> entries_ok es -> 0 <= pos ->
  DynReader.index_at (reader_of sha256 uu ct es) pos =
    match es !! Z.to_nat pos with
    | Some e => Ok {| end_le := le_bytes 8 e.1; de_digest := e.2 |}
    | None => Panic "index out of bounds"
    end.
Proof.
  intros Hsha Hu Hes Hp. unfold DynReader.index_at, reader_of, didx_file. cbn [DynReader.mmap].
  rewrite <- (length_fmap entry_bytes es).
  rewrite mmap_index_blocks; [|done|done|done| |by apply entries_blocks].
  2: { by rewrite dyn_length_header by (done || apply Hsha). }
  rewrite list_lookup_fmap. destruct (es !! Z.to_nat pos) as [e|] eqn:E; [|done]. cbn [fmap option_fmap option_map].
  unfold DynamicEntry_of_bytes, entry_bytes.
  eapply Forall_lookup_1 in Hes as [_ He]; [|done].
  rewrite take_app_length', drop_app_length' by (by rewrite length_le_bytes).
  by rewrite take_ge by lia.
Qed.

(** End offset and digest of a chunk of the file that was read back. *)
Lemma reader_of_entry sha256 uu ct es pos e :
  (forall l, length (sha256 l) = 32%nat) -> length uu = 16%nat -> entries_ok es -> 0 <= pos ->
  es !! Z.to_nat pos = Some e ->
  DynReader.chunk_end (reader_of sha256 uu ct es) pos = Ok e.1 /\
  DynReader.index_digest (reader_of sha256 uu ct es) pos = Some e.2.
Proof.
  intros Hsha Hu Hes Hp He. unfold DynReader.index_digest, DynReader.chunk_end, DynReader.chunk_digest.
  rewrite reader_of_at, He by done. pose proof (lookup_lt_Some _ _ _ He).
  unfold DynReader.index_len, reader_of. cbn [DynReader.mmap index_len].
  rewrite (proj2 (Z.leb_gt _ _)) by lia. split; [|done].
  unfold DynamicEntry_end. cbn [end_le].
  eapply Forall_lookup_1 in Hes as [Hr _]; [|done]. by rewrite le_val_u64_bytes.
Qed.

Lemma reader_of_info sha256 uu ct es pos e :
  (forall l, length (sha256 l) = 32%nat) -> length uu = 16%nat -> entries_ok es -> 0 <= pos ->
  es !! Z.to_nat pos = Some e -> exists s,
  DynReader.chunk_info (reader_of sha256 uu ct es) pos
  = Some {| range_start := s; range_end := e.1; cri_digest := e.2 |}.
Proof.
  intros Hsha Hu Hes Hp He. unfold DynReader.chunk_info.
  pose proof (lookup_lt_Some _ _ _ He).
  assert (DynReader.index_len (reader_of sha256 uu ct es) = Z.of_nat (length es)) as -> by done.
  rewrite (proj2 (Z.leb_gt _ _)) by lia. rewrite (reader_of_at _ _ _ _ pos), He by done.
  unfold DynamicEntry_end. cbn [end_le de_digest].
  pose proof (Forall_lookup_1 _ _ _ _ Hes He) as [Hr _]. rewrite le_val_u64_bytes by done.
  destruct (pos =? 0) eqn:E; zify_bool; [by eexists|].
  rewrite reader_of_at by (done || lia).
  destruct (lookup_lt_is_Some_2 es (Z.to_nat (pos - 1))) as [e' ->]; [lia|]. by eexists.
Qed.

Lemma dyn_csum_fold sha256 uu ct es (n : nat) :
  (forall l, length (sha256 l) = 32%nat) -> length uu = 16%nat -> entries_ok es ->
  (n <= length es)%nat ->
  foldl (DynReader.csum_step (reader_of sha256 uu ct es)) (Ok ([], 0)) (seqZ 0 (Z.of_nat n))
  = Ok (concat (entry_bytes <$> take n es), default 0 (fst <$> last (take n es))).
Proof.
  intros Hsha Hu Hes Hn. induction n as [|n IH]; [done|].
  rewrite Nat2Z.inj_succ, <- Z.add_1_r, seqZ_app, foldl_app by lia.
  replace (seqZ (0 + Z.of_nat n) 1) with [Z.of_nat n] by (rewrite seqZ_cons by lia; done).
  rewrite IH by lia. cbn [foldl]. unfold DynReader.csum_step at 1.
  destruct (lookup_lt_is_Some_2 es n) as [e He]; [lia|].
  destruct (reader_of_info sha256 uu ct es (Z.of_nat n) e) as [s ->]; [done..|lia|by rewrite Nat2Z.id|].
  cbn [unwrap]. cbn [range_end cri_digest].
  rewrite (take_S_r _ _ _ He), last_snoc, fmap_app, concat_app.
  cbn [fmap list_fmap concat option_fmap option_map default]. unfold entry_bytes at 3.
  by rewrite app_nil_r.
Qed.
End DynFile.

(** Round trip of a dynamic index: writing any non-empty list of (end offset,
    digest) entries publishes a file that [DynamicIndexReader::new] accepts; the reader
    has the same entries, and [compute_csum] returns the checksum that [close] returned
    and stored in the header, together with the end of the last chunk. *)
Theorem dynamic_roundtrip sha256 ct uu path tmp es fs base :
  (forall l, length (sha256 l) = 32%nat) -> length uu = 16%nat -> in_i64 ct ->
  DynFile.entries_ok es -> es <> [] -> 40 * Z.of_nat (length es) + 4096 <= ADDRESS_SPACE ->
  base mod 4096 = 0 ->
  exists data csum r,
    DynFile.upload sha256 ct uu path tmp es fs = (Ok csum, <[path := data]> (delete tmp fs)) /\
    DynReader.new {| f_regular := true; f_data := data |} (Some base) = Ok r /\
    DynReader.index_count r = Z.of_nat (length es) /\ DynReader.uuid r = uu /\
    DynReader.ctime r = ct /\ DynReader.index_csum r = csum /\
    DynReader.compute_csum sha256 r = Ok (csum, default 0 (fst <$> last es)) /\
    forall (pos : nat) e, es !! pos = Some e ->
      DynReader.chunk_end r (Z.of_nat pos) = Ok e.1 /\
      DynReader.index_digest r (Z.of_nat pos) = Some e.2.
Proof.
  intros Hsha Hu Hct Hes Hne Hmax Hb.
  exists (DynFile.didx_file sha256 uu ct es), (sha256 (concat (DynFile.entry_bytes <$> es))),
    (DynFile.reader_of sha256 uu ct es).
  split; [by apply DynFile.dyn_upload_ok|]. split.
  { apply DynFile.dyn_reader_new_file; try done. unfold DynFile.didx_file.
    rewrite length_app, (length_blocks _ _ (DynFile.entries_blocks _ Hes)), length_fmap.
    rewrite DynFile.dyn_length_header by (done || apply Hsha).
    unfold DYN_HEADER_SIZE, DYN_ENTRY_SIZE. lia. }
  split_and!; [done..| |].
  - unfold DynReader.compute_csum.
    change (DynReader.index_count _) with (Z.of_nat (length es)).
    rewrite DynFile.dyn_csum_fold by (done || lia). by rewrite firstn_all.
  - intros pos e He. apply DynFile.reader_of_entry; [done..|lia|by rewrite Nat2Z.id].
Qed.

(** ** The buffered reader *)
Module BufferedSpec.
Import DynReader DynReaderSpec Buffered.

(** Bytes [a..b] of the archive. *)
Definition range_of (content : list byte) (a b : Z) : list byte :=
  take (Z.to_nat (b - a)) (drop (Z.to_nat a) content).

Section spec.
Variable r : DynamicIndexReader.
Hypothesis Hr : reader_sorted r.
Variable content : list byte.
Abbreviation total := (entry_end r (index_len r - 1)).
Hypothesis Hlen : Z.of_nat (length content) = total.
Abbreviation chunk_data i := (range_of content (start_of r i) (entry_end r i)).

(** The store returns, if it returns anything, the right bytes of each chunk. *)
Definition store_ok (read_chunk : digest -> res (list byte)) : Prop :=
  forall pos d, index_digest r pos = Some d -> 0 <= pos ->
    is_panic (read_chunk d) = false /\
    forall bytes, read_chunk d = Ok bytes -> bytes = chunk_data pos.

Lemma start_succ i : 0 <= i -> start_of r (i + 1) = entry_end r i.
Proof. intros. unfold start_of. rewrite (proj2 (Z.eqb_neq _ _)) by lia. f_equal. lia. Qed.

Lemma entry_end_mono i j : 0 <= i <= j -> j < index_len r -> entry_end r i <= entry_end r j.
Proof.
  intros Hij Hj. replace j with (i + Z.of_nat (Z.to_nat (j - i))) in * by lia.
  induction (Z.to_nat (j - i)) as [|n IH]; [rewrite Z.add_0_r; lia|].
  destruct Hr as [_ Hs]. specialize (Hs (i + Z.of_nat n + 1) ltac:(lia)).
  rewrite start_succ in Hs by lia.
  replace (i + Z.of_nat (S n)) with (i + Z.of_nat n + 1) by lia.
  etrans; [apply IH; lia|]. lia.
Qed.

Lemma chunk_bounds i : 0 <= i < index_len r ->
  0 <= start_of r i <= entry_end r i /\ entry_end r i <= total.
Proof.
  intros Hi. pose proof (start_of_u64 r i). destruct Hr as [_ Hs]. specialize (Hs i Hi).
  pose proof (entry_end_mono i (index_len r - 1)). unfold in_u64 in *. lia.
Qed.

Lemma length_chunk_data i : 0 <= i < index_len r ->
  Z.of_nat (length (chunk_data i)) = entry_end r i - start_of r i.
Proof.
  intros Hi. pose proof (chunk_bounds i Hi). unfold range_of.
  rewrite length_take, length_drop. lia.
Qed.

Definition cached_ok (kv : Z * CachedChunk) : Prop :=
  0 <= kv.1 < index_len r /\
  kv.2 = {| range_s := start_of r kv.1; range_e := entry_end r kv.1; data := chunk_data kv.1 |}.

Record inv (b : BufferedDynamicReader) : Prop := {
  bi_index : index b = r;
  bi_size : archive_size b = total;
  bi_offset : 0 <= read_offset b <= total;
  bi_cache : exists l, LruSpec.lru_repr (lru_cache b) l /\ Forall cached_ok l.*2;
  bi_buffer : read_buffer b = [] \/
    (0 <= buffered_chunk_idx b < index_len r /\
     buffered_chunk_start b = start_of r (buffered_chunk_idx b) /\
     read_buffer b = chunk_data (buffered_chunk_idx b));
}.

Lemma fetch_spec read_chunk k e : store_ok read_chunk -> 0 <= k < index_len r ->
  let res := (fetch read_chunk r k e).1 in
  is_panic res = false /\ res <> Ok None /\
  (forall v, res = Ok (Some v) -> cached_ok (k, v)) /\
  (is_err res = true -> exists d, index_digest r k = Some d /\ is_ok (read_chunk d) = false).
Proof.
  intros Hst Hk. unfold fetch. destruct (dyn_chunk_info_eq r k (proj1 Hr) Hk) as (d & Hd & _ & ->).
  cbn [fst cri_digest range_start range_end]. destruct (Hst k d Hd) as [Hnp Hok]; [lia|].
  destruct (read_chunk d) as [bytes|x|x] eqn:Er; [| |done]; last first.
  { split_and!; try done. intros _. exists d. by rewrite Er. }
  rewrite (Hok bytes eq_refl). unfold CachedChunk_new. pose proof (length_chunk_data k Hk) as Hl.
  pose proof (chunk_bounds k Hk). pose proof (entry_end_u64 r k).
  rewrite Hl, u64_small, Z.eqb_refl by (unfold in_u64 in *; lia).
  cbn [negb]. split_and!; try done. intros v [= <-]. by split.
Qed.

Lemma buffer_chunk_spec read_chunk k b res b' :
  store_ok read_chunk -> inv b -> 0 <= k < index_len r ->
  buffer_chunk read_chunk k b = (res, b') ->
  inv b' /\ is_panic res = false /\ read_offset b' = read_offset b /\
  (is_err res = true -> exists d, index_digest r k = Some d /\ is_ok (read_chunk d) = false) /\
  (res = Ok tt -> buffered_chunk_idx b' = k /\ buffered_chunk_start b' = start_of r k /\
     read_buffer b' = chunk_data k).
Proof.
  intros Hst [Hi Hs Ho (l & Hl & Hc) Hb] Hk. unfold buffer_chunk. rewrite Hi.
  destruct (Lru.access _ _ _ _ _) as [ra [cache e']] eqn:Ea.
  apply (LruSpec.access_refines _ _ _ l) in Ea as (l' & Hl' & _ & Ha); [|done].
  destruct (fetch_spec read_chunk k () Hst Hk) as (Hnp & Hnn & Hfok & Hferr).
  apply (access_Forall cached_ok) in Ha as [Hc' Hra]; [|done..].
  destruct ra as [[v|]|x|x].
  - destruct Hra as [_ Hv]. simpl in Hv. subst v. intros [= <- <-]. split_and!; try done.
    split; try done; [by eexists|]. right. done.
  - destruct Hra as [Hra _]. by rewrite <- Hra in Hnn.
  - destruct Hra as [Hra _]. intros [= <- <-]. split_and!; try done.
    + split; try done. by eexists.
    + intros _. apply Hferr. by rewrite <- Hra.
  - destruct Hra as [Hra _]. by rewrite <- Hra in Hnp.
Qed.

(** Whether the store failed to deliver some chunk. *)
Definition store_failed (read_chunk : digest -> res (list byte)) : Prop :=
  exists k d, 0 <= k < index_len r /\ index_digest r k = Some d /\ is_ok (read_chunk d) = false.

Lemma buffer_from_spec b k off :
  0 <= k < index_len r -> buffered_chunk_start b = start_of r k -> read_buffer b = chunk_data k ->
  start_of r k <= off < entry_end r k ->
  buffer_from off b = Ok (range_of content off (entry_end r k)).
Proof.
  intros Hk Hs Hb Hoff. unfold buffer_from. rewrite Hs, Hb.
  pose proof (length_chunk_data k Hk) as Hl. pose proof (chunk_bounds k Hk).
  pose proof (entry_end_u64 r k).
  rewrite u64_small by (unfold in_u64 in *; lia). rewrite slice_ok by lia.
  f_equal. rewrite Hl. unfold range_of. rewrite skipn_firstn_comm, drop_drop, take_take.
  f_equal; [lia|]. f_equal. lia.
Qed.

(** The outcome of serving [off]: errors come from the store, and bytes are
    those of the archive up to the end of the chunk that contains [off]. *)
Definition served read_chunk (off : Z) (b : BufferedDynamicReader) (res : Prelude.res (list byte))
    (b' : BufferedDynamicReader) : Prop :=
  inv b' /\ is_panic res = false /\ read_offset b' = read_offset b /\
  (is_err res = true -> store_failed read_chunk) /\
  (forall bytes, res = Ok bytes ->
     (off = total /\ bytes = []) \/
     exists k, 0 <= k < index_len r /\ start_of r k <= off < entry_end r k /\
       bytes = range_of content off (entry_end r k)).

Lemma served_chunk read_chunk off b k res b' :
  store_ok read_chunk -> inv b -> 0 <= k < index_len r -> start_of r k <= off < entry_end r k ->
  (let! _, b := buffer_chunk read_chunk k b in (buffer_from off b, b)) = (res, b') ->
  served read_chunk off b res b'.
Proof.
  intros Hst Hinv Hk Hin. destruct (buffer_chunk _ _ _) as [r1 b1] eqn:Eb.
  apply buffer_chunk_spec in Eb as (Hinv1 & Hnp & Ho1 & Herr & Hok); [|done..].
  destruct r1 as [[]|x|x]; [|intros [= <- <-]|done].
  - destruct (Hok eq_refl) as (_ & Hs1 & Hb1). rewrite (buffer_from_spec b1 k) by done.
    intros [= <- <-]. split_and!; try done. intros ? [= <-]. right. by exists k.
  - split_and!; try done. intros _. destruct (Herr eq_refl) as (d & ? & ?). by exists k, d.
Qed.

Lemma buffer_end b k :
  0 <= k < index_len r -> buffered_chunk_start b = start_of r k -> read_buffer b = chunk_data k ->
  u64 (buffered_chunk_start b + Z.of_nat (length (read_buffer b))) = entry_end r k.
Proof.
  intros Hk -> ->. rewrite length_chunk_data by done. pose proof (entry_end_u64 r k).
  rewrite u64_small; [lia|]. unfold in_u64 in *. lia.
Qed.

Lemma served_search read_chunk off b res b' :
  store_ok read_chunk -> inv b -> 0 <= off < total ->
  (let! _, b :=
     if (Z.of_nat (length (read_buffer b)) =? 0) || (off <? buffered_chunk_start b)
        || (u64 (buffered_chunk_start b + Z.of_nat (length (read_buffer b))) <=? off)
     then
       try! end_ := chunk_end r (u64 (index_len r - 1)) for b in
       try! idx := binary_search r 0 0 (u64 (index_len r - 1)) end_ off for b in
       buffer_chunk read_chunk idx b
     else (Ok tt, b) in
   (buffer_from off b, b)) = (res, b') ->
  served read_chunk off b res b'.
Proof.
  intros Hst Hinv Hoff. pose proof Hinv as [_ _ _ _ Hb]. pose proof (do_pos r (proj1 Hr)).
  destruct (_ || _) eqn:Eor.
  - rewrite last_idx by apply Hr. rewrite chunk_end_eq by (apply Hr || lia).
    destruct (search_all r off (proj1 Hr)) as [_ Hsearch]; [lia|].
    destruct Hsearch as (k & -> & Hk & Hin); [lia|]. by apply served_chunk.
  - zify_bool. destruct Hb as [Hb|(Hk & Hs & Hb)]; [by rewrite Hb in *|].
    rewrite (buffer_end b (buffered_chunk_idx b)) in * by done.
    rewrite (buffer_from_spec b (buffered_chunk_idx b)) by (done || lia).
    intros [= <- <-]. split_and!; try done. intros ? [= <-]. right. eexists.
    split_and!; [..|done]; lia.
Qed.

Lemma buffered_read_spec read_chunk off b res b' :
  store_ok read_chunk -> inv b -> 0 <= off <= total ->
  buffered_read read_chunk off b = (res, b') -> served read_chunk off b res b'.
Proof.
  intros Hst Hinv Hoff. pose proof Hinv as [Hi Hs Ho _ Hb]. unfold buffered_read. rewrite Hi, Hs.
  destruct (off =? total) eqn:Ee; zify_bool.
  { intros [= <- <-]. split_and!; try done. intros ? [= <-]. by left. }
  destruct ((0 <? _) && (_ <? index_len r) && _) eqn:Eseq; cbv iota beta zeta;
    [zify_bool|apply served_search; [done..|lia]].
  destruct Hb as [Hb|(Hk & Hst' & Hb)]; [by rewrite Hb in *|].
  rewrite chunk_end_eq by (apply Hr || lia). destruct (off <? _) eqn:En; zify_bool;
    [|apply served_search; [done..|lia]].
  apply served_chunk; [done..|lia|]. rewrite start_succ by lia.
  rewrite (buffer_end b (buffered_chunk_idx b)) in * by done. lia.
Qed.

Lemma read_spec read_chunk n b res b' :
  store_ok read_chunk -> inv b -> 0 <= n -> read read_chunk n b = (res, b') ->
  inv b' /\ is_panic res = false /\
  (is_err res = true -> store_failed read_chunk /\ read_offset b' = read_offset b) /\
  (forall bytes, res = Ok bytes ->
     bytes = take (length bytes) (drop (Z.to_nat (read_offset b)) content) /\
     Z.of_nat (length bytes) <= n /\
     read_offset b' = read_offset b + Z.of_nat (length bytes) /\
     (0 < n -> read_offset b < total -> bytes <> [])).
Proof.
  intros Hst Hinv Hn. unfold read. pose proof (bi_offset b Hinv) as Ho.
  destruct (buffered_read _ _ _) as [r1 b1] eqn:Er.
  apply buffered_read_spec in Er as (Hinv1 & Hnp & Ho1 & Herr & Hok); [|done..].
  destruct r1 as [bs|x|x]; [|intros [= <- <-]; by split_and!; auto|done].
  set (k := if _ <? _ then _ else _).
  assert (k = n `min` Z.of_nat (length bs)) as Hk by (unfold k; case_if; zify_bool; lia).
  assert (bs = take (length bs) (drop (Z.to_nat (read_offset b)) content) /\
    read_offset b + Z.of_nat (length bs) <= total /\
    (read_offset b < total -> 0 < Z.of_nat (length bs))) as (Hbs & Htot & Hne).
  { destruct (Hok bs eq_refl) as [[? ->]|(i & Hi & Hin & ->)]; [split_and!; [done|simpl; lia|lia]|].
    pose proof (chunk_bounds i Hi). unfold range_of. rewrite length_take.
    split_and!; [by rewrite <- take_take, firstn_all|rewrite length_drop; lia..]. }
  pose proof (entry_end_u64 r (index_len r - 1)).
  rewrite u64_small by (unfold in_u64 in *; lia). intros [= <- <-].
  assert (length (take (Z.to_nat k) bs) = Z.to_nat k) as Hl by (rewrite length_take; lia).
  split_and!; [|done|done|].
  - destruct Hinv1 as [? ? ? ? ?]. split; simpl; try done. lia.
  - intros ? [= <-]. rewrite Hl. simpl. split_and!; [|lia|lia|].
    + rewrite Hbs at 1. rewrite take_take. f_equal. lia.
    + intros ? Hlt E%(f_equal length). rewrite Hl in E. simpl in E. specialize (Hne Hlt). lia.
Qed.

Lemma seek_spec p b res b' :
  inv b ->
  (match p with Start o => in_u64 o | End_ o | Current o => - 2 ^ 62 <= o < 2 ^ 62 end) ->
  total <= 2 ^ 62 -> seek p b = (res, b') ->
  let target := match p with Start o => o | End_ o => total + o | Current o => read_offset b + o end in
  inv b' /\
  if decide (0 <= target <= total) then res = Ok target /\ read_offset b' = target
  else is_err res = true /\ b' = b.
Proof.
  intros Hinv Hp Hmax. pose proof Hinv as [Hi Hs Ho Hc Hb]. unfold seek. rewrite Hs.
  rewrite (i64_small total) by (unfold in_i64, I64_MAX in *; lia).
  set (off := match p with Start o => i64 o | _ => _ end).
  set (target := match p with Start o => o | _ => _ end). cbv zeta.
  assert ((off = target /\ - 2 ^ 63 <= target < 2 ^ 63) \/ (off < 0 /\ total < target)) as Hoff.
  { unfold off, target. destruct p as [o|o|o].
    - destruct (decide (o < 2 ^ 63)).
      + left. rewrite i64_small by (unfold in_i64, in_u64 in *; lia). unfold in_u64 in *. lia.
      + right. unfold wrapi, in_u64, U64_MAX, I64_MAX in *.
        Z.to_euclidean_division_equations; lia.
    - left. rewrite i64_small by (unfold in_i64, I64_MAX in *; lia). lia.
    - left. rewrite (i64_small (read_offset b)) by (unfold in_i64, I64_MAX in *; lia).
      rewrite i64_small by (unfold in_i64, I64_MAX in *; lia). lia. }
  destruct (_ || _) eqn:E.
  - apply orb_true_iff in E. rewrite !Z.ltb_lt in E. intros [= <- <-]. split; [done|].
    rewrite decide_False by lia. done.
  - zify_bool. rewrite u64_small by (unfold in_u64, U64_MAX, I64_MAX in *; lia).
    intros [= <- <-]. split; [split; simpl; done || lia|].
    rewrite decide_True by lia. simpl. assert (off = target) as -> by lia. done.
Qed.

Lemma dyn_new_spec : exists b, new r = Ok b /\ inv b /\ read_offset b = 0.
Proof.
  pose proof (do_pos r (proj1 Hr)). unfold new, index_bytes.
  rewrite (proj2 (Z.eqb_neq _ _)), chunk_end_eq by (apply Hr || lia).
  eexists. split; [done|]. split; [|done]. pose proof (entry_end_u64 r (index_len r - 1)).
  split; simpl; [done|done|unfold in_u64 in *; lia| |by left].
  exists []. split; [apply LruSpec.new_refines|constructor].
Qed.

(** Reading to the end with a buffer of [n] bytes. *)
Fixpoint read_to_end (read_chunk : digest -> Prelude.res (list byte)) (fuel : nat) (n : Z)
    (b : BufferedDynamicReader) : option (Prelude.res (list byte)) :=
  match fuel with
  | O => None
  | S fuel =>
      match read read_chunk n b with
      | (Ok [], _) => Some (Ok [])
      | (Ok bytes, b) =>
          rest ← read_to_end read_chunk fuel n b;
          Some (let? rest := rest in Ok (bytes ++ rest))
      | (Err e, _) => Some (Err e)
      | (Panic e, _) => Some (Panic e)
      end
  end.

Lemma read_to_end_spec read_chunk fuel n b :
  store_ok read_chunk -> ~ store_failed read_chunk -> inv b -> 0 < n ->
  total - read_offset b < Z.of_nat fuel ->
  read_to_end read_chunk fuel n b = Some (Ok (drop (Z.to_nat (read_offset b)) content)).
Proof.
  intros Hst Hnf Hinv Hn. revert b Hinv. induction fuel as [|fuel IH]; intros b Hinv Hf.
  { pose proof (bi_offset b Hinv). lia. }
  cbn [read_to_end]. pose proof (bi_offset b Hinv) as Ho.
  destruct (read read_chunk n b) as [res b'] eqn:Er.
  apply read_spec in Er as (Hinv' & Hnp & Herr & Hok); [|done|done|lia].
  destruct res as [bytes|x|x]; [|naive_solver|done].
  destruct (Hok bytes eq_refl) as (Hb & Hle & Ho' & Hne). destruct bytes as [|y bytes].
  - assert (read_offset b = total) as Hend.
    { destruct (decide (read_offset b < total)) as [Hlt|]; [by destruct (Hne Hn Hlt)|lia]. }
    by rewrite drop_ge by lia.
  - cbn [length] in Ho'. rewrite IH by (done || lia). cbn [mbind option_bind]. do 2 f_equal.
    rewrite Ho'. replace (Z.to_nat _) with (Z.to_nat (read_offset b) + length (y :: bytes))%nat
      by (simpl; lia).
    rewrite <- drop_drop, Hb at 1. by rewrite take_drop.
Qed.
End spec.
End BufferedSpec.

(** C4.  [BufferedDynamicReader] delivers the archive.  For an index with
    non-decreasing end offsets and a chunk store that returns the bytes of the
    requested chunks, a new reader read to the end through a buffer of any positive
    size, across buffered, next and searched chunks and cache evictions, returns the
    archive, in at most one call per byte and one for the end. *)
Theorem buffered_reader_reads_archive r content read_chunk n :
  DynReaderSpec.opened r -> DynReaderSpec.sorted r ->
  DynReader.index_bytes r = Ok (Z.of_nat (length content)) ->
  BufferedSpec.store_ok r content read_chunk -> ~ BufferedSpec.store_failed r read_chunk -> 0 < n ->
  exists b, Buffered.new r = Ok b /\
    BufferedSpec.read_to_end read_chunk (S (length content)) n b = Some (Ok content).
Proof.
  intros Ho%DynReaderSpec.dyn_opened_ok Hs Hb Hst Hnf Hn.
  pose proof (DynReaderSpec.do_pos r Ho).
  unfold DynReader.index_bytes in Hb. rewrite (proj2 (Z.eqb_neq _ _)) in Hb by lia.
  rewrite DynReaderSpec.chunk_end_eq in Hb by (done || lia). injection Hb as Hb.
  destruct (BufferedSpec.dyn_new_spec r (conj Ho Hs) content) as (b & Hnew & Hinv & Hz).
  exists b. split; [done|].
  rewrite (BufferedSpec.read_to_end_spec r (conj Ho Hs) content (eq_sym Hb)) by (done || lia).
  by rewrite Hz.
Qed.

(** ** Sequences of reads and seeks *)
Module BufferedRun.
Import Buffered.

(** Readers reachable from [new] by reads, seeks and positioned reads; the store
    may answer differently, or fail, at every call. *)
Inductive reachable (r : DynReader.DynamicIndexReader) (content : list byte)
    : BufferedDynamicReader -> Prop :=
  | r_new b : new r = Ok b -> reachable r content b
  | r_read read_chunk n b res b' :
      reachable r content b -> BufferedSpec.store_ok r content read_chunk -> 0 <= n ->
      read read_chunk n b = (res, b') -> reachable r content b'
  | r_seek o b res b' :
      reachable r content b -> in_u64 o -> seek (Start o) b = (res, b') ->
      reachable r content b'.

Lemma reachable_inv r content b :
  DynReaderSpec.reader_sorted r ->
  Z.of_nat (length content) = DynReaderSpec.entry_end r (DynReader.index_len r - 1) ->
  Z.of_nat (length content) <= 2 ^ 62 ->
  reachable r content b -> BufferedSpec.inv r content b.
Proof.
  intros Hr Hlen Hmax. induction 1 as [b Hnew|read_chunk n b res b' _ IH Hst Hn Hrd|o b res b' _ IH Ho Hsk].
  - destruct (BufferedSpec.dyn_new_spec r Hr content) as (b1 & Hb1 & Hinv & _).
    rewrite Hnew in Hb1. by injection Hb1 as ->.
  - by eapply BufferedSpec.read_spec in Hrd as [? _].
  - eapply BufferedSpec.seek_spec in Hsk as [? _]; [done..|lia].
Qed.
End BufferedRun.

(** Positioned reads ([LocalDynamicReadAt::start_read_at]) on a reader in any
    state that reads, seeks and store failures can lead to: they never panic; an
    offset past the end is refused; otherwise the call returns bytes of the archive at that
    offset, at most as many as asked for and at least one before the end, or the
    error of a store that failed. *)
Theorem buffered_read_at_correct r content read_chunk b n off :
  DynReaderSpec.opened r -> DynReaderSpec.sorted r ->
  DynReader.index_bytes r = Ok (Z.of_nat (length content)) -> Z.of_nat (length content) <= 2 ^ 62 ->
  BufferedRun.reachable r content b -> BufferedSpec.store_ok r content read_chunk ->
  0 <= n -> in_u64 off ->
  let '(res, b') := Buffered.start_read_at read_chunk n off b in
  is_panic res = false /\
  (Z.of_nat (length content) < off -> is_err res = true) /\
  (is_err res = true -> Z.of_nat (length content) < off \/ BufferedSpec.store_failed r read_chunk) /\
  (forall bytes, res = Ok bytes ->
     bytes = take (length bytes) (drop (Z.to_nat off) content) /\
     Z.of_nat (length bytes) <= n /\
     (0 < n -> off < Z.of_nat (length content) -> bytes <> [])).
Proof.
  intros Ho%DynReaderSpec.dyn_opened_ok Hs Hb Hmax Hreach Hst Hn Hoff.
  pose proof (DynReaderSpec.do_pos r Ho).
  unfold DynReader.index_bytes in Hb. rewrite (proj2 (Z.eqb_neq _ _)) in Hb by lia.
  rewrite DynReaderSpec.chunk_end_eq in Hb by (done || lia). injection Hb as Hb. symmetry in Hb.
  pose proof (BufferedRun.reachable_inv r content b (conj Ho Hs) Hb Hmax Hreach) as Hinv.
  unfold Buffered.start_read_at. destruct (Buffered.seek _ b) as [r1 b1] eqn:Es.
  eapply BufferedSpec.seek_spec in Es as [Hinv1 Hsk]; [|done..|lia].
  case_decide as Hin; last first.
  { destruct Hsk as [He ->]. unfold in_u64 in Hoff.
    destruct r1; [done| |done]. split_and!; try done. intros _. left. lia. }
  destruct Hsk as [-> Hro]. destruct (Buffered.read _ n b1) as [res b'] eqn:Er.
  eapply BufferedSpec.read_spec in Er as (_ & Hnp & Herr & Hok); [|done..].
  split_and!; [done|lia|intros He; right; by apply Herr|].
  intros bytes ->. rewrite Hro, <- Hb in Hok. destruct (Hok _ eq_refl) as (? & ? & _ & ?). done.
Qed.

(** ** Witnesses *)
Module DynWitness.
Definition sha (l : list byte) : list byte := take 32 (l ++ replicate 32 x00).
Definition uu : list byte := replicate 16 x01.
Definition d1 : digest := replicate 32 x02.
Definition d2 : digest := replicate 32 x03.
Definition es : list (Z * digest) := [(2, d1); (5, d2)].
Definition content : list byte := [x61; x62; x63; x64; x65].
Definition store (d : digest) : res (list byte) :=
  if decide (d = d1) then Ok [x61; x62] else Ok [x63; x64; x65].

Lemma dyn_sha_len l : length (sha l) = 32%nat.
Proof. unfold sha. rewrite length_take, length_app, length_replicate. lia. Qed.
Lemma es_ok : DynFile.entries_ok es.
Proof. by repeat (constructor; [done|]). Qed.
Lemma file_len : Z.of_nat (length (DynFile.didx_file sha uu 7 es)) <= ADDRESS_SPACE.
Proof.
  unfold DynFile.didx_file. by rewrite length_app, DynFile.dyn_length_header by (done || apply dyn_sha_len).
Qed.
Definition r : DynReader.DynamicIndexReader := DynFile.reader_of sha uu 7 es.
Lemma r_opened : DynReaderSpec.opened r.
Proof.
  exists {| f_regular := true; f_data := DynFile.didx_file sha uu 7 es |}, (Some 8192).
  split; [|exact file_len]. apply DynFile.dyn_reader_new_file; try done; first [apply dyn_sha_len|apply es_ok|apply file_len].
Qed.
Lemma r_at pos : 0 <= pos < 2 -> DynReader.index_at r pos =
  match es !! Z.to_nat pos with
  | Some e => Ok {| end_le := le_bytes 8 e.1; de_digest := e.2 |}
  | None => Panic "index out of bounds"
  end.
Proof. intros. apply DynFile.reader_of_at; [apply dyn_sha_len|done|apply es_ok|lia]. Qed.
Lemma r_ends pos : 0 <= pos < 2 -> DynReaderSpec.entry_end r pos = if pos =? 0 then 2 else 5.
Proof.
  intros Hp. unfold DynReaderSpec.entry_end. rewrite r_at by done.
  assert (pos = 0 \/ pos = 1) as [-> | ->] by lia; done.
Qed.
Lemma r_starts pos : 0 <= pos < 2 -> DynReaderSpec.start_of r pos = if pos =? 0 then 0 else 2.
Proof.
  intros Hp. unfold DynReaderSpec.start_of. destruct (pos =? 0) eqn:E; [done|]. zify_bool.
  rewrite r_ends by lia. assert (pos = 1) as -> by lia. done.
Qed.
Lemma r_sorted : DynReaderSpec.sorted r.
Proof.
  intros pos Hp. change (DynReader.index_len r) with 2 in Hp. rewrite r_starts, r_ends by done.
  by destruct (pos =? 0).
Qed.
Lemma r_bytes : DynReader.index_bytes r = Ok (Z.of_nat (length content)).
Proof.
  pose proof (DynReaderSpec.dyn_opened_ok r r_opened) as Hok. unfold DynReader.index_bytes.
  change (DynReader.index_len r) with 2. simpl.
  rewrite DynReaderSpec.chunk_end_eq by done. by rewrite r_ends.
Qed.
Lemma r_digest pos d : 0 <= pos -> DynReader.index_digest r pos = Some d ->
  (pos = 0 /\ d = d1) \/ (pos = 1 /\ d = d2).
Proof.
  intros Hp. unfold DynReader.index_digest, DynReader.chunk_digest.
  change (DynReader.index_len r) with 2. destruct (2 <=? pos) eqn:E; [done|]. zify_bool.
  rewrite r_at by lia. assert (pos = 0 \/ pos = 1) as [-> | ->] by lia; simpl; intros [= <-]; auto.
Qed.
Lemma store_fine : BufferedSpec.store_ok r content store.
Proof.
  intros pos d Hd Hp. apply r_digest in Hd as [[-> ->]|[-> ->]]; [..|done];
    (split; [done|]); rewrite r_starts, r_ends by done; by intros ? [= <-].
Qed.
Lemma store_never_fails : ~ BufferedSpec.store_failed r store.
Proof.
  intros (k & d & Hk & Hd & Hf). apply r_digest in Hd as [[-> ->]|[-> ->]]; [done..|lia].
Qed.
End DynWitness.

Lemma dynamic_chunk_from_offset_correct_witness : exists idx i,
  DynReader.chunk_from_offset DynWitness.r 3 = Ok (Some (idx, 3 - range_start i)).
Proof.
  destruct (dynamic_chunk_from_offset_correct DynWitness.r 3 DynWitness.r_opened ltac:(done))
    as (total & Ht & H). rewrite DynWitness.r_bytes in Ht. injection Ht as <-.
  destruct H as (idx & i & H & _). exists idx, i. exact H.
Defined.

Lemma dynamic_roundtrip_witness : exists data csum,
  DynFile.upload DynWitness.sha 7 DynWitness.uu "a.didx" "a.tmp_didx" DynWitness.es ∅
  = (Ok csum, <[("a.didx" : string) := data]> (delete "a.tmp_didx" ∅)).
Proof.
  destruct (dynamic_roundtrip DynWitness.sha 7 DynWitness.uu "a.didx" "a.tmp_didx" DynWitness.es ∅ 8192
    DynWitness.dyn_sha_len eq_refl ltac:(done) DynWitness.es_ok ltac:(done) ltac:(done) ltac:(done))
    as (data & csum & r & Hu & _).
  exists data, csum. exact Hu.
Defined.

Lemma buffered_reader_reads_archive_witness : exists b,
  Buffered.new DynWitness.r = Ok b /\
  BufferedSpec.read_to_end DynWitness.store 6 2 b = Some (Ok DynWitness.content).
Proof.
  exact (buffered_reader_reads_archive DynWitness.r DynWitness.content DynWitness.store 2
    DynWitness.r_opened DynWitness.r_sorted DynWitness.r_bytes DynWitness.store_fine
    DynWitness.store_never_fails ltac:(done)).
Defined.

Lemma buffered_read_at_correct_witness : exists b,
  Buffered.new DynWitness.r = Ok b /\
  is_panic (Buffered.start_read_at DynWitness.store 2 1 b).1 = false.
Proof.
  destruct (BufferedSpec.dyn_new_spec DynWitness.r
    (conj (DynReaderSpec.dyn_opened_ok _ DynWitness.r_opened) DynWitness.r_sorted) DynWitness.content)
    as (b & Hb & _). exists b. split; [exact Hb|].
  pose proof (buffered_read_at_correct DynWitness.r DynWitness.content DynWitness.store b 2 1
    DynWitness.r_opened DynWitness.r_sorted DynWitness.r_bytes ltac:(done)
    (BufferedRun.r_new _ _ b Hb) DynWitness.store_fine ltac:(done) ltac:(done)) as H.
  destruct (Buffered.start_read_at _ _ _ _) as [res b']. exact (proj1 H).
Defined.
