(* ===== verification/ChunkerSpec.v ===== *)
(** * Correctness of the chunkers

    The reference definition of a boundary mentions only the bytes since the last
    boundary: their number and the hash of the last 64 of them.  [scan] with its ring
    buffer and rolling hash finds exactly the first such boundary, whatever the sizes of
    the buffers it is fed, for all chunks of a stream. *)

From S2P Require Import Prelude Chunker.
From Stdlib Require Import Strings.Byte.

(** ** Rotation and the rolling hash *)
Module Hash.
Definition U32 : Z := 2 ^ 32.

Lemma testbit_high a i : 0 <= a < U32 -> 32 <= i -> Z.testbit a i = false.
Proof.
  intros Ha Hi. destruct (decide (a = 0)) as [->|]; [by rewrite Z.bits_0|].
  apply Z.bits_above_log2; [lia|]. assert (Z.log2 a < 32); [|lia].
  apply Z.log2_lt_pow2; [lia|]. unfold U32 in Ha. lia.
Qed.

Lemma range_of_bits a : 0 <= a -> (forall i, 32 <= i -> Z.testbit a i = false) -> a < U32.
Proof.
  intros Ha Hb. destruct (decide (a < U32)) as [|Hge]; [done|].
  assert (2 ^ 32 <= a) as Hge2 by (unfold U32 in Hge; lia).
  assert (32 <= Z.log2 a) as Hl by (apply (Z.log2_le_pow2 a 32); lia).
  specialize (Hb (Z.log2 a) Hl). rewrite Z.bit_log2 in Hb by lia. done.
Qed.

Lemma rotl1_testbit a i :
  0 <= a < U32 -> 0 <= i ->
  Z.testbit (rotate_left1 a) i = if i <? 32 then Z.testbit a ((i - 1) mod 32) else false.
Proof.
  intros Ha Hi. unfold rotate_left1.
  rewrite Z.lor_spec, Z.land_spec, Z.shiftr_spec, Z.shiftl_spec by done.
  replace (2 ^ 32 - 1) with (Z.ones 32) by done.
  destruct (i <? 32) eqn:E; zify_bool.
  - rewrite Z.ones_spec_low, andb_true_r by lia. destruct (decide (i = 0)) as [->|].
    + rewrite Z.testbit_neg_r by lia. done.
    + rewrite (testbit_high a (i + 31)), orb_false_r by (done || lia).
      rewrite Z.mod_small by lia. done.
  - rewrite Z.ones_spec_high, andb_false_r by lia. rewrite testbit_high by (done || lia). done.
Qed.

Lemma rotl1_range a : 0 <= a < U32 -> 0 <= rotate_left1 a < U32.
Proof.
  intros Ha. assert (0 <= rotate_left1 a).
  { unfold rotate_left1. apply Z.lor_nonneg. split; [apply Z.land_nonneg; right; done|].
    apply Z.shiftr_nonneg. lia. }
  split; [done|]. apply range_of_bits; [done|]. intros i Hi.
  rewrite rotl1_testbit by (done || lia). by rewrite (proj2 (Z.ltb_ge _ _)).
Qed.

Lemma lxor_range a b : 0 <= a < U32 -> 0 <= b < U32 -> 0 <= Z.lxor a b < U32.
Proof.
  intros Ha Hb. assert (0 <= Z.lxor a b) by (apply Z.lxor_nonneg; lia). split; [done|].
  apply range_of_bits; [done|]. intros i Hi. by rewrite Z.lxor_spec, !testbit_high by lia.
Qed.

Lemma rotl1_lxor a b : 0 <= a < U32 -> 0 <= b < U32 ->
  rotate_left1 (Z.lxor a b) = Z.lxor (rotate_left1 a) (rotate_left1 b).
Proof.
  intros Ha Hb. apply Z.bits_inj'. intros i Hi.
  rewrite Z.lxor_spec, !rotl1_testbit by (done || by apply lxor_range).
  destruct (i <? 32); [|done]. by rewrite Z.lxor_spec.
Qed.

Lemma rotl_range n a : 0 <= a < U32 -> 0 <= Nat.iter n rotate_left1 a < U32.
Proof. intros Ha. induction n as [|n IH]; [done|]. by apply rotl1_range. Qed.

Lemma rotl_testbit n a i : 0 <= a < U32 -> 0 <= i < 32 ->
  Z.testbit (Nat.iter n rotate_left1 a) i = Z.testbit a ((i - Z.of_nat n) mod 32).
Proof.
  intros Ha. revert i. induction n as [|n IH]; intros i Hi.
  - simpl. rewrite Z.sub_0_r, Z.mod_small by lia. done.
  - simpl. rewrite rotl1_testbit by (by apply rotl_range || lia).
    rewrite (proj2 (Z.ltb_lt _ _)) by lia.
    rewrite IH by (apply Z.mod_pos_bound; lia). f_equal.
    Z.to_euclidean_division_equations. lia.
Qed.

(** Rotating a 32 bit word 64 times is the identity: the rotation of the byte
    that leaves the window can be skipped. *)
Lemma rotl_64 a : 0 <= a < U32 -> Nat.iter 64 rotate_left1 a = a.
Proof.
  intros Ha. apply Z.bits_inj'. intros i Hi. destruct (decide (i < 32)).
  - rewrite rotl_testbit by (done || lia). f_equal. Z.to_euclidean_division_equations. lia.
  - rewrite !testbit_high; [done|done|lia|by apply rotl_range|lia].
Qed.

Lemma buzhash_range b : 0 <= buzhash b < U32.
Proof.
  unfold buzhash.
  assert (Forall (fun z => 0 <= z < U32) BUZHASH_TABLE) as Hall.
  { apply (bool_decide_unpack _). by vm_compute. }
  pose proof (byte_to_Z_range b) as Hb.
  destruct (lookup_lt_is_Some_2 BUZHASH_TABLE (Z.to_nat (byte_to_Z b))) as [z Hz].
  { change (length BUZHASH_TABLE) with 256%nat. lia. }
  rewrite (list_lookup_total_correct _ _ _ Hz). by eapply Forall_lookup_1 in Hall.
Qed.

(** The Buzhash of a list of bytes. *)
Definition hash_step (a : Z) (b : byte) : Z := Z.lxor (rotate_left1 a) (buzhash b).
Definition hash (w : list byte) : Z := foldl hash_step 0 w.

Lemma hash_snoc w b : hash (w ++ [b]) = Z.lxor (rotate_left1 (hash w)) (buzhash b).
Proof. unfold hash. by rewrite foldl_app. Qed.

Lemma hash_range w : 0 <= hash w < U32.
Proof.
  induction w as [|b w IH] using rev_ind; [done|].
  rewrite hash_snoc. apply lxor_range; [by apply rotl1_range|apply buzhash_range].
Qed.

Lemma hash_cons b w :
  hash (b :: w) = Z.lxor (Nat.iter (length w) rotate_left1 (buzhash b)) (hash w).
Proof.
  induction w as [|c w IH] using rev_ind.
  - unfold hash. simpl. unfold hash_step. change (rotate_left1 0) with 0.
    by rewrite Z.lxor_0_l, Z.lxor_0_r.
  - rewrite app_comm_cons, !hash_snoc, IH, length_app. simpl. rewrite Nat.add_1_r.
    rewrite rotl1_lxor by (apply rotl_range, buzhash_range || apply hash_range).
    by rewrite Z.lxor_assoc.
Qed.

(** Rolling a full window by one byte. *)
Lemma hash_roll leave w enter : length w = 63%nat ->
  Z.lxor (Z.lxor (rotate_left1 (hash (leave :: w))) (buzhash leave)) (buzhash enter)
  = hash (w ++ [enter]).
Proof.
  intros Hw. rewrite hash_snoc, hash_cons, Hw.
  rewrite rotl1_lxor by (apply rotl_range, buzhash_range || apply hash_range).
  rewrite <- Nat.iter_succ, rotl_64 by apply buzhash_range. f_equal.
  rewrite (Z.lxor_comm (buzhash leave)), Z.lxor_assoc, Z.lxor_nilpotent. apply Z.lxor_0_r.
Qed.
End Hash.

(** ** The reference boundaries *)
Module Ref.
Import Buz.

(** The last 64 bytes of a chunk. *)
Definition last64 (d : list byte) : list byte := drop (length d - 64) d.

(** Whether a chunk ends after the bytes [d]. *)
Definition boundary (c : ChunkerImpl) (d : list byte) : bool :=
  (64 <? length d)%nat &&
  (if chunk_size_max c <=? Z.of_nat (length d) then true
   else if Z.of_nat (length d) <? chunk_size_min c then false
   else break_test_minimum c <=? Z.land (Hash.hash (last64 d)) (break_test_mask c)).

(** The first boundary after [d] in [data], counted from [pos]; 0 if there is none. *)
Fixpoint first_boundary (c : ChunkerImpl) (d data : list byte) (pos : nat) : nat :=
  match data with
  | [] => 0
  | b :: data =>
      if boundary c (d ++ [b]) then S pos else first_boundary c (d ++ [b]) data (S pos)
  end.

Lemma first_boundary_skip c d xs data pos :
  (length d + length xs <= 64)%nat ->
  first_boundary c d (xs ++ data) pos = first_boundary c (d ++ xs) data (pos + length xs).
Proof.
  revert d pos. induction xs as [|x xs IH]; intros d pos Hl; simpl in *.
  { by rewrite app_nil_r, Nat.add_0_r. }
  unfold boundary at 1. rewrite length_app. simpl.
  rewrite (proj2 (Nat.ltb_ge _ _)) by lia. simpl.
  rewrite IH by (rewrite length_app; simpl; lia). rewrite <- (assoc_L (++)). simpl. f_equal. lia.
Qed.

Lemma first_boundary_pos c d data pos :
  first_boundary c d data pos =
    if decide (first_boundary c d data 0 = 0)%nat then 0%nat
    else (pos + first_boundary c d data 0)%nat.
Proof.
  revert d pos. induction data as [|b data IH]; intros d pos; simpl; [done|].
  destruct (boundary c (d ++ [b])); [simpl; lia|].
  rewrite (IH (d ++ [b]) (S pos)), (IH (d ++ [b]) 1%nat).
  destruct (decide (first_boundary c (d ++ [b]) data 0 = 0%nat)); [done|]. simpl. lia.
Qed.

(** Splitting the data does not change the boundary. *)
Lemma first_boundary_app c d a b :
  first_boundary c d (a ++ b) 0 =
    if decide (first_boundary c d a 0 = 0)%nat
    then first_boundary c (d ++ a) b (length a) else first_boundary c d a 0.
Proof.
  revert d. induction a as [|x a IH]; intros d; simpl.
  { by rewrite app_nil_r. }
  destruct (boundary c (d ++ [x])); [done|].
  rewrite (first_boundary_pos c (d ++ [x]) (a ++ b)), (first_boundary_pos c (d ++ [x]) a 1), IH.
  rewrite <- (assoc_L (++)). simpl.
  rewrite (first_boundary_pos c (d ++ x :: a) b (length a)),
    (first_boundary_pos c (d ++ x :: a) b (S (length a))).
  repeat case_decide; simpl in *; lia.
Qed.

Lemma first_boundary_spec c d data :
  let n := first_boundary c d data 0 in
  (n <= length data)%nat /\
  (n <> 0%nat -> boundary c (d ++ take n data) = true) /\
  (forall k, (0 < k <= length data)%nat -> (n = 0 \/ k < n)%nat ->
     boundary c (d ++ take k data) = false).
Proof.
  revert d. induction data as [|b data IH]; intros d; simpl; [naive_solver lia|].
  destruct (boundary c (d ++ [b])) eqn:E.
  - split_and!; [lia|done|]. intros k ? ?. lia.
  - rewrite first_boundary_pos. destruct (IH (d ++ [b])) as (H1 & H2 & H3). clear IH.
    case_decide as Hz; split_and!; try lia.
    + intros [|k] ? _; [lia|]. simpl. destruct k as [|k]; [done|].
      specialize (H3 (S k)). rewrite <- (assoc_L (++)) in H3. apply H3; lia.
    + intros _. simpl. specialize (H2 Hz). by rewrite <- (assoc_L (++)) in H2.
    + intros [|k] ? Hk; [lia|]. simpl. destruct k as [|k]; [done|].
      specialize (H3 (S k)). rewrite <- (assoc_L (++)) in H3. apply H3; lia.
Qed.
End Ref.

(** ** [ChunkerImpl::scan] finds the reference boundaries *)
Module ScanSpec.
Import Buz Ref.

Definition same_params (c c' : ChunkerImpl) : Prop :=
  chunk_size_min c' = chunk_size_min c /\ chunk_size_max c' = chunk_size_max c /\
  break_test_mask c' = break_test_mask c /\ break_test_minimum c' = break_test_minimum c.

(** The ring buffer and the hash for the bytes [d] since the last boundary. *)
Record win_inv (c : ChunkerImpl) (d : list byte) : Prop := {
  wi_len : length (window c) = 64%nat;
  wi_size : window_size c = (64 `min` length d)%nat;
  wi_hash : h c = Hash.hash (last64 d);
  wi_ring i x : d !! i = Some x -> (length d <= i + 64)%nat -> window c !! (i mod 64)%nat = Some x;
}.
Record inv (c : ChunkerImpl) (d : list byte) : Prop := {
  ci_win : win_inv c d;
  ci_size : chunk_size c = Z.of_nat (length d);
}.

Lemma last64_small d : (length d <= 64)%nat -> last64 d = d.
Proof. intros. unfold last64. by replace (length d - 64)%nat with 0%nat by lia. Qed.

Lemma ring_insert c d b :
  win_inv c d -> forall i x, (d ++ [b]) !! i = Some x -> (length (d ++ [b]) <= i + 64)%nat ->
  <[(length d mod 64)%nat := b]> (window c) !! (i mod 64)%nat = Some x.
Proof.
  intros [Hl _ _ Hr] i x Hi Hle. rewrite length_app in Hle. simpl in Hle.
  assert (i < length d + 1)%nat as Hlt.
  { apply lookup_lt_Some in Hi. rewrite length_app in Hi. simpl in Hi. lia. }
  destruct (decide (i = length d)) as [->|Hne].
  - rewrite list_lookup_middle in Hi by done. injection Hi as <-.
    apply list_lookup_insert_eq. rewrite Hl. apply Nat.mod_upper_bound. lia.
  - rewrite list_lookup_insert_ne.
    + rewrite lookup_app_l in Hi by lia. apply Hr; [done|lia].
    + intros Heq. assert (i < length d < i + 64)%nat as Hd by lia.
      clear -Heq Hd. rewrite (Nat.div_mod_eq i 64), (Nat.div_mod_eq (length d) 64) in Hd. lia.
Qed.

Lemma fill_step_spec c d b :
  win_inv c d -> (length d < 64)%nat -> win_inv (fill_step c b) (d ++ [b]).
Proof.
  intros Hw Hd. pose proof Hw as [Hl Hs Hh Hr].
  split; cbn [fill_step set_state window window_size h].
  - by rewrite length_insert.
  - rewrite Hs, length_app. cbn [length]. lia.
  - rewrite Hh, !last64_small by (rewrite ?length_app; simpl; lia). by rewrite Hash.hash_snoc.
  - intros i x Hi Hle. rewrite Hs. rewrite Nat.min_r by lia.
    rewrite <- (Nat.mod_small (length d) 64) by lia. by apply ring_insert.
Qed.

Lemma fill_spec xs c d :
  win_inv c d -> (length d + length xs <= 64)%nat ->
  win_inv (foldl fill_step c xs) (d ++ xs) /\
  chunk_size (foldl fill_step c xs) = chunk_size c /\ same_params c (foldl fill_step c xs).
Proof.
  revert c d. induction xs as [|x xs IH]; intros c d Hw Hl; simpl in *.
  { rewrite app_nil_r. split_and!; [done|done|by repeat split]. }
  pose proof (fill_step_spec c d x Hw ltac:(lia)) as Hw'.
  destruct (IH _ _ Hw') as (H1 & H2 & H3 & H4 & H5 & H6).
  { rewrite length_app. simpl. lia. }
  rewrite <- (assoc_L (++)) in H1. split_and!; [done|done|by split_and!].
Qed.

Lemma last64_roll d b : (64 <= length d)%nat ->
  exists leave w, d !! (length d - 64)%nat = Some leave /\ last64 d = leave :: w /\
    length w = 63%nat /\ last64 (d ++ [b]) = w ++ [b].
Proof.
  intros Hd. destruct (lookup_lt_is_Some_2 d (length d - 64)) as [leave Hx]; [lia|].
  exists leave, (drop (S (length d - 64)) d). unfold last64.
  rewrite (drop_S _ _ _ Hx), length_drop, length_app. simpl.
  split_and!; [done|done|lia|]. rewrite drop_app_le by lia. do 2 f_equal. lia.
Qed.

Lemma reset_inv c d : win_inv c d -> inv (ChunkerImpl_reset c) [].
Proof. intros [Hl _ _ _]. by repeat split. Qed.

Lemma land_63 n : Z.land (Z.of_nat n) 63 = Z.of_nat (n mod 64).
Proof.
  change 63 with (2 ^ 6 - 1). rewrite land_pred_pow2 by lia. change (2 ^ 6) with 64.
  rewrite Nat2Z.inj_mod. done.
Qed.

Lemma roll_step_spec c d b :
  inv c d -> (64 <= length d)%nat -> Z.of_nat (length d) < U64_MAX ->
  let idx := Z.to_nat (Z.land (chunk_size c) 63) in
  let leave := default x00 (window c !! idx) in
  let h' := Z.lxor (Z.lxor (rotate_left1 (h c)) (buzhash leave)) (buzhash b) in
  inv (set_state h' (window_size c) (u64 (chunk_size c + 1)) (<[idx := b]> (window c)) c)
    (d ++ [b]).
Proof.
  intros [Hw Hsz] Hd Hmax. pose proof Hw as [Hl Hs Hh Hr].
  cbv zeta. rewrite Hsz, land_63, Nat2Z.id.
  destruct (last64_roll d b Hd) as (leave & w & Hx & Hl64 & Hw63 & Hl64').
  assert (window c !! (length d mod 64)%nat = Some leave) as Hleave.
  { specialize (Hr (length d - 64)%nat leave Hx ltac:(lia)).
    replace (length d mod 64)%nat with ((length d - 64) mod 64)%nat; [done|].
    replace (length d) with (length d - 64 + 1 * 64)%nat at 2 by lia.
    by rewrite Nat.Div0.mod_add. }
  rewrite Hleave. cbn [default]. split; [split|]; cbn [window window_size h chunk_size set_state].
  - by rewrite length_insert.
  - rewrite Hs, length_app. cbn [length]. lia.
  - rewrite Hh, Hl64, Hl64'. by apply Hash.hash_roll.
  - by apply ring_insert.
  - rewrite u64_small by (unfold in_u64; lia). rewrite length_app. simpl. lia.
Qed.

#[global] Instance same_params_equiv : Equivalence same_params.
Proof.
  unfold same_params. split; repeat intros ?; naive_solver congruence.
Qed.

Lemma boundary_params c c' d : same_params c c' -> boundary c' d = boundary c d.
Proof. intros (E1 & E2 & E3 & E4). unfold boundary. by rewrite E1, E2, E3, E4. Qed.
Lemma first_boundary_params c c' d data pos :
  same_params c c' -> first_boundary c' d data pos = first_boundary c d data pos.
Proof.
  intros Hp. revert d pos. induction data as [|b data IH]; intros d pos; simpl; [done|].
  by rewrite (boundary_params _ _ _ Hp), IH.
Qed.

Lemma shall_break_spec c d : inv c d -> (64 < length d)%nat -> shall_break c = boundary c d.
Proof.
  intros [[_ _ Hh _] Hs] Hd. unfold shall_break, boundary. rewrite Hs, Hh.
  by rewrite (proj2 (Nat.ltb_lt _ _)) by done.
Qed.

Lemma roll_spec data c d pos :
  inv c d -> (64 <= length d)%nat -> Z.of_nat (length d + length data) <= U64_MAX ->
  let '(n, c') := roll c data pos in
  n = first_boundary c d data pos /\ same_params c c' /\
  if decide (n = 0)%nat then inv c' (d ++ data) else inv c' [].
Proof.
  revert c d pos. induction data as [|b data IH]; intros c d pos Hi Hd Hmax.
  { simpl. split_and!; [done..|]. by rewrite app_nil_r. }
  cbn [roll first_boundary]. cbn [length] in Hmax.
  pose proof (roll_step_spec c d b Hi Hd ltac:(lia)) as Hi'. cbv zeta in Hi' |- *.
  set (c1 := set_state _ _ _ _ c) in *.
  assert (same_params c c1) as Hp by by repeat split.
  rewrite (shall_break_spec c1 (d ++ [b])) by (done || rewrite length_app; simpl; lia).
  rewrite (boundary_params c c1) by done.
  destruct (boundary c (d ++ [b])).
  - split_and!; [done|by repeat split|]. simpl. by eapply reset_inv, Hi'.
  - assert (64 <= length (d ++ [b]))%nat by (rewrite length_app; lia).
    assert (Z.of_nat (length (d ++ [b]) + length data) <= U64_MAX)
      by (rewrite length_app; cbn [length]; lia).
    specialize (IH c1 (d ++ [b]) (S pos) Hi' ltac:(done) ltac:(done)).
    destruct (roll c1 data (S pos)) as [n c']. destruct IH as (-> & Hp' & Hc').
    rewrite (first_boundary_params c c1) in * by done.
    split_and!; [done|by etrans|]. by rewrite <- (assoc_L (++)) in Hc'.
Qed.

Lemma win_inv_set_size c d n :
  win_inv c d -> win_inv (set_state (h c) (window_size c) n (window c) c) d.
Proof. intros [? ? ? ?]. by split. Qed.

Lemma scan_spec c d data :
  inv c d -> Z.of_nat (length d + length data) <= U64_MAX ->
  let '(n, c') := ChunkerImpl_scan c data in
  n = first_boundary c d data 0 /\ same_params c c' /\
  if decide (n = 0)%nat then inv c' (d ++ data) else inv c' [].
Proof.
  intros Hi Hmax. pose proof Hi as [Hw Hs]. unfold ChunkerImpl_scan, CA_CHUNKER_WINDOW_SIZE.
  rewrite (wi_size _ _ Hw). destruct (_ <? _)%nat eqn:E.
  2: { apply Nat.ltb_ge in E. apply roll_spec; [done|lia|done]. }
  apply Nat.ltb_lt in E. rewrite (Nat.min_r 64 (length d)) in * by lia.
  set (k := ((64 - length d) `min` length data)%nat).
  assert (length (take k data) = k) as Hk by (rewrite length_take; lia).
  destruct (fill_spec (take k data) c d Hw) as (Hw' & Hs' & Hp); [rewrite Hk; lia|].
  set (c1 := foldl fill_step c (take k data)) in *.
  rewrite Hs', Hs, u64_small by (unfold in_u64; lia).
  set (c2 := set_state _ _ _ _ c1).
  assert (inv c2 (d ++ take k data)) as Hi2.
  { split; [by apply win_inv_set_size|]. simpl. rewrite length_app, Hk. lia. }
  assert (same_params c c2) as Hp2 by exact Hp. clearbody c1 c2.
  rewrite (wi_size _ _ (ci_win _ _ Hi2)), length_app, Hk.
  assert (first_boundary c d data 0 = first_boundary c (d ++ take k data) (drop k data) k) as ->.
  { rewrite <- (take_drop k data) at 1. rewrite first_boundary_skip by (rewrite Hk; lia).
    by rewrite Hk. }
  destruct (_ <? _)%nat eqn:E2.
  - apply Nat.ltb_lt in E2. rewrite drop_ge by lia. simpl. rewrite take_ge in Hi2 by lia. done.
  - apply Nat.ltb_ge in E2.
    pose proof (roll_spec (drop k data) c2 (d ++ take k data) k Hi2) as Hroll.
    rewrite length_app, Hk, length_drop in Hroll. specialize (Hroll ltac:(lia) ltac:(lia)).
    destruct (roll c2 (drop k data) k) as [n c']. destruct Hroll as (-> & Hp' & Hc').
    rewrite (first_boundary_params c c2) in * by done.
    split_and!; [done|by etrans|]. by rewrite <- (assoc_L (++)), take_drop in Hc'.
Qed.
End ScanSpec.

(** ** What a chunk stream relies on *)
Class ChunkerLaws (C : Type) `{Chunker C} := {
  scan_total c data ctx :
    Z.of_nat (length data) <= ctx_total ctx -> 0 <= ctx_base ctx ->
    ctx_base ctx + ctx_total ctx <= U64_MAX ->
    exists n c', scan c data ctx = (Ok n, c') /\ (n <= length data)%nat;
}.

Lemma roll_le data c pos : ((Buz.roll c data pos).1 <= pos + length data)%nat.
Proof.
  revert c pos. induction data as [|b data IH]; intros c pos; simpl; [lia|].
  case_if; simpl; [lia|]. etrans; [apply IH|]. lia.
Qed.
Lemma scan_le c data : ((Buz.ChunkerImpl_scan c data).1 <= length data)%nat.
Proof.
  unfold Buz.ChunkerImpl_scan. case_if; [|apply (roll_le data c 0)].
  case_if; simpl; [lia|]. etrans; [apply roll_le|]. rewrite length_drop. lia.
Qed.

#[export] Instance ChunkerImpl_laws : ChunkerLaws Buz.ChunkerImpl.
Proof.
  split. intros c data ctx _ _ _. simpl. pose proof (scan_le c data) as Hle.
  destruct (Buz.ChunkerImpl_scan c data) as [n c']. eauto.
Qed.

Module PayloadSpec.
Import Buz Payload.

(** A cut is at the boundary, inside of the data, and gives a chunk of an allowed size. *)
Lemma decide_boundary_cut c boundary pos ctx len :
  0 <= pos <= ctx_total ctx -> 0 <= ctx_base ctx -> ctx_base ctx + ctx_total ctx <= U64_MAX ->
  decide_boundary c boundary pos ctx = Cut len ->
  0 < len <= ctx_total ctx - pos /\ ctx_base ctx + pos + len = boundary /\
  chunk_size_min c <= pos + len <= chunk_size_max c.
Proof.
  intros Hpos Hb Hmax. unfold decide_boundary.
  rewrite !(u64_small (ctx_base ctx + _)) by (unfold in_u64; lia).
  destruct (boundary <? _) eqn:E1; [done|]. destruct (_ <? boundary) eqn:E2; [done|]. zify_bool.
  rewrite (u64_small (boundary - ctx_base ctx)) by (unfold in_u64; lia).
  destruct (_ <? chunk_size_min c) eqn:E3; [done|]. destruct (_ <=? chunk_size_max c) eqn:E4; [|done].
  zify_bool. rewrite (u64_small (boundary - ctx_base ctx - pos)) by (unfold in_u64; lia).
  destruct (_ =? 0) eqn:E5; [done|]. zify_bool. intros [= <-]. lia.
Qed.

(** The outcome of a scan: a cut at one of the suggested boundaries, or the
    result of the regular scan. *)
Lemma payload_loop_spec queue c current data pos ctx :
  0 <= pos -> pos + Z.of_nat (length data) = ctx_total ctx -> 0 <= ctx_base ctx ->
  ctx_base ctx + ctx_total ctx <= U64_MAX ->
  let '(n, p) := payload_loop c current queue data pos ctx in
  (exists boundary, (current = Some boundary \/ boundary ∈ queue) /\
     ctx_base ctx + pos + Z.of_nat n = boundary /\ (0 < n <= length data)%nat /\
     chunk_size_min c <= pos + Z.of_nat n <= chunk_size_max c /\
     chunker p = ChunkerImpl_reset c)
  \/ (n, chunker p) = ChunkerImpl_scan c data.
Proof.
  intros Hpos Htot Hb Hmax. revert current. induction queue as [|b queue IH]; intros current; simpl.
  - destruct current as [bd|]; [destruct (decide_boundary c bd pos ctx) as [|k|len] eqn:Ed|];
      [destruct (ChunkerImpl_scan c data); by right..| |destruct (ChunkerImpl_scan c data); by right].
    apply decide_boundary_cut in Ed; [|lia..]. left. exists bd. simpl. rewrite Z2Nat.id by lia.
    split_and!; (by left) || done || lia.
  - destruct current as [bd|]; [destruct (decide_boundary c bd pos ctx) as [|k|len] eqn:Ed|].
    + specialize (IH (Some b)). destruct (payload_loop _ _ _ _ _ _) as [n p].
      destruct IH as [(x & Hx & H)|IH]; [left; exists x; split; [set_solver|done]|by right].
    + destruct (ChunkerImpl_scan c data); by right.
    + apply decide_boundary_cut in Ed; [|lia..]. left. exists bd. simpl. rewrite Z2Nat.id by lia.
      split_and!; (by left) || done || lia.
    + specialize (IH (Some b)). destruct (payload_loop _ _ _ _ _ _) as [n p].
      destruct IH as [(x & Hx & H)|IH]; [left; exists x; split; [set_solver|done]|by right].
Qed.
End PayloadSpec.

#[export] Instance PayloadChunker_laws : ChunkerLaws Payload.PayloadChunker.
Proof.
  split. intros p data ctx Hd Hb Hmax. simpl. unfold Payload.PayloadChunker_scan.
  rewrite (proj2 (Z.ltb_ge _ _)) by lia.
  pose proof (PayloadSpec.payload_loop_spec (Payload.suggested_boundaries p) (Payload.chunker p)
    (Payload.current_suggested p) data (ctx_total ctx - Z.of_nat (length data)) ctx) as H.
  destruct (Payload.payload_loop _ _ _ _ _ _) as [n p'].
  specialize (H ltac:(lia) ltac:(lia) Hb Hmax). eexists _, _. split; [done|].
  destruct H as [(x & _ & _ & ? & _)|H]; [lia|].
  pose proof (scan_le (Payload.chunker p) data) as Hle. by rewrite <- H in Hle.
Qed.

(** ** Main theorems *)

(** A stream is fed to one chunker buffer by buffer: as long as [scan] reports a boundary, the
    rest of the buffer is scanned again, with the chunker as the boundary left it.  The result is
    the list of the sizes of the chunks that were cut; [acc] counts the bytes of the current one. *)
Fixpoint scan_buffer (fuel : nat) (c : Buz.ChunkerImpl) (buffer : list byte) (acc : nat)
    : list nat * (nat * Buz.ChunkerImpl) :=
  match fuel with
  | O => ([], (acc, c))
  | S fuel =>
      let '(n, c) := Buz.ChunkerImpl_scan c buffer in
      if (n =? 0)%nat then ([], (acc + length buffer, c))%nat else
      let '(l, st) := scan_buffer fuel c (drop n buffer) 0 in ((acc + n)%nat :: l, st)
  end.
Fixpoint scan_stream (c : Buz.ChunkerImpl) (pieces : list (list byte)) (acc : nat) : list nat :=
  match pieces with
  | [] => []
  | p :: pieces =>
      let '(l, (acc, c)) := scan_buffer (S (length p)) c p acc in l ++ scan_stream c pieces acc
  end.

Module Cuts.
Import Buz Ref ScanSpec.

(** No chunk ends inside or at the end of [d]. *)
Definition unbroken (c : ChunkerImpl) (d : list byte) : Prop :=
  forall k, boundary c (take k d) = false.
(** The sizes of the chunks of a stream: every chunk ends at the first boundary after its
    start, and what is left after the last one has no boundary. *)
Inductive cut_at (c : ChunkerImpl) : list byte -> list nat -> Prop :=
  | cut_end data : unbroken c data -> cut_at c data []
  | cut_next chunk data l :
      boundary c chunk = true -> (forall k, (k < length chunk)%nat -> boundary c (take k chunk) = false) ->
      cut_at c data l -> cut_at c (chunk ++ data) (length chunk :: l).

Lemma new_inv avg c : ChunkerImpl_new avg = Ok c -> inv c [].
Proof. unfold ChunkerImpl_new. case_if; [done|]. intros [= <-]. by repeat split. Qed.
Lemma unbroken_nil c : unbroken c [].
Proof. intros k. by rewrite take_nil. Qed.
Lemma unbroken_params c c' d : same_params c c' -> unbroken c d -> unbroken c' d.
Proof. intros Hp Hu k. by rewrite (boundary_params c c'). Qed.
Lemma cut_at_params c c' d l : same_params c c' -> cut_at c' d l -> cut_at c d l.
Proof.
  intros Hp. induction 1 as [d Hu|x d l Hb Hk Hc IH].
  - apply cut_end. eapply unbroken_params; [by symmetry|done].
  - rewrite (boundary_params c c') in Hb by done. apply cut_next; [done| |done].
    intros k Hl. rewrite <- (boundary_params c c') by done. by apply Hk.
Qed.

Lemma before_boundary c d data k :
  unbroken c d -> (k <= length d + length data)%nat ->
  (first_boundary c d data 0 = 0 \/ k < length d + first_boundary c d data 0)%nat ->
  boundary c (take k (d ++ data)) = false.
Proof.
  intros Hu Hk Hn. destruct (first_boundary_spec c d data) as (_ & _ & H).
  destruct (decide (k <= length d)%nat) as [Hle|Hgt]; [rewrite take_app_le by done; apply Hu|].
  rewrite take_app_ge by lia. apply H; lia.
Qed.
Lemma no_boundary c d data : unbroken c d -> first_boundary c d data 0 = 0%nat -> unbroken c (d ++ data).
Proof.
  intros Hu Hz k. destruct (decide (k <= length d + length data)%nat) as [Hk|Hk].
  - apply before_boundary; [done..|by left].
  - rewrite take_ge by (rewrite length_app; lia). rewrite <- (take_ge (d ++ data) (length d + length data)) by (rewrite length_app; lia).
    apply before_boundary; [done..|by left].
Qed.
Lemma next_cut c d data rest l :
  unbroken c d -> let n := first_boundary c d data 0 in n <> 0%nat ->
  cut_at c (drop n data ++ rest) l -> cut_at c (d ++ data ++ rest) ((length d + n)%nat :: l).
Proof.
  intros Hu n Hn Hc. destruct (first_boundary_spec c d data) as (Hle & Hb & _). fold n in Hle, Hb.
  assert (length (d ++ take n data) = (length d + n)%nat) as Hl by (rewrite length_app, length_take; lia).
  rewrite <- (take_drop n data), <- (assoc_L (++)), (assoc_L (++)), <- Hl at 1.
  apply cut_next; [by apply Hb| |done]. intros k Hk.
  replace (take k (d ++ take n data)) with (take k (d ++ data)); [apply before_boundary; [done|lia|right; fold n; lia]|].
  rewrite <- (take_drop n data) at 1. rewrite (assoc_L (++)). by rewrite take_app_le by lia.
Qed.

Lemma scan_buffer_spec fuel c d buffer :
  inv c d -> unbroken c d -> (length buffer < fuel)%nat -> Z.of_nat (length d + length buffer) <= U64_MAX ->
  let '(l, (acc, c')) := scan_buffer fuel c buffer (length d) in
  exists d', acc = length d' /\ inv c' d' /\ unbroken c' d' /\ same_params c c' /\
    (length d' <= length d + length buffer)%nat /\
    forall rest ls, cut_at c (d' ++ rest) ls -> cut_at c (d ++ buffer ++ rest) (l ++ ls).
Proof.
  revert c d buffer. induction fuel as [|fuel IH]; intros c d buffer Hi Hu Hf Hmax; [lia|]. cbn [scan_buffer].
  pose proof (scan_spec c d buffer Hi Hmax) as Hs. destruct (ChunkerImpl_scan c buffer) as [n c'].
  destruct Hs as (En & Hp & Hi'). destruct (decide (n = 0%nat)) as [->|Hn].
  - exists (d ++ buffer). rewrite length_app. split_and!; [done..| |done|done|].
    + eapply unbroken_params; [done|]. by apply no_boundary.
    + intros rest ls. by rewrite <- (assoc_L (++)).
  - rewrite (proj2 (Nat.eqb_neq _ _)) by done. destruct (first_boundary_spec c d buffer) as (Hle & _). rewrite <- En in Hle.
    specialize (IH c' [] (drop n buffer) Hi' (unbroken_nil _)). rewrite length_drop in IH. cbn [length] in IH.
    specialize (IH ltac:(lia) ltac:(lia)). destruct (scan_buffer fuel c' _ 0) as [l [acc c2]].
    destruct IH as (d' & -> & Hi2 & Hu2 & Hp2 & Hl & Hc). exists d'.
    split_and!; [done..|by etrans|lia|]. intros rest ls Hr. rewrite En. rewrite <- app_comm_cons. apply next_cut; [done|congruence|].
    rewrite <- En. apply (cut_at_params c c'); [done|]. apply Hc. apply (cut_at_params c' c); [by symmetry|done].
Qed.

Lemma scan_stream_spec pieces c d :
  inv c d -> unbroken c d -> Z.of_nat (length d + length (concat pieces)) <= U64_MAX ->
  cut_at c (d ++ concat pieces) (scan_stream c pieces (length d)).
Proof.
  revert c d. induction pieces as [|p pieces IH]; intros c d Hi Hu Hmax; cbn [scan_stream concat] in *.
  { rewrite app_nil_r. by apply cut_end. }
  rewrite length_app in Hmax. pose proof (scan_buffer_spec (S (length p)) c d p Hi Hu ltac:(lia) ltac:(lia)) as Hb.
  destruct (scan_buffer (S (length p)) c p (length d)) as [l [acc c']]. destruct Hb as (d' & -> & Hi' & Hu' & Hp & Hl & Hc).
  apply Hc. apply (cut_at_params c c'); [done|]. apply IH; [done..|lia].
Qed.

(** The bounds of the size of a chunk. *)
Lemma boundary_max c d :
  (64 < length d)%nat -> chunk_size_max c <= Z.of_nat (length d) -> boundary c d = true.
Proof.
  intros Hl Hm. unfold boundary. by rewrite (proj2 (Nat.ltb_lt _ _)), (proj2 (Z.leb_le _ _)).
Qed.
Lemma boundary_min c d :
  chunk_size_min c <= chunk_size_max c -> boundary c d = true -> chunk_size_min c <= Z.of_nat (length d).
Proof.
  unfold boundary. intros Hm [_ Hb]%andb_true_iff. destruct (_ <=? Z.of_nat _) eqn:E; zify_bool; [lia|].
  destruct (_ <? chunk_size_min c) eqn:E2; zify_bool; [done|lia].
Qed.
Lemma unbroken_max c d : 64 < chunk_size_max c -> unbroken c d -> Z.of_nat (length d) < chunk_size_max c.
Proof.
  intros Hm Hu. destruct (decide (Z.of_nat (length d) < chunk_size_max c)) as [|Hge]; [done|].
  pose proof (Hu (length d)) as Hf. rewrite take_ge in Hf by done. rewrite boundary_max in Hf; [done|lia..].
Qed.
Lemma cut_at_sizes c data l :
  64 < chunk_size_max c -> chunk_size_min c <= chunk_size_max c -> cut_at c data l ->
  Forall (fun n => chunk_size_min c <= Z.of_nat n <= chunk_size_max c) l /\
  Z.of_nat (sum_list l) <= Z.of_nat (length data) < Z.of_nat (sum_list l) + chunk_size_max c.
Proof.
  intros Hm Hmin. induction 1 as [d Hu|x d l Hb Hk Hc [IH1 IH2]].
  - apply unbroken_max in Hu; [|done]. split; [done|]. cbn. lia.
  - assert (Z.of_nat (length x) <= chunk_size_max c) as Hx.
    { destruct (decide (Z.of_nat (length x) <= chunk_size_max c)) as [|Hgt]; [done|].
      specialize (Hk (Z.to_nat (chunk_size_max c)) ltac:(lia)). rewrite boundary_max in Hk; [done|rewrite length_take; lia..]. }
    apply boundary_min in Hb; [|done]. split; [by constructor|]. cbn [sum_list]. rewrite length_app.
    change (sum_list_with id l) with (sum_list l). cbn [id]. lia.
Qed.
End Cuts.

(** C35.  Content defined chunking.  However a stream is split into the buffers that one chunker
    is fed, the chunks that [ChunkerImpl::scan] cuts, one after the other, are those of the
    content: each ends at the first position at which the bytes since the last boundary are more
    than 64, and are the maximal size, or at least the minimal size with a Buzhash of
    their last 64 bytes that passes the break test; after the last one there is no such position.
    The ring buffer, the rolling update of the hash (which skips the rotation of the leaving
    byte) and the reset at a boundary are exact. *)
Theorem chunker_content_defined avg c pieces :
  Buz.ChunkerImpl_new avg = Ok c -> Z.of_nat (length (concat pieces)) <= U64_MAX ->
  Cuts.cut_at c (concat pieces) (scan_stream c pieces 0).
Proof.
  intros Hnew Hmax. apply (Cuts.scan_stream_spec pieces c []);
    [by eapply Cuts.new_inv|apply Cuts.unbroken_nil|done].
Qed.

(** C39.  Chunk sizes.  With an average size of at least 256 bytes, every chunk that
    [scan] cuts from a stream has a quarter to four times the average size, and what is left
    after the last chunk is smaller than four times the average size. *)
Theorem chunker_size_bounds avg c pieces :
  Buz.ChunkerImpl_new avg = Ok c -> 256 <= avg <= 2 ^ 30 ->
  Z.of_nat (length (concat pieces)) <= U64_MAX ->
  let l := scan_stream c pieces 0 in
  Forall (fun n => avg / 4 <= Z.of_nat n <= avg * 4) l /\
  Z.of_nat (sum_list l) <= Z.of_nat (length (concat pieces)) < Z.of_nat (sum_list l) + avg * 4.
Proof.
  intros Hnew Havg Hmax. cbv zeta.
  assert (Buz.chunk_size_min c = avg / 4 /\ Buz.chunk_size_max c = avg * 4) as [Hmin Hmx].
  { unfold Buz.ChunkerImpl_new in Hnew. case_if_in Hnew; [done|]. injection Hnew as <-. simpl.
    rewrite Z.shiftr_div_pow2, Z.shiftl_mul_pow2 by done. split; [done|].
    rewrite u64_small; [done|unfold in_u64, U64_MAX; lia]. }
  rewrite <- Hmin, <- Hmx. apply Cuts.cut_at_sizes; [lia|Z.to_euclidean_division_equations; lia|].
  apply (Cuts.scan_stream_spec pieces c []); [by eapply Cuts.new_inv|apply Cuts.unbroken_nil|done].
Qed.

(** [PayloadChunker::scan] with its queue of suggested boundaries: it never
    panics on a buffer of the stated size, and either cuts at a
    suggested boundary that lies in the buffer and gives a chunk between the
    minimal and the maximal size, resetting the hash, or returns exactly what
    the regular scan returns. *)
Theorem payload_scan_correct p data ctx :
  Z.of_nat (length data) <= ctx_total ctx -> 0 <= ctx_base ctx ->
  ctx_base ctx + ctx_total ctx <= U64_MAX ->
  let pos := ctx_total ctx - Z.of_nat (length data) in
  exists n p', Payload.PayloadChunker_scan p data ctx = (Ok n, p') /\
  ((exists boundary,
      (Payload.current_suggested p = Some boundary \/ boundary ∈ Payload.suggested_boundaries p) /\
      ctx_base ctx + pos + Z.of_nat n = boundary /\ (0 < n <= length data)%nat /\
      Buz.chunk_size_min (Payload.chunker p) <= pos + Z.of_nat n
        <= Buz.chunk_size_max (Payload.chunker p) /\
      Payload.chunker p' = Buz.ChunkerImpl_reset (Payload.chunker p))
   \/ (n, Payload.chunker p') = Buz.ChunkerImpl_scan (Payload.chunker p) data).
Proof.
  intros Hd Hb Hmax. cbv zeta. unfold Payload.PayloadChunker_scan.
  rewrite (proj2 (Z.ltb_ge _ _)) by lia.
  pose proof (PayloadSpec.payload_loop_spec (Payload.suggested_boundaries p) (Payload.chunker p)
    (Payload.current_suggested p) data (ctx_total ctx - Z.of_nat (length data)) ctx) as H.
  destruct (Payload.payload_loop _ _ _ _ _ _) as [n p'].
  exists n, p'. split; [done|]. apply H; lia.
Qed.

(** ** Witnesses *)
(** A stream of two buffers of bytes that do not repeat. *)
Module ChunkerExample.
Fixpoint noise (n : nat) (x : Z) : list byte :=
  match n with
  | O => []
  | S n =>
      let x := (x * 1103515245 + 12345) `mod` 2 ^ 31 in
      default x00 (Byte.of_N (Z.to_N (Z.shiftr x 16 `mod` 256))) :: noise n x
  end.
Definition stream : list (list byte) := [noise 1000 1; noise 700 2 ++ replicate 1100 x61].
(** Seven chunks: the fourth one spans both buffers, the last one has the maximal size. *)
Definition sizes : list nat := [94; 71; 141; 886; 125; 238; 1024]%nat.
End ChunkerExample.

Lemma chunker_content_defined_witness : exists c,
  Buz.ChunkerImpl_new 256 = Ok c /\ scan_stream c ChunkerExample.stream 0 = ChunkerExample.sizes /\
  Cuts.cut_at c (concat ChunkerExample.stream) ChunkerExample.sizes.
Proof.
  destruct (Buz.ChunkerImpl_new 256) as [c| |] eqn:E; [|discriminate E..].
  assert (scan_stream c ChunkerExample.stream 0 = ChunkerExample.sizes) as Hs.
  { injection E as <-. vm_compute. reflexivity. }
  exists c. split; [reflexivity|]. split; [exact Hs|]. rewrite <- Hs.
  apply (chunker_content_defined 256 c ChunkerExample.stream E). vm_compute. discriminate.
Defined.

Lemma chunker_size_bounds_witness : exists c,
  Buz.ChunkerImpl_new 256 = Ok c /\ scan_stream c ChunkerExample.stream 0 = ChunkerExample.sizes /\
  Forall (fun n => 64 <= Z.of_nat n <= 1024) ChunkerExample.sizes.
Proof.
  destruct (Buz.ChunkerImpl_new 256) as [c| |] eqn:E; [|discriminate E..].
  assert (scan_stream c ChunkerExample.stream 0 = ChunkerExample.sizes) as Hs.
  { injection E as <-. vm_compute. reflexivity. }
  exists c. split; [reflexivity|]. split; [exact Hs|]. rewrite <- Hs.
  apply (chunker_size_bounds 256 c ChunkerExample.stream E).
  - split; vm_compute; discriminate.
  - vm_compute. discriminate.
Defined.

Lemma payload_scan_correct_witness : exists p n p',
  Payload.PayloadChunker_new 4 [2] = Ok p /\
  Payload.PayloadChunker_scan p [x61; x62; x63] {| ctx_base := 0; ctx_total := 3 |} = (Ok n, p').
Proof.
  destruct (Payload.PayloadChunker_new 4 [2]) as [p| |] eqn:E; [|discriminate E..].
  destruct (payload_scan_correct p [x61; x62; x63] {| ctx_base := 0; ctx_total := 3 |}
    ltac:(done) ltac:(done) ltac:(done)) as (n & p' & H & _).
  exists p, n, p'. split; [reflexivity|exact H].
Defined.
