(* ===== verification/ClientStreams.v ===== *)
(** * The upload pipeline of the client

    [pbs-client/src/chunk_stream.rs]: [ChunkStream] cuts a byte stream at the boundaries
    of a [Chunker] and at forced boundaries where reused chunks are injected,
    [FixedChunkStream] cuts it into chunks of one size.
    [pbs-client/src/inject_reused_chunks.rs]: [InjectReusedChunksQueue] puts the reused
    entries between the raw chunks.  [pbs-client/src/merge_known_chunks.rs]:
    [MergeKnownChunksQueue] batches the known ones.

    A stream is the list of what successive polls of it return: an item, or
    nothing yet; it ends with the list.  [poll_next] recurses on its input, as
    the loop of the source polls once per turn. *)

From S2P Require Import Prelude Chunker ChunkerSpec.
From Stdlib Require Import Strings.Byte.

Inductive event (A : Type) := Item (r : res A) | Wait.
Arguments Item {A} _.
Arguments Wait {A}.

(** [Poll<Option<Result<A, Error>>>] *)
Inductive poll (A : Type) := Pending | Ready (r : option (res A)).
Arguments Pending {A}.
Arguments Ready {A} _.

(** [struct InjectChunks]; the entries themselves are not inspected here. *)
Record InjectChunks (E : Type) := {
  inject_boundary : Z;
  inject_chunks : list E;
  inject_size : Z;
}.
Arguments inject_boundary {E} _.
Arguments inject_chunks {E} _.
Arguments inject_size {E} _.

Module ChunkStream.
Section stream.
Context {C : Type} `{Chunker C} {E : Type}.

(** [boundaries] and [injections] are the messages in the two channels. *)
Record InjectionData := {
  boundaries : list (InjectChunks E);
  next_boundary : option (InjectChunks E);
  injections : list (InjectChunks E);
}.

Record t := {
  input_is_done : bool;
  chunker : C;
  buffer : list byte;
  scan_pos : nat;
  consumed : Z;
  injection_data : option InjectionData;
}.

Definition new (c : C) (inj : option InjectionData) : t :=
  {| input_is_done := false; chunker := c; buffer := []; scan_pos := 0; consumed := 0;
     injection_data := inj |}.

Definition set_chunker (c : C) (s : t) : t :=
  {| input_is_done := input_is_done s; chunker := c; buffer := buffer s; scan_pos := scan_pos s;
     consumed := consumed s; injection_data := injection_data s |}.
Definition set_scan_pos (n : nat) (s : t) : t :=
  {| input_is_done := input_is_done s; chunker := chunker s; buffer := buffer s; scan_pos := n;
     consumed := consumed s; injection_data := injection_data s |}.
Definition set_injection (i : InjectionData) (s : t) : t :=
  {| input_is_done := input_is_done s; chunker := chunker s; buffer := buffer s;
     scan_pos := scan_pos s; consumed := consumed s; injection_data := Some i |}.
Definition set_buffer (b : list byte) (consumed : Z) (s : t) : t :=
  {| input_is_done := input_is_done s; chunker := chunker s; buffer := b;
     scan_pos := scan_pos s; consumed := consumed; injection_data := injection_data s |}.
Definition set_done (s : t) : t :=
  {| input_is_done := true; chunker := chunker s; buffer := buffer s;
     scan_pos := 0; consumed := consumed s; injection_data := injection_data s |}.

Definition context (s : t) : Context :=
  {| ctx_base := consumed s; ctx_total := Z.of_nat (length (buffer s)) |}.

(** [self.buffer.split_to(chunk_size)], which panics past the end; the rest of
    the buffer is scanned from its start. *)
Definition split_chunk (chunk_size : Z) (s : t) : res (list byte) * t :=
  if Z.of_nat (length (buffer s)) <? chunk_size then (Panic "split_to out of bounds", s)
  else (Ok (take (Z.to_nat chunk_size) (buffer s)),
        set_scan_pos 0 (set_buffer (drop (Z.to_nat chunk_size) (buffer s))
                          (u64 (consumed s + chunk_size)) s)).

(** A queued forced boundary: [Ok (Some chunk)] is returned to the caller. *)
Definition inject_phase (s : t) : res (option (list byte)) * t :=
  match injection_data s with
  | None => (Ok None, s)
  | Some i =>
      let '(next, queue) :=
        match next_boundary i, boundaries i with
        | None, b :: bs => (Some b, bs)
        | n, bs => (n, bs)
        end in
      match next with
      | None => (Ok None, s)
      | Some inject =>
          let taken sent nxt := {| boundaries := queue; next_boundary := nxt; injections := sent |} in
          let '(r, c) :=
            if (scan_pos s <? length (buffer s))%nat
            then scan (chunker s) (drop (scan_pos s) (buffer s)) (context s)
            else (Ok 0%nat, chunker s) in
          let s := set_chunker c (set_injection (taken (injections i) None) s) in
          try! pos := r for s in
          let chunk_boundary :=
            if (pos =? 0)%nat then u64 (consumed s + Z.of_nat (length (buffer s)))
            else u64 (consumed s + Z.of_nat (scan_pos s + pos)) in
          if inject_boundary inject <=? chunk_boundary then
            let! raw_chunk, s := split_chunk (u64 (inject_boundary inject - consumed s)) s in
            let s := set_chunker (reset (chunker s)) s in
            (Ok (Some raw_chunk),
             set_injection (taken (injections i ++ [inject]) None)
               (set_buffer (buffer s) (u64 (consumed s + inject_size inject)) s))
          else if negb (pos =? 0)%nat then
            let! raw_chunk, s := split_chunk (Z.of_nat (scan_pos s + pos)) s in
            (Ok (Some raw_chunk), set_injection (taken (injections i) (Some inject)) s)
          else
            (Ok None, set_scan_pos (length (buffer s))
                        (set_injection (taken (injections i) (Some inject)) s))
      end
  end.

(** The regular scan of what was not scanned yet. *)
Definition scan_phase (s : t) : res (option (list byte)) * t :=
  if (scan_pos s <? length (buffer s))%nat then
    let '(r, c) := scan (chunker s) (drop (scan_pos s) (buffer s)) (context s) in
    let s := set_chunker c s in
    try! boundary := r for s in
    let chunk_size := (scan_pos s + boundary)%nat in
    if (boundary =? 0)%nat then (Ok None, set_scan_pos (length (buffer s)) s)
    else if (chunk_size <=? length (buffer s))%nat then
      let! raw_chunk, s := split_chunk (Z.of_nat chunk_size) s in (Ok (Some raw_chunk), s)
    else (Panic "got unexpected chunk boundary from chunker", s)
  else (Ok None, s).

Definition phases (s : t) : res (option (list byte)) * t :=
  let! chunk, s := inject_phase s in
  match chunk with
  | Some chunk => (Ok (Some chunk), s)
  | None => scan_phase s
  end.

Fixpoint poll_next (s : t) (input : list (event (list byte)))
    : poll (list byte) * (t * list (event (list byte))) :=
  match phases s with
  | (Panic e, s) => (Ready (Some (Panic e)), (s, input))
  | (Err e, s) => (Ready (Some (Err e)), (s, input))
  | (Ok (Some chunk), s) => (Ready (Some (Ok chunk)), (s, input))
  | (Ok None, s) =>
      if input_is_done s then (Ready None, (s, input)) else
      match input with
      | [] =>
          let s := set_done s in
          match buffer s with
          | [] => (Ready None, (s, []))
          | bytes => (Ready (Some (Ok bytes)), (set_buffer [] (consumed s) s, []))
          end
      | Wait :: input => (Pending, (s, input))
      | Item (Err e) :: input => (Ready (Some (Err e)), (s, input))
      | Item (Panic e) :: input => (Ready (Some (Panic e)), (s, input))
      | Item (Ok data) :: input =>
          poll_next (set_buffer (buffer s ++ data) (consumed s) s) input
      end
  end.
End stream.
Arguments t : clear implicits.
Arguments InjectionData : clear implicits.
End ChunkStream.

(** ** [FixedChunkStream] *)
Module FixedChunkStream.
Record t := { chunk_size : nat; buffer : list byte; done : bool }.

Definition new (chunk_size : nat) : t :=
  {| chunk_size := chunk_size; buffer := []; done := false |}.
Definition set (b : list byte) (d : bool) (s : t) : t :=
  {| chunk_size := chunk_size s; buffer := b; done := d |}.

Fixpoint poll_loop (s : t) (input : list (event (list byte)))
    : poll (list byte) * (t * list (event (list byte))) :=
  if (chunk_size s <=? length (buffer s))%nat then
    (Ready (Some (Ok (take (chunk_size s) (buffer s)))),
     (set (drop (chunk_size s) (buffer s)) (done s) s, input))
  else
    match input with
    | [] =>
        match buffer s with
        | [] => (Ready None, (set [] true s, []))
        | bytes => (Ready (Some (Ok bytes)), (set [] true s, []))
        end
    | Wait :: input => (Pending, (s, input))
    | Item (Err e) :: input => (Ready (Some (Err e)), (s, input))
    | Item (Panic e) :: input => (Ready (Some (Panic e)), (s, input))
    | Item (Ok data) :: input => poll_loop (set (buffer s ++ data) (done s) s) input
    end.

Definition poll_next (s : t) (input : list (event (list byte))) :=
  if done s then (Ready None, (s, input)) else poll_loop s input.
End FixedChunkStream.

(** ** [InjectReusedChunksQueue]

    Polling the input may also put messages into the injection channel (the
    chunk stream sends them), so every event carries the messages that come
    with it.  [offset] is the [total_stream_len] of the upload counters. *)
Module InjectQueue.
Section queue.
Context {E : Type}.
Inductive InjectedChunksInfo := Known (entries : list E) | Raw (chunk : list byte).

Record t := {
  next_injection : option (InjectChunks E);
  injections : option (list (InjectChunks E));
}.

Definition input_t := list (event (list byte) * list (InjectChunks E)).

(** [injections.try_recv()] when there is no next injection. *)
Definition receive (s : t) : t :=
  match next_injection s, injections s with
  | None, Some (i :: q) => {| next_injection := Some i; injections := Some q |}
  | _, _ => s
  end.

Definition arrive (msgs : list (InjectChunks E)) (s : t) : t :=
  {| next_injection := next_injection s;
     injections := match injections s with Some q => Some (q ++ msgs) | None => None end |}.

Definition inject_now (s : t) (offset : Z) : option (res InjectedChunksInfo) * t :=
  let s := receive s in
  match next_injection s with
  | None => (None, s)
  | Some inject =>
      let s' := {| next_injection := None; injections := injections s |} in
      match inject_boundary inject ?= offset with
      | Eq => (Some (Ok (Known (inject_chunks inject))), s')
      | Gt => (None, s)
      | Lt => (Some (Err "invalid injection boundary"), s')
      end
  end.

Fixpoint poll_next (s : t) (offset : Z) (input : input_t)
    : poll InjectedChunksInfo * (t * input_t) :=
  match inject_now s offset with
  | (Some r, s) => (Ready (Some r), (s, input))
  | (None, s) =>
      match input with
      | [] =>
          let remaining :=
            match injections s with
            | Some q => bool_decide (is_Some (next_injection s)) || negb (bool_decide (q = []))
            | None => false
            end in
          (if remaining then Ready (Some (Err "injection queue not fully consumed"))
           else Ready None, (s, []))
      | (Wait, msgs) :: input => (Pending, (arrive msgs s, input))
      | (Item (Err e), msgs) :: input => (Ready (Some (Err e)), (arrive msgs s, input))
      | (Item (Panic e), msgs) :: input => (Ready (Some (Panic e)), (arrive msgs s, input))
      | (Item (Ok []), msgs) :: input => poll_next (arrive msgs s) offset input
      | (Item (Ok raw), msgs) :: input => (Ready (Some (Ok (Raw raw))), (arrive msgs s, input))
      end
  end.
End queue.
Arguments InjectedChunksInfo : clear implicits.
Arguments t : clear implicits.
Arguments input_t : clear implicits.
End InjectQueue.

(** ** [MergeKnownChunksQueue] *)
Module MergeQueue.
Section queue.
Context {D N : Type}.
Inductive MergedChunkInfo := Known (l : list (Z * D)) | New (info : N).

(** The state is the buffered element. *)
Definition t := option MergedChunkInfo.

Fixpoint poll_next (buffer : t) (input : list (event MergedChunkInfo))
    : poll MergedChunkInfo * (t * list (event MergedChunkInfo)) :=
  match input with
  | [] =>
      match buffer with
      | Some last => (Ready (Some (Ok last)), (None, []))
      | None => (Ready None, (None, []))
      end
  | Wait :: input => (Pending, (buffer, input))
  | Item (Err e) :: input => (Ready (Some (Err e)), (buffer, input))
  | Item (Panic e) :: input => (Ready (Some (Panic e)), (buffer, input))
  | Item (Ok (Known l)) :: input =>
      match buffer with
      | None => poll_next (Some (Known l)) input
      | Some (Known last_list) =>
          let last_list := last_list ++ l in
          if 64 <=? Z.of_nat (length last_list)
          then (Ready (Some (Ok (Known last_list))), (None, input))
          else poll_next (Some (Known last_list)) input
      | Some (New n) => (Ready (Some (Ok (New n))), (Some (Known l), input))
      end
  | Item (Ok (New n)) :: input =>
      match buffer with
      | Some last => (Ready (Some (Ok last)), (Some (New n), input))
      | None => (Ready (Some (Ok (New n))), (None, input))
      end
  end.
End queue.
Arguments MergedChunkInfo : clear implicits.
Arguments t : clear implicits.
End MergeQueue.
