(* ===== verification/ClientStreamsSpec.v ===== *)
(** * Correctness of the upload pipeline

    Bytes are neither lost, duplicated nor reordered by the chunk streams, the
    cuts of [ChunkStream] do not depend on how its input arrives, forced
    boundaries are where they were requested, and the queues behind it keep the order. *)

From S2P Require Import Prelude Chunker ChunkerSpec ClientStreams.
From Stdlib Require Import Strings.Byte.

(** The data that a stream delivers. *)
Fixpoint data_of (input : list (event (list byte))) : list byte :=
  match input with
  | [] => []
  | Item (Ok d) :: input => d ++ data_of input
  | _ :: input => data_of input
  end.
(** A stream without errors. *)
Definition no_errors {A} (input : list (event A)) : Prop :=
  Forall (fun e => match e with Item r => is_ok r = true | Wait => True end) input.

(** Polling a stream until it ends; [None] when [fuel] is not enough. *)
Section collect.
Context {S I A : Type} (poll_next : S -> list I -> poll A * (S * list I)).
Fixpoint collect (fuel : nat) (s : S) (input : list I) : option (list (res A)) :=
  match fuel with
  | O => None
  | Datatypes.S fuel =>
      match poll_next s input with
      | (Pending, (s, input)) => collect fuel s input
      | (Ready None, _) => Some []
      | (Ready (Some r), (s, input)) => cons r <$> collect fuel s input
      end
  end.
End collect.

(** ** No byte is lost or duplicated *)
Module Conserve.
Import ChunkStream.
Section conserve.
Context {C : Type} `{Chunker C} {E : Type}.
Abbreviation stream := (ChunkStream.t C E).

(** The bytes a result hands to the caller. *)
Definition out_bytes (p : poll (list byte)) : list byte :=
  match p with Ready (Some (Ok chunk)) => chunk | _ => [] end.

Lemma split_chunk_bytes n (s : stream) r s' :
  split_chunk n s = (r, s') ->
  match r with Ok chunk => chunk | _ => [] end ++ buffer s' = buffer s /\
  input_is_done s' = input_is_done s.
Proof.
  unfold split_chunk. case_if; intros [= <- <-]; [done|]. simpl. by rewrite take_drop.
Qed.

Lemma inject_phase_bytes (s : stream) r s' :
  inject_phase s = (r, s') ->
  match r with Ok (Some chunk) => chunk | _ => [] end ++ buffer s' = buffer s /\
  input_is_done s' = input_is_done s.
Proof.
  unfold inject_phase. destruct (injection_data s) as [i|]; [|by intros [= <- <-]].
  destruct (match next_boundary i with Some _ => _ | None => _ end) as [next queue].
  destruct next as [inject|]; [|by intros [= <- <-]].
  destruct (if (_ <? _)%nat then _ else _) as [r1 c1].
  destruct r1 as [pos|x|x]; [|by intros [= <- <-]..].
  case_if.
  - destruct (split_chunk _ _) as [r2 s2] eqn:Es. apply split_chunk_bytes in Es as [Hb Hd].
    destruct r2; intros [= <- <-]; by split.
  - case_if; [|by intros [= <- <-]].
    destruct (split_chunk _ _) as [r2 s2] eqn:Es. apply split_chunk_bytes in Es as [Hb Hd].
    destruct r2; intros [= <- <-]; by split.
Qed.

Lemma scan_phase_bytes (s : stream) r s' :
  scan_phase s = (r, s') ->
  match r with Ok (Some chunk) => chunk | _ => [] end ++ buffer s' = buffer s /\
  input_is_done s' = input_is_done s.
Proof.
  unfold scan_phase. case_if; [|by intros [= <- <-]]. destruct (scan _ _ _) as [r1 c1].
  destruct r1 as [pos|x|x]; [|by intros [= <- <-]..]. case_if; [by intros [= <- <-]|].
  case_if; [|by intros [= <- <-]].
  destruct (split_chunk _ _) as [r2 s2] eqn:Es. apply split_chunk_bytes in Es as [Hb Hd].
  destruct r2; intros [= <- <-]; by split.
Qed.

Lemma phases_bytes (s : stream) r s' :
  phases s = (r, s') ->
  match r with Ok (Some chunk) => chunk | _ => [] end ++ buffer s' = buffer s /\
  input_is_done s' = input_is_done s.
Proof.
  unfold phases. destruct (inject_phase s) as [r1 s1] eqn:Ei.
  apply inject_phase_bytes in Ei as [Hb Hd].
  destruct r1 as [[chunk|]|x|x]; [by intros [= <- <-]| |by intros [= <- <-]..].
  simpl in Hb. rewrite <- Hb, <- Hd. apply scan_phase_bytes.
Qed.

Lemma poll_bytes input (s : stream) p s' input' :
  poll_next s input = (p, (s', input')) ->
  out_bytes p ++ buffer s' ++ data_of input' = buffer s ++ data_of input.
Proof.
  revert s. induction input as [|e input IH]; intros s; simpl.
  - destruct (phases s) as [r1 s1] eqn:Ep. apply phases_bytes in Ep as [Hb _].
    destruct r1 as [[chunk|]|x|x]; simpl in Hb;
      [intros [= <- <- <-]; simpl; by rewrite !app_nil_r| |
       intros [= <- <- <-]; simpl; by rewrite !app_nil_r, Hb..].
    rewrite !app_nil_r, <- Hb. case_if.
    + intros [= <- <- <-]. simpl. by rewrite app_nil_r.
    + destruct (buffer s1) as [|y ys] eqn:Eb; intros [= <- <- <-]; simpl;
        rewrite ?Eb, ?app_nil_r; done.
  - destruct (phases s) as [r1 s1] eqn:Ep. apply phases_bytes in Ep as [Hb _].
    destruct r1 as [[chunk|]|x|x]; simpl in Hb;
      [intros [= <- <- <-]; simpl; by rewrite (assoc_L (++)), Hb| |
       intros [= <- <- <-]; simpl; by rewrite Hb..].
    rewrite <- Hb. case_if; [intros [= <- <- <-]; done|].
    destruct e as [[d|x|x]|]; [|intros [= <- <- <-]; done..].
    intros Hp. apply IH in Hp. rewrite Hp. simpl. by rewrite <- (assoc_L (++)).
Qed.
End conserve.
End Conserve.

(** [ChunkStream::poll_next], with any chunker, any forced boundaries and any
    arrival of the input (buffers, pauses and errors): the bytes returned followed by
    those still buffered and those still to come are the bytes that were
    buffered and to come before the call.  No byte is lost, duplicated or moved. *)
Theorem chunk_stream_conserves_bytes {C} `{Chunker C} {E} (s : ChunkStream.t C E) input :
  let '(p, (s', input')) := ChunkStream.poll_next s input in
  Conserve.out_bytes p ++ ChunkStream.buffer s' ++ data_of input'
  = ChunkStream.buffer s ++ data_of input.
Proof.
  destruct (ChunkStream.poll_next s input) as [p [s' input']] eqn:Ep.
  by apply Conserve.poll_bytes in Ep.
Qed.

(** ** The cuts do not depend on the arrival of the input *)
Module Cuts.
Import ChunkStream Ref.
Abbreviation stream := (ChunkStream.t Buz.ChunkerImpl unit).

(** The chunks of a content, one reference boundary after the other. *)
Fixpoint ref_chunks_fuel (fuel : nat) (c : Buz.ChunkerImpl) (data : list byte) : list (list byte) :=
  match fuel, data with
  | S fuel, _ :: _ =>
      match first_boundary c [] data 0 with
      | O => [data]
      | n => take n data :: ref_chunks_fuel fuel c (drop n data)
      end
  | _, _ => []
  end.
(** A chunk has at least one byte. *)
Definition ref_chunks (c : Buz.ChunkerImpl) (data : list byte) : list (list byte) :=
  ref_chunks_fuel (length data) c data.

Section cuts.
Variable c0 : Buz.ChunkerImpl.

(** The chunker has seen the first [scan_pos] bytes of the buffer, and found no boundary. *)
Record sinv (s : stream) (rest : list byte) : Prop := {
  si_inject : injection_data s = None;
  si_params : ScanSpec.same_params c0 (chunker s);
  si_pos : (scan_pos s <= length (buffer s))%nat;
  si_chunker : input_is_done s = false ->
    ScanSpec.inv (chunker s) (take (scan_pos s) (buffer s));
  si_none : first_boundary c0 [] (take (scan_pos s) (buffer s)) 0 = 0%nat;
  si_done : input_is_done s = true -> buffer s = [] /\ rest = [];
  si_max : Z.of_nat (length (buffer s ++ rest)) <= U64_MAX;
}.

Lemma first_boundary_buffer s rest : sinv s rest ->
  first_boundary c0 [] (buffer s) 0 =
    let n := first_boundary c0 (take (scan_pos s) (buffer s)) (drop (scan_pos s) (buffer s)) 0 in
    if decide (n = 0)%nat then 0%nat else (scan_pos s + n)%nat.
Proof.
  intros [_ _ Hp _ Hn _ _]. rewrite <- (take_drop (scan_pos s) (buffer s)) at 1.
  rewrite first_boundary_app, Hn, decide_True by done. rewrite app_nil_l, first_boundary_pos.
  rewrite length_take, Nat.min_l by done. done.
Qed.

Lemma scan_phase_spec s rest : sinv s rest ->
  let n := first_boundary c0 [] (buffer s) 0 in
  exists s', sinv s' rest /\ input_is_done s' = input_is_done s /\
  if decide (n = 0)%nat
  then scan_phase s = (Ok None, s') /\ buffer s' = buffer s /\ scan_pos s' = length (buffer s)
  else scan_phase s = (Ok (Some (take n (buffer s))), s') /\ buffer s' = drop n (buffer s) /\
       (0 < n <= length (buffer s))%nat.
Proof.
  intros Hs. pose proof Hs as [Hinj Hpar Hp Hc Hn Hd Hmax]. cbv zeta.
  rewrite (first_boundary_buffer s rest Hs). cbv zeta.
  set (d := take (scan_pos s) (buffer s)) in *. set (x := drop (scan_pos s) (buffer s)).
  rewrite length_app in Hmax.
  unfold scan_phase. destruct (_ <? _)%nat eqn:Elt; last first.
  { apply Nat.ltb_ge in Elt. assert (x = []) as -> by (unfold x; apply drop_ge; lia). simpl.
    exists s. split; [done|]. split; [done|]. split_and!; [done..|lia]. }
  apply Nat.ltb_lt in Elt. cbn [scan ChunkerImpl_Chunker].
  assert (input_is_done s = false) as Hnd.
  { destruct (input_is_done s); [|done]. destruct (Hd eq_refl) as [Hb _].
    rewrite Hb in Elt. simpl in Elt. lia. }
  specialize (Hc Hnd).
  pose proof (ScanSpec.scan_spec (chunker s) d x Hc) as Hsc.
  assert (length d + length x = length (buffer s))%nat as Hlen
    by (unfold d, x; rewrite length_take, length_drop; lia).
  assert (length d = scan_pos s) as Hdl by (unfold d; rewrite length_take; lia).
  specialize (Hsc ltac:(lia)). fold x. destruct (Buz.ChunkerImpl_scan (chunker s) x) as [n c'].
  destruct Hsc as (-> & Hp' & Hi'). rewrite (ScanSpec.first_boundary_params c0 (chunker s)) in * by done.
  pose proof (first_boundary_spec c0 d x) as (Hle & _ & _).
  pose proof (first_boundary_buffer s rest Hs) as Hfb. cbv zeta in Hfb. fold d x in Hfb.
  set (n := first_boundary c0 d x 0) in *.
  destruct (decide (n = 0)%nat) as [Hz|Hz].
  - rewrite Hz. cbn [Nat.eqb]. simpl (decide (0 = 0)%nat). cbn [scan_pos set_chunker].
    eexists. split; [|split; [|rewrite decide_True by done; split_and!; [done|done|done]]]; [|done].
    split; cbn; try done.
    + by etrans.
    + by rewrite firstn_all, <- (take_drop (scan_pos s) (buffer s)).
    + by rewrite firstn_all.
    + by rewrite length_app.
  - rewrite (proj2 (Nat.eqb_neq _ _)) by done. cbn [scan_pos set_chunker buffer].
    rewrite (proj2 (Nat.leb_le _ _)) by lia. unfold split_chunk. cbn [buffer set_chunker].
    rewrite (proj2 (Z.ltb_ge _ _)) by lia. rewrite Nat2Z.id.
    eexists. split; [|split; [|rewrite decide_False by lia; split_and!; [done|done|lia|lia]]]; [|done].
    split; cbn; try done.
    + by etrans.
    + lia.
    + intros Hdn. destruct (Hd Hdn) as [Hb _]. rewrite Hb in Elt. simpl in Elt. lia.
    + rewrite length_app, length_drop. lia.
Qed.

(** A poll returns the chunk up to the first boundary of everything that is
    buffered or still to come, whether it has arrived already or not. *)
Lemma poll_spec input s p s' input' :
  sinv s (data_of input) -> no_errors input -> (input_is_done s = true -> input = []) ->
  poll_next s input = (p, (s', input')) ->
  let rem := buffer s ++ data_of input in
  let n := first_boundary c0 [] rem 0 in
  sinv s' (data_of input') /\ no_errors input' /\ (input_is_done s' = true -> input' = []) /\
  (length input' <= length input)%nat /\
  match p with
  | Pending => buffer s' ++ data_of input' = rem /\ (length input' < length input)%nat
  | Ready None => rem = []
  | Ready (Some (Ok chunk)) =>
      rem <> [] /\ chunk = (if decide (n = 0)%nat then rem else take n rem) /\
      buffer s' ++ data_of input' = if decide (n = 0)%nat then [] else drop n rem
  | _ => False
  end.
Proof.
  revert s. induction input as [|e input IH]; intros s Hs Hne Hdone.
  - cbn [poll_next data_of] in *. rewrite app_nil_r. unfold phases, inject_phase.
    rewrite (si_inject _ _ Hs).
    destruct (scan_phase_spec _ _ Hs) as (s1 & Hs1 & Hd1 & Hsp).
    set (n := first_boundary c0 [] (buffer s) 0) in *. cbv zeta in Hsp |- *.
    destruct (decide (n = 0)%nat) as [Hn|Hn]; destruct Hsp as (-> & Hb1 & Hp1); last first.
    { intros [= <- <- <-]. simpl. rewrite app_nil_r. split_and!; try done.
      intros E. rewrite E in Hp1. simpl in Hp1. lia. }
    destruct (input_is_done s1) eqn:Edone.
    { intros [= <- <- <-]. destruct (si_done _ _ Hs1 Edone) as [Hb _]. split_and!; congruence || done. }
    cbn [buffer set_done]. rewrite <- Hb1 in *. destruct Hs1 as [? ? ? ? ? ? ?].
    destruct (buffer s1) as [|y ys] eqn:Eb; intros [= <- <- <-].
    + split_and!; try done; split; cbn; rewrite ?Eb; done.
    + split_and!; try done; split; cbn; done.
  - cbn [poll_next data_of] in *. unfold phases, inject_phase. rewrite (si_inject _ _ Hs).
    destruct (scan_phase_spec _ _ Hs) as (s1 & Hs1 & Hd1 & Hsp). cbv zeta in Hsp.
    assert (input_is_done s1 = false) as Hnd.
    { rewrite Hd1. destruct (input_is_done s); [|done]. by specialize (Hdone eq_refl). }
    set (rest := data_of (e :: input)) in *. cbv zeta.
    change (match e with Item (Ok d) => d ++ data_of input | _ => data_of input end) with rest in *.
    pose proof (first_boundary_app c0 [] (buffer s) rest) as Hfa. rewrite app_nil_l in Hfa.
    set (n := first_boundary c0 [] (buffer s) 0) in *.
    destruct (decide (n = 0)%nat) as [Hn|Hn]; destruct Hsp as (-> & Hb1 & Hp1); last first.
    { intros [= <- <- <-]. rewrite Hfa, !decide_False by done. fold rest.
      split_and!; try done; [congruence| | |].
      - intros E. apply app_nil in E as [E _]. rewrite E in Hp1. simpl in Hp1. lia.
      - by rewrite take_app_le by lia.
      - by rewrite drop_app_le, Hb1 by lia. }
    rewrite Hnd. apply Forall_cons in Hne as [He Hne].
    destruct e as [[d|x|x]|]; [|done..|].
    + intros Hp. apply IH in Hp as (? & ? & ? & ? & Hp); [| |done|cbn; congruence].
      * cbn [buffer set_buffer] in Hp. rewrite Hb1, <- (assoc_L (++)) in Hp.
        change (d ++ data_of input) with rest in Hp.
        split_and!; [done..|cbn; lia|]. destruct p as [|[[chunk|x|x]|]]; try done.
        split; [apply Hp|]. cbn. lia.
      * destruct Hs1 as [? ? ? ? ? ? ?]. split; cbn; try done.
        -- rewrite length_app. lia.
        -- intros _. rewrite take_app_le by lia. auto.
        -- rewrite take_app_le by lia. done.
        -- congruence.
        -- by rewrite <- (assoc_L (++)).
    + intros [= <- <- <-]. split_and!; try done; [congruence|cbn; lia|by rewrite Hb1|cbn; lia].
Qed.

Lemma ref_chunks_fuel_enough fuel data :
  (length data <= fuel)%nat -> ref_chunks_fuel fuel c0 data = ref_chunks c0 data.
Proof.
  unfold ref_chunks. remember (length data) as k eqn:Hk.
  revert fuel data Hk. induction k as [k IH] using lt_wf_ind. intros fuel data -> Hf.
  destruct data as [|b data]; [by destruct fuel|]. destruct fuel as [|fuel]; [simpl in Hf; lia|].
  cbn [ref_chunks_fuel length]. destruct (first_boundary c0 [] (b :: data) 0) as [|n]; [done|].
  f_equal. cbn [drop length] in *.
  rewrite (IH (length (drop n data))); [|rewrite length_drop; lia|done|rewrite length_drop; lia].
  symmetry. apply IH; [rewrite length_drop; lia|done|rewrite length_drop; lia].
Qed.

Lemma ref_chunks_cons data : data <> [] ->
  ref_chunks c0 data =
    let n := first_boundary c0 [] data 0 in
    if decide (n = 0)%nat then [data] else take n data :: ref_chunks c0 (drop n data).
Proof.
  intros Hne. unfold ref_chunks at 1. destruct data as [|b data]; [done|].
  cbn [ref_chunks_fuel length]. destruct (first_boundary c0 [] (b :: data) 0) as [|n]; [done|].
  cbv zeta. rewrite decide_False by done. f_equal. apply ref_chunks_fuel_enough.
  cbn [drop]. rewrite length_drop. lia.
Qed.

Lemma collect_spec fuel input s :
  sinv s (data_of input) -> no_errors input -> (input_is_done s = true -> input = []) ->
  (length input + length (buffer s ++ data_of input) < fuel)%nat ->
  collect poll_next fuel s input = Some (Ok <$> ref_chunks c0 (buffer s ++ data_of input)).
Proof.
  revert input s. induction fuel as [|fuel IH]; intros input s Hs Hne Hd Hf; [lia|].
  cbn [collect]. destruct (poll_next s input) as [p [s' input']] eqn:Ep.
  apply poll_spec in Ep as (Hs' & Hne' & Hd' & Hle & Hp); [|done..]. cbv zeta in Hp.
  destruct p as [|[[chunk|x|x]|]]; try done.
  - destruct Hp as [Hrem Hlt]. rewrite IH by (done || rewrite Hrem; lia). by rewrite Hrem.
  - destruct Hp as (Hne2 & Hc & Hrem).
    rewrite (ref_chunks_cons (buffer s ++ data_of input)) by done. cbv zeta.
    pose proof (first_boundary_spec c0 [] (buffer s ++ data_of input)) as (Hn & _ & _).
    assert (0 < length (buffer s ++ data_of input))%nat
      by (destruct (buffer s ++ data_of input); [done|simpl; lia]).
    rewrite IH by (done || rewrite Hrem; case_decide; rewrite ?length_drop; simpl; lia).
    rewrite Hrem, Hc. by case_decide.
  - by rewrite Hp.
Qed.
End cuts.

Lemma concat_ref_chunks c data : concat (ref_chunks c data) = data.
Proof.
  remember (length data) as k eqn:Hk. revert data Hk.
  induction k as [k IH] using lt_wf_ind. intros data ->.
  destruct (decide (data = [])) as [->|Hne]; [done|]. rewrite ref_chunks_cons by done. cbv zeta.
  destruct (decide (first_boundary c [] data 0 = 0)%nat) as [Hz|Hz];
    [simpl; by rewrite app_nil_r|].
  cbn [concat]. rewrite (IH (length (drop (first_boundary c [] data 0) data))); [|..|done].
  - by rewrite take_drop.
  - rewrite length_drop. assert (0 < length data)%nat by (destruct data; [done|simpl; lia]). lia.
Qed.
End Cuts.

(** Deduplication does not depend on timing.  A [ChunkStream] over a content
    defined chunker, polled until it ends, terminates, and its chunks are the
    reference chunks of the content: concatenated they are the content, and they
    are the same however the input was split into buffers and whenever it was
    not ready. *)
Theorem chunk_stream_deterministic avg c input :
  Buz.ChunkerImpl_new avg = Ok c -> no_errors input ->
  Z.of_nat (length (data_of input)) <= U64_MAX ->
  collect ChunkStream.poll_next (S (length input + length (data_of input)))
    (ChunkStream.new (E := unit) c None) input
  = Some (Ok <$> Cuts.ref_chunks c (data_of input)) /\
  concat (Cuts.ref_chunks c (data_of input)) = data_of input.
Proof.
  intros Hnew Hne Hmax. split; [|apply Cuts.concat_ref_chunks].
  rewrite (Cuts.collect_spec c); [done| |done|done|simpl; lia].
  split; simpl; try done. intros _. by eapply Cuts.new_inv.
Qed.

(** ** Forced boundaries *)
Module Forced.
Import ChunkStream.

(** The forced boundary that is next in line, and the queue behind it. *)
Definition next_inject {E} (i : InjectionData E) : option (InjectChunks E) * list (InjectChunks E) :=
  match next_boundary i, boundaries i with
  | None, b :: bs => (Some b, bs)
  | n, bs => (n, bs)
  end.
End Forced.

(** Reused chunks are injected where they belong.  When a forced boundary is
    pending and not behind the stream, [ChunkStream] does not panic, and either
    returns the chunk that ends exactly at the forced boundary, announces the
    injection and continues after the injected size; or returns a regular chunk that
    ends before the forced boundary, which stays pending; or needs more input, because
    the forced boundary is behind the end of the buffer. *)
Theorem forced_boundary_exact {C} `{ChunkerLaws C} {E} (s : ChunkStream.t C E) i inject queue :
  ChunkStream.injection_data s = Some i -> Forced.next_inject i = (Some inject, queue) ->
  0 <= ChunkStream.consumed s <= inject_boundary inject -> 0 <= inject_size inject ->
  inject_boundary inject + inject_size inject + Z.of_nat (length (ChunkStream.buffer s)) <= U64_MAX ->
  (ChunkStream.scan_pos s <= length (ChunkStream.buffer s))%nat ->
  exists r s' i', ChunkStream.inject_phase s = (Ok r, s') /\
    ChunkStream.injection_data s' = Some i' /\ ChunkStream.boundaries i' = queue /\
    match r with
    | Some chunk =>
        ChunkStream.scan_pos s' = 0%nat /\
        ((ChunkStream.consumed s + Z.of_nat (length chunk) = inject_boundary inject /\
          ChunkStream.consumed s' = inject_boundary inject + inject_size inject /\
          ChunkStream.next_boundary i' = None /\
          ChunkStream.injections i' = ChunkStream.injections i ++ [inject])
         \/ (ChunkStream.consumed s + Z.of_nat (length chunk) < inject_boundary inject /\
             ChunkStream.consumed s' = ChunkStream.consumed s + Z.of_nat (length chunk) /\
             ChunkStream.next_boundary i' = Some inject /\
             ChunkStream.injections i' = ChunkStream.injections i /\ chunk <> []))
    | None =>
        ChunkStream.consumed s + Z.of_nat (length (ChunkStream.buffer s)) < inject_boundary inject /\
        ChunkStream.buffer s' = ChunkStream.buffer s /\
        ChunkStream.next_boundary i' = Some inject /\
        ChunkStream.injections i' = ChunkStream.injections i
    end.
Proof.
  intros Hi Hnext Hc Hsz Hmax Hpos. unfold ChunkStream.inject_phase. rewrite Hi.
  unfold Forced.next_inject in Hnext. rewrite Hnext.
  assert (exists pos c', (if (ChunkStream.scan_pos s <? length (ChunkStream.buffer s))%nat
    then scan (ChunkStream.chunker s) (drop (ChunkStream.scan_pos s) (ChunkStream.buffer s))
           (ChunkStream.context s)
    else (Ok 0%nat, ChunkStream.chunker s)) = (Ok pos, c') /\
    (ChunkStream.scan_pos s + pos <= length (ChunkStream.buffer s))%nat) as (pos & c' & -> & Hle).
  { destruct (_ <? _)%nat eqn:E1; [|eexists _, _; split; [done|lia]].
    destruct (scan_total (ChunkStream.chunker s) (drop (ChunkStream.scan_pos s) (ChunkStream.buffer s))
      (ChunkStream.context s)) as (n & c' & -> & Hn); simpl; [rewrite ?length_drop; lia..|].
    eexists _, _. split; [done|]. rewrite length_drop in Hn. lia. }
  cbv zeta beta iota. cbn [ChunkStream.consumed ChunkStream.set_chunker ChunkStream.set_injection
    ChunkStream.buffer ChunkStream.scan_pos].
  set (cb := if (pos =? 0)%nat then _ else _).
  assert (cb = ChunkStream.consumed s + Z.of_nat (if (pos =? 0)%nat
    then length (ChunkStream.buffer s) else ChunkStream.scan_pos s + pos)) as Hcb.
  { unfold cb. destruct (pos =? 0)%nat; rewrite u64_small; try done; unfold in_u64; lia. }
  assert (cb <= ChunkStream.consumed s + Z.of_nat (length (ChunkStream.buffer s))) as Hcb2
    by (rewrite Hcb; destruct (pos =? 0)%nat; lia).
  destruct (inject_boundary inject <=? cb) eqn:Ecut; zify_bool.
  - rewrite (u64_small (inject_boundary inject - _)) by (unfold in_u64; lia).
    unfold ChunkStream.split_chunk.
    cbn [ChunkStream.buffer ChunkStream.set_chunker ChunkStream.set_injection].
    rewrite (proj2 (Z.ltb_ge _ _)) by lia.
    eexists (Some _), _, _. split; [done|]. cbn. split_and!; [done..|]. left.
    rewrite length_take. rewrite (u64_small (ChunkStream.consumed s + _)) by (unfold in_u64; lia).
    split_and!; [lia| |done..]. rewrite u64_small; [lia|unfold in_u64; lia].
  - destruct (pos =? 0)%nat eqn:E0; simpl.
    + eexists None, _, _. split; [done|]. cbn. split_and!; try done; lia.
    + apply Nat.eqb_neq in E0. unfold ChunkStream.split_chunk.
    cbn [ChunkStream.buffer ChunkStream.set_chunker ChunkStream.set_injection].
      rewrite (proj2 (Z.ltb_ge _ _)) by lia.
      eexists (Some _), _, _. split; [done|]. cbn. split_and!; [done..|]. right.
      rewrite length_take, Nat2Z.id, Nat.min_l by lia.
      rewrite u64_small by (unfold in_u64; lia). split_and!; [lia|done..|].
      intros Hnil%(f_equal length). rewrite length_take in Hnil. simpl in Hnil. lia.
Qed.

(** ** Chunks of one size *)
Module FixedCuts.
Import FixedChunkStream.

(** Pieces of [n] bytes, the last one possibly shorter. *)
Fixpoint pieces_fuel (fuel n : nat) (data : list byte) : list (list byte) :=
  match fuel, data with
  | S fuel, _ :: _ => take n data :: pieces_fuel fuel n (drop n data)
  | _, _ => []
  end.
Definition pieces (n : nat) (data : list byte) : list (list byte) :=
  pieces_fuel (length data) n data.

Lemma pieces_fuel_enough fuel n data :
  (0 < n)%nat -> (length data <= fuel)%nat -> pieces_fuel fuel n data = pieces n data.
Proof.
  intros Hn. unfold pieces. remember (length data) as k eqn:Hk.
  revert fuel data Hk. induction k as [k IH] using lt_wf_ind. intros fuel data -> Hf.
  destruct data as [|b data]; [by destruct fuel|]. destruct fuel as [|fuel]; [simpl in Hf; lia|].
  cbn [pieces_fuel length]. f_equal. cbn [length] in *.
  assert (length (drop n (b :: data)) <= length data)%nat as Hl
    by (rewrite length_drop; simpl; lia).
  rewrite (IH (length (drop n (b :: data)))); [|lia|done|lia].
  symmetry. apply IH; [lia|done|lia].
Qed.

Lemma pieces_cons n data : (0 < n)%nat -> data <> [] ->
  pieces n data = take n data :: pieces n (drop n data).
Proof.
  intros Hn Hne. unfold pieces at 1. destruct data as [|b data]; [done|].
  cbn [pieces_fuel length]. f_equal. apply pieces_fuel_enough; [done|].
  rewrite length_drop. simpl. lia.
Qed.

Lemma fixed_poll_spec n input s p s' input' :
  chunk_size s = n -> (0 < n)%nat -> no_errors input -> done s = false ->
  poll_loop s input = (p, (s', input')) ->
  let rem := buffer s ++ data_of input in
  chunk_size s' = n /\ no_errors input' /\ (length input' <= length input)%nat /\
  (done s' = true -> buffer s' = [] /\ input' = []) /\
  match p with
  | Pending => buffer s' ++ data_of input' = rem /\ (length input' < length input)%nat /\ done s' = false
  | Ready None => rem = []
  | Ready (Some (Ok chunk)) =>
      rem <> [] /\ chunk = take n rem /\ buffer s' ++ data_of input' = drop n rem
  | _ => False
  end.
Proof.
  intros Hs Hn. revert s Hs. induction input as [|e input IH]; intros s Hs Hne Hd; cbn [poll_loop data_of].
  - rewrite app_nil_r. rewrite Hs. destruct (n <=? length (buffer s))%nat eqn:E.
    + apply Nat.leb_le in E. intros [= <- <- <-]. cbn. rewrite app_nil_r.
      split_and!; try done; [congruence|]. intros Hnil. rewrite Hnil in E. simpl in E. lia.
    + apply Nat.leb_gt in E. destruct (buffer s) as [|y ys] eqn:Eb; intros [= <- <- <-]; cbn.
      * split_and!; done.
      * split_and!; try done; [by rewrite take_ge by (simpl in *; lia)|by rewrite drop_ge by (simpl in *; lia)].
  - rewrite Hs. destruct (n <=? length (buffer s))%nat eqn:E.
    + apply Nat.leb_le in E. intros [= <- <- <-]. cbn.
      split_and!; try done; [congruence| |by rewrite take_app_le by lia|by rewrite drop_app_le by lia].
      intros [Hnil _]%app_nil. rewrite Hnil in E. simpl in E. lia.
    + apply Forall_cons in Hne as [He Hne]. destruct e as [[d|x|x]|]; [|done..|].
      * intros Hp. apply IH in Hp as (? & ? & ? & ? & Hp); [|done..].
        cbn [buffer set] in Hp. rewrite <- (assoc_L (++)) in Hp.
        split_and!; [done..|simpl; lia|done|].
        destruct p as [|[[c|x|x]|]]; try done. destruct Hp as (? & ? & ?). split_and!; [done|simpl; lia|done].
      * intros [= <- <- <-]. split_and!; try done; [simpl; lia|congruence|simpl; lia].
Qed.

Lemma collect_done fuel s :
  done s = true -> (0 < fuel)%nat -> collect poll_next fuel s [] = Some [].
Proof. intros Hd Hf. destruct fuel; [lia|]. simpl. unfold poll_next. by rewrite Hd. Qed.

Lemma fixed_collect_spec n fuel input s :
  chunk_size s = n -> (0 < n)%nat -> no_errors input -> done s = false ->
  (S (length input + length (buffer s ++ data_of input)) < fuel)%nat ->
  collect poll_next fuel s input = Some (Ok <$> pieces n (buffer s ++ data_of input)).
Proof.
  intros Hs Hn. revert input s Hs. induction fuel as [|fuel IH]; intros input s Hs Hne Hd Hf; [lia|].
  cbn [collect]. unfold poll_next at 1. rewrite Hd.
  destruct (poll_loop s input) as [p [s' input']] eqn:Ep.
  apply (fixed_poll_spec n) in Ep as (Hs' & Hne' & Hle & Hd' & Hp); [|done..]. cbv zeta in Hp.
  destruct p as [|[[chunk|x|x]|]]; try done.
  - destruct Hp as (Hrem & Hlt & Hds). rewrite IH by (done || rewrite Hrem; lia). by rewrite Hrem.
  - destruct Hp as (Hne2 & -> & Hrem). rewrite (pieces_cons n (buffer s ++ data_of input)) by done.
    assert (0 < length (buffer s ++ data_of input))%nat
      by (destruct (buffer s ++ data_of input); [done|simpl; lia]).
    destruct (done s') eqn:Eds.
    + destruct (Hd' eq_refl) as [Hb ->]. rewrite Hb in Hrem. simpl in Hrem.
      rewrite collect_done by (done || lia). by rewrite <- Hrem.
    + rewrite IH by (done || rewrite Hrem, length_drop; lia). by rewrite Hrem.
  - by rewrite Hp.
Qed.

Lemma concat_pieces n data : (0 < n)%nat -> concat (pieces n data) = data.
Proof.
  intros Hn. remember (length data) as k eqn:Hk. revert data Hk.
  induction k as [k IH] using lt_wf_ind. intros data ->.
  destruct (decide (data = [])) as [->|Hne]; [done|]. rewrite pieces_cons by done. cbn [concat].
  rewrite (IH (length (drop n data))); [by rewrite take_drop| |done].
  assert (0 < length data)%nat by (destruct data; [done|simpl; lia]). rewrite length_drop. lia.
Qed.
End FixedCuts.

(** [FixedChunkStream] polled until it ends returns the content in pieces of the
    chunk size, the last one possibly shorter, however the input arrives. *)
Theorem fixed_chunk_stream_correct n input :
  (0 < n)%nat -> no_errors input ->
  collect FixedChunkStream.poll_next (2 + (length input + length (data_of input)))
    (FixedChunkStream.new n) input
  = Some (Ok <$> FixedCuts.pieces n (data_of input)) /\
  concat (FixedCuts.pieces n (data_of input)) = data_of input /\
  (forall i a b, FixedCuts.pieces n (data_of input) !! i = Some a ->
     FixedCuts.pieces n (data_of input) !! S i = Some b -> length a = n).
Proof.
  intros Hn Hne. split_and!.
  - by rewrite (FixedCuts.fixed_collect_spec n) by (done || simpl; lia).
  - by apply FixedCuts.concat_pieces.
  - generalize (data_of input). clear Hne. intros data i. revert data.
    induction i as [|i IH]; intros data a b.
    + destruct (decide (data = [])) as [->|Hd]; [done|]. rewrite FixedCuts.pieces_cons by done.
      intros [= <-] Hb. destruct (decide (drop n data = [])) as [E|E]; [by rewrite E in Hb|].
      rewrite length_take. assert (drop n data <> []) as E' by done.
      destruct (decide (length data <= n)%nat); [|lia]. by rewrite drop_ge in E' by lia.
    + destruct (decide (data = [])) as [->|Hd]; [done|]. rewrite FixedCuts.pieces_cons by done.
      apply IH.
Qed.

(** ** Merging known chunks *)
Module Merge.
Import MergeQueue.
Section merge.
Context {D N : Type}.

(** The chunks an element stands for, in order. *)
Definition flat (m : MergedChunkInfo D N) : list (Z * D + N) :=
  match m with Known l => inl <$> l | New n => [inr n] end.
Definition flat_opt (b : t D N) : list (Z * D + N) := from_option flat [] b.
Definition flat_event (e : event (MergedChunkInfo D N)) : list (Z * D + N) :=
  match e with Item (Ok m) => flat m | _ => [] end.
Definition flat_input (input : list (event (MergedChunkInfo D N))) : list (Z * D + N) :=
  concat (flat_event <$> input).

(** Every poll shortens the input or empties the buffer. *)
Definition size (buf : t D N) (input : list (event (MergedChunkInfo D N))) : nat :=
  length input + (if buf then 1 else 0).

Lemma merge_poll_spec input buf p buf' input' :
  no_errors input -> poll_next buf input = (p, (buf', input')) ->
  no_errors input' /\
  match p with
  | Pending => flat_opt buf' ++ flat_input input' = flat_opt buf ++ flat_input input /\
      (size buf' input' < size buf input)%nat
  | Ready None => flat_opt buf ++ flat_input input = []
  | Ready (Some (Ok m)) =>
      flat m ++ flat_opt buf' ++ flat_input input' = flat_opt buf ++ flat_input input /\
      (size buf' input' < size buf input)%nat
  | _ => False
  end.
Proof.
  unfold size.
  revert buf. induction input as [|e input IH]; intros buf Hne; cbn [poll_next].
  - destruct buf as [m|]; intros [= <- <- <-]; simpl; [|done]. rewrite !app_nil_r.
    split_and!; [done|done|]. simpl. lia.
  - apply Forall_cons in Hne as [He Hne]. destruct e as [[[l|n]|x|x]|]; [..|done|done|].
    + destruct buf as [[last|n]|].
      * case_if.
        -- intros [= <- <- <-]. split_and!; [done| |simpl; lia].
           unfold flat_input. simpl. by rewrite fmap_app, <- (assoc_L (++)).
        -- intros Hp. apply IH in Hp as [? Hp]; [|done]. split; [done|].
           assert (flat_opt (Some (Known (last ++ l))) ++ flat_input input
             = flat_opt (Some (Known last)) ++ flat_input (Item (Ok (Known l)) :: input)) as Heq.
           { unfold flat_input. simpl. by rewrite fmap_app, <- (assoc_L (++)). }
           rewrite Heq in Hp. destruct p as [|[[m|x|x]|]]; try done;
             (destruct Hp as [? Hp]; split; [done|simpl in *; lia]).
      * intros [= <- <- <-]. split_and!; [done|done|simpl; lia].
      * intros Hp. apply IH in Hp as [? Hp]; [|done]. split; [done|].
        destruct p as [|[[m|x|x]|]]; try done; (destruct Hp as [? Hp]; split; [done|simpl in *; lia]).
    + destruct buf as [m|]; intros [= <- <- <-]; (split_and!; [done|done|simpl; lia]).
    + intros [= <- <- <-]. split_and!; [done|done|simpl; lia].
Qed.

Lemma merge_collect_spec fuel input buf :
  no_errors input -> (size buf input < fuel)%nat ->
  exists outs, collect poll_next fuel buf input = Some (Ok <$> outs) /\
    concat (flat <$> outs) = flat_opt buf ++ flat_input input.
Proof.
  revert input buf. induction fuel as [|fuel IH]; intros input buf Hne Hf; [lia|].
  cbn [collect]. destruct (poll_next buf input) as [p [buf' input']] eqn:Ep.
  apply merge_poll_spec in Ep as [Hne' Hp]; [|done]. destruct p as [|[[m|x|x]|]]; try done.
  - destruct Hp as [<- Hlt]. apply IH; [done|lia].
  - destruct Hp as [<- Hlt]. destruct (IH input' buf' Hne') as (outs & -> & Ho); [lia|].
    exists (m :: outs). split; [done|]. cbn [fmap list_fmap concat]. by rewrite <- Ho.
  - exists []. by rewrite Hp.
Qed.
End merge.
End Merge.

(** C38.  [MergeKnownChunksQueue] polled until it ends terminates, and what it returns
    stands for exactly the known and new chunks it was given, in their order:
    batching does not reorder, lose or repeat an index entry. *)
Theorem merge_known_chunks_order {D N} (input : list (event (MergeQueue.MergedChunkInfo D N))) :
  no_errors input ->
  exists outs, collect MergeQueue.poll_next (S (length input)) None input = Some (Ok <$> outs) /\
    concat (Merge.flat <$> outs) = Merge.flat_input input.
Proof.
  intros Hne. apply (Merge.merge_collect_spec (S (length input)) input None Hne).
  unfold Merge.size. lia.
Qed.

(** ** Witnesses *)
Module StreamWitness.
Definition input : list (event (list byte)) :=
  [Item (Ok [x61; x62]); Wait; Item (Ok [x63])].
Lemma input_ok : no_errors input.
Proof. by repeat constructor. Qed.
Definition merge_input : list (event (MergeQueue.MergedChunkInfo nat nat)) :=
  [Item (Ok (MergeQueue.Known [(1, 1%nat)])); Item (Ok (MergeQueue.New 7%nat)); Wait;
   Item (Ok (MergeQueue.Known [(2, 2%nat)]))].
Lemma merge_input_ok : no_errors merge_input.
Proof. by repeat constructor. Qed.
(** A stream with two bytes buffered and a boundary forced after the first. *)
Definition inject : InjectChunks nat :=
  {| inject_boundary := 1; inject_chunks := [5%nat]; inject_size := 10 |}.
Definition inj : ChunkStream.InjectionData nat :=
  {| ChunkStream.boundaries := [inject]; ChunkStream.next_boundary := None;
     ChunkStream.injections := [] |}.
Definition stream (c : Buz.ChunkerImpl) : ChunkStream.t Buz.ChunkerImpl nat :=
  {| ChunkStream.input_is_done := false; ChunkStream.chunker := c;
     ChunkStream.buffer := [x61; x62]; ChunkStream.scan_pos := 0; ChunkStream.consumed := 0;
     ChunkStream.injection_data := Some inj |}.
End StreamWitness.

Lemma chunk_stream_deterministic_witness : exists c,
  Buz.ChunkerImpl_new 256 = Ok c /\
  collect ChunkStream.poll_next 7 (ChunkStream.new (E := unit) c None) StreamWitness.input
  = Some [Ok [x61; x62; x63]].
Proof.
  destruct (Buz.ChunkerImpl_new 256) as [c| |] eqn:E; [|discriminate E..].
  exists c. split; [reflexivity|].
  destruct (chunk_stream_deterministic 256 c StreamWitness.input E StreamWitness.input_ok
    ltac:(done)) as [H _].
  vm_compute in E. injection E as <-. exact H.
Defined.

Lemma fixed_chunk_stream_correct_witness :
  collect FixedChunkStream.poll_next 8 (FixedChunkStream.new 2) StreamWitness.input
  = Some [Ok [x61; x62]; Ok [x63]].
Proof.
  exact (proj1 (fixed_chunk_stream_correct 2 StreamWitness.input ltac:(lia) StreamWitness.input_ok)).
Defined.

Lemma merge_known_chunks_order_witness : exists outs,
  collect MergeQueue.poll_next 5 None StreamWitness.merge_input = Some (Ok <$> outs) /\
  concat (Merge.flat <$> outs) = [inl (1, 1%nat); inr 7%nat; inl (2, 2%nat)].
Proof. exact (merge_known_chunks_order StreamWitness.merge_input StreamWitness.merge_input_ok). Defined.

Lemma forced_boundary_exact_witness : exists c r s',
  ChunkStream.inject_phase (StreamWitness.stream c) = (Ok r, s').
Proof.
  destruct (Buz.ChunkerImpl_new 256) as [c| |] eqn:E; [|discriminate E..].
  destruct (forced_boundary_exact (StreamWitness.stream c) StreamWitness.inj StreamWitness.inject []
    eq_refl eq_refl ltac:(done) ltac:(done) ltac:(done) ltac:(simpl; lia)) as (r & s' & i' & H & _).
  exists c, r, s'. exact H.
Defined.
