(* ===== verification/DataBlob.v ===== *)
(** * Data blobs, [pbs-datastore/src/data_blob.rs]

    The storage format of chunks and blobs: magic, CRC-32, for encrypted blobs IV and
    tag, then the (compressed, encrypted) data.  AES-GCM, zstd, SHA-256 and CRC-32
    come from libraries: they are the record [Prims], and what the code relies
    on is the class [PrimsLaws].  The headers are those of
    [pbs-datastore/src/file_formats.rs], the keyed digest that of
    [pbs-tools/src/crypt_config.rs]. *)

From S2P Require Import Prelude IndexFile.
From Stdlib Require Import Strings.Byte.

(** ** Library functions *)
Record Prims := {
  sha256 : list byte -> list byte;
  crc32 : list byte -> Z;
  (* openssl [Crypter]: [true] encrypts *)
  crypter : Type;
  crypter_new : bool -> list byte -> list byte -> res crypter;
  crypter_update : crypter -> list byte -> res (list byte * crypter);
  crypter_set_tag : crypter -> list byte -> res crypter;
  crypter_finalize : crypter -> res (list byte * crypter);
  crypter_get_tag : crypter -> res (list byte);
  block_size : Z;
  decrypt_aead : list byte -> list byte -> list byte -> list byte -> res (list byte);
  (* [zstd_safe::compress] into a buffer of the given size: the bytes, or the error code *)
  zstd_compress : list byte -> Z -> list byte + Z;
  zstd_decode_all : list byte -> res (list byte);
  (* [zstd::stream::write::Decoder] *)
  zdec : Type;
  zdec_new : res zdec;
  zdec_write : zdec -> list byte -> res zdec;
  zdec_flush : zdec -> res zdec;
  zdec_into_inner : zdec -> list byte;
}.

Section run.
Variable P : Prims.

(** Several calls of [Crypter::update], and of [Write::write_all]. *)
Fixpoint run_update (c : crypter P) (pieces : list (list byte)) : res (list byte * crypter P) :=
  match pieces with
  | [] => Ok ([], c)
  | p :: pieces =>
      let? (out, c) := crypter_update P c p in
      let? (rest, c) := run_update c pieces in
      Ok (out ++ rest, c)
  end.
Fixpoint run_zdec (d : zdec P) (pieces : list (list byte)) : res (zdec P) :=
  match pieces with
  | [] => Ok d
  | p :: pieces => let? d := zdec_write P d p in run_zdec d pieces
  end.
End run.

(** What the code relies on.  [seal] is the sealing function of AES-GCM, ciphertext and
    tag; a cipher fed in pieces gives the same result as fed at once, and so
    does a decompressor; decryption and decompression invert their counterparts. *)
Class PrimsLaws (P : Prims) := {
  sha256_len l : length (sha256 P l) = 32%nat;
  crc32_range l : in_u32 (crc32 P l);
  block_size_ok : 0 < block_size P < 32 * 1024;
  seal : list byte -> list byte -> list byte -> list byte * list byte;
  encrypt_ok key iv : length key = 32%nat -> length iv = 16%nat ->
    exists c0, crypter_new P true key iv = Ok c0 /\
      forall pieces, exists out c1 rest c2,
        run_update P c0 pieces = Ok (out, c1) /\ crypter_finalize P c1 = Ok (rest, c2) /\
        (out ++ rest, crypter_get_tag P c2) =
          ((seal key iv (concat pieces)).1, Ok (seal key iv (concat pieces)).2);
  tag_len key iv data : length (seal key iv data).2 = 16%nat;
  decrypt_ok key iv data : length key = 32%nat -> length iv = 16%nat ->
    exists c0, crypter_new P false key iv = Ok c0 /\
      forall pieces, concat pieces = (seal key iv data).1 -> exists out c1 c2 rest c3,
        run_update P c0 pieces = Ok (out, c1) /\
        crypter_set_tag P c1 (seal key iv data).2 = Ok c2 /\
        crypter_finalize P c2 = Ok (rest, c3) /\ out ++ rest = data;
  decrypt_aead_ok key iv data : length key = 32%nat -> length iv = 16%nat ->
    decrypt_aead P key iv (seal key iv data).1 (seal key iv data).2 = Ok data;
  zstd_ok data n z : zstd_compress P data n = inl z ->
    Z.of_nat (length z) <= n /\ zstd_decode_all P z = Ok data;
  zdec_ok pieces data : zstd_decode_all P (concat pieces) = Ok data ->
    exists d0 d1 d2, zdec_new P = Ok d0 /\ run_zdec P d0 pieces = Ok d1 /\
      zdec_flush P d1 = Ok d2 /\ zdec_into_inner P d2 = data;
}.

(** ** [CryptConfig], [pbs-tools/src/crypt_config.rs] *)
Record CryptConfig := { id_key : list byte; enc_key : list byte }.

Section blob.
Variable P : Prims.

Definition compute_digest (config : CryptConfig) (data : list byte) : list byte :=
  sha256 P (data ++ id_key config).

Definition data_crypter (config : CryptConfig) (iv : list byte) (encrypt : bool)
    : res (crypter P) :=
  crypter_new P encrypt (enc_key config) iv.

(** ** Headers *)
(** [size_of] of the two packed headers, and [offset_of!(DataBlobHeader, crc)]. *)
Definition SIZE_HEADER : Z := 12.
Definition SIZE_ENCRYPTED_HEADER : Z := 44.
Definition CRC_OFFSET : Z := 8.

Record DataBlobHeader := { bh_magic : list byte; bh_crc : list byte }.
Record EncryptedDataBlobHeader := { eh_head : DataBlobHeader; eh_iv : list byte; eh_tag : list byte }.

(** [write_le_value] and [read_le_value] of packed structs of byte arrays. *)
Definition header_bytes (h : DataBlobHeader) : list byte := bh_magic h ++ bh_crc h.
Definition encrypted_header_bytes (h : EncryptedDataBlobHeader) : list byte :=
  header_bytes (eh_head h) ++ eh_iv h ++ eh_tag h.
Definition encrypted_header_of_bytes (b : list byte) : EncryptedDataBlobHeader :=
  {| eh_head := {| bh_magic := take 8 b; bh_crc := take 4 (drop 8 b) |};
     eh_iv := take 16 (drop 12 b); eh_tag := take 16 (drop 28 b) |}.

Definition header_size (magic : list byte) : res Z :=
  if bool_decide (magic = UNCOMPRESSED_BLOB_MAGIC_1_0) then Ok SIZE_HEADER else
  if bool_decide (magic = COMPRESSED_BLOB_MAGIC_1_0) then Ok SIZE_HEADER else
  if bool_decide (magic = ENCRYPTED_BLOB_MAGIC_1_0) then Ok SIZE_ENCRYPTED_HEADER else
  if bool_decide (magic = ENCR_COMPR_BLOB_MAGIC_1_0) then Ok SIZE_ENCRYPTED_HEADER else
  Panic "unknown blob magic".

(** ** [DataBlob], given by its [raw_data] *)
Definition MAX_BLOB_SIZE : Z := 128 * 1024 * 1024.
Record DataBlob := { raw_data : list byte }.

Definition raw_size (b : DataBlob) : Z := Z.of_nat (length (raw_data b)).

Definition magic (b : DataBlob) : res (list byte) := slice (raw_data b) 0 8.

Definition crc (b : DataBlob) : res Z :=
  let? c := slice (raw_data b) CRC_OFFSET (CRC_OFFSET + 4) in Ok (le_val c).

Definition set_crc (c : Z) (b : DataBlob) : res DataBlob :=
  let? d := ptr_write CRC_OFFSET (le_bytes 4 c) (raw_data b) in Ok {| raw_data := d |}.

Definition compute_crc (b : DataBlob) : res Z :=
  let? m := magic b in
  let? start := header_size m in
  let? data := slice (raw_data b) start (Z.of_nat (length (raw_data b))) in
  Ok (crc32 P data).

Definition verify_crc (b : DataBlob) : res unit :=
  let? expected_crc := compute_crc b in
  let? c := crc b in
  if negb (expected_crc =? c) then Err "Data blob has wrong CRC checksum." else Ok tt.

(** The loop of [encrypt_to] and [decode_compressed_chunk]: pieces of at most
    [max_input] bytes, each handled by [step]; [fuel] bounds the turns. *)
Fixpoint feed {S : Type} (step : S -> list byte -> res S) (max_input : Z) (fuel : nat)
    (data : list byte) (start : Z) (s : S) : res S :=
  match fuel with
  | O => Panic "out of fuel"
  | Datatypes.S fuel =>
      let end_ := start + max_input in
      let end_ := if Z.of_nat (length data) <? end_ then Z.of_nat (length data) else end_ in
      if start <? end_ then
        let? piece := slice data start end_ in
        let? s := step s piece in
        feed step max_input fuel data end_ s
      else Ok s
  end.

Definition BUFFER_SIZE : Z := 32 * 1024.

(** [encrypt_to]: [iv] is what [fill_with_random_data] returns; the data is
    appended to [output]. *)
Definition encrypt_to (iv : res (list byte)) (config : CryptConfig) (data output : list byte)
    : res (list byte * list byte * list byte) :=
  let? iv := iv in
  let? c := data_crypter config iv true in
  let max_encoder_input := BUFFER_SIZE - block_size P in
  let? (c, output) :=
    feed (fun '(c, output) piece =>
            let? (out, c) := crypter_update P c piece in Ok (c, output ++ out))
      max_encoder_input (Datatypes.S (length data)) data 0 (c, output) in
  let? (rest, c) := crypter_finalize P c in
  let output := if 0 <? Z.of_nat (length rest) then output ++ rest else output in
  let? tag := crypter_get_tag P c in
  Ok (iv, tag, output).

Definition decode_compressed_chunk (config : CryptConfig) (data iv tag : list byte)
    : res (list byte) :=
  let? dec := zdec_new P in
  let? c := data_crypter config iv false in
  let max_decoder_input := BUFFER_SIZE - block_size P in
  let? (c, dec) :=
    feed (fun '(c, dec) piece =>
            let? (out, c) := crypter_update P c piece in
            let? dec := zdec_write P dec out in Ok (c, dec))
      max_decoder_input (Datatypes.S (length data)) data 0 (c, dec) in
  let? c := crypter_set_tag P c tag in
  let? (rest, c) := crypter_finalize P c in
  let? dec := if 0 <? Z.of_nat (length rest) then zdec_write P dec rest else Ok dec in
  let? dec := zdec_flush P dec in
  Ok (zdec_into_inner P dec).

Definition decode_uncompressed_chunk (config : CryptConfig) (data iv tag : list byte)
    : res (list byte) :=
  decrypt_aead P (enc_key config) iv data tag.

Inductive CryptMode := CryptNone | CryptEncrypt.

(** [encode]: [iv] is the random initialisation vector. *)
Definition encode (iv : res (list byte)) (data : list byte) (config : option CryptConfig)
    (compress : bool) : res DataBlob :=
  if MAX_BLOB_SIZE <? Z.of_nat (length data) then Err "data blob too large" else
  let header_len := if config then SIZE_ENCRYPTED_HEADER else SIZE_HEADER in
  let compressed :=
    if compress then
      match zstd_compress P data (Z.of_nat (length data)) with
      | inl z => if Z.of_nat (length z) <=? Z.of_nat (length data) then Some z else None
      | inr err => None (* logged, unless the buffer was too small *)
      end
    else None in
  let '(magic, payload) :=
    match compressed, config with
    | Some z, Some _ => (ENCR_COMPR_BLOB_MAGIC_1_0, z)
    | Some z, None => (COMPRESSED_BLOB_MAGIC_1_0, z)
    | None, Some _ => (ENCRYPTED_BLOB_MAGIC_1_0, data)
    | None, None => (UNCOMPRESSED_BLOB_MAGIC_1_0, data)
    end in
  let zero_crc := replicate 4 x00 in
  let? raw_data :=
    match config with
    | Some config =>
        let dummy_head := {| eh_head := {| bh_magic := magic; bh_crc := zero_crc |};
                             eh_iv := replicate 16 x00; eh_tag := replicate 16 x00 |} in
        let? (iv, tag, raw_data) :=
          encrypt_to iv config payload (encrypted_header_bytes dummy_head) in
        let head := {| eh_head := {| bh_magic := magic; bh_crc := zero_crc |};
                       eh_iv := iv; eh_tag := tag |} in
        ptr_write 0 (encrypted_header_bytes head) raw_data
    | None =>
        let data_compressed := replicate (Z.to_nat header_len) x00 ++ payload in
        ptr_write 0 (header_bytes {| bh_magic := magic; bh_crc := zero_crc |}) data_compressed
    end in
  let blob := {| raw_data := raw_data |} in
  let? c := compute_crc blob in
  set_crc c blob.

Definition crypt_mode (b : DataBlob) : res CryptMode :=
  let? m := magic b in
  if bool_decide (m = UNCOMPRESSED_BLOB_MAGIC_1_0) || bool_decide (m = COMPRESSED_BLOB_MAGIC_1_0)
  then Ok CryptNone
  else if bool_decide (m = ENCR_COMPR_BLOB_MAGIC_1_0) || bool_decide (m = ENCRYPTED_BLOB_MAGIC_1_0)
  then Ok CryptEncrypt
  else Err "Invalid blob magic number.".

Definition verify_digest (data : list byte) (config : option CryptConfig) (expected : digest)
    : res unit :=
  let d := match config with
           | Some config => compute_digest config data
           | None => sha256 P data
           end in
  if negb (bool_decide (d = expected)) then Err "detected chunk with wrong digest." else Ok tt.

Definition decode (b : DataBlob) (config : option CryptConfig) (expected : option digest)
    : res (list byte) :=
  let? m := magic b in
  let len := Z.of_nat (length (raw_data b)) in
  let? (data, crypt_config) :=
    if bool_decide (m = UNCOMPRESSED_BLOB_MAGIC_1_0) then
      let? data := slice (raw_data b) SIZE_HEADER len in Ok (data, None)
    else if bool_decide (m = COMPRESSED_BLOB_MAGIC_1_0) then
      let? reader := slice (raw_data b) SIZE_HEADER len in
      let? data := zstd_decode_all P reader in Ok (data, None)
    else if bool_decide (m = ENCR_COMPR_BLOB_MAGIC_1_0) || bool_decide (m = ENCRYPTED_BLOB_MAGIC_1_0)
    then
      let? h := slice (raw_data b) 0 SIZE_ENCRYPTED_HEADER in
      let head := encrypted_header_of_bytes h in
      match config with
      | None => Err "unable to decrypt blob - missing CryptConfig"
      | Some config =>
          let? body := slice (raw_data b) SIZE_ENCRYPTED_HEADER len in
          let? data :=
            if bool_decide (m = ENCR_COMPR_BLOB_MAGIC_1_0)
            then decode_compressed_chunk config body (eh_iv head) (eh_tag head)
            else decode_uncompressed_chunk config body (eh_iv head) (eh_tag head) in
          Ok (data, Some config)
      end
    else Err "Invalid blob magic number." in
  match expected with
  | Some d => let? _ := verify_digest data crypt_config d in Ok data
  | None => Ok data
  end.

Definition from_raw (data : list byte) : res DataBlob :=
  if Z.of_nat (length data) <? SIZE_HEADER then Err "blob too small" else
  let? magic := slice data 0 8 in
  if bool_decide (magic = ENCR_COMPR_BLOB_MAGIC_1_0) || bool_decide (magic = ENCRYPTED_BLOB_MAGIC_1_0)
  then
    if Z.of_nat (length data) <? SIZE_ENCRYPTED_HEADER then Err "encrypted blob too small"
    else Ok {| raw_data := data |}
  else if bool_decide (magic = COMPRESSED_BLOB_MAGIC_1_0)
          || bool_decide (magic = UNCOMPRESSED_BLOB_MAGIC_1_0)
  then Ok {| raw_data := data |}
  else Err "unable to parse raw blob - wrong magic".

Definition from_raw_with_crc_check (data : list byte) : res DataBlob :=
  let? blob := from_raw data in
  let? _ := verify_crc blob in
  Ok blob.

(** [load_from_reader]: what [read_to_end] delivers. *)
Definition load_from_reader (reader : res (list byte)) : res DataBlob :=
  let? data := reader in from_raw_with_crc_check data.

Definition is_encrypted (b : DataBlob) : res bool :=
  let? m := magic b in
  Ok (bool_decide (m = ENCR_COMPR_BLOB_MAGIC_1_0) || bool_decide (m = ENCRYPTED_BLOB_MAGIC_1_0)).
Definition is_compressed (b : DataBlob) : res bool :=
  let? m := magic b in
  Ok (bool_decide (m = ENCR_COMPR_BLOB_MAGIC_1_0) || bool_decide (m = COMPRESSED_BLOB_MAGIC_1_0)).

Definition verify_unencrypted (b : DataBlob) (expected_chunk_size : Z) (expected_digest : digest)
    : res unit :=
  let? m := magic b in
  if bool_decide (m = ENCR_COMPR_BLOB_MAGIC_1_0) || bool_decide (m = ENCRYPTED_BLOB_MAGIC_1_0)
  then Ok tt
  else
    let? data := decode b None (Some expected_digest) in
    if negb (expected_chunk_size =? Z.of_nat (length data))
    then Err "detected chunk with wrong length" else Ok tt.

Definition csum (b : DataBlob) : digest := sha256 P (raw_data b).

(** ** [DataChunkBuilder] *)
Record DataChunkBuilder := {
  b_config : option CryptConfig;
  b_orig_data : list byte;
  b_digest : option digest; (* [Some] when [digest_computed] *)
  b_compress : bool;
}.

Definition builder_new (orig_data : list byte) : DataChunkBuilder :=
  {| b_config := None; b_orig_data := orig_data; b_digest := None; b_compress := true |}.
Definition builder_compress (value : bool) (b : DataChunkBuilder) : DataChunkBuilder :=
  {| b_config := b_config b; b_orig_data := b_orig_data b; b_digest := b_digest b;
     b_compress := value |}.
Definition builder_crypt_config (value : CryptConfig) (b : DataChunkBuilder) : res DataChunkBuilder :=
  match b_digest b with
  | Some _ => Panic "unable to set crypt_config after compute_digest()."
  | None => Ok {| b_config := Some value; b_orig_data := b_orig_data b; b_digest := None;
                  b_compress := b_compress b |}
  end.
Definition builder_compute_digest (b : DataChunkBuilder) : DataChunkBuilder :=
  match b_digest b with
  | Some _ => b
  | None =>
      {| b_config := b_config b; b_orig_data := b_orig_data b;
         b_digest := Some (match b_config b with
                           | Some config => compute_digest config (b_orig_data b)
                           | None => sha256 P (b_orig_data b)
                           end);
         b_compress := b_compress b |}
  end.
(** [digest]; the array is zero as long as it was not computed. *)
Definition builder_digest (b : DataChunkBuilder) : digest * DataChunkBuilder :=
  let b := builder_compute_digest b in (default (replicate 32 x00) (b_digest b), b).
Definition build (iv : res (list byte)) (b : DataChunkBuilder) : res (DataBlob * digest) :=
  let b := builder_compute_digest b in
  let? chunk := encode iv (b_orig_data b) (b_config b) (b_compress b) in
  Ok (chunk, default (replicate 32 x00) (b_digest b)).
Definition build_zero_chunk (iv : res (list byte)) (crypt_config : option CryptConfig)
    (chunk_size : nat) (compress : bool) : res (DataBlob * digest) :=
  let b := builder_compress compress (builder_new (replicate chunk_size x00)) in
  let? b := match crypt_config with
            | Some c => builder_crypt_config c b
            | None => Ok b
            end in
  build iv b.
End blob.
