(* ===== verification/DataBlobSpec.v ===== *)
(** * Data blobs: round trips and integrity *)

From S2P Require Import Prelude IndexFile DataBlob.
From Stdlib Require Import Strings.Byte.

Module BlobSpec.
(** ** Feeding a cipher in pieces *)
Fixpoint run_fold {S} (step : S -> list byte -> res S) (s : S) (pieces : list (list byte)) : res S :=
  match pieces with
  | [] => Ok s
  | p :: pieces => let? s := step s p in run_fold step s pieces
  end.

(** The loop feeds all data, in pieces, and terminates. *)
Lemma feed_pieces {S} (step : S -> list byte -> res S) max fuel data start :
  0 < max -> 0 <= start <= Z.of_nat (length data) ->
  Z.of_nat (length data) - start < Z.of_nat fuel ->
  exists pieces, concat pieces = drop (Z.to_nat start) data /\
    forall s, feed step max fuel data start s = run_fold step s pieces.
Proof.
  intros Hmax. revert start. induction fuel as [|fuel IH]; intros start Hs Hf; [lia|].
  cbn [feed]. set (e := if Z.of_nat (length data) <? start + max then _ else _).
  assert (e = (start + max) `min` Z.of_nat (length data)) as He
    by (unfold e; case_if; zify_bool; lia).
  clearbody e. destruct (start <? e) eqn:E; zify_bool.
  - destruct (IH e) as (pieces & Hc & Hp); [lia..|].
    exists (take (Z.to_nat (e - start)) (drop (Z.to_nat start) data) :: pieces). split.
    + simpl. rewrite Hc. replace (Z.to_nat e) with (Z.to_nat start + Z.to_nat (e - start))%nat by lia.
      by rewrite <- drop_drop, take_drop.
    + intros s. rewrite slice_ok by lia. simpl. destruct (step s _); [apply Hp|done..].
  - exists []. split; [|done]. by rewrite drop_ge by lia.
Qed.

Section laws.
Context (P : Prims) {HP : PrimsLaws P}.

Definition enc_step : crypter P * list byte -> list byte -> res (crypter P * list byte) :=
  fun '(c, output) piece => let? (out, c) := crypter_update P c piece in Ok (c, output ++ out).

Lemma enc_fold pieces c output out c1 :
  run_update P c pieces = Ok (out, c1) ->
  run_fold enc_step (c, output) pieces = Ok (c1, output ++ out).
Proof.
  revert c output out. induction pieces as [|p pieces IH]; intros c output out; simpl.
  { intros [= <- <-]. by rewrite app_nil_r. }
  destruct (crypter_update P c p) as [[o c']| |]; [|done..].
  destruct (run_update P c' pieces) as [[o' c'']| |] eqn:E; [|done..].
  intros [= <- <-]. erewrite IH by done. by rewrite <- (assoc_L (++)).
Qed.

Lemma encrypt_to_ok iv config data output :
  length (enc_key config) = 32%nat -> length iv = 16%nat ->
  let '(ct, tag) := seal (enc_key config) iv data in
  encrypt_to P (Ok iv) config data output = Ok (iv, tag, output ++ ct).
Proof.
  intros Hk Hiv. unfold encrypt_to, data_crypter.
  destruct (encrypt_ok (enc_key config) iv Hk Hiv) as (c0 & -> & Henc).
  pose proof block_size_ok as Hbs.
  destruct (feed_pieces enc_step (BUFFER_SIZE - block_size P) (S (length data)) data 0)
    as (pieces & Hc & Hf); [unfold BUFFER_SIZE; lia|lia|lia|].
  rewrite drop_0 in Hc. unfold enc_step in Hf. rewrite Hf. fold enc_step.
  destruct (Henc pieces) as (out & c1 & rest & c2 & Hru & Hfin & Heq). rewrite Hc in Heq.
  rewrite (enc_fold _ _ _ _ _ Hru), Hfin.
  destruct (seal (enc_key config) iv data) as [ct tag]. injection Heq as <- ->.
  destruct rest as [|y rest]; simpl; [by rewrite app_nil_r|by rewrite (assoc_L (++))].
Qed.

Definition dec_step : crypter P * zdec P -> list byte -> res (crypter P * zdec P) :=
  fun '(c, dec) piece =>
    let? (out, c) := crypter_update P c piece in
    let? dec := zdec_write P dec out in Ok (c, dec).

Lemma dec_fold pieces c out c1 :
  run_update P c pieces = Ok (out, c1) ->
  exists outs, concat outs = out /\ forall dec dec1, run_zdec P dec outs = Ok dec1 ->
    run_fold dec_step (c, dec) pieces = Ok (c1, dec1).
Proof.
  revert c out. induction pieces as [|p pieces IH]; intros c out; simpl.
  { intros [= <- <-]. exists []. split; [done|]. by intros dec dec1 [= ->]. }
  destruct (crypter_update P c p) as [[o c']| |] eqn:Eu; [|done..].
  destruct (run_update P c' pieces) as [[o' c'']| |] eqn:E; [|done..].
  intros [= <- <-]. destruct (IH _ _ E) as (outs & <- & Hrun). exists (o :: outs).
  split; [done|]. intros dec dec1. simpl. destruct (zdec_write P dec o); [|done..]. apply Hrun.
Qed.

Lemma run_zdec_app d a b : run_zdec P d (a ++ b) = let? d := run_zdec P d a in run_zdec P d b.
Proof.
  revert d. induction a as [|x a IH]; intros d; simpl; [done|].
  destruct (zdec_write P d x); [apply IH|done..].
Qed.

Lemma decode_compressed_ok config iv z data :
  length (enc_key config) = 32%nat -> length iv = 16%nat -> zstd_decode_all P z = Ok data ->
  let '(ct, tag) := seal (enc_key config) iv z in
  decode_compressed_chunk P config ct iv tag = Ok data.
Proof.
  intros Hk Hiv Hz. unfold decode_compressed_chunk, data_crypter.
  destruct (decrypt_ok (enc_key config) iv z Hk Hiv) as (c0 & -> & Hdec).
  pose proof block_size_ok as Hbs. destruct (seal (enc_key config) iv z) as [ct tag]. simpl in Hdec.
  destruct (feed_pieces dec_step (BUFFER_SIZE - block_size P) (S (length ct)) ct 0)
    as (pieces & Hc & Hf); [unfold BUFFER_SIZE; lia|lia|lia|].
  rewrite drop_0 in Hc. destruct (Hdec pieces Hc) as (out & c1 & c2 & rest & c3 & Hru & Hst & Hfin & <-).
  destruct (dec_fold _ _ _ _ Hru) as (outs & <- & Hfold).
  set (writes := if 0 <? Z.of_nat (length rest) then outs ++ [rest] else outs).
  assert (concat writes = concat outs ++ rest) as Hw.
  { unfold writes. case_if; zify_bool; [by rewrite concat_app; simpl; rewrite app_nil_r|].
    destruct rest; [by rewrite app_nil_r|simpl in *; lia]. }
  rewrite <- Hw in Hz. destruct (zdec_ok writes data Hz) as (d0 & d1 & d2 & -> & Hr & Hfl & <-).
  unfold dec_step in Hf. rewrite Hf. fold dec_step. unfold writes in Hr.
  destruct (0 <? Z.of_nat (length rest)) eqn:E.
  - rewrite run_zdec_app in Hr. destruct (run_zdec P d0 outs) as [d| |] eqn:Eo; [|done..].
    rewrite (Hfold _ _ Eo), Hst, Hfin, E. simpl in Hr.
    destruct (zdec_write P d rest) as [d'| |]; [|done..]. injection Hr as ->. by rewrite Hfl.
  - by rewrite (Hfold _ _ Hr), Hst, Hfin, E, Hfl.
Qed.

(** ** The layout of a blob *)
Definition unenc_raw (m body : list byte) : list byte := m ++ le_bytes 4 (crc32 P body) ++ body.
Definition enc_raw (m iv tag ct : list byte) : list byte :=
  m ++ le_bytes 4 (crc32 P ct) ++ iv ++ tag ++ ct.

Lemma slice_front (a b : list byte) n : Z.of_nat (length a) = n -> slice (a ++ b) 0 n = Ok a.
Proof.
  intros <-. rewrite slice_ok by (rewrite ?length_app; lia).
  by rewrite Z.sub_0_r, drop_0, Nat2Z.id, take_app_length.
Qed.
Lemma slice_back (a b : list byte) n :
  Z.of_nat (length a) = n -> slice (a ++ b) n (Z.of_nat (length (a ++ b))) = Ok b.
Proof.
  intros <-. rewrite slice_ok by (rewrite ?length_app; lia).
  rewrite Nat2Z.id, drop_app_length, take_ge; [done|]. rewrite length_app. lia.
Qed.
Lemma write_middle (a b c k : list byte) i :
  Z.of_nat (length a) = i -> length b = length k ->
  ptr_write i k (a ++ b ++ c) = Ok (a ++ k ++ c).
Proof.
  intros <- Hb. rewrite ptr_write_ok by (rewrite ?length_app; lia). f_equal. unfold write_at.
  rewrite Nat2Z.id, take_app_length. do 2 f_equal.
  rewrite <- Hb, <- length_app, (assoc_L (++)). by rewrite drop_app_length.
Qed.

Lemma crc32_u32 body : le_val (le_bytes 4 (crc32 P body)) = crc32 P body.
Proof.
  rewrite le_val_bytes. pose proof (crc32_range body) as Hr.
  apply Z.mod_small. unfold in_u32 in Hr. simpl. lia.
Qed.

(** The magic numbers, their header and whether they mean encryption. *)
Definition is_enc_magic (m : list byte) : Prop :=
  m = ENCR_COMPR_BLOB_MAGIC_1_0 \/ m = ENCRYPTED_BLOB_MAGIC_1_0.
Definition is_plain_magic (m : list byte) : Prop :=
  m = UNCOMPRESSED_BLOB_MAGIC_1_0 \/ m = COMPRESSED_BLOB_MAGIC_1_0.

Lemma plain_header m : is_plain_magic m -> header_size m = Ok SIZE_HEADER /\ length m = 8%nat.
Proof. by intros [-> | ->]. Qed.
Lemma enc_header m : is_enc_magic m -> header_size m = Ok SIZE_ENCRYPTED_HEADER /\ length m = 8%nat.
Proof. by intros [-> | ->]. Qed.

Lemma finish_plain m c4 body :
  is_plain_magic m -> length c4 = 4%nat ->
  (let? c := compute_crc P {| raw_data := m ++ c4 ++ body |} in
   set_crc c {| raw_data := m ++ c4 ++ body |}) = Ok {| raw_data := unenc_raw m body |}.
Proof.
  intros Hm Hc. destruct (plain_header m Hm) as [Hh Hl].
  unfold compute_crc, magic. cbn [raw_data].
  rewrite slice_front, Hh by (rewrite Hl; done).
  rewrite (assoc_L (++)), slice_back by (rewrite length_app, Hl, Hc; done).
  unfold set_crc. cbn [raw_data]. rewrite <- (assoc_L (++)), write_middle; [done| |done].
  by rewrite Hl.
Qed.

Lemma finish_enc m c4 iv tag ct :
  is_enc_magic m -> length c4 = 4%nat -> length iv = 16%nat -> length tag = 16%nat ->
  (let? c := compute_crc P {| raw_data := m ++ c4 ++ iv ++ tag ++ ct |} in
   set_crc c {| raw_data := m ++ c4 ++ iv ++ tag ++ ct |}) = Ok {| raw_data := enc_raw m iv tag ct |}.
Proof.
  intros Hm Hc Hiv Htag. destruct (enc_header m Hm) as [Hh Hl].
  unfold compute_crc, magic. cbn [raw_data].
  rewrite slice_front, Hh by (rewrite Hl; done).
  replace (m ++ c4 ++ iv ++ tag ++ ct) with ((m ++ c4 ++ iv ++ tag) ++ ct)
    by by rewrite <- !(assoc_L (++)).
  rewrite slice_back by (rewrite !length_app, Hl, Hc, Hiv, Htag; done).
  unfold set_crc. cbn [raw_data]. rewrite <- !(assoc_L (++)), write_middle; [done| |done].
  by rewrite Hl.
Qed.

(** The last steps of [encode], with and without encryption. *)
Definition zero_header (m : list byte) : DataBlobHeader :=
  {| bh_magic := m; bh_crc := replicate 4 x00 |}.

Lemma encode_enc_branch iv c m payload :
  is_enc_magic m -> length iv = 16%nat -> length (enc_key c) = 32%nat ->
  (let? raw_data :=
     let? (iv, tag, raw_data) := encrypt_to P (Ok iv) c payload (encrypted_header_bytes
       {| eh_head := zero_header m; eh_iv := replicate 16 x00; eh_tag := replicate 16 x00 |}) in
     ptr_write 0 (encrypted_header_bytes
       {| eh_head := zero_header m; eh_iv := iv; eh_tag := tag |}) raw_data in
   let? c := compute_crc P {| raw_data := raw_data |} in set_crc c {| raw_data := raw_data |})
  = Ok {| raw_data := enc_raw m iv (seal (enc_key c) iv payload).2 (seal (enc_key c) iv payload).1 |}.
Proof.
  intros Hm Hiv Hk. destruct (enc_header m Hm) as [_ Hl].
  set (dummy := encrypted_header_bytes {| eh_head := zero_header m; eh_iv := replicate 16 x00;
                                          eh_tag := replicate 16 x00 |}).
  pose proof (encrypt_to_ok iv c payload dummy Hk Hiv) as He.
  pose proof (tag_len (enc_key c) iv payload) as Htag.
  destruct (seal (enc_key c) iv payload) as [ct tag]. rewrite He. cbn [fst snd] in *.
  pose proof (write_middle [] dummy ct (encrypted_header_bytes
    {| eh_head := zero_header m; eh_iv := iv; eh_tag := tag |}) 0 eq_refl) as Hw.
  cbn [app] in Hw. unfold encrypted_header_bytes, header_bytes, zero_header in *.
  cbn [eh_head bh_magic bh_crc eh_iv eh_tag] in *. rewrite Hw.
  - rewrite <- !(assoc_L (++)). by apply finish_enc.
  - unfold dummy. rewrite !length_app, !length_replicate, Hiv, Htag. done.
Qed.

Lemma encode_plain_branch m payload :
  is_plain_magic m ->
  (let? raw_data := ptr_write 0 (header_bytes (zero_header m))
     (replicate (Z.to_nat SIZE_HEADER) x00 ++ payload) in
   let? c := compute_crc P {| raw_data := raw_data |} in set_crc c {| raw_data := raw_data |})
  = Ok {| raw_data := unenc_raw m payload |}.
Proof.
  intros Hm. destruct (plain_header m Hm) as [_ Hl].
  pose proof (write_middle [] (replicate (Z.to_nat SIZE_HEADER) x00) payload
    (header_bytes (zero_header m)) 0 eq_refl) as Hw.
  cbn [app] in Hw. unfold header_bytes in *. cbn [bh_magic bh_crc zero_header] in *.
  rewrite Hw by (rewrite length_app, Hl; done). rewrite <- (assoc_L (++)). by apply finish_plain.
Qed.

(** What [encode] stores: magic and payload. *)
Definition payload_of (data : list byte) (config : option CryptConfig) (compress : bool)
    : list byte * list byte :=
  match (if compress then
           match zstd_compress P data (Z.of_nat (length data)) with
           | inl z => Some z
           | inr _ => None
           end
         else None), config with
  | Some z, Some _ => (ENCR_COMPR_BLOB_MAGIC_1_0, z)
  | Some z, None => (COMPRESSED_BLOB_MAGIC_1_0, z)
  | None, Some _ => (ENCRYPTED_BLOB_MAGIC_1_0, data)
  | None, None => (UNCOMPRESSED_BLOB_MAGIC_1_0, data)
  end.

Lemma encode_ok iv data config compress :
  Z.of_nat (length data) <= MAX_BLOB_SIZE -> length iv = 16%nat ->
  (forall c, config = Some c -> length (enc_key c) = 32%nat) ->
  let '(m, payload) := payload_of data config compress in
  encode P (Ok iv) data config compress = Ok {| raw_data :=
    match config with
    | None => unenc_raw m payload
    | Some c => enc_raw m iv (seal (enc_key c) iv payload).2 (seal (enc_key c) iv payload).1
    end |}.
Proof.
  intros Hmax Hiv Hk. unfold encode, payload_of. rewrite (proj2 (Z.ltb_ge _ _)) by done.
  set (comp := if compress then _ else None).
  replace (if compress then match zstd_compress P data _ with inl z => _ | inr _ => None end else None)
    with comp; [|unfold comp; destruct compress; [|done];
      destruct (zstd_compress P data _) as [z|] eqn:Ez; [|done];
      apply zstd_ok in Ez as [Hz _]; by rewrite (proj2 (Z.leb_le _ _))].
  clearbody comp. destruct config as [c|].
  - destruct comp as [z|]; apply encode_enc_branch; first [by left|by right|by auto].
  - destruct comp as [z|]; apply encode_plain_branch; [by right|by left].
Qed.

(** ** Decoding *)
Lemma decode_plain m payload data config expected :
  is_plain_magic m ->
  (if decide (m = UNCOMPRESSED_BLOB_MAGIC_1_0) then Ok payload else zstd_decode_all P payload)
    = Ok data ->
  decode P {| raw_data := unenc_raw m payload |} config expected =
    match expected with
    | Some d => let? _ := verify_digest P data None d in Ok data
    | None => Ok data
    end.
Proof.
  intros Hm Hd. destruct (plain_header m Hm) as [_ Hl]. unfold decode, magic, unenc_raw. cbn [raw_data].
  rewrite slice_front by (rewrite Hl; done).
  rewrite (assoc_L (++)), slice_back by (rewrite length_app, Hl, length_le_bytes; done).
  destruct Hm as [-> | ->]; simpl in Hd |- *; [by injection Hd as ->|by rewrite Hd].
Qed.

Lemma decode_enc m iv payload data c expected :
  is_enc_magic m -> length iv = 16%nat -> length (enc_key c) = 32%nat ->
  (if decide (m = ENCRYPTED_BLOB_MAGIC_1_0) then Ok payload else zstd_decode_all P payload)
    = Ok data ->
  decode P {| raw_data := enc_raw m iv (seal (enc_key c) iv payload).2
                            (seal (enc_key c) iv payload).1 |} (Some c) expected =
    match expected with
    | Some d => let? _ := verify_digest P data (Some c) d in Ok data
    | None => Ok data
    end.
Proof.
  intros Hm Hiv Hk Hd. destruct (enc_header m Hm) as [_ Hl].
  pose proof (tag_len (enc_key c) iv payload) as Htag.
  pose proof (decode_compressed_ok c iv payload data Hk Hiv) as Hcomp.
  pose proof (decrypt_aead_ok (enc_key c) iv payload Hk Hiv) as Hplain.
  destruct (seal (enc_key c) iv payload) as [ct tag]. cbn [fst snd] in *.
  unfold decode, magic, enc_raw. cbn [raw_data]. rewrite slice_front by (rewrite Hl; done).
  set (c4 := le_bytes 4 _). assert (length c4 = 4%nat) as Hc4 by apply length_le_bytes.
  replace (m ++ c4 ++ iv ++ tag ++ ct) with ((m ++ c4 ++ iv ++ tag) ++ ct)
    by by rewrite <- !(assoc_L (++)).
  assert (length (m ++ c4 ++ iv ++ tag) = 44%nat) as Hh
    by (rewrite !length_app, Hl, Hc4, Hiv, Htag; done).
  rewrite (slice_front _ _ SIZE_ENCRYPTED_HEADER), (slice_back _ _ SIZE_ENCRYPTED_HEADER)
    by (rewrite Hh; done).
  assert (encrypted_header_of_bytes (m ++ c4 ++ iv ++ tag)
    = {| eh_head := {| bh_magic := m; bh_crc := c4 |}; eh_iv := iv; eh_tag := tag |}) as ->.
  { unfold encrypted_header_of_bytes. repeat f_equal.
    - by rewrite take_app_length'.
    - by rewrite drop_app_length', take_app_length'.
    - rewrite (assoc_L (++)), drop_app_length' by (rewrite length_app; lia).
      by rewrite take_app_length'.
    - rewrite 2!(assoc_L (++)), drop_app_length' by (rewrite !length_app; lia). apply take_ge. lia. }
  cbn [eh_iv eh_tag].
  destruct Hm as [-> | ->]; simpl in Hd |- *.
  - by rewrite Hcomp.
  - unfold decode_uncompressed_chunk. injection Hd as ->. by rewrite Hplain.
Qed.

Lemma from_raw_plain m payload : is_plain_magic m ->
  from_raw (unenc_raw m payload) = Ok {| raw_data := unenc_raw m payload |}.
Proof.
  intros Hm. destruct (plain_header m Hm) as [_ Hl]. unfold from_raw.
  rewrite (proj2 (Z.ltb_ge _ _))
    by (unfold unenc_raw; rewrite !length_app, Hl, length_le_bytes; unfold SIZE_HEADER; lia).
  unfold unenc_raw at 1. rewrite slice_front by (rewrite Hl; done).
  generalize (unenc_raw m payload). by destruct Hm as [-> | ->].
Qed.

Lemma load_plain m payload : is_plain_magic m ->
  from_raw_with_crc_check P (unenc_raw m payload) = Ok {| raw_data := unenc_raw m payload |}.
Proof.
  intros Hm. destruct (plain_header m Hm) as [Hh Hl].
  unfold from_raw_with_crc_check. rewrite from_raw_plain by done.
  unfold verify_crc, compute_crc, crc, magic, unenc_raw. cbn [raw_data].
  rewrite slice_front, Hh by (rewrite Hl; done).
  set (c4 := le_bytes 4 _). assert (length c4 = 4%nat) as Hc4 by apply length_le_bytes.
  rewrite (slice_ok _ CRC_OFFSET); [|done|done|rewrite !length_app, Hl, Hc4; unfold CRC_OFFSET; lia].
  rewrite (drop_app_length' m) by done. rewrite (take_app_length' c4) by done.
  replace (m ++ c4 ++ payload) with ((m ++ c4) ++ payload) by by rewrite <- !(assoc_L (++)).
  rewrite slice_back by (rewrite length_app, Hl, Hc4; done).
  unfold c4. by rewrite crc32_u32, Z.eqb_refl.
Qed.

Lemma from_raw_enc m iv tag ct : is_enc_magic m -> length iv = 16%nat -> length tag = 16%nat ->
  from_raw (enc_raw m iv tag ct) = Ok {| raw_data := enc_raw m iv tag ct |}.
Proof.
  intros Hm Hiv Htag. destruct (enc_header m Hm) as [_ Hl]. unfold from_raw.
  rewrite !(proj2 (Z.ltb_ge _ _)) by (unfold enc_raw; rewrite !length_app, Hl, length_le_bytes, Hiv, Htag;
    unfold SIZE_HEADER, SIZE_ENCRYPTED_HEADER; lia).
  unfold enc_raw at 1. rewrite slice_front by (rewrite Hl; done).
  generalize (enc_raw m iv tag ct). by destruct Hm as [-> | ->].
Qed.

Lemma load_enc m iv tag ct : is_enc_magic m -> length iv = 16%nat -> length tag = 16%nat ->
  from_raw_with_crc_check P (enc_raw m iv tag ct) = Ok {| raw_data := enc_raw m iv tag ct |}.
Proof.
  intros Hm Hiv Htag. destruct (enc_header m Hm) as [Hh Hl].
  unfold from_raw_with_crc_check. rewrite from_raw_enc by done.
  unfold verify_crc, compute_crc, crc, magic, enc_raw. cbn [raw_data].
  rewrite slice_front, Hh by (rewrite Hl; done). set (c4 := le_bytes 4 _).
  assert (length c4 = 4%nat) as Hc4 by apply length_le_bytes.
  rewrite (slice_ok _ CRC_OFFSET); [|done|done|rewrite !length_app, Hl, Hc4; unfold CRC_OFFSET; lia].
  rewrite (drop_app_length' m) by done. rewrite (take_app_length' c4) by done.
  replace (m ++ c4 ++ iv ++ tag ++ ct) with ((m ++ c4 ++ iv ++ tag) ++ ct)
    by by rewrite <- !(assoc_L (++)).
  rewrite slice_back by (rewrite !length_app, Hl, Hc4, Hiv, Htag; done).
  unfold c4. by rewrite crc32_u32, Z.eqb_refl.
Qed.

(** ** Blobs that were loaded *)
(** Which magic a blob that [from_raw] accepts has, and that its header is complete. *)
Lemma from_raw_inv data b :
  from_raw data = Ok b ->
  raw_data b = data /\ magic b = Ok (take 8 data) /\
  ((is_plain_magic (take 8 data) /\ (12 <= length data)%nat) \/
   (is_enc_magic (take 8 data) /\ (44 <= length data)%nat)).
Proof.
  unfold from_raw, SIZE_HEADER, SIZE_ENCRYPTED_HEADER. intros H. case_if_in H; [done|]. zify_bool.
  assert (slice data 0 8 = Ok (take 8 data)) as Hm by (rewrite slice_ok by lia; by rewrite drop_0).
  rewrite Hm in H. case_if_in H.
  - case_if_in H; [done|]. injection H as <-. zify_bool. split_and!; [done..|]. right.
    split; [|lia]. apply orb_true_iff in Heqb1 as [?%bool_decide_eq_true|?%bool_decide_eq_true];
      [by left|by right].
  - case_if_in H; [|done]. injection H as <-. split_and!; [done..|]. left. split; [|lia].
    apply orb_true_iff in Heqb2 as [?%bool_decide_eq_true|?%bool_decide_eq_true]; [by right|by left].
Qed.

Lemma from_raw_no_panic data : is_panic (from_raw data) = false.
Proof.
  unfold from_raw. case_if; [done|]. unfold SIZE_HEADER in *. zify_bool.
  rewrite slice_ok by lia. repeat case_if; done.
Qed.

Lemma slice_no_panic {A} (l : list A) a :
  0 <= a <= Z.of_nat (length l) -> exists x, slice l a (Z.of_nat (length l)) = Ok x.
Proof. intros. rewrite slice_ok by lia. eauto. Qed.

(** The CRC of a loaded blob can be computed, over everything after the header. *)
Lemma compute_crc_loaded data b :
  from_raw data = Ok b ->
  exists n, header_size (take 8 data) = Ok (Z.of_nat n) /\ (n <= length data)%nat /\
    compute_crc P b = Ok (crc32 P (drop n data)) /\
    crc b = Ok (le_val (take 4 (drop 8 data))).
Proof.
  intros Hr. apply from_raw_inv in Hr as (Hd & Hm & Hk). destruct b as [d]. simpl in Hd. subst d.
  assert (exists n, header_size (take 8 data) = Ok (Z.of_nat n) /\ (12 <= n <= length data)%nat)
    as (n & Hh & Hn).
  { destruct Hk as [[Hk Hl]|[Hk Hl]].
    - exists 12%nat. split; [by apply plain_header|lia].
    - exists 44%nat. split; [by apply enc_header|lia]. }
  exists n. split_and!; [done|lia| |].
  - unfold compute_crc. rewrite Hm, Hh. cbn [raw_data]. rewrite slice_ok by lia.
    rewrite Nat2Z.id, take_ge; [done|]. rewrite length_drop. lia.
  - unfold crc. cbn [raw_data]. rewrite slice_ok; [done|done|done|unfold CRC_OFFSET; lia].
Qed.

(** Library functions report failures as errors. *)
Record prims_total : Prop := {
  t_crypter_new e k iv : is_panic (crypter_new P e k iv) = false;
  t_crypter_update c p : is_panic (crypter_update P c p) = false;
  t_crypter_set_tag c t : is_panic (crypter_set_tag P c t) = false;
  t_crypter_finalize c : is_panic (crypter_finalize P c) = false;
  t_decrypt_aead k iv d t : is_panic (decrypt_aead P k iv d t) = false;
  t_decode_all z : is_panic (zstd_decode_all P z) = false;
  t_zdec_new : is_panic (zdec_new P) = false;
  t_zdec_write d p : is_panic (zdec_write P d p) = false;
  t_zdec_flush d : is_panic (zdec_flush P d) = false;
}.

Lemma run_fold_no_panic {S} (step : S -> list byte -> res S) s pieces :
  (forall s p, is_panic (step s p) = false) -> is_panic (run_fold step s pieces) = false.
Proof.
  intros Hs. revert s. induction pieces as [|p pieces IH]; intros s; simpl; [done|].
  specialize (Hs s p). by destruct (step s p).
Qed.

Ltac prim_step lem :=
  let H := fresh in pose proof lem as H;
  match type of H with is_panic ?m = false => destruct m as [?| |]; [|done..]; clear H end.

Lemma decode_compressed_no_panic config data iv tag :
  prims_total -> is_panic (decode_compressed_chunk P config data iv tag) = false.
Proof.
  intros Ht. unfold decode_compressed_chunk, data_crypter.
  prim_step (t_zdec_new Ht). prim_step (t_crypter_new Ht false (enc_key config) iv).
  pose proof block_size_ok as Hbs.
  destruct (feed_pieces dec_step (BUFFER_SIZE - block_size P) (S (length data)) data 0)
    as (pieces & Hc & Hf); [unfold BUFFER_SIZE; lia|lia|lia|].
  unfold dec_step in Hf. rewrite Hf. fold dec_step.
  assert (forall s, is_panic (run_fold dec_step s pieces) = false) as Hfold.
  { intros s. apply run_fold_no_panic. intros [c' d'] p. unfold dec_step.
    pose proof (t_crypter_update Ht c' p). destruct (crypter_update P c' p) as [[o c'']| |]; [|done..].
    prim_step (t_zdec_write Ht d' o). done. }
  pose proof (Hfold (a0, a)) as Hp. destruct (run_fold dec_step _ _) as [[c1 dec1]| |]; [|done..].
  prim_step (t_crypter_set_tag Ht c1 tag).
  pose proof (t_crypter_finalize Ht a1). destruct (crypter_finalize P a1) as [[rest c3]| |]; [|done..].
  destruct (0 <? _).
  - prim_step (t_zdec_write Ht dec1 rest). by prim_step (t_zdec_flush Ht a2).
  - by prim_step (t_zdec_flush Ht dec1).
Qed.

Lemma decode_no_panic data b config expected :
  prims_total -> from_raw data = Ok b -> is_panic (decode P b config expected) = false.
Proof.
  intros Ht Hr. apply from_raw_inv in Hr as (Hd & Hm & Hk). destruct b as [d]. simpl in Hd. subst d.
  assert (forall d c, is_panic (match expected with
            | Some x => let? _ := verify_digest P d c x in Ok d | None => Ok d end) = false) as Hend.
  { intros d c. destruct expected; [|done]. unfold verify_digest. by case_if. }
  unfold decode. rewrite Hm. cbn [raw_data]. unfold SIZE_HEADER, SIZE_ENCRYPTED_HEADER.
  assert (12 <= length data)%nat as Hl by (destruct Hk as [[_ ?]|[_ ?]]; lia).
  destruct (slice_no_panic data 12) as [x ->]; [lia|].
  case_if; [apply Hend|]. case_if; [prim_step (t_decode_all Ht x); apply Hend|].
  destruct Hk as [[[Hk|Hk] _]|[_ Hl']]; [zify_bool; congruence..|].
  case_if; [|done]. rewrite slice_ok by lia. destruct config as [config|]; [|done].
  destruct (slice_no_panic data 44) as [y ->]; [lia|]. set (h := encrypted_header_of_bytes _).
  case_if.
  - pose proof (decode_compressed_no_panic config y (eh_iv h) (eh_tag h) Ht) as Hc.
    destruct (decode_compressed_chunk _ _ _ _ _); [apply Hend|done..].
  - unfold decode_uncompressed_chunk.
    prim_step (t_decrypt_aead Ht (enc_key config) (eh_iv h) y (eh_tag h)). apply Hend.
Qed.

(** The digest and the length that [verify_unencrypted] compares. *)
Lemma decode_expected b config d :
  (exists m, magic b = Ok m /\ ~ is_enc_magic m) ->
  forall data, decode P b config (Some d) = Ok data ->
  decode P b config None = Ok data /\ sha256 P data = d.
Proof.
  intros (m & Hm & Hk) data. unfold decode. rewrite Hm.
  assert (bool_decide (m = ENCR_COMPR_BLOB_MAGIC_1_0) || bool_decide (m = ENCRYPTED_BLOB_MAGIC_1_0)
    = false) as ->.
  { apply orb_false_iff. rewrite !bool_decide_eq_false. unfold is_enc_magic in Hk. tauto. }
  unfold verify_digest. intros H. inv_ok; done.
Qed.
End laws.
End BlobSpec.
Import BlobSpec.

(** A builder set up for [data], as the upload code does. *)
Definition chunk_builder (data : list byte) (config : option CryptConfig) (compress : bool)
    : res DataChunkBuilder :=
  let b := builder_compress compress (builder_new data) in
  match config with Some c => builder_crypt_config c b | None => Ok b end.

Section roundtrip.
Context (P : Prims) {HP : PrimsLaws P}.

Lemma payload_decodes data config compress :
  let '(m, payload) := payload_of P data config compress in
  (if config then is_enc_magic m else is_plain_magic m) /\
  (if decide (m = (if config then ENCRYPTED_BLOB_MAGIC_1_0 else UNCOMPRESSED_BLOB_MAGIC_1_0))
   then Ok payload else zstd_decode_all P payload) = Ok data.
Proof.
  unfold payload_of, is_enc_magic, is_plain_magic. destruct compress.
  - destruct (zstd_compress P data _) as [z|] eqn:Ez; destruct config; simpl; split; try tauto; try done;
      by apply zstd_ok in Ez as [_ ?].
  - destruct config; simpl; split; tauto || done.
Qed.

Lemma encoded_roundtrip iv data config compress :
  Z.of_nat (length data) <= MAX_BLOB_SIZE -> length iv = 16%nat ->
  (forall c, config = Some c -> length (enc_key c) = 32%nat) ->
  exists blob, encode P (Ok iv) data config compress = Ok blob /\
    from_raw_with_crc_check P (raw_data blob) = Ok blob /\
    is_encrypted blob = Ok (if config then true else false) /\
    forall expected, decode P blob config expected =
      match expected with
      | Some d => let? _ := verify_digest P data config d in Ok data
      | None => Ok data
      end.
Proof.
  intros Hmax Hiv Hk. pose proof (encode_ok P iv data config compress Hmax Hiv Hk) as He.
  pose proof (payload_decodes data config compress) as Hp.
  destruct (payload_of P data config compress) as [m payload]. rewrite He. destruct Hp as [Hm Hd].
  eexists. split; [done|]. cbn [raw_data]. destruct config as [c|].
  - pose proof (tag_len (enc_key c) iv payload) as Htag. split_and!.
    + by apply load_enc.
    + destruct (enc_header m Hm) as [_ Hl]. unfold is_encrypted, magic, enc_raw. cbn [raw_data].
      rewrite slice_front by (rewrite Hl; done). by destruct Hm as [-> | ->].
    + intros expected. apply decode_enc; auto.
  - split_and!.
    + by apply load_plain.
    + destruct (plain_header m Hm) as [_ Hl]. unfold is_encrypted, magic, unenc_raw. cbn [raw_data].
      rewrite slice_front by (rewrite Hl; done). by destruct Hm as [-> | ->].
    + intros expected. by apply decode_plain.
Qed.

(** C3.  Everything a backup client stores can be restored.  A chunk builder with any
    data of at most 128 MiB, with or without compression and encryption, builds a blob and its
    digest; the raw bytes of that blob load with a valid checksum, the blob is encrypted
    exactly when a key was given, decoding it with the same key and the digest returns
    the data, and an unencrypted blob passes [verify_unencrypted]. *)
Theorem blob_roundtrip iv data config compress :
  Z.of_nat (length data) <= MAX_BLOB_SIZE -> length iv = 16%nat ->
  (forall c, config = Some c -> length (enc_key c) = 32%nat) ->
  exists builder blob d,
    chunk_builder data config compress = Ok builder /\
    build P (Ok iv) builder = Ok (blob, d) /\
    load_from_reader P (Ok (raw_data blob)) = Ok blob /\
    is_encrypted blob = Ok (if config then true else false) /\
    decode P blob config (Some d) = Ok data /\
    verify_unencrypted P blob (Z.of_nat (length data)) d = Ok tt.
Proof.
  intros Hmax Hiv Hk.
  destruct (encoded_roundtrip iv data config compress Hmax Hiv Hk) as (blob & He & Hl & Hen & Hdec).
  set (d := match config with Some c => compute_digest P c data | None => sha256 P data end).
  assert (decode P blob config (Some d) = Ok data) as Hd.
  { rewrite Hdec. unfold verify_digest. fold d. by rewrite bool_decide_eq_true_2. }
  assert (exists b, chunk_builder data config compress = Ok b /\ build P (Ok iv) b = Ok (blob, d))
    as (b & Hb & Hbuild).
  { destruct config as [c|]; (eexists; split; [done|]); unfold build; simpl; by rewrite He. }
  exists b, blob, d. split_and!; [done..|]. unfold verify_unencrypted, is_encrypted in *.
  destruct (magic blob) as [m| |]; [|done..]. injection Hen as Hen.
  destruct config as [c|]; rewrite Hen; [done|]. by rewrite Hd, Z.eqb_refl.
Qed.

(** Whatever bytes are read from the disk or the network, handling them as a blob
    never panics and never reads outside of the buffer: [from_raw] returns a blob or an error, and
    on a blob it accepted the checksum, the mode and (as long as the libraries report
    failures as errors) the data with any key and any expected digest can be asked for; a
    blob that passed the CRC check stores the CRC-32 of everything behind its header. *)
Theorem loaded_blob_safe data :
  prims_total P ->
  is_panic (from_raw data) = false /\
  is_panic (load_from_reader P (Ok data)) = false /\
  forall b, from_raw data = Ok b ->
    raw_data b = data /\ is_ok (crypt_mode b) = true /\
    is_ok (is_encrypted b) = true /\ is_ok (is_compressed b) = true /\
    (forall config expected, is_panic (decode P b config expected) = false) /\
    (forall n d, is_panic (verify_unencrypted P b n d) = false) /\
    exists n, header_size (take 8 data) = Ok (Z.of_nat n) /\ (n <= length data)%nat /\
      (load_from_reader P (Ok data) = Ok b <->
       le_val (take 4 (drop 8 data)) = crc32 P (drop n data)).
Proof.
  intros Ht. pose proof (from_raw_no_panic data) as Hp. split; [done|].
  unfold load_from_reader, from_raw_with_crc_check.
  destruct (from_raw data) as [b|e|e] eqn:Hr; [|done..].
  destruct (compute_crc_loaded P data b Hr) as (n & Hh & Hn & Hc & Hcrc).
  unfold verify_crc. rewrite Hc, Hcrc. split; [by case_if|]. intros ? [= <-].
  pose proof (from_raw_inv data b Hr) as (Hraw & Hm & Hk).
  pose proof (fun c e => decode_no_panic P data b c e Ht Hr) as Hdec.
  unfold crypt_mode, is_encrypted, is_compressed, verify_unencrypted. rewrite Hm.
  split_and!; [done| |done..| |].
  - destruct Hk as [[[-> | ->] _]|[[-> | ->] _]]; done.
  - intros m d. case_if; [done|]. pose proof (Hdec None (Some d)) as Hx.
    destruct (decode P b None (Some d)); [by case_if|done..].
  - exists n. split_and!; [done..|]. destruct (_ =? _) eqn:E; zify_bool; simpl.
    + by split.
    + split; [done|congruence].
Qed.

(** A chunk that passes [verify_unencrypted] with its expected size and digest is an
    encrypted one (which the server cannot check), or decodes without a key to data of exactly
    that length and SHA-256 digest. *)
Theorem verify_unencrypted_sound data b n d :
  from_raw data = Ok b -> verify_unencrypted P b n d = Ok tt ->
  is_encrypted b = Ok true \/
  exists content, decode P b None None = Ok content /\
    sha256 P content = d /\ Z.of_nat (length content) = n.
Proof.
  intros Hr Hv. pose proof (from_raw_inv data b Hr) as (_ & Hm & _).
  unfold verify_unencrypted in Hv. unfold is_encrypted. rewrite Hm in Hv |- *.
  destruct (bool_decide (_ = ENCR_COMPR_BLOB_MAGIC_1_0) || _) eqn:E; [by left|]. right.
  apply orb_false_iff in E as [E1%bool_decide_eq_false E2%bool_decide_eq_false].
  destruct (decode P b None (Some d)) as [content| |] eqn:Ed; [|done..].
  apply (decode_expected P) in Ed as [? ?].
  - exists content. split_and!; [done..|]. case_if_in Hv; [done|]. zify_bool. lia.
  - exists (take 8 data). split; [done|]. by intros [?|?].
Qed.
End roundtrip.

(** ** An instance: a cipher that only tags, a compressor of runs of zeros *)
Module ToyPrims.
Definition toy_tag (key iv : list byte) : list byte := resize 16 x00 (iv ++ key).
Definition is_zeros (l : list byte) : bool := forallb (fun b => bool_decide (b = x00)) l.
Definition toy_compress (data : list byte) (n : Z) : list byte + Z :=
  if is_zeros data && (1 <=? n) && (Z.of_nat (length data) <? 256)
  then inl [byte_of_Z (Z.of_nat (length data))] else inr (-70).
Definition toy_decode_all (z : list byte) : res (list byte) :=
  match z with [b] => Ok (replicate (Z.to_nat (byte_to_Z b)) x00) | _ => Err "corrupt" end.

(** Its cipher has the tag to compare with, and the tag that was set. *)
Definition toy : Prims := {|
  sha256 := resize 32 x00;
  crc32 l := u32 (le_val l);
  crypter := list byte * option (list byte);
  crypter_new encrypt key iv := Ok (toy_tag key iv, None);
  crypter_update c p := Ok (p, c);
  crypter_set_tag c t := Ok (c.1, Some t);
  crypter_finalize c :=
    match c.2 with
    | Some t => if bool_decide (t = c.1) then Ok ([], c) else Err "bad tag"
    | None => Ok ([], c)
    end;
  crypter_get_tag c := Ok c.1;
  block_size := 1;
  decrypt_aead key iv data tag := if bool_decide (tag = toy_tag key iv) then Ok data else Err "bad tag";
  zstd_compress := toy_compress;
  zstd_decode_all := toy_decode_all;
  zdec := list byte * list byte;
  zdec_new := Ok ([], []);
  zdec_write d p := Ok (d.1 ++ p, d.2);
  zdec_flush d := let? out := toy_decode_all d.1 in Ok (d.1, out);
  zdec_into_inner d := d.2;
|}.

Lemma toy_run_update c pieces : run_update toy c pieces = Ok (concat pieces, c).
Proof. revert c. induction pieces as [|p pieces IH]; intros c; simpl; [done|]. by rewrite IH. Qed.
Lemma toy_run_zdec d pieces : run_zdec toy d pieces = Ok (d.1 ++ concat pieces, d.2).
Proof.
  revert d. induction pieces as [|p pieces IH]; intros d; simpl.
  - rewrite app_nil_r. by destruct d.
  - rewrite IH. simpl. by rewrite (assoc_L (++)).
Qed.
Lemma is_zeros_eq l : is_zeros l = true -> l = replicate (length l) x00.
Proof.
  induction l as [|x l IH]; [done|]. simpl. intros [?%bool_decide_eq_true H]%andb_true_iff.
  subst x. f_equal. auto.
Qed.

#[global] Instance toy_laws : PrimsLaws toy.
Proof.
  refine {| seal := (fun key iv data => (data, toy_tag key iv)) : _ |}.
  - intros l. apply length_resize.
  - intros l. unfold in_u32. apply wrapu_range. lia.
  - done.
  - intros key iv _ _. eexists. split; [done|]. intros pieces. rewrite toy_run_update.
    do 4 eexists. split_and!; [done..|]. simpl. by rewrite app_nil_r.
  - intros. apply length_resize.
  - intros key iv data _ _. eexists. split; [done|]. intros pieces Hc. rewrite toy_run_update.
    do 5 eexists. split_and!; [done|done| |].
    + simpl. by rewrite bool_decide_eq_true_2.
    + simpl. rewrite app_nil_r. done.
  - intros. simpl. by rewrite bool_decide_eq_true_2.
  - intros data n z. simpl. unfold toy_compress. intros H. case_if_in H; [|done]. zify_bool.
    injection H as <-. simpl. split; [lia|]. rewrite byte_to_of_Z, Z.mod_small, Nat2Z.id by lia.
    f_equal. symmetry. by apply is_zeros_eq.
  - intros pieces data H. simpl in H. setoid_rewrite toy_run_zdec. do 3 eexists. split_and!; [done..| |].
    + simpl. by rewrite H.
    + done.
Defined.

Lemma toy_total : prims_total toy.
Proof.
  split; try done; simpl.
  - intros [t o]. simpl. by repeat case_match.
  - intros. by case_match.
  - intros [|x [|y z]]; done.
  - intros [[|x [|y z]] o]; done.
Qed.

Definition key : CryptConfig := {| id_key := replicate 32 x01; enc_key := replicate 32 x02 |}.
End ToyPrims.
Import ToyPrims.

Lemma blob_roundtrip_witness :
  exists builder blob d,
    chunk_builder (replicate 20 x00) (Some key) true = Ok builder /\
    build toy (Ok (replicate 16 x07)) builder = Ok (blob, d) /\
    load_from_reader toy (Ok (raw_data blob)) = Ok blob /\
    is_encrypted blob = Ok true /\
    decode toy blob (Some key) (Some d) = Ok (replicate 20 x00) /\
    verify_unencrypted toy blob 20 d = Ok tt.
Proof.
  apply (blob_roundtrip toy (replicate 16 x07) (replicate 20 x00) (Some key) true).
  - vm_compute. discriminate.
  - reflexivity.
  - intros c [= <-]. reflexivity.
Defined.

Definition stored : list byte := UNCOMPRESSED_BLOB_MAGIC_1_0 ++ replicate 4 x00 ++ bytes "abc".

Lemma loaded_blob_safe_witness :
  is_panic (from_raw stored) = false /\ is_panic (load_from_reader toy (Ok stored)) = false.
Proof. destruct (loaded_blob_safe toy stored toy_total) as (H1 & H2 & _). split; assumption. Defined.

Lemma verify_unencrypted_sound_witness :
  exists content, decode toy {| raw_data := stored |} None None = Ok content /\
    sha256 toy content = resize 32 x00 (bytes "abc") /\ Z.of_nat (length content) = 3.
Proof.
  destruct (verify_unencrypted_sound toy stored {| raw_data := stored |} 3
    (resize 32 x00 (bytes "abc"))) as [H|H].
  - vm_compute. reflexivity.
  - vm_compute. reflexivity.
  - vm_compute in H. discriminate H.
  - exact H.
Defined.
