(* ===== verification/Catalog.v ===== *)
(** * File catalogs, [pbs-datastore/src/catalog.rs]

    The catalog of a backup stores its directory tree: one block per directory, written
    when the directory ends, whose entries refer to the blocks of the
    subdirectories by the distance back to them.  Numbers are stored in seven bit
    groups.

    The writer is given with the bytes written so far; an operation that writes
    takes the outcome of the write call.  The reader is given by the bytes of the file;
    every operation seeks before it reads, so there is no position to keep.  The
    functions of the crate proxmox-io are the record [ReadExt], the mode bits of the crate
    pxar the record [Modes]. *)

From S2P Require Import Prelude IndexFile.
From Stdlib Require Import Strings.Byte.

(** ** Variable length integers *)

(** The loops of [catalog_encode_u64] and [catalog_encode_i64]; ten turns are
    enough for 64 bits.  [last] is what is pushed for the last group. *)
Fixpoint encode_groups (fuel : nat) (last : Z -> list byte) (d : Z) : list byte :=
  match fuel with
  | O => []
  | S fuel =>
      if d <? 128 then last d
      else byte_of_Z (Z.lor 128 (Z.land d 127)) :: encode_groups fuel last (Z.shiftr d 7)
  end.

Definition catalog_encode_u64 (v : Z) : list byte :=
  encode_groups 10 (fun d => [byte_of_Z d]) v.

Definition catalog_encode_i64 (v : Z) : list byte :=
  let d := if v <? 0 then u64 (u64 (i64 (-1 * i64 (v + 1))) + 1) else v in
  encode_groups 10
    (fun d => if v <? 0 then [byte_of_Z (Z.lor 128 d); x00] else [byte_of_Z d]) d.

(** [read_exact] from a slice. *)
Definition read_exact (n : Z) (cursor : list byte) : res (list byte * list byte) :=
  if Z.of_nat (length cursor) <? n then Err "failed to fill whole buffer"
  else Ok (take (Z.to_nat n) cursor, drop (Z.to_nat n) cursor).
Definition read_u8 (cursor : list byte) : res (Z * list byte) :=
  match cursor with
  | [] => Err "failed to fill whole buffer"
  | b :: cursor => Ok (byte_to_Z b, cursor)
  end.

(** [for i in 0..10]: [k] turns are left. *)
Fixpoint decode_u64_loop (k : nat) (i v : Z) (cursor : list byte) : res (Z * list byte) :=
  match k with
  | O => Err "decode_u64 failed - missing end marker"
  | S k =>
      let? (t, cursor) := read_u8 cursor in
      if t <? 128 then Ok (Z.lor v (shl64 t (i * 7)), cursor)
      else decode_u64_loop k (i + 1) (Z.lor v (shl64 (Z.land t 127) (i * 7))) cursor
  end.
Definition catalog_decode_u64 (cursor : list byte) : res (Z * list byte) :=
  decode_u64_loop 10 0 0 cursor.

Fixpoint decode_i64_loop (k : nat) (i v : Z) (cursor : list byte) : res (Z * list byte) :=
  match k with
  | O => Err "decode_i64 failed - missing end marker"
  | S k =>
      let? (t, cursor) := read_u8 cursor in
      if t =? 0 then
        if v =? 0 then Ok (0, cursor)
        else Ok (i64 (i64 (i64 (u64 (v - 1)) * -1) - 1), cursor)
      else if t <? 128 then Ok (i64 (Z.lor v (shl64 t (i * 7))), cursor)
      else decode_i64_loop k (i + 1) (Z.lor v (shl64 (Z.land t 127) (i * 7))) cursor
  end.
Definition catalog_decode_i64 (cursor : list byte) : res (Z * list byte) :=
  decode_i64_loop 11 0 0 cursor.

(** ** Entries *)
Inductive CatalogEntryType :=
| TDirectory | TFile | TSymlink | THardlink | TBlockDevice | TCharDevice | TFifo | TSocket.

#[global] Instance CatalogEntryType_eq_dec : EqDecision CatalogEntryType.
Proof. solve_decision. Defined.

(** [etype as u8]. *)
Definition etype_u8 (t : CatalogEntryType) : byte :=
  match t with
  | TDirectory => "d" | TFile => "f" | TSymlink => "l" | THardlink => "h"
  | TBlockDevice => "b" | TCharDevice => "c" | TFifo => "p" | TSocket => "s"
  end%byte.

(** [TryFrom<u8>]. *)
Definition etype_try_from (value : Z) : res CatalogEntryType :=
  if value =? byte_to_Z "d" then Ok TDirectory else
  if value =? byte_to_Z "f" then Ok TFile else
  if value =? byte_to_Z "l" then Ok TSymlink else
  if value =? byte_to_Z "h" then Ok THardlink else
  if value =? byte_to_Z "b" then Ok TBlockDevice else
  if value =? byte_to_Z "c" then Ok TCharDevice else
  if value =? byte_to_Z "p" then Ok TFifo else
  if value =? byte_to_Z "s" then Ok TSocket else
  Err "invalid CatalogEntryType value".

Inductive DirEntryAttribute :=
| Directory (start : Z)
| File (size mtime : Z)
| Symlink | Hardlink | BlockDevice | CharDevice | Fifo | Socket.

#[global] Instance DirEntryAttribute_eq_dec : EqDecision DirEntryAttribute.
Proof. solve_decision. Defined.

(** [From<&DirEntryAttribute>]. *)
Definition etype_from (value : DirEntryAttribute) : CatalogEntryType :=
  match value with
  | Directory _ => TDirectory
  | File _ _ => TFile
  | Symlink => TSymlink
  | Hardlink => THardlink
  | BlockDevice => TBlockDevice
  | CharDevice => TCharDevice
  | Fifo => TFifo
  | Socket => TSocket
  end.

Record DirEntry := { e_name : list byte; e_attr : DirEntryAttribute }.

Definition DirEntry_new (etype : CatalogEntryType) (name : list byte) (start size mtime : Z)
    : DirEntry :=
  {| e_name := name;
     e_attr := match etype with
               | TDirectory => Directory start
               | TFile => File size mtime
               | TSymlink => Symlink
               | THardlink => Hardlink
               | TBlockDevice => BlockDevice
               | TCharDevice => CharDevice
               | TFifo => Fifo
               | TSocket => Socket
               end |}.

(** The constants of [pxar::mode]. *)
Record Modes := {
  IFDIR : Z; IFREG : Z; IFLNK : Z; IFBLK : Z; IFCHR : Z; IFIFO : Z; IFSOCK : Z;
}.

Definition get_file_mode (M : Modes) (e : DirEntry) : option Z :=
  match e_attr e with
  | Directory _ => Some (u32 (IFDIR M))
  | File _ _ => Some (u32 (IFREG M))
  | Symlink => Some (u32 (IFLNK M))
  | Hardlink => None
  | BlockDevice => Some (u32 (IFBLK M))
  | CharDevice => Some (u32 (IFCHR M))
  | Fifo => Some (u32 (IFIFO M))
  | Socket => Some (u32 (IFSOCK M))
  end.

Definition is_directory (e : DirEntry) : bool :=
  match e_attr e with Directory _ => true | _ => false end.
Definition is_symlink (e : DirEntry) : bool :=
  match e_attr e with Symlink => true | _ => false end.

(** ** Directory blocks *)
Record DirInfo := { d_name : list byte; d_entries : list DirEntry }.

Definition DirInfo_new (name : list byte) : DirInfo := {| d_name := name; d_entries := [] |}.
Definition new_rootdir : DirInfo := DirInfo_new (bytes "/").

(** What is appended to the table; writing to a [Vec] cannot fail. *)
Definition encode_entry (entry : DirEntry) (pos : Z) : list byte :=
  let name := e_name entry in
  let head t := [etype_u8 t] ++ catalog_encode_u64 (Z.of_nat (length name)) ++ name in
  match e_attr entry with
  | Directory start => head TDirectory ++ catalog_encode_u64 (u64 (pos - start))
  | File size mtime => head TFile ++ catalog_encode_u64 size ++ catalog_encode_i64 mtime
  | Symlink => head TSymlink
  | Hardlink => head THardlink
  | BlockDevice => head TBlockDevice
  | CharDevice => head TCharDevice
  | Fifo => head TFifo
  | Socket => head TSocket
  end.

Definition DirInfo_encode (dir : DirInfo) (start : Z) : list byte * list byte :=
  let table := catalog_encode_u64 (Z.of_nat (length (d_entries dir)))
               ++ concat (map (fun entry => encode_entry entry start) (d_entries dir)) in
  (d_name dir, catalog_encode_u64 (Z.of_nat (length table)) ++ table).

(** [parse]: the callback has the effects of the closure on [St] and tells whether to
    continue.  Every turn reads a byte, so that the length of the data bounds the turns
    ([fuel]) whatever the stored number of entries is. *)
Section parse.
Context {St : Type}.
Variable callback : CatalogEntryType -> list byte -> Z -> Z -> Z -> St -> res bool * St.

Definition NAME_BUF_LEN : Z := 4096.

(** One turn of the loop, up to the test of [cont]. *)
Definition parse_entry (cursor : list byte) (st : St) : res (bool * list byte) * St :=
  try! (b, cursor) := read_u8 cursor for st in
  try! etype := etype_try_from b for st in
  try! (name_len, cursor) := catalog_decode_u64 cursor for st in
  if NAME_BUF_LEN <=? name_len then (Err "directory entry name too long", st) else
  try! (name, cursor) := read_exact name_len cursor for st in
  match etype with
  | TDirectory =>
      try! (offset, cursor) := catalog_decode_u64 cursor for st in
      let! cont, st := callback etype name offset 0 0 st in (Ok (cont, cursor), st)
  | TFile =>
      try! (size, cursor) := catalog_decode_u64 cursor for st in
      try! (mtime, cursor) := catalog_decode_i64 cursor for st in
      let! cont, st := callback etype name 0 size mtime st in (Ok (cont, cursor), st)
  | _ =>
      let! cont, st := callback etype name 0 0 0 st in (Ok (cont, cursor), st)
  end.

Fixpoint parse_loop (fuel : nat) (entries : Z) (cursor : list byte) (st : St) : res unit * St :=
  if entries <=? 0 then
    match cursor with
    | [] => (Ok tt, st)
    | _ => (Err "unable to parse whole catalog data block", st)
    end
  else
    match fuel with
    | O => (Panic "out of fuel", st)
    | S fuel =>
        let! (cont, cursor), st := parse_entry cursor st in
        if negb cont then (Ok tt, st) else parse_loop fuel (entries - 1) cursor st
    end.

Definition DirInfo_parse (data : list byte) (st : St) : res unit * St :=
  try! (entries, cursor) := catalog_decode_u64 data for st in
  parse_loop (S (length cursor)) entries cursor st.
End parse.

(** ** [CatalogWriter] *)

(** [dirstack] has its last element first. *)
Record CatalogWriter := { written : list byte; dirstack : list DirInfo; w_pos : Z }.

(** The outcome of [Write::write_all]: success, or an error after some bytes. *)
Definition io_outcome : Type := option (nat * string).

Definition write_all (io : io_outcome) (data : list byte) (w : CatalogWriter)
    : res unit * CatalogWriter :=
  match io with
  | Some (n, e) => (Err e, {| written := written w ++ take n data; dirstack := dirstack w;
                              w_pos := w_pos w |})
  | None => (Ok tt, {| written := written w ++ data; dirstack := dirstack w;
                       w_pos := u64 (w_pos w + Z.of_nat (length data)) |})
  end.

Definition CatalogWriter_new (io : io_outcome) : res CatalogWriter :=
  let me := {| written := []; dirstack := [new_rootdir]; w_pos := 0 |} in
  match write_all io PROXMOX_CATALOG_FILE_MAGIC_1_0 me with
  | (Ok _, me) => Ok me
  | (Err e, _) => Err e
  | (Panic e, _) => Panic e
  end.

Definition with_dirstack (w : CatalogWriter) (ds : list DirInfo) : CatalogWriter :=
  {| written := written w; dirstack := ds; w_pos := w_pos w |}.

(** [io_data], [io_start] and [io_flush] are the outcomes of the two writes and of [flush]. *)
Definition finish (io_data io_start : io_outcome) (io_flush : res unit) (w : CatalogWriter)
    : res unit * CatalogWriter :=
  if negb (length (dirstack w) =? 1)%nat then (Err "unable to finish catalog at level", w) else
  match dirstack w with
  | [] => (Panic "called `Option::unwrap()` on a `None` value", w)
  | dir :: ds =>
      let w := with_dirstack w ds in
      let start := w_pos w in
      let '(_, data) := DirInfo_encode dir start in
      let! _, w := write_all io_data data w in
      let! _, w := write_all io_start (le_bytes 8 start) w in
      (io_flush, w)
  end.

Definition start_directory (name : list byte) (w : CatalogWriter) : res unit * CatalogWriter :=
  (Ok tt, with_dirstack w (DirInfo_new name :: dirstack w)).

(** [dirstack.last_mut().ok_or_else(..)?.entries.push(entry)], the body of the
    [add_*] methods. *)
Definition push_entry (entry : DirEntry) (w : CatalogWriter) : res unit * CatalogWriter :=
  match dirstack w with
  | [] => (Err "outside root", w)
  | dir :: ds =>
      (Ok tt, with_dirstack w
        ({| d_name := d_name dir; d_entries := d_entries dir ++ [entry] |} :: ds))
  end.

Definition end_directory (io : io_outcome) (w : CatalogWriter) : res unit * CatalogWriter :=
  match dirstack w with
  | [] => (Err "got unexpected end_directory level 0", w)
  | dir :: ds =>
      let w := with_dirstack w ds in
      let start := w_pos w in
      let '(name, data) := DirInfo_encode dir start in
      let! _, w := write_all io data w in
      push_entry {| e_name := name; e_attr := Directory start |} w
  end.

Definition add_file (name : list byte) (size mtime : Z) : CatalogWriter -> res unit * CatalogWriter :=
  push_entry {| e_name := name; e_attr := File size mtime |}.
Definition add_symlink (name : list byte) : CatalogWriter -> res unit * CatalogWriter :=
  push_entry {| e_name := name; e_attr := Symlink |}.
Definition add_hardlink (name : list byte) : CatalogWriter -> res unit * CatalogWriter :=
  push_entry {| e_name := name; e_attr := Hardlink |}.
Definition add_block_device (name : list byte) : CatalogWriter -> res unit * CatalogWriter :=
  push_entry {| e_name := name; e_attr := BlockDevice |}.
Definition add_char_device (name : list byte) : CatalogWriter -> res unit * CatalogWriter :=
  push_entry {| e_name := name; e_attr := CharDevice |}.
Definition add_fifo (name : list byte) : CatalogWriter -> res unit * CatalogWriter :=
  push_entry {| e_name := name; e_attr := Fifo |}.
Definition add_socket (name : list byte) : CatalogWriter -> res unit * CatalogWriter :=
  push_entry {| e_name := name; e_attr := Socket |}.

(** ** [CatalogReader] *)

(** [proxmox_io::ReadExt], on the bytes that follow the position. *)
Record ReadExt := {
  read_le_u64 : list byte -> res Z;
  read_exact_allocated : list byte -> Z -> res (list byte);
}.
(** What the reader relies on: both read from the front, if there is enough. *)
Class ReadExtLaws (R : ReadExt) := {
  read_le_u64_ok a b : length a = 8%nat -> read_le_u64 R (a ++ b) = Ok (le_val a);
  read_exact_allocated_ok a b : read_exact_allocated R (a ++ b) (Z.of_nat (length a)) = Ok a;
}.

Section reader.
Variable R : ReadExt.
Variable file : list byte.

(** [seek(SeekFrom::Start(start))]: reading behind the end finds no bytes.  An offset
    above [i64::MAX] is refused. *)
Definition seek_start (start : Z) : res (list byte) :=
  if I64_MAX <? start then Err "Invalid argument" else
  Ok (drop (Z.to_nat (start `min` Z.of_nat (length file))) file).
(** [seek(SeekFrom::End(-n))]. *)
Definition seek_end (n : Z) : res (list byte) :=
  if Z.of_nat (length file) <? n then Err "Invalid argument"
  else Ok (drop (length file - Z.to_nat n) file).

Definition root : res DirEntry :=
  let? cursor := seek_start 0 in
  let? (magic, _) := read_exact 8 cursor in
  if negb (bool_decide (magic = PROXMOX_CATALOG_FILE_MAGIC_1_0))
  then Err "got unexpected magic number for catalog" else
  let? cursor := seek_end 8 in
  let? start := read_le_u64 R cursor in
  Ok {| e_name := []; e_attr := Directory start |}.

Definition read_raw_dirinfo_block (start : Z) : res (list byte) :=
  let? cursor := seek_start start in
  let? (size, cursor) := catalog_decode_u64 cursor in
  if size <? 1 then Err "got small directory size" else
  read_exact_allocated R cursor size.

(** The closure of [read_dir], [entry_list] the captured list. *)
Definition read_dir_callback (start : Z) (etype : CatalogEntryType) (name : list byte)
    (offset size mtime : Z) (entry_list : list DirEntry) : res bool * list DirEntry :=
  (Ok true, entry_list ++ [DirEntry_new etype name (u64 (start - offset)) size mtime]).

Definition read_dir (parent : DirEntry) : res (list DirEntry) :=
  match e_attr parent with
  | Directory start =>
      let? data := read_raw_dirinfo_block start in
      match DirInfo_parse (read_dir_callback start) data [] with
      | (Ok _, entry_list) => Ok entry_list
      | (Err e, _) => Err e
      | (Panic e, _) => Panic e
      end
  | _ => Err "parent is not a directory - internal error"
  end.

(** The closure of [lookup]. *)
Definition lookup_callback (filename : list byte) (start : Z) (etype : CatalogEntryType)
    (name : list byte) (offset size mtime : Z) (item : option DirEntry)
    : res bool * option DirEntry :=
  if negb (bool_decide (name = filename)) then (Ok true, item) else
  (Ok false, Some (DirEntry_new etype name (u64 (start - offset)) size mtime)).

Definition lookup (parent : DirEntry) (filename : list byte) : res (option DirEntry) :=
  match e_attr parent with
  | Directory start =>
      let? data := read_raw_dirinfo_block start in
      match DirInfo_parse (lookup_callback filename start) data None with
      | (Ok _, item) => Ok item
      | (Err e, _) => Err e
      | (Panic e, _) => Panic e
      end
  | _ => Err "parent is not a directory - internal error"
  end.

(** [slice.split(|c| *c == b'/')]. *)
Fixpoint split_slash (path : list byte) : list (list byte) :=
  match path with
  | [] => [[]]
  | c :: path =>
      if bool_decide (c = "/"%byte) then [] :: split_slash path
      else match split_slash path with
           | p :: ps => (c :: p) :: ps
           | [] => [[c]]
           end
  end.

Fixpoint lookup_components (components : list (list byte)) (current : DirEntry) : res DirEntry :=
  match components with
  | [] => Ok current
  | comp :: components =>
      let? found := lookup current comp in
      match found with
      | Some entry => lookup_components components entry
      | None => Err "path not found in catalog"
      end
  end.

Definition strip_slash (path : list byte) : list byte :=
  match path with
  | c :: rest => if bool_decide (c = "/"%byte) then rest else path
  | [] => path
  end.

Definition lookup_recursive (path : list byte) : res DirEntry :=
  let? current := root in
  if bool_decide (path = bytes "/") then Ok current
  else lookup_components (split_slash (strip_slash path)) current.

(** [PathBuf::push] with a Unix path. *)
Definition path_push (path name : list byte) : list byte :=
  match name with
  | "/"%byte :: _ => name
  | _ => match last path with
         | None => path ++ name
         | Some "/"%byte => path ++ name
         | Some _ => path ++ bytes "/" ++ name
         end
  end.

(** A line that [dump_dir] logs: the type, the path and for files size and time. *)
Definition dump_line : Type := CatalogEntryType * list byte * option (Z * Z).

(** [dump_dir] appends to the log.  [fuel] bounds the depth of the recursion. *)
Fixpoint dump_dir (fuel : nat) (prefix : list byte) (start : Z) (log : list dump_line)
    : res unit * list dump_line :=
  match fuel with
  | O => (Panic "out of fuel", log)
  | S fuel =>
      try! data := read_raw_dirinfo_block start for log in
      DirInfo_parse (fun etype name offset size mtime log =>
        let path := path_push prefix name in
        match etype with
        | TDirectory =>
            let log := log ++ [(etype, path, None)] in
            if start <? offset then (Err "got wrong directory offset", log) else
            let pos := start - offset in
            let! _, log := dump_dir fuel path pos log in (Ok true, log)
        | TFile => (Ok true, log ++ [(etype, path, Some (size, mtime))])
        | _ => (Ok true, log ++ [(etype, path, None)])
        end) data log
  end.

Definition dump (fuel : nat) (log : list dump_line) : res unit * list dump_line :=
  try! r := root for log in
  match e_attr r with
  | Directory start => dump_dir fuel (bytes "./") start log
  | _ => (Err "unexpected root entry type, not a directory!", log)
  end.

(** [find], with the [MatchList] as a function and the effects of the callback on [St].
    [file_path] is the caller's buffer. *)
Inductive MatchType := Include | Exclude.

Section find.
Context {St : Type}.
Variable M : Modes.
Variable matches : list byte -> option Z -> res (option MatchType).
Variable callback : list byte -> St -> res unit * St.

(** The path of an entry below [file_path] of length [file_len]. *)
Definition entry_path (file_path : list byte) (file_len : nat) (e : DirEntry) : list byte :=
  let file_path := take file_len file_path in
  let file_path := match e_name e with
                   | "/"%byte :: _ => file_path
                   | _ => file_path ++ bytes "/"
                   end in
  file_path ++ e_name e.

(** The loop over the entries, [rec] the recursive call. *)
Fixpoint find_loop (rec : DirEntry -> list byte -> St -> res unit * (list byte * St))
    (file_len : nat) (es : list DirEntry) (file_path : list byte) (st : St)
    : res unit * (list byte * St) :=
  match es with
  | [] => (Ok tt, (take file_len file_path, st))
  | e :: es =>
      let file_path := entry_path file_path file_len e in
      let descend st :=
        if is_directory e then
          let! _, s := rec e file_path st in find_loop rec file_len es s.1 s.2
        else find_loop rec file_len es file_path st in
      match matches file_path (get_file_mode M e) with
      | Ok (Some Exclude) => find_loop rec file_len es file_path st
      | Ok (Some Include) =>
          match callback file_path st with
          | (Ok _, st) => descend st
          | (Err e, st) => (Err e, (file_path, st))
          | (Panic e, st) => (Panic e, (file_path, st))
          end
      | Panic e => (Panic e, (file_path, st))
      | _ => descend st
      end
  end.

Fixpoint find (fuel : nat) (parent : DirEntry) (file_path : list byte) (st : St)
    : res unit * (list byte * St) :=
  match fuel with
  | O => (Panic "out of fuel", (file_path, st))
  | S fuel =>
      try! es := read_dir parent for (file_path, st) in
      find_loop (find fuel) (length file_path) es file_path st
  end.
End find.
End reader.

(** ** [ArchiveEntry] *)
Record ArchiveEntry := {
  filepath : string; text : string; entry_type : string; leaf : bool;
  ae_size : option Z; ae_mtime : option Z;
}.

Section archive_entry.
(** [proxmox_base64::encode] and [String::from_utf8_lossy]. *)
Variables base64_encode from_utf8_lossy : list byte -> string.

Definition etype_to_string (t : CatalogEntryType) : string :=
  String.string_of_list_byte [etype_u8 t].

Definition new_with_size (path : list byte) (entry_type : option DirEntryAttribute)
    (size : option Z) : ArchiveEntry :=
  {| filepath := base64_encode path;
     text := from_utf8_lossy (default [] (last (split_slash path)));
     entry_type := match entry_type with
                   | Some entry_type => etype_to_string (etype_from entry_type)
                   | None => "v"
                   end;
     leaf := negb (match entry_type with None | Some (Directory _) => true | _ => false end);
     ae_size := size;
     ae_mtime := match entry_type with Some (File _ mtime) => Some mtime | _ => None end |}.

Definition ArchiveEntry_new (path : list byte) (entry_type : option DirEntryAttribute)
    : ArchiveEntry :=
  let size := match entry_type with Some (File size _) => Some size | _ => None end in
  new_with_size path entry_type size.

Definition list_dir_contents (R : ReadExt) (file path : list byte) : res (list ArchiveEntry) :=
  let? dir := lookup_recursive R file path in
  let path := strip_slash path in
  let? entries := read_dir R file dir in
  Ok (map (fun direntry =>
        let components := path ++ bytes "/" ++ e_name direntry in
        let entry := ArchiveEntry_new components (Some (e_attr direntry)) in
        match e_attr direntry with
        | File size mtime =>
            {| filepath := filepath entry; text := text entry; entry_type := entry_type entry;
               leaf := leaf entry; ae_size := Some size; ae_mtime := Some mtime |}
        | _ => entry
        end) entries).
End archive_entry.
