(* ===== verification/CatalogSpec.v ===== *)
(** * File catalogs: codec, tree round trip and traversal *)

From S2P Require Import Prelude IndexFile Catalog.
From Stdlib Require Import Strings.Byte.

Module VarInt.
(** ** The seven bit groups *)
Lemma lor_shift v a n : 0 <= n -> 0 <= v < 2 ^ n -> Z.lor v (Z.shiftl a n) = v + a * 2 ^ n.
Proof.
  intros Hn Hv. rewrite <- Z.shiftl_mul_pow2 by done.
  assert (Z.land v (Z.shiftl a n) = 0) as H0.
  { apply Z.bits_inj'. intros k Hk. rewrite Z.land_spec, Z.bits_0, Z.shiftl_spec by done.
    destruct (decide (k < n)).
    - by rewrite (Z.testbit_neg_r a) by lia; rewrite andb_false_r.
    - rewrite Z.testbit_eqb, Z.div_small; [done| |lia].
      split; [lia|]. apply Z.lt_le_trans with (2 ^ n); [lia|]. apply Z.pow_le_mono_r; lia. }
  pose proof (Z.add_lor_land v (Z.shiftl a n)). lia.
Qed.

Lemma low_group d : byte_to_Z (byte_of_Z (Z.lor 128 (Z.land d 127))) = 128 + d mod 128.
Proof.
  rewrite byte_to_of_Z. change 127 with (2 ^ 7 - 1). rewrite land_pred_pow2 by done.
  pose proof (Z.mod_pos_bound d 128 ltac:(lia)). change (2 ^ 7) with 128.
  rewrite Z.lor_comm. change 128 with (Z.shiftl 1 7) at 2. rewrite lor_shift by lia.
  rewrite Z.mod_small; lia.
Qed.

Lemma group_value d : Z.land (128 + d mod 128) 127 = d mod 128.
Proof.
  change 127 with (2 ^ 7 - 1). rewrite land_pred_pow2 by done. change (2 ^ 7) with 128.
  pose proof (Z.mod_pos_bound d 128 ltac:(lia)).
  replace (128 + d mod 128) with (d mod 128 + 1 * 128) by lia.
  rewrite Z_mod_plus_full, Z.mod_mod; lia.
Qed.

(** Adding a group to the value read so far. *)
Lemma add_group v t i :
  0 <= i <= 9 -> 0 <= v < 2 ^ (i * 7) -> 0 <= t -> v + t * 2 ^ (i * 7) < 2 ^ 64 ->
  Z.lor v (shl64 t (i * 7)) = v + t * 2 ^ (i * 7).
Proof.
  intros Hi Hv Ht Hb. unfold shl64. rewrite (Z.mod_small (i * 7)) by lia.
  rewrite Z.shiftl_mul_pow2 by lia.
  rewrite wrapu_small by (split; [apply Z.mul_nonneg_nonneg|]; lia).
  rewrite <- (lor_shift v t (i * 7)) by lia. by rewrite Z.shiftl_mul_pow2 by lia.
Qed.

Lemma split_group d : 0 <= d -> d = d mod 128 + 128 * Z.shiftr d 7.
Proof. intros. rewrite Z.shiftr_div_pow2 by done. change (2 ^ 7) with 128. pose proof (Z.div_mod d 128). lia. Qed.

(** One turn of a decoder on a group that is not the last one. *)
Lemma next_group v d i :
  0 <= i <= 9 -> 0 <= v < 2 ^ (i * 7) -> 128 <= d -> v + d * 2 ^ (i * 7) < 2 ^ 64 ->
  i < 9 /\
  let v' := Z.lor v (shl64 (d mod 128) (i * 7)) in
  0 <= v' < 2 ^ ((i + 1) * 7) /\ 0 < Z.shiftr d 7 /\
  v' + Z.shiftr d 7 * 2 ^ ((i + 1) * 7) = v + d * 2 ^ (i * 7).
Proof.
  intros Hi Hv Hd Hb. pose proof (split_group d ltac:(lia)) as Hs.
  pose proof (Z.mod_pos_bound d 128 ltac:(lia)) as Hm.
  assert (2 ^ ((i + 1) * 7) = 128 * 2 ^ (i * 7)) as Hp.
  { replace ((i + 1) * 7) with (7 + i * 7) by lia. by rewrite Z.pow_add_r by lia. }
  assert (0 < 2 ^ (i * 7)) as Hpos by lia. split.
  - destruct (decide (i = 9)) as [->|]; [|lia]. change (2 ^ (9 * 7)) with (2 ^ 63) in *. lia.
  - cbv zeta. rewrite add_group by nia. rewrite Hp. nia.
Qed.

Lemma decode_groups fuel i v d rest :
  0 <= i -> Z.of_nat fuel + i = 10 -> 0 <= v < 2 ^ (i * 7) -> 0 <= d ->
  v + d * 2 ^ (i * 7) < 2 ^ 64 -> i <= 9 ->
  decode_u64_loop fuel i v (encode_groups fuel (fun d => [byte_of_Z d]) d ++ rest)
  = Ok (v + d * 2 ^ (i * 7), rest).
Proof.
  revert i v d. induction fuel as [|fuel IH]; intros i v d Hi Hf Hv Hd Hb Hi9; [lia|].
  cbn [encode_groups decode_u64_loop]. destruct (d <? 128) eqn:E; zify_bool.
  - cbn [app read_u8]. rewrite byte_to_of_Z, Z.mod_small by lia.
    rewrite (proj2 (Z.ltb_lt _ _)) by done. by rewrite add_group by lia.
  - cbn [app read_u8]. rewrite low_group.
    rewrite (proj2 (Z.ltb_ge _ _)) by (pose proof (Z.mod_pos_bound d 128); lia).
    rewrite group_value. destruct (next_group v d i) as (Hi' & Hv' & Hd' & He); [lia..|].
    cbv zeta in *. rewrite <- He in Hb |- *. apply IH; lia.
Qed.

Lemma decode_encode_u64 v rest :
  in_u64 v -> catalog_decode_u64 (catalog_encode_u64 v ++ rest) = Ok (v, rest).
Proof.
  unfold in_u64, U64_MAX, catalog_decode_u64, catalog_encode_u64. intros Hv.
  rewrite decode_groups by (simpl; lia). simpl. do 2 f_equal. lia.
Qed.

(** ** Signed numbers *)
Definition last_i64 (v d : Z) : list byte :=
  if v <? 0 then [byte_of_Z (Z.lor 128 d); x00] else [byte_of_Z d].

(** The magnitude [catalog_encode_i64] encodes. *)
Lemma magnitude v :
  in_i64 v -> (if v <? 0 then u64 (u64 (i64 (-1 * i64 (v + 1))) + 1) else v) = Z.abs v.
Proof.
  unfold in_i64. intros Hv. case_if; zify_bool; [|lia].
  rewrite (i64_small (v + 1)), (i64_small (-1 * (v + 1))) by (unfold in_i64; lia).
  rewrite (u64_small (-1 * (v + 1))), u64_small by (unfold in_u64, U64_MAX; lia). lia.
Qed.

(** The value returned for a negative number of magnitude [d]. *)
Lemma negated d : 0 < d <= 2 ^ 63 -> i64 (i64 (i64 (u64 (d - 1)) * -1) - 1) = - d.
Proof.
  intros Hd. rewrite i64_u64, !i64_small by (unfold in_i64; rewrite ?i64_small; unfold in_i64; lia). lia.
Qed.

Lemma decode_i64_groups fuel i v x d rest :
  0 <= i <= 9 -> Z.of_nat fuel + i = 10 -> 0 <= v < 2 ^ (i * 7) -> 0 <= d ->
  v + d * 2 ^ (i * 7) = Z.abs x -> in_i64 x -> (x = 0 -> i = 0) -> (0 < i -> 0 < d) ->
  decode_i64_loop (S fuel) i v (encode_groups fuel (last_i64 x) d ++ rest) = Ok (x, rest).
Proof.
  unfold in_i64. revert i v d.
  induction fuel as [|fuel IH]; intros i v d Hi Hf Hv Hd Hx Hrange H0 Hpos; [lia|].
  remember (S fuel) as k eqn:Hk. cbn [decode_i64_loop]. subst k.
  cbn [encode_groups]. destruct (d <? 128) eqn:E; zify_bool.
  - unfold last_i64. case_if; zify_bool; cbn [app read_u8].
    + assert (byte_to_Z (byte_of_Z (Z.lor 128 d)) = 128 + d) as ->.
      { rewrite <- (Z.mod_small d 128), <- low_group by lia.
        change 127 with (2 ^ 7 - 1). by rewrite land_pred_pow2 by done. }
      rewrite (proj2 (Z.eqb_neq _ _)), (proj2 (Z.ltb_ge _ _)) by lia.
      rewrite <- (Z.mod_small d 128) at 1 by lia. rewrite group_value, Z.mod_small by lia.
      rewrite add_group by lia. cbn [decode_i64_loop read_u8].
      change (byte_to_Z x00 =? 0) with true. cbv iota.
      rewrite (proj2 (Z.eqb_neq _ _)) by lia. rewrite Hx, negated by lia. do 2 f_equal. lia.
    + rewrite byte_to_of_Z, Z.mod_small by lia. destruct (d =? 0) eqn:Ed; zify_bool.
      * assert (i = 0) as -> by lia. assert (v = 0) as -> by (simpl in *; lia).
        simpl in *. do 2 f_equal. lia.
      * rewrite (proj2 (Z.ltb_lt _ _)) by lia. rewrite add_group by lia.
        rewrite Hx, i64_small by (unfold in_i64; lia). do 2 f_equal. lia.
  - cbn [app read_u8]. rewrite low_group. pose proof (Z.mod_pos_bound d 128 ltac:(lia)).
    rewrite (proj2 (Z.eqb_neq _ _)), (proj2 (Z.ltb_ge _ _)) by lia. rewrite group_value.
    destruct (next_group v d i) as (Hi' & Hv' & Hd' & He); [lia..|]. cbv zeta in *.
    apply IH; try lia; nia.
Qed.

Lemma decode_encode_i64 v rest :
  in_i64 v -> catalog_decode_i64 (catalog_encode_i64 v ++ rest) = Ok (v, rest).
Proof.
  intros Hv. unfold catalog_decode_i64, catalog_encode_i64. rewrite magnitude by done.
  apply decode_i64_groups; try lia; simpl; unfold in_i64 in *; lia.
Qed.

(** What the unsigned encoder wrote, read as a signed number. *)
Lemma decode_i64_of_u64 fuel i v d rest :
  0 <= i <= 9 -> Z.of_nat fuel + i = 10 -> 0 <= v < 2 ^ (i * 7) -> 0 <= d ->
  v + d * 2 ^ (i * 7) < 2 ^ 64 -> (0 < i -> 0 < d) ->
  decode_i64_loop (S fuel) i v (encode_groups fuel (fun d => [byte_of_Z d]) d ++ rest)
  = Ok (i64 (v + d * 2 ^ (i * 7)), rest).
Proof.
  revert i v d. induction fuel as [|fuel IH]; intros i v d Hi Hf Hv Hd Hb Hpos; [lia|].
  remember (S fuel) as k eqn:Hk. cbn [decode_i64_loop]. subst k.
  cbn [encode_groups]. destruct (d <? 128) eqn:E; zify_bool; cbn [app read_u8].
  - rewrite byte_to_of_Z, Z.mod_small by lia. destruct (d =? 0) eqn:Ed; zify_bool.
    + assert (i = 0) as -> by lia. assert (v = 0) as -> by (simpl in *; lia). by subst d.
    + rewrite (proj2 (Z.ltb_lt _ _)) by lia. by rewrite add_group by lia.
  - rewrite low_group. pose proof (Z.mod_pos_bound d 128 ltac:(lia)).
    rewrite (proj2 (Z.eqb_neq _ _)), (proj2 (Z.ltb_ge _ _)) by lia. rewrite group_value.
    destruct (next_group v d i) as (Hi' & Hv' & Hd' & He); [lia..|]. cbv zeta in *.
    rewrite <- He in Hb |- *. apply IH; lia.
Qed.

(** Every number takes at least one byte. *)
Lemma encode_u64_nonempty v : (0 < length (catalog_encode_u64 v))%nat.
Proof.
  unfold catalog_encode_u64. generalize 9%nat. intros n. cbn [encode_groups].
  case_if; cbn [length]; lia.
Qed.
End VarInt.
Import VarInt.

Module Blocks.
(** ** Entries and blocks *)

(** An entry that can be stored in a block at [start]. *)
Definition entry_ok (start : Z) (e : DirEntry) : Prop :=
  Z.of_nat (length (e_name e)) < NAME_BUF_LEN /\
  match e_attr e with
  | Directory s => 0 <= s <= start
  | File size mtime => in_u64 size /\ in_i64 mtime
  | _ => True
  end.

(** What [parse] hands to the callback for an entry. *)
Definition call_entry {St A} (cb : CatalogEntryType -> list byte -> Z -> Z -> Z -> St -> A)
    (start : Z) (e : DirEntry) (st : St) : A :=
  match e_attr e with
  | Directory s => cb TDirectory (e_name e) (start - s) 0 0 st
  | File size mtime => cb TFile (e_name e) 0 size mtime st
  | a => cb (etype_from a) (e_name e) 0 0 0 st
  end.

Lemma etype_roundtrip t : etype_try_from (byte_to_Z (etype_u8 t)) = Ok t.
Proof. by destruct t. Qed.

Lemma read_exact_front (a b : list byte) : read_exact (Z.of_nat (length a)) (a ++ b) = Ok (a, b).
Proof.
  unfold read_exact. rewrite (proj2 (Z.ltb_ge _ _)) by (rewrite length_app; lia).
  by rewrite Nat2Z.id, take_app_length, drop_app_length.
Qed.

Section entry.
Context {St : Type} (cb : CatalogEntryType -> list byte -> Z -> Z -> Z -> St -> res bool * St).

Lemma parse_entry_head t name rest st :
  Z.of_nat (length name) < NAME_BUF_LEN ->
  parse_entry cb (([etype_u8 t] ++ catalog_encode_u64 (Z.of_nat (length name)) ++ name) ++ rest) st
  = match t with
    | TDirectory =>
        try! (offset, cursor) := catalog_decode_u64 rest for st in
        let! cont, st := cb t name offset 0 0 st in (Ok (cont, cursor), st)
    | TFile =>
        try! (size, cursor) := catalog_decode_u64 rest for st in
        try! (mtime, cursor) := catalog_decode_i64 cursor for st in
        let! cont, st := cb t name 0 size mtime st in (Ok (cont, cursor), st)
    | _ => let! cont, st := cb t name 0 0 0 st in (Ok (cont, rest), st)
    end.
Proof.
  unfold NAME_BUF_LEN. intros Hn. unfold parse_entry. cbn [app read_u8].
  rewrite etype_roundtrip, <- (assoc_L (++)).
  rewrite decode_encode_u64 by (unfold in_u64, U64_MAX; lia).
  rewrite (proj2 (Z.leb_gt _ _)) by done. by rewrite read_exact_front.
Qed.

Lemma parse_entry_encode start e rest st :
  start <= U64_MAX -> entry_ok start e ->
  parse_entry cb (encode_entry e start ++ rest) st =
    let! cont, st := call_entry cb start e st in (Ok (cont, rest), st).
Proof.
  intros Hs [Hn Ha]. destruct e as [name a]. unfold encode_entry, call_entry.
  cbn [e_name e_attr] in *.
  destruct a as [s|size mtime| | | | | |]; try by rewrite parse_entry_head.
  - rewrite u64_small by (unfold in_u64; lia).
    rewrite <- (assoc_L (++) (_ ++ _)), parse_entry_head by done.
    by rewrite decode_encode_u64 by (unfold in_u64; lia).
  - destruct Ha as [Hsize Hmtime].
    rewrite <- (assoc_L (++) (_ ++ _)), parse_entry_head by done. rewrite <- (assoc_L (++)).
    by rewrite decode_encode_u64, decode_encode_i64.
Qed.

(** The callback on the entries in turn, until it stops. *)
Fixpoint run_entries (start : Z) (es : list DirEntry) (st : St) : res unit * St :=
  match es with
  | [] => (Ok tt, st)
  | e :: es =>
      let! cont, st := call_entry cb start e st in
      if negb cont then (Ok tt, st) else run_entries start es st
  end.

Lemma parse_entries start es fuel st :
  start <= U64_MAX -> Forall (entry_ok start) es -> (length es <= fuel)%nat ->
  parse_loop cb fuel (Z.of_nat (length es)) (concat (map (fun e => encode_entry e start) es)) st
  = run_entries start es st.
Proof.
  intros Hs Hok. revert fuel st. induction Hok as [|e es He Hok IH]; intros fuel st Hf.
  - by destruct fuel.
  - cbn [length] in Hf. destruct fuel as [|fuel]; [lia|]. cbn [parse_loop map concat run_entries length].
    rewrite (proj2 (Z.leb_gt _ _)) by lia. rewrite parse_entry_encode by done.
    destruct (call_entry cb start e st) as [[cont| |] st']; [|done..].
    destruct (negb cont); [done|].
    replace (Z.of_nat (S (length es)) - 1) with (Z.of_nat (length es)) by lia. apply IH. lia.
Qed.

Lemma length_entries start es :
  (length es <= length (concat (map (fun e => encode_entry e start) es)))%nat.
Proof.
  induction es as [|e es IH]; [done|]. cbn [map concat length]. rewrite length_app.
  assert (0 < length (encode_entry e start))%nat; [|lia].
  unfold encode_entry. destruct (e_attr e); rewrite !length_app; simpl; lia.
Qed.

Definition table (es : list DirEntry) (start : Z) : list byte :=
  catalog_encode_u64 (Z.of_nat (length es)) ++ concat (map (fun e => encode_entry e start) es).

Lemma parse_table start es st :
  start <= U64_MAX -> Forall (entry_ok start) es -> Z.of_nat (length (table es start)) <= U64_MAX ->
  DirInfo_parse cb (table es start) st = run_entries start es st.
Proof.
  intros Hs Hok Hl. pose proof (length_entries start es) as Hle.
  unfold DirInfo_parse, table in *. rewrite length_app in Hl.
  rewrite decode_encode_u64 by (unfold in_u64; lia). apply parse_entries; [done..|]. lia.
Qed.
End entry.

(** The block of [es] is in [file] at [start]. *)
Definition block_at (file : list byte) (start : Z) (es : list DirEntry) : Prop :=
  exists pre post,
    file = pre ++ (catalog_encode_u64 (Z.of_nat (length (table es start))) ++ table es start) ++ post /\
    Z.of_nat (length pre) = start /\ Forall (entry_ok start) es.

Lemma block_at_app file start es more : block_at file start es -> block_at (file ++ more) start es.
Proof.
  intros (pre & post & -> & Hp & Hok). exists pre, (post ++ more). split_and!; [|done..].
  by rewrite <- !(assoc_L (++)).
Qed.

Lemma drop_min_app (pre rest : list byte) start :
  Z.of_nat (length pre) = start ->
  drop (Z.to_nat (start `min` Z.of_nat (length (pre ++ rest)))) (pre ++ rest) = rest.
Proof.
  intros <-. rewrite Z.min_l by (rewrite length_app; lia). by rewrite Nat2Z.id, drop_app_length.
Qed.

Section reader.
Context (R : ReadExt) {HR : ReadExtLaws R} (file : list byte).
Hypothesis Hfile : Z.of_nat (length file) <= I64_MAX.

Lemma read_block start es :
  block_at file start es ->
  read_raw_dirinfo_block R file start = Ok (table es start) /\
  start <= U64_MAX /\ Z.of_nat (length (table es start)) <= U64_MAX.
Proof.
  intros (pre & post & He & Hp & _). unfold I64_MAX, U64_MAX in *.
  assert (Z.of_nat (length (table es start)) <= I64_MAX /\ start <= I64_MAX) as [Hl Hs].
  { rewrite He, !length_app in Hfile. unfold I64_MAX. lia. }
  unfold I64_MAX in *. split; [|lia]. unfold read_raw_dirinfo_block, seek_start, I64_MAX.
  rewrite (proj2 (Z.ltb_ge _ _)) by done.
  rewrite He, drop_min_app, <- (assoc_L (++)) by done.
  rewrite decode_encode_u64 by (unfold in_u64, U64_MAX; lia).
  assert (0 < length (table es start))%nat
    by (unfold table; rewrite length_app; pose proof (encode_u64_nonempty (Z.of_nat (length es))); lia).
  rewrite (proj2 (Z.ltb_ge _ _)) by lia. apply read_exact_allocated_ok.
Qed.

Lemma parse_block {St} (cb : CatalogEntryType -> list byte -> Z -> Z -> Z -> St -> res bool * St)
    start es st :
  block_at file start es ->
  exists data, read_raw_dirinfo_block R file start = Ok data /\
    DirInfo_parse cb data st = run_entries cb start es st.
Proof.
  intros Hb. destruct (read_block _ _ Hb) as (Hr & Hs & Hl). exists (table es start).
  split; [done|]. apply parse_table; [done| |done]. by destruct Hb as (? & ? & _ & _ & ?).
Qed.

Lemma entry_new start e :
  start <= U64_MAX -> entry_ok start e ->
  forall {St} (k : DirEntry -> St -> res bool * St) (st : St),
  call_entry (fun t name offset size mtime => k (DirEntry_new t name (u64 (start - offset)) size mtime))
    start e st = k e st.
Proof.
  intros Hs [_ Ha] St k st. destruct e as [name a]. unfold call_entry. cbn [e_name e_attr] in *.
  destruct a as [s| | | | | | |]; try done. unfold DirEntry_new.
  replace (start - (start - s)) with s by lia. by rewrite u64_small by (unfold in_u64; lia).
Qed.

Lemma read_dir_block name start es :
  block_at file start es -> read_dir R file {| e_name := name; e_attr := Directory start |} = Ok es.
Proof.
  intros Hb. unfold read_dir. cbn [e_attr].
  destruct (parse_block (read_dir_callback start) start es [] Hb) as (data & -> & ->).
  destruct (read_block _ _ Hb) as (_ & Hs & _). destruct Hb as (? & ? & _ & _ & Hok).
  enough (forall acc, run_entries (read_dir_callback start) start es acc = (Ok tt, acc ++ es)) as ->
    by done.
  induction Hok as [|e es' He Hok IH]; intros acc; cbn [run_entries]; [by rewrite app_nil_r|].
  unfold read_dir_callback at 1.
  rewrite (entry_new start e Hs He (fun d acc => (Ok true, acc ++ [d]))). cbn [negb].
  by rewrite IH, <- (assoc_L (++)).
Qed.

Lemma lookup_block name start es filename :
  block_at file start es ->
  lookup R file {| e_name := name; e_attr := Directory start |} filename
  = Ok (snd <$> list_find (fun e => e_name e = filename) es).
Proof.
  intros Hb. unfold lookup. cbn [e_attr].
  destruct (parse_block (lookup_callback filename start) start es None Hb) as (data & -> & ->).
  destruct (read_block _ _ Hb) as (_ & Hs & _). destruct Hb as (? & ? & _ & _ & Hok).
  enough (run_entries (lookup_callback filename start) start es None
          = (Ok tt, snd <$> list_find (fun e => e_name e = filename) es)) as -> by done.
  induction Hok as [|e es' He Hok IH]; cbn [run_entries list_find]; [done|].
  assert (call_entry (lookup_callback filename start) start e None =
    if decide (e_name e = filename) then (Ok false, Some e) else (Ok true, None)) as ->.
  { rewrite <- (entry_new start e Hs He (fun d item =>
      if decide (e_name d = filename) then (Ok false, Some d) else (Ok true, item))).
    unfold call_entry, lookup_callback. destruct e as [n a].
    destruct a; cbn [e_name e_attr DirEntry_new]; by case_bool_decide; case_decide. }
  destruct (decide (e_name e = filename)); cbn [negb]; [done|]. rewrite IH.
  by destruct (list_find _ es') as [[? ?]|].
Qed.
End reader.
End Blocks.
Import Blocks.

Module Trees.
(** ** Directory trees *)
Inductive node :=
| NLeaf (name : list byte) (attr : DirEntryAttribute)
| NDir (name : list byte) (children : list node).

Section node_ind.
Variable P : node -> Prop.
Hypothesis Hleaf : forall name attr, P (NLeaf name attr).
Hypothesis Hdir : forall name children, Forall P children -> P (NDir name children).
Fixpoint node_ind' (n : node) : P n :=
  match n with
  | NLeaf name attr => Hleaf name attr
  | NDir name children =>
      Hdir name children ((fix go ch : Forall P ch :=
        match ch with
        | [] => Forall_nil_2 P
        | c :: ch => Forall_cons_2 P c ch (node_ind' c) (go ch)
        end) children)
  end.
End node_ind.

Definition node_name (n : node) : list byte :=
  match n with NLeaf name _ => name | NDir name _ => name end.

Fixpoint depth (n : node) : nat :=
  match n with
  | NLeaf _ _ => O
  | NDir _ children => S (foldr (fun c => Nat.max (depth c)) O children)
  end.

(** Names fit into the buffer of [parse], sizes and times into their types. *)
Inductive node_ok : node -> Prop :=
| leaf_ok name attr :
    Z.of_nat (length name) < NAME_BUF_LEN ->
    match attr with
    | Directory _ => False
    | File size mtime => in_u64 size /\ in_i64 mtime
    | _ => True
    end -> node_ok (NLeaf name attr)
| dir_ok name children :
    Z.of_nat (length name) < NAME_BUF_LEN -> Forall node_ok children ->
    node_ok (NDir name children).

(** The calls with which an archiver walks a tree. *)
Inductive call :=
| StartDirectory (name : list byte)
| EndDirectory
| AddFile (name : list byte) (size mtime : Z)
| AddSymlink (name : list byte)
| AddHardlink (name : list byte)
| AddBlockDevice (name : list byte)
| AddCharDevice (name : list byte)
| AddFifo (name : list byte)
| AddSocket (name : list byte).

Definition run_call (c : call) : CatalogWriter -> res unit * CatalogWriter :=
  match c with
  | StartDirectory name => start_directory name
  | EndDirectory => end_directory None
  | AddFile name size mtime => add_file name size mtime
  | AddSymlink name => add_symlink name
  | AddHardlink name => add_hardlink name
  | AddBlockDevice name => add_block_device name
  | AddCharDevice name => add_char_device name
  | AddFifo name => add_fifo name
  | AddSocket name => add_socket name
  end.

Fixpoint run_calls (cs : list call) (w : CatalogWriter) : res unit * CatalogWriter :=
  match cs with
  | [] => (Ok tt, w)
  | c :: cs => let! _, w := run_call c w in run_calls cs w
  end.

Definition leaf_call (name : list byte) (attr : DirEntryAttribute) : list call :=
  match attr with
  | Directory _ => []
  | File size mtime => [AddFile name size mtime]
  | Symlink => [AddSymlink name]
  | Hardlink => [AddHardlink name]
  | BlockDevice => [AddBlockDevice name]
  | CharDevice => [AddCharDevice name]
  | Fifo => [AddFifo name]
  | Socket => [AddSocket name]
  end.

Fixpoint calls_of (n : node) : list call :=
  match n with
  | NLeaf name attr => leaf_call name attr
  | NDir name children => [StartDirectory name] ++ flat_map calls_of children ++ [EndDirectory]
  end.

(** A whole catalog: [new], the calls for the entries of the root, [finish]. *)
Definition write_catalog (nodes : list node) : res (list byte) :=
  let? w := CatalogWriter_new None in
  match (let! _, w := run_calls (flat_map calls_of nodes) w in finish None None (Ok tt) w) with
  | (Ok _, w) => Ok (written w)
  | (Err e, _) => Err e
  | (Panic e, _) => Panic e
  end.

(** ** The layout of a tree *)
Definition block (es : list DirEntry) (start : Z) : list byte :=
  catalog_encode_u64 (Z.of_nat (length (table es start))) ++ table es start.

(** The bytes after a node was written behind [out], and the entry for it. *)
Fixpoint layout (n : node) (out : list byte) : list byte * DirEntry :=
  match n with
  | NLeaf name attr => (out, {| e_name := name; e_attr := attr |})
  | NDir name children =>
      let '(out, es) :=
        (fix go ch out :=
           match ch with
           | [] => (out, [])
           | c :: ch => let '(out, e) := layout c out in
                        let '(out, es) := go ch out in (out, e :: es)
           end) children out in
      let start := Z.of_nat (length out) in
      (out ++ block es start, {| e_name := name; e_attr := Directory start |})
  end.
Fixpoint layout_list (ch : list node) (out : list byte) : list byte * list DirEntry :=
  match ch with
  | [] => (out, [])
  | c :: ch => let '(out, e) := layout c out in
               let '(out, es) := layout_list ch out in (out, e :: es)
  end.

Definition catalog_bytes (nodes : list node) : list byte :=
  let '(out, es) := layout_list nodes PROXMOX_CATALOG_FILE_MAGIC_1_0 in
  let start := Z.of_nat (length out) in
  out ++ block es start ++ le_bytes 8 start.

Lemma layout_dir name children out :
  layout (NDir name children) out =
  let '(out, es) := layout_list children out in
  (out ++ block es (Z.of_nat (length out)),
   {| e_name := name; e_attr := Directory (Z.of_nat (length out)) |}).
Proof. done. Qed.

(** The entry and the blocks of [file] represent the tree. *)
Inductive stored (file : list byte) : DirEntry -> node -> Prop :=
| stored_leaf name attr :
    match attr with Directory _ => False | _ => True end ->
    stored file {| e_name := name; e_attr := attr |} (NLeaf name attr)
| stored_dir name start es children :
    block_at file start es -> Forall2 (stored file) es children ->
    stored file {| e_name := name; e_attr := Directory start |} (NDir name children).

Lemma stored_app file more n e : stored file e n -> stored (file ++ more) e n.
Proof.
  revert e. induction n as [name attr|name children IH] using node_ind'; intros e H;
    inversion H as [|? start es ? Hb Hes]; subst; [by constructor|].
  econstructor; [by apply block_at_app|]. clear H Hb.
  induction Hes; inversion IH; subst; constructor; auto.
Qed.

Definition laid_out (n : node) : Prop :=
  forall out, node_ok n -> let '(out', e) := layout n out in
  (exists more, out' = out ++ more) /\ stored out' e n /\ entry_ok (Z.of_nat (length out')) e.

Lemma layout_list_stored ch out :
  Forall laid_out ch -> Forall node_ok ch ->
  let '(out', es) := layout_list ch out in
  (exists more, out' = out ++ more) /\ Forall2 (stored out') es ch /\
  Forall (entry_ok (Z.of_nat (length out'))) es.
Proof.
  intros Hl Hok. revert out. induction Hl as [|n ch Hn Hl IH]; intros out; cbn [layout_list].
  { split_and!; [exists []; by rewrite app_nil_r|constructor..]. }
  inversion Hok as [|? ? Hnok Hchok]; subst. specialize (Hn out Hnok).
  destruct (layout n out) as [out1 e]. destruct Hn as ([m1 ->] & Hst & He).
  specialize (IH Hchok (out ++ m1)). destruct (layout_list ch (out ++ m1)) as [out2 es].
  destruct IH as ([m2 ->] & Hsts & Hes). split_and!.
  - exists (m1 ++ m2). by rewrite (assoc_L (++)).
  - constructor; [by apply stored_app|done].
  - constructor; [|done]. destruct He as [Hnm Ha]. split; [done|].
    destruct (e_attr e); try done. rewrite !length_app in *. lia.
Qed.

Lemma layout_stored n : laid_out n.
Proof.
  induction n as [name attr|name children IH] using node_ind'; intros out Hok.
  - inversion Hok as [? ? Hn Ha|]; subst. simpl. split_and!.
    + exists []. by rewrite app_nil_r.
    + constructor. by destruct attr.
    + split; [done|]. simpl. by destruct attr.
  - inversion Hok as [|? ? Hn Hch]; subst. rewrite layout_dir.
    pose proof (layout_list_stored children out IH Hch) as Hl.
    destruct (layout_list children out) as [out1 es]. destruct Hl as ([m1 ->] & Hst & Hes).
    set (start := Z.of_nat (length (out ++ m1))). split_and!.
    + eexists. by rewrite <- (assoc_L (++)).
    + econstructor.
      * exists (out ++ m1), []. split_and!; [|done..]. by rewrite app_nil_r.
      * eapply Forall2_impl; [done|]. intros. by apply stored_app.
    + split; [done|]. simpl. rewrite length_app. unfold start. lia.
Qed.

(** ** The writer produces the layout *)
Definition writer_at (out : list byte) (ds : list DirInfo) : CatalogWriter :=
  {| written := out; dirstack := ds; w_pos := Z.of_nat (length out) |}.
Definition push_dir (d : DirInfo) (es : list DirEntry) : DirInfo :=
  {| d_name := d_name d; d_entries := d_entries d ++ es |}.

Lemma run_calls_app cs1 cs2 w :
  run_calls (cs1 ++ cs2) w = let! _, w := run_calls cs1 w in run_calls cs2 w.
Proof.
  revert w. induction cs1 as [|c cs1 IH]; intros w; simpl; [done|].
  destruct (run_call c w) as [[[]| |] w']; [apply IH|done..].
Qed.

Definition written_ok (n : node) : Prop :=
  forall out d ds, node_ok n -> Z.of_nat (length (layout n out).1) <= U64_MAX ->
  run_calls (calls_of n) (writer_at out (d :: ds)) =
    (Ok tt, writer_at (layout n out).1 (push_dir d [(layout n out).2] :: ds)).

Lemma write_all_at out ds data :
  Z.of_nat (length (out ++ data)) <= U64_MAX ->
  write_all None data (writer_at out ds) = (Ok tt, writer_at (out ++ data) ds).
Proof.
  intros H. unfold write_all, writer_at. simpl. do 2 f_equal. rewrite length_app in *.
  rewrite u64_small by (unfold in_u64; lia). lia.
Qed.

Lemma run_list ch out d ds :
  Forall written_ok ch -> Forall node_ok ch ->
  Z.of_nat (length (layout_list ch out).1) <= U64_MAX ->
  run_calls (flat_map calls_of ch) (writer_at out (d :: ds)) =
    (Ok tt, writer_at (layout_list ch out).1 (push_dir d (layout_list ch out).2 :: ds)).
Proof.
  intros Hw Hok. revert out d. induction Hw as [|n ch Hn Hw IH]; intros out d Hl.
  - simpl. unfold push_dir. rewrite app_nil_r. by destruct d.
  - inversion Hok as [|? ? Hnok Hchok]; subst. cbn [flat_map layout_list] in *.
    pose proof (layout_stored n out Hnok) as Hmono. specialize (Hn out d ds Hnok).
    destruct (layout n out) as [out1 e]. cbn [fst snd] in *. destruct Hmono as ([m1 ->] & _ & _).
    pose proof (layout_list_stored ch (out ++ m1)
      (Forall_true laid_out ch layout_stored) Hchok) as Hm2.
    specialize (IH Hchok (out ++ m1) (push_dir d [e])).
    destruct (layout_list ch (out ++ m1)) as [out2 es]. cbn [fst snd] in *.
    destruct Hm2 as ([m2 ->] & _ & _). rewrite run_calls_app, Hn, IH; [|done|].
    + unfold push_dir. simpl. by rewrite <- (assoc_L (++) (d_entries d)).
    + rewrite !length_app in *. lia.
Qed.

Lemma run_node n : written_ok n.
Proof.
  induction n as [name attr|name children IH] using node_ind'; intros out d ds Hok.
  - inversion Hok as [? ? Hn Ha|]; subst. intros _. by destruct attr.
  - inversion Hok as [|? ? Hn Hch]; subst. rewrite layout_dir. cbn [calls_of app].
    pose proof (layout_list_stored children out (Forall_true laid_out _ layout_stored) Hch) as Hmono.
    pose proof (run_list children out (DirInfo_new name) (d :: ds) IH Hch) as Hr.
    destruct (layout_list children out) as [out1 es]. destruct Hmono as ([m1 ->] & _ & _).
    cbn [fst snd] in *. intros Hl.
    change (run_calls (StartDirectory name :: ?cs) ?w) with
      (run_calls cs (writer_at out (DirInfo_new name :: d :: ds))).
    rewrite run_calls_app, Hr by (rewrite length_app in Hl; lia).
    cbn [run_calls run_call]. unfold end_directory. cbn [dirstack writer_at].
    unfold DirInfo_encode. cbn [push_dir DirInfo_new d_entries d_name app].
    change (with_dirstack ?w (d :: ds)) with (writer_at (out ++ m1) (d :: ds)).
    cbn [w_pos writer_at]. fold (writer_at (out ++ m1) (d :: ds)).
    unfold block, table in *. by rewrite write_all_at.
Qed.

(** The catalog of a tree. *)
Lemma write_catalog_layout nodes :
  Forall node_ok nodes -> Z.of_nat (length (catalog_bytes nodes)) <= U64_MAX ->
  write_catalog nodes = Ok (catalog_bytes nodes).
Proof.
  intros Hok. unfold write_catalog, catalog_bytes, CatalogWriter_new.
  pose proof (write_all_at [] [new_rootdir] PROXMOX_CATALOG_FILE_MAGIC_1_0 ltac:(done)) as Hnew.
  unfold writer_at at 1 in Hnew. change (Z.of_nat (length [])) with 0 in Hnew. rewrite Hnew. clear Hnew.
  rewrite app_nil_l. set (magic := PROXMOX_CATALOG_FILE_MAGIC_1_0). clearbody magic.
  pose proof (run_list nodes magic new_rootdir [] (Forall_true written_ok _ run_node) Hok) as Hr.
  destruct (layout_list nodes magic) as [out es]. cbn [fst snd] in Hr.
  set (start := Z.of_nat (length out)). intros Hl. rewrite !length_app in Hl.
  rewrite Hr by lia. clear Hr. unfold finish. cbn [dirstack writer_at length Nat.eqb negb].
  unfold DirInfo_encode. cbn [push_dir new_rootdir DirInfo_new d_entries d_name app].
  change (with_dirstack ?w []) with (writer_at out []). cbn [w_pos writer_at]. fold (writer_at out []).
  fold start. fold (table es start). fold (block es start).
  rewrite write_all_at by (rewrite length_app; lia).
  rewrite write_all_at by (rewrite !length_app; lia). cbn [written writer_at].
  by rewrite <- (assoc_L (++)).
Qed.

(** Its root. *)
Lemma catalog_root R `{ReadExtLaws R} nodes :
  Forall node_ok nodes -> Z.of_nat (length (catalog_bytes nodes)) <= I64_MAX ->
  exists start es, root R (catalog_bytes nodes) = Ok {| e_name := []; e_attr := Directory start |} /\
    block_at (catalog_bytes nodes) start es /\ Forall2 (stored (catalog_bytes nodes)) es nodes.
Proof.
  intros Hok. unfold catalog_bytes.
  pose proof (layout_list_stored nodes PROXMOX_CATALOG_FILE_MAGIC_1_0
    (Forall_true laid_out _ layout_stored) Hok) as Hl.
  destruct (layout_list nodes _) as [out es]. destruct Hl as ([m ->] & Hst & Hes).
  set (magic := PROXMOX_CATALOG_FILE_MAGIC_1_0) in *. set (start := Z.of_nat (length (magic ++ m))) in *.
  assert (length magic = 8%nat) as Hm by done.
  intros Hfile. exists start, es. split_and!.
  - unfold root, seek_start, seek_end.
    rewrite Z.min_l by lia. change (I64_MAX <? 0) with false. change (Z.to_nat 0) with 0%nat.
    rewrite drop_0, <- !(assoc_L (++)).
    change 8 with (Z.of_nat (length magic)) at 1. rewrite read_exact_front.
    rewrite bool_decide_eq_true_2 by done. cbn [negb].
    rewrite (proj2 (Z.ltb_ge _ _)) by (rewrite length_app; lia).
    rewrite !(assoc_L (++)), drop_app_length'
      by (rewrite (length_app _ (le_bytes 8 start)), length_le_bytes; lia).
    rewrite <- (app_nil_r (le_bytes 8 start)), read_le_u64_ok by apply length_le_bytes.
    rewrite le_val_u64_bytes; [done|]. rewrite length_app in Hfile.
    unfold in_u64, U64_MAX, I64_MAX in *. lia.
  - exists (magic ++ m), (le_bytes 8 start). split_and!; [|done..]. by unfold block.
  - eapply Forall2_impl; [done|]. intros. by apply stored_app.
Qed.
End Trees.
Import Trees.

Module Traverse.
(** ** Reading a stored tree *)

(** A recursive listing with [read_dir]. *)
Fixpoint read_tree (R : ReadExt) (file : list byte) (fuel : nat) (e : DirEntry) : res node :=
  match e_attr e with
  | Directory _ =>
      match fuel with
      | O => Panic "out of fuel"
      | S fuel =>
          let? es := read_dir R file e in
          let? children :=
            (fix go es := match es with
                          | [] => Ok []
                          | e :: es => let? n := read_tree R file fuel e in
                                       let? ns := go es in Ok (n :: ns)
                          end) es in
          Ok (NDir (e_name e) children)
      end
  | attr => Ok (NLeaf (e_name e) attr)
  end.

(** The node at a path of names: in every directory the first entry of that name. *)
Fixpoint node_at (n : node) (comps : list (list byte)) : option node :=
  match comps with
  | [] => Some n
  | comp :: comps =>
      match n with
      | NLeaf _ _ => None
      | NDir _ children =>
          match list_find (fun c => node_name c = comp) children with
          | Some (_, c) => node_at c comps
          | None => None
          end
      end
  end.

(** A path from its components. *)
Fixpoint join_slash (comps : list (list byte)) : list byte :=
  match comps with
  | [] => []
  | [c] => c
  | c :: comps => c ++ bytes "/" ++ join_slash comps
  end.

Lemma stored_name file e n : stored file e n -> e_name e = node_name n.
Proof. by inversion 1. Qed.

Lemma max_depth_cons c ch : foldr (fun c => Nat.max (depth c)) O (c :: ch)
  = (depth c `max` foldr (fun c => Nat.max (depth c)) O ch)%nat.
Proof. done. Qed.

Section stored.
Context (R : ReadExt) {HR : ReadExtLaws R} (file : list byte).
Hypothesis Hfile : Z.of_nat (length file) <= I64_MAX.

Lemma read_stored n e fuel : stored file e n -> (depth n <= fuel)%nat -> read_tree R file fuel e = Ok n.
Proof.
  revert e fuel. induction n as [name attr|name children IH] using node_ind'; intros e fuel Hst Hf.
  - inversion Hst; subst. destruct fuel, attr; done.
  - inversion Hst as [|? start es ? Hb Hes]; subst.
    destruct fuel as [|fuel]; [simpl in Hf; lia|]. cbn [read_tree e_attr e_name].
    rewrite (read_dir_block R file Hfile _ _ es) by done.
    match goal with |- (let? children := ?m in _) = _ => enough (m = Ok children) as -> by done end.
    cbn [depth] in Hf. apply le_S_n in Hf. clear Hst Hb.
    induction Hes as [|e' n' es' ch' Hst' Hes IHes]; [done|].
    inversion IH as [|? ? IH1 IH2]; subst. rewrite max_depth_cons in Hf.
    rewrite (IH1 e' fuel) by (done || lia). rewrite IHes by (done || lia). done.
Qed.

Lemma find_stored es children comp :
  Forall2 (stored file) es children ->
  match list_find (fun c => node_name c = comp) children with
  | Some (_, c) => exists e, snd <$> list_find (fun e => e_name e = comp) es = Some e /\ stored file e c
  | None => snd <$> list_find (fun e => e_name e = comp) es = None
  end.
Proof.
  induction 1 as [|e c es children Hst Hes IH]; [done|]. cbn [list_find].
  rewrite (stored_name _ _ _ Hst). destruct (decide (node_name c = comp)); [by exists e|].
  destruct (list_find (fun c => node_name c = comp) children) as [[i c']|]; simpl.
  - destruct IH as (e' & He & Hst'). exists e'. split; [|done].
    by destruct (list_find (fun e => e_name e = comp) es) as [[j x]|].
  - by destruct (list_find (fun e => e_name e = comp) es) as [[j x]|].
Qed.

Lemma lookup_stored comps n e :
  stored file e n ->
  match node_at n comps with
  | Some n' => exists e', lookup_components R file comps e = Ok e' /\ stored file e' n'
  | None => is_err (lookup_components R file comps e) = true
  end.
Proof.
  revert n e. induction comps as [|comp comps IH]; intros n e Hst; [by exists e|].
  cbn [node_at lookup_components].
  inversion Hst as [name attr Ha|name start es children Hb Hes]; subst.
  { unfold lookup. simpl. by destruct attr. }
  rewrite (lookup_block R file Hfile _ _ es) by done. cbv iota beta.
  pose proof (find_stored es children comp Hes) as Hfind.
  destruct (list_find (fun c => node_name c = comp) children) as [[i c]|].
  - destruct Hfind as (e' & -> & Hst'). by apply IH.
  - by rewrite Hfind.
Qed.
End stored.

Definition plain_name (c : list byte) : Prop := c <> [] /\ "/"%byte ∉ c.

Lemma split_plain c : "/"%byte ∉ c -> split_slash c = [c].
Proof.
  induction c as [|x c IH]; [done|]. intros [Hx Hc]%not_elem_of_cons. simpl.
  rewrite bool_decide_eq_false_2 by congruence. by rewrite IH.
Qed.
Lemma split_app c rest : "/"%byte ∉ c -> split_slash (c ++ bytes "/" ++ rest) = c :: split_slash rest.
Proof.
  induction c as [|x c IH]; [done|]. intros [Hx Hc]%not_elem_of_cons. cbn [app split_slash].
  rewrite bool_decide_eq_false_2 by congruence. by rewrite IH.
Qed.
Lemma split_join comps :
  comps <> [] -> Forall plain_name comps -> split_slash (join_slash comps) = comps.
Proof.
  intros Hne Hp. induction Hp as [|c comps [_ Hc] Hp IH]; [done|].
  destruct comps as [|c' comps]; [by apply split_plain|].
  change (join_slash (c :: c' :: comps)) with (c ++ bytes "/" ++ join_slash (c' :: comps)).
  rewrite split_app by done. by rewrite IH.
Qed.

Lemma join_head comps :
  comps <> [] -> Forall plain_name comps ->
  exists x rest, join_slash comps = x :: rest /\ x <> "/"%byte.
Proof.
  intros Hne Hp. destruct Hp as [|c comps [Hc Hs] Hp]; [done|]. destruct c as [|x c]; [done|].
  apply not_elem_of_cons in Hs as [? ?]. destruct comps; simpl; eauto.
Qed.

(** An absolute and a relative path are looked up alike. *)
Lemma lookup_recursive_join R file comps lead :
  comps <> [] -> Forall plain_name comps ->
  lookup_recursive R file ((if lead : bool then bytes "/" else []) ++ join_slash comps)
  = let? current := root R file in lookup_components R file comps current.
Proof.
  intros Hne Hp. unfold lookup_recursive. destruct (root R file) as [r| |]; [|done..].
  destruct (join_head comps Hne Hp) as (x & rest & Hj & Hx).
  rewrite bool_decide_eq_false_2 by (rewrite Hj; change (bytes "/") with ["/"%byte]; destruct lead; simpl; congruence).
  rewrite <- (split_join comps) at 2 by done. do 2 f_equal.
  destruct lead; simpl; [done|]. rewrite Hj. simpl. by rewrite bool_decide_eq_false_2.
Qed.
End Traverse.
Import Traverse.

(** C6.  A catalog gives the directory tree back.  Writing any tree (names below 4096
    bytes, sizes and times in range) through the calls of the writer succeeds, and in the file,
    as long as it is not larger than a file can be, [root] and [read_dir] find exactly that
    tree: every name, type, size and time, in order; the depth of the tree bounds
    the recursion. *)
Theorem catalog_roundtrip R `{HR : ReadExtLaws R} nodes :
  Forall node_ok nodes -> Z.of_nat (length (catalog_bytes nodes)) <= I64_MAX ->
  exists file, write_catalog nodes = Ok file /\
    (let? r := root R file in read_tree R file (depth (NDir [] nodes)) r) = Ok (NDir [] nodes).
Proof.
  intros Hok Hl. exists (catalog_bytes nodes). split.
  - apply write_catalog_layout; [done|]. unfold I64_MAX, U64_MAX in *. lia.
  - destruct (catalog_root R nodes Hok Hl) as (start & es & -> & Hb & Hst).
    apply (read_stored R _ Hl); [by econstructor|done].
Qed.

(** Looking up a path, absolute or relative, in the catalog of a tree finds the node
    that the tree has at this path, with all that is below it, and fails with an error when
    there is none. *)
Theorem catalog_lookup_correct R `{HR : ReadExtLaws R} nodes comps lead :
  Forall node_ok nodes -> Z.of_nat (length (catalog_bytes nodes)) <= I64_MAX ->
  comps <> [] -> Forall plain_name comps ->
  exists file, write_catalog nodes = Ok file /\
    let found := lookup_recursive R file ((if lead : bool then bytes "/" else []) ++ join_slash comps) in
    match node_at (NDir [] nodes) comps with
    | Some n => exists e, found = Ok e /\ e_name e = node_name n /\
                          read_tree R file (depth n) e = Ok n
    | None => is_err found = true
    end.
Proof.
  intros Hok Hl Hne Hp. exists (catalog_bytes nodes). split.
  - apply write_catalog_layout; [done|]. unfold I64_MAX, U64_MAX in *. lia.
  - cbv zeta. rewrite lookup_recursive_join by done.
    destruct (catalog_root R nodes Hok Hl) as (start & es & -> & Hb & Hst).
    pose proof (lookup_stored R _ Hl comps (NDir [] nodes) _ (stored_dir _ [] start es nodes Hb Hst)) as Hlk.
    destruct (node_at (NDir [] nodes) comps) as [n|]; [|done]. destruct Hlk as (e & -> & Hst').
    exists e. split_and!; [done|by eapply stored_name|by apply (read_stored R _ Hl)].
Qed.

Module FindSpec.
(** ** [find] *)
Section find.
Context {St : Type} (M : Modes).
Variable matches : list byte -> option Z -> res (option MatchType).
Variable callback : list byte -> St -> res unit * St.

(** The path of a node below [prefix]. *)
Definition node_path (prefix : list byte) (n : node) : list byte :=
  prefix ++ (match node_name n with "/"%byte :: _ => [] | _ => bytes "/" end) ++ node_name n.
Definition node_attr (n : node) : DirEntryAttribute :=
  match n with NLeaf _ attr => attr | NDir _ _ => Directory 0 end.
Definition node_mode (n : node) : option Z :=
  get_file_mode M {| e_name := node_name n; e_attr := node_attr n |}.

(** The paths that match below [prefix], top down; what is excluded is not entered. *)
Fixpoint included (prefix : list byte) (n : node) : list (list byte) :=
  let path := node_path prefix n in
  let below := match n with
               | NLeaf _ _ => []
               | NDir _ children => flat_map (included path) children
               end in
  match matches path (node_mode n) with
  | Ok (Some Exclude) => []
  | Ok (Some Include) => path :: below
  | _ => below
  end.

(** The callback on a list of paths, until it fails. *)
Fixpoint call_all (paths : list (list byte)) (st : St) : res unit * St :=
  match paths with
  | [] => (Ok tt, st)
  | p :: paths => let! _, st := callback p st in call_all paths st
  end.

Lemma call_all_app a b st : call_all (a ++ b) st = let! _, st := call_all a st in call_all b st.
Proof.
  revert st. induction a as [|p a IH]; intros st; simpl; [done|].
  destruct (callback p st) as [[[]| |] st']; [apply IH|done..].
Qed.

(** [r] is the outcome [want], and after success the buffer is [path] again. *)
Definition outcome (path : list byte) (r : res unit * (list byte * St)) (want : res unit * St) : Prop :=
  r.1 = want.1 /\ r.2.2 = want.2 /\ (is_ok r.1 = true -> r.2.1 = path).

Hypothesis matches_total : forall p m, is_panic (matches p m) = false.
Context (R : ReadExt) {HR : ReadExtLaws R} (file : list byte).
Hypothesis Hfile : Z.of_nat (length file) <= I64_MAX.

Definition finds (n : node) : Prop :=
  forall fuel e path st, stored file e n -> (depth n <= fuel)%nat ->
  match n with
  | NLeaf _ _ => True
  | NDir _ children =>
      outcome path (find R file M matches callback fuel e path st)
        (call_all (flat_map (included path) children) st)
  end.

Lemma stored_mode e n : stored file e n -> get_file_mode M e = node_mode n.
Proof. by inversion 1. Qed.
Lemma stored_path e n path buf :
  stored file e n -> take (length path) buf = path ->
  entry_path buf (length path) e = node_path path n.
Proof.
  intros Hst Hp. unfold entry_path, node_path. rewrite Hp, (stored_name _ _ _ Hst).
  destruct (node_name n) as [|[] l]; simpl; by rewrite ?app_nil_r, <- ?(assoc_L (++)).
Qed.

Lemma outcome_bind path r want k (wk : St -> res unit * St) path' :
  outcome path' r want ->
  (forall st, outcome path (k path' st) (wk st)) ->
  outcome path (let! _, s := r in k s.1 s.2) (let! _, st := want in wk st).
Proof.
  destruct r as [[[]| |] [buf st]], want as [[[]| |] st']; intros (H1 & H2 & H3) Hk; simpl in *;
    simplify_eq; try by split_and!.
  rewrite H3 by done. apply Hk.
Qed.

(** One entry, then the others. *)
Lemma find_entry fuel path e n es children buf st :
  stored file e n -> finds n -> (depth n <= fuel)%nat -> take (length path) buf = path ->
  (forall buf st, take (length path) buf = path ->
    outcome path (find_loop M matches callback (find R file M matches callback fuel) (length path) es buf st)
      (call_all (flat_map (included path) children) st)) ->
  outcome path
    (find_loop M matches callback (find R file M matches callback fuel) (length path) (e :: es) buf st)
    (call_all (flat_map (included path) (n :: children)) st).
Proof.
  intros Hst Hn Hd Hbuf IH. cbn [find_loop flat_map].
  rewrite (stored_path e n path buf Hst Hbuf), (stored_mode e n Hst), call_all_app.
  assert (forall p, take (length path) (node_path path p) = path) as Htake
    by (intros; unfold node_path; by rewrite take_app_length).
  specialize (Hn fuel e (node_path path n)). pose proof (matches_total (node_path path n) (node_mode n)).
  set (loop := find_loop M matches callback (find R file M matches callback fuel) (length path) es) in *.
  set (descend := fun st =>
    if is_directory e
    then let! _, s := find R file M matches callback fuel e (node_path path n) st in loop s.1 s.2
    else loop (node_path path n) st).
  set (below := match n with NLeaf _ _ => [] | NDir _ ch => flat_map (included (node_path path n)) ch end).
  assert (forall st, outcome path (descend st)
    (let! _, st := call_all below st in call_all (flat_map (included path) children) st)) as Hdesc.
  { intros st'. unfold descend, below.
    inversion Hst as [name attr Ha|name start es0 ch Hb Hes]; subst.
    - unfold is_directory. simpl in *. destruct attr; [done|..]; apply IH, Htake.
    - cbn [is_directory e_attr]. apply outcome_bind with (path' := node_path path (NDir name ch)) (k := loop);
        [by apply Hn|]. intros; apply IH, Htake. }
  assert (included path n = match matches (node_path path n) (node_mode n) with
    | Ok (Some Exclude) => [] | Ok (Some Include) => node_path path n :: below | _ => below end) as ->
    by by destruct n.
  destruct (matches (node_path path n) (node_mode n)) as [[[]|]| |]; try done.
  - cbn [call_all]. destruct (callback (node_path path n) st) as [[[]| |] st']; [apply Hdesc|by split_and!..].
  - apply IH, Htake.
  - apply Hdesc.
  - apply Hdesc.
Qed.

Lemma find_all n : finds n.
Proof.
  induction n as [name attr|name children IH] using node_ind'; intros fuel e path st Hst Hd; [done|].
  inversion Hst as [|? start es ? Hb Hes]; subst. destruct fuel as [|fuel]; [simpl in Hd; lia|].
  cbn [find]. rewrite (read_dir_block R file Hfile _ _ es) by done.
  cbn [depth] in Hd. apply le_S_n in Hd. clear Hst Hb.
  enough (forall buf st, take (length path) buf = path ->
    outcome path (find_loop M matches callback (find R file M matches callback fuel) (length path) es buf st)
      (call_all (flat_map (included path) children) st)) as Hloop by (apply Hloop, take_ge; lia).
  induction Hes as [|e n es children Hst Hes IHes]; intros buf st' Hbuf; [by split_and!|].
  inversion IH as [|? ? IH1 IH2]; subst. rewrite max_depth_cons in Hd.
  apply find_entry; [done|done|lia|done|]. apply IHes; [done|lia].
Qed.
End find.
End FindSpec.
Import FindSpec.

(** [find] on the catalog of a tree calls the callback on exactly the paths that the
    match list includes, in the order of the tree, does not enter what is excluded, stops at
    the first error of the callback, and leaves the path buffer as it was. *)
Theorem catalog_find_correct R `{HR : ReadExtLaws R} M {St} matches
    (callback : list byte -> St -> res unit * St) nodes path st :
  Forall node_ok nodes -> Z.of_nat (length (catalog_bytes nodes)) <= I64_MAX ->
  (forall p m, is_panic (matches p m) = false) ->
  exists file parent, write_catalog nodes = Ok file /\ root R file = Ok parent /\
    let '(r, (buffer, st')) :=
      find R file M matches callback (depth (NDir [] nodes)) parent path st in
    (r, st') = call_all callback (flat_map (included M matches path) nodes) st /\
    (r = Ok tt -> buffer = path).
Proof.
  intros Hok Hl Hm. exists (catalog_bytes nodes).
  destruct (catalog_root R nodes Hok Hl) as (start & es & Hroot & Hb & Hst).
  eexists. split_and!; [|done|].
  - apply write_catalog_layout; [done|]. unfold I64_MAX, U64_MAX in *. lia.
  - destruct (find_all M matches callback Hm R _ Hl (NDir [] nodes) (depth (NDir [] nodes))
      {| e_name := []; e_attr := Directory start |} path st) as (H1 & H2 & H3);
      [by econstructor|done|].
    destruct (find _ _ _ _ _ _ _ _ _) as [r [buffer st']]. simpl in *. split; [|intros ->; by apply H3].
    rewrite H1, H2. by destruct (call_all _ _ _).
Qed.

(** A crafted catalog makes the traversals recurse without end: a directory block
    whose first entry is a directory at distance 0 is its own subdirectory, which the
    test [offset > start] of [dump_dir] lets pass, so that no depth of recursion is enough. *)
Theorem dump_dir_self_reference R `{HR : ReadExtLaws R} file start name es fuel prefix log :
  Z.of_nat (length file) <= I64_MAX ->
  block_at file start ({| e_name := name; e_attr := Directory start |} :: es) ->
  is_panic (dump_dir R file fuel prefix start log).1 = true.
Proof.
  intros Hfile Hb. revert prefix log. induction fuel as [|fuel IH]; intros prefix log; [done|].
  cbn [dump_dir].
  match goal with |- context [DirInfo_parse ?cb _ _] =>
    destruct (parse_block R file Hfile cb start _ log Hb) as (data & -> & ->) end.
  cbn [run_entries]. unfold call_entry. cbn [e_attr e_name].
  rewrite Z.sub_diag. destruct (start <? 0) eqn:E.
  { destruct Hb as (pre & ? & _ & Hp & _). zify_bool. lia. }
  rewrite Z.sub_0_r. specialize (IH (path_push prefix name) (log ++ [(TDirectory, path_push prefix name, None)])).
  by destruct (dump_dir _ _ _ _ _ _) as [[]].
Qed.

(** The seven bit codec loses nothing: every [u64] and every [i64], [i64::MIN]
    included, is decoded from its encoding and exactly the encoding is consumed; and what
    [catalog_encode_u64] wrote, [catalog_decode_i64] reads as the same 64 bits. *)
Theorem catalog_codec_roundtrip v rest :
  (in_u64 v -> catalog_decode_u64 (catalog_encode_u64 v ++ rest) = Ok (v, rest) /\
               catalog_decode_i64 (catalog_encode_u64 v ++ rest) = Ok (i64 v, rest)) /\
  (in_i64 v -> catalog_decode_i64 (catalog_encode_i64 v ++ rest) = Ok (v, rest)).
Proof.
  split; [|apply decode_encode_i64]. intros Hv. split; [by apply decode_encode_u64|].
  unfold in_u64, U64_MAX, catalog_decode_i64, catalog_encode_u64 in *.
  rewrite decode_i64_of_u64 by (simpl; lia). do 3 f_equal. simpl. lia.
Qed.

(** ** A catalog to try the statements on *)
Module CatalogWitness.
Definition reader : ReadExt := {|
  read_le_u64 l := if (length l <? 8)%nat then Err "eof" else Ok (le_val (take 8 l));
  read_exact_allocated l n :=
    if Z.of_nat (length l) <? n then Err "eof" else Ok (take (Z.to_nat n) l);
|}.
#[global] Instance reader_laws : ReadExtLaws reader.
Proof.
  split; intros a b; simpl.
  - intros Ha. rewrite (proj2 (Nat.ltb_ge _ _)) by (rewrite length_app; lia).
    by rewrite take_app_length' by done.
  - rewrite (proj2 (Z.ltb_ge _ _)) by (rewrite length_app; lia). by rewrite Nat2Z.id, take_app_length.
Qed.

Definition modes : Modes := {|
  IFDIR := 16384; IFREG := 32768; IFLNK := 40960; IFBLK := 24576; IFCHR := 8192; IFIFO := 4096;
  IFSOCK := 49152 |}.

Definition tree : list node := [
  NDir (bytes "etc") [NLeaf (bytes "hosts") (File 300 1700000000);
                      NDir (bytes "ssl") []];
  NLeaf (bytes "old") (File 0 (-126));
  NLeaf (bytes "link") Symlink ].

Lemma tree_ok : Forall node_ok tree.
Proof.
  repeat constructor; unfold NAME_BUF_LEN, in_u64, in_i64, U64_MAX; simpl; lia.
Qed.

(** Includes what is below [/etc/ssl] or is [/old], and excludes nothing. *)
Definition patterns (p : list byte) (_ : option Z) : res (option MatchType) :=
  if bool_decide (p = bytes "/etc/ssl") || bool_decide (p = bytes "/old")
  then Ok (Some Include) else Ok None.

(** A directory that is its own first entry. *)
Definition self_ref : list byte :=
  PROXMOX_CATALOG_FILE_MAGIC_1_0 ++
  block [{| e_name := bytes "x"; e_attr := Directory 8 |}] 8 ++ le_bytes 8 8.
End CatalogWitness.
Import CatalogWitness.

Lemma catalog_roundtrip_witness :
  exists file, write_catalog tree = Ok file /\
    (let? r := root reader file in read_tree reader file 3 r) = Ok (NDir [] tree).
Proof.
  apply (catalog_roundtrip reader tree); [apply tree_ok|]. vm_compute. discriminate.
Defined.

Lemma catalog_lookup_correct_witness :
  exists file, write_catalog tree = Ok file /\
    exists e, lookup_recursive reader file (bytes "/etc/hosts") = Ok e /\
      e_name e = bytes "hosts" /\
      read_tree reader file 0 e = Ok (NLeaf (bytes "hosts") (File 300 1700000000)).
Proof.
  apply (catalog_lookup_correct reader tree [bytes "etc"; bytes "hosts"] true).
  - apply tree_ok.
  - vm_compute. discriminate.
  - discriminate.
  - repeat constructor; try discriminate; vm_compute; intros H;
      repeat (apply elem_of_cons in H as [H|H]; [discriminate H|]); by apply elem_of_nil in H.
Defined.

Lemma catalog_find_correct_witness :
  exists file parent, write_catalog tree = Ok file /\ root reader file = Ok parent /\
    let '(r, (buffer, st)) :=
      find reader file modes patterns (fun p st => (Ok tt, st ++ [p])) 3 parent [] [] in
    (r, st) = (Ok tt, [bytes "/etc/ssl"; bytes "/old"]) /\ (r = Ok tt -> buffer = []).
Proof.
  apply (catalog_find_correct reader modes patterns (fun p st => (Ok tt, st ++ [p])) tree [] []).
  - apply tree_ok.
  - vm_compute. discriminate.
  - intros p m. unfold patterns. by case_if.
Defined.

Lemma dump_dir_self_reference_witness :
  is_panic (dump_dir reader self_ref 1000 (bytes "./") 8 []).1 = true.
Proof.
  apply (dump_dir_self_reference reader self_ref 8 (bytes "x") []).
  - vm_compute. discriminate.
  - exists PROXMOX_CATALOG_FILE_MAGIC_1_0, (le_bytes 8 8). split_and!; [reflexivity|reflexivity|].
    repeat constructor; unfold NAME_BUF_LEN; simpl; lia.
Defined.

Lemma catalog_codec_roundtrip_witness :
  catalog_decode_i64 (catalog_encode_i64 (- 2 ^ 63) ++ [x07]) = Ok (- 2 ^ 63, [x07]).
Proof. apply (catalog_codec_roundtrip (- 2 ^ 63) [x07]). unfold in_i64. lia. Defined.
