(* ===== verification/Manifest.v ===== *)
(** * Backup manifests, [pbs-datastore/src/manifest.rs]

    The manifest of a snapshot lists its archives with size and checksum; it is stored as
    JSON and signed with the encryption key.  [Value] is [serde_json::Value], the
    conversions derived by serde are written out, and the functions of libraries
    (JSON text, hexadecimal strings, HMAC, the types of the crate pbs-api-types) are the
    record [JsonLib]. *)

From S2P Require Import Prelude IndexFile DataBlob.
From Stdlib Require Import Strings.Byte.

(** ** [serde_json::Value] *)
Inductive Value :=
| VNull
| VBool (b : bool)
| VNumber (n : Z)
| VString (s : string)
| VArray (l : list Value)
| VObject (fields : list (string * Value)).

Fixpoint field_get (fields : list (string * Value)) (key : string) : option Value :=
  match fields with
  | [] => None
  | (k, v) :: fields => if bool_decide (k = key) then Some v else field_get fields key
  end.
Fixpoint field_set (fields : list (string * Value)) (key : string) (x : Value)
    : list (string * Value) :=
  match fields with
  | [] => [(key, x)]
  | (k, v) :: fields =>
      if bool_decide (k = key) then (k, x) :: fields else (k, v) :: field_set fields key x
  end.
Fixpoint field_remove (fields : list (string * Value)) (key : string) : list (string * Value) :=
  match fields with
  | [] => []
  | (k, v) :: fields =>
      if bool_decide (k = key) then fields else (k, v) :: field_remove fields key
  end.

(** [value[key]]: [Null] when there is no such field. *)
Definition value_index (v : Value) (key : string) : Value :=
  match v with VObject fields => default VNull (field_get fields key) | _ => VNull end.
(** [value[key] = x]: [Null] becomes an object, and anything else panics. *)
Definition value_index_mut (v : Value) (key : string) (x : Value) : res Value :=
  match v with
  | VNull => Ok (VObject [(key, x)])
  | VObject fields => Ok (VObject (field_set fields key x))
  | _ => Panic "cannot access key in JSON value"
  end.
(** [value.as_object_mut().unwrap().remove(key)]. *)
Definition value_remove (v : Value) (key : string) : res Value :=
  match v with
  | VObject fields => Ok (VObject (field_remove fields key))
  | _ => Panic "called `Option::unwrap()` on a `None` value"
  end.

Definition is_null (v : Value) : bool := match v with VNull => true | _ => false end.

(** ** Data *)
Definition MANIFEST_BLOB_NAME : string := "index.json.blob".

(** [pbs_api_types::CryptMode]. *)
Inductive CryptModeT := ModeNone | ModeEncrypt | ModeSignOnly.

Record FileInfo := {
  fi_filename : string; fi_crypt_mode : CryptModeT; fi_size : Z; fi_csum : digest;
}.

Definition chunk_crypt_mode (f : FileInfo) : CryptModeT :=
  match fi_crypt_mode f with
  | ModeEncrypt => ModeEncrypt
  | ModeSignOnly | ModeNone => ModeNone
  end.

Record BackupManifest := {
  m_backup_type : string; m_backup_id : string; m_backup_time : Z;
  m_files : list FileInfo;
  unprotected : Value;
  m_signature : option string;
}.

Definition manifest_new (ty id : string) (time : Z) : BackupManifest :=
  {| m_backup_type := ty; m_backup_id := id; m_backup_time := time; m_files := [];
     unprotected := VObject []; m_signature := None |}.

Definition manifest_add_file (filename : string) (size : Z) (csum : digest) (mode : CryptModeT)
    (m : BackupManifest) : BackupManifest :=
  {| m_backup_type := m_backup_type m; m_backup_id := m_backup_id m;
     m_backup_time := m_backup_time m;
     m_files := m_files m ++ [{| fi_filename := filename; fi_crypt_mode := mode;
                                 fi_size := size; fi_csum := csum |}];
     unprotected := unprotected m; m_signature := m_signature m |}.

Definition with_unprotected (m : BackupManifest) (v : Value) : BackupManifest :=
  {| m_backup_type := m_backup_type m; m_backup_id := m_backup_id m;
     m_backup_time := m_backup_time m; m_files := m_files m; unprotected := v;
     m_signature := m_signature m |}.

Definition lookup_file_info (m : BackupManifest) (name : string) : res FileInfo :=
  match list_find (fun item => fi_filename item = name) (m_files m) with
  | None => Err "manifest does not contain file"
  | Some (_, info) => Ok info
  end.

Definition verify_file (m : BackupManifest) (name : string) (csum : digest) (size : Z) : res unit :=
  let? info := lookup_file_info m name in
  if negb (size =? fi_size info) then Err "wrong size for file" else
  if negb (bool_decide (csum = fi_csum info)) then Err "wrong checksum for file" else Ok tt.

(** ** Libraries *)
Record JsonLib := {
  hex_encode : list byte -> string;
  hex_decode32 : string -> res digest;
  json_from_slice : list byte -> res Value;
  to_string_pretty : Value -> list byte;
  to_canonical_json : Value -> res (list byte);
  hmac_sha256 : list byte -> list byte -> list byte; (* key, data *)
  (* pbs-api-types: backup types, archive names and key fingerprints *)
  parse_backup_type : string -> res string;
  archive_name_strict : string -> res string;
  fingerprint_to_value : list byte -> res Value;
  fingerprint_of_value : Value -> res (list byte);
}.

Section manifest.
Variables (P : Prims) (J : JsonLib).

(** ** Conversions derived by serde *)
Definition crypt_mode_str (c : CryptModeT) : string :=
  match c with ModeNone => "none" | ModeEncrypt => "encrypt" | ModeSignOnly => "sign-only" end.
Definition crypt_mode_of (v : Value) : res CryptModeT :=
  match v with
  | VString s =>
      if bool_decide (s = "none") then Ok ModeNone else
      if bool_decide (s = "encrypt") then Ok ModeEncrypt else
      if bool_decide (s = "sign-only") then Ok ModeSignOnly else Err "unknown variant"
  | _ => Err "invalid type"
  end.

Definition file_to_value (f : FileInfo) : Value := VObject [
  ("filename", VString (fi_filename f)); ("crypt-mode", VString (crypt_mode_str (fi_crypt_mode f)));
  ("size", VNumber (fi_size f)); ("csum", VString (hex_encode J (fi_csum f)))].

Definition manifest_to_value (m : BackupManifest) : Value := VObject [
  ("backup-type", VString (m_backup_type m)); ("backup-id", VString (m_backup_id m));
  ("backup-time", VNumber (m_backup_time m)); ("files", VArray (map file_to_value (m_files m)));
  ("unprotected", unprotected m);
  ("signature", match m_signature m with Some s => VString s | None => VNull end)].

Definition get_string (v : option Value) : res string :=
  match v with
  | Some (VString s) => Ok s
  | Some _ => Err "invalid type, expected a string"
  | None => Err "missing field"
  end.
Definition get_int (lo hi : Z) (v : option Value) : res Z :=
  match v with
  | Some (VNumber n) => if (lo <=? n) && (n <=? hi) then Ok n else Err "invalid value"
  | Some _ => Err "invalid type, expected a number"
  | None => Err "missing field"
  end.

Definition file_of_value (v : Value) : res FileInfo :=
  match v with
  | VObject o =>
      let? name := get_string (field_get o "filename") in
      let? name := archive_name_strict J name in
      let? mode := match field_get o "crypt-mode" with
                   | None => Ok ModeNone
                   | Some v => crypt_mode_of v
                   end in
      let? size := get_int 0 U64_MAX (field_get o "size") in
      let? csum := get_string (field_get o "csum") in
      let? csum := hex_decode32 J csum in
      Ok {| fi_filename := name; fi_crypt_mode := mode; fi_size := size; fi_csum := csum |}
  | _ => Err "invalid type, expected struct FileInfo"
  end.

Fixpoint files_of_values (l : list Value) : res (list FileInfo) :=
  match l with
  | [] => Ok []
  | v :: l => let? f := file_of_value v in let? fs := files_of_values l in Ok (f :: fs)
  end.

Definition manifest_from_value (v : Value) : res BackupManifest :=
  match v with
  | VObject o =>
      let? ty := get_string (field_get o "backup-type") in
      let? ty := parse_backup_type J ty in
      let? id := get_string (field_get o "backup-id") in
      let? time := get_int (- 2 ^ 63) I64_MAX (field_get o "backup-time") in
      let? files := match field_get o "files" with
                    | Some (VArray l) => files_of_values l
                    | Some _ => Err "invalid type, expected a sequence"
                    | None => Err "missing field"
                    end in
      let unprot := default (VObject []) (field_get o "unprotected") in
      let? sig := match field_get o "signature" with
                  | None | Some VNull => Ok None
                  | Some (VString s) => Ok (Some s)
                  | Some _ => Err "invalid type, expected a string"
                  end in
      Ok {| m_backup_type := ty; m_backup_id := id; m_backup_time := time; m_files := files;
            unprotected := unprot; m_signature := sig |}
  | _ => Err "invalid type, expected struct BackupManifest"
  end.

(** ** Signatures *)
Definition FINGERPRINT_INPUT : list byte := map byte_of_Z
  [110; 208; 239; 119; 71; 31; 255; 77; 85; 199; 168; 254; 74; 157; 182; 33; 97; 64; 127; 19; 76;
   114; 93; 223; 48; 153; 45; 37; 236; 69; 237; 38].

(** [CryptConfig::fingerprint] and [CryptConfig::compute_auth_tag]. *)
Definition fingerprint (c : CryptConfig) : list byte := compute_digest P c FINGERPRINT_INPUT.
Definition compute_auth_tag (c : CryptConfig) (data : list byte) : list byte :=
  hmac_sha256 J (id_key c) data.

Definition json_signature (data : Value) (c : CryptConfig) : res (list byte) :=
  let? signed_data := value_remove data "unprotected" in
  let? signed_data := value_remove signed_data "signature" in
  let? canonical := to_canonical_json J signed_data in
  Ok (compute_auth_tag c canonical).

Definition signature (m : BackupManifest) (c : CryptConfig) : res (list byte) :=
  json_signature (manifest_to_value m) c.

Definition manifest_to_string (m : BackupManifest) (crypt_config : option CryptConfig)
    : res (list byte) :=
  let manifest := manifest_to_value m in
  let? manifest :=
    match crypt_config with
    | Some c =>
        let? sig := signature m c in
        let? manifest := value_index_mut manifest "signature" (VString (hex_encode J sig)) in
        let? fp := fingerprint_to_value J (fingerprint c) in
        let? unprot := value_index_mut (value_index manifest "unprotected") "key-fingerprint" fp in
        value_index_mut manifest "unprotected" unprot
    | None => Ok manifest
    end in
  Ok (to_string_pretty J manifest).

(** [iv] is not used, as manifests are not encrypted. *)
Definition to_data_blob (m : BackupManifest) (crypt_config : option CryptConfig) : res DataBlob :=
  let? s := manifest_to_string m crypt_config in
  encode P (Err "no iv") s None true.

Definition manifest_fingerprint (m : BackupManifest) : res (option (list byte)) :=
  match value_index (unprotected m) "key-fingerprint" with
  | VNull => Ok None
  | value => let? fp := fingerprint_of_value J value in Ok (Some fp)
  end.

Definition check_fingerprint (m : BackupManifest) (crypt_config : option CryptConfig) : res unit :=
  let? fp := manifest_fingerprint m in
  match fp with
  | None => Ok tt
  | Some fp =>
      match crypt_config with
      | None => Err "missing key - manifest was created with key"
      | Some c =>
          if negb (bool_decide (fingerprint c = fp))
          then Err "wrong key - manifest's key does not match provided key" else Ok tt
      end
  end.

Definition check_signature (m : BackupManifest) (c : CryptConfig) (ignore_missing_signature : bool)
    : res unit :=
  match m_signature m with
  | Some sig =>
      let? expected := signature m c in
      let expected_signature := hex_encode J expected in
      let fp := value_index (unprotected m) "key-fingerprint" in
      let? _ := if negb (is_null fp) then
                  let? fp := fingerprint_of_value J fp in
                  if negb (bool_decide (fingerprint c = fp))
                  then Err "wrong key - unable to verify signature" else Ok tt
                else Ok tt in
      if negb (bool_decide (sig = expected_signature)) then Err "wrong signature in manifest"
      else Ok tt
  | None => if negb ignore_missing_signature then Err "manifest has no signature" else Ok tt
  end.

Definition manifest_from_data (data : list byte) (crypt_config : option CryptConfig)
    (ignore_missing_signature : bool) : res BackupManifest :=
  let? json := json_from_slice J data in
  let? manifest := manifest_from_value json in
  match crypt_config with
  | Some c => let? _ := check_signature manifest c ignore_missing_signature in Ok manifest
  | None => Ok manifest
  end.

(** [TryFrom<DataBlob>]. *)
Definition manifest_try_from (blob : DataBlob) : res BackupManifest :=
  let? data := decode P blob None None in
  let? json := json_from_slice J data in
  manifest_from_value json.
End manifest.
