(* ===== verification/ManifestSpec.v ===== *)
(** * Backup manifests: storage and signatures *)

From S2P Require Import Prelude IndexFile DataBlob DataBlobSpec Manifest.
From Stdlib Require Import Strings.Byte.

(** What the code relies on: text and hexadecimal strings can be read back, fingerprints
    too, and every value has a canonical form. *)
Class JsonLaws (J : JsonLib) := {
  hex_roundtrip d : length d = 32%nat -> hex_decode32 J (hex_encode J d) = Ok d;
  json_text v : json_from_slice J (to_string_pretty J v) = Ok v;
  fingerprint_value d : length d = 32%nat ->
    exists v, fingerprint_to_value J d = Ok v /\ is_null v = false /\ fingerprint_of_value J v = Ok d;
  canonical_total v : exists b, to_canonical_json J v = Ok b;
}.

(** A manifest whose fields are valid: names and backup type are accepted, numbers in range. *)
Definition file_ok (J : JsonLib) (f : FileInfo) : Prop :=
  archive_name_strict J (fi_filename f) = Ok (fi_filename f) /\ in_u64 (fi_size f) /\
  length (fi_csum f) = 32%nat.
Definition manifest_ok (J : JsonLib) (m : BackupManifest) : Prop :=
  parse_backup_type J (m_backup_type m) = Ok (m_backup_type m) /\ in_i64 (m_backup_time m) /\
  Forall (file_ok J) (m_files m) /\
  match unprotected m with VNull | VObject _ => True | _ => False end.

(** The same content, whatever is in the unprotected part and the signature. *)
Definition same_content (m m' : BackupManifest) : Prop :=
  m_backup_type m = m_backup_type m' /\ m_backup_id m = m_backup_id m' /\
  m_backup_time m = m_backup_time m' /\ m_files m = m_files m'.

Module ManifestLemmas.
Section json.
Context (P : Prims) {HP : PrimsLaws P} (J : JsonLib) {HJ : JsonLaws J}.

Lemma file_roundtrip f : file_ok J f -> file_of_value J (file_to_value J f) = Ok f.
Proof.
  destruct f as [name mode size csum]. intros (Hn & Hs & Hc). simpl in *. rewrite Hn.
  unfold in_u64 in Hs. rewrite (proj2 (Z.leb_le 0 size)), (proj2 (Z.leb_le size _)) by lia.
  rewrite hex_roundtrip by done. by destruct mode.
Qed.

Lemma files_roundtrip fs :
  Forall (file_ok J) fs -> files_of_values J (map (file_to_value J) fs) = Ok fs.
Proof.
  induction 1 as [|f fs Hf Hfs IH]; [done|]. cbn [map files_of_values].
  by rewrite file_roundtrip, IH.
Qed.

(** The unprotected part may be anything here. *)
Lemma value_roundtrip m :
  parse_backup_type J (m_backup_type m) = Ok (m_backup_type m) -> in_i64 (m_backup_time m) ->
  Forall (file_ok J) (m_files m) ->
  manifest_from_value J (manifest_to_value J m) = Ok m.
Proof.
  destruct m as [ty id time fs unprot sig]. intros Ht Hi Hf. simpl in *. rewrite Ht.
  unfold in_i64, I64_MAX in *.
  rewrite (proj2 (Z.leb_le _ time)), (proj2 (Z.leb_le time _)) by lia. simpl.
  rewrite files_roundtrip by done. by destruct sig.
Qed.

(** What is signed: the manifest without the unprotected part and the signature. *)
Definition signed_part (m : BackupManifest) : Value := VObject [
  ("backup-type", VString (m_backup_type m)); ("backup-id", VString (m_backup_id m));
  ("backup-time", VNumber (m_backup_time m)); ("files", VArray (map (file_to_value J) (m_files m)))].

Lemma signature_eq m c :
  signature J m c =
  let? canonical := to_canonical_json J (signed_part m) in Ok (compute_auth_tag J c canonical).
Proof. done. Qed.

Lemma signature_same m m' c : same_content m m' -> signature J m c = signature J m' c.
Proof. intros (H1 & H2 & H3 & H4). rewrite !signature_eq. unfold signed_part. by rewrite H1, H2, H3, H4. Qed.

Lemma fingerprint_len c : length (fingerprint P c) = 32%nat.
Proof. apply sha256_len. Qed.

(** The manifest that [to_string] writes when there is a key. *)
Definition signed_manifest (m : BackupManifest) (sig : list byte) (unprot : Value) : BackupManifest :=
  {| m_backup_type := m_backup_type m; m_backup_id := m_backup_id m;
     m_backup_time := m_backup_time m; m_files := m_files m; unprotected := unprot;
     m_signature := Some (hex_encode J sig) |}.

Lemma field_get_set fields key x : field_get (field_set fields key x) key = Some x.
Proof.
  induction fields as [|[k v] fields IH]; simpl.
  - by rewrite bool_decide_eq_true_2.
  - destruct (bool_decide (k = key)) eqn:E; simpl; rewrite E; done.
Qed.

Lemma to_string_signed m c :
  manifest_ok J m ->
  exists sig unprot fp, signature J m c = Ok sig /\
    fingerprint_of_value J fp = Ok (fingerprint P c) /\ is_null fp = false /\
    value_index unprot "key-fingerprint" = fp /\
    manifest_to_string P J m (Some c)
      = Ok (to_string_pretty J (manifest_to_value J (signed_manifest m sig unprot))).
Proof.
  intros (_ & _ & _ & Hu). destruct (canonical_total (signed_part m)) as [b Hb].
  destruct (fingerprint_value (fingerprint P c) (fingerprint_len c)) as (fp & Hfp & Hnull & Hof).
  pose proof (signature_eq m c) as Hsig. rewrite Hb in Hsig.
  unfold manifest_to_string. rewrite Hsig, Hfp. cbn [manifest_to_value value_index_mut field_set].
  destruct m as [ty id time fs unprot sig0]. simpl in *.
  destruct unprot as [| | | | |fields]; try done; simpl.
  - by eexists _, (VObject [("key-fingerprint", fp)]), fp.
  - eexists _, (VObject (field_set fields "key-fingerprint" fp)), fp. split_and!; [done..| |done].
    simpl. by rewrite field_get_set.
Qed.

Lemma check_signed m c sig unprot fp ignore :
  signature J m c = Ok sig -> fingerprint_of_value J fp = Ok (fingerprint P c) ->
  value_index unprot "key-fingerprint" = fp ->
  check_signature P J (signed_manifest m sig unprot) c ignore = Ok tt.
Proof.
  intros Hs Hf Hu. unfold check_signature. cbn [signed_manifest m_signature unprotected].
  rewrite (signature_same _ m) by done. rewrite Hs, Hu. destruct (is_null fp); simpl.
  - by rewrite bool_decide_eq_true_2.
  - rewrite Hf, !bool_decide_eq_true_2 by done. done.
Qed.
End json.

Lemma check_signature_inv P J m c :
  check_signature P J m c false = Ok tt ->
  exists b, to_canonical_json J (signed_part J m) = Ok b /\
    m_signature m = Some (hex_encode J (compute_auth_tag J c b)).
Proof.
  unfold check_signature. destruct (m_signature m) as [sig|]; [|done]. rewrite signature_eq.
  destruct (to_canonical_json J (signed_part J m)) as [b| |]; [|done..]. intros H. exists b.
  split; [done|]. inv_ok; by destruct (decide (sig = hex_encode J (compute_auth_tag J c b))) as [->|].
Qed.

Lemma signed_part_inj J m m' :
  (forall d d', hex_encode J d = hex_encode J d' -> d = d') ->
  signed_part J m = signed_part J m' -> same_content m m'.
Proof.
  intros Hhex Heq. injection Heq as H1 H2 H3 H4.
  split_and!; [done..|]. revert H4. generalize (m_files m'). induction (m_files m) as [|f fs IH];
    intros [|f' fs'] H4; try done. injection H4 as Hn Hm Hs Hc H4. f_equal; [|by apply IH].
  destruct f as [n md s cs], f' as [n' md' s' cs']; simpl in *. apply Hhex in Hc. subst.
  by destruct md, md'.
Qed.
End ManifestLemmas.
Import ManifestLemmas.

(** A manifest that a client signs and stores can be read back.  Writing a valid
    manifest with a key succeeds; reading the text with the same key (which verifies the
    signature and the key fingerprint, and insists on a signature) or without any key returns a
    manifest with the same backup and the same files; and stored as a blob it loads as the same
    manifest. *)
Theorem manifest_signed_roundtrip P `{HP : PrimsLaws P} J `{HJ : JsonLaws J} m c :
  manifest_ok J m ->
  exists s m', manifest_to_string P J m (Some c) = Ok s /\
    same_content m m' /\
    manifest_from_data P J s (Some c) false = Ok m' /\
    manifest_from_data P J s None false = Ok m' /\
    check_fingerprint P J m' (Some c) = Ok tt /\
    (Z.of_nat (length s) <= MAX_BLOB_SIZE ->
     exists blob, to_data_blob P J m (Some c) = Ok blob /\
       load_from_reader P (Ok (raw_data blob)) = Ok blob /\ manifest_try_from P J blob = Ok m').
Proof.
  intros Hok. destruct (to_string_signed P J m c Hok) as (sig & unprot & fp & Hs & Hf & Hnull & Hu & He).
  pose proof Hok as (Ht & Hi & Hfs & _).
  assert (manifest_from_value J (manifest_to_value J (signed_manifest J m sig unprot))
    = Ok (signed_manifest J m sig unprot)) as Hback by by apply value_roundtrip.
  eexists _, (signed_manifest J m sig unprot). split; [done|].
  unfold manifest_from_data. rewrite json_text, Hback. split_and!; try done.
  - by rewrite (check_signed P J m c sig unprot fp).
  - unfold check_fingerprint, manifest_fingerprint. cbn [signed_manifest unprotected]. rewrite Hu.
    destruct fp; try done; rewrite Hf; by rewrite bool_decide_eq_true_2.
  - intros Hl. set (s := to_string_pretty J _) in *.
    destruct (encoded_roundtrip P (replicate 16 x00) s None true Hl) as (blob & Hb & Hld & _ & Hdec);
      [done..|].
    exists blob. unfold to_data_blob, load_from_reader, manifest_try_from. rewrite He.
    change (encode P (Err "no iv") s None true) with (encode P (Ok (replicate 16 x00)) s None true).
    rewrite Hb, (Hdec None). unfold s. by rewrite json_text, Hback.
Qed.

(** C34.  The signature protects the manifest.  When two manifests with the same signature
    are accepted under a key then, unless their canonical texts are a collision of the
    authentication tag or of the canonical form, they describe the same backup with the same
    files, names, sizes and checksums: nothing but the unprotected part can be exchanged.
    A manifest without signature is not accepted. *)
Theorem manifest_tamper_detected P J m m' c :
  (forall b b', to_canonical_json J (signed_part J m) = Ok b ->
     to_canonical_json J (signed_part J m') = Ok b' ->
     compute_auth_tag J c b = compute_auth_tag J c b' -> signed_part J m = signed_part J m') ->
  (forall d d', hex_encode J d = hex_encode J d' -> d = d') ->
  check_signature P J m c false = Ok tt -> check_signature P J m' c false = Ok tt ->
  m_signature m = m_signature m' ->
  is_Some (m_signature m) /\ same_content m m'.
Proof.
  intros Hcoll Hhex H H' Hsig.
  apply check_signature_inv in H as (b & Hb & Hs). apply check_signature_inv in H' as (b' & Hb' & Hs').
  split; [by rewrite Hs|]. rewrite Hs, Hs' in Hsig. injection Hsig as Hsig.
  apply Hhex in Hsig. eapply signed_part_inj; eauto.
Qed.

(** [verify_file] accepts a file exactly when the first entry of that name in the
    manifest has this size and this checksum. *)
Lemma verify_file_spec m name csum size :
  verify_file m name csum size = Ok tt <->
  exists i info, list_find (fun f => fi_filename f = name) (m_files m) = Some (i, info) /\
    fi_size info = size /\ fi_csum info = csum.
Proof.
  unfold verify_file, lookup_file_info.
  destruct (list_find _ (m_files m)) as [[i info]|]; [|naive_solver].
  destruct (size =? fi_size info) eqn:E1; zify_bool; simpl; [|naive_solver].
  case_bool_decide; simpl; naive_solver.
Qed.

(** ** An instance of the libraries *)
Module ToyJson.
(** JSON values as trees, and those as bytes. *)
Fixpoint to_tree (v : Value) : gen_tree (bool + (Z + string)) :=
  match v with
  | VNull => GenNode 0 []
  | VBool b => GenLeaf (inl b)
  | VNumber n => GenLeaf (inr (inl n))
  | VString s => GenLeaf (inr (inr s))
  | VArray l => GenNode 1 (map to_tree l)
  | VObject fields => GenNode 2 (map (fun kv => GenNode 3 [GenLeaf (inr (inr kv.1)); to_tree kv.2]) fields)
  end.
Fixpoint of_tree (t : gen_tree (bool + (Z + string))) : Value :=
  match t with
  | GenLeaf (inl b) => VBool b
  | GenLeaf (inr (inl n)) => VNumber n
  | GenLeaf (inr (inr s)) => VString s
  | GenNode 1 l => VArray (map of_tree l)
  | GenNode 2 l =>
      VObject (map (fun t => match t with
                             | GenNode _ [GenLeaf (inr (inr k)); v] => (k, of_tree v)
                             | _ => ("", VNull)
                             end) l)
  | GenNode _ _ => VNull
  end.

Lemma of_to_tree : forall v, of_tree (to_tree v) = v.
Proof.
  fix IH 1. intros [| | | |l|fields]; simpl; try done; f_equal.
  - induction l as [|v l IHl]; simpl; [done|]. by rewrite IH, IHl.
  - induction fields as [|[k v] fields IHl]; simpl; [done|]. by rewrite IH, IHl.
Qed.

Fixpoint pos_bytes (p : positive) : list byte :=
  match p with xH => [] | xO p => x00 :: pos_bytes p | xI p => x01 :: pos_bytes p end.
Fixpoint bytes_pos (l : list byte) : positive :=
  match l with [] => xH | x00 :: l => xO (bytes_pos l) | _ :: l => xI (bytes_pos l) end.
Lemma bytes_pos_bytes p : bytes_pos (pos_bytes p) = p.
Proof. induction p; simpl; congruence. Qed.

Definition text (v : Value) : list byte := pos_bytes (countable.encode (to_tree v)).
Definition parse (l : list byte) : res Value :=
  match @countable.decode (gen_tree (bool + (Z + string))) _ _ (bytes_pos l) with
  | Some t => Ok (of_tree t)
  | None => Err "syntax error"
  end.
Lemma parse_text v : parse (text v) = Ok v.
Proof. unfold parse, text. by rewrite bytes_pos_bytes, countable.decode_encode, of_to_tree. Qed.

Definition toy_json : JsonLib := {|
  hex_encode := String.string_of_list_byte;
  hex_decode32 s := Ok (String.list_byte_of_string s);
  json_from_slice := parse;
  to_string_pretty := text;
  to_canonical_json v := Ok (text v);
  hmac_sha256 key data := key ++ data;
  parse_backup_type := Ok;
  archive_name_strict := Ok;
  fingerprint_to_value d := Ok (VString (String.string_of_list_byte d));
  fingerprint_of_value v := match v with VString s => Ok (String.list_byte_of_string s) | _ => Err "" end;
|}.

#[global] Instance toy_json_laws : JsonLaws toy_json.
Proof.
  split.
  - intros d _. cbn [toy_json hex_encode hex_decode32]. f_equal.
    apply String.list_byte_of_string_of_list_byte.
  - apply parse_text.
  - intros d _. exists (VString (String.string_of_list_byte d)). split_and!; [done..|].
    cbn [toy_json fingerprint_of_value]. f_equal. apply String.list_byte_of_string_of_list_byte.
  - intros v. by exists (text v).
Qed.

Definition manifest (note : string) : BackupManifest :=
  with_unprotected
    (manifest_add_file "root.pxar.didx" 4096 (replicate 32 x05) ModeEncrypt
      (manifest_new "host" "elsa" 1700000000))
    (VObject [("notes", VString note)]).
Definition signed (note : string) : BackupManifest :=
  signed_manifest toy_json (manifest note)
    (ToyPrims.key.(id_key) ++ text (signed_part toy_json (manifest note)))
    (VObject [("notes", VString note)]).
End ToyJson.
Import ToyJson.

Lemma manifest_signed_roundtrip_witness :
  exists s m', manifest_to_string ToyPrims.toy toy_json (manifest "a") (Some ToyPrims.key) = Ok s /\
    same_content (manifest "a") m' /\
    manifest_from_data ToyPrims.toy toy_json s (Some ToyPrims.key) false = Ok m'.
Proof.
  destruct (manifest_signed_roundtrip ToyPrims.toy toy_json (manifest "a") ToyPrims.key)
    as (s & m' & H1 & H2 & H3 & _).
  - split_and!; [reflexivity|unfold in_i64; simpl; lia| |exact I].
    repeat constructor; simpl; unfold U64_MAX; lia.
  - exists s, m'. split; [exact H1|]. split; [exact H2|exact H3].
Defined.

Lemma manifest_tamper_detected_witness :
  is_Some (m_signature (signed "a")) /\ same_content (signed "a") (signed "b").
Proof.
  apply (manifest_tamper_detected ToyPrims.toy toy_json (signed "a") (signed "b") ToyPrims.key).
  - intros b b' _ _ _. reflexivity.
  - intros d d' H. apply (f_equal String.list_byte_of_string) in H. cbn [toy_json hex_encode] in H.
    rewrite !String.list_byte_of_string_of_list_byte in H. exact H.
  - vm_compute. reflexivity.
  - vm_compute. reflexivity.
  - reflexivity.
Defined.
