(* ===== verification/Prune.v ===== *)
(** * Retention of snapshots, [pbs-datastore/src/prune.rs], [src/server/prune_job.rs]

    Which snapshots of a group are kept.  Snapshots are identified by their relative path; the
    marks are a map from paths.  The formatting of times ([strftime_local]), the
    clock and [sort_unstable_by_key] (which may order equal keys in any way)
    are parameters. *)

From S2P Require Import Prelude Manifest.

(** ** Snapshots, [pbs-datastore/src/backup_info.rs] *)
Record BackupInfo := {
  relative_path : string; (* [backup_dir.relative_path()] *)
  backup_time : Z;
  backup_time_string : string;
  files : list string;
  protected : bool;
}.

Definition is_finished (info : BackupInfo) : bool :=
  existsb (fun name => bool_decide (name = MANIFEST_BLOB_NAME)) (files info).

(** [list_backup_files]: the directory entries with their type ([true] for a file) that
    match the pattern of backup files. *)
Fixpoint list_backup_files (entries : list (string * bool)) (acc : list string) (prot : bool)
    : list string * bool :=
  match entries with
  | [] => (acc, prot)
  | (filename, is_file) :: entries =>
      if negb is_file then list_backup_files entries acc prot
      else if bool_decide (filename = ".protected") then list_backup_files entries acc true
      else list_backup_files entries (acc ++ [filename]) prot
  end.

Inductive PruneMark := Protected | Keep | KeepPartial | Remove | TimestampInFuture.

#[global] Instance PruneMark_eq_dec : EqDecision PruneMark.
Proof. solve_decision. Defined.

Definition mark_keep (m : PruneMark) : bool := negb (bool_decide (m = Remove)).
Definition mark_protected (m : PruneMark) : bool := bool_decide (m = Protected).

(** [KeepOptions] of the crate pbs-api-types: the options that the code reads. *)
Record KeepOptions := {
  keep_last : option Z; keep_hourly : option Z; keep_daily : option Z;
  keep_weekly : option Z; keep_monthly : option Z; keep_yearly : option Z;
}.

Abbreviation marks := (gmap string PruneMark).

(** The first loop of [mark_selections]. *)
Fixpoint collect_included (mark : marks) (list : list BackupInfo)
    (select_id : BackupInfo -> res string) (already_included : gset string) : res (gset string) :=
  match list with
  | [] => Ok already_included
  | info :: list =>
      match mark !! relative_path info with
      | Some Keep =>
          let? sel_id := select_id info in
          collect_included mark list select_id ({[ sel_id ]} ∪ already_included)
      | _ => collect_included mark list select_id already_included
      end
  end.

(** The second loop. *)
Fixpoint select_loop (list : list BackupInfo) (keep : Z) (select_id : BackupInfo -> res string)
    (already_included include_hash : gset string) (mark : marks) : res marks :=
  match list with
  | [] => Ok mark
  | info :: list =>
      let backup_id := relative_path info in
      if bool_decide (is_Some (mark !! backup_id))
      then select_loop list keep select_id already_included include_hash mark
      else if protected info
      then select_loop list keep select_id already_included include_hash (<[backup_id:=Protected]> mark)
      else
        let? sel_id := select_id info in
        if bool_decide (sel_id ∈ already_included)
        then select_loop list keep select_id already_included include_hash mark
        else if negb (bool_decide (sel_id ∈ include_hash)) then
          if keep <=? Z.of_nat (size include_hash) then Ok mark
          else select_loop list keep select_id already_included ({[ sel_id ]} ∪ include_hash)
                 (<[backup_id:=Keep]> mark)
        else select_loop list keep select_id already_included include_hash (<[backup_id:=Remove]> mark)
  end.

(** [mark_selections]; an error leaves [compute_prune_info], so that the marks
    are not needed then. *)
Definition mark_selections (mark : marks) (list : list BackupInfo) (keep : Z)
    (select_id : BackupInfo -> res string) : res marks :=
  let? already_included := collect_included mark list select_id ∅ in
  select_loop list keep select_id already_included ∅ mark.

(** [remove_incomplete_and_ignore_future], with the current time. *)
Fixpoint incomplete_loop (now : Z) (list : list BackupInfo) (keep_unfinished : bool) (mark : marks)
    : marks :=
  match list with
  | [] => mark
  | info :: list =>
      let backup_id := relative_path info in
      if now <? backup_time info
      then incomplete_loop now list keep_unfinished (<[backup_id:=TimestampInFuture]> mark)
      else if is_finished info then incomplete_loop now list false mark
      else incomplete_loop now list false
             (<[backup_id:=if keep_unfinished then KeepPartial else Remove]> mark)
  end.
Definition remove_incomplete_and_ignore_future (now : Z) (mark : marks) (list : list BackupInfo)
    : marks :=
  incomplete_loop now list true mark.

Section prune.
Variable sort_unstable_by_key : (BackupInfo -> Z) -> list BackupInfo -> list BackupInfo.
Variable strftime_local : string -> Z -> res string.

(** [BackupInfo::sort_list]; [Reverse] inverts the order of the keys. *)
Definition sort_list (list : list BackupInfo) (ascending : bool) : Datatypes.list BackupInfo :=
  if ascending then sort_unstable_by_key backup_time list
  else sort_unstable_by_key (fun b => - backup_time b) list.

(** [if let Some(keep) = option { mark_selections(..)?; }]. *)
Definition apply_option (list : list BackupInfo) (select_id : BackupInfo -> res string)
    (option : option Z) (mark : marks) : res marks :=
  match option with
  | Some keep => mark_selections mark list keep select_id
  | None => Ok mark
  end.

Definition strftime_of (format : string) (info : BackupInfo) : res string :=
  strftime_local format (backup_time info).

Definition final_mark (mark : marks) (info : BackupInfo) : PruneMark :=
  if protected info then Protected else default Remove (mark !! relative_path info).

Definition compute_prune_info (now : Z) (list : list BackupInfo) (options : KeepOptions)
    : res (Datatypes.list (BackupInfo * PruneMark)) :=
  let list := sort_list list false in
  let mark := remove_incomplete_and_ignore_future now ∅ list in
  let? mark := apply_option list (fun info => Ok (backup_time_string info)) (keep_last options) mark in
  let? mark := apply_option list (strftime_of "%Y/%m/%d/%H") (keep_hourly options) mark in
  let? mark := apply_option list (strftime_of "%Y/%m/%d") (keep_daily options) mark in
  let? mark := apply_option list (strftime_of "%G/%V") (keep_weekly options) mark in
  let? mark := apply_option list (strftime_of "%Y/%m") (keep_monthly options) mark in
  let? mark := apply_option list (strftime_of "%Y") (keep_yearly options) mark in
  Ok (map (fun info => (info, final_mark mark info)) list).

(** ** Removal: the loop over the groups of [prune_datastore]

    [remove_backup_dir] has effects on the datastore [St]; its errors are logged only.
    [groups] has, per accessible group, what [list_backups] returned. *)
Section remove.
Context {St : Type}.
Variable remove_backup_dir : BackupInfo -> St -> res unit * St.

Fixpoint remove_loop (keep_all dry_run : bool) (prune_info : list (BackupInfo * PruneMark)) (st : St)
    : res unit * St :=
  match prune_info with
  | [] => (Ok tt, st)
  | (info, mark) :: prune_info =>
      let keep := keep_all || mark_keep mark in
      if negb keep && negb dry_run then
        match remove_backup_dir info st with
        | (Panic e, st) => (Panic e, st)
        | (_, st) => remove_loop keep_all dry_run prune_info st
        end
      else remove_loop keep_all dry_run prune_info st
  end.

Definition prune_group (now : Z) (keep_all dry_run : bool) (options : KeepOptions)
    (list : list BackupInfo) (st : St) : res unit * St :=
  try! prune_info := compute_prune_info now list options for st in
  remove_loop keep_all dry_run (reverse prune_info) st.

Fixpoint prune_datastore (now : Z) (keep_all dry_run : bool) (options : KeepOptions)
    (groups : list (res (list BackupInfo))) (st : St) : res unit * St :=
  match groups with
  | [] => (Ok tt, st)
  | group :: groups =>
      try! list := group for st in
      let! _, st := prune_group now keep_all dry_run options list st in
      prune_datastore now keep_all dry_run options groups st
  end.
End remove.
End prune.

(** [cli_keep_options]: the options as command line arguments, rendered numbers as is. *)
Definition cli_keep_options (opts : list (string * Z)) (options : KeepOptions) : list (string * Z) :=
  foldl (fun opts '(key, keep) =>
           match keep with
           | Some count => if 0 <? count then opts ++ [("--keep-" +:+ key, count)] else opts
           | None => opts
           end) opts
    [("last", keep_last options); ("hourly", keep_hourly options); ("daily", keep_daily options);
     ("weekly", keep_weekly options); ("monthly", keep_monthly options);
     ("yearly", keep_yearly options)].
