(* ===== verification/PruneSpec.v ===== *)
(** * Retention: what is kept, and that nothing else is removed *)

From stdpp Require Import pretty.
From S2P Require Import Prelude Manifest Prune.
#[local] Open Scope Z_scope.

Module Selection.
(** ** One retention rule *)
Section rule.
Variable sel : BackupInfo -> string.

(** The first snapshot of every period that is not in [seen]. *)
Fixpoint firsts (seen : gset string) (l : list BackupInfo) : list BackupInfo :=
  match l with
  | [] => []
  | i :: l => if decide (sel i ∈ seen) then firsts seen l
              else i :: firsts ({[ sel i ]} ∪ seen) l
  end.

(** Snapshots that a rule looks at: without mark, not protected, and of a period that has no
    kept snapshot ([covered]) yet. *)
Definition candidate (mark : marks) (covered : gset string) (i : BackupInfo) : Prop :=
  mark !! relative_path i = None /\ protected i = false /\ sel i ∉ covered.
#[global] Instance candidate_dec mark covered i : Decision (candidate mark covered i).
Proof. apply _. Defined.

Definition newly_kept (mark mark' : marks) (i : BackupInfo) : Prop :=
  mark !! relative_path i = None /\ mark' !! relative_path i = Some Keep.
#[global] Instance newly_kept_dec mark mark' i : Decision (newly_kept mark mark' i).
Proof. apply _. Defined.

Lemma filter_none (P : BackupInfo -> Prop) `{!forall i, Decision (P i)} l :
  (forall i, ~ P i) -> filter P l = [].
Proof. intros HP. induction l as [|i l IH]; [done|]. by rewrite filter_cons, decide_False. Qed.

(** A mark for another path changes nothing. *)
Lemma filter_fresh (P Q : BackupInfo -> Prop) `{!forall i, Decision (P i)} `{!forall i, Decision (Q i)} p l :
  p ∉ map relative_path l -> (forall i, relative_path i <> p -> P i <-> Q i) ->
  filter P l = filter Q l.
Proof.
  induction l as [|i l IH]; [done|]. intros Hp HPQ. cbn [map] in Hp.
  apply not_elem_of_cons in Hp as [Hi Hp]. rewrite !filter_cons, (IH Hp HPQ).
  specialize (HPQ i (not_eq_sym Hi)). by repeat case_decide; tauto || done.
Qed.

Lemma candidate_fresh mark covered p m l :
  p ∉ map relative_path l ->
  filter (candidate (<[p:=m]> mark) covered) l = filter (candidate mark covered) l.
Proof.
  intros Hp. apply (filter_fresh _ _ p); [done|]. intros i Hi. unfold candidate.
  by rewrite lookup_insert_ne by congruence.
Qed.
Lemma newly_kept_fresh mark mark' p m l :
  p ∉ map relative_path l ->
  filter (newly_kept (<[p:=m]> mark) mark') l = filter (newly_kept mark mark') l.
Proof.
  intros Hp. apply (filter_fresh _ _ p); [done|]. intros i Hi. unfold newly_kept.
  by rewrite lookup_insert_ne by congruence.
Qed.

(** The outcome of the loop: marks are only added, on snapshots of the list; the newly kept
    ones are the first of the next [n] periods; a removed one has a kept or [seen] one of its
    period; protected ones get no other mark. *)
Record selected (covered seen : gset string) (n : nat) (l : list BackupInfo) (mark mark' : marks) : Prop := {
  s_kept : filter (newly_kept mark mark') l = take n (firsts seen (filter (candidate mark covered) l));
  s_old p m : mark !! p = Some m -> mark' !! p = Some m;
  s_frame p : p ∉ map relative_path l -> mark' !! p = mark !! p;
  s_new i m : i ∈ l -> mark !! relative_path i = None -> mark' !! relative_path i = Some m ->
    if protected i then m = Protected
    else m = Keep \/
         (m = Remove /\ (sel i ∈ seen \/
          exists k, k ∈ l /\ newly_kept mark mark' k /\ sel k = sel i));
}.

Section loop.
Variables (keep : Z) (select_id : BackupInfo -> res string) (covered : gset string).

(** A step that marks the first snapshot [i] (or leaves it without mark). *)
Lemma selected_step seen seen' n n' i l mark mark1 mark' (om : option PruneMark) :
  relative_path i ∉ map relative_path l ->
  mark1 = match om with Some m => <[relative_path i:=m]> mark | None => mark end ->
  (is_Some om -> mark !! relative_path i = None) ->
  selected covered seen' n' l mark1 mark' ->
  take n (firsts seen (filter (candidate mark covered) (i :: l)))
    = (if decide (om = Some Keep) then [i] else [])
      ++ take n' (firsts seen' (filter (candidate mark covered) l)) ->
  (forall m, om = Some m -> if protected i then m = Protected else
     m = Keep \/ (m = Remove /\ sel i ∈ seen)) ->
  (forall s, s ∈ seen' -> s ∈ seen \/ (om = Some Keep /\ s = sel i)) ->
  selected covered seen n (i :: l) mark mark'.
Proof.
  intros Hi -> Hom [Hk Ho Hf Hn] Htake Hm Hseen.
  assert (mark' !! relative_path i = match om with Some m => Some m | None => mark !! relative_path i end)
    as Hlook by (rewrite Hf by done; destruct om; by simplify_map_eq).
  assert (filter (newly_kept mark mark') l
    = filter (newly_kept (match om with Some m => <[relative_path i:=m]> mark | None => mark end) mark') l)
    as Hsame by (destruct om; [by rewrite newly_kept_fresh|done]).
  split.
  - assert (newly_kept mark mark' i <-> om = Some Keep) as Hni.
    { unfold newly_kept. rewrite Hlook. destruct om as [m|]; [|naive_solver].
      rewrite Hom by done. naive_solver. }
    assert (filter (candidate mark covered) l = filter (candidate (match om with
      Some m => <[relative_path i:=m]> mark | None => mark end) covered) l) as Hcand
      by (destruct om; [by rewrite candidate_fresh|done]).
    rewrite Htake, filter_cons, Hsame, Hk, Hcand. by repeat case_decide; tauto || done.
  - intros p m Hp. apply Ho. destruct om; [|done]. rewrite lookup_insert_ne; [done|].
    intros <-. by rewrite Hom in Hp.
  - intros p Hp. apply not_elem_of_cons in Hp as [Hpi Hp]. rewrite Hf by done.
    destruct om; [|done]. by rewrite lookup_insert_ne.
  - intros j m [->|Hj]%elem_of_cons Hj0 Hj1.
    + rewrite Hlook in Hj1. destruct om as [m'|]; [|congruence]. injection Hj1 as ->.
      specialize (Hm m eq_refl). destruct (protected i); [done|]. naive_solver.
    + assert (relative_path j <> relative_path i) as Hji.
      { intros Heq. apply Hi. rewrite <- Heq. by apply list_elem_of_fmap_2. }
      specialize (Hn j m Hj). rewrite <- Hj0 in Hn at 1.
      destruct (protected j); [destruct om; simplify_map_eq; naive_solver|].
      destruct Hn as [->|[-> [Hs|(k & Hkl & Hkn & Hks)]]];
        [destruct om; by simplify_map_eq|done|by left|right; split; [done|]..].
      * destruct (Hseen _ Hs) as [?|[-> ->]]; [by left|]. right. exists i.
        split_and!; [by left| |done]. split; [by apply Hom|done].
      * right. exists k. split_and!; [by right| |done]. destruct Hkn as [Hk1 Hk2]. split; [|done].
        destruct om; [|done]. by apply lookup_insert_None in Hk1 as [? ?].
Qed.

Lemma select_loop_spec l seen mark :
  NoDup (map relative_path l) -> (forall i, i ∈ l -> select_id i = Ok (sel i)) ->
  Z.of_nat (size seen) <= keep ->
  exists mark', select_loop l keep select_id covered seen mark = Ok mark' /\
    selected covered seen (Z.to_nat (keep - Z.of_nat (size seen))) l mark mark'.
Proof.
  revert seen mark. induction l as [|i l IH]; intros seen mark Hnd Hsel Hkeep.
  { exists mark. split; [done|]. split; [cbn; by rewrite take_nil|done..|]. by intros i m Hi%elem_of_nil. }
  cbn [map] in Hnd. apply NoDup_cons in Hnd as [Hi Hnd]. cbn [select_loop].
  assert (forall j, j ∈ l -> select_id j = Ok (sel j)) as Hsel' by (intros; apply Hsel; by right).
  destruct (bool_decide (is_Some _)) eqn:Em; zify_bool.
  { destruct (IH seen mark Hnd Hsel' Hkeep) as (mark' & He & Hs). exists mark'. split; [done|].
    eapply (selected_step _ seen _ _ i l mark mark mark' None); try done; [|by intros; left].
    rewrite filter_cons, decide_False; [done|]. intros [? _]. destruct Em. congruence. }
  apply eq_None_not_Some in Em. destruct (protected i) eqn:Ep.
  { destruct (IH seen (<[relative_path i:=Protected]> mark) Hnd Hsel' Hkeep) as (mark' & He & Hs).
    exists mark'. split; [done|].
    eapply (selected_step _ seen _ _ i l mark _ mark' (Some Protected)); try done; [| |by intros; left].
    - rewrite filter_cons, decide_False; [done|]. intros (_ & ? & _). congruence.
    - intros m [= <-]. by rewrite Ep. }
  rewrite (Hsel i) by by left. destruct (bool_decide (sel i ∈ covered)) eqn:Ec; zify_bool.
  { destruct (IH seen mark Hnd Hsel' Hkeep) as (mark' & He & Hs). exists mark'. split; [done|].
    eapply (selected_step _ seen _ _ i l mark mark mark' None); try done; [|by intros; left].
    rewrite filter_cons, decide_False; [done|]. by intros (_ & _ & ?). }
  assert (candidate mark covered i) as Hcand by done.
  destruct (bool_decide (sel i ∈ seen)) eqn:Es; zify_bool; cbn [negb].
  { destruct (IH seen (<[relative_path i:=Remove]> mark) Hnd Hsel' Hkeep) as (mark' & He & Hs).
    exists mark'. split; [done|].
    eapply (selected_step _ seen _ _ i l mark _ mark' (Some Remove)); try done; [| |by intros; left].
    - rewrite filter_cons, decide_True by done. cbn [firsts]. by rewrite decide_True.
    - intros m [= <-]. rewrite Ep. by right. }
  destruct (keep <=? Z.of_nat (size seen)) eqn:El; zify_bool.
  { exists mark. split; [done|]. replace (keep - Z.of_nat (size seen)) with 0 by lia.
    split; [|done..|].
    - rewrite take_0. apply filter_none. intros j [? ?]. congruence.
    - intros j m _ ? ?. congruence. }
  assert (size ({[sel i]} ∪ seen) = S (size seen)) as Hsize
    by by rewrite size_union, size_singleton by set_solver.
  destruct (IH ({[sel i]} ∪ seen) (<[relative_path i:=Keep]> mark) Hnd Hsel') as (mark' & He & Hs);
    [lia|].
  exists mark'. split; [done|].
  eapply (selected_step _ _ _ _ i l mark _ mark' (Some Keep)); try done; [| |].
  - rewrite filter_cons, decide_True by done. cbn [firsts]. rewrite decide_False by done.
    rewrite Hsize, decide_True by done.
    replace (Z.to_nat (keep - Z.of_nat (size seen))) with (S (Z.to_nat (keep - Z.of_nat (S (size seen)))))
      by lia. done.
  - intros m [= <-]. rewrite Ep. by left.
  - intros s [?%elem_of_singleton|?]%elem_of_union; [by right|by left].
Qed.
End loop.

(** The periods of the snapshots that are kept already. *)
Definition covered_periods (mark : marks) (l : list BackupInfo) : gset string :=
  list_to_set (sel <$> filter (fun i => mark !! relative_path i = Some Keep) l).

Lemma collect_included_spec mark l select_id acc :
  (forall i, i ∈ l -> select_id i = Ok (sel i)) ->
  collect_included mark l select_id acc = Ok (covered_periods mark l ∪ acc).
Proof.
  revert acc. induction l as [|i l IH]; intros acc Hsel; cbn [collect_included].
  { f_equal. set_solver. }
  assert (forall j, j ∈ l -> select_id j = Ok (sel j)) as Hsel' by (intros; apply Hsel; by right).
  unfold covered_periods. rewrite filter_cons.
  destruct (decide (mark !! relative_path i = Some Keep)) as [Hm|Hm].
  - rewrite Hm, Hsel by by left. rewrite IH by done. f_equal. unfold covered_periods. set_solver.
  - transitivity (collect_included mark l select_id acc); [by repeat case_match|]. by rewrite IH.
Qed.

Lemma mark_selections_spec mark l keep select_id :
  NoDup (map relative_path l) -> (forall i, i ∈ l -> select_id i = Ok (sel i)) -> 0 <= keep ->
  exists mark', mark_selections mark l keep select_id = Ok mark' /\
    selected (covered_periods mark l) ∅ (Z.to_nat keep) l mark mark'.
Proof.
  intros Hnd Hsel Hkeep. unfold mark_selections. rewrite collect_included_spec by done.
  rewrite (union_empty_r_L (covered_periods mark l)).
  destruct (select_loop_spec keep select_id (covered_periods mark l) l ∅ mark Hnd Hsel) as (mark' & He & Hs).
  - by rewrite size_empty.
  - exists mark'. split; [done|]. by rewrite size_empty, Z.sub_0_r in Hs.
Qed.
End rule.
End Selection.

Import Selection.

(** A retention rule keeps the newest snapshot of each of the newest [keep] periods.
    Of the snapshots that have no mark yet, are not protected and whose period has no kept
    snapshot, exactly the first ones (the list is sorted newest first) of the first [keep] periods
    are newly marked as kept; marks set before are not changed; a snapshot that the rule marks for
    removal has a newly kept one of the same period. *)
Theorem mark_selections_correct sel mark l keep select_id :
  NoDup (map relative_path l) -> (forall i, i ∈ l -> select_id i = Ok (sel i)) -> 0 <= keep ->
  exists mark', mark_selections mark l keep select_id = Ok mark' /\
    filter (newly_kept mark mark') l =
      take (Z.to_nat keep) (firsts sel ∅ (filter (candidate sel mark (covered_periods sel mark l)) l)) /\
    (forall p m, mark !! p = Some m -> mark' !! p = Some m) /\
    (forall i, i ∈ l -> mark !! relative_path i = None -> mark' !! relative_path i = Some Remove ->
       protected i = false /\ exists k, k ∈ l /\ newly_kept mark mark' k /\ sel k = sel i).
Proof.
  intros Hnd Hsel Hkeep. destruct (mark_selections_spec sel mark l keep select_id Hnd Hsel Hkeep)
    as (mark' & He & [Hk Ho Hf Hn]).
  exists mark'. split_and!; [done..|]. intros i Hi H0 H1. specialize (Hn i Remove Hi H0 H1).
  destruct (protected i); [done|]. split; [done|].
  destruct Hn as [?|[_ [?|?]]]; [done|set_solver|done].
Qed.

Module Rules.
(** ** All rules *)
Definition is_past (now : Z) (i : BackupInfo) : bool := backup_time i <=? now.

(** The marks of unfinished snapshots and those of the future. *)
Lemma incomplete_spec now l ku mark :
  NoDup (map relative_path l) ->
  (forall p, p ∉ map relative_path l -> incomplete_loop now l ku mark !! p = mark !! p) /\
  forall i, i ∈ l -> incomplete_loop now l ku mark !! relative_path i =
    if negb (is_past now i) then Some TimestampInFuture
    else if is_finished i then mark !! relative_path i
    else Some (if ku && bool_decide (head (relative_path <$> filter (is_past now) l)
                                     = Some (relative_path i))
               then KeepPartial else Remove).
Proof.
  revert ku mark. induction l as [|i l IH]; intros ku mark Hnd.
  { split; [done|]. by intros i Hi%elem_of_nil. }
  cbn [map] in Hnd. apply NoDup_cons in Hnd as [Hi Hnd].
  set (mark1 := if negb (is_past now i) then <[relative_path i:=TimestampInFuture]> mark
    else if is_finished i then mark
    else <[relative_path i:=if ku then KeepPartial else Remove]> mark).
  set (ku1 := if negb (is_past now i) then ku else false).
  assert (incomplete_loop now (i :: l) ku mark = incomplete_loop now l ku1 mark1) as ->.
  { cbn [incomplete_loop]. unfold mark1, ku1, is_past.
    destruct (now <? backup_time i) eqn:E; zify_bool.
    - by rewrite (proj2 (Z.leb_gt _ _)) by lia.
    - rewrite (proj2 (Z.leb_le _ _)) by lia. by destruct (is_finished i). }
  destruct (IH ku1 mark1 Hnd) as [Hframe Hin].
  assert (forall p, p <> relative_path i -> mark1 !! p = mark !! p) as Hother.
  { intros p Hp. unfold mark1. repeat case_if; try done; by rewrite lookup_insert_ne. }
  split.
  - intros p [Hpi Hp]%not_elem_of_cons. rewrite Hframe by done. by apply Hother.
  - intros j [->|Hj]%elem_of_cons.
    + rewrite Hframe by done. unfold mark1. rewrite filter_cons.
      destruct (is_past now i) eqn:Ep; cbn [negb]; [|by simplify_map_eq].
      rewrite decide_True by done. destruct (is_finished i); [done|]. simplify_map_eq.
      rewrite bool_decide_eq_true_2 by done. by rewrite andb_true_r.
    + assert (relative_path j <> relative_path i) as Hji.
      { intros Heq. apply Hi. rewrite <- Heq. by apply list_elem_of_fmap_2. }
      rewrite Hin, Hother by done. rewrite filter_cons. unfold ku1.
      destruct (is_past now j); cbn [negb]; [|done]. destruct (is_finished j); [done|].
      destruct (is_past now i) eqn:Ep; cbn [negb].
      * rewrite decide_True by done. cbn. rewrite bool_decide_eq_false_2 by congruence.
        by rewrite andb_false_r.
      * by rewrite decide_False by (intros []).
Qed.

Section rules.
Variable strftime_local : string -> Z -> res string.

(** The rules in their order. *)
Definition rules (o : KeepOptions) : list ((BackupInfo -> res string) * option Z) := [
  (fun info => Ok (backup_time_string info), keep_last o);
  (strftime_of strftime_local "%Y/%m/%d/%H", keep_hourly o);
  (strftime_of strftime_local "%Y/%m/%d", keep_daily o);
  (strftime_of strftime_local "%G/%V", keep_weekly o);
  (strftime_of strftime_local "%Y/%m", keep_monthly o);
  (strftime_of strftime_local "%Y", keep_yearly o)].

Fixpoint run_rules (l : list BackupInfo) (rs : list ((BackupInfo -> res string) * option Z))
    (mark : marks) : res marks :=
  match rs with
  | [] => Ok mark
  | (select, o) :: rs => let? mark := apply_option l select o mark in run_rules l rs mark
  end.

Lemma compute_rules sort now l o :
  compute_prune_info sort strftime_local now l o =
  let l := sort_list sort l false in
  let? mark := run_rules l (rules o) (remove_incomplete_and_ignore_future now ∅ l) in
  Ok (map (fun info => (info, final_mark mark info)) l).
Proof.
  unfold compute_prune_info, rules. cbv zeta. cbn [run_rules].
  repeat match goal with |- context [let? _ := apply_option ?a ?b ?c ?d in _] =>
    destruct (apply_option a b c d); [|done..] end. done.
Qed.
End rules.

(** A rule whose period can be computed, with a number that is not negative. *)
Definition rule_ok (r : (BackupInfo -> res string) * option Z) : Prop :=
  (exists sel, forall i, r.1 i = Ok (sel i)) /\ forall k, r.2 = Some k -> 0 <= k.

(** What any number of rules does to the marks. *)
Definition extends (l : list BackupInfo) (mark mark' : marks) : Prop :=
  (forall p m, mark !! p = Some m -> mark' !! p = Some m) /\
  (forall i m, i ∈ l -> mark !! relative_path i = None -> mark' !! relative_path i = Some m ->
     if protected i then m = Protected else m = Keep \/ m = Remove).

Lemma extends_refl l mark : extends l mark mark.
Proof. split; [done|]. congruence. Qed.
Lemma extends_trans l m1 m2 m3 : extends l m1 m2 -> extends l m2 m3 -> extends l m1 m3.
Proof.
  intros [H1 H1'] [H2 H2']. split; [eauto|]. intros i m Hi H0 H3.
  destruct (m2 !! relative_path i) as [m'|] eqn:E.
  - pose proof (H2 _ _ E). assert (m' = m) as -> by congruence. apply (H1' i m Hi H0 E).
  - apply (H2' i m Hi E H3).
Qed.

Lemma apply_option_extends l r mark :
  NoDup (map relative_path l) -> rule_ok r ->
  exists mark', apply_option l r.1 r.2 mark = Ok mark' /\ extends l mark mark'.
Proof.
  intros Hnd [[sel Hsel] Hk]. destruct r as [select [k|]]; simpl in *.
  - destruct (mark_selections_spec sel mark l k select Hnd) as (mark' & He & [_ Ho _ Hn]);
      [auto..|]. exists mark'. split; [done|]. split; [done|]. intros i m Hi H0 H1.
    specialize (Hn i m Hi H0 H1). destruct (protected i); naive_solver.
  - exists mark. split; [done|]. apply extends_refl.
Qed.

Lemma run_rules_extends l rs mark :
  NoDup (map relative_path l) -> Forall rule_ok rs ->
  exists mark', run_rules l rs mark = Ok mark' /\ extends l mark mark'.
Proof.
  intros Hnd Hrs. revert mark. induction Hrs as [|r rs Hr Hrs IH]; intros mark.
  { exists mark. split; [done|]. apply extends_refl. }
  destruct (apply_option_extends l r mark Hnd Hr) as (mark1 & He & Hx).
  destruct (IH mark1) as (mark' & He' & Hx'). exists mark'. destruct r as [select o].
  cbn [run_rules fst snd] in *. rewrite He. split; [done|]. by eapply extends_trans.
Qed.

(** ** The newest snapshot that can be restored *)
Definition usable (now : Z) (i : BackupInfo) : bool :=
  is_past now i && is_finished i && negb (protected i).

Lemma filter_head (P Q : BackupInfo -> Prop) `{!forall i, Decision (P i)} `{!forall i, Decision (Q i)} l x :
  head (filter Q l) = Some x -> P x -> (forall i, i ∈ l -> P i -> Q i) ->
  head (filter P l) = Some x.
Proof.
  induction l as [|i l IH]; [done|]. rewrite !filter_cons. intros Hx HP HPQ.
  destruct (decide (Q i)) as [HQ|HQ].
  - injection Hx as ->. by rewrite decide_True.
  - rewrite decide_False by (intros ?; apply HQ, HPQ; [by left|done]).
    apply IH; [done..|]. intros; apply HPQ; [by right|done].
Qed.

Section newest.
Variables (now : Z) (l : list BackupInfo) (x : BackupInfo).
Hypothesis Hnd : NoDup (map relative_path l).
Hypothesis Hx : head (filter (usable now) l) = Some x.

Definition fresh (mark : marks) : Prop :=
  (forall p m, remove_incomplete_and_ignore_future now ∅ l !! p = Some m -> mark !! p = Some m) /\
  mark !! relative_path x = None /\
  (forall i, i ∈ l -> mark !! relative_path i <> Some Keep).

Lemma newest_in : x ∈ l /\ usable now x.
Proof.
  assert (x ∈ filter (usable now) l) as H.
  { destruct (filter (usable now) l); [done|]. injection Hx as ->. by left. }
  by apply list_elem_of_filter in H as [? ?].
Qed.

Lemma incomplete_unmarked i :
  i ∈ l -> remove_incomplete_and_ignore_future now ∅ l !! relative_path i = None <->
           is_past now i && is_finished i = true.
Proof.
  intros Hi. unfold remove_incomplete_and_ignore_future.
  rewrite (proj2 (incomplete_spec now l true ∅ Hnd) i Hi).
  destruct (is_past now i), (is_finished i); done.
Qed.

Lemma incomplete_fresh : fresh (remove_incomplete_and_ignore_future now ∅ l).
Proof.
  destruct newest_in as [Hin Hu]. split_and!; [done| |].
  - apply incomplete_unmarked; [done|]. unfold usable in Hu. destruct (is_past now x && _); done.
  - intros i Hi. unfold remove_incomplete_and_ignore_future.
    rewrite (proj2 (incomplete_spec now l true ∅ Hnd) i Hi). repeat case_if; done.
Qed.

(** In a fresh state no period is covered and the newest usable snapshot is the first candidate. *)
Lemma fresh_first sel mark :
  fresh mark -> head (filter (candidate sel mark (covered_periods sel mark l)) l) = Some x.
Proof.
  intros (Hm0 & Hx0 & Hk).
  assert (covered_periods sel mark l = ∅) as ->.
  { apply elem_of_equiv_empty_L. intros s Hs. unfold covered_periods in Hs.
    apply elem_of_list_to_set, list_elem_of_fmap in Hs as (i & _ & [Hi Hl]%list_elem_of_filter).
    by apply (Hk i). }
  destruct newest_in as [Hin Hu]. eapply (filter_head _ (fun i => usable now i)); [done| |].
  - split_and!; [done| |set_solver]. unfold usable in Hu. destruct (protected x); [|done].
    by rewrite andb_false_r in Hu.
  - intros i Hi (Hi0 & Hp & _). unfold usable. rewrite Hp.
    rewrite (proj1 (incomplete_unmarked i Hi)); [done|].
    destruct (remove_incomplete_and_ignore_future now ∅ l !! relative_path i) as [m|] eqn:E; [|done].
    apply Hm0 in E. congruence.
Qed.

Lemma rule_newest r mark :
  fresh mark -> rule_ok r ->
  exists mark', apply_option l r.1 r.2 mark = Ok mark' /\
    (fresh mark' \/ mark' !! relative_path x = Some Keep) /\
    (forall k, r.2 = Some k -> 0 < k -> mark' !! relative_path x = Some Keep).
Proof.
  intros Hf [[sel Hsel] Hpos]. destruct r as [select [k|]]; simpl in *;
    [|by exists mark; split_and!; [|left|]].
  destruct (mark_selections_spec sel mark l k select Hnd) as (mark' & He & [Hk Ho _ Hn]); [auto..|].
  exists mark'. split; [done|]. pose proof (fresh_first sel mark Hf) as Hh.
  destruct Hf as (Hm0 & Hx0 & Hnk). destruct newest_in as [Hin Hu].
  destruct (filter (candidate _ _ _) l) as [|y rest]; [done|]. injection Hh as ->.
  cbn [firsts] in Hk. rewrite decide_False in Hk by set_solver.
  destruct (decide (0 < k)) as [Hk0|Hk0].
  - assert (mark' !! relative_path x = Some Keep) as Hkept; [|by eauto].
    assert (x ∈ filter (newly_kept mark mark') l) as Hx'.
    { rewrite Hk. replace (Z.to_nat k) with (S (Z.to_nat (k - 1))) by lia. by left. }
    by apply list_elem_of_filter in Hx' as [[_ ?] _].
  - replace (Z.to_nat k) with 0%nat in Hk by lia. rewrite take_0 in Hk.
    assert (forall i, i ∈ l -> ~ newly_kept mark mark' i) as Hno.
    { intros i Hi Hni. by apply (filter_nil_not_elem_of _ _ _ Hk Hni). }
    split; [left|intros ? [= <-]; lia]. split_and!; [eauto| |].
    + destruct (mark' !! relative_path x) as [m|] eqn:E; [|done]. specialize (Hn x m Hin Hx0 E).
      unfold usable in Hu. destruct (protected x); [by rewrite andb_false_r in Hu|].
      destruct Hn as [->|[-> [?|(z & Hz & Hz' & _)]]]; [|set_solver|].
      * by destruct (Hno x Hin).
      * by destruct (Hno z Hz).
    + intros i Hi Hki. destruct (mark !! relative_path i) as [m|] eqn:E.
      * rewrite (Ho _ _ E) in Hki. apply (Hnk i Hi). congruence.
      * by destruct (Hno i Hi).
Qed.

Lemma rules_newest rs mark :
  fresh mark -> Forall rule_ok rs -> Exists (fun r => exists k, r.2 = Some k /\ 0 < k) rs ->
  exists mark', run_rules l rs mark = Ok mark' /\ mark' !! relative_path x = Some Keep.
Proof.
  intros Hf Hrs. revert mark Hf. induction Hrs as [|r rs Hr Hrs IH]; intros mark Hf Hex.
  { by apply Exists_nil in Hex. }
  destruct (rule_newest r mark Hf Hr) as (mark1 & He & Hor & Hpos). destruct r as [select o].
  cbn [run_rules fst snd] in *. rewrite He.
  destruct (decide (mark1 !! relative_path x = Some Keep)) as [Hkept|Hkept].
  - destruct (run_rules_extends l rs mark1 Hnd Hrs) as (mark' & He' & [Ho _]). exists mark'. eauto.
  - apply IH; [naive_solver|]. apply Exists_cons in Hex as [(k & ? & ?)|?]; [|done].
    by destruct Hkept; eauto.
Qed.
End newest.
End Rules.
Import Rules.

(** ** The result of [compute_prune_info] *)

(** The contract of [slice::sort_unstable_by_key]. *)
Class SortLaws (sort : (BackupInfo -> Z) -> list BackupInfo -> list BackupInfo) := {
  sort_perm key l : sort key l ≡ₚ l;
  sort_sorted key l : StronglySorted (fun a b => key a <= key b) (sort key l);
}.

(** [strftime_local] with the formats in use, and options of type [u64]. *)
Definition strftime_total (strftime_local : string -> Z -> res string) : Prop :=
  forall format t, exists s, strftime_local format t = Ok s.
Definition keep_opts (o : KeepOptions) : list (option Z) :=
  [keep_last o; keep_hourly o; keep_daily o; keep_weekly o; keep_monthly o; keep_yearly o].
Definition keep_ok (o : KeepOptions) : Prop :=
  Forall (fun k => match k with Some k => 0 <= k | None => True end) (keep_opts o).

Section info.
Context sort {HS : SortLaws sort} strftime_local (Hstr : strftime_total strftime_local).
Variables (now : Z) (l : list BackupInfo) (o : KeepOptions).
Hypothesis Hnd : NoDup (map relative_path l).
Hypothesis Hopt : keep_ok o.

Lemma rules_ok : Forall rule_ok (rules strftime_local o).
Proof.
  assert (forall f, exists sel, forall i, strftime_of strftime_local f i = Ok (sel i)) as Hf.
  { intros f. exists (fun i => match strftime_local f (backup_time i) with Ok s => s | _ => "" end).
    intros i. unfold strftime_of. by destruct (Hstr f (backup_time i)) as [s ->]. }
  unfold keep_ok, keep_opts in Hopt. unfold rules.
  decompose_Forall; (split; simpl; [solve [eauto]|intros k Hk; by rewrite Hk in *]).
Qed.

Lemma sorted_nodup : NoDup (map relative_path (sort_list sort l false)).
Proof. unfold sort_list. by rewrite sort_perm. Qed.

(** The marks that are computed, and the result in terms of them. *)
Lemma compute_marks :
  let l' := sort_list sort l false in
  exists mark, compute_prune_info sort strftime_local now l o
               = Ok (map (fun i => (i, final_mark mark i)) l') /\
    extends l' (remove_incomplete_and_ignore_future now ∅ l') mark /\
    (Exists (fun k => exists n, k = Some n /\ 0 < n) (keep_opts o) ->
     forall x, head (filter (usable now) l') = Some x -> mark !! relative_path x = Some Keep).
Proof.
  cbv zeta. rewrite compute_rules. cbv zeta. set (l' := sort_list sort l false).
  destruct (run_rules_extends l' (rules strftime_local o)
    (remove_incomplete_and_ignore_future now ∅ l') sorted_nodup rules_ok) as (mark & He & Hx).
  exists mark. rewrite He. split_and!; [done..|]. intros Hex x Hhead.
  destruct (rules_newest now l' x sorted_nodup Hhead (rules strftime_local o)
    (remove_incomplete_and_ignore_future now ∅ l')) as (mark' & He' & ?); [|apply rules_ok| |congruence].
  - by apply incomplete_fresh; [apply sorted_nodup|].
  - unfold keep_opts in Hex. unfold rules.
    repeat (apply Exists_cons in Hex as [?|Hex]; [by repeat (by left) || right|]).
    by apply Exists_nil in Hex.
Qed.
End info.

Lemma StronglySorted_impl {A} (R S : A -> A -> Prop) l :
  (forall a b, R a b -> S a b) -> StronglySorted R l -> StronglySorted S l.
Proof.
  intros HRS. induction 1; constructor; [done|]. by eapply Forall_impl; [done|]; auto.
Qed.

Lemma StronglySorted_sublist {A} (R : A -> A -> Prop) l k :
  l `sublist_of` k -> StronglySorted R k -> StronglySorted R l.
Proof.
  induction 1 as [|x l k Hs IH|x l k Hs IH]; intros Hk; [constructor|..].
  - inversion Hk as [|? ? Hk' Hall]; subst. constructor; [by apply IH|].
    rewrite Forall_forall in Hall |- *. intros y Hy. apply Hall. by eapply elem_of_submseteq, sublist_submseteq.
  - inversion Hk; subst. by apply IH.
Qed.
Lemma StronglySorted_reverse {A} (R : A -> A -> Prop) l :
  StronglySorted R l -> StronglySorted (flip R) (reverse l).
Proof.
  induction 1 as [|x l Hs IH Hall]; [constructor|]. rewrite reverse_cons.
  apply StronglySorted_app. split_and!; [|done|repeat constructor].
  intros a b Ha Hb. rewrite elem_of_reverse in Ha. apply list_elem_of_singleton in Hb as ->.
  rewrite Forall_forall in Hall. unfold flip. auto.
Qed.
Lemma removed_sublist (l : list (BackupInfo * PruneMark)) :
  (filter (fun x => x.2 = Remove) l).*1 `sublist_of` l.*1.
Proof.
  induction l as [|x l IH]; [done|]. rewrite filter_cons. case_decide; cbn.
  - by apply sublist_skip.
  - by apply sublist_cons.
Qed.

Lemma map_fst {A} (f : BackupInfo -> A) l : (map (fun i => (i, f i)) l).*1 = l.
Proof. induction l as [|i l IH]; [done|]. cbn. f_equal. exact IH. Qed.

Lemma head_sorted (P : BackupInfo -> bool) l x :
  StronglySorted (fun a b => - backup_time a <= - backup_time b) l ->
  x ∈ l -> P x -> (forall y, y ∈ l -> P y -> y = x \/ backup_time y < backup_time x) ->
  head (filter P l) = Some x.
Proof.
  induction 1 as [|i l Hs IH Hall]; intros Hin HP Hnew; [by apply elem_of_nil in Hin|].
  rewrite filter_cons. destruct (decide (P i)) as [HPi|HPi].
  - destruct (Hnew i) as [->|Hlt]; [by left|done|done|].
    apply elem_of_cons in Hin as [->|Hin]; [lia|].
    rewrite Forall_forall in Hall. specialize (Hall x Hin). lia.
  - apply elem_of_cons in Hin as [->|Hin]; [done|].
    apply IH; [done..|]. intros; apply Hnew; [by right|done].
Qed.

(** The mark of a snapshot after all rules. *)
Lemma final_mark_spec now l mark i :
  NoDup (map relative_path l) -> extends l (remove_incomplete_and_ignore_future now ∅ l) mark -> i ∈ l ->
  if protected i then final_mark mark i = Protected
  else if now <? backup_time i then final_mark mark i = TimestampInFuture
  else if is_finished i then final_mark mark i = Keep \/ final_mark mark i = Remove
  else final_mark mark i = if bool_decide (head (relative_path <$> filter (is_past now) l)
                                           = Some (relative_path i))
                           then KeepPartial else Remove.
Proof.
  intros Hnd [Hold Hnew] Hi. unfold final_mark. destruct (protected i) eqn:Ep; [done|].
  pose proof (proj2 (incomplete_spec now l true ∅ Hnd) i Hi) as Hinc.
  fold (remove_incomplete_and_ignore_future now ∅ l) in Hinc. unfold is_past in Hinc.
  destruct (now <? backup_time i) eqn:Et; zify_bool.
  - rewrite (proj2 (Z.leb_gt _ _)) in Hinc by done. by rewrite (Hold _ _ Hinc).
  - rewrite (proj2 (Z.leb_le _ _)) in Hinc by done. cbn [negb] in Hinc.
    destruct (is_finished i); [|by rewrite (Hold _ _ Hinc)]. rewrite lookup_empty in Hinc.
    destruct (mark !! relative_path i) as [m|] eqn:Em; [|by right].
    specialize (Hnew i m Hi Hinc Em). by rewrite Ep in Hnew.
Qed.

(** [compute_prune_info] returns every snapshot of the group once, newest first, with the
    mark that the documentation promises: protected ones are protected, those of the future are
    left alone, of the unfinished ones only the one is kept that is newer than all other
    snapshots of the past, and a finished one is kept or removed. *)
Theorem prune_info_correct sort `{HS : SortLaws sort} strftime_local now l o :
  strftime_total strftime_local -> NoDup (map relative_path l) -> keep_ok o ->
  exists out, compute_prune_info sort strftime_local now l o = Ok out /\
    out.*1 ≡ₚ l /\ StronglySorted (fun a b => backup_time b <= backup_time a) out.*1 /\
    forall i m, (i, m) ∈ out ->
      if protected i then m = Protected
      else if now <? backup_time i then m = TimestampInFuture
      else if is_finished i then m = Keep \/ m = Remove
      else m = if bool_decide (head (relative_path <$> filter (is_past now) out.*1)
                               = Some (relative_path i))
               then KeepPartial else Remove.
Proof.
  intros Hstr Hnd Hopt.
  destruct (compute_marks sort strftime_local Hstr now l o Hnd Hopt) as (mark & He & Hext & _).
  eexists. split; [done|]. set (l' := sort_list sort l false) in *.
  rewrite map_fst. split_and!.
  - apply (sort_perm _ l).
  - eapply StronglySorted_impl; [|apply (sort_sorted _ l)]. simpl. lia.
  - intros i m Hin. apply list_elem_of_fmap in Hin as (i' & [= <- ->] & Hi).
    by apply final_mark_spec; [apply sorted_nodup|..].
Qed.

(** C5.  Pruning never loses the newest snapshot that can be restored: when at least one
    retention option keeps anything, the newest snapshot that is finished, not protected and not
    from the future is kept, whatever the other options are. *)
Theorem prune_keeps_newest sort `{HS : SortLaws sort} strftime_local now l o x :
  strftime_total strftime_local -> NoDup (map relative_path l) -> keep_ok o ->
  Exists (fun k => exists n, k = Some n /\ 0 < n) (keep_opts o) ->
  x ∈ l -> usable now x ->
  (forall y, y ∈ l -> usable now y -> y = x \/ backup_time y < backup_time x) ->
  exists out, compute_prune_info sort strftime_local now l o = Ok out /\ (x, Keep) ∈ out.
Proof.
  intros Hstr Hnd Hopt Hex Hx Hu Hnew.
  destruct (compute_marks sort strftime_local Hstr now l o Hnd Hopt) as (mark & He & _ & Hkeep).
  assert (head (filter (usable now) (sort_list sort l false)) = Some x) as Hhead.
  { unfold sort_list. apply head_sorted; [apply sort_sorted|by rewrite sort_perm|done|].
    intros y. rewrite sort_perm. auto. }
  eexists. split; [done|]. apply list_elem_of_fmap. exists x. split.
  - unfold final_mark. rewrite (Hkeep Hex x Hhead). unfold usable in Hu.
    destruct (protected x); [by rewrite andb_false_r in Hu|done].
  - unfold sort_list. by rewrite sort_perm.
Qed.

(** ** What is removed *)
Module Removal.
Section removal.
Context {St : Type} (remove_backup_dir : BackupInfo -> St -> res unit * St).
Hypothesis remove_total : forall i st, is_panic (remove_backup_dir i st).1 = false.

(** The snapshots that the loop removes, and their removal in order. *)
Definition victims (keep_all dry_run : bool) (prune_info : list (BackupInfo * PruneMark))
    : list BackupInfo :=
  if keep_all || dry_run then [] else (filter (fun x => x.2 = Remove) prune_info).*1.
Definition remove_all (vs : list BackupInfo) (st : St) : St :=
  foldl (fun st i => (remove_backup_dir i st).2) st vs.

Lemma remove_loop_victims keep_all dry_run prune_info st :
  remove_loop remove_backup_dir keep_all dry_run prune_info st
  = (Ok tt, remove_all (victims keep_all dry_run prune_info) st).
Proof.
  unfold victims. revert st. induction prune_info as [|[i m] l IH]; intros st; [by destruct (_ || _)|].
  cbn [remove_loop]. rewrite filter_cons. unfold mark_keep. cbn [snd].
  destruct keep_all, dry_run; cbn [orb negb andb] in *; rewrite ?andb_false_r; try apply IH.
  destruct (decide (m = Remove)) as [->|Hm].
  - rewrite bool_decide_eq_true_2 by done. cbn. specialize (remove_total i st).
    destruct (remove_backup_dir i st) as [[]]; [apply IH..|done].
  - rewrite bool_decide_eq_false_2 by done. apply IH.
Qed.
End removal.
End Removal.
Import Removal.

(** Pruning a group removes only what it may.  The removals a prune job does are those of
    a list of snapshots of the group, oldest first, each not protected and not of the future,
    and finished ones only if no rule keeps them; nothing is removed in a dry run or without
    a retention option, and removals that fail do not stop the others. *)
Theorem prune_group_removals sort `{HS : SortLaws sort} strftime_local {St}
    (remove_backup_dir : BackupInfo -> St -> res unit * St) now keep_all dry_run l o st :
  strftime_total strftime_local -> NoDup (map relative_path l) -> keep_ok o ->
  (forall i st, is_panic (remove_backup_dir i st).1 = false) ->
  exists out vs, compute_prune_info sort strftime_local now l o = Ok out /\
    prune_group sort strftime_local remove_backup_dir now keep_all dry_run o l st
      = (Ok tt, remove_all remove_backup_dir vs st) /\
    NoDup vs /\
    StronglySorted (fun a b => backup_time a <= backup_time b) vs /\
    (keep_all || dry_run = true -> vs = []) /\
    (forall i, i ∈ vs -> i ∈ l /\ (i, Remove) ∈ out /\ protected i = false /\ backup_time i <= now) /\
    (keep_all || dry_run = false -> forall i, (i, Remove) ∈ out -> i ∈ vs).
Proof.
  intros Hstr Hnd Hopt Hrem.
  destruct (compute_marks sort strftime_local Hstr now l o Hnd Hopt) as (mark & He & Hext & _).
  set (l' := sort_list sort l false) in *. set (out := map _ l') in He.
  exists out, (victims keep_all dry_run (reverse out)). split; [done|].
  assert (forall i, i ∈ victims keep_all dry_run (reverse out) <->
            keep_all || dry_run = false /\ (i, Remove) ∈ out) as Hv.
  { intros i. unfold victims. destruct (keep_all || dry_run); [set_solver|].
    rewrite list_elem_of_fmap. setoid_rewrite list_elem_of_filter. setoid_rewrite elem_of_reverse.
    split; [intros ([? ?] & -> & [? ?]); simpl in *; by subst|].
    intros [_ ?]. by exists (i, Remove). }
  assert (exists sub, sub `sublist_of` reverse l' /\ victims keep_all dry_run (reverse out) = sub)
    as (sub & Hsub & Hsube).
  { eexists; split; [|done]. unfold victims. destruct (keep_all || dry_run); [apply sublist_nil_l|].
    replace (reverse l') with ((reverse out).*1)
      by (unfold out; rewrite <- (map_fst (final_mark mark) l') at 2; apply fmap_reverse).
    apply removed_sublist. }
  assert (StronglySorted (fun a b => backup_time b <= backup_time a) l') as Hsort.
  { eapply StronglySorted_impl; [|apply (sort_sorted _ l)]. simpl. lia. }
  split_and!.
  - unfold prune_group. rewrite He. by apply remove_loop_victims.
  - rewrite Hsube. eapply sublist_NoDup; [|done]. rewrite reverse_Permutation.
    by apply (NoDup_fmap_1 relative_path), sorted_nodup.
  - rewrite Hsube. eapply StronglySorted_sublist; [done|]. by apply StronglySorted_reverse.
  - intros Hk. unfold victims. by rewrite Hk.
  - intros i [_ Hi]%Hv. split_and!; [|done|..].
    all: apply list_elem_of_fmap in Hi as (i' & [= <- Hm] & Hi).
    + unfold l', sort_list in Hi. by rewrite sort_perm in Hi.
    + unfold final_mark in Hm. by destruct (protected i).
    + pose proof (final_mark_spec now l' mark i (sorted_nodup sort l Hnd) Hext Hi) as Hf.
      rewrite <- Hm in Hf. destruct (protected i); [done|].
      destruct (now <? backup_time i) eqn:Et; zify_bool; [done|lia].
  - intros Hk i Hi. by apply Hv.
Qed.

(** ** A group to try the statements on *)
Module PruneWitness.
Definition key_le (key : BackupInfo -> Z) (a b : BackupInfo) : Prop := key a <= key b.
#[global] Instance key_le_dec key a b : Decision (key_le key a b).
Proof. unfold key_le. apply _. Defined.
Definition sort_by (key : BackupInfo -> Z) (l : list BackupInfo) : list BackupInfo :=
  merge_sort (key_le key) l.

#[global] Instance sort_by_laws : SortLaws sort_by.
Proof.
  split; intros key l; unfold sort_by.
  - apply merge_sort_Permutation.
  - change (fun a b => key a <= key b) with (key_le key). apply StronglySorted_merge_sort.
    + intros a b c. unfold key_le. lia.
    + intros a b. unfold key_le. lia.
Qed.

(** Periods counted in seconds from the epoch, one week and a fixed year and month. *)
Definition strftime (format : string) (t : Z) : res string :=
  let n := if bool_decide (format = "%Y/%m/%d/%H") then 3600
           else if bool_decide (format = "%Y/%m/%d") then 86400
           else if bool_decide (format = "%G/%V") then 604800
           else if bool_decide (format = "%Y/%m") then 2592000 else 31536000 in
  Ok (pretty (t / n)).
Lemma strftime_ok : strftime_total strftime.
Proof. intros format t. by eexists. Qed.

Definition snapshot (t : Z) (finished prot : bool) : BackupInfo := {|
  relative_path := "host/elsa/" +:+ pretty t; backup_time := t; backup_time_string := pretty t;
  files := if finished then [MANIFEST_BLOB_NAME] else ["drive.img.fidx"]; protected := prot |}.

(** Two days of backups: one protected, one unfinished, one from the future. *)
Definition group : list BackupInfo := [
  snapshot 1000 true true; snapshot 5000 true false; snapshot 9000 true false;
  snapshot 90000 true false; snapshot 93000 true false; snapshot 94000 false false;
  snapshot 200000 true false ].
Definition now : Z := 100000.
Definition options : KeepOptions := {|
  keep_last := Some 1; keep_hourly := None; keep_daily := Some 1; keep_weekly := None;
  keep_monthly := None; keep_yearly := None |}.

Lemma group_nodup : NoDup (map relative_path group).
Proof. apply (bool_decide_unpack _). vm_compute. exact I. Qed.
Lemma options_ok : keep_ok options.
Proof. unfold keep_ok, keep_opts. cbn. repeat (apply Forall_cons_2; [done|]). by apply Forall_nil_2. Qed.
End PruneWitness.
Import PruneWitness.

Lemma mark_selections_correct_witness :
  exists mark', mark_selections ∅ (reverse group) 2 (strftime_of strftime "%Y/%m/%d") = Ok mark' /\
    filter (newly_kept ∅ mark') (reverse group) = [snapshot 200000 true false; snapshot 94000 false false].
Proof.
  destruct (mark_selections_correct
    (fun i => pretty (backup_time i / 86400)) ∅ (reverse group) 2 (strftime_of strftime "%Y/%m/%d"))
    as (mark' & He & Hk & _).
  - apply (bool_decide_unpack _). vm_compute. exact I.
  - intros i _. reflexivity.
  - lia.
  - exists mark'. split; [exact He|]. rewrite Hk. vm_compute. reflexivity.
Defined.

Lemma prune_info_correct_witness :
  exists out, compute_prune_info sort_by strftime now group options = Ok out /\ out.*1 ≡ₚ group.
Proof.
  destruct (prune_info_correct sort_by strftime now group options strftime_ok group_nodup options_ok)
    as (out & He & Hp & _).
  exists out. split; assumption.
Defined.

Lemma prune_keeps_newest_witness :
  exists out, compute_prune_info sort_by strftime now group options = Ok out /\
    (snapshot 93000 true false, Keep) ∈ out.
Proof.
  apply (prune_keeps_newest sort_by strftime now group options (snapshot 93000 true false)).
  - apply strftime_ok.
  - apply group_nodup.
  - apply options_ok.
  - left. exists 1. split; [reflexivity|lia].
  - do 4 right. left.
  - exact I.
  - intros y Hy Hu. unfold group in Hy.
    repeat (apply elem_of_cons in Hy as [->|Hy];
      [first [by vm_compute in Hu|left; reflexivity|right; simpl; lia]|]).
    by apply elem_of_nil in Hy.
Defined.

Lemma prune_group_removals_witness :
  exists out vs, compute_prune_info sort_by strftime now group options = Ok out /\
    prune_group sort_by strftime (fun i st => (Ok tt, st ++ [backup_time i])) now false false options group []
      = (Ok tt, remove_all (fun i st => (Ok tt, st ++ [backup_time i])) vs []).
Proof.
  destruct (prune_group_removals sort_by strftime (fun i st => (Ok tt, st ++ [backup_time i]))
    now false false group options [] strftime_ok group_nodup options_ok) as (out & vs & H1 & H2 & _).
  - reflexivity.
  - exists out, vs. split; assumption.
Defined.
