(* ===== verification/ChunkStore.v ===== *)
(** * The chunk store, [pbs-datastore/src/chunk_store.rs]

    The directory [.chunks] with its 65536 subdirectories is a finite map from
    (subdirectory, file name) to entries with their content and access time.  File names are
    bytes, so that the names the store writes and the classification of the names it finds
    when it iterates are both modelled.  Every operation runs under the mutex of the store;
    the clock and the outcomes of system calls are arguments.  Hexadecimal text comes from
    the crate [hex] and is a parameter with laws. *)

From S2P Require Import Prelude IndexFile DataBlob LruCache.
From Stdlib Require Import Strings.Byte.

(** ** Hexadecimal text *)
Record Hex := {
  hex_encode : list byte -> list byte;
  from_hex : list byte -> res (list byte); (* [<[u8; 32]>::from_hex] *)
}.

(** [u8::is_ascii_hexdigit], [u8::is_ascii_digit]. *)
Definition in_range (lo hi : Z) (b : byte) : bool := (lo <=? byte_to_Z b) && (byte_to_Z b <=? hi).
Definition is_ascii_digit : byte -> bool := in_range 48 57.
Definition is_ascii_hexdigit (b : byte) : bool :=
  is_ascii_digit b || in_range 97 102 b || in_range 65 70 b.

Class HexLaws (X : Hex) := {
  hex_length d : length (hex_encode X d) = (2 * length d)%nat;
  hex_digits d : forallb is_ascii_hexdigit (hex_encode X d) = true;
  hex_decode d : length d = 32%nat -> from_hex X (hex_encode X d) = Ok d;
}.

(** ** Directory entries *)
Inductive kind := KFile | KOther.
#[global] Instance kind_eq_dec : EqDecision kind.
Proof. solve_decision. Defined.
Record Entry := { e_kind : kind; e_data : list byte; e_atime : Z }.
Abbreviation file_path := (list byte * list byte)%type.
Abbreviation store := (gmap (list byte * list byte) Entry).
Definition e_size (e : Entry) : Z := Z.of_nat (length (e_data e)).
Definition set_atime (t : Z) (e : Entry) : Entry :=
  {| e_kind := e_kind e; e_data := e_data e; e_atime := t |}.

Definition verify_chunk_size (size : Z) : res unit :=
  if existsb (Z.eqb size) [64 * 1024; 128 * 1024; 256 * 1024; 512 * 1024; 1024 * 1024;
                           2048 * 1024; 4096 * 1024]
  then Ok tt else Err "Got unsupported chunk size".

(** ** File names *)
Definition HEX_CHARS : list byte := bytes "0123456789abcdef".
Definition hex_char (n : Z) : byte := default x00 (HEX_CHARS !! Z.to_nat n).
Definition digest_to_prefix (d : digest) : list byte :=
  let b i := byte_to_Z (default x00 (d !! i)) in
  [hex_char (Z.shiftr (b 0%nat) 4); hex_char (Z.land (b 0%nat) 15);
   hex_char (Z.shiftr (b 1%nat) 4); hex_char (Z.land (b 1%nat) 15)] ++ bytes "/".

Definition USING_MARKER_FILENAME_EXT : list byte := bytes "using".

Inductive ChunkExt := ExtNone | ExtBad | ExtUsedMarker.
#[global] Instance ChunkExt_eq_dec : EqDecision ChunkExt.
Proof. solve_decision. Defined.

Definition is_bad_chunk_suffix (s : list byte) : bool :=
  bool_decide (length s = 6%nat) &&
  bool_decide (s !! 0%nat = Some (byte_of_Z 46)) &&
  match s !! 1%nat with Some b => is_ascii_digit b | None => false end &&
  bool_decide (drop 2 s = bytes ".bad").

(** The tests of [get_chunk_store_iterator] on a file name; [None] for names it skips. *)
Definition chunk_ext (name : list byte) : option ChunkExt :=
  if bool_decide (length name < 64)%nat then None else
  if negb (forallb is_ascii_hexdigit (take 64 name)) then None else
  if bool_decide (length name = 64%nat) then Some ExtNone else
  if is_bad_chunk_suffix (drop 64 name) then Some ExtBad else
  if bool_decide (length name = (64 + 1 + length USING_MARKER_FILENAME_EXT)%nat) &&
     bool_decide (name !! 64%nat = Some (byte_of_Z 46)) &&
     bool_decide (drop 65 name = USING_MARKER_FILENAME_EXT)
  then Some ExtUsedMarker else None.

(** [read_subdir] of one of the subdirectories: its entries as they are read, or the error. *)
Inductive subdir :=
| Dir (name : list byte) (entries : list (res (list byte)))
| NoEnt
| DirErr (e : string).

Fixpoint read_entries (dir : list byte) (entries : list (res (list byte)))
    (next : list (res (file_path * ChunkExt))) : list (res (file_path * ChunkExt)) :=
  match entries with
  | [] => next
  | Ok name :: entries =>
      match chunk_ext name with
      | Some ext => Ok ((dir, name), ext) :: read_entries dir entries next
      | None => read_entries dir entries next
      end
  | Err e :: _ => [Err e]
  | Panic e :: _ => [Panic e]
  end.

(** What the iterator yields: it stops after the first error. *)
Fixpoint get_chunk_store_iterator (dirs : list subdir) : list (res (file_path * ChunkExt)) :=
  match dirs with
  | [] => []
  | Dir name entries :: dirs => read_entries name entries (get_chunk_store_iterator dirs)
  | NoEnt :: dirs => get_chunk_store_iterator dirs
  | DirErr e :: _ => [Err e]
  end.

Section chunk_store.
Variable X : Hex.

Definition chunk_path (d : digest) : file_path := (digest_to_prefix d, hex_encode X d).
Definition bad_chunk_filename (digest_str : list byte) (counter : Z) : list byte :=
  digest_str ++ bytes "." ++ [byte_of_Z (48 + counter)] ++ bytes ".bad".
Definition bad_chunk_path (d : digest) (counter : Z) : file_path :=
  (digest_to_prefix d, bad_chunk_filename (hex_encode X d) counter).
Definition chunk_expected_marker_path (d : digest) : file_path :=
  (digest_to_prefix d, hex_encode X d ++ bytes "." ++ USING_MARKER_FILENAME_EXT).

(** ** Access times *)

(** [io] is an error of [utimensat] other than that the file does not exist. *)
Definition cond_touch_path (now : Z) (io : option string) (path : file_path)
    (assert_exists : bool) (s : store) : res bool * store :=
  match io, s !! path with
  | Some e, _ => (Err e, s)
  | None, Some e => (Ok true, <[path := set_atime now e]> s)
  | None, None =>
      if assert_exists then (Err "update atime failed for chunk/file - ENOENT", s)
      else (Ok false, s)
  end.

Definition cond_touch_chunk (now : Z) (io : option string) (d : digest) (assert_exists : bool)
    (s : store) : res bool * store :=
  cond_touch_path now io (chunk_path d) assert_exists s.

Definition touch_chunk (now : Z) (io : option string) (d : digest) (s : store) : res unit * store :=
  let! _, s := cond_touch_chunk now io d true s in (Ok tt, s).

Fixpoint touch_bad_loop (now : Z) (io : Z -> option string) (d : digest) (counters : list Z) (is_bad : bool)
    (s : store) : res bool * store :=
  match counters with
  | [] => (Ok is_bad, s)
  | i :: counters =>
      let! touched, s := cond_touch_path now (io i) (bad_chunk_path d i) false s in
      touch_bad_loop now io d counters (touched || is_bad) s
  end.
Definition cond_touch_bad_chunks (now : Z) (io : Z -> option string) (d : digest) (s : store)
    : res bool * store :=
  touch_bad_loop now io d (seqZ 0 10) false s.

(** ** Insertion *)

(** Outcomes of the system calls: [metadata] and reading the magic number of an existing
    chunk, updating its access time, [replace_file] (atomic: the file is replaced or not), and
    [fsync] of the directory. *)
Record InsertIo := {
  ii_metadata : bool; ii_read : option string; ii_touch : option string;
  ii_replace : option string; ii_fsync : option string;
}.
Definition insert_io_ok : InsertIo :=
  {| ii_metadata := true; ii_read := None; ii_touch := None; ii_replace := None; ii_fsync := None |}.

Definition replace_file (now : Z) (io : option string) (path : file_path) (data : list byte)
    (s : store) : res unit * store :=
  match io with
  | Some e => (Err e, s)
  | None => (Ok tt, <[path := {| e_kind := KFile; e_data := data; e_atime := now |}]> s)
  end.

Definition keep_chunk (now : Z) (io : InsertIo) (d : digest) (old_size : Z) (s : store)
    : res (bool * Z) * store :=
  let! _, s := touch_chunk now (ii_touch io) d s in (Ok (true, old_size), s).

Definition write_chunk (now : Z) (io : InsertIo) (sync_file : bool) (chunk : DataBlob) (d : digest)
    (s : store) : res (bool * Z) * store :=
  let! _, s := replace_file now (ii_replace io) (chunk_path d) (raw_data chunk) s in
  match (if sync_file then ii_fsync io else None) with
  | Some e => (Err e, s)
  | None => (Ok (false, raw_size chunk), s)
  end.

Definition read_magic (io : InsertIo) (e : Entry) : res (list byte) :=
  match ii_read io with
  | Some e => Err e
  | None => if e_size e <? 8 then Err "failed to fill whole buffer" else Ok (take 8 (e_data e))
  end.

Definition insert_chunk_nolock (now : Z) (io : InsertIo) (sync_file : bool) (chunk : DataBlob)
    (d : digest) (s : store) : res (bool * Z) * store :=
  let encoded_size := raw_size chunk in
  match (if ii_metadata io then s !! chunk_path d else None) with
  | None => write_chunk now io sync_file chunk d s
  | Some e =>
      if negb (bool_decide (e_kind e = KFile)) then (Err "got unexpected file type for chunk", s) else
      let old_size := e_size e in
      if encoded_size =? old_size then keep_chunk now io d old_size s else
      if old_size =? 0 then write_chunk now io sync_file chunk d s else
      try! encrypted := is_encrypted chunk for s in
      if encrypted then
        try! magic := read_magic io e for s in
        if bool_decide (magic = UNCOMPRESSED_BLOB_MAGIC_1_0) ||
           bool_decide (magic = COMPRESSED_BLOB_MAGIC_1_0)
        then (Err "Cannot overwrite existing unencrypted chunk with encrypted chunk.", s) else
        try! compressed := is_compressed chunk for s in
        if bool_decide (magic = ENCRYPTED_BLOB_MAGIC_1_0) && negb compressed
        then (Err "Found existing encrypted chunk of different size", s)
        else keep_chunk now io d old_size s
      else if old_size <? encoded_size then keep_chunk now io d old_size s
      else write_chunk now io sync_file chunk d s
  end.

(** [DataStore::load_chunk]. *)
Definition load_chunk (P : Prims) (io : option string) (d : digest) (s : store) : res DataBlob :=
  match io, s !! chunk_path d with
  | None, Some e => load_from_reader P (Ok (e_data e))
  | None, None => Err "unable to load chunk - ENOENT"
  | Some e, _ => Err e
  end.

(** ** Marker files *)
Definition replace_chunk_with_marker_or_create_marker (now : Z) (io : option string) (d : digest)
    (s : store) : res unit * store :=
  replace_file now io (chunk_path d) [] s.
Definition mark_chunk_as_expected (now : Z) (io : option string) (d : digest) (s : store)
    : res unit * store :=
  replace_file now io (chunk_expected_marker_path d) [] s.

(** [std::fs::remove_file]: [Ok false] when the file does not exist. *)
Definition remove_file (io : option string) (path : file_path) (s : store) : res bool * store :=
  match io, s !! path with
  | Some e, _ => (Err e, s)
  | None, Some _ => (Ok true, delete path s)
  | None, None => (Ok false, s)
  end.
Definition clear_chunk_expected_mark (io : option string) (d : digest) (s : store)
    : res bool * store :=
  remove_file io (chunk_expected_marker_path d) s.
Definition remove_chunk_marker (io : option string) (d : digest) (s : store) : res unit * store :=
  let! removed, s := remove_file io (chunk_path d) s in
  if removed then (Ok tt, s) else (Err "No such file or directory", s).

(** ** Corrupt chunks *)
Fixpoint next_bad_loop (fuel : nat) (d : digest) (counter : Z) (s : store) : file_path * Z :=
  let path := bad_chunk_path d counter in
  match fuel with
  | S fuel =>
      if bool_decide (is_Some (s !! path)) && (counter <? 9)
      then next_bad_loop fuel d (counter + 1) s
      else (path, counter)
  | O => (path, counter)
  end.
(** The counter never exceeds 9. *)
Definition next_bad_chunk_path (d : digest) (s : store) : file_path * Z := next_bad_loop 10 d 0 s.

(** [DataStore::rename_corrupt_chunk] on the file system backend. *)
Definition rename_corrupt_chunk (io : option string) (d : digest) (s : store)
    : res (option file_path) * store :=
  let '(new_path, _) := next_bad_chunk_path d s in
  match io, s !! chunk_path d with
  | Some e, _ => (Err e, s)
  | None, Some e => (Ok (Some new_path), <[new_path := e]> (delete (chunk_path d) s))
  | None, None => (Ok None, s)
  end.
End chunk_store.

(** ** Sweeping *)
Record GarbageCollectionStatus := {
  index_file_count : Z; index_data_bytes : Z; disk_bytes : Z; disk_chunks : Z;
  removed_bytes : Z; removed_chunks : Z; pending_bytes : Z; pending_chunks : Z;
  removed_bad : Z; still_bad : Z; cache_hits : Z; cache_misses : Z;
}.
Definition gc_status_default : GarbageCollectionStatus :=
  {| index_file_count := 0; index_data_bytes := 0; disk_bytes := 0; disk_chunks := 0;
     removed_bytes := 0; removed_chunks := 0; pending_bytes := 0; pending_chunks := 0;
     removed_bad := 0; still_bad := 0; cache_hits := 0; cache_misses := 0 |}.

Definition add_index (n : Z) (g : GarbageCollectionStatus) : GarbageCollectionStatus :=
  {| index_file_count := u64 (index_file_count g + 1); index_data_bytes := u64 (index_data_bytes g + n);
     disk_bytes := disk_bytes g; disk_chunks := disk_chunks g; removed_bytes := removed_bytes g;
     removed_chunks := removed_chunks g; pending_bytes := pending_bytes g;
     pending_chunks := pending_chunks g; removed_bad := removed_bad g; still_bad := still_bad g;
     cache_hits := cache_hits g; cache_misses := cache_misses g |}.
Definition count_cache (hit : bool) (g : GarbageCollectionStatus) : GarbageCollectionStatus :=
  {| index_file_count := index_file_count g; index_data_bytes := index_data_bytes g;
     disk_bytes := disk_bytes g; disk_chunks := disk_chunks g; removed_bytes := removed_bytes g;
     removed_chunks := removed_chunks g; pending_bytes := pending_bytes g;
     pending_chunks := pending_chunks g; removed_bad := removed_bad g; still_bad := still_bad g;
     cache_hits := u64 (cache_hits g + Z.b2z hit);
     cache_misses := u64 (cache_misses g + Z.b2z (negb hit)) |}.
Definition add_still_bad (g : GarbageCollectionStatus) : GarbageCollectionStatus :=
  {| index_file_count := index_file_count g; index_data_bytes := index_data_bytes g;
     disk_bytes := disk_bytes g; disk_chunks := disk_chunks g; removed_bytes := removed_bytes g;
     removed_chunks := removed_chunks g; pending_bytes := pending_bytes g;
     pending_chunks := pending_chunks g; removed_bad := removed_bad g;
     still_bad := u64 (still_bad g + 1); cache_hits := cache_hits g; cache_misses := cache_misses g |}.
Definition add_removed (bad : bool) (size : Z) (g : GarbageCollectionStatus) : GarbageCollectionStatus :=
  {| index_file_count := index_file_count g; index_data_bytes := index_data_bytes g;
     disk_bytes := disk_bytes g; disk_chunks := disk_chunks g;
     removed_bytes := u64 (removed_bytes g + size);
     removed_chunks := u64 (removed_chunks g + Z.b2z (negb bad));
     pending_bytes := pending_bytes g; pending_chunks := pending_chunks g;
     removed_bad := u64 (removed_bad g + Z.b2z bad); still_bad := still_bad g;
     cache_hits := cache_hits g; cache_misses := cache_misses g |}.
Definition add_pending (bad : bool) (size : Z) (g : GarbageCollectionStatus) : GarbageCollectionStatus :=
  {| index_file_count := index_file_count g; index_data_bytes := index_data_bytes g;
     disk_bytes := disk_bytes g; disk_chunks := disk_chunks g; removed_bytes := removed_bytes g;
     removed_chunks := removed_chunks g; pending_bytes := u64 (pending_bytes g + size);
     pending_chunks := u64 (pending_chunks g + Z.b2z (negb bad)); removed_bad := removed_bad g;
     still_bad := u64 (still_bad g + Z.b2z bad); cache_hits := cache_hits g;
     cache_misses := cache_misses g |}.
Definition add_disk (bad : bool) (size : Z) (g : GarbageCollectionStatus) : GarbageCollectionStatus :=
  {| index_file_count := index_file_count g; index_data_bytes := index_data_bytes g;
     disk_bytes := u64 (disk_bytes g + size); disk_chunks := u64 (disk_chunks g + Z.b2z (negb bad));
     removed_bytes := removed_bytes g; removed_chunks := removed_chunks g;
     pending_bytes := pending_bytes g; pending_chunks := pending_chunks g;
     removed_bad := removed_bad g; still_bad := still_bad g; cache_hits := cache_hits g;
     cache_misses := cache_misses g |}.

Definition cond_sweep_chunk {St : Type} (atime min_atime oldest_writer size : Z) (bad : bool)
    (remove_callback : St -> res unit * St) (g : GarbageCollectionStatus) (st : St)
    : res unit * (GarbageCollectionStatus * St) :=
  if atime <? min_atime then
    match remove_callback st with
    | (Ok _, st) => (Ok tt, (add_removed bad size g, st))
    | (Err e, st) => (Err e, (if bad then add_still_bad g else g, st))
    | (Panic e, st) => (Panic e, (g, st))
    end
  else if atime <? oldest_writer then (Ok tt, (add_pending bad size g, st))
  else (Ok tt, (add_disk bad size g, st)).
