(* ===== verification/ChunkStoreSpec.v ===== *)
(** * The chunk store: properties

    File names of chunks, of corrupt chunks and of markers do not collide and are classified as
    what they are; inserting a chunk never loses one; no operation but the sweep and the renaming
    of corrupt chunks makes a file disappear or older. *)

From S2P Require Import Prelude IndexFile DataBlob DataBlobSpec ChunkStore.
From Stdlib Require Import Strings.Byte.

(** ** Names *)
Module Names.
Section names.
Context (X : Hex) `{HX : HexLaws X}.

Lemma length_hex d : length d = 32%nat -> length (hex_encode X d) = 64%nat.
Proof. intros Hd. rewrite hex_length. lia. Qed.

Lemma hex_inj d d' :
  length d = 32%nat -> length d' = 32%nat -> hex_encode X d = hex_encode X d' -> d = d'.
Proof.
  intros Hd Hd' He. pose proof (hex_decode d Hd) as H1. pose proof (hex_decode d' Hd') as H2.
  rewrite He, H2 in H1. by injection H1.
Qed.

Lemma chunk_path_inj d d' :
  length d = 32%nat -> length d' = 32%nat -> chunk_path X d = chunk_path X d' -> d = d'.
Proof. intros ?? He%(f_equal snd). by apply hex_inj. Qed.

Lemma chunk_ext_hex d rest :
  length d = 32%nat ->
  chunk_ext (hex_encode X d ++ rest) =
    if bool_decide (rest = []) then Some ExtNone else
    if is_bad_chunk_suffix rest then Some ExtBad else
    if bool_decide (rest = bytes "." ++ USING_MARKER_FILENAME_EXT) then Some ExtUsedMarker else None.
Proof.
  intros Hd. pose proof (length_hex d Hd) as Hl. unfold chunk_ext.
  rewrite bool_decide_false by (rewrite length_app; lia).
  rewrite take_app_length', hex_digits, drop_app_length' by done. cbn [negb]. destruct rest as [|b rest].
  { rewrite app_nil_r, !bool_decide_true; done. }
  rewrite (bool_decide_false (length _ = 64%nat)), (bool_decide_false (b :: rest = []))
    by (rewrite ?length_app; simpl; congruence || lia).
  destruct (is_bad_chunk_suffix (b :: rest)) eqn:Eb; [done|].
  rewrite lookup_app_r, Hl by lia. replace (drop 65 _) with rest.
  2: { replace 65%nat with (length (hex_encode X d) + 1)%nat by lia. by rewrite <- drop_drop, drop_app_length. }
  cbn [lookup list_lookup Nat.sub]. set (u := USING_MARKER_FILENAME_EXT).
  destruct (decide (b = byte_of_Z 46 /\ rest = u)) as [[-> ->]|Hne].
  - rewrite !bool_decide_true; [done|done|done|done|rewrite length_app, Hl; simpl; lia].
  - rewrite (bool_decide_false (b :: rest = _)); [|intros [= -> ->]; by apply Hne].
    destruct (bool_decide (_ = Some _)) eqn:E1; [|by rewrite andb_false_r].
    destruct (bool_decide (rest = _)) eqn:E2; [|by rewrite andb_false_r].
    zify_bool. exfalso. apply Hne. split; [by injection E1|done].
Qed.

(** A chunk, its corrupt copies and its marker are found again as what they are. *)
Lemma chunk_names_classified d i :
  length d = 32%nat -> 0 <= i <= 9 ->
  chunk_ext (chunk_path X d).2 = Some ExtNone /\
  chunk_ext (bad_chunk_path X d i).2 = Some ExtBad /\
  chunk_ext (chunk_expected_marker_path X d).2 = Some ExtUsedMarker.
Proof.
  intros Hd Hi. cbn [snd chunk_path bad_chunk_path chunk_expected_marker_path]. split_and!.
  - rewrite <- (app_nil_r (hex_encode X d)), chunk_ext_hex by done. by rewrite bool_decide_true.
  - unfold bad_chunk_filename. rewrite chunk_ext_hex by done.
    rewrite bool_decide_false by done. replace (is_bad_chunk_suffix _) with true; [done|].
    unfold is_bad_chunk_suffix. rewrite !bool_decide_true by done. cbn.
    unfold is_ascii_digit, in_range. rewrite byte_to_of_Z, Z.mod_small by lia.
    rewrite !(proj2 (Z.leb_le _ _)) by lia. done.
  - rewrite chunk_ext_hex by done. by vm_compute.
Qed.

Lemma bad_path_ne d d' i : length d = 32%nat -> length d' = 32%nat ->
  bad_chunk_path X d' i <> chunk_path X d.
Proof.
  intros Hd Hd' He%(f_equal snd)%(f_equal length). cbn [snd bad_chunk_path chunk_path] in He.
  unfold bad_chunk_filename in He. rewrite !length_app, !length_hex in He by done. simpl in He. lia.
Qed.
End names.
End Names.

(** ** What happens to the files *)
Module Growth.

(** Files stay, and their access time changes to the present only. *)
Definition grows (now : Z) (s s' : store) : Prop :=
  forall p e, s !! p = Some e ->
    exists e', s' !! p = Some e' /\ (e_atime e' = e_atime e \/ e_atime e' = now).

Lemma grows_refl now s : grows now s s.
Proof. intros p e Hp. eauto. Qed.

Lemma grows_insert now p e s : e_atime e = now -> grows now s (<[p := e]> s).
Proof.
  intros He q e' Hq. destruct (decide (q = p)) as [->|Hne].
  - exists e. rewrite lookup_insert_eq. auto.
  - exists e'. rewrite lookup_insert_ne by done. auto.
Qed.

Lemma grows_trans now s1 s2 s3 : grows now s1 s2 -> grows now s2 s3 -> grows now s1 s3.
Proof.
  intros H12 H23 p e Hp. destruct (H12 p e Hp) as (e2 & Hp2 & H2).
  destruct (H23 p e2 Hp2) as (e3 & Hp3 & H3). exists e3. split; [done|].
  destruct H3 as [H3|H3]; [rewrite H3|]; naive_solver.
Qed.

Lemma touch_path_grows now io p b s r s' :
  cond_touch_path now io p b s = (r, s') -> grows now s s'.
Proof.
  unfold cond_touch_path. intros H. repeat case_match; simplify_eq;
    try apply grows_refl; by apply grows_insert.
Qed.

Lemma replace_file_grows now io p data s r s' :
  replace_file now io p data s = (r, s') -> grows now s s'.
Proof.
  unfold replace_file. intros H. case_match; simplify_eq; [apply grows_refl|by apply grows_insert].
Qed.

Lemma touch_bad_grows X now io d s r s' :
  cond_touch_bad_chunks X now io d s = (r, s') -> grows now s s'.
Proof.
  unfold cond_touch_bad_chunks. generalize (seqZ 0 10) as l, false as b. intros l.
  revert s. induction l as [|i l IH]; intros s b; cbn [touch_bad_loop].
  { intros [= <- <-]. apply grows_refl. }
  destruct (cond_touch_path _ _ _ _ _) as [r1 s1] eqn:E1. apply touch_path_grows in E1.
  destruct r1; [|intros [= <- <-]; done..]. intros H. eapply grows_trans; [done|by eapply IH].
Qed.

(** Every outcome of [insert_chunk_nolock] keeps the chunk or writes it. *)
Lemma insert_cases X now io sync chunk d s r s' :
  insert_chunk_nolock X now io sync chunk d s = (r, s') ->
  (is_ok r = false /\ s' = s) \/
  (exists e, s !! chunk_path X d = Some e /\ e_kind e = KFile /\
    keep_chunk X now io d (e_size e) s = (r, s')) \/
  (write_chunk X now io sync chunk d s = (r, s') /\
    forall e, ii_metadata io = true -> s !! chunk_path X d = Some e ->
      e_kind e = KFile /\
      (e_data e = [] \/ (is_encrypted chunk = Ok false /\ raw_size chunk < e_size e))).
Proof.
  unfold insert_chunk_nolock. destruct (ii_metadata io) eqn:Em.
  2: { intros H. right. right. split; [done|]. done. }
  destruct (s !! chunk_path X d) as [e|] eqn:He.
  2: { intros H. right. right. split; [done|]. done. }
  destruct (decide (e_kind e = KFile)) as [Hk|Hk].
  2: { rewrite bool_decide_false by done. intros [= <- <-]. by left. }
  rewrite bool_decide_true by done. cbn [negb].
  destruct (raw_size chunk =? e_size e) eqn:E1; [intros H; right; left; by exists e|].
  destruct (e_size e =? 0) eqn:E2.
  { intros H. right. right. split; [done|]. intros e' _ [= <-]. split; [done|]. left.
    zify_bool. unfold e_size in E2. destruct (e_data e); [done|simpl in E2; lia]. }
  destruct (is_encrypted chunk) as [enc|x|x] eqn:Eenc; [|intros [= <- <-]; by left..].
  destruct enc.
  - intros H. repeat case_match; simplify_eq; try (by left); right; left; by exists e.
  - destruct (e_size e <? raw_size chunk) eqn:E3; [intros H; right; left; by exists e|].
    intros H. right. right. split; [done|]. intros e' _ [= <-]. split; [done|]. right.
    zify_bool. split; [done|lia].
Qed.

Lemma keep_chunk_cases X now io d n s r s' e :
  s !! chunk_path X d = Some e -> keep_chunk X now io d n s = (r, s') ->
  (r = Ok (true, n) /\ s' = <[chunk_path X d := set_atime now e]> s) \/ (is_err r = true /\ s' = s).
Proof.
  intros He. unfold keep_chunk, touch_chunk, cond_touch_chunk, cond_touch_path. rewrite He.
  destruct (ii_touch io); intros [= <- <-]; [by right|by left].
Qed.

Lemma write_chunk_cases X now io sync chunk d s r s' :
  write_chunk X now io sync chunk d s = (r, s') ->
  (is_err r = true /\ s' = s) \/
  ((r = Ok (false, raw_size chunk) \/ (is_err r = true /\ sync = true)) /\
   s' = <[chunk_path X d := {| e_kind := KFile; e_data := raw_data chunk; e_atime := now |}]> s).
Proof.
  unfold write_chunk, replace_file. destruct (ii_replace io); [intros [= <- <-]; by left|].
  destruct sync; [destruct (ii_fsync io)|]; intros [= <- <-]; right; split; auto.
Qed.

Lemma insert_grows X now io sync chunk d s r s' :
  insert_chunk_nolock X now io sync chunk d s = (r, s') -> grows now s s'.
Proof.
  intros [(_ & ->)|[(e & He & _ & H)|[H _]]]%insert_cases; [apply grows_refl| |].
  - apply (keep_chunk_cases _ _ _ _ _ _ _ _ e) in H as [(_ & ->)|(_ & ->)]; [|apply grows_refl|done].
    by apply grows_insert.
  - apply write_chunk_cases in H as [(_ & ->)|(_ & ->)]; [apply grows_refl|by apply grows_insert].
Qed.

Lemma keep_no_panic X now io d n s r s' :
  keep_chunk X now io d n s = (r, s') -> is_panic r = false.
Proof.
  unfold keep_chunk, touch_chunk, cond_touch_chunk, cond_touch_path.
  destruct (ii_touch io), (s !! chunk_path X d); by intros [= <- <-].
Qed.

Lemma insert_no_panic X now io sync chunk d s r s' enc comp :
  is_encrypted chunk = Ok enc -> is_compressed chunk = Ok comp ->
  insert_chunk_nolock X now io sync chunk d s = (r, s') -> is_panic r = false.
Proof.
  intros He Hc. unfold insert_chunk_nolock. rewrite He, Hc.
  assert (forall r s', write_chunk X now io sync chunk d s = (r, s') -> is_panic r = false) as Hw.
  { intros r0 s0 [(? & _)|([->|[? _]] & _)]%write_chunk_cases; [by destruct r0|done|by destruct r0]. }
  pose proof (fun n => keep_no_panic X now io d n s) as Hk.
  destruct (if ii_metadata io then _ else _) as [e|]; [|apply Hw].
  case_if; [by intros [= <- <-]|]. case_if; [apply Hk|]. case_if; [apply Hw|].
  destruct enc; [|case_if; [apply Hk|apply Hw]].
  unfold read_magic. destruct (ii_read io); [by intros [= <- <-]|].
  case_if; [by intros [= <- <-]|]. case_if; [by intros [= <- <-]|].
  case_if; [by intros [= <- <-]|apply Hk].
Qed.
End Growth.

(** C8.  Inserting a chunk never loses data.  Whatever the system calls return, a blob with a
    valid header is inserted without a panic and without a change to any other file; a
    chunk that was there is still there; on success the chunk is a file that was accessed now, and
    the flag tells whether the old content was kept (with its size returned) or the new one
    written.  When the content of a chunk changes, it becomes exactly the content given.  If the
    metadata of the old file could be read, then this happens only to an empty file, or when the
    new content is shorter and not encrypted.  If they could not be read, then the chunk counts as
    missing and is replaced by the new one whatever its size. *)
Theorem insert_chunk_correct X now io sync chunk d s r s' :
  from_raw (raw_data chunk) = Ok chunk ->
  insert_chunk_nolock X now io sync chunk d s = (r, s') ->
  is_panic r = false /\
  (forall p, p <> chunk_path X d -> s' !! p = s !! p) /\
  (is_Some (s !! chunk_path X d) -> is_Some (s' !! chunk_path X d)) /\
  (forall dup n, r = Ok (dup, n) -> exists e',
    s' !! chunk_path X d = Some e' /\ e_kind e' = KFile /\ e_atime e' = now /\ n = e_size e' /\
    if dup then exists e, s !! chunk_path X d = Some e /\ e_data e' = e_data e
    else e_data e' = raw_data chunk) /\
  (forall e e',
    s !! chunk_path X d = Some e -> s' !! chunk_path X d = Some e' -> e_data e' <> e_data e ->
    e_data e' = raw_data chunk /\
    (ii_metadata io = true ->
     e_data e = [] \/ (is_encrypted chunk = Ok false /\ e_size e' < e_size e))) /\
  (ii_metadata io = false -> is_ok r = true -> r = Ok (false, raw_size chunk)).
Proof.
  intros Hraw Hi. pose proof (Growth.insert_grows _ _ _ _ _ _ _ _ _ Hi) as Hg.
  assert (is_panic r = false) as Hp.
  { apply BlobSpec.from_raw_inv in Hraw as (_ & Hm & _). revert Hi.
    eapply Growth.insert_no_panic; [unfold is_encrypted|unfold is_compressed]; by rewrite Hm. }
  assert (ii_metadata io = false -> is_ok r = true -> r = Ok (false, raw_size chunk)) as Hblind.
  { intros Hm. revert Hi. unfold insert_chunk_nolock. rewrite Hm. intros H Hok.
    apply Growth.write_chunk_cases in H as [(Hr & _)|([Hr|[Hr _]] & _)]; [|done|]; by destruct r. }
  split; [done|].
  apply Growth.insert_cases in Hi as [(Hr & ->)|[(e & He & Hk & H)|[H Hrep]]].
  - split_and!; [done|done|by destruct r| |done]. intros e e' He He' Hne. congruence.
  - apply (Growth.keep_chunk_cases _ _ _ _ _ _ _ _ e) in H as [(-> & ->)|(Hr & ->)]; [| |done].
    + rewrite lookup_insert_eq. split_and!; [|by eexists| | |done].
      * intros p Hp'. by rewrite lookup_insert_ne.
      * intros dup n [= <- <-]. exists (set_atime now e). split_and!; [done..|]. by exists e.
      * intros e1 e2 H1 [= <-] Hne. rewrite He in H1. by simplify_eq.
    + split_and!; [done|done|by destruct r| |done]. intros e1 e2 H1 H2 Hne. congruence.
  - apply Growth.write_chunk_cases in H as [(Hr & ->)|(Hr & ->)].
    + split_and!; [done|done|by destruct r| |done]. intros e1 e2 H1 H2 Hne. congruence.
    + rewrite lookup_insert_eq. split_and!; [|by eexists| | |done].
      * intros p Hp'. by rewrite lookup_insert_ne.
      * intros dup n ->. destruct Hr as [[= -> ->]|[? _]]; [|done]. by eexists.
      * intros e1 e2 H1 [= <-] _. split; [done|]. intros Hm. by apply Hrep.
Qed.

(** ** A concrete [hex] *)
Module HexImpl.
Definition encode_byte (b : byte) : list byte :=
  [hex_char (Z.shiftr (byte_to_Z b) 4); hex_char (Z.land (byte_to_Z b) 15)].
Definition hex_value (b : byte) : Z :=
  if is_ascii_digit b then byte_to_Z b - 48
  else if in_range 97 102 b then byte_to_Z b - 87 else byte_to_Z b - 55.
Fixpoint decode (s : list byte) : list byte :=
  match s with
  | a :: b :: s => byte_of_Z (hex_value a * 16 + hex_value b) :: decode s
  | _ => []
  end.
Definition hex : Hex := {|
  hex_encode d := d ≫= encode_byte;
  from_hex s :=
    if bool_decide (length s = 64%nat) && forallb is_ascii_hexdigit s then Ok (decode s)
    else Err "invalid hex string" |}.

Lemma decode_byte b s : decode (encode_byte b ++ s) = b :: decode s.
Proof. destruct b; reflexivity. Qed.
Lemma digits_byte b : forallb is_ascii_hexdigit (encode_byte b) = true.
Proof. destruct b; reflexivity. Qed.

#[global] Instance hex_laws : HexLaws hex.
Proof.
  assert (forall d, length (d ≫= encode_byte) = (2 * length d)%nat) as Hl.
  { induction d as [|b d IH]; [done|]. rewrite bind_cons, length_app, IH. simpl. lia. }
  assert (forall d, forallb is_ascii_hexdigit (d ≫= encode_byte) = true) as Hd.
  { induction d as [|b d IH]; [done|]. by rewrite bind_cons, forallb_app, IH, digits_byte. }
  split; [done|done|]. intros d Hlen. cbn [from_hex hex hex_encode].
  rewrite bool_decide_true by (rewrite Hl; lia). rewrite Hd. cbn [andb]. f_equal.
  clear Hlen. induction d as [|b d IH]; [done|]. by rewrite bind_cons, decode_byte, IH.
Qed.
End HexImpl.

Lemma insert_chunk_correct_witness :
  let chunk := {| raw_data := UNCOMPRESSED_BLOB_MAGIC_1_0 ++ replicate 4 x00 |} in
  let d := replicate 32 x05 in
  exists e, (insert_chunk_nolock HexImpl.hex 7 insert_io_ok false chunk d ∅).2
    !! chunk_path HexImpl.hex d = Some e /\ e_data e = raw_data chunk /\ e_atime e = 7.
Proof.
  intros chunk d.
  assert (from_raw (raw_data chunk) = Ok chunk) as Hraw by (vm_compute; reflexivity).
  assert ((insert_chunk_nolock HexImpl.hex 7 insert_io_ok false chunk d ∅).1 = Ok (false, 12)) as Hr
    by (vm_compute; reflexivity).
  destruct (insert_chunk_nolock HexImpl.hex 7 insert_io_ok false chunk d ∅) as [r s'] eqn:E.
  destruct (insert_chunk_correct HexImpl.hex 7 insert_io_ok false chunk d ∅ r s' Hraw E)
    as (_ & _ & _ & H & _).
  destruct (H false 12 Hr) as (e & He & _ & Ht & _ & Hd). exists e. split; [exact He|].
  split; [exact Hd|exact Ht].
Defined.
