(* ===== verification/GarbageCollection.v ===== *)
(** * Garbage collection, [pbs-datastore/src/datastore.rs], [chunk_store.rs], [move_journal.rs]

    A run marks the chunks of all index files by updating their access time and then removes
    the chunk files that were not accessed for long enough.  Backups, prune jobs, moves and
    verification run at the same time.  The datastore is a state [World]; between any two
    steps of the collection during which it does not hold the mutex of the chunk store, others
    act on it.  What they do, and which of the system calls of the collection fail, is a
    schedule that is part of the state and that the theorems leave arbitrary.

    Paths of index files are kept structured: a file of a snapshot of a group, or a
    file anywhere else.  Readers of index files, the sorting of snapshots, the chunk store and the
    cache of digests are those of the other files.  Not modelled: progress output, the
    configuration that is read first, and the sweep of an S3 bucket (phase 2 with the S3
    backend). *)

From S2P Require Import Prelude IndexFile FixedIndex DynamicIndex LruCache.
From S2P Require Import DataBlob Manifest Prune ChunkStore.
From Stdlib Require Import Strings.Byte.

(** ** Index files *)
Record Group := { g_ns : list string; g_type : string; g_id : string }.
#[global] Instance Group_eq_dec : EqDecision Group.
Proof. solve_decision. Defined.
#[global] Program Instance Group_countable : Countable Group :=
  inj_countable' (fun g => (g_ns g, g_type g, g_id g))
    (fun '(n, t, i) => {| g_ns := n; g_type := t; g_id := i |}) _.
Next Obligation. by intros []. Qed.

Inductive path :=
| InSnap (g : Group) (time : Z) (file : string)
| Elsewhere (dir : list string) (file : string).
#[global] Instance path_eq_dec : EqDecision path.
Proof. solve_decision. Defined.
#[global] Program Instance path_countable : Countable path :=
  inj_countable'
    (fun p => match p with InSnap g t f => inl (g, t, f) | Elsewhere d f => inr (d, f) end)
    (fun p => match p with inl (g, t, f) => InSnap g t f | inr (d, f) => Elsewhere d f end) _.
Next Obligation. by intros []. Qed.
Definition file_name (p : path) : string :=
  match p with InSnap _ _ f => f | Elsewhere _ f => f end.

Inductive ArchiveType := FixedIndexT | DynamicIndexT | BlobT.
#[global] Instance ArchiveType_eq_dec : EqDecision ArchiveType.
Proof. solve_decision. Defined.

(** [Box<dyn IndexFile>]. *)
Inductive AnyIndex :=
| AnyFixed (r : Reader.FixedIndexReader)
| AnyDynamic (r : DynReader.DynamicIndexReader).
#[export] Instance AnyIndex_IndexFile : IndexFile AnyIndex := {
  index_count i := match i with AnyFixed r => index_count r | AnyDynamic r => index_count r end;
  index_digest i pos :=
    match i with AnyFixed r => index_digest r pos | AnyDynamic r => index_digest r pos end;
  index_bytes i := match i with AnyFixed r => index_bytes r | AnyDynamic r => index_bytes r end;
  chunk_info i pos := match i with AnyFixed r => chunk_info r pos | AnyDynamic r => chunk_info r pos end;
  index_ctime i := match i with AnyFixed r => index_ctime r | AnyDynamic r => index_ctime r end;
  index_size i := match i with AnyFixed r => index_size r | AnyDynamic r => index_size r end;
  chunk_from_offset i off :=
    match i with AnyFixed r => chunk_from_offset r off | AnyDynamic r => chunk_from_offset r off end;
}.

(** ** What others do *)
Inductive action :=
| ATick (seconds : Z)                                      (* time passes, or the clock is set *)
| AInsert (io : InsertIo) (sync : bool) (chunk : DataBlob) (d : digest) (* a chunk is uploaded *)
| ATouch (io : option string) (d : digest)                 (* [cond_touch_chunk] *)
| ARenameCorrupt (io : option string) (d : digest)         (* verification *)
| APut (p : path) (f : File)                               (* a file is renamed into place *)
| ARemove (p : path)                                       (* a file is removed *)
| AMkSnap (g : Group) (time : Z)                           (* [create_locked_backup_dir] *)
| ARmSnap (g : Group) (time : Z)                           (* a snapshot is removed *)
| ARmGroup (g : Group)                                     (* an empty group is removed *)
| ARecord (ps : list path)                                 (* entries of a move that then fails *)
| ARecordMove (g g' : Group) (time : Z)                    (* [append_moved_indices] in [move_to] *)
| AMoveSnap (io : option string) (g g' : Group) (time : Z). (* the rename of [move_to] *)

(** A step of the collection: what happened before it, and the error of its system call. *)
Record event := { ev_actions : list action; ev_error : option string }.

Record World := {
  w_chunks : store;
  w_groups : gset Group;
  w_snaps : gmap (Group * Z) (gmap string File);
  w_other : gmap (list string * string) File;
  w_clock : Z;
  w_journal : list path;
  w_journal_locked : bool;
  w_moves : list (Group * Group * Z); (* moves that were recorded and did not rename yet *)
  w_schedule : list event;
}.

Definition set_chunks (c : store) (w : World) : World :=
  {| w_chunks := c; w_groups := w_groups w; w_snaps := w_snaps w; w_other := w_other w;
     w_clock := w_clock w; w_journal := w_journal w;
     w_journal_locked := w_journal_locked w; w_moves := w_moves w; w_schedule := w_schedule w |}.
Definition set_clock (t : Z) (w : World) : World :=
  {| w_chunks := w_chunks w; w_groups := w_groups w; w_snaps := w_snaps w; w_other := w_other w;
     w_clock := t; w_journal := w_journal w;
     w_journal_locked := w_journal_locked w; w_moves := w_moves w; w_schedule := w_schedule w |}.
Definition set_files (gs : gset Group) (s : gmap (Group * Z) (gmap string File))
    (o : gmap (list string * string) File) (w : World) : World :=
  {| w_chunks := w_chunks w; w_groups := gs; w_snaps := s; w_other := o;
     w_clock := w_clock w; w_journal := w_journal w;
     w_journal_locked := w_journal_locked w; w_moves := w_moves w; w_schedule := w_schedule w |}.
Definition set_journal (j : list path) (locked : bool) (w : World) : World :=
  {| w_chunks := w_chunks w; w_groups := w_groups w; w_snaps := w_snaps w; w_other := w_other w;
     w_clock := w_clock w; w_journal := j; w_journal_locked := locked; w_moves := w_moves w;
     w_schedule := w_schedule w |}.
Definition set_moves (l : list (Group * Group * Z)) (w : World) : World :=
  {| w_chunks := w_chunks w; w_groups := w_groups w; w_snaps := w_snaps w; w_other := w_other w;
     w_clock := w_clock w; w_journal := w_journal w; w_journal_locked := w_journal_locked w;
     w_moves := l; w_schedule := w_schedule w |}.
Definition set_schedule (l : list event) (w : World) : World :=
  {| w_chunks := w_chunks w; w_groups := w_groups w; w_snaps := w_snaps w; w_other := w_other w;
     w_clock := w_clock w; w_journal := w_journal w;
     w_journal_locked := w_journal_locked w; w_moves := w_moves w; w_schedule := l |}.

Definition lookup_file (p : path) (w : World) : option File :=
  match p with
  | InSnap g t f => match w_snaps w !! (g, t) with Some fs => fs !! f | None => None end
  | Elsewhere d f => w_other w !! (d, f)
  end.
Definition put_file (p : path) (file : File) (w : World) : World :=
  match p with
  | InSnap g t f =>
      match w_snaps w !! (g, t) with
      | Some fs => set_files (w_groups w) (<[(g, t) := <[f := file]> fs]> (w_snaps w)) (w_other w) w
      | None => w
      end
  | Elsewhere d f => set_files (w_groups w) (w_snaps w) (<[(d, f) := file]> (w_other w)) w
  end.
Definition remove_index (p : path) (w : World) : World :=
  match p with
  | InSnap g t f =>
      match w_snaps w !! (g, t) with
      | Some fs => set_files (w_groups w) (<[(g, t) := delete f fs]> (w_snaps w)) (w_other w) w
      | None => w
      end
  | Elsewhere d f => set_files (w_groups w) (w_snaps w) (delete (d, f) (w_other w)) w
  end.

Section gc.
Variable X : Hex.
Variable P : Prims.
(** [ArchiveType::from_path], by the extension of the name; the pattern of backup files. *)
Variable archive_type : string -> option ArchiveType.
Variable backup_file_regex : string -> bool.
(** Names of snapshots. *)
Variable snapshot_path : Group -> Z -> string.
Variable time_string : Z -> string.
Variable sort_unstable_by_key : (BackupInfo -> Z) -> list BackupInfo -> list BackupInfo.
(** Where a file is mapped, if it is. *)
Variable map_addr : option Z.

Definition is_index_file (f : string) : bool :=
  match archive_type f with Some FixedIndexT | Some DynamicIndexT => true | _ => false end.

(** The index files of a snapshot directory as [move_to] records them. *)
Definition moved_indices (g' : Group) (t : Z) (fs : gmap string File) : list path :=
  (fun f => InSnap g' t f) <$> filter is_index_file (elements (dom fs)).

(** A move holds the locks of its two groups from before [append_moved_indices] on. *)
Definition involves (m : Group * Group * Z) (g : Group) : bool :=
  bool_decide (m.1.1 = g) || bool_decide (m.1.2 = g).

(** [move_to] appends the new paths to the journal each time, and renames only after that. *)
Definition apply_action (a : action) (w : World) : World :=
  match a with
  | ATick n => set_clock (w_clock w + n) w
  | AInsert io sync chunk d =>
      set_chunks (insert_chunk_nolock X (w_clock w) io sync chunk d (w_chunks w)).2 w
  | ATouch io d => set_chunks (cond_touch_chunk X (w_clock w) io d false (w_chunks w)).2 w
  | ARenameCorrupt io d => set_chunks (rename_corrupt_chunk X io d (w_chunks w)).2 w
  | APut p f => put_file p f w
  | ARemove p => remove_index p w
  | AMkSnap g t =>
      match w_snaps w !! (g, t) with
      | Some _ => w
      | None => set_files ({[g]} ∪ w_groups w) (<[(g, t) := ∅]> (w_snaps w)) (w_other w) w
      end
  | ARmSnap g t => set_files (w_groups w) (delete (g, t) (w_snaps w)) (w_other w) w
  | ARmGroup g => set_files (w_groups w ∖ {[g]}) (w_snaps w) (w_other w) w
  | ARecord ps => if w_journal_locked w then w else set_journal (w_journal w ++ ps) false w
  | ARecordMove g g' t =>
      if w_journal_locked w || existsb (fun m => involves m g || involves m g') (w_moves w) then w else
      match w_snaps w !! (g, t) with
      | None => w
      | Some fs =>
          set_moves ((g, g', t) :: w_moves w)
            (set_journal (w_journal w ++ moved_indices g' t fs) false w)
      end
  | AMoveSnap io g g' t =>
      if bool_decide ((g, g', t) ∈ w_moves w) then
        let w := set_moves (filter (fun m => m <> (g, g', t)) (w_moves w)) w in
        match io, w_snaps w !! (g, t), w_snaps w !! (g', t) with
        | None, Some fs, None =>
            set_files ({[g']} ∪ w_groups w) (<[(g', t) := fs]> (delete (g, t) (w_snaps w))) (w_other w) w
        | _, _, _ => w
        end
      else w
  end.
Definition apply_actions (l : list action) (w : World) : World := foldl (fun w a => apply_action a w) w l.

(** The next event of the schedule: others act, then the call fails or not. *)
Definition next_event (w : World) : option string * World :=
  match w_schedule w with
  | [] => (None, w)
  | ev :: l => (ev_error ev, apply_actions (ev_actions ev) (set_schedule l w))
  end.
(** A call that does not change the datastore, such as [worker.check_abort()]. *)
Definition call (w : World) : res unit * World :=
  match next_event w with
  | (None, w) => (Ok tt, w)
  | (Some e, w) => (Err e, w)
  end.

(** ** Phase 1 *)

(** An item of the directory walk: a path below the base directory, or an error. *)
Inductive io_kind := PermissionDenied | NotFound | OtherKind.
Inductive walk_entry :=
| WPath (p : path)
| WHidden                                 (* a name that starts with a dot is not entered *)
| WNotIo                                  (* not an I/O error *)
| WIo (k : io_kind) (lost_found : bool)   (* [depth <= 1] and the path ends with lost+found *)
| WNoPath.

Fixpoint list_index_files (walk : list walk_entry) (acc : gset path) : res (gset path) :=
  match walk with
  | [] => Ok acc
  | e :: walk =>
      match e with
      | WPath p =>
          list_index_files walk (if is_index_file (file_name p) then {[p]} ∪ acc else acc)
      | WHidden | WNotIo | WIo NotFound _ => list_index_files walk acc
      | WIo PermissionDenied true => list_index_files walk acc
      | WIo PermissionDenied false => Err "cannot continue garbage-collection safely"
      | WIo OtherKind _ | WNoPath => Err "unexpected error on datastore traversal"
      end
  end.

Definition open_index (t : ArchiveType) (file : File) : res AnyIndex :=
  match t with
  | FixedIndexT => let? r := Reader.new file map_addr in Ok (AnyFixed r)
  | DynamicIndexT => let? r := DynReader.new file map_addr in Ok (AnyDynamic r)
  | BlobT => Err "unexpected archive type blob"
  end.

Definition open_index_reader (p : path) (w : World) : res (option AnyIndex) * World :=
  match archive_type (file_name p) with
  | None | Some BlobT => (Err "unexpected archive type", w)
  | Some t =>
      let! _, w := call w in
      match lookup_file p w with
      | None => (Ok None, w)
      | Some file => (let? r := open_index t file in Ok (Some r), w)
      end
  end.

(** The state of phase 1: the datastore, the cache of digests already marked in this run, the
    counters, and the index files found by the walk that were not processed yet. *)
Record Gc := {
  gc_world : World;
  gc_lru : option (LruCache (list byte) unit);
  gc_status : GarbageCollectionStatus;
  gc_unprocessed : gset path;
}.
Definition with_world (w : World) (s : Gc) : Gc :=
  {| gc_world := w; gc_lru := gc_lru s; gc_status := gc_status s; gc_unprocessed := gc_unprocessed s |}.
Definition with_lru (c : option (LruCache (list byte) unit)) (s : Gc) : Gc :=
  {| gc_world := gc_world s; gc_lru := c; gc_status := gc_status s; gc_unprocessed := gc_unprocessed s |}.
Definition with_status (g : GarbageCollectionStatus) (s : Gc) : Gc :=
  {| gc_world := gc_world s; gc_lru := gc_lru s; gc_status := g; gc_unprocessed := gc_unprocessed s |}.
Definition processed (p : path) (s : Gc) : Gc :=
  {| gc_world := gc_world s; gc_lru := gc_lru s; gc_status := gc_status s;
     gc_unprocessed := gc_unprocessed s ∖ {[p]} |}.

Definition on_world {A} (f : World -> res A * World) (s : Gc) : res A * Gc :=
  let '(r, w) := f (gc_world s) in (r, with_world w s).
(** One operation under the mutex of the chunk store. *)
Definition locked {A} (f : Z -> option string -> store -> res A * store) (w : World) : res A * World :=
  let '(io, w) := next_event w in
  let '(r, c) := f (w_clock w) io (w_chunks w) in (r, set_chunks c w).

(** A chunk that is not in the cache of digests. *)
Definition mark_chunk (s3 : bool) (d : digest) (s : Gc) : res unit * Gc :=
  let! touched, s := on_world (locked (fun now io c => cond_touch_chunk X now io d false c)) s in
  if touched then (Ok tt, s) else
  let! is_bad, s :=
    on_world (locked (fun now io c => cond_touch_bad_chunks X now (fun _ => io) d c)) s in
  if s3 then
    let! _, s := on_world call s in
    let! touched, s := on_world (locked (fun now io c => cond_touch_chunk X now io d false c)) s in
    if negb touched && negb is_bad
    then on_world (locked (fun now io c => mark_chunk_as_expected X now io d c)) s
    else (Ok tt, s)
  else (Ok tt, s).

Definition mark_digest (s3 : bool) (d : digest) (s : Gc) : res unit * Gc :=
  match gc_lru s with
  | None => mark_chunk s3 d s
  | Some c =>
      match Lru.insert d tt (fun _ e => (Ok tt, e)) c tt with
      | (Ok true, (c, _)) => (Ok tt, with_status (count_cache true (gc_status s)) (with_lru (Some c) s))
      | (Ok false, (c, _)) =>
          mark_chunk s3 d (with_status (count_cache false (gc_status s)) (with_lru (Some c) s))
      | (Err e, (c, _)) => (Err e, with_lru (Some c) s)
      | (Panic e, (c, _)) => (Panic e, with_lru (Some c) s)
      end
  end.

Fixpoint mark_loop (s3 : bool) (index : AnyIndex) (n : nat) (pos : Z) (s : Gc) : res unit * Gc :=
  match n with
  | O => (Ok tt, s)
  | S n =>
      let! _, s := on_world call s in
      try! d := unwrap (index_digest index pos) for s in
      let! _, s := mark_digest s3 d s in
      mark_loop s3 index n (pos + 1) s
  end.

Definition index_mark_used_chunks (s3 : bool) (index : AnyIndex) (s : Gc) : res unit * Gc :=
  try! n := index_bytes index for s in
  mark_loop s3 index (Z.to_nat (index_count index)) 0 (with_status (add_index n (gc_status s)) s).

(** [BackupGroup::list_backups]: the names of the group directory, then each snapshot. *)
Fixpoint read_snapshots (g : Group) (times : list Z) (acc : list BackupInfo) (w : World)
    : res (list BackupInfo) * World :=
  match times with
  | [] => (Ok acc, w)
  | t :: times =>
      let! _, w := call w in
      match w_snaps w !! (g, t) with
      | None => (Err "ENOENT", w)
      | Some fs =>
          let '(fl, prot) := list_backup_files
            (filter (fun e => Is_true (backup_file_regex e.1))
               ((fun e => (e.1, f_regular e.2)) <$> map_to_list fs)) [] false in
          read_snapshots g times
            (acc ++ [{| relative_path := snapshot_path g t; backup_time := t;
                        backup_time_string := time_string t; files := fl; protected := prot |}]) w
      end
  end.
Definition snapshot_times (g : Group) (w : World) : list Z :=
  (fun e => e.1.2) <$> filter (fun e => e.1.1 = g) (map_to_list (w_snaps w)).
Definition list_backups (g : Group) (w : World) : res (list BackupInfo) * World :=
  let! _, w := call w in
  if bool_decide (g ∈ w_groups w) then read_snapshots g (snapshot_times g w) [] w
  else (Err "ENOENT", w).

Inductive control := Continue | Retry.

Fixpoint process_files (s3 : bool) (g : Group) (t : Z) (first : bool) (fs : list string) (s : Gc)
    : res control * Gc :=
  match fs with
  | [] => (Ok Continue, s)
  | f :: fs =>
      let! _, s := on_world call s in
      if negb (is_index_file f) then process_files s3 g t first fs s else
      let p := InSnap g t f in
      let! index, s := on_world (open_index_reader p) s in
      match index with
      | None =>
          let s := processed p s in
          if first then (Ok Retry, s) else process_files s3 g t first fs s
      | Some index =>
          let! _, s := index_mark_used_chunks s3 index s in
          process_files s3 g t first fs (processed p s)
      end
  end.

Fixpoint process_snapshots (s3 : bool) (g : Group) (count : nat) (l : list BackupInfo) (s : Gc)
    : res control * Gc :=
  match l with
  | [] => (Ok Continue, s)
  | snapshot :: l =>
      let! c, s := process_files s3 g (backup_time snapshot) (bool_decide (count = 0%nat))
                     (files snapshot) s in
      match c with
      | Retry => (Ok Retry, s)
      | Continue => process_snapshots s3 g (S count) l s
      end
  end.

(** The loop ['retry]: [retries] attempts are left after this one; the last one locks the group. *)
Fixpoint process_group (s3 : bool) (retries : nat) (g : Group) (s : Gc) : res unit * Gc :=
  let! _, s := (match retries with O => on_world call s | S _ => (Ok tt, s) end) in
  match on_world (list_backups g) s with
  | (Panic e, s) => (Panic e, s)
  | (Err e, s) =>
      let '(_, w) := next_event (gc_world s) in
      let s := with_world w s in
      if bool_decide (g ∈ w_groups w) then (Err e, s) else (Ok tt, s)
  | (Ok snapshots, s) =>
      let! c, s := process_snapshots s3 g 0
                     (reverse (sort_list sort_unstable_by_key snapshots true)) s in
      match c with
      | Continue => (Ok tt, s)
      | Retry =>
          match retries with
          | S retries => process_group s3 retries g s
          | O => (Err "exhausted retries and unexpected counter overrun", s)
          end
      end
  end.

Fixpoint process_groups (s3 : bool) (groups : list (res Group)) (s : Gc) : res unit * Gc :=
  match groups with
  | [] => (Ok tt, s)
  | g :: groups =>
      let! _, s := on_world call s in
      try! g := g for s in
      let! _, s := process_group s3 10 g s in
      process_groups s3 groups s
  end.

Definition mark_path (s3 : bool) (p : path) (s : Gc) : res unit * Gc :=
  let! index, s := on_world (open_index_reader p) s in
  match index with
  | None => (Ok tt, s)
  | Some index => index_mark_used_chunks s3 index s
  end.
Fixpoint mark_paths (s3 : bool) (ps : list path) (s : Gc) : res unit * Gc :=
  match ps with
  | [] => (Ok tt, s)
  | p :: ps => let! _, s := mark_path s3 p s in mark_paths s3 ps s
  end.

(** [drain_move_journal]: nothing is recorded while it holds the lock. *)
Definition drain_move_journal (s3 : bool) (s : Gc) : res unit * Gc :=
  let! _, s := on_world call s in
  let w := gc_world s in
  let s := with_world (set_journal (w_journal w) true w) s in
  match mark_paths s3 (w_journal w) s with
  | (Ok _, s) =>
      match next_event (gc_world s) with
      | (None, w) => (Ok tt, with_world (set_journal [] false w) s)
      | (Some e, w) =>
          (Err e, with_world (set_journal (w_journal w) false w) s)
      end
  | (r, s) =>
      let w := gc_world s in (r, with_world (set_journal (w_journal w) false w) s)
  end.

(** [mark_used_chunks]: [walk] is what the walk finds, given the datastore at its end, [groups]
    what the iteration over namespaces and groups yields. *)
Definition mark_used_chunks (s3 : bool) (cache_capacity : Z) (walk : World -> list walk_entry)
    (groups : list (res Group)) (status : GarbageCollectionStatus) (w : World) : res unit * Gc :=
  let s := {| gc_world := w;
              gc_lru := if 0 <? cache_capacity then Some (Lru.new cache_capacity) else None;
              gc_status := status; gc_unprocessed := ∅ |} in
  let! _, s := on_world call s in
  try! unprocessed := list_index_files (walk (gc_world s)) ∅ for s in
  let s := {| gc_world := gc_world s; gc_lru := gc_lru s; gc_status := gc_status s;
              gc_unprocessed := unprocessed |} in
  let! _, s := process_groups s3 groups s in
  let! _, s := mark_paths s3 (elements (gc_unprocessed s)) s in
  drain_move_journal s3 s.

(** ** Phase 2 *)

(** [unlinkat] in [sweep_unused_chunks]; with a cache, chunks that are not bad are removed
    through the cache ([LocalDatastoreLruCache::remove]) unless the chunk is locked. *)
Definition sweep_remove (io lock : option string) (cache : bool) (p : file_path) (bad : bool)
    (st : store * option (LruCache (list byte) unit))
    : res unit * (store * option (LruCache (list byte) unit)) :=
  let '(c, lru) := st in
  if cache && negb bad then
    try! d := from_hex X p.2 for st in
    match lock with
    | Some _ => (Ok tt, st)
    | None =>
        let lru := match lru with Some l => Some (Lru.remove d l).2 | None => None end in
        let '(r, c) := remove_chunk_marker X io d c in (r, (c, lru))
    end
  else
    let '(r, c) := remove_file io p c in
    (match r with
     | Ok true => Ok tt
     | Ok false => Err "unlinking chunk failed - ENOENT"
     | Err e => Err e
     | Panic e => Panic e
     end, (c, lru)).

Definition sweep_entry (cache : bool) (oldest_writer min_atime : Z) (p : file_path) (ext : ChunkExt)
    (lock : option string) (g : GarbageCollectionStatus)
    (lru : option (LruCache (list byte) unit)) (w : World)
    : res unit * (GarbageCollectionStatus * option (LruCache (list byte) unit) * World) :=
  let '(io, w) := next_event w in
  match w_chunks w !! p with
  | None => (Ok tt, (g, lru, w))
  | Some e =>
      if negb (bool_decide (e_kind e = KFile)) then (Ok tt, (g, lru, w)) else
      if bool_decide (ext = ExtUsedMarker) then
        match io with
        | Some e => (Err e, (g, lru, w))
        | None => (Ok tt, (g, lru, set_chunks (delete p (w_chunks w)) w))
        end
      else
        let bad := bool_decide (ext = ExtBad) in
        let '(r, (g, (c, lru))) :=
          cond_sweep_chunk (e_atime e) min_atime oldest_writer (e_size e) bad
            (sweep_remove io lock cache p bad) g (w_chunks w, lru) in
        (r, (g, lru, set_chunks c w))
  end.

Fixpoint sweep_unused_chunks (cache : bool) (oldest_writer min_atime : Z)
    (items : list (res (file_path * ChunkExt))) (g : GarbageCollectionStatus)
    (lru : option (LruCache (list byte) unit)) (w : World)
    : res unit * (GarbageCollectionStatus * option (LruCache (list byte) unit) * World) :=
  match items with
  | [] => (Ok tt, (g, lru, w))
  | item :: items =>
      match call w with
      | (Ok _, w) =>
          match item with
          | Err e => (Err e, (g, lru, w))
          | Panic e => (Panic e, (g, lru, w))
          | Ok (p, ext) =>
              let '(lock, w) := next_event w in
              match sweep_entry cache oldest_writer min_atime p ext lock g lru w with
              | (Ok _, (g, lru, w)) =>
                  sweep_unused_chunks cache oldest_writer min_atime items g lru w
              | r => r
              end
          end
      | (Err e, w) => (Err e, (g, lru, w))
      | (Panic e, w) => (Panic e, (g, lru, w))
      end
  end.

(** ** The whole run *)
Record GcConfig := {
  gc_atime_safety_check : option bool; gc_atime_cutoff : option Z; gc_cache_capacity : option Z;
}.

Definition insert_io_of (e : option string) : InsertIo :=
  {| ii_metadata := true; ii_read := e; ii_touch := e; ii_replace := e; ii_fsync := e |}.
Definition metadata_atime (p : file_path) (w : World) : res Z * World :=
  let! _, w := call w in
  match w_chunks w !! p with
  | Some e => (Ok (e_atime e), w)
  | None => (Err "failed to get metadata", w)
  end.

(** The chunk of the test; the program calls it with a size of [4096 * 1024]. *)
Definition test_chunk (chunk_size : nat) : res (DataBlob * digest) :=
  build_zero_chunk P (Err "no iv") None chunk_size true.
(** One attempt of [check_fs_atime_updates]: the access times before and after the update. *)
Definition measure_atime (chunk : res (DataBlob * digest)) (sync : bool) (w : World)
    : res (Z * Z) * World :=
  try! (zero_chunk, d) := chunk for w in
  let p := chunk_path X d in
  let! _, w :=
    locked (fun now io c => insert_chunk_nolock X now (insert_io_of io) sync zero_chunk d c) w in
  let w := set_clock (w_clock w + 1) w in
  let! before, w := metadata_atime p w in
  let! _, w := locked (fun now io c => cond_touch_path now io p true c) w in
  let! after, w := metadata_atime p w in
  (Ok (before, after), w).
(** [changed] tells for each attempt whether the inode changed between the two reads. *)
Definition check_fs_atime_updates (chunk_size : nat) (sync : bool) (changed changed_again : bool) (w : World)
    : res unit * World :=
  let! times, w := measure_atime (test_chunk chunk_size) sync w in
  let! times, w := (if changed then
                      let! times, w := measure_atime (test_chunk chunk_size) sync w in
                      if changed_again
                      then (Err "chunk changed twice during access time safety check", w)
                      else (Ok times, w)
                    else (Ok times, w)) in
  if times.2 <=? times.1 then (Err "access time safety check failed, aborting GC!", w)
  else (Ok tt, w).

Definition gc_min_atime (conf : GcConfig) (phase1_start_time oldest_writer : Z) : Z :=
  let cutoff := match gc_atime_cutoff conf with
                | Some cutoff => u64 (cutoff * 60)
                | None => 3600 * 24 + 300
                end in
  let min_atime := i64 (phase1_start_time - i64 cutoff) in
  if oldest_writer <? min_atime then i64 (oldest_writer - 300) else min_atime.

(** [garbage_collection_impl] on the file system backend.  [conf] is the outcome of reading the
    configuration, [oldest] the start of the oldest writer that holds a shared lock. *)
Definition garbage_collection_impl (chunk_size : nat) (conf : res GcConfig) (oldest : option Z) (sync : bool)
    (changed changed_again : bool) (walk : World -> list walk_entry) (groups : list (res Group))
    (dirs : list subdir) (w : World) : res GarbageCollectionStatus * World :=
  try! conf := conf for w in
  let! _, w := call w in
  let phase1_start_time := w_clock w in
  let oldest_writer := default phase1_start_time oldest in
  let! _, w := (if default true (gc_atime_safety_check conf)
                then check_fs_atime_updates chunk_size sync changed changed_again w else (Ok tt, w)) in
  let min_atime := gc_min_atime conf phase1_start_time oldest_writer in
  let! _, w := call w in
  match mark_used_chunks false (default (1024 * 1024) (gc_cache_capacity conf)) walk groups
          gc_status_default w with
  | (Err e, s) => (Err e, gc_world s)
  | (Panic e, s) => (Panic e, gc_world s)
  | (Ok _, s) =>
      let! _, w := call (gc_world s) in
      if w_clock w <? phase1_start_time then (Err "Unexpected system time drift detected", w) else
      let '(r, (g, _, w)) :=
        sweep_unused_chunks false oldest_writer min_atime (get_chunk_store_iterator dirs)
          (gc_status s) None w in
      (let? _ := r in Ok g, w)
  end.

(** [garbage_collection]: [mutex] is what [gc_mutex] holds if it can be locked, [exclusive] the
    outcome of locking the chunk store for this process. *)
Definition garbage_collection (mutex : option bool) (exclusive : res unit)
    (run : World -> res GarbageCollectionStatus * World) (w : World)
    : res GarbageCollectionStatus * World :=
  match mutex with
  | None => (Err "Start GC failed - (already running/locked)", w)
  | Some held =>
      try! _ := exclusive for w in
      if held then (Err "Obtained exclusive lock on datastore twice", w) else run w
  end.
End gc.
