(* ===== verification/GarbageCollectionSpec.v ===== *)
(** * Garbage collection: what it keeps

    The main theorem is about one chunk and one index file that refers to it.  Backups, prune jobs,
    verification and moves act between the steps of the collection, in any way that leaves
    that index file in the datastore ([harmless]); it may be moved from place to place, by the
    protocol of the move journal.  Then a run, however it ends, does not remove the chunk.  A second
    theorem is about chunks without any index file, those of running backups. *)

From S2P Require Import Prelude IndexFile FixedIndex FixedIndexSpec DynamicIndex LruCache.
From S2P Require Import DataBlob Manifest Prune ChunkStore ChunkStoreSpec GarbageCollection.
From Stdlib Require Import Strings.Byte.

(** ** Interference *)
Definition in_snapshot (g : Group) (t : Z) (p : path) : bool :=
  match p with InSnap g' t' _ => bool_decide (g' = g) && (t' =? t) | Elsewhere _ _ => false end.
Definition relocate (g' : Group) (p : path) : path :=
  match p with InSnap _ t f => InSnap g' t f | Elsewhere _ _ => p end.

(** What others may do while the index file is at one of [places]: they do not remove or replace
    what is there, and a move from one of these places goes to one of them. *)
Definition harmless (places : list path) (d : digest) (a : action) : bool :=
  match a with
  | ATick n => 0 <=? n
  | ARenameCorrupt _ d' => bool_decide (length d' = 32%nat) && negb (bool_decide (d' = d))
  | APut p _ | ARemove p => negb (bool_decide (p ∈ places))
  | ARmSnap g t => negb (existsb (in_snapshot g t) places)
  | ARecordMove g g' t =>
      forallb (fun q => negb (in_snapshot g t q) || bool_decide (relocate g' q ∈ places)) places
  | _ => true
  end.

(** The place to which a move under way takes the file at [q]. *)
Definition moves_to (w : World) (q q' : path) : Prop :=
  exists g g' t, (g, g', t) ∈ w_moves w /\ in_snapshot g t q = true /\ q' = relocate g' q.
(** No two moves under way share a group. *)
Definition move_locks (w : World) : Prop :=
  forall m1 m2 g, m1 ∈ w_moves w -> m2 ∈ w_moves w ->
    involves m1 g = true -> involves m2 g = true -> m1 = m2.

(** Inserting into the cache of digests: a hit was there, and only the new digest enters. *)
Lemma lru_insert (c : LruCache (list byte) unit) l k r c' u :
  LruSpec.lru_repr c l -> Lru.insert k tt (fun _ e => (Ok tt, e)) c tt = (r, (c', u)) ->
  exists l' b, LruSpec.lru_repr c' l' /\ r = Ok b /\ (b = true -> k ∈ l.*2.*1) /\
    forall x, x ∈ l'.*2.*1 -> x = k \/ x ∈ l.*2.*1.
Proof.
  intros Hr Hi. apply (LruSpec.insert_refines _ _ l) in Hi as (l' & Hr' & _ & Ha); [|done].
  exists l'. revert Ha. unfold Abs.insert, Abs.without, Abs.shrink.
  destruct (Abs.find k l.*2) as [v|] eqn:Hf.
  - intros [= <- Hl]. exists true. split_and!; [done|done| |].
    + intros _. revert Hf. clear. induction (l.*2) as [|[k' v'] t IH]; cbn; [done|].
      case_decide; [subst; intros _; set_solver|]. intros Hf. apply IH in Hf. set_solver.
    + rewrite <- Hl. cbn [fmap list_fmap fst]. intros x [->|Hx]%elem_of_cons; [by left|right].
      apply list_elem_of_fmap in Hx as (e & -> & He). apply list_elem_of_filter in He as [_ He].
      apply list_elem_of_fmap. by exists e.
  - intros Ha. exists false.
    assert (r = Ok false /\ forall x, x ∈ l'.*2 -> x ∈ (k, tt) :: l.*2) as [-> Hsub].
    { destruct (_ <? _).
      - destruct (last _) as [[]|]; injection Ha as <- <-; (split; [done|]); [|done].
        intros x (i & Hx & _)%elem_of_take. by eapply list_elem_of_lookup_2.
      - injection Ha as <- <-. done. }
    split_and!; [done|done|done|]. intros x (e & -> & He)%list_elem_of_fmap.
    apply Hsub, elem_of_cons in He as [->|He]; [by left|right]. apply list_elem_of_fmap. by exists e.
Qed.

(** The age below which chunks are removed, for times and cutoffs far from the limits of [i64]. *)
Definition sane_conf (conf : res GcConfig) : Prop :=
  match conf with Ok c => 0 <= default 0 (gc_atime_cutoff c) < 2 ^ 40 | _ => True end.
Lemma gc_min_atime_le conf start ow :
  sane_conf (Ok conf) -> 0 <= start < 2 ^ 62 -> 0 <= ow < 2 ^ 62 ->
  gc_min_atime conf start ow <= start /\ gc_min_atime conf start ow <= ow.
Proof.
  cbn [sane_conf]. intros Hc Hs Ho. unfold gc_min_atime.
  set (cutoff := match gc_atime_cutoff conf with Some c => u64 (c * 60) | None => 3600 * 24 + 300 end).
  assert (0 <= cutoff < 2 ^ 50) as Hcut.
  { subst cutoff. destruct (gc_atime_cutoff conf) as [c|]; [|lia]. cbn in Hc.
    rewrite u64_small; unfold in_u64, U64_MAX; lia. }
  rewrite (i64_small cutoff) by (unfold in_i64; lia).
  rewrite (i64_small (start - cutoff)) by (unfold in_i64; lia).
  case_if; zify_bool; [|lia]. rewrite i64_small by (unfold in_i64; lia). lia.
Qed.

Module GcSteps.
Section steps.
Context (X : Hex) `{HX : HexLaws X}.
Variable archive_type : string -> option ArchiveType.
Variables (places : list path) (p0 : path) (file0 : File) (d : digest).
Hypothesis Hd : length d = 32%nat.
Hypothesis Hplace : p0 ∈ places.
Hypothesis Hp0 : forall g t q,
  q ∈ places -> in_snapshot g t q = true -> is_index_file archive_type (file_name p0) = true.
Abbreviation apply_action := (apply_action X archive_type).
Abbreviation apply_actions := (apply_actions X archive_type).
Abbreviation next_event := (next_event X archive_type).
Abbreviation ok_action := (harmless places d).

Definition calm (w : World) : Prop :=
  Forall (fun ev => forallb ok_action (ev_actions ev) = true) (w_schedule w).

(** The index file is at a place [q] recorded in [ps], and a move of it that is under way was
    recorded behind that.  Before the collection drains the journal, [ps] is the journal. *)
Definition reach (ps : list path) (w : World) : Prop :=
  exists l1 q l2, ps = l1 ++ q :: l2 /\ q ∈ places /\ file_name q = file_name p0 /\
    lookup_file q w = Some file0 /\ forall q', moves_to w q q' -> q' ∈ l2 /\ q' ∈ places.
Definition at_new (w : World) : Prop := reach (w_journal w) w.
Definition at_old (w : World) : Prop :=
  lookup_file p0 w = Some file0 /\ forall q', moves_to w p0 q' -> q' ∈ w_journal w /\ q' ∈ places.

(** The chunk does not disappear, and does not become older. *)
Definition ages (w w' : World) : Prop :=
  w_clock w <= w_clock w' /\
  forall e, w_chunks w !! chunk_path X d = Some e -> exists e',
    w_chunks w' !! chunk_path X d = Some e' /\ (e_atime e <= e_atime e' \/ w_clock w <= e_atime e').

Record rely (w w' : World) : Prop := {
  rely_ages : ages w w';
  rely_locks : move_locks w -> move_locks w';
  rely_new : move_locks w -> at_new w -> at_new w';
  rely_old : move_locks w -> at_old w -> at_old w' \/ at_new w';
  rely_locked : w_journal_locked w = true -> w_journal_locked w' = true;
  rely_reach ps : move_locks w -> w_journal_locked w = true -> reach ps w -> reach ps w';
}.

Lemma ages_refl w : ages w w.
Proof. split; [lia|]. intros e He. exists e. split; [done|lia]. Qed.
Lemma ages_trans w1 w2 w3 : ages w1 w2 -> ages w2 w3 -> ages w1 w3.
Proof.
  intros [Hc1 H1] [Hc2 H2]. split; [lia|]. intros e He. destruct (H1 e He) as (e2 & He2 & Ht2).
  destruct (H2 e2 He2) as (e3 & He3 & Ht3). exists e3. split; [done|lia].
Qed.
Lemma rely_refl w : rely w w.
Proof. split; auto using ages_refl. Qed.
Lemma rely_trans w1 w2 w3 : rely w1 w2 -> rely w2 w3 -> rely w1 w3.
Proof.
  intros [A1 J1 N1 O1 L1 R1] [A2 J2 N2 O2 L2 R2]. split; [by eapply ages_trans|auto|auto| |auto|auto].
  intros Hj Ho. destruct (O1 Hj Ho); auto.
Qed.

(** A step that leaves the places, the journal and the moves alone. *)
Lemma rely_lookup w w' :
  ages w w' -> (forall q, q ∈ places -> lookup_file q w' = lookup_file q w) ->
  w_journal w' = w_journal w -> w_journal_locked w' = w_journal_locked w -> w_moves w' = w_moves w ->
  rely w w'.
Proof using Hplace.
  intros Ha Hl Hj Hb Hm.
  assert (forall ps, reach ps w -> reach ps w') as Hr.
  { intros ps (l1 & q & l2 & -> & Hq & Hf & Hw & Hmv). exists l1, q, l2. unfold moves_to.
    rewrite Hl, Hm by done. split_and!; [done..|exact Hmv]. }
  split; [done|..]; unfold move_locks, at_new, at_old, moves_to; rewrite ?Hj, ?Hb, ?Hm, ?Hl by done; auto.
Qed.

Lemma ages_grows w c :
  Growth.grows (w_clock w) (w_chunks w) c -> ages w (set_chunks c w).
Proof.
  intros Hg. split; [done|]. intros e He. destruct (Hg _ _ He) as (e' & He' & Ht).
  exists e'. split; [done|]. lia.
Qed.
Lemma rely_chunks w c : Growth.grows (w_clock w) (w_chunks w) c -> rely w (set_chunks c w).
Proof. intros Hg. by apply rely_lookup; [apply ages_grows|intros []|..]. Qed.

Lemma ages_rename io d' w :
  length d' = 32%nat -> d' <> d ->
  ages w (set_chunks (rename_corrupt_chunk X io d' (w_chunks w)).2 w).
Proof.
  intros Hd' Hne. split; [done|]. intros e He. exists e. split; [|lia].
  cbn [set_chunks w_chunks]. unfold rename_corrupt_chunk.
  destruct (next_bad_chunk_path X d' (w_chunks w)) as [np n] eqn:Hn.
  assert (exists i, np = bad_chunk_path X d' i) as [i ->].
  { revert Hn. unfold next_bad_chunk_path. generalize 10%nat, 0. intros k.
    induction k as [|k IH]; intros i; cbn [next_bad_loop]; [intros [= <- <-]; eauto|].
    case_if; [apply IH|]. intros [= <- <-]; eauto. }
  destruct io; [done|]. destruct (w_chunks w !! chunk_path X d') as [e'|] eqn:He'; [|done].
  cbn [snd]. rewrite lookup_insert_ne by by apply Names.bad_path_ne.
  rewrite lookup_delete_ne; [done|]. intros Heq. apply Hne. by apply Names.chunk_path_inj in Heq.
Qed.

Lemma ages_same w w' : w_clock w' = w_clock w -> w_chunks w' = w_chunks w -> ages w w'.
Proof. intros Hc Hs. split; [lia|]. intros e He. exists e. rewrite Hs. split; [done|lia]. Qed.

Lemma lookup_put p f q w : q <> p -> lookup_file q (put_file p f w) = lookup_file q w.
Proof.
  intros Hne. destruct p as [g t n|dir n]; cbn [put_file].
  - destruct (w_snaps w !! (g, t)) as [fs|] eqn:Hs; [|done].
    destruct q as [g' t' n'|dir n']; [|done]. cbn [lookup_file set_files w_snaps].
    destruct (decide ((g', t') = (g, t))) as [Heq|Hne'].
    + injection Heq as -> ->. rewrite lookup_insert_eq, Hs. rewrite lookup_insert_ne; [done|congruence].
    + by rewrite lookup_insert_ne.
  - destruct q as [g' t' n'|dir' n']; [done|]. cbn [lookup_file set_files w_other].
    rewrite lookup_insert_ne; [done|congruence].
Qed.

Lemma lookup_remove p q w : q <> p -> lookup_file q (remove_index p w) = lookup_file q w.
Proof.
  intros Hne. destruct p as [g t n|dir n]; cbn [remove_index].
  - destruct (w_snaps w !! (g, t)) as [fs|] eqn:Hs; [|done].
    destruct q as [g' t' n'|dir n']; [|done]. cbn [lookup_file set_files w_snaps].
    destruct (decide ((g', t') = (g, t))) as [Heq|Hne'].
    + injection Heq as -> ->. rewrite lookup_insert_eq, Hs. rewrite lookup_delete_ne; [done|congruence].
    + by rewrite lookup_insert_ne.
  - destruct q as [g' t' n'|dir' n']; [done|]. cbn [lookup_file set_files w_other].
    rewrite lookup_delete_ne; [done|congruence].
Qed.

(** The lookup of a file depends on its snapshot only. *)
Lemma lookup_same_snap q w w' :
  (forall g t, in_snapshot g t q = true -> w_snaps w' !! (g, t) = w_snaps w !! (g, t)) ->
  w_other w' = w_other w -> lookup_file q w' = lookup_file q w.
Proof.
  intros Hs Ho. destruct q as [g t f|dir f]; cbn [lookup_file]; [|by rewrite Ho].
  rewrite (Hs g t); [done|]. cbn. by rewrite bool_decide_true, Z.eqb_refl.
Qed.

Lemma in_snapshot_eq g t g' t' q :
  in_snapshot g t q = true -> in_snapshot g' t' q = false -> (g, t) <> (g', t').
Proof. intros H1 H2 [= -> ->]. congruence. Qed.

Lemma put_file_frame p f w :
  w_clock (put_file p f w) = w_clock w /\ w_chunks (put_file p f w) = w_chunks w /\
  w_journal (put_file p f w) = w_journal w /\
  w_journal_locked (put_file p f w) = w_journal_locked w /\ w_moves (put_file p f w) = w_moves w /\
  w_schedule (put_file p f w) = w_schedule w.
Proof. destruct p; cbn [put_file]; [case_match|]; done. Qed.
Lemma remove_index_frame p w :
  w_clock (remove_index p w) = w_clock w /\ w_chunks (remove_index p w) = w_chunks w /\
  w_journal (remove_index p w) = w_journal w /\
  w_journal_locked (remove_index p w) = w_journal_locked w /\
  w_moves (remove_index p w) = w_moves w /\
  w_schedule (remove_index p w) = w_schedule w.
Proof. destruct p; cbn [remove_index]; [case_match|]; done. Qed.

(** The rename of [move_to]: the file at [q] stays, or goes where the move takes it. *)
Lemma move_lookup g g' t fs q w :
  let w' := set_files ({[g']} ∪ w_groups w) (<[(g', t) := fs]> (delete (g, t) (w_snaps w)))
              (w_other w) w in
  w_snaps w !! (g, t) = Some fs -> w_snaps w !! (g', t) = None -> lookup_file q w = Some file0 ->
  lookup_file (if in_snapshot g t q then relocate g' q else q) w' = Some file0.
Proof using Type.
  intros w' Hs Hn Hq. destruct (in_snapshot g t q) eqn:Hi.
  - destruct q as [g2 t2 f|]; [|done]. cbn in Hi. zify_bool. subst g2 t2.
    cbn [relocate lookup_file w' set_files w_snaps] in *. rewrite Hs in Hq. by rewrite lookup_insert_eq.
  - rewrite <- Hq. apply lookup_same_snap; [|done]. intros g1 t1 H1. cbn [w' set_files w_snaps].
    rewrite lookup_insert_ne.
    + apply lookup_delete_ne. intros Heq. by apply (in_snapshot_eq _ _ _ _ _ H1 Hi).
    + intros [= <- <-]. destruct q as [g2 t2 f2|]; [|done]. cbn in H1. zify_bool. subst.
      cbn [lookup_file] in Hq. by rewrite Hn in Hq.
Qed.

(** After its move, a file is under no other move. *)
Lemma moved_free g g' t q w w' :
  move_locks w -> (g, g', t) ∈ w_moves w ->
  w_moves w' = filter (fun m => m <> (g, g', t)) (w_moves w) ->
  in_snapshot g t q = true -> forall q', ~ moves_to w' (relocate g' q) q'.
Proof using Type.
  intros Hl Hm Hw' Hi q' (h & h' & t' & Hin & Hi' & _). rewrite Hw' in Hin.
  apply list_elem_of_filter in Hin as [Hne Hin]. apply Hne.
  apply (Hl _ _ g' Hin Hm); unfold involves; cbn.
  - destruct q as [g2 t2 f|]; [|done]. cbn in Hi'. zify_bool. by rewrite bool_decide_true.
  - by rewrite (bool_decide_true (g' = g')), orb_true_r.
Qed.

Lemma moves_fewer w w' m q q' :
  w_moves w' = filter (fun x => x <> m) (w_moves w) -> moves_to w' q q' -> moves_to w q q'.
Proof using Type.
  intros Hw' (g & g' & t & Hin & Hi & ->). rewrite Hw' in Hin.
  apply list_elem_of_filter in Hin as [_ Hin]. by exists g, g', t.
Qed.

Lemma file_name_relocate g q : file_name (relocate g q) = file_name q.
Proof using Type. by destruct q. Qed.

(** A move under way ends: by its rename, or without one. *)
Lemma end_move_rely g g' t w w' :
  (g, g', t) ∈ w_moves w -> ages w w' -> w_journal w' = w_journal w ->
  w_journal_locked w' = w_journal_locked w ->
  w_moves w' = filter (fun m => m <> (g, g', t)) (w_moves w) ->
  (forall q, lookup_file q w = Some file0 -> lookup_file q w' = Some file0 \/
     in_snapshot g t q = true /\ lookup_file (relocate g' q) w' = Some file0) ->
  rely w w'.
Proof.
  intros Hm Ha Hj Hb Hw' Hl.
  assert (forall ps, move_locks w -> reach ps w -> reach ps w') as Hr.
  { intros ps Hlk (l1 & q & l2 & -> & Hq & Hf & Hw & Hmv). destruct (Hl q Hw) as [Hs|[Hi Hs]].
    - exists l1, q, l2. split_and!; [done..|]. intros q' Hq'. by eapply Hmv, moves_fewer.
    - destruct (Hmv (relocate g' q)) as [Hin Hp]; [by exists g, g', t|].
      apply list_elem_of_split in Hin as (l3 & l4 & ->).
      exists (l1 ++ q :: l3), (relocate g' q), l4. rewrite file_name_relocate, <- app_assoc.
      split_and!; [done..|]. intros q' Hq'. by eapply moved_free in Hq'. }
  split; [done| | | |by rewrite Hb|by auto].
  - intros Hlk m1 m2 h H1 H2. rewrite Hw' in H1, H2. apply list_elem_of_filter in H1 as [_ H1], H2 as [_ H2].
    by apply Hlk.
  - unfold at_new. rewrite Hj. auto.
  - intros Hlk [Ho Hmv]. destruct (Hl p0 Ho) as [Hs|[Hi Hs]].
    + left. split; [done|]. intros q' Hq'. rewrite Hj. by eapply Hmv, moves_fewer.
    + right. destruct (Hmv (relocate g' p0)) as [Hin Hp]; [by exists g, g', t|].
      unfold at_new, reach. rewrite Hj. apply list_elem_of_split in Hin as (l3 & l4 & ->).
      exists l3, (relocate g' p0), l4. rewrite file_name_relocate.
      split_and!; [done..|]. intros q' Hq'. by eapply moved_free in Hq'.
Qed.

Lemma move_rely io g g' t w : rely w (apply_action (AMoveSnap io g g' t) w).
Proof.
  cbn [GarbageCollection.apply_action]. case_bool_decide as Hm; [|apply rely_refl].
  cbn [set_moves w_snaps w_groups w_other].
  destruct io as [e|]; [|destruct (w_snaps w !! (g, t)) as [fs|] eqn:Hs;
    [destruct (w_snaps w !! (g', t)) eqn:Hn|]].
  3: { eapply end_move_rely; [exact Hm|by apply ages_same|done..|]. intros q Hq.
    pose proof (move_lookup g g' t fs q w Hs Hn Hq) as H.
    destruct (in_snapshot g t q) eqn:Hi; [right|left]; destruct q; done. }
  all: eapply end_move_rely; [exact Hm|by apply ages_same|done..|]; intros [] Hq; by left.
Qed.

(** [append_moved_indices] for a file in the snapshot that is about to move. *)
Lemma moved_index g g' t fs q w :
  w_snaps w !! (g, t) = Some fs -> q ∈ places -> in_snapshot g t q = true ->
  file_name q = file_name p0 -> lookup_file q w = Some file0 -> relocate g' q ∈ moved_indices archive_type g' t fs.
Proof using Hp0.
  intros Hs Hin Hi Hf Hq. pose proof (Hp0 _ _ _ Hin Hi) as Hidx.
  destruct q as [g2 t2 f|]; [|done]. cbn in *. zify_bool. subst g2 t2.
  rewrite Hs in Hq. apply list_elem_of_fmap. exists f. split; [done|].
  apply list_elem_of_filter. split; [apply Is_true_true; congruence|].
  apply elem_of_elements, elem_of_dom. by eexists.
Qed.

Lemma record_rely g g' t w :
  ok_action (ARecordMove g g' t) = true -> rely w (apply_action (ARecordMove g g' t) w).
Proof.
  cbn [harmless GarbageCollection.apply_action]. intros Hh. rewrite forallb_forall in Hh.
  destruct (w_journal_locked w) eqn:Hb; cbn [orb]; [apply rely_refl|].
  destruct (existsb _ (w_moves w)) eqn:Hex; [apply rely_refl|].
  destruct (w_snaps w !! (g, t)) as [fs|] eqn:Hs; [|apply rely_refl].
  set (w' := set_moves _ _).
  assert (forall q q', moves_to w' q q' -> q ∈ places -> file_name q = file_name p0 ->
    lookup_file q w = Some file0 ->
    (q' ∈ moved_indices archive_type g' t fs /\ q' ∈ places) \/ moves_to w q q') as Hcase.
  { intros q q' (h & h' & t' & Hin & Hi & ->) Hq Hf Hl. cbn [w' set_moves w_moves] in Hin.
    apply elem_of_cons in Hin as [[= -> -> ->]|Hin]; [|right; by exists h, h', t'].
    left. split; [by eapply moved_index|]. specialize (Hh q). rewrite Hi in Hh.
    eapply bool_decide_eq_true, Hh. by apply list_elem_of_In. }
  assert (forall q, lookup_file q w' = lookup_file q w) as Hl by by intros [].
  split; [by apply ages_same| | | |by rewrite Hb|by rewrite Hb].
  - intros Hlk m1 m2 h H1 H2. cbn [w' set_moves w_moves] in H1, H2.
    assert (forall m, m ∈ w_moves w -> involves m h = true -> involves (g, g', t) h = true -> False) as Hfree.
    { intros m Hm Hmh Ho. apply not_true_iff_false in Hex. apply Hex, existsb_exists.
      exists m. split; [by apply list_elem_of_In|]. apply orb_true_iff.
      apply orb_true_iff in Ho as [Ho%bool_decide_eq_true|Ho%bool_decide_eq_true]; cbn in Ho; subst h; auto. }
    apply elem_of_cons in H1 as [->|H1], H2 as [->|H2]; intros; [done|exfalso; eauto..|by eapply Hlk].
  - intros _ (l1 & q & l2 & Hj & Hq & Hf & Hw & Hmv). unfold at_new.
    exists l1, q, (l2 ++ moved_indices archive_type g' t fs). cbn [w' set_moves set_journal w_journal].
    rewrite Hj, <- app_assoc, Hl. split_and!; [done..|]. intros q' Hq'.
    destruct (Hcase _ _ Hq' Hq Hf Hw) as [[? ?]|Hq2]; [|destruct (Hmv _ Hq2)]; rewrite elem_of_app; auto.
  - intros _ [Ho Hmv]. left. split; [by rewrite Hl|]. intros q' Hq'.
    cbn [w' set_moves set_journal w_journal].
    destruct (Hcase _ _ Hq' Hplace eq_refl Ho) as [[? ?]|Hq2]; [|destruct (Hmv _ Hq2)];
      rewrite elem_of_app; auto.
Qed.

Lemma apply_action_rely a w : ok_action a = true -> rely w (apply_action a w).
Proof.
  intros Hh. destruct a as [n|io sync chunk d'|io d'|io d'|p f|p|g t|g t|g|ps|g g' t|io g g' t].
  11: by apply record_rely.
  11: apply move_rely.
  all: cbn [GarbageCollection.apply_action].
  - cbn in Hh. zify_bool. apply rely_lookup; [|by intros []|done..]. split; [cbn; lia|].
    intros e He. exists e. split; [done|lia].
  - apply rely_chunks. by eapply Growth.insert_grows, surjective_pairing.
  - apply rely_chunks. by eapply Growth.touch_path_grows, surjective_pairing.
  - cbn in Hh. zify_bool. apply rely_lookup; [by apply ages_rename|by intros []|done..].
  - cbn in Hh. zify_bool. pose proof (put_file_frame p f w) as (? & ? & ? & ? & ? & ?).
    apply rely_lookup; [by apply ages_same| |done..]. intros q Hq. apply lookup_put. by intros ->.
  - cbn in Hh. zify_bool. pose proof (remove_index_frame p w) as (? & ? & ? & ? & ? & ?).
    apply rely_lookup; [by apply ages_same| |done..]. intros q Hq. apply lookup_remove. by intros ->.
  - destruct (w_snaps w !! (g, t)) eqn:Hs; [apply rely_refl|].
    apply rely_lookup; [by apply ages_same| |done..].
    intros [g' t' f|dir f] _; [|done]. cbn [lookup_file set_files w_snaps].
    destruct (decide ((g', t') = (g, t))) as [Heq|Hne]; [|by rewrite lookup_insert_ne].
    injection Heq as -> ->. by rewrite lookup_insert_eq, Hs, lookup_empty.
  - cbn in Hh. apply negb_true_iff, not_true_iff_false in Hh.
    apply rely_lookup; [by apply ages_same| |done..]. intros q Hq.
    apply lookup_same_snap; [|done]. intros g' t' H'. cbn [set_files w_snaps]. apply lookup_delete_ne.
    intros [= <- <-]. apply Hh, existsb_exists. exists q. split; [by apply list_elem_of_In|done].
  - by apply rely_lookup; [apply ages_same|intros []|..].
  - destruct (w_journal_locked w) eqn:Hb; [apply rely_refl|].
    split; [by apply ages_same|done| | |by rewrite Hb|by rewrite Hb].
    + intros _ (l1 & q & l2 & Hj & Hq & Hf & Hw & Hmv). exists l1, q, (l2 ++ ps).
      cbn [set_journal w_journal]. rewrite Hj, <- app_assoc. split_and!; [done..|by destruct q|].
      intros q' Hq'. destruct (Hmv q' Hq'). rewrite elem_of_app. auto.
    + intros _ [Ho Hmv]. left. split; [by destruct p0|]. intros q' Hq'. destruct (Hmv q' Hq').
      cbn [set_journal w_journal]. rewrite elem_of_app. auto.
Qed.

Lemma apply_action_schedule a w : w_schedule (apply_action a w) = w_schedule w.
Proof.
  destruct a; cbn [GarbageCollection.apply_action]; try done;
    try (by apply put_file_frame); try (by apply remove_index_frame); repeat case_match; done.
Qed.

(** ** Steps of the collection *)
Definition step_ok (w w' : World) : Prop := calm w -> calm w' /\ rely w w'.

Lemma step_refl w : step_ok w w.
Proof. intros Hc. split; [done|apply rely_refl]. Qed.
Lemma step_trans w1 w2 w3 : step_ok w1 w2 -> step_ok w2 w3 -> step_ok w1 w3.
Proof.
  intros H12 H23 H1. destruct (H12 H1) as [H2 R12]. destruct (H23 H2) as [H3 R23].
  split; [done|by eapply rely_trans].
Qed.

Lemma apply_actions_rely l w :
  forallb ok_action l = true ->
  rely w (apply_actions l w) /\ w_schedule (apply_actions l w) = w_schedule w.
Proof.
  unfold GarbageCollection.apply_actions. revert w.
  induction l as [|a l IH]; intros w Hl; cbn [foldl forallb] in *; [split; [apply rely_refl|done]|].
  apply andb_true_iff in Hl as [Ha Hl]. destruct (IH (apply_action a w) Hl) as [Hr Hs]. split.
  - eapply rely_trans; [by apply apply_action_rely|done].
  - by rewrite Hs, apply_action_schedule.
Qed.

Lemma next_event_step w io w' : next_event w = (io, w') -> step_ok w w'.
Proof.
  unfold GarbageCollection.next_event. intros H Hc. destruct (w_schedule w) as [|ev l] eqn:Hs.
  { injection H as <- <-. by apply step_refl. }
  injection H as <- <-. unfold calm in Hc. rewrite Hs in Hc. apply Forall_cons in Hc as [He Hl].
  destruct (apply_actions_rely _ (set_schedule l w) He) as [Hr Hsch]. split.
  { unfold calm. by rewrite Hsch. }
  eapply rely_trans; [|done]. by apply rely_lookup; [apply ages_same|intros []|..].
Qed.

Lemma call_step w r w' : call X archive_type w = (r, w') -> step_ok w w'.
Proof.
  unfold call. destruct (next_event w) as [[e|] w1] eqn:He; intros [= <- <-]; by eapply next_event_step.
Qed.

Lemma locked_step {A} (f : Z -> option string -> store -> res A * store) w r w' :
  (forall now io c r c', f now io c = (r, c') -> Growth.grows now c c') ->
  locked X archive_type f w = (r, w') -> step_ok w w'.
Proof.
  intros Hf. unfold locked. destruct (next_event w) as [io w1] eqn:He.
  destruct (f (w_clock w1) io (w_chunks w1)) as [r1 c1] eqn:Ef. intros [= <- <-].
  eapply step_trans; [by eapply next_event_step|]. intros Hc. split; [done|].
  apply rely_chunks. by eapply Hf.
Qed.

(** ** Marking *)
Definition has_chunk (w : World) : Prop := is_Some (w_chunks w !! chunk_path X d).
Definition marked (m : Z) (w : World) : Prop :=
  exists e, w_chunks w !! chunk_path X d = Some e /\ m <= e_atime e.

Lemma ages_has w w' : ages w w' -> has_chunk w -> has_chunk w'.
Proof. intros [_ Ha] [e He]. destruct (Ha e He) as (e' & He' & _). by exists e'. Qed.
Lemma ages_marked m w w' : ages w w' -> m <= w_clock w -> marked m w -> marked m w'.
Proof.
  intros [_ Ha] Hm (e & He & Ht). destruct (Ha e He) as (e' & He' & Ht'). exists e'.
  split; [done|lia].
Qed.

(** The cache of digests has the chunk only after it was marked. *)
Definition lru_ok (m : Z) (s : Gc) : Prop :=
  match gc_lru s with
  | None => True
  | Some c => exists l, LruSpec.lru_repr c l /\ (d ∈ l.*2.*1 -> marked m (gc_world s))
  end.

Record safe (m : Z) (s : Gc) : Prop := {
  safe_calm : calm (gc_world s);
  safe_clock : m <= w_clock (gc_world s);
  safe_has : has_chunk (gc_world s);
}.
Record trans (m : Z) (s s' : Gc) : Prop := {
  trans_safe : safe m s';
  trans_rely : rely (gc_world s) (gc_world s');
  trans_unprocessed : gc_unprocessed s' = gc_unprocessed s;
}.

Lemma trans_refl m s : safe m s -> trans m s s.
Proof. intros Hs. split; [done|apply rely_refl|done]. Qed.
Lemma trans_trans m s1 s2 s3 : trans m s1 s2 -> trans m s2 s3 -> trans m s1 s3.
Proof.
  intros [_ R12 U12] [S3 R23 U23]. split; [done|by eapply rely_trans|congruence].
Qed.
Lemma trans_marked m s s' :
  safe m s -> trans m s s' -> marked m (gc_world s) -> marked m (gc_world s').
Proof. intros Hs [_ Hr _]. pose proof (rely_ages _ _ Hr) as Ha. eapply ages_marked; [done|apply Hs]. Qed.

Lemma with_world_trans m s w : safe m s -> step_ok (gc_world s) w -> trans m s (with_world w s).
Proof.
  intros [Hc Hm Hh] Hst. destruct (Hst Hc) as [Hc' Hr]. pose proof (rely_ages _ _ Hr) as Ha.
  split; [|done|done]. split; [done|destruct Ha; cbn; lia|by eapply ages_has].
Qed.

Lemma lru_ok_world m s w :
  safe m s -> step_ok (gc_world s) w -> lru_ok m s -> lru_ok m (with_world w s).
Proof.
  intros [Hc Hm _] Hst Hl. destruct (Hst Hc) as [_ Hr]. unfold lru_ok in *.
  cbn [with_world gc_lru gc_world]. destruct (gc_lru s) as [c|]; [|done].
  destruct Hl as (l & Hl & Hk). exists l. split; [done|]. intros Hin.
  eapply ages_marked; [apply Hr|done|by apply Hk].
Qed.

Lemma on_world_trans {A} m (f : World -> res A * World) s r s' :
  (forall w r w', f w = (r, w') -> step_ok w w') ->
  safe m s -> on_world f s = (r, s') -> trans m s s'.
Proof.
  intros Hf Hs. unfold on_world. destruct (f (gc_world s)) as [r1 w1] eqn:Ef. intros [= <- <-].
  apply with_world_trans; [done|by eapply Hf].
Qed.

Lemma touch_grows d' b now io c r c' :
  cond_touch_chunk X now io d' b c = (r, c') -> Growth.grows now c c'.
Proof. apply Growth.touch_path_grows. Qed.

(** Touching the chunk marks it. *)
Lemma touch_marks m s touched s' :
  safe m s ->
  on_world (locked X archive_type (fun now io c => cond_touch_chunk X now io d false c)) s
    = (Ok touched, s') ->
  touched = true /\ marked m (gc_world s').
Proof.
  intros Hs. unfold on_world, locked. destruct (next_event (gc_world s)) as [io w1] eqn:He.
  destruct (next_event_step _ _ _ He (safe_calm _ _ Hs)) as [_ Hr].
  pose proof (ages_has _ _ (rely_ages _ _ Hr) (safe_has _ _ Hs)) as [e Hl].
  pose proof (safe_clock _ _ Hs). destruct (rely_ages _ _ Hr) as [Hc _].
  unfold cond_touch_chunk, cond_touch_path. rewrite Hl. destruct io; intros [= <- <-].
  split; [done|]. exists (set_atime (w_clock w1) e). cbn [gc_world with_world set_chunks w_chunks].
  rewrite lookup_insert_eq. split; [done|]. cbn. lia.
Qed.

Lemma mark_chunk_trans m s3 d' s r s' :
  safe m s -> mark_chunk X archive_type s3 d' s = (r, s') ->
  trans m s s' /\ (d' = d -> r = Ok tt -> marked m (gc_world s')).
Proof.
  intros Hs. unfold mark_chunk.
  destruct (on_world _ s) as [r1 s1] eqn:E1.
  assert (trans m s s1) as T1.
  { eapply on_world_trans; [|done|exact E1]. intros *. apply locked_step. intros *. apply touch_grows. }
  destruct r1 as [touched| |]; [|intros [= <- <-]; done..].
  assert (d' = d -> touched = true /\ marked m (gc_world s1)) as Hmark
    by (intros ->; by eapply touch_marks).
  destruct touched; [intros [= <- <-]; split; [done|]; intros Heq _; by apply Hmark|].
  assert (d' <> d) as Hne by (intros Heq; by destruct (Hmark Heq)).
  destruct (on_world _ s1) as [r2 s2] eqn:E2.
  assert (trans m s1 s2) as T2.
  { eapply on_world_trans; [|apply T1|exact E2]. intros *. apply locked_step.
    intros *. apply Growth.touch_bad_grows. }
  pose proof (trans_trans _ _ _ _ T1 T2) as T12.
  destruct r2 as [is_bad| |]; [|intros [= <- <-]; by split..].
  destruct s3; [|intros [= <- <-]; by split].
  destruct (on_world _ s2) as [r3 s3] eqn:E3.
  assert (trans m s2 s3) as T3.
  { eapply on_world_trans; [|apply T2|exact E3]. intros *. apply call_step. }
  pose proof (trans_trans _ _ _ _ T12 T3) as T13.
  destruct r3; [|intros [= <- <-]; by split..].
  destruct (on_world _ s3) as [r4 s4] eqn:E4.
  assert (trans m s3 s4) as T4.
  { eapply on_world_trans; [|apply T3|exact E4]. intros *. apply locked_step. intros *. apply touch_grows. }
  pose proof (trans_trans _ _ _ _ T13 T4) as T14.
  destruct r4 as [touched| |]; [|intros [= <- <-]; by split..].
  case_if; [|intros [= <- <-]; by split]. intros E5. split; [|done].
  eapply trans_trans; [exact T14|]. eapply on_world_trans; [|apply T4|exact E5].
  intros *. apply locked_step. intros *. apply Growth.replace_file_grows.
Qed.


Lemma on_world_lru {A} (f : World -> res A * World) s r s' :
  on_world f s = (r, s') -> gc_lru s' = gc_lru s.
Proof. unfold on_world. destruct (f _). by intros [= <- <-]. Qed.

Lemma mark_chunk_lru s3 d' s r s' :
  mark_chunk X archive_type s3 d' s = (r, s') -> gc_lru s' = gc_lru s.
Proof.
  unfold mark_chunk. intros H.
  repeat (case_match; simplify_eq;
    try match goal with E : on_world _ _ = _ |- _ => apply on_world_lru in E end); congruence.
Qed.

Lemma mark_digest_trans m s3 d' s s' :
  safe m s -> lru_ok m s -> mark_digest X archive_type s3 d' s = (Ok tt, s') ->
  trans m s s' /\ lru_ok m s' /\ (d' = d -> marked m (gc_world s')).
Proof.
  intros Hs Hl. unfold mark_digest, lru_ok in *. destruct (gc_lru s) as [c|] eqn:Ec.
  2: { intros H. pose proof (mark_chunk_lru _ _ _ _ _ H) as Hlru.
    destruct (mark_chunk_trans m _ _ _ _ _ Hs H) as [T M]. rewrite Hlru, Ec. auto. }
  destruct Hl as (l & Hrepr & Hin).
  destruct (Lru.insert d' tt _ c tt) as [r [c' u]] eqn:Ei.
  destruct (lru_insert _ _ _ _ _ _ Hrepr Ei) as (l' & b & Hrepr' & -> & Hb & Hsub).
  destruct b.
  - intros [= <-]. split; [by split; [split; apply Hs|apply rely_refl|]|].
    cbn [with_status with_lru gc_lru gc_world]. split; [|intros ->; by apply Hin, Hb].
    exists l'. split; [done|]. intros Hx. apply Hin. destruct (Hsub d Hx) as [->|?]; [by apply Hb|done].
  - intros H. pose proof (mark_chunk_lru _ _ _ _ _ H) as Hlru.
    set (s1 := with_status _ _) in H. assert (safe m s1) as Hs1 by (split; apply Hs).
    destruct (mark_chunk_trans m _ _ _ _ _ Hs1 H) as [T M].
    rewrite Hlru. cbn [with_status with_lru gc_lru]. split; [by destruct T; split|].
    split; [|intros; by apply M]. exists l'. split; [done|]. intros Hx.
    destruct (Hsub d Hx) as [->|Hx']; [by apply M|].
    apply (trans_marked m s1); [done|done|]. by apply Hin.
Qed.

Lemma mark_loop_trans m s3 index n pos s s' :
  safe m s -> lru_ok m s -> mark_loop X archive_type s3 index n pos s = (Ok tt, s') ->
  trans m s s' /\ lru_ok m s' /\
  (forall i, pos <= i < pos + Z.of_nat n -> index_digest index i = Some d -> marked m (gc_world s')).
Proof.
  revert pos s. induction n as [|n IH]; intros pos s Hs Hl; cbn [mark_loop].
  { intros [= <-]. split_and!; [by apply trans_refl|done|lia]. }
  destruct (on_world _ s) as [r1 s1] eqn:E1.
  assert (trans m s s1) as T1.
  { eapply on_world_trans; [|done|exact E1]. intros *. apply call_step. }
  assert (lru_ok m s1) as L1.
  { revert E1. unfold on_world. destruct (call _ _ _) eqn:Ec. intros [= <- <-].
    apply lru_ok_world; [done| |done]. by eapply call_step. }
  destruct r1 as [[]| |]; [|done..]. destruct (index_digest index pos) as [d'|] eqn:Ed; [|done].
  cbn [unwrap]. destruct (mark_digest _ _ _ _ s1) as [r2 s2] eqn:E2. destruct r2 as [[]| |]; [|done..].
  destruct (mark_digest_trans m _ _ _ _ (trans_safe _ _ _ T1) L1 E2) as (T2 & L2 & M2).
  intros H. destruct (IH _ _ (trans_safe _ _ _ T2) L2 H) as (T3 & L3 & M3).
  split_and!; [eapply trans_trans; [exact T1|by eapply trans_trans]|done|].
  intros i Hi Hdi. destruct (decide (i = pos)) as [->|Hne]; [|apply (M3 i); [lia|done]].
  rewrite Ed in Hdi. injection Hdi as ->. apply (trans_marked m s2); [apply T2|done|by apply M2].
Qed.

Lemma index_mark_trans m s3 index s s' :
  safe m s -> lru_ok m s -> index_mark_used_chunks X archive_type s3 index s = (Ok tt, s') ->
  trans m s s' /\ lru_ok m s' /\
  (forall i, 0 <= i < index_count index -> index_digest index i = Some d -> marked m (gc_world s')).
Proof.
  intros Hs Hl. unfold index_mark_used_chunks. destruct (index_bytes index) as [n| |]; [|done..].
  intros H. apply (mark_loop_trans m) in H as (T & L & M); [|by split; apply Hs|done].
  split_and!; [by destruct T; split|done|]. intros i Hi. apply M. lia.
Qed.

(** ** The parameters of phase 1 *)
Variable map_addr : option Z.
Variable backup_file_regex : string -> bool.
Variable snapshot_path : Group -> Z -> string.
Variable time_string : Z -> string.
Variable sort_unstable_by_key : (BackupInfo -> Z) -> list BackupInfo -> list BackupInfo.
Abbreviation list_backups := (list_backups X archive_type backup_file_regex snapshot_path time_string).
Abbreviation process_files := (process_files X archive_type map_addr).
Abbreviation process_snapshots := (process_snapshots X archive_type map_addr).
Abbreviation process_group := (process_group X archive_type backup_file_regex snapshot_path
  time_string sort_unstable_by_key map_addr).
Abbreviation process_groups := (process_groups X archive_type backup_file_regex snapshot_path
  time_string sort_unstable_by_key map_addr).
Abbreviation mark_paths := (mark_paths X archive_type map_addr).
Abbreviation open_index_reader := (open_index_reader X archive_type map_addr).

Lemma open_reader_step p w r w' : open_index_reader p w = (r, w') -> step_ok w w'.
Proof.
  unfold GarbageCollection.open_index_reader. intros H.
  repeat (case_match; simplify_eq; try apply step_refl); by eapply call_step.
Qed.

Lemma read_snapshots_step g times acc w r w' :
  read_snapshots X archive_type backup_file_regex snapshot_path time_string g times acc w = (r, w') ->
  step_ok w w'.
Proof.
  revert acc w. induction times as [|t times IH]; intros acc w; cbn [read_snapshots].
  { intros [= <- <-]. apply step_refl. }
  destruct (call _ _ w) as [r1 w1] eqn:Ec. pose proof (call_step _ _ _ Ec) as S1.
  destruct r1; [|intros [= <- <-]; done..]. destruct (w_snaps w1 !! (g, t)); [|intros [= <- <-]; done].
  destruct (list_backup_files _ _ _). intros H. eapply step_trans; [done|by eapply IH].
Qed.
Lemma list_backups_step g w r w' : list_backups g w = (r, w') -> step_ok w w'.
Proof.
  unfold GarbageCollection.list_backups. destruct (call _ _ w) as [r1 w1] eqn:Ec.
  pose proof (call_step _ _ _ Ec) as S1. destruct r1; [|intros [= <- <-]; done..].
  case_if; [|intros [= <- <-]; done]. intros H. eapply step_trans; [done|by eapply read_snapshots_step].
Qed.

(** ** Sweeping *)
Lemma iterator_ext dirs q ext :
  Ok (q, ext) ∈ get_chunk_store_iterator dirs -> chunk_ext q.2 = Some ext.
Proof.
  induction dirs as [|[dir entries| |e] dirs IH]; cbn [get_chunk_store_iterator]; [set_solver| |done|].
  - induction entries as [|[name|e|e] entries IHe]; cbn [read_entries]; [done| |set_solver..].
    destruct (chunk_ext name) as [x|] eqn:Ex; [|done].
    intros [[= -> ->]|H]%elem_of_cons; [done|by apply IHe].
  - set_solver.
Qed.

Lemma sweep_entry_marked m ow min_atime q ext lock g lru w r g' lru' w' :
  calm w -> m <= w_clock w -> min_atime <= m -> chunk_ext q.2 = Some ext -> marked m w ->
  sweep_entry X archive_type false ow min_atime q ext lock g lru w = (r, (g', lru', w')) ->
  calm w' /\ m <= w_clock w' /\ marked m w'.
Proof.
  intros Hc Hm Hmin Hext HM. unfold sweep_entry. destruct (next_event w) as [io w1] eqn:He.
  destruct (next_event_step _ _ _ He Hc) as [C1 R1]. pose proof (rely_ages _ _ R1) as A1.
  pose proof (ages_marked _ _ _ A1 Hm HM) as M1. destruct A1 as [Hc1 _].
  assert (m <= w_clock w1) as Hm1 by lia.
  destruct (w_chunks w1 !! q) as [e|] eqn:Eq; [|by intros [= <- <- <- <-]].
  case_if; [by intros [= <- <- <- <-]|].
  assert (forall q', q' <> chunk_path X d -> marked m (set_chunks (delete q' (w_chunks w1)) w1)) as Hdel.
  { intros q' Hq'. destruct M1 as (e1 & He1 & Ht1). exists e1. split; [|done].
    cbn [set_chunks w_chunks]. by rewrite lookup_delete_ne. }
  assert (set_chunks (w_chunks w1) w1 = w1) as Hsame by by destruct w1.
  case_if; zify_bool.
  { subst ext. assert (q <> chunk_path X d) as Hne.
    { intros ->. pose proof (Names.chunk_names_classified X d 0 Hd ltac:(lia)) as [Hn _]. congruence. }
    destruct io; intros [= <- <- <- <-]; split_and!; auto. }
  unfold cond_sweep_chunk. destruct (e_atime e <? min_atime) eqn:Et.
  2: { case_if; intros [= <- <- <- <-]; rewrite Hsame; auto. }
  zify_bool. assert (q <> chunk_path X d) as Hne.
  { intros ->. destruct M1 as (e1 & He1 & Ht1). rewrite Eq in He1. injection He1 as <-. lia. }
  unfold sweep_remove, remove_file. cbn [andb]. rewrite Eq.
  destruct io; intros [= <- <- <- <-]; rewrite ?Hsame; auto.
Qed.

Lemma sweep_marked m ow min_atime items g lru w r g' lru' w' :
  calm w -> m <= w_clock w -> min_atime <= m -> marked m w ->
  (forall q ext, Ok (q, ext) ∈ items -> chunk_ext q.2 = Some ext) ->
  sweep_unused_chunks X archive_type false ow min_atime items g lru w = (r, (g', lru', w')) ->
  marked m w'.
Proof.
  revert g lru w. induction items as [|item items IH]; intros g lru w Hc Hm Hmin HM Hx;
    cbn [sweep_unused_chunks]; [by intros [= <- <- <- <-]|].
  destruct (call _ _ w) as [r1 w1] eqn:Ec. destruct (call_step _ _ _ Ec Hc) as [C1 R1].
  pose proof (ages_marked _ _ _ (rely_ages _ _ R1) Hm HM) as M1.
  destruct (rely_ages _ _ R1) as [Hc1 _].
  destruct r1; [|intros [= <- <- <- <-]; done..].
  destruct item as [[q ext]| |]; [|intros [= <- <- <- <-]; done..].
  destruct (next_event w1) as [lock w2] eqn:Ee. destruct (next_event_step _ _ _ Ee C1) as [C2 R2].
  pose proof (ages_marked m w1 w2 (rely_ages _ _ R2) ltac:(lia) M1) as M2.
  destruct (rely_ages _ _ R2) as [Hc2 _].
  destruct (sweep_entry _ _ _ _ _ _ _ _ _ _ w2) as [r3 [[g3 lru3] w3]] eqn:Es.
  apply (sweep_entry_marked m) in Es as (C3 & Hm3 & M3); [|done|lia|done|by apply Hx; set_solver|done].
  destruct r3; [|intros [= <- <- <- <-]; done..]. apply IH; try done. set_solver.
Qed.

(** ** Whatever the outcome is, phase 1 removes nothing *)
Definition tame (w w' : World) : Prop := calm w -> calm w' /\ ages w w'.
Lemma tame_step w w' : step_ok w w' -> tame w w'.
Proof. intros H Hc. destruct (H Hc) as [Hc' Hr]. split; [done|apply Hr]. Qed.
Lemma tame_refl w : tame w w.
Proof. apply tame_step, step_refl. Qed.
Lemma tame_trans w1 w2 w3 : tame w1 w2 -> tame w2 w3 -> tame w1 w3.
Proof.
  intros H12 H23 H1. destruct (H12 H1) as [H2 A12]. destruct (H23 H2) as [H3 A23].
  split; [done|by eapply ages_trans].
Qed.

Lemma on_world_tame {A} (f : World -> res A * World) s r s' :
  (forall w r w', f w = (r, w') -> step_ok w w') ->
  on_world f s = (r, s') -> tame (gc_world s) (gc_world s').
Proof.
  intros Hf. unfold on_world. destruct (f (gc_world s)) as [r1 w1] eqn:Ef. intros [= <- <-].
  by eapply tame_step, Hf.
Qed.

Lemma mark_chunk_tame s3 d' s r s' :
  mark_chunk X archive_type s3 d' s = (r, s') -> tame (gc_world s) (gc_world s').
Proof.
  unfold mark_chunk. intros H.
  repeat (case_match; simplify_eq; try match goal with
    | E : on_world (locked _ _ _) _ = (_, ?s1) |- tame _ _ =>
        eapply tame_trans; [eapply on_world_tame; [|exact E]; intros *; apply locked_step; intros *;
          first [apply touch_grows|apply Growth.touch_bad_grows|apply Growth.replace_file_grows]|clear E]
    | E : on_world (call _ _) _ = (_, ?s1) |- tame _ _ =>
        eapply tame_trans; [eapply on_world_tame; [|exact E]; intros *; apply call_step|clear E]
    end); try apply tame_refl.
Qed.

Lemma mark_loop_tame s3 index n pos s r s' :
  mark_loop X archive_type s3 index n pos s = (r, s') -> tame (gc_world s) (gc_world s').
Proof.
  revert pos s. induction n as [|n IH]; intros pos s; cbn [mark_loop].
  { intros [= <- <-]. apply tame_refl. }
  destruct (on_world _ s) as [r1 s1] eqn:E1. apply on_world_tame in E1 as T1; [|intros *; apply call_step].
  destruct r1; [|intros [= <- <-]; done..]. destruct (unwrap _) as [d'| |]; [|intros [= <- <-]; done..].
  destruct (mark_digest _ _ _ _ s1) as [r2 s2] eqn:E2.
  assert (tame (gc_world s1) (gc_world s2)) as T2.
  { revert E2. unfold mark_digest. destruct (gc_lru s1); [|apply mark_chunk_tame].
    destruct (Lru.insert _ _ _ _ _) as [[[]| |] [c' u]]; try (intros [= <- <-]; apply tame_refl).
    intros E2. by apply mark_chunk_tame in E2. }
  destruct r2; [|intros [= <- <-]; by eapply tame_trans..]. intros H.
  eapply tame_trans; [exact T1|]. eapply tame_trans; [exact T2|]. by eapply IH.
Qed.

Lemma index_mark_tame s3 index s r s' :
  index_mark_used_chunks X archive_type s3 index s = (r, s') -> tame (gc_world s) (gc_world s').
Proof.
  unfold index_mark_used_chunks. destruct (index_bytes index); [|intros [= <- <-]; apply tame_refl..].
  intros H. by apply mark_loop_tame in H.
Qed.

Lemma process_files_tame s3 g t first fs s r s' :
  process_files s3 g t first fs s = (r, s') -> tame (gc_world s) (gc_world s').
Proof.
  revert s. induction fs as [|f fs IH]; intros s; cbn [GarbageCollection.process_files].
  { intros [= <- <-]. apply tame_refl. }
  destruct (on_world _ s) as [r1 s1] eqn:E1. apply on_world_tame in E1 as T1; [|intros *; apply call_step].
  destruct r1; [|intros [= <- <-]; done..].
  case_if; [intros H; eapply tame_trans; [exact T1|by eapply IH]|].
  destruct (on_world _ s1) as [r2 s2] eqn:E2.
  apply on_world_tame in E2 as T2; [|intros *; apply open_reader_step].
  pose proof (tame_trans _ _ _ T1 T2) as T12. destruct r2 as [[index|]| |]; [..|intros [= <- <-]; done|intros [= <- <-]; done].
  - destruct (index_mark_used_chunks _ _ _ _ s2) as [r3 s4] eqn:E3. apply index_mark_tame in E3 as T3.
    destruct r3; [|intros [= <- <-]; by eapply tame_trans..]. intros H.
    eapply tame_trans; [exact T12|]. eapply tame_trans; [exact T3|]. by apply IH in H.
  - destruct first; [intros [= <- <-]; done|]. intros H. eapply tame_trans; [exact T12|]. by apply IH in H.
Qed.

Lemma process_snapshots_tame s3 g n l s r s' :
  process_snapshots s3 g n l s = (r, s') -> tame (gc_world s) (gc_world s').
Proof.
  revert n s. induction l as [|info l IH]; intros n s; cbn [GarbageCollection.process_snapshots].
  { intros [= <- <-]. apply tame_refl. }
  destruct (process_files _ _ _ _ _ s) as [[c1| |] s1] eqn:E1; apply process_files_tame in E1;
    [|intros [= <- <-]; done..].
  destruct c1; [intros H; eapply tame_trans; [done|by eapply IH]|intros [= <- <-]; done].
Qed.

Lemma attempt_tame s3 g s (k : Gc -> res unit * Gc) r s' :
  (forall s, k s = (r, s') -> tame (gc_world s) (gc_world s')) ->
  match on_world (list_backups g) s with
  | (Panic e, s) => (Panic e, s)
  | (Err e, s) =>
      let '(_, w) := next_event (gc_world s) in
      let s := with_world w s in
      if bool_decide (g ∈ w_groups w) then (Err e, s) else (Ok tt, s)
  | (Ok snapshots, s) =>
      let! c, s := process_snapshots s3 g 0
                     (reverse (sort_list sort_unstable_by_key snapshots true)) s in
      match c with Continue => (Ok tt, s) | Retry => k s end
  end = (r, s') -> tame (gc_world s) (gc_world s').
Proof.
  intros Hk. destruct (on_world (list_backups g) s) as [r1 s1] eqn:E1.
  apply on_world_tame in E1 as T1; [|intros *; apply list_backups_step]. destruct r1.
  - destruct (process_snapshots _ _ _ _ s1) as [r2 s2] eqn:E2. apply process_snapshots_tame in E2.
    pose proof (tame_trans _ _ _ T1 E2) as T2. destruct r2 as [c| |]; [|by intros [= <- <-]..].
    destruct c; [by intros [= <- <-]|]. intros H. eapply tame_trans; [exact T2|by apply Hk].
  - destruct (next_event (gc_world s1)) as [io w] eqn:Ee. apply next_event_step, tame_step in Ee.
    case_if; intros [= <- <-]; by eapply tame_trans.
  - by intros [= <- <-].
Qed.

Lemma process_group_tame s3 n g s r s' :
  process_group s3 n g s = (r, s') -> tame (gc_world s) (gc_world s').
Proof.
  revert s. induction n as [|n IH]; intros s; cbn [GarbageCollection.process_group].
  - destruct (on_world (call _ _) s) as [r1 s1] eqn:E1.
    apply on_world_tame in E1 as T1; [|intros *; apply call_step].
    destruct r1; [|by intros [= <- <-]..]. intros H. eapply tame_trans; [exact T1|]. revert H.
    apply (attempt_tame s3 g s1 (fun s => (Err _, s))). intros s2 [= _ <-]. apply tame_refl.
  - by apply (attempt_tame s3 g s (process_group s3 n g)).
Qed.

Lemma process_groups_tame s3 groups s r s' :
  process_groups s3 groups s = (r, s') -> tame (gc_world s) (gc_world s').
Proof.
  revert s. induction groups as [|g groups IH]; intros s; cbn [GarbageCollection.process_groups].
  { intros [= <- <-]. apply tame_refl. }
  destruct (on_world (call _ _) s) as [r1 s1] eqn:E1.
  apply on_world_tame in E1 as T1; [|intros *; apply call_step]. destruct r1; [|by intros [= <- <-]..].
  destruct g as [g| |]; [|by intros [= <- <-]..].
  destruct (process_group _ _ g s1) as [r2 s2] eqn:E2. apply process_group_tame in E2.
  pose proof (tame_trans _ _ _ T1 E2) as T2. destruct r2; [|by intros [= <- <-]..].
  intros H. eapply tame_trans; [exact T2|by eapply IH].
Qed.

Lemma mark_paths_tame s3 ps s r s' : mark_paths s3 ps s = (r, s') -> tame (gc_world s) (gc_world s').
Proof.
  revert s. induction ps as [|p ps IH]; intros s; cbn [GarbageCollection.mark_paths].
  { intros [= <- <-]. apply tame_refl. }
  destruct (mark_path _ _ _ _ _ s) as [r1 s1] eqn:E1.
  assert (tame (gc_world s) (gc_world s1)) as T1.
  { revert E1. unfold mark_path. destruct (on_world _ s) as [r2 s2] eqn:E2.
    apply on_world_tame in E2 as T2; [|intros *; apply open_reader_step].
    destruct r2 as [[index|]| |]; [|by intros [= <- <-]..].
    intros H. apply index_mark_tame in H. by eapply tame_trans. }
  destruct r1; [|by intros [= <- <-]..]. intros H. eapply tame_trans; [exact T1|by eapply IH].
Qed.

Lemma tame_journal w j b : tame w (set_journal j b w).
Proof. intros Hc. split; [done|by apply ages_same]. Qed.

Lemma drain_tame s3 s r s' :
  drain_move_journal X archive_type map_addr s3 s = (r, s') -> tame (gc_world s) (gc_world s').
Proof.
  unfold drain_move_journal. destruct (on_world (call _ _) s) as [r1 s1] eqn:E1.
  apply on_world_tame in E1 as T1; [|intros *; apply call_step]. destruct r1; [|by intros [= <- <-]..].
  destruct (mark_paths _ _ _) as [r2 s2] eqn:E2. apply mark_paths_tame in E2 as T2.
  assert (tame (gc_world s) (gc_world s2)) as T.
  { eapply tame_trans; [exact T1|]. eapply tame_trans; [|exact T2]. apply tame_journal. }
  destruct r2; [|intros [= <- <-]; (eapply tame_trans; [exact T|apply tame_journal])..].
  destruct (next_event (gc_world s2)) as [io w] eqn:Ee. apply next_event_step, tame_step in Ee.
  destruct io; intros [= <- <-]; (eapply tame_trans; [exact T|]);
    (eapply tame_trans; [exact Ee|apply tame_journal]).
Qed.

Lemma mark_used_chunks_tame s3 cap walk groups status w r s' :
  mark_used_chunks X archive_type backup_file_regex snapshot_path time_string sort_unstable_by_key
    map_addr s3 cap walk groups status w = (r, s') -> tame w (gc_world s').
Proof.
  unfold mark_used_chunks. destruct (on_world (call _ _) _) as [r1 s1] eqn:E1.
  apply on_world_tame in E1 as T1; [|intros *; apply call_step]. destruct r1; [|by intros [= <- <-]..].
  destruct (list_index_files _ _ _); [|by intros [= <- <-]..].
  destruct (process_groups _ _ _) as [r2 s2] eqn:E2. apply process_groups_tame in E2.
  pose proof (tame_trans _ _ _ T1 E2) as T2. destruct r2; [|by intros [= <- <-]..].
  destruct (mark_paths _ _ _) as [r3 s4] eqn:E3. apply mark_paths_tame in E3.
  pose proof (tame_trans _ _ _ T2 E3) as T3. destruct r3; [|by intros [= <- <-]..].
  intros H. apply drain_tame in H. by eapply tame_trans.
Qed.

(** ** The whole run *)
Lemma metadata_step p w r w' : metadata_atime X archive_type p w = (r, w') -> step_ok w w'.
Proof.
  unfold metadata_atime. destruct (call _ _ w) as [r1 w1] eqn:E1. apply call_step in E1.
  destruct r1; [case_match|..]; by intros [= <- <-].
Qed.

Lemma measure_step chunk sync w r w' :
  measure_atime X archive_type chunk sync w = (r, w') -> step_ok w w'.
Proof.
  unfold measure_atime. destruct chunk as [[b d']| |]; [|intros [= <- <-]; apply step_refl..].
  destruct (locked _ _ _ w) as [r1 w1] eqn:E1.
  apply locked_step in E1; [|intros *; apply Growth.insert_grows]. destruct r1; [|by intros [= <- <-]..].
  assert (step_ok w (set_clock (w_clock w1 + 1) w1)) as E2.
  { eapply step_trans; [exact E1|]. intros Hc. split; [done|].
    apply rely_lookup; [|by intros []|done..]. split; [cbn; lia|].
    intros e He. exists e. split; [done|lia]. }
  destruct (metadata_atime _ _ _ _) as [r3 w3] eqn:E3. apply metadata_step in E3.
  pose proof (step_trans _ _ _ E2 E3) as S3. destruct r3; [|by intros [= <- <-]..].
  destruct (locked _ _ _ w3) as [r4 w4] eqn:E4.
  apply locked_step in E4; [|intros *; apply Growth.touch_path_grows].
  pose proof (step_trans _ _ _ S3 E4) as S4. destruct r4; [|by intros [= <- <-]..].
  destruct (metadata_atime _ _ _ w4) as [r5 w5] eqn:E5. apply metadata_step in E5.
  pose proof (step_trans _ _ _ S4 E5). destruct r5; by intros [= <- <-].
Qed.

Lemma check_step P size sync c1 c2 w r w' :
  check_fs_atime_updates X P archive_type size sync c1 c2 w = (r, w') -> step_ok w w'.
Proof.
  unfold check_fs_atime_updates. destruct (measure_atime _ _ _ _ w) as [r1 w1] eqn:E1.
  apply measure_step in E1. destruct r1 as [t| |]; [|by intros [= <- <-]..].
  assert (forall r2 w2, (if c1 then
      let! times, w := measure_atime X archive_type (test_chunk P size) sync w1 in
      if c2 then (Err "chunk changed twice during access time safety check", w) else (Ok times, w)
    else (Ok t, w1)) = (r2, w2) -> step_ok w w2) as H2.
  { intros r2 w2. destruct c1; [|by intros [= <- <-]].
    destruct (measure_atime _ _ _ _ w1) as [r3 w3] eqn:E3. apply measure_step in E3.
    pose proof (step_trans _ _ _ E1 E3). destruct r3; [destruct c2|..]; by intros [= <- <-]. }
  destruct (if c1 then _ else _) as [r2 w2] eqn:E2. specialize (H2 _ _ eq_refl).
  destruct r2 as [times| |]; [case_if|..]; by intros [= <- <-].
Qed.

(** A run stops before phase 2, or does both phases. *)
Lemma run_cases P size conf0 oldest sync c1 c2 walk groups dirs w r w' :
  garbage_collection_impl X P archive_type backup_file_regex snapshot_path time_string
    sort_unstable_by_key map_addr size conf0 oldest sync c1 c2 walk groups dirs w = (r, w') ->
  tame w w' \/
  exists conf w1 w3 s w4 r' g' lru',
    conf0 = Ok conf /\ call X archive_type w = (Ok tt, w1) /\ step_ok w1 w3 /\
    mark_used_chunks X archive_type backup_file_regex snapshot_path time_string sort_unstable_by_key
      map_addr false (default (1024 * 1024) (gc_cache_capacity conf)) walk groups gc_status_default w3
      = (Ok tt, s) /\
    call X archive_type (gc_world s) = (Ok tt, w4) /\
    sweep_unused_chunks X archive_type false (default (w_clock w1) oldest)
      (gc_min_atime conf (w_clock w1) (default (w_clock w1) oldest)) (get_chunk_store_iterator dirs)
      (gc_status s) None w4 = (r', (g', lru', w')).
Proof.
  unfold garbage_collection_impl. destruct conf0 as [conf| |]; [|intros [= _ <-]; left; apply tame_refl..].
  destruct (call _ _ w) as [r1 w1] eqn:E1. pose proof (call_step _ _ _ E1) as S1.
  destruct r1 as [[]| |]; [|intros [= _ <-]; left; by apply tame_step..].
  destruct (if default true _ then _ else _) as [r2 w2] eqn:E2.
  assert (step_ok w1 w2) as S2.
  { destruct (default true _); [by eapply check_step|]. injection E2 as _ <-. apply step_refl. }
  pose proof (step_trans _ _ _ S1 S2) as S12.
  destruct r2; [|intros [= _ <-]; left; by apply tame_step..].
  destruct (call _ _ w2) as [r3 w3] eqn:E3. apply call_step in E3.
  pose proof (step_trans _ _ _ S12 E3) as S13.
  destruct r3; [|intros [= _ <-]; left; by apply tame_step..].
  destruct (mark_used_chunks _ _ _ _ _ _ _ _ _ _ _ _ w3) as [r4 s] eqn:E4.
  pose proof (tame_trans _ _ _ (tame_step _ _ S13) (mark_used_chunks_tame _ _ _ _ _ _ _ _ E4)) as T4.
  destruct r4 as [[]| |]; [|intros [= _ <-]; by left..].
  destruct (call _ _ (gc_world s)) as [r5 w5] eqn:E5.
  pose proof (tame_trans _ _ _ T4 (tame_step _ _ (call_step _ _ _ E5))) as T5.
  destruct r5 as [[]| |]; [|intros [= _ <-]; by left..].
  case_if; [intros [= _ <-]; by left|].
  destruct (sweep_unused_chunks _ _ _ _ _ _ _ _ w5) as [r6 [[g6 lru6] w6]] eqn:E6.
  intros [= _ <-]. right. exists conf, w1, w3, s, w5, r6, g6, lru6.
  split_and!; try done. by eapply step_trans.
Qed.

Definition run P size conf oldest sync c1 c2 walk groups dirs :=
  garbage_collection_impl X P archive_type backup_file_regex snapshot_path time_string
    sort_unstable_by_key map_addr size conf oldest sync c1 c2 walk groups dirs.

(** A chunk that was accessed since the oldest writer started is kept. *)
Lemma run_fresh P size conf0 oldest sync c1 c2 walk groups dirs w r w' e :
  calm w -> w_chunks w !! chunk_path X d = Some e ->
  sane_conf conf0 -> 0 <= w_clock (call X archive_type w).2 < 2 ^ 62 -> 0 <= oldest < 2 ^ 62 ->
  oldest <= e_atime e -> oldest <= w_clock w ->
  run P size conf0 (Some oldest) sync c1 c2 walk groups dirs w = (r, w') -> has_chunk w'.
Proof.
  intros Hc He Hconf Hclock Hold Hfresh Hstart Hrun.
  apply run_cases in Hrun as
    [Htame|(conf & w1 & w3 & s & w4 & r' & g' & lru' & -> & E1 & S13 & E4 & E5 & E6)].
  { destruct (Htame Hc) as [_ Ha]. eapply ages_has; [done|by exists e]. }
  rewrite E1 in Hclock. cbn [snd default] in *. destruct (call_step _ _ _ E1 Hc) as [C1 [A1 _ _ _]].
  destruct (S13 C1) as [C3 [A3 _ _ _]]. destruct (mark_used_chunks_tame _ _ _ _ _ _ _ _ E4 C3) as [C4 A4].
  destruct (call_step _ _ _ E5 C4) as [C5 [A5 _ _ _]].
  pose proof (ages_trans _ _ _ (ages_trans _ _ _ (ages_trans _ _ _ A1 A3) A4) A5) as [Hmono A15].
  destruct (A15 e He) as (e' & He' & Ht').
  destruct (gc_min_atime_le conf (w_clock w1) oldest Hconf Hclock Hold) as [_ Hle].
  assert (marked oldest w') as (e2 & He2 & _); [|by exists e2].
  eapply sweep_marked; [exact C5| |exact Hle| |apply iterator_ext|exact E6]; [lia|].
  exists e'. split; [done|lia].
Qed.

(** ** Where the index file is *)
Variables (type0 : ArchiveType) (index0 : AnyIndex) (pos0 : Z).
Hypothesis Htype : archive_type (file_name p0) = Some type0.
Hypothesis Hopen : open_index map_addr type0 file0 = Ok index0.
Hypothesis Hpos : 0 <= pos0 < index_count index0.
Hypothesis Hdigest : index_digest index0 pos0 = Some d.
Lemma open_reader_file p w o w' :
  file_name p = file_name p0 -> open_index_reader p w = (Ok o, w') ->
  lookup_file p w' = Some file0 -> o = Some index0.
Proof.
  intros Hf. unfold GarbageCollection.open_index_reader. rewrite Hf, Htype.
  destruct type0; [| |done]; destruct (call _ _ w) as [[u| |] w1]; try done.
  all: intros Ho Hl; destruct (lookup_file p w1) as [file|] eqn:El;
    [|injection Ho as <- <-; congruence].
  all: assert (file = file0 /\ w1 = w') as [-> ->] by (injection Ho as _ <-; split; congruence).
  all: rewrite Hopen in Ho; by injection Ho as <-.
Qed.

Definition located (m : Z) (s : Gc) : Prop :=
  move_locks (gc_world s) /\
  (marked m (gc_world s) \/ at_new (gc_world s) \/
   (at_old (gc_world s) /\ p0 ∈ gc_unprocessed s)).
Record inv (m : Z) (s : Gc) : Prop := {
  inv_safe : safe m s; inv_lru : lru_ok m s; inv_located : located m s;
}.

Lemma trans_located m s s' : safe m s -> trans m s s' -> located m s -> located m s'.
Proof.
  intros Hs T [Hj Hl]. pose proof (trans_marked _ _ _ Hs T) as HM. destruct T as [_ R U].
  split; [by apply R|]. rewrite U. destruct Hl as [Hl|[Hl|[Hl Hin]]].
  - left. by apply HM.
  - right. left. by apply R.
  - right. destruct (rely_old _ _ R Hj Hl); auto.
Qed.

Lemma processed_inv m p s :
  inv m s -> (p = p0 -> marked m (gc_world s) \/ at_new (gc_world s)) -> inv m (processed p s).
Proof.
  intros [Hs Hl [Hj Hloc]] Hp. split; [by split; apply Hs|done|]. split; [done|].
  cbn [processed gc_world gc_unprocessed]. destruct (decide (p = p0)) as [Heq|Hne].
  - destruct (Hp Heq); auto.
  - destruct Hloc as [?|[?|[? Hin]]]; auto. right. right. split; [done|]. set_solver.
Qed.

(** One index file: opened, and marked if it is there. *)
Lemma open_inv m p s o s' :
  inv m s -> on_world (open_index_reader p) s = (Ok o, s') ->
  inv m s' /\ rely (gc_world s) (gc_world s') /\ gc_unprocessed s' = gc_unprocessed s /\
  (file_name p = file_name p0 -> lookup_file p (gc_world s') = Some file0 -> o = Some index0).
Proof.
  intros [Hs Hl Hloc] H.
  assert (trans m s s') as T
    by (eapply on_world_trans; [intros *; apply open_reader_step|exact Hs|exact H]).
  revert H. unfold on_world. destruct (open_index_reader p (gc_world s)) as [r w] eqn:Eo.
  intros [= -> <-]. split_and!; [|by apply T|done|].
  - split; [by apply T| |by eapply trans_located]. apply lru_ok_world; [done|by eapply open_reader_step|done].
  - cbn [with_world gc_world]. intros Hf. by eapply open_reader_file.
Qed.

Lemma mark_index_inv m s3 index s s' :
  inv m s -> index_mark_used_chunks X archive_type s3 index s = (Ok tt, s') ->
  inv m s' /\ rely (gc_world s) (gc_world s') /\ gc_unprocessed s' = gc_unprocessed s /\
  (index = index0 -> marked m (gc_world s')).
Proof.
  intros [Hs Hl Hloc] H. destruct (index_mark_trans m _ _ _ _ Hs Hl H) as (T & L & M).
  split_and!; [|by apply T|by apply T|intros ->; by eapply M].
  split; [by apply T|done|by eapply trans_located].
Qed.

Lemma mark_path_inv m s3 p s s' :
  inv m s -> mark_path X archive_type map_addr s3 p s = (Ok tt, s') ->
  inv m s' /\ gc_unprocessed s' = gc_unprocessed s /\ rely (gc_world s) (gc_world s') /\
  (p = p0 -> marked m (gc_world s') \/ at_new (gc_world s')) /\
  (forall ps, w_journal_locked (gc_world s) = true -> reach (p :: ps) (gc_world s) ->
    marked m (gc_world s') \/ reach ps (gc_world s')).
Proof.
  intros Hi. unfold mark_path. destruct (on_world _ s) as [r1 s1] eqn:E1.
  destruct r1 as [o| |]; [|done..]. destruct (open_inv m p s o s1 Hi E1) as (I1 & R1 & U1 & F1).
  assert (p = p0 -> marked m (gc_world s1) \/ at_new (gc_world s1) \/ o = Some index0) as Hold.
  { intros ->. destruct (inv_located _ _ I1) as [_ [?|[?|[[? _] _]]]]; auto. }
  assert (forall ps, w_journal_locked (gc_world s) = true -> reach (p :: ps) (gc_world s) ->
    o = Some index0 \/ reach ps (gc_world s1)) as Hnew.
  { intros ps Hb Hn. destruct (rely_reach _ _ R1 _ (proj1 (inv_located _ _ Hi)) Hb Hn)
      as ([|q1 l1] & q & l2 & [= -> ->] & Hq & Hf & Hl & Hmv); [left; by apply F1|].
    right. by exists l1, q, l2. }
  destruct o as [index|].
  - intros H. destruct (mark_index_inv m _ _ _ _ I1 H) as (I2 & R2 & U2 & M2).
    split_and!; [done|congruence|by eapply rely_trans| |].
    + intros Hp. destruct (Hold Hp) as [Hm|[Hn|Ho]].
      * left. eapply ages_marked; [apply R2|apply I1|done].
      * right. by apply R2; [apply I1|].
      * left. apply M2. by injection Ho.
    + intros ps Hb Hn. destruct (Hnew ps Hb Hn) as [Ho|Hr]; [left; apply M2; by injection Ho|].
      right. apply R2; [apply I1|by apply R1|done].
  - intros [= <-]. split_and!; [done|done|done| |].
    + intros Hp. destruct (Hold Hp) as [?|[?|?]]; auto. done.
    + intros ps Hb Hn. destruct (Hnew ps Hb Hn); [done|by right].
Qed.

Lemma step_inv m s w : inv m s -> step_ok (gc_world s) w -> inv m (with_world w s).
Proof.
  intros [Hs Hl Hloc] Hst. pose proof (with_world_trans m s w Hs Hst) as T.
  split; [by apply T|by apply lru_ok_world|by eapply trans_located].
Qed.
Lemma on_world_inv {A} m (f : World -> res A * World) s r s' :
  (forall w r w', f w = (r, w') -> step_ok w w') ->
  inv m s -> on_world f s = (r, s') -> inv m s'.
Proof.
  intros Hf Hi. unfold on_world. destruct (f (gc_world s)) as [r1 w1] eqn:Ef. intros [= <- <-].
  apply step_inv; [done|by eapply Hf].
Qed.


Lemma process_files_inv m s3 g t first fs s c s' :
  inv m s -> process_files s3 g t first fs s = (Ok c, s') -> inv m s'.
Proof.
  revert s. induction fs as [|f fs IH]; intros s Hi; cbn [GarbageCollection.process_files].
  { by intros [= <- <-]. }
  destruct (on_world _ s) as [r1 s1] eqn:E1.
  pose proof (on_world_inv m _ _ _ _ call_step Hi E1) as I1. destruct r1; [|done..].
  case_if; [by apply IH|]. destruct (on_world _ s1) as [r2 s2] eqn:E2. destruct r2 as [o| |]; [|done..].
  destruct (open_inv m _ _ _ _ I1 E2) as (I2 & _ & _ & F2).
  assert (InSnap g t f = p0 ->
    marked m (gc_world s2) \/ at_new (gc_world s2) \/ o = Some index0) as Hfound.
  { intros Hp. destruct (inv_located _ _ I2) as [_ [?|[?|[[Hold _] _]]]]; auto.
    rewrite Hp in F2. auto. }
  destruct o as [index|].
  - destruct (index_mark_used_chunks _ _ _ _ s2) as [r3 s4] eqn:E3. destruct r3 as [[]| |]; [|done..].
    destruct (mark_index_inv m _ _ _ _ I2 E3) as (I3 & R3 & U3 & M3). apply IH, processed_inv; [done|].
    intros Hp. destruct (Hfound Hp) as [Hm|[Hn|Ho]].
    + left. eapply ages_marked; [apply R3|apply I2|done].
    + right. by apply R3; [apply I2|].
    + left. apply M3. by injection Ho.
  - assert (inv m (processed (InSnap g t f) s2)) as I3.
    { apply processed_inv; [done|]. intros Hp. destruct (Hfound Hp) as [?|[?|?]]; auto. done. }
    destruct first; [by intros [= <- <-]|by apply IH].
Qed.

Lemma process_snapshots_inv m s3 g n l s c s' :
  inv m s -> process_snapshots s3 g n l s = (Ok c, s') -> inv m s'.
Proof.
  revert n s. induction l as [|info l IH]; intros n s Hi; cbn [GarbageCollection.process_snapshots].
  { by intros [= <- <-]. }
  destruct (process_files _ _ _ _ _ s) as [[c1| |] s1] eqn:E1; [|done..].
  apply process_files_inv with (m := m) in E1; [|done].
  destruct c1; [by apply IH|by intros [= <- <-]].
Qed.

(** One attempt of the retry loop; [k] is what a retry does. *)
Lemma attempt_inv m s3 g s (k : Gc -> res unit * Gc) s' :
  inv m s -> (forall s, inv m s -> k s = (Ok tt, s') -> inv m s') ->
  match on_world (list_backups g) s with
  | (Panic e, s) => (Panic e, s)
  | (Err e, s) =>
      let '(_, w) := next_event (gc_world s) in
      let s := with_world w s in
      if bool_decide (g ∈ w_groups w) then (Err e, s) else (Ok tt, s)
  | (Ok snapshots, s) =>
      let! c, s := process_snapshots s3 g 0
                     (reverse (sort_list sort_unstable_by_key snapshots true)) s in
      match c with Continue => (Ok tt, s) | Retry => k s end
  end = (Ok tt, s') -> inv m s'.
Proof.
  intros Hi Hk. destruct (on_world (list_backups g) s) as [r1 s1] eqn:E1.
  pose proof (on_world_inv m _ _ _ _ (list_backups_step g) Hi E1) as I1. destruct r1; [| |done].
  - destruct (process_snapshots _ _ _ _ s1) as [[c| |] s2] eqn:E2; [|done..].
    apply process_snapshots_inv with (m := m) in E2; [|done].
    destruct c; [by intros [= <-]|by apply Hk].
  - destruct (next_event (gc_world s1)) as [io w] eqn:Ee. case_if; [done|]. intros [= <-].
    apply step_inv; [done|by eapply next_event_step].
Qed.

Lemma process_group_inv m s3 n g s s' :
  inv m s -> process_group s3 n g s = (Ok tt, s') -> inv m s'.
Proof.
  revert s. induction n as [|n IH]; intros s Hi; cbn [GarbageCollection.process_group].
  - destruct (on_world (call _ _) s) as [[u| |] s1] eqn:E1; [|done..].
    apply (on_world_inv m _ _ _ _ call_step Hi) in E1 as I1.
    by apply (attempt_inv m s3 g s1 (fun s => (Err _, s))).
  - by apply (attempt_inv m s3 g s (process_group s3 n g)).
Qed.

Lemma process_groups_inv m s3 groups s s' :
  inv m s -> process_groups s3 groups s = (Ok tt, s') -> inv m s'.
Proof.
  revert s. induction groups as [|g groups IH]; intros s Hi; cbn [GarbageCollection.process_groups].
  { by intros [= <-]. }
  destruct (on_world (call _ _) s) as [[u| |] s1] eqn:E1; [|done..].
  apply (on_world_inv m _ _ _ _ call_step Hi) in E1 as I1. destruct g as [g| |]; [|done..].
  destruct (process_group _ _ g s1) as [[[]| |] s2] eqn:E2; [|done..].
  apply process_group_inv with (m := m) in E2; [|done]. by apply IH.
Qed.

Lemma mark_paths_inv m s3 ps s s' :
  inv m s -> mark_paths s3 ps s = (Ok tt, s') ->
  inv m s' /\ gc_unprocessed s' = gc_unprocessed s /\ rely (gc_world s) (gc_world s') /\
  (p0 ∈ ps -> marked m (gc_world s') \/ at_new (gc_world s')) /\
  (w_journal_locked (gc_world s) = true -> reach ps (gc_world s) -> marked m (gc_world s')).
Proof.
  revert s. induction ps as [|p ps IH]; intros s Hi; cbn [GarbageCollection.mark_paths].
  { intros [= <-]. split_and!; [done|done|apply rely_refl|by intros ?%not_elem_of_nil|].
    by intros _ ([] & q & l2 & ? & _). }
  destruct (mark_path _ _ _ _ _ s) as [[[]| |] s1] eqn:E1; [|done..].
  apply (mark_path_inv m) in E1 as (I1 & U1 & R1 & O1 & N1); [|done].
  intros H. destruct (IH _ I1 H) as (I2 & U2 & R2 & O2 & N2).
  assert (marked m (gc_world s1) -> marked m (gc_world s')) as HM.
  { intros Hm. eapply ages_marked; [apply R2|apply I1|done]. }
  split_and!; [done|congruence|by eapply rely_trans| |].
  - intros [Hp|Hp]%elem_of_cons; [|by apply O2]. destruct (O1 (eq_sym Hp)) as [Hm|Hn]; auto.
    right. by apply R2; [apply I1|].
  - intros Hb Hn. destruct (N1 _ Hb Hn) as [Hm|Hr]; [by apply HM|]. apply N2; [by apply R1|done].
Qed.

Lemma set_journal_safe m s j b w :
  gc_world s = w -> safe m s -> safe m (with_world (set_journal j b w) s).
Proof. intros <- [Hc Hm Hh]. by split. Qed.

Lemma drain_marks m s3 s s' :
  inv m s -> marked m (gc_world s) \/ at_new (gc_world s) ->
  drain_move_journal X archive_type map_addr s3 s = (Ok tt, s') ->
  safe m s' /\ marked m (gc_world s').
Proof.
  intros Hi Hcase. unfold drain_move_journal. destruct (on_world (call _ _) s) as [r1 s1] eqn:E1.
  destruct r1; [|done..].
  assert (trans m s s1) as T1.
  { eapply on_world_trans; [|apply Hi|exact E1]. intros *. apply call_step. }
  pose proof (on_world_inv m _ _ _ _ call_step Hi E1) as I1.
  assert (marked m (gc_world s1) \/ at_new (gc_world s1)) as Hcase1.
  { destruct Hcase as [Hm|Hn]; [left; by eapply trans_marked; [apply Hi|..]|right; by apply T1; [apply Hi|]]. }
  set (s2 := with_world _ s1).
  assert (forall ps, reach ps (gc_world s2) <-> reach ps (gc_world s1)) as Hreach.
  { intros ps. split; intros (l1 & q & l2 & ? & ? & ? & Hl & Hm); exists l1, q, l2; by destruct q. }
  assert (inv m s2) as I2.
  { destruct I1 as [Hs Hl [Hj Hloc]]. split; [by apply set_journal_safe|done|]. split; [done|].
    unfold at_new, at_old in *. rewrite Hreach. cbn [s2 with_world gc_world set_journal w_journal].
    by destruct p0. }
  destruct (mark_paths _ _ s2) as [r3 s4] eqn:E3. destruct r3 as [[]| |]; [|done..].
  destruct (mark_paths_inv m _ _ _ _ I2 E3) as (I3 & _ & R3 & _ & N3).
  assert (marked m (gc_world s4)) as M4.
  { destruct Hcase1 as [Hm|Hn].
    - by eapply ages_marked; [apply R3|apply I2|].
    - apply N3; [done|]. by apply Hreach. }
  destruct (next_event (gc_world s4)) as [[e|] w5] eqn:E5; [done|]. intros [= <-].
  pose proof (next_event_step _ _ _ E5 (safe_calm _ _ (inv_safe _ _ I3))) as [C5 R5].
  pose proof (with_world_trans m s4 w5 (inv_safe _ _ I3) (next_event_step _ _ _ E5)) as T5.
  split.
  - destruct (trans_safe _ _ _ T5) as [Hc Hm Hh]. by split.
  - eapply ages_marked in M4; [exact M4|apply R5|apply I3].
Qed.

Lemma list_index_files_in walk acc r p :
  list_index_files archive_type walk acc = Ok r -> is_index_file archive_type (file_name p) = true ->
  WPath p ∈ walk \/ p ∈ acc -> p ∈ r.
Proof.
  intros H Hf. revert acc H.
  induction walk as [|e walk IH]; intros acc H Hin; cbn [list_index_files] in H.
  { injection H as <-. destruct Hin as [Hin|?]; [by apply not_elem_of_nil in Hin|done]. }
  destruct e as [q| | |[] []|]; try done.
  - apply IH in H; [done|]. destruct Hin as [[Hq|Hin]%elem_of_cons|Hin]; [|by left|].
    + injection Hq as <-. rewrite Hf. set_solver.
    + right. case_if; set_solver.
  - all: apply IH in H; [done|]; set_solver.
  - all: apply IH in H; [done|]; set_solver.
  - all: apply IH in H; [done|]; set_solver.
  - all: apply IH in H; [done|]; set_solver.
  - all: apply IH in H; [done|]; set_solver.
Qed.

Lemma index_name : is_index_file archive_type (file_name p0) = true.
Proof. unfold is_index_file. rewrite Htype. by destruct type0. Qed.

Lemma mark_used_chunks_marks m s3 cap walk groups status w s' :
  calm w -> m <= w_clock w -> has_chunk w -> move_locks w -> at_old w \/ at_new w ->
  (forall w, lookup_file p0 w = Some file0 -> WPath p0 ∈ walk w) ->
  mark_used_chunks X archive_type backup_file_regex snapshot_path time_string sort_unstable_by_key
    map_addr s3 cap walk groups status w = (Ok tt, s') ->
  safe m s' /\ marked m (gc_world s').
Proof.
  intros Hc Hm Hh Hj Ho Hw. unfold mark_used_chunks. set (s0 := Build_Gc w _ _ _).
  assert (safe m s0) as S0 by by split.
  assert (lru_ok m s0) as L0.
  { unfold lru_ok. cbn [s0 gc_lru]. case_if; [|done]. exists []. split; [|set_solver].
    apply LruSpec.new_refines. }
  destruct (on_world (call _ _) s0) as [r1 s1] eqn:E1. destruct r1; [|done..].
  assert (trans m s0 s1) as T1.
  { eapply on_world_trans; [|done|exact E1]. intros *. apply call_step. }
  assert (lru_ok m s1) as L1.
  { revert E1. unfold on_world. destruct (call _ _ _) eqn:Ec. intros [= _ <-].
    apply lru_ok_world; [done|by eapply call_step|done]. }
  destruct (list_index_files archive_type _ ∅) as [unp| |] eqn:El; [|done..].
  set (s2 := Build_Gc _ _ _ unp).
  assert (inv m s2) as I2.
  { destruct T1 as [[Hc1 Hm1 Hh1] R1 _]. split; [by split|done|]. split; [by apply R1|].
    right. assert (at_old (gc_world s1) \/ at_new (gc_world s1)) as [Ho1|Hn1]; [|right|by left].
    { destruct Ho as [Ho|Hn]; [by apply R1|right; by apply R1]. }
    split; [done|].
    eapply list_index_files_in; [done|apply index_name|left; by apply Hw, Ho1]. }
  destruct (process_groups _ _ s2) as [[[]| |] s4] eqn:E3; [|done..].
  apply process_groups_inv with (m := m) in E3; [|done].
  destruct (mark_paths _ _ s4) as [[[]| |] s5] eqn:E4; [|done..].
  apply (mark_paths_inv m) in E4 as (I5 & _ & R5 & O5 & _); [|done].
  apply drain_marks; [done|]. destruct (inv_located _ _ E3) as [_ [Hm4|[Hn4|[_ Hin]]]].
  - left. eapply ages_marked; [apply R5|apply E3|done].
  - right. by apply R5; [apply E3|].
  - apply O5. by apply elem_of_elements.
Qed.


Lemma run_referenced P size conf0 oldest sync c1 c2 walk groups dirs w r w' :
  calm w -> has_chunk w -> move_locks w -> at_old w ->
  (forall w, lookup_file p0 w = Some file0 -> WPath p0 ∈ walk w) ->
  sane_conf conf0 -> 0 <= w_clock (call X archive_type w).2 < 2 ^ 62 -> 0 <= default 0 oldest < 2 ^ 62 ->
  run P size conf0 oldest sync c1 c2 walk groups dirs w = (r, w') -> has_chunk w'.
Proof.
  intros Hc Hh Hj Ho Hw Hconf Hclock Hold Hrun.
  apply run_cases in Hrun as
    [Htame|(conf & w1 & w3 & s & w4 & r' & g' & lru' & -> & E1 & S13 & E4 & E5 & E6)].
  { destruct (Htame Hc) as [_ Ha]. by eapply ages_has. }
  rewrite E1 in Hclock. cbn [snd] in Hclock. destruct (call_step _ _ _ E1 Hc) as [C1 R1].
  destruct (S13 C1) as [C3 R3]. pose proof (rely_trans _ _ _ R1 R3) as R13.
  destruct (rely_ages _ _ R3) as [Hmono _].
  apply (mark_used_chunks_marks (w_clock w1)) in E4 as [[C4 Hm4 _] M4]; [|done|done
    |eapply ages_has; [apply R13|done]|by apply R13|by apply R13|done].
  destruct (call_step _ _ _ E5 C4) as [C5 R5].
  pose proof (ages_marked _ _ _ (rely_ages _ _ R5) Hm4 M4) as M5.
  destruct (rely_ages _ _ R5) as [Hmono5 _].
  assert (gc_min_atime conf (w_clock w1) (default (w_clock w1) oldest) <= w_clock w1) as Hle.
  { apply gc_min_atime_le; [done|done|]. destruct oldest; cbn in *; lia. }
  assert (marked (w_clock w1) w') as (e2 & He2 & _); [|by exists e2].
  eapply sweep_marked; [exact C5| |exact Hle|done|apply iterator_ext|exact E6]. lia.
Qed.
End steps.
End GcSteps.

Section claims.
Context (X : Hex) `{HX : HexLaws X} (P : Prims).
Variable archive_type : string -> option ArchiveType.
Variable backup_file_regex : string -> bool.
Variable snapshot_path : Group -> Z -> string.
Variable time_string : Z -> string.
Variable sort_unstable_by_key : (BackupInfo -> Z) -> list BackupInfo -> list BackupInfo.
Variable map_addr : option Z.
Abbreviation garbage_collection_impl := (garbage_collection_impl X P archive_type backup_file_regex
  snapshot_path time_string sort_unstable_by_key map_addr).

(** C2.  Garbage collection never removes a chunk that is in use.  Let an index file lie at
    [p0] in the datastore when the run starts, let it refer to a chunk that is in the store, and let
    [places] be any set of paths with [p0] in it.  Between any two steps of the run others do whatever
    they like, with these exceptions: they do not remove or replace what is at one of the places,
    a move they begin at one of the places goes to one of them, they do not rename this chunk as
    corrupt, the chunks they do rename have digests of 32 bytes, and the clock is not set back.  In
    particular they may move the snapshot any number of times within the places: each move appends its
    index files to the move journal, waiting while the collection drains it, and renames later.
    Assumed of the start: moves that are under way then hold the locks of their two groups, and a move
    of the index file among them goes to one of the places and its entry is still in the journal.
    Assumed of the run: the walk finds the index file if it is at [p0] when the walk ends, the
    times are in [0, 2^62) and the configured cutoff is less than 2^40 minutes.  Then the chunk is still
    there when the run ends, however it ends: with a result, an error of any system call, or an abort. *)
Theorem gc_keeps_referenced size conf oldest sync changed changed_again walk groups dirs w r w'
    places p0 file t index pos d :
  length d = 32%nat -> p0 ∈ places -> archive_type (file_name p0) = Some t ->
  lookup_file p0 w = Some file -> open_index map_addr t file = Ok index ->
  0 <= pos < index_count index -> index_digest index pos = Some d ->
  is_Some (w_chunks w !! chunk_path X d) ->
  (forall w, lookup_file p0 w = Some file -> WPath p0 ∈ walk w) ->
  move_locks w -> (forall q, moves_to w p0 q -> q ∈ w_journal w /\ q ∈ places) ->
  Forall (fun ev => forallb (harmless places d) (ev_actions ev) = true) (w_schedule w) ->
  sane_conf conf -> 0 <= w_clock (call X archive_type w).2 < 2 ^ 62 ->
  0 <= default 0 oldest < 2 ^ 62 ->
  garbage_collection_impl size conf oldest sync changed changed_again walk groups dirs w = (r, w') ->
  is_Some (w_chunks w' !! chunk_path X d).
Proof.
  intros Hd Hp Ht Hfile Hopen Hpos Hdig Hhas Hwalk Hl Hj Hcalm Hconf Hclock Hold Hrun.
  eapply (GcSteps.run_referenced X archive_type places p0 file d); try done.
  intros _ _ _ _ _. unfold is_index_file. rewrite Ht. by destruct t.
Qed.

(** Any action but renaming the chunk as corrupt and setting the clock back. *)
Definition spares (d : digest) (a : action) : bool :=
  match a with
  | ATick n => 0 <=? n
  | ARenameCorrupt _ d' => bool_decide (length d' = 32%nat) && negb (bool_decide (d' = d))
  | _ => true
  end.
Definition action_name (a : action) : string :=
  match a with APut p _ | ARemove p => file_name p | _ => EmptyString end.

Lemma spares_harmless d a n :
  spares d a = true -> action_name a <> n ->
  harmless [Elsewhere [] n] d a = true.
Proof.
  intros Hs Hn. destruct a as [| | | |p f|p| | | | | |]; cbn in *; try done.
  all: rewrite bool_decide_false; [done|]; by intros ->%list_elem_of_singleton.
Qed.

(** C7.  Chunks of running backups are safe without any index file.  Let [oldest] be the time at
    which the oldest backup that holds a lock on the datastore started, and let a chunk have been
    written or touched since then.  Whatever others do during the run, except renaming this chunk as
    corrupt or setting the clock back, the run does not remove it, however it ends. *)
Theorem gc_keeps_recent size conf oldest sync changed changed_again walk groups dirs w r w' d e :
  length d = 32%nat -> w_chunks w !! chunk_path X d = Some e ->
  oldest <= e_atime e -> oldest <= w_clock w ->
  Forall (fun ev => forallb (spares d) (ev_actions ev) = true) (w_schedule w) ->
  sane_conf conf -> 0 <= w_clock (call X archive_type w).2 < 2 ^ 62 -> 0 <= oldest < 2 ^ 62 ->
  garbage_collection_impl size conf (Some oldest) sync changed changed_again walk groups dirs w
    = (r, w') ->
  is_Some (w_chunks w' !! chunk_path X d).
Proof.
  intros Hd He Ha Ho Hsp Hconf Hclock Hold Hrun.
  set (names := action_name <$> (w_schedule w ≫= ev_actions)).
  set (n := fresh names). pose proof (infinite_is_fresh names) as Hn.
  eapply (GcSteps.run_fresh X archive_type [Elsewhere [] n] (Elsewhere [] n)
    {| f_regular := true; f_data := [] |} d); try done; [by apply list_elem_of_singleton| |].
  { by intros g t q ->%list_elem_of_singleton. }
  apply Forall_forall. intros ev Hev. rewrite Forall_forall in Hsp. specialize (Hsp ev Hev).
  rewrite forallb_forall in *. intros a Hin. apply spares_harmless; [by apply Hsp|].
  intros Heq. apply Hn. fold n. rewrite <- Heq. apply list_elem_of_fmap. exists a. split; [done|].
  apply list_elem_of_bind. exists ev. split; [by apply list_elem_of_In|done].
Qed.
End claims.
