(* ===== verification/GarbageCollectionRuns.v ===== *)
(** * Runs of the garbage collection on concrete datastores

    A small datastore on which the theorems about the garbage collection are applied, and a
    schedule in which a run removes a chunk that is in use. *)

From S2P Require Import Prelude IndexFile FixedIndex FixedIndexSpec DynamicIndex LruCache DataBlob.
From S2P Require Import DataBlobSpec Manifest Prune PruneSpec ChunkStore ChunkStoreSpec.
From S2P Require Import GarbageCollection GarbageCollectionSpec.
From Stdlib Require Import Strings.Byte.

Module GcRun.
Definition group : Group := {| g_ns := []; g_type := "vm"; g_id := "100" |}.
Definition moved : Group := {| g_ns := ["archive"]; g_type := "vm"; g_id := "100" |}.
Definition kept : Group := {| g_ns := ["archive"; "old"]; g_type := "vm"; g_id := "100" |}.
Definition archive_type (f : string) : option ArchiveType :=
  if bool_decide (f = "a.fidx") then Some FixedIndexT else None.
Definition file : File := {| f_regular := true; f_data := FixedWitness.file2 |}.
Definition d1 : digest := FixedWitness.d1.
Definition d2 : digest := FixedWitness.d2.

Definition old_chunk : Entry := {| e_kind := KFile; e_data := [x01; x02]; e_atime := 100 |}.
Definition chunks : store :=
  <[chunk_path HexImpl.hex d1 := old_chunk]> (<[chunk_path HexImpl.hex d2 := old_chunk]> ∅).
Definition dirs : list subdir :=
  (fun d => Dir (digest_to_prefix d) [Ok (hex_encode HexImpl.hex d)]) <$> [d1; d2].

(** Snapshots with times and, for each, whether its index file is there. *)
Definition world (snaps : list (Z * bool)) (schedule : list event) : World :=
  {| w_chunks := chunks; w_groups := {[group]};
     w_snaps := foldr (fun e m => <[(group, e.1) := if e.2 : bool then {["a.fidx" := file]} else ∅]> m)
                  ∅ snaps;
     w_other := ∅; w_clock := 1000000; w_journal := []; w_journal_locked := false; w_moves := [];
     w_schedule := schedule |}.

(** The walk finds every file. *)
Definition walk (w : World) : list walk_entry :=
  (map_to_list (w_snaps w) ≫= (fun e => (fun f => WPath (InSnap e.1.1 e.1.2 f)) <$> elements (dom e.2)))
  ++ ((fun e => WPath (Elsewhere e.1.1 e.1.2)) <$> map_to_list (w_other w)).

Definition conf : res GcConfig :=
  Ok {| gc_atime_safety_check := Some false; gc_atime_cutoff := None; gc_cache_capacity := Some 16 |}.
Definition run (oldest : option Z) (w : World) : res GarbageCollectionStatus * World :=
  garbage_collection_impl HexImpl.hex ToyPrims.toy archive_type (fun _ => true) (fun _ _ => "snapshot")
    (fun _ => "time") PruneWitness.sort_by (Some 8192) 4096 conf oldest true false false walk [Ok group]
    dirs w.
Definition quiet : event := {| ev_actions := []; ev_error := None |}.
Definition present (d : digest) (w : World) : bool :=
  match w_chunks w !! chunk_path HexImpl.hex d with Some _ => true | None => false end.

Definition sched (n : nat) (l : list action) : list event :=
  replicate n quiet ++ [{| ev_actions := l; ev_error := None |}].

Lemma walk_finds p f w : lookup_file p w = Some f -> WPath p ∈ walk w.
Proof.
  unfold walk. destruct p as [g t n|dir n]; cbn [lookup_file]; intros H; apply elem_of_app.
  - destruct (w_snaps w !! (g, t)) as [fs|] eqn:Hs; [|done]. left. apply list_elem_of_bind.
    exists ((g, t), fs). split; [|by apply elem_of_map_to_list]. apply list_elem_of_fmap.
    exists n. split; [done|]. apply elem_of_elements, elem_of_dom. by exists f.
  - right. apply list_elem_of_fmap. exists ((dir, n), f). split; [done|].
    by apply elem_of_map_to_list.
Qed.

Lemma opens : exists index,
  open_index (Some 8192) FixedIndexT file = Ok index /\ index_count index = 2 /\
  index_digest index 0 = Some d1.
Proof.
  assert (match open_index (Some 8192) FixedIndexT file with
          | Ok i => (index_count i, index_digest i 0) | _ => (0, None) end = (2, Some d1)) as H
    by (vm_compute; reflexivity).
  destruct (open_index _ _ _) as [i| |]; [|done..]. injection H as Hc Hd. by exists i.
Qed.

(** The snapshot is moved while its index file is about to be opened, and moved on to a third
    group by a rename that happens after the collection locked the move journal. *)
Definition move_schedule : list event :=
  sched 6 [ATick 10; ARecordMove group moved 1; AMoveSnap None group moved 1; ARecordMove moved kept 1]
  ++ sched 3 [AMoveSnap None moved kept 1; ARecordMove kept group 1].
Definition places : list path := (fun g => InSnap g 1 "a.fidx") <$> [group; moved; kept].
(** A backup finishes and the snapshot before it is pruned. *)
Definition prune_schedule : list event :=
  sched 8 [APut (InSnap group 2 "a.fidx") file; ARmSnap group 1].
End GcRun.

Lemma gc_keeps_referenced_witness :
  let w := GcRun.world [(1, true)] GcRun.move_schedule in
  lookup_file (InSnap GcRun.kept 1 "a.fidx") (GcRun.run None w).2 = Some GcRun.file /\
  GcRun.present GcRun.d1 (GcRun.run None w).2 = true.
Proof.
  intros w. split; [vm_compute; reflexivity|].
  destruct GcRun.opens as (index & Hopen & Hcount & Hdig). unfold GcRun.present.
  destruct (gc_keeps_referenced HexImpl.hex ToyPrims.toy GcRun.archive_type (fun _ => true)
    (fun _ _ => "snapshot") (fun _ => "time") PruneWitness.sort_by (Some 8192) 4096 GcRun.conf None
    true false false GcRun.walk [Ok GcRun.group] GcRun.dirs w (GcRun.run None w).1
    (GcRun.run None w).2 GcRun.places (InSnap GcRun.group 1 "a.fidx")
    GcRun.file FixedIndexT index 0 GcRun.d1) as [e He].
  - reflexivity.
  - apply list_elem_of_here.
  - vm_compute; reflexivity.
  - vm_compute; reflexivity.
  - exact Hopen.
  - lia.
  - exact Hdig.
  - exists GcRun.old_chunk. vm_compute; reflexivity.
  - intros w'. apply GcRun.walk_finds.
  - intros m1 m2 h H. by apply not_elem_of_nil in H.
  - intros q (g & g' & t & H & _). by apply not_elem_of_nil in H.
  - repeat constructor.
  - cbn. lia.
  - vm_compute. by split.
  - cbn. lia.
  - apply surjective_pairing.
  - by rewrite He.
Defined.

Lemma gc_keeps_recent_witness :
  let w := GcRun.world [] [] in
  GcRun.present GcRun.d1 (GcRun.run None w).2 = false /\
  GcRun.present GcRun.d1 (GcRun.run (Some 90) w).2 = true.
Proof.
  intros w. split; [vm_compute; reflexivity|]. unfold GcRun.present.
  destruct (gc_keeps_recent HexImpl.hex ToyPrims.toy GcRun.archive_type (fun _ => true)
    (fun _ _ => "snapshot") (fun _ => "time") PruneWitness.sort_by (Some 8192) 4096 GcRun.conf 90
    true false false GcRun.walk [Ok GcRun.group] GcRun.dirs w (GcRun.run (Some 90) w).1
    (GcRun.run (Some 90) w).2 GcRun.d1 GcRun.old_chunk) as [e He].
  - reflexivity.
  - vm_compute; reflexivity.
  - cbn. lia.
  - cbn. lia.
  - apply Forall_nil_2.
  - cbn. lia.
  - vm_compute. by split.
  - lia.
  - apply surjective_pairing.
  - by rewrite He.
Defined.

(** If the clock is set back during phase 1, the run stops and nothing is removed. *)
Example gc_stops_on_drift :
  let w := GcRun.world [] (GcRun.sched 3 [ATick (-1000)]) in
  (GcRun.run None w).1 = Err "Unexpected system time drift detected" /\
  GcRun.present GcRun.d1 (GcRun.run None w).2 = true.
Proof. split; vm_compute; reflexivity. Qed.

(** A schedule that defeats the retry of [mark_used_chunks].  A backup is running, so its
    snapshot directory is the newest of the group and has no index file yet when the group is
    listed.  It publishes its index file, which reuses a chunk of the snapshot before it, and
    that snapshot is pruned before the collection opens its index file.  Only a file that vanished from the
    newest listed snapshot causes a retry; the run goes on, succeeds, and removes the chunk, although
    some index file referred to it at all times. *)
Theorem gc_misses_finished_backup :
  let w := GcRun.world [(1, true); (2, false)] GcRun.prune_schedule in
  let r := GcRun.run (Some 999000) w in
  (exists status, r.1 = Ok status) /\
  GcRun.present GcRun.d1 w = true /\ lookup_file (InSnap GcRun.group 1 "a.fidx") w = Some GcRun.file /\
  lookup_file (InSnap GcRun.group 2 "a.fidx") r.2 = Some GcRun.file /\
  (exists index, open_index (Some 8192) FixedIndexT GcRun.file = Ok index /\
     index_digest index 0 = Some GcRun.d1) /\
  GcRun.present GcRun.d1 r.2 = false.
Proof.
  intros w r. split_and!; [|vm_compute; reflexivity..| |vm_compute; reflexivity].
  - eexists. vm_compute. reflexivity.
  - destruct GcRun.opens as (index & Ho & _ & Hd). exists index. split; assumption.
Qed.
