(* ===== verification/Verify.v ===== *)
(** * Verification of snapshots, [src/backup/verify.rs]

    The chunks of an index are read by one pool of threads and checked by another one, while the
    main thread hands out the work.  Shared are the sets of verified and of corrupt chunks, the counter of
    errors, and the chunk store, where corrupt chunks are renamed.  Each access to one of them
    is a step of its own, and steps of the threads are interleaved in any order.  The sets and the chunk
    store have a mutex each.  Taking one is a step that has to wait while another thread holds it;
    [add_corrupt_chunk] keeps that of the corrupt chunks while it takes that of the chunk store.

    The pools are those of the crate proxmox-parallel-handler: [send] puts an item in a channel and
    waits while that is full, threads take items from it, [complete] waits until all items are
    processed, and so does dropping a pool.  The numbers of threads are settings; the capacities of the
    channels are arguments. *)

From S2P Require Import Prelude IndexFile DataBlob Manifest.
From Stdlib Require Import Strings.Byte Sorting.Sorted.

(** ** Shared state *)

(** What a request for a chunk file or an object delivers, if there is one. *)
Inductive object := ObjData (data : list byte) | ObjReadFails | ObjGetFails.
Inductive Backend := Filesystem | S3.

(** The mutexes of [verified_chunks], of [corrupt_chunks] and of the chunk store. *)
Inductive mutex := VerifiedM | CorruptM | StoreM.
#[global] Instance mutex_eq_dec : EqDecision mutex.
Proof. solve_decision. Defined.
#[global] Instance mutex_countable : Countable mutex.
Proof.
  refine (inj_countable' (fun m => match m with VerifiedM => 0%nat | CorruptM => 1%nat | StoreM => 2%nat end)
    (fun n => match n with 0%nat => VerifiedM | 1%nat => CorruptM | _ => StoreM end) _). by intros [].
Defined.

Record VState := {
  vs_store : gmap digest object;
  verified_chunks : gset digest;
  corrupt_chunks : gset digest;
  vs_errors : nat;
  vs_locked : gset mutex;  (* held by some thread *)
}.
Definition add_error (st : VState) : VState :=
  {| vs_store := vs_store st; verified_chunks := verified_chunks st;
     corrupt_chunks := corrupt_chunks st; vs_errors := S (vs_errors st); vs_locked := vs_locked st |}.
Definition add_corrupt (d : digest) (st : VState) : VState :=
  {| vs_store := vs_store st; verified_chunks := verified_chunks st;
     corrupt_chunks := {[d]} ∪ corrupt_chunks st; vs_errors := vs_errors st; vs_locked := vs_locked st |}.
Definition add_verified (d : digest) (st : VState) : VState :=
  {| vs_store := vs_store st; verified_chunks := {[d]} ∪ verified_chunks st;
     corrupt_chunks := corrupt_chunks st; vs_errors := vs_errors st; vs_locked := vs_locked st |}.
(** [rename_corrupt_chunk]: the file or object gets another name, or that fails and is only logged. *)
Definition chunk_renamed (d : digest) (renamed : bool) (st : VState) : VState :=
  {| vs_store := if renamed then delete d (vs_store st) else vs_store st;
     verified_chunks := verified_chunks st; corrupt_chunks := corrupt_chunks st;
     vs_errors := vs_errors st; vs_locked := vs_locked st |}.

Definition set_locked (l : gset mutex) (st : VState) : VState :=
  {| vs_store := vs_store st; verified_chunks := verified_chunks st;
     corrupt_chunks := corrupt_chunks st; vs_errors := vs_errors st; vs_locked := l |}.

(** ** The work on one chunk

    A job is the list of the accesses that it still has to do. *)
Inductive action :=
| AError
| ACorrupt (d : digest)
| AVerified (d : digest)
| ARename (d : digest)
| ALock (m : mutex)
| AUnlock (m : mutex)
| ASend (chunk : DataBlob) (d : digest) (size : Z).
Definition is_send (a : action) : bool := match a with ASend _ _ _ => true | _ => false end.
Definition run_action (a : action) (renamed : bool) (st : VState) : VState :=
  match a with
  | AError => add_error st
  | ACorrupt d => add_corrupt d st
  | AVerified d => add_verified d st
  | ARename d => chunk_renamed d renamed st
  | ALock m => set_locked ({[m]} ∪ vs_locked st) st
  | AUnlock m => set_locked (vs_locked st ∖ {[m]}) st
  | ASend _ _ _ => st
  end.

(** [lock()] waits while the mutex is held. *)
Definition enabled (a : action) (st : VState) : bool :=
  match a with ALock m => bool_decide (m ∉ vs_locked st) | _ => true end.

Section verify.
Variable P : Prims.

(** [load_chunk] of the datastore. *)
Definition load_chunk (d : digest) (store : gmap digest object) : res DataBlob :=
  match store !! d with
  | None => Err "unable to load chunk"
  | Some (ObjData data) => load_from_reader P (Ok data)
  | Some ObjReadFails | Some ObjGetFails => Err "unable to load chunk"
  end.

(** [set.lock().unwrap().insert(digest)] holds the mutex for this statement only. *)
Definition insert_corrupt (d : digest) : list action := [ALock CorruptM; ACorrupt d; AUnlock CorruptM].
Definition insert_verified (d : digest) : list action := [ALock VerifiedM; AVerified d; AUnlock VerifiedM].
Definition rename_chunk (d : digest) : list action := [ALock StoreM; ARename d; AUnlock StoreM].
Definition add_corrupt_chunk (d : digest) : list action :=
  [ALock CorruptM; ACorrupt d; AError] ++ rename_chunk d ++ [AUnlock CorruptM].

(** [verify_chunk_by_backend]; a thread that panics does nothing any more. *)
Definition verify_chunk_by_backend (b : Backend) (info : ChunkReadInfo) (store : gmap digest object)
    : list action :=
  let d := cri_digest info in
  match b with
  | Filesystem =>
      match load_chunk d store with
      | Err _ => add_corrupt_chunk d
      | Ok chunk => [ASend chunk d (ChunkReadInfo_size info)]
      | Panic _ => []
      end
  | S3 =>
      match store !! d with
      | Some (ObjData raw_chunk) =>
          match from_raw raw_chunk with
          | Ok chunk => [ASend chunk d (ChunkReadInfo_size info)]
          | Err _ => add_corrupt_chunk d
          | Panic _ => []
          end
      | Some ObjReadFails => [AError]
      | None => add_corrupt_chunk d
      | Some ObjGetFails => [AError]
      end
  end.

Definition mode_eqb (chunk_mode : CryptMode) (mode : CryptModeT) : bool :=
  match chunk_mode, mode with
  | CryptNone, ModeNone | CryptEncrypt, ModeEncrypt => true
  | _, _ => false
  end.
(** The handler of the decoder pool. *)
Definition decode_chunk (mode : CryptModeT) (chunk : DataBlob) (d : digest) (size : Z) : list action :=
  match crypt_mode chunk with
  | Err _ => insert_corrupt d ++ [AError]
  | Panic _ => []
  | Ok chunk_crypt_mode =>
      (if negb (mode_eqb chunk_crypt_mode mode) then [AError] else [])
      ++ match verify_unencrypted P chunk size d with
         | Err _ => insert_corrupt d ++ [AError] ++ rename_chunk d
         | Ok _ => insert_verified d
         | Panic _ => []
         end
  end.

(** ** The order of the chunks *)
Definition skip_chunk (d : digest) (st : VState) : bool * VState :=
  if bool_decide (d ∈ verified_chunks st) then (true, st)
  else if bool_decide (d ∈ corrupt_chunks st) then (true, add_error st)
  else (false, st).

Section index.
Context {R : Type} `{IndexFile R} (index : R).

(** The loop of [get_chunks_in_order] over the positions; [abort] tells where [check_abort] fails,
    [ino] is the inode of a chunk, [u64::MAX] without one, and 0 if the order is not by inode. *)
Fixpoint list_chunks (abort : Z -> bool) (ino : digest -> Z) (positions : list Z)
    (chunk_list : list (Z * Z)) (st : VState) : res (list (Z * Z)) * VState :=
  match positions with
  | [] => (Ok chunk_list, st)
  | pos :: positions =>
      if (Z.land pos 1023 =? 0) && abort pos then (Err "abort requested - aborting task", st) else
      try! info := unwrap (chunk_info index pos) for st in
      let '(skip, st) := skip_chunk (cri_digest info) st in
      if skip : bool then list_chunks abort ino positions chunk_list st
      else list_chunks abort ino positions (chunk_list ++ [(pos, ino (cri_digest info))]) st
  end.
Definition positions : list Z := seqZ 0 (index_count index).
(** [sort_unstable_by_key], when the order is by inode. *)
Inductive get_chunks_in_order (by_inode : bool) (abort : Z -> bool) (ino : digest -> Z) (st : VState)
    : res (list Z) -> VState -> Prop :=
| ordered l l' st' :
    list_chunks abort ino positions [] st = (Ok l, st') -> l' ≡ₚ l ->
    (if by_inode then StronglySorted (fun a b => a.2 <= b.2) l' else l' = l) ->
    get_chunks_in_order by_inode abort ino st (Ok l'.*1) st'
| not_ordered r st' :
    list_chunks abort ino positions [] st = (r, st') -> is_ok r = false ->
    get_chunks_in_order by_inode abort ino st
      (match r with Panic e => Panic e | Err e => Err e | Ok _ => Ok [] end) st'.

(** ** The threads *)
Inductive main_thread :=
| MLoop (todo : list Z)
| MLook (info : ChunkReadInfo) (todo : list Z)  (* not verified; look at the corrupt chunks *)
| MCount (todo : list Z)                        (* corrupt; count it *)
| MSend (info : ChunkReadInfo) (todo : list Z)  (* to be sent to the readers *)
| MDone (r : res unit).

(** Jobs in progress have the digest they are about. *)
Record System := {
  sy_main : main_thread;
  sy_st : VState;
  sy_reader_queue : list ChunkReadInfo;
  sy_reading : list (digest * list action);
  sy_decoder_queue : list (DataBlob * digest * Z);
  sy_decoding : list (digest * list action);
}.
Record Pools := {
  read_threads : nat; read_capacity : nat; verify_threads : nat; verify_capacity : nat;
}.
(** [may_abort]: whether an abort of the task or a shutdown is requested at all. *)
Variables (b : Backend) (mode : CryptModeT) (pools : Pools) (may_abort : bool).

(** One access by a thread of a pool, or the end of its job. *)
Inductive work : list (digest * list action) -> VState -> list (digest * list action) -> VState -> Prop :=
| work_act l1 d a rest l2 renamed st :
    is_send a = false -> enabled a st = true ->
    work (l1 ++ (d, a :: rest) :: l2) st (l1 ++ (d, rest) :: l2) (run_action a renamed st)
| work_done l1 d l2 st : work (l1 ++ (d, []) :: l2) st (l1 ++ l2) st.

Definition set_main (m : main_thread) (s : System) : System :=
  {| sy_main := m; sy_st := sy_st s; sy_reader_queue := sy_reader_queue s; sy_reading := sy_reading s;
     sy_decoder_queue := sy_decoder_queue s; sy_decoding := sy_decoding s |}.

(** The main thread of [verify_index_chunks]. *)
Inductive main_step (s : System) : System -> Prop :=
| main_abort pos todo e :
    sy_main s = MLoop (pos :: todo) -> may_abort = true -> main_step s (set_main (MDone (Err e)) s)
| main_unwrap pos todo e :
    sy_main s = MLoop (pos :: todo) -> chunk_info index pos = None ->
    main_step s (set_main (MDone (Panic e)) s)
| main_verified pos todo info :
    sy_main s = MLoop (pos :: todo) -> chunk_info index pos = Some info ->
    VerifiedM ∉ vs_locked (sy_st s) -> cri_digest info ∈ verified_chunks (sy_st s) ->
    main_step s (set_main (MLoop todo) s)
| main_not_verified pos todo info :
    sy_main s = MLoop (pos :: todo) -> chunk_info index pos = Some info ->
    VerifiedM ∉ vs_locked (sy_st s) -> cri_digest info ∉ verified_chunks (sy_st s) ->
    main_step s (set_main (MLook info todo) s)
| main_corrupt info todo :
    sy_main s = MLook info todo -> CorruptM ∉ vs_locked (sy_st s) ->
    cri_digest info ∈ corrupt_chunks (sy_st s) ->
    main_step s (set_main (MCount todo) s)
| main_count todo :
    sy_main s = MCount todo ->
    main_step s {| sy_main := MLoop todo; sy_st := add_error (sy_st s);
                   sy_reader_queue := sy_reader_queue s; sy_reading := sy_reading s;
                   sy_decoder_queue := sy_decoder_queue s; sy_decoding := sy_decoding s |}
| main_not_corrupt info todo :
    sy_main s = MLook info todo -> CorruptM ∉ vs_locked (sy_st s) ->
    cri_digest info ∉ corrupt_chunks (sy_st s) ->
    main_step s (set_main (MSend info todo) s)
| main_send info todo :
    sy_main s = MSend info todo -> (length (sy_reader_queue s) < read_capacity pools)%nat ->
    main_step s {| sy_main := MLoop todo; sy_st := sy_st s;
                   sy_reader_queue := sy_reader_queue s ++ [info]; sy_reading := sy_reading s;
                   sy_decoder_queue := sy_decoder_queue s; sy_decoding := sy_decoding s |}
| main_result :
    (* [reader_pool.complete()], then the counter is read *)
    sy_main s = MLoop [] -> sy_reader_queue s = [] -> sy_reading s = [] ->
    main_step s (set_main (MDone (if (0 <? vs_errors (sy_st s))%nat
                                  then Err "chunks could not be verified" else Ok tt)) s).

(** The threads of the pools. *)
Inductive pool_step (s : System) : System -> Prop :=
| reader_take info queue :
    sy_reader_queue s = info :: queue -> (length (sy_reading s) < read_threads pools)%nat ->
    pool_step s {| sy_main := sy_main s; sy_st := sy_st s; sy_reader_queue := queue;
                   sy_reading := sy_reading s
                     ++ [(cri_digest info, verify_chunk_by_backend b info (vs_store (sy_st s)))];
                   sy_decoder_queue := sy_decoder_queue s; sy_decoding := sy_decoding s |}
| reader_work reading st :
    work (sy_reading s) (sy_st s) reading st ->
    pool_step s {| sy_main := sy_main s; sy_st := st; sy_reader_queue := sy_reader_queue s;
                   sy_reading := reading; sy_decoder_queue := sy_decoder_queue s;
                   sy_decoding := sy_decoding s |}
| reader_send l1 d chunk d' size rest l2 :
    sy_reading s = l1 ++ (d, ASend chunk d' size :: rest) :: l2 ->
    (length (sy_decoder_queue s) < verify_capacity pools)%nat ->
    pool_step s {| sy_main := sy_main s; sy_st := sy_st s; sy_reader_queue := sy_reader_queue s;
                   sy_reading := l1 ++ (d, rest) :: l2;
                   sy_decoder_queue := sy_decoder_queue s ++ [(chunk, d', size)];
                   sy_decoding := sy_decoding s |}
| decoder_take chunk d size queue :
    sy_decoder_queue s = (chunk, d, size) :: queue ->
    (length (sy_decoding s) < verify_threads pools)%nat ->
    pool_step s {| sy_main := sy_main s; sy_st := sy_st s; sy_reader_queue := sy_reader_queue s;
                   sy_reading := sy_reading s; sy_decoder_queue := queue;
                   sy_decoding := sy_decoding s ++ [(d, decode_chunk mode chunk d size)] |}
| decoder_work decoding st :
    work (sy_decoding s) (sy_st s) decoding st ->
    pool_step s {| sy_main := sy_main s; sy_st := st; sy_reader_queue := sy_reader_queue s;
                   sy_reading := sy_reading s; sy_decoder_queue := sy_decoder_queue s;
                   sy_decoding := decoding |}.

Definition step (s s' : System) : Prop := main_step s s' \/ pool_step s s'.
Definition start (todo : list Z) (st : VState) : System :=
  {| sy_main := MLoop todo; sy_st := st; sy_reader_queue := []; sy_reading := [];
     sy_decoder_queue := []; sy_decoding := [] |}.
(** All threads are done; the pools are dropped when the function returns, which waits for that. *)
Definition finished (s : System) (r : res unit) : Prop :=
  sy_main s = MDone r /\ sy_reader_queue s = [] /\ sy_reading s = [] /\
  sy_decoder_queue s = [] /\ sy_decoding s = [].

(** [VerifyWorker::new]: the numbers of threads are arguments, else settings of the datastore, else 1 and 4. *)
Definition worker_threads (read_arg verify_arg read_setting verify_setting : option nat) : nat * nat :=
  (default 1%nat (match read_arg with Some n => Some n | None => read_setting end),
   default 4%nat (match verify_arg with Some n => Some n | None => verify_setting end)).
Definition worker_new (store : gmap digest object) : VState :=
  {| vs_store := store; verified_chunks := ∅; corrupt_chunks := ∅; vs_errors := 0; vs_locked := ∅ |}.

(** [verify_index_chunks]: the counter of errors is new for every index, the sets are shared. *)
Definition new_errors (st : VState) : VState :=
  {| vs_store := vs_store st; verified_chunks := verified_chunks st;
     corrupt_chunks := corrupt_chunks st; vs_errors := 0; vs_locked := vs_locked st |}.
Inductive verify_index_chunks (by_inode : bool) (abort : Z -> bool) (ino : digest -> Z) (st : VState)
    : res unit -> VState -> Prop :=
| verify_listing_fails r st' :
    get_chunks_in_order by_inode (fun pos => may_abort && abort pos) ino (new_errors st) r st' -> is_ok r = false ->
    verify_index_chunks by_inode abort ino st
      (match r with Panic e => Panic e | Err e => Err e | Ok _ => Ok tt end) st'
| verify_runs todo st1 s r :
    get_chunks_in_order by_inode (fun pos => may_abort && abort pos) ino (new_errors st) (Ok todo) st1 ->
    rtc step (start todo st1) s -> finished s r ->
    verify_index_chunks by_inode abort ino st r (sy_st s).
End index.
End verify.
