(* ===== verification/VerifySpec.v ===== *)
(** * Correctness of the verification of an index

    What a successful result of [verify_index_chunks] says under all interleavings of its threads, that it always
    ends, that it raises no false alarms, and two ways in which a corrupt index passes. *)

From S2P Require Import Prelude IndexFile DataBlob DataBlobSpec Manifest Verify.
From Stdlib Require Import Strings.Byte Sorting.Sorted.
Import BlobSpec.

(** ** Changes of the shared state: chunks are only removed, the rest only grows *)
Record st_le (st st' : VState) : Prop := {
  le_store : vs_store st' ⊆ vs_store st;
  le_verified : verified_chunks st ⊆ verified_chunks st';
  le_corrupt : corrupt_chunks st ⊆ corrupt_chunks st';
  le_errors : (vs_errors st <= vs_errors st')%nat;
}.
#[export] Instance st_le_preorder : PreOrder st_le.
Proof.
  split; [by split|]. intros x y z [] []. split; [by etransitivity|by etransitivity|by etransitivity|lia].
Qed.

Lemma run_action_le a renamed st : st_le st (run_action a renamed st).
Proof.
  destruct a; split; cbn; try done; try set_solver; try lia. destruct renamed; [apply delete_subseteq|done].
Qed.
Lemma work_le jobs st jobs' st' : work jobs st jobs' st' -> st_le st st'.
Proof. intros []; [apply run_action_le|reflexivity]. Qed.

Section verify.
Context (P : Prims) `{PrimsLaws P} (total : prims_total P).
Context {R : Type} `{IndexFile R} (index : R).
Context (b : Backend) (mode : CryptModeT) (pools : Pools) (may_abort : bool).

(** An entry of the index. *)
Definition in_index (info : ChunkReadInfo) : Prop :=
  exists pos, pos ∈ positions index /\ chunk_info index pos = Some info.
(** The chunk that the backend delivers. *)
Definition readable (store : gmap digest object) (d : digest) (chunk : DataBlob) : Prop :=
  exists raw, store !! d = Some (ObjData raw) /\ from_raw raw = Ok chunk /\
    (b = Filesystem -> load_from_reader P (Ok raw) = Ok chunk).

Lemma load_from_raw raw chunk : load_from_reader P (Ok raw) = Ok chunk -> from_raw raw = Ok chunk.
Proof.
  cbn [load_from_reader]. unfold from_raw_with_crc_check. destruct (from_raw raw) as [c| |]; [|done..].
  destruct (verify_crc P c); [|done..]. by intros [= ->].
Qed.
Lemma load_no_panic raw : is_panic (load_from_reader P (Ok raw)) = false.
Proof.
  cbn [load_from_reader]. unfold from_raw_with_crc_check. pose proof (from_raw_no_panic raw) as Hp.
  destruct (from_raw raw) as [c|e|e] eqn:Hr; [|done..].
  destruct (compute_crc_loaded P raw c Hr) as (n & _ & _ & Hc & Hcrc). unfold verify_crc. rewrite Hc, Hcrc.
  by case_if.
Qed.

(** What reading a chunk does: an error is counted, or the chunk is sent on. *)
Lemma read_actions_spec info store :
  let l := verify_chunk_by_backend P b info store in
  (AError ∈ l /\ (forall a, a ∈ l -> is_send a = false)) \/
  exists chunk, l = [ASend chunk (cri_digest info) (ChunkReadInfo_size info)] /\
    readable store (cri_digest info) chunk.
Proof.
  cbv zeta. unfold verify_chunk_by_backend, load_chunk, readable.
  assert (forall d a, a ∈ add_corrupt_chunk d -> is_send a = false) as Hc.
  { intros d a. unfold add_corrupt_chunk, rename_chunk. cbn [app]. rewrite !elem_of_cons, elem_of_nil. naive_solver. }
  assert (forall a, a ∈ [AError] -> is_send a = false) as He.
  { intros a. rewrite list_elem_of_singleton. by intros ->. }
  destruct b; destruct (store !! cri_digest info) as [[raw| |]|] eqn:E;
    try (left; split; [set_solver|by eauto]).
  - pose proof (load_no_panic raw). destruct (load_from_reader P (Ok raw)) as [c| |] eqn:El; [|left..|done].
    + right. exists c. split; [done|]. exists raw. split; [done|]. split; [by apply load_from_raw|done].
    + split; [set_solver|by eauto].
  - pose proof (from_raw_no_panic raw). destruct (from_raw raw) as [c| |] eqn:El; [|left..|done].
    + right. exists c. split; [done|]. by exists raw.
    + split; [set_solver|by eauto].
Qed.

(** What checking a chunk does: it is recorded as verified or an error is counted. *)
Definition chunk_passes (chunk : DataBlob) (size : Z) (d : digest) : Prop :=
  verify_unencrypted P chunk size d = Ok tt.
Definition mode_matches (chunk : DataBlob) : Prop :=
  exists m, crypt_mode chunk = Ok m /\ mode_eqb m mode = true.

Lemma verify_no_panic raw chunk size d :
  from_raw raw = Ok chunk -> is_panic (verify_unencrypted P chunk size d) = false.
Proof.
  intros Hr. pose proof (from_raw_inv raw chunk Hr) as (_ & Hm & _). unfold verify_unencrypted. rewrite Hm.
  case_if; [done|]. pose proof (decode_no_panic P raw chunk None (Some d) total Hr).
  destruct (decode P chunk None (Some d)); [by case_if|done..].
Qed.
Lemma crypt_mode_loaded raw chunk : from_raw raw = Ok chunk -> exists m, crypt_mode chunk = Ok m.
Proof.
  intros Hr. pose proof (from_raw_inv raw chunk Hr) as (_ & Hm & Hk). unfold crypt_mode. rewrite Hm.
  destruct Hk as [[[-> | ->] _]|[[-> | ->] _]]; by eexists.
Qed.

Lemma decode_actions_spec raw chunk d size :
  from_raw raw = Ok chunk ->
  let l := decode_chunk P mode chunk d size in
  (forall a, a ∈ l -> is_send a = false) /\ (length l <= 8)%nat /\
  (AError ∈ l \/ AVerified d ∈ l) /\
  (forall d', AVerified d' ∈ l -> d' = d /\ chunk_passes chunk size d /\
     (mode_matches chunk \/ head l = Some AError)) /\
  (chunk_passes chunk size d -> mode_matches chunk -> l = insert_verified d).
Proof.
  intros Hr. cbv zeta. unfold decode_chunk, chunk_passes, mode_matches.
  destruct (crypt_mode_loaded _ _ Hr) as [m ->]. pose proof (verify_no_panic raw chunk size d Hr) as Hp.
  destruct (verify_unencrypted P chunk size d) as [[]|e|e]; [| |done]; destruct (mode_eqb m mode) eqn:Em; cbn;
    repeat setoid_rewrite elem_of_cons; repeat setoid_rewrite elem_of_nil; split_and!; try lia;
    try (intros _ (? & [= <-] & ?); congruence); naive_solver.
Qed.

(** ** The invariant *)
Section invariant.
Context (store0 : gmap digest object) (verified0 : gset digest).

(** The size that the index has for a chunk. *)
Definition sized (d : digest) (size : Z) : Prop :=
  exists info, in_index info /\ cri_digest info = d /\ ChunkReadInfo_size info = size.
(** A chunk was read and passed the check; a wrong mode was counted as an error. *)
Definition checked (errors : nat) (d : digest) : Prop :=
  exists chunk size, readable store0 d chunk /\ sized d size /\ chunk_passes chunk size d /\
    (mode_matches chunk \/ (0 < errors)%nat).

(** The result for a chunk is known, or it is with the decoders. *)
Definition with_decoders (s : System) (d : digest) : Prop :=
  d ∈ (sy_decoder_queue s).*1.*2 \/ d ∈ (sy_decoding s).*1.
Definition settled (s : System) (d : digest) : Prop :=
  d ∈ verified_chunks (sy_st s) \/ (0 < vs_errors (sy_st s))%nat \/ with_decoders s d.
(** It is not yet with the decoders. *)
Definition todo_of (m : main_thread) : list Z :=
  match m with
  | MLoop todo | MLook _ todo | MCount todo | MSend _ todo => todo
  | MDone _ => []
  end.
Definition at_main (m : main_thread) (d : digest) : Prop :=
  (exists pos info, pos ∈ todo_of m /\ chunk_info index pos = Some info /\ cri_digest info = d) \/
  match m with
  | MLook info _ | MSend info _ => cri_digest info = d
  | MCount _ => True
  | MDone r => r <> Ok tt
  | MLoop _ => False
  end.
Definition with_readers (s : System) (d : digest) : Prop :=
  d ∈ cri_digest <$> sy_reader_queue s \/ d ∈ (sy_reading s).*1.

Definition reading_ok (s : System) (j : digest * list action) : Prop :=
  exists info store before, in_index info /\ cri_digest info = j.1 /\ store ⊆ store0 /\
    verify_chunk_by_backend P b info store = before ++ j.2 /\
    (AError ∈ before -> (0 < vs_errors (sy_st s))%nat) /\
    (forall c d n, ASend c d n ∈ before -> settled s j.1).
Definition decoding_ok (st : VState) (j : digest * list action) : Prop :=
  exists chunk size before, readable store0 j.1 chunk /\ sized j.1 size /\
    decode_chunk P mode chunk j.1 size = before ++ j.2 /\
    (AError ∈ before -> (0 < vs_errors st)%nat) /\
    (AVerified j.1 ∈ before -> j.1 ∈ verified_chunks st).
Definition queued_ok (j : DataBlob * digest * Z) : Prop := readable store0 j.1.2 j.1.1 /\ sized j.1.2 j.2.

(** What an [Ok] says: at most as many chunks as the decoders can hold are left out. *)
Definition ok_says : Prop :=
  exists missed, (length missed <= verify_capacity pools + verify_threads pools)%nat /\
    forall info, in_index info -> cri_digest info ∈ missed \/ cri_digest info ∈ verified0 \/
      exists chunk size, readable store0 (cri_digest info) chunk /\ sized (cri_digest info) size /\
        chunk_passes chunk size (cri_digest info) /\ mode_matches chunk.

Record inv (s : System) : Prop := {
  inv_store : vs_store (sy_st s) ⊆ store0;
  inv_queue : Forall in_index (sy_reader_queue s);
  inv_reading : Forall (reading_ok s) (sy_reading s);
  inv_decoder_queue : Forall queued_ok (sy_decoder_queue s);
  inv_decoding : Forall (decoding_ok (sy_st s)) (sy_decoding s);
  inv_verified d : d ∈ verified_chunks (sy_st s) -> d ∈ verified0 \/ checked (vs_errors (sy_st s)) d;
  inv_all info : in_index info ->
    settled s (cri_digest info) \/ with_readers s (cri_digest info) \/ at_main (sy_main s) (cri_digest info);
  inv_main : match sy_main s with
             | MLook info _ | MSend info _ => in_index info
             | MDone (Ok _) => ok_says
             | _ => True
             end;
  inv_todo pos : pos ∈ todo_of (sy_main s) -> pos ∈ positions index;
  inv_room : (length (sy_decoder_queue s) <= verify_capacity pools)%nat /\
             (length (sy_decoding s) <= verify_threads pools)%nat;
}.

(** Monotonicity *)
Lemma checked_mono n n' d : (n <= n')%nat -> checked n d -> checked n' d.
Proof. intros Hn (c & z & ? & ? & ? & Hm). exists c, z. split_and!; [done..|]. destruct Hm; [by left|right; lia]. Qed.
Lemma decoding_ok_mono st st' j : st_le st st' -> decoding_ok st j -> decoding_ok st' j.
Proof.
  intros [_ Hv _ He] (c & z & before & ? & ? & ? & H1 & H2). exists c, z, before. split_and!; [done..| |].
  - intros Hx. specialize (H1 Hx). lia.
  - intros Hx. by apply Hv, H2.
Qed.
Lemma settled_mono s s' d :
  st_le (sy_st s) (sy_st s') -> (with_decoders s d -> settled s' d) -> settled s d -> settled s' d.
Proof.
  intros [_ Hv _ He] Hd [H1|[H1|H1]]; [left; by apply Hv|right; left; lia|by apply Hd].
Qed.
Lemma reading_ok_mono s s' j :
  st_le (sy_st s) (sy_st s') -> (settled s j.1 -> settled s' j.1) -> reading_ok s j -> reading_ok s' j.
Proof.
  intros [_ _ _ He] Hs (info & st & before & ? & ? & ? & ? & H1 & H2). exists info, st, before. split_and!; [done..| |].
  - intros Hx. specialize (H1 Hx). lia.
  - intros c d n Hx. by eapply Hs, H2.
Qed.
Lemma inv_verified_mono st st' :
  st_le st st' -> (forall d, d ∈ verified_chunks st -> d ∈ verified0 \/ checked (vs_errors st) d) ->
  (forall d, d ∈ verified_chunks st' -> d ∈ verified_chunks st \/ checked (vs_errors st') d) ->
  forall d, d ∈ verified_chunks st' -> d ∈ verified0 \/ checked (vs_errors st') d.
Proof.
  intros [_ _ _ He] Ho Hn d [Hd|Hd]%Hn; [|by right].
  destruct (Ho d Hd) as [?|Hc]; [by left|right]. by eapply checked_mono.
Qed.

(** The end of a job of the decoders settles its chunk. *)
Lemma decoding_settles st d : decoding_ok st (d, []) -> d ∈ verified_chunks st \/ (0 < vs_errors st)%nat.
Proof.
  intros (c & z & before & (raw & _ & Hr & _) & _ & E & H1 & H2). cbn [fst snd] in *. rewrite app_nil_r in E.
  destruct (decode_actions_spec raw c d z Hr) as (_ & _ & Hx & _). rewrite E in Hx. naive_solver.
Qed.
Lemma reading_settles s d : reading_ok s (d, []) -> settled s d.
Proof.
  intros (info & st & before & _ & Ed & _ & E & H1 & H2). cbn [fst snd] in *. rewrite app_nil_r in E.
  destruct (read_actions_spec info st) as [[Hx _]|(c & Hx & _)].
  - rewrite E in Hx. right. left. by apply H1.
  - rewrite E in Hx. eapply H2. rewrite Hx. by left.
Qed.

(** Jobs with the same digests as before, in any state *)
Lemma work_digests jobs st jobs' st' d :
  work jobs st jobs' st' -> d ∈ jobs.*1 ->
  d ∈ jobs'.*1 \/ exists l1 l2, jobs = l1 ++ (d, []) :: l2 /\ jobs' = l1 ++ l2 /\ st' = st.
Proof.
  intros [l1 d' a rest l2 renamed st0 Ha Hen|l1 d' l2 st0]; rewrite !fmap_app, !fmap_cons, !elem_of_app, !elem_of_cons; cbn.
  - naive_solver.
  - intros [?|[->|?]]; [by left; left| |by left; right]. right. by exists l1, l2.
Qed.
Lemma work_length jobs st jobs' st' : work jobs st jobs' st' -> (length jobs' <= length jobs)%nat.
Proof. intros []; rewrite !length_app; cbn; lia. Qed.

(** A step of a decoder *)
Lemma work_decoding jobs st jobs' st' :
  work jobs st jobs' st' -> Forall (decoding_ok st) jobs ->
  Forall (decoding_ok st') jobs' /\
  forall d, d ∈ verified_chunks st' -> d ∈ verified_chunks st \/ checked (vs_errors st') d.
Proof.
  intros Hw Hf. pose proof (work_le _ _ _ _ Hw) as Hle.
  assert (Forall (decoding_ok st') jobs) as Hf'.
  { eapply Forall_impl; [exact Hf|]. intros j. by apply decoding_ok_mono. }
  destruct Hw as [l1 d a rest l2 renamed st0 Ha Hen|l1 d l2 st0].
  2:{ apply Forall_app in Hf' as [? [_ ?]%Forall_cons]. split; [by apply Forall_app|by left]. }
  apply Forall_app in Hf as [_ [Hj _]%Forall_cons]. apply Forall_app in Hf' as [? [_ ?]%Forall_cons].
  destruct Hj as (c & z & before & Hread & Hz & E & Her & Hse). cbn [fst snd] in *.
  destruct Hread as (raw & Hst & Hr & Hl). pose proof (decode_actions_spec raw c d z Hr) as (_ & _ & _ & Hv & _).
  assert (readable store0 d c) as Hread by (by exists raw).
  split.
  - apply Forall_app. split; [done|]. constructor; [|done]. exists c, z, (before ++ [a]). cbn [fst snd].
    rewrite <- app_assoc. split_and!; [done..| |]; rewrite elem_of_app, list_elem_of_singleton.
    + intros [Hx|<-]; [specialize (Her Hx); pose proof (le_errors _ _ Hle); lia|cbn; lia].
    + intros [Hx|<-]; [by apply (le_verified _ _ Hle), Hse|cbn; set_solver].
  - intros d'. destruct a; cbn; try (by left).
    intros [Hd'|?]%elem_of_union; [|by left]. apply elem_of_singleton in Hd' as ->. right.
    destruct (Hv d0) as (-> & Hpass & Hmode); [rewrite E; set_solver|].
    exists c, z. split_and!; [done..|]. destruct Hmode as [Hm|Hm]; [by left|]. right. apply Her.
    rewrite E in Hm. destruct before as [|x before]; [done|]. injection Hm as ->. apply list_elem_of_here.
Qed.

(** A step of a reader *)
Lemma work_reading jobs st jobs' st' (s s' : System) :
  work jobs st jobs' st' -> sy_st s = st -> sy_st s' = st' -> (forall d, settled s d -> settled s' d) ->
  Forall (reading_ok s) jobs ->
  Forall (reading_ok s') jobs' /\ verified_chunks st' = verified_chunks st.
Proof.
  intros Hw Es Es' Hs Hf. pose proof (work_le _ _ _ _ Hw) as Hle. rewrite <- Es, <- Es' in Hle.
  assert (Forall (reading_ok s') jobs) as Hf'.
  { eapply Forall_impl; [exact Hf|]. intros j. apply reading_ok_mono; [done|apply Hs]. }
  destruct Hw as [l1 d a rest l2 renamed st0 Ha Hen|l1 d l2 st0].
  2:{ apply Forall_app in Hf' as [? [_ ?]%Forall_cons]. split; [by apply Forall_app|done]. }
  apply Forall_app in Hf' as [? [Hj ?]%Forall_cons].
  destruct Hj as (info & store & before & Hin & Hd & Hst & E & Her & Hse). cbn [fst snd] in *.
  split.
  - apply Forall_app. split; [done|]. constructor; [|done]. exists info, store, (before ++ [a]). cbn [fst snd].
    rewrite <- app_assoc. split_and!; [done..| |]; setoid_rewrite elem_of_app; setoid_rewrite list_elem_of_singleton.
    + intros [Hx|<-]; [by apply Her|]. rewrite Es'. cbn. lia.
    + intros c d' n [Hx|<-]; [by eapply Hse|done].
  - destruct a; try done. exfalso. unfold verify_chunk_by_backend, add_corrupt_chunk in E.
    assert (AVerified d0 ∈ before ++ AVerified d0 :: rest) as Hx by set_solver. rewrite <- E in Hx.
    destruct b; repeat case_match; set_solver.
Qed.

(** ** The invariant is kept *)
Ltac sys_simpl := cbn [sy_main sy_st sy_reader_queue sy_reading sy_decoder_queue sy_decoding set_main] in *.

Lemma inv_set_main m s :
  inv s ->
  (forall info, in_index info -> at_main (sy_main s) (cri_digest info) ->
     settled s (cri_digest info) \/ with_readers s (cri_digest info) \/ at_main m (cri_digest info)) ->
  match m with
  | MLook info _ | MSend info _ => in_index info
  | MDone (Ok _) => ok_says
  | _ => True
  end ->
  (forall pos, pos ∈ todo_of m -> pos ∈ todo_of (sy_main s)) -> inv (set_main m s).
Proof.
  intros [] Hm Hok Htodo. split; sys_simpl; try done; [|by auto].
  intros info Hin. destruct (inv_all0 info Hin) as [?|[?|?]]; [by left|by right; left|by apply Hm].
Qed.

Lemma inv_ok_says s :
  inv s -> sy_main s = MLoop [] -> sy_reader_queue s = [] -> sy_reading s = [] -> vs_errors (sy_st s) = 0%nat ->
  ok_says.
Proof.
  intros Hi Hm Hq Hr He. exists ((sy_decoder_queue s).*1.*2 ++ (sy_decoding s).*1). split.
  { rewrite length_app, !length_fmap. pose proof (inv_room s Hi). lia. }
  intros info Hin. rewrite elem_of_app.
  destruct (inv_all s Hi info Hin) as [[Hv|[?|Hd]]|[Hw|Ha]]; [|lia| | |].
  - right. destruct (inv_verified s Hi _ Hv) as [?|(c & z & ? & ? & ? & Hmode)]; [by left|right].
    exists c, z. split_and!; [done..|]. destruct Hmode; [done|lia].
  - by left.
  - unfold with_readers in Hw. rewrite Hq, Hr in Hw. set_solver.
  - rewrite Hm in Ha. destruct Ha as [(pos & ? & Hpos & _)|[]]. set_solver.
Qed.

Lemma in_index_at pos info : pos ∈ positions index -> chunk_info index pos = Some info -> in_index info.
Proof. intros. by exists pos. Qed.

Lemma inv_main_count s todo :
  inv s -> sy_main s = MCount todo ->
  inv {| sy_main := MLoop todo; sy_st := add_error (sy_st s); sy_reader_queue := sy_reader_queue s;
         sy_reading := sy_reading s; sy_decoder_queue := sy_decoder_queue s; sy_decoding := sy_decoding s |}.
Proof.
  intros [] E. assert (st_le (sy_st s) (add_error (sy_st s))) as Hle by apply (run_action_le AError true).
  split; sys_simpl; try done.
  - eapply Forall_impl; [exact inv_reading0|]. intros j. apply reading_ok_mono; sys_simpl; [done|].
    apply settled_mono; [done|]. intros ?. by right; right.
  - eapply Forall_impl; [exact inv_decoding0|]. intros j. by apply decoding_ok_mono.
  - apply (inv_verified_mono (sy_st s)); [done..|by left].
  - intros info _. left. right. left. cbn. lia.
  - intros pos Hp. apply inv_todo0. by rewrite E.
Qed.

Lemma inv_main_send s info todo :
  inv s -> sy_main s = MSend info todo ->
  inv {| sy_main := MLoop todo; sy_st := sy_st s; sy_reader_queue := sy_reader_queue s ++ [info];
         sy_reading := sy_reading s; sy_decoder_queue := sy_decoder_queue s; sy_decoding := sy_decoding s |}.
Proof.
  intros [] E. rewrite E in *. split; sys_simpl; try done.
  - apply Forall_app. split; [done|by constructor].
  - intros info' Hin. destruct (inv_all0 info' Hin) as [?|[[?|?]|[(p & i & Hp & Ei & Ed)|Ed]]].
    + by left.
    + right; left; left. sys_simpl. rewrite fmap_app. set_solver.
    + by right; left; right.
    + right; right; left. by exists p, i.
    + right; left; left. sys_simpl. rewrite fmap_app. set_solver.
Qed.

(** The position at the head is done, or is now looked at. *)
Lemma at_main_next pos todo info m d :
  chunk_info index pos = Some info -> todo_of m = todo -> at_main (MLoop (pos :: todo)) d ->
  cri_digest info = d \/ at_main m d.
Proof.
  intros E1 Em [(p & i & Hp & Ei & Ed)|[]]. apply elem_of_cons in Hp as [->|Hp].
  - rewrite E1 in Ei. injection Ei as <-. by left.
  - right; left. exists p, i. by rewrite Em.
Qed.

Lemma inv_main_step s s' : inv s -> main_step index pools may_abort s s' -> inv s'.
Proof.
  intros Hi Hs. pose proof (inv_main s Hi) as Hm. pose proof (inv_todo s Hi) as Ht.
  destruct Hs as [pos todo e E _|pos todo e E E1|pos todo info E E1 _ Hv|pos todo info E E1 _ Hv|info todo E _ Hc
    |todo E|info todo E _ Hc|info todo E Hl|E Hq Hr].
  - apply inv_set_main; [done| |done|set_solver]. intros. by right; right; right.
  - apply inv_set_main; [done| |done|set_solver]. intros. by right; right; right.
  - apply inv_set_main; [done| |done|rewrite E; set_solver]. rewrite E.
    intros info' _ [<-|?]%(at_main_next _ _ _ (MLoop todo) _ E1 eq_refl); [by left; left|by right; right].
  - apply inv_set_main; [done| | |rewrite E; set_solver].
    2:{ eapply in_index_at; [|exact E1]. apply Ht. rewrite E. by left. }
    rewrite E. intros info' _ [Ed|?]%(at_main_next _ _ _ (MLook info todo) _ E1 eq_refl).
    + by right; right; right.
    + by right; right.
  - apply inv_set_main; [done| |done|by rewrite E]. intros. by right; right; right.
  - by apply inv_main_count.
  - rewrite E in Hm. apply inv_set_main; [done| |done|by rewrite E]. rewrite E. intros info' _ Ha. by right; right.
  - by apply inv_main_send.
  - apply inv_set_main; [done| | |set_solver].
    + rewrite E. intros info _ [(p & i & Hp & _)|[]]. set_solver.
    + case_if; [done|]. apply (inv_ok_says s); try done. apply Nat.ltb_ge in Heqb0. lia.
Qed.

(** Threads of the pools: what is with the decoders is settled, what is with the readers moves on. *)
Lemma inv_pool s s' :
  inv s -> sy_main s' = sy_main s -> st_le (sy_st s) (sy_st s') ->
  Forall in_index (sy_reader_queue s') -> Forall (reading_ok s') (sy_reading s') ->
  Forall queued_ok (sy_decoder_queue s') -> Forall (decoding_ok (sy_st s')) (sy_decoding s') ->
  (forall d, d ∈ verified_chunks (sy_st s') -> d ∈ verified_chunks (sy_st s) \/ checked (vs_errors (sy_st s')) d) ->
  (forall d, settled s d -> settled s' d) ->
  (forall d, with_readers s d -> settled s' d \/ with_readers s' d) ->
  (length (sy_decoder_queue s') <= verify_capacity pools)%nat ->
  (length (sy_decoding s') <= verify_threads pools)%nat -> inv s'.
Proof.
  intros [] Em Hle Hq Hr Hdq Hd Hv Hs Hw Hc Hn. split; try done; rewrite ?Em; try done.
  - etransitivity; [apply (le_store _ _ Hle)|done].
  - by apply (inv_verified_mono (sy_st s)).
  - intros info Hin. destruct (inv_all0 info Hin) as [?|[?|?]]; [by left; apply Hs| |by right; right].
    destruct (Hw (cri_digest info)) as [?|?]; [done|by left|by right; left].
Qed.

Lemma inv_reader_step s s' : inv s ->
  (exists info queue, sy_reader_queue s = info :: queue /\
     s' = {| sy_main := sy_main s; sy_st := sy_st s; sy_reader_queue := queue;
             sy_reading := sy_reading s
               ++ [(cri_digest info, verify_chunk_by_backend P b info (vs_store (sy_st s)))];
             sy_decoder_queue := sy_decoder_queue s; sy_decoding := sy_decoding s |}) \/
  (exists reading st, work (sy_reading s) (sy_st s) reading st /\
     s' = {| sy_main := sy_main s; sy_st := st; sy_reader_queue := sy_reader_queue s;
             sy_reading := reading; sy_decoder_queue := sy_decoder_queue s;
             sy_decoding := sy_decoding s |}) -> inv s'.
Proof.
  intros Hi [(info & queue & Eq & ->)|(reading & st & Hw & ->)]; pose proof Hi as [].
  - rewrite Eq in *. apply Forall_cons in inv_queue0 as [Hin Hq].
    apply (inv_pool s); sys_simpl; try done; [| | |lia|lia].
    + apply Forall_app. split; [done|]. constructor; [|done].
      exists info, (vs_store (sy_st s)), []. split_and!; [done..|set_solver|set_solver].
    + by left.
    + intros d. unfold with_readers. sys_simpl. rewrite Eq, fmap_app. set_solver.
  - assert (st_le (sy_st s) st) as Hle by by eapply work_le.
    assert (forall s', sy_st s' = st -> sy_decoder_queue s' = sy_decoder_queue s ->
      sy_decoding s' = sy_decoding s -> forall d, settled s d -> settled s' d) as Hs.
    { intros s' <- E1 E2 d. apply settled_mono; [done|]. unfold settled, with_decoders. rewrite E1, E2. auto. }
    set (s' := {| sy_main := sy_main s; sy_st := st |}).
    destruct (work_reading _ _ _ _ s s' Hw) as [Hf Ev]; [done|done|by apply Hs|done|].
    apply (inv_pool s); try done; unfold s'; sys_simpl; try lia.
    + eapply Forall_impl; [exact inv_decoding0|]. intros j. by apply decoding_ok_mono.
    + rewrite Ev. by left.
    + by apply Hs.
    + intros d [Hd|Hd]; [by right; left|].
      destruct (work_digests _ _ _ _ _ Hw Hd) as [?|(l1 & l2 & E & _ & _)]; [by right; right|].
      left. apply Hs; [done..|]. apply reading_settles. rewrite E in inv_reading0.
      by apply Forall_app in inv_reading0 as [_ [? _]%Forall_cons].
Qed.

Lemma inv_reader_send s l1 d chunk d' size rest l2 :
  inv s -> sy_reading s = l1 ++ (d, ASend chunk d' size :: rest) :: l2 ->
  (length (sy_decoder_queue s) < verify_capacity pools)%nat ->
  inv {| sy_main := sy_main s; sy_st := sy_st s; sy_reader_queue := sy_reader_queue s;
         sy_reading := l1 ++ (d, rest) :: l2;
         sy_decoder_queue := sy_decoder_queue s ++ [(chunk, d', size)]; sy_decoding := sy_decoding s |}.
Proof.
  intros Hi E Hc. set (s' := {| sy_main := sy_main s; sy_st := sy_st s |}). pose proof Hi as [].
  assert (forall x, settled s x -> settled s' x) as Hs.
  { intros x. apply settled_mono; [done|]. unfold settled, with_decoders, s'. sys_simpl. rewrite !fmap_app. set_solver. }
  assert (Forall (reading_ok s') (sy_reading s)) as Hf.
  { eapply Forall_impl; [exact inv_reading0|]. intros j. apply reading_ok_mono; [done|apply Hs]. }
  rewrite E in Hf. apply Forall_app in Hf as [Hf1 [Hj Hf2]%Forall_cons].
  destruct Hj as (info & store & before & Hin & Hd & Hst & Ea & Her & Hse). cbn [fst snd] in *.
  destruct (read_actions_spec info store) as [[_ Hx]|(c & Hx & Hread)].
  { specialize (Hx (ASend chunk d' size)). rewrite Ea in Hx. exfalso. discriminate Hx. set_solver. }
  rewrite Ea in Hx. destruct before as [|x before]; [|by destruct before].
  injection Hx as -> -> -> ->. subst d.
  apply (inv_pool s); try done; unfold s'; sys_simpl; [| | | |rewrite length_app; cbn; lia|lia].
  - apply Forall_app. split; [done|]. constructor; [|done]. exists info, store, [ASend c (cri_digest info) (ChunkReadInfo_size info)].
    split_and!; [done..|set_solver|]. intros _ _ _ _. right; right; left. unfold s'. sys_simpl.
    rewrite !fmap_app. set_solver.
  - apply Forall_app. split; [done|]. constructor; [|done]. split; cbn; [|by exists info].
    destruct Hread as (raw & Hraw & ?). exists raw. split; [|done]. by eapply lookup_weaken.
  - by left.
  - intros y. unfold with_readers. sys_simpl. rewrite E, !fmap_app, !fmap_cons. set_solver.
Qed.

Lemma inv_decoder_step s s' : inv s ->
  (exists chunk d size queue, sy_decoder_queue s = (chunk, d, size) :: queue /\
     (length (sy_decoding s) < verify_threads pools)%nat /\
     s' = {| sy_main := sy_main s; sy_st := sy_st s; sy_reader_queue := sy_reader_queue s;
             sy_reading := sy_reading s; sy_decoder_queue := queue;
             sy_decoding := sy_decoding s ++ [(d, decode_chunk P mode chunk d size)] |}) \/
  (exists decoding st, work (sy_decoding s) (sy_st s) decoding st /\
     s' = {| sy_main := sy_main s; sy_st := st; sy_reader_queue := sy_reader_queue s;
             sy_reading := sy_reading s; sy_decoder_queue := sy_decoder_queue s;
             sy_decoding := decoding |}) -> inv s'.
Proof.
  intros Hi Hx. assert (st_le (sy_st s) (sy_st s')) as Hle.
  { destruct Hx as [(? & ? & ? & ? & _ & _ & ->)|(? & ? & Hw & ->)]; [reflexivity|by eapply work_le]. }
  assert (forall x, settled s x -> settled s' x) as Hs.
  { intros x. apply settled_mono; [done|]. pose proof (inv_decoding s Hi) as Hdec.
    destruct Hx as [(c & d & z & q & E & _ & ->)|(dec & st & Hw & ->)]; unfold settled, with_decoders; sys_simpl.
    - rewrite E, !fmap_app, !fmap_cons. set_solver.
    - intros [?|Hx]; [by right; right; left|]. destruct (work_digests _ _ _ _ _ Hw Hx) as [?|(l1 & l2 & E & _ & ->)].
      + by right; right; right.
      + rewrite E in Hdec. apply Forall_app in Hdec as [_ [Hj _]%Forall_cons].
        destruct (decoding_settles _ _ Hj); [by left|by right; left]. }
  assert (Forall (reading_ok s') (sy_reading s)) as Hf.
  { eapply Forall_impl; [exact (inv_reading s Hi)|]. intros j. apply reading_ok_mono; [done|apply Hs]. }
  pose proof Hi as [].
  destruct Hx as [(c & d & z & q & E & Hl & ->)|(dec & st & Hw & ->)]; apply (inv_pool s); sys_simpl; try done; try lia.
  - rewrite E in inv_decoder_queue0. by apply Forall_cons in inv_decoder_queue0 as [_ ?].
  - rewrite E in inv_decoder_queue0. apply Forall_cons in inv_decoder_queue0 as [[Hr Hz] _].
    apply Forall_app. split; [done|]. constructor; [|done]. exists c, z, []. split_and!; [done..|set_solver|set_solver].
  - by left.
  - intros x ?. by right.
  - rewrite E in inv_room0. cbn in inv_room0. lia.
  - rewrite length_app. cbn. lia.
  - by eapply work_decoding.
  - by eapply work_decoding.
  - intros x ?. by right.
  - pose proof (work_length _ _ _ _ Hw). lia.
Qed.

Lemma inv_step s s' : inv s -> step P index b mode pools may_abort s s' -> inv s'.
Proof.
  intros Hi [Hs|Hs]; [by eapply inv_main_step|]. destruct Hs.
  - apply (inv_reader_step s); [done|]. left. eauto.
  - apply (inv_reader_step s); [done|]. right. eauto.
  - by apply inv_reader_send.
  - apply (inv_decoder_step s); [done|]. left. eauto 10.
  - apply (inv_decoder_step s); [done|]. right. eauto.
Qed.
Lemma inv_run s s' : inv s -> rtc (step P index b mode pools may_abort) s s' -> inv s'.
Proof. intros Hi Hr. induction Hr; [done|]. eauto using inv_step. Qed.

Lemma inv_start todo st :
  vs_store st ⊆ store0 -> verified_chunks st ⊆ verified0 ->
  (forall pos, pos ∈ todo -> pos ∈ positions index) ->
  (forall pos info, pos ∈ positions index -> chunk_info index pos = Some info ->
     pos ∈ todo \/ cri_digest info ∈ verified_chunks st \/ (0 < vs_errors st)%nat) ->
  inv (start todo st).
Proof.
  intros Hst Hv Hpos Hall. split; cbn; try done; [| |lia].
  - intros d Hd. left. by apply Hv.
  - intros info (pos & Hp & Ei). destruct (Hall pos info Hp Ei) as [?|[?|?]].
    + right; right; left. by exists pos, info.
    + by left; left.
    + by left; right; left.
Qed.
End invariant.

(** ** The list of chunks *)
Lemma list_chunks_ok abort ino ps : forall acc st l st',
  list_chunks index abort ino ps acc st = (Ok l, st') ->
  vs_store st' = vs_store st /\ verified_chunks st' = verified_chunks st /\
  corrupt_chunks st' = corrupt_chunks st /\ (vs_errors st <= vs_errors st')%nat /\
  (forall pos, pos ∈ l.*1 -> pos ∈ acc.*1 \/ pos ∈ ps) /\
  (forall pos, pos ∈ acc.*1 -> pos ∈ l.*1) /\
  (forall pos info, pos ∈ ps -> chunk_info index pos = Some info ->
     pos ∈ l.*1 \/ cri_digest info ∈ verified_chunks st \/ (0 < vs_errors st')%nat) /\
  ((forall pos info, pos ∈ ps -> chunk_info index pos = Some info -> cri_digest info ∉ corrupt_chunks st) ->
   vs_errors st' = vs_errors st).
Proof.
  induction ps as [|p ps IH]; intros acc st l st'; cbn [list_chunks].
  { intros [= <- <-]. split_and!; try done; set_solver. }
  case_if; [done|]. destruct (chunk_info index p) as [info|] eqn:Ei; [|done]. cbn [unwrap]. unfold skip_chunk.
  case_bool_decide as Hv; [|case_bool_decide as Hc]; intros E; apply IH in E as (E1 & E2 & E3 & He & Hin & Hacc & Hall & Hno);
    cbn [add_error vs_store verified_chunks corrupt_chunks vs_errors] in *.
  - split_and!; [done..| | | |]; [set_solver|done| |].
    + intros pos i [->|Hp]%elem_of_cons Hi; [|by apply Hall]. rewrite Ei in Hi. injection Hi as <-. by right; left.
    + intros Hx. apply Hno. intros pos i Hp. apply Hx. by right.
  - split_and!; [done..|lia| | | |]; [set_solver|done| |].
    + intros. right; right. lia.
    + intros Hx. exfalso. apply (Hx p info); [by left|done|done].
  - setoid_rewrite fmap_app in Hin. setoid_rewrite fmap_app in Hacc. cbn [fmap list_fmap fst] in Hin, Hacc.
    setoid_rewrite elem_of_app in Hin. setoid_rewrite elem_of_app in Hacc. setoid_rewrite list_elem_of_singleton in Hin.
    setoid_rewrite list_elem_of_singleton in Hacc. split_and!; [done..| | | |].
    + intros pos [[Hx | ->]|Hx]%Hin; [by left|right; by left|right; by right].
    + intros pos ?. apply Hacc. by left.
    + intros pos i [->|Hp]%elem_of_cons Hi; [|by apply Hall]. left. apply Hacc. by right.
    + intros Hx. apply Hno. intros pos i Hp. apply Hx. by right.
Qed.

Lemma list_chunks_same abort ino ps : forall acc st r st',
  list_chunks index abort ino ps acc st = (r, st') ->
  vs_store st' = vs_store st /\ verified_chunks st' = verified_chunks st.
Proof.
  induction ps as [|p ps IH]; intros acc st r st'; cbn [list_chunks]; [by intros [= _ <-]|].
  case_if; [by intros [= _ <-]|]. destruct (chunk_info index p) as [info|]; [|by intros [= _ <-]].
  cbn [unwrap]. unfold skip_chunk. repeat case_bool_decide; intros [E1 E2]%IH; by rewrite E1, E2.
Qed.
Lemma get_chunks_ok by_inode abort ino st todo st' :
  get_chunks_in_order index by_inode abort ino st (Ok todo) st' ->
  exists l, list_chunks index abort ino (positions index) [] st = (Ok l, st') /\
    forall pos, pos ∈ todo <-> pos ∈ l.*1.
Proof.
  intros Hg. inversion Hg as [l l' ? E Hp _ E1|r ? E Hr E1]; subst.
  - exists l. split; [done|]. intros pos. by rewrite Hp.
  - by destruct r.
Qed.

Abbreviation verify_index := (verify_index_chunks P index b mode pools may_abort).

Lemma verify_index_inv by_inode abort ino st r st' :
  verify_index by_inode abort ino st r st' ->
  (exists todo l st1 s,
     list_chunks index (fun pos => may_abort && abort pos) ino (positions index) [] (new_errors st) = (Ok l, st1) /\
     (forall pos, pos ∈ todo <-> pos ∈ l.*1) /\
     rtc (step P index b mode pools may_abort) (start todo st1) s /\ finished s r /\ st' = sy_st s) \/
  (is_ok r = false /\ exists r0,
     list_chunks index (fun pos => may_abort && abort pos) ino (positions index) [] (new_errors st) = (r0, st') /\
     is_ok r0 = false).
Proof.
  intros Hv. destruct Hv as [r st' Hg Hr|todo st1 s r Hg Hrun Hfin].
  - right. inversion Hg as [l l' ? E Hp Hs E1|r0 ? E Hr0 E1]; subst; [done|].
    split; [by destruct r0|]. by exists r0.
  - left. destruct (get_chunks_ok _ _ _ _ _ _ Hg) as (l & E & Hl). by exists todo, l, st1, s.
Qed.

(** The invariant holds when a run ends. *)
Lemma verify_index_end by_inode abort ino st r st' :
  verify_index by_inode abort ino st r st' ->
  (exists s, inv (vs_store st) (verified_chunks st) s /\ sy_main s = MDone r /\ st' = sy_st s) \/
  (is_ok r = false /\ vs_store st' = vs_store st /\ verified_chunks st' = verified_chunks st).
Proof.
  intros [(todo & l & st1 & s & El & Htodo & Hrun & (Hm & _) & ->)|(Hr & r0 & El & _)]%verify_index_inv.
  - left. apply list_chunks_ok in El as (E1 & E2 & E3 & He & Hin & _ & Hall & _). cbn in E1, E2.
    exists s. split; [|done]. eapply inv_run; [|exact Hrun].
    apply inv_start; [by rewrite E1|by rewrite E2| |].
    + intros pos Hp%Htodo. destruct (Hin pos Hp) as [Hx|?]; [by apply elem_of_nil in Hx|done].
    + intros pos info Hp Ei. rewrite Htodo, E2. by apply Hall.
  - right. split; [done|]. by apply list_chunks_same in El.
Qed.
Lemma verify_index_ok by_inode abort ino st st' :
  verify_index by_inode abort ino st (Ok tt) st' -> ok_says (vs_store st) (verified_chunks st).
Proof.
  intros [(s & Hi & Hm & _)|[? _]]%verify_index_end; [|done].
  pose proof (inv_main _ _ _ Hi) as Hok. by rewrite Hm in Hok.
Qed.
(** Whatever the result: chunks are only removed, and only what was checked is recorded as verified. *)
Lemma verify_index_effect by_inode abort ino st r st' :
  verify_index by_inode abort ino st r st' ->
  vs_store st' ⊆ vs_store st /\
  forall d, d ∈ verified_chunks st' -> d ∈ verified_chunks st \/
    exists chunk size, readable (vs_store st) d chunk /\ verify_unencrypted P chunk size d = Ok tt.
Proof.
  intros [(s & Hi & _ & ->)|(_ & -> & ->)]%verify_index_end; [|by auto].
  split; [apply (inv_store _ _ _ Hi)|]. intros d Hd.
  destruct (inv_verified _ _ _ Hi d Hd) as [?|(c & z & ? & _ & ? & _)]; [by left|right; by exists c, z].
Qed.


(** ** Every run ends *)
Definition weight (a : action) : nat := if is_send a then 12 else 1.
Definition job_weight (j : digest * list action) : nat := S (sum_list_with weight j.2).
Definition main_weight (m : main_thread) : nat :=
  match m with
  | MLoop todo => 40 * length todo + 1
  | MLook _ todo => 40 * length todo + 39
  | MCount todo => 40 * length todo + 35
  | MSend _ todo => 40 * length todo + 38
  | MDone _ => 0
  end.
Definition measure (s : System) : nat :=
  main_weight (sy_main s) + 20 * length (sy_reader_queue s) + sum_list_with job_weight (sy_reading s)
  + 10 * length (sy_decoder_queue s) + sum_list_with job_weight (sy_decoding s).

Lemma work_measure jobs st jobs' st' :
  work jobs st jobs' st' -> (sum_list_with job_weight jobs' < sum_list_with job_weight jobs)%nat.
Proof.
  intros [l1 d a rest l2 renamed st0 Ha Hen|l1 d l2 st0]; rewrite !sum_list_with_app; cbn.
  - unfold job_weight, weight. cbn. rewrite Ha. lia.
  - lia.
Qed.
Lemma decode_chunk_small m chunk d size :
  (sum_list_with weight (decode_chunk P m chunk d size) <= 8)%nat /\
  Forall (fun a => is_send a = false) (decode_chunk P m chunk d size).
Proof.
  unfold decode_chunk, insert_corrupt, insert_verified, rename_chunk.
  repeat case_match; cbn; (split; [lia|repeat (constructor; [done|]); constructor]).
Qed.
Lemma read_small info store : (sum_list_with weight (verify_chunk_by_backend P b info store) <= 12)%nat.
Proof. unfold verify_chunk_by_backend, add_corrupt_chunk. repeat case_match; cbn; lia. Qed.

Lemma step_measure s s' : step P index b mode pools may_abort s s' -> (measure s' < measure s)%nat.
Proof.
  unfold measure. intros [Hs|Hs].
  - destruct Hs; cbn [set_main sy_main sy_reader_queue sy_reading sy_decoder_queue sy_decoding];
      match goal with E : sy_main s = _ |- _ => rewrite E end; rewrite ?length_app; cbn; lia.
  - destruct Hs as [info q E _|reading st Hw|l1 d c d' z rest l2 E _|c d z q E _|dec st Hw];
      cbn [sy_main sy_reader_queue sy_reading sy_decoder_queue sy_decoding].
    + rewrite E, sum_list_with_app. cbn. pose proof (read_small info (vs_store (sy_st s))). lia.
    + apply work_measure in Hw. lia.
    + rewrite E, !sum_list_with_app, length_app. cbn. lia.
    + rewrite E, sum_list_with_app. cbn. pose proof (decode_chunk_small mode c d z). lia.
    + apply work_measure in Hw. lia.
Qed.

(** The mutexes that a job holds: those that it is going to give back. *)
Fixpoint holds (m : mutex) (l : list action) : bool :=
  match l with
  | [] => false
  | ALock m' :: l => if decide (m' = m) then false else holds m l
  | AUnlock m' :: l => if decide (m' = m) then true else holds m l
  | _ :: l => holds m l
  end.
Definition rank (m : mutex) : nat := match m with VerifiedM => 0 | CorruptM => 1 | StoreM => 2 end.
(** A job gives back what it takes, takes mutexes in the order of their ranks, and sends only while
    it holds none. *)
Fixpoint disciplined (l : list action) : Prop :=
  match l with
  | [] => True
  | a :: l =>
      disciplined l /\
      match a with
      | ALock m => holds m l = true /\ forall m', m' <> m -> holds m' l = true -> (rank m' < rank m)%nat
      | ASend _ _ _ => forall m, holds m l = false
      | _ => True
      end
  end.
Lemma read_disciplined info store : disciplined (verify_chunk_by_backend P b info store).
Proof.
  unfold verify_chunk_by_backend, add_corrupt_chunk, rename_chunk.
  repeat case_match; cbn; repeat (apply conj); try done; intros []; cbn; try done; lia.
Qed.
Lemma decode_disciplined m chunk d size : disciplined (decode_chunk P m chunk d size).
Proof.
  unfold decode_chunk, insert_corrupt, insert_verified, rename_chunk.
  repeat case_match; cbn; repeat (apply conj); try done; intros []; cbn; try done; lia.
Qed.

(** All jobs are disciplined, the decoders never send, and a mutex that is held is held by a job. *)
Definition no_send (j : digest * list action) : Prop := Forall (fun a => is_send a = false) j.2.
Record orderly (s : System) : Prop := {
  orderly_jobs : Forall (fun j => disciplined j.2) (sy_reading s ++ sy_decoding s);
  orderly_decoding : Forall no_send (sy_decoding s);
  orderly_held m : m ∈ vs_locked (sy_st s) ->
    Exists (fun j => holds m j.2 = true) (sy_reading s ++ sy_decoding s);
}.

Lemma holds_act a rest m :
  disciplined (a :: rest) -> (forall m', a = ALock m' -> m <> m') -> (forall m', a = AUnlock m' -> m <> m') ->
  holds m (a :: rest) = true -> holds m rest = true.
Proof using Type.
  clear total.
  intros _ Hl Hu. destruct a; cbn [holds]; try done; case_decide as Hd; try done; subst.
  by destruct (Hu m).
Qed.

Lemma work_orderly jobs (other : list (digest * list action)) st jobs' st' :
  work jobs st jobs' st' -> Forall (fun j => disciplined j.2) jobs ->
  (forall m, m ∈ vs_locked st ->
     Exists (fun j => holds m j.2 = true) jobs \/ Exists (fun j => holds m j.2 = true) other) ->
  Forall (fun j => disciplined j.2) jobs' /\
  forall m, m ∈ vs_locked st' ->
    Exists (fun j => holds m j.2 = true) jobs' \/ Exists (fun j => holds m j.2 = true) other.
Proof using Type.
  clear total.
  intros [l1 d a rest l2 renamed st0 Ha Hen|l1 d l2 st0] Hf Hh.
  2: { apply Forall_app in Hf as [? [_ ?]%Forall_cons]. split; [by apply Forall_app|].
    intros m Hm. destruct (Hh m Hm) as [Hx|Hx]; [left|by right]. apply Exists_app.
    apply Exists_app in Hx as [Hx|Hx]; [by left|right]. by apply Exists_cons in Hx as [?|?]. }
  apply Forall_app in Hf as [? [Hj ?]%Forall_cons]. cbn [snd] in Hj. pose proof Hj as Hj'. destruct Hj as [Hrest Hact].
  split; [apply Forall_app; split; [done|by constructor]|]. intros m Hm.
  assert (holds m rest = true \/
    m ∈ vs_locked st0 /\ (holds m (a :: rest) = true -> holds m rest = true)) as [Hx|[Hm0 Hk]].
  { destruct a as [| | | |m'|m'|]; cbn in Hm; try (right; split; [exact Hm|by apply holds_act]).
    - destruct (decide (m = m')) as [->|Hne]; [left; apply Hact|right]. split; [set_solver|].
      apply holds_act; [done|congruence|done].
    - right. split; [set_solver|]. apply holds_act; [done|done|]. intros ? [= <-]. set_solver. }
  - left. apply Exists_app. right. by constructor.
  - destruct (Hh m Hm0) as [Hx|Hx]; [left|by right]. apply Exists_app.
    apply Exists_app in Hx as [Hx|Hx]; [by left|right].
    apply Exists_cons in Hx as [Hx|Hx]; [constructor; by apply Hk|by right].
Qed.

Lemma orderly_step s s' : step P index b mode pools may_abort s s' -> orderly s -> orderly s'.
Proof.
  intros [Hs|Hs] [Hj Hn Hh]; [by destruct Hs|].
  destruct Hs as [info q E _|reading st Hw|l1 d c d' z rest l2 E _|c d z q E _|dec st Hw];
    split; cbn [sy_reading sy_decoding sy_st] in *; try done.
  - apply Forall_app in Hj as [? ?]. rewrite !Forall_app, Forall_singleton.
    split_and!; [done|apply read_disciplined|done].
  - intros m Hm. specialize (Hh m Hm). rewrite !Exists_app in *. tauto.
  - apply Forall_app in Hj as [Hj ?]. apply (work_orderly _ (sy_decoding s)) in Hw as [? _]; [|done|].
    + by apply Forall_app.
    + intros m Hm. by apply Exists_app, Hh.
  - apply Forall_app in Hj as [Hj ?]. apply (work_orderly _ (sy_decoding s)) in Hw as [_ Hk]; [|done|].
    + intros m Hm. by apply Exists_app, Hk.
    + intros m Hm. by apply Exists_app, Hh.
  - rewrite E in Hj. rewrite !Forall_app, !Forall_cons in *. destruct Hj as [[? [[Hx _] ?]] ?]. done.
  - intros m Hm. specialize (Hh m Hm). rewrite E in Hh. rewrite !Exists_app, !Exists_cons in *. done.
  - apply Forall_app in Hj as [? ?]. rewrite !Forall_app, Forall_singleton.
    split_and!; [done|done|apply decode_disciplined].
  - apply Forall_app. split; [done|]. constructor; [|done]. apply decode_chunk_small.
  - intros m Hm. specialize (Hh m Hm). rewrite !Exists_app in *. tauto.
  - apply Forall_app in Hj as [? Hj]. apply (work_orderly _ (sy_reading s)) in Hw as [? _]; [|done|].
    + by apply Forall_app.
    + intros m Hm. apply or_comm. by apply Exists_app, Hh.
  - destruct Hw; apply Forall_app in Hn as [? [Hx ?]%Forall_cons]; apply Forall_app; split; try done.
    constructor; [|done]. by apply Forall_cons in Hx as [_ ?].
  - apply Forall_app in Hj as [? Hj]. apply (work_orderly _ (sy_reading s)) in Hw as [_ Hk]; [|done|].
    + intros m Hm. apply Exists_app. apply or_comm. by apply Hk.
    + intros m Hm. apply or_comm. by apply Exists_app, Hh.
Qed.

(** A job that holds the mutex of the highest rank can go on. *)
Lemma holder_acts m l st :
  disciplined l -> holds m l = true ->
  (forall m', m' ∈ vs_locked st -> (rank m' <= rank m)%nat) ->
  exists a rest, l = a :: rest /\ is_send a = false /\ enabled a st = true.
Proof.
  intros Hd Hm Hmax. destruct l as [|a rest]; [done|]. exists a, rest. split; [done|].
  destruct a as [| | | |m'|m'|c d z]; try done; destruct Hd as [_ Hd]; [|cbn [holds] in Hm; by rewrite Hd in Hm].
  split; [done|]. cbn. apply bool_decide_eq_true. intros Hin. cbn [holds] in Hm. case_decide as Hne; [done|].
  specialize (Hmax m' Hin). pose proof (proj2 Hd m (not_eq_sym Hne) Hm). lia.
Qed.

Lemma highest (l : gset mutex) : l <> ∅ ->
  exists m, m ∈ l /\ forall m', m' ∈ l -> (rank m' <= rank m)%nat.
Proof.
  intros Hl. destruct (decide (StoreM ∈ l)); [exists StoreM; split; [done|intros []; cbn; lia]|].
  destruct (decide (CorruptM ∈ l)); [exists CorruptM; split; [done|intros [] ?; cbn; try lia; done]|].
  apply set_choose_L in Hl as [m Hm]. exists m. split; [done|]. by destruct m; intros [].
Qed.

Lemma progress_locked s :
  orderly s -> vs_locked (sy_st s) <> ∅ -> exists s', step P index b mode pools may_abort s s'.
Proof.
  intros [Hj _ Hh] (m & Hm & Hmax)%highest. specialize (Hh m Hm).
  apply Exists_exists in Hh as ([d l] & Hin & Hl). rewrite Forall_forall in Hj.
  destruct (holder_acts m l (sy_st s) (Hj _ Hin) Hl Hmax) as (a & rest & -> & Ha & Hen).
  apply elem_of_app in Hin as [Hin|Hin]; apply list_elem_of_split in Hin as (l1 & l2 & E);
    eexists; right; [eapply reader_work|eapply decoder_work]; rewrite E; by apply (work_act l1 d a rest l2 true).
Qed.

Lemma enabled_free a st : vs_locked st = ∅ -> enabled a st = true.
Proof. intros E. destruct a; try done. cbn. rewrite E. by apply bool_decide_eq_true. Qed.

Lemma jobs_step jobs st :
  vs_locked st = ∅ -> jobs <> [] -> Forall no_send jobs -> exists jobs' st', work jobs st jobs' st'.
Proof.
  intros Hk. destruct jobs as [|[d [|a rest]] jobs]; [done| |]; intros _ Hn.
  - eexists _, _. apply (work_done [] d jobs).
  - apply Forall_cons in Hn as [Hj _]. apply Forall_cons in Hj as [Ha _].
    eexists _, _. apply (work_act [] d a rest jobs true); [done|by apply enabled_free].
Qed.

(** Some thread can go on as long as not all are done. *)
Lemma progress s :
  (0 < read_threads pools)%nat -> (0 < read_capacity pools)%nat ->
  (0 < verify_threads pools)%nat -> (0 < verify_capacity pools)%nat -> orderly s ->
  (exists r, finished s r) \/ exists s', step P index b mode pools may_abort s s'.
Proof.
  intros H1 H2 H3 H4 Ho. destruct (decide (vs_locked (sy_st s) = ∅)) as [Hk|Hk]; [|right; by apply progress_locked].
  pose proof (orderly_decoding s Ho) as Hn. destruct (sy_decoding s) as [|j jobs] eqn:Ed.
  2:{ right. destruct (jobs_step (sy_decoding s) (sy_st s)) as (jobs' & st' & Hw); [done|by rewrite Ed|by rewrite Ed|].
      eexists. right. by eapply decoder_work. }
  destruct (sy_decoder_queue s) as [|[[c d] z] q] eqn:Eq.
  2:{ right. eexists. right. eapply decoder_take; [exact Eq|]. rewrite Ed. cbn. lia. }
  destruct (sy_reading s) as [|[d [|a rest]] jobs] eqn:Er.
  2:{ right. eexists. right. eapply reader_work. rewrite Er. apply (work_done [] d jobs). }
  2:{ right. destruct (is_send a) eqn:Ha.
      - destruct a as [| | | | | |c d' z]; try done. eexists. right. eapply (reader_send _ _ _ _ _ []); [exact Er|].
        rewrite Eq. cbn. lia.
      - eexists. right. eapply reader_work. rewrite Er.
        apply (work_act [] d a rest jobs true); [done|by apply enabled_free]. }
  destruct (sy_reader_queue s) as [|info q] eqn:Erq.
  2:{ right. eexists. right. eapply reader_take; [exact Erq|]. rewrite Er. cbn. lia. }
  assert (forall m, m ∉ vs_locked (sy_st s)) as Hfree by (intros m; rewrite Hk; apply not_elem_of_empty).
  destruct (sy_main s) as [[|pos todo]|info todo|todo|info todo|r] eqn:Em; [right..|].
  - eexists. left. by apply main_result.
  - destruct (chunk_info index pos) as [info|] eqn:Ei; [|eexists; left; by eapply (main_unwrap _ _ _ _ pos todo "")].
    destruct (decide (cri_digest info ∈ verified_chunks (sy_st s))).
    + eexists. left. by eapply main_verified.
    + eexists. left. by eapply main_not_verified.
  - destruct (decide (cri_digest info ∈ corrupt_chunks (sy_st s))).
    + eexists. left. by eapply main_corrupt.
    + eexists. left. by eapply main_not_corrupt.
  - eexists. left. by eapply main_count.
  - eexists. left. eapply main_send; [exact Em|]. rewrite Erq. cbn. lia.
  - left. by exists r.
Qed.

Lemma finished_free s r : orderly s -> finished s r -> vs_locked (sy_st s) = ∅.
Proof.
  intros [_ _ Hh] (_ & _ & Er & _ & Ed). apply set_eq. intros m. split; [|by intros ?%not_elem_of_empty].
  intros Hm%Hh. rewrite Er, Ed in Hm. by apply Exists_nil in Hm.
Qed.

(** C11.  Verification never hangs.  With at least one thread in each pool and room in the channels, and with
    no mutex held at the start, every run of the threads, under any schedule, has a bounded number of steps, and
    when no thread can go on, all of them are done, there is a result and no mutex is held.  So the two pools
    and the main thread never wait for each other in a circle: not for the channels, and not for the
    mutexes of the two sets and of the chunk store, although [add_corrupt_chunk] keeps one of them while it
    takes another. *)
Theorem verify_completes todo st n s :
  (0 < read_threads pools)%nat -> (0 < read_capacity pools)%nat ->
  (0 < verify_threads pools)%nat -> (0 < verify_capacity pools)%nat -> vs_locked st = ∅ ->
  nsteps (step P index b mode pools may_abort) n (start todo st) s ->
  (n <= 40 * length todo + 1)%nat /\
  ((forall s', ~ step P index b mode pools may_abort s s') ->
   exists r, finished s r /\ vs_locked (sy_st s) = ∅) /\
  exists s' r, rtc (step P index b mode pools may_abort) s s' /\ finished s' r /\ vs_locked (sy_st s') = ∅.
Proof.
  intros H1 H2 H3 H4 Hk Hrun.
  assert (orderly s) as Ho.
  { assert (orderly (start todo st)) as H0'
      by (split; cbn; [constructor|constructor|rewrite Hk; by intros m ?%not_elem_of_empty]).
    revert H0'. clear Hk. induction Hrun; [done|]. intros. apply IHHrun. by eapply orderly_step. }
  split; [|split].
  - assert (n + measure s <= measure (start todo st))%nat as Hm; [|cbn in Hm; lia].
    clear Ho. induction Hrun as [|n x y z Hs Hr IH]; [lia|]. apply step_measure in Hs. lia.
  - intros Hstop. destruct (progress s H1 H2 H3 H4 Ho) as [[r Hr]|[s' ?]]; [|by edestruct Hstop].
    exists r. split; [done|by eapply finished_free].
  - clear Hrun Hk. remember (measure s) as m eqn:Em. revert s Em Ho.
    induction m as [m IH] using lt_wf_ind. intros s -> Ho.
    destruct (progress s H1 H2 H3 H4 Ho) as [[r Hr]|[s' Hs]].
    { exists s, r. split_and!; [done..|by eapply finished_free]. }
    destruct (IH (measure s') (step_measure _ _ Hs) s' eq_refl) as (s2 & r & ? & ? & ?); [by eapply orderly_step|].
    exists s2, r. split_and!; [|done..]. by eapply rtc_l.
Qed.

(** ** No false alarms *)
Section good.
Context (store0 : gmap digest object) (corrupt0 : gset digest).
Context (all_good : forall info, in_index info -> cri_digest info ∉ corrupt0 /\
  exists chunk, readable store0 (cri_digest info) chunk /\
    chunk_passes chunk (ChunkReadInfo_size info) (cri_digest info) /\ mode_matches chunk).
Context (complete : forall pos, pos ∈ positions index -> chunk_info index pos <> None).
Context (no_abort : may_abort = false).

Definition good_send (a : action) : Prop :=
  match a with
  | ASend chunk d size => readable store0 d chunk /\ chunk_passes chunk size d /\ mode_matches chunk
  | _ => False
  end.
Definition good_decode (a : action) : Prop :=
  match a with AVerified _ | ALock _ | AUnlock _ => True | _ => False end.
Record calm (s : System) : Prop := {
  calm_store : vs_store (sy_st s) = store0;
  calm_corrupt : corrupt_chunks (sy_st s) = corrupt0;
  calm_errors : vs_errors (sy_st s) = 0%nat;
  calm_queue : Forall in_index (sy_reader_queue s);
  calm_reading : Forall (fun j => Forall good_send j.2) (sy_reading s);
  calm_decoder_queue : Forall (fun j => good_send (ASend j.1.1 j.1.2 j.2)) (sy_decoder_queue s);
  calm_decoding : Forall (fun j => Forall good_decode j.2) (sy_decoding s);
  calm_main : match sy_main s with
              | MLook info _ | MSend info _ => in_index info
              | MCount _ => False
              | MDone r => r = Ok tt
              | MLoop _ => True
              end;
  calm_todo pos : pos ∈ todo_of (sy_main s) -> pos ∈ positions index;
}.

Lemma read_good info : in_index info ->
  Forall good_send (verify_chunk_by_backend P b info store0).
Proof.
  intros Hin. destruct (all_good info Hin) as (_ & chunk & (raw & Es & Hr & Hl) & Hp & Hm).
  assert (good_send (ASend chunk (cri_digest info) (ChunkReadInfo_size info))) as Hg.
  { split; [|done]. by exists raw. }
  unfold verify_chunk_by_backend, load_chunk. rewrite Es. clear Es.
  destruct b; [rewrite (Hl eq_refl)|rewrite Hr]; by constructor.
Qed.
Lemma decode_good chunk d size :
  good_send (ASend chunk d size) -> Forall good_decode (decode_chunk P mode chunk d size).
Proof.
  intros ((raw & _ & Hr & _) & Hp & Hm). destruct (decode_actions_spec raw chunk d size Hr) as (_ & _ & _ & _ & E).
  rewrite (E Hp Hm). by repeat constructor.
Qed.

Lemma calm_main_step s s' : main_step index pools may_abort s s' -> calm s -> calm s'.
Proof.
  intros Hs [C1 C2 C3 C4 C5 C6 C7 C8 C9].
  destruct Hs as [pos todo e E Ha|pos todo e E Ei|pos todo info E Ei _ Hv|pos todo info E Ei _ Hv|info todo E _ Hc
                 |todo E|info todo E _ Hc|info todo E Hl|E Hq Hr]; rewrite E in C8, C9; cbn in C9.
  - congruence.
  - exfalso. apply (complete pos); [|done]. apply C9, elem_of_cons. by left.
  - split; cbn; try done. intros p Hp. apply C9, elem_of_cons. by right.
  - split; cbn; try done; [|intros p Hp; apply C9, elem_of_cons; by right].
    exists pos. split; [|done]. apply C9, elem_of_cons. by left.
  - rewrite C2 in Hc. by destruct (all_good info C8).
  - done.
  - by split.
  - split; cbn; try done. apply Forall_app. split; [done|]. by constructor.
  - split; cbn; try done. by rewrite C3.
Qed.

Lemma calm_work (good : action -> Prop) jobs st jobs' st' :
  work jobs st jobs' st' ->
  (forall a, good a -> is_send a = false -> good_decode a) ->
  Forall (fun j => Forall good j.2) jobs ->
  Forall (fun j => Forall good j.2) jobs' /\ vs_store st' = vs_store st /\
  corrupt_chunks st' = corrupt_chunks st /\ vs_errors st' = vs_errors st.
Proof.
  intros Hw Hg Hf. destruct Hw as [l1 d a rest l2 renamed st Ha _|l1 d l2 st];
    apply Forall_app in Hf as [? [Hj ?]%Forall_cons].
  - apply Forall_cons in Hj as [Hga ?]. specialize (Hg a Hga Ha). split; [|by destruct a].
    apply Forall_app. split; [done|]. by constructor.
  - split; [|done]. by apply Forall_app.
Qed.
Lemma good_send_works a : good_send a -> is_send a = false -> good_decode a.
Proof. by destruct a. Qed.
Lemma calm_pool_step s s' : pool_step P b mode pools s s' -> calm s -> calm s'.
Proof.
  intros Hs [C1 C2 C3 C4 C5 C6 C7 C8 C9].
  destruct Hs as [info q E _|reading st Hw|l1 d c d' z rest l2 E _|c d z q E _|dec st Hw].
  - rewrite E in C4. apply Forall_cons in C4 as [Hi ?]. split; cbn; try done.
    apply Forall_app. split; [done|]. constructor; [|done]. cbn. rewrite C1. by apply read_good.
  - apply (calm_work good_send) in Hw as (? & E1 & E2 & E3); [|apply good_send_works|done].
    rewrite C1 in E1. rewrite C2 in E2. rewrite C3 in E3. by split.
  - rewrite E in C5. apply Forall_app in C5 as [? [Hj ?]%Forall_cons]. apply Forall_cons in Hj as [? ?].
    split; cbn; try done; apply Forall_app; (split; [done|]); by constructor.
  - rewrite E in C6. apply Forall_cons in C6 as [Hi ?]. split; cbn; try done.
    apply Forall_app. split; [done|]. constructor; [|done]. by apply decode_good.
  - apply (calm_work good_decode) in Hw as (? & E1 & E2 & E3); [|done|done].
    rewrite C1 in E1. rewrite C2 in E2. rewrite C3 in E3. by split.
Qed.
Lemma calm_run s s' : rtc (step P index b mode pools may_abort) s s' -> calm s -> calm s'.
Proof.
  induction 1 as [|x y z [Hs|Hs] _ IH]; [done| |]; intros Hc; apply IH.
  - by eapply calm_main_step.
  - by eapply calm_pool_step.
Qed.

Lemma list_chunks_good abort ino ps : forall acc st,
  (forall pos, pos ∈ ps -> pos ∈ positions index) ->
  exists l st', list_chunks index (fun pos => may_abort && abort pos) ino ps acc st = (Ok l, st').
Proof.
  induction ps as [|p ps IH]; intros acc st Hps; cbn [list_chunks]; [by eexists _, _|].
  rewrite no_abort. cbn. rewrite andb_false_r.
  destruct (chunk_info index p) as [info|] eqn:Ei.
  2:{ exfalso. apply (complete p); [|done]. apply Hps, elem_of_cons. by left. }
  cbn [unwrap]. destruct (skip_chunk _ _) as [[|] st1].
  all: rewrite no_abort in IH; cbn in IH; apply IH; intros pos Hp; apply Hps, elem_of_cons; by right.
Qed.
End good.

(** No false alarms.  If no abort is requested, every entry of the index can be read, has the content for its
    digest and size and the mode of the index, and none is known to be corrupt, then every run succeeds,
    and it renames nothing, reports nothing as corrupt, and records all chunks of the index as verified. *)
Theorem verify_no_false_alarm by_inode abort ino st r st' :
  may_abort = false ->
  (forall pos, pos ∈ positions index -> chunk_info index pos <> None) ->
  (forall info, in_index info -> cri_digest info ∉ corrupt_chunks st /\
     exists chunk, readable (vs_store st) (cri_digest info) chunk /\
       verify_unencrypted P chunk (ChunkReadInfo_size info) (cri_digest info) = Ok tt /\ mode_matches chunk) ->
  verify_index by_inode abort ino st r st' ->
  r = Ok tt /\ vs_store st' = vs_store st /\ corrupt_chunks st' = corrupt_chunks st /\
  vs_errors st' = 0%nat /\ forall info, in_index info -> cri_digest info ∈ verified_chunks st'.
Proof.
  intros Hab Hcomplete Hgood [(todo & l & st1 & s & El & Htodo & Hrun & (Hm & H1 & H2 & H3 & H4) & ->)
                             |(_ & r0 & El & Hr)]%verify_index_inv.
  2:{ destruct (list_chunks_good Hcomplete Hab abort ino (positions index) [] (new_errors st)) as (l & st2 & E);
      [done|]. rewrite E in El. by injection El as <- <-. }
  apply list_chunks_ok in El as (E1 & E2 & E3 & _ & Hin & _ & Hall & Hno). cbn in E1, E2, E3.
  assert (vs_errors st1 = 0%nat) as E0.
  { apply Hno. intros pos info ? ?. apply Hgood. by exists pos. }
  assert (forall pos, pos ∈ todo -> pos ∈ positions index) as Htp.
  { intros pos Hp%Htodo. destruct (Hin pos Hp) as [Hx|?]; [by apply elem_of_nil in Hx|done]. }
  assert (inv (vs_store st) (verified_chunks st) s) as Hi.
  { eapply inv_run; [|exact Hrun]. apply inv_start; [by rewrite E1|by rewrite E2|done|].
    intros pos info Hp Ei. rewrite Htodo, E2. by apply Hall. }
  assert (calm (vs_store st) (corrupt_chunks st) s) as Hc.
  { eapply calm_run; [done..|exact Hrun|]. split; cbn; try done. }
  destruct Hc as [C1 C2 C3 _ _ _ _ C8 _]. rewrite Hm in C8. subst r. split_and!; try done.
  intros info Hinfo. destruct (inv_all _ _ _ Hi info Hinfo) as [[?|[?|[Hx|Hx]]]|[[Hx|Hx]|Hx]].
  - done.
  - lia.
  - rewrite H3 in Hx. by apply elem_of_nil in Hx.
  - rewrite H4 in Hx. by apply elem_of_nil in Hx.
  - rewrite H1 in Hx. by apply elem_of_nil in Hx.
  - rewrite H2 in Hx. by apply elem_of_nil in Hx.
  - rewrite Hm in Hx. destruct Hx as [(pos & i & Hx & _)|Hx]; [by apply elem_of_nil in Hx|done].
Qed.
End verify.

(** ** Examples: an index in memory with one chunk *)
Module VerifyExample.
Definition index_t : Type := list ChunkReadInfo.
#[global] Instance index_in_memory : IndexFile index_t := {|
  index_count l := Z.of_nat (length l);
  index_digest l pos := cri_digest <$> (l : list ChunkReadInfo) !! Z.to_nat pos;
  index_bytes l := Ok (foldr Z.max 0 (range_end <$> l));
  chunk_info l pos := (l : list ChunkReadInfo) !! Z.to_nat pos;
  index_ctime _ := 0;
  index_size _ := 0;
  chunk_from_offset _ _ := Ok None;
|}.
Definition one_entry (d : digest) : index_t := [{| range_start := 0; range_end := 3; cri_digest := d |}].
Definition abc : digest := resize 32 x00 (bytes "abc").
Definition xyz : digest := resize 32 x00 (bytes "xyz").
(** The store has the content "abc" under both digests. *)
Definition st0 : VState :=
  {| vs_store := {[abc := ObjData stored; xyz := ObjData stored]}; verified_chunks := ∅;
     corrupt_chunks := ∅; vs_errors := 0; vs_locked := ∅ |}.
Definition small_pools : Pools :=
  {| read_threads := 1; read_capacity := 1; verify_threads := 1; verify_capacity := 1 |}.
Abbreviation verify_one d mode :=
  (verify_index_chunks ToyPrims.toy (one_entry d) S3 mode small_pools false false (fun _ => false) (fun _ => 0)).

Lemma listed d st :
  d ∉ verified_chunks st -> d ∉ corrupt_chunks st ->
  get_chunks_in_order (one_entry d) false (fun _ => false && false) (fun _ => 0) (new_errors st) (Ok [0])
    (new_errors st).
Proof.
  intros Hv Hc. refine (ordered _ _ _ _ _ [(0, 0)] [(0, 0)] _ _ _ _); [|done|done].
  change (positions (one_entry d)) with [0]. cbn [list_chunks]. rewrite andb_false_r.
  change (chunk_info (one_entry d) 0) with (Some {| range_start := 0; range_end := 3; cri_digest := d |}).
  cbn [unwrap cri_digest]. unfold skip_chunk. rewrite !bool_decide_eq_false_2 by done. done.
Qed.

Ltac main_moves c := eapply rtc_l; [left; eapply c; [reflexivity|try reflexivity..]|cbn [set_main sy_main sy_st sy_reader_queue sy_reading sy_decoder_queue sy_decoding]].
Ltac pool_moves c := eapply rtc_l; [right; eapply c; [reflexivity|try (cbn; lia)..]|cbn [set_main sy_main sy_st sy_reader_queue sy_reading sy_decoder_queue sy_decoding app]].

(** From the start to where the decoder has the chunk. *)
Lemma chunk_sent d mode st :
  vs_locked st = ∅ -> d ∉ verified_chunks st -> d ∉ corrupt_chunks st -> vs_store st !! d = Some (ObjData stored) ->
  rtc (step ToyPrims.toy (one_entry d) S3 mode small_pools false) (start [0] st)
    {| sy_main := MLoop []; sy_st := st; sy_reader_queue := []; sy_reading := [];
       sy_decoder_queue := [({| raw_data := stored |}, d, 3)]; sy_decoding := [] |}.
Proof.
  intros Hk Hv Hc Hs. assert (forall m, m ∉ vs_locked st) as Hf by (intros m; rewrite Hk; apply not_elem_of_empty).
  unfold start. main_moves main_not_verified; [apply Hf|exact Hv|].
  main_moves main_not_corrupt; [apply Hf|exact Hc|]. main_moves main_send; [cbn; lia|].
  cbn [app]. pool_moves reader_take. unfold verify_chunk_by_backend. cbn [cri_digest]. rewrite Hs.
  change (from_raw stored) with (Ok {| raw_data := stored |}). cbn [app].
  eapply rtc_l; [right; eapply (reader_send _ _ _ _ _ []); [reflexivity|cbn; lia]|].
  cbn [sy_main sy_st sy_reader_queue sy_reading sy_decoder_queue sy_decoding app].
  eapply rtc_l; [right; eapply reader_work, (work_done [])|]. apply rtc_refl.
Qed.

Definition run_actions (l : list action) (st : VState) : VState :=
  foldl (fun st a => run_action a true st) st l.
Lemma chunk_decoded d mode m c z st :
  vs_locked st = ∅ ->
  rtc (step ToyPrims.toy (one_entry d) S3 mode small_pools false)
    {| sy_main := m; sy_st := st; sy_reader_queue := []; sy_reading := [];
       sy_decoder_queue := [(c, d, z)]; sy_decoding := [] |}
    {| sy_main := m; sy_st := run_actions (decode_chunk ToyPrims.toy mode c d z) st; sy_reader_queue := [];
       sy_reading := []; sy_decoder_queue := []; sy_decoding := [] |}.
Proof.
  intros Hk. pool_moves decoder_take. destruct (decode_chunk_small ToyPrims.toy mode c d z) as [_ Hn].
  pose proof (decode_disciplined ToyPrims.toy mode c d z) as Hd.
  assert (forall x, x ∈ vs_locked st -> holds x (decode_chunk ToyPrims.toy mode c d z) = true) as Hh
    by (rewrite Hk; by intros x ?%not_elem_of_empty).
  clear Hk. revert st Hh. induction Hn as [|a l Ha _ IH]; intros st Hh.
  { eapply rtc_l; [right; eapply decoder_work, (work_done [])|]. apply rtc_refl. }
  assert (enabled a st = true) as Hen.
  { destruct a; try done. apply bool_decide_eq_true. intros Hin. specialize (Hh _ Hin). cbn [holds] in Hh.
    by rewrite decide_True in Hh. }
  pose proof (work_act [] d a l [] true st Ha Hen) as Hw. cbn [app] in Hw.
  eapply rtc_l; [right; eapply decoder_work; exact Hw|]. apply IH; [apply Hd|].
  apply (work_orderly _ []) in Hw as [_ Hw]; [|by apply Forall_singleton|].
  - intros x [Hx|Hx%Exists_nil]%Hw; [|done]. by apply Exists_cons in Hx as [?|?%Exists_nil].
  - intros x Hx. left. constructor. by apply Hh.
Qed.

(** The two orders of the decoder and of the end of the main thread. *)
Lemma result_first d mode st :
  vs_locked st = ∅ -> d ∉ verified_chunks st -> d ∉ corrupt_chunks st -> vs_store st !! d = Some (ObjData stored) ->
  verify_one d mode st (Ok tt) (run_actions (decode_chunk ToyPrims.toy mode {| raw_data := stored |} d 3) (new_errors st)).
Proof.
  intros Hk Hv Hc Hs. eapply (verify_runs _ _ _ _ _ _ _ _ _ _ [0] (new_errors st)
    {| sy_main := MDone _; sy_st := run_actions _ _; sy_reader_queue := []; sy_reading := [];
       sy_decoder_queue := []; sy_decoding := [] |}); [by apply listed| |done].
  etransitivity; [by apply chunk_sent|]. main_moves main_result. by apply chunk_decoded.
Qed.
Lemma decoder_first d mode st :
  vs_locked st = ∅ -> d ∉ verified_chunks st -> d ∉ corrupt_chunks st -> vs_store st !! d = Some (ObjData stored) ->
  let st' := run_actions (decode_chunk ToyPrims.toy mode {| raw_data := stored |} d 3) (new_errors st) in
  verify_one d mode st (if (0 <? vs_errors st')%nat then Err "chunks could not be verified" else Ok tt) st'.
Proof.
  intros Hk Hv Hc Hs st'. eapply (verify_runs _ _ _ _ _ _ _ _ _ _ [0] (new_errors st)
    {| sy_main := MDone _; sy_st := st'; sy_reader_queue := []; sy_reading := [];
       sy_decoder_queue := []; sy_decoding := [] |}); [by apply listed| |done].
  etransitivity; [by apply chunk_sent|]. etransitivity; [by apply chunk_decoded|].
  main_moves main_result. apply rtc_refl.
Qed.

(** A corrupt chunk can pass.  The counter of errors is read when the readers are done, without waiting for the
    decoders: the only chunk of the index has a wrong content, the decoder finds that and renames it, and
    yet the verification of the index has succeeded. *)
Theorem verify_misses_corrupt :
  exists st', verify_one xyz ModeNone st0 (Ok tt) st' /\
    xyz ∈ corrupt_chunks st' /\ vs_errors st' = 1%nat /\ vs_store st' !! xyz = None.
Proof.
  eexists. split; [apply result_first; [reflexivity|set_solver|set_solver|reflexivity]|].
  vm_compute. split; [|done]. by apply (bool_decide_unpack _).
Qed.

(** A known chunk is not looked at again. *)
Lemma known_chunk_skipped d mode st : d ∈ verified_chunks st -> verify_one d mode st (Ok tt) (new_errors st).
Proof.
  intros Hv. eapply (verify_runs _ _ _ _ _ _ _ _ _ _ [] (new_errors st)
    {| sy_main := MDone _; sy_st := new_errors st; sy_reader_queue := []; sy_reading := [];
       sy_decoder_queue := []; sy_decoding := [] |}); [| |done].
  - refine (ordered _ _ _ _ _ [] [] _ _ _ _); [|done|done].
    change (positions (one_entry d)) with [0]. cbn [list_chunks]. rewrite andb_false_r.
    change (chunk_info (one_entry d) 0) with (Some {| range_start := 0; range_end := 3; cri_digest := d |}).
    cbn [unwrap cri_digest]. unfold skip_chunk. by rewrite bool_decide_eq_true_2.
  - unfold start. main_moves main_result. apply rtc_refl.
Qed.

(** A chunk of the wrong mode is an error only once.  It is recorded as verified, so the next
    verification of an index with this chunk succeeds. *)
Theorem verify_forgets_mode :
  exists e st1 st2, verify_one abc ModeEncrypt st0 (Err e) st1 /\ abc ∈ verified_chunks st1 /\
    verify_one abc ModeEncrypt st1 (Ok tt) st2.
Proof.
  pose proof (decoder_first abc ModeEncrypt st0) as Hv. cbv zeta in Hv.
  eexists _, _, _. split; [apply Hv; [reflexivity|set_solver|set_solver|reflexivity]|].
  assert (abc ∈ verified_chunks (run_actions
    (decode_chunk ToyPrims.toy ModeEncrypt {| raw_data := stored |} abc 3) (new_errors st0))) as Ha.
  { apply (bool_decide_unpack _). by vm_compute. }
  split; [exact Ha|]. by apply known_chunk_skipped.
Qed.

(** A run that succeeds. *)
Definition abc_done : VState :=
  run_actions (decode_chunk ToyPrims.toy ModeNone {| raw_data := stored |} abc 3) (new_errors st0).
Lemma abc_passes : verify_one abc ModeNone st0 (Ok tt) abc_done.
Proof.
  pose proof (decoder_first abc ModeNone st0 eq_refl ltac:(set_solver) ltac:(set_solver) eq_refl) as Hv.
  cbv zeta in Hv. fold abc_done in Hv. assert (vs_errors abc_done = 0%nat) as E by (by vm_compute).
  by rewrite E in Hv.
Qed.
End VerifyExample.
Import VerifyExample.


Lemma verify_completes_witness :
  exists s r, rtc (step ToyPrims.toy (one_entry xyz) S3 ModeNone small_pools true) (start [0] st0) s /\
    finished s r /\ vs_locked (sy_st s) = ∅.
Proof.
  apply (verify_completes ToyPrims.toy (one_entry xyz) S3 ModeNone small_pools true [0] st0 0 (start [0] st0));
    [cbn; lia..|reflexivity|constructor].
Defined.

Lemma verify_no_false_alarm_witness :
  exists st', verify_one abc ModeNone st0 (Ok tt) st' /\ corrupt_chunks st' = ∅ /\ vs_errors st' = 0%nat.
Proof.
  destruct (verify_no_false_alarm ToyPrims.toy ToyPrims.toy_total (one_entry abc) S3 ModeNone small_pools false
    false (fun _ => false) (fun _ => 0) st0 (Ok tt) abc_done eq_refl) as (_ & _ & Hc & He & _).
  - intros pos Hp. change (positions (one_entry abc)) with [0] in Hp. apply list_elem_of_singleton in Hp as ->. done.
  - intros info (pos & Hp & Ei). change (positions (one_entry abc)) with [0] in Hp.
    apply list_elem_of_singleton in Hp as ->. injection Ei as <-. split; [set_solver|].
    exists {| raw_data := stored |}. split; [|split].
    + exists stored. split; [reflexivity|]. split; [reflexivity|discriminate].
    + vm_compute. reflexivity.
    + exists CryptNone. split; reflexivity.
  - apply abc_passes.
  - exists abc_done. split; [apply abc_passes|]. split; [exact Hc|exact He].
Defined.
