(* ===== verification/VerifySnapshot.v ===== *)
(** * Verification of snapshots, groups and datastores

    [VerifyWorker] of [src/backup/verify.rs] above the verification of one index: the archives of a
    snapshot are checked one after the other against its manifest, the result is recorded in the
    manifest, and groups and datastores are walked over.  The functions of [BackupDir] that this uses
    are those of [pbs-datastore/src/backup_info.rs].  Outcomes of the environment (the addresses of mappings, locks, uploads, the replacement of a
    file, listings) are arguments, requests to abort are [may_abort]. *)

From S2P Require Import Prelude IndexFile FixedIndex DynamicIndex DataBlob Manifest GarbageCollection Verify.
From Stdlib Require Import Strings.Byte Sorting.Sorted.

(** A snapshot: the files of its directory and its objects on an S3 backend. *)
Record Snapshot := { sn_files : gmap string File; sn_objects : gmap string (list byte) }.

(** [pbs_api_types::SnapshotVerifyState], with the task id and its start time. *)
Record UPID := { upid_str : string; upid_starttime : Z }.
Inductive VerifyStateT := VerifyOk | VerifyFailed.
Record SnapshotVerifyState := { sv_upid : UPID; sv_state : VerifyStateT }.
(** What serde derives for it in that crate, and the type of the names of archives. *)
Record VerifyLib := {
  verify_state_to_value : SnapshotVerifyState -> res Value;
  verify_state_of_value : Value -> res SnapshotVerifyState;
  name_archive_type : string -> ArchiveType;
}.

Section snapshot.
Variables (P : Prims) (J : JsonLib) (V : VerifyLib).

(** ** Functions of [BackupDir] *)
Definition load_blob (s : Snapshot) (filename : string) : res DataBlob :=
  match sn_files s !! filename with
  | None => Err "unable to load blob"
  | Some f =>
      match load_from_reader P (Ok (f_data f)) with
      | Err _ => Err "unable to load blob"
      | r => r
      end
  end.

Definition load_manifest (s : Snapshot) : res (BackupManifest * Z) :=
  let? blob := load_blob s MANIFEST_BLOB_NAME in
  let raw_size := raw_size blob in
  let? manifest := manifest_try_from P J blob in
  Ok (manifest, raw_size).

(** The outcomes of the lock of the manifest, of the upload and of the replacement of the file. *)
Record UpdateOutcome := { up_locked : bool; up_uploaded : bool; up_replaced : bool }.

Definition update_manifest (b : Backend) (o : UpdateOutcome)
    (update_fn : BackupManifest -> res BackupManifest) (s : Snapshot) : res unit * Snapshot :=
  if negb (up_locked o) then (Err "unable to acquire manifest lock", s) else
  try! (manifest, _) := load_manifest s for s in
  try! manifest := update_fn manifest for s in
  try! blob := to_data_blob P J manifest None for s in
  let raw_data := raw_data blob in
  let! _, s :=
    match b with
    | Filesystem => (Ok tt, s)
    | S3 =>
        if negb (up_uploaded o) then (Err "failed to update manifest on s3 backend", s)
        else (Ok tt, {| sn_files := sn_files s; sn_objects := <[MANIFEST_BLOB_NAME := raw_data]> (sn_objects s) |})
    end in
  if negb (up_replaced o) then (Err "unable to replace file", s)
  else (Ok tt, {| sn_files := <[MANIFEST_BLOB_NAME := {| f_regular := true; f_data := raw_data |}]> (sn_files s);
                  sn_objects := sn_objects s |}).

(** [verify_state] of the manifest. *)
Definition manifest_verify_state (m : BackupManifest) : res (option SnapshotVerifyState) :=
  let verify := value_index (unprotected m) "verify_state" in
  if is_null verify then Ok None else
  let? v := verify_state_of_value V verify in Ok (Some v).

(** ** The archives of a snapshot *)
Definition verify_blob (s : Snapshot) (info : FileInfo) : res unit :=
  let? blob := load_blob s (fi_filename info) in
  let raw_size := raw_size blob in
  if negb (raw_size =? fi_size info) then Err "wrong size" else
  let csum := sha256 P (raw_data blob) in
  if negb (bool_decide (csum = fi_csum info)) then Err "wrong index checksum" else
  let? mode := crypt_mode blob in
  match mode with
  | CryptEncrypt => Ok tt
  | CryptNone => let? _ := decode P blob None None in Ok tt
  end.

(** The part of [verify_fixed_index] and [verify_dynamic_index] before the chunks. *)
Definition check_csum {R} (index : R) (csum_size : res (list byte * Z)) (info : FileInfo) : res R :=
  let? (csum, size) := csum_size in
  if negb (size =? fi_size info) then Err "wrong size" else
  if negb (bool_decide (csum = fi_csum info)) then Err "wrong index checksum" else
  Ok index.
Definition open_fixed_index (s : Snapshot) (info : FileInfo) (map_addr : option Z) : res Reader.FixedIndexReader :=
  let? index := Reader.open (sn_files s !! fi_filename info) map_addr in
  check_csum index (Reader.compute_csum (sha256 P) index) info.
Definition open_dynamic_index (s : Snapshot) (info : FileInfo) (map_addr : option Z)
    : res DynReader.DynamicIndexReader :=
  let? index := DynReader.open (sn_files s !! fi_filename info) map_addr in
  check_csum index (DynReader.compute_csum (sha256 P) index) info.

Variables (b : Backend) (pools : Pools) (may_abort : bool).

Definition failure {A B} (r : res A) (r' : res B) : Prop :=
  match r, r' with Err e, Err e' => e = e' | Panic e, Panic e' => e = e' | _, _ => False end.

Inductive verify_fixed_index (s : Snapshot) (info : FileInfo) (st : VState) : res unit -> VState -> Prop :=
| fixed_refused map_addr r :
    failure (open_fixed_index s info map_addr) r -> verify_fixed_index s info st r st
| fixed_chunks map_addr index by_inode abort ino r st' :
    open_fixed_index s info map_addr = Ok index ->
    verify_index_chunks P index b (chunk_crypt_mode info) pools may_abort by_inode abort ino st r st' ->
    verify_fixed_index s info st r st'.
Inductive verify_dynamic_index (s : Snapshot) (info : FileInfo) (st : VState) : res unit -> VState -> Prop :=
| dynamic_refused map_addr r :
    failure (open_dynamic_index s info map_addr) r -> verify_dynamic_index s info st r st
| dynamic_chunks map_addr index by_inode abort ino r st' :
    open_dynamic_index s info map_addr = Ok index ->
    verify_index_chunks P index b (chunk_crypt_mode info) pools may_abort by_inode abort ino st r st' ->
    verify_dynamic_index s info st r st'.

Inductive verify_archive (s : Snapshot) (info : FileInfo) (st : VState) : res unit -> VState -> Prop :=
| archive_fixed r st' :
    name_archive_type V (fi_filename info) = FixedIndexT -> verify_fixed_index s info st r st' ->
    verify_archive s info st r st'
| archive_dynamic r st' :
    name_archive_type V (fi_filename info) = DynamicIndexT -> verify_dynamic_index s info st r st' ->
    verify_archive s info st r st'
| archive_blob :
    name_archive_type V (fi_filename info) = BlobT -> verify_archive s info st (verify_blob s info) st.

(** The loop over the files, with the number of errors and the state to record. *)
Inductive verify_files (s : Snapshot) : list FileInfo -> nat -> VerifyStateT -> VState ->
    res (nat * VerifyStateT) -> VState -> Prop :=
| files_done n vr st : verify_files s [] n vr st (Ok (n, vr)) st
| files_panic info files n vr st e st' :
    verify_archive s info st (Panic e) st' -> verify_files s (info :: files) n vr st (Panic e) st'
| files_abort info files n vr st r st' e :
    may_abort = true -> verify_archive s info st r st' -> is_panic r = false ->
    verify_files s (info :: files) n vr st (Err e) st'
| files_good info files n vr st st1 r st' :
    verify_archive s info st (Ok tt) st1 -> verify_files s files n vr st1 r st' ->
    verify_files s (info :: files) n vr st r st'
| files_bad info files n vr st e st1 r st' :
    verify_archive s info st (Err e) st1 -> verify_files s files (S n) VerifyFailed st1 r st' ->
    verify_files s (info :: files) n vr st r st'.

(** The closure that records the result. *)
Definition set_verify_state (v : Value) (m : BackupManifest) : res BackupManifest :=
  let? u := value_index_mut (unprotected m) "verify_state" v in
  Ok (with_unprotected m u).

(** [backend_error]: the outcome of [self.datastore.backend()]. *)
Definition record_state (backend_error : option string) (o : UpdateOutcome) (state : SnapshotVerifyState)
    (s : Snapshot) : res bool * Snapshot :=
  try! v := verify_state_to_value V state for s in
  match backend_error with
  | Some e => (Err e, s)
  | None =>
      match update_manifest b o (set_verify_state v) s with
      | (Ok _, s) => (Ok true, s)
      | (Err _, s) => (Ok false, s)
      | (Panic e, s) => (Panic e, s)
      end
  end.

Definition wanted (filter : option (BackupManifest -> bool)) (m : BackupManifest) : bool :=
  match filter with Some f => f m | None => true end.

Inductive verify_backup_dir_with_lock (upid : UPID) (filter : option (BackupManifest -> bool))
    (s : Snapshot) (st : VState) : res bool -> Snapshot -> VState -> Prop :=
| dir_no_manifest e :
    load_manifest s = Err e -> verify_backup_dir_with_lock upid filter s st (Ok false) s st
| dir_manifest_panic e :
    load_manifest s = Panic e -> verify_backup_dir_with_lock upid filter s st (Panic e) s st
| dir_skipped m n :
    load_manifest s = Ok (m, n) -> wanted filter m = false ->
    verify_backup_dir_with_lock upid filter s st (Ok true) s st
| dir_files_fail m n r r' st' :
    load_manifest s = Ok (m, n) -> wanted filter m = true ->
    verify_files s (m_files m) 0 VerifyOk st r st' -> failure r r' ->
    verify_backup_dir_with_lock upid filter s st r' s st'
| dir_recorded m n error_count verify_result st' backend_error o r s' :
    load_manifest s = Ok (m, n) -> wanted filter m = true ->
    verify_files s (m_files m) 0 VerifyOk st (Ok (error_count, verify_result)) st' ->
    record_state backend_error o {| sv_upid := upid; sv_state := verify_result |} s = (r, s') ->
    verify_backup_dir_with_lock upid filter s st
      (let? recorded := r in Ok ((recorded : bool) && (error_count =? 0)%nat)) s' st'.

(** ** Groups and datastores *)
Record VWorld := { vw_st : VState; vw_snapshots : gmap string Snapshot }.
Inductive verify_backup_dir (upid : UPID) (filter : option (BackupManifest -> bool)) (dir : string)
    (w : VWorld) : res bool -> VWorld -> Prop :=
| dir_vanished :
    vw_snapshots w !! dir = None -> verify_backup_dir upid filter dir w (Ok true) w
| dir_not_locked s :
    vw_snapshots w !! dir = Some s -> verify_backup_dir upid filter dir w (Ok true) w
| dir_locked s r s' st' :
    vw_snapshots w !! dir = Some s ->
    verify_backup_dir_with_lock upid filter s (vw_st w) r s' st' ->
    verify_backup_dir upid filter dir w r
      {| vw_st := st'; vw_snapshots := <[dir := s']> (vw_snapshots w) |}.

Record StoreProgress := { done_groups : Z; total_groups : Z; done_snapshots : Z; group_snapshots : Z }.
Definition progress_new (total : Z) : StoreProgress :=
  {| done_groups := 0; total_groups := total; done_snapshots := 0; group_snapshots := 0 |}.
Definition progress_snapshots (p : StoreProgress) (n : Z) : StoreProgress :=
  {| done_groups := done_groups p; total_groups := total_groups p; done_snapshots := done_snapshots p;
     group_snapshots := n |}.
Definition progress_done (p : StoreProgress) (n : Z) : StoreProgress :=
  {| done_groups := done_groups p; total_groups := total_groups p; done_snapshots := n;
     group_snapshots := group_snapshots p |}.
Definition progress_group (p : StoreProgress) (n : Z) : StoreProgress :=
  {| done_groups := n; total_groups := total_groups p; done_snapshots := 0; group_snapshots := 0 |}.

(** The loop over the snapshots of a group; entry [pos] of the list comes next. *)
Inductive verify_snapshots (upid : UPID) (filter : option (BackupManifest -> bool)) :
    Z -> list string -> list string -> VWorld -> StoreProgress ->
    res (list string) -> VWorld -> StoreProgress -> Prop :=
| snapshots_done pos errors w p : verify_snapshots upid filter pos [] errors w p (Ok errors) w p
| snapshots_fail pos dir dirs errors w p r r' w' :
    verify_backup_dir upid filter dir w r w' -> failure r r' ->
    verify_snapshots upid filter pos (dir :: dirs) errors w p r' w' p
| snapshots_next pos dir dirs errors w p ok w1 r w' p' :
    verify_backup_dir upid filter dir w (Ok ok) w1 ->
    verify_snapshots upid filter (pos + 1) dirs (if ok : bool then errors else errors ++ [dir]) w1
      (progress_done p (pos + 1)) r w' p' ->
    verify_snapshots upid filter pos (dir :: dirs) errors w p r w' p'.

(** [list]: the outcome of [list_backups], times and names; sorted with the newest first. *)
Inductive verify_backup_group (upid : UPID) (filter : option (BackupManifest -> bool))
    (list : res (list (Z * string))) (w : VWorld) (p : StoreProgress)
    : res (Datatypes.list string) -> VWorld -> StoreProgress -> Prop :=
| group_not_listed e : list = Err e -> verify_backup_group upid filter list w p (Ok []) w p
| group_listed l l' r w' p' :
    list = Ok l -> l' ≡ₚ l -> StronglySorted (fun a b => b.1 <= a.1) l' ->
    verify_snapshots upid filter 0 l'.*2 [] w (progress_snapshots p (Z.of_nat (length l))) r w' p' ->
    verify_backup_group upid filter list w p r w' p'.

(** A group of the listing: its type and id, the key of its order, and the outcome of listing it. *)
Record VGroup := { vg_type : string; vg_id : string; vg_key : Z; vg_list : res (list (Z * string)) }.
Definition is_benchmark (g : VGroup) : bool :=
  bool_decide (vg_type g = "host") && bool_decide (vg_id g = "benchmark").

(** The [filter_map] over the listing, which collects errors unless the owner is restricted. *)
Fixpoint list_groups (owner_filtered : bool) (items : list (res VGroup)) (errors : list string)
    : list VGroup * list string :=
  match items with
  | [] => ([], errors)
  | item :: items =>
      match item with
      | Ok g =>
          let '(l, errors) := list_groups owner_filtered items errors in
          (if is_benchmark g then l else g :: l, errors)
      | Err e | Panic e =>
          list_groups owner_filtered items (if owner_filtered then errors else errors ++ [e])
      end
  end.

Inductive verify_groups (upid : UPID) (filter : option (BackupManifest -> bool)) :
    Z -> list VGroup -> list string -> VWorld -> StoreProgress -> res (list string) -> VWorld -> Prop :=
| groups_done pos errors w p : verify_groups upid filter pos [] errors w p (Ok errors) w
| groups_fail pos g groups errors w p r r' w' p' :
    verify_backup_group upid filter (vg_list g) w (progress_group p pos) r w' p' -> failure r r' ->
    verify_groups upid filter pos (g :: groups) errors w p r' w'
| groups_next pos g groups errors w p group_errors w1 p1 r w' :
    verify_backup_group upid filter (vg_list g) w (progress_group p pos) (Ok group_errors) w1 p1 ->
    verify_groups upid filter (pos + 1) groups (errors ++ group_errors) w1 p1 r w' ->
    verify_groups upid filter pos (g :: groups) errors w p r w'.

Inductive verify_all_backups (upid : UPID) (filter : option (BackupManifest -> bool)) (owner_filtered : bool)
    (listing : res (list (res VGroup))) (w : VWorld) : res (list string) -> VWorld -> Prop :=
| all_not_listed e : listing = Err e -> verify_all_backups upid filter owner_filtered listing w (Ok []) w
| all_listed items l errors l' r w' :
    listing = Ok items -> list_groups owner_filtered items [] = (l, errors) ->
    l' ≡ₚ l -> StronglySorted (fun a b => vg_key a <= vg_key b) l' ->
    verify_groups upid filter 0 l' errors w (progress_new (Z.of_nat (length l))) r w' ->
    verify_all_backups upid filter owner_filtered listing w r w'.

(** Which snapshots are due. *)
Definition verify_filter (now : Z) (ignore_verified_snapshots : bool) (outdated_after : option Z)
    (m : BackupManifest) : bool :=
  if negb ignore_verified_snapshots then true else
  match manifest_verify_state m with
  | Ok (Some last_verify) =>
      match outdated_after with
      | None => false
      | Some max_age =>
          let days_since_last_verify := Z.quot (i64 (now - upid_starttime (sv_upid last_verify))) 86400 in
          max_age <? days_since_last_verify
      end
  | Err _ | Panic _ | Ok None => true
  end.

(** The result of a verification job. *)
Definition job_result (result : res (list string)) : res unit :=
  match result with
  | Ok [] => Ok tt
  | Ok _ => Err "verification failed - please check the log for details"
  | Err _ => Err "verification failed - job aborted"
  | Panic e => Panic e
  end.
End snapshot.
