(* ===== verification/VerifySnapshotSpec.v ===== *)
(** * Correctness of the verification of snapshots

    What is recorded in the manifest of a snapshot is what was found, a recorded snapshot is not
    verified again until it is due, and a verification job succeeds only if every snapshot did. *)

From S2P Require Import Prelude IndexFile FixedIndex DynamicIndex DataBlob DataBlobSpec Manifest ManifestSpec GarbageCollection Verify VerifySpec VerifySnapshot.
From Stdlib Require Import Strings.Byte Sorting.Sorted.
Import BlobSpec ManifestLemmas.

(** serde of the crate pbs-api-types reads what it has written. *)
Class VerifyLaws (V : VerifyLib) := {
  verify_state_value v : exists x, verify_state_to_value V v = Ok x /\ is_null x = false /\
    verify_state_of_value V x = Ok v;
}.

Section snapshot.
Context (P : Prims) `{PrimsLaws P} (total : prims_total P) (J : JsonLib) `{!JsonLaws J}.
Context (V : VerifyLib) `{!VerifyLaws V}.
Context (b : Backend) (pools : Pools) (may_abort : bool).

(** ** The manifest *)
Lemma encode_no_key iv iv' data compress : encode P iv data None compress = encode P iv' data None compress.
Proof. done. Qed.

Lemma manifest_blob_loads m blob :
  manifest_ok J m -> to_data_blob P J m None = Ok blob ->
  load_from_reader P (Ok (raw_data blob)) = Ok blob /\ manifest_try_from P J blob = Ok m.
Proof.
  intros (Ht & Hi & Hf & _). unfold to_data_blob, manifest_to_string.
  set (text := to_string_pretty J (manifest_to_value J m)). cbv zeta. fold text.
  rewrite (encode_no_key _ (Ok (replicate 16 x00))). intros He.
  assert (Z.of_nat (length text) <= MAX_BLOB_SIZE) as Hmax.
  { unfold encode in He. destruct (MAX_BLOB_SIZE <? Z.of_nat (length text)) eqn:E; [done|]. by apply Z.ltb_ge in E. }
  destruct (encoded_roundtrip P (replicate 16 x00) text None true Hmax) as (blob' & He' & Hl & _ & Hd); [done|done|].
  rewrite He in He'. injection He' as <-. split; [done|].
  unfold manifest_try_from. rewrite Hd. cbn. unfold text. rewrite json_text. by apply value_roundtrip.
Qed.

(** A successful update writes the changed manifest, and it can be read back. *)
Lemma update_manifest_ok o fn s u s' :
  update_manifest P J b o fn s = (Ok u, s') ->
  exists m n m', load_manifest P J s = Ok (m, n) /\ fn m = Ok m' /\
    (manifest_ok J m' -> exists n', load_manifest P J s' = Ok (m', n')) /\
    (forall name, name <> MANIFEST_BLOB_NAME -> sn_files s' !! name = sn_files s !! name).
Proof.
  unfold update_manifest. destruct (up_locked o); [|done]. cbn [negb].
  destruct (load_manifest P J s) as [[m n]| |]; [|done..]. destruct (fn m) as [m'| |] eqn:Ef; [|done..].
  destruct (to_data_blob P J m' None) as [blob| |] eqn:Eb; [|done..]. intros Hu.
  assert (sn_files s' = <[MANIFEST_BLOB_NAME := {| f_regular := true; f_data := raw_data blob |}]> (sn_files s)) as Es.
  { destruct b, (up_uploaded o), (up_replaced o); cbn in Hu; by simplify_eq. }
  exists m, n, m'. split_and!; [done..| |].
  - intros Hm. destruct (manifest_blob_loads m' blob Hm Eb) as [Hl Ht]. exists (raw_size blob).
    unfold load_manifest, load_blob. rewrite Es, lookup_insert_eq. cbn [f_regular f_data negb].
    rewrite Hl, Ht. done.
  - intros name Hn. rewrite Es. by rewrite lookup_insert_ne.
Qed.
Lemma update_manifest_fails o fn s r s' :
  update_manifest P J b o fn s = (r, s') -> is_ok r = false -> sn_files s' = sn_files s.
Proof.
  unfold update_manifest. intros Hu Hr. destruct b; repeat case_match; simplify_eq/=; done.
Qed.

(** What a recorded result leaves: the content and the signature stay as they are. *)
Definition recorded (v : SnapshotVerifyState) (m : BackupManifest) (s s' : Snapshot) : Prop :=
  exists m' n', load_manifest P J s' = Ok (m', n') /\ same_content m m' /\ m_signature m' = m_signature m /\
    manifest_verify_state V m' = Ok (Some v) /\
    forall name, name <> MANIFEST_BLOB_NAME -> sn_files s' !! name = sn_files s !! name.

Lemma set_verify_state_spec v x m m' :
  verify_state_of_value V x = Ok v -> is_null x = false -> set_verify_state x m = Ok m' ->
  same_content m m' /\ m_signature m' = m_signature m /\ manifest_verify_state V m' = Ok (Some v) /\
  (manifest_ok J m -> manifest_ok J m').
Proof.
  intros Hx Hn. unfold set_verify_state. intros Hset.
  assert (exists u, m' = with_unprotected m (VObject u) /\ field_get u "verify_state" = Some x) as (u & -> & Hu).
  { unfold value_index_mut in Hset. destruct (unprotected m) as [| | | | |fields]; try done; injection Hset as <-.
    - by exists [("verify_state", x)].
    - eexists. split; [done|]. apply field_get_set. }
  split; [done|]. split; [done|]. split; [|unfold manifest_ok; cbn; naive_solver].
  assert (value_index (VObject u) "verify_state" = x) as E by (cbn; by rewrite Hu).
  unfold manifest_verify_state. cbn [with_unprotected unprotected]. by rewrite E, Hn, Hx.
Qed.

Lemma record_state_spec e o v s r s' m n :
  record_state P J V b e o v s = (r, s') -> load_manifest P J s = Ok (m, n) -> manifest_ok J m ->
  match r with
  | Ok true => recorded v m s s'
  | _ => sn_files s' = sn_files s
  end.
Proof.
  unfold record_state. destruct (verify_state_value v) as (x & -> & Hn & Hx). destruct e as [e|].
  { by intros [= <- <-]. }
  intros Hr Hm Hok. destruct (update_manifest P J b o (set_verify_state x) s) as [ru s1] eqn:Eu.
  destruct ru as [u|e|e]; injection Hr as <- <-; [|by eapply update_manifest_fails..].
  apply update_manifest_ok in Eu as (m0 & n0 & m' & Hm0 & Hset & Hl & Hother).
  rewrite Hm in Hm0. injection Hm0 as <- <-.
  destruct (set_verify_state_spec v x m m' Hx Hn Hset) as (? & ? & ? & Hok').
  destruct (Hl (Hok' Hok)) as [n' ?]. by exists m', n'.
Qed.

(** ** Archives *)

(** A chunk whose content was checked against its digest, now or before. *)
Definition chunk_checked (st : VState) (d : digest) : Prop :=
  d ∈ verified_chunks st \/
  exists chunk size, readable P b (vs_store st) d chunk /\ verify_unencrypted P chunk size d = Ok tt.
(** All chunks of an index, apart from those that were still with the decoders. *)
Definition index_checked {R} `{IndexFile R} (st : VState) (index : R) : Prop :=
  exists missed, (length missed <= verify_capacity pools + verify_threads pools)%nat /\
    forall info, in_index index info -> cri_digest info ∈ missed \/ chunk_checked st (cri_digest info).
Definition archive_checked (s : Snapshot) (st : VState) (info : FileInfo) : Prop :=
  match name_archive_type V (fi_filename info) with
  | FixedIndexT => exists map_addr index,
      Reader.open (sn_files s !! fi_filename info) map_addr = Ok index /\
      Reader.compute_csum (sha256 P) index = Ok (fi_csum info, fi_size info) /\ index_checked st index
  | DynamicIndexT => exists map_addr index,
      DynReader.open (sn_files s !! fi_filename info) map_addr = Ok index /\
      DynReader.compute_csum (sha256 P) index = Ok (fi_csum info, fi_size info) /\ index_checked st index
  | BlobT => exists f blob,
      sn_files s !! fi_filename info = Some f /\ load_from_reader P (Ok (f_data f)) = Ok blob /\
      Z.of_nat (length (f_data f)) = fi_size info /\ sha256 P (f_data f) = fi_csum info /\
      (crypt_mode blob = Ok CryptEncrypt \/ is_ok (decode P blob None None) = true)
  end.

(** The state that a later archive of the same snapshot sees. *)
Definition later (st st' : VState) : Prop :=
  vs_store st' ⊆ vs_store st /\ forall d, d ∈ verified_chunks st' -> chunk_checked st d.
Lemma readable_weaken store store' d chunk :
  store' ⊆ store -> readable P b store' d chunk -> readable P b store d chunk.
Proof. intros Hs (raw & E & Hr). exists raw. split; [by eapply lookup_weaken|done]. Qed.
Lemma chunk_checked_later st st' d : later st st' -> chunk_checked st' d -> chunk_checked st d.
Proof.
  intros [Hs Hv] [Hd|(c & z & Hr & Hc)]; [by apply Hv|]. right. exists c, z. split; [|done].
  by eapply readable_weaken.
Qed.
Lemma later_refl st : later st st.
Proof. split; [done|]. by left. Qed.
Lemma later_trans st1 st2 st3 : later st1 st2 -> later st2 st3 -> later st1 st3.
Proof.
  intros H12 [Hs Hv]. split; [etransitivity; [exact Hs|apply H12]|]. intros d Hd.
  eapply chunk_checked_later; [exact H12|]. by apply Hv.
Qed.
Lemma archive_checked_later s st st' info : later st st' -> archive_checked s st' info -> archive_checked s st info.
Proof.
  intros Hl. unfold archive_checked, index_checked.
  destruct (name_archive_type V (fi_filename info)); [..|done];
    intros (a & i & Ho & Hc & missed & Hm & Hall); exists a, i; (split_and!; [done..|]); exists missed;
    (split; [done|]); intros x Hx; destruct (Hall x Hx); [by left|right; by eapply chunk_checked_later| |];
    [by left|right; by eapply chunk_checked_later].
Qed.

Lemma check_csum_ok {R} (index index' : R) cs info :
  check_csum index cs info = Ok index' -> index' = index /\ cs = Ok (fi_csum info, fi_size info).
Proof.
  unfold check_csum. destruct cs as [[csum size]| |]; [|done..]. cbn. destruct (size =? _) eqn:E1; [|done].
  case_bool_decide as E2; [|done]. apply Z.eqb_eq in E1. cbn. intros [= <-]. by subst.
Qed.
Lemma index_runs {R} `{IndexFile R} (index : R) mode by_inode abort ino st r st' :
  verify_index_chunks P index b mode pools may_abort by_inode abort ino st r st' ->
  later st st' /\ (r = Ok tt -> index_checked st index).
Proof.
  intros Hv. split; [split|].
  - apply (verify_index_effect P total index b mode pools may_abort) in Hv. apply Hv.
  - apply (verify_index_effect P total index b mode pools may_abort) in Hv. apply Hv.
  - intros ->. apply (verify_index_ok P total index b mode pools may_abort) in Hv as (missed & Hm & Hall).
    exists missed. split; [done|]. intros info Hi. destruct (Hall info Hi) as [?|[?|(c & z & ? & _ & ? & _)]].
    + by left.
    + right. by left.
    + right. right. by exists c, z.
Qed.
Lemma verify_blob_ok s info :
  verify_blob P s info = Ok tt -> exists f blob,
    sn_files s !! fi_filename info = Some f /\ load_from_reader P (Ok (f_data f)) = Ok blob /\
    Z.of_nat (length (f_data f)) = fi_size info /\ sha256 P (f_data f) = fi_csum info /\
    (crypt_mode blob = Ok CryptEncrypt \/ is_ok (decode P blob None None) = true).
Proof.
  unfold verify_blob, load_blob. destruct (sn_files s !! fi_filename info) as [f|]; [|done].
  destruct (load_from_reader P (Ok (f_data f))) as [blob| |] eqn:El; [|done..].
  cbn. destruct (raw_size blob =? fi_size info) eqn:E1; [|done]. cbn.
  case_bool_decide as E2; [|done]. cbn. intros Hm. exists f, blob.
  assert (raw_data blob = f_data f) as Er.
  { pose proof (load_from_raw P _ _ El) as Hr. apply from_raw_inv in Hr. by destruct Hr as [-> _]. }
  unfold raw_size in E1. rewrite Er in E1, E2. apply Z.eqb_eq in E1. split_and!; [done..|].
  destruct (crypt_mode blob) as [[|]| |]; try done; [right|by left]. by destruct (decode P blob None None).
Qed.

Lemma verify_archive_spec s info st r st' :
  verify_archive P V b pools may_abort s info st r st' ->
  later st st' /\ (r = Ok tt -> archive_checked s st info).
Proof.
  unfold archive_checked.
  intros [r0 st0 Ht Hv|r0 st0 Ht Hv|Ht]; rewrite Ht.
  - destruct Hv as [a r1 Hf|a index bi ab ino r1 st1 Ho Hv].
    + split; [apply later_refl|]. intros ->. unfold failure in Hf. by repeat case_match.
    + apply index_runs in Hv as [Hl Hok]. split; [done|]. intros Hr. unfold open_fixed_index in Ho.
      destruct (Reader.open _ a) as [i| |] eqn:Eo; [|done..]. apply check_csum_ok in Ho as [-> Hc].
      exists a, i. by auto.
  - destruct Hv as [a r1 Hf|a index bi ab ino r1 st1 Ho Hv].
    + split; [apply later_refl|]. intros ->. unfold failure in Hf. by repeat case_match.
    + apply index_runs in Hv as [Hl Hok]. split; [done|]. intros Hr. unfold open_dynamic_index in Ho.
      destruct (DynReader.open _ a) as [i| |] eqn:Eo; [|done..]. apply check_csum_ok in Ho as [-> Hc].
      exists a, i. by auto.
  - split; [apply later_refl|]. apply verify_blob_ok.
Qed.

(** The state to record is the one that was found. *)
Lemma verify_files_spec s files n vr st n' vr' st' :
  verify_files P V b pools may_abort s files n vr st (Ok (n', vr')) st' ->
  later st st' /\ (n <= n')%nat /\
  ((n = 0%nat <-> vr = VerifyOk) -> (n' = 0%nat <-> vr' = VerifyOk)) /\
  (n' = n -> Forall (archive_checked s st) files) /\
  ((n < n')%nat -> exists info st1 e st2, info ∈ files /\ later st st1 /\
     verify_archive P V b pools may_abort s info st1 (Err e) st2).
Proof.
  remember (Ok (n', vr')) as r eqn:Er. intros Hv. revert Er.
  induction Hv as [n vr st| | |info files n vr st st1 r st' Ha _ IH|info files n vr st e st1 r st' Ha _ IH];
    intros Er; simplify_eq.
  - split_and!; [apply later_refl|lia|done|by constructor|lia].
  - apply verify_archive_spec in Ha as [Hl Hok]. destruct (IH eq_refl) as (Hl' & Hn & Hs & Hg & Hb).
    split_and!; [by eapply later_trans|done|done| |].
    + intros En. constructor; [by apply Hok|]. eapply Forall_impl; [by apply Hg|]. intros x. by apply archive_checked_later.
    + intros Hlt. destruct (Hb Hlt) as (i & s1 & e & s2 & Hi & Hx & Hv). exists i, s1, e, s2.
      split_and!; [apply elem_of_cons; by right|by eapply later_trans|done].
  - pose proof (verify_archive_spec _ _ _ _ _ Ha) as [Hl _]. destruct (IH eq_refl) as (Hl' & Hn & Hs & _).
    split_and!; [by eapply later_trans|lia| |lia|].
    + intros _. by apply Hs.
    + intros _. exists info, st, e, st1. split_and!; [apply elem_of_cons; by left|apply later_refl|done].
Qed.

(** ** Snapshots *)
Abbreviation verify_dir := (verify_backup_dir_with_lock P J V b pools may_abort).

Lemma verify_dir_inv upid filter s st r s' st' m n :
  load_manifest P J s = Ok (m, n) -> verify_dir upid filter s st r s' st' ->
  (wanted filter m = false /\ r = Ok true /\ s' = s /\ st' = st) \/
  (wanted filter m = true /\ is_ok r = false /\ s' = s) \/
  (wanted filter m = true /\ exists error_count verify_result backend_error o recorded,
     verify_files P V b pools may_abort s (m_files m) 0 VerifyOk st (Ok (error_count, verify_result)) st' /\
     record_state P J V b backend_error o {| sv_upid := upid; sv_state := verify_result |} s = (recorded, s') /\
     r = let? recorded := recorded in Ok (recorded && (error_count =? 0)%nat)).
Proof.
  intros Hm Hv. destruct Hv as [e He|e He|m0 n0 Hm0 Hw|m0 n0 r r' st0 Hm0 Hw Hf Hr|m0 n0 ec vr st0 be o r s0 Hm0 Hw Hf Hrec];
    try congruence; rewrite Hm in Hm0; injection Hm0 as <- <-.
  - by left.
  - right. left. split; [done|]. split; [|done]. by destruct r, r'.
  - right. right. split; [done|]. by exists ec, vr, be, o, r.
Qed.


(** What a failed verification leaves.  Then the manifest records the failure with the id of the task, because the check of
    some archive failed, or the manifest could not be updated, and the files of the snapshot are as before. *)
Theorem snapshot_failed upid filter s st s' st' m n :
  load_manifest P J s = Ok (m, n) -> manifest_ok J m -> verify_dir upid filter s st (Ok false) s' st' ->
  sn_files s' = sn_files s \/
  (recorded {| sv_upid := upid; sv_state := VerifyFailed |} m s s' /\
   exists info st1 e st2, info ∈ m_files m /\
     verify_archive P V b pools may_abort s info st1 (Err e) st2).
Proof.
  intros Hm Hok Hv. destruct (verify_dir_inv _ _ _ _ _ _ _ _ _ Hm Hv) as
    [(Hw & Hr & -> & ->)|[(_ & ? & _)|(Hw & ec & vr & be & o & r & Hf & Hrec & Hr)]].
  - done.
  - done.
  - pose proof (record_state_spec _ _ _ _ _ _ _ _ Hrec Hm Hok) as Hrs.
    destruct r as [[|]| |]; try done; [|by left]. right. cbn in Hr. destruct (Nat.eqb_spec ec 0) as [->|Hne]; [done|].
    apply verify_files_spec in Hf as (_ & _ & Hs & _ & Hb). assert (vr = VerifyFailed) as ->.
    { destruct vr; [|done]. destruct Hne. by apply Hs. }
    split; [done|]. destruct (Hb ltac:(lia)) as (i & s1 & e & s2 & ? & _ & ?). by exists i, s1, e, s2.
Qed.

(** An aborted verification, or one that panics, records nothing. *)
Lemma snapshot_aborted upid filter s st r s' st' m n :
  load_manifest P J s = Ok (m, n) -> manifest_ok J m -> verify_dir upid filter s st r s' st' -> is_ok r = false ->
  sn_files s' = sn_files s.
Proof.
  intros Hm Hok Hv Hr. destruct (verify_dir_inv _ _ _ _ _ _ _ _ _ Hm Hv) as
    [(_ & _ & -> & _)|[(_ & _ & ->)|(_ & ec & vr & be & o & r0 & _ & Hrec & ->)]]; [done..|].
  pose proof (record_state_spec _ _ _ _ _ _ _ _ Hrec Hm Hok) as Hrs. by destruct r0 as [[|]| |].
Qed.

(** No second verification before it is due.  After a result was recorded, whatever it is, a job that ignores verified
    snapshots skips this one with success and changes nothing: always without a maximal age, and else until
    more than that number of days has passed since the start of the task that verified it. *)
Theorem recorded_not_repeated v m s s1 now outdated_after upid st r s2 st2 :
  recorded v m s s1 -> in_i64 (now - upid_starttime (sv_upid v)) ->
  (forall days, outdated_after = Some days -> 0 <= days /\
     now - upid_starttime (sv_upid v) < (days + 1) * 86400) ->
  verify_dir upid (Some (verify_filter V now true outdated_after)) s1 st r s2 st2 ->
  r = Ok true /\ s2 = s1 /\ st2 = st.
Proof.
  intros (m' & n' & Hl & _ & _ & Hs & _) Hnow Hdue Hv.
  assert (wanted (Some (verify_filter V now true outdated_after)) m' = false) as Hw.
  { cbn [wanted]. unfold verify_filter. rewrite Hs. cbn [negb]. destruct outdated_after as [days|]; [|done].
    destruct (Hdue days eq_refl) as [Hd Hlt]. rewrite i64_small by done. apply Z.ltb_ge.
    set (t := now - upid_starttime (sv_upid v)) in *. destruct (Z_le_gt_dec 0 t) as [Ht|Ht].
    - rewrite Z.quot_div_nonneg by lia. apply Z.lt_succ_r, Z.div_lt_upper_bound; lia.
    - pose proof (Z.quot_opp_l t 86400 ltac:(lia)). pose proof (Z.quot_pos (- t) 86400 ltac:(lia) ltac:(lia)). lia. }
  destruct (verify_dir_inv _ _ _ _ _ _ _ _ _ Hl Hv) as [(_ & ? & ? & ?)|[(? & _)|(? & _)]]; [done|congruence..].
Qed.

(** ** Groups and jobs *)
Definition dir_result upid filter dir ok : Prop :=
  exists w1 w2, verify_backup_dir P J V b pools may_abort upid filter dir w1 (Ok ok) w2.

Lemma failure_not_ok {A B} (r : res A) (r' : res B) : failure r r' -> is_ok r' = false.
Proof. by destruct r, r'. Qed.

Lemma verify_snapshots_spec upid filter pos dirs errors w p r w' p' errors' :
  verify_snapshots P J V b pools may_abort upid filter pos dirs errors w p r w' p' -> r = Ok errors' ->
  exists bad, errors' = errors ++ bad /\ bad `sublist_of` dirs /\
    Forall (fun dir => dir_result upid filter dir false) bad /\
    (forall dir, dir ∈ dirs -> dir ∈ bad \/ dir_result upid filter dir true).
Proof.
  induction 1 as [pos errors w p|pos dir dirs errors w p r r' w' Hd Hf|pos dir dirs errors w p ok w1 r w' p' Hd _ IH];
    intros Er.
  - injection Er as <-. exists []. rewrite app_nil_r. split_and!; [done..|]. intros ? Hx. by apply elem_of_nil in Hx.
  - subst r'. by apply failure_not_ok in Hf.
  - destruct (IH Er) as (bad & -> & Hsub & Hbad & Hall). destruct ok.
    + exists bad. split_and!; [done|by apply sublist_cons|done|]. intros x [-> | Hx]%elem_of_cons; [|by apply Hall].
      right. by exists w, w1.
    + exists (dir :: bad). split_and!; [by rewrite <- (assoc_L (++))|by apply sublist_skip| |].
      * constructor; [by exists w, w1|done].
      * intros x [-> | Hx]%elem_of_cons; [left; apply elem_of_cons; by left|].
        destruct (Hall x Hx); [left; apply elem_of_cons; by right|by right].
Qed.
Lemma verify_group_spec upid filter l w p w' p' errors :
  verify_backup_group P J V b pools may_abort upid filter (Ok l) w p (Ok errors) w' p' ->
  Forall (fun dir => dir ∈ l.*2 /\ dir_result upid filter dir false) errors /\
  (forall dir, dir ∈ l.*2 -> dir ∈ errors \/ dir_result upid filter dir true).
Proof.
  intros Hg. inversion Hg as [e He|l0 l' r w0 p0 El Hp Hs Hv]; subst; [done|]. injection El as <-.
  destruct (verify_snapshots_spec _ _ _ _ _ _ _ _ _ _ _ Hv eq_refl) as (bad & -> & Hsub & Hbad & Hall).
  cbn [app]. split.
  - rewrite Forall_forall in Hbad |- *. intros dir Hd. split; [|by apply Hbad].
    rewrite <- Hp. by eapply sublist_subseteq.
  - intros dir Hd. apply Hall. by rewrite Hp.
Qed.

Lemma verify_groups_spec upid filter pos groups errors w p r w' errors' :
  verify_groups P J V b pools may_abort upid filter pos groups errors w p r w' -> r = Ok errors' ->
  exists bad, errors' = errors ++ bad /\
    forall g l dir, g ∈ groups -> vg_list g = Ok l -> dir ∈ l.*2 -> dir ∈ bad \/ dir_result upid filter dir true.
Proof.
  induction 1 as [pos errors w p|pos g groups errors w p r r' w' p' _ Hf|pos g groups errors w p ge w1 p1 r w' Hg _ IH];
    intros Er.
  - injection Er as <-. exists []. rewrite app_nil_r. split; [done|]. intros ??? Hx. by apply elem_of_nil in Hx.
  - subst r'. by apply failure_not_ok in Hf.
  - destruct (IH Er) as (bad & -> & Hall). exists (ge ++ bad). split; [by rewrite (assoc_L (++))|].
    intros g' l dir [-> | Hx]%elem_of_cons El Hd; rewrite elem_of_app.
    + rewrite El in Hg. apply verify_group_spec in Hg as [_ Hg]. destruct (Hg dir Hd); by auto.
    + destruct (Hall g' l dir Hx El Hd); by auto.
Qed.

Lemma list_groups_spec items : forall errors l errors',
  list_groups false items errors = (l, errors') ->
  (exists more, errors' = errors ++ more) /\
  (errors' = [] -> Forall (fun item => is_ok item = true) items) /\
  forall g, g ∈ l <-> Ok g ∈ items /\ is_benchmark g = false.
Proof.
  induction items as [|item items IH]; intros errors l errors'; cbn [list_groups].
  { intros [= <- <-]. split; [exists []; by rewrite app_nil_r|]. split; [by constructor|]. intros g.
    rewrite !elem_of_nil. naive_solver. }
  destruct item as [g|e|e]; [destruct (list_groups false items errors) as [l0 e0] eqn:E; intros [= <- <-]|intros E..].
  - destruct (IH _ _ _ E) as (Hm & Hok & Hl). split; [done|]. split; [intros; constructor; by auto|].
    intros g'. assert (Ok g' = Ok g <-> g' = g) as Eg by (split; congruence).
    destruct (is_benchmark g) eqn:Eb; rewrite !elem_of_cons, Hl, Eg; split.
    + intros [? ?]. by auto.
    + intros [[-> | ?] ?]; [congruence|by auto].
    + intros [-> | [? ?]]; by auto.
    + intros [[-> | ?] ?]; by auto.
  - destruct (IH _ _ _ E) as ([more ->] & Hok & Hl). split; [exists (e :: more); by rewrite <- (assoc_L (++))|].
    split; [intros Hx; by destruct errors|]. intros g'. rewrite elem_of_cons, Hl. naive_solver.
  - destruct (IH _ _ _ E) as ([more ->] & Hok & Hl). split; [exists (e :: more); by rewrite <- (assoc_L (++))|].
    split; [intros Hx; by destruct errors|]. intros g'. rewrite elem_of_cons, Hl. naive_solver.
Qed.

(** What a successful verification job says.  If the groups of the datastore could be listed, then every entry of the
    listing is a group, and every snapshot of every group (apart from the benchmark and from groups whose
    snapshots could not be listed) was verified with success or skipped. *)
Theorem verify_job_ok upid filter items w r w' :
  verify_all_backups P J V b pools may_abort upid filter false (Ok items) w r w' -> job_result r = Ok tt ->
  forall item, item ∈ items -> exists g, item = Ok g /\
    (is_benchmark g = false -> forall l time dir, vg_list g = Ok l -> (time, dir) ∈ l ->
       dir_result upid filter dir true).
Proof.
  intros Hv Hr item Hitem. inversion Hv as [e He|items0 l errors l' r0 w0 Ei El Hp Hs Hg]; subst; [done|]. injection Ei as <-.
  destruct r as [[|e es]| |]; try done.
  destruct (verify_groups_spec _ _ _ _ _ _ _ _ _ _ Hg eq_refl) as (bad & [-> ->]%eq_sym%app_nil & Hall).
  destruct (list_groups_spec _ _ _ _ El) as (_ & Hok & Hl). specialize (Hok eq_refl).
  rewrite Forall_forall in Hok. specialize (Hok item Hitem). destruct item as [g| |]; [|done..].
  exists g. split; [done|]. intros Hb l0 time dir El0 Hd. destruct (Hall g l0 dir) as [Hx|?]; [| |..].
  - rewrite Hp. by apply Hl.
  - done.
  - by apply (list_elem_of_fmap_2 snd) in Hd.
  - by apply elem_of_nil in Hx.
  - done.
Qed.
End snapshot.

(** ** Examples *)
Module SnapshotExample.
Definition state_str (v : VerifyStateT) : string := match v with VerifyOk => "ok" | VerifyFailed => "failed" end.
Definition toy_verify : VerifyLib := {|
  verify_state_to_value v := Ok (VObject [("upid", VString (upid_str (sv_upid v)));
    ("start", VNumber (upid_starttime (sv_upid v))); ("state", VString (state_str (sv_state v)))]);
  verify_state_of_value v :=
    match v with
    | VObject [(_, VString u); (_, VNumber t); (_, VString s)] =>
        Ok {| sv_upid := {| upid_str := u; upid_starttime := t |};
              sv_state := if bool_decide (s = "ok") then VerifyOk else VerifyFailed |}
    | _ => Err "invalid type"
    end;
  name_archive_type _ := BlobT;
|}.
#[global] Instance toy_verify_laws : VerifyLaws toy_verify.
Proof. split. intros [[u t] [|]]; eexists; (split; [done|]); by split. Qed.

Definition blob_data (data : list byte) : list byte :=
  match encode ToyPrims.toy (Err "no iv") data None false with Ok blob => raw_data blob | _ => [] end.
Definition conf : list byte := blob_data (bytes "conf").
Definition m0 : BackupManifest :=
  manifest_add_file "qemu.conf.blob" 16 (resize 32 x00 conf) ModeNone (manifest_new "vm" "100" 1700000000).
Definition manifest_file : list byte :=
  match to_data_blob ToyPrims.toy ToyJson.toy_json m0 None with Ok blob => raw_data blob | _ => [] end.
Definition file (data : list byte) : File := {| f_regular := true; f_data := data |}.
(** A snapshot with its only archive, and without it. *)
Definition good : Snapshot :=
  {| sn_files := {[MANIFEST_BLOB_NAME := file manifest_file; "qemu.conf.blob" := file conf]}; sn_objects := ∅ |}.
Definition bad : Snapshot := {| sn_files := {[MANIFEST_BLOB_NAME := file manifest_file]}; sn_objects := ∅ |}.
Definition task : UPID := {| upid_str := "UPID:pbs:1"; upid_starttime := 1700001000 |}.
Definition all_right : UpdateOutcome := {| up_locked := true; up_uploaded := true; up_replaced := true |}.
Abbreviation verify_dir := (verify_backup_dir_with_lock ToyPrims.toy ToyJson.toy_json toy_verify Filesystem
  VerifyExample.small_pools false).

Lemma m0_ok : manifest_ok ToyJson.toy_json m0.
Proof.
  split_and!; [done|unfold in_i64; cbn; lia| |done]. constructor; [|done].
  split_and!; [done|unfold in_u64, U64_MAX; cbn; lia|by vm_compute].
Qed.
Definition raw_len : Z := Z.of_nat (length manifest_file).
Lemma good_loads : load_manifest ToyPrims.toy ToyJson.toy_json good = Ok (m0, raw_len).
Proof. vm_compute. reflexivity. Qed.
Lemma bad_loads : load_manifest ToyPrims.toy ToyJson.toy_json bad = Ok (m0, raw_len).
Proof. vm_compute. reflexivity. Qed.

Definition record (v : VerifyStateT) (s : Snapshot) : res bool * Snapshot :=
  record_state ToyPrims.toy ToyJson.toy_json toy_verify Filesystem None all_right
    {| sv_upid := task; sv_state := v |} s.
Lemma records v s : (record v s).1 = Ok true -> exists s', record v s = (Ok true, s').
Proof. destruct (record v s) as [r s']. intros [= ->]. by exists s'. Qed.
Lemma verified_dir s s' error_count v :
  load_manifest ToyPrims.toy ToyJson.toy_json s = Ok (m0, raw_len) -> record v s = (Ok true, s') ->
  verify_files ToyPrims.toy toy_verify Filesystem VerifyExample.small_pools false s (m_files m0) 0 VerifyOk
    VerifyExample.st0 (Ok (error_count, v)) VerifyExample.st0 ->
  verify_dir task None s VerifyExample.st0 (Ok (error_count =? 0)%nat) s' VerifyExample.st0.
Proof.
  intros Hm Hr Hf.
  exact (dir_recorded _ _ _ _ _ _ _ None _ _ m0 raw_len error_count v _ None all_right (Ok true) s' Hm eq_refl Hf Hr).
Qed.
Definition conf_info : FileInfo :=
  {| fi_filename := "qemu.conf.blob"; fi_crypt_mode := ModeNone; fi_size := 16; fi_csum := resize 32 x00 conf |}.

Lemma good_verified : exists s', record VerifyOk good = (Ok true, s') /\
  verify_dir task None good VerifyExample.st0 (Ok true) s' VerifyExample.st0.
Proof.
  destruct (records VerifyOk good) as [s' Hr]; [by vm_compute|]. exists s'. split; [done|].
  apply (verified_dir good s' 0 VerifyOk good_loads Hr). change (m_files m0) with [conf_info].
  eapply files_good; [|apply files_done].
  replace (Ok tt) with (verify_blob ToyPrims.toy good conf_info) by (by vm_compute). by apply archive_blob.
Qed.
Lemma bad_failed : exists s', record VerifyFailed bad = (Ok true, s') /\
  verify_dir task None bad VerifyExample.st0 (Ok false) s' VerifyExample.st0.
Proof.
  destruct (records VerifyFailed bad) as [s' Hr]; [by vm_compute|]. exists s'. split; [done|].
  apply (verified_dir bad s' 1 VerifyFailed bad_loads Hr). change (m_files m0) with [conf_info].
  eapply (files_bad _ _ _ _ _ _ conf_info [] _ _ _ "unable to load blob"); [|apply files_done].
  replace (Err "unable to load blob") with (verify_blob ToyPrims.toy bad conf_info) by (by vm_compute).
  by apply archive_blob.
Qed.
End SnapshotExample.
Import SnapshotExample.


Lemma snapshot_failed_witness :
  exists s', verify_dir task None bad VerifyExample.st0 (Ok false) s' VerifyExample.st0 /\
    (sn_files s' = sn_files bad \/
     recorded ToyPrims.toy ToyJson.toy_json toy_verify {| sv_upid := task; sv_state := VerifyFailed |} m0 bad s').
Proof.
  destruct bad_failed as (s' & _ & Hv). exists s'. split; [exact Hv|].
  destruct (snapshot_failed ToyPrims.toy ToyPrims.toy_total ToyJson.toy_json toy_verify Filesystem
    VerifyExample.small_pools false task None bad VerifyExample.st0 s' VerifyExample.st0 m0 raw_len
    bad_loads m0_ok Hv) as [Hs|[Hr _]]; [left; exact Hs|right; exact Hr].
Defined.

(** Ten days later, with a maximal age of thirty days. *)
Lemma recorded_not_repeated_witness :
  exists s1, record VerifyFailed bad = (Ok true, s1) /\
    forall r s2 st2,
      verify_dir task (Some (verify_filter toy_verify 1700865000 true (Some 30))) s1 VerifyExample.st0 r s2 st2 ->
      r = Ok true /\ s2 = s1 /\ st2 = VerifyExample.st0.
Proof.
  destruct bad_failed as (s1 & Hrec & _). exists s1. split; [exact Hrec|]. intros r s2 st2.
  apply (recorded_not_repeated ToyPrims.toy ToyJson.toy_json toy_verify Filesystem VerifyExample.small_pools false
    {| sv_upid := task; sv_state := VerifyFailed |} m0 bad s1 1700865000 (Some 30) task VerifyExample.st0 r s2 st2).
  - exact (record_state_spec _ _ _ _ _ _ _ _ _ _ _ _ Hrec bad_loads m0_ok).
  - unfold in_i64. cbn. lia.
  - intros days [= <-]. cbn. lia.
Defined.

Lemma verify_job_ok_witness :
  dir_result ToyPrims.toy ToyJson.toy_json toy_verify Filesystem VerifyExample.small_pools false task None "vm/100/a" true.
Proof.
  destruct good_verified as (s' & _ & Hv).
  set (g := {| vg_type := "vm"; vg_id := "100"; vg_key := 0; vg_list := Ok [(1700000000, "vm/100/a")] |}).
  set (w := {| vw_st := VerifyExample.st0; vw_snapshots := {["vm/100/a" := good]} |}).
  destruct (verify_job_ok ToyPrims.toy ToyJson.toy_json toy_verify Filesystem VerifyExample.small_pools false
    task None [Ok g] w (Ok []) {| vw_st := VerifyExample.st0; vw_snapshots := <["vm/100/a" := s']> (vw_snapshots w) |})
    with (item := Ok g) as (g' & [= <-] & Hg).
  - eapply all_listed; [reflexivity|reflexivity|reflexivity|repeat constructor|].
    eapply (groups_next _ _ _ _ _ _ _ _ _ _ _ _ _ _ []); [|apply groups_done].
    eapply group_listed; [reflexivity|reflexivity|repeat constructor|].
    eapply (snapshots_next _ _ _ _ _ _ _ _ _ _ _ _ _ _ true); [|apply snapshots_done].
    eapply dir_locked; [reflexivity|exact Hv].
  - reflexivity.
  - apply list_elem_of_singleton. reflexivity.
  - apply (Hg eq_refl [(1700000000, "vm/100/a")] 1700000000 "vm/100/a" eq_refl).
    apply list_elem_of_singleton. reflexivity.
Defined.
