(* ===== verification/Text.v ===== *)
(** * Text: splitting, joining and trimming

    The string functions of the Rust standard library that configuration files go through:
    [str::split], [join], [str::trim], [str::lines].  Strings are sequences of bytes; white space
    is that of ASCII. *)

From S2P Require Import Prelude.
From Stdlib Require Import Ascii.
Local Open Scope string_scope.

(** [s.split(c)]: never empty. *)
Fixpoint split (c : ascii) (s : string) : list string :=
  match s with
  | EmptyString => [EmptyString]
  | String a s =>
      if Ascii.eqb a c then EmptyString :: split c s
      else match split c s with
           | p :: ps => String a p :: ps
           | [] => [String a EmptyString]
           end
  end.

(** [items.join(c)]. *)
Fixpoint join (c : ascii) (l : list string) : string :=
  match l with
  | [] => EmptyString
  | [s] => s
  | s :: l => s +:+ String c (join c l)
  end.

Definition is_whitespace (a : ascii) : bool :=
  let n := nat_of_ascii a in ((9 <=? n)%nat && (n <=? 13)%nat) || (n =? 32)%nat.
Fixpoint trim_start (s : string) : string :=
  match s with
  | String a s' => if is_whitespace a then trim_start s' else s
  | EmptyString => EmptyString
  end.
Fixpoint trim_end (s : string) : string :=
  match s with
  | EmptyString => EmptyString
  | String a s =>
      match trim_end s with
      | EmptyString => if is_whitespace a then EmptyString else String a EmptyString
      | s' => String a s'
      end
  end.
Definition trim (s : string) : string := trim_end (trim_start s).

(** [s.lines()]: an empty last line does not count, and one carriage return is stripped. *)
Definition newline : ascii := ascii_of_nat 10.
Definition carriage_return : ascii := ascii_of_nat 13.
Fixpoint strip_cr (s : string) : string :=
  match s with
  | EmptyString => EmptyString
  | String a EmptyString => if Ascii.eqb a carriage_return then EmptyString else s
  | String a s => String a (strip_cr s)
  end.
Fixpoint drop_last_empty (l : list string) : list string :=
  match l with
  | [] => []
  | [EmptyString] => []
  | s :: l => s :: drop_last_empty l
  end.
Definition lines (s : string) : list string := strip_cr <$> drop_last_empty (split newline s).

(** ** Lemmas *)
Fixpoint has_char (c : ascii) (s : string) : bool :=
  match s with EmptyString => false | String a s => Ascii.eqb a c || has_char c s end.

Lemma string_app_cons a s t : String a s +:+ t = String a (s +:+ t).
Proof. reflexivity. Qed.
Lemma string_app_nil t : EmptyString +:+ t = t.
Proof. reflexivity. Qed.

Lemma string_app_assoc s t u : (s +:+ t) +:+ u = s +:+ (t +:+ u).
Proof. induction s as [|a s IH]; [done|]. by rewrite !string_app_cons, IH. Qed.

Lemma has_char_app c s t : has_char c (s +:+ t) = has_char c s || has_char c t.
Proof. induction s as [|a s IH]; [done|]. rewrite string_app_cons. cbn [has_char]. by rewrite IH, orb_assoc. Qed.

Lemma split_not_nil c s : split c s <> [].
Proof. destruct s; cbn; [done|]. repeat case_match; done. Qed.

Lemma split_single c s : has_char c s = false -> split c s = [s].
Proof.
  induction s as [|a s IH]; cbn; [done|]. destruct (Ascii.eqb a c); [done|]. intros H. by rewrite IH.
Qed.
Lemma text_split_app c s t : has_char c s = false -> split c (s +:+ String c t) = s :: split c t.
Proof.
  induction s as [|a s IH]; [rewrite string_app_nil; cbn; by rewrite Ascii.eqb_refl|].
  rewrite string_app_cons. cbn. destruct (Ascii.eqb a c) eqn:E; [done|]. intros H. by rewrite IH.
Qed.
Lemma join_cons c s t l : join c (s :: t :: l) = s +:+ String c (join c (t :: l)).
Proof. reflexivity. Qed.
Lemma text_split_join c l :
  l <> [] -> Forall (fun s => has_char c s = false) l -> split c (join c l) = l.
Proof.
  intros Hl Hf. induction Hf as [|s l Hs Hf IH]; [done|]. destruct l as [|t l].
  - by apply split_single.
  - by rewrite join_cons, text_split_app, IH.
Qed.
Lemma split_app_any c s t : split c (s +:+ String c t) = (split c s ++ split c t)%list.
Proof.
  induction s as [|a s IH]; [rewrite string_app_nil; cbn; by rewrite Ascii.eqb_refl|].
  rewrite string_app_cons. cbn. destruct (Ascii.eqb a c); [by rewrite IH|]. rewrite IH.
  pose proof (split_not_nil c s). by destruct (split c s).
Qed.
Lemma join_split c s : join c (split c s) = s.
Proof.
  induction s as [|a s IH]; [done|]. cbn [split]. destruct (Ascii.eqb a c) eqn:E.
  - apply Ascii.eqb_eq in E as ->. pose proof (split_not_nil c s). destruct (split c s); [done|]. by rewrite join_cons, IH.
  - destruct (split c s) as [|p [|q l]] eqn:Es; [by apply split_not_nil in Es|by cbn in IH |- *; rewrite IH|].
    rewrite join_cons in IH |- *. by rewrite string_app_cons, IH.
Qed.
Lemma split_join_bind c l : l <> [] -> split c (join c l) = l ≫= split c.
Proof.
  intros Hl. induction l as [|s l IH]; [done|]. destruct l as [|t l].
  - cbn. by rewrite app_nil_r.
  - rewrite join_cons, split_app_any, IH by done. done.
Qed.
Lemma join_snoc c l s : l <> [] -> join c (l ++ [s]) = join c l +:+ String c s.
Proof.
  intros Hl. induction l as [|t l IH]; [done|]. destruct l as [|u l]; [done|].
  change ((t :: u :: l) ++ [s])%list with (t :: u :: (l ++ [s]))%list. rewrite !join_cons, string_app_assoc.
  rewrite string_app_cons. do 2 f_equal. apply IH. done.
Qed.
Lemma split_chars c s : Forall (fun t => has_char c t = false) (split c s).
Proof.
  induction s as [|a s IH]; cbn; [by constructor|]. destruct (Ascii.eqb a c) eqn:E; [by constructor|].
  destruct (split c s) as [|p ps]; [constructor; [cbn; by rewrite E|done]|].
  apply Forall_cons in IH as [Hp Hps]. constructor; [|done]. cbn. by rewrite E, Hp.
Qed.
Lemma has_char_join c d l :
  c <> d -> Forall (fun s => has_char c s = false) l -> has_char c (join d l) = false.
Proof.
  intros Hne Hf. induction Hf as [|s l Hs Hf IH]; [done|]. destruct l as [|t l]; [done|].
  rewrite join_cons, has_char_app, Hs. cbn [has_char orb]. rewrite IH.
  by rewrite (proj2 (Ascii.eqb_neq d c)) by congruence.
Qed.

(** Strings that [trim] does not change. *)
Fixpoint ends_well (s : string) : bool :=
  match s with
  | EmptyString => true
  | String a EmptyString => negb (is_whitespace a)
  | String _ s => ends_well s
  end.
Definition trimmed (s : string) : bool :=
  match s with EmptyString => true | String a _ => negb (is_whitespace a) && ends_well s end.

Lemma trim_end_ends s : ends_well s = true -> trim_end s = s.
Proof.
  induction s as [|a s IH]; [done|]. destruct s as [|b s].
  - cbn. destruct (is_whitespace a); done.
  - intros H. cbn [trim_end]. change (ends_well (String b s) = true) in H. specialize (IH H).
    cbn [trim_end] in IH. by rewrite IH.
Qed.
Lemma trim_trimmed s : trimmed s = true -> trim s = s.
Proof.
  unfold trim, trimmed. destruct s as [|a s]; [done|]. intros [Ha He]%andb_true_iff.
  cbn [trim_start]. destruct (is_whitespace a); [done|]. by apply trim_end_ends.
Qed.
Lemma ends_well_app s t : t <> EmptyString -> ends_well (s +:+ t) = ends_well t.
Proof.
  intros Ht. induction s as [|a s IH]; [done|]. rewrite <- IH, string_app_cons.
  destruct s as [|b s]; [by destruct t|by rewrite string_app_cons].
Qed.
Lemma ends_well_join c l s :
  l <> [] -> s <> EmptyString -> ends_well (join c (l ++ [s])) = ends_well s.
Proof. intros Hl Hs. rewrite join_snoc, ends_well_app by done. by destruct s. Qed.
Lemma ends_well_strip s : ends_well s = true -> strip_cr s = s.
Proof.
  induction s as [|a s IH]; [done|]. destruct s as [|b s].
  - cbn. destruct (Ascii.eqb a carriage_return) eqn:E; [|done].
    apply Ascii.eqb_eq in E as ->. done.
  - intros H. change (ends_well (String b s) = true) in H. cbn [strip_cr] in *. by rewrite IH.
Qed.

(** Text made of lines that end with a newline. *)
Definition unlines (l : list string) : string :=
  foldr (fun s acc => s +:+ String newline acc) EmptyString l.
Lemma lines_unlines l :
  Forall (fun s => has_char newline s = false /\ ends_well s = true) l -> lines (unlines l) = l.
Proof.
  intros Hf. unfold lines.
  assert (drop_last_empty (split newline (unlines l)) = l) as ->.
  { induction Hf as [|s l [Hs _] Hf IH]; [done|]. cbn [unlines foldr]. rewrite text_split_app by done.
    pose proof (split_not_nil newline (unlines l)) as Hne. change (foldr _ _ l) with (unlines l).
    destruct (split newline (unlines l)) as [|p ps]; [done|].
    transitivity (s :: drop_last_empty (p :: ps)); [by destruct s|by rewrite IH]. }
  induction Hf as [|s l [_ Hs] Hf IH]; [done|]. cbn [fmap list_fmap]. by rewrite ends_well_strip, IH.
Qed.
Lemma unlines_app l k : unlines (l ++ k) = unlines l +:+ unlines k.
Proof.
  induction l as [|s l IH]; [done|]. cbn [app unlines foldr]. change (foldr _ _ (l ++ k)) with (unlines (l ++ k)).
  rewrite IH. change (foldr _ _ l) with (unlines l). by rewrite string_app_assoc, string_app_cons.
Qed.

(** Characters that do not occur. *)
Lemma split_no_char ch c s : has_char ch s = false -> Forall (fun t => has_char ch t = false) (split c s).
Proof.
  induction s as [|a s IH]; cbn; [by constructor|]. intros [Ha Hs]%orb_false_iff. specialize (IH Hs).
  destruct (Ascii.eqb a c); [by constructor|]. destruct (split c s) as [|p ps].
  - constructor; [cbn; by rewrite Ha|done].
  - apply Forall_cons in IH as [Hp Hps]. constructor; [cbn; by rewrite Ha, Hp|done].
Qed.
Lemma trim_end_no_char ch s : has_char ch s = false -> has_char ch (trim_end s) = false.
Proof.
  induction s as [|a s IH]; cbn; [done|]. intros [Ha Hs]%orb_false_iff. specialize (IH Hs).
  destruct (trim_end s) eqn:E; [destruct (is_whitespace a); [done|cbn; by rewrite Ha]|].
  cbn [has_char] in *. by rewrite Ha.
Qed.
Lemma trim_no_char ch s : has_char ch s = false -> has_char ch (trim s) = false.
Proof.
  intros H. apply trim_end_no_char. induction s as [|a s IH]; cbn; [done|].
  destruct (is_whitespace a); [|done]. apply IH. cbn in H. by apply orb_false_iff in H as [_ ?].
Qed.
Lemma trim_end_well s : ends_well (trim_end s) = true.
Proof.
  induction s as [|a s IH]; [done|]. cbn [trim_end].
  destruct (trim_end s) as [|b t] eqn:E; [|exact IH].
  destruct (is_whitespace a) eqn:Ew; [done|]. cbn. by rewrite Ew.
Qed.
Lemma trim_end_head a s : is_whitespace a = false -> trim_end (String a s) = String a (trim_end s).
Proof. intros Ha. cbn [trim_end]. destruct (trim_end s); [by rewrite Ha|done]. Qed.
Lemma trimmed_trim s : trimmed (trim s) = true.
Proof.
  unfold trim. assert (trim_start s = EmptyString \/ exists a t, trim_start s = String a t /\ is_whitespace a = false) as H.
  { induction s as [|a s IH]; [by left|]. cbn [trim_start]. destruct (is_whitespace a) eqn:E; [done|]. right. by exists a, s. }
  destruct H as [->|(a & t & -> & Ha)]; [done|]. pose proof (trim_end_well (String a t)) as Hw.
  rewrite trim_end_head in * by done. unfold trimmed. by rewrite Ha, Hw.
Qed.
Lemma strip_cr_no_char ch s : has_char ch s = false -> has_char ch (strip_cr s) = false.
Proof.
  induction s as [|a s IH]; [done|]. cbn [has_char]. intros [Ha Hs]%orb_false_iff.
  destruct s as [|b s]; cbn [strip_cr].
  - destruct (Ascii.eqb a carriage_return); [done|]. cbn. by rewrite Ha.
  - cbn [has_char]. rewrite Ha. by apply IH.
Qed.
Lemma lines_no_newline s : Forall (fun l => has_char newline l = false) (lines s).
Proof.
  unfold lines. apply Forall_fmap. eapply Forall_impl; [|intros l; apply strip_cr_no_char].
  pose proof (split_chars newline s) as H. induction H as [|x l Hx Hl IH]; [done|].
  cbn [drop_last_empty]. destruct x as [|a x], l as [|y l]; (try done); by constructor.
Qed.
