(* ===== verification/Acl.v ===== *)
(** * Access control, [pbs-config/src/acl.rs] and [cached_user_info.rs]

    The access control list is a tree of nodes, one per path component; each node maps users, API
    tokens and groups to roles with a propagate flag.  It is stored as text.  The
    privileges of an authentication id on a path are computed from it.

    [HashMap]s are finite maps; where the code iterates over one, the definition iterates over its
    entries in some order.  [BTreeMap]s and [BTreeSet]s are iterated in the order of the
    keys: the children of a node are a sorted list, sets of strings are sorted before they are
    written.  Authentication ids, the names of roles and their privileges come from the crate
    pbs-api-types and are the record [AclLib]. *)

From S2P Require Import Prelude Text.
From Stdlib Require Import Ascii.
Local Open Scope string_scope.
Local Open Scope list_scope.
Local Open Scope Z_scope.

Record Authid := { auth_user : string; auth_token : option string }.
#[global] Instance Authid_eq_dec : EqDecision Authid.
Proof. solve_decision. Defined.
#[global] Program Instance Authid_countable : Countable Authid :=
  inj_countable' (fun a => (auth_user a, auth_token a))
    (fun '(u, t) => {| auth_user := u; auth_token := t |}) _.
Next Obligation. by intros []. Qed.
Definition is_token (a : Authid) : bool := bool_decide (is_Some (auth_token a)).
Definition authid_from (u : string) : Authid := {| auth_user := u; auth_token := None |}.

Record AclLib := {
  authid_to_string : Authid -> string;
  authid_parse : string -> res Authid;
  root_userid : string;
  role_names : string -> option Z;     (* [ROLE_NAMES], the privileges of a role *)
  ROLE_NAME_NO_ACCESS : string;
  ROLE_ADMIN : Z;
  MAX_NAMESPACE_DEPTH : nat;
}.

Abbreviation role_map := (gmap string bool).

(** ** Nodes *)
Inductive AclTreeNode := Node {
  users : gmap Authid (gmap string bool);
  groups : gmap string (gmap string bool);
  children : list (string * AclTreeNode);
}.
Definition node_new : AclTreeNode := Node ∅ ∅ [].

(** [BTreeMap::get], [get_mut], [remove] and [entry(..).or_default()] of the children. *)
Fixpoint child_get (k : string) (l : list (string * AclTreeNode)) : option AclTreeNode :=
  match l with
  | [] => None
  | (k', n) :: l => if bool_decide (k = k') then Some n else child_get k l
  end.
Fixpoint child_replace (k : string) (n : AclTreeNode) (l : list (string * AclTreeNode))
    : list (string * AclTreeNode) :=
  match l with
  | [] => []
  | (k', n') :: l =>
      if bool_decide (k = k') then (k, n) :: l else (k', n') :: child_replace k n l
  end.
Fixpoint child_insert (k : string) (n : AclTreeNode) (l : list (string * AclTreeNode))
    : list (string * AclTreeNode) :=
  match l with
  | [] => [(k, n)]
  | (k', n') :: l =>
      if String.ltb k k' then (k, n) :: (k', n') :: l else (k', n') :: child_insert k n l
  end.
Definition child_set (k : string) (n : AclTreeNode) (l : list (string * AclTreeNode))
    : list (string * AclTreeNode) :=
  match child_get k l with Some _ => child_replace k n l | None => child_insert k n l end.
Fixpoint child_remove (k : string) (l : list (string * AclTreeNode)) : list (string * AclTreeNode) :=
  match l with
  | [] => []
  | (k', n) :: l => if bool_decide (k = k') then l else (k', n) :: child_remove k l
  end.
Definition set_children (l : list (string * AclTreeNode)) (n : AclTreeNode) : AclTreeNode :=
  Node (users n) (groups n) l.
Definition set_users (u : gmap Authid (gmap string bool)) (n : AclTreeNode) : AclTreeNode :=
  Node u (groups n) (children n).
Definition set_groups (g : gmap string (gmap string bool)) (n : AclTreeNode) : AclTreeNode :=
  Node (users n) g (children n).

(** ** Paths *)
Definition slash : ascii := ascii_of_nat 47.
Definition split_acl_path (path : string) : list string :=
  filter (fun name => negb (bool_decide (name = EmptyString))) (split slash path).
(** Components of a path given as a slice whose items may have several. *)
Definition components (path : list string) : list string := path ≫= split slash.

Section acl.
Variable L : AclLib.

Definition check_acl_path (path : string) : res unit :=
  let components := split_acl_path path in
  let n := length components in
  let bad := Err "invalid acl path." in
  let ok (b : bool) : res unit := if b then Ok tt else bad in
  match components with
  | [] => Ok tt
  | c0 :: rest =>
      if bool_decide (c0 = "access") then
        match rest with
        | [] => Ok tt
        | c1 :: _ =>
            if bool_decide (c1 ∈ ["acl"; "users"; "domains"]) then ok (n =? 2)%nat
            else if bool_decide (c1 = "openid") then ok (n <=? 3)%nat else bad
        end
      else if bool_decide (c0 = "datastore") then ok (n <=? 2 + MAX_NAMESPACE_DEPTH L)%nat
      else if bool_decide (c0 = "remote") then ok (n <=? 3 + MAX_NAMESPACE_DEPTH L)%nat
      else if bool_decide (c0 = "system") then
        match rest with
        | [] => Ok tt
        | c1 :: rest =>
            if bool_decide (c1 ∈ ["certificates"; "disks"; "log"; "notifications"; "status"; "tasks"; "time"])
            then ok (n =? 2)%nat
            else if bool_decide (c1 = "services") then ok (n <=? 3)%nat
            else if bool_decide (c1 = "network") then
              match rest with
              | [] => Ok tt
              | c2 :: _ =>
                  if bool_decide (c2 = "dns") then ok (n =? 3)%nat
                  else if bool_decide (c2 = "interfaces") then ok (n <=? 4)%nat else bad
              end
            else if bool_decide (c1 ∈ ["s3-endpoint"; "encryption-keys"]) then ok (n <=? 3)%nat else bad
        end
      else if bool_decide (c0 = "tape") then
        match rest with
        | [] => Ok tt
        | c1 :: _ => if bool_decide (c1 ∈ ["device"; "pool"; "job"]) then ok (n <=? 3)%nat else bad
        end
      else bad
  end.

(** ** Roles of a node *)
Fixpoint extract_loop (leaf : bool) (roles : list (string * bool)) (map : role_map) : role_map :=
  match roles with
  | [] => map
  | (role, propagate) :: roles =>
      if propagate || leaf then
        if bool_decide (role = ROLE_NAME_NO_ACCESS L) then {[ role := false ]}
        else extract_loop leaf roles (<[role := propagate]> map)
      else extract_loop leaf roles map
  end.
Definition extract_user_roles (a : Authid) (leaf : bool) (n : AclTreeNode) : role_map :=
  match users n !! a with
  | Some m => extract_loop leaf (map_to_list m) ∅
  | None => ∅
  end.
(** No user is a member of any group ([is_member] is [false] in the code). *)
Fixpoint extract_group_loop (leaf : bool) (groups : list (string * role_map)) (map : role_map)
    : role_map :=
  match groups with
  | [] => map
  | (_, roles) :: groups =>
      let is_member := false in
      if negb is_member then extract_group_loop leaf groups map
      else extract_group_loop leaf groups (extract_loop leaf (map_to_list roles) map)
  end.
Definition extract_group_roles (leaf : bool) (n : AclTreeNode) : role_map :=
  extract_group_loop leaf (map_to_list (groups n)) ∅.
Definition extract_roles (a : Authid) (leaf : bool) (n : AclTreeNode) : role_map :=
  let user_roles := extract_user_roles a leaf n in
  if negb (bool_decide (user_roles = ∅)) || is_token a then user_roles
  else extract_group_roles leaf n.

Definition insert_role (role : string) (propagate : bool) (map : role_map) : role_map :=
  if bool_decide (role = ROLE_NAME_NO_ACCESS L) then {[ role := propagate ]}
  else <[role := propagate]> (delete (ROLE_NAME_NO_ACCESS L) map).
Definition node_insert_group_role (group role : string) (propagate : bool) (n : AclTreeNode)
    : AclTreeNode :=
  set_groups (<[group := insert_role role propagate (default ∅ (groups n !! group))]> (groups n)) n.
Definition node_insert_user_role (a : Authid) (role : string) (propagate : bool) (n : AclTreeNode)
    : AclTreeNode :=
  set_users (<[a := insert_role role propagate (default ∅ (users n !! a))]> (users n)) n.
Definition node_delete_group_role (group role : string) (n : AclTreeNode) : AclTreeNode :=
  match groups n !! group with
  | Some r => set_groups (<[group := delete role r]> (groups n)) n
  | None => n
  end.
Definition node_delete_user_role (a : Authid) (role : string) (n : AclTreeNode) : AclTreeNode :=
  match users n !! a with
  | Some r => set_users (<[a := delete role r]> (users n)) n
  | None => n
  end.
Fixpoint node_delete_authid (a : Authid) (n : AclTreeNode) : AclTreeNode :=
  match n with
  | Node u g ch => Node (delete a u) g ((fun '(k, c) => (k, node_delete_authid a c)) <$> ch)
  end.
Fixpoint node_get_child_paths (path : string) (a : Authid) (n : AclTreeNode) : list string :=
  match n with
  | Node _ _ ch =>
      (fix go (ch : list (string * AclTreeNode)) : list string :=
         match ch with
         | [] => []
         | (sub_comp, child) :: ch =>
             let child_path := path +:+ String slash sub_comp in
             (if bool_decide (extract_roles a true child = ∅) then [] else [child_path])
             ++ node_get_child_paths child_path a child ++ go ch
         end) ch
  end.

(** ** The tree, given by its root *)
Fixpoint get_node (path : list string) (n : AclTreeNode) : option AclTreeNode :=
  match path with
  | [] => Some n
  | c :: path => match child_get c (children n) with Some n => get_node path n | None => None end
  end.
(** A change of the node [get_node_mut] returns. *)
Fixpoint get_node_mut (path : list string) (f : AclTreeNode -> AclTreeNode) (n : AclTreeNode)
    : AclTreeNode :=
  match path with
  | [] => f n
  | c :: path =>
      match child_get c (children n) with
      | Some child => set_children (child_set c (get_node_mut path f child) (children n)) n
      | None => n
      end
  end.
(** A change of the node [get_or_insert_node] returns. *)
Fixpoint get_or_insert_node (path : list string) (f : AclTreeNode -> res AclTreeNode)
    (n : AclTreeNode) : res AclTreeNode :=
  match path with
  | [] => f n
  | c :: path =>
      let? child := get_or_insert_node path f (default node_new (child_get c (children n))) in
      Ok (set_children (child_set c child (children n)) n)
  end.

Definition delete_group_role (path group role : string) (t : AclTreeNode) : AclTreeNode :=
  get_node_mut (components (split_acl_path path)) (node_delete_group_role group role) t.
Definition delete_user_role (path : string) (a : Authid) (role : string) (t : AclTreeNode)
    : AclTreeNode :=
  get_node_mut (components (split_acl_path path)) (node_delete_user_role a role) t.
Definition delete_node (path : string) (t : AclTreeNode) : AclTreeNode :=
  let path := split_acl_path path in
  match last path with
  | None => t
  | Some name =>
      get_node_mut (components (removelast path))
        (fun n => set_children (child_remove name (children n)) n) t
  end.
Definition delete_authid (a : Authid) (t : AclTreeNode) : AclTreeNode := node_delete_authid a t.
Definition insert_group_role (path group role : string) (propagate : bool) (t : AclTreeNode)
    : res AclTreeNode :=
  get_or_insert_node (components (split_acl_path path))
    (fun n => Ok (node_insert_group_role group role propagate n)) t.
Definition insert_user_role (path : string) (a : Authid) (role : string) (propagate : bool)
    (t : AclTreeNode) : res AclTreeNode :=
  get_or_insert_node (components (split_acl_path path))
    (fun n => Ok (node_insert_user_role a role propagate n)) t.

(** ** Text *)
Definition comma : ascii := ascii_of_nat 44.
Definition colon : ascii := ascii_of_nat 58.
Definition at_sign : ascii := ascii_of_nat 64.
Definition string_le (s t : string) : Prop := String.leb s t = true.
#[global] Instance string_le_dec s t : Decision (string_le s t).
Proof. unfold string_le. apply _. Defined.
(** Iteration over a [BTreeSet<String>]. *)
Definition btree_iter (s : gset string) : list string := merge_sort string_le (elements s).

(** [role_ug_map0] and [role_ug_map1]. *)
Definition ug_maps := (gmap string (gset string) * gmap string (gset string))%type.
Definition ug_add (role name : string) (propagate : bool) (m : ug_maps) : ug_maps :=
  let add (m : gmap string (gset string)) := <[role := {[name]} ∪ default ∅ (m !! role)]> m in
  if propagate then (m.1, add m.2) else (add m.1, m.2).
Definition ug_add_roles (name : string) (roles : role_map) (m : ug_maps) : ug_maps :=
  foldl (fun m e => ug_add e.1 name e.2 m) m (map_to_list roles).
Definition ug_users (n : AclTreeNode) (m : ug_maps) : ug_maps :=
  foldl (fun m e =>
    if negb (is_token e.1) && bool_decide (auth_user e.1 = root_userid L) then m
    else ug_add_roles (authid_to_string L e.1) e.2 m) m (map_to_list (users n)).
Definition ug_groups (n : AclTreeNode) (m : ug_maps) : ug_maps :=
  foldl (fun m e => ug_add_roles (String at_sign e.1) e.2 m) m (map_to_list (groups n)).

Definition group_by_property_list (m : gmap string (gset string)) : gmap string (gset string) :=
  foldl (fun r e =>
    let item_list := join comma (btree_iter e.2) in
    <[item_list := {[e.1]} ∪ default ∅ (r !! item_list)]> r) ∅ (map_to_list m).
Definition role_list (roles : gset string) : string :=
  if bool_decide (ROLE_NAME_NO_ACCESS L ∈ roles) then ROLE_NAME_NO_ACCESS L
  else join comma (btree_iter roles).

Definition acl_line (flag path uglist roles : string) : string :=
  join colon ["acl"; flag; (if bool_decide (path = EmptyString) then "/" else path); uglist; roles].
(** The lines for one flag, in the order of the [BTreeMap]. *)
Definition acl_lines (flag path : string) (m : gmap string (gset string)) : list string :=
  (fun uglist => acl_line flag path uglist (role_list (default ∅ (m !! uglist))))
    <$> btree_iter (dom m).
Definition node_lines (path : string) (n : AclTreeNode) : list string :=
  let '(m0, m1) := ug_groups n (ug_users n (∅, ∅)) in
  acl_lines "0" path (group_by_property_list m0) ++ acl_lines "1" path (group_by_property_list m1).
Fixpoint write_node_config (n : AclTreeNode) (path : string) : list string :=
  match n with
  | Node u g ch =>
      node_lines path (Node u g ch) ++
      (fix go (ch : list (string * AclTreeNode)) : list string :=
         match ch with
         | [] => []
         | (name, child) :: ch => write_node_config child (path +:+ String slash name) ++ go ch
         end) ch
  end.
Definition write_config (t : AclTreeNode) : string := unlines (write_node_config t EmptyString).

Fixpoint parse_roles (ug : string) (propagate : bool) (rolelist : list string) (n : AclTreeNode)
    : res AclTreeNode :=
  match rolelist with
  | [] => Ok n
  | role :: rolelist =>
      if bool_decide (role_names L role = None) then Err "unknown role" else
      let? n :=
        match ug with
        | String c group =>
            if Ascii.eqb c at_sign then Ok (node_insert_group_role group role propagate n)
            else let? a := authid_parse L ug in Ok (node_insert_user_role a role propagate n)
        | EmptyString => let? a := authid_parse L ug in Ok (node_insert_user_role a role propagate n)
        end in
      parse_roles ug propagate rolelist n
  end.
Fixpoint parse_uglist (propagate : bool) (uglist rolelist : list string) (n : AclTreeNode)
    : res AclTreeNode :=
  match uglist with
  | [] => Ok n
  | ug :: uglist =>
      let? n := parse_roles ug propagate rolelist n in parse_uglist propagate uglist rolelist n
  end.
Definition parse_acl_line (line : string) (t : AclTreeNode) : res AclTreeNode :=
  match split colon line with
  | [i0; i1; i2; i3; i4] =>
      if negb (bool_decide (i0 = "acl")) then Err "line does not start with 'acl'." else
      let? propagate := if bool_decide (i1 = "0") then Ok false
                        else if bool_decide (i1 = "1") then Ok true
                        else Err "expected '0' or '1' for propagate flag." in
      get_or_insert_node (components (split_acl_path i2))
        (parse_uglist propagate (trim <$> split comma i3) (trim <$> split comma i4)) t
  | _ => Err "wrong number of items."
  end.
Fixpoint parse_lines (l : list string) (t : AclTreeNode) : res AclTreeNode :=
  match l with
  | [] => Ok t
  | line :: l =>
      let line := trim line in
      if bool_decide (line = EmptyString) then parse_lines l t
      else let? t := parse_acl_line line t in parse_lines l t
  end.
Definition acl_from_raw (raw : string) : res AclTreeNode := parse_lines (lines raw) node_new.

(** ** Roles along a path *)
Fixpoint roles_loop (a : Authid) (path : list string) (n : AclTreeNode) (map : role_map) : role_map :=
  match path with
  | [] => map
  | c :: path =>
      match child_get c (children n) with
      | None => map
      | Some n =>
          let new_map := extract_roles a (bool_decide (path = [])) n in
          roles_loop a path n (if bool_decide (new_map = ∅) then map else new_map)
      end
  end.
Definition roles (a : Authid) (path : list string) (t : AclTreeNode) : role_map :=
  roles_loop a (components path) t (extract_roles a (bool_decide (path = [])) t).
Definition get_child_paths (a : Authid) (path : list string) (t : AclTreeNode) : list string :=
  match get_node (components path) t with
  | Some n => node_get_child_paths (join slash path) a n
  | None => []
  end.

(** ** Privileges, [CachedUserInfo] *)
Definition is_superuser (a : Authid) : bool :=
  negb (is_token a) && bool_decide (auth_user a = root_userid L).
Definition role_privs (m : role_map) : Z * Z :=
  foldl (fun '(privs, propagated) e =>
    match role_names L e.1 with
    | Some p => (Z.lor privs p, if e.2 : bool then Z.lor propagated p else propagated)
    | None => (privs, propagated)
    end) (0, 0) (map_to_list m).
(** The recursion of the code is for the owner of a token, who is not a token. *)
Definition lookup_privs_user (a : Authid) (path : list string) (t : AclTreeNode) : Z * Z :=
  if is_superuser a then (ROLE_ADMIN L, ROLE_ADMIN L) else role_privs (roles a path t).
Definition lookup_privs_details (a : Authid) (path : list string) (t : AclTreeNode) : Z * Z :=
  if is_superuser a then (ROLE_ADMIN L, ROLE_ADMIN L) else
  let '(privs, propagated) := role_privs (roles a path t) in
  if is_token a then
    let '(owner, owner_propagated) := lookup_privs_user (authid_from (auth_user a)) path t in
    (Z.land privs owner, Z.land propagated owner_propagated)
  else (privs, propagated).
Definition lookup_privs (a : Authid) (path : list string) (t : AclTreeNode) : Z :=
  (lookup_privs_details a path t).1.
Definition check_privs (a : Authid) (path : list string) (required : Z) (partial : bool)
    (t : AclTreeNode) : res unit :=
  let privs := lookup_privs a path t in
  let allowed := if partial then negb (Z.land privs required =? 0)
                 else Z.land privs required =? required in
  if allowed then Ok tt else Err "missing permissions".
Definition any_privs_below (a : Authid) (path : list string) (privs : Z) (t : AclTreeNode) : bool :=
  if negb (Z.land (lookup_privs_details a path t).2 privs =? 0) then true
  else existsb (fun p => negb (Z.land privs (lookup_privs a [p] t) =? 0)) (get_child_paths a path t).
End acl.
