(* ===== verification/AclSpec.v ===== *)
(** * Access control: meaning of the tree, its text form, and privileges

    [AclRoles] relates the computed roles to a specification that only mentions the entries of the
    tree; [AclText] shows that a tree that is written and read back grants the same roles; the
    last part is about privileges. *)

From S2P Require Import Prelude Text Acl.
From Stdlib Require Import Ascii.
Local Open Scope string_scope.
Local Open Scope list_scope.
Local Open Scope Z_scope.

(** A name that survives being written into a list of names in a line. *)
Definition name_ok (s : string) : Prop :=
  s <> EmptyString /\ trimmed s = true /\ has_char comma s = false /\ has_char colon s = false /\
  has_char newline s = false.

(** What the code relies on of the crate that defines authentication ids and roles: an id is
    printed as the text it was read from, the empty text is not an id, and the names of the roles
    are plain words. *)
Class AclLaws (L : AclLib) := {
  authid_print s a : authid_parse L s = Ok a -> authid_to_string L a = s;
  authid_nonempty a : authid_parse L EmptyString <> Ok a;
  role_name_ok r p : role_names L r = Some p -> name_ok r;
  no_access_privs : role_names L (ROLE_NAME_NO_ACCESS L) = Some 0;
}.

(** The entries of a tree: the roles of an id at a path. *)
Definition entries (a : Authid) (t : AclTreeNode) (path : list string) : role_map :=
  match get_node path t with Some n => default ∅ (users n !! a) | None => ∅ end.

Module AclRoles.
Section roles.
Context (L : AclLib).

(** The roles of an entry that apply at its own path ([leaf]) or below it. *)
Definition visible (leaf : bool) (m : role_map) : role_map :=
  if bool_decide (exists p, m !! ROLE_NAME_NO_ACCESS L = Some p /\ p || leaf = true)
  then {[ ROLE_NAME_NO_ACCESS L := false ]}
  else filter (fun e => e.2 || leaf = true) m.
(** The entry that counts: the deepest one along the path that has any visible role. *)
Definition effective (f : list string -> role_map) (path : list string) : role_map :=
  default ∅ (last (filter (fun m => m <> ∅)
    ((fun i => visible (bool_decide (i = length path)) (f (take i path))) <$> seq 0 (S (length path))))).

Lemma extract_loop_no_access leaf l m :
  (exists p, (ROLE_NAME_NO_ACCESS L, p) ∈ l /\ p || leaf = true) ->
  extract_loop L leaf l m = {[ ROLE_NAME_NO_ACCESS L := false ]}.
Proof.
  revert m. induction l as [|[r p] l IH]; intros m (q & Hin & Hq); [by apply elem_of_nil in Hin|].
  cbn [extract_loop]. apply elem_of_cons in Hin as [[= <- <-]|Hin].
  - rewrite Hq. by rewrite bool_decide_true.
  - case_if; [|by apply IH; exists q]. case_bool_decide as Hr; [by subst|]. apply IH. by exists q.
Qed.

Lemma extract_loop_filter leaf l m :
  NoDup l.*1 -> (forall p, (ROLE_NAME_NO_ACCESS L, p) ∈ l -> p || leaf = false) ->
  (forall r, r ∈ l.*1 -> m !! r = None) ->
  extract_loop L leaf l m = m ∪ filter (fun e => e.2 || leaf = true) (list_to_map l).
Proof.
  revert m. induction l as [|[r p] l IH]; intros m Hnd Hno Hm; cbn [extract_loop list_to_map foldr].
  { by rewrite map_filter_empty, map_union_empty. }
  apply NoDup_cons in Hnd as [Hr Hnd]. cbn [fst snd] in *.
  assert ((list_to_map l : role_map) !! r = None) as Hl by by apply not_elem_of_list_to_map_1.
  destruct (p || leaf) eqn:Ep.
  - rewrite bool_decide_false.
    2: { intros ->. specialize (Hno p). rewrite Hno in Ep; [done|set_solver]. }
    rewrite IH; [|done|intros q Hq; apply Hno; set_solver|].
    + rewrite map_filter_insert_True by done. rewrite <- insert_union_l.
      rewrite insert_union_r; [done|]. apply Hm. set_solver.
    + intros r' Hr'. rewrite lookup_insert_ne by (intros ->; done). apply Hm. set_solver.
  - rewrite IH; [|done|intros q Hq; apply Hno; set_solver|intros r' Hr'; apply Hm; set_solver].
    rewrite map_filter_insert_not'; [done|cbn; by rewrite Ep|]. intros y Hy. by rewrite Hl in Hy.
Qed.

Lemma extract_user_roles_spec a leaf n :
  extract_user_roles L a leaf n = visible leaf (default ∅ (users n !! a)).
Proof.
  unfold extract_user_roles, visible. destruct (users n !! a) as [m|]; cbn [default from_option id].
  - case_bool_decide as H.
    + apply extract_loop_no_access. destruct H as (p & Hp & Hl). exists p.
      split; [by apply elem_of_map_to_list|done].
    + rewrite extract_loop_filter.
      * by rewrite map_empty_union, list_to_map_to_list.
      * apply NoDup_fst_map_to_list.
      * intros p Hp. apply elem_of_map_to_list in Hp. destruct (p || leaf) eqn:E; [|done].
        exfalso. apply H. by exists p.
      * intros r _. apply lookup_empty.
  - rewrite bool_decide_false; [by rewrite map_filter_empty|]. intros (p & Hp & _).
    by rewrite lookup_empty in Hp.
Qed.

Lemma extract_group_none leaf n : extract_group_roles L leaf n = ∅.
Proof.
  unfold extract_group_roles. generalize (map_to_list (groups n)) as l.
  induction l as [|[g r] l IH]; [done|]. exact IH.
Qed.

Lemma extract_roles_spec a leaf n :
  extract_roles L a leaf n = visible leaf (default ∅ (users n !! a)).
Proof.
  unfold extract_roles. rewrite extract_user_roles_spec, extract_group_none. case_if; [done|].
  zify_bool. done.
Qed.

(** Roles along a path *)
Lemma acl_filter_none {A} (P : A -> Prop) `{forall x, Decision (P x)} l :
  Forall (fun x => ~ P x) l -> filter P l = [].
Proof. induction 1 as [|x l Hx _ IH]; [done|]. by rewrite filter_cons_False. Qed.
Lemma last_filter_cons {A} (P : A -> Prop) `{forall x, Decision (P x)} x l d :
  default d (last (filter P (x :: l))) =
  default (if decide (P x) then x else d) (last (filter P l)).
Proof.
  rewrite filter_cons. destruct (decide (P x)); [|done].
  rewrite last_cons. by destruct (last (filter P l)).
Qed.

Lemma entries_cons a n c path :
  entries a n (c :: path) =
  match child_get c (children n) with Some n' => entries a n' path | None => ∅ end.
Proof. unfold entries. cbn [get_node]. by destruct (child_get _ _). Qed.

Lemma visible_empty leaf : visible leaf ∅ = ∅.
Proof.
  unfold visible. rewrite bool_decide_false; [apply map_filter_empty|].
  intros (p & Hp & _). by rewrite lookup_empty in Hp.
Qed.

Lemma roles_loop_spec a path n m :
  roles_loop L a path n m =
  default m (last (filter (fun m => m <> ∅)
    ((fun i => visible (bool_decide (i = length path)) (entries a n (take i path)))
       <$> seq 1 (length path)))).
Proof.
  revert n m. induction path as [|c path IH]; intros n m; [done|]. cbn [roles_loop length seq fmap list_fmap].
  rewrite last_filter_cons. rewrite <- seq_shift, <- list_fmap_compose.
  assert (forall i, entries a n (take (S i) (c :: path)) =
    match child_get c (children n) with Some n' => entries a n' (take i path) | None => ∅ end) as Hent
    by (intros i; apply entries_cons).
  destruct (child_get c (children n)) as [n'|] eqn:Ec.
  - rewrite IH, extract_roles_spec. rewrite Hent.
    assert (bool_decide (1%nat = S (length path)) = bool_decide (path = [])) as ->.
    { destruct path; cbn [length]; [done|]. by rewrite !bool_decide_false by (done || lia). }
    assert (entries a n' (take 0 path) = default ∅ (users n' !! a)) as -> by by destruct path.
    set (v := visible _ _). set (d := if decide (v <> ∅) then _ else _).
    assert (d = if bool_decide (v = ∅) then m else v) as <-.
    { unfold d. case_bool_decide; destruct (decide (v <> ∅)); done. }
    do 2 f_equal. f_equal. apply list_fmap_ext. intros j i _. unfold compose. rewrite Hent.
    f_equal. by apply bool_decide_ext; split; intros; lia.
  - rewrite Hent, visible_empty. rewrite decide_False by (intros H; by apply H).
    assert (filter (fun m : role_map => m <> ∅) ((fun i => visible (bool_decide (i = S (length path)))
      (entries a n (take i (c :: path)))) ∘ S <$> seq 1 (length path)) = []) as ->; [|done].
    apply acl_filter_none, Forall_fmap, Forall_true. intros i H. apply H. unfold compose.
    by rewrite Hent, visible_empty.
Qed.

Lemma components_nil path : bool_decide (components path = []) = bool_decide (path = []).
Proof.
  destruct path as [|s path]; [done|]. rewrite !bool_decide_false; [done..|].
  unfold components. cbn. pose proof (split_not_nil slash s). by destruct (split slash s).
Qed.

(** The roles depend on the entries only. *)
Lemma roles_effective a path t :
  roles L a path t = effective (entries a t) (components path).
Proof.
  unfold roles, effective. rewrite roles_loop_spec, extract_roles_spec.
  cbn [seq fmap list_fmap]. rewrite last_filter_cons.
  assert (bool_decide (0%nat = length (components path)) = bool_decide (path = [])) as ->.
  { rewrite <- components_nil. destruct (components path); cbn [length]; [done|].
    by rewrite !bool_decide_false by (done || lia). }
  assert (entries a t (take 0 (components path)) = default ∅ (users t !! a)) as -> by done.
  set (v := visible _ _). f_equal. destruct (decide (v <> ∅)) as [|Hv]; [done|].
  destruct (decide (v = ∅)); [done|]. by destruct Hv.
Qed.
End roles.
End AclRoles.

Module AclText.
Section text.
Context (L : AclLib) `{HL : AclLaws L}.

(** An id that can stand in a list of names: it is read back, its name survives the list, and it
    is not taken for a group. *)
Definition authid_ok (a : Authid) : Prop :=
  authid_parse L (authid_to_string L a) = Ok a /\ name_ok (authid_to_string L a) /\
  forall s, authid_to_string L a <> String at_sign s.
Lemma parse_to_string a : authid_ok a -> authid_parse L (authid_to_string L a) = Ok a.
Proof using Type. by intros []. Qed.
Lemma authid_name_ok a : authid_ok a -> name_ok (authid_to_string L a).
Proof using Type. by intros (_ & ? & _). Qed.
Lemma authid_no_at a s : authid_ok a -> authid_to_string L a <> String at_sign s.
Proof using Type. by intros (_ & _ & H). Qed.

(** ** Well-formed trees *)
Definition exclusive (m : role_map) : Prop :=
  forall p, m !! ROLE_NAME_NO_ACCESS L = Some p -> m = {[ ROLE_NAME_NO_ACCESS L := p ]}.
Definition roles_ok (m : role_map) : Prop :=
  exclusive m /\ forall r p, m !! r = Some p -> is_Some (role_names L r).
Definition group_ok (g : string) : Prop :=
  ends_well g = true /\ has_char comma g = false /\ has_char colon g = false /\
  has_char newline g = false.
Definition component_ok (c : string) : Prop :=
  c <> EmptyString /\ has_char slash c = false /\ has_char colon c = false /\
  has_char newline c = false.
Definition node_ok (n : AclTreeNode) : Prop :=
  (forall a m, users n !! a = Some m -> authid_ok a /\ roles_ok m) /\
  (forall g m, groups n !! g = Some m -> group_ok g /\ roles_ok m).
Inductive wf : AclTreeNode -> Prop :=
| wf_node n : node_ok n -> NoDup (children n).*1 -> Forall (fun e => component_ok e.1) (children n) ->
    (forall k c, (k, c) ∈ children n -> wf c) -> wf n.

(** The roles an id has at a node itself. *)
Definition cur (n : AclTreeNode) (a : Authid) : role_map := default ∅ (users n !! a).

Lemma insert_role_sub (m c : role_map) r p :
  exclusive m -> m !! r = Some p -> c ⊆ m ->
  insert_role L r p c ⊆ m /\ c ⊆ insert_role L r p c /\ insert_role L r p c !! r = Some p.
Proof.
  intros Hx Hr Hc. unfold insert_role. case_bool_decide as Hn.
  - subst r. rewrite (Hx p Hr) in *. split_and!; [done|done|apply lookup_singleton_eq].
  - assert (m !! ROLE_NAME_NO_ACCESS L = None) as Hm.
    { destruct (m !! ROLE_NAME_NO_ACCESS L) as [q|] eqn:Hq; [|done]. rewrite (Hx q Hq), lookup_singleton_ne in Hr; done. }
    assert (c !! ROLE_NAME_NO_ACCESS L = None) as Hcn by by eapply lookup_weaken_None.
    rewrite delete_id by done. split_and!; [by apply insert_subseteq_l| |apply lookup_insert_eq].
    destruct (c !! r) as [q|] eqn:Hq.
    + rewrite insert_id; [done|]. rewrite Hq. eapply lookup_weaken in Hq; [|done]. congruence.
    + by apply insert_subseteq.
Qed.

(** A name of a list in a line: a group, or an id that has the roles. *)
Definition ug_ok (M : Authid -> role_map) (p : bool) (rs : list string) (ug : string) : Prop :=
  (exists g, ug = String at_sign g) \/
  exists a, authid_ok a /\ ug = authid_to_string L a /\ forall r, r ∈ rs -> M a !! r = Some p.

(** From [n] to [n'] names of the list got the roles, and nothing was lost. *)
Record parsed (M : Authid -> role_map) (n n' : AclTreeNode) : Prop := {
  parsed_children : children n' = children n;
  parsed_sub b : cur n' b ⊆ M b;
  parsed_mono b : cur n b ⊆ cur n' b;
}.
Lemma parsed_refl M n : (forall b, cur n b ⊆ M b) -> parsed M n n.
Proof. intros H. split; [done|done|]. intros b. reflexivity. Qed.
Lemma parsed_trans M n1 n2 n3 : parsed M n1 n2 -> parsed M n2 n3 -> parsed M n1 n3.
Proof.
  intros [C1 S1 M1] [C2 S2 M2]. split; [congruence|done|]. intros b. transitivity (cur n2 b); [apply M1|apply M2].
Qed.

Lemma parse_roles_ok M p ug rs n :
  (forall b, exclusive (M b)) -> ug_ok M p rs ug -> Forall (fun r => is_Some (role_names L r)) rs ->
  (forall b, cur n b ⊆ M b) ->
  exists n', parse_roles L ug p rs n = Ok n' /\ parsed M n n' /\
    forall b r, authid_ok b -> ug = authid_to_string L b -> r ∈ rs -> cur n' b !! r = Some p.
Proof.
  intros Hx Hug Hrs. revert n. induction rs as [|r rs IH]; intros n Hn; cbn [parse_roles].
  { exists n. split_and!; [done|by apply parsed_refl|set_solver]. }
  apply Forall_cons in Hrs as [[q Hq] Hrs]. rewrite bool_decide_false by (rewrite Hq; done).
  assert (ug_ok M p rs ug) as Hug'.
  { destruct Hug as [?|(a & ? & ? & Hm)]; [by left|]. right. exists a. split_and!; [done..|].
    intros r' Hr'. apply Hm. set_solver. }
  destruct Hug as [[g ->]|(a & Ha & -> & Hm)].
  - rewrite Ascii.eqb_refl. cbn [mbind res_bind].
    destruct (IH Hug' Hrs (node_insert_group_role L g r p n)) as (n' & He & Hp & _); [done|].
    exists n'. split_and!; [done|destruct Hp; by split|]. intros b r' Hb Heq.
    by destruct (authid_no_at b g Hb).
  - set (n1 := node_insert_user_role L a r p n).
    assert (match authid_to_string L a with
      | String c group => if Ascii.eqb c at_sign then Ok (node_insert_group_role L group r p n)
          else let? a := authid_parse L (authid_to_string L a) in Ok (node_insert_user_role L a r p n)
      | EmptyString => let? a := authid_parse L (authid_to_string L a) in Ok (node_insert_user_role L a r p n)
      end = Ok n1) as ->.
    { rewrite (parse_to_string a) by done. cbn [mbind res_bind].
      destruct (authid_to_string L a) as [|c s] eqn:Es; [done|]. destruct (Ascii.eqb c at_sign) eqn:Ec; [|done].
      apply Ascii.eqb_eq in Ec as ->. by destruct (authid_no_at a s Ha). }
    cbn [mbind res_bind].
    destruct (insert_role_sub (M a) (cur n a) r p) as (Hi1 & Hi2 & Hi3); [done|apply Hm; set_solver|done|].
    assert (cur n1 a = insert_role L r p (cur n a)) as Hcur.
    { unfold cur at 1. cbn. by rewrite lookup_insert_eq. }
    assert (forall b, b <> a -> cur n1 b = cur n b) as Hoth.
    { intros b Hb. unfold cur. cbn. by rewrite lookup_insert_ne. }
    assert (parsed M n n1) as Hp1.
    { split; [done| |]; intros b; (destruct (decide (b = a)) as [->|Hb];
        [by rewrite Hcur|by rewrite Hoth]). }
    destruct (IH Hug' Hrs n1) as (n' & He & Hp & Hg); [apply Hp1|].
    exists n'. split_and!; [done|by eapply parsed_trans|]. intros b r' Hb Heq [->|Hr']%elem_of_cons.
    + assert (b = a) as -> by (pose proof (parse_to_string a Ha); pose proof (parse_to_string b Hb); congruence).
      eapply lookup_weaken; [|apply (parsed_mono _ _ _ Hp)]. by rewrite Hcur.
    + by apply Hg.
Qed.

Lemma parse_uglist_ok M p ugs rs n :
  (forall b, exclusive (M b)) -> Forall (ug_ok M p rs) ugs ->
  Forall (fun r => is_Some (role_names L r)) rs -> (forall b, cur n b ⊆ M b) ->
  exists n', parse_uglist L p ugs rs n = Ok n' /\ parsed M n n' /\
    forall b r, authid_ok b -> authid_to_string L b ∈ ugs -> r ∈ rs -> cur n' b !! r = Some p.
Proof.
  intros Hx Hugs Hrs. revert n. induction Hugs as [|ug ugs Hug Hugs IH]; intros n Hn; cbn [parse_uglist].
  { exists n. split_and!; [done|by apply parsed_refl|]. intros b r _ Hin. by apply elem_of_nil in Hin. }
  destruct (parse_roles_ok M p ug rs n) as (n1 & -> & Hp1 & Hg1); [done..|]. cbn [mbind res_bind].
  destruct (IH n1) as (n2 & He & Hp2 & Hg2); [apply Hp1|]. exists n2.
  split_and!; [done|by eapply parsed_trans|]. intros b r Hb [Heq|Hin]%elem_of_cons Hr.
  - eapply lookup_weaken; [by apply Hg1|]. apply Hp2.
  - by apply Hg2.
Qed.

(** ** Trees *)
Lemma child_get_set k n l k' :
  child_get k' (child_set k n l) = if bool_decide (k' = k) then Some n else child_get k' l.
Proof.
  assert (is_Some (child_get k l) -> child_get k' (child_replace k n l) =
    if bool_decide (k' = k) then Some n else child_get k' l) as Hrep.
  { induction l as [|[k1 n1] l IH]; cbn [child_replace child_get]; [by intros [? ?]|].
    destruct (decide (k = k1)) as [Hk|Hk].
    - rewrite (bool_decide_true (k = k1)) by done. cbn [child_get]. repeat case_bool_decide; congruence.
    - rewrite (bool_decide_false (k = k1)) by done. cbn [child_get]. intros H. rewrite (IH H).
      repeat case_bool_decide; congruence. }
  unfold child_set. destruct (child_get k l) as [c|] eqn:Hc; [by apply Hrep|]. clear Hrep.
  induction l as [|[k1 n1] l IH]; cbn [child_insert child_get] in *; [done|].
  destruct (decide (k = k1)) as [Hk|Hk]; [by rewrite bool_decide_true in Hc|].
  rewrite bool_decide_false in Hc by done.
  destruct (String.ltb k k1); cbn [child_get]; [|rewrite (IH Hc)]; repeat case_bool_decide; congruence.
Qed.

Definition node_at (q : list string) (t : AclTreeNode) : AclTreeNode := default node_new (get_node q t).
Lemma node_at_new q : node_at q node_new = node_new.
Proof. by destruct q. Qed.
Lemma node_at_cons c q t : node_at (c :: q) t = node_at q (default node_new (child_get c (children t))).
Proof.
  unfold node_at at 1. cbn [get_node]. destruct (child_get c (children t)); [done|].
  cbn [default from_option id]. by rewrite node_at_new.
Qed.
Lemma entries_cur b q t : entries b t q = cur (node_at q t) b.
Proof.
  unfold entries, cur, node_at. destruct (get_node q t); [done|]. cbn. by rewrite lookup_empty.
Qed.

Lemma get_or_insert_ok path f t n' :
  f (node_at path t) = Ok n' -> children n' = children (node_at path t) ->
  exists t', get_or_insert_node path f t = Ok t' /\
    forall q b, entries b t' q = if bool_decide (q = path) then cur n' b else entries b t q.
Proof.
  revert t. induction path as [|c path IH]; intros t Hf Hch; cbn [get_or_insert_node].
  { exists n'. split; [done|]. intros q b. case_bool_decide as Hq; [by subst|].
    destruct q as [|k q]; [done|]. rewrite !entries_cur, !node_at_cons. cbn in Hch. by rewrite Hch. }
  rewrite node_at_cons in Hf, Hch. destruct (IH _ Hf Hch) as (t1 & -> & H1). cbn [mbind res_bind].
  eexists. split; [done|]. intros q b. destruct q as [|k q]; [done|].
  rewrite !entries_cur, !node_at_cons, <- !entries_cur. cbn [set_children children].
  rewrite child_get_set. case_bool_decide as Hk.
  - subst k. cbn [default from_option id]. rewrite H1. do 2 case_bool_decide; by simplify_eq.
  - rewrite bool_decide_false by congruence. done.
Qed.

(** ** Lines *)
Definition path_str (q : list string) : string := foldl (fun s c => s +:+ String slash c) EmptyString q.
Lemma path_str_join q : path_str q = join slash (EmptyString :: q).
Proof.
  induction q as [|c q IH] using rev_ind; [done|]. unfold path_str in *. rewrite foldl_snoc, IH.
  by rewrite app_comm_cons, join_snoc.
Qed.
Lemma path_str_snoc q c : path_str (q ++ [c]) = path_str q +:+ String slash c.
Proof. unfold path_str. by rewrite foldl_snoc. Qed.

Definition flag (p : bool) : string := if p then "1" else "0".
Definition path_field (q : list string) : string :=
  if bool_decide (path_str q = EmptyString) then "/" else path_str q.

Lemma split_path_field q :
  Forall component_ok q -> components (split_acl_path (path_field q)) = q.
Proof.
  intros Hq. assert (split_acl_path (path_field q) = q) as ->.
  { unfold path_field, split_acl_path. case_bool_decide as He.
    - destruct q as [|c q]; [reflexivity|]. by rewrite path_str_join, join_cons in He.
    - rewrite path_str_join, text_split_join; [|done|].
      + rewrite filter_cons_False by (rewrite bool_decide_true by done; intros []). clear He.
        induction Hq as [|c q Hc Hq IH]; [done|]. rewrite filter_cons_True, IH; [done|].
        rewrite bool_decide_false by apply Hc. done.
      + constructor; [done|]. eapply Forall_impl; [exact Hq|]. intros c Hc. apply Hc. }
  unfold components. induction Hq as [|c q Hc Hq IH]; [done|].
  rewrite bind_cons, IH, split_single by apply Hc. done.
Qed.

Lemma path_field_chars q ch :
  ch <> slash -> Forall (fun c => has_char ch c = false) q -> has_char ch (path_field q) = false.
Proof.
  intros Hne Hq. unfold path_field. case_bool_decide.
  - change (has_char ch (String slash EmptyString) = false). cbn [has_char]. rewrite orb_false_r.
    apply Ascii.eqb_neq. congruence.
  - rewrite path_str_join. by apply has_char_join; [|constructor].
Qed.

(** A line that gives roles to names, all justified by the entries [M] of the tree. *)
Record line_for (M : list string -> Authid -> role_map) (q : list string) (p : bool)
    (ugs rs : list string) (line : string) : Prop := {
  line_text : line = acl_line (flag p) (path_str q) (join comma ugs) (join comma rs);
  line_path : Forall component_ok q;
  line_ugs : ugs <> [];
  line_rs : rs <> [];
  line_names : Forall name_ok ugs;
  line_ok : Forall (ug_ok (M q) p rs) ugs;
  line_roles : Forall (fun r => is_Some (role_names L r)) rs;
}.

Lemma known_names rs : Forall (fun r => is_Some (role_names L r)) rs -> Forall name_ok rs.
Proof. intros H. eapply Forall_impl; [exact H|]. intros r [p Hp]. by eapply role_name_ok. Qed.
Lemma map_trim l : Forall name_ok l -> trim <$> l = l.
Proof.
  induction 1 as [|s l Hs _ IH]; [done|]. rewrite fmap_cons, IH, trim_trimmed; [done|apply Hs].
Qed.
Lemma split_names l :
  l <> [] -> Forall name_ok l -> trim <$> split comma (join comma l) = l.
Proof.
  intros Hl Hn. rewrite text_split_join; [by apply map_trim|done|]. eapply Forall_impl; [exact Hn|].
  intros s Hs. apply Hs.
Qed.
Lemma join_chars l ch :
  ch <> comma -> (forall s, name_ok s -> has_char ch s = false) -> Forall name_ok l ->
  has_char ch (join comma l) = false.
Proof.
  intros Hne Hc Hl. apply has_char_join; [done|]. eapply Forall_impl; [exact Hl|]. done.
Qed.
Lemma join_ends l : l <> [] -> Forall name_ok l ->
  join comma l <> EmptyString /\ ends_well (join comma l) = true.
Proof.
  intros Hl Hn. induction Hn as [|s l (Hs & Ht & _) Hn IH]; [done|]. destruct l as [|u l].
  - split; [done|]. cbn [join]. destruct s; [done|]. cbn [trimmed] in Ht. by apply andb_true_iff in Ht as [_ ?].
  - rewrite join_cons. destruct IH as [Hne He]; [done|]. split; [by destruct s|].
    rewrite ends_well_app by done. cbn [ends_well]. by destruct (join comma (u :: l)).
Qed.

Lemma line_fields q p ugs rs :
  Forall component_ok q -> ugs <> [] -> rs <> [] -> Forall name_ok ugs -> Forall name_ok rs ->
  let line := acl_line (flag p) (path_str q) (join comma ugs) (join comma rs) in
  split colon line = ["acl"; flag p; path_field q; join comma ugs; join comma rs] /\
  has_char newline line = false /\ trimmed line = true.
Proof.
  intros Hq Hu Hr Hun Hrn line.
  assert (forall ch, ch <> comma -> ch <> slash -> (ch = colon \/ ch = newline) ->
    Forall (fun s => has_char ch s = false)
      ["acl"; flag p; path_field q; join comma ugs; join comma rs]) as Hch.
  { intros ch H1 H2 H3. repeat apply Forall_cons_2; [..|by apply Forall_nil_2].
    - by destruct H3 as [->| ->].
    - by destruct p, H3 as [->| ->].
    - apply path_field_chars; [done|]. eapply Forall_impl; [exact Hq|]. intros c Hc.
      destruct H3 as [->| ->]; apply Hc.
    - apply join_chars; [done| |done]. intros s Hs. destruct H3 as [->| ->]; apply Hs.
    - apply join_chars; [done| |done]. intros s Hs. destruct H3 as [->| ->]; apply Hs. }
  split_and!.
  - apply text_split_join; [done|]. apply Hch; [done|done|by left].
  - apply has_char_join; [done|]. apply Hch; [done|done|by right].
  - destruct (join_ends rs Hr Hrn) as [Hne He]. unfold line, acl_line. fold (path_field q).
    change (ends_well (join colon (["acl"; flag p; path_field q; join comma ugs] ++ [join comma rs]))
      = true). by rewrite ends_well_join.
Qed.

Lemma parse_line M q p ugs rs line t :
  line_for M q p ugs rs line ->
  parse_acl_line L line t = get_or_insert_node q (parse_uglist L p ugs rs) t /\
  has_char newline line = false /\ trimmed line = true /\ line <> EmptyString.
Proof.
  intros [-> Hq Hu Hr Hn _ Hk]. pose proof (known_names rs Hk) as Hrn.
  destruct (line_fields q p ugs rs) as (Hs & Hnl & Ht); [done..|]. split_and!; [|done|done|done].
  unfold parse_acl_line. rewrite Hs. rewrite !split_names, split_path_field by done. by destruct p.
Qed.

(** What the entries of [t'] have in common with those of [t] when lines were parsed. *)
Record grown (M : list string -> Authid -> role_map) (t t' : AclTreeNode) : Prop := {
  grown_sub q b : entries b t' q ⊆ M q b;
  grown_mono q b : entries b t q ⊆ entries b t' q;
}.

Lemma parse_line_grown M q p ugs rs line t :
  (forall q b, exclusive (M q b)) -> line_for M q p ugs rs line ->
  (forall q b, entries b t q ⊆ M q b) ->
  exists t', parse_acl_line L line t = Ok t' /\ grown M t t' /\
    forall b r, authid_ok b -> authid_to_string L b ∈ ugs -> r ∈ rs -> entries b t' q !! r = Some p.
Proof.
  intros Hx Hl Ht. destruct (parse_line M q p ugs rs line t Hl) as (-> & _).
  destruct (parse_uglist_ok (M q) p ugs rs (node_at q t)) as (n' & He & [Hc Hs Hm] & Hg);
    [done|apply Hl|apply Hl|by intros b; rewrite <- entries_cur|].
  destruct (get_or_insert_ok _ _ _ _ He Hc) as (t' & Ht' & Hent). exists t'. split; [done|]. split.
  - split; intros q' b; rewrite Hent; case_bool_decide as Hq; subst; auto.
    by rewrite entries_cur.
  - intros b r Hb Hin Hr. rewrite Hent, bool_decide_true by done. by apply Hg.
Qed.

Lemma parse_lines_grown M l t :
  (forall q b, exclusive (M q b)) -> Forall (fun line => exists q p ugs rs, line_for M q p ugs rs line) l ->
  (forall q b, entries b t q ⊆ M q b) ->
  exists t', parse_lines L l t = Ok t' /\ grown M t t' /\
    forall line q p ugs rs b r, line ∈ l -> line_for M q p ugs rs line -> authid_ok b ->
      authid_to_string L b ∈ ugs -> r ∈ rs -> entries b t' q !! r = Some p.
Proof.
  intros Hx Hl. revert t. induction Hl as [|line l (q & p & ugs & rs & Hline) Hl IH]; intros t Ht;
    cbn [parse_lines].
  { exists t. split_and!; [done|by split|]. intros * Hin. by apply elem_of_nil in Hin. }
  destruct (parse_line M q p ugs rs line t Hline) as (_ & _ & Htr & Hne).
  rewrite trim_trimmed, bool_decide_false by done.
  destruct (parse_line_grown M q p ugs rs line t) as (t1 & E1 & G1 & _); [done..|].
  rewrite E1. cbn [mbind res_bind].
  destruct (IH t1) as (t2 & -> & G2 & Hg); [apply G1|]. exists t2. split_and!; [done| |].
  - split; [apply G2|]. intros q' b. etrans; [apply G1|apply G2].
  - intros line' q' p' ugs' rs' b r [->|Hin]%elem_of_cons Hl' Hb Hu Hr; [|by eapply Hg].
    destruct (parse_line_grown M q' p' ugs' rs' line t) as (t1' & E1' & _ & Hg'); [done..|].
    rewrite E1 in E1'. injection E1' as <-. eapply lookup_weaken; [by apply Hg'|apply G2].
Qed.

(** ** Writing a node *)
Definition ugs_map (p : bool) (m : ug_maps) : gmap string (gset string) := if p then m.2 else m.1.
Definition ugs_of (p : bool) (r : string) (m : ug_maps) : gset string := default ∅ (ugs_map p m !! r).
Definition filled (m : ug_maps) : Prop := forall p r s, ugs_map p m !! r = Some s -> s <> ∅.

Lemma ug_add_spec x p r r' n p' m :
  x ∈ ugs_of p r (ug_add r' n p' m) <-> (p = p' /\ r = r' /\ x = n) \/ x ∈ ugs_of p r m.
Proof.
  unfold ugs_of, ugs_map, ug_add. destruct m as [m0 m1].
  destruct (decide (r = r')) as [->|Hr]; destruct p, p'; cbn [fst snd];
    rewrite ?lookup_insert_eq, ?lookup_insert_ne by done; cbn [default from_option id]; set_solver.
Qed.
Lemma ug_add_filled r n p m : filled m -> filled (ug_add r n p m).
Proof.
  intros Hm p' r' s. unfold ugs_map, ug_add. destruct m as [m0 m1].
  pose proof (Hm p' r' s) as H. unfold ugs_map in H.
  destruct (decide (r' = r)) as [->|Hr]; destruct p, p'; cbn [fst snd] in *;
    rewrite ?lookup_insert_eq, ?lookup_insert_ne by done; try done; intros [= <-]; set_solver.
Qed.

(** A fold that adds what its items contribute. *)
Lemma ug_foldl_spec {A} (f : ug_maps -> A -> ug_maps) (Q : A -> string -> bool -> string -> Prop) l m :
  (forall m e x p r, x ∈ ugs_of p r (f m e) <-> Q e x p r \/ x ∈ ugs_of p r m) ->
  forall x p r, x ∈ ugs_of p r (foldl f m l) <-> (exists e, e ∈ l /\ Q e x p r) \/ x ∈ ugs_of p r m.
Proof.
  intros Hf. revert m. induction l as [|e l IH]; intros m x p r; cbn [foldl]; [set_solver|].
  rewrite IH, Hf. set_solver.
Qed.
Lemma ug_foldl_filled {A} (f : ug_maps -> A -> ug_maps) l m :
  (forall m e, filled m -> filled (f m e)) -> filled m -> filled (foldl f m l).
Proof. intros Hf. revert m. induction l as [|e l IH]; intros m Hm; [done|]. by apply IH, Hf. Qed.

Lemma ug_add_roles_spec name roles m x p r :
  x ∈ ugs_of p r (ug_add_roles name roles m) <-> (x = name /\ roles !! r = Some p) \/ x ∈ ugs_of p r m.
Proof.
  unfold ug_add_roles.
  rewrite (ug_foldl_spec _ (fun e x p r => e = (r, p) /\ x = name)).
  - split; (intros [H|H]; [left|by right]).
    + destruct H as (e & He & -> & ->). by apply elem_of_map_to_list in He.
    + destruct H as [-> H]. exists (r, p). by rewrite elem_of_map_to_list.
  - intros m' [r' p'] x' p'' r''. rewrite ug_add_spec. cbn [fst snd].
    split; (intros [H|H]; [left|by right]); naive_solver.
Qed.
Lemma ug_add_roles_filled name roles m : filled m -> filled (ug_add_roles name roles m).
Proof. intros H. apply ug_foldl_filled; [|done]. intros m' e. apply ug_add_filled. Qed.

Definition listed (n : AclTreeNode) : ug_maps := ug_groups n (ug_users L n (∅, ∅)).
Definition name_has (n : AclTreeNode) (x : string) (p : bool) (r : string) : Prop :=
  (exists a, x = authid_to_string L a /\ is_superuser L a = false /\ cur n a !! r = Some p) \/
  (exists g m, x = String at_sign g /\ groups n !! g = Some m /\ m !! r = Some p).

Lemma listed_spec n x p r : x ∈ ugs_of p r (listed n) <-> name_has n x p r.
Proof.
  unfold listed, ug_groups, ug_users, name_has.
  rewrite (ug_foldl_spec _ (fun e x p r => x = String at_sign e.1 /\ e.2 !! r = Some p))
    by (intros *; apply ug_add_roles_spec).
  rewrite (ug_foldl_spec _ (fun e x p r => is_superuser L e.1 = false /\ x = authid_to_string L e.1 /\
    e.2 !! r = Some p)).
  2: { intros m [a rs] x' p' r'. cbn [fst snd]. change (negb (is_token a) && _) with (is_superuser L a).
       destruct (is_superuser L a); [|rewrite ug_add_roles_spec]; naive_solver. }
  assert (x ∉ ugs_of p r (∅, ∅)) as Hno.
  { unfold ugs_of, ugs_map. destruct p; cbn; rewrite lookup_empty; set_solver. }
  unfold cur. split.
  - intros [([g m] & He & -> & Hr)|[([a m] & He & Hs & -> & Hr)|?]]; [right|left|done].
    + exists g, m. by apply elem_of_map_to_list in He.
    + exists a. apply elem_of_map_to_list in He. cbn in He. rewrite He. done.
  - intros [(a & -> & Hs & Hr)|(g & m & -> & Hg & Hr)]; [right|]; left.
    + destruct (users n !! a) as [m|] eqn:Hu; [|cbn in Hr; by rewrite lookup_empty in Hr].
      exists (a, m). by rewrite elem_of_map_to_list.
    + exists (g, m). by rewrite elem_of_map_to_list.
Qed.
Lemma listed_filled n : filled (listed n).
Proof.
  apply ug_foldl_filled; [intros m e; apply ug_add_roles_filled|].
  apply ug_foldl_filled; [intros m e; case_if; [done|apply ug_add_roles_filled]|].
  intros [] r s H; cbn in H; by rewrite lookup_empty in H.
Qed.

Lemma btree_iter_elem x s : x ∈ btree_iter s <-> x ∈ s.
Proof. unfold btree_iter. by rewrite merge_sort_Permutation, elem_of_elements. Qed.
Lemma btree_iter_nil s : s <> ∅ -> btree_iter s <> [].
Proof.
  intros Hs. apply set_choose_L in Hs as [x Hx]. apply btree_iter_elem in Hx. intros Hn.
  rewrite Hn in Hx. by apply elem_of_nil in Hx.
Qed.

Lemma group_by_fold l (m : gmap string (gset string)) u r :
  let step m (e : string * gset string) :=
    let item_list := join comma (btree_iter e.2) in
    <[item_list := {[e.1]} ∪ default ∅ (m !! item_list)]> m in
  (r ∈ default ∅ (foldl step m l !! u) <->
   (exists s, (r, s) ∈ l /\ u = join comma (btree_iter s)) \/ r ∈ default ∅ (m !! u)) /\
  ((forall R, m !! u = Some R -> R <> ∅) -> forall R, foldl step m l !! u = Some R -> R <> ∅).
Proof.
  intros step. revert m. induction l as [|[r' s'] l IH]; intros m; cbn [foldl].
  { split; [set_solver|done]. }
  destruct (IH (step m (r', s'))) as [IH1 IH2]. split.
  - rewrite IH1. unfold step. cbn [fst snd].
    destruct (decide (u = join comma (btree_iter s'))) as [->|Hu].
    + rewrite lookup_insert_eq. cbn [default from_option id]. set_solver.
    + rewrite lookup_insert_ne by done. set_solver.
  - intros Hm. apply IH2. intros R. unfold step. cbn [fst snd].
    destruct (decide (u = join comma (btree_iter s'))) as [->|Hu].
    + rewrite lookup_insert_eq. intros [= <-]. set_solver.
    + rewrite lookup_insert_ne by done. apply Hm.
Qed.
Lemma group_by_spec m u r :
  r ∈ default ∅ (group_by_property_list m !! u) <->
  exists s, m !! r = Some s /\ u = join comma (btree_iter s).
Proof.
  unfold group_by_property_list. rewrite (proj1 (group_by_fold _ _ _ _)).
  setoid_rewrite elem_of_map_to_list. rewrite lookup_empty. set_solver.
Qed.
Lemma group_by_filled m u R : group_by_property_list m !! u = Some R -> R <> ∅.
Proof.
  apply (proj2 (group_by_fold (map_to_list m) ∅ u EmptyString)). intros R'. by rewrite lookup_empty.
Qed.

Lemma node_lines_elem line path n :
  line ∈ node_lines L path n <->
  exists p u R, group_by_property_list (ugs_map p (listed n)) !! u = Some R /\
    line = acl_line (flag p) path u (role_list L R).
Proof.
  unfold node_lines. fold (listed n). destruct (listed n) as [m0 m1] eqn:El. rewrite elem_of_app.
  unfold acl_lines. rewrite !list_elem_of_fmap. setoid_rewrite btree_iter_elem.
  setoid_rewrite elem_of_dom. split.
  - intros [(u & -> & R & HR)|(u & -> & R & HR)]; [exists false|exists true]; exists u, R;
      cbn [ugs_map fst snd flag]; by rewrite HR.
  - intros ([] & u & R & HR & ->); cbn [ugs_map fst snd flag] in *; [right|left];
      (exists u; rewrite HR; split; [done|by eexists]).
Qed.

Lemma name_has_ok n x p r : node_ok n -> name_has n x p r -> name_ok x /\ is_Some (role_names L r).
Proof.
  intros [Hu Hg] [(a & -> & _ & Hr)|(g & m & -> & Hm & Hr)].
  - unfold cur in Hr. destruct (users n !! a) as [m|] eqn:Ha; [|cbn in Hr; by rewrite lookup_empty in Hr].
    destruct (Hu a m Ha) as [Hok [_ Hk]]. split; [by apply authid_name_ok|by eapply Hk].
  - destruct (Hg g m Hm) as [(He & Hc & Hl & Hn) [_ Hk]]. split; [|by eapply Hk]. split_and!.
    + done.
    + cbn [trimmed]. destruct g as [|c g]; [done|exact He].
    + cbn [has_char]. by rewrite Hc.
    + cbn [has_char]. by rewrite Hl.
    + cbn [has_char]. by rewrite Hn.
Qed.

Lemma ugs_names n p r s : node_ok n -> ugs_map p (listed n) !! r = Some s ->
  Forall name_ok (btree_iter s) /\ btree_iter s <> [] /\ is_Some (role_names L r) /\
  (forall x, x ∈ btree_iter s <-> name_has n x p r).
Proof.
  intros Hn Hs. assert (forall x, x ∈ btree_iter s <-> name_has n x p r) as Hx.
  { intros x. rewrite btree_iter_elem, <- listed_spec. unfold ugs_of. by rewrite Hs. }
  pose proof (btree_iter_nil s (listed_filled n p r s Hs)) as Hne. split_and!; [|done| |done].
  - apply Forall_forall. intros x Hin. apply Hx in Hin. by eapply name_has_ok.
  - destruct (btree_iter s) as [|x l]; [done|]. eapply (name_has_ok n x p r); [done|]. apply Hx. set_solver.
Qed.

Lemma to_string_inj a b :
  authid_ok a -> authid_ok b -> authid_to_string L a = authid_to_string L b -> a = b.
Proof.
  intros Ha Hb Heq. pose proof (parse_to_string a Ha). pose proof (parse_to_string b Hb). congruence.
Qed.
Lemma cur_ok n a r p : node_ok n -> cur n a !! r = Some p -> authid_ok a /\ exclusive (cur n a).
Proof.
  intros [Hu _]. unfold cur. destruct (users n !! a) as [m|] eqn:Ha; cbn.
  - intros _. destruct (Hu a m Ha) as [? [? _]]. done.
  - intros Hr. by rewrite lookup_empty in Hr.
Qed.
Lemma name_has_user n a p r :
  node_ok n -> authid_ok a -> name_has n (authid_to_string L a) p r -> cur n a !! r = Some p.
Proof.
  intros Hn Ha [(b & Heq & _ & Hr)|(g & m & Heq & _)].
  - destruct (cur_ok n b r p Hn Hr) as [Hb _]. by rewrite (to_string_inj a b Ha Hb Heq).
  - by destruct (authid_no_at a g Ha).
Qed.

Definition listed_roles (R : gset string) : list string :=
  if bool_decide (ROLE_NAME_NO_ACCESS L ∈ R) then [ROLE_NAME_NO_ACCESS L] else btree_iter R.
Lemma role_list_join R : role_list L R = join comma (listed_roles R).
Proof. unfold role_list, listed_roles. by case_bool_decide. Qed.
Lemma listed_roles_sub R r : r ∈ listed_roles R -> r ∈ R.
Proof.
  unfold listed_roles. case_bool_decide; [|apply btree_iter_elem]. by intros ->%list_elem_of_singleton.
Qed.
Lemma listed_roles_nil R : R <> ∅ -> listed_roles R <> [].
Proof. unfold listed_roles. case_bool_decide; [done|apply btree_iter_nil]. Qed.

(** The names of one entry of the grouped map have each of its roles. *)
Lemma group_names n p u R :
  node_ok n -> group_by_property_list (ugs_map p (listed n)) !! u = Some R ->
  exists ugs, u = join comma ugs /\ ugs <> [] /\ Forall name_ok ugs /\
    forall r, r ∈ R -> is_Some (role_names L r) /\ forall x, x ∈ ugs <-> name_has n x p r.
Proof.
  intros Hn HR.
  assert (forall r, r ∈ R -> exists s, ugs_map p (listed n) !! r = Some s /\ u = join comma (btree_iter s))
    as Hall by (intros r Hr; apply group_by_spec; by rewrite HR).
  destruct (set_choose_L R) as [r0 Hr0]; [by eapply group_by_filled|].
  destruct (Hall r0 Hr0) as (s0 & Hs0 & Hu0). destruct (ugs_names n p r0 s0 Hn Hs0) as (Hok & Hne & _).
  exists (btree_iter s0). split_and!; [done..|]. intros r Hr. destruct (Hall r Hr) as (s & Hs & Hu).
  destruct (ugs_names n p r s Hn Hs) as (Hok' & Hne' & Hk & Hx). split; [done|].
  assert (btree_iter s0 = btree_iter s) as ->; [|done].
  rewrite <- (split_names (btree_iter s0)), <- Hu0, Hu by done. by apply split_names.
Qed.

Lemma node_line_for M q n p u R :
  node_ok n -> Forall component_ok q ->
  (forall a r p, is_superuser L a = false -> cur n a !! r = Some p -> M q a !! r = Some p) ->
  group_by_property_list (ugs_map p (listed n)) !! u = Some R ->
  exists ugs, line_for M q p ugs (listed_roles R) (acl_line (flag p) (path_str q) u (role_list L R)) /\
    forall b r, authid_ok b -> is_superuser L b = false -> cur n b !! r = Some p -> r ∈ R ->
      authid_to_string L b ∈ ugs /\ r ∈ listed_roles R.
Proof.
  intros Hn Hq HM HR. destruct (group_names n p u R Hn HR) as (ugs & -> & Hne & Hok & Hnames).
  pose proof (listed_roles_nil R (group_by_filled _ _ _ HR)) as Hrs. exists ugs. split.
  - split; [by rewrite role_list_join|done..| |].
    + apply Forall_forall. intros ug Hug. destruct (listed_roles R) as [|r1 rs] eqn:Er; [done|].
      assert (r1 ∈ R) as Hr1 by (apply listed_roles_sub; rewrite Er; set_solver).
      destruct (proj1 (proj2 (Hnames r1 Hr1) ug) Hug) as [(a & -> & Hs & Ha)|(g & m & -> & _)];
        [right|left; by exists g].
      destruct (cur_ok n a r1 p Hn Ha) as [Haok _]. exists a. split_and!; [done..|]. intros r Hr.
      apply HM; [done|]. apply name_has_user; [done..|]. apply (Hnames r); [|done].
      apply listed_roles_sub. by rewrite Er.
    + apply Forall_forall. intros r Hr. by apply Hnames, listed_roles_sub.
  - intros b r Hb Hs Hr Hin. destruct (Hnames r Hin) as [_ Hx].
    assert (authid_to_string L b ∈ ugs) as Hu by (apply Hx; left; by exists b). split; [done|].
    unfold listed_roles. case_bool_decide as Hno; [|by apply btree_iter_elem].
    destruct (Hnames _ Hno) as [_ Hx']. apply Hx', name_has_user in Hu; [|done..].
    destruct (cur_ok n b r p Hn Hr) as [_ He]. rewrite (He p Hu) in Hr.
    apply lookup_singleton_Some in Hr as [<- _]. set_solver.
Qed.

(** ** Writing the tree *)
Lemma get_node_child n k c : NoDup (children n).*1 -> (k, c) ∈ children n -> child_get k (children n) = Some c.
Proof.
  generalize (children n) as l. induction l as [|[k' c'] l IH]; intros Hnd Hin; [by apply elem_of_nil in Hin|].
  apply NoDup_cons in Hnd as [Hk Hnd]. cbn [child_get]. apply elem_of_cons in Hin as [[= <- <-]|Hin].
  - by rewrite bool_decide_true.
  - rewrite bool_decide_false; [by apply IH|]. intros ->. apply Hk. apply list_elem_of_fmap. by exists (k', c).
Qed.
Lemma child_get_in k l c : child_get k l = Some c -> (k, c) ∈ l.
Proof.
  clear HL. induction l as [|[k' c'] l IH]; cbn [child_get]; [done|]. case_bool_decide; [|set_solver].
  intros [= <-]. subst. set_solver.
Qed.

Lemma write_node_unfold n path :
  write_node_config L n path =
  node_lines L path n ++ (children n ≫= (fun e => write_node_config L e.2 (path +:+ String slash e.1))).
Proof.
  destruct n as [u g ch]. cbn [write_node_config children]. f_equal.
  induction ch as [|[k c] ch IH]; [done|]. rewrite bind_cons, IH. done.
Qed.

Lemma write_node_elem n q line :
  wf n -> line ∈ write_node_config L n (path_str q) ->
  exists q' n', get_node q' n = Some n' /\ wf n' /\ Forall component_ok q' /\
    line ∈ node_lines L (path_str (q ++ q')) n'.
Proof.
  intros Hn. revert q. induction Hn as [n Hok Hnd Hc Hch IH]; intros q.
  rewrite write_node_unfold, elem_of_app, list_elem_of_bind. intros [Hl|([k c] & Hl & Hin)].
  - exists [], n. split_and!; [done|by constructor|done|]. by rewrite app_nil_r.
  - cbn [fst snd] in Hl. rewrite <- path_str_snoc in Hl. destruct (IH k c Hin _ Hl) as (q' & n' & Hg & Hw & Hq & Hl').
    exists (k :: q'), n'. cbn [get_node]. rewrite (get_node_child n k c Hnd Hin). split_and!; [done|done| |].
    + constructor; [|done]. rewrite Forall_forall in Hc. by apply (Hc (k, c)).
    + by rewrite <- app_assoc in Hl'.
Qed.
Lemma write_node_lines n q q' n' line :
  get_node q' n = Some n' -> line ∈ node_lines L (path_str (q ++ q')) n' ->
  line ∈ write_node_config L n (path_str q).
Proof.
  revert n q. induction q' as [|k q' IH]; intros n q; cbn [get_node]; rewrite write_node_unfold, elem_of_app.
  - intros [= ->]. rewrite app_nil_r. by left.
  - destruct (child_get k (children n)) as [c|] eqn:Hk; [|done]. intros Hg Hl. right.
    apply list_elem_of_bind. exists (k, c). split; [|by apply child_get_in]. cbn [fst snd].
    rewrite <- path_str_snoc. apply (IH c); [done|]. by rewrite <- app_assoc.
Qed.

Lemma get_node_ok n q n' : wf n -> get_node q n = Some n' -> node_ok n' /\ Forall component_ok q.
Proof.
  intros Hn. revert n Hn. induction q as [|k q IH]; intros n [n0 Hok Hnd Hc Hch]; cbn [get_node].
  - intros [= <-]. done.
  - destruct (child_get k (children n0)) as [c|] eqn:Hk; [|done]. apply child_get_in in Hk.
    intros Hg. destruct (IH c (Hch k c Hk) Hg). split; [done|]. constructor; [|done].
    rewrite Forall_forall in Hc. by apply (Hc (k, c)).
Qed.

Lemma entries_exclusive t q b : wf t -> exclusive (entries b t q).
Proof.
  intros Ht. unfold entries. destruct (get_node q t) as [n|] eqn:Hg.
  - intros p Hp. destruct (get_node_ok t q n Ht Hg) as [Hn _]. by apply (cur_ok n b _ p Hn Hp).
  - intros p Hp. by rewrite lookup_empty in Hp.
Qed.
Lemma entries_node t q b r p :
  entries b t q !! r = Some p -> exists n, get_node q t = Some n /\ cur n b !! r = Some p.
Proof.
  unfold entries. destruct (get_node q t) as [n|] eqn:Hg; [|by rewrite lookup_empty]. by exists n.
Qed.

(** The tree that is read back has the same entries, except those of the superuser. *)
Lemma write_read_entries t :
  wf t -> exists t', acl_from_raw L (write_config L t) = Ok t' /\
    forall q b, is_superuser L b = false -> entries b t' q = entries b t q.
Proof.
  intros Ht. set (M q b := if is_superuser L b then ∅ else entries b t q).
  assert (forall q b, exclusive (M q b)) as Hx.
  { intros q b. unfold M. case_if; [|by apply entries_exclusive]. intros p Hp. by rewrite lookup_empty in Hp. }
  assert (forall q n, get_node q t = Some n ->
    forall a r p, is_superuser L a = false -> cur n a !! r = Some p -> M q a !! r = Some p) as HM.
  { intros q n Hg a r p Hs Hr. unfold M, entries. by rewrite Hs, Hg. }
  set (l := write_node_config L t EmptyString).
  assert (Forall (fun line => exists q p ugs rs, line_for M q p ugs rs line) l) as Hl.
  { apply Forall_forall. intros line Hin. apply (write_node_elem t [] line Ht) in Hin as (q & n & Hg & _ & _ & Hin).
    destruct (get_node_ok t q n Ht Hg) as [Hn Hq].
    apply node_lines_elem in Hin as (p & u & R & HR & ->).
    destruct (node_line_for M q n p u R Hn Hq (HM q n Hg) HR) as (ugs & Hline & _). by eexists _, _, _, _. }
  destruct (parse_lines_grown M l node_new Hx Hl) as (t' & Hp & [Hsub _] & Hall).
  { intros q b. rewrite entries_cur, node_at_new. unfold cur. cbn. rewrite lookup_empty.
    apply map_empty_subseteq. }
  exists t'. split.
  - unfold acl_from_raw, write_config. rewrite lines_unlines; [done|]. eapply Forall_impl; [exact Hl|].
    intros line (q & p & ugs & rs & Hline).
    destruct (parse_line M q p ugs rs line node_new Hline) as (_ & Hnl & Htr & Hne). split; [done|].
    destruct line; [done|]. by apply andb_true_iff in Htr as [_ ?].
  - intros q b Hs. apply (anti_symm (⊆)).
    + specialize (Hsub q b). unfold M in Hsub. by rewrite Hs in Hsub.
    + apply map_subseteq_spec. intros r p Hr. destruct (entries_node t q b r p Hr) as (n & Hg & Hc).
      destruct (get_node_ok t q n Ht Hg) as [Hn Hq]. destruct (cur_ok n b r p Hn Hc) as [Hb _].
      assert (name_has n (authid_to_string L b) p r) as Hh by (left; by exists b).
      apply listed_spec in Hh. unfold ugs_of in Hh.
      destruct (ugs_map p (listed n) !! r) as [s|] eqn:Es; [|cbn in Hh; set_solver].
      set (u := join comma (btree_iter s)).
      assert (r ∈ default ∅ (group_by_property_list (ugs_map p (listed n)) !! u)) as HR
        by (apply group_by_spec; by exists s).
      destruct (group_by_property_list (ugs_map p (listed n)) !! u) as [R|] eqn:ER; [|cbn in HR; set_solver].
      destruct (node_line_for M q n p u R Hn Hq (HM q n Hg) ER) as (ugs & Hline & Hin).
      destruct (Hin b r Hb Hs Hc HR) as [Hu Hr']. eapply Hall; [|exact Hline|done..].
      apply (write_node_lines t [] q n); [done|]. apply node_lines_elem. by eexists _, _, _.
Qed.

(** ** What is read is well-formed *)
Lemma child_replace_keys k n l : (child_replace k n l).*1 = l.*1.
Proof.
  induction l as [|[k' n'] l IH]; [done|]. cbn [child_replace]. case_bool_decide; [by subst|].
  cbn. by rewrite IH.
Qed.
Lemma child_insert_perm k n l : child_insert k n l ≡ₚ (k, n) :: l.
Proof.
  induction l as [|[k' n'] l IH]; [done|]. cbn [child_insert]. case_if; [done|].
  rewrite IH. apply Permutation_swap.
Qed.
Lemma child_replace_in k n l e : e ∈ child_replace k n l -> e = (k, n) \/ e ∈ l.
Proof.
  induction l as [|[k' n'] l IH]; cbn [child_replace]; [by right|]. case_bool_decide; set_solver.
Qed.
Lemma child_get_none k l : child_get k l = None -> k ∉ l.*1.
Proof.
  induction l as [|[k' n'] l IH]; [set_solver|]. cbn [child_get]. case_bool_decide; [done|]. set_solver.
Qed.
Lemma child_set_ok k n l :
  NoDup l.*1 -> NoDup (child_set k n l).*1 /\ (forall e, e ∈ child_set k n l -> e = (k, n) \/ e ∈ l).
Proof.
  intros Hnd. unfold child_set. destruct (child_get k l) eqn:Hc.
  - rewrite child_replace_keys. split; [done|]. intros e. apply child_replace_in.
  - split.
    + rewrite child_insert_perm. apply NoDup_cons. split; [by apply child_get_none|done].
    + intros e. rewrite child_insert_perm. set_solver.
Qed.

Lemma wf_new : wf node_new.
Proof.
  constructor; [split; intros ? ? H; cbn in H; by rewrite lookup_empty in H|constructor|constructor|].
  intros k c H. by apply elem_of_nil in H.
Qed.
Lemma get_or_insert_wf path f t t' :
  Forall component_ok path -> wf t ->
  (forall n n', node_ok n -> f n = Ok n' -> node_ok n' /\ children n' = children n) ->
  get_or_insert_node path f t = Ok t' -> wf t'.
Proof.
  intros Hp Ht Hf. revert t t' Ht. induction Hp as [|c path Hc Hp IH]; intros t t' Ht; cbn [get_or_insert_node].
  - intros He. destruct Ht as [t Hok Hnd Hcs Hch]. destruct (Hf t t' Hok He) as [Hok' Heq].
    constructor; rewrite ?Heq; done.
  - destruct Ht as [t Hok Hnd Hcs Hch].
    destruct (get_or_insert_node path f _) as [child| |] eqn:E; [|done..]. intros [= <-].
    apply IH in E.
    2: { destruct (child_get c (children t)) as [n|] eqn:Hg; [|apply wf_new].
         apply (Hch c). by apply child_get_in. }
    destruct (child_set_ok c child (children t) Hnd) as [Hnd' Hin]. rewrite Forall_forall in Hcs.
    constructor; [exact Hok|exact Hnd'| |].
    + apply Forall_forall. intros e He. destruct (Hin e He) as [->|?]; auto.
    + intros k n He. destruct (Hin _ He) as [[= -> ->]|?]; [done|by eapply Hch].
Qed.

Lemma insert_role_ok r p m : is_Some (role_names L r) -> roles_ok m -> roles_ok (insert_role L r p m).
Proof.
  intros Hr [Hx Hk]. unfold insert_role. case_bool_decide as Hn.
  - subst r. split.
    + intros q Hq. by apply lookup_singleton_Some in Hq as [_ <-].
    + intros r' q [<- _]%lookup_singleton_Some. done.
  - split.
    + intros q Hq. by rewrite lookup_insert_ne, lookup_delete_eq in Hq.
    + intros r' q [[<- _]|[_ [_ H]%lookup_delete_Some]]%lookup_insert_Some; [done|by eapply Hk].
Qed.
Lemma roles_ok_empty : roles_ok ∅.
Proof. split; [intros p Hp|intros r p Hp]; by rewrite lookup_empty in Hp. Qed.

Lemma node_insert_user_ok a r p n :
  authid_ok a -> is_Some (role_names L r) -> node_ok n -> node_ok (node_insert_user_role L a r p n).
Proof.
  intros Ha Hr [Hu Hg]. split; [|exact Hg]. intros b m. cbn. rewrite lookup_insert_Some.
  intros [[<- <-]|[_ Hb]]; [|by apply Hu]. split; [done|]. apply insert_role_ok; [done|].
  destruct (users n !! a) as [m'|] eqn:E; [by apply (Hu a)|apply roles_ok_empty].
Qed.
Lemma node_insert_group_ok g r p n :
  group_ok g -> is_Some (role_names L r) -> node_ok n -> node_ok (node_insert_group_role L g r p n).
Proof.
  intros Ha Hr [Hu Hg]. split; [exact Hu|]. intros b m. cbn. rewrite lookup_insert_Some.
  intros [[<- <-]|[_ Hb]]; [|by apply Hg]. split; [done|]. apply insert_role_ok; [done|].
  destruct (groups n !! g) as [m'|] eqn:E; [by apply (Hg g)|apply roles_ok_empty].
Qed.

(** A name of a list: no separator of the line, no white space around it. *)
Definition field_ok (s : string) : Prop :=
  trimmed s = true /\ has_char comma s = false /\ has_char colon s = false /\
  has_char newline s = false.
Lemma field_group c g : field_ok (String c g) -> group_ok g.
Proof.
  intros ([_ He]%andb_true_iff & H1 & H2 & H3). cbn [has_char] in *. split_and!.
  - destruct g; [done|exact He].
  - by apply orb_false_iff in H1 as [_ ?].
  - by apply orb_false_iff in H2 as [_ ?].
  - by apply orb_false_iff in H3 as [_ ?].
Qed.

Lemma parsed_ok c s a :
  field_ok (String c s) -> Ascii.eqb c at_sign = false -> authid_parse L (String c s) = Ok a -> authid_ok a.
Proof.
  intros (Ht & Hf) Hc Ha. unfold authid_ok. rewrite (authid_print _ _ Ha). split_and!; [done|by split|].
  intros t [= -> _]. by rewrite Ascii.eqb_refl in Hc.
Qed.
Lemma parse_roles_wf ug p rs n n' :
  field_ok ug -> node_ok n -> parse_roles L ug p rs n = Ok n' -> node_ok n' /\ children n' = children n.
Proof.
  intros Hug. revert n. induction rs as [|r rs IH]; intros n Hn; cbn [parse_roles].
  { by intros [= <-]. }
  case_bool_decide as Hr; [done|]. assert (is_Some (role_names L r)) as Hk
    by (destruct (role_names L r); [by eexists|done]).
  intros H. destruct ug as [|c g].
  - destruct (authid_parse L EmptyString) as [a| |] eqn:Ea; [|done..]. by destruct (authid_nonempty a).
  - destruct (Ascii.eqb c at_sign) eqn:Ec.
    + apply IH in H as [? ->]; [done|]. apply node_insert_group_ok; [by eapply field_group|done..].
    + destruct (authid_parse L _) as [a| |] eqn:Ea; [|done..]. cbn [mbind res_bind] in H.
      apply IH in H as [? ->]; [done|]. apply node_insert_user_ok; [by eapply parsed_ok|done..].
Qed.
Lemma parse_uglist_wf p ugs rs n n' :
  Forall field_ok ugs -> node_ok n -> parse_uglist L p ugs rs n = Ok n' ->
  node_ok n' /\ children n' = children n.
Proof.
  intros Hugs. revert n. induction Hugs as [|ug ugs Hug Hugs IH]; intros n Hn; cbn [parse_uglist].
  { by intros [= <-]. }
  destruct (parse_roles L ug p rs n) as [n1| |] eqn:E; [|done..]. cbn [mbind res_bind].
  apply parse_roles_wf in E as [Hn1 <-]; [|done..]. intros H. by apply IH in H.
Qed.

Lemma parse_acl_line_wf line t t' :
  has_char newline line = false -> wf t -> parse_acl_line L line t = Ok t' -> wf t'.
Proof.
  intros Hnl Ht. unfold parse_acl_line.
  pose proof (split_chars colon line) as Hcol. pose proof (split_no_char newline colon line Hnl) as Hnew.
  destruct (split colon line) as [|i0 [|i1 [|i2 [|i3 [|i4 [|]]]]]]; try discriminate.
  case_if; [discriminate|]. intros H. destruct (if bool_decide (i1 = "0") then _ else _) as [p| |]; [|done..].
  cbn [mbind res_bind] in H. repeat (apply Forall_cons in Hcol as [? Hcol]).
  repeat (apply Forall_cons in Hnew as [? Hnew]). eapply get_or_insert_wf; [|exact Ht| |exact H].
  - unfold components, split_acl_path. apply Forall_forall. intros c Hc.
    apply list_elem_of_bind in Hc as (s & Hc & Hs). apply list_elem_of_filter in Hs as [Hne Hs].
    pose proof (split_chars slash i2) as Hsl. rewrite Forall_forall in Hsl. specialize (Hsl s Hs).
    rewrite split_single in Hc by done. apply list_elem_of_singleton in Hc as ->.
    pose proof (split_no_char colon slash i2 ltac:(done)) as Hs1. rewrite Forall_forall in Hs1.
    pose proof (split_no_char newline slash i2 ltac:(done)) as Hs2. rewrite Forall_forall in Hs2.
    split_and!; [|done|by apply Hs1|by apply Hs2]. intros ->. by rewrite bool_decide_true in Hne.
  - intros n n' Hn He. eapply parse_uglist_wf; [|exact Hn|exact He]. apply Forall_fmap, Forall_forall.
    intros s Hs. pose proof (split_chars comma i3) as Hco. rewrite Forall_forall in Hco.
    pose proof (split_no_char colon comma i3 ltac:(done)) as Hs1. rewrite Forall_forall in Hs1.
    pose proof (split_no_char newline comma i3 ltac:(done)) as Hs2. rewrite Forall_forall in Hs2.
    unfold compose. split_and!; [apply trimmed_trim|apply trim_no_char; auto..].
Qed.

Lemma from_raw_wf raw t : acl_from_raw L raw = Ok t -> wf t.
Proof.
  unfold acl_from_raw. pose proof (lines_no_newline raw) as Hl. generalize wf_new.
  generalize node_new as t0. revert Hl. generalize (lines raw) as l.
  induction 1 as [|line l Hline Hl IH]; intros t0 Ht0; cbn [parse_lines]; [by intros [= <-]|].
  case_if; [by apply IH|]. destruct (parse_acl_line L _ t0) as [t1| |] eqn:E; [|done..].
  cbn [mbind res_bind]. apply IH. eapply parse_acl_line_wf; [|exact Ht0|exact E]. by apply trim_no_char.
Qed.
End text.
End AclText.

(** ** Privileges below a path *)
Module AclBelow.
Section below.
Context (L : AclLib).
Import AclRoles.

Lemma role_privs_bits m i :
  (Z.testbit (role_privs L m).1 i = true <->
   exists r p pr, m !! r = Some p /\ role_names L r = Some pr /\ Z.testbit pr i = true) /\
  (Z.testbit (role_privs L m).2 i = true <->
   exists r pr, m !! r = Some true /\ role_names L r = Some pr /\ Z.testbit pr i = true).
Proof.
  setoid_rewrite <- elem_of_map_to_list. unfold role_privs. generalize (map_to_list m) as l. intros l.
  set (step := fun '(privs, propagated) (e : string * bool) => _ : Z * Z).
  assert (forall acc, let res := foldl step acc l in
    (Z.testbit res.1 i = true <-> Z.testbit acc.1 i = true \/
      exists r p pr, (r, p) ∈ l /\ role_names L r = Some pr /\ Z.testbit pr i = true) /\
    (Z.testbit res.2 i = true <-> Z.testbit acc.2 i = true \/
      exists r pr, (r, true) ∈ l /\ role_names L r = Some pr /\ Z.testbit pr i = true)) as H.
  { induction l as [|[r p] l IH]; intros [x y]; cbn [foldl]; [set_solver|].
    specialize (IH (step (x, y) (r, p))). cbn zeta in IH. destruct IH as [IH1 IH2]. rewrite IH1, IH2.
    clear IH1 IH2. unfold step. cbn [fst snd]. destruct (role_names L r) as [pr|] eqn:Er.
    - cbn [fst snd]. rewrite Z.lor_spec, orb_true_iff. destruct p; rewrite ?Z.lor_spec, ?orb_true_iff;
        set_solver.
    - cbn [fst snd]. set_solver. }
  specialize (H (0, 0)). cbn zeta in H. cbn [fst snd] in H. rewrite Z.bits_0 in H. set_solver.
Qed.

(** A path below that has no entry shows what propagates. *)
Definition upto (f : list string -> role_map) (q : list string) (n : nat) : role_map :=
  default ∅ (last (filter (fun m => m <> ∅) ((fun i => visible L false (f (take i q))) <$> seq 0 n))).
Lemma last_filter_snoc {A} (P : A -> Prop) `{forall x, Decision (P x)} l x d :
  default d (last (filter P (l ++ [x]))) = if decide (P x) then x else default d (last (filter P l)).
Proof.
  rewrite filter_app. destruct (decide (P x)).
  - by rewrite filter_cons_True, filter_nil, last_snoc.
  - by rewrite filter_cons_False, filter_nil, app_nil_r.
Qed.
Lemma fmap_snoc {A B} (f : A -> B) l x : f <$> (l ++ [x]) = (f <$> l) ++ [f x].
Proof. by rewrite fmap_app. Qed.
Lemma upto_S f q n :
  upto f q (S n) = if decide (visible L false (f (take n q)) <> ∅)
                   then visible L false (f (take n q)) else upto f q n.
Proof. unfold upto. by rewrite seq_S, fmap_snoc, last_filter_snoc. Qed.
Lemma effective_last f q :
  effective L f q = if decide (visible L true (f q) <> ∅) then visible L true (f q)
                    else upto f q (length q).
Proof.
  unfold effective, upto. rewrite seq_S, fmap_snoc, last_filter_snoc.
  rewrite Nat.add_0_l, bool_decide_true, firstn_all by done.
  destruct (decide _); [done|]. do 3 f_equal. apply list_fmap_ext. intros j i Hi.
  apply lookup_seq in Hi as [-> Hi]. by rewrite bool_decide_false by lia.
Qed.
Lemma effective_snoc f q c :
  f (q ++ [c]) = ∅ ->
  effective L f (q ++ [c]) =
    if decide (visible L false (f q) <> ∅) then visible L false (f q) else upto f q (length q).
Proof.
  intros Hf. rewrite effective_last, Hf, visible_empty, length_app, Nat.add_1_r.
  rewrite decide_False by (intros H; by apply H). rewrite upto_S, take_app_length.
  destruct (decide _); [done|]. unfold upto. do 3 f_equal. apply list_fmap_ext. intros j i Hi.
  apply lookup_seq in Hi as [-> Hi]. by rewrite take_app_le by lia.
Qed.

(** A propagating role at a path is a role below it. *)
Lemma propagates_below f q c r :
  f (q ++ [c]) = ∅ -> effective L f q !! r = Some true -> effective L f (q ++ [c]) !! r = Some true.
Proof.
  intros Hf. rewrite effective_snoc, effective_last by done. destruct (decide (visible L true (f q) <> ∅)) as [Hv|Hv].
  - intros Hr. assert (visible L false (f q) !! r = Some true) as Hr'.
    { revert Hr. unfold visible. case_bool_decide as Hna.
      - by intros [_ [=]]%lookup_singleton_Some.
      - rewrite bool_decide_false.
        + intros [Hr _]%map_lookup_filter_Some. apply map_lookup_filter_Some. done.
        + intros (p & Hp & Hl). apply Hna. exists p. split; [done|]. by rewrite orb_true_r. }
    rewrite decide_True; [done|]. intros He. by rewrite He, lookup_empty in Hr'.
  - rewrite decide_False; [done|]. intros Hne. apply Hv. intros He. apply Hne. revert He. unfold visible.
    case_bool_decide as Hna.
    + intros He. apply (f_equal (fun m => m !! ROLE_NAME_NO_ACCESS L)) in He.
      by rewrite lookup_singleton_eq, lookup_empty in He.
    + rewrite bool_decide_false.
      * intros He. apply map_eq. intros r'. rewrite lookup_empty. apply eq_None_not_Some. intros [p Hp].
        apply map_lookup_filter_Some in Hp as [Hp _].
        apply (f_equal (fun m => m !! r')) in He. rewrite lookup_empty in He.
        rewrite (map_lookup_filter_Some_2 _ _ _ p) in He; [done|done|]. by rewrite orb_true_r.
      * intros (p & Hp & Hl). apply Hna. exists p. split; [done|]. by rewrite orb_true_r.
Qed.

Lemma lookup_privs_components a path path' t :
  components path = components path' -> lookup_privs L a path t = lookup_privs L a path' t.
Proof.
  intros Hc. unfold lookup_privs, lookup_privs_details, lookup_privs_user.
  by rewrite !roles_effective, Hc.
Qed.
Lemma components_plain q : Forall (fun c => has_char slash c = false) q -> components q = q.
Proof.
  unfold components. induction 1 as [|c q Hc _ IH]; [done|]. rewrite bind_cons, IH, split_single by done. done.
Qed.
Lemma components_chars path : Forall (fun c => has_char slash c = false) (components path).
Proof.
  unfold components. apply Forall_forall. intros c (s & Hc & _)%list_elem_of_bind.
  pose proof (split_chars slash s) as H. rewrite Forall_forall in H. by apply H.
Qed.

Lemma details_below a path c t i :
  has_char slash c = false -> (forall b, entries b t (components path ++ [c]) = ∅) ->
  Z.testbit (lookup_privs_details L a path t).2 i = true ->
  Z.testbit (lookup_privs L a (components path ++ [c]) t) i = true.
Proof.
  intros Hc He. set (q := components path ++ [c]).
  assert (components q = q) as Hq.
  { apply components_plain, Forall_app_2; [apply components_chars|by constructor]. }
  assert (forall b, Z.testbit (role_privs L (roles L b path t)).2 i = true ->
    Z.testbit (role_privs L (roles L b q t)).1 i = true) as Hb.
  { intros b [_ H]%(fun H => conj I (proj1 (proj2 (role_privs_bits _ _)) H)).
    destruct H as (r & pr & Hr & Hn & Hp). apply role_privs_bits. exists r, true, pr. split_and!; [|done..].
    revert Hr. rewrite !roles_effective, Hq. by apply propagates_below. }
  unfold lookup_privs, lookup_privs_details, lookup_privs_user. destruct (is_superuser L a); [done|].
  pose proof (Hb a) as Ha. pose proof (Hb (authid_from (auth_user a))) as Ho.
  destruct (role_privs L (roles L a path t)) as [x y], (role_privs L (roles L a q t)) as [x' y'].
  destruct (is_token a); [|exact Ha].
  destruct (is_superuser L (authid_from _)); [cbn [fst snd]; rewrite !Z.land_spec, !andb_true_iff; naive_solver|].
  destruct (role_privs L (roles L (authid_from _) path t)) as [u v],
    (role_privs L (roles L (authid_from _) q t)) as [u' v'].
  cbn [fst snd] in *. rewrite !Z.land_spec, !andb_true_iff. naive_solver.
Qed.

Fixpoint long_name (n : nat) : string :=
  match n with O => EmptyString | S n => String "a" (long_name n) end.
Lemma new_name (l : list string) : exists c, has_char slash c = false /\ c ∉ l.
Proof.
  exists (long_name (S (max_list (String.length <$> l)))). split.
  - generalize (S (max_list (String.length <$> l))) as n. induction n; [done|]. exact IHn.
  - intros Hin. assert (forall n, String.length (long_name n) = n) as Hlen by (induction n; cbn; congruence).
    assert (String.length (long_name (S (max_list (String.length <$> l)))) <= max_list (String.length <$> l))%nat
      as Hle by by apply max_list_elem_of_le, list_elem_of_fmap_2.
    rewrite Hlen in Hle. lia.
Qed.
Lemma no_entries_new q t : exists c, has_char slash c = false /\ forall b, entries b t (q ++ [c]) = ∅.
Proof.
  assert (forall c, get_node (q ++ [c]) t = get_node q t ≫= get_node [c]) as Hg.
  { intros c. revert t. induction q as [|k q IH]; intros t; [done|]. cbn [app get_node].
    destruct (child_get k (children t)); [apply IH|done]. }
  destruct (new_name (match get_node q t with Some n => (children n).*1 | None => [] end)) as (c & Hs & Hc).
  exists c. split; [done|]. intros b. unfold entries. rewrite Hg.
  destruct (get_node q t) as [n|]; [|done]. cbn. destruct (child_get c (children n)) as [n'|] eqn:E; [|done].
  destruct Hc. apply AclText.child_get_in in E. apply list_elem_of_fmap. by exists (c, n').
Qed.

Lemma node_ind (P : AclTreeNode -> Prop) :
  (forall n, Forall (fun e => P e.2) (children n) -> P n) -> forall n, P n.
Proof.
  intros H. fix IH 1. intros [u g ch]. apply H. cbn [children].
  induction ch as [|[k c] ch IHch]; constructor; [apply IH|exact IHch].
Qed.
Lemma child_paths_below s a n p :
  p ∈ node_get_child_paths L s a n -> exists rest, rest <> [] /\ split slash p = split slash s ++ rest.
Proof.
  revert s. induction n as [[u g ch] IH] using node_ind. intros s. cbn [node_get_child_paths children] in *.
  induction IH as [|[k c] ch IH _ IHch]; [by intros ?%elem_of_nil|]. cbn [snd] in IH.
  rewrite !elem_of_app. intros [H|[H|H]]; [| |by apply IHch].
  - destruct (bool_decide _); [by apply elem_of_nil in H|]. apply list_elem_of_singleton in H as ->.
    exists (split slash k). split; [apply split_not_nil|apply split_app_any].
  - apply IH in H as (rest & Hne & ->). exists (split slash k ++ rest).
    split; [by destruct (split slash k)|]. by rewrite split_app_any, app_assoc.
Qed.
End below.
End AclBelow.

(** ** Changes of the tree *)
Module AclChanges.
Lemma child_get_fmap (f : AclTreeNode -> AclTreeNode) k l :
  child_get k ((fun '(k, c) => (k, f c)) <$> l) = f <$> child_get k l.
Proof. induction l as [|[k' c] l IH]; [done|]. cbn. case_bool_decide; [done|exact IH]. Qed.
Lemma delete_authid_entries a b q t :
  entries b (delete_authid a t) q = if decide (b = a) then ∅ else entries b t q.
Proof.
  unfold delete_authid. revert t. induction q as [|k q IH]; intros [u g ch].
  - unfold entries. cbn. destruct (decide (b = a)) as [->|Hb];
      [by rewrite lookup_delete_eq|by rewrite lookup_delete_ne].
  - rewrite !AclRoles.entries_cons. cbn [node_delete_authid children]. rewrite child_get_fmap.
    destruct (child_get k ch) as [c|]; cbn; [apply IH|by case_decide].
Qed.
Lemma insert_user_role_entries L path a role p t t' b q :
  insert_user_role L path a role p t = Ok t' ->
  entries b t' q = if bool_decide (q = components (split_acl_path path) /\ b = a)
                   then insert_role L role p (entries a t q) else entries b t q.
Proof.
  unfold insert_user_role. set (k := components _). set (f := fun n => _). intros H.
  destruct (AclText.get_or_insert_ok k f t (node_insert_user_role L a role p (AclText.node_at k t)))
    as (t1 & H1 & Hent); [done|done|]. rewrite H in H1. injection H1 as <-. rewrite Hent.
  destruct (decide (q = k)) as [->|Hq]; [|by rewrite !bool_decide_false by naive_solver].
  rewrite bool_decide_true by done. rewrite !AclText.entries_cur. unfold AclText.cur. cbn.
  destruct (decide (b = a)) as [->|Hb].
  - by rewrite lookup_insert_eq, bool_decide_true.
  - by rewrite lookup_insert_ne, bool_decide_false by naive_solver.
Qed.
End AclChanges.

(** What a role entry means.  The roles of a user or token on a path are those of
    the deepest entry along the path that has any role visible there: entries above the path
    show only their propagating roles, the entry at the path itself shows all of them, and an
    entry with the role that denies access shows nothing else.  Groups have no influence. *)
Theorem acl_roles_spec L a path t :
  roles L a path t = AclRoles.effective L (entries a t) (components path).
Proof. apply AclRoles.roles_effective. Qed.

(** C32.  Access control lists survive being stored: whatever text was read, the tree that is
    written and read back grants every user and token exactly the same privileges on every path,
    propagated ones included.  Of the library of ids this needs that an id is printed as the text
    it was read from and that the empty text is none; commas and leading [@] in ids are not
    excluded, the parser has split the lists before it reads an id. *)
Theorem acl_roundtrip L `{AclLaws L} raw t :
  acl_from_raw L raw = Ok t ->
  exists t', acl_from_raw L (write_config L t) = Ok t' /\
    forall a path, lookup_privs_details L a path t' = lookup_privs_details L a path t.
Proof.
  intros Hr. pose proof (AclText.from_raw_wf L raw t Hr) as Hw.
  destruct (AclText.write_read_entries L t Hw) as (t' & He & Hent).
  exists t'. split; [done|]. intros a path.
  assert (forall b, is_superuser L b = false -> roles L b path t' = roles L b path t) as Hroles.
  { intros b Hb. rewrite !AclRoles.roles_effective. unfold AclRoles.effective. do 3 f_equal.
    apply list_fmap_ext. intros j i _. by rewrite Hent. }
  unfold lookup_privs_details, lookup_privs_user. destruct (is_superuser L a) eqn:Ha; [done|].
  rewrite Hroles by done. destruct (role_privs L _). case_if; [|done].
  destruct (is_superuser L (authid_from _)) eqn:Ho; [done|]. by rewrite Hroles.
Qed.

(** C33.  An API token never has a privilege that its owner does not have: if a check of
    privileges succeeds for a token, it succeeds for the user who owns it, on the same path and with the
    same mode; the same holds for propagated privileges. *)
Theorem token_privs_bounded L u tok path t :
  let owner := authid_from u in
  let token := {| auth_user := u; auth_token := Some tok |} in
  (forall required partial, check_privs L token path required partial t = Ok tt ->
     check_privs L owner path required partial t = Ok tt) /\
  (forall i, Z.testbit (lookup_privs_details L token path t).2 i = true ->
     Z.testbit (lookup_privs_details L owner path t).2 i = true).
Proof.
  intros owner token.
  assert (forall x y, lookup_privs_details L token path t = (x, y) ->
    exists x' y', lookup_privs_details L owner path t = (x', y') /\
      Z.land x x' = x /\ Z.land y y' = y) as Hle.
  { intros x y. unfold lookup_privs_details, lookup_privs_user.
    change (is_superuser L token) with false. cbn match. change (is_token token) with true. cbn match.
    change (authid_from (auth_user token)) with owner.
    change (is_token owner) with false. cbn match. destruct (role_privs L (roles L token path t)) as [p q].
    destruct (if is_superuser L owner then _ else _) as [x' y'] eqn:Eo. intros [= <- <-].
    exists x', y'. split; [|by rewrite <- !Z.land_assoc, !Z.land_diag].
    destruct (is_superuser L owner); [done|]. destruct (role_privs L _). done. }
  destruct (lookup_privs_details L token path t) as [x y] eqn:Et.
  destruct (Hle x y eq_refl) as (x' & y' & Eo & Hx & Hy). unfold check_privs, lookup_privs.
  rewrite Et, Eo. cbn [fst snd]. split.
  - intros required partial.
    assert (Z.land x required = Z.land x (Z.land x' required)) as Hxr by by rewrite Z.land_assoc, Hx.
    destruct partial.
    + destruct (Z.land x required =? 0) eqn:E1; [done|]. intros _.
      destruct (Z.land x' required =? 0) eqn:E2; [|done]. zify_bool. rewrite E2, Z.land_0_r in Hxr. done.
    + destruct (Z.land x required =? required) eqn:E1; [|done]. intros _.
      destruct (Z.land x' required =? required) eqn:E2; [done|]. zify_bool. destruct E2.
      rewrite <- E1 at 1. rewrite Z.land_assoc, (Z.land_comm x'), Hx. done.
  - intros i. rewrite <- Hy, Z.land_spec. by intros [_ ?]%andb_true_iff.
Qed.

(** The check that decides whether a datastore is shown at all never claims too much: when
    [any_privs_below] returns true for a path, the user or token has one of the privileges on some
    path strictly below it. *)
Theorem any_privs_below_sound L a path privs t :
  path <> [] -> 0 <= privs -> any_privs_below L a path privs t = true ->
  exists rest, rest <> [] /\ Z.land privs (lookup_privs L a (components path ++ rest) t) <> 0.
Proof.
  intros Hp Hpr. unfold any_privs_below. destruct (negb _) eqn:Hprop.
  - intros _. zify_bool. set (v := (lookup_privs_details L a path t).2) in *.
    assert (0 < Z.land v privs) as Hpos.
    { assert (0 <= Z.land v privs) by (apply Z.land_nonneg; by right). lia. }
    pose proof (Z.bit_log2 _ Hpos) as Hbit. rewrite Z.land_spec in Hbit. apply andb_true_iff in Hbit as [Hv Hb].
    destruct (AclBelow.no_entries_new (components path) t) as (c & Hc & He).
    apply (AclBelow.details_below L a path c t _ Hc He) in Hv. exists [c]. split; [done|]. intros Hz.
    apply (f_equal (fun z => Z.testbit z (Z.log2 (Z.land v privs)))) in Hz.
    rewrite Z.land_spec, Z.bits_0, Hb, Hv in Hz. done.
  - rewrite existsb_exists. intros (p & Hin & Hz). zify_bool. apply list_elem_of_In in Hin.
    unfold get_child_paths in Hin. destruct (get_node (components path) t) as [n|]; [|by apply elem_of_nil in Hin].
    apply AclBelow.child_paths_below in Hin as (rest & Hne & Hsp). exists rest. split; [done|].
    rewrite split_join_bind in Hsp by done. change (path ≫= split slash) with (components path) in Hsp.
    assert (components [p] = components path ++ rest) as Hc.
    { unfold components at 1. cbn. by rewrite app_nil_r. }
    assert (components (components path ++ rest) = components path ++ rest) as Hq.
    { apply AclBelow.components_plain. rewrite <- Hc. apply AclBelow.components_chars. }
    rewrite <- (AclBelow.lookup_privs_components L a [p]) by congruence. done.
Qed.

(** ** Concrete ids and roles *)
Module AclExample.
Definition bang : ascii := ascii_of_nat 33.
Definition to_string (a : Authid) : string :=
  match auth_token a with
  | Some t => auth_user a +:+ String bang t
  | None => auth_user a
  end.
Definition parse (s : string) : res Authid :=
  match split bang s with
  | [EmptyString] => Err "invalid id"
  | [u] => Ok {| auth_user := u; auth_token := None |}
  | [u; t] => Ok {| auth_user := u; auth_token := Some t |}
  | _ => Err "invalid id"
  end.
Definition lib : AclLib := {|
  authid_to_string := to_string; authid_parse := parse; root_userid := "root@pam";
  role_names r := if bool_decide (r = "Admin") then Some 7 else if bool_decide (r = "Reader") then Some 1
                  else if bool_decide (r = "NoAccess") then Some 0 else None;
  ROLE_NAME_NO_ACCESS := "NoAccess"; ROLE_ADMIN := 7; MAX_NAMESPACE_DEPTH := 7 |}.

#[global] Instance lib_laws : AclLaws lib.
Proof.
  constructor.
  - intros s a H. cbn in H. unfold parse in H. rewrite <- (join_split bang s).
    destruct (split bang s) as [|[|c u] [|t [|]]]; simplify_eq; done.
  - intros a. vm_compute. discriminate.
  - intros r p H. cbn in H. repeat case_bool_decide; subst; try discriminate;
      (split_and!; [discriminate|vm_compute; reflexivity..]).
  - reflexivity.
Qed.

Definition user : Authid := authid_from "user@pbs".
Definition token : Authid := {| auth_user := "user@pbs"; auth_token := Some "tok" |}.
Definition text : string :=
  unlines ["acl:1:/:user@pbs,user@pbs!tok:Admin"; "acl:0:/datastore/a:user@pbs:Reader"].
Definition tree (lines : list string) : AclTreeNode :=
  match acl_from_raw lib (unlines lines) with Ok t => t | _ => node_new end.
End AclExample.

Lemma acl_roundtrip_witness : exists t t',
  acl_from_raw AclExample.lib AclExample.text = Ok t /\
  acl_from_raw AclExample.lib (write_config AclExample.lib t) = Ok t' /\
  lookup_privs_details AclExample.lib AclExample.token ["datastore"; "b"] t' =
  lookup_privs_details AclExample.lib AclExample.token ["datastore"; "b"] t.
Proof.
  assert (match acl_from_raw AclExample.lib AclExample.text with Ok _ => true | _ => false end = true) as Hok
    by (vm_compute; reflexivity).
  destruct (acl_from_raw AclExample.lib AclExample.text) as [t| |] eqn:E; [|discriminate Hok..].
  destruct (acl_roundtrip AclExample.lib AclExample.text t E) as (t' & E' & H).
  exists t, t'. split; [reflexivity|]. split; [exact E'|apply H].
Defined.

Lemma any_privs_below_sound_witness :
  let t := AclExample.tree ["acl:1:/datastore/a/b:user@pbs:Reader"] in
  exists rest, rest <> [] /\
    Z.land 1 (lookup_privs AclExample.lib AclExample.user (["datastore"] ++ rest) t) <> 0.
Proof.
  intros t. apply (any_privs_below_sound AclExample.lib AclExample.user ["datastore"] 1 t).
  - discriminate.
  - lia.
  - vm_compute. reflexivity.
Defined.

(** The check claims too little in two cases: when the entry at the path itself does not
    propagate and hides a propagating one above it, and when a token inherits roles that
    its owner has only further below.  Both have the privilege on [datastore/a]. *)
Lemma any_privs_below_misses :
  let t1 := AclExample.tree ["acl:1:/:user@pbs:Admin"; "acl:0:/datastore:user@pbs:Reader"] in
  let t2 := AclExample.tree ["acl:1:/:user@pbs!tok:Admin"; "acl:1:/datastore/a:user@pbs:Admin"] in
  any_privs_below AclExample.lib AclExample.user ["datastore"] 1 t1 = false /\
  lookup_privs AclExample.lib AclExample.user ["datastore"; "a"] t1 = 7 /\
  any_privs_below AclExample.lib AclExample.token ["datastore"] 1 t2 = false /\
  lookup_privs AclExample.lib AclExample.token ["datastore"; "a"] t2 = 7.
Proof. vm_compute. repeat split. Qed.
