(* ===== verification/Tape.v ===== *)
(** * Streams of blocks on tape, [pbs-tape/src/]

    Files on tape are sequences of blocks of one size with a header, written by [BlockedWriter]
    and read by [BlockedReader]; the drive is behind the traits [BlockWrite] and [BlockRead],
    which are type classes here.  [EmulateTapeWriter] and [EmulateTapeReader] implement them on
    any [Write] and [Read].  What proxmox-io adds to these ([read_exact_or_eof], [vec::clear]) is an
    operation of a class, its documented behaviour the laws of another. *)

From S2P Require Import Prelude IndexFile DataBlob.
From Stdlib Require Import Strings.Byte.

Definition PROXMOX_TAPE_BLOCK_SIZE : Z := 256 * 1024.
Definition PROXMOX_TAPE_BLOCK_HEADER_MAGIC_1_0 : list byte :=
  byte_of_Z <$> [220; 189; 175; 202; 235; 160; 165; 40].
Definition END_OF_STREAM : Z := 1.
Definition INCOMPLETE : Z := 2.
(** [contains] of a type declared with [bitflags!]: all bits of [f] are set. *)
Definition flags_contain (flags f : Z) : bool := Z.land flags f =? f.

(** ** [BlockHeader] *)
Record BlockHeader := {
  th_magic : list byte; th_flags : Z; th_size : list byte; th_seq : list byte; th_payload : list byte;
}.
Definition PAYLOAD_LEN : Z := PROXMOX_TAPE_BLOCK_SIZE - 16.
Definition block_header_new : BlockHeader :=
  {| th_magic := PROXMOX_TAPE_BLOCK_HEADER_MAGIC_1_0; th_flags := 0; th_size := replicate 3 x00;
     th_seq := replicate 4 x00; th_payload := replicate (Z.to_nat PAYLOAD_LEN) x00 |}.
Definition header_fill (flags size seq_nr : Z) (payload : list byte) (h : BlockHeader) : BlockHeader :=
  {| th_magic := th_magic h; th_flags := flags; th_size := le_bytes 3 size;
     th_seq := le_bytes 4 seq_nr; th_payload := payload |}.
Definition tape_block_size (h : BlockHeader) : Z := le_val (th_size h).
Definition block_seq_nr (h : BlockHeader) : Z := le_val (th_seq h).
(** The struct as bytes and back ([repr(C, packed)]). *)
Definition tape_header_bytes (h : BlockHeader) : list byte :=
  th_magic h ++ [byte_of_Z (th_flags h)] ++ th_size h ++ th_seq h ++ th_payload h.
Definition tape_header_of_bytes (d : list byte) : BlockHeader :=
  {| th_magic := take 8 d; th_flags := le_val (take 1 (drop 8 d)); th_size := take 3 (drop 9 d);
     th_seq := take 4 (drop 12 d); th_payload := drop 16 d |}.

(** ** The traits *)
Class BlockWrite (W : Type) := {
  write_block : list byte -> W -> res bool * W; (* whether the early end of media was reached *)
  write_filemark : W -> res unit * W;
}.
Inductive BlockReadError :=
| BrError (e : string)
| BrEndOfFile
| BrEndOfStream
| BrInvalidBlockSize (got expected : Z).
(** The buffer is changed in place, also by a call that fails; a slice keeps its length. *)
Class BlockRead (R : Type) := {
  read_block : list byte -> R -> (Z + BlockReadError) * (list byte * R);
  length_read_block buf r : length (read_block buf r).2.1 = length buf;
}.
(** [proxmox_io::vec::clear]: all elements are set to zero. *)
Class VecClear := { vec_clear : list byte -> list byte }.
Class VecClearLaws `{VecClear} := { vec_clear_zero l : vec_clear l = replicate (length l) x00 }.
Class TapeWrite (T : Type) := {
  tw_write_all : list byte -> T -> res bool * T;
  tw_bytes_written : T -> Z;
  tw_finish : bool -> T -> res bool * T;
  tw_logical_end_of_media : T -> bool;
}.

(** ** [BlockedWriter] *)
Section writer.
Context {W : Type} `{BlockWrite W} `{VecClear}.

Record BlockedWriter := {
  bw_writer : W; bw_buffer : BlockHeader; bw_buffer_pos : Z; bw_seq_nr : Z;
  bw_leom : bool; bw_bytes_written : Z; bw_wrote_eof : bool;
}.
Definition bw_new (writer : W) : BlockedWriter :=
  {| bw_writer := writer; bw_buffer := block_header_new; bw_buffer_pos := 0; bw_seq_nr := 0;
     bw_leom := false; bw_bytes_written := 0; bw_wrote_eof := false |}.

Definition bw_write_eof (w : BlockedWriter) : res unit * BlockedWriter :=
  if bw_wrote_eof w then (Err "BlockedWriter: detected multiple EOF writes", w) else
  let '(r, writer) := write_filemark (bw_writer w) in
  (r, {| bw_writer := writer; bw_buffer := bw_buffer w; bw_buffer_pos := bw_buffer_pos w;
         bw_seq_nr := bw_seq_nr w; bw_leom := bw_leom w; bw_bytes_written := bw_bytes_written w;
         bw_wrote_eof := true |}).

(** [copy_from_slice] into a part of the payload. *)
Definition copy_into (pos : Z) (data payload : list byte) : res (list byte) :=
  if (0 <=? pos) && (pos + Z.of_nat (length data) <=? Z.of_nat (length payload))
  then Ok (write_at (Z.to_nat pos) data payload) else Panic "range out of bounds for slice".

Definition bw_write (data : list byte) (w : BlockedWriter) : res Z * BlockedWriter :=
  let len := Z.of_nat (length data) in
  if len =? 0 then (Ok 0, w) else
  let b := bw_buffer w in
  let rest := u64 (Z.of_nat (length (th_payload b)) - bw_buffer_pos w) in
  let bytes := if len <? rest then len else rest in
  try! payload := copy_into (bw_buffer_pos w) (take (Z.to_nat bytes) data) (th_payload b) for w in
  if rest - bytes =? 0 then
    let b := header_fill 0 (Z.of_nat (length payload)) (bw_seq_nr w) payload b in
    let '(r, writer) := write_block (tape_header_bytes b) (bw_writer w) in
    match r with
    | Ok leom =>
        (Ok bytes, {| bw_writer := writer; bw_buffer := b; bw_buffer_pos := 0;
                      bw_seq_nr := u32 (bw_seq_nr w + 1); bw_leom := leom || bw_leom w;
                      bw_bytes_written := u64 (bw_bytes_written w + PROXMOX_TAPE_BLOCK_SIZE);
                      bw_wrote_eof := bw_wrote_eof w |})
    | Err _ | Panic _ =>
        (match r with Panic e => Panic e | Err e => Err e | Ok _ => Ok 0 end,
         {| bw_writer := writer; bw_buffer := b; bw_buffer_pos := bw_buffer_pos w;
            bw_seq_nr := u32 (bw_seq_nr w + 1); bw_leom := bw_leom w;
            bw_bytes_written := bw_bytes_written w; bw_wrote_eof := bw_wrote_eof w |})
    end
  else
    (Ok bytes, {| bw_writer := bw_writer w;
                  bw_buffer := {| th_magic := th_magic b; th_flags := th_flags b; th_size := th_size b;
                                  th_seq := th_seq b; th_payload := payload |};
                  bw_buffer_pos := bw_buffer_pos w + bytes; bw_seq_nr := bw_seq_nr w;
                  bw_leom := bw_leom w; bw_bytes_written := bw_bytes_written w;
                  bw_wrote_eof := bw_wrote_eof w |}).

(** [write_all]; every turn consumes a byte, so the length of the data is enough fuel. *)
Fixpoint bw_write_loop (fuel : nat) (data : list byte) (w : BlockedWriter) : res bool * BlockedWriter :=
  if Z.of_nat (length data) =? 0 then (Ok (bw_leom w), w) else
  match fuel with
  | O => (Panic "fuel", w)
  | S fuel => let! n, w := bw_write data w in bw_write_loop fuel (drop (Z.to_nat n) data) w
  end.
Definition bw_write_all (data : list byte) (w : BlockedWriter) : res bool * BlockedWriter :=
  bw_write_loop (length data) data w.

Definition bw_finish (incomplete : bool) (w : BlockedWriter) : res bool * BlockedWriter :=
  let b := bw_buffer w in
  let pos := bw_buffer_pos w in
  let flags := if incomplete then Z.lor END_OF_STREAM INCOMPLETE else END_OF_STREAM in
  try! tail := slice (th_payload b) pos (Z.of_nat (length (th_payload b))) for w in
  let payload := take (Z.to_nat pos) (th_payload b) ++ vec_clear tail in
  let b := header_fill flags pos (bw_seq_nr w) payload b in
  let '(r, writer) := write_block (tape_header_bytes b) (bw_writer w) in
  let w := {| bw_writer := writer; bw_buffer := b; bw_buffer_pos := pos;
              bw_seq_nr := u32 (bw_seq_nr w + 1); bw_leom := bw_leom w;
              bw_bytes_written := u64 (bw_bytes_written w + PROXMOX_TAPE_BLOCK_SIZE);
              bw_wrote_eof := bw_wrote_eof w |} in
  try! leom := r for w in
  let! _, w := bw_write_eof w in
  (Ok leom, w).

(** [drop]: a file mark is written if there is none yet. *)
Definition bw_drop (w : BlockedWriter) : W :=
  if bw_wrote_eof w then bw_writer w else (write_filemark (bw_writer w)).2.

#[export] Instance BlockedWriter_TapeWrite : TapeWrite BlockedWriter := {
  tw_write_all := bw_write_all;
  tw_bytes_written := bw_bytes_written;
  tw_finish := bw_finish;
  tw_logical_end_of_media := bw_leom;
}.
End writer.
Arguments BlockedWriter : clear implicits.

(** ** [BlockedReader] *)
Section reader.
Context {R : Type} `{BlockRead R}.

Record BlockedReader := {
  br_reader : R; br_buffer : BlockHeader; br_seq_nr : Z; br_found_end_marker : bool;
  br_incomplete : bool; br_got_eod : bool; br_read_error : bool; br_read_pos : Z;
}.

Definition check_buffer (b : BlockHeader) (seq_nr : Z) : res (Z * bool) :=
  if negb (bool_decide (th_magic b = PROXMOX_TAPE_BLOCK_HEADER_MAGIC_1_0))
  then Err "got tape block with unknown magic number" else
  if negb (seq_nr =? block_seq_nr b) then Err "detected tape block with wrong sequence number" else
  let size := tape_block_size b in
  let found_end_marker := flags_contain (th_flags b) END_OF_STREAM in
  if Z.of_nat (length (th_payload b)) <? size then Err "detected tape block with wrong payload size" else
  if (size =? 0) && negb found_end_marker then Err "detected tape block with zero payload size" else
  Ok (size, found_end_marker).

Definition read_block_frame (buffer : BlockHeader) (reader : R)
    : (unit + BlockReadError) * (BlockHeader * R) :=
  let '(r, (data, reader)) := read_block (tape_header_bytes buffer) reader in
  let buffer := tape_header_of_bytes data in
  (match r with
   | inr e => inr e
   | inl bytes =>
       if negb (bytes =? PROXMOX_TAPE_BLOCK_SIZE)
       then inr (BrError "got wrong block size") else inl tt
   end, (buffer, reader)).

Definition consume_eof_marker (reader : R) : res unit * R :=
  let '(r, (_, reader)) := read_block (replicate 512 x00) reader in
  (match r with
   | inl _ => Err "detected tape block after block-stream end marker"
   | inr BrEndOfFile => Ok tt
   | inr BrEndOfStream => Err "got unexpected end of tape"
   | inr (BrError e) => Err e
   | inr (BrInvalidBlockSize _ _) => Err "read failed - unexpected block len"
   end, reader).

Definition br_open (reader : R) : BlockedReader + BlockReadError :=
  let '(r, (buffer, reader)) := read_block_frame block_header_new reader in
  match r with
  | inr e => inr e
  | inl _ =>
      match check_buffer buffer 0 with
      | Err e | Panic e => inr (BrError e)
      | Ok (_, found_end_marker) =>
          if found_end_marker then
            let '(r, reader) := consume_eof_marker reader in
            match r with
            | Err e | Panic e => inr (BrError e)
            | Ok _ =>
                inl {| br_reader := reader; br_buffer := buffer; br_seq_nr := 1;
                       br_found_end_marker := true;
                       br_incomplete := flags_contain (th_flags buffer) INCOMPLETE;
                       br_got_eod := true; br_read_error := false; br_read_pos := 0 |}
            end
          else
            inl {| br_reader := reader; br_buffer := buffer; br_seq_nr := 1;
                   br_found_end_marker := false; br_incomplete := false; br_got_eod := false;
                   br_read_error := false; br_read_pos := 0 |}
      end
  end.

Definition br_set (reader : R) (buffer : BlockHeader) (seq_nr : Z) (found incomplete eod : bool)
    (read_pos : Z) (b : BlockedReader) : BlockedReader :=
  {| br_reader := reader; br_buffer := buffer; br_seq_nr := seq_nr; br_found_end_marker := found;
     br_incomplete := incomplete; br_got_eod := eod; br_read_error := br_read_error b;
     br_read_pos := read_pos |}.

(** [read_block] of the reader itself. *)
Definition br_read_block (check_end_marker : bool) (b : BlockedReader) : res Z * BlockedReader :=
  let '(r, (buffer, reader)) := read_block_frame (br_buffer b) (br_reader b) in
  let b := br_set reader buffer (br_seq_nr b) (br_found_end_marker b) (br_incomplete b)
             (br_got_eod b) (br_read_pos b) b in
  match r with
  | inr BrEndOfFile =>
      let b := br_set reader buffer (br_seq_nr b) (br_found_end_marker b) (br_incomplete b) true
                 (Z.of_nat (length (th_payload buffer))) b in
      if negb (br_found_end_marker b) && check_end_marker
      then (Err "detected tape stream without end marker", b) else (Ok 0, b)
  | inr BrEndOfStream => (Err "got unexpected end of tape", b)
  | inr (BrError e) => (Err e, b)
  | inr (BrInvalidBlockSize _ _) => (Err "read failed - unexpected block len", b)
  | inl _ =>
      try! (size, found_end_marker) := check_buffer buffer (br_seq_nr b) for b in
      let seq_nr := u32 (br_seq_nr b + 1) in
      if found_end_marker then
        let incomplete := flags_contain (th_flags buffer) INCOMPLETE in
        let '(r, reader) := consume_eof_marker reader in
        match r with
        | Ok _ => (Ok size, br_set reader buffer seq_nr true incomplete true 0 b)
        | Err e => (Err e, br_set reader buffer seq_nr true incomplete (br_got_eod b) (br_read_pos b) b)
        | Panic e => (Panic e, br_set reader buffer seq_nr true incomplete (br_got_eod b) (br_read_pos b) b)
        end
      else
        (Ok size, br_set reader buffer seq_nr (br_found_end_marker b) (br_incomplete b)
                    (br_got_eod b) 0 b)
  end.

Definition br_is_incomplete (b : BlockedReader) : res bool :=
  if negb (br_got_eod b) then Err "is_incomplete failed: EOD not reached" else
  if negb (br_found_end_marker b) then Err "is_incomplete failed: no end marker found" else
  Ok (br_incomplete b).
Definition br_has_end_marker (b : BlockedReader) : res bool :=
  if negb (br_got_eod b) then Err "has_end_marker failed: EOD not reached" else
  Ok (br_found_end_marker b).

Definition set_read_error (b : BlockedReader) : BlockedReader :=
  {| br_reader := br_reader b; br_buffer := br_buffer b; br_seq_nr := br_seq_nr b;
     br_found_end_marker := br_found_end_marker b; br_incomplete := br_incomplete b;
     br_got_eod := br_got_eod b; br_read_error := true; br_read_pos := br_read_pos b |}.
(** [read] with the length of the buffer; the bytes copied into it. *)
Definition br_copy (rest len : Z) (b : BlockedReader) : res (list byte) * BlockedReader :=
  if rest <=? 0 then (Ok [], b) else
  let copy_len := if len <? rest then len else rest in
  try! data := slice (th_payload (br_buffer b)) (br_read_pos b) (br_read_pos b + copy_len) for b in
  (Ok data, br_set (br_reader b) (br_buffer b) (br_seq_nr b) (br_found_end_marker b)
              (br_incomplete b) (br_got_eod b) (br_read_pos b + copy_len) b).
Definition br_read (len : Z) (b : BlockedReader) : res (list byte) * BlockedReader :=
  if br_read_error b then (Err "detected read after error - internal error", b) else
  let rest := tape_block_size (br_buffer b) - br_read_pos b in
  if (rest <=? 0) && negb (br_got_eod b) then
    match br_read_block true b with
    | (Ok size, b) => br_copy size len b
    | (Err e, b) => (Err e, set_read_error b)
    | (Panic e, b) => (Panic e, b)
    end
  else br_copy rest len b.

(** [skip_data]: each turn of the loop reads a block. *)
Fixpoint skip_loop (fuel : nat) (bytes : Z) (b : BlockedReader) : res Z * BlockedReader :=
  if br_got_eod b then (Ok bytes, b) else
  match fuel with
  | O => (Panic "fuel", b)
  | S fuel => let! n, b := br_read_block false b in skip_loop fuel (u64 (bytes + n)) b
  end.
Definition br_skip_data (fuel : nat) (b : BlockedReader) : res Z * BlockedReader :=
  let rest := tape_block_size (br_buffer b) - br_read_pos b in
  skip_loop fuel (if 0 <? rest then rest else 0) b.
End reader.
Arguments BlockedReader : clear implicits.

(** ** Emulated tapes *)

(** [std::io::Write]: a call that fails may have written a part. *)
Class IoWrite (W : Type) := { io_write_all : list byte -> W -> res unit * W }.
Class IoWriteLaws (W : Type) `{IoWrite W} := {
  io_written : W -> list byte;
  io_write_all_ok data w w' :
    io_write_all data w = (Ok tt, w') -> io_written w' = io_written w ++ data;
}.
(** [ReadExt::read_exact_or_eof] of proxmox-io: the whole buffer is read, or there is no byte left at
    all, which is no error. *)
Class ReadExt (R : Type) := {
  read_exact_or_eof : list byte -> R -> res bool * (list byte * R);
  length_read_exact_or_eof buf r : length (read_exact_or_eof buf r).2.1 = length buf;
}.
Class ReadExtLaws (R : Type) `{ReadExt R} := {
  unread : R -> list byte;
  read_exact_full buf r : buf <> [] -> (length buf <= length (unread r))%nat ->
    exists r', read_exact_or_eof buf r = (Ok true, (take (length buf) (unread r), r')) /\
               unread r' = drop (length buf) (unread r);
  read_exact_eof buf r : buf <> [] -> unread r = [] ->
    exists buf' r', read_exact_or_eof buf r = (Ok false, (buf', r')) /\ unread r' = [];
  read_exact_short buf r : (0 < length (unread r) < length buf)%nat ->
    exists e buf' r', read_exact_or_eof buf r = (Err e, (buf', r'));
}.

Section emulate_writer.
Context {W : Type} `{IoWrite W}.
Record EmulateTapeWriter := {
  ew_block_nr : Z; ew_max_blocks : Z; ew_writer : W; ew_wrote_eof : bool;
}.
Definition ew_new (writer : W) (max_size : Z) : EmulateTapeWriter :=
  let max_blocks := max_size / PROXMOX_TAPE_BLOCK_SIZE in
  {| ew_block_nr := 0; ew_max_blocks := if max_blocks <? 2 then 2 else max_blocks;
     ew_writer := writer; ew_wrote_eof := false |}.
Definition ew_write_block (buffer : list byte) (w : EmulateTapeWriter)
    : res bool * EmulateTapeWriter :=
  if negb (Z.of_nat (length buffer) =? PROXMOX_TAPE_BLOCK_SIZE)
  then (Err "EmulateTapeWriter: got write with wrong block size", w) else
  if ew_max_blocks w + 2 <=? ew_block_nr w then (Err "ENOSPC", w) else
  let '(r, writer) := io_write_all buffer (ew_writer w) in
  let set nr := {| ew_block_nr := nr; ew_max_blocks := ew_max_blocks w; ew_writer := writer;
                   ew_wrote_eof := ew_wrote_eof w |} in
  try! _ := r for (set (ew_block_nr w)) in
  let nr := ew_block_nr w + 1 in
  (Ok (ew_max_blocks w <? nr), set nr).
Definition ew_write_filemark (w : EmulateTapeWriter) : res unit * EmulateTapeWriter :=
  if ew_wrote_eof w then (Err "EmulateTapeWriter: detected multiple EOF writes", w) else
  (Ok tt, {| ew_block_nr := ew_block_nr w; ew_max_blocks := ew_max_blocks w;
             ew_writer := ew_writer w; ew_wrote_eof := true |}).
#[export] Instance EmulateTapeWriter_BlockWrite : BlockWrite EmulateTapeWriter := {
  write_block := ew_write_block; write_filemark := ew_write_filemark;
}.
End emulate_writer.
Arguments EmulateTapeWriter : clear implicits.

Section emulate_reader.
Context {R : Type} `{ReadExt R}.
Record EmulateTapeReader := { er_reader : R; er_got_eof : bool }.
Definition er_new (reader : R) : EmulateTapeReader := {| er_reader := reader; er_got_eof := false |}.
Definition er_read_block (buffer : list byte) (t : EmulateTapeReader)
    : (Z + BlockReadError) * (list byte * EmulateTapeReader) :=
  if er_got_eof t then (inr (BrError "detected read after EOF!"), (buffer, t)) else
  let '(r, (buffer, reader)) := read_exact_or_eof buffer (er_reader t) in
  let len := Z.of_nat (length buffer) in
  match r with
  | Err e | Panic e => (inr (BrError e), (buffer, {| er_reader := reader; er_got_eof := false |}))
  | Ok false => (inr BrEndOfFile, (buffer, {| er_reader := reader; er_got_eof := true |}))
  | Ok true =>
      (if negb (len =? PROXMOX_TAPE_BLOCK_SIZE)
       then inr (BrError "EmulateTapeReader: read_block with wrong block size") else inl len,
       (buffer, {| er_reader := reader; er_got_eof := false |}))
  end.
Lemma length_er_read_block buffer t : length (er_read_block buffer t).2.1 = length buffer.
Proof.
  unfold er_read_block. case_if; [done|].
  pose proof (length_read_exact_or_eof buffer (er_reader t)) as E.
  destruct (read_exact_or_eof _ _) as [[[]| |] [? ?]]; simpl in *; done.
Qed.
#[export] Instance EmulateTapeReader_BlockRead : BlockRead EmulateTapeReader := {
  read_block := er_read_block; length_read_block := length_er_read_block;
}.
End emulate_reader.
Arguments EmulateTapeReader : clear implicits.

(** ** [MediaContentHeader] and [TapeWrite::write_header] *)
Definition PROXMOX_BACKUP_CONTENT_HEADER_MAGIC_1_0 : list byte :=
  byte_of_Z <$> [99; 238; 20; 159; 205; 242; 155; 12].
Record MediaContentHeader := {
  mh_magic : list byte; mh_content_magic : list byte; mh_uuid : list byte; mh_ctime : Z;
  mh_size : Z; mh_part_number : Z; mh_reserved : list byte;
}.
Definition media_header_new (content_magic uuid : list byte) (ctime size : Z) : MediaContentHeader :=
  {| mh_magic := PROXMOX_BACKUP_CONTENT_HEADER_MAGIC_1_0; mh_content_magic := content_magic;
     mh_uuid := uuid; mh_ctime := ctime; mh_size := size; mh_part_number := 0;
     mh_reserved := replicate 3 x00 |}.
Definition media_header_check (content_magic : list byte) (min_size max_size : Z)
    (h : MediaContentHeader) : res unit :=
  if negb (bool_decide (mh_magic h = PROXMOX_BACKUP_CONTENT_HEADER_MAGIC_1_0))
  then Err "MediaContentHeader: wrong magic" else
  if negb (bool_decide (mh_content_magic h = content_magic))
  then Err "MediaContentHeader: wrong content magic" else
  if (mh_size h <? min_size) || (max_size <? mh_size h)
  then Err "MediaContentHeader: got unexpected size" else Ok tt.
(** [to_le] and the struct as bytes. *)
Definition media_header_bytes (h : MediaContentHeader) : list byte :=
  mh_magic h ++ mh_content_magic h ++ mh_uuid h ++ le_bytes 8 (mh_ctime h) ++ le_bytes 4 (mh_size h)
  ++ le_bytes 1 (mh_part_number h) ++ mh_reserved h.
Definition write_header {T} `{TapeWrite T} (header : MediaContentHeader) (data : list byte) (t : T)
    : res bool * T :=
  if negb (mh_size header =? Z.of_nat (length data))
  then (Err "write_header with wrong size - internal error", t) else
  let! leom, t := tw_write_all (media_header_bytes header) t in
  if Z.of_nat (length data) =? 0 then (Ok leom, t) else
  tw_write_all data t.
