(* ===== verification/TapeSpec.v ===== *)
(** * Correctness of block streams on tape

    What [BlockedWriter] puts on a tape, that [BlockedReader] gives it back for any sizes of the writes and
    reads, and that whatever is on a tape, a stream that is read to its end without error is complete. *)

From S2P Require Import Prelude IndexFile DataBlob Tape.
From Stdlib Require Import Strings.Byte.

Lemma PAYLOAD_LEN_val : PAYLOAD_LEN = 262128.
Proof. reflexivity. Qed.
Lemma BLOCK_SIZE_val : PROXMOX_TAPE_BLOCK_SIZE = 262144.
Proof. reflexivity. Qed.
#[local] Opaque PAYLOAD_LEN PROXMOX_TAPE_BLOCK_SIZE PROXMOX_TAPE_BLOCK_HEADER_MAGIC_1_0.
Ltac tape_lia := rewrite ?PAYLOAD_LEN_val, ?BLOCK_SIZE_val in *; lia.

(** ** Headers *)
Record header_ok (h : BlockHeader) : Prop := {
  ho_magic : length (th_magic h) = 8%nat;
  ho_flags : 0 <= th_flags h < 256;
  ho_size : length (th_size h) = 3%nat;
  ho_seq : length (th_seq h) = 4%nat;
  ho_payload : Z.of_nat (length (th_payload h)) = PAYLOAD_LEN;
}.

Lemma length_magic : length PROXMOX_TAPE_BLOCK_HEADER_MAGIC_1_0 = 8%nat.
Proof. reflexivity. Qed.

Lemma header_new_ok : header_ok block_header_new.
Proof.
  split; cbn [block_header_new th_magic th_flags th_size th_seq th_payload]; rewrite ?length_replicate;
    [apply length_magic|lia|done|done|tape_lia].
Qed.

Lemma length_header_bytes h : header_ok h -> Z.of_nat (length (tape_header_bytes h)) = PROXMOX_TAPE_BLOCK_SIZE.
Proof.
  intros [H1 H2 H3 H4 H5]. unfold tape_header_bytes. rewrite !length_app, H1, H3, H4. cbn [length]. tape_lia.
Qed.

Lemma header_bytes_inv h : header_ok h -> tape_header_of_bytes (tape_header_bytes h) = h.
Proof.
  intros [H1 H2 H3 H4 H5]. destruct h as [m f s q p]. cbn [th_magic th_flags th_size th_seq th_payload] in *.
  do 8 (destruct m as [|? m]; [done|]). destruct m; [|done].
  do 3 (destruct s as [|? s]; [done|]). destruct s; [|done].
  do 4 (destruct q as [|? q]; [done|]). destruct q; [|done].
  unfold tape_header_of_bytes, tape_header_bytes. cbn [th_magic th_flags th_size th_seq th_payload app take drop].
  f_equal. cbn [le_val]. rewrite byte_to_of_Z, Z.mod_small; lia.
Qed.

Lemma header_of_bytes_ok d : Z.of_nat (length d) = PROXMOX_TAPE_BLOCK_SIZE -> header_ok (tape_header_of_bytes d).
Proof.
  intros H. assert (262144 <= Z.of_nat (length d)) by tape_lia.
  split; cbn [tape_header_of_bytes th_magic th_flags th_size th_seq th_payload];
    rewrite ?length_take, ?length_drop; [lia| |lia|lia|tape_lia].
  pose proof (le_val_range (take 1 (drop 8 d))) as R. rewrite length_take, length_drop in R.
  replace (1 `min` (length d - 8))%nat with 1%nat in R by lia. exact R.
Qed.

(** ** The blocks of a stream *)
Definition block_image (flags size seq_nr : Z) (payload : list byte) : BlockHeader :=
  header_fill flags size seq_nr payload block_header_new.
Definition full_blocks (i : Z) (ps : list (list byte)) : list (list byte) :=
  imap (fun j p => tape_header_bytes (block_image 0 PAYLOAD_LEN (u32 (i + Z.of_nat j)) p)) ps.
Definition end_flags (incomplete : bool) : Z := if incomplete then 3 else 1.
Definition last_block (i : Z) (incomplete : bool) (tail pad : list byte) : list byte :=
  tape_header_bytes (block_image (end_flags incomplete) (Z.of_nat (length tail)) (u32 i) (tail ++ pad)).
Definition full (p : list byte) : Prop := Z.of_nat (length p) = PAYLOAD_LEN.
(** [blocks], numbered from [i], hold [data] and end with an end marker. *)
Definition tape_stream (i : Z) (data : list byte) (incomplete : bool) (blocks : list (list byte)) : Prop :=
  exists ps tail pad,
    Forall full ps /\ data = concat ps ++ tail /\ full (tail ++ pad) /\
    blocks = full_blocks i ps ++ [last_block (i + Z.of_nat (length ps)) incomplete tail pad].

Lemma block_image_ok flags size seq payload :
  0 <= flags < 256 -> full payload -> header_ok (block_image flags size seq payload).
Proof.
  intros Hf Hp. split; cbn [block_image header_fill th_magic th_flags th_size th_seq th_payload];
    rewrite ?length_le_bytes; done.
Qed.
Lemma block_image_size flags size seq payload :
  0 <= size <= PAYLOAD_LEN -> tape_block_size (block_image flags size seq payload) = size.
Proof. intros H. unfold tape_block_size. cbn [block_image header_fill th_size]. rewrite le_val_bytes. apply Z.mod_small. tape_lia. Qed.
Lemma block_image_seq flags size seq payload :
  block_seq_nr (block_image flags size (u32 seq) payload) = u32 seq.
Proof.
  unfold block_seq_nr. cbn [block_image header_fill th_seq]. rewrite le_val_bytes. apply Z.mod_small. apply (wrapu_range 32). lia.
Qed.

(** ** The writer *)
Class BlockWriteLaws (W : Type) `{BlockWrite W} := {
  tape_bytes : W -> list byte;
  write_block_ok b w l w' : write_block b w = (Ok l, w') -> tape_bytes w' = tape_bytes w ++ b;
  write_filemark_ok w w' : write_filemark w = (Ok tt, w') -> tape_bytes w' = tape_bytes w;
}.

Module WriterSpec.
Section writer.
Context {W : Type} `{BlockWriteLaws W} `{VecClearLaws}.

(** The state after [data] was written: full blocks are on the tape, the rest is in the buffer. *)
Record writer_inv (base data : list byte) (w : BlockedWriter W) (ps : list (list byte)) : Prop := {
  wi_full : Forall full ps;
  wi_data : data = concat ps ++ take (Z.to_nat (bw_buffer_pos w)) (th_payload (bw_buffer w));
  wi_tape : tape_bytes (bw_writer w) = base ++ concat (full_blocks 0 ps);
  wi_seq : bw_seq_nr w = u32 (Z.of_nat (length ps));
  wi_pos : 0 <= bw_buffer_pos w < PAYLOAD_LEN;
  wi_payload : full (th_payload (bw_buffer w));
  wi_magic : th_magic (bw_buffer w) = PROXMOX_TAPE_BLOCK_HEADER_MAGIC_1_0;
  wi_eof : bw_wrote_eof w = false;
}.

Lemma writer_inv_new w : writer_inv (tape_bytes w) [] (bw_new w) [].
Proof.
  split; [constructor|done|symmetry; apply app_nil_r|done| |apply (ho_payload _ header_new_ok)|done|done].
  change (0 <= 0 < PAYLOAD_LEN). tape_lia.
Qed.

Lemma full_blocks_snoc i ps p :
  full_blocks i (ps ++ [p]) =
  full_blocks i ps ++ [tape_header_bytes (block_image 0 PAYLOAD_LEN (u32 (i + Z.of_nat (length ps))) p)].
Proof. unfold full_blocks. rewrite imap_app. cbn. by rewrite Nat.add_0_r. Qed.

Lemma header_fill_image f s q p h :
  th_magic h = PROXMOX_TAPE_BLOCK_HEADER_MAGIC_1_0 -> header_fill f s q p h = block_image f s q p.
Proof. intros E. unfold block_image, header_fill. by rewrite E. Qed.

Lemma u32_succ z : u32 (u32 z + 1) = u32 (z + 1).
Proof. unfold wrapu. by rewrite Zplus_mod_idemp_l. Qed.

Lemma write_at_take {A} pos (d mem : list A) :
  (pos + length d <= length mem)%nat -> take (pos + length d) (write_at pos d mem) = take pos mem ++ d.
Proof.
  intros Hl. unfold write_at. rewrite app_assoc, take_app_le by (rewrite length_app, length_take; lia).
  apply take_ge. rewrite length_app, length_take. lia.
Qed.

Lemma copy_into_ok pos (d p : list byte) :
  0 <= pos -> pos + Z.of_nat (length d) <= Z.of_nat (length p) ->
  copy_into pos d p = Ok (write_at (Z.to_nat pos) d p).
Proof. intros. unfold copy_into. by rewrite !(proj2 (Z.leb_le _ _)) by lia. Qed.

(** How many bytes one turn takes. *)
Definition turn (w : BlockedWriter W) (d : list byte) : Z :=
  Z.min (Z.of_nat (length d)) (PAYLOAD_LEN - bw_buffer_pos w).

(** The behaviour of [write]: the block is written when it is full, else the data is only buffered. *)
Lemma bw_write_cases base data w ps d :
  writer_inv base data w ps -> d <> [] ->
  let n := turn w d in
  let t := take (Z.to_nat n) d in
  let p := write_at (Z.to_nat (bw_buffer_pos w)) t (th_payload (bw_buffer w)) in
  1 <= n <= Z.of_nat (length d) /\
  ((exists w', bw_write d w = (Ok n, w') /\ bw_writer w' = bw_writer w /\ 
      bw_buffer_pos w' = bw_buffer_pos w + n /\ writer_inv base (data ++ t) w' ps) \/
   (bw_buffer_pos w + n = PAYLOAD_LEN /\
    let b := tape_header_bytes (block_image 0 PAYLOAD_LEN (bw_seq_nr w) p) in
    Z.of_nat (length b) = PROXMOX_TAPE_BLOCK_SIZE /\
    match write_block b (bw_writer w) with
    | (Ok l, wr) => exists w', bw_write d w = (Ok n, w') /\ bw_writer w' = wr /\
        bw_buffer_pos w' = 0 /\ writer_inv base (data ++ t) w' (ps ++ [p])
    | (Err e, _) => exists w', bw_write d w = (Err e, w')
    | (Panic e, _) => exists w', bw_write d w = (Panic e, w')
    end)).
Proof.
  intros [Hf Hd Ht Hs Hp Hl Hm He] Hne n t p.
  assert (0 < Z.of_nat (length d)) by (destruct d; [done|cbn; lia]).
  assert (1 <= n <= Z.of_nat (length d)) as Hn by (unfold n, turn; lia).
  assert (Z.of_nat (length t) = n) as Htl by (unfold t; rewrite length_take; lia).
  assert (bw_buffer_pos w + n <= PAYLOAD_LEN) as Hfit by (unfold n, turn; lia).
  unfold full in Hl.
  assert (full p) as Hpl by (unfold full, p; rewrite length_write_at; tape_lia).
  split; [done|].
  unfold bw_write. rewrite (proj2 (Z.eqb_neq _ _)) by lia. rewrite Hl, u64_small by (unfold in_u64, U64_MAX; tape_lia).
  replace (if _ <? _ then _ else _) with n by (unfold n, turn; case_if; zify_bool; lia).
  fold t. rewrite copy_into_ok by tape_lia. fold p. case_if; zify_bool.
  - right. split; [lia|]. split; [apply length_header_bytes, block_image_ok; [lia|done]|].
    rewrite header_fill_image by done. rewrite Hpl.
    destruct (write_block _ _) as [[l|e|e] wr] eqn:Hw; [|by eexists|by eexists].
    eexists. do 3 (split; [reflexivity|]).
    split; cbn [bw_writer bw_buffer bw_buffer_pos bw_seq_nr bw_wrote_eof]; try done.
    + by apply Forall_app; split; [|constructor].
    + rewrite Hd, concat_app. cbn. rewrite !app_nil_r, <- app_assoc. f_equal.
      rewrite <- (write_at_take _ t (th_payload (bw_buffer w))) by lia. apply take_ge. unfold full in Hpl. fold p. lia.
    + apply write_block_ok in Hw. rewrite Hw, Ht, full_blocks_snoc, concat_app, Hs, Z.add_0_l. cbn [concat].
      by rewrite app_nil_r, app_assoc.
    + rewrite Hs, u32_succ, length_app. f_equal. cbn. lia.
  - left. eexists. do 3 (split; [reflexivity|]).
    split; cbn [bw_writer bw_buffer bw_buffer_pos bw_seq_nr bw_wrote_eof th_payload th_magic]; try done; [|lia].
    rewrite Hd, <- app_assoc. f_equal. rewrite <- (write_at_take _ t (th_payload (bw_buffer w))) by lia.
    f_equal. lia.
Qed.

(** The next [n] blocks and a file mark can be written. *)
Fixpoint can_write (n : nat) (w : W) : Prop :=
  match n with
  | O => exists w', write_filemark w = (Ok tt, w')
  | S n => forall b, Z.of_nat (length b) = PROXMOX_TAPE_BLOCK_SIZE ->
           exists l w', write_block b w = (Ok l, w') /\ can_write n w'
  end.

Lemma bw_write_step base data w ps d k :
  writer_inv base data w ps -> d <> [] ->
  can_write (k + Z.to_nat ((bw_buffer_pos w + Z.of_nat (length d)) / PAYLOAD_LEN)) (bw_writer w) ->
  exists n w' ps', bw_write d w = (Ok n, w') /\ 1 <= n <= Z.of_nat (length d) /\
    writer_inv base (data ++ take (Z.to_nat n) d) w' ps' /\
    can_write (k + Z.to_nat ((bw_buffer_pos w' + Z.of_nat (length (drop (Z.to_nat n) d))) / PAYLOAD_LEN))
      (bw_writer w').
Proof.
  intros Hi Hd Hc. pose proof PAYLOAD_LEN_val as HP.
  destruct (bw_write_cases _ _ _ _ _ Hi Hd) as [Hn [(w' & E & Ew & Ep & Hi')|(Ep & Hb & Hw)]];
    set (n := turn w d) in *.
  - exists n, w', ps. do 3 (split; [done|]). rewrite Ew, Ep, length_drop.
    replace (_ + n + _) with (bw_buffer_pos w + Z.of_nat (length d)) by lia. done.
  - replace ((bw_buffer_pos w + Z.of_nat (length d)) / PAYLOAD_LEN)
      with ((0 + Z.of_nat (length (drop (Z.to_nat n) d))) / PAYLOAD_LEN + 1) in Hc
      by (rewrite length_drop, <- Z.div_add by lia; f_equal; lia).
    assert (0 <= (0 + Z.of_nat (length (drop (Z.to_nat n) d))) / PAYLOAD_LEN) by (apply Z.div_pos; lia).
    rewrite Z2Nat.inj_add, Nat.add_assoc, Nat.add_1_r in Hc by lia.
    destruct (Hc _ Hb) as (l & wr & E & Hc'). rewrite E in Hw.
    destruct Hw as (w' & E' & <- & Ep' & Hi'). eexists _, w', _. rewrite Ep'. eauto.
Qed.

(** [write_all] is total and puts all of the data in the stream. *)
Lemma bw_write_all_total base d : forall fuel data w ps k,
  (length d <= fuel)%nat -> writer_inv base data w ps ->
  can_write (k + Z.to_nat ((bw_buffer_pos w + Z.of_nat (length d)) / PAYLOAD_LEN)) (bw_writer w) ->
  exists l w' ps', bw_write_loop fuel d w = (Ok l, w') /\ writer_inv base (data ++ d) w' ps' /\
    can_write k (bw_writer w').
Proof.
  induction d as [d IH] using (induction_ltof1 _ length). unfold ltof in IH. intros fuel data w ps k Hf Hi Hc.
  destruct d as [|x d0] eqn:Ed.
  - exists (bw_leom w), w, ps. rewrite app_nil_r. split; [by destruct fuel|]. split; [done|].
    cbn [length] in Hc. rewrite Z.div_small, Nat.add_0_r in Hc; [done|]. pose proof (wi_pos _ _ _ _ Hi). lia.
  - rewrite <- Ed in *. assert (d <> []) as Hd by by subst.
    destruct fuel as [|fuel]; [subst; cbn in Hf; lia|]. clear Ed.
    destruct (bw_write_step _ _ _ _ _ _ Hi Hd Hc) as (n & w' & ps' & E & Hn & Hi' & Hc').
    edestruct (IH (drop (Z.to_nat n) d)) as (l & w2 & ps2 & E2 & Hi2 & Hc2);
      [rewrite length_drop; lia|rewrite length_drop; instantiate (1 := fuel); lia|exact Hi'|exact Hc'|].
    exists l, w2, ps2. rewrite <- app_assoc, take_drop in Hi2. split; [|done].
    cbn [bw_write_loop]. rewrite (proj2 (Z.eqb_neq _ _)) by lia. by rewrite E.
Qed.

(** The block that [finish] writes. *)
Lemma bw_finish_block base data w ps incomplete :
  writer_inv base data w ps ->
  exists b blocks (w0 : BlockedWriter W), Z.of_nat (length b) = PROXMOX_TAPE_BLOCK_SIZE /\ tape_stream 0 data incomplete blocks /\
    tape_bytes (bw_writer w) ++ b = base ++ concat blocks /\ bw_wrote_eof w0 = false /\
    bw_finish incomplete w =
      let '(r, wr) := write_block b (bw_writer w) in
      let w1 := {| bw_writer := wr; bw_buffer := bw_buffer w0; bw_buffer_pos := bw_buffer_pos w0;
                   bw_seq_nr := bw_seq_nr w0; bw_leom := bw_leom w0;
                   bw_bytes_written := u64 (bw_bytes_written w + PROXMOX_TAPE_BLOCK_SIZE);
                   bw_wrote_eof := bw_wrote_eof w0 |} in
      try! leom := r for w1 in
      let! _, w2 := bw_write_eof w1 in
      (Ok leom, w2).
Proof.
  intros [Hf Hd Ht Hs Hp Hl Hm He]. unfold full in Hl.
  set (tail := take (Z.to_nat (bw_buffer_pos w)) (th_payload (bw_buffer w))) in *.
  set (rest := drop (Z.to_nat (bw_buffer_pos w)) (th_payload (bw_buffer w))).
  set (pad := vec_clear rest).
  assert (Z.of_nat (length tail) = bw_buffer_pos w) as Htl by (unfold tail; rewrite length_take; lia).
  assert (full (tail ++ pad)) as Hfull.
  { unfold full, pad. rewrite vec_clear_zero, length_app, length_replicate. unfold rest.
    rewrite length_drop. lia. }
  set (h := block_image (end_flags incomplete) (bw_buffer_pos w) (bw_seq_nr w) (tail ++ pad)).
  exists (tape_header_bytes h), (full_blocks 0 ps ++ [last_block (0 + Z.of_nat (length ps)) incomplete tail pad]),
    {| bw_writer := bw_writer w; bw_buffer := h; bw_buffer_pos := bw_buffer_pos w;
       bw_seq_nr := u32 (bw_seq_nr w + 1); bw_leom := bw_leom w;
       bw_bytes_written := bw_bytes_written w; bw_wrote_eof := bw_wrote_eof w |}.
  split; [apply length_header_bytes, block_image_ok; [destruct incomplete; cbn; lia|done]|].
  split; [by exists ps, tail, pad|]. split.
  { rewrite Ht, concat_app. cbn [concat]. unfold last_block, h.
    by rewrite app_nil_r, app_assoc, Htl, Hs, Z.add_0_l. }
  split; [done|]. unfold bw_finish. rewrite slice_ok by lia.
  rewrite (take_ge (drop _ _)) by (rewrite length_drop; lia). fold rest pad tail.
  rewrite header_fill_image by done.
  replace (if incomplete then _ else _) with (end_flags incomplete) by by destruct incomplete. done.
Qed.

Lemma bw_finish_ok base data w ps incomplete l w' :
  writer_inv base data w ps -> bw_finish incomplete w = (Ok l, w') ->
  exists blocks, tape_stream 0 data incomplete blocks /\ tape_bytes (bw_writer w') = base ++ concat blocks /\
    bw_bytes_written w' = u64 (bw_bytes_written w + PROXMOX_TAPE_BLOCK_SIZE).
Proof.
  intros Hi. destruct (bw_finish_block _ _ _ _ incomplete Hi) as (b & blocks & w0 & _ & Hs & Hb & He & ->).
  destruct (write_block _ _) as [[l1| |] wr] eqn:E; try done. unfold bw_write_eof. cbn [bw_wrote_eof bw_writer].
  rewrite He. destruct (write_filemark wr) as [[[]| |] wr'] eqn:E'; try done. intros [= <- <-].
  exists blocks. apply write_block_ok in E. apply write_filemark_ok in E'. cbn [bw_writer bw_bytes_written].
  by rewrite E', E.
Qed.

Lemma bw_finish_total base data w ps incomplete :
  writer_inv base data w ps -> can_write 1 (bw_writer w) ->
  exists l w', bw_finish incomplete w = (Ok l, w').
Proof.
  intros Hi Hc. destruct (bw_finish_block _ _ _ _ incomplete Hi) as (b & blocks & w0 & Hl & _ & _ & He & ->).
  destruct (Hc b Hl) as (l & wr & -> & wr' & E). unfold bw_write_eof. cbn [bw_wrote_eof bw_writer].
  rewrite He, E. eauto.
Qed.

(** [write_all], when it succeeds. *)
Lemma bw_write_loop_ok base fuel : forall d data (w : BlockedWriter W) ps l w',
  writer_inv base data w ps -> bw_write_loop fuel d w = (Ok l, w') ->
  exists ps', writer_inv base (data ++ d) w' ps'.
Proof.
  induction fuel as [|fuel IH]; intros d data w ps l w' Hi; cbn [bw_write_loop];
    (destruct (Z.eqb_spec (Z.of_nat (length d)) 0) as [Hz|Hz];
      [destruct d; [|done]; intros [= <- <-]; exists ps; by rewrite app_nil_r|]); [done|].
  assert (d <> []) as Hd by by intros ->.
  destruct (bw_write_cases _ _ _ _ _ Hi Hd) as [Hn [(w1 & E & _ & _ & Hi')|(_ & _ & Hw)]];
    set (n := turn w d) in *.
  - rewrite E. intros E2. destruct (IH _ _ _ _ _ _ Hi' E2) as [ps' Hi2]. exists ps'.
    by rewrite <- app_assoc, take_drop in Hi2.
  - destruct (write_block _ _) as [[l1| |] wr]; destruct Hw as [w1 E]; [|by rewrite E|by rewrite E].
    destruct E as (E & _ & _ & Hi'). rewrite E. intros E2. destruct (IH _ _ _ _ _ _ Hi' E2) as [ps' Hi2]. exists ps'.
    by rewrite <- app_assoc, take_drop in Hi2.
Qed.
End writer.
End WriterSpec.

(** ** The reader *)
Ltac br_simpl := cbn [br_set br_read_error br_buffer br_read_pos br_got_eod br_found_end_marker
  br_incomplete br_seq_nr br_reader] in *.
Definition block_data (h : BlockHeader) : list byte := take (Z.to_nat (tape_block_size h)) (th_payload h).
(** Reads with buffers of the given sizes, until one fails. *)
Fixpoint read_many {R} `{BlockRead R} (sizes : list Z) (b : BlockedReader R)
    : res (list (list byte)) * BlockedReader R :=
  match sizes with
  | [] => (Ok [], b)
  | n :: sizes =>
      let! out, b := br_read n b in
      let! outs, b := read_many sizes b in
      (Ok (out :: outs), b)
  end.

Lemma block_size_nonneg h : 0 <= tape_block_size h.
Proof. apply le_val_range. Qed.

Module ReaderSpec.
Section reader.
Context {R : Type} `{BlockRead R}.

Lemma read_block_frame_ok h r : header_ok h -> header_ok (read_block_frame h r).2.1.
Proof.
  intros Hh. unfold read_block_frame. pose proof (length_read_block (tape_header_bytes h) r) as L.
  destruct (read_block _ _) as [x [d r']]. cbn in *. apply header_of_bytes_ok. rewrite L.
  by apply length_header_bytes.
Qed.

(** The tape holds these blocks and then a file mark. *)
Fixpoint tape_file (blocks : list (list byte)) (r : R) : Prop :=
  match blocks with
  | [] => forall buf, buf <> [] -> exists buf' r', read_block buf r = (inr BrEndOfFile, (buf', r'))
  | b :: blocks =>
      forall buf, Z.of_nat (length buf) = PROXMOX_TAPE_BLOCK_SIZE ->
      exists r', read_block buf r = (inl PROXMOX_TAPE_BLOCK_SIZE, (b, r')) /\ tape_file blocks r'
  end.

Lemma frame_step h r x blocks :
  header_ok h -> header_ok x -> tape_file (tape_header_bytes x :: blocks) r ->
  exists r', read_block_frame h r = (inl tt, (x, r')) /\ tape_file blocks r'.
Proof.
  intros Hh Hx Ht. destruct (Ht (tape_header_bytes h) (length_header_bytes _ Hh)) as (r' & E & Ht').
  exists r'. split; [|done]. unfold read_block_frame. rewrite E, Z.eqb_refl. by rewrite header_bytes_inv.
Qed.

Lemma eof_step r : tape_file [] r -> exists r', consume_eof_marker r = (Ok tt, r').
Proof.
  intros Ht. destruct (Ht (replicate 512 x00)) as (b & r' & E); [done|]. exists r'.
  unfold consume_eof_marker. by rewrite E.
Qed.

Lemma check_buffer_image flags size seq payload :
  full payload -> 0 <= size <= PAYLOAD_LEN -> (size = 0 -> flags_contain flags END_OF_STREAM = true) ->
  check_buffer (block_image flags size (u32 seq) payload) (u32 seq)
  = Ok (size, flags_contain flags END_OF_STREAM).
Proof.
  intros Hp Hs Hz. unfold check_buffer. rewrite block_image_seq, block_image_size by done.
  rewrite bool_decide_true by done. rewrite Z.eqb_refl. cbn [negb block_image header_fill th_payload th_flags].
  unfold full in Hp. rewrite Hp. rewrite (proj2 (Z.ltb_ge _ _)) by lia.
  destruct (Z.eqb_spec size 0) as [E|E]; [|done]. by rewrite Hz.
Qed.

Lemma end_flags_end incomplete : flags_contain (end_flags incomplete) END_OF_STREAM = true.
Proof. by destruct incomplete. Qed.
Lemma end_flags_incomplete incomplete : flags_contain (end_flags incomplete) INCOMPLETE = incomplete.
Proof. by destruct incomplete. Qed.

(** [rest] is what is still to be read. *)
Record reader_at (rest : list byte) (incomplete : bool) (b : BlockedReader R) : Prop := {
  ra_error : br_read_error b = false;
  ra_header : header_ok (br_buffer b);
  ra_pos : 0 <= br_read_pos b <= tape_block_size (br_buffer b);
  ra_size : tape_block_size (br_buffer b) <= PAYLOAD_LEN;
  ra_rest : let here := drop (Z.to_nat (br_read_pos b)) (block_data (br_buffer b)) in
    if br_got_eod b then br_found_end_marker b = true /\ br_incomplete b = incomplete /\ rest = here
    else br_found_end_marker b = false /\
      exists i data blocks, br_seq_nr b = u32 i /\ rest = here ++ data /\
        tape_stream i data incomplete blocks /\ tape_file blocks (br_reader b);
}.

(** The first block of a stream, as it is found on tape. *)
Lemma tape_stream_inv i data incomplete blocks :
  tape_stream i data incomplete blocks ->
  exists x blocks', blocks = tape_header_bytes x :: blocks' /\ header_ok x /\
    exists size, 0 <= size <= PAYLOAD_LEN /\ tape_block_size x = size /\
    exists e, check_buffer x (u32 i) = Ok (size, e) /\
    (if e then blocks' = [] /\ data = block_data x /\ flags_contain (th_flags x) INCOMPLETE = incomplete
     else 0 < size /\ exists data', data = block_data x ++ data' /\ tape_stream (i + 1) data' incomplete blocks').
Proof.
  pose proof PAYLOAD_LEN_val as HP. intros (ps & tail & pad & Hf & -> & Hfull & ->). destruct ps as [|p ps].
  - assert (0 <= Z.of_nat (length tail) <= PAYLOAD_LEN) as Hs.
    { unfold full in Hfull. rewrite length_app in Hfull. lia. }
    eexists _, []. split; [reflexivity|]. rewrite Z.add_0_r.
    split; [apply block_image_ok; [destruct incomplete; cbn; lia|done]|].
    eexists. split; [exact Hs|]. rewrite block_image_size by done. split; [done|]. exists true.
    rewrite check_buffer_image by (try done; intros; apply end_flags_end). rewrite end_flags_end.
    split; [done|]. split; [done|]. split; [|apply end_flags_incomplete].
    unfold block_data. rewrite block_image_size by done. cbn [block_image header_fill th_payload].
    by rewrite Nat2Z.id, take_app_length.
  - apply Forall_cons in Hf as [Hp Hf]. eexists _, _. split; [reflexivity|]. rewrite Z.add_0_r.
    split; [apply block_image_ok; [lia|done]|]. exists PAYLOAD_LEN. split; [lia|]. split; [apply block_image_size; lia|].
    exists false. rewrite check_buffer_image by (try done; lia). split; [done|]. split; [lia|].
    exists (concat ps ++ tail). split.
    + unfold block_data. rewrite block_image_size by lia. cbn [block_image header_fill th_payload concat].
      unfold full in Hp. rewrite take_ge by lia. by rewrite app_assoc.
    + exists ps, tail, pad. do 3 (split; [done|]). f_equal.
      * apply imap_ext. intros j q _. unfold compose.
        by replace (i + Z.of_nat (S j)) with (i + 1 + Z.of_nat j) by lia.
      * cbn [length]. by replace (i + Z.of_nat (S (length ps))) with (i + 1 + Z.of_nat (length ps)) by lia.
Qed.

Lemma br_open_stream data incomplete blocks r :
  tape_stream 0 data incomplete blocks -> tape_file blocks r ->
  exists b, br_open r = inl b /\ reader_at data incomplete b.
Proof.
  intros Hs Ht. destruct (tape_stream_inv _ _ _ _ Hs) as (x & bs & -> & Hx & size & Hsz & Es & e & Hc & He).
  destruct (frame_step block_header_new r x bs header_new_ok Hx Ht) as (r' & E & Ht').
  change (u32 0) with 0 in Hc. unfold br_open. rewrite E, Hc. destruct e.
  - destruct He as (-> & Hd & Hi). destruct (eof_step _ Ht') as (r2 & E2). rewrite E2.
    eexists. split; [reflexivity|]. split; br_simpl; [done|done|lia|lia|]. by rewrite drop_0.
  - destruct He as (Hpos & data' & -> & Hs'). eexists. split; [reflexivity|]. split; br_simpl; [done|done|lia|lia|].
    split; [done|]. exists 1, data', bs. by rewrite drop_0.
Qed.

Lemma br_read_block_stream check b i data incomplete blocks :
  header_ok (br_buffer b) -> br_read_error b = false -> br_got_eod b = false -> br_found_end_marker b = false ->
  br_seq_nr b = u32 i -> tape_stream i data incomplete blocks -> tape_file blocks (br_reader b) ->
  exists size b', br_read_block check b = (Ok size, b') /\ size = tape_block_size (br_buffer b') /\
    br_read_pos b' = 0 /\
    reader_at data incomplete b' /\ (size = 0 -> br_got_eod b' = true).
Proof.
  intros Hh He Hg Hm Hq Hs Ht.
  destruct (tape_stream_inv _ _ _ _ Hs) as (x & bs & -> & Hx & sz & Hsz & Es & e & Hc & Hx').
  destruct (frame_step (br_buffer b) _ x bs Hh Hx Ht) as (r' & E & Ht').
  subst sz. unfold br_read_block. rewrite E. cbn [br_set br_seq_nr]. rewrite Hq, Hc. destruct e.
  - destruct Hx' as (-> & Hd & Hi). destruct (eof_step _ Ht') as (r2 & E2). rewrite E2.
    eexists _, _. split; [reflexivity|]. split; [reflexivity|]. split; [done|]. split; [|done].
    split; br_simpl; [done|done|lia|lia|]. by rewrite drop_0.
  - destruct Hx' as (Hpos & data' & -> & Hs'). eexists _, _. split; [reflexivity|]. split; [reflexivity|]. split; [done|].
    split; [|lia]. split; br_simpl; [done|done|lia|lia|]. rewrite Hg, Hm, drop_0. split; [done|].
    exists (i + 1), data', bs. by rewrite WriterSpec.u32_succ.
Qed.

Lemma br_copy_ok rest incomplete b n :
  reader_at rest incomplete b -> 0 < n ->
  exists out b' rest', br_copy (tape_block_size (br_buffer b) - br_read_pos b) n b = (Ok out, b') /\
    rest = out ++ rest' /\ reader_at rest' incomplete b' /\ br_got_eod b' = br_got_eod b /\
    (out = [] -> br_read_pos b = tape_block_size (br_buffer b) /\ b' = b).
Proof.
  intros Hr Hn. pose proof Hr as [He Hh Hp Hs Hrest]. unfold br_copy.
  destruct (Z.leb_spec (tape_block_size (br_buffer b) - br_read_pos b) 0) as [Hz|Hz].
  - exists [], b, rest. do 4 (split; [done|]). intros _. split; [lia|done].
  - set (k := if n <? _ then n else _).
    assert (0 < k <= tape_block_size (br_buffer b) - br_read_pos b) as Hk by (unfold k; case_if; zify_bool; lia).
    pose proof (ho_payload _ Hh) as Hpl. rewrite slice_ok by lia.
    set (here := drop (Z.to_nat (br_read_pos b)) (block_data (br_buffer b))) in *.
    replace (take _ (drop _ (th_payload _))) with (take (Z.to_nat k) here).
    2:{ unfold here, block_data. rewrite !skipn_firstn_comm, take_take. f_equal. lia. }
    assert (drop (Z.to_nat (br_read_pos b + k)) (block_data (br_buffer b)) = drop (Z.to_nat k) here) as Eh.
    { unfold here. rewrite drop_drop. f_equal. lia. }
    assert (take (Z.to_nat k) here <> []) as Hne.
    { intros E. apply (f_equal length) in E. revert E. unfold here, block_data.
      rewrite length_take, length_drop, length_take. cbn [length]. lia. }
    eexists _, _, (drop (Z.to_nat k) rest). split; [reflexivity|].
    assert (exists more, rest = here ++ more) as [more Hmore].
    { destruct (br_got_eod b); [|naive_solver]. exists []. rewrite app_nil_r. naive_solver. }
    assert (Z.to_nat k <= length here)%nat as Hkl.
    { unfold here, block_data. rewrite length_drop, length_take. lia. }
    rewrite Hmore, drop_app_le by done. split; [by rewrite app_assoc, take_drop|]. split; [|done].
    split; br_simpl; [done|done|lia|done|]. rewrite Eh. destruct (br_got_eod b).
    + destruct Hrest as (? & ? & Hr'). rewrite Hmore in Hr'. do 2 (split; [done|]).
      rewrite <- (app_nil_r here) in Hr' at 2. apply app_inv_head in Hr' as ->. by rewrite app_nil_r.
    + destruct Hrest as (? & i & data & bs & ? & Hr' & ?). rewrite Hmore in Hr'.
      apply app_inv_head in Hr' as ->. split; [done|]. by exists i, data, bs.
Qed.

(** One [read]: it delivers the next bytes, and none only at the end of the stream. *)
Lemma br_read_ok rest incomplete b n :
  reader_at rest incomplete b -> 0 < n ->
  exists out b' rest', br_read n b = (Ok out, b') /\ rest = out ++ rest' /\ reader_at rest' incomplete b' /\
    (out = [] -> rest = [] /\ br_is_incomplete b' = Ok incomplete).
Proof.
  intros Hr Hn. pose proof Hr as [He Hh Hp Hs Hrest]. unfold br_read. rewrite He.
  destruct (_ && _) eqn:Hc; zify_bool.
  - rewrite H1 in Hrest. destruct Hrest as (Hm & i & data & bs & Hq & -> & Hst & Htf).
    destruct (br_read_block_stream true b i data incomplete bs) as (size & b1 & E & -> & E0 & Hr1 & Hz); try done.
    rewrite E. destruct (br_copy_ok _ _ _ n Hr1 Hn) as (out & b2 & rest' & Ec & -> & Hr2 & Hg & Hnil).
    rewrite E0, Z.sub_0_r in Ec. exists out, b2, rest'. split; [done|].
    replace (drop _ _) with (@nil byte).
    2:{ symmetry. apply drop_ge. unfold block_data. rewrite length_take. lia. }
    split; [done|]. split; [done|]. intros ->. destruct (Hnil eq_refl) as [Hpos ->].
    pose proof (ra_rest _ _ _ Hr2) as Hx. rewrite Hz in Hx by lia. cbn in Hx.
    destruct Hx as (Hf & Hi & ->). unfold br_is_incomplete. rewrite Hz, Hf, Hi by lia. split; [|done].
    cbn. apply drop_ge. unfold block_data. rewrite length_take. lia.
  - destruct (br_copy_ok _ _ _ n Hr Hn) as (out & b2 & rest' & Ec & -> & Hr2 & Hg & Hnil).
    exists out, b2, rest'. do 3 (split; [done|]). intros ->. destruct (Hnil eq_refl) as [Hpos ->].
    destruct (br_got_eod b) eqn:Heod; [|exfalso; cbn in Hc; lia].
    destruct Hrest as (Hf & Hi & Hr'). unfold br_is_incomplete. rewrite Heod, Hf, Hi. split; [|done].
    rewrite Hr'. apply drop_ge. unfold block_data. rewrite length_take. lia.
Qed.

Definition here (b : BlockedReader R) : list byte :=
  drop (Z.to_nat (br_read_pos b)) (block_data (br_buffer b)).
Lemma length_here rest incomplete b :
  reader_at rest incomplete b -> Z.of_nat (length (here b)) = tape_block_size (br_buffer b) - br_read_pos b.
Proof.
  intros [_ Hh Hp Hs _]. pose proof (ho_payload _ Hh). unfold here, block_data.
  rewrite length_drop, length_take. lia.
Qed.

Lemma here_le rest incomplete b :
  reader_at rest incomplete b -> (length (here b) <= length rest)%nat.
Proof.
  intros Hr. pose proof (ra_rest _ _ _ Hr) as Hx. cbv zeta in Hx. fold (here b) in Hx.
  destruct (br_got_eod b); [by destruct Hx as (_ & _ & ->)|].
  destruct Hx as (_ & ? & ? & ? & _ & -> & _). rewrite length_app. lia.
Qed.

Lemma skip_loop_ok fuel : forall rest incomplete b acc,
  reader_at rest incomplete b -> (length rest - length (here b) < fuel)%nat ->
  0 <= acc -> acc + Z.of_nat (length rest - length (here b)) < 2 ^ 64 ->
  exists b', skip_loop fuel acc b = (Ok (acc + Z.of_nat (length rest - length (here b))), b') /\
    br_is_incomplete b' = Ok incomplete.
Proof.
  induction fuel as [|fuel IH]; intros rest incomplete b acc Hr Hf Ha Hb; [lia|].
  pose proof Hr as [He Hh Hp Hs Hrest]. cbn [skip_loop]. fold (here b) in Hrest.
  destruct (br_got_eod b) eqn:Hg.
  - destruct Hrest as (Hm & Hi & ->). rewrite Nat.sub_diag, Z.add_0_r. exists b. split; [done|].
    unfold br_is_incomplete. by rewrite Hg, Hm, Hi.
  - destruct Hrest as (Hm & i & data & bs & Hq & -> & Hst & Htf).
    destruct (br_read_block_stream false b i data incomplete bs) as (size & b1 & E & -> & E0 & Hr1 & Hz); try done.
    rewrite E. rewrite length_app in *.
    replace (length (here b) + length data - length (here b))%nat with (length data) in * by lia.
    pose proof (length_here _ _ _ Hr1) as Hl1. rewrite E0, Z.sub_0_r in Hl1.
    pose proof (here_le _ _ _ Hr1) as Hle.
    rewrite wrapu_small by lia. destruct (br_got_eod b1) eqn:Hg1.
    + pose proof (ra_rest _ _ _ Hr1) as Hx. rewrite Hg1 in Hx. destruct Hx as (Hm1 & Hi1 & ->).
      exists b1. fold (here b1). unfold br_is_incomplete. rewrite Hg1, Hm1, Hi1. rewrite <- Hl1.
      split; [|done]. destruct fuel; cbn [skip_loop]; by rewrite Hg1.
    + destruct (IH data incomplete b1 (acc + tape_block_size (br_buffer b1)) Hr1) as (b2 & E2 & Hi2); [|lia|lia|].
      * destruct (Z.eq_dec (tape_block_size (br_buffer b1)) 0) as [Hz0|Hz0]; [by specialize (Hz Hz0)|].
        pose proof (block_size_nonneg (br_buffer b1)). lia.
      * exists b2. rewrite E2. split; [|done]. do 2 f_equal. lia.
Qed.

(** [skip_data] reads to the end and counts the bytes that were not read. *)
Lemma br_skip_data_ok rest incomplete b :
  reader_at rest incomplete b -> Z.of_nat (length rest) < 2 ^ 64 ->
  exists b', br_skip_data (S (length rest)) b = (Ok (Z.of_nat (length rest)), b') /\
    br_is_incomplete b' = Ok incomplete.
Proof.
  intros Hr Hl. pose proof (length_here _ _ _ Hr) as Hh. pose proof (ra_pos _ _ _ Hr).
  pose proof (here_le _ _ _ Hr).
  destruct (skip_loop_ok (S (length rest)) rest incomplete b (Z.of_nat (length (here b))) Hr)
    as (b' & E & Hi); [lia|lia|lia|].
  exists b'. split; [|done]. unfold br_skip_data. rewrite <- Hh.
  replace (if _ <? _ then _ else _) with (Z.of_nat (length (here b))) by (case_if; zify_bool; lia).
  rewrite E. do 2 f_equal. lia.
Qed.
End reader.
End ReaderSpec.

Section read_many.
Context {R : Type} `{BlockRead R}.
(** Reads of any sizes deliver the stream from where it is; as many reads as there are bytes, and one
    more, reach its end. *)
Lemma read_many_ok sizes : forall rest incomplete (b : BlockedReader R),
  ReaderSpec.reader_at rest incomplete b -> Forall (fun n => 0 < n) sizes ->
  exists outs b' rest', read_many sizes b = (Ok outs, b') /\ rest = concat outs ++ rest' /\
    ReaderSpec.reader_at rest' incomplete b' /\
    ((length rest < length sizes)%nat ->
     rest' = [] /\ br_is_incomplete b' = Ok incomplete /\ last outs = Some []).
Proof.
  induction sizes as [|n sizes IH]; intros rest incomplete b Hr Hs.
  { exists [], b, rest. do 3 (split; [done|]). cbn. lia. }
  apply Forall_cons in Hs as [Hn Hs].
  destruct (ReaderSpec.br_read_ok _ _ _ _ Hr Hn) as (out & b1 & rest1 & E & -> & Hr1 & Hnil).
  destruct (IH _ _ _ Hr1 Hs) as (outs & b2 & rest2 & E2 & -> & Hr2 & Hend).
  exists (out :: outs), b2, rest2. cbn [read_many]. rewrite E, E2. split; [done|].
  split; [cbn [concat]; by rewrite app_assoc|]. split; [done|]. intros Hl. destruct out as [|x out].
  - destruct (Hnil eq_refl) as [Hz Hi]. cbn [app] in Hz. rewrite Hz in Hend. destruct sizes as [|m sizes].
    + cbn in E2. simplify_eq. done.
    + destruct Hend as (-> & ? & Hlast); [cbn; lia|]. do 2 (split; [done|]). by destruct outs.
  - destruct Hend as (-> & ? & Hlast); [rewrite length_app in Hl; cbn [length] in Hl; lia|].
    do 2 (split; [done|]). by destruct outs.
Qed.
End read_many.

(** Several calls of [write_all]. *)
Fixpoint write_pieces {T} `{TapeWrite T} (pieces : list (list byte)) (t : T) : res unit * T :=
  match pieces with
  | [] => (Ok tt, t)
  | d :: pieces => let! _, t := tw_write_all d t in write_pieces pieces t
  end.

Section write_pieces.
Context {W : Type} `{BlockWriteLaws W} `{VecClearLaws}.

Lemma writer_inv_pos base data (w : BlockedWriter W) ps :
  WriterSpec.writer_inv base data w ps -> bw_buffer_pos w = Z.of_nat (length data) mod PAYLOAD_LEN.
Proof.
  intros [Hf -> _ _ Hp Hl _ _]. unfold full in *.
  assert (Z.of_nat (length (concat ps)) = Z.of_nat (length ps) * PAYLOAD_LEN) as E.
  { clear -Hf. induction Hf as [|p ps Hp Hf IH]; [done|]. cbn [concat]. unfold full in Hp.
    rewrite length_app. cbn [length]. lia. }
  rewrite length_app, length_take, Nat2Z.inj_add, E, Z.add_comm, Z.mod_add by lia.
  rewrite Z.mod_small; lia.
Qed.

Lemma write_pieces_total base pieces : forall data (w : BlockedWriter W) ps k,
  WriterSpec.writer_inv base data w ps ->
  WriterSpec.can_write (k + Z.to_nat ((bw_buffer_pos w + Z.of_nat (length (concat pieces))) / PAYLOAD_LEN))
    (bw_writer w) ->
  exists w' ps', write_pieces pieces w = (Ok tt, w') /\
    WriterSpec.writer_inv base (data ++ concat pieces) w' ps' /\ WriterSpec.can_write k (bw_writer w').
Proof.
  pose proof PAYLOAD_LEN_val as HP.
  induction pieces as [|d pieces IH]; intros data w ps k Hi Hc; pose proof (WriterSpec.wi_pos _ _ _ _ Hi).
  { exists w, ps. rewrite app_nil_r. do 2 (split; [done|]). cbn [concat length] in Hc.
    rewrite Z.div_small, Nat.add_0_r in Hc by lia. done. }
  set (a := bw_buffer_pos w + Z.of_nat (length d)) in *. set (c := Z.of_nat (length (concat pieces))) in *.
  assert (0 <= a / PAYLOAD_LEN) by (apply Z.div_pos; lia).
  assert (0 <= a mod PAYLOAD_LEN) by (apply Z.mod_pos_bound; lia).
  assert (0 <= (a mod PAYLOAD_LEN + c) / PAYLOAD_LEN) by (apply Z.div_pos; lia).
  edestruct (WriterSpec.bw_write_all_total base d (length d) data w ps
    (k + Z.to_nat ((a mod PAYLOAD_LEN + c) / PAYLOAD_LEN))) as (l & w1 & ps1 & E1 & Hi1 & Hc1); [lia|done| |].
  { fold a. rewrite <- Nat.add_assoc, <- Z2Nat.inj_add by lia.
    rewrite <- Z.div_add by lia.
    replace (a mod PAYLOAD_LEN + c + a / PAYLOAD_LEN * PAYLOAD_LEN) with (a + c)
      by (pose proof (Z.div_mod a PAYLOAD_LEN); lia).
    cbn [concat] in Hc. rewrite length_app in Hc. unfold a, c.
    by replace (bw_buffer_pos w + Z.of_nat (length d) + _)
      with (bw_buffer_pos w + Z.of_nat (length d + length (concat pieces))) by lia. }
  edestruct (IH _ w1 ps1 k Hi1) as (w2 & ps2 & E2 & Hi2 & Hc2).
  { rewrite (writer_inv_pos _ _ _ _ Hi1), length_app, Nat2Z.inj_add, <- Zplus_mod_idemp_l.
    by rewrite <- (writer_inv_pos _ _ _ _ Hi). }
  exists w2, ps2. cbn [write_pieces concat]. rewrite <- app_assoc in Hi2. split; [|done].
  change (tw_write_all d w) with (bw_write_loop (length d) d w). by rewrite E1.
Qed.

(** A new writer, any pieces and [finish]: what is on the tape afterwards. *)
Lemma write_stream_total (w : W) pieces incomplete :
  WriterSpec.can_write (S (Z.to_nat (Z.of_nat (length (concat pieces)) / PAYLOAD_LEN))) w ->
  exists w1 l w2 blocks, write_pieces pieces (bw_new w) = (Ok tt, w1) /\ bw_finish incomplete w1 = (Ok l, w2) /\
    tape_stream 0 (concat pieces) incomplete blocks /\
    tape_bytes (bw_writer w2) = tape_bytes w ++ concat blocks.
Proof.
  intros Hc. destruct (write_pieces_total (tape_bytes w) pieces [] (bw_new w) [] 1
    (WriterSpec.writer_inv_new w)) as (w1 & ps & E & Hi & Hc1); [exact Hc|].
  destruct (WriterSpec.bw_finish_total _ _ _ _ incomplete Hi Hc1) as (l & w2 & E2).
  destruct (WriterSpec.bw_finish_ok _ _ _ _ _ _ _ Hi E2) as (blocks & Hs & Ht & _).
  by exists w1, l, w2, blocks.
Qed.
End write_pieces.

(** ** Emulated tapes implement the interfaces *)
Section emulated.
Context {W : Type} `{IoWriteLaws W}.

Lemma ew_write_block_ok b (w : EmulateTapeWriter W) l w' :
  ew_write_block b w = (Ok l, w') -> io_written (ew_writer w') = io_written (ew_writer w) ++ b.
Proof.
  unfold ew_write_block. do 2 (case_if; [done|]). destruct (io_write_all _ _) as [[[]| |] wr] eqn:E; try done.
  intros [= <- <-]. by apply io_write_all_ok in E.
Qed.
Lemma ew_write_filemark_ok (w w' : EmulateTapeWriter W) :
  ew_write_filemark w = (Ok tt, w') -> io_written (ew_writer w') = io_written (ew_writer w).
Proof. unfold ew_write_filemark. case_if; [done|]. by intros [= <-]. Qed.
#[export] Instance EmulateTapeWriter_laws : BlockWriteLaws (EmulateTapeWriter W) := {
  tape_bytes w := io_written (ew_writer w);
  write_block_ok := ew_write_block_ok; write_filemark_ok := ew_write_filemark_ok;
}.

(** Without I/O errors there is room for two more blocks than [max_blocks]. *)
Lemma emulated_room n : forall w : EmulateTapeWriter W,
  (forall d u, exists u', io_write_all d u = (Ok tt, u')) -> ew_wrote_eof w = false ->
  ew_block_nr w + Z.of_nat n <= ew_max_blocks w + 2 -> WriterSpec.can_write n w.
Proof.
  induction n as [|n IH]; intros w Hio He Hn.
  - cbn. unfold ew_write_filemark. rewrite He. by eexists.
  - intros b Hb. cbn [write_block EmulateTapeWriter_BlockWrite]. unfold ew_write_block.
    rewrite Hb, Z.eqb_refl, (proj2 (Z.leb_gt _ _)) by lia. cbn [negb].
    destruct (Hio b (ew_writer w)) as [u' ->]. eexists _, _. split; [reflexivity|].
    apply IH; cbn; [done|done|lia].
Qed.
End emulated.

Section emulated_reader.
Context {R : Type} `{ReadExtLaws R}.

Lemma emulated_file blocks : forall r : R,
  Forall (fun b => Z.of_nat (length b) = PROXMOX_TAPE_BLOCK_SIZE) blocks -> unread r = concat blocks ->
  ReaderSpec.tape_file blocks (er_new r).
Proof.
  induction blocks as [|b blocks IH]; intros r Hb Hr.
  - intros buf Hbuf. destruct (read_exact_eof buf r Hbuf Hr) as (buf' & r' & E & _).
    eexists _, _. cbn [read_block EmulateTapeReader_BlockRead]. unfold er_read_block. cbn. by rewrite E.
  - apply Forall_cons in Hb as [Hb Hbs]. intros buf Hbuf. cbn [concat] in Hr.
    assert (length buf = length b) as El by lia.
    destruct (read_exact_full buf r) as (r' & E & Hr').
    { intros ->. cbn [length] in Hbuf. tape_lia. }
    { rewrite Hr, length_app. lia. }
    rewrite Hr, El, take_app_length in E. rewrite Hr, El, drop_app_length in Hr'.
    exists (er_new r'). split; [|by apply IH].
    cbn [read_block EmulateTapeReader_BlockRead]. unfold er_read_block. cbn [er_got_eof er_new er_reader].
    by rewrite E, Hb, Z.eqb_refl.
Qed.
End emulated_reader.

Lemma tape_stream_lengths i data incomplete blocks :
  tape_stream i data incomplete blocks ->
  Forall (fun b => Z.of_nat (length b) = PROXMOX_TAPE_BLOCK_SIZE) blocks.
Proof.
  intros (ps & tail & pad & Hf & -> & Hfull & ->). apply Forall_app. split.
  - apply Forall_lookup. intros j b Hj. unfold full_blocks in Hj. rewrite list_lookup_imap in Hj.
    destruct (ps !! j) as [p|] eqn:E; [|done].
    cbv [fmap option_fmap option_map] in Hj. injection Hj as <-.
    apply length_header_bytes, block_image_ok; [lia|]. by eapply Forall_lookup_1.
  - constructor; [|done]. apply length_header_bytes, block_image_ok; [destruct incomplete; cbn; lia|done].
Qed.

(** C29.  A stream survives a tape.  For any pieces that fit on the tape, all calls of [write_all] and
    [finish] succeed; reading the file back opens, every sequence of reads into non-empty buffers
    succeeds and delivers a prefix of what was written, and enough reads deliver all of it and then
    report the [incomplete] mark that was given to [finish]. *)
Theorem tape_roundtrip {W R} `{IoWriteLaws W} `{ReadExtLaws R} `{VecClearLaws}
    (w : W) (r : R) max_size pieces incomplete :
  (forall d u, exists u' : W, io_write_all d u = (Ok tt, u')) ->
  io_written w = [] ->
  Z.of_nat (length (concat pieces)) / PAYLOAD_LEN + 1 <= ew_max_blocks (ew_new w max_size) + 2 ->
  exists w1 leom w2, write_pieces pieces (bw_new (ew_new w max_size)) = (Ok tt, w1) /\
    bw_finish incomplete w1 = (Ok leom, w2) /\
    (unread r = io_written (ew_writer (bw_writer w2)) ->
     exists b, br_open (er_new r) = inl b /\
       forall sizes, Forall (fun n => 0 < n) sizes ->
       exists outs b', read_many sizes b = (Ok outs, b') /\ concat outs `prefix_of` concat pieces /\
         ((length (concat pieces) < length sizes)%nat ->
          concat outs = concat pieces /\ br_is_incomplete b' = Ok incomplete)).
Proof.
  intros Hio Hw Hfit. assert (0 <= Z.of_nat (length (concat pieces)) / PAYLOAD_LEN).
  { apply Z.div_pos; tape_lia. }
  destruct (write_stream_total (ew_new w max_size) pieces incomplete)
    as (w1 & l & w2 & blocks & E1 & E2 & Hs & Ht).
  { apply emulated_room; [done|done|]. cbn [ew_new ew_block_nr]. lia. }
  exists w1, l, w2. do 2 (split; [done|]). intros Hr.
  cbn [tape_bytes EmulateTapeWriter_laws ew_new ew_writer] in Ht. rewrite Ht, Hw in Hr.
  destruct (ReaderSpec.br_open_stream _ _ _ (er_new r) Hs) as (b & Eo & Hb).
  { apply emulated_file; [by eapply tape_stream_lengths|done]. }
  exists b. split; [done|]. intros sizes Hsz.
  destruct (read_many_ok sizes _ _ _ Hb Hsz) as (outs & b' & rest & E & Er & _ & Hend).
  exists outs, b'. split; [done|]. split; [by exists rest|]. intros Hl.
  destruct (Hend Hl) as (-> & Hi & _). by rewrite Er, app_nil_r.
Qed.

(** ** Whatever is on the tape *)
Section sound.
Context {R : Type} `{BlockRead R}.

(** The blocks that a reader gave, one after the other. *)
Inductive frames (r : R) : list BlockHeader -> R -> Prop :=
| frames_nil : frames r [] r
| frames_snoc hs r1 buf d r2 :
    frames r hs r1 -> read_block buf r1 = (inl PROXMOX_TAPE_BLOCK_SIZE, (d, r2)) ->
    frames r (hs ++ [tape_header_of_bytes d]) r2.
(** The block with number [i]. *)
Record valid_block (i : Z) (is_last : bool) (h : BlockHeader) : Prop := {
  vb_magic : th_magic h = PROXMOX_TAPE_BLOCK_HEADER_MAGIC_1_0;
  vb_seq : block_seq_nr h = u32 i;
  vb_size : tape_block_size h <= Z.of_nat (length (th_payload h));
  vb_nonempty : is_last = false -> 0 < tape_block_size h;
  vb_last : flags_contain (th_flags h) END_OF_STREAM = is_last;
}.
Definition inner_blocks (hs : list BlockHeader) : Prop :=
  forall i h, hs !! i = Some h -> valid_block (Z.of_nat i) false h.
(** From [r] on there is a complete stream with this content: blocks in sequence, the end marker on
    the last one only, and a file mark behind it. *)
Definition complete_stream (r : R) (data : list byte) (incomplete : bool) : Prop :=
  exists hs h r1 buf r2, frames r (hs ++ [h]) r1 /\ inner_blocks hs /\
    valid_block (Z.of_nat (length hs)) true h /\
    read_block (replicate 512 x00) r1 = (inr BrEndOfFile, (buf, r2)) /\
    data = concat (block_data <$> hs) ++ block_data h /\
    incomplete = flags_contain (th_flags h) INCOMPLETE.

Lemma check_buffer_valid h i size e :
  check_buffer h (u32 i) = Ok (size, e) -> size = tape_block_size h /\ valid_block i e h.
Proof.
  unfold check_buffer. intros E. repeat (case_if_in E; [done|]). injection E as <- <-. split; [done|].
  zify_bool. pose proof (block_size_nonneg h).
  split; [done|done|lia| |done]. intros Hf. rewrite Hf in *. destruct (Z.eqb_spec (tape_block_size h) 0); [done|lia].
Qed.

Lemma frame_frames r hs r1 buf h x r2 :
  frames r hs r1 -> read_block_frame buf r1 = (inl x, (h, r2)) -> frames r (hs ++ [h]) r2.
Proof.
  unfold read_block_frame. destruct (read_block _ _) as [[n|e] [d r']] eqn:E; [|done].
  intros Hf Ef. case_if_in Ef; [done|]. injection Ef as <- <- <-. zify_bool. subst.
  by eapply frames_snoc.
Qed.

Lemma consume_eof_inv (r r' : R) :
  consume_eof_marker r = (Ok tt, r') -> exists buf, read_block (replicate 512 x00) r = (inr BrEndOfFile, (buf, r')).
Proof.
  unfold consume_eof_marker. destruct (read_block _ _) as [[n|[]] [d r2]] eqn:E; try done.
  intros [= <-]. by exists d.
Qed.

(** The state of a reader opened on [r] that has delivered [out]. *)
Record delivered (r : R) (out : list byte) (b : BlockedReader R) (hs : list BlockHeader) : Prop := {
  de_inner : inner_blocks hs;
  de_valid : valid_block (Z.of_nat (length hs)) (br_got_eod b) (br_buffer b);
  de_seq : br_seq_nr b = u32 (Z.of_nat (length hs) + 1);
  de_pos : 0 <= br_read_pos b <= tape_block_size (br_buffer b);
  de_found : br_found_end_marker b = br_got_eod b;
  de_out : out = concat (block_data <$> hs) ++ take (Z.to_nat (br_read_pos b)) (th_payload (br_buffer b));
  de_frames : if br_got_eod b
    then (exists r1 buf, frames r (hs ++ [br_buffer b]) r1 /\
           read_block (replicate 512 x00) r1 = (inr BrEndOfFile, (buf, br_reader b))) /\
         br_incomplete b = flags_contain (th_flags (br_buffer b)) INCOMPLETE
    else frames r (hs ++ [br_buffer b]) (br_reader b);
}.

Lemma br_open_delivered r b : br_open r = inl b -> delivered r [] b [].
Proof.
  unfold br_open. destruct (read_block_frame _ _) as [[x|e] [h r1]] eqn:E; [|done].
  apply (frame_frames r [] _ _ _ _ _ (frames_nil r)) in E.
  destruct (check_buffer h 0) as [[size e]| |] eqn:Hc; try done.
  change 0 with (u32 0) in Hc. destruct (check_buffer_valid _ _ _ _ Hc) as [-> Hv].
  pose proof (block_size_nonneg h). destruct e.
  - destruct (consume_eof_marker r1) as [[[]| |] r2] eqn:Hm; try done. intros [= <-].
    apply consume_eof_inv in Hm as [buf Hm].
    split; br_simpl; [done|done|done|lia|done|done|]. split; [|done]. by exists r1, buf.
  - intros [= <-]. split; br_simpl; [done|done|done|lia|done|done|done].
Qed.

Lemma inner_blocks_snoc hs h :
  inner_blocks hs -> valid_block (Z.of_nat (length hs)) false h -> inner_blocks (hs ++ [h]).
Proof.
  intros Hi Hv i x. rewrite lookup_app_Some. intros [Hx|[Hl Hx]]; [by apply Hi|].
  apply list_lookup_singleton_Some in Hx as [Hz <-]. by replace i with (length hs) by lia.
Qed.

(** A refill moves to the next block; it fails when the stream ends without a marker. *)
Lemma br_read_block_delivered r out b hs size b' :
  delivered r out b hs -> br_got_eod b = false -> br_read_pos b = tape_block_size (br_buffer b) ->
  br_read_block true b = (Ok size, b') ->
  delivered r out b' (hs ++ [br_buffer b]) /\ br_read_pos b' = 0 /\ size = tape_block_size (br_buffer b').
Proof.
  intros [Hi Hv Hq Hp Hf Ho Hfr] Hg Hpos. rewrite Hg in *. unfold br_read_block.
  destruct (read_block_frame _ _) as [[x|e] [h r1]] eqn:E.
  2:{ br_simpl. rewrite Hf. by destruct e. }
  apply (frame_frames r _ _ _ _ _ _ Hfr) in E. br_simpl.
  destruct (check_buffer h _) as [[sz e]| |] eqn:Hc; try done. rewrite Hq in Hc.
  destruct (check_buffer_valid _ _ _ _ Hc) as [-> Hv']. pose proof (block_size_nonneg h).
  assert (Z.of_nat (length (hs ++ [br_buffer b])) = Z.of_nat (length hs) + 1) as El
    by (rewrite length_app; cbn; lia).
  assert (out = concat (block_data <$> hs ++ [br_buffer b]) ++ take (Z.to_nat 0) (th_payload h)) as Ho'.
  { rewrite Ho, Hpos, fmap_app, concat_app. cbn. by rewrite !app_nil_r. }
  pose proof (inner_blocks_snoc _ _ Hi Hv).
  destruct e.
  - destruct (consume_eof_marker r1) as [[[]| |] r2] eqn:Hm; try done. intros [= <- <-].
    apply consume_eof_inv in Hm as [buf Hm]. split; [|done].
    split; br_simpl; rewrite ?El, ?Hq, ?WriterSpec.u32_succ; try done. split; [|done]. by exists r1, buf.
  - intros [= <- <-]. split; [|done].
    split; br_simpl; rewrite ?El, ?Hq, ?WriterSpec.u32_succ, ?Hg, ?Hf; done.
Qed.

Lemma br_copy_delivered r out b hs n d b' :
  delivered r out b hs -> 0 < n -> br_copy (tape_block_size (br_buffer b) - br_read_pos b) n b = (Ok d, b') ->
  delivered r (out ++ d) b' hs /\ (d = [] -> b' = b /\ br_read_pos b = tape_block_size (br_buffer b)).
Proof.
  intros Hd Hn. pose proof Hd as [Hi Hv Hq Hp Hf Ho Hfr]. pose proof (vb_size _ _ _ Hv) as Hs. unfold br_copy.
  destruct (Z.leb_spec (tape_block_size (br_buffer b) - br_read_pos b) 0) as [Hz|Hz].
  - intros [= <- <-]. rewrite app_nil_r. split; [done|]. intros _. split; [done|lia].
  - set (k := if n <? _ then n else _).
    assert (0 < k <= tape_block_size (br_buffer b) - br_read_pos b) as Hk by (unfold k; case_if; zify_bool; lia).
    rewrite slice_ok by lia. intros [= <- <-]. split.
    + split; br_simpl; try done; [lia|]. rewrite Ho, <- app_assoc. f_equal.
      rewrite take_take_drop. f_equal. lia.
    + intros E%(f_equal length). rewrite length_take, length_drop in E. cbn [length] in E. lia.
Qed.

(** A read that succeeds; no byte is delivered only behind the last block. *)
Lemma br_read_delivered r out b hs n d b' :
  delivered r out b hs -> 0 < n -> br_read n b = (Ok d, b') ->
  exists hs', delivered r (out ++ d) b' hs' /\
    (d = [] -> br_got_eod b' = true /\ br_read_pos b' = tape_block_size (br_buffer b')).
Proof.
  intros Hd Hn. unfold br_read. case_if; [done|]. destruct (_ && _) eqn:Hc.
  - zify_bool. pose proof (de_pos _ _ _ _ Hd).
    destruct (br_read_block true b) as [[size| |] b1] eqn:E; try done. intros E1.
    apply (br_read_block_delivered _ _ _ _ _ _ Hd) in E as (Hd1 & Hp & ->); [|done|lia].
    rewrite <- (Z.sub_0_r (tape_block_size _)), <- Hp in E1.
    destruct (br_copy_delivered _ _ _ _ _ _ _ Hd1 Hn E1) as [Hd2 Hnil]. eexists. split; [exact Hd2|].
    intros Hz. destruct (Hnil Hz) as [-> He]. split; [|done].
    destruct (br_got_eod b1) eqn:Hg; [done|]. exfalso.
    pose proof (de_valid _ _ _ _ Hd1) as Hv. rewrite Hg in Hv. pose proof (vb_nonempty _ _ _ Hv eq_refl). lia.
  - intros E1. destruct (br_copy_delivered _ _ _ _ _ _ _ Hd Hn E1) as [Hd2 Hnil]. exists hs. split; [done|].
    intros Hz. destruct (Hnil Hz) as [-> He]. split; [|done].
    rewrite He, Z.sub_diag in Hc. cbn in Hc. by destruct (br_got_eod b).
Qed.

Lemma read_many_delivered r sizes : forall out b hs outs b',
  delivered r out b hs -> Forall (fun n => 0 < n) sizes -> read_many sizes b = (Ok outs, b') ->
  exists hs', delivered r (out ++ concat outs) b' hs' /\
    (last outs = Some [] -> br_got_eod b' = true /\ br_read_pos b' = tape_block_size (br_buffer b')).
Proof.
  induction sizes as [|n sizes IH]; intros out b hs outs b' Hd Hs.
  { intros [= <- <-]. exists hs. by rewrite app_nil_r. }
  apply Forall_cons in Hs as [Hn Hs]. cbn [read_many].
  destruct (br_read n b) as [[d| |] b1] eqn:E; try done.
  destruct (read_many sizes b1) as [[ds| |] b2] eqn:E2; try done. intros [= <- <-].
  destruct (br_read_delivered _ _ _ _ _ _ _ Hd Hn E) as (hs1 & Hd1 & Hnil).
  destruct (IH _ _ _ _ _ Hd1 Hs E2) as (hs2 & Hd2 & Hlast). exists hs2.
  split; [cbn [concat]; by rewrite app_assoc|]. destruct ds as [|x ds]; [|exact Hlast].
  intros [= ->]. destruct sizes; [cbn in E2; injection E2 as <-; by apply Hnil|].
  cbn [read_many] in E2. destruct (br_read _ b1) as [[]]; [|done|done]. by destruct (read_many _ _) as [[]].
Qed.

(** C30.  Nothing that is not a complete stream is taken for one.  On any device and any content of the tape:
    when a stream opens and is read with non-empty buffers until a read delivers nothing, then the tape
    had a complete stream (every block with the magic number and the next sequence number, only
    the last one with the end marker, and behind it a file mark), the bytes delivered are exactly its
    payloads, and the incomplete flag is that of the last block. *)
Theorem tape_read_sound r b sizes outs b' :
  br_open r = inl b -> Forall (fun n => 0 < n) sizes -> read_many sizes b = (Ok outs, b') ->
  last outs = Some [] -> complete_stream r (concat outs) (br_incomplete b').
Proof.
  intros Ho%br_open_delivered Hs Hr Hl.
  destruct (read_many_delivered _ _ _ _ _ _ _ Ho Hs Hr) as (hs & [Hi Hv Hq Hp Hf Hout Hfr] & Hlast).
  destruct (Hlast Hl) as [Hg He]. rewrite Hg in *. destruct Hfr as [(r1 & buf & Hfr & Hm) Hinc].
  exists hs, (br_buffer b'), r1, buf, (br_reader b'). do 4 (split; [done|]). split; [|done].
  unfold block_data at 2. rewrite <- He. exact Hout.
Qed.
End sound.

(** ** A tape in memory *)
Module TapeExample.
#[export] Instance mem_write : IoWrite (list byte) := { io_write_all d w := (Ok tt, w ++ d) }.
#[export, refine] Instance mem_write_laws : IoWriteLaws (list byte) := { io_written w := w }.
Proof. by intros d w w' [= <-]. Defined.
#[export] Instance mem_clear : VecClear := { vec_clear l := replicate (length l) x00 }.
#[export, refine] Instance mem_clear_laws : VecClearLaws := {}.
Proof. done. Defined.

Definition mem_read (buf r : list byte) : res bool * (list byte * list byte) :=
  if (length r =? 0)%nat then (Ok false, (buf, r))
  else if (length r <? length buf)%nat then (Err "unexpected EOF", (r ++ drop (length r) buf, []))
  else (Ok true, (take (length buf) r, drop (length buf) r)).
#[export, refine] Instance mem_read_ext : ReadExt (list byte) := { read_exact_or_eof := mem_read }.
Proof.
  intros buf r. unfold mem_read. destruct (Nat.eqb_spec (length r) 0); [done|].
  destruct (Nat.ltb_spec (length r) (length buf)); cbn; [rewrite length_app, length_drop|rewrite length_take]; lia.
Defined.
#[export, refine] Instance mem_read_laws : ReadExtLaws (list byte) := { unread r := r }.
Proof.
  - intros buf r Hb Hl. exists (drop (length buf) r). split; [|done]. cbn. unfold mem_read.
    destruct buf as [|x buf]; [done|]. rewrite (proj2 (Nat.eqb_neq _ _)), (proj2 (Nat.ltb_ge _ _)) by (cbn in *; lia).
    done.
  - intros buf r _ ->. by exists buf, [].
  - intros buf r Hl. cbn. unfold mem_read. rewrite (proj2 (Nat.eqb_neq _ _)), (proj2 (Nat.ltb_lt _ _)) by lia. eauto.
Defined.

Definition abc : list byte := byte_of_Z <$> [65; 66; 67].
Definition abc_tape : list byte := last_block 0 false abc (replicate (Z.to_nat (PAYLOAD_LEN - 3)) x00).
Lemma abc_stream : tape_stream 0 abc false [abc_tape].
Proof.
  exists [], abc, (replicate (Z.to_nat (PAYLOAD_LEN - 3)) x00). split; [constructor|]. split; [done|]. split; [|done].
  unfold full. rewrite length_app, length_replicate. cbn [length abc fmap list_fmap]. tape_lia.
Qed.
Lemma abc_read : exists b outs b', br_open (er_new abc_tape) = inl b /\
  read_many [2; 2; 2; 2] b = (Ok outs, b') /\ last outs = Some [] /\ concat outs = abc.
Proof.
  destruct (ReaderSpec.br_open_stream _ _ _ (er_new abc_tape) abc_stream) as (b & E & Hb).
  { apply emulated_file; [apply (tape_stream_lengths _ _ _ _ abc_stream)|]. cbn [concat]. by rewrite app_nil_r. }
  destruct (read_many_ok [2; 2; 2; 2] _ _ _ Hb) as (outs & b' & rest & E2 & Er & _ & Hend).
  { repeat constructor. }
  destruct Hend as (-> & _ & Hl); [cbn; lia|]. exists b, outs, b'. rewrite app_nil_r in Er.
  exact (conj E (conj E2 (conj Hl (eq_sym Er)))).
Qed.
End TapeExample.
Import TapeExample.

Lemma tape_roundtrip_witness :
  exists w1 leom w2,
    write_pieces [TapeExample.abc; TapeExample.abc] (bw_new (ew_new (W := list byte) [] 1000000)) = (Ok tt, w1) /\
    bw_finish true w1 = (Ok leom, w2) /\
    exists b, br_open (er_new (io_written (ew_writer (bw_writer w2)))) = inl b.
Proof.
  destruct (tape_roundtrip (W := list byte) (R := list byte) [] [] 1000000
    [TapeExample.abc; TapeExample.abc] true) as (w1 & l & w2 & E1 & E2 & _);
    [intros d u; by eexists|reflexivity|rewrite PAYLOAD_LEN_val; vm_compute; discriminate|].
  exists w1, l, w2. split; [exact E1|]. split; [exact E2|].
  destruct (tape_roundtrip (W := list byte) (R := list byte) [] (io_written (ew_writer (bw_writer w2))) 1000000
    [TapeExample.abc; TapeExample.abc] true) as (w1' & l' & w2' & E1' & E2' & Hr);
    [intros d u; by eexists|reflexivity|rewrite PAYLOAD_LEN_val; vm_compute; discriminate|].
  rewrite E1 in E1'. injection E1' as <-. rewrite E2 in E2'. injection E2' as <- <-.
  destruct (Hr eq_refl) as (b & Hb & _). exists b. exact Hb.
Defined.

Lemma tape_read_sound_witness :
  exists incomplete, complete_stream (er_new TapeExample.abc_tape) TapeExample.abc incomplete.
Proof.
  destruct TapeExample.abc_read as (b & outs & b' & E & Er & El & Ec). exists (br_incomplete b').
  rewrite <- Ec. apply (tape_read_sound (er_new TapeExample.abc_tape) b [2; 2; 2; 2] outs b');
    [exact E|repeat constructor|exact Er|exact El].
Defined.
