(* ===== verification/ChunkArchive.v ===== *)
(** * Chunk archives, [src/tape/file_formats/chunk_archive.rs]

    An archive is a [MediaContentHeader] and a sequence of chunks, each behind a header with its digest
    and size, written through the trait [TapeWrite].  The archive may be closed at the end of the media
    within a chunk.  The JSON of the archive header, the new uuid and the clock are arguments. *)

From S2P Require Import Prelude IndexFile DataBlob Tape.
From Stdlib Require Import Strings.Byte.

Definition PROXMOX_BACKUP_CHUNK_ARCHIVE_MAGIC_1_1 : list byte :=
  byte_of_Z <$> [109; 49; 99; 109; 215; 2; 131; 191].
Definition PROXMOX_BACKUP_CHUNK_ARCHIVE_ENTRY_MAGIC_1_0 : list byte :=
  byte_of_Z <$> [72; 87; 109; 242; 222; 66; 143; 220].

Record ChunkArchiveEntryHeader := { ce_magic : list byte; ce_digest : list byte; ce_size : Z }.
(** [to_le] and the packed struct as bytes; the decoder reads it in place. *)
Definition SIZE_ENTRY_HEADER : nat := 48.
Definition archive_entry_bytes (h : ChunkArchiveEntryHeader) : list byte :=
  ce_magic h ++ ce_digest h ++ le_bytes 8 (ce_size h).
Definition entry_of_bytes (d : list byte) : ChunkArchiveEntryHeader :=
  {| ce_magic := take 8 d; ce_digest := take 32 (drop 8 d); ce_size := le_val (take 8 (drop 40 d)) |}.

(** ** [ChunkArchiveWriter] *)
Section writer.
Context {T : Type} `{TapeWrite T}.

(** [caw_taken]: the writer as it was when it had been taken out and went out of scope. *)
Record ChunkArchiveWriter := {
  caw_writer : option T; caw_bytes : Z; caw_close_on_leom : bool; caw_taken : option T;
}.

Definition caw_new (header_json : string -> res (list byte)) (uuid : list byte) (ctime : Z)
    (writer : T) (store : string) (close_on_leom : bool) : res (ChunkArchiveWriter * list byte) * T :=
  try! header_data := header_json store for writer in
  let header := media_header_new PROXMOX_BACKUP_CHUNK_ARCHIVE_MAGIC_1_1 uuid ctime
                  (u32 (Z.of_nat (length header_data))) in
  let! _, writer := write_header header header_data writer in
  (Ok ({| caw_writer := Some writer; caw_bytes := 0; caw_close_on_leom := close_on_leom;
          caw_taken := None |}, uuid), writer).

Definition caw_bytes_written (w : ChunkArchiveWriter) : Z :=
  match caw_writer w with Some t => tw_bytes_written t | None => caw_bytes w end.

Definition caw_write_all (data : list byte) (w : ChunkArchiveWriter) : res bool * ChunkArchiveWriter :=
  match caw_writer w with
  | Some t =>
      let '(r, t) := tw_write_all data t in
      (r, {| caw_writer := Some t; caw_bytes := caw_bytes w;
             caw_close_on_leom := caw_close_on_leom w; caw_taken := caw_taken w |})
  | None => (Err "detected write after archive finished - internal error", w)
  end.

(** The writer is taken out and finished; [bytes] is set only where the code gets so far. *)
Definition caw_take (t : T) (bytes : Z) (w : ChunkArchiveWriter) : ChunkArchiveWriter :=
  {| caw_writer := None; caw_bytes := bytes; caw_close_on_leom := caw_close_on_leom w;
     caw_taken := Some t |}.

(** The loop over the pieces of a chunk. *)
Fixpoint chunk_loop (fuel : nat) (blob_data : list byte) (start : Z) (w : ChunkArchiveWriter)
    : res bool * ChunkArchiveWriter :=
  let len := Z.of_nat (length blob_data) in
  if len <=? start then (Ok true, w) else
  match fuel with
  | O => (Panic "fuel", w)
  | S fuel =>
      let end_ := start + PROXMOX_TAPE_BLOCK_SIZE in
      let chunk_is_complete := len <? end_ in
      try! piece := slice blob_data start (if chunk_is_complete then len else end_) for w in
      let! leom, w := caw_write_all piece w in
      if leom && caw_close_on_leom w then
        try! writer := unwrap (caw_writer w) for w in
        let '(r, writer) := tw_finish false writer in
        try! _ := r for (caw_take writer (caw_bytes w) w) in
        (Ok chunk_is_complete, caw_take writer (tw_bytes_written writer) w)
      else chunk_loop fuel blob_data end_ w
  end.
Definition try_write_chunk (digest : list byte) (blob : DataBlob) (w : ChunkArchiveWriter)
    : res bool * ChunkArchiveWriter :=
  match caw_writer w with
  | None => (Ok false, w)
  | Some _ =>
      let head := {| ce_magic := PROXMOX_BACKUP_CHUNK_ARCHIVE_ENTRY_MAGIC_1_0; ce_digest := digest;
                     ce_size := raw_size blob |} in
      let! _, w := caw_write_all (archive_entry_bytes head) w in
      chunk_loop (length (raw_data blob)) (raw_data blob) 0 w
  end.

Definition caw_finish (w : ChunkArchiveWriter) : res bool * ChunkArchiveWriter :=
  match caw_writer w with
  | Some t =>
      let bytes := tw_bytes_written t in
      let '(r, t) := tw_finish false t in
      (r, caw_take t bytes w)
  | None => (Ok true, w)
  end.

(** ** [write_chunk_archive] of [src/tape/pool_writer/mod.rs]

    [chunks] is what the peekable iterator will deliver; what it has not consumed is returned. *)
Fixpoint archive_loop (max_size : Z) (chunks : list (res (list byte * DataBlob)))
    (chunk_list : list (list byte)) (w : ChunkArchiveWriter)
    : res (list (list byte) * bool * list (res (list byte * DataBlob))) * ChunkArchiveWriter :=
  match chunks with
  | [] => (Ok (chunk_list, false, []), w)
  | Err e :: _ => (Err e, w)
  | Panic e :: _ => (Panic e, w)
  | Ok (digest, blob) :: rest =>
      let! written, w := try_write_chunk digest blob w in
      if written : bool then
        if max_size <? caw_bytes_written w then (Ok (chunk_list ++ [digest], false, rest), w)
        else archive_loop max_size rest (chunk_list ++ [digest]) w
      else (Ok (chunk_list, true, chunks), w)
  end.
Record archive_result := {
  ar_chunk_list : list (list byte); ar_uuid : list byte; ar_leom : bool; ar_bytes : Z;
  ar_rest : list (res (list byte * DataBlob)); ar_writer : ChunkArchiveWriter;
}.
Definition write_chunk_archive (header_json : string -> res (list byte)) (uuid : list byte) (ctime : Z)
    (writer : T) (chunks : list (res (list byte * DataBlob))) (store : string) (max_size : Z)
    : res archive_result :=
  let? (w, content_uuid) := (caw_new header_json uuid ctime writer store true).1 in
  match archive_loop max_size chunks [] w with
  | (Ok (chunk_list, leom, rest), w) =>
      match caw_finish w with
      | (Ok _, w) => Ok {| ar_chunk_list := chunk_list; ar_uuid := content_uuid; ar_leom := leom;
                           ar_bytes := caw_bytes_written w; ar_rest := rest; ar_writer := w |}
      | (Err e, _) => Err e
      | (Panic e, _) => Panic e
      end
  | (Err e, _) => Err e
  | (Panic e, _) => Panic e
  end.
End writer.
Arguments archive_result : clear implicits.
Arguments ChunkArchiveWriter : clear implicits.

(** ** [ChunkArchiveDecoder] *)

(** [ReadExt::read_exact_allocated] of proxmox-io: as many bytes as asked for, else an error, which tells
    an early end of the data from other failures. *)
Inductive IoError := UnexpectedEof | IoOther (e : string).
Class ReadAllocated (R : Type) := { read_exact_allocated : Z -> R -> (list byte + IoError) * R }.
Class ReadAllocatedLaws (R : Type) `{ReadExtLaws R} `{ReadAllocated R} := {
  read_allocated_full n r : 0 <= n -> n <= Z.of_nat (length (unread r)) ->
    exists r', read_exact_allocated n r = (inl (take (Z.to_nat n) (unread r)), r') /\
               unread r' = drop (Z.to_nat n) (unread r);
  read_allocated_short n r : Z.of_nat (length (unread r)) < n ->
    exists r', read_exact_allocated n r = (inr UnexpectedEof, r');
}.

Section decoder.
Context {R : Type} `{ReadExt R} `{ReadAllocated R} (P : Prims).

Definition next_chunk (r : R) : res (option (list byte * DataBlob)) * R :=
  let '(x, (data, r)) := read_exact_or_eof (replicate SIZE_ENTRY_HEADER x00) r in
  match x with
  | Err e => (Err e, r)
  | Panic e => (Panic e, r)
  | Ok false => (Ok None, r)
  | Ok true =>
      let header := entry_of_bytes data in
      if negb (bool_decide (ce_magic header = PROXMOX_BACKUP_CHUNK_ARCHIVE_ENTRY_MAGIC_1_0))
      then (Err "wrong magic number", r) else
      let '(x, r) := read_exact_allocated (ce_size header) r in
      match x with
      | inr UnexpectedEof => (Ok None, r)
      | inr (IoOther e) => (Err e, r)
      | inl raw_data =>
          try! blob := from_raw raw_data for r in
          try! _ := verify_crc P blob for r in
          (Ok (Some (ce_digest header, blob)), r)
      end
  end.
End decoder.
