(* ===== verification/ChunkArchiveSpec.v ===== *)
(** * Correctness of chunk archives

    Every chunk that [write_chunk_archive] reports as written is decoded from the archive again, whether
    or not the end of the media closed it early. *)

From S2P Require Import Prelude IndexFile DataBlob DataBlobSpec Tape TapeSpec ChunkArchive.
From Stdlib Require Import Strings.Byte.

#[local] Opaque PROXMOX_TAPE_BLOCK_SIZE PAYLOAD_LEN PROXMOX_BACKUP_CHUNK_ARCHIVE_ENTRY_MAGIC_1_0.

(** What an archive relies on: the bytes written so far are in the stream, [finish] closes it. *)
Class TapeWriteLaws (T : Type) `{TapeWrite T} := {
  tw_stream : list byte -> T -> Prop;
  tw_closed : list byte -> bool -> T -> Prop;
  tw_write_all_ok d x t l t' : tw_stream d t -> tw_write_all x t = (Ok l, t') -> tw_stream (d ++ x) t';
  tw_finish_ok d inc t l t' : tw_stream d t -> tw_finish inc t = (Ok l, t') -> tw_closed d inc t';
}.

(** [BlockedWriter] provides this, for the part of the tape behind [base]. *)
Section blocked_writer.
Context {W : Type} `{BlockWriteLaws W} `{VecClearLaws} (base : list byte).
Lemma blocked_write_all_ok d x (t : BlockedWriter W) l t' :
  (exists ps, WriterSpec.writer_inv base d t ps) -> tw_write_all x t = (Ok l, t') ->
  exists ps, WriterSpec.writer_inv base (d ++ x) t' ps.
Proof. intros [ps Hi] E. exact (WriterSpec.bw_write_loop_ok _ _ _ _ _ _ _ _ Hi E). Qed.
Lemma blocked_finish_ok d inc (t : BlockedWriter W) l t' :
  (exists ps, WriterSpec.writer_inv base d t ps) -> tw_finish inc t = (Ok l, t') ->
  exists blocks, tape_stream 0 d inc blocks /\ tape_bytes (bw_writer t') = base ++ concat blocks.
Proof.
  intros [ps Hi] E. destruct (WriterSpec.bw_finish_ok _ _ _ _ _ _ _ Hi E) as (blocks & ? & ? & _).
  by exists blocks.
Qed.
Definition BlockedWriter_laws : TapeWriteLaws (BlockedWriter W) := {|
  tw_stream d t := exists ps, WriterSpec.writer_inv base d t ps;
  tw_closed d inc t := exists blocks, tape_stream 0 d inc blocks /\
    tape_bytes (bw_writer t) = base ++ concat blocks;
  tw_write_all_ok := blocked_write_all_ok; tw_finish_ok := blocked_finish_ok;
|}.
End blocked_writer.

(** ** Entries *)
Definition chunk_head (c : list byte * DataBlob) : list byte :=
  archive_entry_bytes {| ce_magic := PROXMOX_BACKUP_CHUNK_ARCHIVE_ENTRY_MAGIC_1_0; ce_digest := c.1;
                 ce_size := raw_size c.2 |}.
Definition entry (c : list byte * DataBlob) : list byte := chunk_head c ++ raw_data c.2.
(** A chunk that can be written: a digest, and a blob that is valid. *)
Definition chunk_ok (P : Prims) (c : list byte * DataBlob) : Prop :=
  length c.1 = 32%nat /\ raw_size c.2 < 2 ^ 64 /\ from_raw (raw_data c.2) = Ok c.2 /\ verify_crc P c.2 = Ok tt.

Lemma length_entry_magic : length PROXMOX_BACKUP_CHUNK_ARCHIVE_ENTRY_MAGIC_1_0 = 8%nat.
Proof. reflexivity. Qed.
Lemma length_chunk_head P c : chunk_ok P c -> length (chunk_head c) = SIZE_ENTRY_HEADER.
Proof.
  intros [Hd _]. unfold chunk_head, archive_entry_bytes. cbn [ce_magic ce_digest ce_size].
  by rewrite !length_app, length_entry_magic, Hd, length_le_bytes.
Qed.
Lemma entry_of_chunk_head P c : chunk_ok P c ->
  entry_of_bytes (chunk_head c) =
  {| ce_magic := PROXMOX_BACKUP_CHUNK_ARCHIVE_ENTRY_MAGIC_1_0; ce_digest := c.1; ce_size := raw_size c.2 |}.
Proof.
  intros (Hd & Hs & _). unfold chunk_head, archive_entry_bytes, entry_of_bytes. cbn [ce_magic ce_digest ce_size].
  pose proof length_entry_magic as Hm. set (m := PROXMOX_BACKUP_CHUNK_ARCHIVE_ENTRY_MAGIC_1_0) in *.
  rewrite (take_app_length' m), (drop_app_length' m), (take_app_length' c.1) by done.
  replace (drop 40 _) with (le_bytes 8 (raw_size c.2)).
  2:{ change 40%nat with (8 + 32)%nat. by rewrite <- drop_drop, (drop_app_length' m), (drop_app_length' c.1). }
  rewrite take_ge by (by rewrite length_le_bytes). f_equal. apply le_val_u64_bytes.
  unfold in_u64, U64_MAX, raw_size in *. lia.
Qed.

(** ** The writer *)
Section writer.
Context {T : Type} `{TapeWriteLaws T}.

(** The archive holds [d], and is open or closed. *)
Definition holds (d : list byte) (w : ChunkArchiveWriter T) : Prop :=
  match caw_writer w with
  | Some t => tw_stream d t
  | None => exists t, caw_taken w = Some t /\ tw_closed d false t
  end.
Definition is_open (w : ChunkArchiveWriter T) : Prop := caw_writer w <> None.

Lemma caw_write_all_ok d x w l w' :
  is_open w -> holds d w -> caw_write_all x w = (Ok l, w') -> holds (d ++ x) w' /\ is_open w'.
Proof.
  unfold holds, is_open, caw_write_all. destruct (caw_writer w) as [t|]; [|done]. intros _ Hs.
  destruct (tw_write_all x t) as [r t'] eqn:E. intros [= -> <-]. split; [|done]. cbn.
  by eapply tw_write_all_ok.
Qed.

(** The outcome for one chunk: all of its data is in the archive, or the archive is closed with a
    part of it; [false] for data that is complete is possible only for a multiple of the block size. *)
Definition chunk_outcome (d data : list byte) (ok : bool) (w : ChunkArchiveWriter T) : Prop :=
  exists k, (k <= length data)%nat /\ holds (d ++ take k data) w /\
    (ok = true -> k = length data) /\
    (ok = false -> caw_writer w = None /\
       (k = length data -> Z.of_nat (length data) mod PROXMOX_TAPE_BLOCK_SIZE = 0)).

Lemma chunk_loop_ok d data fuel : forall start w ok w',
  0 <= start -> start mod PROXMOX_TAPE_BLOCK_SIZE = 0 -> is_open w ->
  holds (d ++ take (Z.to_nat start) data) w ->
  chunk_loop fuel data start w = (Ok ok, w') -> chunk_outcome d data ok w'.
Proof.
  pose proof BLOCK_SIZE_val as HB.
  induction fuel as [|fuel IH]; intros start w ok w' Hst Hm Ho Hh; cbn [chunk_loop];
    (destruct (Z.leb_spec (Z.of_nat (length data)) start) as [Hle|Hgt];
      [intros [= <- <-]; exists (length data); rewrite take_ge in Hh by lia; rewrite firstn_all; by auto|]); [done|].
  set (end_ := start + PROXMOX_TAPE_BLOCK_SIZE).
  set (stop := if Z.of_nat (length data) <? end_ then Z.of_nat (length data) else end_).
  assert (start < stop <= Z.of_nat (length data)) as Hstop by (unfold stop, end_; case_if; zify_bool; lia).
  rewrite slice_ok by lia. destruct (caw_write_all _ w) as [[leom| |] w1] eqn:E; try done.
  apply (caw_write_all_ok _ _ _ _ _ Ho Hh) in E as [Hh1 Ho1].
  rewrite <- app_assoc, take_take_drop in Hh1.
  replace (Z.to_nat start + Z.to_nat (stop - start))%nat with (Z.to_nat stop) in Hh1 by lia.
  assert (end_ mod PROXMOX_TAPE_BLOCK_SIZE = 0) as Hm'.
  { unfold end_. rewrite <- (Z.mul_1_l PROXMOX_TAPE_BLOCK_SIZE) at 1. by rewrite Z.mod_add by lia. }
  destruct (leom && _).
  - unfold holds in Hh1. destruct (caw_writer w1) as [t|]; [|done]. cbn [unwrap].
    destruct (tw_finish false t) as [[l| |] t'] eqn:Ef; try done. intros [= <- <-].
    exists (Z.to_nat stop). split; [lia|]. split; [eexists; split; [reflexivity|by eapply tw_finish_ok]|].
    unfold stop. split; case_if; zify_bool; try done; [lia|]. intros _. split; [done|]. intros Hk.
    by replace (Z.of_nat (length data)) with end_ by lia.
  - apply IH; [unfold end_; lia|done|done|]. unfold stop in Hh1. case_if_in Hh1; [|done]. zify_bool.
    rewrite take_ge in Hh1 |- * by lia. done.
Qed.

Lemma try_write_chunk_ok d c w ok w' :
  is_open w -> holds d w -> try_write_chunk c.1 c.2 w = (Ok ok, w') ->
  chunk_outcome (d ++ chunk_head c) (raw_data c.2) ok w'.
Proof.
  intros Ho Hh. unfold try_write_chunk. destruct (caw_writer w) eqn:Ew; [|done].
  destruct (caw_write_all _ w) as [[l| |] w1] eqn:E; try done.
  apply (caw_write_all_ok _ _ _ _ _ Ho Hh) in E as [Hh1 Ho1].
  apply chunk_loop_ok; [lia|done|done|]. by rewrite app_nil_r.
Qed.
End writer.

(** What may follow the complete entries: nothing, or a part of the next chunk, not reported as written. *)
Inductive remainder (rest : list (res (list byte * DataBlob))) : list byte -> Prop :=
| rem_none : remainder rest []
| rem_part c k :
    head rest = Some (Ok c) -> (k <= length (raw_data c.2))%nat ->
    (k = length (raw_data c.2) -> raw_size c.2 mod PROXMOX_TAPE_BLOCK_SIZE = 0) ->
    remainder rest (chunk_head c ++ take k (raw_data c.2)).

Section archive.
Context {T : Type} `{TapeWriteLaws T}.

Lemma archive_loop_ok max_size hdr chunks : forall fin acc w lst leom rest w',
  holds (hdr ++ concat (entry <$> fin)) w ->
  archive_loop max_size chunks acc w = (Ok (lst, leom, rest), w') ->
  exists more part, lst = acc ++ more.*1 /\ chunks = (Ok <$> more) ++ rest /\ remainder rest part /\
    holds (hdr ++ concat (entry <$> fin ++ more) ++ part) w'.
Proof.
  induction chunks as [|x chunks IH]; intros fin acc w lst leom rest w' Hh; cbn [archive_loop].
  { intros [= <- <- <- <-]. exists [], []. rewrite !app_nil_r. by repeat constructor. }
  destruct x as [c|e|e]; [|done|done]. destruct c as [dg blob].
  destruct (try_write_chunk dg blob w) as [[ok| |] w1] eqn:E; try done.
  destruct (caw_writer w) as [t|] eqn:Ew.
  2:{ unfold try_write_chunk in E. rewrite Ew in E. injection E as <- <-. intros [= <- <- <- <-].
      exists [], []. rewrite !app_nil_r. by repeat constructor. }
  assert (is_open w) as Ho by (unfold is_open; by rewrite Ew).
  destruct (try_write_chunk_ok _ (dg, blob) _ _ _ Ho Hh E) as (k & Hk & Hh1 & Ht & Hf). cbn [snd] in *.
  destruct ok.
  - rewrite (Ht eq_refl), firstn_all in Hh1.
    assert (holds (hdr ++ concat (entry <$> fin ++ [(dg, blob)])) w1) as Hh2.
    { rewrite fmap_app, concat_app. cbn [fmap list_fmap concat]. rewrite app_nil_r.
      unfold entry at 2. cbn [snd]. rewrite !app_assoc. exact Hh1. }
    case_if.
    + intros [= <- <- <- <-]. exists [(dg, blob)], []. rewrite app_nil_r. by repeat constructor.
    + intros E2. destruct (IH _ _ _ _ _ _ _ Hh2 E2) as (more & part & -> & -> & Hr & Hh3).
      exists ((dg, blob) :: more), part. rewrite <- !app_assoc in *. done.
  - intros [= <- <- <- <-]. exists [], (chunk_head (dg, blob) ++ take k (raw_data blob)).
    rewrite !app_nil_r. do 2 (split; [done|]). split; [|by rewrite <- !app_assoc in Hh1].
    apply (rem_part _ (dg, blob)); [done|done|]. by apply Hf.
Qed.

Lemma caw_finish_ok d w l w' :
  holds d w -> caw_finish w = (Ok l, w') -> exists t, caw_taken w' = Some t /\ tw_closed d false t.
Proof.
  unfold holds, caw_finish. destruct (caw_writer w) as [t|].
  - destruct (tw_finish false t) as [r t'] eqn:E. intros Hs [= -> <-]. exists t'. split; [done|].
    by eapply tw_finish_ok.
  - by intros Hs [= <- <-].
Qed.

Lemma caw_new_ok json uuid ctime t store close w u t' :
  tw_stream [] t -> caw_new json uuid ctime t store close = (Ok (w, u), t') ->
  exists header_data, json store = Ok header_data /\ u = uuid /\
    holds (media_header_bytes (media_header_new PROXMOX_BACKUP_CHUNK_ARCHIVE_MAGIC_1_1 uuid ctime
             (Z.of_nat (length header_data))) ++ header_data) w.
Proof.
  intros Hs. unfold caw_new. destruct (json store) as [hd| |]; try done. unfold write_header.
  cbn [media_header_new mh_size]. destruct (Z.eqb_spec (u32 (Z.of_nat (length hd))) (Z.of_nat (length hd)))
    as [->|]; [|done]. cbn [negb].
  destruct (tw_write_all _ t) as [[l| |] t1] eqn:E; try done. apply (tw_write_all_ok _ _ _ _ _ Hs) in E.
  destruct (Z.eqb_spec (Z.of_nat (length hd)) 0) as [Hz|Hz].
  - intros [= <- <- <-]. exists hd. do 2 (split; [done|]). destruct hd; [|done]. by rewrite app_nil_r.
  - destruct (tw_write_all hd t1) as [[l2| |] t2] eqn:E2; try done. intros [= <- <- <-].
    exists hd. do 2 (split; [done|]). by apply (tw_write_all_ok _ _ _ _ _ E) in E2.
Qed.
End archive.

(** ** The decoder *)
Fixpoint read_chunks {R} `{ReadExt R} `{ReadAllocated R} (P : Prims) (fuel : nat) (r : R)
    : res (list (list byte * DataBlob)) :=
  match fuel with
  | O => Panic "fuel"
  | S fuel =>
      match next_chunk P r with
      | (Ok None, _) => Ok []
      | (Ok (Some c), r) => let? cs := read_chunks P fuel r in Ok (c :: cs)
      | (Err e, _) => Err e
      | (Panic e, _) => Panic e
      end
  end.

Section decoder.
Context {R : Type} `{ReadAllocatedLaws R} (P : Prims).

Lemma next_chunk_end (r : R) : unread r = [] -> exists r', next_chunk P r = (Ok None, r').
Proof.
  intros Hr. unfold next_chunk.
  destruct (read_exact_eof (replicate SIZE_ENTRY_HEADER x00) r) as (b & r' & E & _); [done|done|].
  rewrite E. eauto.
Qed.

(** The header of a chunk is followed by [body]. *)
Lemma next_chunk_head c body (r : R) :
  chunk_ok P c -> unread r = chunk_head c ++ body ->
  exists r1, unread r1 = body /\
    next_chunk P r =
      let '(x, r) := read_exact_allocated (raw_size c.2) r1 in
      match x with
      | inr UnexpectedEof => (Ok None, r)
      | inr (IoOther e) => (Err e, r)
      | inl raw =>
          try! blob := from_raw raw for r in
          try! _ := verify_crc P blob for r in
          (Ok (Some (c.1, blob)), r)
      end.
Proof.
  intros Hc Hr. pose proof (length_chunk_head _ _ Hc) as Hl.
  destruct (read_exact_full (replicate SIZE_ENTRY_HEADER x00) r) as (r1 & E & Hr1).
  { done. }
  { rewrite Hr, length_app, Hl, length_replicate. lia. }
  rewrite length_replicate, Hr, <- Hl in *. rewrite take_app_length in E. rewrite drop_app_length in Hr1.
  exists r1. split; [done|]. unfold next_chunk. rewrite <- Hl, E, (entry_of_chunk_head _ _ Hc).
  cbn [ce_magic ce_size ce_digest]. by rewrite bool_decide_true.
Qed.

Lemma next_chunk_entry c more (r : R) :
  chunk_ok P c -> unread r = entry c ++ more ->
  exists r', next_chunk P r = (Ok (Some c), r') /\ unread r' = more.
Proof.
  intros Hc Hr. unfold entry in Hr. rewrite <- app_assoc in Hr.
  destruct (next_chunk_head _ _ _ Hc Hr) as (r1 & Hr1 & ->).
  destruct (read_allocated_full (raw_size c.2) r1) as (r2 & -> & Hr2); unfold raw_size in *; [lia| |].
  { rewrite Hr1, length_app. lia. }
  rewrite Hr1, Nat2Z.id, take_app_length in *. rewrite drop_app_length in Hr2.
  destruct Hc as (_ & _ & -> & ->). exists r2. by destruct c.
Qed.

(** A part of a chunk is ignored. *)
Lemma next_chunk_part c k (r : R) :
  chunk_ok P c -> (k < length (raw_data c.2))%nat -> unread r = chunk_head c ++ take k (raw_data c.2) ->
  exists r', next_chunk P r = (Ok None, r').
Proof.
  intros Hc Hk Hr. destruct (next_chunk_head _ _ _ Hc Hr) as (r1 & Hr1 & ->).
  destruct (read_allocated_short (raw_size c.2) r1) as (r2 & ->); [|by eauto].
  rewrite Hr1, length_take. unfold raw_size. lia.
Qed.

Lemma read_chunks_ok cs rest part fuel : forall r : R,
  Forall (chunk_ok P) cs -> (forall c, head rest = Some (Ok c) -> chunk_ok P c) -> remainder rest part ->
  unread r = concat (entry <$> cs) ++ part -> (length cs + 1 < fuel)%nat ->
  exists extra, read_chunks P fuel r = Ok (cs ++ extra) /\
    (extra = [] \/ exists c, extra = [c] /\ head rest = Some (Ok c) /\
       raw_size c.2 mod PROXMOX_TAPE_BLOCK_SIZE = 0).
Proof.
  revert fuel. induction cs as [|c cs IH]; intros fuel r Hcs Hrest Hp Hr Hf;
    (destruct fuel as [|fuel]; [lia|]); cbn [read_chunks].
  - cbn [fmap list_fmap concat app length] in *. destruct Hp as [|c k Hh Hk Hm].
    + destruct (next_chunk_end r Hr) as (r' & ->). exists []. auto.
    + pose proof (Hrest _ Hh) as Hc. destruct (Nat.eq_dec k (length (raw_data c.2))) as [Ek|Ek].
      * rewrite Ek, firstn_all in Hr. destruct (next_chunk_entry c [] r Hc) as (r' & -> & Hr').
        { unfold entry. by rewrite app_nil_r. }
        destruct fuel as [|fuel]; [lia|]. cbn [read_chunks]. destruct (next_chunk_end r' Hr') as (r2 & ->).
        exists [c]. split; [done|]. right. eauto.
      * destruct (next_chunk_part c k r Hc) as (r' & ->); [lia|done|]. exists []. auto.
  - apply Forall_cons in Hcs as [Hc Hcs]. cbn [fmap list_fmap concat] in Hr. rewrite <- app_assoc in Hr.
    destruct (next_chunk_entry _ _ _ Hc Hr) as (r' & -> & Hr'). cbn [length] in Hf.
    destruct (IH fuel r' Hcs Hrest Hp Hr') as (extra & -> & He); [lia|]. by exists extra.
Qed.
End decoder.

(** ** Totality *)
Section total.
Context {T : Type} `{TapeWrite T}.
Hypothesis write_total : forall x (t : T), exists l t', tw_write_all x t = (Ok l, t').
Hypothesis finish_total : forall inc (t : T), exists l t', tw_finish inc t = (Ok l, t').

Lemma caw_write_all_total x (w : ChunkArchiveWriter T) :
  caw_writer w <> None -> exists l w', caw_write_all x w = (Ok l, w') /\ caw_writer w' <> None.
Proof.
  unfold caw_write_all. destruct (caw_writer w) as [t|]; [|done]. intros _.
  destruct (write_total x t) as (l & t' & ->). by eexists _, _.
Qed.

Lemma chunk_loop_total data fuel : forall start (w : ChunkArchiveWriter T),
  caw_writer w <> None -> 0 <= start -> Z.of_nat (length data) - start <= Z.of_nat fuel ->
  exists ok w', chunk_loop fuel data start w = (Ok ok, w').
Proof.
  pose proof BLOCK_SIZE_val.
  induction fuel as [|fuel IH]; intros start w Hw Hs Hf; cbn [chunk_loop];
    (destruct (Z.leb_spec (Z.of_nat (length data)) start); [by eexists _, _|]); [lia|].
  rewrite slice_ok by (try case_if; zify_bool; lia).
  destruct (caw_write_all_total (take (Z.to_nat
    ((if Z.of_nat (length data) <? start + PROXMOX_TAPE_BLOCK_SIZE then Z.of_nat (length data)
      else start + PROXMOX_TAPE_BLOCK_SIZE) - start)) (drop (Z.to_nat start) data)) w Hw) as (l & w1 & -> & Hw1).
  destruct (l && _).
  - destruct (caw_writer w1) as [t|]; [|done]. cbn [unwrap].
    destruct (finish_total false t) as (l' & t' & ->). by eexists _, _.
  - apply IH; [done|lia|lia].
Qed.

Lemma archive_loop_total max_size chunks : forall acc (w : ChunkArchiveWriter T),
  exists x w', archive_loop max_size (Ok <$> chunks) acc w = (Ok x, w').
Proof.
  induction chunks as [|[d blob] chunks IH]; intros acc w; cbn [fmap list_fmap archive_loop]; [by eexists _, _|].
  assert (exists ok w1, try_write_chunk d blob w = (Ok ok, w1)) as (ok & w1 & ->).
  { unfold try_write_chunk. destruct (caw_writer w) eqn:Ew; [|by eexists _, _].
    destruct (caw_write_all_total (archive_entry_bytes {| ce_magic := PROXMOX_BACKUP_CHUNK_ARCHIVE_ENTRY_MAGIC_1_0;
      ce_digest := d; ce_size := raw_size blob |}) w) as (l & w1 & -> & Hw1); [by rewrite Ew|].
    apply chunk_loop_total; [done|lia|lia]. }
  destruct ok; [case_if; [by eexists _, _|apply IH]|by eexists _, _].
Qed.

Lemma write_chunk_archive_total json uuid ctime (t : T) chunks store max_size header_data :
  json store = Ok header_data -> Z.of_nat (length header_data) < 2 ^ 32 ->
  exists result, write_chunk_archive json uuid ctime t (Ok <$> chunks) store max_size = Ok result.
Proof.
  intros Hj Hl. unfold write_chunk_archive, caw_new, write_header. rewrite Hj.
  cbn [media_header_new mh_size]. rewrite wrapu_small, Z.eqb_refl by lia. cbn [negb].
  destruct (write_total (media_header_bytes (media_header_new PROXMOX_BACKUP_CHUNK_ARCHIVE_MAGIC_1_1 uuid ctime
    (Z.of_nat (length header_data)))) t) as (l & t1 & ->).
  assert (exists x t2, (if Z.of_nat (length header_data) =? 0 then (Ok l, t1)
    else tw_write_all header_data t1) = (Ok x, t2)) as (x & t2 & ->) by (case_if; [by eexists _, _|apply write_total]).
  cbn [fst].
  destruct (archive_loop_total max_size chunks [] {| caw_writer := Some t2; caw_bytes := 0;
    caw_close_on_leom := true; caw_taken := None |}) as ([[lst leom] rest] & w1 & ->).
  unfold caw_finish. destruct (caw_writer w1) as [t3|]; [|by eexists].
  destruct (finish_total false t3) as (l3 & t4 & ->). by eexists.
Qed.
End total.

(** The first part: an archive that was written. *)
Lemma chunk_archive_written {T R} `{TapeWriteLaws T} `{ReadAllocatedLaws R} (P : Prims)
    json uuid ctime (t : T) chunks store max_size header_data result :
  tw_stream [] t -> (forall c, Ok c ∈ chunks -> chunk_ok P c) -> json store = Ok header_data ->
  write_chunk_archive json uuid ctime t chunks store max_size = Ok result ->
  exists written body t',
    chunks = (Ok <$> written) ++ ar_rest result /\ ar_chunk_list result = written.*1 /\
    caw_taken (ar_writer result) = Some t' /\
    tw_closed (media_header_bytes (media_header_new PROXMOX_BACKUP_CHUNK_ARCHIVE_MAGIC_1_1 uuid ctime
                 (Z.of_nat (length header_data))) ++ header_data ++ body) false t' /\
    forall r : R, unread r = body ->
      exists extra, read_chunks P (length written + 2) r = Ok (written ++ extra) /\
        (extra = [] \/ exists c, extra = [c] /\ head (ar_rest result) = Some (Ok c) /\
           raw_size c.2 mod PROXMOX_TAPE_BLOCK_SIZE = 0).
Proof.
  intros Hs Hok Hj. unfold write_chunk_archive.
  destruct (caw_new json uuid ctime t store true) as [[[w u]| |] t1] eqn:En; try done. cbn [fst].
  destruct (caw_new_ok _ _ _ _ _ _ _ _ _ Hs En) as (hd & Hj' & -> & Hh).
  rewrite Hj in Hj'. injection Hj' as <-.
  destruct (archive_loop max_size chunks [] w) as [[[[lst leom] rest]| |] w1] eqn:El; try done.
  destruct (caw_finish w1) as [[l| |] w2] eqn:Ef; try done. intros [= <-].
  cbn [ar_rest ar_chunk_list ar_writer].
  rewrite <- (app_nil_r (_ ++ header_data)) in Hh.
  destruct (archive_loop_ok _ _ _ [] _ _ _ _ _ _ Hh El) as (more & part & -> & -> & Hr & Hh1).
  destruct (caw_finish_ok _ _ _ _ Hh1 Ef) as (t' & Et & Hc).
  exists more, (concat (entry <$> more) ++ part), t'. do 3 (split; [done|]).
  split; [by rewrite <- app_assoc in Hc|]. intros r Hr'.
  apply (read_chunks_ok P more rest part); [| |done|done|lia].
  - apply Forall_forall. intros c Hc'. apply Hok, elem_of_app. left. by apply list_elem_of_fmap_2.
  - intros c Hc'. apply Hok, elem_of_app. right. destruct rest; [done|]. injection Hc' as ->. by left.
Qed.

(** C28.  No chunk is lost.  [write_chunk_archive] reports digests that the media catalog will record
    as stored on this tape.  When it succeeds, these are the digests of the first chunks of the
    iterator, all others are left in it, and the closed archive, decoded with [next_chunk], gives
    exactly the reported chunks and then the end, also when the end of the media cut off the next one; at
    most that one chunk more is there, and only if its size is a multiple of the block size.  On a
    device without errors it does succeed. *)
Theorem chunk_archive_correct {T R} `{TapeWriteLaws T} `{ReadAllocatedLaws R} (P : Prims)
    json uuid ctime (t : T) chunks store max_size header_data :
  tw_stream [] t -> (forall c, Ok c ∈ chunks -> chunk_ok P c) -> json store = Ok header_data ->
  (forall result, write_chunk_archive json uuid ctime t chunks store max_size = Ok result ->
    exists written body t',
      chunks = (Ok <$> written) ++ ar_rest result /\ ar_chunk_list result = written.*1 /\
      caw_taken (ar_writer result) = Some t' /\
      tw_closed (media_header_bytes (media_header_new PROXMOX_BACKUP_CHUNK_ARCHIVE_MAGIC_1_1 uuid ctime
                   (Z.of_nat (length header_data))) ++ header_data ++ body) false t' /\
      forall r : R, unread r = body ->
        exists extra, read_chunks P (length written + 2) r = Ok (written ++ extra) /\
          (extra = [] \/ exists c, extra = [c] /\ head (ar_rest result) = Some (Ok c) /\
             raw_size c.2 mod PROXMOX_TAPE_BLOCK_SIZE = 0)) /\
  ((forall x u, exists l u', tw_write_all x (u : T) = (Ok l, u')) ->
   (forall inc u, exists l u', tw_finish inc (u : T) = (Ok l, u')) ->
   Z.of_nat (length header_data) < 2 ^ 32 -> (forall x, x ∈ chunks -> exists c, x = Ok c) ->
   exists result, write_chunk_archive json uuid ctime t chunks store max_size = Ok result).
Proof.
  intros Hs Hok Hj. split.
  - intros result. by apply chunk_archive_written.
  - intros Hw Hf Hl Hall. assert (exists cs, chunks = Ok <$> cs) as [cs ->].
    { clear -Hall. induction chunks as [|x chunks IH]; [by exists []|].
      destruct (Hall x) as [c ->]; [by left|]. destruct IH as [cs ->]; [|by exists (c :: cs)].
      intros y Hy. apply Hall. by right. }
    by eapply write_chunk_archive_total.
Qed.

(** ** Two corner cases of the code *)

(** A chunk of exactly one block that meets the end of the media is in the archive as a whole, but is reported
    as not written: the loop takes a piece for the last one only if it is shorter than a block. *)
Lemma complete_chunk_reported_partial {T} `{TapeWrite T} digest blob (w : ChunkArchiveWriter T) t l t1 t2 l' t3 :
  caw_writer w = Some t -> caw_close_on_leom w = true -> raw_size blob = PROXMOX_TAPE_BLOCK_SIZE ->
  tw_write_all (chunk_head (digest, blob)) t = (Ok l, t1) ->
  tw_write_all (raw_data blob) t1 = (Ok true, t2) -> tw_finish false t2 = (Ok l', t3) ->
  try_write_chunk digest blob w = (Ok false, caw_take t3 (tw_bytes_written t3) w).
Proof.
  intros Ew Hc Hs E1 E2 E3. pose proof BLOCK_SIZE_val. unfold raw_size in Hs.
  unfold try_write_chunk. rewrite Ew. change (archive_entry_bytes _) with (chunk_head (digest, blob)). unfold caw_write_all at 1. rewrite Ew, E1.
  destruct (length (raw_data blob)) as [|n] eqn:El; [lia|]. cbn [chunk_loop]. rewrite El.
  rewrite (proj2 (Z.leb_gt _ _)), Z.add_0_l, (proj2 (Z.ltb_ge _ _)), slice_ok by lia.
  rewrite drop_0, take_ge by lia. unfold caw_write_all. cbn [caw_writer]. rewrite E2.
  cbn [caw_close_on_leom caw_writer unwrap]. rewrite Hc. cbn [andb]. rewrite E3. unfold caw_take. cbn. by rewrite Hc.
Qed.

(** After [finish] the number of bytes is that from before the last block was written. *)
Lemma finish_misses_last_block {W} `{BlockWriteLaws W} `{VecClearLaws} base data
    (w : ChunkArchiveWriter (BlockedWriter W)) t ps l w' :
  caw_writer w = Some t -> WriterSpec.writer_inv base data t ps -> caw_finish w = (Ok l, w') ->
  caw_bytes_written w' = bw_bytes_written t /\
  exists t', caw_taken w' = Some t' /\
    bw_bytes_written t' = u64 (bw_bytes_written t + PROXMOX_TAPE_BLOCK_SIZE).
Proof.
  intros Ew Hi. unfold caw_finish. rewrite Ew. destruct (tw_finish false t) as [r t'] eqn:E. intros [= -> <-].
  split; [done|]. exists t'. split; [done|].
  by destruct (WriterSpec.bw_finish_ok _ _ _ _ _ _ _ Hi E) as (_ & _ & _ & Hb).
Qed.

(** ** An archive in memory *)
Import TapeExample ToyPrims.
Module ArchiveExample.
(** The end of the media is announced when [mt_limit] bytes are exceeded. *)
Record MemTape := { mt_data : list byte; mt_limit : Z; mt_closed : bool }.
#[export] Instance mem_tape : TapeWrite MemTape := {
  tw_write_all x t :=
    (Ok (mt_limit t <? Z.of_nat (length (mt_data t ++ x))),
     {| mt_data := mt_data t ++ x; mt_limit := mt_limit t; mt_closed := mt_closed t |});
  tw_bytes_written t := Z.of_nat (length (mt_data t));
  tw_finish inc t := (Ok false, {| mt_data := mt_data t; mt_limit := mt_limit t; mt_closed := true |});
  tw_logical_end_of_media t := mt_limit t <? Z.of_nat (length (mt_data t));
}.
#[export, refine] Instance mem_tape_laws : TapeWriteLaws MemTape := {
  tw_stream d t := mt_data t = d; tw_closed d inc t := mt_data t = d /\ mt_closed t = true }.
Proof.
  - by intros d x t l t' <- [= <- <-].
  - by intros d inc t l t' <- [= <- <-].
Defined.
#[export] Instance mem_allocated : ReadAllocated (list byte) := {
  read_exact_allocated n r :=
    if Z.of_nat (length r) <? n then (inr UnexpectedEof, []) else (inl (take (Z.to_nat n) r), drop (Z.to_nat n) r) }.
#[export, refine] Instance mem_allocated_laws : ReadAllocatedLaws (list byte) := {}.
Proof.
  - intros n r Hn Hl. exists (drop (Z.to_nat n) r). cbn in *. by rewrite (proj2 (Z.ltb_ge _ _)) by lia.
  - intros n r Hl. cbn in *. rewrite (proj2 (Z.ltb_lt _ _)) by lia. eauto.
Defined.

Definition toy_chunk (x : byte) : list byte * DataBlob :=
  (replicate 32 x,
   {| raw_data := UNCOMPRESSED_BLOB_MAGIC_1_0 ++ le_bytes 4 (crc32 toy [x]) ++ [x] |}).
Definition chunks : list (res (list byte * DataBlob)) := Ok <$> [toy_chunk x01; toy_chunk x02; toy_chunk x03].
Definition json (store : string) : res (list byte) := Ok [x7b; x7d].
Definition tape (limit : Z) : MemTape := {| mt_data := []; mt_limit := limit; mt_closed := false |}.
Lemma chunks_ok c : Ok c ∈ chunks -> chunk_ok toy c.
Proof.
  unfold chunks. cbn [fmap list_fmap]. rewrite !elem_of_cons, elem_of_nil.
  intros [[= ->]|[[= ->]|[[= ->]|[]]]]; (split; [reflexivity|]; split; [reflexivity|]; split; vm_compute; reflexivity).
Qed.
End ArchiveExample.
Import ArchiveExample.

(** The media ends with the second chunk: two chunks are reported, the third is left. *)
Lemma chunk_archive_correct_witness :
  exists result written t' body,
    write_chunk_archive json (replicate 16 x00) 0 (tape 120) chunks "store" 1000 = Ok result /\
    ar_chunk_list result = [replicate 32 x01; replicate 32 x02] /\
    chunks = (Ok <$> written) ++ ar_rest result /\ ar_chunk_list result = written.*1 /\
    caw_taken (ar_writer result) = Some t' /\
    exists extra, read_chunks toy (length written + 2) (body : list byte) = Ok (written ++ extra).
Proof.
  assert (tw_stream [] (tape 120)) as Hs by (cbn; reflexivity).
  destruct (chunk_archive_correct (T := MemTape) (R := list byte) toy json (replicate 16 x00) 0 (tape 120)
    chunks "store" 1000 [x7b; x7d] Hs chunks_ok eq_refl) as [Hsafe Htotal].
  destruct Htotal as [result Hres].
  - intros x u. eexists _, _. reflexivity.
  - intros inc u. eexists _, _. reflexivity.
  - reflexivity.
  - intros x Hx. unfold chunks in Hx. apply list_elem_of_fmap_1 in Hx as (c & -> & _). by exists c.
  - assert (ar_chunk_list result = [replicate 32 x01; replicate 32 x02]) as Hl.
    { clear -Hres. vm_compute in Hres. injection Hres as <-. vm_compute. reflexivity. }
    destruct (Hsafe result Hres) as (written & body & t' & H1 & H2 & H3 & _ & H5).
    destruct (H5 body eq_refl) as (extra & H6 & _). exists result, written, t', body.
    exact (conj Hres (conj Hl (conj H1 (conj H2 (conj H3 (ex_intro _ extra H6)))))).
Defined.
