(* ===== verification/MediaLabel.v ===== *)
(** * Labels of tape media, [src/tape/file_formats/mod.rs] and [MediaId] of [src/tape/inventory.rs] *)

From S2P Require Import Prelude.
From Stdlib Require Import Strings.Byte.

Abbreviation uuid_t := (list byte).

Record MediaLabel := {
  ml_uuid : uuid_t; ml_label_text : string; ml_ctime : Z; ml_pool : option string;
}.
Record MediaSetLabel := {
  ms_pool : string; ms_uuid : uuid_t; ms_seq_nr : Z; ms_ctime : Z; ms_fingerprint : option (list byte);
}.
#[export] Instance MediaLabel_eq_dec : EqDecision MediaLabel.
Proof. solve_decision. Defined.
#[export] Instance MediaSetLabel_eq_dec : EqDecision MediaSetLabel.
Proof. solve_decision. Defined.

Definition with_data (pool : string) (uuid : uuid_t) (seq_nr ctime : Z) (fp : option (list byte)) : MediaSetLabel :=
  {| ms_pool := pool; ms_uuid := uuid; ms_seq_nr := seq_nr; ms_ctime := ctime; ms_fingerprint := fp |}.
Definition new_unassigned (pool : string) (ctime : Z) : MediaSetLabel :=
  with_data pool (replicate 16 x00) 0 ctime None.
Definition unassigned (l : MediaSetLabel) : bool := bool_decide (ms_uuid l = replicate 16 x00).

Record MediaId := { mi_label : MediaLabel; mi_media_set_label : option MediaSetLabel }.
#[export] Instance MediaId_eq_dec : EqDecision MediaId.
Proof. solve_decision. Defined.
Definition media_pool (m : MediaId) : option string :=
  match mi_media_set_label m with Some set => Some (ms_pool set) | None => ml_pool (mi_label m) end.
