(* ===== verification/MediaCatalog.v ===== *)
(** * Media catalogs, [src/tape/media_catalog.rs]

    A catalog lists what is on a tape: the labels, and the chunk archives and snapshots with their file numbers.  It
    is kept in memory and in a log of records, to which [commit] appends.  [CatalogSet] of
    [src/tape/pool_writer/catalog_set.rs] has the catalogs of the media of a set.

    Files are inodes with names, as a catalog stays open while its file is renamed.  Functions of
    the crates proxmox-io and pbs-api-types are fields of records; output to the terminal is left out. *)

From S2P Require Import Prelude IndexFile MediaLabel.
From Stdlib Require Import Strings.Byte.

(** [std::str::from_utf8] *)
Definition in_range (lo hi : Z) (c : byte) : bool := (lo <=? byte_to_Z c) && (byte_to_Z c <=? hi).
Definition cont (c : byte) : bool := in_range 128 191 c.
Fixpoint utf8_valid (l : list byte) : bool :=
  match l with
  | [] => true
  | a :: l =>
      if in_range 0 127 a then utf8_valid l
      else match l with
      | [] => false
      | c :: l =>
          if in_range 194 223 a then cont c && utf8_valid l
          else match l with
          | [] => false
          | d :: l =>
              let second :=
                if byte_to_Z a =? 224 then in_range 160 191 c
                else if byte_to_Z a =? 237 then in_range 128 159 c
                else cont c in
              if in_range 224 239 a then second && cont d && utf8_valid l
              else match l with
              | [] => false
              | e :: l =>
                  let second :=
                    if byte_to_Z a =? 240 then in_range 144 191 c
                    else if byte_to_Z a =? 244 then in_range 128 143 c
                    else cont c in
                  in_range 240 244 a && second && cont d && cont e && utf8_valid l
              end
          end
      end
  end.
Definition from_utf8 (l : list byte) : res string :=
  if utf8_valid l then Ok (String.string_of_list_byte l) else Err "invalid utf-8 sequence".

(** ** Libraries *)

(** proxmox-io on what is left of a file: [read_exact_or_eof], [read_exact_allocated] and the bytes that
    [read_le_value] reads into a struct; also [read_exact] of a [BufReader]. *)
Record CatalogIo := {
  io_exact_or_eof : nat -> list byte -> res (option (list byte * list byte));
  io_exact_allocated : nat -> list byte -> res (list byte * list byte);
  io_le_value : nat -> list byte -> res (list byte * list byte);
  io_read_exact : nat -> list byte -> res (list byte * list byte);
}.
(** Namespaces and snapshots of pbs-api-types. *)
Record NsLib := {
  ns_snapshot : Type;
  print_ns_and_snapshot : ns_snapshot -> string;
  parse_ns_and_snapshot : string -> res ns_snapshot;
}.

(** ** Data *)
Record DatastoreContent := { snapshot_index : gmap string Z; chunk_index : gmap digest Z }.
Definition content_new : DatastoreContent := {| snapshot_index := ∅; chunk_index := ∅ |}.

(** An open file: its inode and the position in it. *)
Record Handle := { fh_inode : nat; fh_pos : nat }.
Record MediaCatalog := {
  mc_uuid : uuid_t;
  mc_file : option Handle;
  mc_current_archive : option (uuid_t * Z * string);
  mc_last_entry : option (uuid_t * Z);
  mc_content : gmap string DatastoreContent;
  mc_pending : list byte;
}.
Definition catalog_empty (uuid : uuid_t) : MediaCatalog :=
  {| mc_uuid := uuid; mc_file := None; mc_current_archive := None; mc_last_entry := None;
     mc_content := ∅; mc_pending := [] |}.
(** Assignments to single fields. *)
Definition set_file (f : option Handle) (c : MediaCatalog) : MediaCatalog :=
  {| mc_uuid := mc_uuid c; mc_file := f; mc_current_archive := mc_current_archive c;
     mc_last_entry := mc_last_entry c; mc_content := mc_content c; mc_pending := mc_pending c |}.
Definition set_current (a : option (uuid_t * Z * string)) (c : MediaCatalog) : MediaCatalog :=
  {| mc_uuid := mc_uuid c; mc_file := mc_file c; mc_current_archive := a;
     mc_last_entry := mc_last_entry c; mc_content := mc_content c; mc_pending := mc_pending c |}.
Definition set_last (uuid : uuid_t) (file_number : Z) (c : MediaCatalog) : MediaCatalog :=
  {| mc_uuid := mc_uuid c; mc_file := mc_file c; mc_current_archive := mc_current_archive c;
     mc_last_entry := Some (uuid, file_number); mc_content := mc_content c; mc_pending := mc_pending c |}.
Definition set_content (m : gmap string DatastoreContent) (c : MediaCatalog) : MediaCatalog :=
  {| mc_uuid := mc_uuid c; mc_file := mc_file c; mc_current_archive := mc_current_archive c;
     mc_last_entry := mc_last_entry c; mc_content := m; mc_pending := mc_pending c |}.
Definition push (l : list byte) (c : MediaCatalog) : MediaCatalog :=
  {| mc_uuid := mc_uuid c; mc_file := mc_file c; mc_current_archive := mc_current_archive c;
     mc_last_entry := mc_last_entry c; mc_content := mc_content c; mc_pending := mc_pending c ++ l |}.
Definition set_pending (l : list byte) (c : MediaCatalog) : MediaCatalog :=
  {| mc_uuid := mc_uuid c; mc_file := mc_file c; mc_current_archive := mc_current_archive c;
     mc_last_entry := mc_last_entry c; mc_content := mc_content c; mc_pending := l |}.

Definition PROXMOX_BACKUP_MEDIA_CATALOG_MAGIC_1_0 : list byte :=
  byte_of_Z <$> [221; 29; 164; 1; 59; 69; 19; 40].
Definition PROXMOX_BACKUP_MEDIA_CATALOG_MAGIC_1_1 : list byte :=
  byte_of_Z <$> [76; 142; 232; 193; 32; 168; 137; 113].

(** ** Records of the log

    The structs are [repr(C)] and written as they are in memory; the bytes of their padding are not
    specified and are arguments. *)
Record LabelEntry := { le_file_number : Z; le_uuid : uuid_t; le_seq_nr : Z }.
Record ChunkArchiveStart := { as_file_number : Z; as_uuid : uuid_t; as_store_name_len : Z }.
Record ChunkArchiveEnd := { ae_file_number : Z; ae_uuid : uuid_t }.
Record SnapshotEntry := { se_file_number : Z; se_uuid : uuid_t; se_store_name_len : Z; se_name_len : Z }.

Definition label_bytes (e : LabelEntry) : list byte :=
  le_bytes 8 (le_file_number e) ++ le_uuid e ++ le_bytes 8 (le_seq_nr e).
Definition label_of_bytes (l : list byte) : LabelEntry :=
  {| le_file_number := le_val (take 8 l); le_uuid := take 16 (drop 8 l); le_seq_nr := le_val (take 8 (drop 24 l)) |}.
Definition archive_start_bytes (pad : list byte) (e : ChunkArchiveStart) : list byte :=
  le_bytes 8 (as_file_number e) ++ as_uuid e ++ le_bytes 1 (as_store_name_len e) ++ resize 7 x00 pad.
Definition archive_start_of_bytes (l : list byte) : ChunkArchiveStart :=
  {| as_file_number := le_val (take 8 l); as_uuid := take 16 (drop 8 l);
     as_store_name_len := le_val (take 1 (drop 24 l)) |}.
Definition archive_end_bytes (e : ChunkArchiveEnd) : list byte := le_bytes 8 (ae_file_number e) ++ ae_uuid e.
Definition archive_end_of_bytes (l : list byte) : ChunkArchiveEnd :=
  {| ae_file_number := le_val (take 8 l); ae_uuid := take 16 (drop 8 l) |}.
Definition snapshot_bytes (pad : list byte) (e : SnapshotEntry) : list byte :=
  le_bytes 8 (se_file_number e) ++ se_uuid e ++ le_bytes 1 (se_store_name_len e) ++ resize 1 x00 pad
  ++ le_bytes 2 (se_name_len e) ++ resize 4 x00 (drop 1 pad).
Definition snapshot_of_bytes (l : list byte) : SnapshotEntry :=
  {| se_file_number := le_val (take 8 l); se_uuid := take 16 (drop 8 l);
     se_store_name_len := le_val (take 1 (drop 24 l)); se_name_len := le_val (take 2 (drop 26 l)) |}.

(** ** Changes *)
Definition next_file_number (c : MediaCatalog) : Z :=
  match mc_last_entry c with Some (_, last_number) => u64 (last_number + 1) | None => 0 end.

Definition check_register_label (file_number : Z) (uuid : uuid_t) (c : MediaCatalog) : res unit :=
  if 2 <=? file_number then Err "register label failed: got wrong file number" else
  if (file_number =? 0) && negb (bool_decide (uuid = mc_uuid c))
  then Err "register label failed: uuid does not match" else
  if bool_decide (is_Some (mc_current_archive c)) then Err "register label failed: inside chunk archive" else
  if negb (file_number =? next_file_number c) then Err "register label failed: got unexpected file number" else
  Ok tt.

Definition register_label (uuid : uuid_t) (seq_nr file_number : Z) (c : MediaCatalog) : res unit * MediaCatalog :=
  try! _ := check_register_label file_number uuid c for c in
  if (file_number =? 0) && negb (seq_nr =? 0) then (Err "register_label failed - seq_nr should be 0", c) else
  let entry := {| le_file_number := file_number; le_uuid := uuid; le_seq_nr := seq_nr |} in
  let c := push [x4c] c in
  let c := push (label_bytes entry) c in
  (Ok tt, set_last uuid file_number c).

Definition check_start_chunk_archive (file_number : Z) (c : MediaCatalog) : res unit :=
  if bool_decide (is_Some (mc_current_archive c)) then Err "start_chunk_archive failed: already started" else
  if file_number <? 2 then Err "start_chunk_archive failed: got wrong file number" else
  if file_number <? next_file_number c then Err "start_chunk_archive: got unexpected file number" else
  Ok tt.

(** [content.entry(store).or_default()] *)
Definition entry_or_default (store : string) (m : gmap string DatastoreContent) : gmap string DatastoreContent :=
  match m !! store with Some _ => m | None => <[store := content_new]> m end.

Definition start_chunk_archive (pad : list byte) (uuid : uuid_t) (file_number : Z) (store : string)
    (c : MediaCatalog) : res unit * MediaCatalog :=
  try! _ := check_start_chunk_archive file_number c for c in
  if 255 <? Z.of_nat (length (bytes store)) then (Err "out of range integral type conversion attempted", c) else
  let entry := {| as_file_number := file_number; as_uuid := uuid;
                  as_store_name_len := Z.of_nat (length (bytes store)) |} in
  let c := push [x41] c in
  let c := push (archive_start_bytes pad entry) c in
  let c := push (bytes store) c in
  let c := set_content (entry_or_default store (mc_content c)) c in
  (Ok tt, set_current (Some (uuid, file_number, store)) c).

Definition insert_chunk_index (store : string) (d : digest) (file_number : Z) (c : MediaCatalog)
    : res MediaCatalog :=
  match mc_content c !! store with
  | None => Err "storage not registered - internal error"
  | Some content =>
      Ok (set_content (<[store := {| snapshot_index := snapshot_index content;
                                     chunk_index := <[d := file_number]> (chunk_index content) |}]>
                         (mc_content c)) c)
  end.
Definition register_chunk (d : digest) (c : MediaCatalog) : res unit * MediaCatalog :=
  match mc_current_archive c with
  | None => (Err "register_chunk failed: no archive started", c)
  | Some (_, file_number, store) =>
      let c := push [x43] c in
      let c := push d c in
      match insert_chunk_index store d file_number c with
      | Ok c => (Ok tt, c)
      | Err e => (Err e, c)
      | Panic e => (Panic e, c)
      end
  end.

Definition check_end_chunk_archive (uuid : uuid_t) (file_number : Z) (c : MediaCatalog) : res unit :=
  match mc_current_archive c with
  | None => Err "end_chunk archive failed: not started"
  | Some (expected_uuid, expected_file_number, _) =>
      if negb (bool_decide (uuid = expected_uuid)) then Err "end_chunk_archive failed: got unexpected uuid" else
      if negb (file_number =? expected_file_number)
      then Err "end_chunk_archive failed: got unexpected file number" else
      Ok tt
  end.

Definition end_chunk_archive (c : MediaCatalog) : res unit * MediaCatalog :=
  match mc_current_archive c with
  | None => (Err "end_chunk_archive failed: not started", c)
  | Some (uuid, file_number, _) =>
      let c := set_current None c in
      let entry := {| ae_file_number := file_number; ae_uuid := uuid |} in
      let c := push [x45] c in
      let c := push (archive_end_bytes entry) c in
      (Ok tt, set_last uuid file_number c)
  end.

Fixpoint register_chunks (chunk_list : list digest) (c : MediaCatalog) : res unit * MediaCatalog :=
  match chunk_list with
  | [] => (Ok tt, c)
  | d :: chunk_list => let! _, c := register_chunk d c in register_chunks chunk_list c
  end.
Definition register_chunk_archive (pad : list byte) (uuid : uuid_t) (file_number : Z) (store : string)
    (chunk_list : list digest) (c : MediaCatalog) : res unit * MediaCatalog :=
  let! _, c := start_chunk_archive pad uuid file_number store c in
  let! _, c := register_chunks chunk_list c in
  end_chunk_archive c.

Definition check_register_snapshot (file_number : Z) (c : MediaCatalog) : res unit :=
  if bool_decide (is_Some (mc_current_archive c)) then Err "register_snapshot failed: inside chunk_archive" else
  if file_number <? 2 then Err "register_snapshot failed: got wrong file number" else
  if file_number <? next_file_number c then Err "register_snapshot failed: got unexpected file number" else
  Ok tt.

Definition insert_snapshot_index (store path : string) (file_number : Z) (c : MediaCatalog) : MediaCatalog :=
  let content := default content_new (mc_content c !! store) in
  set_content (<[store := {| snapshot_index := <[path := file_number]> (snapshot_index content);
                             chunk_index := chunk_index content |}]> (mc_content c)) c.

Section libs.
Variables (IO : CatalogIo) (N : NsLib).

Definition register_snapshot (pad : list byte) (uuid : uuid_t) (file_number : Z) (store : string)
    (snapshot : ns_snapshot N) (c : MediaCatalog) : res unit * MediaCatalog :=
  try! _ := check_register_snapshot file_number c for c in
  let path := print_ns_and_snapshot N snapshot in
  if 255 <? Z.of_nat (length (bytes store)) then (Err "out of range integral type conversion attempted", c) else
  if 65535 <? Z.of_nat (length (bytes path)) then (Err "out of range integral type conversion attempted", c) else
  let entry := {| se_file_number := file_number; se_uuid := uuid;
                  se_store_name_len := Z.of_nat (length (bytes store));
                  se_name_len := Z.of_nat (length (bytes path)) |} in
  let c := push [x53] c in
  let c := push (snapshot_bytes pad entry) c in
  let c := push (bytes store) c in
  let c := push [x3a] c in
  let c := push (bytes path) c in
  let c := insert_snapshot_index store path file_number c in
  (Ok tt, set_last uuid file_number c).

(** ** Queries *)
Definition lookup_snapshot (store snapshot : string) (c : MediaCatalog) : option Z :=
  match mc_content c !! store with None => None | Some content => snapshot_index content !! snapshot end.
Definition contains_snapshot (store : string) (snapshot : ns_snapshot N) (c : MediaCatalog) : bool :=
  let path := print_ns_and_snapshot N snapshot in
  match mc_content c !! store with
  | None => false
  | Some content => bool_decide (is_Some (snapshot_index content !! path))
  end.
Definition lookup_chunk (store : string) (d : digest) (c : MediaCatalog) : option Z :=
  match mc_content c !! store with None => None | Some content => chunk_index content !! d end.
Definition contains_chunk (store : string) (d : digest) (c : MediaCatalog) : bool :=
  match mc_content c !! store with
  | None => false
  | Some content => bool_decide (is_Some (chunk_index content !! d))
  end.

(** ** Loading *)
Definition check_magic (magic : list byte) : res unit :=
  if bool_decide (magic = PROXMOX_BACKUP_MEDIA_CATALOG_MAGIC_1_0)
  then Err "old catalog format (v1.0) is no longer supported" else
  if bool_decide (magic = PROXMOX_BACKUP_MEDIA_CATALOG_MAGIC_1_1) then Ok tt else Err "wrong magic number".

(** The branches for the types of records; the result is the catalog, the uuid of the media set if it is known
    now, and the rest of the file. *)
Definition load_chunk_entry (c : MediaCatalog) (file : list byte) : res (MediaCatalog * list byte) :=
  match mc_current_archive c with
  | None => Err "register_chunk failed: no archive started"
  | Some (_, file_number, store) =>
      let? (d, file) := io_read_exact IO 32 file in
      let? c := insert_chunk_index store d file_number c in
      Ok (c, file)
  end.
Definition load_archive_start (c : MediaCatalog) (file : list byte) : res (MediaCatalog * list byte) :=
  let? (entry, file) := io_le_value IO 32 file in
  let entry := archive_start_of_bytes entry in
  let file_number := as_file_number entry in
  let uuid := as_uuid entry in
  let? (store, file) := io_exact_allocated IO (Z.to_nat (as_store_name_len entry)) file in
  let? store := from_utf8 store in
  let? _ := check_start_chunk_archive file_number c in
  let c := set_content (entry_or_default store (mc_content c)) c in
  Ok (set_current (Some (uuid, file_number, store)) c, file).
Definition load_archive_end (c : MediaCatalog) (file : list byte) : res (MediaCatalog * list byte) :=
  let? (entry, file) := io_le_value IO 24 file in
  let entry := archive_end_of_bytes entry in
  let? _ := check_end_chunk_archive (ae_uuid entry) (ae_file_number entry) c in
  Ok (set_last (ae_uuid entry) (ae_file_number entry) (set_current None c), file).
Definition load_snapshot_entry (c : MediaCatalog) (file : list byte) : res (MediaCatalog * list byte) :=
  let? (entry, file) := io_le_value IO 32 file in
  let entry := snapshot_of_bytes entry in
  let file_number := se_file_number entry in
  let store_name_len := Z.to_nat (se_store_name_len entry) in
  let? (store, file) := io_exact_allocated IO (store_name_len + 1) file in
  match store !! store_name_len with
  | None => Panic "index out of bounds"
  | Some sep =>
      if negb (bool_decide (sep = x3a)) then Err "parse-error: missing separator in SnapshotEntry" else
      let? store := from_utf8 (take store_name_len store) in
      let? (snapshot, file) := io_exact_allocated IO (Z.to_nat (se_name_len entry)) file in
      let? snapshot := from_utf8 snapshot in
      let? _ := parse_ns_and_snapshot N snapshot in
      let? _ := check_register_snapshot file_number c in
      let c := insert_snapshot_index store snapshot file_number c in
      Ok (set_last (se_uuid entry) file_number c, file)
  end.
Definition load_label (media_set_label : option MediaSetLabel) (c : MediaCatalog) (set_uuid : option uuid_t)
    (file : list byte) : res (MediaCatalog * option uuid_t * list byte) :=
  let? (entry, file) := io_le_value IO 32 file in
  let entry := label_of_bytes entry in
  let file_number := le_file_number entry in
  let uuid := le_uuid entry in
  let? _ := check_register_label file_number uuid c in
  let? set_uuid :=
    if file_number =? 1 then
      match media_set_label with
      | Some set =>
          if negb (bool_decide (ms_uuid set = uuid)) then Err "got unexpected media set uuid" else
          if negb (ms_seq_nr set =? le_seq_nr entry) then Err "got unexpected media set sequence number" else
          Ok (Some uuid)
      | None => Ok (Some uuid)
      end
    else Ok set_uuid in
  Ok (set_last uuid file_number c, set_uuid, file).

Definition load_entry (media_set_label : option MediaSetLabel) (entry_type : byte) (c : MediaCatalog)
    (set_uuid : option uuid_t) (file : list byte) : res (MediaCatalog * option uuid_t * list byte) :=
  if bool_decide (entry_type = x43) then
    let? (c, file) := load_chunk_entry c file in Ok (c, set_uuid, file)
  else if bool_decide (entry_type = x41) then
    let? (c, file) := load_archive_start c file in Ok (c, set_uuid, file)
  else if bool_decide (entry_type = x45) then
    let? (c, file) := load_archive_end c file in Ok (c, set_uuid, file)
  else if bool_decide (entry_type = x53) then
    let? (c, file) := load_snapshot_entry c file in Ok (c, set_uuid, file)
  else if bool_decide (entry_type = x4c) then load_label media_set_label c set_uuid file
  else Err "unknown entry type".

(** The loop after the magic number; every record has a byte for its type. *)
Fixpoint load_entries (fuel : nat) (media_set_label : option MediaSetLabel) (c : MediaCatalog)
    (set_uuid : option uuid_t) (file : list byte) : res (MediaCatalog * option uuid_t) :=
  match fuel with
  | O => Panic "out of fuel"
  | S fuel =>
      let? r := io_exact_or_eof IO 1 file in
      match r with
      | None => Ok (c, set_uuid)
      | Some (entry_type, file) =>
          let? entry_type := unwrap (head entry_type) in
          let? (c, set_uuid, file) := load_entry media_set_label entry_type c set_uuid file in
          load_entries fuel media_set_label c set_uuid file
      end
  end.
(** The catalog, whether the magic number was found, and the uuid of the media set. *)
Definition load_catalog (media_set_label : option MediaSetLabel) (c : MediaCatalog) (file : list byte)
    : res (MediaCatalog * bool * option uuid_t) :=
  let? r := io_exact_or_eof IO 8 file in
  match r with
  | None => Ok (c, false, None)
  | Some (magic, file) =>
      let? _ := check_magic magic in
      let? (c, set_uuid) := load_entries (S (length file)) media_set_label c None file in
      Ok (c, true, set_uuid)
  end.

Definition parse_catalog_header (file : list byte) : res (bool * option uuid_t * option uuid_t) :=
  let? r := io_exact_or_eof IO 8 file in
  match r with
  | None => Ok (false, None, None)
  | Some (magic, file) =>
      let? _ := check_magic magic in
      let? r := io_exact_or_eof IO 1 file in
      match r with
      | None => Ok (true, None, None)
      | Some (entry_type, file) =>
          let? entry_type := unwrap (head entry_type) in
          if negb (bool_decide (entry_type = x4c)) then Err "got unexpected entry type" else
          let? (entry0, file) := io_le_value IO 32 file in
          let? r := io_exact_or_eof IO 1 file in
          match r with
          | None => Ok (true, Some (le_uuid (label_of_bytes entry0)), None)
          | Some (entry_type, file) =>
              let? entry_type := unwrap (head entry_type) in
              if negb (bool_decide (entry_type = x4c)) then Err "got unexpected entry type" else
              let? (entry1, file) := io_le_value IO 32 file in
              Ok (true, Some (le_uuid (label_of_bytes entry0)), Some (le_uuid (label_of_bytes entry1)))
          end
      end
  end.
End libs.

(** ** Files *)
Record Disk := { d_inodes : gmap nat (list byte); d_names : gmap (uuid_t * string) nat }.
Definition catalog_path (uuid : uuid_t) : uuid_t * string := (uuid, "log").
Definition tmp_catalog_path (uuid : uuid_t) : uuid_t * string := (uuid, "tmp").
Definition set_inode (i : nat) (data : list byte) (d : Disk) : Disk :=
  {| d_inodes := <[i := data]> (d_inodes d); d_names := d_names d |}.
Definition remove_name (path : uuid_t * string) (d : Disk) : Disk :=
  {| d_inodes := d_inodes d; d_names := delete path (d_names d) |}.
Definition create_file (path : uuid_t * string) (d : Disk) : nat * Disk :=
  let i := fresh (dom (d_inodes d)) in
  (i, {| d_inodes := <[i := []]> (d_inodes d); d_names := <[path := i]> (d_names d) |}).
Definition rename_file (src dst : uuid_t * string) (d : Disk) : option Disk :=
  match d_names d !! src with
  | None => None
  | Some i => Some {| d_inodes := d_inodes d; d_names := <[dst := i]> (delete src (d_names d)) |}
  end.
(** Writing at a position, also behind the end. *)
Definition write_file (pos : nat) (k data : list byte) : list byte :=
  resize pos x00 data ++ k ++ drop (pos + length k) data.

Definition catalog_exists (uuid : uuid_t) (d : Disk) : bool :=
  bool_decide (is_Some (d_names d !! catalog_path uuid)).

(** [removable]: the outcome of a removal of a file that exists. *)
Definition destroy (uuid : uuid_t) (removable : bool) (d : Disk) : res unit * Disk :=
  match d_names d !! catalog_path uuid with
  | None => (Ok tt, d)
  | Some _ => if removable then (Ok tt, remove_name (catalog_path uuid) d) else (Err "unlink failed", d)
  end.

(** The outcomes in [commit]: of the two calls of [flock], how much [write_all] writes if it fails, and of
    [sync_data]. *)
Record CommitOutcome := { co_lock : bool; co_write_fails : option nat; co_sync : bool; co_unlock : bool }.
Definition commit (o : CommitOutcome) (c : MediaCatalog) (d : Disk) : res unit * (MediaCatalog * Disk) :=
  if bool_decide (mc_pending c = []) then (Ok tt, (c, d)) else
  match mc_file c with
  | None => (Err "media catalog not writable (opened read only)", (c, d))
  | Some h =>
      if negb (co_lock o) then (Err "flock failed", (c, d)) else
      let written := match co_write_fails o with Some n => take n (mc_pending c) | None => mc_pending c end in
      let d := set_inode (fh_inode h) (write_file (fh_pos h) written (default [] (d_inodes d !! fh_inode h))) d in
      let c := set_file (Some {| fh_inode := fh_inode h; fh_pos := fh_pos h + length written |}) c in
      let result :=
        match co_write_fails o with
        | Some _ => Err "write failed"
        | None => if co_sync o then Ok tt else Err "sync failed"
        end in
      if negb (co_unlock o) then (Err "flock failed", (c, d)) else
      let! _, s := (result, (c, d)) in
      let '(c, d) := s in
      (Ok tt, (set_pending [] c, d))
  end.
Definition commit_if_large (o : CommitOutcome) (c : MediaCatalog) (d : Disk) : res unit * (MediaCatalog * Disk) :=
  if bool_decide (is_Some (mc_current_archive c))
  then (Err "can't commit catalog in the middle of an chunk archive", (c, d)) else
  if 1024 * 1024 <? Z.of_nat (length (mc_pending c)) then commit o c d else (Ok tt, (c, d)).

(** The outcomes of the calls of the operating system in [open] and for temporary files. *)
Record OpenOutcome := { oo_basedir : bool; oo_open : bool; oo_chown : bool; oo_lock : bool; oo_unlock : bool }.

Definition create_temporary_database_file (o : OpenOutcome) (uuid : uuid_t) (d : Disk) : res Handle * Disk :=
  if negb (oo_basedir o) then (Err "unable to create media catalog dir", d) else
  if negb (oo_open o) then (Err "open failed", d) else
  let '(i, d) :=
    match d_names d !! tmp_catalog_path uuid with
    | Some i => (i, set_inode i [] d)
    | None => create_file (tmp_catalog_path uuid) d
    end in
  if negb (oo_chown o) then (Err "fchown failed", d) else
  (Ok {| fh_inode := i; fh_pos := 0 |}, d).

Definition create_temporary_database (o : OpenOutcome) (co : CommitOutcome) (media_id : MediaId) (d : Disk)
    : res MediaCatalog * Disk :=
  let uuid := ml_uuid (mi_label media_id) in
  let! file, d := create_temporary_database_file o uuid d in
  let me := set_file (Some file) (catalog_empty uuid) in
  let me := push PROXMOX_BACKUP_MEDIA_CATALOG_MAGIC_1_1 me in
  let '(r, me) := register_label uuid 0 0 me in
  try! _ := r for d in
  let '(r, me) :=
    match mi_media_set_label media_id with
    | Some set => register_label (ms_uuid set) (ms_seq_nr set) 1 me
    | None => (Ok tt, me)
    end in
  try! _ := r for d in
  let '(r, (me, d)) := commit co me d in
  try! _ := r for d in
  (Ok me, d).

(** [renamed], [removable]: the outcomes of the last step. *)
Definition finish_temporary_database (uuid : uuid_t) (do_commit renamed removable : bool) (d : Disk)
    : res unit * Disk :=
  if do_commit then
    match (if renamed then rename_file (tmp_catalog_path uuid) (catalog_path uuid) d else None) with
    | Some d => (Ok tt, d)
    | None => (Err "Atomic rename catalog failed", d)
    end
  else if removable && bool_decide (is_Some (d_names d !! tmp_catalog_path uuid))
  then (Ok tt, remove_name (tmp_catalog_path uuid) d) else (Err "unlink failed", d).

Definition overwrite (o : OpenOutcome) (co : CommitOutcome) (renamed : bool) (media_id : MediaId) (d : Disk)
    : res MediaCatalog * Disk :=
  let uuid := ml_uuid (mi_label media_id) in
  let! me, d := create_temporary_database o co media_id d in
  let! _, d := finish_temporary_database uuid true renamed false d in
  (Ok me, d).

Section libs.
Variables (IO : CatalogIo) (N : NsLib).

(** [open]: after [load_catalog] the position is at the end of the file. *)
Definition open (o : OpenOutcome) (media_id : MediaId) (write create : bool) (d : Disk) : res MediaCatalog * Disk :=
  let uuid := ml_uuid (mi_label media_id) in
  let path := catalog_path uuid in
  if negb (oo_basedir o) then (Err "unable to open media catalog", d) else
  if (create && negb write) || negb (oo_open o) then (Err "unable to open media catalog", d) else
  let! i, d :=
    match d_names d !! path with
    | Some i => (Ok i, d)
    | None =>
        if create then let '(i, d) := create_file path d in (Ok i, d)
        else (Err "unable to open media catalog", d)
    end in
  if negb (oo_chown o) then (Err "unable to open media catalog", d) else
  if negb (oo_lock o) then (Err "unable to open media catalog", d) else
  let data := default [] (d_inodes d !! i) in
  let result := load_catalog IO N (mi_media_set_label media_id) (catalog_empty uuid) data in
  if negb (oo_unlock o) then (Err "unable to open media catalog", d) else
  try! (me, found_magic_number, _) := result for d in
  let me := if (found_magic_number : bool) then me else push PROXMOX_BACKUP_MEDIA_CATALOG_MAGIC_1_1 me in
  let me := if write then set_file (Some {| fh_inode := i; fh_pos := length data |}) me else me in
  (Ok me, d).

(** [readable]: whether the file can be opened if it exists; [removable] as above. *)
Definition destroy_unrelated_catalog (readable removable : bool) (media_id : MediaId) (d : Disk) : res unit * Disk :=
  let uuid := ml_uuid (mi_label media_id) in
  let path := catalog_path uuid in
  let remove := if removable then (Ok tt, remove_name path d) else (Err "unlink failed", d) in
  match d_names d !! path with
  | None => (Ok tt, d)
  | Some i =>
      if negb readable then (Err "open failed", d) else
      match mi_media_set_label media_id with
      | None => remove
      | Some set =>
          try! (found_magic_number, media_uuid, media_set_uuid) :=
            parse_catalog_header IO (default [] (d_inodes d !! i)) for d in
          if negb found_magic_number then (Ok tt, d) else
          if match media_uuid with Some u => negb (bool_decide (u = uuid)) | None => false end then remove else
          match media_set_uuid with
          | Some u => if negb (bool_decide (u = ms_uuid set)) then remove else (Ok tt, d)
          | None => (Ok tt, d)
          end
      end
  end.

(** ** Sets of catalogs

    The order in which a [HashMap] is iterated is not specified: [order] has its entries in some order. *)
Record MediaSetCatalog := { catalog_list : gmap uuid_t MediaCatalog }.
Definition set_append_catalog (c : MediaCatalog) (s : MediaSetCatalog) : res unit * MediaSetCatalog :=
  if bool_decide (is_Some (catalog_list s !! mc_uuid c)) then (Err "MediaSetCatalog already contains media", s)
  else (Ok tt, {| catalog_list := <[mc_uuid c := c]> (catalog_list s) |}).
Definition set_remove_catalog (uuid : uuid_t) (s : MediaSetCatalog) : MediaSetCatalog :=
  {| catalog_list := delete uuid (catalog_list s) |}.
Fixpoint set_contains_snapshot (order : list (uuid_t * MediaCatalog)) (store : string)
    (snapshot : ns_snapshot N) : bool :=
  match order with
  | [] => false
  | (_, c) :: order => if contains_snapshot N store snapshot c then true else set_contains_snapshot order store snapshot
  end.
Fixpoint set_lookup_snapshot (order : list (uuid_t * MediaCatalog)) (store snapshot : string) : option (uuid_t * Z) :=
  match order with
  | [] => None
  | (uuid, c) :: order =>
      match lookup_snapshot store snapshot c with
      | Some nr => Some (uuid, nr)
      | None => set_lookup_snapshot order store snapshot
      end
  end.
Fixpoint set_contains_chunk (order : list (uuid_t * MediaCatalog)) (store : string) (d : digest) : bool :=
  match order with
  | [] => false
  | (_, c) :: order => if contains_chunk store d c then true else set_contains_chunk order store d
  end.
Fixpoint set_lookup_chunk (order : list (uuid_t * MediaCatalog)) (store : string) (d : digest) : option (uuid_t * Z) :=
  match order with
  | [] => None
  | (uuid, c) :: order =>
      match lookup_chunk store d c with
      | Some nr => Some (uuid, nr)
      | None => set_lookup_chunk order store d
      end
  end.

(** [CatalogSet] *)
Record CatalogSet := { cs_set : MediaSetCatalog; cs_catalog : option MediaCatalog }.
Definition append_read_only_catalog (c : MediaCatalog) (s : CatalogSet) : res unit * CatalogSet :=
  let '(r, set) := set_append_catalog c (cs_set s) in (r, {| cs_set := set; cs_catalog := cs_catalog s |}).
Definition cs_contains_snapshot (order : list (uuid_t * MediaCatalog)) (store : string) (snapshot : ns_snapshot N)
    (s : CatalogSet) : bool :=
  match cs_catalog s with
  | Some c => if contains_snapshot N store snapshot c then true else set_contains_snapshot order store snapshot
  | None => set_contains_snapshot order store snapshot
  end.
Definition cs_contains_chunk (order : list (uuid_t * MediaCatalog)) (store : string) (d : digest)
    (s : CatalogSet) : bool :=
  match cs_catalog s with
  | Some c => if contains_chunk store d c then true else set_contains_chunk order store d
  | None => set_contains_chunk order store d
  end.
Definition cs_append_catalog (new_catalog : MediaCatalog) (s : CatalogSet) : res unit * CatalogSet :=
  let! _, s :=
    match cs_catalog s with
    | Some c =>
        let '(r, set) := set_append_catalog c (cs_set s) in (r, {| cs_set := set; cs_catalog := None |})
    | None => (Ok tt, s)
    end in
  (Ok tt, {| cs_set := set_remove_catalog (mc_uuid new_catalog) (cs_set s); cs_catalog := Some new_catalog |}).
Definition cs_update (op : MediaCatalog -> res unit * MediaCatalog) (s : CatalogSet) : res unit * CatalogSet :=
  match cs_catalog s with
  | Some c => let '(r, c) := op c in (r, {| cs_set := cs_set s; cs_catalog := Some c |})
  | None => (Err "no catalog loaded - internal error", s)
  end.
Definition cs_register_snapshot pad uuid file_number store (snapshot : ns_snapshot N) : CatalogSet -> res unit * CatalogSet :=
  cs_update (register_snapshot N pad uuid file_number store snapshot).
Definition cs_register_chunk_archive pad uuid file_number store chunk_list : CatalogSet -> res unit * CatalogSet :=
  cs_update (register_chunk_archive pad uuid file_number store chunk_list).
Definition cs_commit (o : CommitOutcome) (s : CatalogSet) (d : Disk) : res unit * (CatalogSet * Disk) :=
  match cs_catalog s with
  | Some c =>
      let '(r, (c, d)) := commit o c d in (r, ({| cs_set := cs_set s; cs_catalog := Some c |}, d))
  | None => (Ok tt, (s, d))
  end.
End libs.
