(* ===== verification/MediaCatalogSpec.v ===== *)
(** * Correctness of media catalogs

    The log and the catalog in memory agree: every operation keeps the catalog well-formed, a committed catalog
    is read back as it was, and what a crash during a commit leaves is either rejected or a state that
    the catalog had. *)

From S2P Require Import Prelude IndexFile MediaLabel MediaCatalog.
From Stdlib Require Import Strings.Byte.

(** proxmox-io on a file that can be read. *)
Class CatalogIoLaws (IO : CatalogIo) := {
  or_eof_end n : io_exact_or_eof IO (S n) [] = Ok None;
  or_eof_ok a b : a <> [] -> io_exact_or_eof IO (length a) (a ++ b) = Ok (Some (a, b));
  or_eof_short n l : l <> [] -> (length l < n)%nat -> exists e, io_exact_or_eof IO n l = Err e;
  allocated_ok a b : io_exact_allocated IO (length a) (a ++ b) = Ok (a, b);
  allocated_short n l : (length l < n)%nat -> exists e, io_exact_allocated IO n l = Err e;
  le_value_ok a b : io_le_value IO (length a) (a ++ b) = Ok (a, b);
  le_value_short n l : (length l < n)%nat -> exists e, io_le_value IO n l = Err e;
  exact_ok a b : io_read_exact IO (length a) (a ++ b) = Ok (a, b);
  exact_short n l : (length l < n)%nat -> exists e, io_read_exact IO n l = Err e;
}.
(** Names of snapshots are UTF-8 strings, and can be parsed again. *)
Class NsLaws (N : NsLib) := {
  print_utf8 s : utf8_valid (bytes (print_ns_and_snapshot N s)) = true;
  parse_print s : is_ok (parse_ns_and_snapshot N (print_ns_and_snapshot N s)) = true;
}.

Section catalog.
Context (IO : CatalogIo) `{!CatalogIoLaws IO} (N : NsLib) `{!NsLaws N}.

(** ** Records *)
Inductive record :=
| RLabel (uuid : uuid_t) (seq_nr file_number : Z)
| RStart (pad : list byte) (uuid : uuid_t) (file_number : Z) (store : string)
| RChunk (d : digest)
| REnd (uuid : uuid_t) (file_number : Z)
| RSnapshot (pad : list byte) (uuid : uuid_t) (file_number : Z) (store path : string).

Definition record_type (r : record) : byte :=
  match r with
  | RLabel _ _ _ => x4c | RStart _ _ _ _ => x41 | RChunk _ => x43 | REnd _ _ => x45 | RSnapshot _ _ _ _ _ => x53
  end.
Definition record_head (r : record) : list byte :=
  match r with
  | RLabel u s n => label_bytes {| le_file_number := n; le_uuid := u; le_seq_nr := s |}
  | RStart pad u n store => archive_start_bytes pad
      {| as_file_number := n; as_uuid := u; as_store_name_len := Z.of_nat (length (bytes store)) |}
  | RChunk d => d
  | REnd u n => archive_end_bytes {| ae_file_number := n; ae_uuid := u |}
  | RSnapshot pad u n store path => snapshot_bytes pad
      {| se_file_number := n; se_uuid := u; se_store_name_len := Z.of_nat (length (bytes store));
         se_name_len := Z.of_nat (length (bytes path)) |}
  end.
Definition record_tail (r : record) : list byte :=
  match r with
  | RStart _ _ _ store => bytes store
  | RSnapshot _ _ _ store path => (bytes store ++ [x3a]) ++ bytes path
  | _ => []
  end.
Definition record_bytes (r : record) : list byte := record_type r :: record_head r ++ record_tail r.

(** The numbers of the files on a tape are below the largest [u64]. *)
Definition file_number_ok (n : Z) : Prop := 0 <= n < U64_MAX.
Lemma file_number_u64 n : file_number_ok n -> in_u64 n.
Proof. unfold file_number_ok, in_u64. lia. Qed.
Definition store_ok (store : string) : Prop :=
  Z.of_nat (length (bytes store)) <= 255 /\ utf8_valid (bytes store) = true.
Definition record_ok (r : record) : Prop :=
  match r with
  | RLabel u s n => length u = 16%nat /\ in_u64 s /\ file_number_ok n
  | RStart _ u n store => length u = 16%nat /\ file_number_ok n /\ store_ok store
  | RChunk d => length d = 32%nat
  | REnd u n => length u = 16%nat /\ file_number_ok n
  | RSnapshot _ u n store path => length u = 16%nat /\ file_number_ok n /\ store_ok store /\
      Z.of_nat (length (bytes path)) <= 65535 /\ utf8_valid (bytes path) = true /\
      is_ok (parse_ns_and_snapshot N path) = true
  end.

(** What a record does to the catalog in memory. *)
Definition apply (r : record) (c : MediaCatalog) : res MediaCatalog :=
  match r with
  | RLabel u _ n => let? _ := check_register_label n u c in Ok (set_last u n c)
  | RStart _ u n store =>
      let? _ := check_start_chunk_archive n c in
      Ok (set_current (Some (u, n, store)) (set_content (entry_or_default store (mc_content c)) c))
  | RChunk d =>
      match mc_current_archive c with
      | None => Err "register_chunk failed: no archive started"
      | Some (_, n, store) => insert_chunk_index store d n c
      end
  | REnd u n =>
      let? _ := check_end_chunk_archive u n c in Ok (set_last u n (set_current None c))
  | RSnapshot _ u n store path =>
      let? _ := check_register_snapshot n c in Ok (set_last u n (insert_snapshot_index store path n c))
  end.
Fixpoint replay (log : list record) (c : MediaCatalog) : res MediaCatalog :=
  match log with [] => Ok c | r :: log => let? c := apply r c in replay log c end.

(** The label of a media set is the expected one. *)
Definition label_ok (label : option MediaSetLabel) (r : record) : Prop :=
  match r, label with
  | RLabel u s n, Some set => n = 1 -> ms_uuid set = u /\ ms_seq_nr set = s
  | _, _ => True
  end.
Definition next_set_uuid (r : record) (set_uuid : option uuid_t) : option uuid_t :=
  match r with RLabel u _ n => if n =? 1 then Some u else set_uuid | _ => set_uuid end.

(** ** Reading a record *)
Lemma take_front {A} (a b : list A) n : length a = n -> take n (a ++ b) = a.
Proof. intros <-. by rewrite take_app_length. Qed.
Lemma take_field {A} (pre a b : list A) n k : length pre = n -> length a = k -> take k (drop n (pre ++ a ++ b)) = a.
Proof. intros <- <-. by rewrite drop_app_length, take_app_length. Qed.
Lemma from_utf8_bytes s : utf8_valid (bytes s) = true -> from_utf8 (bytes s) = Ok s.
Proof. intros H. unfold from_utf8, bytes in *. rewrite H. f_equal. apply String.string_of_list_byte_of_string. Qed.
Lemma le_val_small k z : 0 <= z < 256 ^ Z.of_nat k -> le_val (le_bytes k z) = z.
Proof. intros. rewrite le_val_bytes. by apply Z.mod_small. Qed.

Lemma label_roundtrip e :
  length (le_uuid e) = 16%nat -> in_u64 (le_file_number e) -> in_u64 (le_seq_nr e) ->
  label_of_bytes (label_bytes e) = e /\ length (label_bytes e) = 32%nat.
Proof.
  destruct e as [n u s]. cbn [le_file_number le_uuid le_seq_nr]. intros Hu Hn Hs.
  unfold label_of_bytes, label_bytes. cbn [le_file_number le_uuid le_seq_nr].
  rewrite !length_app, !length_le_bytes, Hu. split; [|done].
  rewrite (take_front (le_bytes 8 n)), (take_field (le_bytes 8 n) u) by (done || apply length_le_bytes).
  rewrite (assoc_L (++)), <- (app_nil_r (le_bytes 8 s)), (take_field (le_bytes 8 n ++ u)).
  - by rewrite !le_val_u64_bytes.
  - by rewrite length_app, length_le_bytes, Hu.
  - apply length_le_bytes.
Qed.
Lemma archive_start_roundtrip pad e :
  length (as_uuid e) = 16%nat -> in_u64 (as_file_number e) -> 0 <= as_store_name_len e <= 255 ->
  archive_start_of_bytes (archive_start_bytes pad e) = e /\ length (archive_start_bytes pad e) = 32%nat.
Proof.
  destruct e as [n u l]. cbn [as_uuid as_file_number as_store_name_len]. intros Hu Hn Hl.
  unfold archive_start_of_bytes, archive_start_bytes. cbn [as_uuid as_file_number as_store_name_len].
  rewrite !length_app, !length_le_bytes, Hu, length_resize. split; [|done].
  rewrite (take_front (le_bytes 8 n)), (take_field (le_bytes 8 n) u) by (done || apply length_le_bytes).
  rewrite (assoc_L (++)), (take_field (le_bytes 8 n ++ u)).
  - rewrite le_val_u64_bytes, le_val_small by (done || cbn; lia). done.
  - by rewrite length_app, length_le_bytes, Hu.
  - apply length_le_bytes.
Qed.
Lemma archive_end_roundtrip e :
  length (ae_uuid e) = 16%nat -> in_u64 (ae_file_number e) ->
  archive_end_of_bytes (archive_end_bytes e) = e /\ length (archive_end_bytes e) = 24%nat.
Proof.
  destruct e as [n u]. cbn [ae_file_number ae_uuid]. intros Hu Hn.
  unfold archive_end_of_bytes, archive_end_bytes. cbn [ae_file_number ae_uuid].
  rewrite !length_app, !length_le_bytes, Hu. split; [|done].
  rewrite (take_front (le_bytes 8 n)) by apply length_le_bytes.
  rewrite <- (app_nil_r u) at 1. rewrite (take_field (le_bytes 8 n) u) by (done || apply length_le_bytes).
  by rewrite le_val_u64_bytes.
Qed.
Lemma snapshot_entry_roundtrip pad e :
  length (se_uuid e) = 16%nat -> in_u64 (se_file_number e) -> 0 <= se_store_name_len e <= 255 ->
  0 <= se_name_len e <= 65535 ->
  snapshot_of_bytes (snapshot_bytes pad e) = e /\ length (snapshot_bytes pad e) = 32%nat.
Proof.
  destruct e as [n u l k]. cbn [se_uuid se_file_number se_store_name_len se_name_len]. intros Hu Hn Hl Hk.
  unfold snapshot_of_bytes, snapshot_bytes. cbn [se_uuid se_file_number se_store_name_len se_name_len].
  rewrite !length_app, !length_le_bytes, Hu, !length_resize. split; [|done].
  rewrite (take_front (le_bytes 8 n)), (take_field (le_bytes 8 n) u) by (done || apply length_le_bytes).
  assert (length (le_bytes 8 n ++ u) = 24%nat) as H24 by (by rewrite length_app, length_le_bytes, Hu).
  rewrite (assoc_L (++)), (take_field (le_bytes 8 n ++ u) (le_bytes 1 l)) by (done || apply length_le_bytes).
  assert (length ((le_bytes 8 n ++ u) ++ le_bytes 1 l ++ resize 1 x00 pad) = 26%nat) as H26.
  { by rewrite length_app, H24, length_app, length_le_bytes, length_resize. }
  replace ((le_bytes 8 n ++ u) ++ le_bytes 1 l ++ resize 1 x00 pad ++ le_bytes 2 k ++ resize 4 x00 (drop 1 pad))
    with (((le_bytes 8 n ++ u) ++ le_bytes 1 l ++ resize 1 x00 pad) ++ le_bytes 2 k ++ resize 4 x00 (drop 1 pad))
    by (by rewrite <- !(assoc_L (++))).
  rewrite (take_field _ (le_bytes 2 k)) by (done || apply length_le_bytes).
  rewrite le_val_u64_bytes, !le_val_small by (done || cbn; lia). done.
Qed.


(** The branch that a type of record selects. *)
Lemma load_entry_type label r c set_uuid file :
  load_entry IO N label (record_type r) c set_uuid file =
  match r with
  | RLabel _ _ _ => load_label IO label c set_uuid file
  | RStart _ _ _ _ => let? (c, file) := load_archive_start IO c file in Ok (c, set_uuid, file)
  | RChunk _ => let? (c, file) := load_chunk_entry IO c file in Ok (c, set_uuid, file)
  | REnd _ _ => let? (c, file) := load_archive_end IO c file in Ok (c, set_uuid, file)
  | RSnapshot _ _ _ _ _ => let? (c, file) := load_snapshot_entry IO N c file in Ok (c, set_uuid, file)
  end.
Proof. by destruct r. Qed.

Definition head_size (r : record) : nat :=
  match r with RLabel _ _ _ | RStart _ _ _ _ | RChunk _ | RSnapshot _ _ _ _ _ => 32 | REnd _ _ => 24 end.
Lemma length_head r : record_ok r -> length (record_head r) = head_size r.
Proof.
  destruct r as [u s n|pad u n store|d|u n|pad u n store path]; cbn [record_ok record_head head_size]; unfold store_ok.
  - intros (? & ? & ?%file_number_u64). by apply label_roundtrip.
  - intros (? & ?%file_number_u64 & ? & ?). apply archive_start_roundtrip; cbn; [done|done|lia].
  - done.
  - intros (? & ?%file_number_u64). by apply archive_end_roundtrip.
  - intros (? & ?%file_number_u64 & [? ?] & ? & ? & ?). apply snapshot_entry_roundtrip; cbn; [done|done|lia|lia].
Qed.
Lemma read_head r rest : record_ok r -> io_le_value IO (head_size r) (record_head r ++ rest) = Ok (record_head r, rest).
Proof. intros Hr. rewrite <- (length_head r Hr). apply le_value_ok. Qed.
Lemma read_name (name : list byte) n rest :
  Z.of_nat (length name) = n -> io_exact_allocated IO (Z.to_nat n) (name ++ rest) = Ok (name, rest).
Proof. intros <-. rewrite Nat2Z.id. apply allocated_ok. Qed.

Lemma load_label_record label u s n c set_uuid rest :
  record_ok (RLabel u s n) -> label_ok label (RLabel u s n) ->
  load_label IO label c set_uuid (record_head (RLabel u s n) ++ rest) =
  let? c := apply (RLabel u s n) c in Ok (c, next_set_uuid (RLabel u s n) set_uuid, rest).
Proof.
  intros Hok Hl. unfold load_label. rewrite (read_head _ rest Hok : io_le_value IO 32 _ = _). destruct Hok as (Hu & Hs & Hn%file_number_u64).
  cbn [record_head]. rewrite (proj1 (label_roundtrip {| le_file_number := n; le_uuid := u; le_seq_nr := s |} Hu Hn Hs)).
  cbn [le_file_number le_uuid le_seq_nr apply next_set_uuid]. destruct (check_register_label n u c); [|done..].
  cbn. destruct (n =? 1) eqn:E; [|done]. apply Z.eqb_eq in E. destruct label as [set|]; [|done].
  destruct (Hl E) as [-> ->]. by rewrite bool_decide_eq_true_2, Z.eqb_refl.
Qed.
Lemma load_start_record pad u n store c rest :
  record_ok (RStart pad u n store) ->
  load_archive_start IO c (record_head (RStart pad u n store) ++ bytes store ++ rest) =
  let? c := apply (RStart pad u n store) c in Ok (c, rest).
Proof.
  intros Hok. unfold load_archive_start. rewrite (read_head _ _ Hok : io_le_value IO 32 _ = _).
  destruct Hok as (Hu & Hn%file_number_u64 & Hs & H8). cbn [record_head].
  rewrite (proj1 (archive_start_roundtrip pad {| as_file_number := n; as_uuid := u;
    as_store_name_len := Z.of_nat (length (bytes store)) |} Hu Hn ltac:(cbn; lia))).
  cbn [as_file_number as_uuid as_store_name_len]. rewrite read_name by done. rewrite from_utf8_bytes by done.
  cbn [apply]. by destruct (check_start_chunk_archive n c).
Qed.
Lemma load_end_record u n c rest :
  record_ok (REnd u n) ->
  load_archive_end IO c (record_head (REnd u n) ++ rest) = let? c := apply (REnd u n) c in Ok (c, rest).
Proof.
  intros Hok. unfold load_archive_end. rewrite (read_head _ _ Hok : io_le_value IO 24 _ = _).
  destruct Hok as (Hu & Hn%file_number_u64). cbn [record_head].
  rewrite (proj1 (archive_end_roundtrip {| ae_file_number := n; ae_uuid := u |} Hu Hn)).
  cbn [ae_file_number ae_uuid apply]. by destruct (check_end_chunk_archive u n c).
Qed.
Lemma load_snapshot_record pad u n store path c rest :
  record_ok (RSnapshot pad u n store path) ->
  load_snapshot_entry IO N c (record_head (RSnapshot pad u n store path) ++ (bytes store ++ [x3a]) ++ bytes path ++ rest) =
  let? c := apply (RSnapshot pad u n store path) c in Ok (c, rest).
Proof.
  intros Hok. unfold load_snapshot_entry. rewrite (read_head _ _ Hok : io_le_value IO 32 _ = _).
  destruct Hok as (Hu & Hn%file_number_u64 & [Hs H8] & Hp & H8' & Hns). cbn [record_head].
  rewrite (proj1 (snapshot_entry_roundtrip pad {| se_file_number := n; se_uuid := u;
    se_store_name_len := Z.of_nat (length (bytes store)); se_name_len := Z.of_nat (length (bytes path)) |}
    Hu Hn ltac:(cbn; lia) ltac:(cbn; lia))).
  cbn [se_file_number se_uuid se_store_name_len se_name_len]. rewrite Nat2Z.id.
  pose proof (allocated_ok (bytes store ++ [x3a]) (bytes path ++ rest)) as Ha.
  rewrite length_app in Ha. cbn [length] in Ha. rewrite Ha.
  rewrite list_lookup_middle by done. rewrite bool_decide_eq_true_2 by done. cbn [negb].
  rewrite take_app_length, from_utf8_bytes by done. rewrite read_name by done. rewrite from_utf8_bytes by done.
  destruct (parse_ns_and_snapshot N path); [|done..]. cbn [apply]. by destruct (check_register_snapshot n c).
Qed.

Lemma load_record label r c set_uuid rest :
  record_ok r -> label_ok label r ->
  load_entry IO N label (record_type r) c set_uuid (record_head r ++ record_tail r ++ rest) =
  let? c := apply r c in Ok (c, next_set_uuid r set_uuid, rest).
Proof.
  intros Hok Hl. rewrite load_entry_type.
  destruct r as [u s n|pad u n store|d|u n|pad u n store path]; cbn [record_tail]; rewrite ?app_nil_l.
  - by apply load_label_record.
  - rewrite load_start_record by done. by destruct (apply _ c).
  - cbn [record_head]. unfold load_chunk_entry. cbn [apply]. destruct (mc_current_archive c) as [[[u n] store]|]; [|done].
    cbn in Hok. pose proof (exact_ok d rest) as He. rewrite Hok in He. rewrite He.
    by destruct (insert_chunk_index store d n c).
  - rewrite load_end_record by done. by destruct (apply _ c).
  - rewrite <- (assoc_L (++) _ (bytes path)). rewrite load_snapshot_record by done. by destruct (apply _ c).
Qed.

(** A record that is cut off is rejected. *)
Lemma take_cases {A} k (a b : list A) :
  (k < length (a ++ b))%nat ->
  ((k < length a)%nat /\ take k (a ++ b) = take k a) \/
  exists j, (j < length b)%nat /\ take k (a ++ b) = a ++ take j b.
Proof.
  rewrite length_app. intros Hk. destruct (decide (k < length a)%nat) as [Hl|Hl].
  - left. split; [done|]. by rewrite take_app_le by lia.
  - right. exists (k - length a)%nat. split; [lia|]. by rewrite take_app_ge by lia.
Qed.
Lemma take_short {A} k (a : list A) : (k < length a)%nat -> (length (take k a) < length a)%nat.
Proof. intros. rewrite length_take. lia. Qed.
Lemma read_head_short r k : record_ok r -> (k < length (record_head r))%nat ->
  exists e, io_le_value IO (head_size r) (take k (record_head r)) = Err e.
Proof. intros Hr Hk. apply le_value_short. rewrite <- (length_head r Hr). by apply take_short. Qed.
Lemma read_name_short (name : list byte) j :
  (j < length name)%nat -> exists e, io_exact_allocated IO (Z.to_nat (Z.of_nat (length name))) (take j name) = Err e.
Proof. intros Hj. rewrite Nat2Z.id. apply allocated_short. by apply take_short. Qed.

Lemma load_torn_start pad u n store c k :
  record_ok (RStart pad u n store) -> (k < length (record_head (RStart pad u n store) ++ bytes store))%nat ->
  exists e, load_archive_start IO c (take k (record_head (RStart pad u n store) ++ bytes store)) = Err e.
Proof.
  intros Hok [[Hk ->]|(j & Hj & ->)]%take_cases; unfold load_archive_start.
  - destruct (read_head_short _ _ Hok Hk) as [e He]. cbn [head_size] in He. rewrite He. by eexists.
  - rewrite (read_head _ _ Hok : io_le_value IO 32 _ = _). destruct Hok as (Hu & Hn%file_number_u64 & Hs & H8). cbn [record_head].
    rewrite (proj1 (archive_start_roundtrip pad {| as_file_number := n; as_uuid := u;
      as_store_name_len := Z.of_nat (length (bytes store)) |} Hu Hn ltac:(cbn; lia))). cbn [as_store_name_len].
    destruct (read_name_short _ _ Hj) as [e ->]. by eexists.
Qed.
Lemma load_torn_snapshot pad u n store path c k :
  record_ok (RSnapshot pad u n store path) ->
  (k < length (record_head (RSnapshot pad u n store path) ++ (bytes store ++ [x3a]) ++ bytes path))%nat ->
  exists e, load_snapshot_entry IO N c
    (take k (record_head (RSnapshot pad u n store path) ++ (bytes store ++ [x3a]) ++ bytes path)) = Err e.
Proof.
  intros Hok [[Hk ->]|(j & Hj & ->)]%take_cases; unfold load_snapshot_entry.
  { destruct (read_head_short _ _ Hok Hk) as [e He]. cbn [head_size] in He. rewrite He. by eexists. }
  rewrite (read_head _ _ Hok : io_le_value IO 32 _ = _). destruct Hok as (Hu & Hn%file_number_u64 & [Hs H8] & Hp & H8' & Hns).
  cbn [record_head]. rewrite (proj1 (snapshot_entry_roundtrip pad {| se_file_number := n; se_uuid := u;
    se_store_name_len := Z.of_nat (length (bytes store)); se_name_len := Z.of_nat (length (bytes path)) |}
    Hu Hn ltac:(cbn; lia) ltac:(cbn; lia))).
  cbn [se_file_number se_uuid se_store_name_len se_name_len]. rewrite Nat2Z.id.
  assert (length (bytes store ++ [x3a]) = length (bytes store) + 1)%nat as Hl by by rewrite length_app.
  rewrite <- Hl. apply take_cases in Hj as [[Hk ->]|(j' & Hj' & ->)].
  - destruct (allocated_short _ _ (take_short _ _ Hk)) as [e ->]. by eexists.
  - rewrite allocated_ok, list_lookup_middle by done. rewrite bool_decide_eq_true_2 by done. cbn [negb].
    rewrite take_app_length, from_utf8_bytes by done. destruct (read_name_short _ _ Hj') as [e ->]. by eexists.
Qed.

Lemma load_torn label r c set_uuid k :
  record_ok r -> (k < length (record_head r ++ record_tail r))%nat ->
  exists e, load_entry IO N label (record_type r) c set_uuid (take k (record_head r ++ record_tail r)) = Err e.
Proof.
  intros Hok Hk. rewrite load_entry_type.
  destruct r as [u s n|pad u n store|d|u n|pad u n store path]; cbn [record_tail] in *; rewrite ?app_nil_r in *.
  - destruct (read_head_short _ _ Hok Hk) as [e He]. unfold load_label. cbn [head_size] in He. rewrite He. by eexists.
  - destruct (load_torn_start pad u n store c k Hok Hk) as [e ->]. by eexists.
  - unfold load_chunk_entry. destruct (mc_current_archive c) as [[[??]?]|]; [|by eexists]. cbn [record_head] in *.
    destruct (exact_short _ _ (take_short _ _ Hk)) as [e He]. cbn in Hok. rewrite Hok in He. rewrite He. by eexists.
  - destruct (read_head_short _ _ Hok Hk) as [e He]. unfold load_archive_end. cbn [head_size] in He. rewrite He. by eexists.
  - destruct (load_torn_snapshot pad u n store path c k Hok Hk) as [e ->]. by eexists.
Qed.

(** ** Loading a log *)
Definition log_bytes (log : list record) : list byte := concat (record_bytes <$> log).
Definition log_ok (label : option MediaSetLabel) (log : list record) : Prop :=
  Forall (fun r => record_ok r /\ label_ok label r) log.
Definition log_set_uuid (log : list record) (set_uuid : option uuid_t) : option uuid_t :=
  foldl (fun s r => next_set_uuid r s) set_uuid log.

Lemma load_log label log : forall fuel c c' set_uuid,
  log_ok label log -> replay log c = Ok c' -> (length (log_bytes log) < fuel)%nat ->
  load_entries IO N fuel label c set_uuid (log_bytes log) = Ok (c', log_set_uuid log set_uuid).
Proof.
  induction log as [|r log IH]; intros fuel c c' su Hok Hr Hf; (destruct fuel as [|fuel]; [lia|]); cbn [load_entries].
  - cbn in Hr. injection Hr as ->. cbn. by rewrite or_eof_end.
  - apply Forall_cons in Hok as [[Hro Hrl] Hok]. cbn in Hr. destruct (apply r c) as [c1| |] eqn:Ea; [|done..].
    unfold log_bytes in *. cbn [fmap list_fmap concat] in *.
    change (record_bytes r ++ concat (record_bytes <$> log))
      with ([record_type r] ++ (record_head r ++ record_tail r) ++ concat (record_bytes <$> log)).
    rewrite (or_eof_ok [record_type r]) by done. cbn [unwrap head]. rewrite <- (assoc_L (++)).
    rewrite load_record by done. rewrite Ea. apply IH; [done|done|]. rewrite length_app in Hf. cbn in Hf. lia.
Qed.

(** A prefix of a log is rejected or is a shorter log. *)
Lemma load_prefix label log : forall fuel c c' set_uuid k,
  log_ok label log -> replay log c = Ok c' -> (k < fuel)%nat ->
  (exists e, load_entries IO N fuel label c set_uuid (take k (log_bytes log)) = Err e) \/
  exists log1 log2 c1 su, log = log1 ++ log2 /\ replay log1 c = Ok c1 /\
    load_entries IO N fuel label c set_uuid (take k (log_bytes log)) = Ok (c1, su).
Proof.
  induction log as [|r log IH]; intros fuel c c' su k Hok Hr Hf; (destruct fuel as [|fuel]; [lia|]).
  - right. exists [], [], c, su. split_and!; [done..|]. cbn. by rewrite take_nil, or_eof_end.
  - apply Forall_cons in Hok as [[Hro Hrl] Hok]. cbn in Hr. destruct (apply r c) as [c1| |] eqn:Ea; [|done..].
    destruct k as [|k]; [right; exists [], (r :: log), c, su; split_and!; [done..|cbn; by rewrite or_eof_end]|].
    unfold log_bytes in *. cbn [fmap list_fmap concat] in *. unfold record_bytes at 1 3.
    cbn [app take load_entries].
    change (record_type r :: take k ((record_head r ++ record_tail r) ++ concat (record_bytes <$> log)))
      with ([record_type r] ++ take k ((record_head r ++ record_tail r) ++ concat (record_bytes <$> log))).
    rewrite (or_eof_ok [record_type r]) by done. cbn [unwrap head].
    destruct (decide (k < length (record_head r ++ record_tail r))%nat) as [Hk|Hk].
    + left. rewrite take_app_le by lia. destruct (load_torn label r c su k Hro Hk) as [e ->]. by exists e.
    + rewrite take_app_ge by lia. rewrite <- (assoc_L (++)), load_record by done. rewrite Ea.
      destruct (IH fuel c1 c' (next_set_uuid r su) (k - length (record_head r ++ record_tail r))%nat) as
        [[e ->]|(l1 & l2 & c2 & su2 & -> & Hl1 & ->)]; [done|done|lia|left; by exists e|].
      right. exists (r :: l1), l2, c2, su2. cbn. rewrite Ea. by split_and!.
Qed.

(** ** The log of a catalog *)

(** The catalog without its file and what is pending. *)
Definition memory (c : MediaCatalog) : MediaCatalog := set_pending [] (set_file None c).

(** [disk] is the part of the log in the file, [rest] the part that is pending, and both lead to the catalog. *)
Record logged (label : option MediaSetLabel) (c : MediaCatalog) (data : list byte) (disk rest : list record)
    : Prop := {
  lg_bytes : (data = PROXMOX_BACKUP_MEDIA_CATALOG_MAGIC_1_1 ++ log_bytes disk /\ mc_pending c = log_bytes rest) \/
             (data = [] /\ disk = [] /\ mc_pending c = PROXMOX_BACKUP_MEDIA_CATALOG_MAGIC_1_1 ++ log_bytes rest);
  lg_ok : log_ok label (disk ++ rest);
  lg_replay : replay (disk ++ rest) (catalog_empty (mc_uuid c)) = Ok (memory c);
}.

Lemma replay_app log1 log2 c : replay (log1 ++ log2) c = let? c := replay log1 c in replay log2 c.
Proof. revert c. induction log1 as [|r log1 IH]; intros c; cbn; [done|]. by destruct (apply r c). Qed.
Lemma log_bytes_app log1 log2 : log_bytes (log1 ++ log2) = log_bytes log1 ++ log_bytes log2.
Proof. unfold log_bytes. by rewrite fmap_app, concat_app. Qed.
Lemma log_bytes_one r : log_bytes [r] = record_bytes r.
Proof. unfold log_bytes. cbn. by rewrite app_nil_r. Qed.

Lemma logged_record label c data disk rest r c' :
  logged label c data disk rest -> record_ok r -> label_ok label r ->
  apply r (memory c) = Ok (memory c') -> mc_pending c' = mc_pending c ++ record_bytes r -> mc_uuid c' = mc_uuid c ->
  logged label c' data disk (rest ++ [r]).
Proof.
  intros [Hb Ho Hr] Hrok Hl Ha Hp Hu. split.
  - rewrite Hp, log_bytes_app, log_bytes_one.
    destruct Hb as [[? ->]|(? & ? & ->)]; [by left|right]. by rewrite (assoc_L (++)).
  - rewrite (assoc_L (++)). apply Forall_app. split; [done|]. by constructor.
  - rewrite Hu, (assoc_L (++)), replay_app, Hr. cbn. by rewrite Ha.
Qed.

(** The store of the current archive is registered. *)
Definition registered (c : MediaCatalog) : Prop :=
  forall u n store, mc_current_archive c = Some (u, n, store) -> is_Some (mc_content c !! store).
Lemma apply_registered r c c' : apply r c = Ok c' -> registered c -> registered c'.
Proof.
  unfold registered. destruct r as [u s n|pad u n store|d|u n|pad u n store path]; cbn [apply].
  - destruct (check_register_label n u c); [|done..]. by intros [= <-].
  - destruct (check_start_chunk_archive n c); [|done..]. intros [= <-] _ u' n' st. cbn.
    intros [= <- <- <-]. unfold entry_or_default. destruct (mc_content c !! store) eqn:E; [by rewrite E|].
    rewrite lookup_insert_eq. by eexists.
  - destruct (mc_current_archive c) as [[[u n] store]|] eqn:Ec; [|done]. unfold insert_chunk_index.
    destruct (mc_content c !! store) as [ct|] eqn:E; [|done]. intros [= <-] Hr u' n' st. cbn. rewrite Ec.
    intros [= <- <- <-]. rewrite lookup_insert_eq. by eexists.
  - destruct (check_end_chunk_archive u n c); [|done..]. by intros [= <-].
  - destruct (check_register_snapshot n c) eqn:Ek; [|done..]. intros [= <-] Hr u' n' st. cbn. intros Hcur.
    unfold check_register_snapshot in Ek. rewrite Hcur in Ek. by rewrite bool_decide_eq_true_2 in Ek.
Qed.
Lemma replay_registered log c c' : replay log c = Ok c' -> registered c -> registered c'.
Proof.
  revert c. induction log as [|r log IH]; intros c; cbn; [by intros [= ->]|].
  destruct (apply r c) as [c1| |] eqn:Ea; [|done..]. intros Hr Hc. eapply IH; [done|]. by eapply apply_registered.
Qed.
Lemma logged_registered label c data disk rest : logged label c data disk rest -> registered c.
Proof.
  intros [_ _ Hr]. apply replay_registered in Hr; [|by intros ???]. exact Hr.
Qed.

(** ** The operations append to the log *)
Ltac pending_bytes :=
  unfold insert_snapshot_index, record_bytes;
  cbn [push set_content set_current set_last mc_pending record_type record_head record_tail];
  by rewrite ?app_nil_r, <- ?(assoc_L (++)).
Definition uuid_ok (u : uuid_t) : Prop := length u = 16%nat.

Lemma register_label_logged label u s n c data disk rest r c' :
  uuid_ok u -> in_u64 s -> file_number_ok n -> label_ok label (RLabel u s n) ->
  logged label c data disk rest -> register_label u s n c = (r, c') ->
  if is_ok r then logged label c' data disk (rest ++ [RLabel u s n]) else c' = c.
Proof.
  intros Hu Hs Hn Hl Hlog. unfold register_label. destruct (check_register_label n u c) eqn:Ek; [|by intros [= <- <-]..].
  case_if; [by intros [= <- <-]|]. intros [= <- <-]. cbn [is_ok]. eapply logged_record; [done|done|done| | |done].
  - cbn [apply]. change (check_register_label n u (memory c)) with (check_register_label n u c). by rewrite Ek.
  - pending_bytes.
Qed.
Lemma start_logged label pad u n store c data disk rest r c' :
  uuid_ok u -> file_number_ok n -> utf8_valid (bytes store) = true ->
  logged label c data disk rest -> start_chunk_archive pad u n store c = (r, c') ->
  if is_ok r then logged label c' data disk (rest ++ [RStart pad u n store]) /\ mc_current_archive c' = Some (u, n, store)
  else c' = c.
Proof.
  intros Hu Hn H8 Hlog. unfold start_chunk_archive.
  destruct (check_start_chunk_archive n c) eqn:Ek; [|by intros [= <- <-]..].
  destruct (255 <? Z.of_nat (length (bytes store))) eqn:El; [by intros [= <- <-]|]. apply Z.ltb_ge in El.
  intros [= <- <-]. cbn [is_ok]. split; [|done]. eapply logged_record; [done|by split_and!|done| | |done].
  - cbn [apply]. change (check_start_chunk_archive n (memory c)) with (check_start_chunk_archive n c). by rewrite Ek.
  - pending_bytes.
Qed.
Lemma chunk_logged label d u n store c data disk rest r c' :
  length d = 32%nat -> mc_current_archive c = Some (u, n, store) ->
  logged label c data disk rest -> register_chunk d c = (r, c') ->
  r = Ok tt /\ logged label c' data disk (rest ++ [RChunk d]) /\ mc_current_archive c' = Some (u, n, store).
Proof.
  intros Hd Hc Hlog. unfold register_chunk. rewrite Hc. unfold insert_chunk_index. cbn [push mc_content].
  destruct (logged_registered _ _ _ _ _ Hlog u n store Hc) as [ct Ect]. rewrite Ect. intros [= <- <-].
  split; [done|]. split; [|done]. eapply logged_record; [done|done|done| | |done].
  - cbn [apply]. change (mc_current_archive (memory c)) with (mc_current_archive c). rewrite Hc.
    unfold insert_chunk_index. change (mc_content (memory c)) with (mc_content c). by rewrite Ect.
  - pending_bytes.
Qed.
Lemma chunks_logged label l u n store : forall c data disk rest r c',
  Forall (fun d => length d = 32%nat) l -> mc_current_archive c = Some (u, n, store) ->
  logged label c data disk rest -> register_chunks l c = (r, c') ->
  r = Ok tt /\ logged label c' data disk (rest ++ (RChunk <$> l)) /\ mc_current_archive c' = Some (u, n, store).
Proof.
  induction l as [|d l IH]; intros c data disk rest r c' Hl Hc Hlog; cbn [register_chunks].
  - intros [= <- <-]. cbn. by rewrite app_nil_r.
  - apply Forall_cons in Hl as [Hd Hl]. destruct (register_chunk d c) as [r1 c1] eqn:E1.
    destruct (chunk_logged _ _ _ _ _ _ _ _ _ _ _ Hd Hc Hlog E1) as (-> & Hlog1 & Hc1). intros E.
    destruct (IH _ _ _ _ _ _ Hl Hc1 Hlog1 E) as (? & Hlog2 & ?). split; [done|]. split; [|done].
    cbn [fmap list_fmap]. by rewrite cons_middle, (assoc_L (++)).
Qed.
Lemma end_logged label u n store c data disk rest r c' :
  uuid_ok u -> file_number_ok n -> mc_current_archive c = Some (u, n, store) ->
  logged label c data disk rest -> end_chunk_archive c = (r, c') ->
  r = Ok tt /\ logged label c' data disk (rest ++ [REnd u n]).
Proof.
  intros Hu Hn Hc Hlog. unfold end_chunk_archive. rewrite Hc. intros [= <- <-]. split; [done|].
  eapply logged_record; [done|done|done| | |done].
  - cbn [apply]. unfold check_end_chunk_archive. change (mc_current_archive (memory c)) with (mc_current_archive c).
    by rewrite Hc, bool_decide_eq_true_2, Z.eqb_refl.
  - pending_bytes.
Qed.
Lemma archive_logged label pad u n store l c data disk rest r c' :
  uuid_ok u -> file_number_ok n -> utf8_valid (bytes store) = true -> Forall (fun d => length d = 32%nat) l ->
  logged label c data disk rest -> register_chunk_archive pad u n store l c = (r, c') ->
  if is_ok r then logged label c' data disk (rest ++ [RStart pad u n store] ++ (RChunk <$> l) ++ [REnd u n]) else c' = c.
Proof.
  intros Hu Hn H8 Hl Hlog. unfold register_chunk_archive.
  destruct (start_chunk_archive pad u n store c) as [r1 c1] eqn:E1.
  pose proof (start_logged _ _ _ _ _ _ _ _ _ _ _ Hu Hn H8 Hlog E1) as H1.
  destruct r1 as [[]| |]; cbn [is_ok] in H1; [|intros [= <- <-]; by rewrite H1..].
  destruct H1 as [Hlog1 Hc1]. destruct (register_chunks l c1) as [r2 c2] eqn:E2.
  destruct (chunks_logged _ _ _ _ _ _ _ _ _ _ _ Hl Hc1 Hlog1 E2) as (-> & Hlog2 & Hc2). intros E3.
  destruct (end_logged _ _ _ _ _ _ _ _ _ _ Hu Hn Hc2 Hlog2 E3) as (-> & Hlog3). cbn [is_ok].
  by rewrite !(assoc_L (++)).
Qed.
Lemma register_snapshot_logged label pad u n store sn c data disk rest r c' :
  uuid_ok u -> file_number_ok n -> utf8_valid (bytes store) = true ->
  logged label c data disk rest -> register_snapshot N pad u n store sn c = (r, c') ->
  if is_ok r then logged label c' data disk (rest ++ [RSnapshot pad u n store (print_ns_and_snapshot N sn)]) else c' = c.
Proof.
  intros Hu Hn H8 Hlog. unfold register_snapshot. destruct (check_register_snapshot n c) eqn:Ek; [|by intros [= <- <-]..].
  destruct (255 <? Z.of_nat (length (bytes store))) eqn:El; [by intros [= <- <-]|].
  destruct (65535 <? Z.of_nat (length (bytes (print_ns_and_snapshot N sn)))) eqn:Ep; [by intros [= <- <-]|].
  apply Z.ltb_ge in El, Ep. intros [= <- <-]. cbn [is_ok].
  eapply logged_record; [done| |done| | |done].
  - split_and!; [done..|apply print_utf8|apply parse_print].
  - cbn [apply]. change (check_register_snapshot n (memory c)) with (check_register_snapshot n c). by rewrite Ek.
  - pending_bytes.
Qed.

(** ** Nothing that is listed gets lost *)
Definition listed_in (c c' : MediaCatalog) : Prop :=
  (forall store p, is_Some (lookup_snapshot store p c) -> is_Some (lookup_snapshot store p c')) /\
  (forall store d, is_Some (lookup_chunk store d c) -> is_Some (lookup_chunk store d c')).
#[local] Instance listed_in_preorder : PreOrder listed_in.
Proof. split; [by split|]. intros x y z [H1 H2] [H3 H4]. split; auto. Qed.

Lemma listed_in_content c c' :
  (forall store ct, mc_content c !! store = Some ct -> exists ct', mc_content c' !! store = Some ct' /\
     (forall p, is_Some (snapshot_index ct !! p) -> is_Some (snapshot_index ct' !! p)) /\
     (forall d, is_Some (chunk_index ct !! d) -> is_Some (chunk_index ct' !! d))) -> listed_in c c'.
Proof.
  intros Hc. unfold listed_in, lookup_snapshot, lookup_chunk. split; intros store x;
    (destruct (mc_content c !! store) as [ct|] eqn:E; [|by intros []]); destruct (Hc store ct E) as (ct' & -> & ? & ?); auto.
Qed.
Lemma is_some_insert {K A} `{Countable K} (m : gmap K A) k x k' : is_Some (m !! k') -> is_Some (<[k := x]> m !! k').
Proof. intros. rewrite lookup_insert_is_Some'. by right. Qed.

Lemma apply_listed r c c' : apply r c = Ok c' -> listed_in c c'.
Proof.
  destruct r as [u s n|pad u n store|d|u n|pad u n store path]; cbn [apply].
  - destruct (check_register_label n u c); [|done..]. by intros [= <-].
  - destruct (check_start_chunk_archive n c); [|done..]. intros [= <-]. apply listed_in_content. cbn.
    intros st ct E. unfold entry_or_default. exists ct. split; [|done].
    destruct (mc_content c !! store) eqn:Es; [done|]. rewrite lookup_insert_ne; [done|]. intros ->. by rewrite E in Es.
  - destruct (mc_current_archive c) as [[[u n] store]|]; [|done]. unfold insert_chunk_index.
    destruct (mc_content c !! store) as [ct0|] eqn:Es; [|done]. intros [= <-]. apply listed_in_content. cbn.
    intros st ct E. destruct (decide (st = store)) as [->|Hne].
    + rewrite Es in E. injection E as <-. rewrite lookup_insert_eq. eexists. split; [done|]. cbn.
      split; [done|]. intros. by apply is_some_insert.
    + rewrite lookup_insert_ne by done. by exists ct.
  - destruct (check_end_chunk_archive u n c); [|done..]. by intros [= <-].
  - destruct (check_register_snapshot n c); [|done..]. intros [= <-]. apply listed_in_content. cbn.
    intros st ct E. destruct (decide (st = store)) as [->|Hne].
    + rewrite E, lookup_insert_eq. eexists. split; [done|]. cbn. split; [|done]. intros. by apply is_some_insert.
    + rewrite lookup_insert_ne by done. by exists ct.
Qed.
Lemma replay_listed log c c' : replay log c = Ok c' -> listed_in c c'.
Proof.
  revert c. induction log as [|r log IH]; intros c; cbn; [by intros [= ->]|].
  destruct (apply r c) as [c1| |] eqn:Ea; [|done..]. intros Hr. etransitivity; [by eapply apply_listed|by apply IH].
Qed.

(** ** Commit *)
Definition stored (label : option MediaSetLabel) (c : MediaCatalog) (d : Disk) (disk rest : list record) : Prop :=
  exists h data, mc_file c = Some h /\ d_inodes d !! fh_inode h = Some data /\ fh_pos h = length data /\
    d_names d !! catalog_path (mc_uuid c) = Some (fh_inode h) /\ logged label c data disk rest.

Lemma write_file_end k data : write_file (length data) k data = data ++ k.
Proof.
  unfold write_file. rewrite resize_all. rewrite drop_ge by lia. by rewrite app_nil_r.
Qed.
Lemma log_bytes_nil log : log_bytes log = [] -> log = [].
Proof. by destruct log. Qed.

Lemma commit_done label c d disk rest o c' d' :
  stored label c d disk rest -> commit o c d = (Ok tt, (c', d')) ->
  mc_pending c' = [] /\ memory c' = memory c /\ stored label c' d' (disk ++ rest) [].
Proof.
  intros (h & data & Hf & Hi & Hpos & Hn & [Hb Ho Hr]). unfold commit. case_bool_decide as Hp.
  - intros [= <- <-]. split; [done|]. split; [done|]. exists h, data. split_and!; [done..|].
    destruct Hb as [[-> Hb]|(_ & _ & Hb)]; [|by rewrite Hp in Hb]. rewrite Hp in Hb.
    symmetry in Hb. apply log_bytes_nil in Hb as ->. rewrite app_nil_r in *.
    split; [left; by rewrite Hp|by rewrite app_nil_r|by rewrite app_nil_r].
  - rewrite Hf. destruct (co_lock o); [|done]. cbn [negb]. destruct (co_write_fails o) as [k|]; [by destruct (co_unlock o)|].
    destruct (co_unlock o), (co_sync o); try done. cbn [negb]. intros [= <- <-]. split; [done|]. split; [done|].
    rewrite Hi. cbn [default]. rewrite Hpos, write_file_end.
    eexists _, _. split_and!; [done|cbn; apply lookup_insert_eq|cbn; by rewrite length_app|done|].
    split; [left; split; [|done]|by rewrite app_nil_r|by rewrite app_nil_r].
    destruct Hb as [[-> ->]|(-> & -> & ->)]; [by rewrite log_bytes_app, (assoc_L (++))|done].
Qed.

(** Whatever happens in [commit], the file grows by a part of what is pending. *)
Lemma commit_partial label c d disk rest o r c' d' h data :
  mc_file c = Some h -> d_inodes d !! fh_inode h = Some data -> fh_pos h = length data ->
  logged label c data disk rest -> commit o c d = (r, (c', d')) ->
  memory c' = memory c /\ d_names d' = d_names d /\
  exists k, d_inodes d' !! fh_inode h = Some (data ++ take k (mc_pending c)).
Proof.
  intros Hf Hi Hpos _. unfold commit.
  assert (exists k, d_inodes d !! fh_inode h = Some (data ++ take k (mc_pending c))) as H0.
  { exists 0%nat. by rewrite take_0, app_nil_r. }
  case_bool_decide as Hp; [by intros [= <- <- <-]|]. rewrite Hf. destruct (co_lock o); [|by intros [= <- <- <-]].
  cbn [negb]. rewrite Hi. cbn [default]. rewrite Hpos, write_file_end. intros Hc.
  assert (memory c' = memory c /\ d' = set_inode (fh_inode h)
    (data ++ match co_write_fails o with Some n => take n (mc_pending c) | None => mc_pending c end) d) as [Hm ->].
  { destruct (co_unlock o), (co_write_fails o), (co_sync o); by injection Hc as <- <- <-. }
  split; [done|]. split; [done|]. cbn. destruct (co_write_fails o) as [k|]; [exists k|exists (length (mc_pending c))];
    rewrite lookup_insert_eq; [done|by rewrite firstn_all].
Qed.

(** ** Opening *)
Definition all_good (o : OpenOutcome) : Prop :=
  oo_basedir o = true /\ oo_open o = true /\ oo_chown o = true /\ oo_lock o = true /\ oo_unlock o = true.

Lemma open_existing o media_id write create d i data :
  all_good o -> (create = true -> write = true) ->
  d_names d !! catalog_path (ml_uuid (mi_label media_id)) = Some i -> d_inodes d !! i = Some data ->
  open IO N o media_id write create d =
  (let? (me, found_magic_number, _) :=
     load_catalog IO N (mi_media_set_label media_id) (catalog_empty (ml_uuid (mi_label media_id))) data in
   let me := if (found_magic_number : bool) then me else push PROXMOX_BACKUP_MEDIA_CATALOG_MAGIC_1_1 me in
   Ok (if write then set_file (Some {| fh_inode := i; fh_pos := length data |}) me else me), d).
Proof.
  intros (H1 & H2 & H3 & H4 & H5) Hcw Hn Hi. unfold open. rewrite H1, H2, H3, H4, H5, Hn.
  replace (create && negb write) with false by (destruct create, write; try done; by specialize (Hcw eq_refl)).
  cbn. rewrite Hi. cbn. by destruct (load_catalog _ _ _ _ _) as [[[??]?]| |].
Qed.

Lemma load_after_magic label c file :
  load_catalog IO N label c (PROXMOX_BACKUP_MEDIA_CATALOG_MAGIC_1_1 ++ file) =
  let? (c, su) := load_entries IO N (S (length file)) label c None file in Ok (c, true, su).
Proof.
  unfold load_catalog. change 8%nat with (length PROXMOX_BACKUP_MEDIA_CATALOG_MAGIC_1_1). by rewrite or_eof_ok.
Qed.
Lemma load_magic_log label c log c' :
  log_ok label log -> replay log c = Ok c' ->
  load_catalog IO N label c (PROXMOX_BACKUP_MEDIA_CATALOG_MAGIC_1_1 ++ log_bytes log) =
  Ok (c', true, log_set_uuid log None).
Proof.
  intros Ho Hr. rewrite load_after_magic. by rewrite (load_log label log _ c c' None) by (done || lia).
Qed.

(** Loading any part of a log. *)
Lemma load_magic_prefix label c log c' k :
  log_ok label log -> replay log c = Ok c' ->
  let r := load_catalog IO N label c (take k (PROXMOX_BACKUP_MEDIA_CATALOG_MAGIC_1_1 ++ log_bytes log)) in
  (exists e, r = Err e) \/
  exists log1 log2 c1 found su, log = log1 ++ log2 /\ replay log1 c = Ok c1 /\ r = Ok (c1, found, su).
Proof.
  intros Ho Hr. cbv zeta. destruct (decide (k < 8)%nat) as [Hk|Hk].
  - rewrite take_app_le by (cbn; lia). unfold load_catalog. destruct k as [|k].
    + right. exists [], log, c, false, None. split_and!; [done..|]. cbn. by rewrite or_eof_end.
    + left. destruct (or_eof_short 8 (take (S k) PROXMOX_BACKUP_MEDIA_CATALOG_MAGIC_1_1)) as [e ->].
      * by cbn.
      * rewrite length_take. lia.
      * by exists e.
  - rewrite take_app_ge by (cbn; lia). rewrite load_after_magic.
    set (n := (k - length PROXMOX_BACKUP_MEDIA_CATALOG_MAGIC_1_1)%nat).
    replace (take n (log_bytes log)) with (take (n `min` length (log_bytes log)) (log_bytes log)).
    2:{ destruct (decide (n <= length (log_bytes log))%nat); [by rewrite Nat.min_l by lia|].
        by rewrite Nat.min_r, !take_ge by lia. }
    destruct (load_prefix label log (S (length (take (n `min` length (log_bytes log)) (log_bytes log)))) c c' None
      (n `min` length (log_bytes log)) Ho Hr) as [[e E]|(l1 & l2 & c1 & su & El & Hl & E)].
    + rewrite length_take. lia.
    + left. exists e. by rewrite E.
    + right. exists l1, l2, c1, true, su. by rewrite E.
Qed.

(** ** New catalogs *)
Definition media_ok (m : MediaId) : Prop :=
  uuid_ok (ml_uuid (mi_label m)) /\
  match mi_media_set_label m with Some set => uuid_ok (ms_uuid set) /\ in_u64 (ms_seq_nr set) | None => True end.
Definition label_log (m : MediaId) : list record :=
  RLabel (ml_uuid (mi_label m)) 0 0 ::
  match mi_media_set_label m with Some set => [RLabel (ms_uuid set) (ms_seq_nr set) 1] | None => [] end.

Lemma temporary_file_ok o uuid d h d1 :
  create_temporary_database_file o uuid d = (Ok h, d1) ->
  fh_pos h = 0%nat /\ d_inodes d1 !! fh_inode h = Some [] /\ d_names d1 !! tmp_catalog_path uuid = Some (fh_inode h).
Proof.
  unfold create_temporary_database_file. destruct (oo_basedir o), (oo_open o); try done. cbn [negb].
  destruct (d_names d !! tmp_catalog_path uuid) as [i|] eqn:E.
  - destruct (oo_chown o); [|done]. intros [= <- <-]. cbn. by rewrite lookup_insert_eq.
  - unfold create_file. destruct (oo_chown o); [|done]. intros [= <- <-]. cbn. by rewrite !lookup_insert_eq.
Qed.

(** The log before the first commit. *)
Lemma label_logged m h :
  media_ok m ->
  let c0 := push PROXMOX_BACKUP_MEDIA_CATALOG_MAGIC_1_1 (set_file (Some h) (catalog_empty (ml_uuid (mi_label m)))) in
  exists c1 c2, register_label (ml_uuid (mi_label m)) 0 0 c0 = (Ok tt, c1) /\
    match mi_media_set_label m with
    | Some set => register_label (ms_uuid set) (ms_seq_nr set) 1 c1
    | None => (Ok tt, c1)
    end = (Ok tt, c2) /\
    mc_file c2 = Some h /\ mc_uuid c2 = ml_uuid (mi_label m) /\
    logged (mi_media_set_label m) c2 [] [] (label_log m).
Proof.
  intros [Hu Hs] c0.
  assert (logged (mi_media_set_label m) c0 [] [] []) as H0.
  { split; [right; by rewrite app_nil_r|by constructor|done]. }
  destruct (register_label (ml_uuid (mi_label m)) 0 0 c0) as [r1 c1] eqn:E1.
  assert (r1 = Ok tt /\ mc_file c1 = Some h /\ mc_uuid c1 = ml_uuid (mi_label m) /\
          mc_last_entry c1 = Some (ml_uuid (mi_label m), 0) /\ mc_current_archive c1 = None) as (-> & Hf & Hu1 & Hla & Hcu).
  { unfold register_label, check_register_label in E1. cbn in E1. rewrite bool_decide_eq_true_2 in E1 by done.
    by injection E1 as <- <-. }
  apply (register_label_logged (mi_media_set_label m) _ _ _ _ [] [] []) in E1; [|done|done|done| |done].
  2:{ cbn. by destruct (mi_media_set_label m). }
  cbn [is_ok app] in E1. exists c1. unfold label_log. destruct (mi_media_set_label m) as [set|]; [|by exists c1].
  destruct Hs as [Hsu Hss]. destruct (register_label (ms_uuid set) (ms_seq_nr set) 1 c1) as [r2 c2] eqn:E2.
  assert (r2 = Ok tt /\ mc_file c2 = mc_file c1 /\ mc_uuid c2 = mc_uuid c1) as (-> & Hf2 & Hu2).
  { unfold register_label, check_register_label, next_file_number in E2. rewrite Hla, Hcu in E2. cbn in E2.
    by injection E2 as <- <-. }
  apply (register_label_logged (Some set) _ _ _ _ [] [] [RLabel (ml_uuid (mi_label m)) 0 0]) in E2; [|done|done|done|done|done].
  exists c2. split_and!; [done|done|by rewrite Hf2|by rewrite Hu2|exact E2].
Qed.

Lemma overwrite_stored o co renamed m d c d' :
  media_ok m -> overwrite o co renamed m d = (Ok c, d') ->
  mc_pending c = [] /\ mc_uuid c = ml_uuid (mi_label m) /\ stored (mi_media_set_label m) c d' (label_log m) [].
Proof.
  intros Hm. unfold overwrite, create_temporary_database.
  destruct (create_temporary_database_file o (ml_uuid (mi_label m)) d) as [rh d1] eqn:Eh.
  destruct rh as [h| |]; [|done..]. apply temporary_file_ok in Eh as (Hpos & Hi & Hn).
  destruct (label_logged m h Hm) as (c1 & c2 & E1 & E2 & Hf & Hu & Hlog). cbv zeta in E1. rewrite E1, E2.
  destruct (commit co c2 d1) as [rc [c3 d3]] eqn:Ec. destruct rc as [[]| |]; [|done..].
  assert (mc_pending c2 <> []) as Hne.
  { destruct (lg_bytes _ _ _ _ _ Hlog) as [[Hx _]|(_ & _ & ->)]; done. }
  unfold commit in Ec. rewrite bool_decide_eq_false_2, Hf in Ec by done.
  destruct (co_lock co); [|done]. destruct (co_write_fails co); [by destruct (co_unlock co)|].
  destruct (co_unlock co), (co_sync co); try done. cbn [negb] in Ec. rewrite Hi, Hpos in Ec.
  cbn [default] in Ec. rewrite (write_file_end _ [] : write_file 0 _ [] = _) in Ec. injection Ec as <- <-. unfold finish_temporary_database. destruct renamed; [|done].
  unfold rename_file. cbn [set_inode d_names]. rewrite Hn. intros [= <- <-]. split; [done|]. split; [done|].
  eexists _, _. split_and!; [done|cbn; by rewrite lookup_insert_eq| | |].
  - done.
  - cbn. by rewrite Hu, lookup_insert_eq.
  - destruct Hlog as [Hb Hlo Hlr].
    split; [|by rewrite app_nil_r|by rewrite app_nil_r]. left. split; [|done].
    by destruct Hb as [[Hx _]|(_ & _ & ->)].
Qed.

(** ** Sequences of operations

    Registrations may fail, and commits may fail before anything was written.  A commit that fails later, with a part of
    the pending data in the file, is the last operation of a run. *)
Inductive catalog_step (label : option MediaSetLabel) : MediaCatalog * Disk -> MediaCatalog * Disk -> Prop :=
| step_label u s n r c d c' :
    uuid_ok u -> in_u64 s -> file_number_ok n -> label_ok label (RLabel u s n) ->
    register_label u s n c = (r, c') -> catalog_step label (c, d) (c', d)
| step_archive pad u n store l r c d c' :
    uuid_ok u -> file_number_ok n -> utf8_valid (bytes store) = true -> Forall (fun x => length x = 32%nat) l ->
    register_chunk_archive pad u n store l c = (r, c') -> catalog_step label (c, d) (c', d)
| step_snapshot pad u n store sn r c d c' :
    uuid_ok u -> file_number_ok n -> utf8_valid (bytes store) = true ->
    register_snapshot N pad u n store sn c = (r, c') -> catalog_step label (c, d) (c', d)
| step_commit o c d c' d' :
    commit o c d = (Ok tt, (c', d')) -> catalog_step label (c, d) (c', d')
| step_commit_if_large o c d c' d' :
    commit_if_large o c d = (Ok tt, (c', d')) -> catalog_step label (c, d) (c', d')
| step_commit_refused o e c d :
    commit o c d = (Err e, (c, d)) \/ commit_if_large o c d = (Err e, (c, d)) -> catalog_step label (c, d) (c, d).

Lemma memory_uuid c c' : memory c' = memory c -> mc_uuid c' = mc_uuid c.
Proof. by intros [= ?]. Qed.

(** An operation that leaves the file alone. *)
Lemma stored_op label c d disk rest (r : res unit) c' more :
  stored label c d disk rest -> mc_file c' = mc_file c -> mc_uuid c' = mc_uuid c ->
  (forall data, logged label c data disk rest ->
     if is_ok r then logged label c' data disk (rest ++ more) else c' = c) ->
  exists rest', disk `prefix_of` disk /\ stored label c' d disk rest'.
Proof.
  intros (h & data & Hf & Hi & Hp & Hn & Hl) Ef Eu Hop. specialize (Hop data Hl). destruct (is_ok r).
  - exists (rest ++ more). split; [done|]. exists h, data. rewrite Ef, Eu. by split_and!.
  - subst c'. exists rest. split; [done|]. exists h, data. by split_and!.
Qed.

(** No registration touches the file. *)
Lemma register_label_file u s n c r c' :
  register_label u s n c = (r, c') -> mc_file c' = mc_file c /\ mc_uuid c' = mc_uuid c.
Proof. unfold register_label. repeat case_match; by intros [= <- <-]. Qed.
Lemma register_chunk_file d c r c' :
  register_chunk d c = (r, c') -> mc_file c' = mc_file c /\ mc_uuid c' = mc_uuid c.
Proof.
  unfold register_chunk. destruct (mc_current_archive c) as [[[??]?]|]; [|by intros [= <- <-]].
  unfold insert_chunk_index. cbn [push mc_content]. destruct (mc_content c !! _); by intros [= <- <-].
Qed.
Lemma register_chunks_file l : forall c r c',
  register_chunks l c = (r, c') -> mc_file c' = mc_file c /\ mc_uuid c' = mc_uuid c.
Proof.
  induction l as [|d l IH]; intros c r c'; cbn [register_chunks]; [by intros [= <- <-]|].
  destruct (register_chunk d c) as [r1 c1] eqn:E1. apply register_chunk_file in E1 as [<- <-].
  destruct r1 as [[]| |]; [apply IH|by intros [= <- <-]..].
Qed.
Lemma register_archive_file pad u n store l c r c' :
  register_chunk_archive pad u n store l c = (r, c') -> mc_file c' = mc_file c /\ mc_uuid c' = mc_uuid c.
Proof.
  unfold register_chunk_archive, start_chunk_archive.
  destruct (check_start_chunk_archive n c) as [[]| |]; [|by intros [= <- <-]..].
  destruct (255 <? Z.of_nat (length (bytes store))); [by intros [= <- <-]|].
  destruct (register_chunks l _) as [r2 c2] eqn:E2. apply register_chunks_file in E2 as [E2 E3]. cbn in E2, E3.
  destruct r2 as [[]| |]; [|intros [= <- <-]; by rewrite E2, E3..].
  unfold end_chunk_archive. destruct (mc_current_archive c2) as [[[??]?]|]; intros [= <- <-]; cbn; by rewrite E2, E3.
Qed.
Lemma register_snapshot_file pad u n store sn c r c' :
  register_snapshot N pad u n store sn c = (r, c') -> mc_file c' = mc_file c /\ mc_uuid c' = mc_uuid c.
Proof. unfold register_snapshot. repeat case_match; by intros [= <- <-]. Qed.

Lemma step_stored label c d disk rest c' d' :
  stored label c d disk rest -> catalog_step label (c, d) (c', d') ->
  mc_uuid c' = mc_uuid c /\ exists disk' rest', disk `prefix_of` disk' /\ stored label c' d' disk' rest'.
Proof.
  intros Hs Hstep. inversion Hstep as [u s n r ??? Hu ? ? ? E|pad u n store l r ??? Hu ? ? ? E
    |pad u n store sn r ??? Hu ? ? E|o ???? E|o ???? E|o e ?? E]; subst.
  - pose proof (register_label_file _ _ _ _ _ _ E) as [Ef Eu]. split; [done|]. exists disk.
    eapply stored_op; [done|done|done|]. intros data Hl. by eapply (register_label_logged label u s n).
  - pose proof (register_archive_file _ _ _ _ _ _ _ _ E) as [Ef Eu]. split; [done|]. exists disk.
    eapply stored_op; [done|done|done|]. intros data Hl. by eapply (archive_logged label pad u n store l).
  - pose proof (register_snapshot_file _ _ _ _ _ _ _ _ E) as [Ef Eu]. split; [done|]. exists disk.
    eapply stored_op; [done|done|done|]. intros data Hl. by eapply (register_snapshot_logged label pad u n store sn).
  - destruct (commit_done _ _ _ _ _ _ _ _ Hs E) as (_ & Hm & Hst). split; [by apply memory_uuid|].
    exists (disk ++ rest), []. split; [by apply prefix_app_r|done].
  - unfold commit_if_large in E. case_bool_decide; [done|].
    destruct (1024 * 1024 <? _); [|injection E as <- <-; split; [done|by exists disk, rest]].
    destruct (commit_done _ _ _ _ _ _ _ _ Hs E) as (_ & Hm & Hst). split; [by apply memory_uuid|].
    exists (disk ++ rest), []. split; [by apply prefix_app_r|done].
  - split; [done|]. by exists disk, rest.
Qed.
Lemma run_stored label s s' :
  rtc (catalog_step label) s s' -> forall disk rest, stored label s.1 s.2 disk rest ->
  mc_uuid s'.1 = mc_uuid s.1 /\ exists disk' rest', disk `prefix_of` disk' /\ stored label s'.1 s'.2 disk' rest'.
Proof.
  induction 1 as [s|[c d] [c1 d1] s' Hstep _ IH]; intros disk rest Hs; [split; [done|by exists disk, rest]|].
  destruct (step_stored _ _ _ _ _ _ _ Hs Hstep) as (Hu & disk1 & rest1 & Hp1 & Hs1).
  destruct (IH disk1 rest1 Hs1) as (Hu' & disk2 & rest2 & Hp2 & Hs2). split; [by rewrite Hu'|].
  exists disk2, rest2. split; [by etransitivity|done].
Qed.

(** Opening what is stored when nothing is pending. *)
Lemma open_stored o m write create c d disk :
  all_good o -> (create = true -> write = true) -> ml_uuid (mi_label m) = mc_uuid c ->
  stored (mi_media_set_label m) c d disk [] -> mc_pending c = [] ->
  exists c', open IO N o m write create d = (Ok c', d) /\ memory c' = memory c.
Proof.
  intros Ho Hcw Hu (h & data & Hf & Hi & Hp & Hn & [Hb Hlo Hlr]) Hpe. rewrite app_nil_r in *.
  destruct Hb as [[-> _]|(_ & _ & Hb)]; [|by rewrite Hpe in Hb]. rewrite <- Hu in Hn, Hlr.
  rewrite (open_existing _ _ _ _ _ _ _ Ho Hcw Hn Hi), (load_magic_log _ _ _ _ Hlo Hlr).
  eexists. split; [done|]. by destruct write.
Qed.

(** Loading a log and then a part of another. *)
Lemma load_log_app label log : forall fuel c c' set_uuid tail,
  log_ok label log -> replay log c = Ok c' ->
  load_entries IO N (length log + fuel) label c set_uuid (log_bytes log ++ tail) =
  load_entries IO N fuel label c' (log_set_uuid log set_uuid) tail.
Proof.
  induction log as [|r log IH]; intros fuel c c' su tail Hok Hr; [cbn in Hr; by injection Hr as ->|].
  apply Forall_cons in Hok as [[Hro Hrl] Hok]. cbn in Hr. destruct (apply r c) as [c1| |] eqn:Ea; [|done..].
  cbn [length Nat.add load_entries]. unfold log_bytes in *. cbn [fmap list_fmap concat].
  rewrite <- (assoc_L (++)). change (record_bytes r ++ concat (record_bytes <$> log) ++ tail)
    with ([record_type r] ++ (record_head r ++ record_tail r) ++ concat (record_bytes <$> log) ++ tail).
  rewrite (or_eof_ok [record_type r]) by done. cbn [unwrap head]. rewrite <- (assoc_L (++)), load_record by done.
  rewrite Ea. by apply IH.
Qed.
Lemma length_log_bytes log : (length log <= length (log_bytes log))%nat.
Proof.
  induction log as [|r log IH]; [done|]. change (r :: log) with ([r] ++ log).
  rewrite log_bytes_app, log_bytes_one, !length_app. unfold record_bytes. cbn. lia.
Qed.

(** What is loaded from a file to which a part of the pending log was appended. *)
Lemma load_partial label c cd cr disk rest data pending k :
  (data = PROXMOX_BACKUP_MEDIA_CATALOG_MAGIC_1_1 ++ log_bytes disk /\ pending = log_bytes rest) \/
  (data = [] /\ disk = [] /\ pending = PROXMOX_BACKUP_MEDIA_CATALOG_MAGIC_1_1 ++ log_bytes rest) ->
  log_ok label (disk ++ rest) -> replay disk c = Ok cd -> replay rest cd = Ok cr ->
  match load_catalog IO N label c (data ++ take k pending) with
  | Ok (c2, _, _) => exists log1 log2, rest = log1 ++ log2 /\ replay log1 cd = Ok c2
  | Err _ => True
  | Panic _ => False
  end.
Proof.
  intros Hb [Hod Hor]%Forall_app Hd Hr. destruct Hb as [[-> ->]|(-> & -> & ->)].
  - rewrite <- (assoc_L (++)), load_after_magic.
    set (tail := take k (log_bytes rest)).
    assert (exists fuel, S (length (log_bytes disk ++ tail)) = length disk + fuel /\ length tail < fuel)%nat as (fuel & -> & Hf).
    { pose proof (length_log_bytes disk). rewrite length_app.
      exists (S (length (log_bytes disk) + length tail - length disk))%nat. lia. }
    rewrite (load_log_app label disk fuel c cd None tail Hod Hd). unfold tail in *.
    destruct (decide (k <= length (log_bytes rest))%nat) as [Hk|Hk].
    + rewrite length_take in Hf.
      destruct (load_prefix label rest fuel cd cr (log_set_uuid disk None) k Hor Hr ltac:(lia)) as
        [[e ->]|(l1 & l2 & c1 & su & El & Hl & ->)]; [done|by exists l1, l2].
    + rewrite take_ge in * by lia. rewrite (load_log label rest fuel cd cr _ Hor Hr Hf).
      exists rest, []. by rewrite app_nil_r.
  - cbn in Hd. injection Hd as <-. cbn [app].
    destruct (load_magic_prefix label c rest cr k Hor Hr) as [[e ->]|(l1 & l2 & c1 & f & su & El & Hl & ->)];
      [done|by exists l1, l2].
Qed.
Lemma load_committed label c cd cr disk rest data pending k :
  (data = PROXMOX_BACKUP_MEDIA_CATALOG_MAGIC_1_1 ++ log_bytes disk /\ pending = log_bytes rest) \/
  (data = [] /\ disk = [] /\ pending = PROXMOX_BACKUP_MEDIA_CATALOG_MAGIC_1_1 ++ log_bytes rest) ->
  log_ok label (disk ++ rest) -> replay disk c = Ok cd -> replay rest cd = Ok cr ->
  match load_catalog IO N label c (data ++ take k pending) with
  | Ok (c2, _, _) => listed_in cd c2 /\ listed_in c2 cr
  | Err _ => True
  | Panic _ => False
  end.
Proof.
  intros Hb Ho Hd Hr. pose proof (load_partial label c cd cr disk rest data pending k Hb Ho Hd Hr) as Hl.
  destruct (load_catalog _ _ _ _ _) as [[[c2 f] su]| |]; [|done..]. destruct Hl as (l1 & l2 & -> & H1).
  split; [by eapply replay_listed|]. rewrite replay_app, H1 in Hr. by eapply replay_listed.
Qed.

(** C26.  A committed catalog is read back.  Let a catalog be created for a media, and let labels, chunk archives and
    snapshots be added, by operations that succeed or fail, with commits in between that succeed or fail before they wrote
    anything.  When a further commit succeeds, the catalog is found again with the same stores, chunks, snapshots
    and positions when it is opened.  This does not hold behind a commit that failed after it had written, as
    [failed_commit_breaks_catalog] shows. *)
Theorem catalog_reopened o co renamed m d0 c0 d1 c d co' c1 d2 o' write create :
  media_ok m -> overwrite o co renamed m d0 = (Ok c0, d1) ->
  rtc (catalog_step (mi_media_set_label m)) (c0, d1) (c, d) -> commit co' c d = (Ok tt, (c1, d2)) ->
  all_good o' -> (create = true -> write = true) ->
  exists c2, open IO N o' m write create d2 = (Ok c2, d2) /\
    mc_content c2 = mc_content c /\ mc_last_entry c2 = mc_last_entry c /\
    mc_current_archive c2 = mc_current_archive c.
Proof.
  intros Hm Hov Hrun Hco Ho Hcw. destruct (overwrite_stored _ _ _ _ _ _ _ Hm Hov) as (_ & Hu & Hs).
  destruct (run_stored _ _ _ Hrun _ _ Hs) as (Hu' & disk & rest & _ & Hs'). cbn [fst snd] in *.
  destruct (commit_done _ _ _ _ _ _ _ _ Hs' Hco) as (Hp & Hmem & Hs2).
  destruct (open_stored o' m write create c1 d2 (disk ++ rest)) as (c2 & E & E2); [done|done| |done|done|].
  - rewrite (memory_uuid _ _ Hmem). congruence.
  - exists c2. split; [done|]. rewrite Hmem in E2. by injection E2.
Qed.

(** C27.  A commit that is interrupted.  Whatever part of it reached the file, opening the catalog afterwards fails or
    finds everything that was committed before and nothing that had not been registered. *)
Theorem catalog_crash o co renamed m d0 c0 d1 c d co' r c1 d2 o' write create r2 d3 :
  media_ok m -> overwrite o co renamed m d0 = (Ok c0, d1) ->
  rtc (catalog_step (mi_media_set_label m)) (c0, d1) (c, d) -> commit co' c d = (r, (c1, d2)) ->
  all_good o' -> (create = true -> write = true) -> open IO N o' m write create d2 = (r2, d3) ->
  exists before, open IO N o' m write create d = (Ok before, d) /\
    match r2 with
    | Ok c2 => listed_in before c2 /\ listed_in c2 c
    | Err _ => True
    | Panic _ => False
    end.
Proof.
  intros Hm Hov Hrun Hco Ho Hcw Hop. destruct (overwrite_stored _ _ _ _ _ _ _ Hm Hov) as (_ & Hu & Hs).
  destruct (run_stored _ _ _ Hrun _ _ Hs) as (Hu' & disk & rest & _ & h & data & Hf & Hi & Hpos & Hn & Hlog).
  cbn [fst snd] in *. destruct (commit_partial _ _ _ _ _ _ _ _ _ _ _ Hf Hi Hpos Hlog Hco) as (_ & Hnm & k & Hk).
  destruct Hlog as [Hb Hlo Hlr]. rewrite Hu', Hu in Hn, Hlr.
  assert (exists cd, replay disk (catalog_empty (ml_uuid (mi_label m))) = Ok cd /\ replay rest cd = Ok (memory c))
    as (cd & Hrd & Hrr).
  { rewrite replay_app in Hlr. destruct (replay disk _) as [cd| |]; [|done..]. by exists cd. }
  assert (log_ok (mi_media_set_label m) disk) as Hld by (by apply Forall_app in Hlo as [? _]).
  assert (exists before, open IO N o' m write create d = (Ok before, d) /\ listed_in before cd) as (before & Hbo & Hbl).
  { rewrite (open_existing _ _ _ _ _ _ _ Ho Hcw Hn Hi). destruct Hb as [[-> _]|(-> & -> & _)].
    - rewrite (load_magic_log _ _ _ _ Hld Hrd). eexists. split; [done|]. by destruct write.
    - cbn in Hrd. injection Hrd as <-. unfold load_catalog. rewrite or_eof_end. eexists. split; [done|]. by destruct write. }
  exists before. split; [done|]. rewrite <- Hnm in Hn.
  rewrite (open_existing _ _ _ _ _ _ _ Ho Hcw Hn Hk) in Hop. injection Hop as <- <-.
  pose proof (load_committed _ _ _ _ _ _ _ _ k Hb Hlo Hrd Hrr) as Hl.
  destruct (load_catalog _ _ _ _ _) as [[[c2 found] su]| |]; [|done..]. destruct Hl as [Hl1 Hl2]. split.
  - etransitivity; [exact Hbl|]. etransitivity; [exact Hl1|]. by destruct found, write.
  - etransitivity; [|etransitivity; [exact Hl2|done]]. by destruct found, write.
Qed.

(** ** Positions on the tape *)

(** File numbers are at least 2 for archives and snapshots, they are not larger than the last number or belong to the
    archive that is being written, and this one is larger than all others and its store is known. *)
Definition up_to_last (c : MediaCatalog) (n : Z) : Prop := exists u l, mc_last_entry c = Some (u, l) /\ n <= l.
Record catalog_wf (c : MediaCatalog) : Prop := {
  wf_current u n store : mc_current_archive c = Some (u, n, store) ->
    is_Some (mc_content c !! store) /\ 2 <= n < U64_MAX /\ ~ up_to_last c n;
  wf_last u n : mc_last_entry c = Some (u, n) -> 0 <= n < U64_MAX;
  wf_snapshot store p n : lookup_snapshot store p c = Some n -> 2 <= n /\ up_to_last c n;
  wf_chunk store d n : lookup_chunk store d c = Some n -> 2 <= n /\
    (up_to_last c n \/ exists u st, mc_current_archive c = Some (u, n, st));
}.

Lemma next_file_number_above c : catalog_wf c -> forall n, n < next_file_number c -> up_to_last c n \/ n < 0.
Proof.
  intros Hw n. unfold next_file_number, up_to_last. destruct (mc_last_entry c) as [[u l]|] eqn:E; [|by right].
  pose proof (wf_last c Hw u l E). rewrite u64_small by (unfold in_u64; lia). intros. left. exists u, l. split; [done|lia].
Qed.
Lemma next_file_number_fresh c n : catalog_wf c -> next_file_number c <= n -> 0 <= n -> ~ up_to_last c n.
Proof.
  intros Hw Hn H0 (u & l & E & Hl). unfold next_file_number in Hn. rewrite E in Hn.
  pose proof (wf_last c Hw u l E). rewrite u64_small in Hn by (unfold in_u64; lia). lia.
Qed.
(** Moving the last entry up. *)
Lemma up_to_last_set c u n k :
  catalog_wf c -> ~ up_to_last c n -> up_to_last c k \/ k = n -> up_to_last (set_last u n c) k.
Proof.
  intros Hw Hn [(u' & l & E & Hk)| ->]; exists u, n; (split; [done|]); [|lia].
  destruct (Z_le_gt_dec k n); [lia|]. destruct Hn. exists u', l. split; [done|lia].
Qed.

Lemma apply_label_wf u s n c c' : apply (RLabel u s n) c = Ok c' -> file_number_ok n -> catalog_wf c -> catalog_wf c'.
Proof.
  cbn [apply]. unfold file_number_ok. intros Ha Hn Hw. destruct (check_register_label n u c) as [[]| |] eqn:Ek; [|done..]. injection Ha as <-.
  unfold check_register_label in Ek. destruct (2 <=? n); [done|]. destruct (_ && _); [done|].
  case_bool_decide as Hc; [done|]. destruct (Z.eqb_spec n (next_file_number c)) as [En|]; [|done].
  assert (~ up_to_last c n) as Hfresh by (apply next_file_number_fresh; [done|lia|lia]).
  assert (mc_current_archive c = None) as Hnone by (destruct (mc_current_archive c); [destruct Hc; by eexists|done]).
  split; cbn.
  - intros u' m st. by rewrite Hnone.
  - intros ? ? [= <- <-]. done.
  - intros st p m Hl. destruct (wf_snapshot c Hw st p m Hl) as [? ?]. split; [done|]. apply up_to_last_set; by auto.
  - intros st d m Hl. destruct (wf_chunk c Hw st d m Hl) as [? [?|(? & ? & Hx)]]; [|congruence]. split; [done|].
    left. apply up_to_last_set; by auto.
Qed.

(** Lookups after a change of the content. *)
Lemma entry_or_default_lookup store st m :
  entry_or_default store m !! st = m !! st \/ (m !! st = None /\ entry_or_default store m !! st = Some content_new).
Proof.
  unfold entry_or_default. destruct (m !! store) eqn:E; [by left|]. destruct (decide (st = store)) as [->|].
  - right. by rewrite lookup_insert_eq.
  - left. by rewrite lookup_insert_ne.
Qed.
Lemma start_lookups store a c :
  let c' := set_current a (set_content (entry_or_default store (mc_content c)) c) in
  (forall st p, lookup_snapshot st p c' = lookup_snapshot st p c) /\
  (forall st d, lookup_chunk st d c' = lookup_chunk st d c).
Proof.
  cbn. unfold lookup_snapshot, lookup_chunk. cbn.
  split; intros st x; destruct (entry_or_default_lookup store st (mc_content c)) as [->|[-> ->]]; try done; apply lookup_empty.
Qed.
Lemma chunk_lookups store d n c c' :
  insert_chunk_index store d n c = Ok c' ->
  (forall st p, lookup_snapshot st p c' = lookup_snapshot st p c) /\
  (forall st x m, lookup_chunk st x c' = Some m ->
     (st = store /\ x = d /\ m = n) \/ lookup_chunk st x c = Some m) /\
  mc_last_entry c' = mc_last_entry c /\ mc_current_archive c' = mc_current_archive c /\
  (forall st, is_Some (mc_content c !! st) -> is_Some (mc_content c' !! st)).
Proof.
  unfold insert_chunk_index. destruct (mc_content c !! store) as [ct|] eqn:E; [|done]. intros [= <-].
  unfold lookup_snapshot, lookup_chunk. cbn. split_and!; try done.
  - intros st p. destruct (decide (st = store)) as [->|]; [by rewrite lookup_insert_eq, E|by rewrite lookup_insert_ne].
  - intros st x m. destruct (decide (st = store)) as [->|]; [|rewrite lookup_insert_ne by done; by right].
    rewrite lookup_insert_eq, E. cbn. destruct (decide (x = d)) as [->|].
    + rewrite lookup_insert_eq. intros [= <-]. by left.
    + rewrite lookup_insert_ne by done. by right.
  - intros st. apply is_some_insert.
Qed.
Lemma snapshot_lookups store path n c :
  (forall st p m, lookup_snapshot st p (insert_snapshot_index store path n c) = Some m ->
     (st = store /\ p = path /\ m = n) \/ lookup_snapshot st p c = Some m) /\
  (forall st d, lookup_chunk st d (insert_snapshot_index store path n c) = lookup_chunk st d c).
Proof.
  unfold insert_snapshot_index, lookup_snapshot, lookup_chunk. cbn. split.
  - intros st p m. destruct (decide (st = store)) as [->|]; [|rewrite lookup_insert_ne by done; by right].
    rewrite lookup_insert_eq. cbn. destruct (decide (p = path)) as [->|].
    + rewrite lookup_insert_eq. intros [= <-]. by left.
    + rewrite lookup_insert_ne by done. destruct (mc_content c !! store); cbn; [by right|by rewrite lookup_empty].
  - intros st d. destruct (decide (st = store)) as [->|]; [|by rewrite lookup_insert_ne].
    rewrite lookup_insert_eq. destruct (mc_content c !! store); [done|]. apply lookup_empty.
Qed.

Lemma not_inside c : ~ is_Some (mc_current_archive c) -> mc_current_archive c = None.
Proof. destruct (mc_current_archive c); [|done]. intros []. by eexists. Qed.
Lemma apply_start_wf pad u n store c c' :
  apply (RStart pad u n store) c = Ok c' -> file_number_ok n -> catalog_wf c -> catalog_wf c'.
Proof.
  cbn [apply]. unfold file_number_ok. intros Ha Hn Hw. destruct (check_start_chunk_archive n c) as [[]| |] eqn:Ek; [|done..]. injection Ha as <-.
  unfold check_start_chunk_archive in Ek. case_bool_decide as Hc; [done|]. apply not_inside in Hc.
  destruct (n <? 2) eqn:E2; [done|]. destruct (n <? next_file_number c) eqn:E3; [done|]. apply Z.ltb_ge in E2, E3.
  destruct (start_lookups store (Some (u, n, store)) c) as [Hs Hk]. split.
  - intros ? ? ? [= <- <- <-]. split_and!; [|done|lia|exact (next_file_number_fresh c n Hw E3 (proj1 Hn))].
    cbn. destruct (entry_or_default_lookup store store (mc_content c)) as [E|[_ ->]]; [|by eexists].
    unfold entry_or_default in *. destruct (mc_content c !! store) eqn:Em; [rewrite Em; by eexists|].
    rewrite lookup_insert_eq. by eexists.
  - apply (wf_last c Hw).
  - intros st p m. rewrite Hs. apply (wf_snapshot c Hw).
  - intros st d m. rewrite Hk. intros Hl. destruct (wf_chunk c Hw st d m Hl) as [? [?|(? & ? & ?)]]; [|congruence].
    split; [done|by left].
Qed.
Lemma apply_chunk_wf d c c' : apply (RChunk d) c = Ok c' -> catalog_wf c -> catalog_wf c'.
Proof.
  cbn [apply]. intros Ha Hw. destruct (mc_current_archive c) as [[[u n] store]|] eqn:Ec; [|done].
  destruct (chunk_lookups _ _ _ _ _ Ha) as (Hs & Hk & Hl & Hc & Hst). destruct (wf_current c Hw u n store Ec) as (? & ? & ?).
  unfold up_to_last in *. split; unfold up_to_last; rewrite ?Hl, ?Hc.
  - intros u' n' st' Hcur. destruct (wf_current c Hw u' n' st' Hcur) as (? & ? & ?). split; [by apply Hst|done].
  - apply (wf_last c Hw).
  - intros st p m. rewrite Hs. apply (wf_snapshot c Hw).
  - intros st x m Hx. destruct (Hk st x m Hx) as [(_ & _ & ->)|Hx']; [|exact (wf_chunk c Hw st x m Hx')].
    split; [lia|]. right. by exists u, store.
Qed.
Lemma apply_end_wf u n c c' : apply (REnd u n) c = Ok c' -> catalog_wf c -> catalog_wf c'.
Proof.
  cbn [apply]. intros Ha Hw. destruct (check_end_chunk_archive u n c) as [[]| |] eqn:Ek; [|done..]. injection Ha as <-.
  unfold check_end_chunk_archive in Ek. destruct (mc_current_archive c) as [[[u0 n0] store]|] eqn:Ec; [|done].
  destruct (negb (bool_decide (u = u0))); [done|]. destruct (Z.eqb_spec n n0) as [->|]; [|done].
  destruct (wf_current c Hw u0 n0 store Ec) as (_ & Hn & Hfresh).
  assert (forall k, up_to_last c k \/ k = n0 -> up_to_last (set_last u n0 (set_current None c)) k) as Hup.
  { intros k Hk. exact (up_to_last_set c u n0 k Hw Hfresh Hk). }
  split; try done.
  - intros ? ? [= <- <-]. lia.
  - intros st p m Hl. destruct (wf_snapshot c Hw st p m Hl). split; [done|]. apply Hup. by left.
  - intros st d m Hl. destruct (wf_chunk c Hw st d m Hl) as [? [?|(? & ? & Hx)]]; (split; [done|]); left; apply Hup; [by left|].
    rewrite Ec in Hx. injection Hx as <- <- <-. by right.
Qed.
Lemma apply_snapshot_wf pad u n store path c c' :
  apply (RSnapshot pad u n store path) c = Ok c' -> file_number_ok n -> catalog_wf c -> catalog_wf c'.
Proof.
  cbn [apply]. unfold file_number_ok. intros Ha Hn Hw. destruct (check_register_snapshot n c) as [[]| |] eqn:Ek; [|done..]. injection Ha as <-.
  unfold check_register_snapshot in Ek. case_bool_decide as Hc; [done|]. apply not_inside in Hc.
  destruct (n <? 2) eqn:E2; [done|]. destruct (n <? next_file_number c) eqn:E3; [done|]. apply Z.ltb_ge in E2, E3.
  assert (~ up_to_last c n) as Hfresh by (apply next_file_number_fresh; [done|lia|lia]).
  destruct (snapshot_lookups store path n c) as [Hs Hk].
  assert (forall k, up_to_last c k \/ k = n -> up_to_last (set_last u n (insert_snapshot_index store path n c)) k) as Hup.
  { intros k Hx. exact (up_to_last_set c u n k Hw Hfresh Hx). }
  split.
  - intros u' m st. cbn. by rewrite Hc.
  - intros ? ? [= <- <-]. done.
  - intros st p m Hl. destruct (Hs st p m Hl) as [(_ & _ & ->)|Hl']; [split; [lia|apply Hup; by right]|].
    destruct (wf_snapshot c Hw st p m Hl'). split; [done|]. apply Hup. by left.
  - intros st d m Hl. change (lookup_chunk st d (insert_snapshot_index store path n c) = Some m) in Hl. rewrite Hk in Hl.
    destruct (wf_chunk c Hw st d m Hl) as [? [?|(? & ? & ?)]]; [|congruence]. split; [done|]. left. apply Hup. by left.
Qed.
Lemma apply_wf r c c' : apply r c = Ok c' -> record_ok r -> catalog_wf c -> catalog_wf c'.
Proof.
  intros Ha Hr. destruct r; cbn [record_ok] in Hr.
  - eapply apply_label_wf; [done|]. by destruct Hr as (_ & _ & ?).
  - eapply apply_start_wf; [done|]. by destruct Hr as (_ & ? & _).
  - by eapply apply_chunk_wf.
  - by eapply apply_end_wf.
  - eapply apply_snapshot_wf; [done|]. by destruct Hr as (_ & ? & _).
Qed.
Lemma replay_wf label log c c' : replay log c = Ok c' -> log_ok label log -> catalog_wf c -> catalog_wf c'.
Proof.
  revert c. induction log as [|r log IH]; intros c; cbn; [by intros [= ->]|].
  destruct (apply r c) as [c1| |] eqn:Ea; [|done..]. intros Hr [[? _] ?]%Forall_cons Hw.
  eapply IH; [done|done|]. by eapply apply_wf.
Qed.
Lemma empty_wf u : catalog_wf (catalog_empty u).
Proof. split; cbn; try done; unfold lookup_snapshot, lookup_chunk; cbn; intros ? ? ?; by rewrite lookup_empty. Qed.
Lemma wf_memory c : catalog_wf (memory c) <-> catalog_wf c.
Proof. split; intros [H1 H2 H3 H4]; split; done. Qed.

(** C25.  Catalogs are well-formed.  Whatever sequence of operations is done on a new catalog, its file numbers are those
    of files behind the labels, none is larger than the last one, except for the archive that is
    being written, and the number the next archive or snapshot must at least have is larger than all of them, so
    that no two files of a tape are ever listed with the same number. *)
Theorem catalog_well_formed o co renamed m d0 c0 d1 c d :
  media_ok m -> overwrite o co renamed m d0 = (Ok c0, d1) ->
  rtc (catalog_step (mi_media_set_label m)) (c0, d1) (c, d) ->
  catalog_wf c /\
  (mc_current_archive c = None -> forall store n,
     (exists p, lookup_snapshot store p c = Some n) \/ (exists x, lookup_chunk store x c = Some n) ->
     2 <= n < next_file_number c).
Proof.
  intros Hm Hov Hrun. destruct (overwrite_stored _ _ _ _ _ _ _ Hm Hov) as (_ & Hu & Hs).
  destruct (run_stored _ _ _ Hrun _ _ Hs) as (_ & disk & rest & _ & h & data & _ & _ & _ & _ & [_ Hlo Hlr]). cbn [fst snd] in *.
  assert (catalog_wf c) as Hw.
  { apply wf_memory. eapply replay_wf; [exact Hlr|exact Hlo|apply empty_wf]. }
  split; [done|]. intros Hnone store n Hl.
  assert (2 <= n /\ up_to_last c n) as [H2 (u & l & El & Hn)].
  { destruct Hl as [[p Hp]|[x Hx]]; [by apply (wf_snapshot c Hw store p)|].
    destruct (wf_chunk c Hw store x n Hx) as [? [?|(? & ? & ?)]]; [done|congruence]. }
  split; [done|]. unfold next_file_number. rewrite El. pose proof (wf_last c Hw u l El).
  rewrite u64_small by (unfold in_u64; lia). lia.
Qed.

(** ** What was registered is found *)
Lemma register_chunk_found d c c' u n store :
  mc_current_archive c = Some (u, n, store) -> register_chunk d c = (Ok tt, c') ->
  mc_current_archive c' = Some (u, n, store) /\ lookup_chunk store d c' = Some n /\
  (forall x, lookup_chunk store x c = Some n -> lookup_chunk store x c' = Some n).
Proof.
  intros Hc. unfold register_chunk. rewrite Hc. unfold insert_chunk_index. cbn [push mc_content].
  destruct (mc_content c !! store) as [ct|] eqn:E; [|done]. intros [= <-]. split; [done|].
  unfold lookup_chunk. cbn. rewrite lookup_insert_eq, E. cbn. split; [by rewrite lookup_insert_eq|].
  intros x. destruct (decide (x = d)) as [->|]; [by rewrite lookup_insert_eq|by rewrite lookup_insert_ne].
Qed.
Lemma register_chunks_found l u n store : forall c c',
  mc_current_archive c = Some (u, n, store) -> register_chunks l c = (Ok tt, c') ->
  mc_current_archive c' = Some (u, n, store) /\ (forall d, d ∈ l -> lookup_chunk store d c' = Some n) /\
  (forall x, lookup_chunk store x c = Some n -> lookup_chunk store x c' = Some n).
Proof.
  induction l as [|d l IH]; intros c c' Hc; cbn [register_chunks].
  { intros [= <-]. split_and!; [done| |done]. intros d Hd. by apply elem_of_nil in Hd. }
  destruct (register_chunk d c) as [r1 c1] eqn:E1. destruct r1 as [[]| |]; [|done..].
  destruct (register_chunk_found _ _ _ _ _ _ Hc E1) as (Hc1 & Hd & Hold). intros E.
  destruct (IH c1 c' Hc1 E) as (? & Hall & Hold'). split; [done|]. split.
  - intros x [-> | Hx]%elem_of_cons; [by apply Hold'|by apply Hall].
  - intros x Hx. by apply Hold', Hold.
Qed.
(** An archive that was registered is found with all of its chunks. *)
Lemma archive_found pad u n store l c c' :
  register_chunk_archive pad u n store l c = (Ok tt, c') ->
  mc_current_archive c' = None /\ mc_last_entry c' = Some (u, n) /\ forall d, d ∈ l -> lookup_chunk store d c' = Some n.
Proof.
  unfold register_chunk_archive. destruct (start_chunk_archive pad u n store c) as [r1 c1] eqn:E1.
  destruct r1 as [[]| |]; [|done..].
  assert (mc_current_archive c1 = Some (u, n, store)) as Hc1.
  { unfold start_chunk_archive in E1. destruct (check_start_chunk_archive n c); [|done..].
    destruct (255 <? _); [done|]. by injection E1 as <-. }
  destruct (register_chunks l c1) as [r2 c2] eqn:E2. destruct r2 as [[]| |]; [|done..].
  destruct (register_chunks_found _ _ _ _ _ _ Hc1 E2) as (Hc2 & Hall & _). unfold end_chunk_archive. rewrite Hc2.
  intros [= <-]. by split_and!.
Qed.

(** ** Catalogs of other media sets are removed *)
Lemma header_of_labels u0 s0 u1 s1 log :
  record_ok (RLabel u0 s0 0) -> record_ok (RLabel u1 s1 1) ->
  parse_catalog_header IO (PROXMOX_BACKUP_MEDIA_CATALOG_MAGIC_1_1 ++ log_bytes (RLabel u0 s0 0 :: RLabel u1 s1 1 :: log)) =
  Ok (true, Some u0, Some u1).
Proof.
  intros H0 H1. unfold parse_catalog_header. change 8%nat with (length PROXMOX_BACKUP_MEDIA_CATALOG_MAGIC_1_1).
  rewrite or_eof_ok by done. change (check_magic PROXMOX_BACKUP_MEDIA_CATALOG_MAGIC_1_1) with (Ok tt : res unit).
  change (log_bytes (RLabel u0 s0 0 :: RLabel u1 s1 1 :: log)) with
    ([x4c] ++ (record_head (RLabel u0 s0 0) ++ []) ++ [x4c] ++ (record_head (RLabel u1 s1 1) ++ []) ++ log_bytes log).
  rewrite !app_nil_r, (or_eof_ok [x4c]) by done. cbn [unwrap head]. rewrite bool_decide_eq_true_2 by done. cbn [negb].
  rewrite (read_head (RLabel u0 s0 0) _ H0 : io_le_value IO 32 _ = _), (or_eof_ok [x4c]) by done. cbn [unwrap head].
  rewrite bool_decide_eq_true_2 by done. cbn [negb].
  rewrite (read_head (RLabel u1 s1 1) _ H1 : io_le_value IO 32 _ = _).
  destruct H0 as (? & ? & ?%file_number_u64), H1 as (? & ? & ?%file_number_u64). cbn [record_head].
  by rewrite (proj1 (label_roundtrip {| le_file_number := 0; le_uuid := u0; le_seq_nr := s0 |} ltac:(done) ltac:(done) ltac:(done))),
    (proj1 (label_roundtrip {| le_file_number := 1; le_uuid := u1; le_seq_nr := s1 |} ltac:(done) ltac:(done) ltac:(done))).
Qed.

(** A catalog is removed exactly if it belongs to another media set.  For a media with a set label, after any operations
    on its catalog, [destroy_unrelated_catalog] removes the file if the label it is called with has
    another uuid, and else leaves everything as it is. *)
Theorem unrelated_catalog_destroyed o co renamed m set d0 c0 d1 c d m' set' :
  media_ok m -> mi_media_set_label m = Some set -> overwrite o co renamed m d0 = (Ok c0, d1) ->
  rtc (catalog_step (Some set)) (c0, d1) (c, d) ->
  ml_uuid (mi_label m') = ml_uuid (mi_label m) -> mi_media_set_label m' = Some set' ->
  destroy_unrelated_catalog IO true true m' d =
  (Ok tt, if decide (ms_uuid set' = ms_uuid set) then d else remove_name (catalog_path (ml_uuid (mi_label m))) d).
Proof.
  intros Hm Hset Hov Hrun Hu Hset'. destruct (overwrite_stored _ _ _ _ _ _ _ Hm Hov) as (_ & Hu0 & Hs).
  rewrite Hset in Hs. destruct (run_stored _ _ _ Hrun _ _ Hs) as (Hu' & disk & rest & Hpre & h & data & Hf & Hi & Hpos & Hn & Hlog).
  cbn [fst snd] in *. destruct Hm as [Huk Hsk]. rewrite Hset in Hsk. destruct Hsk as [Hsu Hss].
  unfold label_log in Hpre. rewrite Hset in Hpre. destruct Hpre as [log ->].
  destruct (lg_bytes _ _ _ _ _ Hlog) as [[-> _]|(_ & ? & _)]; [|done].
  unfold destroy_unrelated_catalog. rewrite Hu, Hset'. rewrite Hu', Hu0 in Hn. rewrite Hn. cbn [negb]. rewrite Hi.
  cbn [default from_option id app]. rewrite header_of_labels by done. cbn [negb]. rewrite bool_decide_eq_true_2 by done. cbn [negb].
  destruct (decide (ms_uuid set' = ms_uuid set)) as [E|E].
  - by rewrite bool_decide_eq_true_2.
  - by rewrite bool_decide_eq_false_2.
Qed.
End catalog.

(** ** Sets of catalogs *)
Section sets.
Context (N : NsLib).

Definition in_set (s : MediaSetCatalog) (order : list (uuid_t * MediaCatalog)) : Prop :=
  order ≡ₚ map_to_list (catalog_list s).

Lemma contains_lookup_chunk store d c : contains_chunk store d c = true <-> is_Some (lookup_chunk store d c).
Proof.
  unfold contains_chunk, lookup_chunk. destruct (mc_content c !! store); [apply bool_decide_eq_true|].
  split; [done|]. by intros [].
Qed.
Lemma set_lookup_chunk_some order store d u n :
  set_lookup_chunk order store d = Some (u, n) -> exists c, (u, c) ∈ order /\ lookup_chunk store d c = Some n.
Proof.
  induction order as [|[u' c] order IH]; cbn; [done|]. destruct (lookup_chunk store d c) as [n'|] eqn:E.
  - intros [= <- <-]. exists c. split; [apply elem_of_cons; by left|done].
  - intros (c' & ? & ?)%IH. exists c'. split; [apply elem_of_cons; by right|done].
Qed.
Lemma set_contains_chunk_iff order store d :
  (set_contains_chunk order store d = true <-> exists u c, (u, c) ∈ order /\ contains_chunk store d c = true) /\
  (set_contains_chunk order store d = true <-> is_Some (set_lookup_chunk order store d)).
Proof.
  induction order as [|[u c] order [IH1 IH2]]; cbn.
  { split; split; try done. intros (u & c & Hx & _). by apply elem_of_nil in Hx. }
  pose proof (contains_lookup_chunk store d c) as Hc. destruct (contains_chunk store d c) eqn:E.
  - split; split; try done.
    + intros _. exists u, c. split; [apply elem_of_cons; by left|done].
    + intros _. destruct (proj1 Hc eq_refl) as [n ->]. by eexists.
  - assert (lookup_chunk store d c = None) as ->.
    { destruct (lookup_chunk store d c) eqn:El; [|done]. destruct Hc as [_ Hc]. by specialize (Hc ltac:(by eexists)). }
    split; [|done]. rewrite IH1. split; intros (u' & c' & Hin & Hct); exists u', c'.
    + split; [apply elem_of_cons; by right|done].
    + apply elem_of_cons in Hin as [[= -> ->]|?]; [congruence|done].
Qed.

(** What a set lists, in its last catalog or in one of the others. *)
Definition set_lists (s : CatalogSet) (store : string) (d : digest) : Prop :=
  (exists c, cs_catalog s = Some c /\ contains_chunk store d c = true) \/
  (exists u c, catalog_list (cs_set s) !! u = Some c /\ contains_chunk store d c = true).
Lemma cs_contains_chunk_iff s order store d :
  in_set (cs_set s) order -> cs_contains_chunk order store d s = true <-> set_lists s store d.
Proof.
  intros Ho. unfold cs_contains_chunk, set_lists.
  assert (set_contains_chunk order store d = true <->
    exists u c, catalog_list (cs_set s) !! u = Some c /\ contains_chunk store d c = true) as Hset.
  { rewrite (proj1 (set_contains_chunk_iff order store d)). unfold in_set in Ho. setoid_rewrite Ho.
    by setoid_rewrite elem_of_map_to_list. }
  destruct (cs_catalog s) as [c|]; [destruct (contains_chunk store d c) eqn:E|]; rewrite ?Hset.
  - split; [|done]. intros _. left. by exists c.
  - split; [by right|]. intros [(c' & [= <-] & ?)|?]; [congruence|done].
  - split; [by right|]. intros [(c' & ? & _)|?]; done.
Qed.

(** Appending a catalog to a set.  Everything that was listed is still listed, whatever the order in which the
    catalogs are visited, unless only an older catalog of the same media listed it; what the new one lists is added. *)
Theorem set_append_keeps new s s' order order' store d :
  cs_append_catalog new s = (Ok tt, s') -> in_set (cs_set s) order -> in_set (cs_set s') order' ->
  (cs_contains_chunk order' store d s' = true <->
   contains_chunk store d new = true \/
   (exists c, cs_catalog s = Some c /\ mc_uuid c <> mc_uuid new /\ contains_chunk store d c = true) \/
   (exists u c, u <> mc_uuid new /\ catalog_list (cs_set s) !! u = Some c /\ contains_chunk store d c = true)).
Proof.
  intros Ha Ho Ho'. rewrite (cs_contains_chunk_iff _ _ _ _ Ho'). unfold cs_append_catalog, set_append_catalog in Ha.
  unfold set_lists. destruct (cs_catalog s) as [c|] eqn:Ec.
  - case_bool_decide as Hnew; [done|]. injection Ha as <-. cbn. split.
    + intros [(c' & [= <-] & ?)|(u & c' & Hl & Hc)]; [by left|right].
      apply lookup_delete_Some in Hl as [Hne Hl]. destruct (decide (u = mc_uuid c)) as [->|Hu].
      * rewrite lookup_insert_eq in Hl. injection Hl as <-. left. by exists c.
      * rewrite lookup_insert_ne in Hl by done. right. by exists u, c'.
    + intros [?|[(c' & [= <-] & Hne & Hc)|(u & c' & Hne & Hl & Hc)]]; [left; by exists new|right..].
      * exists (mc_uuid c), c. split; [|done]. rewrite lookup_delete_ne by done. by rewrite lookup_insert_eq.
      * exists u, c'. split; [|done]. rewrite lookup_delete_ne by done. rewrite lookup_insert_ne; [done|].
        intros <-. destruct Hnew. by eexists.
  - injection Ha as <-. cbn. split.
    + intros [(c' & [= <-] & ?)|(u & c' & Hl & Hc)]; [by left|right; right].
      apply lookup_delete_Some in Hl as [Hne Hl]. by exists u, c'.
    + intros [?|[(c' & ? & _)|(u & c' & Hne & Hl & Hc)]]; [left; by exists new|done|right].
      exists u, c'. by rewrite lookup_delete_ne.
Qed.
End sets.

(** ** Examples *)
Module CatalogExample.
Definition read_n (n : nat) (l : list byte) : res (list byte * list byte) :=
  if decide (length l < n)%nat then Err "unexpected end of file" else Ok (take n l, drop n l).
Definition toy_io : CatalogIo := {|
  io_exact_or_eof n l := match l with [] => Ok None | _ => let? r := read_n n l in Ok (Some r) end;
  io_exact_allocated := read_n;
  io_le_value := read_n;
  io_read_exact := read_n;
|}.
Lemma read_n_ok a b : read_n (length a) (a ++ b) = Ok (a, b).
Proof.
  unfold read_n. rewrite decide_False by (rewrite length_app; lia). by rewrite take_app_length, drop_app_length.
Qed.
Lemma read_n_short n l : (length l < n)%nat -> exists e, read_n n l = Err e.
Proof. intros. unfold read_n. rewrite decide_True by done. by eexists. Qed.
#[global] Instance toy_io_laws : CatalogIoLaws toy_io.
Proof.
  split; try apply read_n_ok; try apply read_n_short.
  - done.
  - intros a b Ha. cbn. destruct a as [|x a]; [done|]. pose proof (read_n_ok (x :: a) b) as E. cbn [app] in *. by rewrite E.
  - intros n l Hl Hs. cbn. destruct l as [|x l]; [done|]. destruct (read_n_short n (x :: l) Hs) as [e ->]. by exists e.
Qed.
(** Two snapshots. *)
Definition toy_ns : NsLib := {|
  ns_snapshot := bool;
  print_ns_and_snapshot b := if b : bool then "host/elsa/2024" else "vm/100/2023";
  parse_ns_and_snapshot s := Ok true;
|}.
#[global] Instance toy_ns_laws : NsLaws toy_ns.
Proof. split; by intros []. Qed.

Definition media : MediaId :=
  {| mi_label := {| ml_uuid := replicate 16 x01; ml_label_text := "tape1"; ml_ctime := 0; ml_pool := None |};
     mi_media_set_label := Some (with_data "pool" (replicate 16 x02) 0 0 None) |}.
Definition other_set : MediaId :=
  {| mi_label := mi_label media; mi_media_set_label := Some (with_data "pool" (replicate 16 x03) 0 0 None) |}.
Definition open_ok : OpenOutcome :=
  {| oo_basedir := true; oo_open := true; oo_chown := true; oo_lock := true; oo_unlock := true |}.
Definition commit_ok : CommitOutcome :=
  {| co_lock := true; co_write_fails := None; co_sync := true; co_unlock := true |}.
Definition torn : CommitOutcome :=
  {| co_lock := true; co_write_fails := Some 40%nat; co_sync := true; co_unlock := true |}.
Definition sync_fails : CommitOutcome :=
  {| co_lock := true; co_write_fails := None; co_sync := false; co_unlock := true |}.

Definition catalog_of {A} (r : res MediaCatalog * A) : MediaCatalog :=
  match r.1 with Ok c => c | _ => catalog_empty [] end.
Definition created := overwrite open_ok commit_ok true media {| d_inodes := ∅; d_names := ∅ |}.
Definition with_archive :=
  register_chunk_archive [] (replicate 16 x07) 2 "store1" [replicate 32 x0a; replicate 32 x0b] (catalog_of created).
Definition with_snapshot := register_snapshot toy_ns [] (replicate 16 x08) 3 "store1" true with_archive.2.

Lemma media_good : media_ok media.
Proof. by split. Qed.
Lemma created_ok : created = (Ok (catalog_of created), created.2).
Proof. by vm_compute. Qed.
Lemma run_ok : rtc (catalog_step toy_ns (mi_media_set_label media)) (catalog_of created, created.2) (with_snapshot.2, created.2).
Proof.
  apply (rtc_l _ _ (with_archive.2, created.2)); [|apply rtc_once].
  - eapply (step_archive _ _ [] (replicate 16 x07) 2 "store1" [replicate 32 x0a; replicate 32 x0b] with_archive.1);
      [done|done|done|by repeat constructor|]. apply surjective_pairing.
  - eapply (step_snapshot toy_ns _ [] (replicate 16 x08) 3 "store1" true with_snapshot.1); [done|done|done|].
    apply surjective_pairing.
Qed.
Lemma open_ok_good : all_good open_ok.
Proof. by split_and!. Qed.

(** A commit that failed breaks the catalog.  What is pending is kept when [sync_data] fails, although it was
    written; the next commit succeeds and writes it again, and then the catalog cannot be opened any more. *)
Theorem failed_commit_breaks_catalog :
  let failed := commit sync_fails with_snapshot.2 created.2 in
  let repeated := commit commit_ok failed.2.1 failed.2.2 in
  failed.1 = Err "sync failed" /\ repeated.1 = Ok tt /\
  (open toy_io toy_ns open_ok media true false repeated.2.2).1
    = Err "start_chunk_archive: got unexpected file number".
Proof. vm_compute. by split_and!. Qed.
End CatalogExample.
Import CatalogExample.

Lemma catalog_reopened_witness :
  exists c2, open toy_io toy_ns open_ok media true true (commit commit_ok with_snapshot.2 created.2).2.2
    = (Ok c2, (commit commit_ok with_snapshot.2 created.2).2.2) /\ mc_content c2 = mc_content with_snapshot.2.
Proof.
  destruct (catalog_reopened toy_io toy_ns open_ok commit_ok true media _ _ _ with_snapshot.2 created.2 commit_ok
    (commit commit_ok with_snapshot.2 created.2).2.1 (commit commit_ok with_snapshot.2 created.2).2.2 open_ok true true
    media_good created_ok run_ok) as (c2 & E & Hc & _).
  - vm_compute. reflexivity.
  - exact open_ok_good.
  - reflexivity.
  - exists c2. split; [exact E|exact Hc].
Defined.

Lemma catalog_crash_witness :
  exists before, open toy_io toy_ns open_ok media true true created.2 = (Ok before, created.2).
Proof.
  destruct (catalog_crash toy_io toy_ns open_ok commit_ok true media _ _ _ with_snapshot.2 created.2 torn
    (commit torn with_snapshot.2 created.2).1 (commit torn with_snapshot.2 created.2).2.1
    (commit torn with_snapshot.2 created.2).2.2 open_ok true true
    (open toy_io toy_ns open_ok media true true (commit torn with_snapshot.2 created.2).2.2).1
    (open toy_io toy_ns open_ok media true true (commit torn with_snapshot.2 created.2).2.2).2
    media_good created_ok run_ok) as (before & E & _).
  - vm_compute. reflexivity.
  - exact open_ok_good.
  - reflexivity.
  - apply surjective_pairing.
  - exists before. exact E.
Defined.

Lemma catalog_well_formed_witness : catalog_wf with_snapshot.2 /\ next_file_number with_snapshot.2 = 4.
Proof.
  split; [|vm_compute; reflexivity].
  apply (catalog_well_formed toy_ns open_ok commit_ok true media _ _ _ with_snapshot.2 created.2
    media_good created_ok run_ok).
Defined.

Lemma unrelated_catalog_destroyed_witness :
  destroy_unrelated_catalog toy_io true true other_set created.2 =
  (Ok tt, remove_name (catalog_path (replicate 16 x01)) created.2).
Proof.
  rewrite (unrelated_catalog_destroyed toy_io toy_ns open_ok commit_ok true media
    (with_data "pool" (replicate 16 x02) 0 0 None) _ _ _ with_snapshot.2 created.2 other_set
    (with_data "pool" (replicate 16 x03) 0 0 None) media_good eq_refl created_ok run_ok eq_refl eq_refl).
  reflexivity.
Defined.

Lemma set_append_keeps_witness :
  cs_contains_chunk [(replicate 16 x01, with_archive.2)] "store1" (replicate 32 x0a)
    {| cs_set := {| catalog_list := {[replicate 16 x01 := with_archive.2]} |};
       cs_catalog := Some (catalog_empty (replicate 16 x09)) |} = true.
Proof.
  apply (set_append_keeps (catalog_empty (replicate 16 x09))
    {| cs_set := {| catalog_list := ∅ |}; cs_catalog := Some with_archive.2 |}
    {| cs_set := {| catalog_list := {[replicate 16 x01 := with_archive.2]} |};
       cs_catalog := Some (catalog_empty (replicate 16 x09)) |} []).
  - vm_compute. reflexivity.
  - unfold in_set. cbn [cs_set catalog_list]. rewrite map_to_list_empty. reflexivity.
  - unfold in_set. cbn [cs_set catalog_list]. rewrite map_to_list_singleton. reflexivity.
  - right. left. exists with_archive.2. split; [reflexivity|]. split; [vm_compute; discriminate|vm_compute; reflexivity].
Defined.
