(* ===== verification/Inventory.v ===== *)
(** * The inventory of tape media, [src/tape/inventory.rs]

    The inventory has the labels, status and location of all known media.  It is a JSON file, changed by loading it,
    changing the map and replacing the file, all under a lock.  The file is the list of its entries here, as serde
    reads back what it has written; outcomes of locking, reading and writing are arguments.  Also [MediaSet] of
    [src/tape/media_set.rs] and [OnlineStatusMap] of [src/tape/changer/online_status_map.rs]. *)

From stdpp Require Import sorting.
From S2P Require Import Prelude MediaLabel.
From Stdlib Require Import Strings.Byte.

(** [MediaStatus] and [MediaLocation] of pbs-api-types. *)
Inductive MediaStatus := Writable | Full | Damaged | Retired | UnknownStatus.
Inductive MediaLocation := Online (changer : string) | Offline | Vault (vault : string).
#[export] Instance MediaStatus_eq_dec : EqDecision MediaStatus.
Proof. solve_decision. Defined.
#[export] Instance MediaLocation_eq_dec : EqDecision MediaLocation.
Proof. solve_decision. Defined.

Record MediaStateEntry := {
  me_id : MediaId;
  me_location : option MediaLocation;
  me_status : option MediaStatus;
  me_bytes_used : option Z;
}.
Record Inventory := {
  inv_map : gmap uuid_t MediaStateEntry;
  inv_set_start_times : gmap uuid_t Z;
}.
Definition inventory_new : Inventory := {| inv_map := ∅; inv_set_start_times := ∅ |}.

(** ** The order of a [BTreeMap]: keys are compared as bytes *)
Fixpoint bytes_leb (a b : list byte) : bool :=
  match a, b with
  | [], _ => true
  | _ :: _, [] => false
  | x :: a, y :: b =>
      if byte_to_Z x <? byte_to_Z y then true
      else if byte_to_Z y <? byte_to_Z x then false else bytes_leb a b
  end.
Definition key_le (a b : uuid_t * MediaStateEntry) : Prop := bytes_leb a.1 b.1 = true.
#[export] Instance key_le_dec : RelDecision key_le.
Proof. intros a b. unfold key_le. apply _. Defined.
Definition entries (m : gmap uuid_t MediaStateEntry) : list (uuid_t * MediaStateEntry) :=
  merge_sort key_le (map_to_list m).
Definition values (m : gmap uuid_t MediaStateEntry) : list MediaStateEntry := (entries m).*2.
(** [values().filter_map(|entry| entry.id.media_set_label.as_ref())] *)
Definition set_labels (m : gmap uuid_t MediaStateEntry) : list MediaSetLabel :=
  omap (fun e => mi_media_set_label (me_id e)) (values m).

(** ** Loading and storing *)
Definition update_helpers (inv : Inventory) : Inventory :=
  {| inv_map := inv_map inv;
     inv_set_start_times :=
       foldl (fun times set => if ms_seq_nr set =? 0 then <[ms_uuid set := ms_ctime set]> times else times)
         ∅ (set_labels (inv_map inv)) |}.

(** The file, and the outcomes for it. *)
Abbreviation db_t := (list MediaStateEntry).
Record DbOutcome := { db_lock : bool; db_load : bool; db_save : bool }.

Definition load_media_db (o : DbOutcome) (db : db_t) : res (gmap uuid_t MediaStateEntry) :=
  if negb (db_load o) then Err "unable to read inventory" else
  Ok (foldl (fun map entry => <[ml_uuid (mi_label (me_id entry)) := entry]> map) ∅ db).
Definition replace_db (o : DbOutcome) (inv : Inventory) (db : db_t) : res unit * db_t :=
  if negb (db_save o) then (Err "unable to replace file", db) else (Ok tt, values (inv_map inv)).

Definition with_map (m : gmap uuid_t MediaStateEntry) (inv : Inventory) : Inventory :=
  {| inv_map := m; inv_set_start_times := inv_set_start_times inv |}.
Definition reload (o : DbOutcome) (inv : Inventory) (db : db_t) : res unit * Inventory :=
  try! m := load_media_db o db for inv in
  (Ok tt, update_helpers (with_map m inv)).
Definition inventory_load (o : DbOutcome) (db : db_t) : res Inventory :=
  match reload o inventory_new db with (Ok _, inv) => Ok inv | (Err e, _) => Err e | (Panic e, _) => Panic e end.

(** Lock the file and load it. *)
Definition lock_and_load (o : DbOutcome) (inv : Inventory) (db : db_t) : res unit * Inventory :=
  if negb (db_lock o) then (Err "unable to lock inventory", inv) else
  try! m := load_media_db o db for inv in
  (Ok tt, with_map m inv).
(** Update the helpers and replace the file. *)
Definition finish_update (o : DbOutcome) (inv : Inventory) (db : db_t) : res unit * (Inventory * db_t) :=
  let inv := update_helpers inv in
  let '(r, db) := replace_db o inv db in (r, (inv, db)).

Definition set_id_label (id : MediaId) (set : option MediaSetLabel) : MediaId :=
  {| mi_label := mi_label id; mi_media_set_label := set |}.

Definition store (o : DbOutcome) (media_id : MediaId) (clear_media_status : bool) (inv : Inventory) (db : db_t)
    : res unit * (Inventory * db_t) :=
  let '(r, inv) := lock_and_load o inv db in
  try! _ := r for (inv, db) in
  let uuid := ml_uuid (mi_label media_id) in
  let entry :=
    match inv_map inv !! uuid with
    | Some previous =>
        let media_id :=
          match mi_media_set_label media_id, mi_media_set_label (me_id previous) with
          | None, Some set => if unassigned set then set_id_label media_id (Some set) else media_id
          | _, _ => media_id
          end in
        {| me_id := media_id; me_location := me_location previous;
           me_status := if clear_media_status then None else me_status previous;
           me_bytes_used := me_bytes_used previous |}
    | None => {| me_id := media_id; me_location := None; me_status := None; me_bytes_used := None |}
    end in
  finish_update o (with_map (<[uuid := entry]> (inv_map inv)) inv) db.

Definition remove_media (o : DbOutcome) (uuid : uuid_t) (inv : Inventory) (db : db_t)
    : res unit * (Inventory * db_t) :=
  let '(r, inv) := lock_and_load o inv db in
  try! _ := r for (inv, db) in
  finish_update o (with_map (delete uuid (inv_map inv)) inv) db.

(** The setters: the entry of a media is changed, or there is no such media. *)
Definition modify_entry (o : DbOutcome) (uuid : uuid_t) (f : MediaStateEntry -> MediaStateEntry)
    (inv : Inventory) (db : db_t) : res unit * (Inventory * db_t) :=
  let '(r, inv) := lock_and_load o inv db in
  try! _ := r for (inv, db) in
  match inv_map inv !! uuid with
  | None => (Err "no such media", (inv, db))
  | Some entry => finish_update o (with_map (<[uuid := f entry]> (inv_map inv)) inv) db
  end.
Definition set_media_status (o : DbOutcome) (uuid : uuid_t) (status : option MediaStatus) :=
  modify_entry o uuid (fun e => {| me_id := me_id e; me_location := me_location e; me_status := status;
                                   me_bytes_used := me_bytes_used e |}).
Definition set_media_status_full o uuid := set_media_status o uuid (Some Full).
Definition set_media_status_damaged o uuid := set_media_status o uuid (Some Damaged).
Definition set_media_status_retired o uuid := set_media_status o uuid (Some Retired).
Definition clear_media_status o uuid := set_media_status o uuid None.
Definition set_media_location (o : DbOutcome) (uuid : uuid_t) (location : option MediaLocation) :=
  modify_entry o uuid (fun e => {| me_id := me_id e; me_location := location; me_status := me_status e;
                                   me_bytes_used := me_bytes_used e |}).
Definition set_media_location_vault o uuid vault := set_media_location o uuid (Some (Vault vault)).
Definition set_media_location_offline o uuid := set_media_location o uuid (Some Offline).
Definition set_media_bytes_used (o : DbOutcome) (uuid : uuid_t) (bytes_used : option Z) :=
  modify_entry o uuid (fun e => {| me_id := me_id e; me_location := me_location e; me_status := me_status e;
                                   me_bytes_used := bytes_used |}).

(** ** Queries *)
Definition inv_lookup_media (uuid : uuid_t) (inv : Inventory) : option MediaId := me_id <$> inv_map inv !! uuid.
Definition media_list (inv : Inventory) : list uuid_t := (entries (inv_map inv)).*1.
Definition find_media_by_label_text (label_text : string) (inv : Inventory) : res (option MediaId) :=
  let ids := omap (fun e => if bool_decide (ml_label_text (mi_label (me_id e)) = label_text) then Some (me_id e) else None)
               (values (inv_map inv)) in
  match ids with
  | [] => Ok None
  | [id] => Ok (Some id)
  | _ => Err "There are several tapes with the label"
  end.
Definition lookup_media_pool (uuid : uuid_t) (inv : Inventory) : option (string * bool) :=
  e ← inv_map inv !! uuid;
  match ml_pool (mi_label (me_id e)), mi_media_set_label (me_id e) with
  | _, Some set => Some (ms_pool set, unassigned set)
  | Some pool, None => Some (pool, true)
  | None, None => None
  end.
Definition list_pool_media (pool : string) (inv : Inventory) : list MediaId :=
  omap (fun e =>
          if bool_decide (media_pool (me_id e) = Some pool) then
            match mi_media_set_label (me_id e) with
            | Some set => if unassigned set then Some (set_id_label (me_id e) None) else Some (me_id e)
            | None => Some (me_id e)
            end
          else None)
    (values (inv_map inv)).
Definition list_used_media (inv : Inventory) : list MediaId :=
  omap (fun e => match mi_media_set_label (me_id e) with
                 | Some set => if negb (unassigned set) then Some (me_id e) else None
                 | None => None
                 end) (values (inv_map inv)).
Definition list_unassigned_media (inv : Inventory) : list MediaId :=
  omap (fun e => match media_pool (me_id e) with None => Some (me_id e) | Some _ => None end) (values (inv_map inv)).
Definition media_set_start_time (set_uuid : uuid_t) (inv : Inventory) : option Z := inv_set_start_times inv !! set_uuid.

Fixpoint media_set_pool_loop (set_uuid : uuid_t) (inv : Inventory) (l : list MediaStateEntry)
    (last_pool : option string) : res string :=
  match l with
  | [] => match last_pool with Some pool => Ok pool | None => Err "media set is incomplete - unable to lookup pool" end
  | e :: l =>
      match mi_media_set_label (me_id e) with
      | None => media_set_pool_loop set_uuid inv l last_pool
      | Some set =>
          if negb (bool_decide (ms_uuid set = set_uuid)) then media_set_pool_loop set_uuid inv l last_pool else
          match lookup_media_pool (ml_uuid (mi_label (me_id e))) inv with
          | None => media_set_pool_loop set_uuid inv l last_pool
          | Some (pool, _) =>
              match last_pool with
              | Some last =>
                  if negb (bool_decide (last = pool))
                  then Err "detected media set with inconsistent pool assignment - internal error"
                  else media_set_pool_loop set_uuid inv l last_pool
              | None => media_set_pool_loop set_uuid inv l (Some pool)
              end
          end
      end
  end.
Definition lookup_media_set_pool (set_uuid : uuid_t) (inv : Inventory) : res string :=
  media_set_pool_loop set_uuid inv (values (inv_map inv)) None.

(** ** [MediaSet] *)
Record MediaSet := { set_uuid : uuid_t; set_media : list (option uuid_t) }.
Definition media_set_with_data (uuid : uuid_t) (l : list (option uuid_t)) : MediaSet :=
  {| set_uuid := uuid; set_media := l |}.
Definition add_media (uuid : uuid_t) (s : MediaSet) : MediaSet :=
  {| set_uuid := set_uuid s; set_media := set_media s ++ [Some uuid] |}.
(** [seq_nr + 1] wraps for the largest number, then the list is cut and the access behind it panics. *)
Definition insert_media (uuid : uuid_t) (seq_nr : Z) (s : MediaSet) : res MediaSet :=
  let n := Z.to_nat seq_nr in
  let? l :=
    match set_media s !! n with
    | Some (Some _) => Err "found duplicate sequence number in media set"
    | Some None => Ok (set_media s)
    | None => if seq_nr =? U64_MAX then Panic "index out of bounds" else Ok (resize (n + 1) None (set_media s))
    end in
  Ok {| set_uuid := set_uuid s; set_media := <[n := Some uuid]> l |}.
Definition last_media_uuid (s : MediaSet) : option uuid_t :=
  match last (set_media s) with Some (Some u) => Some u | _ => None end.
Definition is_last_media (uuid : uuid_t) (s : MediaSet) : bool :=
  match last (set_media s) with Some (Some u) => bool_decide (uuid = u) | _ => false end.

Fixpoint members_loop (uuid : uuid_t) (l : list MediaStateEntry) (s : MediaSet) : res MediaSet :=
  match l with
  | [] => Ok s
  | e :: l =>
      match mi_media_set_label (me_id e) with
      | None => members_loop uuid l s
      | Some set =>
          if negb (bool_decide (ms_uuid set = uuid)) then members_loop uuid l s else
          let? s := insert_media (ml_uuid (mi_label (me_id e))) (ms_seq_nr set) s in
          members_loop uuid l s
      end
  end.
Definition compute_media_set_members (uuid : uuid_t) (inv : Inventory) : res MediaSet :=
  members_loop uuid (values (inv_map inv)) (media_set_with_data uuid []).

Fixpoint set_list_loop (l : list MediaStateEntry) (sets : gmap uuid_t MediaSet) : res (gmap uuid_t MediaSet) :=
  match l with
  | [] => Ok sets
  | e :: l =>
      match mi_media_set_label (me_id e) with
      | None => set_list_loop l sets
      | Some set =>
          let s := default (media_set_with_data (ms_uuid set) []) (sets !! ms_uuid set) in
          let? s := insert_media (ml_uuid (mi_label (me_id e))) (ms_seq_nr set) s in
          set_list_loop l (<[ms_uuid set := s]> sets)
      end
  end.
Definition compute_media_set_list (inv : Inventory) : res (gmap uuid_t MediaSet) :=
  set_list_loop (values (inv_map inv)) ∅.

Definition pool_sets (pool : string) (inv : Inventory) : list MediaSetLabel :=
  List.filter (fun set => bool_decide (ms_pool set = pool) && negb (unassigned set)) (set_labels (inv_map inv)).
Definition latest_media_set (pool : string) (inv : Inventory) : option uuid_t :=
  let set_list := pool_sets pool inv in
  let last_set :=
    foldl (fun last set =>
             match last with
             | None => Some (ms_uuid set, ms_ctime set)
             | Some (_, last_ctime) => if last_ctime <? ms_ctime set then Some (ms_uuid set, ms_ctime set) else last
             end) None set_list in
  match last_set with
  | None => None
  | Some (uuid, ctime) =>
      if existsb (fun set => negb (bool_decide (ms_uuid set = uuid)) && (ctime <=? ms_ctime set)) set_list
      then None else Some uuid
  end.

Definition media_set_next_start_time (uuid : uuid_t) (inv : Inventory) : option Z :=
  match List.find (fun set => bool_decide (ms_uuid set = uuid)) (set_labels (inv_map inv)) with
  | None => None
  | Some this =>
      let set_list := List.filter (fun set => negb (bool_decide (ms_uuid set = uuid)) && bool_decide (ms_pool set = ms_pool this))
                        (set_labels (inv_map inv)) in
      foldl (fun next set =>
               if ms_ctime this <? ms_ctime set then
                 match next with
                 | None => Some (ms_ctime set)
                 | Some last_next => if ms_ctime set <? last_next then Some (ms_ctime set) else next
                 end
               else next) None set_list
  end.

(** ** Policies of pbs-api-types; the next time of a calendar event and the seconds of a time span are computed there *)
Inductive MediaSetPolicy := ContinueCurrent | AlwaysCreate | CreateAt (compute_next_event : Z -> res (option Z)).
Inductive RetentionPolicy := KeepForever | OverwriteAlways | ProtectFor (seconds : Z).

Definition media_expire_time (media : MediaId) (policy : MediaSetPolicy) (retention : RetentionPolicy)
    (inv : Inventory) : Z :=
  match retention with
  | KeepForever => I64_MAX
  | _ =>
      match mi_media_set_label media with
      | None => I64_MAX
      | Some set =>
          let set_start_time := default (ms_ctime set) (media_set_start_time (ms_uuid set) inv) in
          let max_use_time :=
            match media_set_next_start_time (ms_uuid set) inv with
            | Some next_start_time =>
                match policy with AlwaysCreate => Some set_start_time | _ => Some next_start_time end
            | None =>
                match policy with
                | ContinueCurrent => None
                | AlwaysCreate => Some set_start_time
                | CreateAt compute_next_event =>
                    match compute_next_event set_start_time with Ok (Some next) => Some next | _ => None end
                end
            end in
          match max_use_time with
          | None => I64_MAX
          | Some max_use_time =>
              match retention with
              | KeepForever => I64_MAX
              | OverwriteAlways => max_use_time
              | ProtectFor seconds => i64 (max_use_time + seconds)
              end
          end
      end
  end.

Definition status_and_location (uuid : uuid_t) (inv : Inventory) : MediaStatus * MediaLocation :=
  match inv_map inv !! uuid with
  | None => (UnknownStatus, Offline)
  | Some e => (default UnknownStatus (me_status e), default Offline (me_location e))
  end.
Definition get_media_bytes_used (uuid : uuid_t) (inv : Inventory) : option Z :=
  match inv_map inv !! uuid with Some e => me_bytes_used e | None => None end.

(** ** [OnlineStatusMap] *)
Record OnlineStatusMap := { os_map : gmap string (option (gset uuid_t)); os_changer_map : gmap uuid_t string }.
(** [new]: the names of all changers and virtual drives. *)
Definition online_new (names : list string) : OnlineStatusMap :=
  {| os_map := foldl (fun m name => <[name := None]> m) ∅ names; os_changer_map := ∅ |}.
Definition online_update (changer_name : string) (online_set : gset uuid_t) (o : OnlineStatusMap)
    : res OnlineStatusMap :=
  match os_map o !! changer_name with
  | None => Err "no such changer device"
  | Some (Some _) => Err "update_online_status called twice"
  | Some None =>
      Ok {| os_map := <[changer_name := Some online_set]> (os_map o);
            os_changer_map := set_fold (fun uuid m => <[uuid := changer_name]> m) (os_changer_map o) online_set |}
  end.
(** The location of an entry after an update. *)
Definition online_location (o : OnlineStatusMap) (uuid : uuid_t) (location : option MediaLocation)
    : option MediaLocation :=
  match os_changer_map o !! uuid with
  | Some changer_name => Some (Online changer_name)
  | None =>
      match location with
      | Some (Online changer_name) =>
          match os_map o !! changer_name with
          | None => Some Offline
          | Some None => location
          | Some (Some _) => Some Offline
          end
      | _ => location
      end
  end.
Definition inv_update_online_status (o : DbOutcome) (online : OnlineStatusMap) (inv : Inventory) (db : db_t)
    : res unit * (Inventory * db_t) :=
  let '(r, inv) := lock_and_load o inv db in
  try! _ := r for (inv, db) in
  finish_update o (with_map (map_imap (fun uuid e =>
    Some {| me_id := me_id e; me_location := online_location online uuid (me_location e);
            me_status := me_status e; me_bytes_used := me_bytes_used e |}) (inv_map inv)) inv) db.

(** ** The state of a changer, [MtxStatus] of pbs-tape; [ElementFull]: media without volume tag *)
Inductive ElementStatus := ElementEmpty | ElementFull | VolumeTag (label_text : string).
Record StorageElementStatus := { el_import_export : bool; el_status : ElementStatus }.
Record MtxStatus := { mtx_drives : list ElementStatus; mtx_slots : list StorageElementStatus }.

Definition insert_into_online_set (inv : Inventory) (label_text : string) (online_set : gset uuid_t) : gset uuid_t :=
  match find_media_by_label_text label_text inv with
  | Ok (Some media_id) => {[ml_uuid (mi_label media_id)]} ∪ online_set
  | _ => online_set
  end.
Definition insert_status (inv : Inventory) (online_set : gset uuid_t) (status : ElementStatus) : gset uuid_t :=
  match status with VolumeTag label_text => insert_into_online_set inv label_text online_set | _ => online_set end.
Definition mtx_status_to_online_set (status : MtxStatus) (inv : Inventory) : gset uuid_t :=
  let online_set := foldl (insert_status inv) ∅ (mtx_drives status) in
  foldl (fun online_set slot =>
           if el_import_export slot then online_set else insert_status inv online_set (el_status slot))
    online_set (mtx_slots status).
Definition label_texts_to_online_set (label_text_list : list string) (inv : Inventory) : gset uuid_t :=
  foldl (fun online_set label_text => insert_into_online_set inv label_text online_set) ∅ label_text_list.

(** The loop over devices: a device without an answer is skipped.  [found]: the requested one is there. *)
Fixpoint ask_devices {A} (changer : option string) (to_set : A -> gset uuid_t) (devices : list (string * res A))
    (map : OnlineStatusMap) (found : bool) : res (OnlineStatusMap * bool) :=
  match devices with
  | [] => Ok (map, found)
  | (name, status) :: devices =>
      if match changer with Some c => negb (bool_decide (c = name)) | None => false end
      then ask_devices changer to_set devices map found else
      let found := match changer with Some _ => true | None => found end in
      match status with
      | Ok status =>
          let? map := online_update name (to_set status) map in
          ask_devices changer to_set devices map found
      | Err _ => ask_devices changer to_set devices map found
      | Panic e => Panic e
      end
  end.
(** The configured changers and virtual drives, with what they report. *)
Definition update_online_status (o_load o : DbOutcome) (changers : list (string * res MtxStatus))
    (vtapes : list (string * res (list string))) (changer : option string) (db0 db : db_t)
    : res OnlineStatusMap * db_t :=
  try! inventory := inventory_load o_load db0 for db in
  let map := online_new (changers.*1 ++ vtapes.*1) in
  try! (map, found) := ask_devices changer (fun st => mtx_status_to_online_set st inventory) changers map false for db in
  try! (map, found) := ask_devices changer (fun l => label_texts_to_online_set l inventory) vtapes map found for db in
  if match changer with Some _ => negb found | None => false end
  then (Err "update_online_status failed - no such changer", db) else
  let '(r, (_, db)) := inv_update_online_status o map inventory db in
  try! _ := r for db in
  (Ok map, db).
Definition update_changer_online_status (o : DbOutcome) (names : list string) (changer_name : string)
    (label_text_list : list string) (inv : Inventory) (db : db_t) : res unit * (Inventory * db_t) :=
  let online_map := online_new names in
  let online_set := label_texts_to_online_set label_text_list inv in
  try! online_map := online_update changer_name online_set online_map for (inv, db) in
  inv_update_online_status o online_map inv db.
