(* ===== verification/InventorySpec.v ===== *)
(** * The inventory: what is stored is read back, updates are not lost, and the members of media sets *)

From stdpp Require Import sorting.
From S2P Require Import Prelude MediaLabel Inventory.
From Stdlib Require Import Strings.Byte.

Definition entry_uuid (e : MediaStateEntry) : uuid_t := ml_uuid (mi_label (me_id e)).
(** The map has every entry at the uuid of its label. *)
Definition keyed (m : gmap uuid_t MediaStateEntry) : Prop := map_Forall (fun u e => entry_uuid e = u) m.
(** The file as a map. *)
Definition db_map (db : db_t) : gmap uuid_t MediaStateEntry :=
  foldl (fun map entry => <[entry_uuid entry := entry]> map) ∅ db.

(** ** The values of the map *)
Lemma entries_perm m : entries m ≡ₚ map_to_list m.
Proof. apply merge_sort_Permutation. Qed.
Lemma elem_of_entries m u e : (u, e) ∈ entries m <-> m !! u = Some e.
Proof. by rewrite entries_perm, elem_of_map_to_list. Qed.
Lemma elem_of_values m e : e ∈ values m <-> exists u, m !! u = Some e.
Proof.
  unfold values. rewrite list_elem_of_fmap. split.
  - intros ([u e'] & -> & H%elem_of_entries). by exists u.
  - intros [u H]. exists (u, e). by rewrite elem_of_entries.
Qed.
Lemma elem_of_keyed_values m e : keyed m -> e ∈ values m <-> m !! entry_uuid e = Some e.
Proof.
  intros Hk. rewrite elem_of_values. split; [|by exists (entry_uuid e)].
  intros [u H]. by rewrite (Hk _ _ H).
Qed.
Lemma values_uuids m : keyed m -> entry_uuid <$> values m = (entries m).*1.
Proof.
  intros Hk. unfold values. rewrite <- list_fmap_compose. apply list_fmap_ext. intros i [u e] Hi. cbn.
  apply Hk, elem_of_entries, list_elem_of_lookup. by exists i.
Qed.
Lemma NoDup_values m : keyed m -> NoDup (entry_uuid <$> values m).
Proof. intros Hk. rewrite values_uuids by done. rewrite entries_perm. apply NoDup_fst_map_to_list. Qed.
Lemma elem_of_set_labels m set : keyed m ->
  set ∈ set_labels m <-> exists u e, m !! u = Some e /\ mi_media_set_label (me_id e) = Some set.
Proof.
  intros Hk. unfold set_labels. rewrite list_elem_of_omap. setoid_rewrite elem_of_values. split.
  - intros (e & [u Hu] & He). eauto.
  - intros (u & e & Hu & He). eauto.
Qed.

(** ** Storing and loading *)
Lemma db_map_list db : db_map db = list_to_map (reverse ((fun e => (entry_uuid e, e)) <$> db)).
Proof.
  induction db as [|e db IH] using rev_ind; [done|].
  unfold db_map in *. rewrite foldl_app, IH, fmap_app, reverse_app. cbn. done.
Qed.
Lemma db_map_keyed db : keyed (db_map db).
Proof.
  induction db as [|e db IH] using rev_ind; [apply map_Forall_empty|].
  unfold db_map in *. rewrite foldl_app. by apply map_Forall_insert_2.
Qed.
Lemma db_map_values m : keyed m -> db_map (values m) = m.
Proof.
  intros Hk. rewrite db_map_list.
  replace ((fun e => (entry_uuid e, e)) <$> values m) with (entries m).
  - rewrite (list_to_map_proper _ (map_to_list m)); [apply list_to_map_to_list| |].
    + rewrite fmap_reverse, reverse_Permutation, entries_perm. apply NoDup_fst_map_to_list.
    + by rewrite reverse_Permutation, entries_perm.
  - unfold values. rewrite <- list_fmap_compose. symmetry. rewrite <- (list_fmap_id (entries m)) at 2.
    apply list_fmap_ext. intros i [u e] Hi. cbn. f_equal.
    apply Hk, elem_of_entries, list_elem_of_lookup. by exists i.
Qed.
Lemma keyed_insert m e u : keyed m -> entry_uuid e = u -> keyed (<[u := e]> m).
Proof. intros Hk <-. by apply map_Forall_insert_2. Qed.
Lemma keyed_delete m u : keyed m -> keyed (delete u m).
Proof. apply map_Forall_delete. Qed.

Lemma update_helpers_map inv inv' : inv_map inv = inv_map inv' -> update_helpers inv = update_helpers inv'.
Proof. unfold update_helpers. by intros ->. Qed.

(** The changes of the inventory. *)
Inductive inv_op :=
  | OpStore (media_id : MediaId) (clear_media_status : bool)
  | OpRemove (uuid : uuid_t)
  | OpStatus (uuid : uuid_t) (status : option MediaStatus)
  | OpLocation (uuid : uuid_t) (location : option MediaLocation)
  | OpBytesUsed (uuid : uuid_t) (bytes_used : option Z)
  | OpOnline (online : OnlineStatusMap).
Definition run_op (o : DbOutcome) (op : inv_op) : Inventory -> db_t -> res unit * (Inventory * db_t) :=
  match op with
  | OpStore media_id clear => store o media_id clear
  | OpRemove uuid => remove_media o uuid
  | OpStatus uuid status => set_media_status o uuid status
  | OpLocation uuid location => set_media_location o uuid location
  | OpBytesUsed uuid bytes_used => set_media_bytes_used o uuid bytes_used
  | OpOnline online => inv_update_online_status o online
  end.
(** What an operation does to the entry of a media, [None] where it fails. *)
Definition stored_entry (media_id : MediaId) (clear : bool) (previous : option MediaStateEntry) : MediaStateEntry :=
  match previous with
  | None => {| me_id := media_id; me_location := None; me_status := None; me_bytes_used := None |}
  | Some prev =>
      {| me_id :=
           match mi_media_set_label media_id, mi_media_set_label (me_id prev) with
           | None, Some set => if unassigned set then set_id_label media_id (Some set) else media_id
           | _, _ => media_id
           end;
         me_location := me_location prev; me_status := if clear then None else me_status prev;
         me_bytes_used := me_bytes_used prev |}
  end.
Definition with_status (s : option MediaStatus) (e : MediaStateEntry) : MediaStateEntry :=
  {| me_id := me_id e; me_location := me_location e; me_status := s; me_bytes_used := me_bytes_used e |}.
Definition with_location (l : option MediaLocation) (e : MediaStateEntry) : MediaStateEntry :=
  {| me_id := me_id e; me_location := l; me_status := me_status e; me_bytes_used := me_bytes_used e |}.
Definition with_bytes_used (b : option Z) (e : MediaStateEntry) : MediaStateEntry :=
  {| me_id := me_id e; me_location := me_location e; me_status := me_status e; me_bytes_used := b |}.
Definition op_effect (op : inv_op) (m : gmap uuid_t MediaStateEntry) : option (gmap uuid_t MediaStateEntry) :=
  let change u f := e ← m !! u; Some (<[u := f e]> m) in
  match op with
  | OpStore media_id clear =>
      let u := ml_uuid (mi_label media_id) in Some (<[u := stored_entry media_id clear (m !! u)]> m)
  | OpRemove u => Some (delete u m)
  | OpStatus u s => change u (with_status s)
  | OpLocation u l => change u (with_location l)
  | OpBytesUsed u b => change u (with_bytes_used b)
  | OpOnline online =>
      Some (map_imap (fun u e => Some (with_location (online_location online u (me_location e)) e)) m)
  end.
Definition db_ok : DbOutcome := {| db_lock := true; db_load := true; db_save := true |}.

Lemma stored_entry_uuid media_id clear prev :
  entry_uuid (stored_entry media_id clear prev) = ml_uuid (mi_label media_id).
Proof.
  destruct prev as [prev|]; [|done]. unfold entry_uuid, stored_entry. cbn.
  destruct (mi_media_set_label media_id); [done|]. destruct (mi_media_set_label (me_id prev)); [|done]. by case_match.
Qed.
Lemma op_effect_keyed op m m' : keyed m -> op_effect op m = Some m' -> keyed m'.
Proof.
  intros Hk. destruct op; cbn [op_effect]; intros H; simplify_option_eq;
    try (apply keyed_insert; [done|]; match goal with H : m !! _ = Some _ |- _ => exact (Hk _ _ H) end).
  - apply keyed_insert; [done|]. apply stored_entry_uuid.
  - by apply keyed_delete.
  - intros u e He. rewrite map_lookup_imap in He. destruct (m !! u) as [e0|] eqn:E; [|done].
    cbn in He. simplify_eq. by apply (Hk u e0).
Qed.

(** ** Operations act on the file *)
Lemma lock_and_load_spec o inv db :
  lock_and_load o inv db =
    if negb (db_lock o) then (Err "unable to lock inventory", inv)
    else if negb (db_load o) then (Err "unable to read inventory", inv) else (Ok tt, with_map (db_map db) inv).
Proof. unfold lock_and_load, load_media_db. by destruct (db_lock o), (db_load o). Qed.
Lemma finish_update_spec o m inv db :
  finish_update o (with_map m inv) db =
    ((if db_save o then Ok tt else Err "unable to replace file"),
     (update_helpers (with_map m inventory_new), if db_save o then values m else db)).
Proof. unfold finish_update, replace_db. by destruct (db_save o). Qed.
Lemma inventory_load_spec o db :
  db_load o = true -> inventory_load o db = Ok (update_helpers (with_map (db_map db) inventory_new)).
Proof. intros H. unfold inventory_load, reload, load_media_db. by rewrite H. Qed.

Definition locked_and_read (o : DbOutcome) : bool := db_lock o && db_load o.
(** An operation on a file that can be locked and read. *)
Lemma run_op_spec o op inv db : locked_and_read o = true ->
  run_op o op inv db =
    match op_effect op (db_map db) with
    | None => (Err "no such media", (with_map (db_map db) inv, db))
    | Some m =>
        ((if db_save o then Ok tt else Err "unable to replace file"),
         (update_helpers (with_map m inventory_new), if db_save o then values m else db))
    end.
Proof.
  intros [Hl Hr]%andb_true_iff.
  assert (Hll : lock_and_load o inv db = (Ok tt, with_map (db_map db) inv)).
  { by rewrite lock_and_load_spec, Hl, Hr. }
  destruct op; cbn [run_op op_effect]; unfold store, remove_media, set_media_status, set_media_location,
    set_media_bytes_used, modify_entry, inv_update_online_status; rewrite Hll; cbn [inv_map with_map];
    try (destruct (db_map db !! uuid); cbn; [|done]); by rewrite finish_update_spec.
Qed.
Lemma run_op_refused o op inv db : locked_and_read o = false ->
  exists e, run_op o op inv db = (Err e, (inv, db)).
Proof.
  intros H.
  assert (exists e, lock_and_load o inv db = (Err e, inv)) as [e Hll].
  { rewrite lock_and_load_spec. unfold locked_and_read in H. destruct (db_lock o), (db_load o); cbn; eauto; done. }
  exists e. destruct op; cbn [run_op]; unfold store, remove_media, set_media_status, set_media_location,
    set_media_bytes_used, modify_entry, inv_update_online_status; by rewrite Hll.
Qed.

Lemma run_op_cases o op inv db r inv' db' :
  run_op o op inv db = (r, (inv', db')) ->
  (r = Ok tt /\ inv' = update_helpers (with_map (db_map db') inventory_new)
   /\ Some (db_map db') = op_effect op (db_map db))
  \/ ((exists e, r = Err e) /\ db' = db).
Proof.
  intros Hrun. destruct (locked_and_read o) eqn:Hlr.
  2: { destruct (run_op_refused o op inv db Hlr) as [e He]. rewrite He in Hrun. simplify_eq. right. eauto. }
  rewrite run_op_spec in Hrun by done.
  destruct (op_effect op (db_map db)) as [m|] eqn:Hm; [|simplify_eq; right; eauto].
  destruct (db_save o); simplify_eq; [|right; eauto]. left.
  assert (Hk : keyed m) by (eapply op_effect_keyed; [apply db_map_keyed|done]). by rewrite db_map_values.
Qed.
Lemma run_op_keyed o op inv db r inv' db' :
  keyed (inv_map inv) -> run_op o op inv db = (r, (inv', db')) -> keyed (inv_map inv').
Proof.
  intros Hk Hrun. destruct (locked_and_read o) eqn:Hlr.
  - rewrite run_op_spec in Hrun by done. destruct (op_effect op (db_map db)) as [m|] eqn:Hm; simplify_eq; cbn.
    + eapply op_effect_keyed; [apply db_map_keyed|done].
    + apply db_map_keyed.
  - destruct (run_op_refused o op inv db Hlr) as [e He]. rewrite He in Hrun. by simplify_eq.
Qed.
(** What a changed inventory has stored is what is loaded later, and an operation that fails leaves the file as it was.
    The file has the change of the operation, computed from the file and not from what was in memory. *)
Theorem inventory_stored o o' op inv db r inv' db' :
  run_op o op inv db = (r, (inv', db')) -> db_load o' = true ->
  (r = Ok tt /\ inventory_load o' db' = Ok inv' /\ Some (db_map db') = op_effect op (db_map db))
  \/ ((exists e, r = Err e) /\ db' = db).
Proof.
  intros [(-> & -> & He)|H]%run_op_cases Ho'; [left|by right]. by rewrite inventory_load_spec.
Qed.

Lemma fresh_keyed db : keyed (inv_map (update_helpers (with_map (db_map db) inventory_new))).
Proof. apply db_map_keyed. Qed.

(** ** Several processes, each with its own copy of the inventory *)
Definition step := (nat * DbOutcome * inv_op)%type.
Fixpoint run_steps (l : list step) (copies : nat -> Inventory) (db : db_t) : list (res unit) * db_t :=
  match l with
  | [] => ([], db)
  | (i, o, op) :: l =>
      let '(r, (inv, db)) := run_op o op (copies i) db in
      let '(rs, db) := run_steps l (fun j => if (j =? i)%nat then inv else copies j) db in
      (r :: rs, db)
  end.
(** One process that loads the file before each change. *)
Fixpoint run_fresh (l : list step) (db : db_t) : list (res unit) * db_t :=
  match l with
  | [] => ([], db)
  | (i, o, op) :: l =>
      let '(r, (_, db)) := run_op o op inventory_new db in
      let '(rs, db) := run_fresh l db in
      (r :: rs, db)
  end.
Lemma run_op_copy o op inv inv2 db :
  (run_op o op inv db).1 = (run_op o op inv2 db).1 /\ (run_op o op inv db).2.2 = (run_op o op inv2 db).2.2.
Proof.
  destruct (locked_and_read o) eqn:H.
  - rewrite !run_op_spec by done. by destruct (op_effect op (db_map db)).
  - unfold locked_and_read in H. destruct op; cbn [run_op]; unfold store, remove_media, set_media_status,
      set_media_location, set_media_bytes_used, modify_entry, inv_update_online_status;
      rewrite !lock_and_load_spec; by destruct (db_lock o), (db_load o).
Qed.
(** No update is lost: whatever outdated copies the processes hold, in every order of their operations the results
    and the file are those of one process that always works on the current file. *)
Theorem inventory_no_lost_update l : forall copies db, run_steps l copies db = run_fresh l db.
Proof.
  induction l as [|[[i o] op] l IH]; intros copies db; [done|]. cbn [run_steps run_fresh].
  pose proof (run_op_copy o op (copies i) inventory_new db) as [H1 H2].
  destruct (run_op o op (copies i) db) as [r1 [inv1 db1]], (run_op o op inventory_new db) as [r2 [inv2 db2]].
  cbn in H1, H2. subst. by rewrite IH.
Qed.

(** ** The members of a media set *)
Definition in_set (uuid : uuid_t) (e : MediaStateEntry) (n : nat) : Prop :=
  exists set, mi_media_set_label (me_id e) = Some set /\ ms_uuid set = uuid /\ Z.to_nat (ms_seq_nr set) = n.
Definition seqs_ok (m : gmap uuid_t MediaStateEntry) : Prop :=
  map_Forall (fun _ e => match mi_media_set_label (me_id e) with
                         | Some set => 0 <= ms_seq_nr set < U64_MAX
                         | None => True
                         end) m.
Definition ends_some (l : list (option uuid_t)) : Prop := l = [] \/ exists u, last l = Some (Some u).

Lemma ends_some_eq l1 l2 :
  ends_some l1 -> ends_some l2 -> (forall n u, l1 !! n = Some (Some u) <-> l2 !! n = Some (Some u)) -> l1 = l2.
Proof.
  assert (Hle : forall l l', ends_some l -> (forall n u, l !! n = Some (Some u) -> l' !! n = Some (Some u)) ->
                (length l <= length l')%nat).
  { intros l l' [->|[u Hu]] H; [cbn; lia|]. rewrite last_lookup in Hu. apply H, lookup_lt_Some in Hu. lia. }
  intros H1 H2 H. assert (Hlen : length l1 = length l2).
  { apply Nat.le_antisymm; apply Hle; try done; intros n u; by apply H. }
  apply list_eq. intros n. destruct (l1 !! n) as [[u|]|] eqn:E1.
  - symmetry. by apply H.
  - destruct (l2 !! n) as [[u|]|] eqn:E2; [apply H in E2; congruence|done|].
    apply lookup_ge_None in E2. apply lookup_lt_Some in E1. lia.
  - symmetry. apply lookup_ge_None in E1. apply lookup_ge_None. lia.
Qed.

Lemma insert_media_spec u seq_nr s :
  0 <= seq_nr < U64_MAX ->
  match insert_media u seq_nr s with
  | Ok s' =>
      set_uuid s' = set_uuid s /\ (forall v, set_media s !! Z.to_nat seq_nr <> Some (Some v))
      /\ (ends_some (set_media s) -> ends_some (set_media s'))
      /\ forall n v, set_media s' !! n = Some (Some v) <->
                     (n = Z.to_nat seq_nr /\ v = u) \/ set_media s !! n = Some (Some v)
  | Err _ => exists v, set_media s !! Z.to_nat seq_nr = Some (Some v)
  | Panic _ => False
  end.
Proof.
  intros Hs. unfold insert_media. set (n := Z.to_nat seq_nr).
  destruct (set_media s !! n) as [[v|]|] eqn:E; cbn [set_uuid set_media].
  - eauto.
  - pose proof (lookup_lt_Some _ _ _ E) as Hlt. split_and!; [done|congruence| |].
    + intros [Hnil|[v Hv]]; [rewrite Hnil in E; done|]. right. rewrite last_lookup in *.
      rewrite length_insert. destruct (decide (n = Nat.pred (length (set_media s)))) as [->|Hne].
      * exists u. by apply list_lookup_insert_eq.
      * exists v. by rewrite list_lookup_insert_ne.
    + intros k v. destruct (decide (k = n)) as [->|Hne].
      * rewrite list_lookup_insert_eq by done. naive_solver.
      * rewrite list_lookup_insert_ne by done. naive_solver.
  - rewrite (proj2 (Z.eqb_neq seq_nr U64_MAX)) by lia. cbn [set_uuid set_media].
    pose proof (proj1 (lookup_ge_None _ _) E) as Hge.
    assert (Hlen : (n < length (resize (n + 1) None (set_media s)))%nat) by (rewrite length_resize; lia).
    split_and!; [done|congruence| |].
    + intros _. right. exists u. rewrite last_lookup, length_insert, length_resize.
      replace (Nat.pred (n + 1)) with n by lia. by apply list_lookup_insert_eq.
    + intros k v. destruct (decide (k = n)) as [->|Hne].
      * rewrite list_lookup_insert_eq by done. rewrite E. naive_solver.
      * rewrite list_lookup_insert_ne by done.
        destruct (decide (k < length (set_media s))%nat) as [Hk|Hk].
        -- rewrite lookup_resize by lia. naive_solver.
        -- rewrite (lookup_ge_None_2 (set_media s)) by lia. split; [|naive_solver]. intros Hlk.
           destruct (decide (k < n + 1)%nat) as [Hk'|Hk'].
           ++ rewrite lookup_resize_new in Hlk by lia. done.
           ++ rewrite lookup_resize_old in Hlk by lia. done.
Qed.

Definition entry_ok (e : MediaStateEntry) : Prop :=
  match mi_media_set_label (me_id e) with Some set => 0 <= ms_seq_nr set < U64_MAX | None => True end.
(** What the loop computes when it succeeds. *)
Lemma members_loop_sound uuid l : forall s s',
  Forall entry_ok l -> members_loop uuid l s = Ok s' ->
  set_uuid s' = set_uuid s /\ (ends_some (set_media s) -> ends_some (set_media s'))
  /\ forall n u, set_media s' !! n = Some (Some u) <->
                 (exists e, e ∈ l /\ in_set uuid e n /\ entry_uuid e = u) \/ set_media s !! n = Some (Some u).
Proof.
  induction l as [|e l IH]; intros s s' Hok Hrun; cbn [members_loop] in Hrun.
  { simplify_eq. split_and!; [done..|]. intros n u. split; [by right|]. intros [(e & He & _)|?]; [set_solver|done]. }
  apply Forall_cons in Hok as [He Hok].
  assert (Hskip : (forall n, ~ in_set uuid e n) -> members_loop uuid l s = Ok s' ->
    set_uuid s' = set_uuid s /\ (ends_some (set_media s) -> ends_some (set_media s'))
    /\ forall n u, set_media s' !! n = Some (Some u) <->
         (exists e', e' ∈ e :: l /\ in_set uuid e' n /\ entry_uuid e' = u) \/ set_media s !! n = Some (Some u)).
  { intros Hno Hl. destruct (IH _ _ Hok Hl) as (Hu & Hends & Hin). split_and!; [done..|]. intros n u.
    rewrite Hin. setoid_rewrite elem_of_cons. naive_solver. }
  destruct (mi_media_set_label (me_id e)) as [set|] eqn:Hset.
  2: { apply Hskip; [|done]. intros n (x & Hx & _). congruence. }
  destruct (bool_decide_reflect (ms_uuid set = uuid)) as [Heq|Hne]; cbn [negb] in Hrun.
  2: { apply Hskip; [|done]. intros n (x & Hx & Hux & _). congruence. }
  unfold entry_ok in He. rewrite Hset in He. pose proof (insert_media_spec (entry_uuid e) _ s He) as Hi.
  unfold entry_uuid in Hi at 1.
  destruct (insert_media (ml_uuid (mi_label (me_id e))) (ms_seq_nr set) s) as [s1| |] eqn:Ei; [|done..].
  destruct Hi as (Hu1 & _ & He1 & Hin1), (IH _ _ Hok Hrun) as (Hu & Hends & Hin).
  split_and!; [congruence|tauto|]. intros n u. rewrite Hin, Hin1. setoid_rewrite elem_of_cons.
  split.
  - intros [(e' & He' & Hi' & Hu')|[[-> ->]|?]]; [naive_solver| |by right].
    left. exists e. split; [by left|]. split; [|done]. by exists set.
  - intros [(e' & [->|He'] & Hi' & Hu')|?]; [|naive_solver|by right; right].
    destruct Hi' as (x & Hx & _ & <-). right. left. rewrite Hset in Hx. by simplify_eq.
Qed.
(** The loop succeeds when there is a list that has every member at its number. *)
Lemma members_loop_complete uuid (t : list (option uuid_t)) l : forall s,
  Forall entry_ok l -> NoDup (entry_uuid <$> l) ->
  (forall n e, e ∈ l -> in_set uuid e n -> t !! n = Some (Some (entry_uuid e))) ->
  (forall n u, set_media s !! n = Some (Some u) -> t !! n = Some (Some u) /\ u ∉ entry_uuid <$> l) ->
  exists s', members_loop uuid l s = Ok s'.
Proof.
  induction l as [|e l IH]; intros s Hok Hnd Ht Hs; cbn [members_loop]; [eauto|].
  apply Forall_cons in Hok as [He Hok]. cbn [fmap list_fmap] in Hnd. apply NoDup_cons in Hnd as [Hne Hnd].
  assert (Ht' : forall n e, e ∈ l -> in_set uuid e n -> t !! n = Some (Some (entry_uuid e))).
  { intros n e' He'. apply Ht. by right. }
  assert (Hs' : forall n u, set_media s !! n = Some (Some u) -> t !! n = Some (Some u) /\ u ∉ entry_uuid <$> l).
  { intros n u [H1 H2]%Hs. split; [done|]. cbn [fmap list_fmap] in H2. by apply not_elem_of_cons in H2 as [_ ?]. }
  destruct (mi_media_set_label (me_id e)) as [set|] eqn:Hset; [|by apply IH].
  destruct (bool_decide_reflect (ms_uuid set = uuid)) as [Heq|Hneq]; cbn [negb]; [|by apply IH].
  assert (Htn : t !! Z.to_nat (ms_seq_nr set) = Some (Some (entry_uuid e))).
  { apply Ht; [by left|]. by exists set. }
  unfold entry_ok in He. rewrite Hset in He. pose proof (insert_media_spec (entry_uuid e) _ s He) as Hi.
  unfold entry_uuid in Hi at 1.
  destruct (insert_media (ml_uuid (mi_label (me_id e))) (ms_seq_nr set) s) as [s1|er|er]; [|exfalso..]; [|destruct Hi as [v Hv]|done].
  - destruct Hi as (_ & _ & _ & Hin). apply IH; [done..|]. intros n u. rewrite Hin. intros [[-> ->]|?]; [done|by apply Hs'].
  - destruct (Hs _ _ Hv) as [Hv1 Hv2]. cbn [fmap list_fmap] in Hv2. apply not_elem_of_cons in Hv2 as [Hv2 _]. congruence.
Qed.

Lemma seqs_ok_values m : seqs_ok m -> Forall entry_ok (values m).
Proof. intros H. apply Forall_forall. intros e [u Hu]%elem_of_values. exact (H u e Hu). Qed.
(** The media at the numbers of a set. *)
Definition members_of (m : gmap uuid_t MediaStateEntry) (uuid : uuid_t) (l : list (option uuid_t)) : Prop :=
  ends_some l /\ forall n u, l !! n = Some (Some u) <-> exists e, m !! u = Some e /\ in_set uuid e n.
(** The set that is computed has exactly the media with a label of it, each at its sequence number, and it is computed
    whenever no number is used twice. *)
Lemma media_set_members_correct inv uuid s :
  keyed (inv_map inv) -> seqs_ok (inv_map inv) ->
  compute_media_set_members uuid inv = Ok s <-> set_uuid s = uuid /\ members_of (inv_map inv) uuid (set_media s).
Proof.
  intros Hk Hseq. unfold compute_media_set_members. set (m := inv_map inv) in *.
  assert (Hel : forall n u, (exists e, e ∈ values m /\ in_set uuid e n /\ entry_uuid e = u)
                            <-> exists e, m !! u = Some e /\ in_set uuid e n).
  { intros n u. split.
    - intros (e & He & Hi & <-). exists e. split; [by apply elem_of_keyed_values|done].
    - intros (e & He & Hi). exists e. pose proof (Hk _ _ He) as Hu. split_and!; [|done..].
      rewrite elem_of_values. by exists u. }
  assert (Hsound : forall s', members_loop uuid (values m) (media_set_with_data uuid []) = Ok s' ->
                   set_uuid s' = uuid /\ members_of m uuid (set_media s')).
  { intros s' Hs'. apply members_loop_sound in Hs' as (Hu & Hends & Hin); [|by apply seqs_ok_values].
    split; [done|]. split; [by apply Hends; left|]. intros n u. rewrite Hin, Hel. cbn. naive_solver. }
  split; [apply Hsound|]. intros (Hu & Hends & Hin).
  destruct (members_loop_complete uuid (set_media s) (values m) (media_set_with_data uuid [])) as [s' Hs'].
  - by apply seqs_ok_values.
  - by apply NoDup_values.
  - intros n e He Hi. apply Hin. exists e. split; [by apply elem_of_keyed_values|done].
  - cbn. done.
  - rewrite Hs'. destruct (Hsound _ Hs') as (Hu' & Hends' & Hin'). f_equal.
    destruct s as [su sm], s' as [su' sm']. cbn in *. f_equal; [congruence|].
    apply ends_some_eq; [done..|]. intros n u. by rewrite Hin, Hin'.
Qed.

(** ** The latest media set *)
Lemma latest_fold (l : list MediaSetLabel) : forall (start : option (uuid_t * Z)),
  let r := foldl (fun last set =>
             match last with
             | None => Some (ms_uuid set, ms_ctime set)
             | Some (_, last_ctime) => if last_ctime <? ms_ctime set then Some (ms_uuid set, ms_ctime set) else last
             end) start l in
  (r = start \/ exists set, set ∈ l /\ r = Some (ms_uuid set, ms_ctime set))
  /\ (forall set, set ∈ l -> exists u c, r = Some (u, c) /\ ms_ctime set <= c)
  /\ (forall u c, start = Some (u, c) -> exists u' c', r = Some (u', c') /\ c <= c').
Proof.
  induction l as [|x l IH]; intros start; cbn zeta; cbn [foldl].
  { split_and!; [by left|intros set Hs; by apply not_elem_of_nil in Hs|]. intros u c ->. exists u, c. split; [done|lia]. }
  match goal with |- context [foldl _ ?s l] => set (s0 := s); specialize (IH s0) end.
  cbn zeta in IH. destruct IH as (Hr & Hall & Hge).
  assert (Hs0 : (s0 = start \/ s0 = Some (ms_uuid x, ms_ctime x)) /\ exists u c, s0 = Some (u, c) /\ ms_ctime x <= c
                /\ forall u' c', start = Some (u', c') -> c' <= c).
  { subst s0. destruct start as [[u c]|].
    2: { split; [by right|]. exists (ms_uuid x), (ms_ctime x). split_and!; [done|lia|done]. }
    destruct (Z.ltb_spec c (ms_ctime x)); (split; [by eauto|]).
    - exists (ms_uuid x), (ms_ctime x). split_and!; [done|lia|]. intros; simplify_eq; lia.
    - exists u, c. split_and!; [done|lia|]. intros; simplify_eq; lia. }
  destruct Hs0 as (Hs0 & u & c & Hs0' & Hx & Hst). destruct (Hge _ _ Hs0') as (u' & c' & Hr' & Hc'). split_and!.
  - destruct Hr as [->|(set & Hin & ->)]; [|right; exists set; split; [by right|done]].
    destruct Hs0 as [->| ->]; [by left|]. right. exists x. split; [by left|done].
  - intros set [->|Hin]%elem_of_cons; [|by apply Hall]. exists u', c'. split; [done|lia].
  - intros u1 c1 H1. exists u', c'. split; [done|]. specialize (Hst _ _ H1). lia.
Qed.
Lemma elem_of_pool_sets pool inv set : set ∈ pool_sets pool inv <->
  set ∈ set_labels (inv_map inv) /\ ms_pool set = pool /\ unassigned set = false.
Proof.
  unfold pool_sets. rewrite list_elem_of_In, filter_In, <- list_elem_of_In, andb_true_iff, bool_decide_eq_true,
    negb_true_iff. done.
Qed.
(** The set with the newest media is the latest one. *)
Lemma latest_media_set_newest pool inv set :
  set ∈ pool_sets pool inv ->
  (forall s, s ∈ pool_sets pool inv -> ms_uuid s <> ms_uuid set -> ms_ctime s < ms_ctime set) ->
  latest_media_set pool inv = Some (ms_uuid set).
Proof.
  intros Hin Hnew. unfold latest_media_set. destruct (latest_fold (pool_sets pool inv) None) as (Hr & Hall & _).
  destruct (Hall _ Hin) as (u & c & Hf & Hc). cbn zeta in *. rewrite Hf in *.
  destruct Hr as [?|(s & Hs & Hsu)]; [done|]. simplify_eq.
  assert (Hu : ms_uuid s = ms_uuid set).
  { destruct (decide (ms_uuid s = ms_uuid set)) as [|Hne]; [done|]. specialize (Hnew _ Hs Hne). lia. }
  rewrite Hu. destruct (existsb _ _) eqn:He; [exfalso|done].
  apply existsb_exists in He as (s2 & Hs2 & H). apply andb_true_iff in H as [H1 H2%Z.leb_le].
  apply negb_true_iff, bool_decide_eq_false in H1. apply list_elem_of_In in Hs2. specialize (Hnew _ Hs2 H1). lia.
Qed.

(** ** Locations reported by a changer *)
Lemma set_fold_insert (c : string) (m0 : gmap uuid_t string) (X : gset uuid_t) u :
  set_fold (fun v m => <[v := c]> m) m0 X !! u = if decide (u ∈ X) then Some c else m0 !! u.
Proof.
  pose (P := fun (r : gmap uuid_t string) (Y : gset uuid_t) => r !! u = if decide (u ∈ Y) then Some c else m0 !! u).
  apply (set_fold_ind_L P); subst P; cbn beta.
  - by rewrite decide_False by set_solver.
  - intros v Y r Hv IH. destruct (decide (u = v)) as [->|Hne].
    + rewrite lookup_insert_eq, decide_True by set_solver. done.
    + rewrite lookup_insert_ne by done. rewrite IH. destruct (decide (u ∈ Y)).
      * by rewrite decide_True by set_solver.
      * by rewrite decide_False by set_solver.
Qed.
Lemma online_new_lookup names c : os_map (online_new names) !! c = if decide (c ∈ names) then Some None else None.
Proof.
  unfold online_new. cbn [os_map]. induction names as [|n names IH] using rev_ind; [done|].
  rewrite foldl_app. cbn [foldl]. destruct (decide (c = n)) as [->|Hne].
  - rewrite lookup_insert_eq, decide_True by set_solver. done.
  - rewrite lookup_insert_ne by done. rewrite IH. destruct (decide (c ∈ names)).
    + by rewrite decide_True by set_solver.
    + by rewrite decide_False by set_solver.
Qed.
(** A media is reported when it is the only one with a label text of the report. *)
Lemma elem_of_label_texts u labels inv :
  u ∈ label_texts_to_online_set labels inv <->
  exists text id, text ∈ labels /\ find_media_by_label_text text inv = Ok (Some id) /\ ml_uuid (mi_label id) = u.
Proof.
  unfold label_texts_to_online_set. induction labels as [|x labels IH] using rev_ind.
  { cbn [foldl]. rewrite elem_of_empty. split; [done|]. intros (t & id & Ht & _). by apply not_elem_of_nil in Ht. }
  rewrite foldl_app. cbn [foldl]. unfold insert_into_online_set at 1. setoid_rewrite elem_of_app.
  setoid_rewrite list_elem_of_singleton.
  destruct (find_media_by_label_text x inv) as [[id|]| |] eqn:E; [rewrite elem_of_union, elem_of_singleton|..];
    rewrite IH; split.
  1: { intros [->|(t & i & Ht & H)]; [exists x, id|exists t, i]; tauto. }
  1: { intros (t & i & [Ht| ->] & Hf & Hu); [right; by exists t, i|left; congruence]. }
  all: try (intros (t & i & Ht & H); exists t, i; tauto).
  all: intros (t & i & [Ht| ->] & Hf & Hu); [by exists t, i|congruence].
Qed.

Definition reported (labels : list string) (inv : Inventory) (u : uuid_t) : Prop :=
  exists text id, text ∈ labels /\ find_media_by_label_text text inv = Ok (Some id) /\ ml_uuid (mi_label id) = u.
(** The location of a media that a changer did not report. *)
Definition location_missing (names : list string) (c : string) (l : option MediaLocation) : option MediaLocation :=
  match l with
  | Some (Online c') => if bool_decide (c' ∈ names /\ c' <> c) then l else Some Offline
  | _ => l
  end.
(** After the report of a changer, the media it reported are online there; media that were in this changer, or in one
    that no longer exists, and are not reported are offline; media in vaults and in other changers stay where they
    were, and nothing else changes. *)
Theorem changer_status_stored o names c labels inv db inv' db' :
  update_changer_online_status o names c labels inv db = (Ok tt, (inv', db')) ->
  c ∈ names /\ forall u,
    match db_map db !! u with
    | None => db_map db' !! u = None
    | Some e =>
        exists l, db_map db' !! u = Some (with_location l e)
          /\ (reported labels inv u -> l = Some (Online c))
          /\ (~ reported labels inv u -> l = location_missing names c (me_location e))
    end.
Proof.
  unfold update_changer_online_status, online_update. rewrite online_new_lookup.
  destruct (decide (c ∈ names)) as [Hc|]; [|done]. set (online := Build_OnlineStatusMap _ _). intros Hrun.
  destruct (run_op_cases o (OpOnline online) inv db (Ok tt) inv' db' Hrun) as [(_ & _ & He)|[[e He] _]]; [|done].
  cbn [op_effect] in He. simplify_eq. split; [done|]. intros u. rewrite He, map_lookup_imap.
  destruct (db_map db !! u) as [e|] eqn:Eu; cbn [mbind option_bind]; [|done]. eexists. split; [done|].
  unfold reported. rewrite <- elem_of_label_texts. unfold online_location. subst online. cbn [os_changer_map os_map].
  rewrite set_fold_insert. change (os_changer_map (online_new names) !! u) with (@None string). split.
  - intros Hin. by rewrite decide_True.
  - intros Hin. rewrite decide_False by done. unfold location_missing.
    destruct (me_location e) as [[c'| |v]|]; [|done..]. destruct (decide (c' = c)) as [->|Hne].
    + rewrite lookup_insert_eq. by rewrite bool_decide_eq_false_2 by naive_solver.
    + rewrite lookup_insert_ne by done. rewrite online_new_lookup. destruct (decide (c' ∈ names)).
      * by rewrite bool_decide_eq_true_2.
      * by rewrite bool_decide_eq_false_2 by naive_solver.
Qed.

(** ** Instances *)
Module InventoryExample.
Definition tape (b : byte) (text : string) : MediaStateEntry :=
  {| me_id := {| mi_label := {| ml_uuid := replicate 16 b; ml_label_text := text; ml_ctime := 0; ml_pool := None |};
                 mi_media_set_label := None |};
     me_location := Some (Online "lib"); me_status := None; me_bytes_used := None |}.
Definition db : db_t := [tape x01 "A"; tape x02 "B"].
Definition inv : Inventory := update_helpers (with_map (db_map db) inventory_new).
Definition marked := run_op db_ok (OpStatus (replicate 16 x01) (Some Full)) inventory_new db.
Lemma inventory_stored_witness : inventory_load db_ok marked.2.2 = Ok marked.2.1.
Proof.
  destruct (inventory_stored db_ok db_ok (OpStatus (replicate 16 x01) (Some Full)) inventory_new db marked.1 marked.2.1 marked.2.2)
    as [(_ & H & _)|[[e H] _]].
  - change (marked = (marked.1, (marked.2.1, marked.2.2))). by destruct marked as [r [i d]].
  - reflexivity.
  - exact H.
  - vm_compute in H. discriminate.
Defined.
(** The library reports the first tape only. *)
Definition asked := update_changer_online_status db_ok ["lib"] "lib" ["A"] inv db.
Lemma changer_status_stored_witness :
  me_location <$> db_map asked.2.2 !! replicate 16 x02 = Some (Some Offline).
Proof.
  destruct (changer_status_stored db_ok ["lib"] "lib" ["A"] inv db asked.2.1 asked.2.2) as [_ H].
  - assert (Hr : asked.1 = Ok tt) by (vm_compute; reflexivity). unfold asked in *. rewrite <- Hr.
    by destruct (update_changer_online_status _ _ _ _ _ _) as [r [i d]].
  - assert (E : db_map db !! replicate 16 x02 = Some (tape x02 "B")) by (vm_compute; reflexivity).
    specialize (H (replicate 16 x02)). rewrite E in H. destruct H as (l & Hl & _ & Hn). rewrite Hl, Hn.
    + vm_compute. reflexivity.
    + intros (text & id & Htext & Hid & Hu). apply list_elem_of_singleton in Htext as ->.
      vm_compute in Hid. injection Hid as <-. vm_compute in Hu. discriminate.
Defined.
End InventoryExample.
