(* ===== verification/MediaPool.v ===== *)
(** * Media pools, [src/tape/media_pool.rs]

    A pool selects the tape for the next backup: the last one of the current media set, an empty one of the pool, one
    whose data has expired, or one that belongs to no pool.  A tape that is taken gets the label of the current
    set in the inventory and a new catalog.

    The result of sorting ([sort_unstable_by]) is an argument with its documented behaviour as law, so are new
    uuids, and the outcomes of locks, of the inventory file and of the catalog. *)

From S2P Require Import Prelude IndexFile MediaLabel MediaCatalog Inventory.
From Stdlib Require Import Strings.Byte.

Record MediaPool := {
  mp_name : string;
  mp_media_set_policy : MediaSetPolicy;
  mp_retention : RetentionPolicy;
  mp_changer_name : option string;
  mp_force_media_availability : bool;
  mp_no_media_set_locking : bool;
  mp_encrypt_fingerprint : option (list byte);
  mp_inventory : Inventory;
  mp_current_media_set : MediaSet;
  mp_current_media_set_lock : bool;
}.
Definition set_inventory (inv : Inventory) (p : MediaPool) : MediaPool :=
  {| mp_name := mp_name p; mp_media_set_policy := mp_media_set_policy p; mp_retention := mp_retention p;
     mp_changer_name := mp_changer_name p; mp_force_media_availability := mp_force_media_availability p;
     mp_no_media_set_locking := mp_no_media_set_locking p; mp_encrypt_fingerprint := mp_encrypt_fingerprint p;
     mp_inventory := inv; mp_current_media_set := mp_current_media_set p;
     mp_current_media_set_lock := mp_current_media_set_lock p |}.
Definition set_current_set (s : MediaSet) (lock : bool) (p : MediaPool) : MediaPool :=
  {| mp_name := mp_name p; mp_media_set_policy := mp_media_set_policy p; mp_retention := mp_retention p;
     mp_changer_name := mp_changer_name p; mp_force_media_availability := mp_force_media_availability p;
     mp_no_media_set_locking := mp_no_media_set_locking p; mp_encrypt_fingerprint := mp_encrypt_fingerprint p;
     mp_inventory := mp_inventory p; mp_current_media_set := s; mp_current_media_set_lock := lock |}.
Definition force_media_availability (p : MediaPool) : MediaPool :=
  {| mp_name := mp_name p; mp_media_set_policy := mp_media_set_policy p; mp_retention := mp_retention p;
     mp_changer_name := mp_changer_name p; mp_force_media_availability := true;
     mp_no_media_set_locking := mp_no_media_set_locking p; mp_encrypt_fingerprint := mp_encrypt_fingerprint p;
     mp_inventory := mp_inventory p; mp_current_media_set := mp_current_media_set p;
     mp_current_media_set_lock := mp_current_media_set_lock p |}.

Record BackupMedia := {
  bm_id : MediaId; bm_location : MediaLocation; bm_status : MediaStatus; bm_bytes_used : option Z;
}.

(** [lock_pool], [lock_set]: the outcomes of the locks; [new_uuid]: the uuid of a new set. *)
Definition pool_new (name : string) (policy : MediaSetPolicy) (retention : RetentionPolicy)
    (changer_name : option string) (encrypt_fingerprint : option (list byte)) (no_media_set_locking : bool)
    (lock_pool lock_set : bool) (new_uuid : uuid_t) (o : DbOutcome) (db : db_t) : res MediaPool :=
  if negb no_media_set_locking && negb lock_pool then Err "unable to lock pool" else
  let? inventory := inventory_load o db in
  let? current_media_set :=
    match latest_media_set name inventory with
    | Some set_uuid => compute_media_set_members set_uuid inventory
    | None => Ok (media_set_with_data new_uuid [])
    end in
  if negb no_media_set_locking && negb lock_set then Err "unable to lock media set" else
  Ok {| mp_name := name; mp_media_set_policy := policy; mp_retention := retention; mp_changer_name := changer_name;
        mp_force_media_availability := false; mp_no_media_set_locking := no_media_set_locking;
        mp_encrypt_fingerprint := encrypt_fingerprint; mp_inventory := inventory;
        mp_current_media_set := current_media_set; mp_current_media_set_lock := negb no_media_set_locking |}.

(** ** The state of media *)
Definition compute_media_state (media_id : MediaId) (p : MediaPool) : MediaStatus * MediaLocation :=
  let '(status, location) := status_and_location (ml_uuid (mi_label media_id)) (mp_inventory p) in
  match status with
  | Full | Damaged | Retired => (status, location)
  | UnknownStatus | Writable =>
      match mi_media_set_label media_id with
      | None => (Writable, location)
      | Some set =>
          if negb (bool_decide (ms_pool set = mp_name p)) then (UnknownStatus, location) else
          if unassigned set then (Writable, location) else
          if negb (bool_decide (ms_uuid set = set_uuid (mp_current_media_set p))) then (Full, location) else
          if is_last_media (ml_uuid (mi_label media_id)) (mp_current_media_set p) then (Writable, location)
          else (Full, location)
      end
  end.
Definition backup_media (media_id : MediaId) (p : MediaPool) : BackupMedia :=
  let '(status, location) := compute_media_state media_id p in
  {| bm_id := media_id; bm_location := location; bm_status := status;
     bm_bytes_used := get_media_bytes_used (ml_uuid (mi_label media_id)) (mp_inventory p) |}.
Definition pool_lookup_media (uuid : uuid_t) (p : MediaPool) : res BackupMedia :=
  match inv_lookup_media uuid (mp_inventory p) with
  | None => Err "unable to lookup media"
  | Some media_id =>
      if match media_pool media_id with Some pool => negb (bool_decide (pool = mp_name p)) | None => false end
      then Err "media does not belong to pool" else
      let '(status, location) := compute_media_state media_id p in
      Ok {| bm_id := media_id; bm_location := location; bm_status := status;
            bm_bytes_used := get_media_bytes_used uuid (mp_inventory p) |}
  end.
Definition list_media (p : MediaPool) : list BackupMedia :=
  (fun media_id => backup_media media_id p) <$> list_pool_media (mp_name p) (mp_inventory p).

Definition pool_set_status_full (o : DbOutcome) (uuid : uuid_t) (p : MediaPool) (db : db_t)
    : res unit * (MediaPool * db_t) :=
  try! media := pool_lookup_media uuid p for (p, db) in
  if bool_decide (bm_status media = Full) then (Ok tt, (p, db)) else
  let '(r, (inv, db)) := set_media_status_full o uuid (mp_inventory p) db in
  (r, (set_inventory inv p, db)).

Definition pool_set_status_damaged (o : DbOutcome) (uuid : uuid_t) (p : MediaPool) (db : db_t)
    : res unit * (MediaPool * db_t) :=
  let '(r, (inv, db)) := set_media_status_damaged o uuid (mp_inventory p) db in
  (r, (set_inventory inv p, db)).
Definition pool_set_bytes_used (o : DbOutcome) (uuid : uuid_t) (bytes_used : option Z) (p : MediaPool) (db : db_t)
    : res unit * (MediaPool * db_t) :=
  let '(r, (inv, db)) := set_media_bytes_used o uuid bytes_used (mp_inventory p) db in
  (r, (set_inventory inv p, db)).

Definition location_is_available (location : MediaLocation) (p : MediaPool) : bool :=
  match location with
  | Online name =>
      if mp_force_media_availability p then true
      else match mp_changer_name p with
           | Some changer_name => bool_decide (name = changer_name)
           | None => false
           end
  | Offline =>
      if mp_force_media_availability p then true
      else match mp_changer_name p with Some _ => false | None => true end
  | Vault _ => false
  end.

Definition media_is_expired (media : BackupMedia) (current_time : Z) (p : MediaPool) : bool :=
  if negb (bool_decide (bm_status media = Full)) then false else
  let expire_time := media_expire_time (bm_id media) (mp_media_set_policy p) (mp_retention p) (mp_inventory p) in
  expire_time <=? current_time.

(** ** The current media set *)
Definition check_fingerprints (label_fp pool_fp : option (list byte)) (last_enc : option (option (list byte))) : res unit :=
  if negb (bool_decide (label_fp = pool_fp)) then Err "pool encryption key changed" else
  match last_enc with
  | None => Ok tt
  | Some last => if negb (bool_decide (last = label_fp)) then Err "inconsistent media encryption key" else Ok tt
  end.
Fixpoint usable_loop (p : MediaPool) (media_count : nat) (seq : nat) (l : list (option uuid_t))
    (last_enc : option (option (list byte))) (last_is_writable : bool) : res bool :=
  match l with
  | [] => Ok last_is_writable
  | None :: _ => Err "media set is incomplete (missing media information)"
  | Some uuid :: l =>
      let? media := pool_lookup_media uuid p in
      match mi_media_set_label (bm_id media) with
      | None => Err "media owner error (no owner)"
      | Some set =>
          if negb (bool_decide (ms_uuid set = set_uuid (mp_current_media_set p))) then Err "media owner error" else
          if negb (ms_seq_nr set =? Z.of_nat seq) then Err "media sequence error" else
          let? _ := check_fingerprints (ms_fingerprint set) (mp_encrypt_fingerprint p) last_enc in
          let last_enc := match last_enc with None => Some (ms_fingerprint set) | _ => last_enc end in
          let? last_is_writable :=
            match bm_status media with
            | Full => Ok last_is_writable
            | Writable =>
                if (seq + 1 =? media_count)%nat then
                  if location_is_available (bm_location media) p then Ok true
                  else match bm_location media with
                       | Vault _ => Err "writable media offsite in vault"
                       | _ => Ok last_is_writable
                       end
                else Err "unable to use media set - wrong media status"
            | _ => Err "unable to use media set - wrong media status"
            end in
          usable_loop p media_count (S seq) l last_enc last_is_writable
      end
  end.
Definition current_set_usable (p : MediaPool) : res bool :=
  let l := set_media (mp_current_media_set p) in
  if (length l =? 0)%nat then Ok false else usable_loop p (length l) 0 l None false.

(** The reason for a new set, if there is one. *)
Definition start_write_session (current_time : Z) (force lock_pool lock_set : bool) (new_uuid : uuid_t)
    (o : DbOutcome) (p : MediaPool) (db : db_t) : res (option string) * MediaPool :=
  if negb (mp_no_media_set_locking p) && negb lock_pool then (Err "unable to lock pool", p) else
  let '(r, inv) := reload o (mp_inventory p) db in
  let p := set_inventory inv p in
  try! _ := r for p in
  try! create_new_set :=
    (if force then Ok (Some "forced")
     else match current_set_usable p with Ok _ => Ok None | Err e => Ok (Some e) | Panic e => Panic e end) for p in
  let create_new_set :=
    match create_new_set with
    | Some reason => Some reason
    | None =>
        match mp_media_set_policy p with
        | AlwaysCreate => Some "policy is AlwaysCreate"
        | CreateAt compute_next_event =>
            match media_set_start_time (set_uuid (mp_current_media_set p)) (mp_inventory p) with
            | Some set_start_time =>
                match compute_next_event set_start_time with
                | Ok (Some alloc_time) =>
                    if alloc_time <=? current_time then Some "policy CreateAt event triggered" else None
                | _ => None
                end
            | None => None
            end
        | ContinueCurrent => None
        end
    end in
  match create_new_set with
  | None => (Ok None, p)
  | Some reason =>
      if negb (mp_no_media_set_locking p) && negb lock_set then (Err "unable to lock media set", p) else
      (Ok (Some reason), set_current_set (media_set_with_data new_uuid []) (negb (mp_no_media_set_locking p)) p)
  end.

Fixpoint current_media_loop (l : list (option uuid_t)) : res (list uuid_t) :=
  match l with
  | [] => Ok []
  | Some uuid :: l => let? rest := current_media_loop l in Ok (uuid :: rest)
  | None :: _ => Err "current_media_list failed - media set is incomplete"
  end.
Definition current_media_list (p : MediaPool) : res (list uuid_t) :=
  current_media_loop (set_media (mp_current_media_set p)).

(** ** Allocation *)

(** What the outside contributes: the inventory file and the catalog of the media that is added. *)
Record AddOutcome := { ao_open : OpenOutcome; ao_commit : CommitOutcome; ao_renamed : bool; ao_store : DbOutcome }.
Definition add_media_to_current_set (o : AddOutcome) (media_id : MediaId) (current_time : Z)
    (p : MediaPool) (db : db_t) (d : Disk) : res unit * (MediaPool * db_t * Disk) :=
  if negb (mp_current_media_set_lock p)
  then (Err "add_media_to_current_set: media set is not locked - internal error", (p, db, d)) else
  let seq_nr := Z.of_nat (length (set_media (mp_current_media_set p))) in
  let set := with_data (mp_name p) (set_uuid (mp_current_media_set p)) seq_nr current_time (mp_encrypt_fingerprint p) in
  let media_id := set_id_label media_id (Some set) in
  let uuid := ml_uuid (mi_label media_id) in
  let '(r, d) := overwrite (ao_open o) (ao_commit o) (ao_renamed o) media_id d in
  try! _ := r for (p, db, d) in
  let '(r, (inv, db)) := store (ao_store o) media_id true (mp_inventory p) db in
  let p := set_inventory inv p in
  try! _ := r for (p, db, d) in
  (Ok tt, (set_current_set (add_media uuid (mp_current_media_set p)) (mp_current_media_set_lock p) p, db, d)).

Section alloc.
(** [sort_unstable_by] with a comparison, and whether the set of a media can be locked without waiting. *)
Variables (sort_by : forall A, (A -> A -> comparison) -> list A -> list A) (lockable : uuid_t -> bool).
Arguments sort_by {A}.

Definition then_compare (c d : comparison) : comparison := match c with Eq => d | _ => c end.
(** Newest first. *)
Definition compare_label (a b : MediaLabel) : comparison :=
  then_compare (ml_ctime b ?= ml_ctime a) (String.compare (ml_label_text b) (ml_label_text a)).
Definition pop {A} (l : list A) : option A := last l.

Definition next_unassigned_media (l : list MediaId) (p : MediaPool) : option MediaId :=
  let free_media :=
    List.filter (fun media_id =>
      let '(status, location) := compute_media_state media_id p in
      negb (bool_decide (is_Some (mi_media_set_label media_id))) && location_is_available location p
      && bool_decide (status = Writable)) l in
  pop (sort_by (fun a b => compare_label (mi_label a) (mi_label b)) free_media).

Definition next_empty_media (l : list BackupMedia) (p : MediaPool) : option MediaId :=
  let empty_media :=
    List.filter (fun media =>
      location_is_available (bm_location media) p && negb (bool_decide (is_Some (mi_media_set_label (bm_id media))))
      && bool_decide (bm_status media = Writable)) l in
  bm_id <$> pop (sort_by (fun a b => compare_label (mi_label (bm_id a)) (mi_label (bm_id b))) empty_media).

(** [unwrap] of labels that are there: media without a label are not in the list. *)
Definition set_ctime (media : BackupMedia) : Z :=
  match mi_media_set_label (bm_id media) with Some set => ms_ctime set | None => 0 end.
Definition compare_expired (a b : BackupMedia) : comparison :=
  then_compare (set_ctime b ?= set_ctime a)
    (String.compare (ml_label_text (mi_label (bm_id b))) (ml_label_text (mi_label (bm_id a)))).
Definition set_lockable (media : BackupMedia) : bool :=
  match mi_media_set_label (bm_id media) with Some set => lockable (ms_uuid set) | None => false end.
Definition next_expired_media (current_time : Z) (l : list BackupMedia) (p : MediaPool) : option MediaId :=
  let expired_media :=
    List.filter (fun media =>
      location_is_available (bm_location media) p
      && match mi_media_set_label (bm_id media) with
         | Some set => negb (bool_decide (ms_uuid set = set_uuid (mp_current_media_set p)))
         | None => false
         end
      && media_is_expired media current_time p) l in
  let sorted := sort_by compare_expired expired_media in
  if mp_no_media_set_locking p then bm_id <$> pop sorted
  else bm_id <$> List.find set_lockable (reverse sorted).

Definition guess_next_writable_media (current_time : Z) (p : MediaPool) : res MediaId :=
  let? last_is_writable := current_set_usable p in
  if (last_is_writable : bool) then
    let? last_uuid := unwrap (last_media_uuid (mp_current_media_set p)) in
    let? media := pool_lookup_media last_uuid p in
    Ok (bm_id media)
  else
    let media_list := list_media p in
    match next_empty_media media_list p with
    | Some media_id => Ok media_id
    | None =>
        match next_expired_media current_time media_list p with
        | Some media_id => Ok media_id
        | None =>
            match next_unassigned_media (list_unassigned_media (mp_inventory p)) p with
            | Some media_id => Ok media_id
            | None => Err "guess_next_writable_media in pool failed: no usable media found"
            end
        end
    end.

(** The inventory is reloaded twice, from [db1] and [db2]; others may change the file before the new label is
    stored in [db]. *)
Record AllocOutcome := {
  al_lock_pool : bool; al_lock_unassigned : bool; al_load1 : DbOutcome; al_load2 : DbOutcome; al_add : AddOutcome;
}.
Definition add_found (o : AllocOutcome) (media_id : MediaId) (current_time : Z) (p : MediaPool) (db : db_t) (d : Disk)
    : res uuid_t * (MediaPool * db_t * Disk) :=
  let uuid := ml_uuid (mi_label media_id) in
  let! _, s := add_media_to_current_set (al_add o) media_id current_time p db d in
  (Ok uuid, s).
Definition alloc_writable_media (o : AllocOutcome) (current_time : Z) (db1 db2 : db_t)
    (p : MediaPool) (db : db_t) (d : Disk) : res uuid_t * (MediaPool * db_t * Disk) :=
  if negb (mp_current_media_set_lock p)
  then (Err "alloc_writable_media: media set is not locked - internal error", (p, db, d)) else
  try! last_is_writable := current_set_usable p for (p, db, d) in
  if (last_is_writable : bool) then
    try! last_uuid := unwrap (last_media_uuid (mp_current_media_set p)) for (p, db, d) in
    try! media := pool_lookup_media last_uuid p for (p, db, d) in
    (Ok (ml_uuid (mi_label (bm_id media))), (p, db, d))
  else
    if negb (al_lock_pool o) then (Err "unable to lock pool", (p, db, d)) else
    let '(r, inv) := reload (al_load1 o) (mp_inventory p) db1 in
    let p := set_inventory inv p in
    try! _ := r for (p, db, d) in
    let media_list := list_media p in
    match next_empty_media media_list p with
    | Some media_id => add_found o media_id current_time p db d
    | None =>
        match next_expired_media current_time media_list p with
        | Some media_id => add_found o media_id current_time p db d
        | None =>
            if negb (al_lock_unassigned o) then (Err "unable to lock pool", (p, db, d)) else
            let '(r, inv) := reload (al_load2 o) (mp_inventory p) db2 in
            let p := set_inventory inv p in
            try! _ := r for (p, db, d) in
            match next_unassigned_media (list_unassigned_media (mp_inventory p)) p with
            | Some media_id => add_found o media_id current_time p db d
            | None => (Err "alloc writable media in pool failed: no usable media found", (p, db, d))
            end
        end
    end.
End alloc.
