(* ===== verification/MediaPoolSpec.v ===== *)
(** * Media pools: which tapes are taken, and what is stored for them *)

From stdpp Require Import sorting.
From S2P Require Import Prelude IndexFile MediaLabel MediaCatalog MediaCatalogSpec Inventory InventorySpec MediaPool.
From Stdlib Require Import Strings.Byte.

(** ** Catalogs of other media are not touched *)
Definition disk_ok (d : Disk) : Prop :=
  (forall p i, d_names d !! p = Some i -> is_Some (d_inodes d !! i))
  /\ (forall p q i, d_names d !! p = Some i -> d_names d !! q = Some i -> p = q).
Definition catalog_data (d : Disk) (u : uuid_t) : option (list byte) :=
  i ← d_names d !! catalog_path u; d_inodes d !! i.
(** Only files of media [x] differ. *)
Definition only_files_of (x : uuid_t) (d d' : Disk) : Prop :=
  disk_ok d' /\ forall p i, p.1 <> x ->
    (d_names d' !! p = d_names d !! p) /\ (d_names d !! p = Some i -> d_inodes d' !! i = d_inodes d !! i).

Lemma only_files_data x d d' u : only_files_of x d d' -> u <> x -> catalog_data d' u = catalog_data d u.
Proof.
  intros [_ H] Hu. unfold catalog_data.
  destruct (d_names d !! catalog_path u) as [i|] eqn:E.
  - destruct (H (catalog_path u) i Hu) as [Hn Hi]. rewrite Hn, E. cbn. by apply Hi.
  - destruct (H (catalog_path u) 0%nat Hu) as [Hn _]. by rewrite Hn, E.
Qed.
Lemma only_files_refl x d : disk_ok d -> only_files_of x d d.
Proof. by intros H. Qed.
Lemma only_files_trans x d1 d2 d3 : only_files_of x d1 d2 -> only_files_of x d2 d3 -> only_files_of x d1 d3.
Proof.
  intros [_ H1] [Hok H2]. split; [done|]. intros p i Hp. destruct (H1 p i Hp) as [Hn1 Hi1], (H2 p i Hp) as [Hn2 Hi2].
  split; [congruence|]. intros Hn. rewrite Hi2 by congruence. by apply Hi1.
Qed.
Lemma only_files_inode x p i data d :
  disk_ok d -> d_names d !! p = Some i -> p.1 = x -> only_files_of x d (set_inode i data d).
Proof.
  intros [Hdom Hinj] Hp Hx. split; [split|].
  - intros q j Hq. cbn in *. destruct (decide (j = i)) as [->|Hne]; [rewrite lookup_insert_eq; eauto|].
    rewrite lookup_insert_ne by done. eauto.
  - exact Hinj.
  - intros q j Hq. split; [done|]. intros Hj. cbn in *. rewrite lookup_insert_ne; [done|]. intros ->.
    by rewrite (Hinj _ _ _ Hj Hp) in Hq.
Qed.
Lemma only_files_create x p d :
  disk_ok d -> d_names d !! p = None -> p.1 = x -> only_files_of x d (create_file p d).2.
Proof.
  intros [Hdom Hinj] Hp Hx. unfold create_file. cbn [snd]. set (i := fresh (dom (d_inodes d))).
  assert (Hi : d_inodes d !! i = None) by (apply not_elem_of_dom, is_fresh).
  assert (Hno : forall q, d_names d !! q <> Some i).
  { intros q Hq. destruct (Hdom _ _ Hq) as [data Hd]. congruence. }
  split; [split|]; cbn.
  - intros q j Hq. destruct (decide (q = p)) as [->|Hne].
    + rewrite lookup_insert_eq in Hq. simplify_eq. rewrite lookup_insert_eq. eauto.
    + rewrite lookup_insert_ne in Hq by done. rewrite lookup_insert_ne by (intros <-; by eapply Hno). eauto.
  - intros q q' j [[<- <-]|[_ Hq]]%lookup_insert_Some [[<- Hj]|[_ Hq']]%lookup_insert_Some;
      [done|by apply Hno in Hq'|subst; by apply Hno in Hq|eauto].
  - intros q j Hq. split; [rewrite lookup_insert_ne; congruence|].
    intros Hj. rewrite lookup_insert_ne; [done|]. intros <-. by eapply Hno.
Qed.
Lemma only_files_rename x p q d d' :
  disk_ok d -> rename_file p q d = Some d' -> p.1 = x -> q.1 = x -> only_files_of x d d'.
Proof.
  intros [Hdom Hinj] Hr Hp Hq. unfold rename_file in Hr. destruct (d_names d !! p) as [i|] eqn:E; [|done].
  simplify_eq. split; [split|]; cbn.
  - intros k j Hk. destruct (decide (k = q)) as [->|Hne]; [rewrite lookup_insert_eq in Hk; simplify_eq; eauto|].
    rewrite lookup_insert_ne in Hk by done. apply lookup_delete_Some in Hk as [_ Hk]. eauto.
  - intros k k' j [[<- <-]|[_ [Hne Hk]%lookup_delete_Some]]%lookup_insert_Some
      [[<- Hj]|[_ [Hne' Hk']%lookup_delete_Some]]%lookup_insert_Some; [done| | |eauto].
    + by rewrite (Hinj _ _ _ Hk' E) in Hne'.
    + subst j. by rewrite (Hinj _ _ _ Hk E) in Hne.
  - intros k j Hk. split; [|done]. rewrite lookup_insert_ne, lookup_delete_ne; congruence.
Qed.

Lemma commit_disk o c d r c' d' :
  commit o c d = (r, (c', d')) ->
  d' = d \/ exists h data, mc_file c = Some h /\ d' = set_inode (fh_inode h) data d.
Proof. unfold commit. intros H. repeat case_match; simplify_eq; eauto. Qed.
Lemma temporary_file_only o x d r d' :
  disk_ok d -> create_temporary_database_file o x d = (r, d') ->
  only_files_of x d d' /\ forall h, r = Ok h -> d_names d' !! tmp_catalog_path x = Some (fh_inode h).
Proof.
  intros Hd H. unfold create_temporary_database_file in H.
  destruct (oo_basedir o); cbn [negb] in H; [|by simplify_eq].
  destruct (oo_open o); cbn [negb] in H; [|by simplify_eq].
  destruct (d_names d !! tmp_catalog_path x) as [i|] eqn:E.
  - assert (Ho : only_files_of x d (set_inode i [] d)) by (by eapply only_files_inode).
    destruct (oo_chown o); cbn in H; simplify_eq; (split; [done|]); intros h; [intros [= <-]|]; done.
  - pose proof (only_files_create x (tmp_catalog_path x) d Hd E eq_refl) as Ho. unfold create_file in *.
    destruct (oo_chown o); cbn in H, Ho; simplify_eq; (split; [done|]); intros h; [intros [= <-]|done].
    cbn. by rewrite lookup_insert_eq.
Qed.
(** A new catalog for a media, also one that cannot be written, leaves the files of other media alone. *)
Lemma overwrite_only o co renamed m d r d' :
  disk_ok d -> overwrite o co renamed m d = (r, d') -> only_files_of (ml_uuid (mi_label m)) d d'.
Proof.
  intros Hd H. set (x := ml_uuid (mi_label m)). unfold overwrite in H.
  assert (Hc : forall r d', create_temporary_database o co m d = (r, d') -> only_files_of x d d').
  { clear H r d'. intros r d' H. unfold create_temporary_database in H. fold x in H.
    destruct (create_temporary_database_file o x d) as [rf d1] eqn:Ef.
    destruct (temporary_file_only _ _ _ _ _ Hd Ef) as [Ho Hh].
    destruct rf as [h| |]; [|simplify_eq; done..]. specialize (Hh h eq_refl).
    destruct (register_label x 0 0 _) as [r1 me1] eqn:E1. apply register_label_file in E1 as [E1 _]. cbn in E1.
    destruct r1; [|simplify_eq; done..].
    destruct (match mi_media_set_label m with Some _ => _ | None => _ end) as [r2 me2] eqn:E2.
    assert (Hf : mc_file me2 = Some h).
    { destruct (mi_media_set_label m); [apply register_label_file in E2 as [E2 _]|]; congruence. }
    destruct r2; [|simplify_eq; done..].
    destruct (commit co me2 d1) as [r3 [me3 d3]] eqn:E3. apply commit_disk in E3.
    assert (Ho3 : only_files_of x d d3).
    { destruct E3 as [->|(h' & data & Hh' & ->)]; [done|]. simplify_eq.
      eapply only_files_trans; [done|]. by eapply only_files_inode; [apply Ho|..]. }
    destruct r3; simplify_eq; done. }
  destruct (create_temporary_database o co m d) as [[me| |] d1] eqn:E; [|simplify_eq; by apply (Hc _ _ eq_refl)..].
  specialize (Hc _ _ eq_refl). unfold finish_temporary_database in H.
  destruct renamed; [|by simplify_eq].
  destruct (rename_file _ _ d1) as [d2|] eqn:Er; simplify_eq; [|done].
  eapply only_files_trans; [done|]. eapply only_files_rename; [apply Hc|done..].
Qed.

(** ** Media that may be taken *)

(** The inventory as it is in the file. *)
Definition fresh_inventory (db : db_t) : Inventory := update_helpers (with_map (db_map db) inventory_new).
Definition entry_available (p : MediaPool) (e : MediaStateEntry) : Prop :=
  location_is_available (default Offline (me_location e)) p = true.
Definition never_used (e : MediaStateEntry) : Prop :=
  me_status e <> Some Full /\ match mi_media_set_label (me_id e) with Some set => unassigned set = true | None => True end.
(** The data of another set of the pool, expired by the policy. *)
Definition data_expired (now : Z) (p : MediaPool) (inv : Inventory) (e : MediaStateEntry) : Prop :=
  exists set, mi_media_set_label (me_id e) = Some set /\ ms_pool set = mp_name p /\ unassigned set = false
    /\ ms_uuid set <> set_uuid (mp_current_media_set p)
    /\ media_expire_time (me_id e) (mp_media_set_policy p) (mp_retention p) inv <= now.
Definition of_pool_or_free (p : MediaPool) (e : MediaStateEntry) : Prop :=
  media_pool (me_id e) = Some (mp_name p) \/ media_pool (me_id e) = None.
Record may_take (now : Z) (p : MediaPool) (db : db_t) (u : uuid_t) (e : MediaStateEntry) : Prop := {
  mt_known : db_map db !! u = Some e;
  mt_available : entry_available p e;
  mt_intact : me_status e <> Some Damaged /\ me_status e <> Some Retired;
  mt_unprotected : (of_pool_or_free p e /\ never_used e) \/ data_expired now p (fresh_inventory db) e;
}.

(** What the state of a media says about its entry. *)
Lemma compute_state_entry id p e st loc :
  inv_map (mp_inventory p) !! ml_uuid (mi_label id) = Some e -> compute_media_state id p = (st, loc) ->
  loc = default Offline (me_location e)
  /\ (st = Writable \/ st = Full -> me_status e <> Some Damaged /\ me_status e <> Some Retired)
  /\ (st = Writable -> me_status e <> Some Full).
Proof.
  intros He. unfold compute_media_state, status_and_location. rewrite He.
  destruct (me_status e) as [[]|]; cbn; repeat case_match; intros ?; simplify_eq; naive_solver.
Qed.
Lemma fresh_entry p db u e : mp_inventory p = fresh_inventory db -> db_map db !! u = Some e ->
  inv_map (mp_inventory p) !! u = Some e /\ entry_uuid e = u.
Proof. intros -> He. split; [done|]. by apply (db_map_keyed db). Qed.

Section alloc.
Variables (sort_by : forall A, (A -> A -> comparison) -> list A -> list A) (lockable : uuid_t -> bool).
Hypothesis sort_by_perm : forall A cmp (l : list A), sort_by A cmp l ≡ₚ l.

Lemma pop_sorted {A} cmp (l : list A) x : pop (sort_by A cmp l) = Some x -> x ∈ l.
Proof. intros H%last_Some_elem_of. by rewrite sort_by_perm in H. Qed.
Lemma elem_of_list_pool_media db pool id :
  id ∈ list_pool_media pool (fresh_inventory db) ->
  exists e, db_map db !! ml_uuid (mi_label id) = Some e /\ mi_label id = mi_label (me_id e)
    /\ media_pool (me_id e) = Some pool
    /\ match mi_media_set_label (me_id e) with
       | Some set => if unassigned set then mi_media_set_label id = None else id = me_id e
       | None => id = me_id e
       end.
Proof.
  unfold list_pool_media. rewrite list_elem_of_omap. intros (e & He & Hid).
  apply elem_of_keyed_values in He; [|apply db_map_keyed]. destruct (bool_decide_reflect (media_pool (me_id e) = Some pool)); [|done].
  exists e. destruct (mi_media_set_label (me_id e)) as [set|]; [destruct (unassigned set)|]; by simplify_eq.
Qed.

Lemma next_empty_permitted now p db id :
  mp_inventory p = fresh_inventory db -> next_empty_media sort_by (list_media p) p = Some id ->
  exists e, may_take now p db (ml_uuid (mi_label id)) e /\ mi_label id = mi_label (me_id e).
Proof.
  intros Hp. unfold next_empty_media. intros (media & Hm & Hid)%fmap_Some. apply pop_sorted in Hm.
  apply list_elem_of_In, filter_In in Hm as [Hm Hf]. apply list_elem_of_In in Hm.
  unfold list_media in Hm. apply list_elem_of_fmap in Hm as (id' & -> & Hin). rewrite Hp in Hin.
  apply elem_of_list_pool_media in Hin as (e & He & Hl & Hpool & Hlab).
  destruct (fresh_entry _ _ _ _ Hp He) as [He' _].
  unfold backup_media in *. destruct (compute_media_state id' p) as [st loc] eqn:Est. cbn in *. subst id.
  destruct (compute_state_entry _ _ _ _ _ He' Est) as (-> & Hst & Hfull).
  apply andb_true_iff in Hf as [[Ha Hn]%andb_true_iff Hw]. apply bool_decide_eq_true in Hw as ->.
  apply negb_true_iff, bool_decide_eq_false in Hn. exists e. split; [|done].
  split; [done|done|by apply Hst; left|]. left. split; [by left|]. split; [by apply Hfull|].
  destruct (mi_media_set_label (me_id e)) as [set|] eqn:Es; [|done]. destruct (unassigned set); [done|].
  subst id'. rewrite Es in Hn. by destruct Hn.
Qed.
Lemma next_expired_in now p l id :
  next_expired_media sort_by lockable now l p = Some id ->
  exists media, media ∈ l /\ bm_id media = id /\ location_is_available (bm_location media) p = true
    /\ (exists set, mi_media_set_label id = Some set /\ ms_uuid set <> set_uuid (mp_current_media_set p))
    /\ media_is_expired media now p = true.
Proof.
  unfold next_expired_media. set (f := fun media : BackupMedia => _). intros H.
  assert (exists media, media ∈ List.filter f l /\ bm_id media = id) as (media & Hm & <-).
  { destruct (mp_no_media_set_locking p).
    - apply fmap_Some in H as (media & Hm%pop_sorted & ->). by exists media.
    - apply fmap_Some in H as (media & Hm & ->). apply find_some in Hm as [Hm _].
      apply list_elem_of_In in Hm. rewrite elem_of_reverse, sort_by_perm in Hm. by exists media. }
  apply list_elem_of_In, filter_In in Hm as [Hm Hf]. apply list_elem_of_In in Hm. exists media. subst f. cbn beta in Hf.
  apply andb_true_iff in Hf as [[Ha Hs]%andb_true_iff He]. split_and!; try done.
  destruct (mi_media_set_label (bm_id media)) as [set|]; [|done].
  exists set. by apply negb_true_iff, bool_decide_eq_false in Hs.
Qed.
Lemma next_expired_permitted now p db id :
  mp_inventory p = fresh_inventory db -> next_expired_media sort_by lockable now (list_media p) p = Some id ->
  exists e, may_take now p db (ml_uuid (mi_label id)) e /\ mi_label id = mi_label (me_id e).
Proof.
  intros Hp. intros (media & Hm & Hid & Ha & (set & Hset & Hcur) & Hx)%next_expired_in.
  unfold list_media in Hm. apply list_elem_of_fmap in Hm as (id' & -> & Hin). rewrite Hp in Hin.
  apply elem_of_list_pool_media in Hin as (e & He & Hl & Hpool & Hlab).
  destruct (fresh_entry _ _ _ _ Hp He) as [He' _].
  unfold backup_media, media_is_expired in *. destruct (compute_media_state id' p) as [st loc] eqn:Est. cbn in *. subst id.
  destruct (compute_state_entry _ _ _ _ _ He' Est) as (-> & Hst & _).
  destruct (bool_decide_reflect (st = Full)) as [->|]; [|done]. cbn in Hx. apply Z.leb_le in Hx.
  assert (unassigned set = false /\ id' = me_id e) as [Hun ->].
  { destruct (mi_media_set_label (me_id e)) as [set'|] eqn:Es; [|congruence].
    destruct (unassigned set') eqn:Eu; [congruence|]. split; congruence. }
  exists e. split; [|done]. split; [done|done|by apply Hst; right|]. right. exists set.
  rewrite Hp in Hx. unfold media_pool in Hpool. rewrite Hset in Hpool. by simplify_eq.
Qed.
Lemma next_unassigned_permitted now p db id :
  mp_inventory p = fresh_inventory db ->
  next_unassigned_media sort_by (list_unassigned_media (mp_inventory p)) p = Some id ->
  exists e, may_take now p db (ml_uuid (mi_label id)) e /\ mi_label id = mi_label (me_id e).
Proof.
  intros Hp. unfold next_unassigned_media. intros Hm%pop_sorted. apply list_elem_of_In, filter_In in Hm as [Hm Hf].
  apply list_elem_of_In in Hm. unfold list_unassigned_media in Hm. rewrite list_elem_of_omap in Hm.
  destruct Hm as (e & He & Hid). rewrite Hp in He. apply elem_of_keyed_values in He; [|apply db_map_keyed].
  destruct (media_pool (me_id e)) eqn:Epool; [done|]. simplify_eq.
  destruct (fresh_entry _ _ _ _ Hp He) as [He' _].
  destruct (compute_media_state (me_id e) p) as [st loc] eqn:Est.
  destruct (compute_state_entry _ _ _ _ _ He' Est) as (-> & Hst & Hfull).
  apply andb_true_iff in Hf as [[Hn Ha]%andb_true_iff Hw]. apply bool_decide_eq_true in Hw as ->.
  exists e. split; [|done]. split; [done|done|by apply Hst; left|]. left. split; [by right|]. split; [by apply Hfull|].
  unfold media_pool in Epool. by destruct (mi_media_set_label (me_id e)).
Qed.

(** ** The result of an allocation *)
Lemma set_inventory_same p : set_inventory (mp_inventory p) p = p.
Proof. by destruct p. Qed.
Lemma reload_spec o inv db :
  reload o inv db = if db_load o then (Ok tt, fresh_inventory db) else (Err "unable to read inventory", inv).
Proof. unfold reload, load_media_db. by destruct (db_load o). Qed.
Definition new_label (now : Z) (p : MediaPool) : MediaSetLabel :=
  with_data (mp_name p) (set_uuid (mp_current_media_set p)) (Z.of_nat (length (set_media (mp_current_media_set p)))) now
    (mp_encrypt_fingerprint p).
(** The media with the label it gets. *)
Definition taken_id (now : Z) (p : MediaPool) (id : MediaId) : MediaId := set_id_label id (Some (new_label now p)).
Record taken (o : AddOutcome) (now : Z) (p : MediaPool) (db : db_t) (d : Disk) (id : MediaId)
    (p' : MediaPool) (db' : db_t) (d' : Disk) : Prop := {
  tk_catalog : exists c, overwrite (ao_open o) (ao_commit o) (ao_renamed o) (taken_id now p id) d = (Ok c, d');
  tk_db : db_map db' = <[ml_uuid (mi_label id) :=
                           stored_entry (taken_id now p id) true (db_map db !! ml_uuid (mi_label id))]> (db_map db);
  tk_pool : p' = set_current_set (add_media (ml_uuid (mi_label id)) (mp_current_media_set p)) true
                   (set_inventory (fresh_inventory db') p);
}.
Lemma add_media_cases o id now p db d r p' db' d' :
  disk_ok d -> keyed (inv_map (mp_inventory p)) -> mp_current_media_set_lock p = true ->
  add_media_to_current_set o id now p db d = (r, (p', db', d')) ->
  only_files_of (ml_uuid (mi_label id)) d d'
  /\ ((r = Ok tt /\ taken o now p db d id p' db' d')
      \/ (r <> Ok tt /\ db' = db /\ p' = set_inventory (mp_inventory p') p /\ keyed (inv_map (mp_inventory p')))).
Proof.
  intros Hd Hk Hl H. unfold add_media_to_current_set in H. rewrite Hl in H. cbn [negb] in H.
  fold (new_label now p) in H. fold (taken_id now p id) in H.
  destruct (overwrite _ _ _ (taken_id now p id) d) as [ro d1] eqn:Eo.
  pose proof (overwrite_only _ _ _ _ _ _ _ Hd Eo) as Ho.
  destruct ro as [c| |]; [|simplify_eq; (split; [done|]); right; by rewrite set_inventory_same..].
  destruct (store (ao_store o) (taken_id now p id) true (mp_inventory p) db) as [rs [inv1 db1]] eqn:Es.
  pose proof (run_op_keyed (ao_store o) (OpStore (taken_id now p id) true) _ _ _ _ _ Hk Es) as Hk1.
  destruct (run_op_cases (ao_store o) (OpStore (taken_id now p id) true) _ _ _ _ _ Es) as [(-> & -> & He)|[[e ->] ->]].
  - simplify_eq. split; [done|]. left. split; [done|]. cbn [op_effect] in He. injection He as He.
    split; [by exists c|done|]. cbn [mp_current_media_set_lock set_inventory]. by rewrite Hl.
  - simplify_eq. split; [done|]. by right.
Qed.
Lemma add_found_cases o id now p db d r p' db' d' :
  disk_ok d -> keyed (inv_map (mp_inventory p)) -> mp_current_media_set_lock p = true ->
  add_found o id now p db d = (r, (p', db', d')) ->
  only_files_of (ml_uuid (mi_label id)) d d'
  /\ ((r = Ok (ml_uuid (mi_label id)) /\ taken (al_add o) now p db d id p' db' d')
      \/ ((forall u, r <> Ok u) /\ db' = db /\ p' = set_inventory (mp_inventory p') p
          /\ keyed (inv_map (mp_inventory p')))).
Proof.
  intros Hd Hk Hl H. unfold add_found in H.
  destruct (add_media_to_current_set (al_add o) id now p db d) as [ra [[pa dba] da]] eqn:Ea.
  destruct (add_media_cases _ _ _ _ _ _ _ _ _ _ Hd Hk Hl Ea) as (Ho & [(-> & Ht)|(Hne & -> & Hp & Hk')]).
  - simplify_eq. split; [done|]. by left.
  - destruct ra as [[]| |]; [done|..]; simplify_eq; (split; [done|]); by right.
Qed.

(** What the last media of the set is. *)
Lemma lookup_last p u media :
  keyed (inv_map (mp_inventory p)) -> pool_lookup_media u p = Ok media -> ml_uuid (mi_label (bm_id media)) = u.
Proof.
  intros Hk. unfold pool_lookup_media, inv_lookup_media.
  destruct (inv_map (mp_inventory p) !! u) as [e|] eqn:E; cbn [fmap option_fmap option_map]; [|done].
  destruct (match media_pool (me_id e) with Some _ => _ | None => _ end); [done|].
  destruct (compute_media_state _ _) as [st loc]. intros [= <-]. by apply (Hk _ _ E).
Qed.
Inductive alloc_result (o : AllocOutcome) (now : Z) (db1 db2 : db_t) (p : MediaPool) (db : db_t) (d : Disk)
    : res uuid_t -> MediaPool -> db_t -> Disk -> Prop :=
  | alloc_current u :
      current_set_usable p = Ok true -> last_media_uuid (mp_current_media_set p) = Some u ->
      alloc_result o now db1 db2 p db d (Ok u) p db d
  | alloc_failed r inv :
      (forall u, r <> Ok u) -> keyed (inv_map inv) -> alloc_result o now db1 db2 p db d r (set_inventory inv p) db d
  | alloc_found id e dbx r p' db' d' :
      mp_current_media_set_lock p = true -> current_set_usable p = Ok false -> dbx = db1 \/ dbx = db2 ->
      may_take now p dbx (ml_uuid (mi_label id)) e -> mi_label id = mi_label (me_id e) ->
      add_found o id now (set_inventory (fresh_inventory dbx) p) db d = (r, (p', db', d')) ->
      alloc_result o now db1 db2 p db d r p' db' d'.
Lemma may_take_inventory now p inv db u e : may_take now (set_inventory inv p) db u e -> may_take now p db u e.
Proof. by intros []. Qed.
Lemma alloc_cases o now db1 db2 p db d r p' db' d' :
  keyed (inv_map (mp_inventory p)) ->
  alloc_writable_media sort_by lockable o now db1 db2 p db d = (r, (p', db', d')) ->
  alloc_result o now db1 db2 p db d r p' db' d'.
Proof.
  intros Hk H. unfold alloc_writable_media in H.
  assert (Hfail : forall inv r, keyed (inv_map inv) -> (forall u, r <> Ok u) -> (r, (set_inventory inv p, db, d)) = (r, (p', db', d')) ->
                  alloc_result o now db1 db2 p db d r p' db' d').
  { intros inv r0 Hinv Hr Heq. simplify_eq. by constructor. }
  assert (Hfail0 : forall r, (forall u, r <> Ok u) -> (r, (p, db, d)) = (r, (p', db', d')) ->
                  alloc_result o now db1 db2 p db d r p' db' d').
  { intros r0 Hr Heq. apply (Hfail (mp_inventory p)); [done..|]. by rewrite set_inventory_same. }
  destruct (mp_current_media_set_lock p) eqn:Hl; cbn [negb] in H; [|simplify_eq; by apply Hfail0].
  destruct (current_set_usable p) as [[]| |] eqn:Hu; [| |simplify_eq; by apply Hfail0..].
  { destruct (last_media_uuid _) as [u|] eqn:Hlast; cbn [unwrap] in H; [|simplify_eq; by apply Hfail0].
    destruct (pool_lookup_media u p) as [media| |] eqn:Em; [|simplify_eq; by apply Hfail0..].
    apply lookup_last in Em; [|done]. simplify_eq. by apply alloc_current. }
  destruct (al_lock_pool o); cbn [negb] in H; [|simplify_eq; by apply Hfail0].
  rewrite reload_spec in H. destruct (db_load (al_load1 o)); [|simplify_eq; by eapply Hfail].
  destruct (next_empty_media _ _ _) as [id|] eqn:E1.
  { destruct (next_empty_permitted now (set_inventory (fresh_inventory db1) p) db1 _ eq_refl E1) as (e & He%may_take_inventory & Hid).
    apply (alloc_found _ _ _ _ _ _ _ id e db1); [done|done|by left|done..]. }
  destruct (next_expired_media _ _ _ _ _) as [id|] eqn:E2.
  { destruct (next_expired_permitted now (set_inventory (fresh_inventory db1) p) db1 _ eq_refl E2) as (e & He%may_take_inventory & Hid).
    apply (alloc_found _ _ _ _ _ _ _ id e db1); [done|done|by left|done..]. }
  destruct (al_lock_unassigned o); cbn [negb] in H; [|simplify_eq; by apply (Hfail (fresh_inventory db1) _ (fresh_keyed db1))].
  rewrite reload_spec in H. destruct (db_load (al_load2 o)); [|simplify_eq; by apply (Hfail (fresh_inventory db1) _ (fresh_keyed db1))].
  destruct (next_unassigned_media _ _ _) as [id|] eqn:E3; [|simplify_eq; by apply (Hfail (fresh_inventory db2) _ (fresh_keyed db2))].
  destruct (next_unassigned_permitted now (set_inventory (fresh_inventory db2) p) db2 _ eq_refl E3) as (e & He%may_take_inventory & Hid).
  apply (alloc_found _ _ _ _ _ _ _ id e db2); [done|done|by right|done..].
Qed.

Definition nil_uuid : uuid_t := replicate 16 x00.
Lemma may_take_no_member now p db u e n :
  set_uuid (mp_current_media_set p) <> nil_uuid -> may_take now p db u e ->
  ~ in_set (set_uuid (mp_current_media_set p)) e n.
Proof.
  intros Hz [_ _ _ Hun] (set & Hset & Hs & _). destruct Hun as [[_ [_ Hn]]|(set' & Hset' & _ & _ & Hc & _)].
  - rewrite Hset in Hn. apply bool_decide_eq_true in Hn. by rewrite Hs in Hn.
  - congruence.
Qed.

(** C23.  Allocation touches only media it may take: the entry or the catalog of a media changes only if the media is known, at
    hand, neither damaged nor retired, and either never used, and then of this pool or of none, or with data of
    another media set of this pool that has expired.  This holds for every outcome of the calls to the system, so also
    where the allocation fails half-way. *)
Theorem alloc_takes_permitted o now db1 db2 p db d r p' db' d' :
  keyed (inv_map (mp_inventory p)) -> disk_ok d ->
  alloc_writable_media sort_by lockable o now db1 db2 p db d = (r, (p', db', d')) ->
  disk_ok d' /\ forall u,
    db_map db' !! u <> db_map db !! u \/ catalog_data d' u <> catalog_data d u ->
    exists e dbx, (dbx = db1 \/ dbx = db2) /\ may_take now p dbx u e.
Proof.
  intros Hk Hd [u Hu Hlast|r' inv Hr _|id e dbx r' p1 db1' d1 Hl Hu Hdbx Hmay Hid Hadd]%alloc_cases; [| | |done].
  1, 2: split; [done|intros ? []; done].
  apply add_found_cases in Hadd as (Hof & Hres); [|done|apply fresh_keyed|done]. split; [apply Hof|]. intros v Hv.
  destruct (decide (v = ml_uuid (mi_label id))) as [->|Hne]; [eauto|exfalso]. destruct Hv as [Hv|Hv].
  - destruct Hres as [[_ [_ Hdb _]]|(_ & -> & _)]; [|done]. by rewrite Hdb, lookup_insert_ne in Hv.
  - apply Hv. by eapply only_files_data.
Qed.

(** ** The current set after an allocation *)
Record member (p : MediaPool) (i : nat) (u : uuid_t) (e : MediaStateEntry) (set : MediaSetLabel) : Prop := {
  mb_entry : inv_map (mp_inventory p) !! u = Some e;
  mb_label : mi_media_set_label (me_id e) = Some set;
  mb_pool : ms_pool set = mp_name p;
  mb_uuid : ms_uuid set = set_uuid (mp_current_media_set p);
  mb_seq : ms_seq_nr set = Z.of_nat i;
  mb_key : ms_fingerprint set = mp_encrypt_fingerprint p;
}.
Lemma member_lookup p i u e set : member p i u e set ->
  pool_lookup_media u p =
    Ok {| bm_id := me_id e; bm_location := (compute_media_state (me_id e) p).2;
          bm_status := (compute_media_state (me_id e) p).1; bm_bytes_used := get_media_bytes_used u (mp_inventory p) |}.
Proof.
  intros [He Hl Hp _ _ _]. unfold pool_lookup_media, inv_lookup_media. rewrite He. cbn. unfold media_pool. rewrite Hl.
  rewrite bool_decide_eq_true_2 by done. cbn. by destruct (compute_media_state (me_id e) p).
Qed.
Definition enc_ok (p : MediaPool) (le : option (option (list byte))) : Prop :=
  le = None \/ le = Some (mp_encrypt_fingerprint p).
Lemma fingerprints_ok p set le :
  ms_fingerprint set = mp_encrypt_fingerprint p -> enc_ok p le ->
  check_fingerprints (ms_fingerprint set) (mp_encrypt_fingerprint p) le = Ok tt
  /\ enc_ok p (match le with None => Some (ms_fingerprint set) | _ => le end).
Proof.
  intros Hf Hle. unfold check_fingerprints. rewrite Hf, bool_decide_eq_true_2 by done. cbn.
  destruct Hle as [->| ->]; [split; [done|by right]|]. rewrite bool_decide_eq_true_2 by done. split; [done|by right].
Qed.
(** Members found by the check of the set. *)
Lemma usable_loop_members p count l : forall seq le b r,
  usable_loop p count seq l le b = Ok r ->
  forall i ou, l !! i = Some ou -> exists u e set, ou = Some u /\ member p (seq + i) u e set
    /\ ((compute_media_state (me_id e) p).1 = Full \/ (compute_media_state (me_id e) p).1 = Writable).
Proof.
  induction l as [|[u|] l IH]; intros seq le b r Hrun i ou Hi; cbn [usable_loop] in Hrun; [done| |done].
  destruct (pool_lookup_media u p) as [media| |] eqn:Em; [|done..].
  unfold pool_lookup_media, inv_lookup_media in Em. destruct (inv_map (mp_inventory p) !! u) as [e|] eqn:Ee; [|done].
  cbn [fmap option_fmap option_map] in Em. unfold media_pool in Em.
  destruct (compute_media_state (me_id e) p) as [st loc] eqn:Est.
  destruct (mi_media_set_label (bm_id media)) as [set|] eqn:Es; [|done].
  destruct (match mi_media_set_label (me_id e) with Some _ => _ | None => _ end) as [pl|] eqn:Epl.
  2: { injection Em as <-. cbn in Es. by rewrite Es in Epl. }
  destruct (bool_decide_reflect (pl = mp_name p)) as [->|]; [|done]. injection Em as <-. cbn in *.
  rewrite Es in Epl. injection Epl as Hpool.
  destruct (bool_decide_reflect (ms_uuid set = set_uuid (mp_current_media_set p))) as [Huu|]; [|done]. cbn in Hrun.
  destruct (Z.eqb_spec (ms_seq_nr set) (Z.of_nat seq)) as [Hseq|]; [|done]. cbn in Hrun.
  destruct (check_fingerprints _ _ _) as [[]| |] eqn:Ec; [|done..].
  assert (Hfp : ms_fingerprint set = mp_encrypt_fingerprint p).
  { unfold check_fingerprints in Ec. by destruct (bool_decide_reflect (ms_fingerprint set = mp_encrypt_fingerprint p)). }
  destruct (match st with Full => _ | _ => _ end) as [b'| |] eqn:Eb; [|done..].
  destruct i as [|i]; cbn in Hi.
  - simplify_eq. exists u, e, set. rewrite Nat.add_0_r, Est. split_and!; [done|done|]. destruct st; [by right|by left|done..].
  - destruct (IH _ _ _ _ Hrun i ou Hi) as (v & e' & set' & -> & Hm & Hst). exists v, e', set'.
    replace (seq + S i)%nat with (S seq + i)%nat by lia. done.
Qed.
Lemma usable_loop_full p count l l2 : forall seq le b,
  enc_ok p le ->
  (forall i ou, l !! i = Some ou -> exists u e set, ou = Some u /\ member p (seq + i) u e set
    /\ (compute_media_state (me_id e) p).1 = Full) ->
  exists le', enc_ok p le' /\
    usable_loop p count seq (l ++ l2) le b = usable_loop p count (seq + length l) l2 le' b.
Proof.
  induction l as [|ou l IH]; intros seq le b Hle Hl.
  { exists le. cbn. by rewrite Nat.add_0_r. }
  destruct (Hl 0%nat ou eq_refl) as (u & e & set & -> & Hm & Hst). rewrite Nat.add_0_r in Hm.
  cbn [app usable_loop]. rewrite (member_lookup _ _ _ _ _ Hm). cbn [bm_id bm_status bm_location].
  destruct Hm as [He Hlab Hp Hu Hs Hf]. rewrite Hlab, Hst, bool_decide_eq_true_2 by done.
  rewrite (proj2 (Z.eqb_eq _ _) Hs). cbn [negb]. destruct (fingerprints_ok p set le Hf Hle) as [-> Hle'].
  destruct (IH (S seq) (match le with None => Some (ms_fingerprint set) | _ => le end) b Hle') as (le' & Hok & Heq).
  { intros i ou Hi. replace (S seq + i)%nat with (seq + S i)%nat by lia. by apply Hl. }
  exists le'. split; [done|]. rewrite Heq. cbn [length]. f_equal. lia.
Qed.

(** A member that is no longer the last one counts as full. *)
Lemma member_not_last p p' u e set i :
  member p i u e set -> member p' i u e set -> entry_uuid e = u -> set_uuid (mp_current_media_set p) <> nil_uuid ->
  set_uuid (mp_current_media_set p') = set_uuid (mp_current_media_set p) ->
  is_last_media u (mp_current_media_set p') = false ->
  (compute_media_state (me_id e) p).1 = Full \/ (compute_media_state (me_id e) p).1 = Writable ->
  (compute_media_state (me_id e) p').1 = Full.
Proof.
  intros [He Hl Hp Hu _ _] [He' _ Hp' Hu' _ _] Hk Hz Hc Hlast. unfold compute_media_state, status_and_location.
  unfold entry_uuid in Hk. rewrite Hk, He, He', Hl, Hlast.
  rewrite !(bool_decide_eq_true_2 _ Hp), !(bool_decide_eq_true_2 _ Hp'), !(bool_decide_eq_true_2 _ Hu'), !(bool_decide_eq_true_2 _ Hu).
  replace (unassigned set) with false; [|symmetry; apply bool_decide_eq_false; by rewrite Hu].
  destruct (me_status e) as [[]|]; cbn; naive_solver.
Qed.
Lemma last_media_snoc u l uuid : last_media_uuid {| set_uuid := uuid; set_media := l ++ [Some u] |} = Some u
  /\ forall v, is_last_media v {| set_uuid := uuid; set_media := l ++ [Some u] |} = bool_decide (v = u).
Proof. unfold last_media_uuid, is_last_media. cbn [set_media]. by rewrite last_snoc. Qed.

Section taken.
Context (o : AddOutcome) (now : Z) (p : MediaPool) (db : db_t) (d : Disk) (id : MediaId).
Context (p' : MediaPool) (db' : db_t) (d' : Disk) (e : MediaStateEntry).
Hypothesis Hfresh : mp_inventory p = fresh_inventory db.
Hypothesis Hnil : set_uuid (mp_current_media_set p) <> nil_uuid.
Hypothesis Hmay : may_take now p db (ml_uuid (mi_label id)) e.
Hypothesis Hid : mi_label id = mi_label (me_id e).
Hypothesis Htaken : taken o now p db d id p' db' d'.
Let u := ml_uuid (mi_label id).
Let l := set_media (mp_current_media_set p).

Lemma taken_member : exists e', member p' (length l) u e' (new_label now p) /\ me_status e' = None
  /\ me_location e' = me_location e /\ entry_uuid e' = u.
Proof.
  destruct Htaken as [_ Hdb ->]. exists (stored_entry (taken_id now p id) true (Some e)). split; [|done].
  split; try done. cbn. rewrite Hdb. subst u. rewrite lookup_insert_eq. by rewrite (mt_known _ _ _ _ _ Hmay).
Qed.
Lemma taken_state : exists e' , member p' (length l) u e' (new_label now p)
  /\ (compute_media_state (me_id e') p').1 = Writable /\ location_is_available (compute_media_state (me_id e') p').2 p' = true.
Proof.
  destruct taken_member as (e' & Hm & Hst & Hloc & Hk). exists e'. split; [done|].
  destruct Hm as [He Hl _ _ _ _]. unfold compute_media_state, status_and_location. unfold entry_uuid in Hk.
  rewrite Hk, He, Hst, Hl, Hloc. cbn [default from_option].
  destruct Htaken as [_ _ ->]. cbn [mp_name set_current_set set_inventory mp_current_media_set new_label with_data ms_pool ms_uuid add_media set_uuid].
  rewrite !bool_decide_eq_true_2 by done. cbn [negb].
  replace (unassigned (new_label now p)) with false; [|symmetry; by apply bool_decide_eq_false].
  pose proof (last_media_snoc u l (set_uuid (mp_current_media_set p))) as [_ Hlast]. unfold add_media. fold u l.
  rewrite Hlast, bool_decide_eq_true_2 by done. cbn [fst snd]. split; [done|].
  exact (mt_available _ _ _ _ _ Hmay).
Qed.
Lemma taken_old_members : current_set_usable p = Ok false ->
  forall i ou, l !! i = Some ou -> exists v ev set, ou = Some v /\ member p' i v ev set
    /\ (compute_media_state (me_id ev) p').1 = Full.
Proof.
  intros Hus i ou Hi. unfold current_set_usable in Hus. fold l in Hus.
  destruct (length l =? 0)%nat eqn:E; [apply Nat.eqb_eq, nil_length_inv in E; by rewrite E in Hi|].
  destruct (usable_loop_members _ _ _ _ _ _ _ Hus i ou Hi) as (v & ev & set & -> & Hm & Hst). cbn [plus] in Hm.
  exists v, ev, set. destruct (Hm) as [He Hl Hp Hu Hs Hf].
  assert (Hvu : v <> u).
  { intros ->. apply (may_take_no_member _ _ _ _ _ i Hnil Hmay). exists set. rewrite Hfresh in He.
    pose proof (mt_known _ _ _ _ _ Hmay) as He2. fold u in He2. cbn in He. simplify_eq. split_and!; [done..|]. lia. }
  assert (Hev : db_map db !! v = Some ev) by (by rewrite Hfresh in He).
  assert (Hm' : member p' i v ev set).
  { destruct Htaken as [_ Hdb ->]. split; try done. cbn. by rewrite Hdb, lookup_insert_ne. }
  split_and!; [done|done|]. eapply (member_not_last p p'); [done|done| |done| | |done].
  - by apply (db_map_keyed db).
  - by destruct Htaken as [_ _ ->].
  - destruct Htaken as [_ _ ->]. cbn. unfold add_media. fold u l.
    rewrite (proj2 (last_media_snoc u l _)). by apply bool_decide_eq_false.
Qed.
Lemma taken_usable : current_set_usable p = Ok false ->
  current_set_usable p' = Ok true /\ last_media_uuid (mp_current_media_set p') = Some u
  /\ exists media, pool_lookup_media u p' = Ok media.
Proof.
  intros Hus. destruct taken_state as (e' & Hm & Hst & Hloc).
  assert (Hset : set_media (mp_current_media_set p') = l ++ [Some u]) by (by destruct Htaken as [_ _ ->]).
  split_and!; [|by destruct Htaken as [_ _ ->]; apply last_media_snoc|by rewrite (member_lookup _ _ _ _ _ Hm); eauto].
  unfold current_set_usable. rewrite Hset, length_app. cbn [length].
  replace (length l + 1 =? 0)%nat with false; [|symmetry; apply Nat.eqb_neq; lia].
  destruct (usable_loop_full p' (length l + 1) l [Some u] 0 None false) as (le & Hle & ->); [by left|by apply taken_old_members|].
  cbn [plus usable_loop]. rewrite (member_lookup _ _ _ _ _ Hm). cbn [bm_id bm_status bm_location].
  rewrite Hst, Hloc. destruct Hm as [He Hl _ Hu Hs Hf]. rewrite Hl, Hs, Z.eqb_refl, Nat.eqb_refl.
  rewrite bool_decide_eq_true_2 by done. cbn [negb]. by destruct (fingerprints_ok p' _ le Hf Hle) as [-> _].
Qed.
End taken.

(** A tape that was allocated is used again until it is full: after a successful allocation the current set can be
    written, its last media is the one returned, and further allocations return the same media and change nothing,
    whatever happens to the inventory file meanwhile. *)
Theorem alloc_again o now p db d u p' db' d' :
  mp_inventory p = fresh_inventory db -> set_uuid (mp_current_media_set p) <> nil_uuid -> disk_ok d ->
  alloc_writable_media sort_by lockable o now db db p db d = (Ok u, (p', db', d')) ->
  current_set_usable p' = Ok true /\ last_media_uuid (mp_current_media_set p') = Some u
  /\ forall o2 now2 db1 db2 db3 d3,
       alloc_writable_media sort_by lockable o2 now2 db1 db2 p' db3 d3 = (Ok u, (p', db3, d3)).
Proof.
  intros Hfresh Hnil Hd Hrun.
  assert (Hl : mp_current_media_set_lock p = true).
  { unfold alloc_writable_media in Hrun. by destruct (mp_current_media_set_lock p). }
  assert (Hk : keyed (inv_map (mp_inventory p))) by (rewrite Hfresh; apply db_map_keyed).
  assert (H : current_set_usable p' = Ok true /\ last_media_uuid (mp_current_media_set p') = Some u
              /\ (exists media, pool_lookup_media u p' = Ok media) /\ keyed (inv_map (mp_inventory p'))
              /\ mp_current_media_set_lock p' = true).
  { pose proof Hrun as Hres. apply alloc_cases in Hres; [|done].
    inversion Hres as [v Hu Hlast|r inv Hr _|id e dbx r p1 db1 d1 Hl' Hu Hdbx Hmay Hid Hadd]; subst; [|by destruct (Hr u)|].
    - split_and!; try done. unfold alloc_writable_media in Hrun. rewrite Hl, Hu, Hlast in Hrun. cbn in Hrun.
      destruct (pool_lookup_media u p'); [eauto|done..].
    - assert (dbx = db) as -> by (by destruct Hdbx). rewrite <- Hfresh, set_inventory_same in Hadd.
      destruct (add_found_cases _ _ _ _ _ _ _ _ _ _ Hd Hk Hl Hadd) as (_ & [(Heq & Ht)|(Hr & _)]); [|by destruct (Hr u)].
      injection Heq as ->. destruct (taken_usable _ _ _ _ _ _ _ _ _ _ Hfresh Hnil Hmay Hid Ht Hu) as (? & ? & ?).
      split_and!; try done; destruct Ht as [_ _ ->]; [apply db_map_keyed|done]. }
  destruct H as (Hus & Hlast & [media Hmedia] & Hk' & Hl'). split_and!; [done..|]. intros.
  unfold alloc_writable_media. rewrite Hl', Hus, Hlast. cbn [negb unwrap]. rewrite Hmedia.
  by rewrite (lookup_last _ _ _ Hk' Hmedia).
Qed.

(** ** The guess of the next media *)
Definition all_ok : AllocOutcome :=
  {| al_lock_pool := true; al_lock_unassigned := true; al_load1 := db_ok; al_load2 := db_ok;
     al_add := {| ao_open := {| oo_basedir := true; oo_open := true; oo_chown := true; oo_lock := true; oo_unlock := true |};
                  ao_commit := {| co_lock := true; co_write_fails := None; co_sync := true; co_unlock := true |};
                  ao_renamed := true; ao_store := db_ok |} |}.
Lemma first_label_ok h u :
  exists c, register_label u 0 0 (push PROXMOX_BACKUP_MEDIA_CATALOG_MAGIC_1_1 (set_file (Some h) (catalog_empty u))) = (Ok tt, c)
  /\ mc_file c = Some h /\ mc_last_entry c = Some (u, 0) /\ mc_current_archive c = None /\ mc_pending c <> [].
Proof.
  unfold register_label, check_register_label. cbn [mc_uuid push set_file catalog_empty].
  rewrite bool_decide_eq_true_2 by done. eexists. split_and!; done.
Qed.
Lemma second_label_ok set c h : mc_file c = Some h -> mc_last_entry c = Some (set, 0) -> mc_current_archive c = None ->
  mc_pending c <> [] -> forall u seq_nr, exists c',
  register_label u seq_nr 1 c = (Ok tt, c') /\ mc_file c' = Some h /\ mc_pending c' <> [].
Proof.
  intros Hf Hl Ha Hp u seq_nr. unfold register_label, check_register_label, next_file_number. rewrite Hl, Ha.
  eexists. split_and!; [done|done|]. cbn [mc_pending set_last push]. by destruct (mc_pending c).
Qed.
Lemma commit_succeeds c d h : mc_file c = Some h -> mc_pending c <> [] -> exists c' data,
  commit (ao_commit (al_add all_ok)) c d = (Ok tt, (c', set_inode (fh_inode h) data d)).
Proof. intros Hf Hp. unfold commit. rewrite bool_decide_eq_false_2, Hf by done. eexists _, _. cbn [negb]. done. Qed.
Lemma overwrite_succeeds m d : exists c d',
  overwrite (ao_open (al_add all_ok)) (ao_commit (al_add all_ok)) true m d = (Ok c, d').
Proof.
  unfold overwrite, create_temporary_database.
  destruct (create_temporary_database_file _ _ d) as [rh d1] eqn:Eh.
  assert (exists h, rh = Ok h) as [h ->].
  { unfold create_temporary_database_file in Eh. cbn in Eh. destruct (d_names d !! _); injection Eh as <- _; eauto. }
  apply temporary_file_ok in Eh as (_ & _ & Hn).
  destruct (first_label_ok h (ml_uuid (mi_label m))) as (c1 & -> & Hf & Hl & Ha & Hp).
  assert (exists c2, match mi_media_set_label m with
    | Some set => register_label (ms_uuid set) (ms_seq_nr set) 1 c1
    | None => (Ok tt, c1)
    end = (Ok tt, c2) /\ mc_file c2 = Some h /\ mc_pending c2 <> []) as (c2 & -> & Hf2 & Hp2).
  { destruct (mi_media_set_label m); [by eapply second_label_ok|eauto]. }
  destruct (commit_succeeds c2 d1 h Hf2 Hp2) as (c3 & data & ->).
  unfold finish_temporary_database, rename_file. cbn [d_names set_inode]. rewrite Hn. eauto.
Qed.
Lemma add_found_succeeds id now p db d : mp_current_media_set_lock p = true ->
  (add_found all_ok id now p db d).1 = Ok (ml_uuid (mi_label id)).
Proof.
  intros Hl. unfold add_found, add_media_to_current_set. rewrite Hl. cbn [negb].
  destruct (overwrite_succeeds (set_id_label id (Some (new_label now p))) d) as (c & d' & Ho).
  unfold new_label in Ho. change (ao_renamed (al_add all_ok)) with true. rewrite Ho.
  destruct (store _ _ true (mp_inventory p) db) as [rs [inv1 db1]] eqn:Es. assert (rs = Ok tt) as ->; [|done].
  pose proof (run_op_spec db_ok (OpStore (set_id_label id (Some (new_label now p))) true) (mp_inventory p) db eq_refl) as Hop.
  cbn [run_op op_effect] in Hop. unfold new_label in Hop. cbn in Hop. cbn in Es. rewrite Hop in Es. by simplify_eq.
Qed.

(** The guess of the next media keeps in step with the allocation: with the current inventory, the media that is guessed
    is the one an allocation returns when no call to the system fails, and where there is no guess the allocation
    fails. *)
Theorem guess_agrees now p db d :
  mp_inventory p = fresh_inventory db -> mp_current_media_set_lock p = true ->
  match guess_next_writable_media sort_by lockable now p with
  | Ok id => (alloc_writable_media sort_by lockable all_ok now db db p db d).1 = Ok (ml_uuid (mi_label id))
  | Err _ => exists e, (alloc_writable_media sort_by lockable all_ok now db db p db d).1 = Err e
  | Panic e => (alloc_writable_media sort_by lockable all_ok now db db p db d).1 = Panic e
  end.
Proof.
  intros Hfresh Hl. unfold guess_next_writable_media, alloc_writable_media. rewrite Hl. cbn [negb].
  destruct (current_set_usable p) as [[]| |]; [| |by eauto|done].
  { destruct (last_media_uuid _) as [u|]; cbn [unwrap]; [|done]. destruct (pool_lookup_media u p); [done|by eauto|done]. }
  cbn [al_lock_pool al_lock_unassigned al_load1 al_load2 all_ok negb]. rewrite !reload_spec. cbn [db_load db_ok].
  rewrite <- Hfresh, set_inventory_same.
  destruct (next_empty_media _ _ _); [by apply add_found_succeeds|].
  destruct (next_expired_media _ _ _ _ _); [by apply add_found_succeeds|].
  rewrite reload_spec. cbn [db_load db_ok]. rewrite <- Hfresh, set_inventory_same.
  destruct (next_unassigned_media _ _ _); [by apply add_found_succeeds|by eauto].
Qed.
End alloc.

(** ** Sessions *)

(** The pool after the start of a session. *)
Record session (force : bool) (new_uuid : uuid_t) (p : MediaPool) (db : db_t) (reason : option string) (p' : MediaPool)
    : Prop := {
  se_inventory : mp_inventory p' = fresh_inventory db;
  se_usable : exists b, current_set_usable p' = Ok b;
  se_set : match reason with
           | None => p' = set_inventory (fresh_inventory db) p /\ force = false /\ mp_media_set_policy p <> AlwaysCreate
           | Some _ => p' = set_current_set (media_set_with_data new_uuid []) (negb (mp_no_media_set_locking p))
                              (set_inventory (fresh_inventory db) p)
           end;
}.
Lemma session_started now force lock_pool lock_set new_uuid o p db reason p' :
  start_write_session now force lock_pool lock_set new_uuid o p db = (Ok reason, p') ->
  session force new_uuid p db reason p'.
Proof.
  unfold start_write_session. destruct (negb (mp_no_media_set_locking p) && negb lock_pool); [done|].
  rewrite reload_spec. destruct (db_load o); [|done]. set (p1 := set_inventory (fresh_inventory db) p).
  change (mp_no_media_set_locking p1) with (mp_no_media_set_locking p). change (mp_media_set_policy p1) with (mp_media_set_policy p).
  assert (Hnew : forall s, (if negb (mp_no_media_set_locking p) && negb lock_set then (Err "unable to lock media set", p1)
                   else (Ok (Some s), set_current_set (media_set_with_data new_uuid []) (negb (mp_no_media_set_locking p)) p1))
                  = (Ok reason, p') -> session force new_uuid p db reason p').
  { intros s Hs. destruct (negb _ && negb lock_set); [done|]. simplify_eq. split; [done| |done]. by exists false. }
  destruct force; [by apply Hnew|]. destruct (current_set_usable p1) as [b|e|] eqn:Hu; [|by apply Hnew|done].
  destruct (mp_media_set_policy p) eqn:Hpol.
  - intros [= <- <-]. split; [done|by exists b|by rewrite Hpol].
  - by apply Hnew.
  - destruct (match media_set_start_time _ _ with Some _ => _ | None => _ end) eqn:Er; [by apply Hnew|].
    intros [= <- <-]. split; [done|by exists b|by rewrite Hpol].
Qed.
(** A write session can be used: when a session starts, the set it continues, or the new empty one, passes all checks.
    A new set is started exactly with a reason, always when forced or required by the policy; otherwise
    the set is kept. *)
Theorem session_usable now force lock_pool lock_set new_uuid o p db reason p' :
  start_write_session now force lock_pool lock_set new_uuid o p db = (Ok reason, p') ->
  session force new_uuid p db reason p'.
Proof. apply session_started. Qed.

(** ** A pool agrees with the inventory file *)
Record synced (p : MediaPool) (db : db_t) (d : Disk) : Prop := {
  sy_keyed : keyed (inv_map (mp_inventory p));
  sy_disk : disk_ok d;
  sy_numbers : seqs_ok (db_map db);
  sy_set : set_uuid (mp_current_media_set p) <> nil_uuid;
  sy_members : members_of (db_map db) (set_uuid (mp_current_media_set p)) (set_media (mp_current_media_set p));
}.
(** Changes that keep the ids of all media keep the sets. *)
Definition same_ids (m m' : gmap uuid_t MediaStateEntry) : Prop := forall u, me_id <$> m !! u = me_id <$> m' !! u.
Lemma same_ids_members m m' uuid l : same_ids m m' -> members_of m uuid l -> members_of m' uuid l.
Proof.
  intros Hs [He Hm]. split; [done|]. intros n u. rewrite Hm. specialize (Hs u). unfold in_set.
  split; intros (e & Hu & Hi).
  - rewrite Hu in Hs. destruct (m' !! u) as [e'|]; [|done]. cbn in Hs. injection Hs as Hs. exists e'. by rewrite <- Hs.
  - rewrite Hu in Hs. destruct (m !! u) as [e'|]; [|done]. cbn in Hs. injection Hs as Hs. exists e'. by rewrite Hs.
Qed.
Lemma same_ids_seqs m m' : same_ids m m' -> seqs_ok m -> seqs_ok m'.
Proof.
  intros Hs Hm u e He. specialize (Hs u). rewrite He in Hs. destruct (m !! u) as [e'|] eqn:E; [|done].
  cbn in Hs. injection Hs as Hs. specialize (Hm _ _ E). cbn in Hm. by rewrite Hs in Hm.
Qed.
(** Operations that change the state of media, not their labels. *)
Definition state_op (op : inv_op) : bool :=
  match op with OpStatus _ _ | OpLocation _ _ | OpBytesUsed _ _ | OpOnline _ => true | _ => false end.
Lemma state_op_ids op m m' : state_op op = true -> op_effect op m = Some m' -> same_ids m m'.
Proof.
  intros Hop He u. destruct op; try done; cbn [op_effect] in He.
  1, 2, 3: destruct (m !! uuid) as [e|] eqn:E; [|done]; cbn in He; simplify_eq; destruct (decide (u = uuid)) as [->|Hne];
    [by rewrite lookup_insert_eq, E|by rewrite lookup_insert_ne].
  simplify_eq. rewrite map_lookup_imap. by destruct (m !! u).
Qed.
Lemma run_state_op_ids o op inv db r inv' db' :
  state_op op = true -> run_op o op inv db = (r, (inv', db')) -> same_ids (db_map db) (db_map db').
Proof.
  intros Hop [(_ & _ & He)|[_ ->]]%run_op_cases; [by eapply state_op_ids|done].
Qed.
Lemma members_of_snoc m uuid l u e e' :
  members_of m uuid l -> m !! u = Some e -> (forall n, ~ in_set uuid e n) -> in_set uuid e' (length l) ->
  members_of (<[u := e']> m) uuid (l ++ [Some u]).
Proof.
  intros [Hends Hm] Hu Hno Hin. split; [right; exists u; apply last_snoc|]. intros n v.
  assert (Huniq : forall k, in_set uuid e' k -> k = length l).
  { intros k (s & Hs & _ & <-). destruct Hin as (s' & Hs' & _ & <-). congruence. }
  destruct (decide (v = u)) as [->|Hne].
  - rewrite lookup_insert_eq. split.
    + intros [Hl|[Hn _]]%lookup_snoc_Some.
      * destruct Hl as [_ Hl]. apply Hm in Hl as (e2 & He2 & Hi2). simplify_eq. by destruct (Hno n).
      * exists e'. by subst n.
    + intros (e2 & [= <-] & Hi2). apply Huniq in Hi2 as ->. apply lookup_snoc_Some. by right.
  - rewrite lookup_insert_ne by done. rewrite <- Hm. rewrite lookup_snoc_Some. split.
    + intros [[_ Hl]|[_ Hl]]; [done|congruence].
    + intros Hl. left. split; [by eapply lookup_lt_Some|done].
Qed.

Section steps.
Variables (sort_by : forall A, (A -> A -> comparison) -> list A -> list A) (lockable : uuid_t -> bool).
Hypothesis sort_by_perm : forall A cmp (l : list A), sort_by A cmp l ≡ₚ l.

(** What a pool does, with other processes that change the state of media; every call may fail. *)
Inductive media_step : MediaPool * db_t * Disk -> MediaPool * db_t * Disk -> Prop :=
  | ps_session now force lock_pool lock_set new_uuid o p db d r p' :
      new_uuid <> nil_uuid -> (forall u e n, db_map db !! u = Some e -> ~ in_set new_uuid e n) ->
      start_write_session now force lock_pool lock_set new_uuid o p db = (r, p') -> media_step (p, db, d) (p', db, d)
  | ps_alloc o now p db d r p' db' d' :
      Z.of_nat (length (set_media (mp_current_media_set p))) < U64_MAX ->
      alloc_writable_media sort_by lockable o now db db p db d = (r, (p', db', d')) ->
      media_step (p, db, d) (p', db', d')
  | ps_full o u p db d r p' db' :
      pool_set_status_full o u p db = (r, (p', db')) -> media_step (p, db, d) (p', db', d)
  | ps_damaged o u p db d r p' db' :
      pool_set_status_damaged o u p db = (r, (p', db')) -> media_step (p, db, d) (p', db', d)
  | ps_bytes_used o u b p db d r p' db' :
      pool_set_bytes_used o u b p db = (r, (p', db')) -> media_step (p, db, d) (p', db', d)
  | ps_other o op inv p db d r inv' db' :
      state_op op = true -> run_op o op inv db = (r, (inv', db')) -> media_step (p, db, d) (p, db', d).

Lemma synced_inventory p db d inv : keyed (inv_map inv) -> synced p db d -> synced (set_inventory inv p) db d.
Proof. intros Hk []. by split. Qed.
Lemma synced_state_op o op p db d r inv' db' :
  state_op op = true -> run_op o op (mp_inventory p) db = (r, (inv', db')) -> synced p db d ->
  synced (set_inventory inv' p) db' d.
Proof.
  intros Hop Hrun [Hk Hd Hn Hs Hm]. pose proof (run_state_op_ids _ _ _ _ _ _ _ Hop Hrun) as Hids.
  split; [by eapply run_op_keyed|done|by eapply same_ids_seqs|done|by eapply same_ids_members].
Qed.
Lemma synced_taken o now p db d id e p' db' d' :
  synced p db d -> Z.of_nat (length (set_media (mp_current_media_set p))) < U64_MAX ->
  may_take now p db (ml_uuid (mi_label id)) e -> mi_label id = mi_label (me_id e) -> disk_ok d' ->
  taken o now p db d id p' db' d' -> synced p' db' d'.
Proof.
  intros [Hk Hd Hn Hs Hm] Hlen Hmay Hid Hd' [_ Hdb ->].
  rewrite (mt_known _ _ _ _ _ Hmay) in Hdb. set (e' := stored_entry _ _ _) in Hdb.
  split; [apply fresh_keyed|done| |done|].
  - rewrite Hdb. apply map_Forall_insert_2; [cbn; lia|done].
  - rewrite Hdb. cbn [mp_current_media_set set_current_set set_inventory add_media set_uuid set_media].
    eapply members_of_snoc; [done|apply (mt_known _ _ _ _ _ Hmay)|intros n; by eapply may_take_no_member|].
    exists (new_label now p). cbn. split_and!; [done..|lia].
Qed.
Lemma synced_session now force lock_pool lock_set new_uuid o p db d r p' :
  new_uuid <> nil_uuid -> (forall u e n, db_map db !! u = Some e -> ~ in_set new_uuid e n) ->
  start_write_session now force lock_pool lock_set new_uuid o p db = (r, p') -> synced p db d -> synced p' db d.
Proof.
  intros Hnil Hnew Hrun Hsync.
  assert (Hfresh : synced (set_inventory (fresh_inventory db) p) db d) by (apply synced_inventory; [apply fresh_keyed|done]).
  assert (Hcase : p' = p \/ p' = set_inventory (fresh_inventory db) p
                  \/ p' = set_current_set (media_set_with_data new_uuid []) (negb (mp_no_media_set_locking p))
                              (set_inventory (fresh_inventory db) p)).
  { unfold start_write_session in Hrun. rewrite reload_spec in Hrun.
    destruct (db_load o); repeat case_match; simplify_eq; rewrite ?set_inventory_same; auto. }
  destruct Hcase as [->|[->| ->]]; [done..|]. destruct Hfresh as [Hk Hd Hn _ _]. split; [done..|].
  split; [by left|]. intros n u. cbn. split; [done|]. intros (e & He & Hi). by destruct (Hnew u e n He).
Qed.
Lemma synced_alloc o now p db d r p' db' d' :
  Z.of_nat (length (set_media (mp_current_media_set p))) < U64_MAX ->
  alloc_writable_media sort_by lockable o now db db p db d = (r, (p', db', d')) -> synced p db d -> synced p' db' d'.
Proof.
  intros Hlen Hrun Hsync. apply alloc_cases in Hrun; [|done|apply Hsync].
  destruct Hrun as [u Hu Hlast|r inv Hr Hk|id e dbx r p1 db1 d1 Hl Hu Hdbx Hmay Hid Hadd]; [done|by apply synced_inventory|].
  assert (dbx = db) as -> by (by destruct Hdbx).
  apply add_found_cases in Hadd as (Hof & [(-> & Ht)|(Hr & -> & -> & Hk)]); [| |apply Hsync|apply fresh_keyed|done].
  - eapply synced_taken; [by apply synced_inventory; [apply fresh_keyed|]|done| |done|apply Hof|done]. by destruct Hmay.
  - destruct Hsync as [_ _ Hn Hs Hm]. by split; [|apply Hof|..].
Qed.
Lemma synced_step s s' : media_step s s' -> synced s.1.1 s.1.2 s.2 -> synced s'.1.1 s'.1.2 s'.2.
Proof.
  intros [now force lp ls new o p db d r p' Hnil Hnew Hrun|o now p db d r p' db' d' Hlen Hrun|o u p db d r p' db' Hrun
         |o u p db d r p' db' Hrun|o u b p db d r p' db' Hrun|o op inv p db d r inv' db' Hop Hrun] Hsync; cbn in *.
  - by eapply synced_session.
  - by eapply synced_alloc.
  - unfold pool_set_status_full in Hrun. destruct (pool_lookup_media u p) as [media| |]; [|by simplify_eq..].
    destruct (bool_decide (bm_status media = Full)); [by simplify_eq|].
    destruct (set_media_status_full o u (mp_inventory p) db) as [r' [inv' db'']] eqn:E. simplify_eq.
    by eapply (synced_state_op o (OpStatus u (Some Full))).
  - unfold pool_set_status_damaged in Hrun.
    destruct (set_media_status_damaged o u (mp_inventory p) db) as [r' [inv' db'']] eqn:E. simplify_eq.
    by eapply (synced_state_op o (OpStatus u (Some Damaged))).
  - unfold pool_set_bytes_used in Hrun.
    destruct (set_media_bytes_used o u b (mp_inventory p) db) as [r' [inv' db'']] eqn:E. simplify_eq.
    by eapply (synced_state_op o (OpBytesUsed u b)).
  - pose proof (run_state_op_ids _ _ _ _ _ _ _ Hop Hrun) as Hids. destruct Hsync as [Hk Hd Hn Hs Hm].
    split; [done..|by eapply same_ids_seqs|done|by eapply same_ids_members].
Qed.
Lemma synced_steps s s' : rtc media_step s s' -> synced s.1.1 s.1.2 s.2 -> synced s'.1.1 s'.1.2 s'.2.
Proof. induction 1 as [|s1 s2 s3 Hs _ IH]; [done|]. intros H. by eapply IH, synced_step. Qed.

(** A uuid that was generated: it is not the nil one, and no label has it. *)
Definition generated (db : db_t) (new_uuid : uuid_t) : Prop :=
  new_uuid <> nil_uuid /\ forall u e n, db_map db !! u = Some e -> ~ in_set new_uuid e n.
Lemma latest_assigned pool inv uuid :
  latest_media_set pool inv = Some uuid -> uuid <> nil_uuid.
Proof.
  unfold latest_media_set. destruct (latest_fold (pool_sets pool inv) None) as (Hr & _). cbn zeta in Hr.
  destruct Hr as [Hr|(set & Hset & Hr)]; rewrite Hr; [done|]. destruct (existsb _ _); [done|]. intros [= <-].
  apply elem_of_pool_sets in Hset as (_ & _ & Hun). by apply bool_decide_eq_false in Hun.
Qed.
Lemma synced_new name policy retention changer fp no_lock lock_pool lock_set new_uuid o db d p :
  generated db new_uuid -> seqs_ok (db_map db) -> disk_ok d ->
  pool_new name policy retention changer fp no_lock lock_pool lock_set new_uuid o db = Ok p -> synced p db d.
Proof.
  intros [Hnil Hnew] Hseq Hd Hp. unfold pool_new in Hp. destruct (negb no_lock && negb lock_pool); [done|].
  destruct (db_load o) eqn:Ho; [|by unfold inventory_load in Hp; rewrite reload_spec, Ho in Hp].
  rewrite inventory_load_spec in Hp by done. fold (fresh_inventory db) in Hp.
  destruct (latest_media_set name (fresh_inventory db)) as [uuid|] eqn:El.
  - destruct (compute_media_set_members uuid (fresh_inventory db)) as [set| |] eqn:Ec; [|done..].
    apply media_set_members_correct in Ec as [Hu Hm]; [|apply fresh_keyed|done].
    destruct (negb no_lock && negb lock_set); [done|]. simplify_eq.
    split; [apply fresh_keyed|done|done|by apply latest_assigned in El|done].
  - destruct (negb no_lock && negb lock_set); [done|]. simplify_eq.
    split; [apply fresh_keyed|done..|]. split; [by left|]. intros n u. cbn. split; [done|].
    intros (e & He & Hi). by destruct (Hnew u e n He).
Qed.
Lemma synced_computed p db d : synced p db d ->
  compute_media_set_members (set_uuid (mp_current_media_set p)) (fresh_inventory db) = Ok (mp_current_media_set p).
Proof. intros [_ _ Hn _ Hm]. apply media_set_members_correct; [apply fresh_keyed|done|done]. Qed.

(** C24.  A pool agrees with the inventory file at all times: whatever it does, whichever calls fail, and whatever other
    processes do to the state of media, its current set is the set that is computed from the file. *)
Theorem pool_stays_synced name policy retention changer fp no_lock lock_pool lock_set new_uuid o db0 d0 p0 p db d :
  generated db0 new_uuid -> seqs_ok (db_map db0) -> disk_ok d0 ->
  pool_new name policy retention changer fp no_lock lock_pool lock_set new_uuid o db0 = Ok p0 ->
  rtc media_step (p0, db0, d0) (p, db, d) ->
  compute_media_set_members (set_uuid (mp_current_media_set p)) (fresh_inventory db) = Ok (mp_current_media_set p).
Proof.
  intros Hg Hs Hd Hp Hsteps. apply (synced_computed p db d), (synced_steps _ _ Hsteps). by eapply synced_new.
Qed.

(** The labels of a pool after a media was taken. *)
Lemma taken_latest o now p db d id e p' db' d' :
  set_uuid (mp_current_media_set p) <> nil_uuid -> may_take now p db (ml_uuid (mi_label id)) e ->
  taken o now p db d id p' db' d' ->
  (forall set, set ∈ pool_sets (mp_name p) (fresh_inventory db) -> ms_uuid set <> set_uuid (mp_current_media_set p) ->
               ms_ctime set < now) ->
  latest_media_set (mp_name p) (fresh_inventory db') = Some (set_uuid (mp_current_media_set p)).
Proof.
  intros Hnil Hmay [_ Hdb _] Hold. rewrite (mt_known _ _ _ _ _ Hmay) in Hdb.
  apply (latest_media_set_newest (mp_name p) (fresh_inventory db') (new_label now p)).
  - apply elem_of_pool_sets. split_and!; [|done|by apply bool_decide_eq_false].
    apply elem_of_set_labels; [apply fresh_keyed|]. eexists _, _. split; [cbn; rewrite Hdb; apply lookup_insert_eq|done].
  - intros set (Hin & Hpool & Hun)%elem_of_pool_sets Hne. apply Hold; [|done]. apply elem_of_pool_sets.
    split_and!; [|done..]. apply elem_of_set_labels in Hin as (v & ev & Hv & Hset); [|apply fresh_keyed].
    apply elem_of_set_labels; [apply fresh_keyed|]. cbn in Hv. rewrite Hdb in Hv.
    apply lookup_insert_Some in Hv as [[_ <-]|[_ Hv]]; [|by exists v, ev].
    cbn in Hset. by simplify_eq.
Qed.
(** After a media was added to the current set, the set is found again: a pool that is opened later has the same current
    set, as long as the media of other sets of the pool are older. *)
Theorem pool_reopened p db d al now u p' db' d' policy retention changer fp no_lock new_uuid o :
  synced p db d -> Z.of_nat (length (set_media (mp_current_media_set p))) < U64_MAX -> current_set_usable p = Ok false ->
  (forall set, set ∈ pool_sets (mp_name p) (fresh_inventory db) -> ms_uuid set <> set_uuid (mp_current_media_set p) ->
               ms_ctime set < now) ->
  alloc_writable_media sort_by lockable al now db db p db d = (Ok u, (p', db', d')) -> db_load o = true ->
  set_media (mp_current_media_set p') = set_media (mp_current_media_set p) ++ [Some u]
  /\ exists p2, pool_new (mp_name p) policy retention changer fp no_lock true true new_uuid o db' = Ok p2
                /\ mp_current_media_set p2 = mp_current_media_set p'.
Proof.
  intros Hsync Hlen Hus Hold Hrun Ho. pose proof (synced_alloc _ _ _ _ _ _ _ _ _ Hlen Hrun Hsync) as Hsync'.
  apply alloc_cases in Hrun; [|done|apply Hsync].
  inversion Hrun as [v Hu Hlast|r inv Hr _|id e dbx r p1 db1 d1 Hl Hu Hdbx Hmay Hid Hadd]; subst; [congruence|by destruct (Hr u)|].
  assert (dbx = db) as -> by (by destruct Hdbx).
  apply add_found_cases in Hadd as (_ & [(Heq & Ht)|(Hr & _)]); [|by destruct (Hr u)|apply Hsync|apply fresh_keyed|done].
  injection Heq as ->.
  pose proof (taken_latest _ _ (set_inventory (fresh_inventory db) p) _ _ _ e _ _ _ (sy_set _ _ _ Hsync)
    ltac:(by destruct Hmay) Ht Hold) as Hlatest.
  pose proof (synced_computed _ _ _ Hsync') as Hcomp. destruct Ht as [_ _ ->]. split; [done|].
  unfold pool_new. rewrite !andb_false_r, inventory_load_spec by done. fold (fresh_inventory db').
  cbn in Hlatest, Hcomp. rewrite Hlatest, Hcomp. by eexists.
Qed.
End steps.

(** ** The oldest media is taken *)
Definition total_order {A} (cmp : A -> A -> comparison) : Prop :=
  (forall a b, cmp b a = CompOpp (cmp a b)) /\ (forall a b c, cmp a b <> Gt -> cmp b c <> Gt -> cmp a c <> Gt).
Lemma total_order_flip {A B} (f : A -> B) (cmp : B -> B -> comparison) :
  total_order cmp -> total_order (fun a b => cmp (f b) (f a)).
Proof. intros [Ha Ht]. split; [intros a b; apply Ha|]. intros a b c H1 H2. by apply (Ht _ (f b)). Qed.
Lemma Z_compare_order : total_order Z.compare.
Proof. split; [intros a b; apply Z.compare_antisym|exact Z.le_trans]. Qed.
(** Comparing pairs, the first component first. *)
Lemma then_compare_order {A} (c1 c2 : A -> A -> comparison) :
  total_order c1 -> total_order c2 -> (forall a b c, c1 a b = Eq -> c1 b c = c1 a c) ->
  total_order (fun a b => then_compare (c1 a b) (c2 a b)).
Proof.
  intros [Ha1 Ht1] [Ha2 Ht2] He. split.
  - intros a b. rewrite Ha1, Ha2. by destruct (c1 a b).
  - intros a b c. specialize (Ht1 a b c). specialize (Ht2 a b c). pose proof (He a b c) as H1. pose proof (He c b a) as H2.
    pose proof (He a c b) as H3. rewrite (Ha1 b c), (Ha1 a b), (Ha1 a c) in H2. rewrite (Ha1 b c) in H3.
    destruct (c1 a b), (c1 b c), (c1 a c); cbn in *; try tauto; intros; intuition congruence.
Qed.
Lemma String_compare_cons a s b t :
  String.compare (String a s) (String b t) = then_compare (N.compare (Ascii.N_of_ascii a) (Ascii.N_of_ascii b)) (String.compare s t).
Proof. cbn [String.compare]. unfold Ascii.compare. by destruct (N.compare _ _). Qed.
Lemma String_compare_order : total_order String.compare.
Proof.
  split; [intros s t; apply String.compare_antisym|].
  intros s. induction s as [|a s IH]; intros t v; destruct t as [|b t]; destruct v as [|c v]; try done.
  rewrite !String_compare_cons.
  destruct (N.compare_spec (Ascii.N_of_ascii a) (Ascii.N_of_ascii b)) as [H1|H1|H1], (N.compare_spec (Ascii.N_of_ascii b) (Ascii.N_of_ascii c)) as [H2|H2|H2];
    cbn [then_compare]; try done; intros G1 G2.
  - rewrite H1, H2, N.compare_refl. cbn. by eapply IH.
  - rewrite (proj2 (N.compare_lt_iff _ _)) by lia. done.
  - rewrite (proj2 (N.compare_lt_iff _ _)) by lia. done.
  - rewrite (proj2 (N.compare_lt_iff _ _)) by lia. done.
Qed.
Lemma compare_label_order : total_order compare_label.
Proof.
  apply (then_compare_order (fun a b => Z.compare (ml_ctime b) (ml_ctime a))
           (fun a b => String.compare (ml_label_text b) (ml_label_text a))).
  - apply total_order_flip, Z_compare_order.
  - apply total_order_flip, String_compare_order.
  - intros a b c H%Z.compare_eq. by rewrite H.
Qed.
Lemma compare_expired_order : total_order compare_expired.
Proof.
  apply (then_compare_order (fun a b => Z.compare (set_ctime b) (set_ctime a))
           (fun a b => String.compare (ml_label_text (mi_label (bm_id b))) (ml_label_text (mi_label (bm_id a))))).
  - apply total_order_flip, Z_compare_order.
  - apply (total_order_flip (fun a => ml_label_text (mi_label (bm_id a)))), String_compare_order.
  - intros a b c H%Z.compare_eq. by rewrite H.
Qed.

Section oldest.
Variables (sort_by : forall A, (A -> A -> comparison) -> list A -> list A) (lockable : uuid_t -> bool).
Hypothesis sort_by_perm : forall A cmp (l : list A), sort_by A cmp l ≡ₚ l.
Hypothesis sort_by_sorted : forall A cmp (l : list A),
  total_order cmp -> StronglySorted (fun a b => cmp a b <> Gt) (sort_by A cmp l).

Lemma total_order_refl {A} (cmp : A -> A -> comparison) x : total_order cmp -> cmp x x <> Gt.
Proof. intros [Ha _]. specialize (Ha x x). by destruct (cmp x x). Qed.
Lemma pop_least {A} cmp (l : list A) x y :
  total_order cmp -> pop (sort_by A cmp l) = Some x -> y ∈ l -> cmp y x <> Gt.
Proof.
  intros Ho Hp Hy. pose proof (sort_by_sorted A cmp l Ho) as Hs. rewrite <- (sort_by_perm A cmp) in Hy.
  apply last_Some in Hp as [l' Hl]. rewrite Hl in *. apply elem_of_app in Hy as [Hy| ->%list_elem_of_singleton].
  - eapply (StronglySorted_app_1_elem_of (fun a b => cmp a b <> Gt)); [done..|]. by left.
  - by apply total_order_refl.
Qed.
Lemma find_least {A} (f : A -> bool) cmp (l : list A) x y :
  total_order cmp -> List.find f (reverse (sort_by A cmp l)) = Some x -> y ∈ l -> f y = true -> cmp y x <> Gt.
Proof.
  intros Ho Hf Hy Hfy. pose proof (sort_by_sorted A cmp l Ho) as Hs. rewrite <- (sort_by_perm A cmp) in Hy.
  induction (sort_by A cmp l) as [|z k IH] using rev_ind; [by apply not_elem_of_nil in Hy|].
  rewrite reverse_snoc in Hf. cbn in Hf. destruct (f z) eqn:Ez.
  - simplify_eq. apply elem_of_app in Hy as [Hy| ->%list_elem_of_singleton]; [|by apply total_order_refl].
    eapply (StronglySorted_app_1_elem_of (fun a b => cmp a b <> Gt)); [done..|]. by left.
  - apply elem_of_app in Hy as [Hy| ->%list_elem_of_singleton]; [|congruence].
    apply IH; [done..|]. by eapply StronglySorted_app_1_l.
Qed.

(** By creation time and label text. *)
Definition not_newer (a b : MediaLabel) : Prop :=
  ml_ctime a < ml_ctime b
  \/ (ml_ctime a = ml_ctime b /\ String.compare (ml_label_text a) (ml_label_text b) <> Gt).
Lemma compare_label_not_newer a b : compare_label b a <> Gt -> not_newer a b.
Proof.
  unfold compare_label, not_newer. destruct (Z.compare_spec (ml_ctime a) (ml_ctime b)) as [H|H|H]; cbn; [|by left|done].
  by right.
Qed.
Lemma compare_expired_oldest a b : compare_expired b a <> Gt -> set_ctime a <= set_ctime b.
Proof. unfold compare_expired. destruct (Z.compare_spec (set_ctime a) (set_ctime b)); cbn; [lia|lia|done]. Qed.

(** The oldest media is taken: of the empty media at hand the one labelled first, of the media with expired data, as
    far as their sets can be locked, the one written first, and of the free media the one labelled first. *)
Theorem oldest_first now p :
  (forall id m, next_empty_media sort_by (list_media p) p = Some id -> m ∈ list_media p ->
     location_is_available (bm_location m) p = true -> mi_media_set_label (bm_id m) = None -> bm_status m = Writable ->
     not_newer (mi_label id) (mi_label (bm_id m)))
  /\ (forall id m set, next_expired_media sort_by lockable now (list_media p) p = Some id -> m ∈ list_media p ->
     location_is_available (bm_location m) p = true -> mi_media_set_label (bm_id m) = Some set ->
     ms_uuid set <> set_uuid (mp_current_media_set p) -> media_is_expired m now p = true ->
     mp_no_media_set_locking p = true \/ lockable (ms_uuid set) = true ->
     exists set', mi_media_set_label id = Some set' /\ ms_ctime set' <= ms_ctime set)
  /\ (forall id m, next_unassigned_media sort_by (list_unassigned_media (mp_inventory p)) p = Some id ->
     m ∈ list_unassigned_media (mp_inventory p) ->
     mi_media_set_label m = None -> (compute_media_state m p).1 = Writable ->
     location_is_available (compute_media_state m p).2 p = true -> not_newer (mi_label id) (mi_label m)).
Proof.
  split_and!.
  - intros id m Hn Hm Ha Hl Hs. unfold next_empty_media in Hn. apply fmap_Some in Hn as (x & Hx & ->).
    apply compare_label_not_newer.
    refine (pop_least _ _ _ m (total_order_flip (fun a => bm_id a) (fun a b => compare_label (mi_label b) (mi_label a))
              (total_order_flip mi_label _ compare_label_order)) Hx _).
    apply list_elem_of_In, filter_In. split; [by apply list_elem_of_In|]. by rewrite Ha, Hl, Hs.
  - intros id m set Hn Hm Ha Hl Hc He Hlock.
    destruct (next_expired_in _ _ sort_by_perm _ _ _ _ Hn) as (_ & _ & _ & _ & (set' & Hset' & _) & _).
    exists set'. split; [done|].
    unfold next_expired_media in Hn. set (f := fun media : BackupMedia => _) in Hn.
    assert (Hin : m ∈ List.filter f (list_media p)).
    { apply list_elem_of_In, filter_In. split; [by apply list_elem_of_In|]. subst f. cbn beta.
      rewrite Ha, Hl, He. by rewrite bool_decide_eq_false_2. }
    assert (exists x, bm_id x = id /\ compare_expired m x <> Gt) as (x & <- & Hx).
    { destruct (mp_no_media_set_locking p) eqn:Enl.
      - apply fmap_Some in Hn as (x & Hx & ->). exists x. split; [done|]. by eapply pop_least; [apply compare_expired_order|..].
      - apply fmap_Some in Hn as (x & Hx & ->). exists x. split; [done|].
        eapply find_least; [apply compare_expired_order|done|done|]. unfold set_lockable. rewrite Hl. by destruct Hlock. }
    apply compare_expired_oldest in Hx. unfold set_ctime in Hx. by rewrite Hset', Hl in Hx.
  - intros id m Hn Hm Hl Hs Ha. unfold next_unassigned_media in Hn. apply compare_label_not_newer.
    refine (pop_least _ _ _ m (total_order_flip (fun a => a) (fun a b => compare_label (mi_label b) (mi_label a))
              (total_order_flip mi_label _ compare_label_order)) Hn _).
    apply list_elem_of_In, filter_In. split; [by apply list_elem_of_In|].
    destruct (compute_media_state m p) as [st loc]. cbn in *. subst st. by rewrite Hl, Ha.
Qed.
End oldest.

(** The data of a new catalog: the labels and nothing else. *)
Lemma overwrite_data o co renamed m d c d' :
  media_ok m -> overwrite o co renamed m d = (Ok c, d') ->
  catalog_data d' (ml_uuid (mi_label m)) = Some (PROXMOX_BACKUP_MEDIA_CATALOG_MAGIC_1_1 ++ log_bytes (label_log m)).
Proof.
  intros Hm Hov.
  pose (N := {| ns_snapshot := unit; print_ns_and_snapshot _ := EmptyString; parse_ns_and_snapshot _ := Ok tt |}).
  destruct (overwrite_stored N _ _ _ _ _ _ _ Hm Hov) as (_ & Huuid & h & data & _ & Hdata & _ & Hname & [Hb _ _]).
  unfold catalog_data. rewrite Huuid in Hname. rewrite Hname. cbn. rewrite Hdata.
  destruct Hb as [[-> _]|(_ & Hnil & _)]; done.
Qed.

Section labels.
Variables (sort_by : forall A, (A -> A -> comparison) -> list A -> list A) (lockable : uuid_t -> bool).
Hypothesis sort_by_perm : forall A cmp (l : list A), sort_by A cmp l ≡ₚ l.

(** A media that is taken has the same new label in the inventory and in its catalog, which has nothing else; it is the
    next one of the current set, and it is the only media whose entry changes. *)
Theorem alloc_labels o now p db d u p' db' d' :
  mp_inventory p = fresh_inventory db -> disk_ok d -> current_set_usable p = Ok false ->
  map_Forall (fun u _ => uuid_ok u) (db_map db) -> uuid_ok (set_uuid (mp_current_media_set p)) ->
  in_u64 (Z.of_nat (length (set_media (mp_current_media_set p)))) ->
  alloc_writable_media sort_by lockable o now db db p db d = (Ok u, (p', db', d')) ->
  exists e e', db_map db !! u = Some e /\ db_map db' = <[u := e']> (db_map db)
    /\ mi_label (me_id e') = mi_label (me_id e) /\ mi_media_set_label (me_id e') = Some (new_label now p)
    /\ me_location e' = me_location e /\ me_status e' = None
    /\ catalog_data d' u = Some (PROXMOX_BACKUP_MEDIA_CATALOG_MAGIC_1_1 ++ log_bytes (label_log (me_id e')))
    /\ mp_current_media_set p' =
         {| set_uuid := set_uuid (mp_current_media_set p);
            set_media := set_media (mp_current_media_set p) ++ [Some u] |}.
Proof.
  intros Hfresh Hd Hus Huu Hcu Hlen Hrun. assert (Hk : keyed (inv_map (mp_inventory p))) by (rewrite Hfresh; apply fresh_keyed).
  apply alloc_cases in Hrun; [|done..].
  inversion Hrun as [v Hu Hlast|r inv Hr _|id e dbx r p1 db1 d1 Hl Hu Hdbx Hmay Hid Hadd]; subst; [congruence|by destruct (Hr u)|].
  assert (dbx = db) as -> by (by destruct Hdbx). rewrite <- Hfresh, set_inventory_same in Hadd.
  apply add_found_cases in Hadd as (_ & [(Heq & Ht)|(Hr & _)]); [|by destruct (Hr u)|done..].
  injection Heq as ->. pose proof (mt_known _ _ _ _ _ Hmay) as He. destruct Ht as [[c Hov] Hdb ->]. rewrite He in Hdb.
  exists e, (stored_entry (taken_id now p id) true (Some e)). split_and!; try done.
  by apply (overwrite_data _ _ _ (taken_id now p id) _ _ _ (conj (Huu _ e He) (conj Hcu Hlen)) Hov).
Qed.
End labels.

(** ** The tests of [src/tape/test], and instances of the theorems *)
Module PoolExample.
Definition cmp_le {A} (cmp : A -> A -> comparison) (a b : A) : Prop := cmp a b <> Gt.
#[local] Instance cmp_le_dec {A} (cmp : A -> A -> comparison) : RelDecision (cmp_le cmp).
Proof. intros a b. unfold cmp_le. destruct (cmp a b); [left|left|right]; naive_solver. Defined.
Definition sort_by (A : Type) (cmp : A -> A -> comparison) (l : list A) : list A := merge_sort (cmp_le cmp) l.
Lemma sort_by_perm A cmp (l : list A) : sort_by A cmp l ≡ₚ l.
Proof. apply merge_sort_Permutation. Qed.
Lemma sort_by_sorted A cmp (l : list A) : total_order cmp -> StronglySorted (cmp_le cmp) (sort_by A cmp l).
Proof.
  intros [Ha Ht]. apply StronglySorted_merge_sort; [intros a b c; apply Ht|].
  intros a b. unfold cmp_le. rewrite (Ha a b). destruct (cmp a b); [left|left|right]; done.
Qed.
Definition lockable (u : uuid_t) : bool := true.

Definition tape1 : uuid_t := replicate 16 x01.
Definition tape2 : uuid_t := replicate 16 x02.
Definition set1 : uuid_t := replicate 16 x0a.
Definition set2 : uuid_t := replicate 16 x0b.
Definition set3 : uuid_t := replicate 16 x0c.
(** [generate_assigned_tape] *)
Definition assigned_tape (u : uuid_t) (pool : string) (ctime : Z) : MediaStateEntry :=
  {| me_id := {| mi_label := {| ml_uuid := u; ml_label_text := "tape1"; ml_ctime := ctime; ml_pool := Some pool |};
                 mi_media_set_label := None |};
     me_location := None; me_status := None; me_bytes_used := None |}.
Definition new_pool (policy : MediaSetPolicy) (retention : RetentionPolicy) (db : db_t) : res MediaPool :=
  pool_new "p1" policy retention None None false true true set3 db_ok db.
Definition state := (MediaPool * db_t * Disk)%type.
Definition empty_disk : Disk := {| d_inodes := ∅; d_names := ∅ |}.
Definition start_pool (policy : MediaSetPolicy) (retention : RetentionPolicy) (db : db_t) : option state :=
  match new_pool policy retention db with Ok p => Some (p, db, empty_disk) | _ => None end.
Definition begin (now : Z) (set : uuid_t) (s : state) : state :=
  let '(p, db, d) := s in ((start_write_session now false true true set db_ok p db).2, db, d).
Definition alloc (now : Z) (s : state) : res uuid_t * state :=
  let '(p, db, d) := s in alloc_writable_media sort_by lockable all_ok now db db p db d.
Definition full (u : uuid_t) (s : state) : state :=
  let '(p, db, d) := s in let '(_, (p, db)) := pool_set_status_full db_ok u p db in (p, db, d).
Definition outcome (r : res uuid_t) : option uuid_t := match r with Ok u => Some u | _ => None end.

(** [test_alloc_writable_media_3]: two tapes are used in the order of their creation, then there is no free one. *)
Definition test_3 (s : state) : list (option uuid_t) :=
  let s := begin 10 set1 s in
  let '(r1, s) := alloc 10 s in
  let '(r2, s) := alloc 11 s in
  let s := full tape1 s in
  let '(r3, s) := alloc 12 s in
  let s := full tape2 s in
  let '(r4, s) := alloc 13 s in
  outcome <$> [r1; r2; r3; r4].
Example test_alloc_writable_media_3 :
  test_3 <$> start_pool ContinueCurrent KeepForever [assigned_tape tape1 "p1" 0; assigned_tape tape2 "p1" 1]
  = Some [Some tape1; Some tape1; Some tape2; None].
Proof. vm_compute. reflexivity. Qed.

(** [test_alloc_writable_media_4]: data is protected for 12 seconds, then the tape is used again. *)
Definition test_4 (s : state) : list (option uuid_t) :=
  let s := begin 10 set1 s in
  let '(r1, s) := alloc 10 s in
  let '(r2, s) := alloc 13 s in
  let s := full tape1 s in
  let '(r3, s) := alloc 15 s in
  let s := begin 20 set2 s in
  let '(r4, s) := alloc 20 s in
  let '(r5, s) := alloc 21 s in
  let '(r6, s) := alloc 22 s in
  outcome <$> [r1; r2; r3; r4; r5; r6].
Example test_alloc_writable_media_4 :
  test_4 <$> start_pool AlwaysCreate (ProtectFor 12) [assigned_tape tape1 "p1" 0]
  = Some [Some tape1; Some tape1; None; None; None; Some tape1].
Proof. vm_compute. reflexivity. Qed.

(** The end of the protection is added in 64 bits, where it can become negative: the tape that has just been written counts as
    expired under a retention of half the range, and is taken by the next session. *)
Definition overflow (s : state) : list (option uuid_t) :=
  let s := begin 10 set1 s in
  let '(r1, s) := alloc 10 s in
  let s := full tape1 s in
  let s := begin 20 set2 s in
  let '(r2, s) := alloc 20 s in
  outcome <$> [r1; r2].
Theorem protection_overflows :
  overflow <$> start_pool AlwaysCreate (ProtectFor I64_MAX) [assigned_tape tape1 "p1" 0] = Some [Some tape1; Some tape1]
  /\ overflow <$> start_pool AlwaysCreate (ProtectFor (I64_MAX - 10)) [assigned_tape tape1 "p1" 0] = Some [Some tape1; None].
Proof. vm_compute. split; reflexivity. Qed.

(** The pool of the third test in its session, before and after the first allocation. *)
Definition tapes : db_t := [assigned_tape tape1 "p1" 0; assigned_tape tape2 "p1" 1].
Definition opened : MediaPool :=
  match new_pool ContinueCurrent KeepForever tapes with
  | Ok p => p
  | _ => {| mp_name := ""; mp_media_set_policy := ContinueCurrent; mp_retention := KeepForever; mp_changer_name := None;
            mp_force_media_availability := false; mp_no_media_set_locking := false; mp_encrypt_fingerprint := None;
            mp_inventory := inventory_new; mp_current_media_set := media_set_with_data [] []; mp_current_media_set_lock := false |}
  end.
Lemma pool_opened : new_pool ContinueCurrent KeepForever tapes = Ok opened.
Proof. vm_compute. reflexivity. Qed.
Definition pool : MediaPool := (start_write_session 10 false true true set1 db_ok opened tapes).2.
Definition done_alloc := alloc_writable_media sort_by lockable all_ok 10 tapes tapes pool tapes empty_disk.
Definition pool' : MediaPool := done_alloc.2.1.1.
Definition tapes' : db_t := done_alloc.2.1.2.
Definition disk' : Disk := done_alloc.2.2.
Lemma alloc_ok : alloc_writable_media sort_by lockable all_ok 10 tapes tapes pool tapes empty_disk = (Ok tape1, (pool', tapes', disk')).
Proof.
  assert (H : done_alloc.1 = Ok tape1) by (vm_compute; reflexivity).
  change (done_alloc = (Ok tape1, (pool', tapes', disk'))). unfold pool', tapes', disk'. rewrite <- H.
  by destruct done_alloc as [r [[p db] d]].
Qed.
Lemma session_ok : start_write_session 10 false true true set1 db_ok opened tapes = (Ok None, pool).
Proof.
  assert (H : (start_write_session 10 false true true set1 db_ok opened tapes).1 = Ok None) by (vm_compute; reflexivity).
  unfold pool. rewrite <- H. by destruct (start_write_session _ _ _ _ _ _ _ _).
Qed.
Lemma pool_fresh : mp_inventory pool = fresh_inventory tapes.
Proof. vm_compute. reflexivity. Qed.
Lemma empty_disk_ok : disk_ok empty_disk.
Proof. split; intros p; intros; done. Qed.
Lemma tape1_changed : db_map tapes' !! tape1 <> db_map tapes !! tape1.
Proof. vm_compute. discriminate. Qed.
Lemma tapes_unlabelled u e : db_map tapes !! u = Some e -> mi_media_set_label (me_id e) = None.
Proof.
  intros H. assert (Hall : map_Forall (fun _ e => mi_media_set_label (me_id e) = None) (db_map tapes)).
  { apply map_Forall_insert_2; [done|]. apply map_Forall_insert_2; [done|apply map_Forall_empty]. }
  exact (Hall u e H).
Qed.
Lemma tapes_uuids : map_Forall (fun u _ => uuid_ok u) (db_map tapes).
Proof. apply map_Forall_insert_2; [done|]. apply map_Forall_insert_2; [done|apply map_Forall_empty]. Qed.
Lemma tapes_numbers : seqs_ok (db_map tapes).
Proof. intros u e H. by rewrite (tapes_unlabelled u e H). Qed.
Lemma tapes_generated u : u <> nil_uuid -> generated tapes u.
Proof. intros H. split; [done|]. intros v e n He (set & Hset & _). by rewrite (tapes_unlabelled v e He) in Hset. Qed.
Lemma pool_synced : synced pool tapes empty_disk.
Proof.
  eapply (synced_session 10 false true true set1 db_ok opened tapes empty_disk _ pool); [done|by apply tapes_generated|apply session_ok|].
  eapply synced_new; [by apply (tapes_generated set3)|apply tapes_numbers|apply empty_disk_ok|apply pool_opened].
Qed.

Lemma alloc_takes_permitted_witness :
  exists e dbx, (dbx = tapes \/ dbx = tapes) /\ may_take 10 pool dbx tape1 e.
Proof.
  apply (alloc_takes_permitted sort_by lockable sort_by_perm all_ok 10 tapes tapes pool tapes empty_disk _ _ _ _
           ltac:(rewrite pool_fresh; apply fresh_keyed) empty_disk_ok alloc_ok).
  left. apply tape1_changed.
Defined.
Lemma alloc_again_witness : current_set_usable pool' = Ok true.
Proof.
  apply (alloc_again sort_by lockable sort_by_perm all_ok 10 pool tapes empty_disk tape1 pool' tapes' disk' pool_fresh
           ltac:(vm_compute; discriminate) empty_disk_ok alloc_ok).
Defined.
Lemma alloc_labels_witness : exists e e', db_map tapes !! tape1 = Some e /\ db_map tapes' = <[tape1 := e']> (db_map tapes)
  /\ mi_media_set_label (me_id e') = Some (new_label 10 pool).
Proof.
  destruct (alloc_labels sort_by lockable sort_by_perm all_ok 10 pool tapes empty_disk tape1 pool' tapes' disk' pool_fresh
           empty_disk_ok ltac:(vm_compute; reflexivity) tapes_uuids ltac:(vm_compute; reflexivity)
           ltac:(vm_compute; split; congruence) alloc_ok) as (e & e' & H1 & H2 & _ & H3 & _).
  exists e, e'. split; [exact H1|]. split; [exact H2|exact H3].
Defined.
Lemma guess_agrees_witness :
  match guess_next_writable_media sort_by lockable 10 pool with
  | Ok id => (alloc_writable_media sort_by lockable all_ok 10 tapes tapes pool tapes empty_disk).1 = Ok (ml_uuid (mi_label id))
  | Err _ => exists e, (alloc_writable_media sort_by lockable all_ok 10 tapes tapes pool tapes empty_disk).1 = Err e
  | Panic e => (alloc_writable_media sort_by lockable all_ok 10 tapes tapes pool tapes empty_disk).1 = Panic e
  end.
Proof. apply (guess_agrees sort_by lockable 10 pool tapes empty_disk pool_fresh ltac:(vm_compute; reflexivity)). Defined.
Lemma session_usable_witness : session false set1 opened tapes None pool.
Proof. exact (session_usable 10 false true true set1 db_ok opened tapes None pool session_ok). Defined.
Lemma pool_stays_synced_witness :
  compute_media_set_members (set_uuid (mp_current_media_set pool')) (fresh_inventory tapes') = Ok (mp_current_media_set pool').
Proof.
  apply (pool_stays_synced sort_by lockable sort_by_perm "p1" ContinueCurrent KeepForever None None false true true set3 db_ok
           tapes empty_disk opened pool' tapes' disk' (tapes_generated set3 ltac:(vm_compute; discriminate)) tapes_numbers
           empty_disk_ok pool_opened).
  eapply rtc_l.
  - refine (ps_session _ _ 10 false true true set1 db_ok opened tapes empty_disk _ pool _ _ session_ok); [done|].
    apply (tapes_generated set1). vm_compute. discriminate.
  - apply rtc_once. refine (ps_alloc _ _ all_ok 10 pool tapes empty_disk _ pool' tapes' disk' _ alloc_ok). vm_compute. reflexivity.
Defined.
Lemma pool_reopened_witness :
  set_media (mp_current_media_set pool') = set_media (mp_current_media_set pool) ++ [Some tape1]
  /\ exists p2, pool_new (mp_name pool) ContinueCurrent KeepForever None None false true true set3 db_ok tapes' = Ok p2
                /\ mp_current_media_set p2 = mp_current_media_set pool'.
Proof.
  apply (pool_reopened sort_by lockable sort_by_perm pool tapes empty_disk all_ok 10 tape1 pool' tapes' disk' ContinueCurrent
           KeepForever None None false set3 db_ok pool_synced ltac:(vm_compute; reflexivity) ltac:(vm_compute; reflexivity)); [|apply alloc_ok|done].
  intros set Hset. vm_compute in Hset. by apply not_elem_of_nil in Hset.
Defined.
(** The second tape is younger. *)
Definition media2 : BackupMedia := backup_media (me_id (assigned_tape tape2 "p1" 1)) pool.
Lemma oldest_first_witness : exists id, next_empty_media sort_by (list_media pool) pool = Some id
  /\ not_newer (mi_label id) (mi_label (bm_id media2)).
Proof.
  destruct (next_empty_media sort_by (list_media pool) pool) as [id|] eqn:E; [|vm_compute in E; discriminate].
  exists id. split; [reflexivity|].
  apply (proj1 (oldest_first sort_by lockable sort_by_perm sort_by_sorted 10 pool) id media2 E);
    [|vm_compute; reflexivity..].
  apply list_elem_of_lookup. exists 1%nat. vm_compute. reflexivity.
Defined.
End PoolExample.
