(* ===== verification/PoolWriter.v ===== *)
(** * Writing backups to tape, [src/tape/pool_writer/mod.rs]

    [PoolWriter] writes archives to the media its pool allocates, and registers them in the catalog of the media.
    With [tape_write_catalog] and [tape_write_snapshot_archive] of [src/tape/file_formats].

    The drive is the trait [TapeDriver] of [src/tape/drive/mod.rs]; a writer borrows the drive until it
    is dropped.  Arguments are: the clock, new uuids, JSON texts, outcomes of the operating system, what is read
    from files, the media that was loaded, the encoder of pxar, and the keys that are configured. *)

From S2P Require Import Prelude IndexFile DataBlob Tape ChunkArchive MediaLabel MediaCatalog Inventory MediaPool.
From Stdlib Require Import Strings.Byte.

(** ** [TapeDriver] *)
Class TapeDriver (D T K : Type) := {
  td_sync : D -> res unit * D;
  td_move_to_eom : bool -> D -> res unit * D;
  td_current_file_number : D -> res Z * D;
  td_write_file : D -> res T * D;
  td_end_write : T -> D;
  td_write_media_set_label : MediaSetLabel -> option K -> D -> res unit * D;
  td_eject_media : D -> res unit * D;
  td_tape_alert_flags : D -> res Z * D;
  td_assert_encryption_mode : bool -> D -> res unit * D;
  td_get_volume_statistics : D -> res Z * D;
}.

(** Bits of [TapeAlertFlags]. *)
Definition flag (code : Z) : Z := Z.shiftl 1 (code - 1).
Definition CRITICAL_FLAG_MASK : Z :=
  foldl Z.lor 0 (flag <$> [0x04; 0x06; 0x05; 0x09; 0x0E; 0x10; 0x16; 0x17; 0x1E; 0x1F; 0x21; 0x26; 0x29; 0x2D; 0x34;
                           0x35; 0x36; 0x37; 0x38; 0x39]).
Definition tape_alert_flags_critical (flags : Z) : bool := negb (Z.land flags CRITICAL_FLAG_MASK =? 0).

(** [src/tape/mod.rs] *)
Definition MAX_CHUNK_ARCHIVE_SIZE : Z := 4 * 1024 * 1024 * 1024.
Definition COMMIT_BLOCK_SIZE : Z := 128 * 1024 * 1024 * 1024.

Definition PROXMOX_BACKUP_SNAPSHOT_ARCHIVE_MAGIC_1_1 : list byte := byte_of_Z <$> [218; 22; 21; 208; 17; 226; 154; 98].
Definition PROXMOX_BACKUP_SNAPSHOT_ARCHIVE_MAGIC_1_2 : list byte := byte_of_Z <$> [98; 16; 54; 155; 186; 16; 51; 29].
Definition PROXMOX_BACKUP_CATALOG_ARCHIVE_MAGIC_1_0 : list byte := byte_of_Z <$> [183; 207; 199; 37; 158; 153; 30; 115].
Definition PROXMOX_BACKUP_CATALOG_ARCHIVE_MAGIC_1_1 : list byte := byte_of_Z <$> [179; 236; 113; 240; 173; 236; 2; 96].

(** The error number for a full device. *)
Definition ENOSPC : string := "ENOSPC".

(** ** Copying a file of a size that was asked for before

    [reads] are the results of the calls of [read], then the file is at its end.  The loop ends when
    [remaining] bytes were read; [fuel] bounds the number of rounds. *)
Section copy.
Context {S : Type} (sink : list byte -> S -> res unit * S).
Fixpoint copy_loop (fuel : nat) (remaining : Z) (reads : list (res (list byte))) (s : S) : res unit * S :=
  if remaining =? 0 then (Ok tt, s) else
  match fuel with
  | O => (Panic "fuel", s)
  | Datatypes.S fuel =>
      let '(got, reads) := match reads with [] => (Ok [], []) | r :: reads => (r, reads) end in
      try! data := got for s in
      if remaining <? Z.of_nat (length data) then (Err "file changed while reading", s) else
      let! _, s := sink data s in
      copy_loop fuel (remaining - Z.of_nat (length data)) reads s
  end.
End copy.
(** A file: its size and kind, and what is read. *)
Record FileReads := { fr_size : res Z; fr_regular : bool; fr_reads : list (res (list byte)) }.

(** ** [tape_write_catalog] *)
Section archives.
Context {T : Type} `{TapeWrite T}.

(** The end of the media is not noticed here, only an error of the device. *)
Definition write_data (data : list byte) (t : T) : res unit * T :=
  let! _, t := tw_write_all data t in (Ok tt, t).
Definition finish_archive (result : res unit) (content_uuid : uuid_t) (t : T) : res (option uuid_t) * T :=
  match result with
  | Ok _ => let! _, t := tw_finish false t in (Ok (Some content_uuid), t)
  | Err err =>
      if bool_decide (err = ENOSPC) && tw_logical_end_of_media t
      then let! _, t := tw_finish true t in (Ok None, t)
      else (Err err, t)
  | Panic e => (Panic e, t)
  end.
Definition tape_write_catalog (fuel : nat) (header_json : res (list byte)) (content_uuid : uuid_t) (ctime : Z)
    (version : list byte) (file : FileReads) (t : T) : res (option uuid_t) * T :=
  try! header_data := header_json for t in
  let header := media_header_new version content_uuid ctime (u32 (Z.of_nat (length header_data))) in
  let! leom, t := write_header header header_data t in
  if (leom : bool) then let! _, t := tw_finish true t in (Ok None, t) else
  let '(result, t) :=
    try! file_size := fr_size file for t in
    copy_loop write_data fuel file_size (fr_reads file) t in
  finish_archive result content_uuid t.

(** ** [tape_write_snapshot_archive]

    The encoder of pxar: what it writes for each call, and then its result if all could be written; [enc_finish] is
    [finish] and [close]. *)
Record PxarEncoder := {
  enc_t : Type;
  enc_new : list (list byte) * res enc_t;
  enc_create_file : string -> Z -> enc_t -> list (list byte) * res enc_t;
  enc_write : list byte -> enc_t -> list (list byte) * res enc_t;
  enc_finish : enc_t -> list (list byte) * res enc_t;
}.
(** [PxarTapeWriter]: the end of the media is an error. *)
Definition poll_seq_write (data : list byte) (t : T) : res unit * T :=
  let! leom, t := tw_write_all data t in
  if (leom : bool) then (Err ENOSPC, t) else (Ok tt, t).
Fixpoint put_pieces (pieces : list (list byte)) (t : T) : res unit * T :=
  match pieces with
  | [] => (Ok tt, t)
  | data :: pieces => let! _, t := poll_seq_write data t in put_pieces pieces t
  end.
Definition encode_call {E} (x : list (list byte) * res E) (t : T) : res E * T :=
  let '(pieces, r) := x in
  let! _, t := put_pieces pieces t in (r, t).
(** One piece of a file; the state is that of the encoder and the writer. *)
Definition write_piece (P : PxarEncoder) (data : list byte) (s : enc_t P * T) : res unit * (enc_t P * T) :=
  let '(enc, t) := s in
  let '(r, t) := encode_call (enc_write P data enc) t in
  try! enc := r for (enc, t) in (Ok tt, (enc, t)).
Fixpoint put_files (fuel : nat) (P : PxarEncoder) (files : list (string * res FileReads)) (enc : enc_t P) (t : T)
    : res (enc_t P) * T :=
  match files with
  | [] => (Ok enc, t)
  | (filename, file) :: files =>
      try! file := file for t in
      try! file_size := fr_size file for t in
      if negb (fr_regular file) then (Err "not a regular file", t) else
      let! enc, t := encode_call (enc_create_file P filename file_size enc) t in
      let '(r, (enc, t)) := copy_loop (write_piece P) fuel file_size (fr_reads file) (enc, t) in
      try! _ := r for t in
      put_files fuel P files enc t
  end.
Definition tape_write_snapshot_archive (fuel : nat) (P : PxarEncoder) (header_json : res (list byte)) (root_ns : bool)
    (content_uuid : uuid_t) (ctime : Z) (files : list (string * res FileReads)) (t : T) : res (option uuid_t) * T :=
  try! header_data := header_json for t in
  let version_magic :=
    if root_ns then PROXMOX_BACKUP_SNAPSHOT_ARCHIVE_MAGIC_1_1 else PROXMOX_BACKUP_SNAPSHOT_ARCHIVE_MAGIC_1_2 in
  let header := media_header_new version_magic content_uuid ctime (u32 (Z.of_nat (length header_data))) in
  let '(result, t) :=
    let! leom, t := write_header header header_data t in
    if (leom : bool) then (Err ENOSPC, t) else
    let! enc, t := encode_call (enc_new P) t in
    let! enc, t := put_files fuel P files enc t in
    let! _, t := encode_call (enc_finish P enc) t in
    (Ok tt, t) in
  finish_archive result content_uuid t.

(** [write_chunk_archive] with the writer it leaves, also after an error. *)
Definition caw_tape (t0 : T) (w : ChunkArchiveWriter T) : T :=
  match caw_writer w with Some t => t | None => default t0 (caw_taken w) end.
Definition write_chunk_archive_st (header_json : string -> res (list byte)) (uuid : list byte) (ctime : Z)
    (writer : T) (chunks : list (res (list byte * DataBlob))) (store : string) (max_size : Z)
    : res (archive_result T) * T :=
  let '(r, t0) := caw_new header_json uuid ctime writer store true in
  try! (w, content_uuid) := r for t0 in
  let '(r, w) := archive_loop max_size chunks [] w in
  try! (chunk_list, leom, rest) := r for (caw_tape t0 w) in
  let '(r, w) := caw_finish w in
  try! _ := r for (caw_tape t0 w) in
  (Ok {| ar_chunk_list := chunk_list; ar_uuid := content_uuid; ar_leom := leom; ar_bytes := caw_bytes_written w;
         ar_rest := rest; ar_writer := w |}, caw_tape t0 w).
End archives.

(** ** [PoolWriter] *)
Section pool_writer.
Context {D T K : Type} `{TapeWrite T} `{TapeDriver D T K} (IO : CatalogIo) (N : NsLib).
Context (sort_by : forall A, (A -> A -> comparison) -> list A -> list A) (lockable : uuid_t -> bool).

Record PoolWriterState := {
  ps_drive : D; ps_media_uuid : uuid_t; ps_at_eom : bool; ps_bytes_written_after_sync : Z;
}.
Record PoolWriter := {
  pw_pool : MediaPool;
  pw_status : option PoolWriterState;
  pw_catalog_set : CatalogSet;
  pw_ns_magic : bool;
  pw_used_tapes : gset uuid_t;
}.
Definition set_drive (d : D) (st : PoolWriterState) : PoolWriterState :=
  {| ps_drive := d; ps_media_uuid := ps_media_uuid st; ps_at_eom := ps_at_eom st;
     ps_bytes_written_after_sync := ps_bytes_written_after_sync st |}.
Definition set_at_eom (st : PoolWriterState) : PoolWriterState :=
  {| ps_drive := ps_drive st; ps_media_uuid := ps_media_uuid st; ps_at_eom := true;
     ps_bytes_written_after_sync := ps_bytes_written_after_sync st |}.
Definition set_bytes (n : Z) (st : PoolWriterState) : PoolWriterState :=
  {| ps_drive := ps_drive st; ps_media_uuid := ps_media_uuid st; ps_at_eom := ps_at_eom st;
     ps_bytes_written_after_sync := n |}.
Definition set_pool (p : MediaPool) (w : PoolWriter) : PoolWriter :=
  {| pw_pool := p; pw_status := pw_status w; pw_catalog_set := pw_catalog_set w; pw_ns_magic := pw_ns_magic w;
     pw_used_tapes := pw_used_tapes w |}.
Definition set_status (st : option PoolWriterState) (w : PoolWriter) : PoolWriter :=
  {| pw_pool := pw_pool w; pw_status := st; pw_catalog_set := pw_catalog_set w; pw_ns_magic := pw_ns_magic w;
     pw_used_tapes := pw_used_tapes w |}.
Definition set_catalogs (s : CatalogSet) (w : PoolWriter) : PoolWriter :=
  {| pw_pool := pw_pool w; pw_status := pw_status w; pw_catalog_set := s; pw_ns_magic := pw_ns_magic w;
     pw_used_tapes := pw_used_tapes w |}.
Definition add_used (u : uuid_t) (w : PoolWriter) : PoolWriter :=
  {| pw_pool := pw_pool w; pw_status := pw_status w; pw_catalog_set := pw_catalog_set w; pw_ns_magic := pw_ns_magic w;
     pw_used_tapes := {[u]} ∪ pw_used_tapes w |}.

(** The catalogs of the media of the current set are opened read-only. *)
Fixpoint open_catalogs (oo : uuid_t -> OpenOutcome) (l : list uuid_t) (p : MediaPool) (s : CatalogSet) (d : Disk)
    : res CatalogSet * Disk :=
  match l with
  | [] => (Ok s, d)
  | media_uuid :: l =>
      match pool_lookup_media media_uuid p with
      | Ok media_info =>
          let! c, d := MediaCatalog.open IO N (oo media_uuid) (bm_id media_info) false false d in
          let '(r, s) := append_read_only_catalog c s in
          try! _ := r for d in
          open_catalogs oo l p s d
      | Err e | Panic e => (Panic e, d)
      end
  end.
Definition pw_new (now : Z) (force_media_set ns_magic lock_pool lock_set : bool) (new_uuid : uuid_t) (o : DbOutcome)
    (oo : uuid_t -> OpenOutcome) (pool : MediaPool) (db : db_t) (d : Disk) : res PoolWriter * Disk :=
  let '(r, pool) := start_write_session now force_media_set lock_pool lock_set new_uuid o pool db in
  try! _ := r for d in
  try! l := current_media_list pool for d in
  let! s, d := open_catalogs oo l pool {| cs_set := {| catalog_list := ∅ |}; cs_catalog := None |} d in
  (Ok {| pw_pool := pool; pw_status := None; pw_catalog_set := s; pw_ns_magic := ns_magic; pw_used_tapes := ∅ |}, d).

Definition pw_set_media_status_full (o : DbOutcome) (uuid : uuid_t) (w : PoolWriter) (db : db_t)
    : res unit * (PoolWriter * db_t) :=
  let '(r, (p, db)) := pool_set_status_full o uuid (pw_pool w) db in
  (r, (set_pool p w, db)).

(** The drive first, then the catalog. *)
Definition pw_commit (o : DbOutcome) (co : CommitOutcome) (w : PoolWriter) (db : db_t) (d : Disk)
    : res unit * (PoolWriter * db_t * Disk) :=
  let '(r, (w, db)) :=
    match pw_status w with
    | None => (Ok tt, (w, db))
    | Some st =>
        let '(r, drive) := td_sync (ps_drive st) in
        let st := set_drive drive st in
        try! _ := r for (set_status (Some st) w, db) in
        let st := set_bytes 0 st in
        let '(stats, drive) := td_get_volume_statistics (ps_drive st) in
        let w := set_status (Some (set_drive drive st)) w in
        match stats with
        | Ok used =>
            let '(r, (p, db)) := pool_set_bytes_used o (ps_media_uuid st) (Some used) (pw_pool w) db in
            (r, (set_pool p w, db))
        | Err _ => (Ok tt, (w, db))
        | Panic e => (Panic e, (w, db))
        end
    end in
  try! _ := r for (w, db, d) in
  let '(r, (s, d)) := cs_commit co (pw_catalog_set w) d in
  (r, (set_catalogs s w, db, d)).

Definition prepare_tape_write (st : PoolWriterState) : res Z * PoolWriterState :=
  let! _, st :=
    (if ps_at_eom st then (Ok tt, st) else
     let '(r, drive) := td_move_to_eom true (ps_drive st) in
     let st := set_drive drive st in
     try! _ := r for st in (Ok tt, set_at_eom st)) in
  let '(r, drive) := td_current_file_number (ps_drive st) in
  let st := set_drive drive st in
  try! current_file_number := r for st in
  if current_file_number <? 2 then (Err "got strange file position number from drive", st)
  else (Ok current_file_number, st).

(** ** Archives *)
Record WriteArgs := {
  wa_fuel : nat; wa_uuid : uuid_t; wa_ctime : Z; wa_pad : list byte; wa_clock : bool;
  wa_db : DbOutcome; wa_commit : CommitOutcome;
}.
Definition append_chunk_archive (a : WriteArgs) (json : string -> res (list byte))
    (chunks : list (res (list byte * DataBlob))) (store : string) (w : PoolWriter) (db : db_t) (d : Disk)
    : res (bool * Z * list (res (list byte * DataBlob))) * (PoolWriter * db_t * Disk) :=
  match pw_status w with
  | None => (Err "PoolWriter - no media loaded", (w, db, d))
  | Some st =>
      let '(r, st) := prepare_tape_write st in
      try! current_file_number := r for (set_status (Some st) w, db, d) in
      let '(r, drive) := td_write_file (ps_drive st) in
      try! writer := r for (set_status (Some (set_drive drive st)) w, db, d) in
      let '(r, writer) := write_chunk_archive_st json (wa_uuid a) (wa_ctime a) writer chunks store MAX_CHUNK_ARCHIVE_SIZE in
      let st := set_drive (td_end_write writer) st in
      try! result := r for (set_status (Some st) w, db, d) in
      let bytes := u64 (ps_bytes_written_after_sync st + ar_bytes result) in
      let w := set_status (Some (set_bytes bytes st)) w in
      if negb (wa_clock a) then (Err "second time provided was later than self", (w, db, d)) else
      let request_sync := COMMIT_BLOCK_SIZE <=? bytes in
      let '(r, s) := cs_register_chunk_archive (wa_pad a) (ar_uuid result) current_file_number store
                       (ar_chunk_list result) (pw_catalog_set w) in
      let w := set_catalogs s w in
      try! _ := r for (w, db, d) in
      let! _, s := (if ar_leom result || request_sync then pw_commit (wa_db a) (wa_commit a) w db d else (Ok tt, (w, db, d))) in
      (Ok (ar_leom result, ar_bytes result, ar_rest result), s)
  end.

(** [snapshot]: namespace and snapshot; [root_ns]: whether the namespace is the root; [json]: the header in JSON,
    from the printed snapshot and the name of the datastore. *)
Definition append_snapshot_archive (a : WriteArgs) (P : PxarEncoder) (json : string -> string -> res (list byte)) (root_ns : bool)
    (store : string) (snapshot : ns_snapshot N) (files : list (string * res FileReads)) (w : PoolWriter) (db : db_t) (d : Disk)
    : res (bool * Z) * (PoolWriter * db_t * Disk) :=
  match pw_status w with
  | None => (Err "PoolWriter - no media loaded", (w, db, d))
  | Some st =>
      let '(r, st) := prepare_tape_write st in
      try! current_file_number := r for (set_status (Some st) w, db, d) in
      let '(r, drive) := td_write_file (ps_drive st) in
      try! writer := r for (set_status (Some (set_drive drive st)) w, db, d) in
      let '(r, writer) := tape_write_snapshot_archive (wa_fuel a) P (json (print_ns_and_snapshot N snapshot) store) root_ns
                            (wa_uuid a) (wa_ctime a) files writer in
      let st := set_drive (td_end_write writer) st in
      let w := set_status (Some st) w in
      try! content := r for (w, db, d) in
      let '(r, s) :=
        match content with
        | Some content_uuid =>
            cs_register_snapshot N (wa_pad a) content_uuid current_file_number store snapshot (pw_catalog_set w)
        | None => (Ok tt, pw_catalog_set w)
        end in
      let w := set_catalogs s w in
      try! _ := r for (w, db, d) in
      let bytes_written := tw_bytes_written writer in
      let bytes := u64 (ps_bytes_written_after_sync st + bytes_written) in
      let w := set_status (Some (set_bytes bytes st)) w in
      let request_sync := COMMIT_BLOCK_SIZE <=? bytes in
      let written := bool_decide (is_Some content) in
      let! _, s := (if negb written || request_sync then pw_commit (wa_db a) (wa_commit a) w db d else (Ok tt, (w, db, d))) in
      (Ok (written, bytes_written), s)
  end.

(** The catalog of a media as a file on disk; [reads] says how it is read. *)
Definition open_catalog_file (reads : list byte -> FileReads) (uuid : uuid_t) (d : Disk) : res FileReads :=
  match d_names d !! catalog_path uuid with
  | Some i => Ok (reads (default [] (d_inodes d !! i)))
  | None => Err "No such file or directory"
  end.
Definition catalog_version (w : PoolWriter) : list byte :=
  if pw_ns_magic w then PROXMOX_BACKUP_CATALOG_ARCHIVE_MAGIC_1_1 else PROXMOX_BACKUP_CATALOG_ARCHIVE_MAGIC_1_0.
(** A catalog archive on the drive, at its end. *)
Definition write_catalog (a : WriteArgs) (json : uuid_t -> uuid_t -> Z -> res (list byte)) (reads : list byte -> FileReads)
    (version : list byte) (set_uuid uuid : uuid_t) (seq_nr : Z) (disk : Disk) (st : PoolWriterState)
    : res (option uuid_t) * PoolWriterState :=
  let '(r, drive) := td_write_file (ps_drive st) in
  try! writer := r for (set_drive drive st) in
  match open_catalog_file reads uuid disk with
  | Ok file =>
      let '(r, writer) := tape_write_catalog (wa_fuel a) (json uuid set_uuid seq_nr) (wa_uuid a) (wa_ctime a) version file writer in
      (r, set_drive (td_end_write writer) st)
  | Err e => (Err e, set_drive (td_end_write writer) st)
  | Panic e => (Panic e, set_drive (td_end_write writer) st)
  end.
Definition append_catalog_archive (a : WriteArgs) (json : uuid_t -> uuid_t -> Z -> res (list byte))
    (reads : list byte -> FileReads) (d : Disk) (w : PoolWriter) : res bool * PoolWriter :=
  match pw_status w with
  | None => (Err "PoolWriter - no media loaded", w)
  | Some st =>
      let '(r, st) := prepare_tape_write st in
      let w := set_status (Some st) w in
      try! _ := r for w in
      match cs_catalog (pw_catalog_set w) with
      | None => (Err "append_catalog_archive failed: no catalog - internal error", w)
      | Some c =>
          let media_set := mp_current_media_set (pw_pool w) in
          match last (set_media media_set) with
          | None => (Err "got empty media list - internal error", w)
          | Some None => (Err "got incomplete media list - internal error", w)
          | Some (Some last_uuid) =>
              if negb (bool_decide (last_uuid = mc_uuid c)) then (Err "got wrong media - internal error", w) else
              let seq_nr := Z.of_nat (length (set_media media_set)) - 1 in
              let '(r, st) := write_catalog a json reads (catalog_version w) (set_uuid media_set) last_uuid seq_nr d st in
              let w := set_status (Some st) w in
              try! content := r for w in
              (Ok (bool_decide (is_Some content)), w)
          end
      end
  end.

Fixpoint append_catalogs_loop (a : WriteArgs) (json : uuid_t -> uuid_t -> Z -> res (list byte))
    (reads : list byte -> FileReads) (version : list byte) (set_uuid : uuid_t) (seq_nr : nat) (l : list (option uuid_t))
    (d : Disk) (st : PoolWriterState) : res unit * PoolWriterState :=
  match l with
  | [] => (Ok tt, st)
  | None :: _ => (Err "got incomplete media list - internal error", st)
  | Some uuid :: l =>
      let! content, st := write_catalog a json reads version set_uuid uuid (Z.of_nat seq_nr) d st in
      match content with
      | None => (Err "got EOM while writing start catalog", st)
      | Some _ => append_catalogs_loop a json reads version set_uuid (S seq_nr) l d st
      end
  end.
Definition append_media_set_catalogs (a : WriteArgs) (json : uuid_t -> uuid_t -> Z -> res (list byte))
    (reads : list byte -> FileReads) (d : Disk) (w : PoolWriter) : res unit * PoolWriter :=
  let media_set := mp_current_media_set (pw_pool w) in
  let media_list := set_media media_set in
  if (length media_list <? 2)%nat then (Ok tt, w) else
  match pw_status w with
  | None => (Err "PoolWriter - no media loaded", w)
  | Some st =>
      let '(r, st) := prepare_tape_write st in
      try! _ := r for (set_status (Some st) w) in
      let '(r, st) := append_catalogs_loop a json reads (catalog_version w) (set_uuid media_set) 0
                        (take (length media_list - 1) media_list) d st in
      (r, set_status (Some st) w)
  end.

(** ** Loading media *)
Record LoadArgs := {
  la_alloc : AllocOutcome; la_db1 : db_t; la_db2 : db_t; la_now : Z; la_db : DbOutcome; la_config : bool;
  la_loaded : res (D * MediaId); la_keys : list byte -> res (option K); la_open : OpenOutcome;
  la_commit : CommitOutcome; la_renamed : bool;
}.
Definition new_media_label (a : LoadArgs) (set : MediaSetLabel) (key : option K) (media_id : MediaId) (drive : D) (d : Disk)
    : res (MediaCatalog * bool * D) * Disk :=
  let '(r, drive) := td_write_media_set_label set key drive in
  try! _ := r for d in
  let! c, d := overwrite (la_open a) (la_commit a) (la_renamed a) media_id d in
  (Ok (c, true, drive), d).
Definition update_media_set_label (a : LoadArgs) (old_set : option MediaSetLabel) (media_id : MediaId) (drive : D) (d : Disk)
    : res (MediaCatalog * bool * D) * Disk :=
  match mi_media_set_label media_id with
  | None => (Err "got media without media set - internal error", d)
  | Some new_set =>
      try! key_config :=
        match ms_fingerprint new_set with
        | Some fingerprint =>
            let? key := la_keys a fingerprint in
            match key with Some key => Ok (Some key) | None => Err "unable to find tape encryption key config" end
        | None => Ok None
        end for d in
      match old_set with
      | None => new_media_label a new_set key_config media_id drive d
      | Some label =>
          if bool_decide (ms_uuid new_set = ms_uuid label) then
            if negb (ms_seq_nr new_set =? ms_seq_nr label) then (Err "got media with wrong media sequence number", d) else
            if negb (bool_decide (ms_fingerprint new_set = ms_fingerprint label))
            then (Err "detected changed encryption fingerprint - internal error", d) else
            let! c, d := MediaCatalog.open IO N (la_open a) media_id true false d in
            (Ok (c, false, drive), d)
          else new_media_label a new_set key_config media_id drive d
      end
  end.

(** The media in the drive, if there is one, is ejected; the drive is closed. *)
Definition close_drive (o : DbOutcome) (w : PoolWriter) (db : db_t) : res unit * (PoolWriter * db_t) :=
  match pw_status w with
  | None => (Ok tt, (w, db))
  | Some st =>
      let w := set_status None w in
      let '(stats, drive) := td_get_volume_statistics (ps_drive st) in
      let '(r, (p, db)) :=
        match stats with
        | Ok used => pool_set_bytes_used o (ps_media_uuid st) (Some used) (pw_pool w) db
        | Err _ => (Ok tt, (pw_pool w, db))
        | Panic e => (Panic e, (pw_pool w, db))
        end in
      let w := set_pool p w in
      try! _ := r for (w, db) in
      ((td_eject_media drive).1, (w, db))
  end.
Definition load_writable_media (wa : WriteArgs) (a : LoadArgs) (json : uuid_t -> uuid_t -> Z -> res (list byte))
    (reads : list byte -> FileReads) (w : PoolWriter) (db : db_t) (d : Disk) : res uuid_t * (PoolWriter * db_t * Disk) :=
  let last_media_uuid := ps_media_uuid <$> pw_status w in
  let '(r, (p, db, d)) :=
    alloc_writable_media sort_by lockable (la_alloc a) (la_now a) (la_db1 a) (la_db2 a) (pw_pool w) db d in
  let w := set_pool p w in
  try! media_uuid := r for (w, db, d) in
  match pool_lookup_media media_uuid p with
  | Err e | Panic e => (Panic e, (w, db, d))
  | Ok media =>
      if bool_decide (last_media_uuid = Some media_uuid) then (Ok media_uuid, (add_used media_uuid w, db, d)) else
      let '(r, (w, db)) := close_drive (la_db a) w db in
      try! _ := r for (w, db, d) in
      if negb (la_config a) then (Err "unable to read drive configuration", (w, db, d)) else
      try! (drive, old_media_id) := la_loaded a for (w, db, d) in
      let '(flags, drive) := td_tape_alert_flags drive in
      if match flags with Ok f => negb (f =? 0) && tape_alert_flags_critical f | _ => false end then
        let '(r, (p, db)) := pool_set_status_damaged (la_db a) media_uuid (pw_pool w) db in
        let w := set_pool p w in
        try! _ := r for (w, db, d) in
        (Err "aborting due to critical tape alert flags", (w, db, d))
      else
      let '(r, d) := update_media_set_label a (mi_media_set_label old_media_id) (bm_id media) drive d in
      try! (c, is_new_media, drive) := r for (w, db, d) in
      let '(r, s) := cs_append_catalog c (pw_catalog_set w) in
      let w := set_catalogs s w in
      try! _ := r for (w, db, d) in
      match mi_media_set_label (bm_id media) with
      | None => (Panic "unwrap on None", (w, db, d))
      | Some set =>
          let '(r, drive) := td_assert_encryption_mode (bool_decide (is_Some (ms_fingerprint set))) drive in
          try! _ := r for (w, db, d) in
          let w := set_status (Some {| ps_drive := drive; ps_media_uuid := media_uuid; ps_at_eom := false;
                                       ps_bytes_written_after_sync := 0 |}) w in
          let '(r, w) := (if (is_new_media : bool) then append_media_set_catalogs wa json reads d w else (Ok tt, w)) in
          try! _ := r for (w, db, d) in
          (Ok media_uuid, (add_used media_uuid w, db, d))
      end
  end.
End pool_writer.
Arguments PoolWriterState : clear implicits.
Arguments PoolWriter : clear implicits.
Arguments LoadArgs : clear implicits.
