(* ===== verification/PoolWriterSpec.v ===== *)
(** * Correctness of writing to tape

    A snapshot archive holds each of its files as a whole; copying ends if and only if a file delivers its size.
    The catalog on disk lists only what is on tape: whatever operation fails, and
    however it fails, what is found in the catalog afterwards is in files that have been synced. *)

From S2P Require Import Prelude IndexFile DataBlob DataBlobSpec Tape TapeSpec ChunkArchive ChunkArchiveSpec MediaLabel MediaCatalog MediaCatalogSpec Inventory InventorySpec MediaPool MediaPoolSpec PoolWriter.
From Stdlib Require Import Strings.Byte.

(** ** Copying *)
Section copy.
Context {S : Type} (sink : list byte -> S -> res unit * S).

(** [ds] are taken one after the other. *)
Inductive sinks : list (list byte) -> S -> S -> Prop :=
| sinks_nil s : sinks [] s s
| sinks_cons d ds s s1 s2 : sink d s = (Ok tt, s1) -> sinks ds s1 s2 -> sinks (d :: ds) s s2.

(** A file that has become shorter: the loop does not succeed, and if the device has no errors it does not end. *)
Lemma copy_loop_short fuel : forall size ds s r s',
  copy_loop sink fuel size (Ok <$> ds) s = (r, s') -> Z.of_nat (length (concat ds)) < size ->
  is_ok r = false /\ ((forall d s, (sink d s).1 = Ok tt) -> r = Panic "fuel").
Proof.
  induction fuel as [|fuel IH]; intros size ds s r s'; cbn [copy_loop].
  { intros E Hl. rewrite (proj2 (Z.eqb_neq _ _)) in E by lia. by injection E as <- <-. }
  intros E Hl. rewrite (proj2 (Z.eqb_neq size 0)) in E by lia.
  assert (exists d ds', match Ok <$> ds with [] => (Ok [], []) | r :: reads => (r, reads) end = (Ok d, Ok <$> ds') /\
    concat ds = d ++ concat ds') as (d & ds' & E' & Hc) by (destruct ds as [|d ds]; [by exists [], []|by exists d, ds]).
  rewrite E' in E. rewrite Hc, length_app in Hl. rewrite (proj2 (Z.ltb_ge _ _)) in E by lia.
  destruct (sink d s) as [r1 s1] eqn:Es. destruct r1 as [[]| |].
  - apply IH in E; [done|lia].
  - injection E as <- <-. split; [done|]. intros H. specialize (H d s). by rewrite Es in H.
  - injection E as <- <-. split; [done|]. intros H. specialize (H d s). by rewrite Es in H.
Qed.

(** The loop succeeds only with as many bytes as the size of the file. *)
Lemma copy_loop_ok fuel : forall size reads s s',
  copy_loop sink fuel size reads s = (Ok tt, s') ->
  exists ds more, reads = (Ok <$> ds) ++ more /\ Z.of_nat (length (concat ds)) = size /\ sinks ds s s'.
Proof.
  induction fuel as [|fuel IH]; intros size reads s s' E; pose proof E as E0; cbn [copy_loop] in E;
    (destruct (Z.eqb_spec size 0) as [->|Hne]; [injection E as <-; exists [], reads; repeat split; constructor|]); [done|].
  destruct reads as [|[data| |] reads]; try done.
  - destruct (size <? _) eqn:El in E; [done|]. apply Z.ltb_ge in El. cbn [length] in El.
    destruct (copy_loop_short (Datatypes.S fuel) size [] s (Ok tt) s' E0); [cbn; lia|done].
  - destruct (size <? Z.of_nat (length data)); [done|].
    destruct (sink data s) as [[[]| |] s1] eqn:Es; [|done..]. apply IH in E as (ds & more & -> & Hs & Hk).
    exists (data :: ds), more. cbn [fmap list_fmap concat]. rewrite length_app. repeat split; [lia|by econstructor].
Qed.

(** It does succeed when the reads deliver them. *)
Lemma copy_loop_sinks ds more : forall fuel s s',
  sinks ds s s' -> Forall (.≠ []) ds -> (length ds <= fuel)%nat ->
  copy_loop sink fuel (Z.of_nat (length (concat ds))) ((Ok <$> ds) ++ more) s = (Ok tt, s').
Proof.
  induction ds as [|d ds IH]; intros fuel s s' Hs Hne Hf; inversion Hs as [|???? ? Ex]; subst; [by destruct fuel|].
  apply Forall_cons in Hne as [Hd Hne]. destruct fuel as [|fuel]; cbn [length] in Hf; [lia|].
  cbn [copy_loop fmap list_fmap app concat]. rewrite length_app. assert (length d <> 0)%nat by (by destruct d).
  rewrite (proj2 (Z.eqb_neq _ 0)), (proj2 (Z.ltb_ge _ _)) by lia. rewrite Ex.
  replace (_ - _) with (Z.of_nat (length (concat ds))) by lia. apply IH; [done|done|lia].
Qed.
(** A read that delivers more than was left. *)
Lemma copy_loop_grown ds d more fuel s s' size :
  sinks ds s s' -> Forall (.≠ []) ds -> (length ds < fuel)%nat ->
  Z.of_nat (length (concat ds)) < size < Z.of_nat (length (concat ds ++ d)) ->
  copy_loop sink fuel size ((Ok <$> ds) ++ Ok d :: more) s = (Err "file changed while reading", s').
Proof.
  revert fuel s size. induction ds as [|x ds IH]; intros fuel s size Hs Hne Hf Hsz; inversion Hs as [|???? ? Ex]; subst;
    (destruct fuel as [|fuel]; cbn [length] in Hf; [lia|]); cbn [copy_loop fmap list_fmap app concat] in *.
  - cbn [length] in Hsz. by rewrite (proj2 (Z.eqb_neq _ 0)), (proj2 (Z.ltb_lt _ _)) by lia.
  - apply Forall_cons in Hne as [Hd Hne]. rewrite !length_app in Hsz.
    rewrite (proj2 (Z.eqb_neq _ 0)), (proj2 (Z.ltb_ge _ _)) by lia. rewrite Ex.
    apply IH; [done|done|lia|]. rewrite length_app. lia.
Qed.

(** Whatever happens, the state is one that the sink left. *)
Lemma copy_loop_inv (B : S -> Prop) fuel :
  (forall d s r s', B s -> sink d s = (r, s') -> B s') -> forall size reads s r s',
  B s -> copy_loop sink fuel size reads s = (r, s') -> B s'.
Proof.
  intros HB. induction fuel as [|fuel IH]; intros size reads s r s' Hs; cbn [copy_loop].
  { destruct (size =? 0); by intros [= <- <-]. }
  destruct (size =? 0); [by intros [= <- <-]|].
  destruct (match reads with [] => (Ok [], []) | r :: reads => (r, reads) end) as [got reads'].
  destruct got as [data| |]; [|by intros [= <- <-]..]. destruct (size <? _); [by intros [= <- <-]|].
  destruct (sink data s) as [r1 s1] eqn:E. pose proof (HB _ _ _ _ Hs E). destruct r1; [by apply IH|by intros [= <- <-]..].
Qed.
End copy.

(** ** What is written to a snapshot archive *)
Section pxar.
Context (P : PxarEncoder).
(** The output of the encoder for a file that is passed to it in pieces, and for a list of files. *)
Inductive file_encoded : enc_t P -> list (list byte) -> enc_t P -> list byte -> Prop :=
| fe_nil e : file_encoded e [] e []
| fe_cons e d ds e1 p e2 out :
    enc_write P d e = (p, Ok e1) -> file_encoded e1 ds e2 out -> file_encoded e (d :: ds) e2 (concat p ++ out).
Inductive files_encoded : enc_t P -> list (string * list byte) -> enc_t P -> list byte -> Prop :=
| fse_nil e : files_encoded e [] e []
| fse_cons e name ds e1 p e2 out1 files e3 out2 :
    enc_create_file P name (Z.of_nat (length (concat ds))) e = (p, Ok e1) -> file_encoded e1 ds e2 out1 ->
    files_encoded e2 files e3 out2 ->
    files_encoded e ((name, concat ds) :: files) e3 (concat p ++ out1 ++ out2).
(** [body] is an archive of [files]. *)
Definition snapshot_encoded (files : list (string * list byte)) (body : list byte) : Prop :=
  exists e0 p0 e1 out e2 p2, enc_new P = (p0, Ok e0) /\ files_encoded e0 files e1 out /\
    enc_finish P e1 = (p2, Ok e2) /\ body = concat p0 ++ out ++ concat p2.
End pxar.
(** A regular file with this name and content: the content is what was read, and has the size of the file. *)
Definition delivers (f : string * res FileReads) (content : string * list byte) : Prop :=
  exists file ds more, f.2 = Ok file /\ f.1 = content.1 /\ fr_regular file = true /\
    fr_size file = Ok (Z.of_nat (length content.2)) /\ content.2 = concat ds /\ fr_reads file = (Ok <$> ds) ++ more.

Section archives.
Context {T : Type} `{TapeWriteLaws T}.

Lemma write_header_ok h data (t : T) l t' :
  tw_stream [] t -> write_header h data t = (Ok l, t') ->
  mh_size h = Z.of_nat (length data) /\ tw_stream (media_header_bytes h ++ data) t'.
Proof.
  intros Hs. unfold write_header. destruct (Z.eqb_spec (mh_size h) (Z.of_nat (length data))) as [Hz|]; [|done]. cbn [negb].
  destruct (tw_write_all _ t) as [[l1| |] t1] eqn:E; [|done..]. apply (tw_write_all_ok _ _ _ _ _ Hs) in E.
  destruct (Z.eqb_spec (Z.of_nat (length data)) 0) as [Hl|Hl].
  - intros [= <- <-]. split; [done|]. destruct data; [|done]. by rewrite app_nil_r.
  - intros E2. split; [done|]. by apply (tw_write_all_ok _ _ _ _ _ E) in E2.
Qed.
Lemma poll_seq_write_ok d data (t t' : T) :
  tw_stream d t -> poll_seq_write data t = (Ok tt, t') -> tw_stream (d ++ data) t'.
Proof.
  intros Hs. unfold poll_seq_write. destruct (tw_write_all data t) as [[[]| |] t1] eqn:E; [done| |done..].
  intros [= <-]. by apply (tw_write_all_ok _ _ _ _ _ Hs) in E.
Qed.
Lemma put_pieces_ok pieces : forall d (t t' : T),
  tw_stream d t -> put_pieces pieces t = (Ok tt, t') -> tw_stream (d ++ concat pieces) t'.
Proof.
  induction pieces as [|x pieces IH]; intros d t t' Hs; cbn [put_pieces concat].
  - intros [= <-]. by rewrite app_nil_r.
  - destruct (poll_seq_write x t) as [[[]| |] t1] eqn:E; [|done..]. apply (poll_seq_write_ok _ _ _ _ Hs) in E.
    rewrite app_assoc. by apply IH.
Qed.
Lemma encode_call_ok {E} (x : list (list byte) * res E) d (t : T) e t' :
  tw_stream d t -> encode_call x t = (Ok e, t') -> exists pieces, x = (pieces, Ok e) /\ tw_stream (d ++ concat pieces) t'.
Proof.
  intros Hs. unfold encode_call. destruct x as [pieces r].
  destruct (put_pieces pieces t) as [[[]| |] t1] eqn:Ep; [|done..]. intros [= -> <-]. exists pieces.
  split; [done|]. by apply (put_pieces_ok _ _ _ _ Hs) in Ep.
Qed.
Lemma file_sinks P ds : forall d e (t : T) s',
  tw_stream d t -> sinks (write_piece P) ds (e, t) s' ->
  exists out, file_encoded P e ds s'.1 out /\ tw_stream (d ++ out) s'.2.
Proof.
  induction ds as [|x ds IH]; intros d e t s' Hs Hk; inversion Hk as [|???[e1 t1]? Ex Hk']; subst.
  - exists []. rewrite app_nil_r. split; [constructor|done].
  - unfold write_piece in Ex. destruct (encode_call (enc_write P x e) t) as [[e2| |] t2] eqn:Ee; [|done..].
    injection Ex as <- <-. destruct (encode_call_ok _ _ _ _ _ Hs Ee) as (p & Ew & Hs1).
    destruct (IH _ _ _ _ Hs1 Hk') as (out & Hf & Hs2). exists (concat p ++ out).
    rewrite app_assoc. split; [by econstructor|done].
Qed.
Lemma put_files_ok P fuel files : forall d e (t : T) e' t',
  tw_stream d t -> put_files fuel P files e t = (Ok e', t') ->
  exists contents out, Forall2 delivers files contents /\ files_encoded P e contents e' out /\ tw_stream (d ++ out) t'.
Proof.
  induction files as [|[name file] files IH]; intros d e t e' t' Hs; cbn [put_files].
  { intros [= <- <-]. exists [], []. rewrite app_nil_r. split_and!; [constructor..|done]. }
  destruct file as [file| |]; [|done..]. destruct (fr_size file) as [size| |] eqn:Esz; [|done..].
  destruct (fr_regular file) eqn:Er; [|done]. cbn [negb].
  destruct (encode_call _ t) as [[e1| |] t1] eqn:Ec; [|done..].
  destruct (encode_call_ok _ _ _ _ _ Hs Ec) as (p & Ep & Hs1).
  destruct (copy_loop _ fuel size _ _) as [[[]| |] [e2 t2]] eqn:El; [|done..].
  apply copy_loop_ok in El as (ds & more & Hr & Hsz & Hk).
  destruct (file_sinks _ _ _ _ _ _ Hs1 Hk) as (out1 & Hf & Hs2). cbn [fst snd] in *. intros Ef.
  destruct (IH _ _ _ _ _ Hs2 Ef) as (contents & out2 & Hd & Hfs & Hs3).
  exists ((name, concat ds) :: contents), (concat p ++ out1 ++ out2). subst size. split_and!.
  - constructor; [|done]. by exists file, ds, more.
  - by econstructor.
  - by rewrite !app_assoc in *.
Qed.

(** An archive that is reported as complete. *)
Lemma snapshot_archive_written fuel P json root_ns uuid ctime files (t : T) u t' :
  tw_stream [] t -> tape_write_snapshot_archive fuel P json root_ns uuid ctime files t = (Ok (Some u), t') ->
  u = uuid /\ exists header_data contents body, json = Ok header_data /\
    Forall2 delivers files contents /\ snapshot_encoded P contents body /\
    tw_closed (media_header_bytes (media_header_new
      (if root_ns then PROXMOX_BACKUP_SNAPSHOT_ARCHIVE_MAGIC_1_1 else PROXMOX_BACKUP_SNAPSHOT_ARCHIVE_MAGIC_1_2)
      uuid ctime (Z.of_nat (length header_data))) ++ header_data ++ body) false t'.
Proof.
  intros Hs. unfold tape_write_snapshot_archive. destruct json as [hd| |]; [|done..].
  set (magic := if root_ns then _ else _).
  set (m := let! leom, t := write_header _ hd t in _). destruct m as [r1 t1] eqn:Em. unfold m in Em. clear m.
  unfold finish_archive. destruct r1 as [[]|err|]; [| |done].
  2:{ destruct (_ && _); [|done]. by destruct (tw_finish true t1) as [[]]. }
  destruct (tw_finish false t1) as [[l| |] t2] eqn:Ef; [|done..]. intros [= <- <-]. split; [done|].
  destruct (write_header _ hd t) as [[[]| |] t3] eqn:Eh; [done| |done..].
  destruct (write_header_ok _ _ _ _ _ Hs Eh) as [Hz Hs3]. cbn [mh_size media_header_new] in Hz. rewrite Hz in Hs3.
  destruct (encode_call (enc_new P) t3) as [[e0| |] t4] eqn:E4; [|done..].
  destruct (encode_call_ok _ _ _ _ _ Hs3 E4) as (p0 & Ep0 & Hs4).
  destruct (put_files fuel P files e0 t4) as [[e1| |] t5] eqn:E5; [|done..].
  destruct (put_files_ok _ _ _ _ _ _ _ _ Hs4 E5) as (contents & out & Hd & Hfe & Hs5).
  destruct (encode_call (enc_finish P e1) t5) as [[e2| |] t6] eqn:E6; [|done..]. injection Em as <-.
  destruct (encode_call_ok _ _ _ _ _ Hs5 E6) as (p2 & Ep2 & Hs6).
  exists hd, contents, (concat p0 ++ out ++ concat p2). split_and!; [done|done| |].
  - by exists e0, p0, e1, out, e2, p2.
  - rewrite <- !app_assoc in Hs6. by eapply tw_finish_ok.
Qed.

Lemma data_sinks ds : forall d (t t' : T), tw_stream d t -> sinks write_data ds t t' -> tw_stream (d ++ concat ds) t'.
Proof.
  induction ds as [|x ds IH]; intros d t t' Hs Hk; inversion Hk as [|? ? ? t1 ? Ex Hk']; subst; cbn [concat].
  - by rewrite app_nil_r.
  - unfold write_data in Ex. destruct (tw_write_all x t) as [[l| |] t2] eqn:E; [|done..]. injection Ex as <-.
    rewrite app_assoc. apply (IH _ t2); [by eapply tw_write_all_ok|done].
Qed.
Lemma catalog_archive_written fuel json uuid ctime version file (t : T) u t' :
  tw_stream [] t -> tape_write_catalog fuel json uuid ctime version file t = (Ok (Some u), t') ->
  u = uuid /\ exists header_data ds more, json = Ok header_data /\ fr_reads file = (Ok <$> ds) ++ more /\
    fr_size file = Ok (Z.of_nat (length (concat ds))) /\
    tw_closed (media_header_bytes (media_header_new version uuid ctime (Z.of_nat (length header_data))) ++
               header_data ++ concat ds) false t'.
Proof.
  intros Hs. unfold tape_write_catalog. destruct json as [hd| |]; [|done..].
  destruct (write_header _ hd t) as [[leom| |] t1] eqn:Eh; [|done..].
  destruct (write_header_ok _ _ _ _ _ Hs Eh) as [Hz Hs1]. cbn [mh_size media_header_new] in Hz. rewrite Hz in Hs1.
  destruct leom; [by destruct (tw_finish true t1) as [[]]|].
  destruct (fr_size file) as [size| |]; [| |done].
  2:{ unfold finish_archive. destruct (_ && _); [|done]. by destruct (tw_finish true t1) as [[]]. }
  destruct (copy_loop write_data fuel size (fr_reads file) t1) as [r t2] eqn:El. unfold finish_archive.
  destruct r as [[]| |]; [| |done].
  2:{ destruct (_ && _); [|done]. by destruct (tw_finish true t2) as [[]]. }
  destruct (tw_finish false t2) as [[l| |] t3] eqn:Ef; [|done..]. intros [= <- <-]. split; [done|].
  apply copy_loop_ok in El as (ds & more & Er & Hsz & Hk). exists hd, ds, more. split_and!; [done|done|by rewrite Hsz|].
  rewrite app_assoc. eapply tw_finish_ok; [|done]. by eapply data_sinks.
Qed.
End archives.

(** ** The drive *)
Inductive tape_file := Closed (data : list byte) (incomplete : bool) | Unfinished.

(** What the code relies on.  [td_files] are the files on the tape, the first [td_durable] of them would be
    found after a loss of power; [td_at_end] says that the position is behind the last one.
    [tw_base] is the drive when a file was begun. *)
Class TapeDriverLaws (D T K : Type) `{TapeWriteLaws T} `{!TapeDriver D T K} := {
  td_files : D -> list tape_file;
  td_durable : D -> nat;
  td_at_end : D -> Prop;
  tw_base : T -> D;
  kept d d' := td_files d `prefix_of` td_files d' /\ (td_durable d <= td_durable d')%nat;
  td_sync_law d r d' : td_sync d = (r, d') ->
    td_files d' = td_files d /\ (td_durable d <= td_durable d')%nat /\ (td_at_end d -> td_at_end d') /\
    (r = Ok tt -> td_durable d' = length (td_files d'));
  td_statistics_law d r d' : td_get_volume_statistics d = (r, d') ->
    td_files d' = td_files d /\ td_durable d' = td_durable d /\ (td_at_end d -> td_at_end d');
  td_eom_law append d r d' : td_move_to_eom append d = (r, d') ->
    td_files d' = td_files d /\ td_durable d' = td_durable d /\ (r = Ok tt -> td_at_end d');
  td_position_law d r d' : td_current_file_number d = (r, d') ->
    td_files d' = td_files d /\ td_durable d' = td_durable d /\ (td_at_end d -> td_at_end d') /\
    (forall n, td_at_end d -> r = Ok n -> n = Z.of_nat (length (td_files d)) /\ n < U64_MAX);
  td_write_file_law d r d' : td_write_file d = (r, d') -> td_at_end d ->
    kept d d' /\ (forall t, r = Ok t -> tw_base t = d /\ tw_stream [] t);
  tw_write_all_base x t r t' : tw_write_all x t = (r, t') -> tw_base t' = tw_base t;
  tw_finish_base inc t r t' : tw_finish inc t = (r, t') -> tw_base t' = tw_base t;
  td_end_write_kept t : kept (tw_base t) (td_end_write t);
  td_end_write_finished inc t l t' : tw_finish inc t = (Ok l, t') -> td_at_end (td_end_write t');
  td_end_write_closed t data inc : tw_closed data inc t ->
    td_at_end (td_end_write t) /\ td_files (td_end_write t) = td_files (tw_base t) ++ [Closed data inc];
}.

Section base.
Context {D T K : Type} `{TapeDriverLaws D T K}.
Implicit Types (t : T) (b : D).

(** A computation on a writer, whatever its outcome, leaves a writer for the same file. *)
Definition same_file {A} (m : T -> res A * T) : Prop := forall b t r t', tw_base t = b -> m t = (r, t') -> tw_base t' = b.

Lemma same_write_all x : same_file (tw_write_all x).
Proof. intros b t r t' <- E. by eapply tw_write_all_base. Qed.
Lemma same_finish inc : same_file (tw_finish inc).
Proof. intros b t r t' <- E. by eapply tw_finish_base. Qed.
Lemma same_bind {A B} (m : T -> res A * T) (k : A -> T -> res B * T) :
  same_file m -> (forall x, same_file (k x)) -> same_file (fun t => let! x, t := m t in k x t).
Proof.
  intros Hm Hk b t r t' Hb. destruct (m t) as [r1 t1] eqn:E. pose proof (Hm _ _ _ _ Hb E) as Hb1.
  destruct r1 as [x| |]; [by apply Hk|by intros [= <- <-]..].
Qed.
Lemma same_ret {A} (r : res A) : same_file (fun t => (r, t)).
Proof. by intros b t r' t' Hb [= <- <-]. Qed.
Lemma same_try {A B} (r : res A) (k : A -> T -> res B * T) :
  (forall x, same_file (k x)) -> same_file (fun t => try! x := r for t in k x t).
Proof. intros Hk b t r' t' Hb. destruct r as [x| |]; [by apply Hk|by intros [= <- <-]..]. Qed.
Lemma same_if {A} (c : bool) (m1 m2 : T -> res A * T) :
  same_file m1 -> same_file m2 -> same_file (fun t => if c then m1 t else m2 t).
Proof. by destruct c. Qed.

Lemma same_write_header h data : same_file (write_header h data).
Proof.
  unfold write_header. apply same_if; [apply same_ret|]. apply same_bind; [apply same_write_all|]. intros l.
  apply same_if; [apply same_ret|apply same_write_all].
Qed.
Lemma same_poll data : same_file (poll_seq_write data).
Proof. unfold poll_seq_write. apply same_bind; [apply same_write_all|]. intros l. apply same_if; apply same_ret. Qed.
Lemma same_pieces pieces : same_file (put_pieces pieces).
Proof.
  induction pieces as [|x pieces IH]; [apply same_ret|]. cbn [put_pieces]. apply same_bind; [apply same_poll|done].
Qed.
Lemma same_encode {E} (x : list (list byte) * res E) : same_file (encode_call x).
Proof. destruct x as [pieces r]. apply same_bind; [apply same_pieces|intros _; apply same_ret]. Qed.
Lemma same_files fuel P files : forall e, same_file (put_files fuel P files e).
Proof.
  induction files as [|[name file] files IH]; intros e; cbn [put_files]; [apply same_ret|].
  apply same_try. intros f. apply same_try. intros size. apply same_if; [apply same_ret|].
  apply same_bind; [apply same_encode|]. intros e1 b t r t' Hb.
  destruct (copy_loop _ _ _ _ _) as [r1 [e2 t2]] eqn:El.
  apply (copy_loop_inv _ (fun s => tw_base s.2 = b)) in El; [| |done].
  - cbn in El. destruct r1 as [[]| |]; [by apply IH|by intros [= <- <-]..].
  - intros d [e3 t3] r3 [e4 t4] Hb3. unfold write_piece. destruct (encode_call _ t3) as [r5 t5] eqn:Ee.
    apply (same_encode _ _ _ _ _ Hb3) in Ee. destruct r5; by intros [= <- <- <-].
Qed.
Lemma same_finish_archive r u : same_file (finish_archive r u).
Proof.
  unfold finish_archive. destruct r as [[]| |]; [| |apply same_ret].
  - apply same_bind; [apply same_finish|]. intros _. apply same_ret.
  - intros b t r t'. destruct (_ && _); [|apply (same_ret (Err e))].
    apply (same_bind (tw_finish true) (fun _ t => (Ok None, t))); [apply same_finish|intros _; apply same_ret].
Qed.
Lemma same_catalog fuel json u ctime version file : same_file (tape_write_catalog fuel json u ctime version file).
Proof.
  unfold tape_write_catalog. apply same_try. intros hd. apply same_bind; [apply same_write_header|]. intros leom.
  apply same_if; [apply same_bind; [apply same_finish|intros _; apply same_ret]|].
  intros b t r t' Hb. destruct (fr_size file) as [size| |]; try (by apply same_finish_archive).
  destruct (copy_loop _ _ _ _ _) as [r1 t1] eqn:El. apply same_finish_archive.
  apply (copy_loop_inv _ (fun t => tw_base t = b)) in El; [done| |done].
  intros d t2 r2 t3 Hb2. apply (same_bind (tw_write_all d) (fun _ t => (Ok tt, t)));
    [apply same_write_all|intros _; apply same_ret|done].
Qed.
Lemma same_snapshot fuel P json root_ns u ctime files :
  same_file (tape_write_snapshot_archive fuel P json root_ns u ctime files).
Proof.
  unfold tape_write_snapshot_archive. apply same_try. intros hd b t r t' Hb.
  set (h := media_header_new _ _ _ _).
  assert (same_file (fun t => let! leom, t := write_header h hd t in
    if (leom : bool) then (Err ENOSPC, t) else let! enc, t := encode_call (enc_new P) t in
    let! enc, t := put_files fuel P files enc t in let! _, t := encode_call (enc_finish P enc) t in (Ok tt, t))) as Hm.
  { apply same_bind; [apply same_write_header|]. intros leom. apply same_if; [apply same_ret|].
    apply same_bind; [apply same_encode|]. intros e. apply same_bind; [apply same_files|]. intros e1.
    apply same_bind; [apply same_encode|]. intros _. apply same_ret. }
  set (m := let! leom, t := write_header h hd t in _). destruct m as [r1 t1] eqn:Em.
  apply same_finish_archive. by apply (Hm b t r1 t1).
Qed.

(** An archive that was finished leaves the drive at the end. *)
Lemma finish_archive_at_end r u (t : T) c t' : finish_archive r u t = (Ok c, t') -> td_at_end (td_end_write t').
Proof.
  unfold finish_archive. destruct r as [[]| |]; [| |done].
  - destruct (tw_finish false t) as [[l| |] t1] eqn:E; [|done..]. intros [= _ <-]. by eapply td_end_write_finished.
  - destruct (_ && _); [|done]. destruct (tw_finish true t) as [[l| |] t1] eqn:E; [|done..].
    intros [= _ <-]. by eapply td_end_write_finished.
Qed.
Lemma snapshot_at_end fuel P json root_ns u ctime files (t : T) c t' :
  tape_write_snapshot_archive fuel P json root_ns u ctime files t = (Ok c, t') -> td_at_end (td_end_write t').
Proof.
  unfold tape_write_snapshot_archive. destruct json; [|done..]. case_match. apply finish_archive_at_end.
Qed.
Lemma catalog_at_end fuel json u ctime version file (t : T) c t' :
  tape_write_catalog fuel json u ctime version file t = (Ok c, t') -> td_at_end (td_end_write t').
Proof.
  unfold tape_write_catalog. destruct json; [|done..]. destruct (write_header _ _ t) as [[[]| |] t1]; [| |done..].
  - destruct (tw_finish true t1) as [[l| |] t2] eqn:E; [|done..]. intros [= _ <-]. by eapply td_end_write_finished.
  - case_match. apply finish_archive_at_end.
Qed.

(** ** Chunk archives: the writers of [ChunkArchiveWriter] are for the same file *)
Definition caw_base (b : D) (w : ChunkArchiveWriter T) : Prop :=
  forall t, caw_writer w = Some t \/ caw_taken w = Some t -> tw_base t = b.
Lemma caw_write_all_base b x w r w' : caw_base b w -> caw_write_all x w = (r, w') -> caw_base b w'.
Proof.
  intros Hw. unfold caw_write_all. destruct (caw_writer w) as [t|] eqn:Et; [|by intros [= <- <-]].
  destruct (tw_write_all x t) as [r1 t1] eqn:E. intros [= <- <-] t2 [[= <-]|Ht]; [|apply Hw; by right].
  apply (same_write_all _ _ _ _ _ (Hw t (or_introl Et)) E).
Qed.
Lemma caw_take_base b (t : T) n w : tw_base t = b -> caw_base b (caw_take t n w).
Proof. intros Hb t1 [|[= <-]]; done. Qed.
Lemma chunk_loop_base b fuel data : forall start w r w', caw_base b w -> chunk_loop fuel data start w = (r, w') -> caw_base b w'.
Proof.
  induction fuel as [|fuel IH]; intros start w r w' Hw; cbn [chunk_loop];
    (destruct (_ <=? start); [by intros [= <- <-]|]); [by intros [= <- <-]|].
  destruct (slice _ _ _) as [piece| |]; [|by intros [= <- <-]..].
  destruct (caw_write_all piece w) as [r1 w1] eqn:E. pose proof (caw_write_all_base _ _ _ _ _ Hw E) as Hw1.
  destruct r1 as [leom| |]; [|by intros [= <- <-]..]. destruct (leom && _); [|by apply IH].
  destruct (caw_writer w1) as [t|] eqn:Et; cbn [unwrap]; [|by intros [= <- <-]].
  destruct (tw_finish false t) as [r2 t2] eqn:Ef.
  apply (same_finish _ _ _ _ _ (Hw1 t (or_introl Et))) in Ef. destruct r2; intros [= <- <-]; by apply caw_take_base.
Qed.
Lemma try_write_chunk_base b d blob w r w' : caw_base b w -> try_write_chunk d blob w = (r, w') -> caw_base b w'.
Proof.
  intros Hw. unfold try_write_chunk. destruct (caw_writer w); [|by intros [= <- <-]].
  destruct (caw_write_all _ w) as [r1 w1] eqn:E. pose proof (caw_write_all_base _ _ _ _ _ Hw E) as Hw1.
  destruct r1; [by apply chunk_loop_base|by intros [= <- <-]..].
Qed.
Lemma archive_loop_base b max chunks : forall acc w r w', caw_base b w -> archive_loop max chunks acc w = (r, w') -> caw_base b w'.
Proof.
  induction chunks as [|[[d blob]| |] chunks IH]; intros acc w r w' Hw; cbn [archive_loop]; try (by intros [= <- <-]).
  destruct (try_write_chunk d blob w) as [r1 w1] eqn:E. pose proof (try_write_chunk_base _ _ _ _ _ _ Hw E) as Hw1.
  destruct r1 as [[]| |]; [|by intros [= <- <-]..]. case_if; [by intros [= <- <-]|by apply IH].
Qed.
Lemma caw_finish_base b w r w' : caw_base b w -> caw_finish w = (r, w') -> caw_base b w' /\ caw_writer w' = None.
Proof.
  intros Hw. unfold caw_finish. destruct (caw_writer w) as [t|] eqn:Et; [|by intros [= <- <-]].
  destruct (tw_finish false t) as [r1 t1] eqn:E. intros [= <- <-]. split; [|done]. apply caw_take_base.
  apply (same_finish _ _ _ _ _ (Hw t (or_introl Et)) E).
Qed.
Lemma caw_tape_base b t0 w : tw_base t0 = b -> caw_base b w -> tw_base (caw_tape t0 w) = b.
Proof.
  unfold caw_tape. intros Hb Hw. destruct (caw_writer w) eqn:E; [apply Hw; by left|].
  destruct (caw_taken w) eqn:E2; [apply Hw; by right|done].
Qed.

(** [write_chunk_archive_st] is [write_chunk_archive] with the writer that is left. *)
Lemma chunk_archive_st json u ctime (t : T) chunks store max r t' :
  write_chunk_archive_st json u ctime t chunks store max = (r, t') ->
  write_chunk_archive json u ctime t chunks store max = r /\ tw_base t' = tw_base t /\
  (forall result t1, r = Ok result -> caw_taken (ar_writer result) = Some t1 -> t' = t1).
Proof.
  unfold write_chunk_archive_st, write_chunk_archive.
  destruct (caw_new json u ctime t store true) as [r0 t0] eqn:En.
  assert (tw_base t0 = tw_base t /\ forall x, r0 = Ok x -> caw_base (tw_base t) x.1) as [Hb0 Hw0].
  { unfold caw_new in En. destruct (json store) as [hd| |]; [|by injection En as <- <-..].
    destruct (write_header _ hd t) as [r1 t1] eqn:Eh. apply (same_write_header _ _ _ _ _ _ eq_refl) in Eh.
    destruct r1; injection En as <- <-; (split; [done|]); [|done..]. intros x [= <-] t2 [[= <-]|]; done. }
  cbn [fst]. destruct r0 as [[w cu]| |]; [|intros [= <- <-]; by split_and!..]. specialize (Hw0 _ eq_refl). cbn [fst] in Hw0.
  destruct (archive_loop max chunks [] w) as [r1 w1] eqn:El. pose proof (archive_loop_base _ _ _ _ _ _ _ Hw0 El) as Hw1.
  destruct r1 as [[[lst leom] rest]| |]; [|intros [= <- <-]; split_and!; [done|by apply caw_tape_base|done]..].
  destruct (caw_finish w1) as [r2 w2] eqn:Ef. destruct (caw_finish_base _ _ _ _ Hw1 Ef) as [Hw2 Hn].
  destruct r2; intros [= <- <-]; (split_and!; [done|by apply caw_tape_base|try done]).
  intros result t1 [= <-]. cbn [ar_writer]. unfold caw_tape. rewrite Hn. by intros ->.
Qed.
End base.

(** ** Catalogs and tapes *)

(** Where archives come from: the encoder of pxar, the headers in JSON, the chunks of the datastores, and what reading the files
    of a snapshot, given by the name of the datastore and the printed snapshot, may deliver. *)
Record ArchiveSource := {
  as_encoder : PxarEncoder;
  as_chunk_json : string -> res (list byte);
  as_snapshot_json : string -> string -> res (list byte);
  as_chunk : string -> digest -> DataBlob -> Prop;
  as_files : string -> string -> list (string * res FileReads) -> Prop;
}.

Section on_tape.
Context {R : Type} `{ReadAllocatedLaws R} (P : Prims) (A : ArchiveSource).

(** File [n] is a chunk archive of this datastore, from which a chunk of it with this digest is read. *)
Definition chunk_on_tape (files : list tape_file) (n : Z) (store : string) (d : digest) : Prop :=
  exists k u ctime header_data body chunks blob, n = Z.of_nat k /\ as_chunk_json A store = Ok header_data /\
    files !! k = Some (Closed (media_header_bytes (media_header_new PROXMOX_BACKUP_CHUNK_ARCHIVE_MAGIC_1_1 u ctime
                  (Z.of_nat (length header_data))) ++ header_data ++ body) false) /\
    (d, blob) ∈ chunks /\ as_chunk A store d blob /\
    forall r : R, unread r = body -> exists extra, read_chunks P (length chunks + 2) r = Ok (chunks ++ extra).
(** File [n] is a complete archive of this snapshot: its header has the name of the datastore and of the snapshot, and
    the rest is the pxar archive of all its files, with the contents that were read from them. *)
Definition snapshot_on_tape (files : list tape_file) (n : Z) (store path : string) : Prop :=
  exists k magic u ctime header_data reads contents body, n = Z.of_nat k /\
    magic ∈ [PROXMOX_BACKUP_SNAPSHOT_ARCHIVE_MAGIC_1_1; PROXMOX_BACKUP_SNAPSHOT_ARCHIVE_MAGIC_1_2] /\
    as_snapshot_json A path store = Ok header_data /\
    files !! k = Some (Closed (media_header_bytes (media_header_new magic u ctime (Z.of_nat (length header_data))) ++
                  header_data ++ body) false) /\
    as_files A store path reads /\ Forall2 delivers reads contents /\ snapshot_encoded (as_encoder A) contents body.
(** All that a catalog lists is in one of the files. *)
Definition listed_on_tape (files : list tape_file) (c : MediaCatalog) : Prop :=
  (forall store d n, lookup_chunk store d c = Some n -> chunk_on_tape files n store d) /\
  (forall store p n, lookup_snapshot store p c = Some n -> snapshot_on_tape files n store p).

(** The same for a log; [cur] is the number of the current archive and its datastore. *)
Definition next_cur (r : record) (cur : option (Z * string)) : option (Z * string) :=
  match r with RStart _ _ n store => Some (n, store) | REnd _ _ => None | _ => cur end.
Definition record_on_tape (files : list tape_file) (cur : option (Z * string)) (r : record) : Prop :=
  match r with
  | RChunk d => forall n store, cur = Some (n, store) -> chunk_on_tape files n store d
  | RSnapshot _ _ n store path => snapshot_on_tape files n store path
  | _ => True
  end.
Fixpoint log_on_tape (files : list tape_file) (cur : option (Z * string)) (log : list record) : Prop :=
  match log with
  | [] => True
  | r :: log => record_on_tape files cur r /\ log_on_tape files (next_cur r cur) log
  end.

Lemma log_on_tape_app files log1 log2 : forall cur,
  log_on_tape files cur (log1 ++ log2) <->
  log_on_tape files cur log1 /\ log_on_tape files (foldl (fun cur r => next_cur r cur) cur log1) log2.
Proof. induction log1 as [|r log1 IH]; intros cur; cbn; [tauto|]. rewrite IH. tauto. Qed.
Lemma chunk_on_tape_more files files' n store d :
  files `prefix_of` files' -> chunk_on_tape files n store d -> chunk_on_tape files' n store d.
Proof.
  intros Hp (k & u & ct & hd & body & cs & blob & Hn & Hj & Hl & Hr). exists k, u, ct, hd, body, cs, blob.
  split_and!; [done|done|by eapply prefix_lookup_Some|apply Hr..].
Qed.
Lemma snapshot_on_tape_more files files' n store path :
  files `prefix_of` files' -> snapshot_on_tape files n store path -> snapshot_on_tape files' n store path.
Proof.
  intros Hp (k & mg & u & ct & hd & rs & cs & body & Hn & Hm & Hj & Hl & Hr). exists k, mg, u, ct, hd, rs, cs, body.
  split_and!; [done|done|done|by eapply prefix_lookup_Some|apply Hr..].
Qed.
Lemma log_on_tape_more files files' log : files `prefix_of` files' -> forall cur,
  log_on_tape files cur log -> log_on_tape files' cur log.
Proof.
  intros Hp. induction log as [|r log IH]; intros cur; cbn; [done|]. intros [Hr Hl]. split; [|by apply IH].
  destruct r; cbn in *; [done|done| |done|by eapply snapshot_on_tape_more].
  intros n store Hn. eapply chunk_on_tape_more; [done|by apply Hr].
Qed.

(** A catalog that was made from such a log. *)
Definition cur_number (c : MediaCatalog) : option (Z * string) := (fun a => (a.1.2, a.2)) <$> mc_current_archive c.
Lemma apply_on_tape files r c c' :
  apply r c = Ok c' -> record_on_tape files (cur_number c) r -> listed_on_tape files c ->
  listed_on_tape files c' /\ cur_number c' = next_cur r (cur_number c).
Proof.
  intros Ha Hr [Hc Hs]. destruct r as [u s n|pad u n store|d|u n|pad u n store path]; cbn in Ha, Hr |- *.
  - destruct (check_register_label n u c); [|done..]. by injection Ha as <-.
  - destruct (check_start_chunk_archive n c); [|done..]. injection Ha as <-. split; [|done].
    destruct (start_lookups store (Some (u, n, store)) c) as [E1 E2].
    split; intros st x m; [rewrite E2; apply Hc|rewrite E1; apply Hs].
  - unfold cur_number in *. destruct (mc_current_archive c) as [[[u n] store]|] eqn:Ec; [|done].
    destruct (chunk_lookups _ _ _ _ _ Ha) as (E1 & E2 & _ & E3 & _). rewrite E3, Ec. split; [|done]. split.
    + intros st x m [(-> & -> & ->)|Hx]%E2; [by apply Hr|by eapply Hc].
    + intros st p m. rewrite E1. apply Hs.
  - destruct (check_end_chunk_archive u n c); [|done..]. by injection Ha as <-.
  - destruct (check_register_snapshot n c); [|done..]. injection Ha as <-. split; [|done].
    destruct (snapshot_lookups store path n c) as [E1 E2]. split.
    + intros st x m Hx. apply (Hc st). rewrite <- Hx. symmetry. apply E2.
    + intros st p m [(-> & -> & ->)|Hx]%E1; [done|by eapply Hs].
Qed.
Lemma replay_on_tape files log : forall c c',
  replay log c = Ok c' -> log_on_tape files (cur_number c) log -> listed_on_tape files c -> listed_on_tape files c'.
Proof.
  induction log as [|r log IH]; intros c c'; cbn; [by intros [= ->]|].
  destruct (apply r c) as [c1| |] eqn:Ea; [|done..]. intros Hrep [Hr Hl] Hc.
  destruct (apply_on_tape _ _ _ _ Ea Hr Hc) as [Hc1 Ecur]. rewrite <- Ecur in Hl. by eapply IH.
Qed.
Lemma empty_on_tape files u : listed_on_tape files (catalog_empty u).
Proof. split; intros st x n; unfold lookup_chunk, lookup_snapshot; cbn; by rewrite lookup_empty. Qed.
Lemma archive_on_tape files cur pad u n store l :
  Forall (chunk_on_tape files n store) l -> log_on_tape files cur ([RStart pad u n store] ++ (RChunk <$> l) ++ [REnd u n]).
Proof.
  intros Hl. cbn. split; [done|]. induction Hl as [|d l Hd Hl IH]; cbn; [done|]. split; [by intros ? ? [= <- <-]|done].
Qed.
Lemma label_on_tape files m : log_on_tape files None (label_log m).
Proof. unfold label_log. cbn. split; [done|]. by destruct (mi_media_set_label m). Qed.
End on_tape.

(** ** The writer *)
Section writer.
Context {D T K R : Type} `{TapeDriverLaws D T K} `{ReadAllocatedLaws R} (P : Prims) (A : ArchiveSource).
Context (IO : CatalogIo) `{!CatalogIoLaws IO} (N : NsLib) `{!NsLaws N} (m : MediaId).
Notation label := (mi_media_set_label m).
Notation on_tape := (log_on_tape (R:=R) P A).
Implicit Types (drive : D) (st : PoolWriterState D) (w : PoolWriter D) (d : Disk) (disk rest : list record).

Definition durable_files drive : list tape_file := take (td_durable drive) (td_files drive).
Lemma kept_durable drive drive' : kept drive drive' -> durable_files drive `prefix_of` durable_files drive'.
Proof.
  unfold kept, durable_files. intros [[more ->] Hd]. rewrite take_app.
  apply prefix_app_r. exists (take (td_durable drive' - td_durable drive) (drop (td_durable drive) (td_files drive))).
  rewrite take_take_drop. f_equal. lia.
Qed.
Lemma kept_refl drive : kept drive drive.
Proof. by split. Qed.
Lemma kept_trans drive1 drive2 drive3 : kept drive1 drive2 -> kept drive2 drive3 -> kept drive1 drive3.
Proof. intros [Hx1 Hx2] [Hx3 Hx4]. split; [by etransitivity|lia]. Qed.
Lemma kept_same drive drive' :
  td_files drive' = td_files drive -> (td_durable drive <= td_durable drive')%nat -> kept drive drive'.
Proof. intros E Hd. split; [by rewrite E|done]. Qed.

(** The file of the catalog holds a log of what is durably on tape, and a part of such a log. *)
Definition safe d drive : Prop :=
  exists i data disk rest pending k cr,
    d_names d !! catalog_path (ml_uuid (mi_label m)) = Some i /\ d_inodes d !! i = Some (data ++ take k pending) /\
    ((data = PROXMOX_BACKUP_MEDIA_CATALOG_MAGIC_1_1 ++ log_bytes disk /\ pending = log_bytes rest) \/
     (data = [] /\ disk = [] /\ pending = PROXMOX_BACKUP_MEDIA_CATALOG_MAGIC_1_1 ++ log_bytes rest)) /\
    log_ok N label (disk ++ rest) /\ replay (disk ++ rest) (catalog_empty (ml_uuid (mi_label m))) = Ok cr /\
    on_tape (durable_files drive) None (disk ++ rest).
Lemma safe_kept d drive drive' : kept drive drive' -> safe d drive -> safe d drive'.
Proof.
  intros Hk (i & data & disk & rest & pe & k & cr & Hx1 & Hx2 & Hx3 & Hx4 & Hx5 & Hx6).
  exists i, data, disk, rest, pe, k, cr. split_and!; try done. eapply log_on_tape_more; [by apply kept_durable|done].
Qed.

(** Whatever is found when the catalog is opened is on tape. *)
Lemma safe_open o write create d drive r d' :
  all_good o -> (create = true -> write = true) -> safe d drive -> open IO N o m write create d = (r, d') ->
  match r with Ok c => listed_on_tape (R:=R) P A (durable_files drive) c | Err _ => True | Panic _ => False end.
Proof.
  intros Ho Hcw (i & data & disk & rest & pe & k & cr & Hn & Hi & Hb & Hok & Hrep & Ht) Hop.
  rewrite (open_existing _ _ _ _ _ _ _ _ _ Ho Hcw Hn Hi) in Hop. injection Hop as <- <-.
  rewrite replay_app in Hrep. destruct (replay disk _) as [cd| |] eqn:Ed; [|done..].
  pose proof (load_partial IO N label _ cd cr disk rest data pe k Hb Hok Ed Hrep) as Hl.
  destruct (load_catalog _ _ _ _ _) as [[[c2 found] su]| |]; [|done..]. destruct Hl as (l1 & l2 & -> & Hx1).
  assert (listed_on_tape (R:=R) P A (durable_files drive) c2) as Hc2.
  { apply (replay_on_tape P A _ (disk ++ l1) (catalog_empty (ml_uuid (mi_label m)))).
    - by rewrite replay_app, Ed.
    - rewrite (assoc_L (++)) in Ht. by apply log_on_tape_app in Ht as [? _].
    - apply empty_on_tape. }
  by destruct found, write.
Qed.

(** The state between operations: all that is committed is durable, and all that is registered is on tape. *)
Record writing w d : Prop := {
  wr_state : exists st c disk rest, pw_status w = Some st /\ cs_catalog (pw_catalog_set w) = Some c /\
    mc_uuid c = ml_uuid (mi_label m) /\ stored N label c d disk rest /\
    on_tape (durable_files (ps_drive st)) None disk /\ on_tape (td_files (ps_drive st)) None (disk ++ rest) /\
    (ps_at_eom st = true -> td_at_end (ps_drive st));
}.
Definition writer_safe w d : Prop := exists st, pw_status w = Some st /\ safe d (ps_drive st).

Lemma stored_safe c d disk rest drive :
  stored N label c d disk rest -> mc_uuid c = ml_uuid (mi_label m) -> on_tape (durable_files drive) None disk -> safe d drive.
Proof.
  intros (h & data & Hf & Hi & Hp & Hn & [Hb Hlo Hlr]) Hu Ht. rewrite Hu in Hn, Hlr.
  rewrite replay_app in Hlr. destruct (replay disk _) as [cd| |] eqn:Ed; [|done..].
  apply Forall_app in Hlo as [Hlo _].
  destruct Hb as [[-> _]|(-> & -> & _)].
  - eexists _, _, disk, [], (log_bytes []), 0%nat, cd. rewrite take_0, !app_nil_r. split_and!; [done|done|by left|done..].
  - eexists _, [], [], [], _, 0%nat, cd. rewrite take_0. split_and!; [done|done|by right|done..].
Qed.
Lemma writing_safe w d : writing w d -> writer_safe w d.
Proof.
  intros [(st & c & disk & rest & Hst & Hc & Hu & Hs & Hx1 & Hx2 & Hx3)]. exists st. split; [done|].
  by eapply stored_safe.
Qed.

(** The drive after an operation that writes nothing. *)
Definition moved st st' : Prop :=
  td_files (ps_drive st') = td_files (ps_drive st) /\ (td_durable (ps_drive st) <= td_durable (ps_drive st'))%nat /\
  ((ps_at_eom st = true -> td_at_end (ps_drive st)) -> ps_at_eom st' = true -> td_at_end (ps_drive st')).
Lemma moved_kept st st' : moved st st' -> kept (ps_drive st) (ps_drive st').
Proof. intros (E & Hd & _). by apply kept_same. Qed.
Lemma durable_all drive : td_durable drive = length (td_files drive) -> durable_files drive = td_files drive.
Proof. intros E. unfold durable_files. by rewrite E, firstn_all. Qed.

Ltac split_let H m r w db := lazymatch type of H with (let '(_, _) := ?x in _) = _ => destruct x as [r [w db]] eqn:m end.

(** A commit first makes all files durable. *)
Lemma pw_commit_safe o co w db d r w' db' d' :
  writing w d -> pw_commit o co w db d = (r, (w', db', d')) -> writer_safe w' d' /\ (is_ok r = true -> writing w' d').
Proof.
  intros [(st & c & disk & rest & Hst & Hc & Hu & Hs & Hdur & Hall & Heom)] Hco. unfold pw_commit in Hco.
  split_let Hco Em r1 w1 db1.
  assert (exists st1, pw_status w1 = Some st1 /\ pw_catalog_set w1 = pw_catalog_set w /\ moved st st1 /\
    (r1 = Ok tt -> durable_files (ps_drive st1) = td_files (ps_drive st1))) as (st1 & Hst1 & Hcs & Hmv & Hsync).
  { rewrite Hst in Em. destruct (td_sync (ps_drive st)) as [rs drive1] eqn:Es.
    destruct (td_sync_law _ _ _ Es) as (Ef & Hd & He & Hok).
    assert (moved st (set_drive drive1 st)) as Hm1 by (split_and!; cbn; auto).
    destruct rs as [[]| |]; [|injection Em as <- <- <-; by exists (set_drive drive1 st)..].
    specialize (Hok eq_refl). cbn [set_bytes ps_drive set_drive] in Em.
    destruct (td_get_volume_statistics drive1) as [stats drive2] eqn:Eg.
    destruct (td_statistics_law _ _ _ Eg) as (Ef2 & Hd2 & He2).
    set (st2 := set_drive drive2 (set_bytes 0 (set_drive drive1 st))) in *.
    assert (moved st st2 /\ durable_files (ps_drive st2) = td_files (ps_drive st2)) as [Hm2 Hd3].
    { split; [|apply durable_all; cbn; congruence].
      split_and!; cbn; [congruence|lia|auto]. }
    destruct stats as [used| |]; [|injection Em as <- <- <-; by exists st2..].
    destruct (pool_set_bytes_used _ _ _ _ _) as [r2 [p2 db2]]. injection Em as <- <- <-. by exists st2. }
  destruct Hmv as (Ef & Hd & He). pose proof (kept_same _ _ Ef Hd) as Hk.
  assert (on_tape (durable_files (ps_drive st1)) None disk) as Hdur1.
  { eapply log_on_tape_more; [by apply kept_durable|done]. }
  destruct r1 as [[]| |].
  2,3: injection Hco as <- <- <- <-; split; [|done]; exists st1; split; [done|by eapply stored_safe].
  specialize (Hsync eq_refl). unfold cs_commit in Hco. rewrite Hcs, Hc in Hco.
  destruct (commit co c d) as [rc [c1 d1]] eqn:Ec. injection Hco as <- <- <- <-.
  assert (on_tape (durable_files (ps_drive st1)) None (disk ++ rest)) as Hdur2 by (by rewrite Hsync, Ef).
  split.
  - exists st1. split; [done|]. destruct Hs as (h & data & Hf & Hi & Hp & Hn & Hl).
    destruct (commit_partial _ _ _ _ _ _ _ _ _ _ _ _ Hf Hi Hp Hl Ec) as (_ & Hnm & k & Hki).
    destruct Hl as [Hb Hlo Hlr]. rewrite <- Hnm in Hn.
    exists (fh_inode h), data, disk, rest, (mc_pending c), k, (memory c). by rewrite <- Hu.
  - intros Hok. destruct rc as [[]| |]; [|done..].
    destruct (commit_done _ _ _ _ _ _ _ _ _ Hs Ec) as (_ & Hmem & Hs1). split.
    exists st1, c1, (disk ++ rest), []. rewrite app_nil_r, Ef. split_and!; auto.
    by rewrite (memory_uuid _ _ Hmem).
Qed.

Lemma prepare_moved st r st' :
  prepare_tape_write st = (r, st') -> (ps_at_eom st = true -> td_at_end (ps_drive st)) ->
  kept (ps_drive st) (ps_drive st') /\
  (forall n, r = Ok n -> ps_at_eom st' = true /\ td_at_end (ps_drive st') /\
    n = Z.of_nat (length (td_files (ps_drive st'))) /\ file_number_ok n).
Proof.
  intros E Heom. unfold prepare_tape_write in E.
  assert (forall r1 st1, (if ps_at_eom st then (Ok tt, st) else
     let '(r, drive) := td_move_to_eom true (ps_drive st) in
     let st := set_drive drive st in try! _ := r for st in (Ok tt, set_at_eom st)) = (r1, st1) ->
     kept (ps_drive st) (ps_drive st1) /\ (r1 = Ok tt -> ps_at_eom st1 = true /\ td_at_end (ps_drive st1))) as Hm.
  { intros r1 st1. destruct (ps_at_eom st) eqn:Ee; [intros [= <- <-]; split; [apply kept_refl|by auto]|].
    destruct (td_move_to_eom true (ps_drive st)) as [r2 drive2] eqn:E2.
    destruct (td_eom_law _ _ _ _ E2) as (Ef & Hd & He).
    assert (kept (ps_drive st) drive2) as Hk by (apply kept_same; [done|lia]).
    destruct r2 as [[]| |]; intros [= <- <-]; (split; [done|]); [by auto|done..]. }
  destruct (if ps_at_eom st then _ else _) as [r1 st1]. destruct (Hm _ _ eq_refl) as [Hk1 He1].
  destruct r1 as [[]| |]; [|by injection E as <- <-..]. destruct (He1 eq_refl) as [Ha1 Hend1].
  destruct (td_current_file_number (ps_drive st1)) as [r2 drive2] eqn:E2.
  destruct (td_position_law _ _ _ E2) as (Ef & Hd & He & Hpos).
  assert (kept (ps_drive st) drive2) as Hk2 by (eapply kept_trans; [done|apply kept_same; [done|lia]]).
  destruct r2 as [n| |]; [|by injection E as <- <-..].
  destruct (n <? 2); injection E as <- <-; (split; [done|]); [done|]. intros n' [= <-]. cbn. rewrite Ef.
  destruct (Hpos n Hend1 eq_refl) as [Hn Hb]. unfold file_number_ok. split_and!; auto; lia.
Qed.

Lemma writing_eom w d st : writing w d -> pw_status w = Some st -> ps_at_eom st = true -> td_at_end (ps_drive st).
Proof.
  intros [(st1 & c & disk & rest & Hst1 & _ & _ & _ & _ & _ & Heom)] Hst. rewrite Hst in Hst1. by injection Hst1 as <-.
Qed.
(** Replacing the status by one with more files. *)
Lemma status_safe w d st st' :
  writing w d -> pw_status w = Some st -> kept (ps_drive st) (ps_drive st') -> writer_safe (set_status (Some st') w) d.
Proof.
  intros Hw Hst Hk. destruct (writing_safe _ _ Hw) as (st1 & Hst1 & Hs). exists st'. split; [done|].
  eapply safe_kept; [done|]. congruence.
Qed.
Lemma status_writing w d st st' :
  writing w d -> pw_status w = Some st -> kept (ps_drive st) (ps_drive st') ->
  (ps_at_eom st' = true -> td_at_end (ps_drive st')) -> writing (set_status (Some st') w) d.
Proof.
  intros [(st1 & c & disk & rest & Hst1 & Hc & Hu & Hs & Hdur & Hall & _)] Hst Hk Hend. split.
  rewrite Hst in Hst1. injection Hst1 as <-. exists st', c, disk, rest. split_and!; try done.
  - eapply log_on_tape_more; [by apply kept_durable|done].
  - eapply log_on_tape_more; [by destruct Hk|done].
Qed.
(** Registering what is on tape. *)
Lemma register_writing w d st op more r s :
  writing w d -> pw_status w = Some st -> (forall cur, on_tape (td_files (ps_drive st)) cur more) ->
  (forall c data disk rest r c', logged N label c data disk rest -> op c = (r, c') ->
     mc_file c' = mc_file c /\ mc_uuid c' = mc_uuid c /\
     if is_ok r then logged N label c' data disk (rest ++ more) else c' = c) ->
  cs_update op (pw_catalog_set w) = (r, s) -> writing (set_catalogs s w) d.
Proof.
  intros [(st1 & c & disk & rest & Hst1 & Hc & Hu & (h & data & Hf & Hi & Hp & Hn & Hl) & Hdur & Hall & Heom)] Hst Hmore Hop.
  rewrite Hst in Hst1. injection Hst1 as <-. unfold cs_update. rewrite Hc. destruct (op c) as [r1 c1] eqn:E.
  intros [= <- <-]. destruct (Hop _ _ _ _ _ _ Hl E) as (Ef & Eu & Hlog).
  destruct (is_ok r1).
  - split. exists st, c1, disk, (rest ++ more). split_and!; try done; [by rewrite Eu| |].
    + exists h, data. rewrite Ef, Eu. by split_and!.
    + rewrite (assoc_L (++)). apply log_on_tape_app. split; [done|]. apply Hmore.
  - subst c1. split. exists st, c, disk, rest. split_and!; try done. by exists h, data.
Qed.

Lemma commit_if_safe (b : bool) o co w db d r w' db' d' :
  writing w d -> (if b then pw_commit o co w db d else (Ok tt, (w, db, d))) = (r, (w', db', d')) ->
  writer_safe w' d' /\ (is_ok r = true -> writing w' d').
Proof.
  intros Hw. destruct b; [by apply pw_commit_safe|]. intros [= <- <- <- <-]. split; [by apply writing_safe|done].
Qed.

(** The chunks to write are valid, and chunks of the datastore. *)
Definition chunks_from (chunks : list (res (list byte * DataBlob))) (store : string) : Prop :=
  forall c, Ok c ∈ chunks -> chunk_ok P c /\ as_chunk A store c.1 c.2.

(** An archive on the drive: what is reported as written can be read from the file that was added. *)
Lemma write_archive_on_tape u ctime drive drive' (t t' : T) chunks store max result :
  td_at_end drive -> td_write_file drive = (Ok t, drive') -> chunks_from chunks store ->
  write_chunk_archive_st (as_chunk_json A) u ctime t chunks store max = (Ok result, t') ->
  kept drive (td_end_write t') /\ td_at_end (td_end_write t') /\ ar_uuid result = u /\
  Forall (fun x => length x = 32%nat) (ar_chunk_list result) /\
  Forall (chunk_on_tape (R:=R) P A (td_files (td_end_write t')) (Z.of_nat (length (td_files drive))) store) (ar_chunk_list result).
Proof.
  intros Hend Hwf Hok Hwr. destruct (td_write_file_law _ _ _ Hwf Hend) as [_ Ht]. destruct (Ht _ eq_refl) as [Hb Hs].
  destruct (chunk_archive_st _ _ _ _ _ _ _ _ _ Hwr) as (Hw & Hb' & Htk). rewrite Hb in Hb'.
  assert (exists hd, as_chunk_json A store = Ok hd /\ ar_uuid result = u) as (hd & Hj & Hu).
  { unfold write_chunk_archive in Hw. destruct (caw_new (as_chunk_json A) u ctime t store true) as [[[w0 cu]| |] t0] eqn:En; [|done..].
    destruct (caw_new_ok _ _ _ _ _ _ _ _ _ Hs En) as (hd & Hj & -> & _). exists hd. split; [done|]. cbn [fst] in Hw.
    destruct (archive_loop _ _ _ _) as [[[[? ?] ?]| |] ?]; [|done..].
    destruct (caw_finish _) as [[]]; [|done..]. by injection Hw as <-. }
  destruct (chunk_archive_written (R:=R) P _ _ _ _ _ _ _ _ _ Hs (fun c Hc => proj1 (Hok c Hc)) Hj Hw) as (written & body & t1 & Ech & El & Et & Hcl & Hrd).
  rewrite <- (Htk _ _ eq_refl Et) in Hcl. destruct (td_end_write_closed _ _ _ Hcl) as [Hend' Hf]. rewrite Hb' in Hf.
  split; [rewrite <- Hb'; apply td_end_write_kept|]. split; [done|]. split; [done|]. rewrite El.
  split; apply Forall_forall; intros x ([d blob] & -> & Hc)%list_elem_of_fmap.
  all: assert (Ok (d, blob) ∈ chunks) as Hd by (rewrite Ech; apply elem_of_app; left; by apply list_elem_of_fmap_2).
  - by apply (Hok (d, blob)).
  - exists (length (td_files drive)), u, ctime, hd, body, written, blob.
    split_and!; [done|done|by rewrite Hf, list_lookup_middle|done|by apply (Hok (d, blob))|].
    intros r Hr. destruct (Hrd r Hr) as (extra & -> & _). by exists extra.
Qed.

Lemma append_chunk_archive_safe a chunks store w db d r w' db' d' :
  uuid_ok (wa_uuid a) -> utf8_valid (bytes store) = true -> chunks_from chunks store ->
  writing w d -> append_chunk_archive a (as_chunk_json A) chunks store w db d = (r, (w', db', d')) ->
  writer_safe w' d' /\ (is_ok r = true -> writing w' d').
Proof.
  intros Hua H8 Hok Hw. unfold append_chunk_archive.
  destruct (pw_status w) as [st|] eqn:Est; [|intros [= <- <- <- <-]; split; [by apply writing_safe|done]].
  destruct (prepare_tape_write st) as [rp st1] eqn:Ep.
  destruct (prepare_moved _ _ _ Ep (writing_eom _ _ _ Hw Est)) as [Hk1 Hn].
  destruct rp as [n| |]; [|intros [= <- <- <- <-]; split; [by eapply status_safe|done]..].
  destruct (Hn n eq_refl) as (Hat & Hend & En & Hno). clear Hn.
  destruct (td_write_file (ps_drive st1)) as [rw drive1] eqn:Ew.
  destruct (td_write_file_law _ _ _ Ew Hend) as [Hk2 Ht].
  destruct rw as [t| |]; [|intros [= <- <- <- <-]; split; [eapply status_safe; [done|done|by eapply kept_trans]|done]..].
  destruct (write_chunk_archive_st _ _ _ t chunks store _) as [ra t'] eqn:Ea.
  assert (kept (ps_drive st) (td_end_write t')) as Hk3.
  { eapply kept_trans; [done|]. destruct (chunk_archive_st _ _ _ _ _ _ _ _ _ Ea) as (_ & Hb & _).
    rewrite <- (proj1 (Ht t eq_refl)), <- Hb. apply td_end_write_kept. }
  destruct ra as [result| |]; [|intros [= <- <- <- <-]; split; [by eapply status_safe|done]..].
  destruct (write_archive_on_tape _ _ _ _ _ _ _ _ _ _ Hend Ew Hok Ea) as (_ & Hend' & Hu & Hlen & Htape).
  cbn [ps_bytes_written_after_sync set_drive]. set (bytes := u64 _).
  assert (writing (set_status (Some (set_bytes bytes (set_drive (td_end_write t') st1))) w) d) as Hw1.
  { eapply status_writing; [done|done|done|]. intros _. exact Hend'. }
  destruct (wa_clock a); cbn [negb]; [|intros [= <- <- <- <-]; split; [by apply writing_safe|done]].
  destruct (cs_register_chunk_archive _ _ _ _ _ _) as [rr s] eqn:Er.
  eapply register_writing in Er; [|exact Hw1|done| |].
  2:{ intros cur. apply (archive_on_tape P A _ cur (wa_pad a) (ar_uuid result) n store (ar_chunk_list result)).
      by rewrite En. }
  2:{ intros c data disk rest r0 c0 Hlog Eop. destruct (register_archive_file _ _ _ _ _ _ _ _ Eop) as [-> ->].
      do 2 (split; [done|]). eapply archive_logged; [|done|done|done|done|exact Eop]. by rewrite Hu. }
  destruct rr as [[]| |]; [|intros [= <- <- <- <-]; split; [by apply writing_safe|done]..].
  destruct (if ar_leom result || _ then _ else _) as [rc [[w2 db2] d2]] eqn:Ec.
  apply commit_if_safe in Ec; [|done]. destruct rc as [[]| |]; by intros [= <- <- <- <-].
Qed.

Lemma append_snapshot_archive_safe a root_ns store sn files w db d r w' db' d' :
  uuid_ok (wa_uuid a) -> utf8_valid (bytes store) = true -> as_files A store (print_ns_and_snapshot N sn) files ->
  writing w d -> append_snapshot_archive N a (as_encoder A) (as_snapshot_json A) root_ns store sn files w db d = (r, (w', db', d')) ->
  writer_safe w' d' /\ (is_ok r = true -> writing w' d').
Proof.
  intros Hua H8 Hfiles Hw. unfold append_snapshot_archive.
  destruct (pw_status w) as [st|] eqn:Est; [|intros [= <- <- <- <-]; split; [by apply writing_safe|done]].
  destruct (prepare_tape_write st) as [rp st1] eqn:Ep.
  destruct (prepare_moved _ _ _ Ep (writing_eom _ _ _ Hw Est)) as [Hk1 Hn].
  destruct rp as [n| |]; [|intros [= <- <- <- <-]; split; [by eapply status_safe|done]..].
  destruct (Hn n eq_refl) as (Hat & Hend & En & Hno). clear Hn.
  destruct (td_write_file (ps_drive st1)) as [rw drive1] eqn:Ew.
  destruct (td_write_file_law _ _ _ Ew Hend) as [Hk2 Ht].
  destruct rw as [t| |]; [|intros [= <- <- <- <-]; split; [eapply status_safe; [done|done|by eapply kept_trans]|done]..].
  destruct (Ht t eq_refl) as [Hb Hs]. destruct (tape_write_snapshot_archive _ _ _ _ _ _ _ t) as [ra t'] eqn:Ea.
  pose proof (same_snapshot _ _ _ _ _ _ _ _ _ _ _ Hb Ea) as Hb'.
  assert (kept (ps_drive st) (td_end_write t')) as Hk3.
  { eapply kept_trans; [done|]. rewrite <- Hb'. apply td_end_write_kept. }
  destruct ra as [content| |]; [|intros [= <- <- <- <-]; split; [by eapply status_safe|done]..].
  pose proof (snapshot_at_end _ _ _ _ _ _ _ _ _ _ Ea) as Hend'.
  set (st2 := set_drive (td_end_write t') st1).
  assert (writing (set_status (Some st2) w) d) as Hw1 by (eapply status_writing; [done|done|done|by intros _]).
  destruct (match content with Some u => _ | None => _ end) as [rr s] eqn:Er.
  assert (writing (set_catalogs s (set_status (Some st2) w)) d) as Hw2.
  { destruct content as [u|]; [|by injection Er as <- <-].
    destruct (snapshot_archive_written _ _ _ _ _ _ _ _ _ _ Hs Ea) as (-> & hd & contents & body & Ej & Hdel & Henc & Hcl).
    eapply (register_writing _ _ _ _ [RSnapshot (wa_pad a) (wa_uuid a) n store (print_ns_and_snapshot N sn)]);
      [exact Hw1|done| | |exact Er].
    - intros cur. split; [|exact I]. destruct (td_end_write_closed _ _ _ Hcl) as [_ Hf]. rewrite Hb' in Hf.
      exists (length (td_files (ps_drive st1))). eexists _, (wa_uuid a), (wa_ctime a), hd, files, contents, body.
      split_and!; [done| |done|by cbn; rewrite Hf, list_lookup_middle|done..]. destruct root_ns; [left|right; left].
    - intros c data disk rest r0 c0 Hlog Eop. destruct (register_snapshot_file _ _ _ _ _ _ _ _ _ Eop) as [-> ->].
      do 2 (split; [done|]). by eapply register_snapshot_logged. }
  destruct rr as [[]| |]; [|intros [= <- <- <- <-]; split; [by apply writing_safe|done]..].
  set (bytes := u64 _).
  assert (writing (set_status (Some (set_bytes bytes st2)) (set_catalogs s (set_status (Some st2) w))) d) as Hw3.
  { eapply status_writing; [exact Hw2|done|apply kept_refl|by intros _]. }
  destruct (if negb _ || _ then _ else _) as [rc [[w2 db2] d2]] eqn:Ec.
  apply commit_if_safe in Ec; [|done]. destruct rc as [[]| |]; by intros [= <- <- <- <-].
Qed.

(** Catalogs on tape are not registered. *)
Lemma write_catalog_kept a json reads version su u seq d st r st' :
  td_at_end (ps_drive st) -> write_catalog a json reads version su u seq d st = (r, st') ->
  kept (ps_drive st) (ps_drive st') /\ (is_ok r = true -> td_at_end (ps_drive st')) /\ ps_at_eom st' = ps_at_eom st.
Proof.
  intros Hend. unfold write_catalog. destruct (td_write_file (ps_drive st)) as [rw drive1] eqn:Ew.
  destruct (td_write_file_law _ _ _ Ew Hend) as [Hk Ht].
  destruct rw as [t| |]; [|by intros [= <- <-]..]. destruct (Ht t eq_refl) as [Hb _].
  assert (forall t' : T, tw_base t' = ps_drive st -> kept (ps_drive st) (td_end_write t')) as Hk'.
  { intros t' <-. apply td_end_write_kept. }
  destruct (open_catalog_file reads u d) as [file| |]; [|intros [= <- <-]; split_and!; try done; by apply Hk'..].
  destruct (tape_write_catalog _ _ _ _ _ _ t) as [rc t'] eqn:Ec. intros [= <- <-]. split_and!; [|intros Hok|done].
  - apply Hk'. by eapply same_catalog.
  - destruct rc; [|done..]. by eapply catalog_at_end.
Qed.
Lemma append_catalog_archive_safe a json reads d w r w' :
  writing w d -> append_catalog_archive a json reads d w = (r, w') ->
  writer_safe w' d /\ (is_ok r = true -> writing w' d).
Proof.
  intros Hw. unfold append_catalog_archive.
  destruct (pw_status w) as [st|] eqn:Est; [|intros [= <- <-]; split; [by apply writing_safe|done]].
  destruct (prepare_tape_write st) as [rp st1] eqn:Ep.
  destruct (prepare_moved _ _ _ Ep (writing_eom _ _ _ Hw Est)) as [Hk1 Hn].
  assert (writer_safe (set_status (Some st1) w) d) as Hs1 by (by eapply status_safe).
  destruct rp as [n| |]; [|by intros [= <- <-]..]. destruct (Hn n eq_refl) as (Hat & Hend & _).
  cbn [pw_catalog_set set_status pw_pool]. destruct (cs_catalog _) as [c|]; [|by intros [= <- <-]].
  destruct (last _) as [[u|]|]; [|by intros [= <- <-]..]. destruct (negb _); [by intros [= <- <-]|].
  destruct (write_catalog _ _ _ _ _ _ _ _ st1) as [rc st2] eqn:Ec.
  destruct (write_catalog_kept _ _ _ _ _ _ _ _ _ _ _ Hend Ec) as (Hk2 & Hend2 & _).
  pose proof (kept_trans _ _ _ Hk1 Hk2) as Hk.
  assert (writer_safe (set_status (Some st2) w) d) as Hs2 by (by eapply status_safe).
  destruct rc as [content| |]; [|by intros [= <- <-]..]. intros [= <- <-]. split; [done|]. intros _.
  eapply (status_writing w); [done|done|done|]. intros _. by apply Hend2.
Qed.
Lemma append_catalogs_kept a json reads version su l : forall seq d st r st',
  td_at_end (ps_drive st) -> append_catalogs_loop a json reads version su seq l d st = (r, st') ->
  kept (ps_drive st) (ps_drive st') /\ (is_ok r = true -> td_at_end (ps_drive st')).
Proof.
  induction l as [|[u|] l IH]; intros seq d st r st' Hend; cbn [append_catalogs_loop];
    [by intros [= <- <-]| |by intros [= <- <-]].
  destruct (write_catalog _ _ _ _ _ _ _ _ st) as [rc st1] eqn:Ec.
  destruct (write_catalog_kept _ _ _ _ _ _ _ _ _ _ _ Hend Ec) as (Hk & Hend1 & _).
  destruct rc as [[cu|]| |]; [|by intros [= <- <-]..]. intros El.
  destruct (IH _ _ _ _ _ (Hend1 eq_refl) El) as [Hk2 Hend2]. split; [by eapply kept_trans|done].
Qed.
Lemma append_media_set_catalogs_writing a json reads d w w' :
  writing w d -> append_media_set_catalogs a json reads d w = (Ok tt, w') -> writing w' d.
Proof.
  intros Hw. unfold append_media_set_catalogs. destruct (_ <? 2)%nat; [by intros [= <-]|].
  destruct (pw_status w) as [st|] eqn:Est; [|done]. destruct (prepare_tape_write st) as [rp st1] eqn:Ep.
  destruct (prepare_moved _ _ _ Ep (writing_eom _ _ _ Hw Est)) as [Hk1 Hn].
  destruct rp as [n| |]; [|done..]. destruct (Hn n eq_refl) as (Hat & Hend & _).
  destruct (append_catalogs_loop _ _ _ _ _ _ _ d st1) as [rc st2] eqn:Ec. intros [= -> <-].
  destruct (append_catalogs_kept _ _ _ _ _ _ _ _ _ _ _ Hend Ec) as [Hk2 Hend2].
  eapply status_writing; [done|done|by eapply kept_trans|]. intros _. by apply Hend2.
Qed.

(** Media that was not in a set before. *)
Lemma new_media_writing sort_by lockable wa (a : LoadArgs D K) json reads w db d u p dba da media drive old w' db' d' :
  alloc_writable_media sort_by lockable (la_alloc a) (la_now a) (la_db1 a) (la_db2 a) (pw_pool w) db d = (Ok u, (p, dba, da)) ->
  pool_lookup_media u p = Ok media -> bm_id media = m -> media_ok m ->
  ps_media_uuid <$> pw_status w <> Some u -> la_loaded a = Ok (drive, old) -> mi_media_set_label old = None ->
  load_writable_media IO N sort_by lockable wa a json reads w db d = (Ok u, (w', db', d')) -> writing w' d'.
Proof.
  intros Ha Hm Em Hok Hne Hld Hold. unfold load_writable_media. rewrite Ha, Hm. rewrite bool_decide_eq_false_2 by done.
  destruct (close_drive _ _ dba) as [r1 [w1 db1]]. destruct r1 as [[]| |]; [|done..].
  destruct (la_config a); [|done]. cbn [negb]. rewrite Hld. destruct (td_tape_alert_flags drive) as [flags drive1].
  destruct (match flags with Ok _ => _ | _ => _ end).
  { destruct (pool_set_status_damaged _ _ _ _) as [r2 [p2 db2]]. by destruct r2. }
  rewrite Em, Hold. unfold update_media_set_label, new_media_label.
  destruct (mi_media_set_label m) as [set|] eqn:El; [|done].
  destruct (match ms_fingerprint set with Some _ => _ | None => _ end) as [key| |]; [|done..].
  destruct (td_write_media_set_label set key drive1) as [r2 drive2]. destruct r2 as [[]| |]; [|done..].
  destruct (overwrite _ _ _ m da) as [r3 d3] eqn:Eo. destruct r3 as [c| |]; [|done..].
  destruct (overwrite_stored N _ _ _ _ _ _ _ Hok Eo) as (_ & Hu & Hst).
  destruct (cs_append_catalog c (pw_catalog_set w1)) as [r4 s] eqn:Ecs.
  destruct r4 as [[]| |]; [|done..].
  assert (cs_catalog s = Some c) as Hc.
  { unfold cs_append_catalog in Ecs. destruct (match cs_catalog (pw_catalog_set w1) with Some _ => _ | None => _ end) as [[]];
      [|done..]. by injection Ecs as <-. }
  destruct (td_assert_encryption_mode _ drive2) as [r5 drive3]. destruct r5 as [[]| |]; [|done..].
  set (st := {| ps_drive := drive3; ps_media_uuid := u; ps_at_eom := false; ps_bytes_written_after_sync := 0 |}).
  assert (writing (set_status (Some st) (set_catalogs s w1)) d3) as Hw.
  { split. exists st, c, (label_log m), []. rewrite app_nil_r. split_and!; try done; apply label_on_tape. }
  destruct (append_media_set_catalogs _ _ _ _ _) as [r6 w6] eqn:Ea. destruct r6 as [[]| |]; [|done..].
  apply append_media_set_catalogs_writing in Ea; [|done]. intros [= <- <- <-].
  destruct Ea as [Hs]. by split.
Qed.

(** ** Sequences of operations *)
Inductive writer_op :=
| OpChunks (a : WriteArgs) (chunks : list (res (list byte * DataBlob))) (store : string)
| OpSnapshot (a : WriteArgs) (root_ns : bool) (store : string)
    (sn : ns_snapshot N) (files : list (string * res FileReads))
| OpCatalog (a : WriteArgs) (json : uuid_t -> uuid_t -> Z -> res (list byte)) (reads : list byte -> FileReads)
| OpCommit (o : DbOutcome) (co : CommitOutcome)
| OpFull (o : DbOutcome) (u : uuid_t).
Definition done_of {B S} (x : res B * S) : res unit * S := (let? _ := x.1 in Ok tt, x.2).
Definition run_writer (op : writer_op) (s : PoolWriter D * db_t * Disk) : res unit * (PoolWriter D * db_t * Disk) :=
  let '(w, db, d) := s in
  match op with
  | OpChunks a chunks store => done_of (append_chunk_archive a (as_chunk_json A) chunks store w db d)
  | OpSnapshot a root_ns store sn files =>
      done_of (append_snapshot_archive N a (as_encoder A) (as_snapshot_json A) root_ns store sn files w db d)
  | OpCatalog a json reads => let '(r, w) := append_catalog_archive a json reads d w in done_of (r, (w, db, d))
  | OpCommit o co => pw_commit o co w db d
  | OpFull o u => let '(r, (w, db)) := pw_set_media_status_full o u w db in (r, (w, db, d))
  end.
(** New uuids have 16 bytes, names of datastores are UTF-8, the chunks are valid and chunks of the datastore, and the files are
    those of the snapshot. *)
Definition writer_op_ok (op : writer_op) : Prop :=
  match op with
  | OpChunks a chunks store => uuid_ok (wa_uuid a) /\ utf8_valid (bytes store) = true /\ chunks_from chunks store
  | OpSnapshot a _ store sn files =>
      uuid_ok (wa_uuid a) /\ utf8_valid (bytes store) = true /\ as_files A store (print_ns_and_snapshot N sn) files
  | _ => True
  end.
Definition writer_step (s s' : PoolWriter D * db_t * Disk) : Prop :=
  exists op, writer_op_ok op /\ run_writer op s = (Ok tt, s').

Lemma done_of_ok {B S} (x : res B * S) r s : done_of x = (r, s) -> x.2 = s /\ is_ok x.1 = is_ok r.
Proof. unfold done_of. destruct x as [[]]; by intros [= <- <-]. Qed.
Lemma run_writer_safe op w db d r w' db' d' :
  writer_op_ok op -> writing w d -> run_writer op (w, db, d) = (r, (w', db', d')) ->
  writer_safe w' d' /\ (is_ok r = true -> writing w' d').
Proof.
  intros Hop Hw. destruct op as [a chunks store|a root_ns store sn files|a json reads|o co|o u]; cbn in Hop |- *.
  - intros [E <-]%done_of_ok. destruct (append_chunk_archive _ _ _ _ _ _ _) as [r1 s1] eqn:Ea. cbn in E. subst s1.
    destruct Hop as (Hu & H8 & Hc). eapply append_chunk_archive_safe; eauto.
  - intros [E' <-]%done_of_ok. destruct (append_snapshot_archive _ _ _ _ _ _ _ _ _ _ _) as [r1 s1] eqn:Ea. cbn in E'. subst s1.
    destruct Hop as (Hu & H8 & Hf). eapply append_snapshot_archive_safe; eauto.
  - destruct (append_catalog_archive _ _ _ _ _) as [r1 w1] eqn:Ea. intros [[= <- <- <-] <-]%done_of_ok.
    eapply append_catalog_archive_safe; eauto.
  - apply pw_commit_safe. done.
  - unfold pw_set_media_status_full. destruct (pool_set_status_full _ _ _ _) as [r1 [p1 db1]]. intros [= <- <- <- <-].
    assert (writing (set_pool p1 w) d) as Hw1 by (destruct Hw as [Hs]; by split).
    split; [by apply writing_safe|done].
Qed.
Lemma writer_steps_writing s s' : rtc writer_step s s' -> writing s.1.1 s.2 -> writing s'.1.1 s'.2.
Proof.
  induction 1 as [|s [[w1 db1] d1] s' (op & Hop & Hrun) _ IH]; [done|]. intros Hw. apply IH.
  destruct s as [[w db] d]. by apply (run_writer_safe _ _ _ _ _ _ _ _ Hop Hw Hrun).
Qed.

(** C22.  The catalog does not promise what is not on tape.  A media that was not in a set is loaded, archives are written and
    committed, and then an operation has any outcome: the tape fails, the database is full, the commit is torn.  If
    the catalog on disk can be opened afterwards, every chunk and every snapshot it lists is in a closed file at the
    position that is listed, and this file has been synced.  For a chunk that is an archive with the name of the datastore in its
    header, which gives a chunk of this datastore with this digest when it is decoded; for a snapshot one with the names of
    the datastore and of the snapshot in its header, followed by the pxar archive of all files of this snapshot, with the
    contents that were read from them. *)
Theorem tape_catalog_safe sort_by lockable wa (a : LoadArgs D K) json reads w db d u p dba da media drive old w0 db0 d0
    s op r w1 db1 d1 o write create ro d2 :
  alloc_writable_media sort_by lockable (la_alloc a) (la_now a) (la_db1 a) (la_db2 a) (pw_pool w) db d = (Ok u, (p, dba, da)) ->
  pool_lookup_media u p = Ok media -> bm_id media = m -> media_ok m ->
  ps_media_uuid <$> pw_status w <> Some u -> la_loaded a = Ok (drive, old) -> mi_media_set_label old = None ->
  load_writable_media IO N sort_by lockable wa a json reads w db d = (Ok u, (w0, db0, d0)) ->
  rtc writer_step (w0, db0, d0) s -> writer_op_ok op -> run_writer op s = (r, (w1, db1, d1)) ->
  all_good o -> (create = true -> write = true) -> open IO N o m write create d1 = (ro, d2) ->
  exists st, pw_status w1 = Some st /\
    match ro with
    | Ok c => listed_on_tape (R:=R) P A (take (td_durable (ps_drive st)) (td_files (ps_drive st))) c
    | Err _ => True
    | Panic _ => False
    end.
Proof.
  intros Ha Hm Em Hok Hne Hld Hold Hload Hrun Hop Hr Ho Hcw Hopen.
  pose proof (new_media_writing _ _ _ _ _ _ _ _ _ _ _ _ _ _ _ _ _ _ _ Ha Hm Em Hok Hne Hld Hold Hload) as Hw.
  apply writer_steps_writing in Hrun; [|done]. destruct s as [[w2 db2] d3].
  destruct (run_writer_safe _ _ _ _ _ _ _ _ Hop Hrun Hr) as [(st & Hst & Hs) _].
  exists st. split; [done|]. by eapply safe_open.
Qed.

(** After a commit that succeeds the catalog on disk lists all that was registered, and all of it is durable. *)
Theorem commit_publishes o co w db d w' db' d' o' :
  writing w d -> pw_commit o co w db d = (Ok tt, (w', db', d')) -> all_good o' ->
  exists st c c2, pw_status w' = Some st /\ cs_catalog (pw_catalog_set w') = Some c /\
    open IO N o' m false false d' = (Ok c2, d') /\ mc_content c2 = mc_content c /\
    listed_on_tape (R:=R) P A (durable_files (ps_drive st)) c2.
Proof.
  intros Hw Hco Ho. destruct (pw_commit_safe _ _ _ _ _ _ _ _ _ Hw Hco) as [(st & Hst & Hs) Hw'].
  destruct (Hw' eq_refl) as [(st1 & c & disk & rest & Hst1 & Hc & Hu & Hsto & _)].
  assert (mc_pending c = [] /\ exists log, stored N label c d' log []) as (Hpe & log & Hsto').
  { destruct Hw as [(st0 & c0 & disk0 & rest0 & Hst0 & Hc0 & Hu0 & Hsto0 & _)]. unfold pw_commit in Hco.
    split_let Hco Em r1 w1 db1. destruct r1 as [[]| |]; [|done..].
    assert (pw_catalog_set w1 = pw_catalog_set w) as Hcs.
    { rewrite Hst0 in Em. destruct (td_sync _) as [[[]| |] ?]; [|done..].
      destruct (td_get_volume_statistics _) as [[used| |] drive2]; [|by injection Em as <- <-|done].
      destruct (pool_set_bytes_used _ _ _ _ _) as [r2 [p2 db2]]. by injection Em as _ <- _. }
    unfold cs_commit in Hco. rewrite Hcs, Hc0 in Hco. destruct (commit co c0 d) as [rc [c1 d1]] eqn:Ec.
    injection Hco as -> <- <- <-. injection Hc as <-.
    destruct (commit_done _ _ _ _ _ _ _ _ _ Hsto0 Ec) as (? & _ & ?). eauto. }
  destruct (open_stored IO N o' m false false c d' log Ho ltac:(done) ltac:(congruence) Hsto' Hpe) as (c2 & E & Em).
  exists st, c, c2. split_and!; [done|done|done|by injection Em|]. by apply (safe_open o' false false _ _ _ _ Ho ltac:(done) Hs E).
Qed.
End writer.

(** ** Termination of the archives *)
Section total.
Context {T : Type} `{TapeWrite T} (P : PxarEncoder).
Hypothesis no_leom : forall x (t : T), exists t', tw_write_all x t = (Ok false, t').
Hypothesis finish_ok : forall inc (t : T), exists l t', tw_finish inc t = (Ok l, t').
Hypothesis new_ok : exists e, (enc_new P).2 = Ok e.
Hypothesis create_ok : forall name size e, exists e', (enc_create_file P name size e).2 = Ok e'.
Hypothesis enc_write_ok : forall d e, exists e', (enc_write P d e).2 = Ok e'.
Hypothesis enc_finish_ok : forall e, exists e', (enc_finish P e).2 = Ok e'.

Lemma write_header_total magic u ctime hd (t : T) :
  Z.of_nat (length hd) < 2 ^ 32 ->
  exists t', write_header (media_header_new magic u ctime (u32 (Z.of_nat (length hd)))) hd t = (Ok false, t').
Proof.
  intros Hl. unfold write_header. cbn [media_header_new mh_size]. rewrite wrapu_small, Z.eqb_refl by lia. cbn [negb].
  destruct (no_leom (media_header_bytes (media_header_new magic u ctime (Z.of_nat (length hd)))) t) as [t1 ->].
  case_if; [by eexists|apply no_leom].
Qed.
Lemma put_pieces_total pieces : forall t : T, exists t', put_pieces pieces t = (Ok tt, t').
Proof.
  induction pieces as [|x pieces IH]; intros t; cbn [put_pieces]; [by eexists|].
  unfold poll_seq_write. destruct (no_leom x t) as [t1 ->]. apply IH.
Qed.
Lemma encode_call_total {E} (x : list (list byte) * res E) (t : T) :
  (exists e, x.2 = Ok e) -> exists e t', encode_call x t = (Ok e, t').
Proof.
  destruct x as [pieces r]. cbn. intros [e ->]. unfold encode_call. destruct (put_pieces_total pieces t) as [t1 ->]. by eexists _, _.
Qed.
Lemma write_piece_total d s : (write_piece (T:=T) P d s).1 = Ok tt.
Proof.
  destruct s as [e t]. unfold write_piece. by destruct (encode_call_total (enc_write P d e) t (enc_write_ok d e)) as (e1 & t1 & ->).
Qed.
Lemma write_piece_sinks ds : forall s : enc_t P * T, exists s', sinks (write_piece P) ds s s'.
Proof.
  induction ds as [|d ds IH]; intros s; [eexists; constructor|].
  destruct (write_piece P d s) as [r s1] eqn:E. pose proof (write_piece_total d s) as Hr. rewrite E in Hr. cbn in Hr. subst r.
  destruct (IH s1) as [s2 Hs]. eexists. by econstructor.
Qed.

(** A regular file that delivers its size in at most [fuel] reads. *)
Definition readable (fuel : nat) (f : string * res FileReads) : Prop :=
  exists file ds more, f.2 = Ok file /\ fr_regular file = true /\ fr_size file = Ok (Z.of_nat (length (concat ds))) /\
    fr_reads file = (Ok <$> ds) ++ more /\ Forall (.≠ []) ds /\ (length ds <= fuel)%nat.
Lemma put_files_total fuel files : Forall (readable fuel) files -> forall e (t : T),
  exists e' t', put_files fuel P files e t = (Ok e', t').
Proof.
  induction 1 as [|[name f] files (file & ds & more & Ef & Er & Es & Erd & Hne & Hl) _ IH]; intros e t; cbn [put_files];
    [by eexists _, _|].
  cbn in Ef. rewrite Ef, Es, Er. cbn [negb]. set (size := Z.of_nat _).
  destruct (encode_call_total (enc_create_file P name size e) t (create_ok name size e)) as (e1 & t1 & ->).
  destruct (write_piece_sinks ds (e1, t1)) as [[e2 t2] Hk]. unfold size.
  rewrite Erd, (copy_loop_sinks _ _ _ _ _ _ Hk Hne Hl). apply IH.
Qed.
Lemma snapshot_archive_total fuel json root_ns uuid ctime files (t : T) hd :
  json = Ok hd -> Z.of_nat (length hd) < 2 ^ 32 -> Forall (readable fuel) files ->
  exists t', tape_write_snapshot_archive fuel P json root_ns uuid ctime files t = (Ok (Some uuid), t').
Proof.
  intros -> Hl Hf. unfold tape_write_snapshot_archive.
  destruct (write_header_total (if root_ns then PROXMOX_BACKUP_SNAPSHOT_ARCHIVE_MAGIC_1_1
    else PROXMOX_BACKUP_SNAPSHOT_ARCHIVE_MAGIC_1_2) uuid ctime hd t Hl) as [t1 ->].
  destruct (encode_call_total (enc_new P) t1 new_ok) as (e & t2 & ->).
  destruct (put_files_total fuel files Hf e t2) as (e1 & t3 & ->).
  destruct (encode_call_total (enc_finish P e1) t3 (enc_finish_ok e1)) as (e2 & t4 & ->). unfold finish_archive.
  destruct (finish_ok false t4) as (l & t5 & ->). by eexists.
Qed.

(** A file that got shorter after its size was asked for: the loop reads at the end of the file without end. *)
Theorem shrunk_file_never_ends json root_ns uuid ctime name file size ds files (t : T) hd :
  json = Ok hd -> Z.of_nat (length hd) < 2 ^ 32 -> fr_regular file = true -> fr_size file = Ok size ->
  fr_reads file = Ok <$> ds -> Z.of_nat (length (concat ds)) < size ->
  forall fuel, (tape_write_snapshot_archive fuel P json root_ns uuid ctime ((name, Ok file) :: files) t).1 = Panic "fuel".
Proof.
  intros -> Hl Er Es Erd Hs fuel. unfold tape_write_snapshot_archive.
  destruct (write_header_total (if root_ns then PROXMOX_BACKUP_SNAPSHOT_ARCHIVE_MAGIC_1_1
    else PROXMOX_BACKUP_SNAPSHOT_ARCHIVE_MAGIC_1_2) uuid ctime hd t Hl) as [t1 ->].
  destruct (encode_call_total (enc_new P) t1 new_ok) as (e & t2 & ->). cbn [put_files]. rewrite Es, Er. cbn [negb].
  destruct (encode_call_total (enc_create_file P name size e) t2 (create_ok name size e)) as (e1 & t3 & ->).
  rewrite Erd. destruct (copy_loop _ _ _ _ _) as [r [e2 t4]] eqn:El.
  destruct (copy_loop_short _ _ _ _ _ _ _ El Hs) as [_ Hp]. by rewrite (Hp write_piece_total).
Qed.
Theorem shrunk_catalog_never_ends json uuid ctime version file size ds (t : T) hd :
  json = Ok hd -> Z.of_nat (length hd) < 2 ^ 32 -> fr_size file = Ok size ->
  fr_reads file = Ok <$> ds -> Z.of_nat (length (concat ds)) < size ->
  forall fuel, (tape_write_catalog fuel json uuid ctime version file t).1 = Panic "fuel".
Proof.
  intros -> Hl Es Erd Hs fuel. unfold tape_write_catalog. destruct (write_header_total version uuid ctime hd t Hl) as [t1 ->].
  rewrite Es, Erd. destruct (copy_loop _ _ _ _ _) as [r t2] eqn:El.
  destruct (copy_loop_short _ _ _ _ _ _ _ El Hs) as [_ Hp]. rewrite Hp; [done|].
  intros x t3. unfold write_data. by destruct (no_leom x t3) as [t4 ->].
Qed.
End total.

(** A snapshot archive is complete.  [tape_write_snapshot_archive] reports an archive as written only when its header, and
    then the pxar archive of all files, each with the size the file had and with this many bytes of what was read
    from it, are in a closed file that is not marked as incomplete.  It does so whenever the drive, the
    encoder and the files have no errors and the media has enough space. *)
Theorem snapshot_archive_correct {T} `{TapeWriteLaws T} fuel P json root_ns uuid ctime files (t : T) :
  tw_stream [] t ->
  (forall u t', tape_write_snapshot_archive fuel P json root_ns uuid ctime files t = (Ok (Some u), t') ->
    u = uuid /\ exists header_data contents body, json = Ok header_data /\
      Forall2 delivers files contents /\ snapshot_encoded P contents body /\
      tw_closed (media_header_bytes (media_header_new
        (if root_ns then PROXMOX_BACKUP_SNAPSHOT_ARCHIVE_MAGIC_1_1 else PROXMOX_BACKUP_SNAPSHOT_ARCHIVE_MAGIC_1_2)
        uuid ctime (Z.of_nat (length header_data))) ++ header_data ++ body) false t') /\
  (forall header_data, json = Ok header_data -> Z.of_nat (length header_data) < 2 ^ 32 -> Forall (readable fuel) files ->
    (forall x (t : T), exists t', tw_write_all x t = (Ok false, t')) ->
    (forall inc (t : T), exists l t', tw_finish inc t = (Ok l, t')) ->
    (exists e, (enc_new P).2 = Ok e) -> (forall name size e, exists e', (enc_create_file P name size e).2 = Ok e') ->
    (forall d e, exists e', (enc_write P d e).2 = Ok e') -> (forall e, exists e', (enc_finish P e).2 = Ok e') ->
    exists t', tape_write_snapshot_archive fuel P json root_ns uuid ctime files t = (Ok (Some uuid), t')).
Proof.
  intros Hs. split.
  - intros u t' E. by apply snapshot_archive_written in E.
  - intros hd Hj Hl Hf Hw Hfin Hn Hc He Hx. by eapply snapshot_archive_total.
Qed.

(** ** A drive in memory *)
Import TapeExample ToyPrims.
Module WriterExample.
Import ArchiveExample CatalogExample PoolExample.
Record MemDrive := { md_files : list tape_file; md_durable : nat; md_end : bool }.
Record MemWriter := { mw_base : MemDrive; mw_data : list byte; mw_closed : option bool }.
#[export] Instance mem_writer : TapeWrite MemWriter := {
  tw_write_all x t := (Ok false, {| mw_base := mw_base t; mw_data := mw_data t ++ x; mw_closed := mw_closed t |});
  tw_bytes_written t := Z.of_nat (length (mw_data t));
  tw_finish inc t := (Ok false, {| mw_base := mw_base t; mw_data := mw_data t; mw_closed := Some inc |});
  tw_logical_end_of_media t := false;
}.
#[export, refine] Instance mem_writer_laws : TapeWriteLaws MemWriter := {
  tw_stream d t := mw_data t = d; tw_closed d inc t := mw_data t = d /\ mw_closed t = Some inc }.
Proof.
  - by intros d x t l t' <- [= <- <-].
  - by intros d inc t l t' <- [= <- <-].
Defined.
#[export] Instance mem_driver : TapeDriver MemDrive MemWriter unit := {
  td_sync d := (Ok tt, {| md_files := md_files d; md_durable := (length (md_files d) `max` md_durable d)%nat; md_end := md_end d |});
  td_move_to_eom _ d := (Ok tt, {| md_files := md_files d; md_durable := md_durable d; md_end := true |});
  td_current_file_number d :=
    let n := Z.of_nat (length (md_files d)) in
    (if n <? U64_MAX then Ok n else Err "position out of range", d);
  td_write_file d := (Ok {| mw_base := d; mw_data := []; mw_closed := None |}, d);
  td_end_write t :=
    {| md_files := md_files (mw_base t) ++ [match mw_closed t with Some inc => Closed (mw_data t) inc | None => Unfinished end];
       md_durable := md_durable (mw_base t); md_end := true |};
  td_write_media_set_label _ _ d := (Ok tt, {| md_files := [Unfinished; Unfinished]; md_durable := 2; md_end := true |});
  td_eject_media d := (Ok tt, d);
  td_tape_alert_flags d := (Ok 0, d);
  td_assert_encryption_mode _ d := (Ok tt, d);
  td_get_volume_statistics d := (Ok 1000, d);
}.
#[export, refine] Instance mem_driver_laws : TapeDriverLaws MemDrive MemWriter unit := {
  td_files := md_files; td_durable d := (md_durable d `min` length (md_files d))%nat; td_at_end d := md_end d = true; tw_base := mw_base }.
Proof.
  - intros d r d' [= <- <-]. cbn. split_and!; [done|lia|done|lia].
  - by intros d r d' [= <- <-].
  - by intros app d r d' [= <- <-].
  - intros d r d' [= <- <-]. split_and!; [done|done|done|]. intros n _ Hn.
    destruct (Z.ltb_spec (Z.of_nat (length (md_files d))) U64_MAX); [|done]. injection Hn as <-. done.
  - intros d r d' [= <- <-] _. split; [by split|]. by intros t [= <-].
  - by intros x t r t' [= <- <-].
  - by intros inc t r t' [= <- <-].
  - intros t. cbn. rewrite length_app. split; [by apply prefix_app_r|]. lia.
  - by intros inc t l t' [= <- <-].
  - intros t data inc [<- Hc]. cbn. by rewrite Hc.
Defined.

(** The tape that the pool allocates is loaded for the first time. *)
Definition toy_encoder : PxarEncoder := {|
  enc_t := unit; enc_new := ([[x50]], Ok tt);
  enc_create_file name size _ := ([bytes name; le_bytes 8 size], Ok tt);
  enc_write d _ := ([d], Ok tt); enc_finish _ := ([[x51]], Ok tt);
|}.
Definition blank : MemDrive := {| md_files := [Unfinished]; md_durable := 1; md_end := false |}.
Definition load_args : LoadArgs MemDrive unit := {|
  la_alloc := all_ok; la_db1 := tapes; la_db2 := tapes; la_now := 10; la_db := db_ok; la_config := true;
  la_loaded := Ok (blank, me_id (assigned_tape tape1 "p1" 0)); la_keys _ := Ok None; la_open := open_ok;
  la_commit := commit_ok; la_renamed := true;
|}.
Definition write_args (x : byte) (co : CommitOutcome) : WriteArgs := {|
  wa_fuel := 10; wa_uuid := replicate 16 x; wa_ctime := 10; wa_pad := []; wa_clock := true; wa_db := db_ok; wa_commit := co |}.
Definition catalog_json (u set : uuid_t) (n : Z) : res (list byte) := Ok [x7b; x7d].
Definition whole (data : list byte) : FileReads :=
  {| fr_size := Ok (Z.of_nat (length data)); fr_regular := true; fr_reads := [Ok data] |}.
Definition writer : PoolWriter MemDrive := {|
  pw_pool := pool; pw_status := None; pw_catalog_set := {| cs_set := {| catalog_list := ∅ |}; cs_catalog := None |};
  pw_ns_magic := true; pw_used_tapes := ∅ |}.
Definition loaded := load_writable_media toy_io toy_ns sort_by lockable (write_args x21 commit_ok) load_args catalog_json whole
  writer tapes empty_disk.
Definition tape_media : MediaId := match pool_lookup_media tape1 pool' with Ok b => bm_id b | _ => media end.

Definition files : list (string * res FileReads) :=
  [("index.json", Ok (whole [x01; x02]));
   ("a.didx", Ok {| fr_size := Ok 3; fr_regular := true; fr_reads := [Ok [x01; x02]; Ok [x03]] |})].
Definition snapshot_json (snapshot store : string) : res (list byte) := Ok (bytes snapshot ++ [x3a] ++ bytes store).
Definition archives : ArchiveSource := {|
  as_encoder := toy_encoder; as_chunk_json := json; as_snapshot_json := snapshot_json;
  as_chunk store d blob := Ok (d, blob) ∈ chunks;
  as_files store path l := l = files |}.
Definition op1 : writer_op toy_ns := OpChunks _ (write_args x22 commit_ok) chunks "store".
Definition op2 : writer_op toy_ns := OpSnapshot toy_ns (write_args x23 commit_ok) true "store" true files.
Definition op3 : writer_op toy_ns := OpCommit _ db_ok torn.
Definition state1 := run_writer (T:=MemWriter) (K:=unit) archives toy_ns op1 loaded.2.
Definition state2 := run_writer (T:=MemWriter) (K:=unit) archives toy_ns op2 state1.2.
Definition state3 := run_writer (T:=MemWriter) (K:=unit) archives toy_ns op3 state2.2.
Lemma results : loaded.1 = Ok tape1 /\ state1.1 = Ok tt /\ state2.1 = Ok tt /\ is_ok state3.1 = false.
Proof. vm_compute. split_and!; reflexivity. Qed.
(** The commit that is torn leaves a file that is rejected, the other one a catalog with the three chunks and the snapshot. *)
Definition op4 : writer_op toy_ns := OpCommit _ db_ok commit_ok.
Definition state4 := run_writer (T:=MemWriter) (K:=unit) archives toy_ns op4 state2.2.
Definition opened_catalog := MediaCatalog.open toy_io toy_ns open_ok tape_media false false state4.2.2.
Definition found : MediaCatalog := catalog_of opened_catalog.
Lemma opened_found : opened_catalog.1 = Ok found /\ lookup_chunk "store" (replicate 32 x01) found = Some 2 /\
  lookup_snapshot "store" "host/elsa/2024" found = Some 3.
Proof. vm_compute. split_and!; reflexivity. Qed.
Lemma torn_rejected : is_ok (MediaCatalog.open toy_io toy_ns open_ok tape_media false false state3.2.2).1 = false.
Proof. vm_compute. reflexivity. Qed.
Lemma media_found : exists b, pool_lookup_media tape1 pool' = Ok b /\ bm_id b = tape_media.
Proof.
  assert (is_ok (pool_lookup_media tape1 pool') = true) as Hok by (vm_compute; reflexivity).
  unfold tape_media. destruct (pool_lookup_media tape1 pool') as [b| |]; [|done..]. by exists b.
Qed.
Lemma tape_media_ok : media_ok tape_media.
Proof. split; [vm_compute; reflexivity|]. vm_compute. split; [reflexivity|]. split; discriminate. Qed.
Lemma split_result {A S} (x : res A * S) r : x.1 = r -> x = (r, x.2).
Proof. by destruct x; cbn; intros ->. Qed.
Lemma triple_eta {A B C} (x : A * B * C) : x = (x.1.1, x.1.2, x.2).
Proof. by destruct x as [[? ?] ?]. Qed.
Lemma split_state {A B C E} (x : res A * (B * C * E)) r : x.1 = r -> x = (r, (x.2.1.1, x.2.1.2, x.2.2)).
Proof. by destruct x as [? [[? ?] ?]]; cbn; intros ->. Qed.
Lemma writer_runs : rtc (writer_step (D:=MemDrive) (T:=MemWriter) (K:=unit) toy archives toy_ns) loaded.2 state2.2.
Proof.
  destruct results as (_ & Hr1 & Hr2 & _).
  eapply rtc_l; [|apply rtc_once].
  - exists op1. split; [split_and!; [reflexivity|reflexivity|intros c Hc; split; [by apply chunks_ok|by destruct c]]|]. exact (split_result _ _ Hr1).
  - exists op2. split; [split_and!; reflexivity|]. exact (split_result _ _ Hr2).
Qed.
Lemma tape_catalog_safe_witness :
  exists st, pw_status state4.2.1.1 = Some st /\
    lookup_chunk "store" (replicate 32 x01) found = Some 2 /\
    chunk_on_tape (R:=list byte) toy archives (take (td_durable (ps_drive st)) (td_files (ps_drive st))) 2 "store" (replicate 32 x01) /\
    snapshot_on_tape archives (take (td_durable (ps_drive st)) (td_files (ps_drive st))) 3 "store" "host/elsa/2024".
Proof.
  destruct media_found as (b & Hb & Hm). destruct opened_found as (Ho & Hc & Hs). destruct results as (Hl & _).
  pose proof (split_state _ _ Hl) as Hload. pose proof writer_runs as Hruns. rewrite (triple_eta loaded.2) in Hruns.
  pose proof (split_state state4 _ eq_refl) as H4.
  pose proof (split_result _ _ Ho) as Hopen.
  destruct (tape_catalog_safe (R:=list byte) toy archives toy_io toy_ns tape_media sort_by lockable (write_args x21 commit_ok) load_args
    catalog_json whole writer tapes empty_disk tape1 pool' tapes' disk' b blank (me_id (assigned_tape tape1 "p1" 0))
    loaded.2.1.1 loaded.2.1.2 loaded.2.2 state2.2 op4 state4.1 state4.2.1.1 state4.2.1.2 state4.2.2 open_ok false false (Ok found) opened_catalog.2
    alloc_ok Hb Hm tape_media_ok ltac:(discriminate) eq_refl eq_refl Hload Hruns I H4 ltac:(by split_and!) ltac:(done) Hopen)
    as (st & Hst & Hch & Hsn).
  exists st. split; [exact Hst|]. split; [exact Hc|]. split; [exact (Hch _ _ _ Hc)|exact (Hsn _ _ _ Hs)].
Defined.
Lemma snapshot_archive_correct_witness :
  exists t', tape_write_snapshot_archive 10 toy_encoder (Ok [x7b; x7d]) true (replicate 16 x23) 10 files
               {| mw_base := blank; mw_data := []; mw_closed := None |} = (Ok (Some (replicate 16 x23)), t') /\
    exists contents body, Forall2 delivers files contents /\ snapshot_encoded toy_encoder contents body.
Proof.
  assert (tw_stream [] {| mw_base := blank; mw_data := []; mw_closed := None |}) as Hs by (cbn; reflexivity).
  destruct (snapshot_archive_correct 10 toy_encoder (Ok [x7b; x7d]) true (replicate 16 x23) 10 files
    {| mw_base := blank; mw_data := []; mw_closed := None |} Hs) as [Hsafe Htotal].
  destruct (Htotal [x7b; x7d]) as [t' Ht].
  - reflexivity.
  - reflexivity.
  - constructor; [|constructor; [|constructor]].
    + exists (whole [x01; x02]), [[x01; x02]], []. split_and!; try reflexivity; [by repeat constructor|cbn; lia].
    + eexists _, [[x01; x02]; [x03]], []. split_and!; try reflexivity; [by repeat constructor|cbn; lia].
  - intros x t. eexists. reflexivity.
  - intros inc t. eexists _, _. reflexivity.
  - eexists. reflexivity.
  - intros name size e. eexists. reflexivity.
  - intros d e. eexists. reflexivity.
  - intros e. eexists. reflexivity.
  - exists t'. split; [exact Ht|]. destruct (Hsafe _ _ Ht) as (_ & hd & contents & body & _ & Hd & He & _). by exists contents, body.
Defined.
End WriterExample.
