(* ===== verification/BackupEnv.v ===== *)
(** * Backup sessions, [src/api2/backup/{environment,mod,upload_chunk}.rs]

    The server side of a running backup: chunks are registered, index files written
    and closed, blobs stored, and at the end the manifest is checked against what was
    uploaded and persisted.  Requests run concurrently; what a request does while it
    holds the mutex of the shared state is one function on [SharedBackupState] here
    (or several, where the code releases the mutex in between), and the methods are the
    sequences of these.  [with_lock] is [state.lock().unwrap()]: a panic while the lock
    is held poisons it.

    [published] has the files of the snapshot directory by path.  Outcomes of system and
    network calls are arguments. *)

From S2P Require Import Prelude IndexFile FixedIndex DynamicIndex DataBlob Manifest.
From Stdlib Require Import Strings.Byte.

Record UploadStatistic := {
  us_count : Z; us_size : Z; us_compressed_size : Z; us_duplicates : Z;
}.
Definition UploadStatistic_new : UploadStatistic :=
  {| us_count := 0; us_size := 0; us_compressed_size := 0; us_duplicates := 0 |}.
Definition UploadStatistic_add (a b : UploadStatistic) : UploadStatistic :=
  {| us_count := u64 (us_count a + us_count b); us_size := u64 (us_size a + us_size b);
     us_compressed_size := u64 (us_compressed_size a + us_compressed_size b);
     us_duplicates := u64 (us_duplicates a + us_duplicates b) |}.

(** [upload_stat.count += 1] and so on, when a chunk is registered. *)
Definition record_chunk (size compressed_size : Z) (is_duplicate : bool) (a : UploadStatistic)
    : UploadStatistic :=
  {| us_count := u64 (us_count a + 1); us_size := u64 (us_size a + size);
     us_compressed_size := u64 (us_compressed_size a + compressed_size);
     us_duplicates := if is_duplicate then u64 (us_duplicates a + 1) else us_duplicates a |}.

(** Derived by serde. *)
Definition stat_to_value (a : UploadStatistic) : Value := VObject [
  ("count", VNumber (us_count a)); ("size", VNumber (us_size a));
  ("compressed_size", VNumber (us_compressed_size a)); ("duplicates", VNumber (us_duplicates a))].

Record DynamicWriterState := {
  dw_name : string; dw_index : DynWriter.DynamicIndexWriter; dw_offset : Z; dw_chunk_count : Z;
  dw_upload_stat : UploadStatistic; dw_closed : bool;
}.
Record FixedWriterState := {
  fw_name : string; fw_index : Writer.FixedIndexWriter; fw_size : option Z; fw_chunk_size : Z;
  fw_chunk_count : Z; fw_small_chunk_count : Z; fw_upload_stat : UploadStatistic;
  fw_incremental : bool; fw_closed : bool;
}.

Inductive BackupState := Active | Finishing | Finished.
#[global] Instance BackupState_eq_dec : EqDecision BackupState.
Proof. solve_decision. Defined.

(** Which of the locks are held. *)
Record BackupLockGuards := {
  g_previous_snapshot : bool; g_group : bool; g_snapshot : bool; g_chunk_store : bool;
}.
Definition BackupLockGuards_new (previous_snapshot : bool) : BackupLockGuards :=
  {| g_previous_snapshot := previous_snapshot; g_group := true; g_snapshot := true;
     g_chunk_store := true |}.

Record SharedBackupState := {
  finished : BackupState;
  uid_counter : Z;
  file_counter : Z;
  dynamic_writers : gmap Z DynamicWriterState;
  fixed_writers : gmap Z FixedWriterState;
  known_chunks : gmap digest Z;
  backup_size : Z;
  backup_stat : UploadStatistic;
  backup_lock_guards : BackupLockGuards;
  manifest : option BackupManifest;
  uploaded_archives : gmap string digest;
}.

Abbreviation files_t := (gmap string (list byte)).
Record Session := { shared : SharedBackupState; published : files_t; poisoned : bool }.

Definition Session_new (guards : BackupLockGuards) : Session :=
  {| shared := {| finished := Active; uid_counter := 0; file_counter := 0; dynamic_writers := ∅;
                  fixed_writers := ∅; known_chunks := ∅; backup_size := 0;
                  backup_stat := UploadStatistic_new; backup_lock_guards := guards;
                  manifest := None; uploaded_archives := ∅ |};
     published := ∅; poisoned := false |}.

(** ** Updates of single fields *)
Definition set_known (k : gmap digest Z) (s : SharedBackupState) : SharedBackupState :=
  {| finished := finished s; uid_counter := uid_counter s; file_counter := file_counter s;
     dynamic_writers := dynamic_writers s; fixed_writers := fixed_writers s; known_chunks := k;
     backup_size := backup_size s; backup_stat := backup_stat s;
     backup_lock_guards := backup_lock_guards s; manifest := manifest s;
     uploaded_archives := uploaded_archives s |}.
Definition set_uid (u : Z) (s : SharedBackupState) : SharedBackupState :=
  {| finished := finished s; uid_counter := u; file_counter := file_counter s;
     dynamic_writers := dynamic_writers s; fixed_writers := fixed_writers s;
     known_chunks := known_chunks s; backup_size := backup_size s; backup_stat := backup_stat s;
     backup_lock_guards := backup_lock_guards s; manifest := manifest s;
     uploaded_archives := uploaded_archives s |}.
Definition set_dynamic (d : gmap Z DynamicWriterState) (s : SharedBackupState) : SharedBackupState :=
  {| finished := finished s; uid_counter := uid_counter s; file_counter := file_counter s;
     dynamic_writers := d; fixed_writers := fixed_writers s;
     known_chunks := known_chunks s; backup_size := backup_size s; backup_stat := backup_stat s;
     backup_lock_guards := backup_lock_guards s; manifest := manifest s;
     uploaded_archives := uploaded_archives s |}.
Definition set_fixed (f : gmap Z FixedWriterState) (s : SharedBackupState) : SharedBackupState :=
  {| finished := finished s; uid_counter := uid_counter s; file_counter := file_counter s;
     dynamic_writers := dynamic_writers s; fixed_writers := f;
     known_chunks := known_chunks s; backup_size := backup_size s; backup_stat := backup_stat s;
     backup_lock_guards := backup_lock_guards s; manifest := manifest s;
     uploaded_archives := uploaded_archives s |}.
Definition set_manifest (m : option BackupManifest) (s : SharedBackupState) : SharedBackupState :=
  {| finished := finished s; uid_counter := uid_counter s; file_counter := file_counter s;
     dynamic_writers := dynamic_writers s; fixed_writers := fixed_writers s;
     known_chunks := known_chunks s; backup_size := backup_size s; backup_stat := backup_stat s;
     backup_lock_guards := backup_lock_guards s; manifest := m;
     uploaded_archives := uploaded_archives s |}.
Definition set_state (f : BackupState) (g : BackupLockGuards) (s : SharedBackupState)
    : SharedBackupState :=
  {| finished := f; uid_counter := uid_counter s; file_counter := file_counter s;
     dynamic_writers := dynamic_writers s; fixed_writers := fixed_writers s;
     known_chunks := known_chunks s; backup_size := backup_size s; backup_stat := backup_stat s;
     backup_lock_guards := g; manifest := manifest s;
     uploaded_archives := uploaded_archives s |}.
(** A file was uploaded. *)
Definition set_uploaded (u : gmap string digest) (size : Z) (stat : UploadStatistic)
    (s : SharedBackupState) : SharedBackupState :=
  {| finished := finished s; uid_counter := uid_counter s; file_counter := u64 (file_counter s + 1);
     dynamic_writers := dynamic_writers s; fixed_writers := fixed_writers s;
     known_chunks := known_chunks s; backup_size := u64 (backup_size s + size); backup_stat := stat;
     backup_lock_guards := backup_lock_guards s; manifest := manifest s; uploaded_archives := u |}.

(** ** What happens under the lock *)
Definition ensure_unfinished (s : SharedBackupState) : res unit :=
  match finished s with
  | Active => Ok tt
  | Finishing => Err "backup is already in the process of finishing."
  | Finished => Err "backup already marked as finished."
  end.

Definition next_uid (s : SharedBackupState) : Z * SharedBackupState :=
  let u := u64 (uid_counter s + 1) in (u, set_uid u s).

Definition register_chunk (d : digest) (length : Z) (s : SharedBackupState)
    : res unit * SharedBackupState :=
  try! _ := ensure_unfinished s for s in
  (Ok tt, set_known (<[d:=length]> (known_chunks s)) s).

Definition register_fixed_chunk (wid : Z) (d : digest) (size compressed_size : Z)
    (is_duplicate : bool) (s : SharedBackupState) : res unit * SharedBackupState :=
  try! _ := ensure_unfinished s for s in
  match fixed_writers s !! wid with
  | None => (Err "fixed writer not registered", s)
  | Some data =>
      if fw_closed data then (Err "fixed writer register chunk failed - already closed", s) else
      if fw_chunk_size data <? size then (Err "fixed writer - got large chunk", s) else
      let small := if size <? fw_chunk_size data then u64 (fw_small_chunk_count data + 1)
                   else fw_small_chunk_count data in
      let set st :=
        set_fixed (<[wid:={| fw_name := fw_name data; fw_index := fw_index data;
                             fw_size := fw_size data; fw_chunk_size := fw_chunk_size data;
                             fw_chunk_count := fw_chunk_count data; fw_small_chunk_count := small;
                             fw_upload_stat := st; fw_incremental := fw_incremental data;
                             fw_closed := fw_closed data |}]> (fixed_writers s)) s in
      if (size <? fw_chunk_size data) && (1 <? small)
      then (Err "fixed writer - detected multiple end chunks (chunk size too small)",
            set (fw_upload_stat data))
      else
        let s := set (record_chunk size compressed_size is_duplicate (fw_upload_stat data)) in
        (Ok tt, set_known (<[d:=size]> (known_chunks s)) s)
  end.

Definition register_dynamic_chunk (wid : Z) (d : digest) (size compressed_size : Z)
    (is_duplicate : bool) (s : SharedBackupState) : res unit * SharedBackupState :=
  try! _ := ensure_unfinished s for s in
  match dynamic_writers s !! wid with
  | None => (Err "dynamic writer not registered", s)
  | Some data =>
      if dw_closed data then (Err "dynamic writer register chunk failed - already closed", s) else
      let s := set_dynamic (<[wid:={|
                 dw_name := dw_name data; dw_index := dw_index data; dw_offset := dw_offset data;
                 dw_chunk_count := dw_chunk_count data;
                 dw_upload_stat := record_chunk size compressed_size is_duplicate (dw_upload_stat data);
                 dw_closed := dw_closed data |}]> (dynamic_writers s)) s in
      (Ok tt, set_known (<[d:=size]> (known_chunks s)) s)
  end.

Definition lookup_chunk (d : digest) (s : SharedBackupState) : option Z := known_chunks s !! d.

Definition register_dynamic_writer (index : DynWriter.DynamicIndexWriter) (name : string)
    (s : SharedBackupState) : res Z * SharedBackupState :=
  try! _ := ensure_unfinished s for s in
  let '(uid, s) := next_uid s in
  (Ok uid, set_dynamic (<[uid:={| dw_name := name; dw_index := index; dw_offset := 0;
                                  dw_chunk_count := 0; dw_upload_stat := UploadStatistic_new;
                                  dw_closed := false |}]> (dynamic_writers s)) s).

Definition register_fixed_writer (index : Writer.FixedIndexWriter) (name : string) (size : option Z)
    (chunk_size : Z) (incremental : bool) (s : SharedBackupState) : res Z * SharedBackupState :=
  try! _ := ensure_unfinished s for s in
  let '(uid, s) := next_uid s in
  (Ok uid, set_fixed (<[uid:={| fw_name := name; fw_index := index; fw_size := size;
                                fw_chunk_size := chunk_size; fw_chunk_count := 0;
                                fw_small_chunk_count := 0; fw_upload_stat := UploadStatistic_new;
                                fw_incremental := incremental; fw_closed := false |}]>
                       (fixed_writers s)) s).

Definition register_manifest (m : BackupManifest) (s : SharedBackupState)
    : res unit * SharedBackupState :=
  try! _ := ensure_unfinished s for s in (Ok tt, set_manifest (Some m) s).

Definition dw_with (data : DynamicWriterState) (index : DynWriter.DynamicIndexWriter)
    (offset count : Z) (closed : bool) : DynamicWriterState :=
  {| dw_name := dw_name data; dw_index := index; dw_offset := offset; dw_chunk_count := count;
     dw_upload_stat := dw_upload_stat data; dw_closed := closed |}.
Definition fw_with (data : FixedWriterState) (index : Writer.FixedIndexWriter) (count : Z)
    (closed : bool) : FixedWriterState :=
  {| fw_name := fw_name data; fw_index := index; fw_size := fw_size data;
     fw_chunk_size := fw_chunk_size data; fw_chunk_count := count;
     fw_small_chunk_count := fw_small_chunk_count data; fw_upload_stat := fw_upload_stat data;
     fw_incremental := fw_incremental data; fw_closed := closed |}.

(** [data.offset] and [data.chunk_count] change before the index does. *)
Definition dynamic_writer_append_chunk (io : DynWriter.Io) (wid offset size : Z) (d : digest)
    (s : SharedBackupState) : res unit * SharedBackupState :=
  try! _ := ensure_unfinished s for s in
  match dynamic_writers s !! wid with
  | None => (Err "dynamic writer not registered", s)
  | Some data =>
      if dw_closed data then (Err "dynamic writer append chunk failed - already closed", s) else
      if negb (dw_offset data =? offset)
      then (Err "dynamic writer append chunk failed - got strange chunk offset", s) else
      let offset := u64 (dw_offset data + size) in
      let count := u64 (dw_chunk_count data + 1) in
      let '(r, index) := DynWriter.add_chunk io offset d (dw_index data) in
      (r, set_dynamic (<[wid:=dw_with data index offset count false]> (dynamic_writers s)) s)
  end.

Definition fixed_writer_append_chunk (io : Writer.Io) (wid offset size : Z) (d : digest)
    (s : SharedBackupState) : res unit * SharedBackupState :=
  try! _ := ensure_unfinished s for s in
  match fixed_writers s !! wid with
  | None => (Err "fixed writer not registered", s)
  | Some data =>
      if fw_closed data then (Err "fixed writer append chunk failed - already closed", s) else
      let '(r, index) := Writer.add_chunk io offset size d (fw_index data) in
      let count := if is_ok r then u64 (fw_chunk_count data + 1) else fw_chunk_count data in
      (r, set_fixed (<[wid:=fw_with data index count false]> (fixed_writers s)) s)
  end.

Section session.
Variables (P : Prims) (J : JsonLib).
(** The path of a file of the snapshot. *)
Variable blob_path : string -> string.

(** [dynamic_writer_close] up to [drop(state)]. *)
Definition dynamic_close_locked (io : DynWriter.Io) (wid chunk_count size : Z) (csum : digest)
    (s : SharedBackupState) (fs : files_t) : res unit * (SharedBackupState * files_t) :=
  try! _ := ensure_unfinished s for (s, fs) in
  match dynamic_writers s !! wid with
  | None => (Err "dynamic writer not registered", (s, fs))
  | Some data =>
      if dw_closed data then (Err "dynamic writer close failed - already closed", (s, fs)) else
      if negb (dw_chunk_count data =? chunk_count)
      then (Err "dynamic writer close failed - unexpected chunk count", (s, fs)) else
      if negb (dw_offset data =? size)
      then (Err "dynamic writer close failed - unexpected file size", (s, fs)) else
      let '(r, (index, fs)) := DynWriter.close io (sha256 P) (dw_index data) fs in
      let set closed := set_dynamic
        (<[wid:=dw_with data index (dw_offset data) (dw_chunk_count data) closed]> (dynamic_writers s)) s in
      match r with
      | Ok expected_csum =>
          let s := set true in
          if negb (bool_decide (csum = expected_csum))
          then (Err "dynamic writer close failed - got unexpected checksum", (s, fs)) else
          (Ok tt, (set_uploaded (<[dw_name data:=csum]> (uploaded_archives s)) size
                     (UploadStatistic_add (backup_stat s) (dw_upload_stat data)) s, fs))
      | Err e => (Err e, (set false, fs))
      | Panic e => (Panic e, (set false, fs))
      end
  end.

(** The end of [dynamic_writer_close]. *)
Definition dynamic_close_remove (wid : Z) (s : SharedBackupState) : res unit * SharedBackupState :=
  match dynamic_writers s !! wid with
  | None => (Err "dynamic writer no longer registered", s)
  | Some _ => (Ok tt, set_dynamic (delete wid (dynamic_writers s)) s)
  end.

(** The checks of [fixed_writer_close] on the index before it is closed. *)
Definition fixed_close_check (data : FixedWriterState) (index : Writer.FixedIndexWriter)
    (chunk_count size : Z) : res unit :=
  if fw_incremental data then Ok tt else
  if negb (chunk_count =? Writer.index_length index)
  then Err "fixed writer close failed - unexpected chunk count" else
  let? _ := match fw_size data with
            | Some known_size =>
                if negb (size =? known_size)
                then Err "fixed writer close failed - unexpected file size" else Ok tt
            | None => Ok tt
            end in
  if negb (size =? Writer.size index) then Err "fixed writer close failed - unexpected size"
  else Ok tt.

(** An index of unknown size grows to the size that the client reports. *)
Definition fixed_close_grow (io_grow : Writer.Io) (size : Z) (data : FixedWriterState)
    : res unit * Writer.FixedIndexWriter :=
  if fw_incremental data && negb (bool_decide (is_Some (fw_size data)))
  then Writer.grow_to_size io_grow size (fw_index data) else (Ok tt, fw_index data).

(** [fixed_writer_close] up to [drop(state)]; [io_grow] and [io] are the outcomes of
    [grow_to_size] and [close]. *)
Definition fixed_close_locked (io_grow io : Writer.Io) (wid chunk_count size : Z) (csum : digest)
    (s : SharedBackupState) (fs : files_t) : res unit * (SharedBackupState * files_t) :=
  try! _ := ensure_unfinished s for (s, fs) in
  match fixed_writers s !! wid with
  | None => (Err "fixed writer not registered", (s, fs))
  | Some data =>
      if fw_closed data then (Err "fixed writer close failed - already closed", (s, fs)) else
      if negb (fw_chunk_count data =? chunk_count)
      then (Err "fixed writer close failed - received wrong number of chunk", (s, fs)) else
      let set index closed := set_fixed
        (<[wid:=fw_with data index (fw_chunk_count data) closed]> (fixed_writers s)) s in
      let '(r, index) := fixed_close_grow io_grow size data in
      try! _ := r for (set index false, fs) in
      try! _ := fixed_close_check data index chunk_count size for (set index false, fs) in
      let '(r, (index, fs)) := Writer.close io (sha256 P) index fs in
      match r with
      | Ok expected_csum =>
          let s := set index true in
          if negb (bool_decide (csum = expected_csum))
          then (Err "fixed writer close failed - got unexpected checksum", (s, fs)) else
          (Ok tt, (set_uploaded (<[fw_name data:=csum]> (uploaded_archives s)) size
                     (UploadStatistic_add (backup_stat s) (fw_upload_stat data)) s, fs))
      | Err e => (Err e, (set index false, fs))
      | Panic e => (Panic e, (set index false, fs))
      end
  end.

Definition fixed_close_remove (wid : Z) (s : SharedBackupState) : res unit * SharedBackupState :=
  match fixed_writers s !! wid with
  | None => (Err "dynamic writer no longer registered", s)
  | Some _ => (Ok tt, set_fixed (delete wid (fixed_writers s)) s)
  end.

(** The end of [add_blob]. *)
Definition add_blob_commit (name : string) (blob_csum : digest) (len : Z) (s : SharedBackupState)
    : res unit * SharedBackupState :=
  let archives := if bool_decide (name = MANIFEST_BLOB_NAME) then uploaded_archives s
                  else <[name:=blob_csum]> (uploaded_archives s) in
  let st := backup_stat s in
  (Ok tt, set_uploaded archives len
            {| us_count := us_count st; us_size := u64 (us_size st + len);
               us_compressed_size := us_compressed_size st; us_duplicates := us_duplicates st |} s).

(** The loop of [finish_backup] over the files of the manifest. *)
Fixpoint check_files (files : list FileInfo) (archives : gmap string digest) : res unit :=
  match files with
  | [] => Ok tt
  | f :: files =>
      match archives !! fi_filename f with
      | Some csum => if negb (bool_decide (csum = fi_csum f))
                     then Err "manifest contains archive with checksum mismatch"
                     else check_files files archives
      | None => Err "manifest contains archive not uploaded during backup"
      end
  end.

(** [finish_backup] up to [drop(state)].  [last_backup] tells for the base snapshot, if there
    is one, whether it still exists. *)
Definition finish_locked (last_backup : option bool) (s : SharedBackupState)
    : res DataBlob * SharedBackupState :=
  try! _ := ensure_unfinished s for s in
  if negb (bool_decide (dynamic_writers s = ∅)) || negb (bool_decide (fixed_writers s = ∅))
  then (Err "found open index writer - unable to finish backup", s) else
  if file_counter s =? 0 then (Err "backup does not contain valid files (file count == 0)", s) else
  if bool_decide (last_backup = Some false)
  then (Err "base snapshot was removed during backup, cannot finish as chunks might be missing", s) else
  let g := backup_lock_guards s in
  let s := set_state (finished s) {| g_previous_snapshot := false; g_group := g_group g;
                                     g_snapshot := g_snapshot g; g_chunk_store := false |} s in
  match manifest s with
  | None => (Err "no backup manifest uploaded", s)
  | Some m =>
      let s := set_manifest None s in
      try! unprot := value_index_mut (unprotected m) "chunk_upload_stats"
                       (stat_to_value (backup_stat s)) for s in
      let m := with_unprotected m unprot in
      try! _ := check_files (m_files m) (uploaded_archives s) for s in
      try! manifest_blob := to_data_blob P J m None for s in
      (Ok manifest_blob, set_state Finishing (backup_lock_guards s) s)
  end.

(** The end of [finish_backup]; [sync] is the outcome of [try_ensure_sync_level]. *)
Definition finish_commit (sync : res unit) (s : SharedBackupState) : res unit * SharedBackupState :=
  if negb (bool_decide (finished s = Finishing))
  then (Err "backup not in finishing state after manifest update", s) else
  try! _ := sync for s in
  let g := backup_lock_guards s in
  (Ok tt, set_state Finished {| g_previous_snapshot := g_previous_snapshot g; g_group := false;
                                g_snapshot := false; g_chunk_store := g_chunk_store g |} s).

(** ** The methods *)
Definition with_lock {A}
    (f : SharedBackupState -> files_t -> res A * (SharedBackupState * files_t)) (s : Session)
    : res A * Session :=
  if poisoned s then (Panic "called `Result::unwrap()` on an `Err` value: PoisonError", s) else
  let '(r, (sh, fs)) := f (shared s) (published s) in
  (r, {| shared := sh; published := fs; poisoned := is_panic r |}).
Definition lift {A} (f : SharedBackupState -> res A * SharedBackupState) (sh : SharedBackupState)
    (fs : files_t) : res A * (SharedBackupState * files_t) :=
  let '(r, sh) := f sh in (r, (sh, fs)).

(** [DataStore::add_blob] with the outcomes of the upload and of [replace_file]. *)
Definition datastore_add_blob (s3 replace : res unit) (name : string) (blob : DataBlob) (s : Session)
    : res unit * Session :=
  try! _ := s3 for s in
  try! _ := replace for s in
  (Ok tt, {| shared := shared s; published := <[blob_path name:=raw_data blob]> (published s);
             poisoned := poisoned s |}).

(** [upload] is the outcome of [upload_index_to_backend]. *)
Definition dynamic_writer_close (io : DynWriter.Io) (upload : res bool) (wid chunk_count size : Z)
    (csum : digest) (s : Session) : res unit * Session :=
  let! _, s := with_lock (dynamic_close_locked io wid chunk_count size csum) s in
  try! _ := upload for s in
  with_lock (lift (dynamic_close_remove wid)) s.

Definition fixed_writer_close (io_grow io : Writer.Io) (upload : res bool) (wid chunk_count size : Z)
    (csum : digest) (s : Session) : res unit * Session :=
  let! _, s := with_lock (fixed_close_locked io_grow io wid chunk_count size csum) s in
  try! _ := upload for s in
  with_lock (lift (fixed_close_remove wid)) s.

Definition add_blob (s3 replace : res unit) (name : string) (data : list byte) (s : Session)
    : res unit * Session :=
  try! blob := load_from_reader P (Ok data) for s in
  let blob_csum := DataBlob.csum P blob in
  let! _, s :=
    if bool_decide (name = MANIFEST_BLOB_NAME) then
      try! m := manifest_try_from P J blob for s in with_lock (lift (register_manifest m)) s
    else datastore_add_blob s3 replace name blob s in
  with_lock (lift (add_blob_commit name blob_csum (Z.of_nat (length data)))) s.

Definition finish_backup (last_backup : option bool) (s3 replace sync : res unit) (s : Session)
    : res unit * Session :=
  let! manifest_blob, s := with_lock (lift (finish_locked last_backup)) s in
  let! _, s := datastore_add_blob s3 replace MANIFEST_BLOB_NAME manifest_blob s in
  with_lock (lift (finish_commit sync)) s.

Definition is_session_finished (s : Session) : res bool :=
  if poisoned s then Panic "called `Result::unwrap()` on an `Err` value: PoisonError"
  else Ok (bool_decide (finished (shared s) = Finished)).
Definition ensure_finished (s : Session) : res unit :=
  let? f := is_session_finished s in
  if negb f then Err "backup ended but finished state is not set." else Ok tt.

(** The end of [upgrade_to_backup_protocol]: what happens when the connection is closed.  The
    result tells whether the snapshot is removed, and the outcome of the task. *)
Definition session_end (benchmark : bool) (conn : res unit) (s : Session) : res (bool * res unit) :=
  if benchmark then Ok (true, Ok tt) else
  match conn, ensure_finished s with
  | _, Panic e => Panic e
  | Panic e, _ => Panic e
  | Ok _, Ok _ => Ok (false, Ok tt)
  | Err _, Ok _ => Ok (false, Ok tt)
  | Ok _, Err e => Ok (true, Err e)
  | Err e, Err _ => Ok (true, Err e)
  end.
End session.

(** ** API handlers, [src/api2/backup/mod.rs] *)

(** [dynamic_append] and [fixed_append]: digests and offsets after parsing. *)
Fixpoint dynamic_append_loop (wid : Z) (l : list (res digest * Z * DynWriter.Io)) (s : Session)
    : res unit * Session :=
  match l with
  | [] => (Ok tt, s)
  | (d, offset, io) :: l =>
      try! d := d for s in
      let! size, s := with_lock (lift (fun sh => (Ok (lookup_chunk d sh), sh))) s in
      try! size := ok_or size "no such chunk" for s in
      let! _, s := with_lock (lift (dynamic_writer_append_chunk io wid offset size d)) s in
      dynamic_append_loop wid l s
  end.
Definition dynamic_append (wid : Z) (digest_list : list (res digest)) (offset_list : list Z)
    (ios : list DynWriter.Io) (s : Session) : res unit * Session :=
  if negb (length offset_list =? length digest_list)%nat then (Err "offset list has wrong length", s)
  else dynamic_append_loop wid (zip (zip digest_list offset_list) ios) s.

Fixpoint fixed_append_loop (wid : Z) (l : list (res digest * Z * Writer.Io)) (s : Session)
    : res unit * Session :=
  match l with
  | [] => (Ok tt, s)
  | (d, offset, io) :: l =>
      try! d := d for s in
      let! size, s := with_lock (lift (fun sh => (Ok (lookup_chunk d sh), sh))) s in
      try! size := ok_or size "no such chunk" for s in
      let! _, s := with_lock (lift (fixed_writer_append_chunk io wid offset size d)) s in
      fixed_append_loop wid l s
  end.
Definition fixed_append (wid : Z) (digest_list : list (res digest)) (offset_list : list Z)
    (ios : list Writer.Io) (s : Session) : res unit * Session :=
  if negb (length offset_list =? length digest_list)%nat then (Err "offset list has wrong length", s)
  else fixed_append_loop wid (zip (zip digest_list offset_list) ios) s.

(** [create_dynamic_index] after parsing: [writer] is the outcome of
    [create_dynamic_writer]. *)
Definition create_dynamic_index (is_dynamic : bool) (archive_name : string)
    (writer : res DynWriter.DynamicIndexWriter) (s : Session) : res Z * Session :=
  if negb is_dynamic then (Err "wrong archive extension", s) else
  try! index := writer for s in
  with_lock (lift (register_dynamic_writer index archive_name)) s.

(** [create_fixed_index] after parsing.  [previous] is the index of the previous backup, if there
    is one, with the outcome of opening it; [writer] that of [create_fixed_writer]. *)
Definition create_fixed_index (P : Prims) (hex : list byte -> string) (is_fixed : bool)
    (archive_name : string) (size : option Z) (reuse_csum : option string)
    (previous : option (res Reader.FixedIndexReader)) (writer : res Writer.FixedIndexWriter)
    (io : Writer.Io) (s : Session) : res Z * Session :=
  if negb is_fixed then (Err "wrong archive extension", s) else
  let chunk_size := FIXED_CHUNK_SIZE in
  try! reader :=
    match reuse_csum with
    | None => Ok None
    | Some csum =>
        match size with
        | None => Err "size is required for incremental backups"
        | Some _ =>
            match previous with
            | None => Err "cannot reuse index - no valid previous backup exists"
            | Some (Ok index) =>
                let? (old_csum, _) := Reader.compute_csum (sha256 P) index in
                if negb (bool_decide (hex old_csum = csum))
                then Err "expected csum doesn't match last backup's, cannot do incremental backup"
                else Ok (Some index)
            | Some _ => Err "cannot reuse index - no previous backup exists for archive"
            end
        end
    end for s in
  try! writer := writer for s in
  try! writer :=
    match reader with
    | Some reader =>
        if negb (Writer.index_length writer =? Reader.index_count reader)
        then Err "cannot reuse index - index sizes not equal" else
        match Writer.clone_data_from io reader writer with
        | (Ok _, w) => Ok w
        | (Err e, _) => Err e
        | (Panic e, _) => Panic e
        end
    | None => Ok writer
    end for s in
  with_lock (lift (register_fixed_writer writer archive_name size chunk_size
                     (bool_decide (is_Some reuse_csum)))) s.

(** The loop of [download_previous]: all chunks of an index of the previous backup. *)
Fixpoint register_index {I} `{IndexFile I} (index : I) (n : nat) (pos : Z) (s : Session)
    : res unit * Session :=
  match n with
  | O => (Ok tt, s)
  | S n =>
      try! info := unwrap (chunk_info index pos) for s in
      let size := ChunkReadInfo_size info in
      let! _, s := with_lock (lift (register_chunk (cri_digest info) (u32 size))) s in
      register_index index n (pos + 1) s
  end.

(** ** Chunk uploads, [src/api2/backup/upload_chunk.rs] *)
Section upload.
Variable P : Prims.

(** [UploadChunk::poll] until it is ready: the pieces the stream delivers. *)
Fixpoint upload_chunk (stream : list (res (list byte))) (d : digest) (size encoded_size : Z)
    (raw_data : list byte) : res (digest * Z * DataBlob) :=
  match stream with
  | Ok input :: stream =>
      if encoded_size <? Z.of_nat (length raw_data) + Z.of_nat (length input)
      then Err "uploaded chunk is larger than announced."
      else upload_chunk stream d size encoded_size (raw_data ++ input)
  | Err e :: _ => Err e
  | Panic e :: _ => Panic e
  | [] =>
      if negb (Z.of_nat (length raw_data) =? encoded_size)
      then Err "uploaded chunk has unexpected size." else
      let? chunk := from_raw raw_data in
      let? _ := verify_unencrypted P chunk size d in
      let? c := compute_crc P chunk in
      let? chunk := set_crc c chunk in
      Ok (d, size, chunk)
  end.

(** [upload_to_backend]: [insert] is the outcome of [insert_chunk], whether the chunk was there
    and its size on disk. *)
Definition upload_to_backend (insert : DataBlob -> digest -> res (bool * Z))
    (stream : list (res (list byte))) (d : digest) (size encoded_size : Z)
    : res (digest * Z * Z * bool) :=
  let? (d, size, chunk) := upload_chunk stream d size encoded_size [] in
  let? (is_duplicate, chunk_size) := insert chunk d in
  Ok (d, size, u32 chunk_size, is_duplicate).

Definition upload_fixed_chunk (insert : DataBlob -> digest -> res (bool * Z)) (wid : Z)
    (stream : list (res (list byte))) (d : digest) (size encoded_size : Z) (s : Session)
    : res digest * Session :=
  try! (d, size, compressed_size, is_duplicate) :=
    upload_to_backend insert stream d size encoded_size for s in
  let! _, s := with_lock (lift (register_fixed_chunk wid d size compressed_size is_duplicate)) s in
  (Ok d, s).

Definition upload_dynamic_chunk (insert : DataBlob -> digest -> res (bool * Z)) (wid : Z)
    (stream : list (res (list byte))) (d : digest) (size encoded_size : Z) (s : Session)
    : res digest * Session :=
  try! (d, size, compressed_size, is_duplicate) :=
    upload_to_backend insert stream d size encoded_size for s in
  let! _, s := with_lock (lift (register_dynamic_chunk wid d size compressed_size is_duplicate)) s in
  (Ok d, s).

(** [upload_blob] after parsing. *)
Definition upload_blob (J : JsonLib) (blob_path : string -> string) (is_blob : bool) (name : string)
    (encoded_size : Z) (data : res (list byte)) (s3 replace : res unit) (s : Session)
    : res unit * Session :=
  if negb is_blob then (Err "wrong blob file extension", s) else
  try! data := data for s in
  if negb (encoded_size =? Z.of_nat (length data)) then (Err "got blob with unexpected length", s)
  else add_blob P J blob_path s3 replace name data s.
End upload.
