(* ===== verification/BackupEnvSpec.v ===== *)
(** * Backup sessions: interleaved requests, what a finished backup guarantees *)

From S2P Require Import Prelude IndexFile FixedIndex DynamicIndex DynamicIndexSpec DataBlob.
From S2P Require Import DataBlobSpec Manifest BackupEnv.
From Stdlib Require Import Strings.Byte.

(** ** Sessions as transition systems

    A request is cut where the code does not hold the mutex; the rest of a request that
    goes on is kept in [pend], and any of these may continue next. *)
Module Trace.
(** Requests that take the lock once. *)
Inductive request :=
| RChunk (d : digest) (len : Z)
| RFixedChunk (wid : Z) (d : digest) (size compressed_size : Z) (dup : bool)
| RDynamicChunk (wid : Z) (d : digest) (size compressed_size : Z) (dup : bool)
| RNewDynamic (index : DynWriter.DynamicIndexWriter) (name : string)
| RNewFixed (index : Writer.FixedIndexWriter) (name : string) (size : option Z) (incremental : bool)
| RAppendDynamic (io : DynWriter.Io) (wid offset size : Z) (d : digest)
| RAppendFixed (io : Writer.Io) (wid offset size : Z) (d : digest).

Definition run_request (r : request) (s : SharedBackupState) : res unit * SharedBackupState :=
  match r with
  | RChunk d len => register_chunk d len s
  | RFixedChunk wid d size csize dup => register_fixed_chunk wid d size csize dup s
  | RDynamicChunk wid d size csize dup => register_dynamic_chunk wid d size csize dup s
  | RNewDynamic index name => let '(r, s) := register_dynamic_writer index name s in (const tt <$> r, s)
  | RNewFixed index name size incremental =>
      let '(r, s) := register_fixed_writer index name size FIXED_CHUNK_SIZE incremental s in
      (const tt <$> r, s)
  | RAppendDynamic io wid offset size d => dynamic_writer_append_chunk io wid offset size d s
  | RAppendFixed io wid offset size d => fixed_writer_append_chunk io wid offset size d s
  end.

(** The rest of a request. *)
Inductive pending :=
| PCloseDynamic (wid : Z)
| PCloseFixed (wid : Z)
| PBlobCommit (name : string) (csum : digest) (raw : list byte)
| PFinishStore (blob : DataBlob)
| PFinishCommit.

(** What was uploaded: the writer of an index when it was closed, or the bytes of a blob. *)
Inductive event :=
| ClosedDynamic (name : string) (index : DynWriter.DynamicIndexWriter)
| ClosedFixed (name : string) (index : Writer.FixedIndexWriter)
| UploadedBlob (name : string) (csum : digest) (raw : list byte).

Inductive label :=
| LRequest (r : request)
| LCloseDynamic (io : DynWriter.Io) (wid chunk_count size : Z) (csum : digest)
| LCloseFixed (io_grow io : Writer.Io) (wid chunk_count size : Z) (csum : digest)
| LBlob (s3 replace : res unit) (name : string) (data : list byte)
| LFinish (last_backup : option bool)
| LContinue (i : nat) (upload : res bool) (s3 replace sync : res unit).

(** [confirmed] is the manifest that [finish_backup] checked. *)
Record config := {
  sess : Session; pend : list pending; log : list event; confirmed : option BackupManifest;
}.

Section exec.
Variables (P : Prims) (J : JsonLib) (blob_path : string -> string).

Definition init (previous : bool) : config :=
  {| sess := Session_new (BackupLockGuards_new previous); pend := []; log := []; confirmed := None |}.

(** After the part of a request with outcome [r] and state [s]: [more] continues it on success. *)
Definition after {A} (c : config) (rs : res A * Session) (more : A -> list pending * list event)
    : config :=
  let '(r, s) := rs in
  match r with
  | Ok a => {| sess := s; pend := pend c ++ (more a).1; log := log c ++ (more a).2;
               confirmed := confirmed c |}
  | _ => {| sess := s; pend := pend c; log := log c; confirmed := confirmed c |}
  end.

Definition closed_dynamic (c : config) (wid : Z) : list event :=
  match dynamic_writers (shared (sess c)) !! wid with
  | Some data => [ClosedDynamic (dw_name data) (dw_index data)]
  | None => []
  end.
Definition closed_fixed (c : config) (io_grow : Writer.Io) (wid size : Z) : list event :=
  match fixed_writers (shared (sess c)) !! wid with
  | Some data => [ClosedFixed (fw_name data) (fixed_close_grow io_grow size data).2]
  | None => []
  end.

Definition start_blob (s3 replace : res unit) (name : string) (data : list byte) (c : config) : config :=
  match load_from_reader P (Ok data) with
  | Ok blob =>
      after c
        (if bool_decide (name = MANIFEST_BLOB_NAME) then
           try! m := manifest_try_from P J blob for (sess c) in
           with_lock (lift (register_manifest m)) (sess c)
         else datastore_add_blob blob_path s3 replace name blob (sess c))
        (fun _ => ([PBlobCommit name (DataBlob.csum P blob) data], []))
  | _ => c
  end.

Definition start_finish (last_backup : option bool) (c : config) : config :=
  match with_lock (lift (finish_locked P J last_backup)) (sess c) with
  | (Ok blob, s) => {| sess := s; pend := pend c ++ [PFinishStore blob]; log := log c;
                       confirmed := manifest (shared (sess c)) |}
  | (_, s) => {| sess := s; pend := pend c; log := log c; confirmed := confirmed c |}
  end.

Definition continue (p : pending) (upload : res bool) (s3 replace sync : res unit) (c : config) : config :=
  match p with
  | PCloseDynamic wid =>
      match upload with
      | Ok _ => after c (with_lock (lift (dynamic_close_remove wid)) (sess c)) (fun _ => ([], []))
      | _ => c
      end
  | PCloseFixed wid =>
      match upload with
      | Ok _ => after c (with_lock (lift (fixed_close_remove wid)) (sess c)) (fun _ => ([], []))
      | _ => c
      end
  | PBlobCommit name csum raw =>
      after c (with_lock (lift (add_blob_commit name csum (Z.of_nat (length raw)))) (sess c))
        (fun _ => ([], [UploadedBlob name csum raw]))
  | PFinishStore blob =>
      after c (datastore_add_blob blob_path s3 replace MANIFEST_BLOB_NAME blob (sess c))
        (fun _ => ([PFinishCommit], []))
  | PFinishCommit => after c (with_lock (lift (finish_commit sync)) (sess c)) (fun _ => ([], []))
  end.

Definition exec (l : label) (c : config) : config :=
  match l with
  | LRequest r => after c (with_lock (lift (run_request r)) (sess c)) (fun _ => ([], []))
  | LCloseDynamic io wid count size csum =>
      after c (with_lock (dynamic_close_locked P io wid count size csum) (sess c))
        (fun _ => ([PCloseDynamic wid], closed_dynamic c wid))
  | LCloseFixed io_grow io wid count size csum =>
      after c (with_lock (fixed_close_locked P io_grow io wid count size csum) (sess c))
        (fun _ => ([PCloseFixed wid], closed_fixed c io_grow wid size))
  | LBlob s3 replace name data => start_blob s3 replace name data c
  | LFinish last_backup => start_finish last_backup c
  | LContinue i upload s3 replace sync =>
      match pend c !! i with
      | Some p =>
          continue p upload s3 replace sync
            {| sess := sess c; pend := delete i (pend c); log := log c; confirmed := confirmed c |}
      | None => c
      end
  end.

Definition run (ls : list label) (c : config) : config := foldl (fun c l => exec l c) c ls.

(** ** The invariant *)

(** The checksum of a dynamic index is that of all entries given to its writer, the one of a fixed index that of
    the digests in the mapped file. *)
Definition dynamic_csum (index : DynWriter.DynamicIndexWriter) (csum : digest) : Prop :=
  exists absorbed, DynWriter.csum index = Some absorbed /\ csum = sha256 P absorbed.
Definition fixed_csum (index : Writer.FixedIndexWriter) (csum : digest) : Prop :=
  exists digests, slice (Writer.file index) HEADER_SIZE (HEADER_SIZE + u64 (Writer.index_length index * 32)) = Ok digests /\
    csum = sha256 P digests.
Definition uploaded (log : list event) (name : string) (csum : digest) : Prop :=
  (exists index, ClosedDynamic name index ∈ log /\ dynamic_csum index csum) \/
  (exists index, ClosedFixed name index ∈ log /\ fixed_csum index csum) \/
  exists raw blob, UploadedBlob name csum raw ∈ log /\ load_from_reader P (Ok raw) = Ok blob /\
    csum = sha256 P raw.

Definition is_finish (p : pending) : bool :=
  match p with PFinishStore _ | PFinishCommit => true | _ => false end.

(** The blob of the confirmed manifest, with the statistics added. *)
Definition manifest_blob (c : config) (blob : DataBlob) : Prop :=
  exists m stats, confirmed c = Some m /\
    (let? unprot := value_index_mut (unprotected m) "chunk_upload_stats" stats in
     to_data_blob P J (with_unprotected m unprot) None) = Ok blob.
Definition manifest_stored (c : config) : Prop :=
  exists blob, manifest_blob c blob /\
    published (sess c) !! blob_path MANIFEST_BLOB_NAME = Some (raw_data blob).

Record inv (c : config) : Prop := {
  i_archives name csum :
    uploaded_archives (shared (sess c)) !! name = Some csum -> uploaded (log c) name csum;
  i_blobs name csum raw : PBlobCommit name csum raw ∈ pend c ->
    exists blob, load_from_reader P (Ok raw) = Ok blob /\ csum = sha256 P raw;
  i_frozen : finished (shared (sess c)) <> Active ->
    dynamic_writers (shared (sess c)) = ∅ /\ fixed_writers (shared (sess c)) = ∅ /\
    exists m, confirmed c = Some m /\
      Forall (fun f => uploaded (log c) (fi_filename f) (fi_csum f)) (m_files m);
  i_store blob : PFinishStore blob ∈ pend c -> manifest_blob c blob;
  i_commit : PFinishCommit ∈ pend c -> manifest_stored c;
  i_finished : finished (shared (sess c)) = Finished -> manifest_stored c;
  i_finish_count : (length (filter is_finish (pend c)) <=
    if bool_decide (finished (shared (sess c)) = Finishing) then 1 else 0)%nat;
  i_guards : g_group (backup_lock_guards (shared (sess c))) = negb (bool_decide (finished (shared (sess c)) = Finished)) /\
    g_snapshot (backup_lock_guards (shared (sess c))) = negb (bool_decide (finished (shared (sess c)) = Finished));
}.

Lemma uploaded_mono log log' name csum : log ⊆ log' -> uploaded log name csum -> uploaded log' name csum.
Proof.
  intros Hsub [(i & ? & ?)|[(i & ? & ?)|(raw & blob & ? & ?)]];
    [left; exists i|right; left; exists i|right; right; exists raw, blob]; auto.
Qed.

Lemma finish_pending c p :
  inv c -> p ∈ pend c -> is_finish p = true -> finished (shared (sess c)) = Finishing.
Proof.
  intros Hi Hp Hf. pose proof (i_finish_count c Hi) as Hc.
  assert (p ∈ filter is_finish (pend c)) as Hin by (apply list_elem_of_filter; by rewrite Hf).
  destruct (filter is_finish (pend c)); [by apply elem_of_nil in Hin|]. simpl in Hc.
  case_bool_decide; [done|lia].
Qed.

(** Steps that do not finish the backup. *)
Lemma inv_frame c c' :
  inv c ->
  finished (shared (sess c')) = finished (shared (sess c)) ->
  (forall name csum, uploaded_archives (shared (sess c')) !! name = Some csum ->
     uploaded (log c') name csum) ->
  log c ⊆ log c' ->
  (forall name csum raw, PBlobCommit name csum raw ∈ pend c' -> exists blob,
     load_from_reader P (Ok raw) = Ok blob /\ csum = sha256 P raw) ->
  (finished (shared (sess c)) <> Active ->
     dynamic_writers (shared (sess c')) = ∅ /\ fixed_writers (shared (sess c')) = ∅ /\
     published (sess c') !! blob_path MANIFEST_BLOB_NAME
       = published (sess c) !! blob_path MANIFEST_BLOB_NAME) ->
  confirmed c' = confirmed c ->
  (filter is_finish (pend c') `sublist_of` filter is_finish (pend c)) ->
  g_group (backup_lock_guards (shared (sess c'))) = g_group (backup_lock_guards (shared (sess c))) ->
  g_snapshot (backup_lock_guards (shared (sess c'))) = g_snapshot (backup_lock_guards (shared (sess c))) ->
  inv c'.
Proof.
  intros Hi Hf Hup Hlog Hblob Hfr Hconf Hpend Hg Hs.
  assert (forall p, p ∈ pend c' -> is_finish p = true -> p ∈ pend c) as Hsub.
  { intros p Hp Hfin. assert (p ∈ filter is_finish (pend c)) as Hin.
    { eapply elem_of_submseteq; [|by apply sublist_submseteq]. apply list_elem_of_filter. by rewrite Hfin. }
    by apply list_elem_of_filter in Hin as [_ ?]. }
  assert (finished (shared (sess c)) <> Active -> manifest_stored c -> manifest_stored c') as Hst.
  { intros Hna (blob & (m & st & Hm & Hb) & Hpub). exists blob. split.
    - exists m, st. by rewrite Hconf.
    - by rewrite (proj2 (proj2 (Hfr Hna))). }
  split; [done|done|..].
  - intros Hna. rewrite Hf in Hna. destruct (Hfr Hna) as (Hd & Hx & _).
    destruct (i_frozen c Hi Hna) as (_ & _ & m & Hm & Hall). split_and!; [done..|]. exists m.
    rewrite Hconf. split; [done|]. eapply Forall_impl; [done|]. intros f. by apply uploaded_mono.
  - intros blob Hp. destruct (i_store c Hi blob) as (m & st & Hm & Hb); [by apply Hsub|].
    exists m, st. by rewrite Hconf.
  - intros Hp. apply Hsub in Hp as Hp'; [|done]. apply Hst; [|by apply i_commit].
    by rewrite (finish_pending c PFinishCommit).
  - rewrite Hf. intros Hfin. apply Hst; [by rewrite Hfin|by apply i_finished].
  - rewrite Hf. etrans; [|apply (i_finish_count c Hi)]. by apply sublist_length.
  - rewrite Hg, Hs, Hf. apply Hi.
Qed.

(** ** Single operations *)
Ltac run_op H :=
  repeat first [progress simplify_eq/= | match type of H with
    | context [match ?m with _ => _ end] => destruct m eqn:? end].

(** What a request changes: the state, the archives and the locks stay, and everything does
    once the backup is finishing. *)
Definition harmless (sh sh' : SharedBackupState) : Prop :=
  finished sh' = finished sh /\ uploaded_archives sh' = uploaded_archives sh /\
  backup_lock_guards sh' = backup_lock_guards sh /\ (finished sh <> Active -> sh' = sh).

Lemma harmless_refl sh : harmless sh sh.
Proof. done. Qed.

Lemma run_request_harmless r sh : harmless sh (run_request r sh).2.
Proof.
  unfold harmless. destruct r; simpl.
  - unfold register_chunk, ensure_unfinished. by destruct (finished sh) eqn:E; simpl; rewrite ?E.
  - unfold register_fixed_chunk, ensure_unfinished. destruct (finished sh) eqn:E; simpl; try done.
    repeat case_match; by simpl; rewrite ?E.
  - unfold register_dynamic_chunk, ensure_unfinished. destruct (finished sh) eqn:E; simpl; try done.
    repeat case_match; by simpl; rewrite ?E.
  - unfold register_dynamic_writer, ensure_unfinished. by destruct (finished sh) eqn:E; simpl; rewrite ?E.
  - unfold register_fixed_writer, ensure_unfinished. by destruct (finished sh) eqn:E; simpl; rewrite ?E.
  - unfold dynamic_writer_append_chunk, ensure_unfinished. destruct (finished sh) eqn:E; simpl; try done.
    repeat case_match; by simpl; rewrite ?E.
  - unfold fixed_writer_append_chunk, ensure_unfinished. destruct (finished sh) eqn:E; simpl; try done.
    repeat case_match; by simpl; rewrite ?E.
Qed.

Lemma dynamic_close_csum io w fs d w' fs' :
  DynWriter.close io (sha256 P) w fs = (Ok d, (w', fs')) -> dynamic_csum w d.
Proof.
  unfold DynWriter.close. do 3 (case_match; [done|]). cbn. destruct (DynWriter.csum w) as [absorbed|] eqn:Ea; cbn; [|done].
  destruct (DynWriter.write_all _ _ _) as [[] ?]; [|done..]. case_match; [done|]. intros [= <- _ _]. by exists absorbed.
Qed.
Lemma fixed_close_csum io w fs d w' fs' :
  Writer.close io (sha256 P) w fs = (Ok d, (w', fs')) -> fixed_csum w d.
Proof.
  unfold Writer.close. case_match; [done|]. destruct (slice _ _ _) as [digests| |] eqn:Es; [|done..].
  destruct (ptr_write _ _ (Writer.file w)); [|done..]. destruct (ptr_write _ _ _); [|done..].
  destruct (let! _, _ := _ in _) as [[] ?]; [|done..]. case_match; [done|]. intros [= <- _ _]. by exists digests.
Qed.

Lemma dynamic_close_effect io wid count size csum sh fs :
  let '(r, (sh', fs')) := dynamic_close_locked P io wid count size csum sh fs in
  finished sh' = finished sh /\ backup_lock_guards sh' = backup_lock_guards sh /\
  (finished sh <> Active -> sh' = sh /\ fs' = fs) /\
  (uploaded_archives sh' = uploaded_archives sh \/
   exists data, r = Ok tt /\ dynamic_writers sh !! wid = Some data /\ dynamic_csum (dw_index data) csum /\
     uploaded_archives sh' = <[dw_name data:=csum]> (uploaded_archives sh)).
Proof.
  unfold dynamic_close_locked, ensure_unfinished.
  destruct (finished sh) eqn:E; simpl; try (rewrite ?E; split_and!; by auto).
  destruct (dynamic_writers sh !! wid) as [data|] eqn:Ew; simpl; [|rewrite ?E; split_and!; by auto].
  destruct (dw_closed data); simpl; [rewrite ?E; split_and!; by auto|].
  do 2 (destruct (negb _); simpl; [rewrite ?E; split_and!; by auto|]).
  destruct (DynWriter.close _ _ _ _) as [r [index fs']] eqn:Ec. destruct r as [d| |]; simpl; [|rewrite ?E; split_and!; by auto..].
  case_bool_decide as Hd; simpl; [|rewrite ?E; split_and!; by auto]. rewrite E. split_and!; [done..|]. right.
  exists data. split_and!; [done|done| |done]. subst d. by apply dynamic_close_csum in Ec.
Qed.

Lemma fixed_close_effect io_grow io wid count size csum sh fs :
  let '(r, (sh', fs')) := fixed_close_locked P io_grow io wid count size csum sh fs in
  finished sh' = finished sh /\ backup_lock_guards sh' = backup_lock_guards sh /\
  (finished sh <> Active -> sh' = sh /\ fs' = fs) /\
  (uploaded_archives sh' = uploaded_archives sh \/
   exists data, r = Ok tt /\ fixed_writers sh !! wid = Some data /\ fixed_csum (fixed_close_grow io_grow size data).2 csum /\
     uploaded_archives sh' = <[fw_name data:=csum]> (uploaded_archives sh)).
Proof.
  unfold fixed_close_locked, ensure_unfinished.
  destruct (finished sh) eqn:E; simpl; try (rewrite ?E; split_and!; by auto).
  destruct (fixed_writers sh !! wid) as [data|]; simpl; [|rewrite ?E; split_and!; by auto].
  destruct (fw_closed data); simpl; [rewrite ?E; split_and!; by auto|].
  destruct (negb _); simpl; [rewrite ?E; split_and!; by auto|].
  destruct (fixed_close_grow io_grow size data) as [[[]| |] index] eqn:Eg; simpl; [|rewrite ?E; split_and!; by auto..].
  destruct (fixed_close_check _ _ _ _); simpl; [|rewrite ?E; split_and!; by auto..].
  destruct (Writer.close _ _ _ _) as [r [index' fs']] eqn:Ec. destruct r as [d| |]; simpl; [|rewrite ?E; split_and!; by auto..].
  case_bool_decide as Hd; simpl; [|rewrite ?E; split_and!; by auto]. rewrite E. split_and!; [done..|]. right.
  exists data. rewrite Eg. split_and!; [done|done| |done]. subst d. by apply fixed_close_csum in Ec.
Qed.

(** A locked part that keeps the state, the locks and, once finishing, everything. *)
Lemma with_lock_inv {A} c (f : SharedBackupState -> files_t -> res A * (SharedBackupState * files_t))
    (more : A -> list pending * list event) :
  inv c ->
  (let '(r, (sh', fs')) := f (shared (sess c)) (published (sess c)) in
   finished sh' = finished (shared (sess c)) /\
   g_group (backup_lock_guards sh') = g_group (backup_lock_guards (shared (sess c))) /\
   g_snapshot (backup_lock_guards sh') = g_snapshot (backup_lock_guards (shared (sess c))) /\
   (finished (shared (sess c)) <> Active ->
      dynamic_writers sh' = ∅ /\ fixed_writers sh' = ∅ /\ fs' = published (sess c)) /\
   (forall name csum, uploaded_archives sh' !! name = Some csum ->
      uploaded (log c ++ match r with Ok a => (more a).2 | _ => [] end) name csum)) ->
  (forall a, Forall (fun p => is_finish p = false /\ forall n d r, p <> PBlobCommit n d r) (more a).1) ->
  inv (after c (with_lock f (sess c)) more).
Proof.
  intros Hi Hf Hmore. unfold with_lock. destruct (poisoned (sess c)) eqn:Ep.
  { destruct c as [s q l cf]. cbn in *. by destruct s. }
  destruct (f (shared (sess c)) (published (sess c))) as [r [sh' fs']].
  destruct Hf as (Hfin & Hg & Hs & Hfr & Hup). unfold after.
  assert (forall a p, p ∈ (more a).1 -> is_finish p = false /\ forall n d r, p <> PBlobCommit n d r) as Hm.
  { intros a p Hp. specialize (Hmore a). rewrite Forall_forall in Hmore. auto. }
  destruct r as [a|e|e]; (apply (inv_frame c); cbn; [done|done| | | | |done| |done|done]);
    rewrite ?app_nil_r in Hup; try done.
  - set_solver.
  - intros name csum raw [Hp|Hp]%elem_of_app; [by eapply i_blobs|].
    by destruct (proj2 (Hm a _ Hp) name csum raw).
  - intros Hna. destruct (Hfr Hna) as (? & ? & ->). done.
  - rewrite filter_app.
    assert (filter is_finish (more a).1 = []) as ->; [|by rewrite app_nil_r].
    specialize (Hmore a). clear -Hmore. induction (more a).1 as [|p l IH]; [done|].
    inversion Hmore as [|? ? [Hp _] Hl]; subst. rewrite filter_cons, decide_False; [auto|].
    rewrite Hp. by intros [].
  - by eapply i_blobs.
  - intros Hna. destruct (Hfr Hna) as (? & ? & ->). done.
  - by eapply i_blobs.
  - intros Hna. destruct (Hfr Hna) as (? & ? & ->). done.
Qed.

(** Dropping the rest of a request. *)
Definition drop_pending (i : nat) (c : config) : config :=
  {| sess := sess c; pend := delete i (pend c); log := log c; confirmed := confirmed c |}.

Lemma filter_delete_sublist i (l : list pending) :
  filter is_finish (delete i l) `sublist_of` filter is_finish l.
Proof.
  rewrite delete_take_drop. rewrite <- (take_drop i l) at 3. rewrite !filter_app.
  apply sublist_app; [done|].
  replace (drop (S i) l) with (drop 1 (drop i l)) by (rewrite drop_drop; f_equal; lia). destruct (drop i l) as [|x k]; simpl; [done|].
  rewrite drop_0, filter_cons. case_decide; [by apply sublist_cons|done].
Qed.

Lemma drop_pending_inv i c : inv c -> inv (drop_pending i c).
Proof.
  intros Hi. apply (inv_frame c); simpl; try done.
  - apply Hi.
  - intros name csum raw Hp. eapply i_blobs; [done|]. by eapply elem_of_submseteq, submseteq_delete.
  - intros Hna. destruct (i_frozen c Hi Hna) as (? & ? & _). done.
  - apply filter_delete_sublist.
Qed.

Lemma drop_last_finish i p c :
  inv c -> pend c !! i = Some p -> is_finish p = true -> filter is_finish (delete i (pend c)) = [].
Proof.
  intros Hi Hp Hf. pose proof (i_finish_count c Hi) as Hc.
  rewrite <- (take_drop_middle _ _ _ Hp) in Hc. rewrite filter_app, filter_cons in Hc.
  rewrite decide_True in Hc by by rewrite Hf.
  rewrite delete_take_drop, filter_app. rewrite length_app in Hc. simpl in Hc.
  apply length_zero_iff_nil. rewrite length_app.
  destruct (bool_decide _); lia.
Qed.

Lemma check_files_ok files archives :
  check_files files archives = Ok tt -> Forall (fun f => archives !! fi_filename f = Some (fi_csum f)) files.
Proof.
  induction files as [|f files IH]; simpl; [constructor|].
  destruct (archives !! fi_filename f) as [csum|] eqn:E; [|done].
  case_bool_decide as Hc; simpl; [|done]. subst. auto.
Qed.

(** [finish_backup] under the lock: success means that the backup was active, all writers are
    closed and the manifest matches the uploads. *)
Lemma finish_locked_effect last_backup sh :
  let '(r, sh') := finish_locked P J last_backup sh in
  uploaded_archives sh' = uploaded_archives sh /\
  dynamic_writers sh' = dynamic_writers sh /\ fixed_writers sh' = fixed_writers sh /\
  g_group (backup_lock_guards sh') = g_group (backup_lock_guards sh) /\
  g_snapshot (backup_lock_guards sh') = g_snapshot (backup_lock_guards sh) /\
  match r with
  | Ok blob =>
      finished sh = Active /\ finished sh' = Finishing /\
      dynamic_writers sh = ∅ /\ fixed_writers sh = ∅ /\
      exists m, manifest sh = Some m /\
        Forall (fun f => uploaded_archives sh !! fi_filename f = Some (fi_csum f)) (m_files m) /\
        (let? unprot := value_index_mut (unprotected m) "chunk_upload_stats"
                          (stat_to_value (backup_stat sh)) in
         to_data_blob P J (with_unprotected m unprot) None) = Ok blob
  | _ => finished sh' = finished sh
  end.
Proof.
  unfold finish_locked, ensure_unfinished. destruct (finished sh) eqn:E; simpl; try by rewrite ?E.
  destruct (negb _ || _) eqn:Ew; simpl; [by rewrite ?E|]. zify_bool.
  destruct (file_counter sh =? 0); simpl; [by rewrite ?E|].
  destruct (bool_decide _); simpl; [by rewrite ?E|].
  destruct (manifest sh) as [m|]; simpl; [|by rewrite ?E].
  destruct (value_index_mut _ _ _) as [unprot| |] eqn:Eu; simpl; [|by rewrite ?E..].
  destruct (check_files _ _) as [[]| |] eqn:Ec; simpl; [|by rewrite ?E..].
  destruct (to_data_blob _ _ _ _) as [blob| |] eqn:Eb; simpl; [|by rewrite ?E..].
  apply check_files_ok in Ec. split_and!; try done. exists m. rewrite Eu, Eb. done.
Qed.

Hypothesis blob_path_inj : forall a b, blob_path a = blob_path b -> a = b.

Lemma archives_kept c name csum more :
  inv c -> uploaded_archives (shared (sess c)) !! name = Some csum -> uploaded (log c ++ more) name csum.
Proof. intros Hi Hn. eapply uploaded_mono; [|by eapply i_archives]. set_solver. Qed.

Lemma request_inv r c : inv c -> inv (exec (LRequest r) c).
Proof.
  intros Hi. apply with_lock_inv; [done| |done]. unfold lift.
  pose proof (run_request_harmless r (shared (sess c))) as Hh.
  destruct (run_request r (shared (sess c))) as [res' sh']. destruct Hh as (Hf & Hu & Hg & Hsame).
  simpl in *. rewrite Hf, Hg, Hu. split_and!; [done..| |].
  - intros Hna. rewrite (Hsame Hna). destruct (i_frozen c Hi Hna) as (? & ? & _). done.
  - intros. by apply archives_kept.
Qed.

Lemma close_dynamic_inv io wid count size csum c :
  inv c -> inv (exec (LCloseDynamic io wid count size csum) c).
Proof.
  intros Hi. apply with_lock_inv; [done| |by repeat constructor].
  pose proof (dynamic_close_effect io wid count size csum (shared (sess c)) (published (sess c))) as He.
  destruct (dynamic_close_locked _ _ _ _ _ _ _ _) as [r [sh' fs']]. destruct He as (Hf & Hg & Hsame & Hu).
  rewrite Hf, Hg. split_and!; [done..| |].
  - intros Hna. destruct (Hsame Hna) as [-> ->]. destruct (i_frozen c Hi Hna) as (? & ? & _). done.
  - intros name d. destruct Hu as [->|(data & -> & Ew & Hc & ->)]; [intros; by apply archives_kept|].
    intros [[<- <-]|[_ ?]]%lookup_insert_Some; [|by apply archives_kept]. left. eexists. split; [|exact Hc].
    unfold closed_dynamic. rewrite Ew. apply elem_of_app. right. by left.
Qed.

Lemma close_fixed_inv io_grow io wid count size csum c :
  inv c -> inv (exec (LCloseFixed io_grow io wid count size csum) c).
Proof.
  intros Hi. apply with_lock_inv; [done| |by repeat constructor].
  pose proof (fixed_close_effect io_grow io wid count size csum (shared (sess c)) (published (sess c))) as He.
  destruct (fixed_close_locked _ _ _ _ _ _ _ _ _) as [r [sh' fs']]. destruct He as (Hf & Hg & Hsame & Hu).
  rewrite Hf, Hg. split_and!; [done..| |].
  - intros Hna. destruct (Hsame Hna) as [-> ->]. destruct (i_frozen c Hi Hna) as (? & ? & _). done.
  - intros name d. destruct Hu as [->|(data & -> & Ew & Hc & ->)]; [intros; by apply archives_kept|].
    intros [[<- <-]|[_ ?]]%lookup_insert_Some; [|by apply archives_kept]. right; left. eexists. split; [|exact Hc].
    unfold closed_fixed. rewrite Ew. apply elem_of_app. right. by left.
Qed.

Lemma load_csum data blob :
  load_from_reader P (Ok data) = Ok blob -> DataBlob.csum P blob = sha256 P data.
Proof.
  unfold load_from_reader, from_raw_with_crc_check. intros H.
  destruct (from_raw data) as [b| |] eqn:E; [|done..]. apply BlobSpec.from_raw_inv in E as (Hraw & _).
  destruct (verify_crc P b); [|done..]. injection H as <-. unfold DataBlob.csum. by rewrite Hraw.
Qed.

Lemma start_blob_inv s3 replace name data c : inv c -> inv (start_blob s3 replace name data c).
Proof.
  intros Hi. unfold start_blob. destruct (load_from_reader P (Ok data)) as [blob| |] eqn:El; [|done..].
  set (rs := if bool_decide (name = MANIFEST_BLOB_NAME) then _ else _).
  assert (finished (shared rs.2) = finished (shared (sess c)) /\
    uploaded_archives (shared rs.2) = uploaded_archives (shared (sess c)) /\
    backup_lock_guards (shared rs.2) = backup_lock_guards (shared (sess c)) /\
    dynamic_writers (shared rs.2) = dynamic_writers (shared (sess c)) /\
    fixed_writers (shared rs.2) = fixed_writers (shared (sess c)) /\
    published rs.2 !! blob_path MANIFEST_BLOB_NAME
      = published (sess c) !! blob_path MANIFEST_BLOB_NAME) as (Hf & Hu & Hg & Hd & Hx & Hp).
  { unfold rs. case_bool_decide as Hn.
    - destruct (manifest_try_from P J blob); [|done..]. unfold with_lock, lift, register_manifest, ensure_unfinished.
      destruct (poisoned (sess c)); [done|]. by destruct (finished (shared (sess c))) eqn:E; simpl; rewrite ?E.
    - unfold datastore_add_blob. destruct s3, replace; simpl; try done. split_and!; try done.
      rewrite lookup_insert_ne; [done|]. intros Hb. by apply blob_path_inj in Hb. }
  destruct rs as [[r| |] s']; cbn in *; apply (inv_frame c); cbn; try done; rewrite ?Hf, ?Hu, ?Hg, ?Hd, ?Hx, ?Hp;
    try done; try (by intros; apply archives_kept); try (by apply Hi); try set_solver.
  - intros n d raw [Hin|Hin]%elem_of_app; [by eapply i_blobs|].
    apply list_elem_of_singleton in Hin as [= -> -> ->]. exists blob. split; [done|]. by apply load_csum.
  - intros Hna. destruct (i_frozen c Hi Hna) as (? & ? & _). done.
  - by rewrite filter_app, app_nil_r.
  - intros Hna. destruct (i_frozen c Hi Hna) as (? & ? & _). done.
  - intros Hna. destruct (i_frozen c Hi Hna) as (? & ? & _). done.
Qed.

Lemma start_finish_inv last_backup c : inv c -> inv (start_finish last_backup c).
Proof.
  intros Hi. unfold start_finish, with_lock, lift. destruct (poisoned (sess c)) eqn:Ep.
  { by destruct c as [s q l cf]. }
  pose proof (finish_locked_effect last_backup (shared (sess c))) as He.
  destruct (finish_locked P J last_backup (shared (sess c))) as [[blob|e|e] sh'];
    destruct He as (Hu & Hd & Hx & Hg & Hs & He).
  2,3: apply (inv_frame c); cbn; rewrite ?Hu, ?Hd, ?Hx; try done; try apply Hi;
    intros Hna; destruct (i_frozen c Hi Hna) as (? & ? & _); done.
  destruct He as (Hact & Hfin & Hd0 & Hx0 & m & Hm & Hall & Hb).
  assert (filter is_finish (pend c) = []) as Hnone.
  { pose proof (i_finish_count c Hi) as Hc. rewrite Hact in Hc. simpl in Hc.
    destruct (filter is_finish (pend c)); [done|simpl in Hc; lia]. }
  assert (forall p, is_finish p = true -> p ∉ pend c) as Hno.
  { intros p Hp Hin. assert (p ∈ filter is_finish (pend c)) as Hin'
      by (apply list_elem_of_filter; by rewrite Hp).
    rewrite Hnone in Hin'. by apply elem_of_nil in Hin'. }
  split; cbn.
  - rewrite Hu. apply Hi.
  - intros n d raw [Hin|Hin]%elem_of_app; [by eapply i_blobs|by apply list_elem_of_singleton in Hin].
  - intros _. rewrite Hd, Hx. split_and!; [done..|]. exists m. split; [done|].
    eapply Forall_impl; [done|]. intros f. apply Hi.
  - intros b [Hin|Hin]%elem_of_app; [by destruct (Hno (PFinishStore b))|].
    apply list_elem_of_singleton in Hin as [= ->]. by exists m, (stat_to_value (backup_stat (shared (sess c)))).
  - intros [Hin|Hin]%elem_of_app; [by destruct (Hno PFinishCommit)|by apply list_elem_of_singleton in Hin].
  - by rewrite Hfin.
  - by rewrite Hfin, filter_app, Hnone.
  - rewrite Hg, Hs, Hfin. pose proof (i_guards c Hi) as Hgs. by rewrite Hact in Hgs.
Qed.

(** The invariant does not depend on poisoning. *)
Lemma inv_poison c b :
  inv c -> inv {| sess := {| shared := shared (sess c); published := published (sess c); poisoned := b |};
                  pend := pend c; log := log c; confirmed := confirmed c |}.
Proof. intros [H1 H2 H3 H4 H5 H6 H7 H8]. by split. Qed.

(** The rest of a request after dropping it from the list. *)
Lemma continue_inv i p upload s3 replace sync c :
  inv c -> pend c !! i = Some p -> inv (continue p upload s3 replace sync (drop_pending i c)).
Proof.
  intros Hi Hp. pose proof (drop_pending_inv i c Hi) as Hi'.
  destruct p as [wid|wid|name csum raw|blob|]; cbn [continue].
  - destruct upload; [|done..]. apply with_lock_inv; [done| |done].
    unfold lift, dynamic_close_remove. pose proof (i_frozen c Hi) as Hfr.
    destruct (dynamic_writers _ !! wid) eqn:Ew; cbn; (split_and!; [done..| |intros; by apply (archives_kept (drop_pending i c))]);
      intros Hna; destruct (Hfr Hna) as (Hd & ? & _); [|done].
    cbn in Ew. by rewrite Hd in Ew.
  - destruct upload; [|done..]. apply with_lock_inv; [done| |done].
    unfold lift, fixed_close_remove. pose proof (i_frozen c Hi) as Hfr.
    destruct (fixed_writers _ !! wid) eqn:Ew; cbn; (split_and!; [done..| |intros; by apply (archives_kept (drop_pending i c))]);
      intros Hna; destruct (Hfr Hna) as (? & Hx & _); [|done].
    cbn in Ew. by rewrite Hx in Ew.
  - apply with_lock_inv; [done| |done]. cbn. split_and!; [done..| |].
    + intros Hna. destruct (i_frozen c Hi Hna) as (? & ? & _). done.
    + intros n d Hn. case_bool_decide; [by apply (archives_kept (drop_pending i c))|].
      apply lookup_insert_Some in Hn as [[<- <-]|[_ Hn]]; [|by apply (archives_kept (drop_pending i c))].
      right. right. destruct (i_blobs c Hi name csum raw) as (blob & Hl & Hc); [by eapply list_elem_of_lookup_2|].
      exists raw, blob. split_and!; [set_solver|done..].
  - pose proof (drop_last_finish i _ c Hi Hp eq_refl) as Hnone.
    pose proof (finish_pending c _ Hi (list_elem_of_lookup_2 _ _ _ Hp) eq_refl) as Hfin.
    pose proof (i_store c Hi blob (list_elem_of_lookup_2 _ _ _ Hp)) as Hblob.
    unfold datastore_add_blob. destruct s3, replace; try done. cbn.
    split; cbn; rewrite ?Hfin; try done.
    + intros. by apply (archives_kept (drop_pending i c)).
    + intros n d r [Hin|Hin]%elem_of_app; [by eapply (i_blobs _ Hi')|by apply list_elem_of_singleton in Hin].
    + intros _. rewrite app_nil_r. apply (i_frozen c Hi). by rewrite Hfin.
    + intros b [Hin|Hin]%elem_of_app; [by apply (i_store _ Hi')|by apply list_elem_of_singleton in Hin].
    + intros _. exists blob. split; [done|]. cbn. by rewrite lookup_insert_eq.
    + by rewrite filter_app, Hnone.
    + pose proof (i_guards c Hi) as Hgs. by rewrite Hfin in Hgs.
  - pose proof (drop_last_finish i _ c Hi Hp eq_refl) as Hnone.
    pose proof (finish_pending c _ Hi (list_elem_of_lookup_2 _ _ _ Hp) eq_refl) as Hfin.
    pose proof (i_commit c Hi (list_elem_of_lookup_2 _ _ _ Hp)) as Hst.
    unfold with_lock, lift, finish_commit. cbn [drop_pending sess].
    destruct (poisoned (sess c)); [by destruct c|].
    rewrite Hfin, (bool_decide_eq_true_2 (Finishing = Finishing)) by done. cbn [negb].
    destruct sync; cbn; [|by apply (inv_poison (drop_pending i c))..].
    destruct (i_frozen c Hi) as (Hd & Hx & Hm); [by rewrite Hfin|].
    split; cbn; rewrite ?app_nil_r; try done.
    + apply Hi.
    + apply Hi'.
    + apply Hi'.
    + by rewrite Hnone.
Qed.

Lemma exec_inv l c : inv c -> inv (exec l c).
Proof.
  intros Hi. destruct l; cbn [exec].
  - by apply request_inv.
  - by apply close_dynamic_inv.
  - by apply close_fixed_inv.
  - by apply start_blob_inv.
  - by apply start_finish_inv.
  - destruct (pend c !! i) as [p|] eqn:Hp; [by apply (continue_inv i p)|done].
Qed.

Lemma init_inv previous : inv (init previous).
Proof. split; cbn; try done; intros; set_solver. Qed.

Lemma run_inv ls c : inv c -> inv (run ls c).
Proof. revert c. induction ls as [|l ls IH]; intros c Hi; simpl; [done|]. by apply IH, exec_inv. Qed.

(** ** Once finishing *)
Definition frozen (c c' : config) : Prop :=
  known_chunks (shared (sess c')) = known_chunks (shared (sess c)) /\
  dynamic_writers (shared (sess c')) = dynamic_writers (shared (sess c)) /\
  fixed_writers (shared (sess c')) = fixed_writers (shared (sess c)) /\
  manifest (shared (sess c')) = manifest (shared (sess c)) /\
  (finished (shared (sess c')) = finished (shared (sess c)) \/
   (finished (shared (sess c)) = Finishing /\ finished (shared (sess c')) = Finished)).

Lemma frozen_refl c : frozen c c.
Proof. split_and!; auto. Qed.

Lemma frozen_same c c' : shared (sess c') = shared (sess c) -> frozen c c'.
Proof. intros H. unfold frozen. rewrite H. split_and!; auto. Qed.

(** A locked part that changes nothing that is frozen. *)
Lemma with_lock_frozen {A} c (f : SharedBackupState -> files_t -> res A * (SharedBackupState * files_t))
    (more : A -> list pending * list event) :
  (let sh := shared (sess c) in let sh' := (f sh (published (sess c))).2.1 in
   known_chunks sh' = known_chunks sh /\ dynamic_writers sh' = dynamic_writers sh /\
   fixed_writers sh' = fixed_writers sh /\ manifest sh' = manifest sh /\
   (finished sh' = finished sh \/ (finished sh = Finishing /\ finished sh' = Finished))) ->
  frozen c (after c (with_lock f (sess c)) more).
Proof.
  cbv zeta. intros H. unfold with_lock. destruct (poisoned (sess c)); [by apply frozen_same|].
  destruct (f (shared (sess c)) (published (sess c))) as [[] [sh' fs']]; exact H.
Qed.

Lemma not_active_err c : finished (shared (sess c)) <> Active ->
  exists e, ensure_unfinished (shared (sess c)) = Err e.
Proof. intros Hna. unfold ensure_unfinished. destruct (finished _); [done|eauto..]. Qed.

Lemma continue_frozen i p upload s3 replace sync c :
  inv c -> finished (shared (sess c)) <> Active ->
  frozen c (continue p upload s3 replace sync (drop_pending i c)).
Proof.
  intros Hi Hna. destruct (i_frozen c Hi Hna) as (Hd & Hx & _).
  assert (forall c', frozen (drop_pending i c) c' -> frozen c c') as Hdrop by done.
  destruct p as [wid|wid|name csum raw|blob|]; cbn [continue]; apply Hdrop.
  - destruct upload; [|by apply frozen_same..]. apply with_lock_frozen.
    unfold lift, dynamic_close_remove. cbn. rewrite Hd, lookup_empty. split_and!; auto.
  - destruct upload; [|by apply frozen_same..]. apply with_lock_frozen.
    unfold lift, fixed_close_remove. cbn. rewrite Hx, lookup_empty. split_and!; auto.
  - apply with_lock_frozen. cbn. split_and!; auto.
  - unfold datastore_add_blob. destruct s3, replace; by apply frozen_same.
  - apply with_lock_frozen. unfold lift, finish_commit. case_bool_decide; cbn; [|split_and!; auto].
    destruct sync; cbn; split_and!; auto.
Qed.

Lemma exec_frozen l c :
  inv c -> finished (shared (sess c)) <> Active -> frozen c (exec l c).
Proof.
  intros Hi Hna. destruct (not_active_err c Hna) as [e He]. destruct l; cbn [exec].
  - apply with_lock_frozen. cbv zeta. unfold lift.
    destruct (run_request_harmless r (shared (sess c))) as (_ & _ & _ & Hsame).
    destruct (run_request r (shared (sess c))) as [? sh']. cbn in *. rewrite (Hsame Hna). split_and!; auto.
  - apply with_lock_frozen. unfold dynamic_close_locked. rewrite He. split_and!; auto.
  - apply with_lock_frozen. unfold fixed_close_locked. rewrite He. split_and!; auto.
  - unfold start_blob. destruct (load_from_reader P (Ok data)); [|by apply frozen_refl..].
    case_bool_decide.
    + destruct (manifest_try_from P J a); [|by apply frozen_same..]. apply with_lock_frozen.
      unfold lift, register_manifest. rewrite He. split_and!; auto.
    + unfold datastore_add_blob. destruct s3, replace; by apply frozen_same.
  - unfold start_finish, with_lock, lift, finish_locked. rewrite He.
    destruct (poisoned (sess c)); by apply frozen_same.
  - destruct (pend c !! i) as [p|]; [by apply continue_frozen|by apply frozen_refl].
Qed.

Lemma run_frozen ls c :
  inv c -> finished (shared (sess c)) <> Active -> frozen c (run ls c).
Proof.
  revert c. induction ls as [|l ls IH]; intros c Hi Hna; cbn [run foldl]; [by apply frozen_refl|].
  pose proof (exec_frozen l c Hi Hna) as (H1 & H2 & H3 & H4 & H5).
  assert (finished (shared (sess (exec l c))) <> Active) as Hna' by (destruct H5 as [->|[_ ->]]; done).
  destruct (IH (exec l c) (exec_inv l c Hi) Hna') as (K1 & K2 & K3 & K4 & K5). unfold run in *.
  split_and!; try congruence. destruct H5 as [H5|[? ?]], K5 as [K5|[? ?]];
    [left; congruence|right; split; congruence|right; split; congruence|congruence].
Qed.
End exec.
End Trace.

(** C1.  A finished backup is consistent, whatever the order in which the requests of the
    session (and their parts between which the lock is not held) were served and which calls
    failed.  When a session is finished, a manifest was stored, and every archive it lists
    was uploaded in this session with exactly the listed checksum: as a dynamic index, where it is the SHA-256 of all
    entries that were given to the writer until it was closed, as a fixed index, where it is that of the digests in the
    mapped file when it was closed, or as a blob that was loaded with a valid CRC and whose
    SHA-256 this is.  No index writer is left open, and the locks of group and
    snapshot are held until then and released afterwards. *)
Theorem finished_backup_consistent P J blob_path previous ls :
  (forall a b, blob_path a = blob_path b -> a = b) ->
  let c := Trace.run P J blob_path ls (Trace.init previous) in
  let sh := shared (Trace.sess c) in
  g_group (backup_lock_guards sh) = negb (bool_decide (finished sh = Finished)) /\
  g_snapshot (backup_lock_guards sh) = negb (bool_decide (finished sh = Finished)) /\
  (finished sh = Finished ->
   dynamic_writers sh = ∅ /\ fixed_writers sh = ∅ /\
   exists m unprot blob,
     to_data_blob P J (with_unprotected m unprot) None = Ok blob /\
     published (Trace.sess c) !! blob_path MANIFEST_BLOB_NAME = Some (raw_data blob) /\
     Forall (fun f => Trace.uploaded P (Trace.log c) (fi_filename f) (fi_csum f)) (m_files m)).
Proof.
  intros Hinj c sh. assert (Trace.inv P J blob_path c) as Hi by by apply Trace.run_inv, Trace.init_inv.
  destruct (Trace.i_guards _ _ _ c Hi) as [Hg Hs]. split_and!; [done..|]. intros Hfin.
  destruct (Trace.i_frozen _ _ _ c Hi) as (Hd & Hx & m & Hm & Hall); [fold sh; by rewrite Hfin|].
  destruct (Trace.i_finished _ _ _ c Hi Hfin) as (blob & (m' & st & Hm' & Hb) & Hpub).
  split_and!; [done..|]. rewrite Hm in Hm'. injection Hm' as <-.
  destruct (value_index_mut _ _ _) as [unprot| |]; [|done..]. by exists m, unprot, blob.
Qed.

(** Once [finish_backup] has checked the manifest, no request of the session changes what
    was checked against: the known chunks, the (absent) writers and the manifest stay as
    they are under any further requests, and the session cannot become active again. *)
Theorem finishing_freezes P J blob_path previous ls ls' :
  (forall a b, blob_path a = blob_path b -> a = b) ->
  let c := Trace.run P J blob_path ls (Trace.init previous) in
  let c' := Trace.run P J blob_path ls' c in
  finished (shared (Trace.sess c)) <> Active ->
  known_chunks (shared (Trace.sess c')) = known_chunks (shared (Trace.sess c)) /\
  dynamic_writers (shared (Trace.sess c')) = ∅ /\ fixed_writers (shared (Trace.sess c')) = ∅ /\
  manifest (shared (Trace.sess c')) = manifest (shared (Trace.sess c)) /\
  finished (shared (Trace.sess c')) <> Active /\
  (finished (shared (Trace.sess c)) = Finished -> finished (shared (Trace.sess c')) = Finished).
Proof.
  intros Hinj c c' Hna. assert (Trace.inv P J blob_path c) as Hi by by apply Trace.run_inv, Trace.init_inv.
  destruct (Trace.run_frozen P J blob_path Hinj ls' c Hi Hna) as (H1 & H2 & H3 & H4 & H5).
  destruct (Trace.i_frozen _ _ _ c Hi Hna) as (Hd & Hx & _). fold c' in H1, H2, H3, H4, H5.
  split_and!; try congruence.
  - destruct H5 as [->|[_ ->]]; done.
  - intros Hf. destruct H5 as [->|[_ ->]]; done.
Qed.

(** ** Chunk uploads *)
Module UploadSpec.
Import BlobSpec.
Section upload.
Context (P : Prims) {HP : PrimsLaws P}.

(** Storing the checksum in a blob that was loaded: only the four bytes change. *)
Lemma set_crc_loaded data b c :
  from_raw data = Ok b ->
  set_crc c b = Ok {| raw_data := take 8 data ++ le_bytes 4 c ++ drop 12 data |} /\
  (12 <= length data)%nat.
Proof.
  intros Hr. apply from_raw_inv in Hr as (Hd & _ & Hk). destruct b as [x]. simpl in Hd. subst x.
  assert (12 <= length data)%nat as Hl by (destruct Hk as [[_ ?]|[_ ?]]; lia).
  split; [|done]. unfold set_crc. cbn [raw_data]. unfold CRC_OFFSET.
  rewrite ptr_write_ok by (rewrite ?length_le_bytes; lia). unfold write_at.
  by rewrite length_le_bytes.
Qed.

Lemma with_crc_from_raw data b c :
  from_raw data = Ok b -> in_u32 c ->
  let data' := take 8 data ++ le_bytes 4 c ++ drop 12 data in
  from_raw data' = Ok {| raw_data := data' |} /\ length data' = length data /\
  take 8 data' = take 8 data /\ drop 12 data' = drop 12 data /\ take 4 (drop 8 data') = le_bytes 4 c.
Proof.
  intros Hr Hc data'. destruct (set_crc_loaded data b c Hr) as [_ Hl].
  assert (length (take 8 data) = 8%nat) as H8 by (rewrite length_take; lia).
  assert (length (le_bytes 4 c) = 4%nat) as H4 by apply length_le_bytes.
  assert (length data' = length data) as Hlen by (unfold data'; rewrite !length_app, H8, H4, length_drop; lia).
  assert (take 8 data' = take 8 data) as Hm by (unfold data'; by rewrite take_app_length').
  split_and!; [|done|done| |].
  - unfold from_raw in *. rewrite Hlen. destruct (_ <? SIZE_HEADER) eqn:E; [done|].
    rewrite (slice_ok data), (slice_ok data') in * by lia. rewrite !drop_0 in *.
    change (Z.to_nat (8 - 0)) with 8%nat in *. rewrite Hm. repeat (case_if_in Hr; try done).
  - unfold data'. rewrite (assoc_L (++)), drop_app_length'; [done|]. rewrite length_app. lia.
  - unfold data'. by rewrite drop_app_length', take_app_length'.
Qed.

(** The content of an unencrypted blob does not depend on its checksum. *)
Lemma decode_crc data data' config expected m :
  take 8 data = m -> take 8 data' = m -> length data' = length data -> (12 <= length data)%nat ->
  drop 12 data' = drop 12 data -> ~ is_enc_magic m ->
  decode P {| raw_data := data' |} config expected = decode P {| raw_data := data |} config expected.
Proof.
  intros Hm Hm' Hl Hlen Hd Hk. unfold decode, magic. cbn [raw_data]. rewrite Hl.
  rewrite (slice_ok data' 0), (slice_ok data 0) by lia. rewrite !drop_0.
  change (Z.to_nat (8 - 0)) with 8%nat. rewrite Hm, Hm'.
  assert (bool_decide (m = ENCR_COMPR_BLOB_MAGIC_1_0) || bool_decide (m = ENCRYPTED_BLOB_MAGIC_1_0)
    = false) as ->.
  { apply orb_false_iff. rewrite !bool_decide_eq_false. unfold is_enc_magic in Hk. tauto. }
  unfold SIZE_HEADER. rewrite (slice_ok data'), (slice_ok data) by lia.
  change (Z.to_nat 12) with 12%nat. by rewrite Hd.
Qed.

Lemma upload_chunk_concat stream d size enc acc r :
  upload_chunk P stream d size enc acc = Ok r ->
  exists pieces, stream = Ok <$> pieces /\
    upload_chunk P [] d size enc (acc ++ concat pieces) = Ok r.
Proof.
  revert acc. induction stream as [|[input|e|e] stream IH]; intros acc H; [|cbn [upload_chunk] in H..].
  - exists []. split; [done|]. by rewrite app_nil_r.
  - case_if_in H; [done|]. destruct (IH _ H) as (pieces & -> & Hr). exists (input :: pieces).
    split; [done|]. simpl. by rewrite (assoc_L (++)).
  - done.
  - done.
Qed.
Lemma drop_header data data' n :
  header_size (take 8 data) = Ok (Z.of_nat n) -> drop 12 data' = drop 12 data ->
  drop n data' = drop n data.
Proof.
  intros Hh Hd. assert (12 <= n)%nat as Hn.
  { unfold header_size, SIZE_HEADER, SIZE_ENCRYPTED_HEADER in Hh. inv_ok; lia. }
  replace n with (12 + (n - 12))%nat by lia. by rewrite <- !drop_drop, Hd.
Qed.

Lemma verified_content data b size d :
  from_raw data = Ok b -> is_plain_magic (take 8 data) -> verify_unencrypted P b size d = Ok tt ->
  exists content, decode P b None (Some d) = Ok content /\ sha256 P content = d /\
    Z.of_nat (length content) = size.
Proof.
  intros Hr Hk Hv. apply from_raw_inv in Hr as (_ & Hm & _). unfold verify_unencrypted in Hv.
  rewrite Hm in Hv. case_if_in Hv.
  { destruct Hk as [Hk|Hk]; rewrite Hk in *; done. }
  destruct (decode P b None (Some d)) as [content| |] eqn:Ed; [|done..]. exists content.
  case_if_in Hv; [done|]. zify_bool. split_and!; [done| |lia].
  eapply (decode_expected P); [|done]. exists (take 8 data). split; [done|].
  destruct Hk as [-> | ->]; by intros [?|?].
Qed.
End upload.
End UploadSpec.

(** C36.  The server stores no chunk under a wrong digest.  When the upload of a chunk
    succeeds, the chunk has the announced digest, size and encoded length, differs from the
    uploaded bytes at most in the CRC field, passes the CRC check when it is loaded again, and
    unless it is encrypted (which the server cannot check) its content has exactly the announced
    length and SHA-256 digest. *)
Theorem upload_chunk_verified P `{HP : PrimsLaws P} stream d size encoded_size d' size' chunk :
  upload_chunk P stream d size encoded_size [] = Ok (d', size', chunk) ->
  d' = d /\ size' = size /\ Z.of_nat (length (raw_data chunk)) = encoded_size /\
  (exists pieces, stream = Ok <$> pieces /\
     take 8 (raw_data chunk) = take 8 (concat pieces) /\
     drop 12 (raw_data chunk) = drop 12 (concat pieces)) /\
  load_from_reader P (Ok (raw_data chunk)) = Ok chunk /\
  (is_encrypted chunk = Ok true \/
   exists content, decode P chunk None (Some d) = Ok content /\
     sha256 P content = d /\ Z.of_nat (length content) = size).
Proof.
  intros H. apply UploadSpec.upload_chunk_concat in H as (pieces & -> & H). cbn [app upload_chunk] in H.
  set (data := concat pieces) in *. case_if_in H; [done|]. zify_bool.
  destruct (from_raw data) as [b| |] eqn:Hr; [|done..].
  destruct (verify_unencrypted P b size d) as [[]| |] eqn:Hv; [|done..].
  destruct (BlobSpec.compute_crc_loaded P data b Hr) as (n & Hh & Hn & Hcrc & _). rewrite Hcrc in H.
  set (c := crc32 P _) in *. pose proof (crc32_range (drop n data)) as Hc. fold c in Hc.
  destruct (UploadSpec.set_crc_loaded data b c Hr) as [Hset Hlen].
  destruct (UploadSpec.with_crc_from_raw data b c Hr Hc) as (Hr' & Hl' & Hm' & Hd' & Hc4).
  set (data' := take 8 data ++ le_bytes 4 c ++ drop 12 data) in *. rewrite Hset in H.
  assert (d' = d /\ size' = size /\ chunk = {| raw_data := data' |}) as (-> & -> & ->)
    by (clearbody data'; by injection H). cbn [raw_data].
  pose proof (BlobSpec.from_raw_inv _ _ Hr) as (Hraw & Hmag & Hk).
  pose proof (BlobSpec.from_raw_inv _ _ Hr') as (_ & Hmag' & _).
  split_and!; [done..|by rewrite Hl'|by exists pieces| |].
  - destruct (BlobSpec.compute_crc_loaded P data' _ Hr') as (n' & Hh' & _ & Hcrc' & Hc').
    rewrite Hm', Hh in Hh'. injection Hh' as Hnn. apply Nat2Z.inj in Hnn as <-.
    unfold load_from_reader, from_raw_with_crc_check. rewrite Hr'. unfold verify_crc.
    rewrite Hcrc', Hc', Hc4, (UploadSpec.drop_header data data' n) by done. fold c.
    rewrite le_val_bytes, Z.mod_small by (unfold in_u32 in Hc; simpl; lia). by rewrite Z.eqb_refl.
  - destruct Hk as [[Hk _]|[Hk _]].
    + right. apply (UploadSpec.verified_content P data b size d) in Hv as (content & Hdec & Hsha & Hlen'); [|done..].
      exists content. split_and!; [|done..]. rewrite <- Hdec. destruct b as [x]. simpl in Hraw. subst x.
      apply (UploadSpec.decode_crc P data data' None (Some d) (take 8 data)); [done..|]. by destruct Hk as [-> | ->]; intros [?|?].
    + left. unfold is_encrypted. rewrite Hmag', Hm'. by destruct Hk as [-> | ->].
Qed.
