(* ===== verification/BackupFlow.v ===== *)
(** * Backup sessions: whole uploads, registered chunks, and failing requests *)

From S2P Require Import Prelude IndexFile FixedIndex DynamicIndex DynamicIndexSpec DataBlob.
From S2P Require Import DataBlobSpec Manifest ManifestSpec BackupEnv BackupEnvSpec.
From Stdlib Require Import Strings.Byte.

Module Flow.
(** ** The upload of a dynamic index *)

(** The entries of the index for chunks (digest and size) that start at [o], and the
    offsets a client sends. *)
Fixpoint chunk_entries (o : Z) (cs : list (digest * Z)) : list (Z * digest) :=
  match cs with
  | [] => []
  | (d, n) :: cs => (o + n, d) :: chunk_entries (o + n) cs
  end.
Fixpoint chunk_offsets (o : Z) (cs : list (digest * Z)) : list Z :=
  match cs with
  | [] => []
  | (d, n) :: cs => o :: chunk_offsets (o + n) cs
  end.
Definition total_size (cs : list (digest * Z)) : Z := foldr (fun c => Z.add c.2) 0 cs.

Lemma length_offsets o cs : length (chunk_offsets o cs) = length cs.
Proof. revert o. induction cs as [|[d n] cs IH]; intros o; simpl; [done|]. by rewrite IH. Qed.

(** A session with the state of one dynamic writer set. *)
Definition with_writer (s : Session) (wid : Z) (st : DynamicWriterState) : Session :=
  {| shared := set_dynamic (<[wid:=st]> (dynamic_writers (shared s))) (shared s);
     published := published s; poisoned := false |}.

Definition writer_state (name : string) uu ct path tmp (stat : UploadStatistic)
    (es : list (Z * digest)) (o : Z) : DynamicWriterState :=
  {| dw_name := name; dw_index := DynFile.writer_at uu ct path tmp es; dw_offset := o;
     dw_chunk_count := Z.of_nat (length es); dw_upload_stat := stat; dw_closed := false |}.

Lemma add_one uu ct path tmp es o d :
  DynWriter.add_chunk DynWriter.io_ok o d (DynFile.writer_at uu ct path tmp es)
  = (Ok tt, DynFile.writer_at uu ct path tmp (es ++ [(o, d)])).
Proof.
  pose proof (DynFile.add_all_spec uu ct path tmp es [(o, d)]) as H. cbn [DynFile.add_all fst snd] in H.
  by destruct (DynWriter.add_chunk _ _ _ _) as [[[]| |] w].
Qed.

Lemma close_writer sha256 uu ct path tmp es fs :
  (forall l, length (sha256 l) = 32%nat) -> length uu = 16%nat ->
  exists w, DynWriter.close DynWriter.io_ok sha256 (DynFile.writer_at uu ct path tmp es) fs
    = (Ok (sha256 (concat (DynFile.entry_bytes <$> es))),
       (w, <[path := DynFile.didx_file sha256 uu ct es]> (delete tmp fs))).
Proof.
  intros Hsha Hu. pose proof (DynFile.dyn_upload_ok sha256 ct uu path tmp es fs Hsha Hu) as H.
  unfold DynFile.upload, DynWriter.create, DynWriter.io_ok in H. cbn [DynWriter.open_ok negb DynWriter.write1] in H.
  unfold DynWriter.write_all at 1 in H. rewrite DynFile.write_end in H by done.
  match type of H with context [DynFile.add_all es ?w] =>
    replace w with (DynFile.writer_at uu ct path tmp []) in H by
      (unfold DynFile.writer_at, DynWriter.set_content; simpl; by rewrite app_nil_r) end.
  rewrite DynFile.add_all_spec in H. cbn [app] in H. unfold DynWriter.io_ok.
  destruct (DynWriter.close _ _ _ _) as [r [w fs']]. exists w. by injection H as -> ->.
Qed.

Section append.
Context (s : Session) (wid : Z) (name : string) (uu : list byte) (ct : Z) (path tmp : string)
  (stat : UploadStatistic).
Hypothesis Hactive : finished (shared s) = Active.
Let st := writer_state name uu ct path tmp stat.

Lemma append_one es o d n l :
  known_chunks (shared s) !! d = Some n -> in_u64 (o + n) -> in_u64 (Z.of_nat (length es) + 1) ->
  dynamic_append_loop wid ((Ok d, o, DynWriter.io_ok) :: l) (with_writer s wid (st es o))
  = dynamic_append_loop wid l (with_writer s wid (st (es ++ [(o + n, d)]) (o + n))).
Proof.
  intros Hk Ho Hn. cbn [dynamic_append_loop]. unfold with_lock at 1, lift, lookup_chunk.
  cbn [poisoned with_writer shared published known_chunks set_dynamic is_panic]. rewrite Hk.
  cbn [ok_or]. unfold with_lock, lift, dynamic_writer_append_chunk, ensure_unfinished.
  cbn [poisoned shared published finished set_dynamic dynamic_writers]. rewrite Hactive, lookup_insert_eq.
  cbn [dw_closed st writer_state dw_offset dw_index dw_chunk_count]. rewrite Z.eqb_refl. cbn [negb].
  rewrite (u64_small (o + n)) by done. rewrite add_one.
  cbn [is_panic]. f_equal. unfold with_writer. f_equal. unfold set_dynamic. cbn. f_equal.
  rewrite insert_insert_eq. f_equal. unfold dw_with, st, writer_state. cbn. f_equal.
  rewrite u64_small by done. rewrite length_app. simpl. lia.
Qed.

Lemma append_all cs es o :
  Forall (fun c => known_chunks (shared s) !! c.1 = Some c.2 /\ 0 <= c.2) cs ->
  0 <= o -> o + total_size cs <= U64_MAX -> Z.of_nat (length es + length cs) <= U64_MAX ->
  dynamic_append_loop wid
    (zip (zip (Ok <$> cs.*1) (chunk_offsets o cs)) (replicate (length cs) DynWriter.io_ok))
    (with_writer s wid (st es o))
  = (Ok tt, with_writer s wid (st (es ++ chunk_entries o cs) (o + total_size cs))).
Proof.
  intros Hk. revert es o. induction Hk as [|[d n] cs [Hd Hn] Hk IH]; intros es o Ho Ht Hl.
  - simpl. by rewrite app_nil_r, Z.add_0_r.
  - change (total_size ((d, n) :: cs)) with (n + total_size cs) in *. cbn [fst snd] in Hd, Hn.
    cbn [fmap list_fmap fst chunk_offsets chunk_entries zip_with replicate length] in *.
    rewrite (append_one es o d n); unfold in_u64 in *; [|done| |lia].
    + rewrite IH; [|lia..|]; [|rewrite length_app; simpl; lia].
      rewrite <- (assoc_L (++)). cbn [app]. do 3 f_equal. lia.
    + assert (0 <= total_size cs); [|lia]. clear -Hk. induction Hk as [|[] ? [_ ?]]; simpl in *; lia.
Qed.
End append.
End Flow.
Import Flow.

(** Uploading an archive through the session API publishes exactly what the client
    sent.  In an active session in which all chunks of an archive are known, creating a dynamic index,
    appending the chunks at their offsets and closing it with the number of chunks, the total
    size and the checksum of the index succeeds; then the published index file has
    exactly these chunks with their end offsets, the archive is recorded as uploaded with this
    checksum, one more file is counted, and no writer is left. *)
Theorem dynamic_upload_session P `{HP : PrimsLaws P} s name uu ct path tmp cs upload :
  finished (shared s) = Active -> poisoned s = false ->
  dynamic_writers (shared s) !! u64 (uid_counter (shared s) + 1) = None ->
  length uu = 16%nat ->
  Forall (fun c => known_chunks (shared s) !! c.1 = Some c.2 /\ 0 <= c.2) cs ->
  total_size cs <= U64_MAX -> Z.of_nat (length cs) <= U64_MAX ->
  let es := chunk_entries 0 cs in
  let csum := sha256 P (concat (DynFile.entry_bytes <$> es)) in
  exists wid s1 s2 s3,
    create_dynamic_index true name (Ok (DynFile.writer_at uu ct path tmp [])) s = (Ok wid, s1) /\
    dynamic_append wid (Ok <$> cs.*1) (chunk_offsets 0 cs) (replicate (length cs) DynWriter.io_ok) s1
      = (Ok tt, s2) /\
    dynamic_writer_close P DynWriter.io_ok (Ok upload) wid (Z.of_nat (length cs)) (total_size cs) csum s2
      = (Ok tt, s3) /\
    published s3 = <[path := DynFile.didx_file (sha256 P) uu ct es]> (delete tmp (published s)) /\
    uploaded_archives (shared s3) = <[name:=csum]> (uploaded_archives (shared s)) /\
    file_counter (shared s3) = u64 (file_counter (shared s) + 1) /\
    dynamic_writers (shared s3) = dynamic_writers (shared s) /\
    known_chunks (shared s3) = known_chunks (shared s).
Proof.
  intros Hact Hpo Hfresh Hu Hk Ht Hl es csum. set (wid := u64 (uid_counter (shared s) + 1)) in *.
  set (s0 := {| shared := set_uid wid (shared s); published := published s; poisoned := false |}).
  set (st := writer_state name uu ct path tmp UploadStatistic_new).
  destruct (close_writer (sha256 P) uu ct path tmp es (published s)) as [w Hw]; [apply sha256_len|done|].
  fold csum in Hw. set (didx := DynFile.didx_file (sha256 P) uu ct es) in *. clearbody didx.
  exists wid, (with_writer s0 wid (st [] 0)), (with_writer s0 wid (st es (total_size cs))).
  eexists. split.
  { unfold create_dynamic_index, with_lock, lift, register_dynamic_writer, ensure_unfinished, next_uid.
    cbn [negb]. by rewrite Hpo, Hact. }
  split.
  { unfold dynamic_append. rewrite length_offsets, length_fmap, length_fmap, Nat.eqb_refl. cbn [negb].
    by apply (append_all s0 wid name uu ct path tmp UploadStatistic_new Hact cs [] 0 Hk). }
  unfold dynamic_writer_close, with_lock, lift, dynamic_close_locked, ensure_unfinished.
  cbn [poisoned with_writer shared published finished set_dynamic dynamic_writers s0 set_uid].
  rewrite Hact, lookup_insert_eq. cbn [dw_closed st writer_state dw_chunk_count dw_offset dw_index].
  assert (length es = length cs) as -> by (unfold es; clear; generalize 0;
    induction cs as [|[d n] cs IH]; intros o; simpl; [done|by rewrite IH]).
  rewrite !Z.eqb_refl. cbn [negb]. rewrite Hw. rewrite bool_decide_eq_true_2 by done.
  cbn. unfold dynamic_close_remove. cbn. rewrite lookup_insert_eq. split; [reflexivity|]. cbn.
  split_and!; try done. rewrite insert_insert_eq. by apply delete_insert_id.
Qed.

(** ** Chunks of the previous backup *)
Module Previous.
Section register.
Context {I : Type} `{HI : IndexFile I} {ok : I -> Prop} {HL : IndexFileLaws I ok} (index : I).
Hypothesis Hok : ok index.

(** The chunks from position [pos] on, entered into a map. *)
Fixpoint enter (n : nat) (pos : Z) (known : gmap digest Z) : gmap digest Z :=
  match n with
  | O => known
  | S n =>
      match chunk_info index pos with
      | Some info => enter n (pos + 1) (<[cri_digest info := u32 (ChunkReadInfo_size info)]> known)
      | None => known
      end
  end.

Lemma register_index_enter n pos s :
  finished (shared s) = Active -> poisoned s = false -> 0 <= pos ->
  pos + Z.of_nat n <= index_count index ->
  register_index index n pos s =
    (Ok tt, {| shared := set_known (enter n pos (known_chunks (shared s))) (shared s);
               published := published s; poisoned := false |}).
Proof.
  revert pos s. induction n as [|n IH]; intros pos s Hact Hpo Hpos Hn; cbn [register_index enter].
  { destruct s as [[] fs po]. cbn in *. by subst. }
  destruct (law_chunk_info index pos Hok) as (info & Hi & _); [lia|]. rewrite Hi. cbn [unwrap].
  unfold with_lock, lift, register_chunk, ensure_unfinished. rewrite Hpo, Hact. cbn [is_panic].
  rewrite IH; [|done|done|lia|lia]. done.
Qed.

Lemma enter_mono n pos known d : is_Some (known !! d) -> is_Some (enter n pos known !! d).
Proof.
  revert pos known. induction n as [|n IH]; intros pos known Hk; [done|]. cbn [enter].
  destruct (chunk_info index pos) as [info|]; [|done]. apply IH.
  destruct (decide (cri_digest info = d)) as [->|]; simplify_map_eq; eauto.
Qed.

Lemma enter_has n pos known p info :
  pos <= p < pos + Z.of_nat n -> chunk_info index p = Some info -> 0 <= pos ->
  pos + Z.of_nat n <= index_count index -> is_Some (enter n pos known !! cri_digest info).
Proof.
  revert pos known. induction n as [|n IH]; intros pos known Hp Hi Hpos Hn; [lia|]. cbn [enter].
  destruct (law_chunk_info index pos Hok) as (i & Hi' & _); [lia|]. rewrite Hi'.
  destruct (decide (p = pos)) as [->|]; [|apply IH; [lia|done|lia|lia]].
  apply enter_mono. assert (i = info) as -> by congruence. rewrite lookup_insert_eq. eauto.
Qed.

Lemma enter_from n pos known d size :
  enter n pos known !! d = Some size ->
  known !! d = Some size \/
  exists p info, pos <= p < pos + Z.of_nat n /\ chunk_info index p = Some info /\
    cri_digest info = d /\ size = u32 (ChunkReadInfo_size info).
Proof.
  revert pos known. induction n as [|n IH]; intros pos known Hk; [by left|]. cbn [enter] in Hk.
  destruct (chunk_info index pos) as [info|] eqn:E; [|by left].
  destruct (IH _ _ Hk) as [Hin|(p & i & Hp & ?)].
  - apply lookup_insert_Some in Hin as [[<- <-]|[_ ?]]; [|by left].
    right. exists pos, info. split_and!; [lia|lia|done..].
  - right. exists p, i. split; [lia|done].
Qed.
End register.
End Previous.
Import Previous.

(** An incremental client can use all chunks of the previous backup and no others.
    Downloading an index of the previous snapshot registers, without failing, exactly the
    chunks of that index: every chunk of it is known afterwards, and a chunk that is known
    was known before or is one of the index, with the size it has there; nothing else of the
    session changes. *)
Theorem previous_chunks_registered {I} `{HI : IndexFile I} (ok : I -> Prop) `{HL : !IndexFileLaws I ok}
    (index : I) s :
  ok index -> finished (shared s) = Active -> poisoned s = false ->
  exists known,
    register_index index (Z.to_nat (index_count index)) 0 s
      = (Ok tt, {| shared := set_known known (shared s); published := published s; poisoned := false |}) /\
    (forall p info, 0 <= p < index_count index -> chunk_info index p = Some info ->
       is_Some (known !! cri_digest info)) /\
    (forall d size, known !! d = Some size ->
       known_chunks (shared s) !! d = Some size \/
       exists p info, 0 <= p < index_count index /\ chunk_info index p = Some info /\
         cri_digest info = d /\ size = u32 (ChunkReadInfo_size info)).
Proof.
  intros Hok Hact Hpo. pose proof (law_count index Hok) as Hc.
  exists (enter index (Z.to_nat (index_count index)) 0 (known_chunks (shared s))). split_and!.
  - by apply (register_index_enter index Hok); [..|lia].
  - intros p info Hp Hi. eapply (enter_has index Hok); [|done|lia|lia]. lia.
  - intros d size Hk. apply enter_from in Hk as [?|(p & info & Hp & ?)]; [by left|].
    right. exists p, info. split; [lia|done].
Qed.

(** ** Requests that fail *)

(** [finish_backup] releases the lock that keeps the garbage collector away
    before its last checks: called without a manifest, it fails and the session stays active
    and can go on to register chunks, but the chunk store is no longer locked. *)
Theorem failed_finish_releases_lock P J blob_path last_backup s3 replace sync s d len :
  finished (shared s) = Active -> poisoned s = false ->
  dynamic_writers (shared s) = ∅ -> fixed_writers (shared s) = ∅ -> file_counter (shared s) <> 0 ->
  last_backup <> Some false -> manifest (shared s) = None ->
  exists s' s'', finish_backup P J blob_path last_backup s3 replace sync s
      = (Err "no backup manifest uploaded", s') /\
    finished (shared s') = Active /\ g_chunk_store (backup_lock_guards (shared s')) = false /\
    with_lock (lift (register_chunk d len)) s' = (Ok tt, s'').
Proof.
  intros Hact Hpo Hd Hx Hfc Hlb Hm.
  unfold finish_backup, with_lock, lift, finish_locked, register_chunk, ensure_unfinished.
  rewrite Hpo, Hact, Hd, Hx. rewrite !(bool_decide_eq_true_2 (_ = ∅)) by done. cbn [negb orb].
  rewrite (proj2 (Z.eqb_neq _ _)) by done. rewrite (bool_decide_eq_false_2 (last_backup = _)) by done.
  cbn [manifest set_state]. rewrite Hm. eexists _, _. split_and!; [done..|]. done.
Qed.

(** A manifest whose unprotected part is neither an object nor null makes [finish_backup]
    panic while it holds the lock; every later request panics too, and so does the code that
    would remove the unfinished snapshot when the connection ends. *)
Theorem bad_manifest_poisons_session P J blob_path last_backup s3 replace sync s m conn :
  finished (shared s) = Active -> poisoned s = false ->
  dynamic_writers (shared s) = ∅ -> fixed_writers (shared s) = ∅ -> file_counter (shared s) <> 0 ->
  last_backup <> Some false -> manifest (shared s) = Some m ->
  match unprotected m with VNull | VObject _ => False | _ => True end ->
  exists s', is_panic (finish_backup P J blob_path last_backup s3 replace sync s).1 = true /\
    (finish_backup P J blob_path last_backup s3 replace sync s).2 = s' /\
    (forall A (f : SharedBackupState -> files_t -> res A * (SharedBackupState * files_t)),
       is_panic (with_lock f s').1 = true) /\
    is_panic (session_end false conn s') = true.
Proof.
  intros Hact Hpo Hd Hx Hfc Hlb Hm Hu. unfold finish_backup, with_lock, lift, finish_locked, ensure_unfinished.
  rewrite Hpo, Hact, Hd, Hx. rewrite !(bool_decide_eq_true_2 (_ = ∅)) by done. cbn [negb orb].
  rewrite (proj2 (Z.eqb_neq _ _)) by done. rewrite (bool_decide_eq_false_2 (last_backup = _)) by done.
  cbn [manifest set_state]. rewrite Hm.
  assert (forall v, value_index_mut (unprotected m) "chunk_upload_stats" v
    = Panic "cannot access key in JSON value") as -> by (intros; by destruct (unprotected m)).
  eexists. split_and!; [done..|]. unfold session_end, ensure_finished. by destruct conn.
Qed.

(** Blobs are accepted in every state of the session: also when the backup is finishing or
    finished (when, as a comment says, no other call can modify the backup state any more),
    uploading a blob that is not the manifest succeeds, replaces the stored file and the
    recorded checksum, and counts a file. *)
Theorem blob_after_finish P J blob_path s name data blob :
  poisoned s = false -> name <> MANIFEST_BLOB_NAME -> load_from_reader P (Ok data) = Ok blob ->
  exists s', add_blob P J blob_path (Ok tt) (Ok tt) name data s = (Ok tt, s') /\
    finished (shared s') = finished (shared s) /\
    published s' = <[blob_path name := raw_data blob]> (published s) /\
    uploaded_archives (shared s') = <[name := sha256 P (raw_data blob)]> (uploaded_archives (shared s)) /\
    file_counter (shared s') = u64 (file_counter (shared s) + 1).
Proof.
  intros Hpo Hn Hl. unfold add_blob. rewrite Hl, (bool_decide_eq_false_2 (name = _)) by done.
  cbn [datastore_add_blob]. unfold with_lock, lift, add_blob_commit. cbn [poisoned]. rewrite Hpo.
  rewrite (bool_decide_eq_false_2 (name = _)) by done. eexists. split; [reflexivity|]. done.
Qed.

(** ** Sessions to try the statements on *)
Module SessionWitness.
Import ToyPrims ToyJson.
Definition path (name : string) : string := "snap/" +:+ name.
Lemma path_inj a b : path a = path b -> a = b.
Proof. unfold path. intros H. by injection H. Qed.

Definition raw_of (r : res DataBlob) : list byte := match r with Ok b => raw_data b | _ => [] end.
(** A configuration file, an archive of one chunk, and a manifest that lists both. *)
Definition conf : list byte := raw_of (encode toy (Err "no iv") (bytes "memory: 512") None true).
Definition cd : digest := resize 32 x00 (bytes "chunk").
Definition didx_csum : digest := sha256 toy (le_bytes 8 5 ++ cd).
Definition index : list byte := raw_of (to_data_blob toy toy_json
  (manifest_add_file "root.pxar.didx" 5 didx_csum ModeNone
    (manifest_add_file "qemu.conf.blob" 11 (sha256 toy conf) ModeNone (manifest_new "vm" "100" 7))) None).
Definition writer : DynWriter.DynamicIndexWriter :=
  {| DynWriter.content := replicate 4096 x00; DynWriter.pos := 4096; DynWriter.closed := false;
     DynWriter.filename := "snap/root.pxar.didx"; DynWriter.tmp_filename := "snap/root.pxar.tmp_didx";
     DynWriter.csum := Some []; DynWriter.uuid := replicate 16 x00; DynWriter.ctime := 7 |}.

Definition ok_continue : Trace.label := Trace.LContinue 0 (Ok false) (Ok tt) (Ok tt) (Ok tt).
(** Both uploads overlap; [finish] is refused at first. *)
Definition upload_trace : list Trace.label := [
  Trace.LFinish None;
  Trace.LRequest (Trace.RNewDynamic writer "root.pxar.didx");
  Trace.LRequest (Trace.RDynamicChunk 1 cd 5 5 false);
  Trace.LRequest (Trace.RAppendDynamic DynWriter.io_ok 1 0 5 cd);
  Trace.LCloseDynamic DynWriter.io_ok 1 1 5 didx_csum;
  ok_continue;
  Trace.LBlob (Ok tt) (Ok tt) "qemu.conf.blob" conf;
  Trace.LBlob (Ok tt) (Ok tt) MANIFEST_BLOB_NAME index;
  ok_continue; ok_continue;
  Trace.LFinish None ].
Definition finish_trace : list Trace.label := upload_trace ++ [ok_continue; ok_continue].

Definition chunk : list byte := raw_of (encode toy (Err "no iv") (bytes "chunk") None true).

Definition active : Session :=
  {| shared := set_known {[ cd := 5 ]} (shared (Session_new (BackupLockGuards_new false)));
     published := ∅; poisoned := false |}.
End SessionWitness.
Import SessionWitness.

Lemma finished_backup_consistent_witness :
  let c := Trace.run ToyPrims.toy ToyJson.toy_json path finish_trace (Trace.init false) in
  g_group (backup_lock_guards (shared (Trace.sess c))) = false /\
  exists m unprot blob,
    to_data_blob ToyPrims.toy ToyJson.toy_json (with_unprotected m unprot) None = Ok blob /\
    published (Trace.sess c) !! path MANIFEST_BLOB_NAME = Some (raw_data blob) /\
    Forall (fun f => Trace.uploaded ToyPrims.toy (Trace.log c) (fi_filename f) (fi_csum f)) (m_files m).
Proof.
  destruct (finished_backup_consistent ToyPrims.toy ToyJson.toy_json path false finish_trace path_inj)
    as (_ & _ & H).
  destruct H as (_ & _ & m & unprot & blob & Hb & Hp & Hu).
  - vm_compute. reflexivity.
  - split; [vm_compute; reflexivity|]. exists m, unprot, blob. split; [exact Hb|split; [exact Hp|exact Hu]].
Defined.

Lemma finishing_freezes_witness :
  let c := Trace.run ToyPrims.toy ToyJson.toy_json path upload_trace (Trace.init false) in
  finished (shared (Trace.sess (Trace.run ToyPrims.toy ToyJson.toy_json path
    [Trace.LRequest (Trace.RChunk cd 5); ok_continue] c))) <> Active.
Proof.
  destruct (finishing_freezes ToyPrims.toy ToyJson.toy_json path false upload_trace
    [Trace.LRequest (Trace.RChunk cd 5); ok_continue] path_inj) as (_ & _ & _ & _ & H & _).
  - vm_compute. discriminate.
  - exact H.
Defined.

Lemma upload_chunk_verified_witness :
  exists c, upload_chunk ToyPrims.toy [Ok (take 9 chunk); Ok (drop 9 chunk)] cd 5 17 [] = Ok (cd, 5, c) /\
    load_from_reader ToyPrims.toy (Ok (raw_data c)) = Ok c.
Proof.
  exists {| raw_data := chunk |}.
  assert (upload_chunk ToyPrims.toy [Ok (take 9 chunk); Ok (drop 9 chunk)] cd 5 17 []
    = Ok (cd, 5, {| raw_data := chunk |})) as H by (vm_compute; reflexivity).
  split; [exact H|].
  destruct (upload_chunk_verified ToyPrims.toy _ cd 5 17 cd 5 {| raw_data := chunk |} H)
    as (_ & _ & _ & _ & Hl & _). exact Hl.
Defined.

Lemma dynamic_upload_session_witness :
  exists wid s1 s2 s3,
    create_dynamic_index true "root.pxar.didx"
      (Ok (DynFile.writer_at (replicate 16 x01) 7 "p" "t" [])) active = (Ok wid, s1) /\
    dynamic_append wid [Ok cd; Ok cd] [0; 5] [DynWriter.io_ok; DynWriter.io_ok] s1 = (Ok tt, s2) /\
    dynamic_writer_close ToyPrims.toy DynWriter.io_ok (Ok false) wid 2 10
      (sha256 ToyPrims.toy (concat (DynFile.entry_bytes <$> [(5, cd); (10, cd)]))) s2 = (Ok tt, s3).
Proof.
  destruct (dynamic_upload_session ToyPrims.toy active "root.pxar.didx" (replicate 16 x01) 7 "p" "t"
    [(cd, 5); (cd, 5)] false) as (wid & s1 & s2 & s3 & H1 & H2 & H3 & _).
  - reflexivity.
  - reflexivity.
  - reflexivity.
  - reflexivity.
  - assert (known_chunks (shared active) !! cd = Some 5) as Hk by apply lookup_singleton_eq.
    repeat constructor; simpl; done || lia.
  - vm_compute. discriminate.
  - vm_compute. discriminate.
  - exists wid, s1, s2, s3. split; [exact H1|]. split; [exact H2|exact H3].
Defined.

Lemma previous_chunks_registered_witness :
  exists known,
    register_index DynWitness.r (Z.to_nat (index_count DynWitness.r)) 0 active
    = (Ok tt, {| shared := set_known known (shared active); published := ∅; poisoned := false |}).
Proof.
  destruct (previous_chunks_registered DynReaderSpec.reader_sorted DynWitness.r active)
    as (known & H & _).
  - split; [apply DynReaderSpec.dyn_opened_ok, DynWitness.r_opened|apply DynWitness.r_sorted].
  - reflexivity.
  - reflexivity.
  - exists known. exact H.
Defined.
