(* ===== verification/PullChunks.v ===== *)
(** * Pulling the chunks of an index, [pull_index_chunks] of [src/server/pull.rs]

    The chunks of an index are fetched from the source by up to 20 tasks at a time, which share the map of
    the chunks seen so far in the group ([EncounteredChunks]) and hand the chunks to four threads
    that check and store them.  When the snapshot is decrypted on the way there is one task at a time, and
    it writes a new index.  A step of the relation [pull_step] is what one task or thread does between two
    points where it can be interrupted: the lock of the map, the request to the source, the
    channel to the threads.  The source is arbitrary: it answers each request with any data or error.  Other
    processes may add chunks to the store at any time.

    The pool is that of the crate proxmox-parallel-handler, as in [Verify]: [send] waits while the channel is
    full and fails after a thread has failed; threads take items in order; [complete] and dropping the
    pool wait until all items are processed.  The capacity of the channel is an argument.  Chunks are
    stored in the file system backend. *)

From S2P Require Import Prelude IndexFile FixedIndex DynamicIndex DataBlob ChunkStore.
From Stdlib Require Import Strings.Byte.

(** ** [EncounteredChunks] *)
Record EncounteredChunkInfo := {
  touched : bool;
  ec_chunk_size : Z;
  decrypted_digest : option digest;
}.
Abbreviation EncounteredChunks := (gmap (list byte) EncounteredChunkInfo).

Definition check_reusable (d : digest) (chunk_size : Z) (enc : EncounteredChunks)
    : res (option EncounteredChunkInfo) :=
  match enc !! d with
  | Some chunk_info =>
      if negb (ec_chunk_size chunk_info =? chunk_size)
      then Err "inconsistent chunk size for reusable chunk detected"
      else Ok (Some chunk_info)
  | None => Ok None
  end.

Definition mark_reusable (d : digest) (chunk_size : Z) (decrypted : option digest)
    (enc : EncounteredChunks) : res unit * EncounteredChunks :=
  match enc !! d with
  | Some chunk_info =>
      if negb (ec_chunk_size chunk_info =? chunk_size)
      then (Err "failed to mark chunk as reusable", enc)
      else
        (Ok tt,
         match decrypted_digest chunk_info with
         | None => <[d := {| touched := touched chunk_info; ec_chunk_size := ec_chunk_size chunk_info;
                             decrypted_digest := decrypted |}]> enc
         | Some _ => enc
         end)
  | None =>
      (Ok tt, <[d := {| touched := false; ec_chunk_size := chunk_size;
                        decrypted_digest := decrypted |}]> enc)
  end.

Definition mark_touched (d : digest) (enc : EncounteredChunks) : res unit * EncounteredChunks :=
  match enc !! d with
  | Some chunk_info =>
      (Ok tt, <[d := {| touched := true; ec_chunk_size := ec_chunk_size chunk_info;
                        decrypted_digest := decrypted_digest chunk_info |}]> enc)
  | None => (Err "cannot mark non-reusable chunk as touched", enc)
  end.

(** ** Statistics of [src/server/sync.rs]; [elapsed] in nanoseconds *)
Record RemovedVanishedStats := { rv_groups : Z; rv_snapshots : Z; rv_namespaces : Z }.
Definition removed_add (a rhs : RemovedVanishedStats) : RemovedVanishedStats :=
  {| rv_groups := u64 (rv_groups a + rv_groups rhs);
     rv_snapshots := u64 (rv_snapshots a + rv_snapshots rhs);
     rv_namespaces := u64 (rv_namespaces a + rv_namespaces rhs) |}.
Record SyncStats := {
  ss_chunk_count : Z;
  ss_bytes : Z;
  ss_elapsed : Z;
  ss_removed : option RemovedVanishedStats;
}.
Definition stats_default : SyncStats :=
  {| ss_chunk_count := 0; ss_bytes := 0; ss_elapsed := 0; ss_removed := None |}.
Definition stats_from_removed (r : RemovedVanishedStats) : SyncStats :=
  {| ss_chunk_count := 0; ss_bytes := 0; ss_elapsed := 0; ss_removed := Some r |}.
Definition stats_add (a rhs : SyncStats) : SyncStats :=
  {| ss_chunk_count := u64 (ss_chunk_count a + ss_chunk_count rhs);
     ss_bytes := u64 (ss_bytes a + ss_bytes rhs);
     ss_elapsed := ss_elapsed a + ss_elapsed rhs;
     ss_removed := match ss_removed rhs, ss_removed a with
                   | Some r, Some own => Some (removed_add own r)
                   | Some r, None => Some r
                   | None, own => own
                   end |}.

(** ** The index that is written when chunks are decrypted *)
Inductive DecryptedIndexWriter :=
| DecFixed (w : Writer.FixedIndexWriter)
| DecDynamic (w : DynWriter.DynamicIndexWriter).

(** Outcomes of the system calls of [add_chunk]. *)
Record AddIo := { add_fixed : Writer.Io; add_dynamic : DynWriter.Io }.

(** [add_chunk] of either writer for the chunk of [size] bytes at [start_offset]. *)
Definition dec_add_chunk (io : AddIo) (start_offset size : Z) (d : digest) (w : DecryptedIndexWriter)
    : res unit * DecryptedIndexWriter :=
  match w with
  | DecFixed w =>
      let '(r, w) := Writer.add_chunk (add_fixed io) start_offset (u32 size) d w in (r, DecFixed w)
  | DecDynamic w =>
      let end_offset := u64 (start_offset + size) in
      let '(r, w) := DynWriter.add_chunk (add_dynamic io) end_offset d w in (r, DecDynamic w)
  end.

(** ** The state of a run *)

(** A task: not yet started, waiting for the source, or waiting for the channel. *)
Inductive task :=
| TNew (info : ChunkReadInfo)
| TRead (info : ChunkReadInfo)
| TDecrypt (info : ChunkReadInfo)
| TSend (chunk : DataBlob) (d : digest) (size : Z).

(** The function itself: it drives the tasks, waits in [complete], or has returned. *)
Inductive main_state := MStream | MComplete | MDone (r : res SyncStats).

Record PullState := {
  ps_todo : list Z;
  ps_tasks : list task;
  ps_enc : EncounteredChunks;
  ps_writer : option DecryptedIndexWriter;
  ps_offset : Z;
  ps_store : store;
  ps_queue : list (DataBlob * digest * Z);
  ps_abort : option string;
  ps_threads : nat;
  ps_bytes : Z;
  ps_count : Z;
  ps_main : main_state;
}.

Definition with_main (m : main_state) (s : PullState) : PullState :=
  {| ps_todo := ps_todo s; ps_tasks := ps_tasks s; ps_enc := ps_enc s; ps_writer := ps_writer s;
     ps_offset := ps_offset s; ps_store := ps_store s; ps_queue := ps_queue s;
     ps_abort := ps_abort s; ps_threads := ps_threads s; ps_bytes := ps_bytes s;
     ps_count := ps_count s; ps_main := m |}.
Definition with_todo (todo : list Z) (tasks : list task) (s : PullState) : PullState :=
  {| ps_todo := todo; ps_tasks := tasks; ps_enc := ps_enc s; ps_writer := ps_writer s;
     ps_offset := ps_offset s; ps_store := ps_store s; ps_queue := ps_queue s;
     ps_abort := ps_abort s; ps_threads := ps_threads s; ps_bytes := ps_bytes s;
     ps_count := ps_count s; ps_main := ps_main s |}.
Definition with_enc (enc : EncounteredChunks) (st : store) (s : PullState) : PullState :=
  {| ps_todo := ps_todo s; ps_tasks := ps_tasks s; ps_enc := enc; ps_writer := ps_writer s;
     ps_offset := ps_offset s; ps_store := st; ps_queue := ps_queue s;
     ps_abort := ps_abort s; ps_threads := ps_threads s; ps_bytes := ps_bytes s;
     ps_count := ps_count s; ps_main := ps_main s |}.
Definition with_writer (w : option DecryptedIndexWriter) (offset : Z) (s : PullState) : PullState :=
  {| ps_todo := ps_todo s; ps_tasks := ps_tasks s; ps_enc := ps_enc s; ps_writer := w;
     ps_offset := offset; ps_store := ps_store s; ps_queue := ps_queue s;
     ps_abort := ps_abort s; ps_threads := ps_threads s; ps_bytes := ps_bytes s;
     ps_count := ps_count s; ps_main := ps_main s |}.
Definition with_sent (q : list (DataBlob * digest * Z)) (raw_size : Z) (s : PullState) : PullState :=
  {| ps_todo := ps_todo s; ps_tasks := ps_tasks s; ps_enc := ps_enc s; ps_writer := ps_writer s;
     ps_offset := ps_offset s; ps_store := ps_store s; ps_queue := q;
     ps_abort := ps_abort s; ps_threads := ps_threads s; ps_bytes := u64 (ps_bytes s + raw_size);
     ps_count := u64 (ps_count s + 1); ps_main := ps_main s |}.
(** A thread has processed an item: the first error is kept, and a thread that panics is gone. *)
Definition with_worked (q : list (DataBlob * digest * Z)) (r : res unit) (st : store) (s : PullState)
    : PullState :=
  {| ps_todo := ps_todo s; ps_tasks := ps_tasks s; ps_enc := ps_enc s; ps_writer := ps_writer s;
     ps_offset := ps_offset s; ps_store := st; ps_queue := q;
     ps_abort := match ps_abort s, r with None, Err e => Some e | a, _ => a end;
     ps_threads := if is_panic r then pred (ps_threads s) else ps_threads s; ps_bytes := ps_bytes s;
     ps_count := ps_count s; ps_main := ps_main s |}.

(** An error ends the function, and the other tasks are dropped. *)
Definition fail (r : res SyncStats) (s : PullState) : PullState :=
  with_main (MDone r) (with_todo [] [] s).
Definition fail_as {A} (r : res A) : res SyncStats :=
  match r with
  | Ok _ => Panic "unreachable"
  | Err e => Err e
  | Panic e => Panic e
  end.
Definition set_task (i : nat) (t : task) (s : PullState) : PullState :=
  with_todo (ps_todo s) (<[i := t]> (ps_tasks s)) s.
Definition end_task (i : nat) (s : PullState) : PullState :=
  with_todo (ps_todo s) (delete i (ps_tasks s)) s.

Section pull_chunks.
Variable P : Prims.
Variable X : Hex.
(** [sync_file]: chunk files are synced when they are written; [cap]: the capacity of the channel. *)
Variables (sync_file : bool) (cap : nat).
Context {R : Type} `{IndexFile R}.
(** What [read_chunk] of the source can deliver for a digest; [read_raw_chunk] delivers anything. *)
Variable source_data : digest -> list byte -> Prop.

(** ** The parts of the stream *)

(** The closure of [filter_map]. *)
Definition next_chunk (index : R) (enc : EncounteredChunks) (pos : Z) : option (res ChunkReadInfo) :=
  info ← chunk_info index pos;
  match check_reusable (cri_digest info) (ChunkReadInfo_size info) enc with
  | Ok None => Some (Ok info)
  | Ok (Some reusable) =>
      if bool_decide (is_Some (decrypted_digest reusable)) || negb (touched reusable)
      then Some (Ok info) else None
  | Err err => Some (Err err)
  | Panic err => Some (Panic err)
  end.

Definition fetch (index : R) (pos : Z) (todo : list Z) (s : PullState) : PullState :=
  match next_chunk index (ps_enc s) pos with
  | None => with_todo todo (ps_tasks s) s
  | Some (Ok info) => with_todo todo (ps_tasks s ++ [TNew info]) s
  | Some r => fail (fail_as r) s
  end.

(** Marked before the download, so that this happens only once. *)
Definition mark_before_download (d : digest) (size : Z) (enc : EncounteredChunks)
    : res unit * EncounteredChunks :=
  let! _, enc := mark_reusable d size None enc in
  mark_touched d enc.

(** What a task without decryption does with the map locked; the result tells whether it has to download the
    chunk. *)
Definition start_plain (now : Z) (io : option string) (info : ChunkReadInfo)
    (s : EncounteredChunks * store) : res bool * (EncounteredChunks * store) :=
  let '(enc, st) := s in
  let d := cri_digest info in
  let size := ChunkReadInfo_size info in
  let download enc st :=
    let '(r, enc) := mark_before_download d size enc in
    try! _ := r for (enc, st) in
    (Ok true, (enc, st)) in
  try! reusable := check_reusable d size enc for (enc, st) in
  match reusable with
  | Some reusable =>
      if touched reusable then (Ok false, (enc, st)) else
      let '(r, st) := cond_touch_chunk X now io d false st in
      try! chunk_exists := r for (enc, st) in
      if chunk_exists then
        let '(r, enc) := mark_touched d enc in
        try! _ := r for (enc, st) in
        (Ok false, (enc, st))
      else download enc st
  | None => download enc st
  end.

(** The first part of a task with decryption: a chunk that is known is only added to the index. *)
Definition start_decrypt (io : AddIo) (info : ChunkReadInfo) (enc : EncounteredChunks)
    (s : DecryptedIndexWriter * Z) : res bool * (DecryptedIndexWriter * Z) :=
  let '(w, offset) := s in
  let size := ChunkReadInfo_size info in
  try! reusable := check_reusable (cri_digest info) size enc for s in
  match (reusable ≫= decrypted_digest) with
  | Some decrypted_digest =>
      let '(r, w) := dec_add_chunk io offset size decrypted_digest w in
      let s := (w, u64 (offset + size)) in
      try! _ := r for s in
      (Ok false, s)
  | None => (Ok true, s)
  end.

Definition run_new (now : Z) (io : option string) (aio : AddIo) (i : nat) (info : ChunkReadInfo)
    (s : PullState) : PullState :=
  match ps_writer s with
  | None =>
      let '(r, (enc, st)) := start_plain now io info (ps_enc s, ps_store s) in
      let s := with_enc enc st s in
      match r with
      | Ok true => set_task i (TRead info) s
      | Ok false => end_task i s
      | r => fail (fail_as r) s
      end
  | Some w =>
      let '(r, (w, offset)) := start_decrypt aio info (ps_enc s) (w, ps_offset s) in
      let s := with_writer (Some w) offset s in
      match r with
      | Ok true => set_task i (TDecrypt info) s
      | Ok false => end_task i s
      | r => fail (fail_as r) s
      end
  end.

(** [read_raw_chunk] has returned. *)
Definition run_read (i : nat) (info : ChunkReadInfo) (r : res DataBlob) (s : PullState) : PullState :=
  match r with
  | Ok chunk => set_task i (TSend chunk (cri_digest info) (ChunkReadInfo_size info)) s
  | r => fail (fail_as r) s
  end.

(** [read_chunk] has returned: the data becomes an unencrypted chunk, which is added to the index.  The random
    bytes of [build] are only used for encryption. *)
Definition decrypted_chunk (io : AddIo) (info : ChunkReadInfo) (r : res (list byte))
    (s : EncounteredChunks * (DecryptedIndexWriter * Z))
    : res (DataBlob * digest * Z) * (EncounteredChunks * (DecryptedIndexWriter * Z)) :=
  let '(enc, (w, offset)) := s in
  try! chunk_data := r for s in
  try! built := build P (Err "unused") (builder_compress true (builder_new chunk_data)) for s in
  let '(chunk, d) := built in
  let size := Z.of_nat (length chunk_data) in
  let '(r, w) := dec_add_chunk io offset size d w in
  let offset := u64 (offset + size) in
  try! _ := r for (enc, (w, offset)) in
  let '(r, enc) := mark_reusable (cri_digest info) size (Some d) enc in
  try! _ := r for (enc, (w, offset)) in
  (Ok (chunk, d, size), (enc, (w, offset))).

Definition run_decrypt (io : AddIo) (i : nat) (info : ChunkReadInfo) (r : res (list byte))
    (s : PullState) : PullState :=
  match ps_writer s with
  | None => fail (Panic "unreachable") s
  | Some w =>
      let '(r, (enc, (w, offset))) := decrypted_chunk io info r (ps_enc s, (w, ps_offset s)) in
      let s := with_enc enc (ps_store s) (with_writer (Some w) offset s) in
      match r with
      | Ok (chunk, d, size) => set_task i (TSend chunk d size) s
      | r => fail (fail_as r) s
      end
  end.

(** [send], and the counters; the task ends. *)
Definition run_send (i : nat) (chunk : DataBlob) (d : digest) (size : Z) (s : PullState) : PullState :=
  match ps_abort s with
  | Some e => fail (Err e) s
  | None =>
      if bool_decide (ps_threads s = 0%nat) then fail (Err "channel closed") s else
      end_task i (with_sent (ps_queue s ++ [(chunk, d, size)]) (raw_size chunk) s)
  end.

(** The handler of the pool. *)
Definition verify_and_write (now : Z) (io : InsertIo) (chunk : DataBlob) (d : digest) (size : Z)
    (st : store) : res unit * store :=
  try! _ := verify_unencrypted P chunk size d for st in
  let! _, st := insert_chunk_nolock X now io sync_file chunk d st in
  (Ok tt, st).

Definition run_work (now : Z) (io : InsertIo) (k : nat) (item : DataBlob * digest * Z) (s : PullState)
    : PullState :=
  let '(chunk, d, size) := item in
  let '(r, st) := verify_and_write now io chunk d size (ps_store s) in
  with_worked (delete k (ps_queue s)) r st s.

(** The end of the function, after [complete]. *)
Definition pull_result (elapsed : res Z) (log : res unit) (s : PullState) : res SyncStats :=
  let? elapsed := elapsed in
  let? _ := log in
  Ok {| ss_chunk_count := ps_count s; ss_bytes := ps_bytes s; ss_elapsed := elapsed;
        ss_removed := None |}.

(** ** The steps *)

(** What [verify_unencrypted] accepts: an encrypted chunk, about which it can say nothing, or one that can
    be decoded to a content with this digest. *)
Definition checked (d : digest) (data : list byte) : Prop :=
  exists chunk, raw_data chunk = data /\
    (is_encrypted chunk = Ok true \/
     exists content, decode P chunk None None = Ok content /\ sha256 P content = d).
(** Other processes add such chunks and change access times; they are assumed not to remove chunks. *)
Definition chunks_added (st st' : store) : Prop :=
  forall d, length d = 32%nat ->
    match st !! chunk_path X d, st' !! chunk_path X d with
    | Some e, Some e' => e_data e' = e_data e \/ checked d (e_data e')
    | None, Some e' => checked d (e_data e')
    | Some _, None => False
    | None, None => True
    end.

Definition task_limit (s : PullState) : nat :=
  match ps_writer s with None => 20 | Some _ => 1 end.
Definition drained (s : PullState) : Prop := ps_queue s = [] \/ ps_threads s = 0%nat.

Inductive pull_step (index : R) (s : PullState) : PullState -> Prop :=
| step_fetch pos todo :
    ps_main s = MStream -> ps_todo s = pos :: todo -> (length (ps_tasks s) < task_limit s)%nat ->
    pull_step index s (fetch index pos todo s)
| step_new i info now io aio :
    ps_main s = MStream -> ps_tasks s !! i = Some (TNew info) ->
    pull_step index s (run_new now io aio i info s)
| step_read i info r :
    ps_main s = MStream -> ps_tasks s !! i = Some (TRead info) ->
    pull_step index s (run_read i info r s)
| step_decrypt i info r aio :
    ps_main s = MStream -> ps_tasks s !! i = Some (TDecrypt info) ->
    (forall data, r = Ok data -> source_data (cri_digest info) data) ->
    pull_step index s (run_decrypt aio i info r s)
| step_send i chunk d size :
    ps_main s = MStream -> ps_tasks s !! i = Some (TSend chunk d size) ->
    (length (ps_queue s) < cap)%nat \/ ps_abort s <> None \/ ps_threads s = 0%nat ->
    pull_step index s (run_send i chunk d size s)
| step_work k item now io :
    ps_queue s !! k = Some item -> (k < ps_threads s)%nat ->
    pull_step index s (run_work now io k item s)
| step_streamed :
    ps_main s = MStream -> ps_todo s = [] -> ps_tasks s = [] ->
    pull_step index s (with_main MComplete s)
| step_aborted e :
    ps_main s = MComplete -> ps_abort s = Some e ->
    pull_step index s (with_main (MDone (Err e)) s)
| step_panicked :
    ps_main s = MComplete -> drained s -> ps_abort s = None -> (ps_threads s < 4)%nat ->
    pull_step index s (with_main (MDone (Err "panicked")) s)
| step_return elapsed log :
    ps_main s = MComplete -> drained s -> ps_abort s = None -> (4 <= ps_threads s)%nat ->
    pull_step index s (with_main (MDone (pull_result elapsed log s)) s).

(** The steps of a run, among those of other processes. *)
Inductive run_step (index : R) (s : PullState) : PullState -> Prop :=
| step_own s' : pull_step index s s' -> run_step index s s'
| step_others st :
    chunks_added (ps_store s) st -> run_step index s (with_enc (ps_enc s) st s).

Definition pull_start (index : R) (enc : EncounteredChunks) (writer : option DecryptedIndexWriter)
    (st : store) : PullState :=
  {| ps_todo := seqZ 0 (index_count index); ps_tasks := []; ps_enc := enc; ps_writer := writer;
     ps_offset := 0; ps_store := st; ps_queue := []; ps_abort := None; ps_threads := 4;
     ps_bytes := 0; ps_count := 0; ps_main := MStream |}.

(** [pull_index_chunks] has returned [r], and its pool is gone. *)
Definition pull_returned (s : PullState) (r : res SyncStats) : Prop :=
  ps_main s = MDone r /\ drained s.
Definition pull_index_chunks (index : R) (enc : EncounteredChunks)
    (writer : option DecryptedIndexWriter) (st : store) (r : res SyncStats) (s : PullState) : Prop :=
  rtc (run_step index) (pull_start index enc writer st) s /\ pull_returned s r.
End pull_chunks.
