(* ===== verification/PullChunksSpec.v ===== *)
(** * Properties of pulling chunks

    For every schedule of tasks and threads and an arbitrary source: the store never loses a chunk, and what is
    written was checked; a success means that all chunks of the index are in the store; with
    decryption, the new index lists the digests of the decrypted chunks in order; runs end.  An explicit run shows
    that a chunk that was pulled as it is earlier in the same group is left out of a decrypted index. *)

From S2P Require Import Prelude IndexFile FixedIndex DynamicIndex DataBlob DataBlobSpec ChunkStore ChunkStoreSpec PullChunks.
From Stdlib Require Import Strings.Byte.

Create HintDb pull.

Section pull_spec.
Context (P : Prims) (X : Hex) `{HX : HexLaws X}.
Context (sync_file : bool) (cap : nat).
Context {R : Type} `{IndexFile R}.
Context (source_data : digest -> list byte -> Prop).
Context (index : R).

Implicit Types (s : PullState) (st : store) (enc : EncounteredChunks) (d : digest).

Local Abbreviation pull_step := (pull_step P X sync_file cap source_data index).
Local Abbreviation run_step := (run_step P X sync_file cap source_data index).
Local Abbreviation chunks_added := (chunks_added P X).

(** ** The chunks of the store *)
Definition present st d : Prop := is_Some (st !! chunk_path X d).

Lemma chunks_added_refl st : chunks_added st st.
Proof. intros d Hd. destruct (st !! _); auto. Qed.

Lemma chunks_added_trans st1 st2 st3 : chunks_added st1 st2 -> chunks_added st2 st3 -> chunks_added st1 st3.
Proof.
  clear source_data. intros H12 H23 d Hd. specialize (H12 d Hd). specialize (H23 d Hd).
  destruct (st1 !! _), (st2 !! _), (st3 !! _); naive_solver congruence.
Qed.

Lemma chunks_added_present st st' d : length d = 32%nat -> chunks_added st st' -> present st d -> present st' d.
Proof.
  intros Hd Ha [e He]. specialize (Ha d Hd). rewrite He in Ha. unfold present. by destruct (st' !! _).
Qed.

Lemma pull_path_inj d d' : length d' = 32%nat -> chunk_path X d = chunk_path X d' -> d = d'.
Proof.
  intros Hd' He. apply (Names.chunk_path_inj X); [|done|done].
  apply (f_equal (length ∘ snd)) in He. cbn in He. rewrite !hex_length in He. lia.
Qed.

Lemma verified_checked chunk size d :
  verify_unencrypted P chunk size d = Ok tt -> checked P d (raw_data chunk).
Proof.
  unfold verify_unencrypted. intros E. exists chunk. split; [done|]. unfold is_encrypted.
  destruct (magic chunk) as [m| |] eqn:Em; [|done..].
  destruct (bool_decide (m = ENCR_COMPR_BLOB_MAGIC_1_0) || bool_decide (m = ENCRYPTED_BLOB_MAGIC_1_0)) eqn:Ee;
    [by left|right].
  destruct (decode P chunk None (Some d)) as [content| |] eqn:Ed; [|done..]. clear E. exists content.
  eapply BlobSpec.decode_expected; [|done]. exists m. split; [done|]. unfold BlobSpec.is_enc_magic.
  apply orb_false_iff in Ee as [E1%bool_decide_eq_false E2%bool_decide_eq_false]. tauto.
Qed.

(** A chunk file that is written or touched. *)
Lemma chunks_added_insert d e st :
  (forall e0, st !! chunk_path X d = Some e0 -> e_data e = e_data e0) /\ is_Some (st !! chunk_path X d)
    \/ checked P d (e_data e) ->
  chunks_added st (<[chunk_path X d := e]> st).
Proof.
  intros Hc d' Hd'. destruct (decide (chunk_path X d = chunk_path X d')) as [He|Hne].
  - apply pull_path_inj in He as ->; [|done]. rewrite lookup_insert_eq.
    destruct Hc as [[Hc [e0 He0]]|Hc]; [rewrite He0; left; by apply Hc|].
    destruct (st !! chunk_path X d'); auto.
  - rewrite lookup_insert_ne by done. destruct (st !! chunk_path X d'); auto.
Qed.

Lemma cond_touch_added now io d b st r st' :
  cond_touch_chunk X now io d b st = (r, st') ->
  chunks_added st st' /\ (r = Ok true -> present st' d).
Proof.
  unfold cond_touch_chunk, cond_touch_path. intros E. repeat case_match; simplify_eq;
    (split; [|try done]); try apply chunks_added_refl.
  - apply chunks_added_insert. left. split; [|by eexists]. intros e0 He0. by simplify_eq.
  - intros _. unfold present. by rewrite lookup_insert_eq.
Qed.

Lemma insert_added now io chunk d size st r st' :
  verify_unencrypted P chunk size d = Ok tt ->
  insert_chunk_nolock X now io sync_file chunk d st = (r, st') ->
  chunks_added st st' /\ (is_ok r = true -> present st' d).
Proof.
  intros Hv [(Hr & ->)|[(e & He & Hk & E)|[E _]]]%Growth.insert_cases.
  - split; [apply chunks_added_refl|by rewrite Hr].
  - apply (Growth.keep_chunk_cases _ _ _ _ _ _ _ _ e) in E as [(-> & ->)|(Hr & ->)]; [| |done].
    + split; [|intros _; unfold present; by rewrite lookup_insert_eq].
      apply chunks_added_insert. left. split; [|by eexists]. intros e0 He0. by simplify_eq.
    + split; [apply chunks_added_refl|by destruct r].
  - apply Growth.write_chunk_cases in E as [(Hr & ->)|(_ & ->)].
    + split; [apply chunks_added_refl|by destruct r].
    + split; [|intros _; unfold present; by rewrite lookup_insert_eq].
      apply chunks_added_insert. right. by eapply verified_checked.
Qed.

Lemma verify_and_write_added now io chunk d size st r st' :
  verify_and_write P X sync_file now io chunk d size st = (r, st') ->
  chunks_added st st' /\ (r = Ok tt -> present st' d).
Proof.
  unfold verify_and_write. destruct (verify_unencrypted P chunk size d) as [[]|e|e] eqn:Ev;
    [|intros [= <- <-]; (split; [apply chunks_added_refl|done])..].
  destruct (insert_chunk_nolock _ _ _ _ _ _ _) as [r1 st1] eqn:E1.
  eapply insert_added in E1 as [Ha Hp]; [|done].
  destruct r1; intros [= <- <-]; (split; [done|]); [intros _; by apply Hp|done..].
Qed.

(** ** The map of chunks *)

(** The chunks that the map promises to be there: those marked as touched, and the decrypted ones. *)
Definition marked enc d : Prop := exists i, enc !! d = Some i /\ touched i = true.
Definition wanted enc d : Prop :=
  marked enc d \/ exists d0 i, enc !! d0 = Some i /\ decrypted_digest i = Some d.

Lemma mark_reusable_cases d size dec enc r enc' :
  mark_reusable d size dec enc = (r, enc') ->
  (is_ok r = false /\ enc' = enc) \/
  (r = Ok tt /\ exists i, enc' = <[d := i]> enc /\ ec_chunk_size i = size /\
     touched i = default false (touched <$> enc !! d) /\
     decrypted_digest i = match enc !! d ≫= decrypted_digest with Some x => Some x | None => dec end /\
     (forall i0, enc !! d = Some i0 -> ec_chunk_size i0 = size)).
Proof.
  unfold mark_reusable. destruct (enc !! d) as [i|] eqn:Ei; cbn.
  - destruct (Z.eqb_spec (ec_chunk_size i) size) as [<-|Hne]; cbn; intros [= <- <-]; [right|by left].
    split; [done|]. destruct (decrypted_digest i) as [x|] eqn:Ed.
    + exists i. rewrite insert_id by done. split_and!; [done..|]. by intros ? [= <-].
    + eexists. split_and!; [done..|]. by intros ? [= <-].
  - intros [= <- <-]. right. split; [done|]. by eexists.
Qed.

Lemma mark_touched_cases d enc r enc' :
  mark_touched d enc = (r, enc') ->
  (is_ok r = false /\ enc' = enc) \/
  (r = Ok tt /\ exists i, enc !! d = Some i /\
     enc' = <[d := {| touched := true; ec_chunk_size := ec_chunk_size i;
                      decrypted_digest := decrypted_digest i |}]> enc).
Proof. unfold mark_touched. destruct (enc !! d) as [i|]; intros [= <- <-]; [right|left]; eauto. Qed.

Lemma mark_reusable_marked d size dec enc r enc' x :
  mark_reusable d size dec enc = (r, enc') -> marked enc' x <-> marked enc x.
Proof.
  intros [(_ & ->)|(_ & i & -> & _ & Ht & _)]%mark_reusable_cases; [done|]. unfold marked.
  destruct (decide (x = d)) as [->|Hne]; [|by rewrite lookup_insert_ne].
  rewrite lookup_insert_eq. split.
  - intros (? & [= <-] & Hi). rewrite Hi in Ht. destruct (enc !! d) as [j|]; [|done]. by exists j.
  - intros (j & Hj & Htj). exists i. split; [done|]. by rewrite Ht, Hj.
Qed.

Lemma mark_reusable_wanted d size dec enc r enc' x :
  mark_reusable d size dec enc = (r, enc') -> wanted enc' x -> wanted enc x \/ dec = Some x.
Proof.
  intros Em [Hm|(d0 & j & Hj & Hd)]; [left; left; by eapply mark_reusable_marked in Em; apply Em|].
  apply mark_reusable_cases in Em as [(_ & ->)|(_ & i & -> & _ & _ & Hi & _)]; [left; right; eauto|].
  destruct (decide (d0 = d)) as [->|Hne].
  - rewrite lookup_insert_eq in Hj. simplify_eq. rewrite Hd in Hi.
    destruct (enc !! d) as [k|] eqn:Ek; cbn in Hi; [|by right].
    destruct (decrypted_digest k) as [y|] eqn:Ey; simplify_eq; [|by right]. left. right. eauto.
  - rewrite lookup_insert_ne in Hj by done. left. right. eauto.
Qed.

Lemma mark_touched_marked d enc r enc' x :
  mark_touched d enc = (r, enc') -> marked enc x -> marked enc' x.
Proof.
  intros [(_ & ->)|(_ & i & Hi & ->)]%mark_touched_cases; [done|]. intros (j & Hj & Ht).
  destruct (decide (x = d)) as [->|Hne]; [|exists j; by rewrite lookup_insert_ne].
  eexists. by rewrite lookup_insert_eq.
Qed.

Lemma mark_touched_ok d enc enc' : mark_touched d enc = (Ok tt, enc') -> marked enc' d.
Proof.
  intros [(Hr & _)|(_ & i & Hi & ->)]%mark_touched_cases; [done|]. eexists. by rewrite lookup_insert_eq.
Qed.

Lemma mark_touched_wanted d enc r enc' x :
  mark_touched d enc = (r, enc') -> wanted enc' x -> wanted enc x \/ x = d.
Proof.
  intros [(_ & ->)|(_ & i & Hi & ->)]%mark_touched_cases; [auto|].
  intros [(j & Hj & Ht)|(d0 & j & Hj & Hd)].
  - destruct (decide (x = d)) as [->|Hne]; [by right|]. rewrite lookup_insert_ne in Hj by done.
    left. left. by exists j.
  - left. right. destruct (decide (d0 = d)) as [->|Hne].
    + rewrite lookup_insert_eq in Hj. simplify_eq. eauto.
    + rewrite lookup_insert_ne in Hj by done. eauto.
Qed.

Lemma mark_before_download_spec d size enc r enc' :
  mark_before_download d size enc = (r, enc') ->
  (forall x, marked enc x -> marked enc' x) /\ (r = Ok tt -> marked enc' d) /\
  (forall x, wanted enc' x -> wanted enc x \/ x = d).
Proof.
  unfold mark_before_download. destruct (mark_reusable _ _ _ _) as [r1 enc1] eqn:E1.
  assert (forall x, marked enc x -> marked enc1 x) as M1.
  { intros x. by apply (mark_reusable_marked _ _ _ _ _ _ x) in E1 as ->. }
  assert (forall x, wanted enc1 x -> wanted enc x) as W1.
  { intros x Hx. by eapply mark_reusable_wanted in E1 as [?|?]. }
  destruct r1 as [[]|?|?]; [|intros [= <- <-]; split_and!; auto; done..].
  intros E2. split_and!.
  - intros x Hx. eapply mark_touched_marked; eauto.
  - intros ->. by eapply mark_touched_ok.
  - intros x Hx. destruct (mark_touched_wanted _ _ _ _ _ E2 Hx); auto.
Qed.

Lemma check_reusable_cases d size enc :
  is_ok (check_reusable d size enc) = false \/
  (check_reusable d size enc = Ok (enc !! d) /\ forall i, enc !! d = Some i -> ec_chunk_size i = size).
Proof.
  unfold check_reusable. destruct (enc !! d) as [i|]; [|by right].
  destruct (Z.eqb_spec (ec_chunk_size i) size); [right|by left]. split; [done|]. by intros ? [= <-].
Qed.

(** What a task does with the map locked. *)
Lemma start_plain_spec now io info enc st r enc' st' :
  start_plain X now io info (enc, st) = (r, (enc', st')) ->
  chunks_added st st' /\
  (forall d, marked enc d -> marked enc' d) /\
  (is_ok r = true -> marked enc' (cri_digest info)) /\
  (forall d, wanted enc' d -> wanted enc d \/
     (d = cri_digest info /\ (r = Ok true \/ present st' d \/ is_ok r = false))).
Proof.
  unfold start_plain. set (d := cri_digest info). set (size := ChunkReadInfo_size info).
  assert (forall st1, chunks_added st st1 ->
    (let '(r, enc) := mark_before_download d size enc in
     try! _ := r for (enc, st1) in (Ok true, (enc, st1))) = (r, (enc', st')) ->
    chunks_added st st' /\ (forall d, marked enc d -> marked enc' d) /\
    (is_ok r = true -> marked enc' d) /\
    (forall x, wanted enc' x -> wanted enc x \/
      (x = d /\ (r = Ok true \/ present st' x \/ is_ok r = false)))) as Hdl.
  { intros st1 Ha. destruct (mark_before_download _ _ _) as [r1 enc1] eqn:E1.
    apply mark_before_download_spec in E1 as (M1 & T1 & W1).
    destruct r1 as [[]|?|?]; intros [= <- <- <-]; (split_and!; [done|done| |]); clear source_data; naive_solver. }
  destruct (check_reusable_cases d size enc) as [Hck|[-> _]].
  { destruct (check_reusable d size enc); [done|intros [= <- <- <-]..];
      (split_and!; [apply chunks_added_refl|auto|done|auto]). }
  destruct (enc !! d) as [i|] eqn:Ei; [|apply Hdl, chunks_added_refl].
  destruct (touched i) eqn:Et.
  { intros [= <- <- <-]. split_and!; auto using chunks_added_refl. intros _. by exists i. }
  destruct (cond_touch_chunk _ _ _ _ _ _) as [r1 st1] eqn:E1. apply cond_touch_added in E1 as [Ha Hp].
  destruct r1 as [[]|?|?]; [|by apply Hdl|intros [= <- <- <-]; (split_and!; [done|auto|done|auto])..].
  destruct (mark_touched _ _) as [r2 enc2] eqn:E2.
  pose proof (fun x => mark_touched_marked _ _ _ _ x E2) as M2.
  pose proof (fun x => mark_touched_wanted _ _ _ _ x E2) as W2.
  destruct r2 as [[]|?|?]; intros [= <- <- <-]; (split_and!; [done|done| |clear source_data; naive_solver]); try done.
  intros _. by eapply mark_touched_ok.
Qed.

(** ** The invariant of a run *)

(** The run cannot succeed any more. *)
Definition failing s : Prop :=
  ps_abort s <> None \/ (ps_threads s < 4)%nat \/ exists r, ps_main s = MDone r /\ is_ok r = false.
(** A chunk that is being downloaded, sent or stored. *)
Definition pending s d : Prop :=
  (exists info, TRead info ∈ ps_tasks s /\ cri_digest info = d) \/
  (exists chunk size, TSend chunk d size ∈ ps_tasks s) \/
  (exists chunk size, (chunk, d, size) ∈ ps_queue s).
Definition promises_kept s : Prop :=
  forall d, length d = 32%nat -> wanted (ps_enc s) d -> present (ps_store s) d \/ pending s d.
(** Tasks are left only while they are driven. *)
Definition tasks_driven s : Prop := ps_main s <> MStream -> ps_todo s = [] /\ ps_tasks s = [].

Lemma failing_fail {A} (r : res A) s : failing (fail (fail_as r) s).
Proof. right. right. eexists. split; [done|]. by destruct r. Qed.

Lemma tasks_driven_fail r s : tasks_driven (fail r s).
Proof. done. Qed.

Lemma elem_of_delete_or {A} (x : A) (i : nat) (l : list A) : x ∈ l -> x ∈ delete i l \/ l !! i = Some x.
Proof.
  intros [j Hj]%list_elem_of_lookup. destruct (decide (j = i)) as [->|Hne]; [by right|left].
  apply list_elem_of_lookup. destruct (decide (j < i)%nat).
  - exists j. by rewrite list_lookup_delete_lt.
  - exists (pred j). rewrite list_lookup_delete_ge by lia. by replace (S (pred j)) with j by lia.
Qed.

Lemma elem_of_insert_or {A} (x y : A) (i : nat) (l : list A) : x ∈ l -> x ∈ <[i := y]> l \/ l !! i = Some x.
Proof.
  intros [j Hj]%list_elem_of_lookup. destruct (decide (j = i)) as [->|Hne]; [by right|left].
  apply list_elem_of_lookup. exists j. by rewrite list_lookup_insert_ne.
Qed.

Lemma elem_of_insert_at {A} (x y : A) (i : nat) (l : list A) : l !! i = Some x -> y ∈ <[i := y]> l.
Proof.
  intros Hi%lookup_lt_Some. apply list_elem_of_lookup. exists i. by apply list_lookup_insert_eq.
Qed.
Local Hint Resolve elem_of_insert_at failing_fail tasks_driven_fail chunks_added_refl : pull.

(** Tasks other than the one at [i] stay pending. *)
Definition carries (t : task) d : Prop :=
  match t with TRead info => cri_digest info = d | TSend _ d' _ => d' = d | _ => False end.

Lemma pending_other i t0 s s' d :
  ps_tasks s !! i = Some t0 -> ~ carries t0 d ->
  ps_tasks s' = delete i (ps_tasks s) \/ (exists t, ps_tasks s' = <[i := t]> (ps_tasks s)) ->
  (forall x, x ∈ ps_queue s -> x ∈ ps_queue s') ->
  pending s d -> pending s' d.
Proof.
  intros Hi Hc Ht Hq.
  assert (forall t, t ∈ ps_tasks s -> t ∈ ps_tasks s' \/ t0 = t) as Hk.
  { intros t Hin. destruct Ht as [->|[t' ->]];
      [destruct (elem_of_delete_or t i _ Hin)|destruct (elem_of_insert_or t t' i _ Hin)];
      simplify_eq; auto. }
  intros [(info & Hin & Hd)|[(c & z & Hin)|(c & z & Hin)]].
  - destruct (Hk _ Hin) as [?| ->]; [left; eauto|]. by destruct Hc.
  - destruct (Hk _ Hin) as [?| ->]; [right; left; eauto|]. by destruct Hc.
  - right. right. eauto.
Qed.

(** Steps that leave map and store alone. *)
Lemma promises_same s s' :
  promises_kept s -> ps_enc s' = ps_enc s -> ps_store s' = ps_store s ->
  (forall d, pending s d -> pending s' d) -> promises_kept s'.
Proof. intros Hp He Hs Hd d Hl. rewrite He, Hs. intros [?|?]%Hp; auto. Qed.

Lemma run_new_promises now io aio i info s :
  promises_kept s -> ps_tasks s !! i = Some (TNew info) ->
  promises_kept (run_new X now io aio i info s) \/ failing (run_new X now io aio i info s).
Proof.
  intros Hp Hi. unfold run_new. destruct (ps_writer s) as [w|].
  - destruct (start_decrypt _ _ _ _) as [r [w' o']]. destruct r as [[]|?|?]; auto with pull; left;
      (eapply promises_same; [done..|]); intros d; eapply pending_other; eauto.
  - destruct (start_plain _ _ _ _ _) as [r [enc' st']] eqn:E. apply start_plain_spec in E as (Ha & _ & _ & Hw).
    destruct r as [[]|?|?]; auto with pull; left; intros d Hl Hd; cbn [ps_enc set_task end_task with_todo with_enc ps_store] in *.
    + destruct (Hw d Hd) as [[Hpr|Hpe]%(Hp d Hl)|(-> & _)].
      * left. by eapply chunks_added_present.
      * right. eapply pending_other; eauto.
      * right. left. exists info. split; [|done]. cbn. eauto with pull.
    + destruct (Hw d Hd) as [[Hpr|Hpe]%(Hp d Hl)|(-> & [?|[?|?]])]; try done; [| |by left].
      * left. by eapply chunks_added_present.
      * right. eapply pending_other; eauto.
Qed.

Lemma decrypted_chunk_spec aio info r enc w o r' enc' w' o' :
  decrypted_chunk P aio info r (enc, (w, o)) = (r', (enc', (w', o'))) ->
  is_ok r' = false \/
  exists data chunk, r = Ok data /\
    r' = Ok (chunk, sha256 P data, Z.of_nat (length data)) /\
    dec_add_chunk aio o (Z.of_nat (length data)) (sha256 P data) w = (Ok tt, w') /\
    o' = u64 (o + Z.of_nat (length data)) /\
    mark_reusable (cri_digest info) (Z.of_nat (length data)) (Some (sha256 P data)) enc = (Ok tt, enc').
Proof.
  unfold decrypted_chunk. destruct r as [data|?|?]; [|intros [= <- <- <- <-]; by left..].
  unfold build. cbn [builder_compute_digest builder_compress builder_new b_digest b_config b_orig_data default].
  destruct (encode _ _ _ _ _) as [chunk|?|?]; cbn; [|intros [= <- <- <- <-]; by left..].
  destruct (dec_add_chunk _ _ _ _ _) as [r1 w1] eqn:E1. destruct r1 as [[]|?|?]; [|intros [= <- <- <- <-]; by left..].
  destruct (mark_reusable _ _ _ _) as [r2 enc2] eqn:E2. destruct r2 as [[]|?|?]; [|intros [= <- <- <- <-]; by left..].
  intros [= <- <- <- <-]. right. by exists data, chunk.
Qed.

Lemma run_decrypt_promises aio i info r s :
  promises_kept s -> ps_tasks s !! i = Some (TDecrypt info) ->
  promises_kept (run_decrypt P aio i info r s) \/ failing (run_decrypt P aio i info r s).
Proof.
  intros Hp Hi. unfold run_decrypt. destruct (ps_writer s) as [w|].
  2: { right. apply (failing_fail (Panic (A := unit) "unreachable")). }
  destruct (decrypted_chunk _ _ _ _ _) as [r' [enc' [w' o']]] eqn:E.
  apply decrypted_chunk_spec in E as [Hr|(data & chunk & -> & -> & _ & _ & Em)];
    [destruct r' as [[[]]|?|?]; auto with pull; done|].
  left. intros d Hl Hd. cbn [ps_enc set_task with_todo with_enc ps_store with_writer] in *.
  destruct (mark_reusable_wanted _ _ _ _ _ _ _ Em Hd) as [[Hpr|Hpe]%(Hp d Hl)|[= ->]]; [by left|right..].
  - eapply pending_other; eauto.
  - right. left. cbn. eauto with pull.
Qed.

Lemma run_work_promises now io k item s :
  promises_kept s -> (ps_threads s <= 4)%nat -> ps_queue s !! k = Some item -> (k < ps_threads s)%nat ->
  promises_kept (run_work P X sync_file now io k item s) \/
  failing (run_work P X sync_file now io k item s).
Proof.
  intros Hp Ht Hk Hkt. destruct item as [[chunk d'] size]. unfold run_work.
  destruct (verify_and_write _ _ _ _ _ _ _ _ _) as [r st'] eqn:E.
  apply verify_and_write_added in E as [Ha Hok].
  destruct r as [[]|e|e].
  - left. intros d Hl Hd. cbn [ps_enc with_worked ps_store] in *.
    destruct (Hp d Hl Hd) as [Hpr|[?|[?|(c & z & Hin)]]].
    + left. by eapply chunks_added_present.
    + right. by left.
    + right. right. by left.
    + destruct (elem_of_delete_or _ k _ Hin) as [?|?]; simplify_eq; [|left; by apply Hok].
      right. right. right. by exists c, z.
  - right. left. cbn. by destruct (ps_abort s).
  - right. right. left. cbn. lia.
Qed.

(** ** All steps *)

(** The outcomes of a step; the equations of the parts that change map, index and store stay. *)
Ltac pull_cases :=
  repeat match goal with
  | |- context [fetch _ _ _ _] => unfold fetch; destruct (next_chunk _ _ _) as [[]|] eqn:?
  | |- context [run_new _ _ _ _ _ _ ?s] =>
      unfold run_new; destruct (ps_writer s) eqn:?;
      [destruct (start_decrypt _ _ _ _) as [[[]| |] []] eqn:?
      |destruct (start_plain _ _ _ _ _) as [[[]| |] []] eqn:?]
  | |- context [run_read _ _ ?r _] => unfold run_read; destruct r eqn:?
  | |- context [run_decrypt _ _ _ _ _ ?s] =>
      unfold run_decrypt; destruct (ps_writer s) eqn:?;
      [destruct (decrypted_chunk P _ _ _ _) as [[[[]]| |] [? []]] eqn:?|]
  | |- context [run_send _ _ _ _ ?s] =>
      unfold run_send; destruct (ps_abort s) eqn:?; [|case_bool_decide]
  | |- context [run_work _ _ _ _ _ _ ?item _] =>
      destruct item as [[]]; unfold run_work; destruct (verify_and_write _ _ _ _ _ _ _ _ _) eqn:?
  end.

Lemma step_store s s' : run_step s s' -> chunks_added (ps_store s) (ps_store s').
Proof.
  intros [s1 Hs|st Ha]; [|done]. destruct Hs; pull_cases; cbn; auto with pull;
    match goal with
    | E : start_plain _ _ _ _ _ = _ |- _ => by apply start_plain_spec in E as (Ha & _)
    | E : verify_and_write _ _ _ _ _ _ _ _ _ = _ |- _ => by apply verify_and_write_added in E as [Ha _]
    end.
Qed.

Lemma step_mono s s' :
  run_step s s' ->
  (ps_abort s <> None -> ps_abort s' <> None) /\ (ps_threads s' <= ps_threads s)%nat /\
  (forall r, ps_main s = MDone r -> ps_main s' = MDone r).
Proof.
  intros [s1 Hs|st Ha]; [|done]. destruct Hs; pull_cases; cbn; try (split_and!; congruence || lia).
  split_and!; [|case_match; lia|congruence]. by destruct (ps_abort s).
Qed.

Lemma failing_stable s s' : run_step s s' -> failing s -> failing s'.
Proof.
  intros (Ha & Ht & Hm)%step_mono [?|[?|(r & ? & ?)]]; [left; auto|right; left; lia|].
  right. right. exists r. auto.
Qed.

Lemma step_driven s s' : run_step s s' -> tasks_driven s -> tasks_driven s'.
Proof.
  intros [s1 Hs|st Ha] Hd; [|done]. destruct Hs; pull_cases; try done;
    intros Hm; cbn in *; try congruence; by apply Hd; congruence.
Qed.

Lemma step_promises s s' :
  run_step s s' -> (ps_threads s <= 4)%nat -> promises_kept s -> promises_kept s' \/ failing s'.
Proof.
  intros [s1 Hs|st Ha] Ht Hp.
  2: { left. intros d Hl Hd. cbn in *. destruct (Hp d Hl Hd); [left|by right].
    by eapply chunks_added_present. }
  destruct Hs; try (left; by apply Hp).
  - unfold fetch. destruct (next_chunk _ _ _) as [[info|?|?]|]; [|by auto with pull..|left; by apply Hp]. left.
    eapply promises_same; [done..|]. intros d [(i & Hi & ?)|[(c & z & Hi)|?]]; [left|right; left|by right; right].
    + exists i. split; [|done]. cbn. set_solver.
    + exists c, z. cbn. set_solver.
  - by eapply run_new_promises.
  - destruct r as [chunk|?|?]; [left|right; apply failing_fail..]. eapply promises_same; [done..|]. intros d Hd.
    destruct (decide (cri_digest info = d)) as [<-|Hne].
    + right. left. cbn. eauto with pull.
    + eapply pending_other; eauto.
  - by eapply run_decrypt_promises.
  - unfold run_send. destruct (ps_abort s) as [e|].
    { right. apply (failing_fail (Err (A := unit) e)). }
    case_bool_decide; [right; apply (failing_fail (Err (A := unit) "channel closed"))|].
    left. eapply promises_same; [done..|]. intros d' Hd'. destruct (decide (d = d')) as [<-|Hne].
    + right. right. cbn. exists chunk, size. set_solver.
    + eapply pending_other; eauto. cbn. set_solver.
  - by eapply run_work_promises.
Qed.

(** The invariant of every run, and its parts. *)
Definition inv s : Prop :=
  (ps_threads s <= 4)%nat /\ tasks_driven s /\ (promises_kept s \/ failing s).

Lemma pull_inv_step s s' : run_step s s' -> inv s -> inv s'.
Proof.
  intros Hs (Ht & Hd & Hp). pose proof (step_mono _ _ Hs) as (_ & ? & _). split; [lia|].
  split; [by eapply step_driven|]. destruct Hp; [by eapply step_promises|].
  right. by eapply failing_stable.
Qed.

Lemma pull_inv_run s s' : rtc run_step s s' -> inv s -> inv s' /\ chunks_added (ps_store s) (ps_store s').
Proof.
  induction 1 as [s|s s1 s' Hs _ IH]; intros Hi; [auto with pull|].
  destruct IH as [? Ha]; [by eapply pull_inv_step|]. split; [done|].
  eapply chunks_added_trans; [by apply step_store|done].
Qed.

(** Before and after: what the map promises is in the store. *)
Definition enc_ok enc st : Prop := forall d, length d = 32%nat -> wanted enc d -> present st d.

Lemma pull_inv_start enc w st : enc_ok enc st -> inv (pull_start index enc w st).
Proof. intros He. split; [done|]. split; [done|]. left. intros d Hl Hd. left. by apply He. Qed.

(** A run that returns without an error has not failed, and all threads are done. *)
Definition honest s : Prop :=
  forall stats, ps_main s = MDone (Ok stats) ->
    ps_abort s = None /\ (4 <= ps_threads s)%nat /\ ps_queue s = [].

Lemma honest_step s s' : run_step s s' -> honest s -> honest s'.
Proof.
  intros [s1 Hs|st Ha] Hh; [|done]. destruct Hs; pull_cases; intros stats Hm; cbn in *; try congruence.
  - destruct (Hh stats Hm) as (_ & _ & Hq). by rewrite Hq in *.
  - split_and!; [done..|]. destruct (ltac:(eassumption) : drained s); [done|lia].
Qed.

Lemma honest_run s s' : rtc run_step s s' -> honest s -> honest s'.
Proof. induction 1; eauto using honest_step. Qed.

Lemma honest_not_failing s stats : honest s -> ps_main s = MDone (Ok stats) -> ~ failing s.
Proof.
  intros Hh Hm. destruct (Hh stats Hm) as (Ha & Ht & _). intros [?|[?|(r & Hr & Hok)]]; [done|lia|].
  rewrite Hm in Hr. by simplify_eq.
Qed.

Lemma returned_enc_ok s stats :
  ps_main s = MDone (Ok stats) -> honest s -> inv s -> enc_ok (ps_enc s) (ps_store s).
Proof.
  intros Hm Hh (_ & Hd & Hp) d Hl Hw. destruct (Hh stats Hm) as (_ & _ & Hq).
  destruct Hp as [Hp|Hf]; [|by destruct (honest_not_failing _ _ Hh Hm)].
  destruct Hd as [_ Ht]; [by rewrite Hm|].
  destruct (Hp d Hl Hw) as [?|[(? & Hin & _)|[(? & ? & Hin)|(? & ? & Hin)]]]; [done|..];
    rewrite ?Ht, ?Hq in Hin; set_solver.
Qed.

(** Without decryption: every chunk is still to be looked at, has a task, or is marked. *)
Definition covered s : Prop :=
  ps_writer s = None /\
  forall pos info, 0 <= pos < index_count index -> chunk_info index pos = Some info ->
    pos ∈ ps_todo s \/ TNew info ∈ ps_tasks s \/ marked (ps_enc s) (cri_digest info).

Lemma next_chunk_skips enc pos info :
  chunk_info index pos = Some info -> next_chunk index enc pos = None -> marked enc (cri_digest info).
Proof.
  intros Hi. unfold next_chunk. rewrite Hi. cbn.
  destruct (check_reusable_cases (cri_digest info) (ChunkReadInfo_size info) enc) as [Hc|[-> _]];
    [by destruct (check_reusable _ _ _)|].
  destruct (enc !! cri_digest info) as [i|] eqn:Ei; [|done].
  destruct (touched i) eqn:Et; [by exists i|]. by rewrite orb_true_r.
Qed.

Lemma next_chunk_info enc pos info info' :
  chunk_info index pos = Some info -> next_chunk index enc pos = Some (Ok info') -> info' = info.
Proof. intros Hi. unfold next_chunk. rewrite Hi. cbn. intros E. repeat case_match; by simplify_eq. Qed.

Lemma covered_other i t0 s s' :
  covered s -> ps_writer s' = None -> ps_todo s' = ps_todo s -> ps_tasks s !! i = Some t0 ->
  ps_tasks s' = delete i (ps_tasks s) \/ (exists t, ps_tasks s' = <[i := t]> (ps_tasks s)) ->
  (forall d, marked (ps_enc s) d -> marked (ps_enc s') d) ->
  (forall info, t0 = TNew info -> marked (ps_enc s') (cri_digest info)) ->
  covered s'.
Proof.
  intros [_ Hc] Hw Hto Hi Hts Hm Hn. split; [done|]. intros pos info Hpos Hinfo. rewrite Hto.
  destruct (Hc pos info Hpos Hinfo) as [?|[Hin|?]]; [by left| |right; right; by apply Hm].
  destruct Hts as [->|[t ->]];
    [destruct (elem_of_delete_or _ i _ Hin)|destruct (elem_of_insert_or _ t i _ Hin)]; simplify_eq; auto.
Qed.

Lemma covered_step s s' : run_step s s' -> covered s -> covered s' \/ failing s'.
Proof.
  intros [s1 Hs|st Ha] Hc; [|by left]. destruct Hs; try (left; by apply Hc).
  - unfold fetch. destruct (next_chunk _ _ _) as [[info|?|?]|] eqn:En; [|by auto with pull..|];
      left; (split; [apply Hc|]); intros pos' info' Hpos' Hi'; cbn;
      (destruct (proj2 Hc pos' info' Hpos' Hi') as [Hin|[?|?]]; [|set_solver..]);
      rewrite H1 in Hin; apply elem_of_cons in Hin as [->|?]; auto.
    + right. left. rewrite (next_chunk_info _ _ _ _ Hi' En). set_solver.
    + right. right. by eapply next_chunk_skips.
  - unfold run_new. rewrite (proj1 Hc). destruct (start_plain _ _ _ _ _) as [r [enc' st']] eqn:E.
    apply start_plain_spec in E as (_ & Hm & Hn & _).
    destruct r as [[]|?|?]; auto with pull; left;
      (eapply covered_other; [done|apply Hc|done|done|by eauto|done|]); intros ? [= <-]; by apply Hn.
  - destruct r as [chunk|?|?]; [left|right; apply failing_fail..].
    eapply covered_other; [done|apply Hc|done|done|by eauto|done|done].
  - unfold run_decrypt. rewrite (proj1 Hc). right. apply (failing_fail (Panic (A := unit) "unreachable")).
  - unfold run_send. destruct (ps_abort s) as [e|]; [right; apply (failing_fail (Err (A := unit) e))|].
    case_bool_decide; [right; apply (failing_fail (Err (A := unit) "channel closed"))|].
    left. eapply covered_other; [done|apply Hc|done|done|by eauto|done|done].
  - left. destruct item as [[chunk d] size]. unfold run_work.
    destruct (verify_and_write _ _ _ _ _ _ _ _ _). apply Hc.
Qed.

Lemma covered_run s s' : rtc run_step s s' -> covered s \/ failing s -> covered s' \/ failing s'.
Proof.
  induction 1 as [|s s1 s' Hs _ IH]; [done|]. intros [Hc|Hf]; apply IH; [by eapply covered_step|].
  right. by eapply failing_stable.
Qed.

Lemma plain_run_ok enc st stats s :
  enc_ok enc st ->
  pull_index_chunks P X sync_file cap source_data index enc None st (Ok stats) s ->
  ps_writer s = None /\ enc_ok (ps_enc s) (ps_store s) /\
  forall pos info, 0 <= pos < index_count index -> chunk_info index pos = Some info ->
    marked (ps_enc s) (cri_digest info).
Proof.
  intros He [Hrun [Hm Hq]]. destruct (pull_inv_run _ _ Hrun) as [Hi Ha]; [by apply pull_inv_start|].
  assert (honest s) as Hh by (by eapply honest_run).
  destruct (covered_run _ _ Hrun) as [[Hw Hc]|Hf]; [|..|by destruct (honest_not_failing _ _ Hh Hm)].
  { left. split; [done|]. intros pos' ? ? ?. left. cbn. apply elem_of_seqZ. lia. }
  split; [done|]. split; [by eapply returned_enc_ok|]. intros pos info Hpos Hinfo.
  destruct Hi as (_ & Hd & _). destruct Hd as [Htodo Htasks]; [by rewrite Hm|].
  destruct (Hc pos info Hpos Hinfo) as [Hin|[Hin|Hmk]]; [rewrite ?Htodo, ?Htasks in Hin; set_solver..|done].
Qed.

Lemma run_added enc w st r s :
  enc_ok enc st -> pull_index_chunks P X sync_file cap source_data index enc w st r s ->
  chunks_added st (ps_store s).
Proof. intros He [Hrun _]. apply (pull_inv_run _ _ Hrun). by apply pull_inv_start. Qed.

(** C13.  The chunks of a pulled index are there.  For every schedule of the tasks and threads, every source and
    whatever other processes add: no chunk is ever lost, and a chunk that is new or changed is encrypted,
    so that the server cannot check it, or can be decoded to a content that has its digest; and
    if the function succeeds, all chunks of the index are in the
    store, and so are all chunks that are marked as there for the following snapshots. *)
Theorem pulled_chunks_present enc st r s :
  enc_ok enc st ->
  pull_index_chunks P X sync_file cap source_data index enc None st r s ->
  chunks_added st (ps_store s) /\
  forall stats, r = Ok stats ->
    enc_ok (ps_enc s) (ps_store s) /\
    forall pos info, 0 <= pos < index_count index -> chunk_info index pos = Some info ->
      length (cri_digest info) = 32%nat -> present (ps_store s) (cri_digest info).
Proof.
  intros He Hrun. split; [by eapply run_added|]. intros stats ->.
  destruct (plain_run_ok _ _ _ _ He Hrun) as (_ & He' & Hm). split; [done|].
  intros pos info Hpos Hi Hl. apply He'; [done|]. left. by eapply Hm.
Qed.

(** ** Decryption *)

(** Size and digest of the data that the source has for a digest. *)
Definition decrypts d (x : Z * digest) : Prop :=
  exists data, source_data d data /\ x = (Z.of_nat (length data), sha256 P data).
(** The index after [add_chunk] was called for a list of sizes and digests. *)
Inductive added (w0 : DecryptedIndexWriter) : list (Z * digest) -> DecryptedIndexWriter -> Z -> Prop :=
| added_nil : added w0 [] w0 0
| added_snoc l w o io size d w' :
    added w0 l w o -> dec_add_chunk io o size d w = (Ok tt, w') ->
    added w0 (l ++ [(size, d)]) w' (u64 (o + size)).
(** What the map records about decrypted chunks is true, and only these are marked as there. *)
Definition enc_decrypted enc : Prop :=
  forall d i, enc !! d = Some i ->
    match decrypted_digest i with
    | Some dd => decrypts d (ec_chunk_size i, dd)
    | None => touched i = false
    end.
Definition index_chunks : list ChunkReadInfo := omap (chunk_info index) (seqZ 0 (index_count index)).
Definition task_info (t : task) : option ChunkReadInfo :=
  match t with TNew info | TRead info | TDecrypt info => Some info | TSend _ _ _ => None end.
Definition one_task enc (l : list task) : Prop :=
  match l with
  | [] | [TNew _] | [TSend _ _ _] => True
  | [TDecrypt info] => forall i, enc !! cri_digest info = Some i -> decrypted_digest i = None
  | _ => False
  end.

Record rewriting (w0 : DecryptedIndexWriter) s (w : DecryptedIndexWriter) (l : list (Z * digest))
    (finished : list ChunkReadInfo) : Prop := {
  rw_writer : ps_writer s = Some w;
  rw_added : added w0 l w (ps_offset s);
  rw_enc : enc_decrypted (ps_enc s);
  rw_task : one_task (ps_enc s) (ps_tasks s);
  rw_decrypts : Forall2 (fun info => decrypts (cri_digest info)) finished l;
  rw_wanted : Forall (fun x => wanted (ps_enc s) x.2) l;
  rw_order : finished ++ omap task_info (ps_tasks s) ++ omap (chunk_info index) (ps_todo s) = index_chunks;
}.

Lemma mark_reusable_keeps_wanted d size dec enc r enc' x :
  mark_reusable d size dec enc = (r, enc') -> wanted enc x -> wanted enc' x.
Proof.
  intros Em [Hm|(d0 & j & Hj & Hd)]; [left; by eapply mark_reusable_marked in Em; apply Em|].
  apply mark_reusable_cases in Em as [(_ & ->)|(_ & i & -> & _ & _ & Hi & _)]; [right; eauto|].
  right. destruct (decide (d0 = d)) as [->|Hne].
  - exists d, i. rewrite lookup_insert_eq. split; [done|]. by rewrite Hi, Hj; cbn; rewrite Hd.
  - exists d0, j. by rewrite lookup_insert_ne.
Qed.

Lemma mark_reusable_now_wanted d size dd enc enc' :
  mark_reusable d size (Some dd) enc = (Ok tt, enc') ->
  (forall i, enc !! d = Some i -> decrypted_digest i = None) -> wanted enc' dd.
Proof.
  intros [(? & _)|(_ & i & -> & _ & _ & Hi & _)]%mark_reusable_cases Hn; [done|]. right. exists d, i.
  rewrite lookup_insert_eq. split; [done|]. rewrite Hi. destruct (enc !! d) as [j|]; [|done].
  cbn. by rewrite (Hn j eq_refl).
Qed.

Lemma mark_reusable_decrypted d data enc enc' :
  mark_reusable d (Z.of_nat (length data)) (Some (sha256 P data)) enc = (Ok tt, enc') ->
  source_data d data -> enc_decrypted enc -> enc_decrypted enc'.
Proof.
  intros [(? & _)|(_ & i & -> & Hs & Ht & Hi & Hsz)]%mark_reusable_cases Hd He; [done|].
  intros x j Hj. destruct (decide (x = d)) as [->|Hne]; [|rewrite lookup_insert_ne in Hj by done; by apply He].
  rewrite lookup_insert_eq in Hj. simplify_eq. rewrite Hi, Hs.
  destruct (enc !! d) as [k|] eqn:Ek; cbn in *; [|by exists data]. specialize (He d k Ek).
  destruct (decrypted_digest k); [|by exists data]. by rewrite (Hsz k eq_refl) in He.
Qed.

Lemma start_decrypt_spec aio info enc w o r w' o' :
  start_decrypt aio info enc (w, o) = (r, (w', o')) ->
  is_ok r = false \/
  (r = Ok true /\ w' = w /\ o' = o /\ forall i, enc !! cri_digest info = Some i -> decrypted_digest i = None) \/
  (r = Ok false /\ exists i dd, enc !! cri_digest info = Some i /\ decrypted_digest i = Some dd /\
     dec_add_chunk aio o (ec_chunk_size i) dd w = (Ok tt, w') /\ o' = u64 (o + ec_chunk_size i)).
Proof.
  unfold start_decrypt.
  destruct (check_reusable_cases (cri_digest info) (ChunkReadInfo_size info) enc) as [Hc|[-> Hsz]].
  { destruct (check_reusable _ _ _); [done|intros [= <- <- <-]; by left..]. }
  destruct (enc !! cri_digest info) as [i|] eqn:Ei; cbn.
  2: { intros [= <- <- <-]. right. left. done. }
  rewrite <-(Hsz i eq_refl). destruct (decrypted_digest i) as [dd|] eqn:Ed.
  2: { intros [= <- <- <-]. right. left. split_and!; [done..|]. by intros ? [= <-]. }
  destruct (dec_add_chunk _ _ _ _ _) as [r1 w1] eqn:E1.
  destruct r1 as [[]|?|?]; intros [= <- <- <-]; [right; right|by left..]. split; [done|]. by exists i, dd.
Qed.

Lemma next_chunk_decrypted enc pos :
  enc_decrypted enc -> next_chunk index enc pos = None -> chunk_info index pos = None.
Proof.
  intros He. unfold next_chunk. destruct (chunk_info index pos) as [info|]; [|done]. cbn.
  destruct (check_reusable_cases (cri_digest info) (ChunkReadInfo_size info) enc) as [Hc|[-> _]];
    [by destruct (check_reusable _ _ _)|].
  destruct (enc !! cri_digest info) as [i|] eqn:Ei; [|done]. specialize (He _ _ Ei).
  destruct (decrypted_digest i); [by rewrite bool_decide_true by done|]. by rewrite He, orb_true_r.
Qed.

(** The task of a state, when it is at position [i]. *)
Lemma one_task_lookup enc (l : list task) i t : one_task enc l -> l !! i = Some t -> l = [t] /\ i = 0%nat.
Proof.
  intros Ho Hi. destruct l as [|x [|y l]]; [done| |by destruct x].
  destruct i; [by injection Hi as ->|done].
Qed.

Lemma next_chunk_some enc pos info :
  next_chunk index enc pos = Some (Ok info) -> chunk_info index pos = Some info.
Proof.
  unfold next_chunk. destruct (chunk_info index pos) as [i|]; [|done]. cbn. intros E.
  repeat case_match; by simplify_eq.
Qed.

Definition rewrites w0 s : Prop := exists w l f, rewriting w0 s w l f.

Lemma fetch_rewrites w0 s pos todo :
  rewrites w0 s -> ps_todo s = pos :: todo -> (length (ps_tasks s) < task_limit s)%nat ->
  rewrites w0 (fetch index pos todo s) \/ failing (fetch index pos todo s).
Proof.
  intros (w & l & f & [Hw Ha He Ht Hd Hn Ho]) Htodo Hlim. unfold fetch, task_limit in *. rewrite Hw in Hlim.
  assert (ps_tasks s = []) as Hts by (destruct (ps_tasks s); [done|cbn in Hlim; lia]).
  rewrite Hts, Htodo in *. destruct (next_chunk _ _ _) as [[info|?|?]|] eqn:En; [|by auto with pull..|];
    left; exists w, l, f; split; cbn; auto.
  - apply next_chunk_some in En. cbn in Ho. by rewrite En in Ho.
  - apply next_chunk_decrypted in En; [|done]. cbn in Ho. by rewrite En in Ho.
Qed.

Lemma run_new_rewrites w0 s now io aio i info :
  rewrites w0 s -> ps_tasks s !! i = Some (TNew info) ->
  rewrites w0 (run_new X now io aio i info s) \/ failing (run_new X now io aio i info s).
Proof.
  intros (w & l & f & [Hw Ha He Ht Hd Hn Ho]) Hi. destruct (one_task_lookup _ _ _ _ Ht Hi) as [Hts ->].
  unfold run_new. rewrite Hw. rewrite Hts in Ho.
  destruct (start_decrypt _ _ _ _) as [r [w' o']] eqn:E.
  apply start_decrypt_spec in E as [Hr|[(-> & -> & -> & Hf)|(-> & j & dd & Hj & Hdd & Hadd & ->)]].
  - destruct r as [[]|?|?]; [done..|right; apply failing_fail|right; apply failing_fail].
  - left. exists w, l, f. split; cbn; rewrite ?Hts; try done.
  - left. specialize (He _ _ Hj) as Hdj. rewrite Hdd in Hdj.
    exists w', (l ++ [(ec_chunk_size j, dd)]), (f ++ [info]). split; cbn; rewrite ?Hts; try done.
    + by eapply added_snoc.
    + apply Forall2_app; [done|by constructor].
    + apply Forall_app. split; [done|]. constructor; [|constructor]. right. by exists (cri_digest info), j.
    + by rewrite <-app_assoc.
Qed.

Lemma run_decrypt_rewrites w0 s aio i info r :
  rewrites w0 s -> ps_tasks s !! i = Some (TDecrypt info) ->
  (forall data, r = Ok data -> source_data (cri_digest info) data) ->
  rewrites w0 (run_decrypt P aio i info r s) \/ failing (run_decrypt P aio i info r s).
Proof.
  intros (w & l & f & [Hw Ha He Ht Hd Hn Ho]) Hi Hsrc. destruct (one_task_lookup _ _ _ _ Ht Hi) as [Hts ->].
  unfold run_decrypt. rewrite Hw. rewrite Hts in Ho, Ht. cbn in Ht.
  destruct (decrypted_chunk _ _ _ _ _) as [r' [enc' [w' o']]] eqn:E.
  apply decrypted_chunk_spec in E as [Hr|(data & chunk & -> & -> & Hadd & -> & Hm)];
    [destruct r' as [[[]]|?|?]; [done|right; apply failing_fail..]|].
  specialize (Hsrc data eq_refl).
  left. exists w', (l ++ [(Z.of_nat (length data), sha256 P data)]), (f ++ [info]).
  split; cbn; rewrite ?Hts; try done.
  - by eapply added_snoc.
  - by eapply mark_reusable_decrypted.
  - apply Forall2_app; [done|]. constructor; [by exists data|constructor].
  - apply Forall_app. split; [|constructor; [by eapply mark_reusable_now_wanted|constructor]].
    eapply Forall_impl; [done|]. intros x. by apply (mark_reusable_keeps_wanted _ _ _ _ _ _ _ Hm).
  - by rewrite <-app_assoc.
Qed.

Lemma rewrites_step w0 s s' : run_step s s' -> rewrites w0 s -> rewrites w0 s' \/ failing s'.
Proof.
  intros [s1 Hs|st _] Hrw; [|left; destruct Hrw as (w & l & f & []); by exists w, l, f].
  destruct Hs; try (left; destruct Hrw as (w & l & f & []); by exists w, l, f).
  - by apply fetch_rewrites.
  - by apply run_new_rewrites.
  - destruct Hrw as (w & l & f & [? ? ? Ht]). destruct (one_task_lookup _ _ _ _ Ht H1) as [Hts _].
    by rewrite Hts in Ht.
  - by apply run_decrypt_rewrites.
  - unfold run_send. destruct (ps_abort s) as [e|]; [right; apply (failing_fail (Err (A := unit) e))|].
    case_bool_decide; [right; apply (failing_fail (Err (A := unit) "channel closed"))|].
    left. destruct Hrw as (w & l & f & [Hw Ha He Ht Hd Hn Ho]).
    destruct (one_task_lookup _ _ _ _ Ht H1) as [Hts ->]. rewrite Hts in Ho.
    exists w, l, f. split; cbn; rewrite ?Hts; try done.
  - left. destruct item as [[chunk d] size]. unfold run_work. destruct (verify_and_write _ _ _ _ _ _ _ _ _).
    destruct Hrw as (w & l & f & []). by exists w, l, f.
Qed.

Lemma rewrites_run w0 s s' : rtc run_step s s' -> rewrites w0 s \/ failing s -> rewrites w0 s' \/ failing s'.
Proof.
  induction 1 as [|s s1 s' Hs _ IH]; [done|]. intros [Hc|Hf]; apply IH; [by eapply rewrites_step|].
  right. by eapply failing_stable.
Qed.

(** C16.  Decryption keeps the order.  If chunks are decrypted on the way and no chunk is marked as there under its
    encrypted digest, then after a success the new index was filled, from the start and in the order of the
    index of the source, with the sizes and digests of the decrypted chunks, one for each chunk of
    the source, and all of these chunks are in the store. *)
Theorem decrypted_index_complete w0 enc st stats s :
  enc_ok enc st -> enc_decrypted enc ->
  pull_index_chunks P X sync_file cap source_data index enc (Some w0) st (Ok stats) s ->
  enc_ok (ps_enc s) (ps_store s) /\ enc_decrypted (ps_enc s) /\
  exists w l o, ps_writer s = Some w /\ added w0 l w o /\
    Forall2 (fun info => decrypts (cri_digest info)) index_chunks l /\
    forall size d, (size, d) ∈ l -> length d = 32%nat -> present (ps_store s) d.
Proof.
  intros He Hed [Hrun [Hm Hq]]. destruct (pull_inv_run _ _ Hrun) as [Hi _]; [by apply pull_inv_start|].
  assert (honest s) as Hh by (by eapply honest_run).
  pose proof (returned_enc_ok _ _ Hm Hh Hi) as He'. split; [done|].
  destruct (rewrites_run w0 _ _ Hrun) as [(w & l & f & [Hw Ha Hed' Ht Hd Hn Ho])|Hf];
    [|..|by destruct (honest_not_failing _ _ Hh Hm)].
  { left. exists w0, [], []. split; try done; apply added_nil. }
  split; [done|]. destruct Hi as (_ & Hdr & _). destruct Hdr as [Htodo Htasks]; [by rewrite Hm|].
  rewrite Htodo, Htasks in Ho. cbn in Ho. rewrite app_nil_r in Ho. subst f.
  exists w, l, (ps_offset s). split_and!; [done..|]. intros size d Hin Hl. apply He'; [done|].
  rewrite Forall_forall in Hn. by apply (Hn (size, d)).
Qed.

(** ** Runs end *)

Definition task_weight (t : task) : nat :=
  match t with TNew _ => 4 | TRead _ | TDecrypt _ => 3 | TSend _ _ _ => 2 end.
Definition measure s : nat :=
  5 * length (ps_todo s) + sum_list_with task_weight (ps_tasks s) + length (ps_queue s)
  + match ps_main s with MStream => 2 | MComplete => 1 | MDone _ => 0 end.

Lemma weight_delete (l : list task) (i : nat) t :
  l !! i = Some t -> (sum_list_with task_weight (delete i l) + task_weight t = sum_list_with task_weight l)%nat.
Proof.
  intros Hi. rewrite <-(take_drop_middle l i t Hi) at 2. rewrite delete_take_drop, !sum_list_with_app. cbn. lia.
Qed.

Lemma weight_insert (l : list task) (i : nat) t t' :
  l !! i = Some t ->
  (sum_list_with task_weight (<[i := t']> l) + task_weight t
   = sum_list_with task_weight l + task_weight t')%nat.
Proof.
  intros Hi. pose proof (lookup_lt_Some _ _ _ Hi).
  rewrite <-(take_drop_middle l i t Hi) at 2. rewrite insert_take_drop, !sum_list_with_app by done. cbn. lia.
Qed.

Lemma pull_step_measure s s' : pull_step s s' -> (measure s' < measure s)%nat.
Proof.
  intros Hs. unfold measure. destruct Hs; pull_cases; cbn;
    repeat match goal with
    | Hm : ps_main _ = _ |- _ => rewrite Hm; clear Hm
    | Hm : ps_todo _ = _ |- _ => rewrite Hm; clear Hm
    | Hi : ps_tasks _ !! _ = Some _ |- context [<[_ := ?t]> _] =>
        pose proof (weight_insert _ _ _ t Hi); clear Hi
    | Hi : ps_tasks _ !! _ = Some _ |- _ => pose proof (weight_delete _ _ _ Hi); clear Hi
    | Hi : ps_queue _ !! _ = Some _ |- _ =>
        pose proof (lookup_lt_Some _ _ _ Hi); rewrite (length_delete _ _ (mk_is_Some _ _ Hi)); clear Hi
    end; rewrite ?sum_list_with_app, ?length_app; cbn in *; lia.
Qed.

Lemma pull_progress s : (0 < cap)%nat -> tasks_driven s -> (exists r, pull_returned s r) \/ exists s', pull_step s s'.
Proof.
  intros Hcap Hd.
  assert (ps_queue s = [] \/ ps_threads s = 0%nat \/ exists s', pull_step s s') as Hw.
  { destruct (ps_queue s) as [|x q] eqn:Eq; [by left|]. destruct (decide (ps_threads s = 0%nat)); [by auto|].
    right. right. eexists. eapply (step_work _ _ _ _ _ _ _ 0%nat x 0 insert_io_ok); [by rewrite Eq|lia]. }
  destruct (ps_main s) as [| |r] eqn:Em.
  - destruct (ps_tasks s) as [|t l] eqn:Et.
    { destruct (ps_todo s) as [|pos todo] eqn:Eto; right; eexists; [by apply step_streamed|].
      eapply step_fetch; [done..|]. rewrite Et. unfold task_limit. cbn. case_match; lia. }
    assert (ps_tasks s !! 0%nat = Some t) as H0t by (by rewrite Et). right. destruct t.
    + eexists. by eapply (step_new _ _ _ _ _ _ _ 0%nat info 0 None
        {| add_fixed := Writer.io_ok; add_dynamic := DynWriter.io_ok |}).
    + eexists. by apply (step_read _ _ _ _ _ _ _ 0%nat info (Err "io")).
    + eexists. by apply (step_decrypt _ _ _ _ _ _ _ 0%nat info (Err "io")
        {| add_fixed := Writer.io_ok; add_dynamic := DynWriter.io_ok |}).
    + destruct Hw as [Hq|[Hth|?]]; [| |done]; eexists; eapply step_send; [done|exact H0t| |done|exact H0t|auto].
      left. by rewrite Hq.
  - right. destruct (ps_abort s) as [e|] eqn:Ea; [eexists; by eapply step_aborted|].
    assert (drained s \/ exists s', pull_step s s') as [?|?]; [unfold drained; tauto| |done].
    destruct (decide (ps_threads s < 4)%nat); eexists; [by eapply step_panicked|].
    eapply (step_return _ _ _ _ _ _ _ (Ok 0) (Ok tt)); try done; lia.
  - destruct Hw as [?|[?|?]]; [left; exists r; by split; [|left]|left; exists r; by split; [|right]|by right].
Qed.

(** Runs of the function, counting its own steps among those of other processes. *)
Inductive runs : nat -> PullState -> PullState -> Prop :=
| runs_refl s : runs 0 s s
| runs_own n s s1 s' : pull_step s s1 -> runs n s1 s' -> runs (S n) s s'
| runs_others n s st s' :
    chunks_added (ps_store s) st -> runs n (with_enc (ps_enc s) st s) s' -> runs n s s'.

Lemma runs_measure n s s' : runs n s s' -> (n + measure s' <= measure s)%nat.
Proof. induction 1 as [|n s s1 s' Hs _ IH|]; [lia| |done]. apply pull_step_measure in Hs. lia. Qed.

Lemma runs_rtc n s s' : runs n s s' -> rtc run_step s s'.
Proof. induction 1; [done|..]; (eapply rtc_l; [|done]); by constructor. Qed.

(** Pulling never hangs.  Whatever others do in between, a run has a bounded number of steps of its own, and
    as long as it has not returned there is one that it can take: tasks and threads never wait for
    each other, also after errors and panics.  From every state it is thus brought to its end. *)
Theorem pull_completes enc w st n s :
  (0 < cap)%nat ->
  runs n (pull_start index enc w st) s ->
  (n <= 5 * Z.to_nat (index_count index) + 2)%nat /\
  ((forall s', ~ pull_step s s') -> exists r, pull_returned s r) /\
  exists m s' r, runs m s s' /\ pull_returned s' r.
Proof.
  intros Hcap Hrun. assert (tasks_driven s) as Hd.
  { apply runs_rtc in Hrun. assert (tasks_driven (pull_start index enc w st)) as H0d by done.
    revert H0d. induction Hrun; eauto using step_driven. }
  split; [|split].
  - apply runs_measure in Hrun. unfold measure in Hrun. cbn in Hrun. rewrite length_seqZ in Hrun. lia.
  - intros Hstop. destruct (pull_progress s Hcap Hd) as [?|[s' ?]]; [done|]. by edestruct Hstop.
  - clear Hrun. remember (measure s) as m eqn:Em. revert s Em Hd.
    induction m as [m IH] using lt_wf_ind. intros s -> Hd.
    destruct (pull_progress s Hcap Hd) as [[r ?]|[s' Hs]]; [exists 0%nat, s, r; split; [constructor|done]|].
    destruct (IH (measure s') (pull_step_measure _ _ Hs) s' eq_refl) as (k & s2 & r & ? & ?);
      [eapply step_driven; [by constructor|done]|].
    exists (S k), s2, r. split; [by eapply runs_own|done].
Qed.
End pull_spec.

(** ** Runs of an index with one chunk *)
Module PullRuns.
Definition index_t : Type := list ChunkReadInfo.
#[local] Instance index_t_index : IndexFile index_t := {|
  index_count r := Z.of_nat (length r);
  index_digest r pos := cri_digest <$> r !! Z.to_nat pos;
  index_bytes r := Ok 0;
  chunk_info r pos := r !! Z.to_nat pos;
  index_ctime _ := 0;
  index_size _ := 0;
  chunk_from_offset _ _ := Ok None;
|}.
Definition keyed : digest := replicate 32 x05.
Definition entry : ChunkReadInfo := {| range_start := 0; range_end := 3; cri_digest := keyed |}.
Definition one : index_t := [entry].
Definition sealed : DataBlob := {| raw_data := ENCRYPTED_BLOB_MAGIC_1_0 ++ replicate 39 x01 |}.
Definition aio : AddIo := {| add_fixed := Writer.io_ok; add_dynamic := DynWriter.io_ok |}.
Definition src (d : digest) (data : list byte) : Prop := d = keyed /\ data = bytes "abc".
Definition empty_index : DecryptedIndexWriter :=
  match DynWriter.create DynWriter.io_ok 7 (replicate 16 x02) "root.didx" "root.tmpdec" with
  | Ok w => DecDynamic w
  | _ => DecFixed {| Writer.file := []; Writer.filename := ""; Writer.tmp_filename := "";
                     Writer.chunk_size := 0; Writer.size := 0; Writer.index_length := 0;
                     Writer.index_capacity := 0; Writer.memory := false; Writer.uuid := [];
                     Writer.ctime := 0; Writer.growable_size := false |}
  end.

(** The chunk is pulled as it is. *)
Definition p0 : PullState := pull_start one ∅ None ∅.
Definition p1 : PullState := fetch one 0 [] p0.
Definition p2 : PullState := run_new HexImpl.hex 5 None aio 0 entry p1.
Definition p3 : PullState := run_read 0 entry (Ok sealed) p2.
Definition p4 : PullState := run_send 0 sealed keyed 3 p3.
Definition p5 : PullState := run_work ToyPrims.toy HexImpl.hex false 5 insert_io_ok 0 (sealed, keyed, 3) p4.
Definition p6 : PullState := with_main MComplete p5.
Definition p7 : PullState := with_main (MDone (pull_result (Ok 9) (Ok tt) p6)) p6.

(** Another index with the chunk is decrypted afterwards. *)
Definition q0 : PullState := pull_start one (ps_enc p7) (Some empty_index) (ps_store p7).
Definition q1 : PullState := fetch one 0 [] q0.
Definition q2 : PullState := with_main MComplete q1.
Definition q3 : PullState := with_main (MDone (pull_result (Ok 9) (Ok tt) q2)) q2.

(** The chunk is decrypted, with an empty map. *)
Definition plain_digest : digest := sha256 ToyPrims.toy (bytes "abc").
Definition plain_chunk : DataBlob :=
  match build ToyPrims.toy (Err "unused") (builder_compress true (builder_new (bytes "abc"))) with
  | Ok (chunk, _) => chunk
  | _ => sealed
  end.
Definition d0 : PullState := pull_start one ∅ (Some empty_index) ∅.
Definition d1 : PullState := fetch one 0 [] d0.
Definition d2 : PullState := run_new HexImpl.hex 5 None aio 0 entry d1.
Definition d3 : PullState := run_decrypt ToyPrims.toy aio 0 entry (Ok (bytes "abc")) d2.
Definition d4 : PullState := run_send 0 plain_chunk plain_digest 3 d3.
Definition d5 : PullState := run_work ToyPrims.toy HexImpl.hex false 5 insert_io_ok 0 (plain_chunk, plain_digest, 3) d4.
Definition d6 : PullState := with_main MComplete d5.
Definition d7 : PullState := with_main (MDone (pull_result (Ok 9) (Ok tt) d6)) d6.

Ltac run_guard :=
  match goal with
  | |- drained _ => left; vm_compute; reflexivity
  | |- _ = _ => vm_compute; reflexivity
  | |- (_ < _)%nat => vm_compute; lia
  | |- (_ <= _)%nat => vm_compute; lia
  | |- (_ < _)%nat \/ _ => left; vm_compute; lia
  | |- forall data, Ok _ = Ok data -> _ => intros ? [= <-]; split; reflexivity
  end.
(** A step of the run to the named state. *)
Ltac own_step c s := apply (rtc_l _ _ s); [apply step_own; apply c; run_guard|].

Lemma plain_run :
  pull_index_chunks ToyPrims.toy HexImpl.hex false 1 src one ∅ None ∅
    (Ok {| ss_chunk_count := 1; ss_bytes := 47; ss_elapsed := 9; ss_removed := None |}) p7.
Proof.
  split; [|split; [vm_compute; reflexivity|run_guard]].
  own_step (step_fetch ToyPrims.toy HexImpl.hex false 1 src one p0 0 []) p1.
  own_step (step_new ToyPrims.toy HexImpl.hex false 1 src one p1 0%nat entry 5 None aio) p2.
  own_step (step_read ToyPrims.toy HexImpl.hex false 1 src one p2 0%nat entry (Ok sealed)) p3.
  own_step (step_send ToyPrims.toy HexImpl.hex false 1 src one p3 0%nat sealed keyed 3) p4.
  own_step (step_work ToyPrims.toy HexImpl.hex false 1 src one p4 0%nat (sealed, keyed, 3) 5 insert_io_ok) p5.
  own_step (step_streamed ToyPrims.toy HexImpl.hex false 1 src one p5) p6.
  own_step (step_return ToyPrims.toy HexImpl.hex false 1 src one p6 (Ok 9) (Ok tt)) p7.
  apply rtc_refl.
Qed.

(** A chunk can be left out of a decrypted index.  An index is pulled as it is, because its snapshot is not
    fully encrypted, and after it, in the same group, an index of an encrypted snapshot that has the same chunk is
    decrypted: the chunk is skipped because it is marked as there, and the new index is
    empty.  Both calls succeed. *)
Theorem decrypt_skips_marked_chunk :
  exists s1 r1 s2 r2,
    pull_index_chunks ToyPrims.toy HexImpl.hex false 1 src one ∅ None ∅ (Ok r1) s1 /\
    pull_index_chunks ToyPrims.toy HexImpl.hex false 1 src one (ps_enc s1) (Some empty_index) (ps_store s1)
      (Ok r2) s2 /\
    ps_writer s2 = Some empty_index /\ index_chunks one = [entry].
Proof.
  eexists p7, _, q3, _. split; [exact plain_run|]. split; [|split; vm_compute; reflexivity].
  split; [|split; [vm_compute; reflexivity|run_guard]].
  own_step (step_fetch ToyPrims.toy HexImpl.hex false 1 src one q0 0 []) q1.
  own_step (step_streamed ToyPrims.toy HexImpl.hex false 1 src one q1) q2.
  own_step (step_return ToyPrims.toy HexImpl.hex false 1 src one q2 (Ok 9) (Ok tt)) q3.
  apply rtc_refl.
Qed.

Lemma empty_enc_ok X st : enc_ok X ∅ st.
Proof. intros d _ [(i & Hi & _)|(d' & i & Hi & _)]; by rewrite lookup_empty in Hi. Qed.

Lemma decrypt_run :
  pull_index_chunks ToyPrims.toy HexImpl.hex false 1 src one ∅ (Some empty_index) ∅
    (Ok {| ss_chunk_count := 1; ss_bytes := 15; ss_elapsed := 9; ss_removed := None |}) d7.
Proof.
  split; [|split; [vm_compute; reflexivity|run_guard]].
  own_step (step_fetch ToyPrims.toy HexImpl.hex false 1 src one d0 0 []) d1.
  own_step (step_new ToyPrims.toy HexImpl.hex false 1 src one d1 0%nat entry 5 None aio) d2.
  own_step (step_decrypt ToyPrims.toy HexImpl.hex false 1 src one d2 0%nat entry (Ok (bytes "abc")) aio) d3.
  own_step (step_send ToyPrims.toy HexImpl.hex false 1 src one d3 0%nat plain_chunk plain_digest 3) d4.
  own_step (step_work ToyPrims.toy HexImpl.hex false 1 src one d4 0%nat (plain_chunk, plain_digest, 3) 5 insert_io_ok) d5.
  own_step (step_streamed ToyPrims.toy HexImpl.hex false 1 src one d5) d6.
  own_step (step_return ToyPrims.toy HexImpl.hex false 1 src one d6 (Ok 9) (Ok tt)) d7.
  apply rtc_refl.
Qed.

Lemma pulled_chunks_present_witness : present HexImpl.hex (ps_store p7) keyed.
Proof.
  destruct (pulled_chunks_present ToyPrims.toy HexImpl.hex false 1 src one ∅ ∅ _ p7
    (empty_enc_ok HexImpl.hex ∅) plain_run) as [_ Hok].
  destruct (Hok _ eq_refl) as [_ Hp]. apply (Hp 0 entry); [vm_compute; split; [discriminate|reflexivity]|reflexivity..].
Defined.

Lemma decrypted_index_complete_witness :
  exists w l o, ps_writer d7 = Some w /\ added empty_index l w o /\
    Forall2 (fun info => decrypts ToyPrims.toy src (cri_digest info)) [entry] l.
Proof.
  destruct (decrypted_index_complete ToyPrims.toy HexImpl.hex false 1 src one empty_index ∅ ∅
    {| ss_chunk_count := 1; ss_bytes := 15; ss_elapsed := 9; ss_removed := None |} d7 (empty_enc_ok HexImpl.hex ∅)) as (_ & _ & w & l & o & Hw & Ha & Hf & _).
  - intros d i Hi. by rewrite lookup_empty in Hi.
  - exact decrypt_run.
  - exists w, l, o. split; [exact Hw|]. split; [exact Ha|exact Hf].
Defined.

Lemma pull_completes_witness :
  exists n s r, runs ToyPrims.toy HexImpl.hex false 1 src one n p0 s /\ pull_returned s r.
Proof.
  apply (pull_completes ToyPrims.toy HexImpl.hex false 1 src one ∅ None ∅ 0 p0); [lia|constructor].
Defined.
End PullRuns.
