(* ===== verification/BlobReader.v ===== *)
(** * Reading blobs as streams, [pbs-datastore/src/data_blob_reader.rs]

    [DataBlobReader] decodes a blob while it is read, through the readers of [crypt_reader.rs] and
    [checksum_reader.rs].  How much the buffered reader below delivers at a time and the sizes of the buffers
    above are arguments of every read, so that theorems hold for all of them.  The decompressor is
    [zstd::stream::read::Decoder], which reads its input to the end and then has what [decode_all] returns. *)

From S2P Require Import Prelude IndexFile DataBlob.
From Stdlib Require Import Strings.Byte.

Section reader.
Variable P : Prims.

(** ** [CryptReader]; [cr_input] is what the reader below still has *)
Record CryptReader := {
  cr_input : list byte;
  small_read_buf : list byte;
  cr_crypter : crypter P;
  finalized : bool;
}.

(** [block_size.count_ones() == 1], for sizes up to 512. *)
Definition one_bit (n : Z) : bool := existsb (Z.eqb n) [1; 2; 4; 8; 16; 32; 64; 128; 256; 512].

Definition crypt_reader_new (input iv tag : list byte) (config : CryptConfig) : res CryptReader :=
  if negb (one_bit (block_size P)) then Err "unexpected Cipher block size" else
  let? crypter := data_crypter P config iv false in
  let? crypter := crypter_set_tag P crypter tag in
  Ok {| cr_input := input; small_read_buf := []; cr_crypter := crypter; finalized := false |}.

(** One [read] with a buffer of [len] bytes: [fill] bytes, but at least one, are in the buffer of the reader below
    unless it is at its end. *)
Definition cr_read (fill len : Z) (r : CryptReader) : res (list byte) * CryptReader :=
  if negb (bool_decide (small_read_buf r = [])) then
    let max := Z.to_nat (len `min` Z.of_nat (length (small_read_buf r))) in
    (Ok (take max (small_read_buf r)),
     {| cr_input := cr_input r; small_read_buf := drop max (small_read_buf r);
        cr_crypter := cr_crypter r; finalized := finalized r |})
  else
  let data := take (Z.to_nat (1 `max` fill)) (cr_input r) in
  let small := len <=? 2 * block_size P in
  let out_len := if small then 1024 else len in
  if bool_decide (data = []) then
    try! (out, c) := crypter_finalize P (cr_crypter r) for r in
    let n := Z.to_nat (if small then len `min` Z.of_nat (length out) else Z.of_nat (length out)) in
    (Ok (take n out),
     {| cr_input := cr_input r; small_read_buf := drop n out; cr_crypter := c; finalized := true |})
  else
    let read_size := Z.to_nat ((out_len - block_size P) `min` Z.of_nat (length data)) in
    try! (out, c) := crypter_update P (cr_crypter r) (take read_size data) for r in
    let n := Z.to_nat (if small then len `min` Z.of_nat (length out) else Z.of_nat (length out)) in
    (Ok (take n out),
     {| cr_input := drop read_size (cr_input r); small_read_buf := drop n out; cr_crypter := c;
        finalized := finalized r |}).

Definition cr_finish (r : CryptReader) : res unit :=
  if negb (finalized r) then Err "CryptReader not successfully finalized." else Ok tt.

(** [read_to_end]: reads until one returns nothing; [sizes] gives [fill] and the length of the buffer for each. *)
Fixpoint cr_read_to_end (sizes : nat -> Z * Z) (fuel : nat) (r : CryptReader)
    : res (list byte) * CryptReader :=
  match fuel with
  | O => (Panic "out of fuel", r)
  | S fuel =>
      let! out, r := cr_read (sizes fuel).1 (sizes fuel).2 r in
      if bool_decide (out = []) then (Ok [], r) else
      let! rest, r := cr_read_to_end sizes fuel r in
      (Ok (out ++ rest), r)
  end.
Definition read_fuel (r : CryptReader) : nat := S (S (length (cr_input r) + length (small_read_buf r))).

(** ** [DataBlobReader] *)

(** The states; each reader has read its whole input when [finish] gets at its checksum, so the checksum is that of the
    body. *)
Inductive BlobReaderState :=
| Uncompressed (expected_crc : Z) (body : list byte)
| Compressed (expected_crc : Z) (body : list byte)
| Encrypted (expected_crc : Z) (body : list byte) (decrypt_reader : CryptReader)
| EncryptedCompressed (expected_crc : Z) (body : list byte) (decrypt_reader : CryptReader).

(** [read_exact] of the next bytes. *)
Definition read_exact (n : Z) (data : list byte) : res (list byte * list byte) :=
  if Z.of_nat (length data) <? n then Err "failed to fill whole buffer"
  else Ok (take (Z.to_nat n) data, drop (Z.to_nat n) data).

Definition blob_reader_new (data : list byte) (config : option CryptConfig) : res BlobReaderState :=
  let? (head, data) := read_exact SIZE_HEADER data in
  let magic := take 8 head in
  let expected_crc := le_val (drop 8 head) in
  let encrypted mk :=
    match config with
    | None => Err "unable to read encrypted blob without key"
    | Some config =>
        let? (iv, data) := read_exact 16 data in
        let? (tag, data) := read_exact 16 data in
        let? r := crypt_reader_new data iv tag config in
        Ok (mk data r)
    end in
  if bool_decide (magic = UNCOMPRESSED_BLOB_MAGIC_1_0) then Ok (Uncompressed expected_crc data)
  else if bool_decide (magic = COMPRESSED_BLOB_MAGIC_1_0) then Ok (Compressed expected_crc data)
  else if bool_decide (magic = ENCRYPTED_BLOB_MAGIC_1_0) then encrypted (Encrypted expected_crc)
  else if bool_decide (magic = ENCR_COMPR_BLOB_MAGIC_1_0) then encrypted (EncryptedCompressed expected_crc)
  else Err "got wrong magic number".

Definition blob_read_to_end (sizes : nat -> Z * Z) (s : BlobReaderState)
    : res (list byte) * BlobReaderState :=
  match s with
  | Uncompressed _ body => (Ok body, s)
  | Compressed _ body => (zstd_decode_all P body, s)
  | Encrypted crc body r =>
      let '(out, r) := cr_read_to_end sizes (read_fuel r) r in (out, Encrypted crc body r)
  | EncryptedCompressed crc body r =>
      let '(out, r) := cr_read_to_end sizes (read_fuel r) r in
      (let? data := out in zstd_decode_all P data, EncryptedCompressed crc body r)
  end.

Definition check_crc (body : list byte) (expected_crc : Z) : res unit :=
  if negb (crc32 P body =? expected_crc) then Err "blob crc check failed" else Ok tt.
Definition blob_finish (s : BlobReaderState) : res unit :=
  match s with
  | Uncompressed crc body | Compressed crc body => check_crc body crc
  | Encrypted crc body r | EncryptedCompressed crc body r =>
      let? _ := cr_finish r in check_crc body crc
  end.

(** [decrypt_encrypted_data_blob] of [src/server/sync.rs] up to the file that it writes: the raw data of the
    unencrypted blob, with its checksum and size. *)
Definition read_blob (sizes : nat -> Z * Z) (data : list byte) (config : option CryptConfig)
    : res (list byte) :=
  let? reader := blob_reader_new data config in
  let '(r, reader) := blob_read_to_end sizes reader in
  let? dec_raw_data := r in
  let? _ := blob_finish reader in
  Ok dec_raw_data.
Definition decrypt_encrypted_data_blob (sizes : nat -> Z * Z) (data : list byte) (config : CryptConfig)
    : res (list byte * digest * Z) :=
  let? dec_raw_data := read_blob sizes data (Some config) in
  let? blob := encode P (Err "unused") dec_raw_data None true in
  Ok (raw_data blob, sha256 P (raw_data blob), raw_size blob).
End reader.
