(* ===== verification/BlobReaderSpec.v ===== *)
(** * Properties of the blob readers

    Whatever sizes reads have, the readers return the data that was encoded, and [finish] accepts it; a blob
    that is decrypted for a pull is an unencrypted blob of the same data. *)

From S2P Require Import Prelude IndexFile DataBlob DataBlobSpec BlobReader.
From Stdlib Require Import Strings.Byte.
Import BlobSpec.

(** What the readers rely on: AES-GCM decrypts byte by byte, the tag may be set before the data is there,
    and finalizing then only checks it. *)
Class StreamLaws (P : Prims) {HP : PrimsLaws P} := {
  stream_block : one_bit (block_size P) = true;
  stream_len c p out c' : crypter_update P c p = Ok (out, c') -> length out = length p;
  stream_ok key iv data : length key = 32%nat -> length iv = 16%nat ->
    exists c0 c1, crypter_new P false key iv = Ok c0 /\
      crypter_set_tag P c0 (seal key iv data).2 = Ok c1 /\
      forall pieces, concat pieces = (seal key iv data).1 -> exists c2 c3,
        run_update P c1 pieces = Ok (data, c2) /\ crypter_finalize P c2 = Ok ([], c3);
}.

Lemma run_update_app P c a b :
  run_update P c (a ++ b) =
  let? (out, c) := run_update P c a in let? (rest, c) := run_update P c b in Ok (out ++ rest, c).
Proof.
  revert c. induction a as [|p a IH]; intros c; cbn.
  - by destruct (run_update P c b) as [[]| |].
  - destruct (crypter_update P c p) as [[out c']| |]; cbn; [|done..]. rewrite IH.
    destruct (run_update P c' a) as [[]| |]; cbn; [|done..].
    destruct (run_update P _ b) as [[]| |]; cbn; [|done..]. by rewrite (assoc_L (++)).
Qed.

Section crypt_reader.
Context (P : Prims) `{HS : StreamLaws P}.
Context (ct data : list byte) (c1 : crypter P).
Hypothesis Hstream : forall pieces, concat pieces = ct -> exists c2 c3,
  run_update P c1 pieces = Ok (data, c2) /\ crypter_finalize P c2 = Ok ([], c3).

(** The reader still has to deliver [rem]. *)
Definition delivers (r : CryptReader P) (rem : list byte) : Prop :=
  exists pieces out rest, run_update P c1 pieces = Ok (out, cr_crypter P r) /\
    concat pieces ++ cr_input P r = ct /\ data = out ++ rest /\ rem = small_read_buf P r ++ rest.

Lemma delivers_next r rem piece tail :
  delivers r rem -> small_read_buf P r = [] -> cr_input P r = piece ++ tail ->
  exists out c rest, crypter_update P (cr_crypter P r) piece = Ok (out, c) /\ length out = length piece /\ rem = out ++ rest /\
    forall small b, delivers {| cr_input := tail; small_read_buf := small; cr_crypter := c; finalized := b |}
      (small ++ rest).
Proof using Hstream HS.
  intros (ps & o & rest & Hru & Hc & Hd & ->) Hs Hi. rewrite Hs. rewrite Hi in Hc.
  destruct (Hstream (ps ++ [piece; tail])) as (c2 & c3 & Hall & _).
  { rewrite concat_app. cbn. by rewrite app_nil_r. }
  rewrite run_update_app, Hru in Hall. cbn in Hall.
  destruct (crypter_update P _ piece) as [[out c]| |] eqn:Eu; [|done..]. cbn in Hall.
  destruct (crypter_update P c tail) as [[out' c']| |]; [|done..]. cbn in Hall.
  injection Hall as Hall _. rewrite app_nil_r in Hall. rewrite Hd in Hall. simplify_list_eq.
  exists out, c, out'. split_and!; [done|by eapply stream_len|done|]. intros small b.
  exists (ps ++ [piece]), (o ++ out), out'. cbn. rewrite run_update_app, Hru. cbn. rewrite Eu. cbn.
  rewrite app_nil_r, concat_app. cbn. rewrite app_nil_r, <-!(assoc_L (++)). done.
Qed.

Lemma delivers_end r rem :
  delivers r rem -> small_read_buf P r = [] -> cr_input P r = [] ->
  rem = [] /\ exists c, crypter_finalize P (cr_crypter P r) = Ok ([], c).
Proof using Hstream.
  intros (ps & o & rest & Hru & Hc & Hd & ->) Hs Hi. rewrite Hs. rewrite Hi, app_nil_r in Hc.
  destruct (Hstream ps Hc) as (c2 & c3 & Hall & Hf). rewrite Hru in Hall. injection Hall as -> ->.
  split; [|by exists c3]. apply (f_equal length) in Hd. rewrite length_app in Hd. cbn. destruct rest; [done|cbn in Hd; lia].
Qed.

Definition left_to_read (r : CryptReader P) : nat := length (cr_input P r) + length (small_read_buf P r).

Lemma cr_read_ok fill len r rem :
  delivers r rem -> 0 < len ->
  exists out r', cr_read P fill len r = (Ok out, r') /\
    ((out = [] /\ rem = [] /\ finalized P r' = true) \/
     (out <> [] /\ (left_to_read r' < left_to_read r)%nat /\ exists rem', rem = out ++ rem' /\ delivers r' rem')).
Proof using Hstream HS.
  intros Hd Hlen. unfold cr_read. destruct (decide (small_read_buf P r = [])) as [Hs|Hs].
  - rewrite bool_decide_true by done. cbn [negb]. set (dat := take _ (cr_input P r)).
    destruct (decide (cr_input P r = [])) as [Hi|Hi].
    + rewrite bool_decide_true by (unfold dat; by rewrite Hi, take_nil).
      destruct (delivers_end r rem Hd Hs Hi) as [-> [c ->]]. do 2 eexists. split; [done|]. left.
      by rewrite take_nil.
    + assert (1 <= length dat)%nat as Hdat.
      { unfold dat. rewrite length_take. destruct (cr_input P r); [done|cbn; lia]. }
      rewrite bool_decide_false by (intros E; rewrite E in Hdat; cbn in Hdat; lia).
      set (small := len <=? 2 * block_size P). set (out_len := if small then 1024 else len).
      assert (block_size P <= 512 /\ 1 <= block_size P) as [Hb1 Hb2].
      { pose proof stream_block as Hb. unfold one_bit in Hb. cbn in Hb. rewrite !orb_true_iff, !Z.eqb_eq in Hb. lia. }
      set (read_size := Z.to_nat _). assert (1 <= read_size <= length dat)%nat as Hrs.
      { unfold read_size, out_len, small. case_match; zify_bool; lia. }
      assert (take read_size dat = take read_size (cr_input P r)) as Htk.
      { unfold dat in *. rewrite take_take. f_equal. rewrite length_take in Hrs. lia. }
      rewrite Htk. destruct (delivers_next r rem (take read_size (cr_input P r)) (drop read_size (cr_input P r)))
        as (out & c & rest & -> & Hol & -> & Hnext); [done|done|by rewrite take_drop|].
      assert (length out = read_size) as Hor.
      { rewrite Hol, length_take. unfold dat in Hrs. rewrite length_take in Hrs. lia. }
      set (n := Z.to_nat (if small then _ else _)). assert (1 <= n <= length out)%nat as Hn.
      { unfold n. destruct small; lia. }
      do 2 eexists. split; [done|]. right. split_and!.
      * intros E. apply (f_equal length) in E. rewrite length_take in E. cbn in E. lia.
      * unfold left_to_read. cbn. rewrite Hs, !length_drop. cbn. unfold dat in Hrs. rewrite length_take in Hrs. lia.
      * exists (drop n out ++ rest). split; [|apply Hnext]. by rewrite (assoc_L (++)), take_drop.
  - rewrite bool_decide_false by done. cbn [negb]. set (n := Z.to_nat _).
    assert (1 <= n <= length (small_read_buf P r))%nat as Hn.
    { unfold n. destruct (small_read_buf P r); [done|cbn; lia]. }
    do 2 eexists. split; [done|]. right. destruct Hd as (ps & o & rest & Hru & Hc & Hd & ->). split_and!.
    + intros E. apply (f_equal length) in E. rewrite length_take in E. cbn in E. lia.
    + unfold left_to_read. cbn. rewrite length_drop. lia.
    + exists (drop n (small_read_buf P r) ++ rest). split; [by rewrite (assoc_L (++)), take_drop|].
      by exists ps, o, rest.
Qed.

Lemma cr_read_to_end_ok sizes fuel r rem :
  (forall k, 0 < (sizes k).2) -> (S (left_to_read r) <= fuel)%nat -> delivers r rem ->
  exists r', cr_read_to_end P sizes fuel r = (Ok rem, r') /\ finalized P r' = true.
Proof using Hstream HS.
  intros Hsz. revert r rem. induction fuel as [|fuel IH]; intros r rem Hf Hd; [lia|]. cbn [cr_read_to_end].
  destruct (cr_read_ok (sizes fuel).1 (sizes fuel).2 r rem Hd (Hsz fuel))
    as (out & r1 & -> & [(-> & -> & Hfin)|(Hne & Hlt & rem' & -> & Hd')]).
  - rewrite bool_decide_true by done. eauto.
  - rewrite bool_decide_false by done. destruct (IH r1 rem') as (r' & -> & Hfin); [lia|done|]. eauto.
Qed.
End crypt_reader.

Lemma read_exact_app n a b : Z.of_nat (length a) = n -> read_exact n (a ++ b) = Ok (a, b).
Proof.
  intros Hn. unfold read_exact. rewrite length_app, (proj2 (Z.ltb_ge _ _)) by lia.
  rewrite take_app_length', drop_app_length' by lia. done.
Qed.

Section blob_reader.
Context (P : Prims) `{HS : StreamLaws P}.

Lemma crypt_reader_new_ok (config : CryptConfig) iv payload :
  length (enc_key config) = 32%nat -> length iv = 16%nat ->
  exists r, crypt_reader_new P (seal (enc_key config) iv payload).1 iv (seal (enc_key config) iv payload).2 config = Ok r /\
    forall sizes, (forall k, 0 < (sizes k).2) -> exists r',
      cr_read_to_end P sizes (read_fuel P r) r = (Ok payload, r') /\ finalized P r' = true.
Proof.
  intros Hk Hiv. destruct (stream_ok (enc_key config) iv payload Hk Hiv) as (c0 & c1 & Hn & Ht & Hs).
  unfold crypt_reader_new, data_crypter. rewrite stream_block, Hn, Ht. cbn [negb]. eexists. split; [done|].
  intros sizes Hsz. eapply (cr_read_to_end_ok P _ payload c1 Hs); [done|unfold read_fuel, left_to_read; lia|].
  by exists [], [], payload.
Qed.

(** The header of a blob, and what follows. *)
Lemma blob_reader_plain m body config :
  is_plain_magic m ->
  blob_reader_new P (unenc_raw P m body) config =
    Ok (if decide (m = UNCOMPRESSED_BLOB_MAGIC_1_0) then Uncompressed P (crc32 P body) body
        else Compressed P (crc32 P body) body).
Proof.
  intros Hm. destruct (plain_header m Hm) as [_ Hl]. unfold blob_reader_new, unenc_raw.
  rewrite (assoc_L (++)), read_exact_app by (rewrite length_app, Hl, length_le_bytes; done).
  cbn zeta. rewrite take_app_length', drop_app_length', (crc32_u32 P) by lia.
  by destruct Hm as [-> | ->].
Qed.

Lemma blob_reader_enc m iv tag ct config r :
  is_enc_magic m -> length iv = 16%nat -> length tag = 16%nat ->
  crypt_reader_new P ct iv tag config = Ok r ->
  blob_reader_new P (enc_raw P m iv tag ct) (Some config) =
    Ok (if decide (m = ENCRYPTED_BLOB_MAGIC_1_0) then Encrypted P (crc32 P ct) ct r
        else EncryptedCompressed P (crc32 P ct) ct r).
Proof.
  intros Hm Hiv Htag Hr. destruct (enc_header m Hm) as [_ Hl]. unfold blob_reader_new, enc_raw.
  rewrite (assoc_L (++)), read_exact_app by (rewrite length_app, Hl, length_le_bytes; done).
  cbn zeta. rewrite take_app_length', drop_app_length', (crc32_u32 P) by lia.
  rewrite (read_exact_app 16 iv), (read_exact_app 16 tag), Hr by lia.
  by destruct Hm as [-> | ->].
Qed.

(** Reading a blob as a stream returns what was encoded.  For every data, with or without compression and
    encryption, and whatever the sizes of the buffers are and however the input arrives, the reader
    returns the data of the blob, and [finish] finds tag and checksum as expected: the same
    that [decode] returns. *)
Theorem blob_reader_roundtrip sizes iv data config compress :
  Z.of_nat (length data) <= MAX_BLOB_SIZE -> length iv = 16%nat ->
  (forall c, config = Some c -> length (enc_key c) = 32%nat) -> (forall k, 0 < (sizes k).2) ->
  exists blob, encode P (Ok iv) data config compress = Ok blob /\
    read_blob P sizes (raw_data blob) config = Ok data /\ decode P blob config None = Ok data.
Proof.
  intros Hmax Hiv Hk Hsz. pose proof (encode_ok P iv data config compress Hmax Hiv Hk) as He.
  destruct (encoded_roundtrip P iv data config compress Hmax Hiv Hk) as (blob & He' & _ & _ & Hdec).
  exists blob. split; [done|]. split; [|apply (Hdec None)]. rewrite He' in He.
  pose proof (payload_decodes P data config compress) as Hp.
  destruct (payload_of P data config compress) as [m payload]. destruct Hp as [Hm Hd].
  injection He as ->. unfold read_blob. cbn [raw_data]. destruct config as [c|].
  - destruct (crypt_reader_new_ok c iv payload (Hk c eq_refl) Hiv) as (r & Hr & Hread).
    destruct (Hread sizes Hsz) as (r' & Hrd & Hfin).
    rewrite (blob_reader_enc _ _ _ _ _ r Hm Hiv (tag_len _ _ _) Hr).
    case_decide; cbn [blob_read_to_end]; rewrite Hrd; cbn; [|rewrite Hd; cbn]; unfold cr_finish, check_crc; rewrite Hfin; cbn;
      rewrite Z.eqb_refl; [|done]. by injection Hd as ->.
  - rewrite (blob_reader_plain _ _ _ Hm).
    case_decide; cbn; [injection Hd as ->|rewrite Hd; cbn]; unfold check_crc; by rewrite Z.eqb_refl.
Qed.

(** A blob that is decrypted by a pull becomes an unencrypted blob of the same data, of which the
    checksum and the size are returned. *)
Theorem decrypted_blob_correct sizes iv data config compress blob :
  Z.of_nat (length data) <= MAX_BLOB_SIZE -> length iv = 16%nat -> length (enc_key config) = 32%nat ->
  (forall k, 0 < (sizes k).2) ->
  encode P (Ok iv) data (Some config) compress = Ok blob ->
  exists raw, decrypt_encrypted_data_blob P sizes (raw_data blob) config
      = Ok (raw, sha256 P raw, Z.of_nat (length raw)) /\
    from_raw_with_crc_check P raw = Ok {| raw_data := raw |} /\
    is_encrypted {| raw_data := raw |} = Ok false /\
    decode P {| raw_data := raw |} None None = Ok data.
Proof.
  intros Hmax Hiv Hk Hsz He.
  destruct (blob_reader_roundtrip sizes iv data (Some config) compress Hmax Hiv) as (blob' & He' & Hr & _);
    [by intros ? [= <-]|done|].
  rewrite He in He'. injection He' as <-.
  destruct (encoded_roundtrip P iv data None true Hmax Hiv) as (plain & Hp & Hcrc & Henc & Hdec); [done|].
  exists (raw_data plain). unfold decrypt_encrypted_data_blob. rewrite Hr. cbn.
  replace (encode P (Err "unused") data None true) with (encode P (Ok iv) data None true) by done.
  rewrite Hp. cbn. destruct plain as [raw]. cbn in *. by rewrite Henc, (Hdec None).
Qed.
End blob_reader.

(** ** The laws can hold *)
#[global] Instance toy_stream_laws : StreamLaws ToyPrims.toy.
Proof.
  split.
  - done.
  - cbn. by intros c p out c' [= <- <-].
  - intros key iv data _ _. do 2 eexists. split; [done|]. split; [done|]. intros pieces Hc.
    rewrite ToyPrims.toy_run_update. rewrite Hc. do 2 eexists. split; [done|]. cbn.
    by rewrite bool_decide_eq_true_2.
Qed.

Lemma blob_reader_roundtrip_witness :
  exists blob, encode ToyPrims.toy (Ok (replicate 16 x07)) (bytes "some data") (Some ToyPrims.key) false = Ok blob /\
    read_blob ToyPrims.toy (fun k => (Z.of_nat k, 1 + Z.of_nat k)) (raw_data blob) (Some ToyPrims.key)
      = Ok (bytes "some data").
Proof.
  destruct (blob_reader_roundtrip ToyPrims.toy (fun k => (Z.of_nat k, 1 + Z.of_nat k)) (replicate 16 x07)
    (bytes "some data") (Some ToyPrims.key) false) as (blob & He & Hr & _).
  - vm_compute. discriminate.
  - reflexivity.
  - intros c [= <-]. reflexivity.
  - intros k. cbn. lia.
  - exists blob. split; [exact He|exact Hr].
Defined.
