(* ===== verification/Hierarchy.v ===== *)
(** * Iterators over the directories of a datastore, [pbs-datastore/src/hierarchy.rs]

    Each iterator is a state with a function [next].  What the system calls deliver, the entries of directories
    with errors between them, is an argument; namespaces, the patterns of names and the parsing of times belong to
    the crate of the API types and are an interface with its laws. *)

From S2P Require Import Prelude.

(** A namespace by its components; the root has none. *)
Definition namespace := list string.
Definition is_root (ns : namespace) : bool := bool_decide (ns = []).
Definition depth (ns : namespace) : Z := Z.of_nat (length ns).

Class NsLib := {
  from_parent_ns : namespace -> string -> res namespace;
  map_prefix : namespace -> namespace -> namespace -> res namespace;
  ns_contains : namespace -> namespace -> option Z;
  ns_parent : namespace -> namespace;
  name_len : namespace -> Z;
  ns_max_depth : Z;
}.
Class NsLaws (N : NsLib) := {
  from_parent_ns_ok p n x : from_parent_ns p n = Ok x -> x = p ++ [n];
  map_prefix_ok x s t y : map_prefix x s t = Ok y -> exists rest, x = s ++ rest /\ y = t ++ rest;
  ns_contains_spec x y : is_Some (ns_contains x y) <-> exists rest, y = x ++ rest;
  ns_parent_spec p n : ns_parent (p ++ [n]) = p;
  name_len_lt p n : name_len p < name_len (p ++ [n]);
  max_depth_range : 0 <= ns_max_depth < 256;
}.

(** Types and ids of groups, and times of snapshots. *)
Record NameLib := {
  is_backup_type : string -> bool;
  backup_id_regex : string -> bool;
  backup_date_regex : string -> bool;
  parse_rfc3339 : string -> res Z;
}.

(** ** Directories *)
Inductive FileType := DirectoryType | OtherType.
(** [e_name] is [None] for a name that is not UTF-8, [e_type] is [None] where the file system does not tell, and
    [e_stat] what [get_file_type] delivers then, if it does. *)
Record Entry := { e_name : option string; e_type : option FileType; e_stat : option FileType }.
Definition Item := (string + Entry)%type.

Definition is_directory (e : Entry) : bool :=
  match e_type e with
  | Some DirectoryType => true
  | Some OtherType => false
  | None => match e_stat e with Some DirectoryType => true | _ => false end
  end.

(** What an iterator yields until its end. *)
Inductive yields {S A} (next : S -> option A * S) : S -> list A -> Prop :=
| yields_end s s' : next s = (None, s') -> yields next s []
| yields_next s x s' l : next s = (Some x, s') -> yields next s' l -> yields next s (x :: l).
Fixpoint collect {S A} (next : S -> option A * S) (fuel : nat) (s : S) : option (list A) :=
  match fuel with
  | O => None
  | S fuel =>
      match next s with
      | (None, _) => Some []
      | (Some x, s) => (cons x) <$> collect next fuel s
      end
  end.

(** ** Snapshots of a group *)
Section iterators.
Context (N : NsLib) (M : NameLib).

Fixpoint ListSnapshots_next (fd : list Item) : option (res Z) * list Item :=
  match fd with
  | [] => (None, [])
  | inl err :: fd => (Some (Err err), fd)
  | inr entry :: fd =>
      if negb (is_directory entry) then ListSnapshots_next fd else
      match e_name entry with
      | Some name =>
          if backup_date_regex M name then (Some (parse_rfc3339 M name), fd) else ListSnapshots_next fd
      | None => ListSnapshots_next fd
      end
  end.

(** ** Groups of a namespace *)
Definition group_id := (string * string)%type.

Fixpoint ListGroupsType_next (ty : string) (dir : list Item) : option (res group_id) * list Item :=
  match dir with
  | [] => (None, [])
  | inl err :: dir => (Some (Err err), dir)
  | inr entry :: dir =>
      if negb (is_directory entry) then ListGroupsType_next ty dir else
      match e_name entry with
      | Some name =>
          if backup_id_regex M name then (Some (Ok (ty, name)), dir) else ListGroupsType_next ty dir
      | None => ListGroupsType_next ty dir
      end
  end.

Record ListGroups := { lg_types : list Item; lg_id_state : option (string * list Item) }.
Definition ListGroups_new (type_fd : list Item) : ListGroups := {| lg_types := type_fd; lg_id_state := None |}.

(** The loop once [id_state] is [None]; a type whose ids are exhausted at once is left again. *)
Fixpoint types_next (read_type : string -> res (list Item)) (types : list Item)
    : option (res group_id) * ListGroups :=
  match types with
  | [] => (None, {| lg_types := []; lg_id_state := None |})
  | inl err :: types => (Some (Err err), {| lg_types := types; lg_id_state := None |})
  | inr entry :: types =>
      if negb (is_directory entry) then types_next read_type types else
      match e_name entry with
      | Some name =>
          if is_backup_type M name then
            match read_type name with
            | Ok dir =>
                match ListGroupsType_next name dir with
                | (Some item, dir) => (Some item, {| lg_types := types; lg_id_state := Some (name, dir) |})
                | (None, _) => types_next read_type types
                end
            | Err err | Panic err => (Some (Err err), {| lg_types := types; lg_id_state := None |})
            end
          else types_next read_type types
      | None => types_next read_type types
      end
  end.
Definition ListGroups_next (read_type : string -> res (list Item)) (s : ListGroups)
    : option (res group_id) * ListGroups :=
  match lg_id_state s with
  | Some (ty, dir) =>
      match ListGroupsType_next ty dir with
      | (Some item, dir) => (Some item, {| lg_types := lg_types s; lg_id_state := Some (ty, dir) |})
      | (None, _) => types_next read_type (lg_types s)
      end
  | None => types_next read_type (lg_types s)
  end.

(** [ListGroupsOk] ends at the first error. *)
Definition ListGroupsOk_next {I G} (next : I -> option (res G) * I) (s : option I) : option G * option I :=
  match s with
  | Some iter =>
      match next iter with
      | (Some (Ok item), iter) => (Some item, Some iter)
      | (_, _) => (None, None)
      end
  | None => (None, None)
  end.

(** ** Namespaces *)
Inductive ReadDir := Opened (l : list Item) | NoEntry | ReadFailed (err : string).

Record ListNamespaces := { ln_ns : namespace; ln_state : option (list Item) }.
Definition ListNamespaces_new (ns : namespace) : ListNamespaces := {| ln_ns := ns; ln_state := None |}.

Fixpoint entries_next (ns : namespace) (id_fd : list Item) : option (res namespace) * ListNamespaces :=
  match id_fd with
  | [] => (None, {| ln_ns := ns; ln_state := Some [] |})
  | inl err :: id_fd => (Some (Err err), {| ln_ns := ns; ln_state := Some id_fd |})
  | inr entry :: id_fd =>
      if negb (is_directory entry) then entries_next ns id_fd else
      match e_name entry with
      | Some name =>
          if negb (bool_decide (name = ".") || bool_decide (name = ".."))%string
          then (Some (from_parent_ns ns name), {| ln_ns := ns; ln_state := Some id_fd |})
          else entries_next ns id_fd
      | None => entries_next ns id_fd
      end
  end.
Definition ListNamespaces_next (read_ns : namespace -> ReadDir) (s : ListNamespaces)
    : option (res namespace) * ListNamespaces :=
  match ln_state s with
  | Some id_fd => entries_next (ln_ns s) id_fd
  | None =>
      match read_ns (ln_ns s) with
      | Opened l => entries_next (ln_ns s) l
      | NoEntry => (None, s)
      | ReadFailed err => (Some (Err err), s)
      end
  end.

(** The iterators of the levels, the innermost one first. *)
Record ListNamespacesRecursive := {
  lr_ns : namespace; lr_max_depth : Z; lr_state : option (list ListNamespaces);
}.
Definition new_max_depth (ns : namespace) (max_depth : Z) : res ListNamespacesRecursive :=
  if ns_max_depth <? max_depth then Err "depth must be smaller than limit" else
  let max_depth := max_depth `min` u64 (ns_max_depth - depth ns) in
  Ok {| lr_ns := ns; lr_max_depth := max_depth mod 256; lr_state := None |}.

Fixpoint levels_next (read_ns : namespace -> ReadDir) (max_depth : Z) (state : list ListNamespaces)
    : option (res namespace) * list ListNamespaces :=
  match state with
  | [] => (None, [])
  | iter :: outer =>
      match ListNamespaces_next read_ns iter with
      | (Some (Ok ns), iter) =>
          let state' := iter :: outer in
          (Some (Ok ns), if Z.of_nat (length state') <? max_depth then ListNamespaces_new ns :: state' else state')
      | (Some ns_err, iter) => (Some ns_err, iter :: outer)
      | (None, _) => levels_next read_ns max_depth outer
      end
  end.
Definition ListNamespacesRecursive_next (read_ns : namespace -> ReadDir) (s : ListNamespacesRecursive)
    : option (res namespace) * ListNamespacesRecursive :=
  let set st := {| lr_ns := lr_ns s; lr_max_depth := lr_max_depth s; lr_state := Some st |} in
  match lr_state s with
  | Some state => let '(r, state) := levels_next read_ns (lr_max_depth s) state in (r, set state)
  | None =>
      (Some (Ok (lr_ns s)), set (if 0 <? lr_max_depth s then [ListNamespaces_new (lr_ns s)] else []))
  end.

(** [filter_map] of [iter_backup_ns_ok] and [recursive_iter_backup_ns_ok]: errors are logged and skipped.  The fuel
    bounds the errors that are skipped for one element. *)
Fixpoint ok_next {I} (next : I -> option (res namespace) * I) (fuel : nat) (s : I)
    : option (option namespace * I) :=
  match fuel with
  | O => None
  | S fuel =>
      match next s with
      | (None, s) => Some (None, s)
      | (Some (Ok ns), s) => Some (Some ns, s)
      | (Some _, s) => ok_next next fuel s
      end
  end.
End iterators.
