(* ===== verification/HierarchySpec.v ===== *)
(** * Properties of the iterators

    What each iterator yields, as a function of the directories: the recursive one yields the tree of namespaces in
    preorder, to the depth that was asked for.  An iterator of namespaces that cannot read its directory never ends. *)

From S2P Require Import Prelude Hierarchy.

Lemma yields_collect {I A} (next : I -> option A * I) s l :
  yields next s l -> collect next (S (length l)) s = Some l.
Proof. induction 1 as [s s' E|s x s' l E _ IH]; cbn; rewrite E; [done|]. cbn in IH. by rewrite IH. Qed.

Lemma yields_fun {I A} (next : I -> option A * I) s l l' : yields next s l -> yields next s l' -> l = l'.
Proof.
  intros H. revert l'. induction H as [s s' E|s x s' l E _ IH]; intros l' H';
    inversion H' as [? ? E'|? ? ? ? E' H2]; subst; rewrite E in E'; simplify_eq; [done|].
  f_equal. by apply IH.
Qed.

Lemma yields_ext {I A} (next next' : I -> option A * I) s l :
  (forall s, next' s = next s) -> yields next s l -> yields next' s l.
Proof. intros Hn. induction 1; [eapply yields_end|eapply yields_next]; rewrite ?Hn; eauto. Qed.

(** ** Entries of one directory *)
Fixpoint first_item {A} (f : Item -> option A) (l : list Item) : option A * list Item :=
  match l with
  | [] => (None, [])
  | i :: l => match f i with Some x => (Some x, l) | None => first_item f l end
  end.

Definition named {A} (ok : string -> bool) (f : string -> res A) (i : Item) : option (res A) :=
  match i with
  | inl err => Some (Err err)
  | inr e =>
      if is_directory e then
        match e_name e with Some name => if ok name then Some (f name) else None | None => None end
      else None
  end.

Lemma first_item_omap {A} (f : Item -> option A) l :
  match first_item f l with
  | (None, l') => omap f l = [] /\ l' = []
  | (Some x, l') => omap f l = x :: omap f l'
  end.
Proof. induction l as [|i l IH]; [done|]. cbn. by destruct (f i). Qed.

Lemma first_item_yields {A} (f : Item -> option A) l : yields (first_item f) l (omap f l).
Proof.
  induction l as [|i l IH]; [by eapply yields_end|]. cbn. destruct (f i) as [x|] eqn:E.
  { eapply yields_next; [|exact IH]. cbn. by rewrite E. }
  inversion IH; [eapply yields_end|eapply yields_next]; cbn; rewrite ?E; eauto.
Qed.

Section lists.
Context (N : NsLib) (M : NameLib).

Ltac named_step IH e :=
  cbn; rewrite IH; destruct (is_directory e); cbn; [|done]; destruct (e_name e) as [name|]; [|done].

Lemma ListSnapshots_first fd :
  ListSnapshots_next M fd = first_item (named (backup_date_regex M) (parse_rfc3339 M)) fd.
Proof. induction fd as [|[err|e] fd IH]; [done..|]. named_step IH e. by destruct (backup_date_regex M name). Qed.

Lemma ListGroupsType_first ty dir :
  ListGroupsType_next M ty dir = first_item (named (backup_id_regex M) (fun name => Ok (ty, name))) dir.
Proof. induction dir as [|[err|e] dir IH]; [done..|]. named_step IH e. by destruct (backup_id_regex M name). Qed.

Definition child_name (name : string) : bool := negb (bool_decide (name = ".") || bool_decide (name = ".."))%string.

Lemma entries_first ns fd :
  entries_next N ns fd =
  let '(r, fd) := first_item (named child_name (from_parent_ns ns)) fd in (r, {| ln_ns := ns; ln_state := Some fd |}).
Proof. induction fd as [|[err|e] fd IH]; [done..|]. named_step IH e. unfold child_name. by destruct (negb _). Qed.

Definition snapshot_items (fd : list Item) : list (res Z) := omap (named (backup_date_regex M) (parse_rfc3339 M)) fd.

Lemma ListSnapshots_yields fd : yields (ListSnapshots_next M) fd (snapshot_items fd).
Proof.
  eapply yields_ext; [|apply first_item_yields]. apply ListSnapshots_first.
Qed.

(** ** Groups *)
Definition type_items (read_type : string -> res (list Item)) (i : Item) : list (res group_id) :=
  match i with
  | inl err => [Err err]
  | inr e =>
      if is_directory e then
        match e_name e with
        | Some ty =>
            if is_backup_type M ty then
              match read_type ty with
              | Ok dir => omap (named (backup_id_regex M) (fun name => Ok (ty, name))) dir
              | Err err | Panic err => [Err err]
              end
            else []
        | None => []
        end
      else []
  end.
Definition group_items (read_type : string -> res (list Item)) (types : list Item) : list (res group_id) :=
  types ≫= type_items read_type.

Definition groups_left (read_type : string -> res (list Item)) (s : ListGroups) : list (res group_id) :=
  match lg_id_state s with
  | Some (ty, dir) => omap (named (backup_id_regex M) (fun name => Ok (ty, name))) dir
  | None => []
  end ++ group_items read_type (lg_types s).

Lemma types_next_left read_type types :
  match types_next M read_type types with
  | (None, _) => group_items read_type types = []
  | (Some x, s) => group_items read_type types = x :: groups_left read_type s
  end.
Proof.
  induction types as [|[err|e] types IH]; [done..|]. unfold group_items in *. cbn [types_next mbind list_bind type_items].
  destruct (is_directory e); cbn; [|exact IH]. destruct (e_name e) as [ty|]; [|exact IH].
  destruct (is_backup_type M ty); [|exact IH]. destruct (read_type ty) as [dir|err|err]; [|done..].
  rewrite ListGroupsType_first.
  pose proof (first_item_omap (named (backup_id_regex M) (fun name => Ok (ty, name))) dir) as Hf.
  destruct (first_item _ dir) as [[x|] dir']; [by rewrite Hf|]. destruct Hf as [-> _]. exact IH.
Qed.

Lemma ListGroups_left read_type s :
  match ListGroups_next M read_type s with
  | (None, _) => groups_left read_type s = []
  | (Some x, s') => groups_left read_type s = x :: groups_left read_type s'
  end.
Proof.
  unfold ListGroups_next. destruct s as [types [[ty dir]|]]; [|apply types_next_left]. cbn [lg_id_state lg_types].
  assert (groups_left read_type {| lg_types := types; lg_id_state := Some (ty, dir) |} =
    omap (named (backup_id_regex M) (fun name => Ok (ty, name))) dir ++ group_items read_type types) as -> by done.
  rewrite ListGroupsType_first.
  pose proof (first_item_omap (named (backup_id_regex M) (fun name => Ok (ty, name))) dir) as Hf.
  destruct (first_item _ dir) as [[x|] dir']; [by rewrite Hf|]. destruct Hf as [-> _]. apply types_next_left.
Qed.

(** All groups are listed, each type in its turn. *)
Lemma ListGroups_yields read_type types :
  yields (ListGroups_next M read_type) (ListGroups_new types) (group_items read_type types).
Proof.
  change (group_items read_type types) with (groups_left read_type (ListGroups_new types)).
  generalize (ListGroups_new types). intros s. remember (groups_left read_type s) as l eqn:E. revert s E.
  induction l as [|x l IH]; intros s E; pose proof (ListGroups_left read_type s) as Hl;
    destruct (ListGroups_next M read_type s) as [[y|] s'] eqn:Es; try congruence.
  - by eapply yields_end.
  - rewrite <-E in Hl. simplify_eq. eapply yields_next; [done|]. by apply IH.
Qed.
End lists.

(** ** Namespaces *)
Section namespaces.
Context (N : NsLib) (read_ns : namespace -> ReadDir) (children : namespace -> list namespace).

Definition ns_items (ns : namespace) (l : list Item) : list (res namespace) :=
  omap (named child_name (from_parent_ns ns)) l.
(** The directory of a namespace can be read, and has these children. *)
Definition readable (ns : namespace) : Prop :=
  match read_ns ns with
  | Opened l => ns_items ns l = Ok <$> children ns
  | NoEntry => children ns = []
  | ReadFailed _ => False
  end.

Fixpoint preorder (depth : nat) (ns : namespace) : list namespace :=
  ns :: match depth with O => [] | S depth => children ns ≫= preorder depth end.

Definition iter_left (it : ListNamespaces) (cs : list namespace) : Prop :=
  match ln_state it with
  | Some l => ns_items (ln_ns it) l = Ok <$> cs
  | None => cs = children (ln_ns it)
  end.

Hypothesis Hread : forall ns, readable ns.

Lemma iter_left_next it cs :
  iter_left it cs ->
  match cs with
  | [] => exists it', ListNamespaces_next N read_ns it = (None, it')
  | c :: cs => exists it', ListNamespaces_next N read_ns it = (Some (Ok c), it') /\ iter_left it' cs
  end.
Proof using Hread.
  assert (forall ns l cs, ns_items ns l = Ok <$> cs ->
    match cs with
    | [] => exists it', entries_next N ns l = (None, it')
    | c :: cs => exists it', entries_next N ns l = (Some (Ok c), it') /\ iter_left it' cs
    end) as Hl.
  { intros ns l cs' E. rewrite entries_first. unfold ns_items in E.
    pose proof (first_item_omap (named child_name (from_parent_ns ns)) l) as Hf.
    destruct (first_item _ l) as [[x|] l'].
    - rewrite Hf in E. destruct cs' as [|c cs']; [done|]. rewrite fmap_cons in E. simplify_eq. by eexists.
    - destruct Hf as [Hn _]. rewrite Hn in E. destruct cs' as [|c cs']; [by eexists|done]. }
  unfold iter_left at 1, ListNamespaces_next. destruct (ln_state it) as [l|]; [apply Hl|]. intros ->.
  pose proof (Hread (ln_ns it)) as Hr. unfold readable in Hr. destruct (read_ns (ln_ns it)) as [l| |]; [by apply Hl| |done].
  rewrite Hr. by eexists.
Qed.

Context (max : nat).
Inductive stack_left : list ListNamespaces -> list namespace -> Prop :=
| stack_nil : stack_left [] []
| stack_cons it outer cs out :
    iter_left it cs -> stack_left outer out -> (S (length outer) <= max)%nat ->
    stack_left (it :: outer) ((cs ≫= preorder (max - S (length outer))) ++ out).

Lemma levels_next_left st out :
  stack_left st out ->
  match out with
  | [] => exists st', levels_next N read_ns (Z.of_nat max) st = (None, st')
  | ns :: out => exists st', levels_next N read_ns (Z.of_nat max) st = (Some (Ok ns), st') /\ stack_left st' out
  end.
Proof using Hread.
  induction 1 as [|it outer cs out Hit Ho IH Hlen]; [by eexists|]. cbn [levels_next].
  apply iter_left_next in Hit. destruct cs as [|c cs]; [destruct Hit as [it' ->]; exact IH|].
  destruct Hit as (it' & -> & Hit). cbn [mbind list_bind]. set (d := (max - S (length outer))%nat).
  assert (stack_left (it' :: outer) ((cs ≫= preorder d) ++ out)) as Hst by (by constructor).
  destruct d as [|d'] eqn:Ed; cbn [preorder]; rewrite <-?app_assoc; cbn [app]; eexists; (split; [done|]).
  - destruct (Z.ltb_spec (Z.of_nat (length (it' :: outer))) (Z.of_nat max)) as [Hlt|_]; [cbn in Hlt; lia|done].
  - destruct (Z.ltb_spec (Z.of_nat (length (it' :: outer))) (Z.of_nat max)) as [_|Hlt]; [|cbn in Hlt; lia].
    assert (max - S (length (it' :: outer)) = d')%nat as <- by (cbn; lia).
    apply stack_cons; [done|done|cbn; lia].
Qed.

(** C21.  The recursive iterator yields the tree in preorder.  When all directories can be read, it ends, and yields the
    namespace it starts at and then each child with its descendants, down to the depth asked for. *)
Theorem recursive_yields_preorder ns :
  let s := {| lr_ns := ns; lr_max_depth := Z.of_nat max; lr_state := None |} in
  yields (ListNamespacesRecursive_next N read_ns) s (Ok <$> preorder max ns).
Proof using Hread.
  intros s. assert (forall out st, stack_left st out ->
    yields (ListNamespacesRecursive_next N read_ns) {| lr_ns := ns; lr_max_depth := Z.of_nat max; lr_state := Some st |}
      (Ok <$> out)) as Hst.
  { induction out as [|x out IH]; intros st Hl; apply levels_next_left in Hl as [st' Hl];
      [eapply yields_end|destruct Hl as [Hl ?]; eapply yields_next; [|by eapply IH]]; unfold ListNamespacesRecursive_next;
      cbn [lr_state lr_max_depth lr_ns]; by rewrite Hl. }
  assert (preorder max ns = ns :: match max with O => [] | S d => children ns ≫= preorder d end) as -> by by destruct max.
  eapply yields_next; [done|]. apply Hst. cbn [lr_max_depth s lr_ns]. destruct max as [|m] eqn:Em; [constructor|].
  assert (m = max - S (length (@nil ListNamespaces)))%nat as -> by (cbn; lia). rewrite <-(app_nil_r (_ ≫= _)).
  constructor; [done|constructor|cbn; lia].
Qed.
End namespaces.

(** The preorder of a tree of namespaces: the descendants to a depth, each once. *)
Section tree.
Context (children : namespace -> list namespace) (there : namespace -> Prop).
Hypothesis Hchildren : forall ns x, x ∈ children ns <-> there x /\ exists n, x = ns ++ [n].
Hypothesis Hclosed : forall ns n, there (ns ++ [n]) -> ns = [] \/ there ns.

Lemma there_prefix ns rest : there (ns ++ rest) -> ns = [] \/ there ns.
Proof using Hclosed.
  induction rest as [|n rest IH] using rev_ind; [rewrite app_nil_r; by right|].
  rewrite app_assoc. intros [?|?]%Hclosed; [left; by destruct ns|auto].
Qed.

Lemma preorder_elem d ns x :
  x ∈ preorder children d ns <->
  exists rest, x = ns ++ rest /\ (length rest <= d)%nat /\ (rest = [] \/ there x).
Proof using Hchildren Hclosed.
  revert ns. induction d as [|d IH]; intros ns; cbn [preorder].
  { rewrite list_elem_of_singleton. split.
    - intros ->. exists []. rewrite app_nil_r. auto.
    - intros ([|n rest] & -> & Hl & _); [apply app_nil_r|cbn in Hl; lia]. }
  rewrite elem_of_cons, list_elem_of_bind. split.
  - intros [->|(c & (rest & -> & Hl & Ht)%IH & (Hc & n & ->)%Hchildren)]; [exists []; rewrite app_nil_r; cbn; auto with lia|].
    exists (n :: rest). rewrite <-app_assoc. split_and!; [done|cbn; lia|]. right. destruct Ht as [->|Ht]; [done|].
    by rewrite <-app_assoc in Ht.
  - intros ([|n rest] & -> & Hl & Ht); [left; apply app_nil_r|]. right. destruct Ht as [|Ht]; [done|].
    exists (ns ++ [n]). rewrite IH, Hchildren. cbn in Hl.
    replace (ns ++ n :: rest) with ((ns ++ [n]) ++ rest) in * by (by rewrite <-app_assoc).
    split; [exists rest; auto with lia|]. split; [|by eexists].
    destruct (there_prefix _ _ Ht) as [?|?]; [by destruct ns|done].
Qed.

Lemma preorder_NoDup d ns : (forall ns, NoDup (children ns)) -> NoDup (preorder children d ns).
Proof using Hchildren Hclosed.
  intros Hnd. revert ns. induction d as [|d IH]; intros ns; cbn [preorder]; [apply NoDup_singleton|].
  constructor.
  - rewrite list_elem_of_bind. intros (c & (rest & E & _)%preorder_elem & (_ & n & ->)%Hchildren).
    apply (f_equal length) in E. rewrite !length_app in E. cbn in E. lia.
  - assert (forall c, c ∈ children ns -> exists n, c = ns ++ [n]) as Hsub by (by intros c [_ ?]%Hchildren).
    specialize (Hnd ns). induction Hnd as [|c cs Hc _ IHc]; [constructor|]. cbn [mbind list_bind].
    apply NoDup_app. split_and!; [apply IH| |apply IHc; intros ? ?; apply Hsub; by right].
    intros x (r1 & -> & _)%preorder_elem. rewrite list_elem_of_bind.
    intros (c' & (r2 & E & _)%preorder_elem & Hin). destruct (Hsub c) as [n ->]; [by left|].
    destruct (Hsub c') as [n' ->]; [by right|]. rewrite <-!app_assoc in E. simplify_list_eq. done.
Qed.
End tree.

(** An iterator that skips errors does not end when the directory of a namespace cannot be read: each call
    delivers the error once more, and there is no amount of calls after which an element or the end is reached. *)
Theorem unreadable_never_ends (N : NsLib) (read_ns : namespace -> ReadDir) ns err :
  read_ns ns = ReadFailed err ->
  forall fuel, ok_next (ListNamespaces_next N read_ns) fuel (ListNamespaces_new ns) = None.
Proof. intros E fuel. induction fuel as [|fuel IH]; [done|]. cbn. rewrite E. exact IH. Qed.

(** The same for the recursive one, once the namespace it starts at was delivered. *)
Theorem unreadable_recursive_never_ends (N : NsLib) (read_ns : namespace -> ReadDir) ns depth err :
  read_ns ns = ReadFailed err -> 0 < depth ->
  let s := {| lr_ns := ns; lr_max_depth := depth; lr_state := None |} in
  let '(r, s1) := ListNamespacesRecursive_next N read_ns s in
  r = Some (Ok ns) /\ forall fuel, ok_next (ListNamespacesRecursive_next N read_ns) fuel s1 = None.
Proof.
  intros E Hd. cbn. destruct (Z.ltb_spec 0 depth) as [_|?]; [|lia]. split; [done|].
  intros fuel. induction fuel as [|fuel IH]; [done|]. cbn. unfold ListNamespaces_next. cbn. rewrite E. exact IH.
Qed.
