(* ===== verification/GroupDir.v ===== *)
(** * Groups of snapshots in the file system, [pbs-datastore/src/backup_info.rs] and [datastore.rs]

    The directory of a group holds the file with its owner, maybe notes, and the snapshots by their times; each
    snapshot is a directory of files.  Snapshots are created and destroyed, and listed.  Only the file system
    backend is modelled; the outcomes of system calls and locks are arguments. *)

From S2P Require Import Prelude Manifest Hierarchy.
From Stdlib Require Import Strings.Byte.

Abbreviation dir := (gmap string (list byte)).
Definition PROTECTED_MARKER_FILENAME : string := ".protected".

Record GroupDir := { gd_owner : option string; gd_notes : option (list byte); gd_snaps : gmap Z dir }.
(** [None]: there is no directory. *)
Definition Group := option GroupDir.
Definition g_exists (g : Group) : bool := bool_decide (is_Some g).
Definition g_snaps (g : Group) : gmap Z dir := from_option gd_snaps ∅ g.
Definition set_snaps (snaps : gmap Z dir) (g : Group) : Group :=
  (fun gd => {| gd_owner := gd_owner gd; gd_notes := gd_notes gd; gd_snaps := snaps |}) <$> g.
Definition set_snap (time : Z) (d : dir) (g : Group) : Group := set_snaps (<[time := d]> (g_snaps g)) g.

Definition is_protected (d : dir) : bool := bool_decide (is_Some (d !! PROTECTED_MARKER_FILENAME)).
(** [BackupInfo::is_finished]. *)
Definition is_finished (d : dir) : bool := bool_decide (is_Some (d !! MANIFEST_BLOB_NAME)).

(** [create_locked_backup_dir]: the clock and outcomes of the calls. *)
Record CreateIo := { cd_now : Z; cd_skew : Z; cd_time_ok : bool; cd_create : bool; cd_lock : bool }.
Definition I64_MIN : Z := - 2 ^ 63.
Definition saturating_add (a b : Z) : Z := I64_MIN `max` (I64_MAX `min` (a + b)).
Definition create_locked_backup_dir (io : CreateIo) (time : Z) (g : Group) : res bool * Group :=
  if saturating_add (cd_now io) (cd_skew io) <? time
  then (Err "backup timestamp in the future, exceeding time skew", g) else
  if negb (cd_time_ok io) then (Err "invalid backup time", g) else
  match g_snaps g !! time with
  | Some _ => if negb (cd_lock io) then (Err "while creating locked snapshot", g) else (Ok false, g)
  | None =>
      if negb (g_exists g && cd_create io) then (Err "create_dir failed", g) else
      let g := set_snap time ∅ g in
      if negb (cd_lock io) then (Err "while creating new locked snapshot", g) else (Ok true, g)
  end.

(** [remove_group_dir]: the notes, the owner and then the directory, which has to be empty; files that are not
    there are no error. *)
Record RemoveGroupIo := { rg_notes : bool; rg_owner : bool; rg_dir : bool }.
Definition remove_group_dir (io : RemoveGroupIo) (g : Group) : res unit * Group :=
  match g with
  | None => (Err "removing group directory failed", None)
  | Some gd =>
      if bool_decide (is_Some (gd_notes gd)) && negb (rg_notes io) then (Err "removing the note file failed", g) else
      let gd := {| gd_owner := gd_owner gd; gd_notes := None; gd_snaps := gd_snaps gd |} in
      if bool_decide (is_Some (gd_owner gd)) && negb (rg_owner io)
      then (Err "removing the owner file failed", Some gd) else
      let gd := {| gd_owner := None; gd_notes := None; gd_snaps := gd_snaps gd |} in
      if bool_decide (gd_snaps gd = ∅) && rg_dir io then (Ok tt, None)
      else (Err "removing group directory failed", Some gd)
  end.

(** [BackupDir::destroy] with the file system backend.  [de_remove] is [None] when [remove_dir_all] succeeds, and
    else tells which files are left. *)
Record DestroyIo := {
  de_lock : bool; de_lock_manifest : bool; de_remove : option (string -> bool);
  de_group_lock : bool; de_list : bool; de_group : RemoveGroupIo;
}.
Definition destroy (io : DestroyIo) (old_locking force : bool) (time : Z) (g : Group) : res unit * Group :=
  if negb force && negb (de_lock io && de_lock_manifest io) then (Err "while destroying snapshot", g) else
  match g_snaps g !! time with
  | None => (Err "removing backup snapshot failed", g)
  | Some d =>
      if is_protected d then (Err "cannot remove protected snapshot", g) else
      match de_remove io with
      | Some kept =>
          (Err "removing backup snapshot failed", set_snap time (filter (fun f => kept f.1 = true) d) g)
      | None =>
          let g := set_snaps (delete time (g_snaps g)) g in
          if negb force && negb (de_group_lock io) then (Ok tt, g) else
          if negb (de_list io) then (Err "scandir failed", g) else
          if bool_decide (g_snaps g = ∅) && negb old_locking then remove_group_dir (de_group io) g
          else (Ok tt, g)
      end
  end.

(** [last_successful_backup] of the datastore and the group: the newest snapshot with a manifest. *)
Definition newest (times : list Z) : option Z :=
  match times with [] => None | t :: ts => Some (foldl Z.max t ts) end.
Definition finished_times (g : Group) : list Z :=
  fst <$> filter (fun s => is_finished s.2 = true) (map_to_list (g_snaps g)).
Definition last_successful_backup (scan : bool) (g : Group) : res (option Z) :=
  if g_exists g then if scan then Ok (newest (finished_times g)) else Err "scandir failed"
  else Ok None.
