(* ===== verification/GroupDirSpec.v ===== *)
(** * Properties of creating and destroying snapshots

    What creating, destroying and removing leave untouched. *)

From S2P Require Import Prelude Manifest Hierarchy GroupDir.

Lemma g_snaps_set snaps g : is_Some g -> g_snaps (set_snaps snaps g) = snaps.
Proof. by intros [gd ->]. Qed.
Lemma set_snap_ne time d g x : x <> time -> g_snaps (set_snap time d g) !! x = g_snaps g !! x.
Proof. intros Hx. destruct g as [gd|]; [|done]. cbn. by apply lookup_insert_ne. Qed.
Lemma set_snap_eq time d g : is_Some g -> g_snaps (set_snap time d g) !! time = Some d.
Proof. intros [gd ->]. cbn. apply lookup_insert_eq. Qed.
Lemma snap_exists g time d : g_snaps g !! time = Some d -> is_Some g.
Proof. by destruct g. Qed.

(** ** Creating and destroying snapshots *)
Lemma create_locked_spec io time g r g' :
  create_locked_backup_dir io time g = (r, g') ->
  (forall x, x <> time -> g_snaps g' !! x = g_snaps g !! x) /\
  (forall d, g_snaps g !! time = Some d -> g' = g /\ r <> Ok true) /\
  (g_snaps g !! time = None -> r <> Ok false /\ default ∅ (g_snaps g' !! time) = ∅) /\
  (is_ok r = true -> is_Some g').
Proof.
  unfold create_locked_backup_dir. intros E.
  assert (is_ok r = false -> g' = g ->
    (forall x, x <> time -> g_snaps g' !! x = g_snaps g !! x) /\
    (forall d, g_snaps g !! time = Some d -> g' = g /\ r <> Ok true) /\
    (g_snaps g !! time = None -> r <> Ok false /\ default ∅ (g_snaps g' !! time) = ∅) /\
    (is_ok r = true -> is_Some g')) as Hsame.
  { intros Hr ->. split_and!; [done| | |congruence]; [intros d Hd|intros Hd]; (split; [|try by rewrite Hd]); by destruct r. }
  destruct (_ <? time); [apply Hsame; by simplify_eq|].
  destruct (cd_time_ok io); cbn in E; [|apply Hsame; by simplify_eq].
  destruct (g_snaps g !! time) as [d|] eqn:Ed.
  { pose proof (snap_exists _ _ _ Ed). destruct (cd_lock io); cbn in E; simplify_eq; split_and!; naive_solver. }
  destruct (g_exists g && cd_create io) eqn:Eb; cbn in E; [|apply Hsame; by simplify_eq]. clear Hsame.
  apply andb_true_iff in Eb as [[gd ->]%bool_decide_eq_true _].
  destruct (cd_lock io); cbn in E; simplify_eq; cbn;
    (split_and!; [intros x Hx; by apply lookup_insert_ne|done| |by eexists]); intros; (split; [done|]);
    by rewrite lookup_insert_eq.
Qed.

Lemma remove_group_dir_snaps io g r g' :
  remove_group_dir io g = (r, g') -> g_snaps g' = g_snaps g /\ (g' = None -> g_snaps g = ∅).
Proof.
  unfold remove_group_dir. destruct g as [gd|]; [|by intros [= <- <-]].
  destruct (_ && _); [by intros [= <- <-]|]. cbn [gd_owner gd_snaps]. destruct (_ && _); [by intros [= <- <-]|].
  destruct (_ && _) eqn:Eb; [|by intros [= <- <-]]. apply andb_true_iff in Eb as [Eb%bool_decide_eq_true _].
  by intros [= <- <-].
Qed.

Lemma destroy_spec io old_locking force time g r g' :
  destroy io old_locking force time g = (r, g') ->
  (forall x, x <> time -> g_snaps g' !! x = g_snaps g !! x) /\
  (forall d, g_snaps g !! time = Some d -> is_protected d = true -> g' = g) /\
  (forall d', g_snaps g' !! time = Some d' -> exists d, g_snaps g !! time = Some d /\ d' ⊆ d) /\
  (de_remove io = None -> g' = g \/ g_snaps g' !! time = None).
Proof.
  assert (g' = g ->
    (forall x, x <> time -> g_snaps g' !! x = g_snaps g !! x) /\
    (forall d, g_snaps g !! time = Some d -> is_protected d = true -> g' = g) /\
    (forall d', g_snaps g' !! time = Some d' -> exists d, g_snaps g !! time = Some d /\ d' ⊆ d) /\
    (de_remove io = None -> g' = g \/ g_snaps g' !! time = None)) as Hsame by (intros ->; split_and!; eauto).
  unfold destroy. intros E. destruct (_ && _); [apply Hsame; by simplify_eq|].
  destruct (g_snaps g !! time) as [d|] eqn:Ed; [|apply Hsame; by simplify_eq].
  destruct (is_protected d) eqn:Ep; [apply Hsame; by simplify_eq|]. clear Hsame.
  pose proof (snap_exists _ _ _ Ed) as Hex.
  assert (forall d0, Some d = Some d0 -> is_protected d0 = true -> False) as Hp by (intros ? [= <-]; congruence).
  destruct (de_remove io) as [kept|] eqn:Er.
  - simplify_eq. split_and!; [intros x Hx; by rewrite set_snap_ne| |intros d'|done].
    + intros d0 H0 H1. destruct (Hp d0 H0 H1).
    + rewrite set_snap_eq by done. intros [= <-]. exists d. split; [done|]. apply map_filter_subseteq.
  - assert (g_snaps g' = delete time (g_snaps g)) as ->.
    { rewrite <-(g_snaps_set (delete time (g_snaps g)) g Hex). set (g1 := set_snaps _ g) in *.
      destruct (_ && _); [by simplify_eq|]. destruct (de_list io); cbn in E; [|by simplify_eq].
      destruct (_ && _); [by apply remove_group_dir_snaps in E as [-> _]|by simplify_eq]. }
    split_and!; [intros x Hx; by apply lookup_delete_ne|intros d0 H0 H3; destruct (Hp d0 H0 H3)| |].
    + intros d'. by rewrite lookup_delete_eq.
    + rewrite lookup_delete_eq. auto.
Qed.
