(* ===== verification/Pull.v ===== *)
(** * Pulling archives and snapshots, [src/server/pull.rs]

    A snapshot is pulled from a source into its directory in the datastore: the manifest first, into a temporary
    file, then every file that it lists and that is not there yet, each with its chunks, and at last the
    manifest is renamed, so that it is only there when all the rest is.  The source is the trait
    [SyncSourceReader] of [src/server/sync.rs], here a record of its operations with the class of what pulling
    relies on, and its two implementations.

    A directory maps the names of its files to their contents.  Outcomes of system calls, of the log channel and of
    requests are fields of records: one per call.  Chunks are pulled by the step relation of
    [PullChunks]; a function gives the outcome of the run of each index, and theorems assume that it is
    one of the relation.  The datastore has the file system backend. *)

From S2P Require Import Prelude Text IndexFile FixedIndex DynamicIndex DataBlob ChunkStore Manifest GarbageCollection VerifySnapshot GroupDir BlobReader PullChunks.
From Stdlib Require Import Strings.Byte Strings.Ascii.

Definition CLIENT_LOG_BLOB_NAME : string := "client.log.blob".

(** [Path::set_extension] on the last component: what follows its last dot is replaced, unless that is the
    first character or there is none. *)
Definition set_extension (name ext : string) : string :=
  let stem :=
    match rev (split "."%char name) with
    | _ :: rest =>
        if bool_decide (rest = []) || bool_decide (rest = [""]) then name
        else join "."%char (rev rest)
    | [] => name
    end in
  (stem +:+ "." +:+ ext)%string.

(** ** Sources, the trait [SyncSourceReader] *)
Record SourceReader := {
  (* the number of the call, the name, the file to write to *)
  load_file_into : nat -> string -> string -> dir -> res (option (list byte)) * dir;
  try_fetch_client_log : string -> option CryptConfig -> dir -> res unit * dir;
  skip_chunk_sync : bool;
}.

(** What pulling relies on: only the given file is written, or for the log a temporary one next to
    it, and a file that was loaded has the content that is returned. *)
Class SourceLaws (S : SourceReader) := {
  load_other k name into d r d' n :
    load_file_into S k name into d = (r, d') -> n <> into -> d' !! n = d !! n;
  load_data k name into d data d' :
    load_file_into S k name into d = (Ok (Some data), d') -> d' !! into = Some data;
  log_other to_path config d r d' n :
    try_fetch_client_log S to_path config d = (r, d') ->
    n <> to_path -> n <> set_extension to_path "tmp" -> d' !! n = d !! n;
}.

(** What a download delivers: all of the file, or a part of it. *)
Inductive Download := Got (data : list byte) | NotFound (part : list byte) | Failed (part : list byte).

Record LoadIo := { lo_open : bool; lo_download : Download; lo_rewind : bool }.
(** [RemoteSourceReader::load_file_into]. *)
Definition remote_load_file_into (io : LoadIo) (into : string) (d : dir) : res (option (list byte)) * dir :=
  if negb (lo_open io) then (Err "open failed", d) else
  match lo_download io with
  | NotFound part => (Ok None, <[into := part]> d)
  | Failed part => (Err "download failed", <[into := part]> d)
  | Got data =>
      let d := <[into := data]> d in
      if negb (lo_rewind io) then (Err "rewind failed", d) else (Ok (Some data), d)
  end.

(** [LocalSourceReader::load_file_into]: [read] fails or not, [write] stores a part of the data before it fails. *)
Record LocalIo := { li_open : bool; li_read : bool; li_write : option nat; li_rewind : bool }.
Definition local_load_file_into (source : dir) (io : LocalIo) (name into : string) (d : dir)
    : res (option (list byte)) * dir :=
  if negb (li_open io) then (Err "open failed", d) else
  let d := <[into := []]> d in
  match source !! name with
  | None => (Ok None, d)
  | Some data =>
      if negb (li_read io) then (Err "read failed", d) else
      match li_write io with
      | Some k => (Err "write failed", <[into := take k data]> d)
      | None =>
          let d := <[into := data]> d in
          if negb (li_rewind io) then (Err "rewind failed", d) else (Ok (Some data), d)
      end
  end.

(** Functions of other crates: key fingerprints as text, names of archives, and PBKDF2 as [CryptConfig::new] uses it. *)
Record PullLib := {
  parse_fingerprint : string -> res (list byte);
  archive_name_try_from : string -> res string;
  derive_id_key : list byte -> res (list byte);
}.

(** The outcomes of one call of [pull_index_chunks], from the map, the writer and the store. *)
Abbreviation chunk_run :=
  (EncounteredChunks -> option DecryptedIndexWriter -> store -> res SyncStats * PullState).

Section pull.
Variables (P : Prims) (J : JsonLib) (V : VerifyLib) (L : PullLib).

(** The rest of [decrypt_encrypted_data_blob], which replaces the target file atomically. *)
Definition decrypt_blob_into (sizes : nat -> Z * Z) (replaced : bool) (data : list byte)
    (config : CryptConfig) (target : string) (d : dir) : res (digest * Z) * dir :=
  try! (raw, csum, size) := decrypt_encrypted_data_blob P sizes data config for d in
  if negb replaced then (Err "replace_file failed", d)
  else (Ok (csum, size), <[target := raw]> d).

Record LogIo := {
  lg_open : bool; lg_download : Download; lg_sizes : nat -> Z * Z; lg_replaced : bool;
  lg_removed : bool; lg_renamed : bool; lg_log : res unit;
}.
(** [RemoteSourceReader::try_fetch_client_log]. *)
Definition remote_try_fetch_client_log (io : LogIo) (to_path : string) (config : option CryptConfig) (d : dir)
    : res unit * dir :=
  let tmp_path := set_extension to_path "tmp" in
  if negb (lg_open io) then (Err "open failed", d) else
  match lg_download io with
  | NotFound part | Failed part => (Ok tt, <[tmp_path := part]> d)
  | Got data =>
      let d := <[tmp_path := data]> d in
      let! _, d :=
        match config with
        | Some config =>
            let! _, d := decrypt_blob_into (lg_sizes io) (lg_replaced io) data config to_path d in
            if negb (lg_removed io) then (Err "Removing encrypted leftover tempfile failed", d)
            else (Ok tt, delete tmp_path d)
        | None =>
            if negb (lg_renamed io) then (Err "Atomic rename file failed", d)
            else (Ok tt, <[to_path := data]> (delete tmp_path d))
        end in
      (lg_log io, d)
  end.
Definition remote_reader (load : nat -> LoadIo) (log : LogIo) : SourceReader := {|
  load_file_into k _ into := remote_load_file_into (load k) into;
  try_fetch_client_log := remote_try_fetch_client_log log;
  skip_chunk_sync := false;
|}.

(** [LocalSourceReader::try_fetch_client_log]; the log is opened after the test that it exists. *)
Record LocalLogIo := {
  ll_open : bool; ll_load : LocalIo; ll_sizes : nat -> Z * Z; ll_replaced : bool; ll_log : res unit;
}.
Definition local_try_fetch_client_log (source : dir) (io : LocalLogIo) (to_path : string)
    (config : option CryptConfig) (d : dir) : res unit * dir :=
  match source !! CLIENT_LOG_BLOB_NAME with
  | None => (Ok tt, d)
  | Some data =>
      let! _, d :=
        match config with
        | Some config =>
            if negb (ll_open io) then (Err "open failed", d) else
            let! _, d := decrypt_blob_into (ll_sizes io) (ll_replaced io) data config to_path d in
            (Ok tt, d)
        | None =>
            let! _, d := local_load_file_into source (ll_load io) CLIENT_LOG_BLOB_NAME to_path d in
            (Ok tt, d)
        end in
      (ll_log io, d)
  end.
(** The name of the datastore decides about [skip_chunk_sync]. *)
Definition local_reader (source : dir) (source_store target_store : string) (load : nat -> LocalIo)
    (log : LocalLogIo) : SourceReader := {|
  load_file_into k := local_load_file_into source (load k);
  try_fetch_client_log := local_try_fetch_client_log source log;
  skip_chunk_sync := bool_decide (source_store = target_store);
|}.

(** ** Archives *)
Definition verify_archive (info : FileInfo) (csum : digest) (size : Z) : res unit :=
  if negb (size =? fi_size info) then Err "wrong size for file" else
  if negb (bool_decide (csum = fi_csum info)) then Err "wrong checksum for file" else Ok tt.

(** What pulling a snapshot changes: the files of its directory, the map of chunks, the chunk store, and the
    new manifest when it is decrypted. *)
Record Target := {
  t_dir : dir;
  t_enc : EncounteredChunks;
  t_store : store;
  t_manifest : option BackupManifest;
}.
Definition set_dir (d : dir) (t : Target) : Target :=
  {| t_dir := d; t_enc := t_enc t; t_store := t_store t; t_manifest := t_manifest t |}.
Definition set_chunks (s : PullState) (t : Target) : Target :=
  {| t_dir := t_dir t; t_enc := ps_enc s; t_store := ps_store s; t_manifest := t_manifest t |}.
Definition set_manifest (m : option BackupManifest) (t : Target) : Target :=
  {| t_dir := t_dir t; t_enc := t_enc t; t_store := t_store t; t_manifest := m |}.

Record ArchiveIo := {
  ai_call : nat; ai_log : res unit; ai_log_skip : res unit; ai_open : bool; ai_map : option Z;
  ai_ctime : Z; ai_uuid : list byte;
  ai_create_fixed : Writer.Io; ai_close_fixed : Writer.Io;
  ai_create_dynamic : DynWriter.Io; ai_close_dynamic : DynWriter.Io;
  ai_chunk_reader : res unit;
  ai_run_fixed : Reader.FixedIndexReader -> chunk_run;
  ai_run_dynamic : DynReader.DynamicIndexReader -> chunk_run;
  ai_rewind : bool; ai_sizes : nat -> Z * Z; ai_replaced : bool;
  ai_removed : bool; ai_renamed : bool;
}.

Definition add_to_decrypted_manifest (archive_name : string) (csum : digest) (size : Z) (t : Target)
    : res unit * Target :=
  match t_manifest t with
  | Some m =>
      try! name := archive_name_try_from L archive_name for t in
      (Ok tt, set_manifest (Some (manifest_add_file name size csum ModeNone m)) t)
  | None => (Ok tt, t)
  end.

(** [close] of the writer, which renames the index to the name that it was created for. *)
Definition dec_close (io : ArchiveIo) (w : DecryptedIndexWriter) (d : dir) : res digest * dir :=
  match w with
  | DecFixed w => let '(r, (_, d)) := Writer.close (ai_close_fixed io) (sha256 P) w d in (r, d)
  | DecDynamic w => let '(r, (_, d)) := DynWriter.close (ai_close_dynamic io) (sha256 P) w d in (r, d)
  end.

(** The part that the branches for dynamic and fixed indexes share, after the index was verified. *)
Definition pull_index (io : ArchiveIo) (skip : bool) (config : option CryptConfig)
    (create : res DecryptedIndexWriter) (run : chunk_run) (archive_name : string) (size : Z) (t : Target)
    : res SyncStats * Target :=
  if negb (bool_decide (is_Some config)) && skip then
    try! _ := ai_log_skip io for t in (Ok stats_default, t)
  else
    try! new_index_writer :=
      match config with Some _ => let? w := create in Ok (Some w) | None => Ok None end for t in
    try! _ := ai_chunk_reader io for t in
    let '(r, s) := run (t_enc t) new_index_writer (t_store t) in
    let t := set_chunks s t in
    try! stats := r for t in
    let! _, t :=
      match ps_writer s with
      | Some w =>
          let '(r, d) := dec_close io w (t_dir t) in
          let t := set_dir d t in
          try! csum := r for t in
          add_to_decrypted_manifest archive_name csum size t
      | None => (Ok tt, t)
      end in
    (Ok (stats_add stats_default stats), t).

(** [std::fs::rename]. *)
Definition rename (ok : bool) (from to : string) (d : dir) : res unit * dir :=
  if negb ok then (Err "Atomic rename file failed", d) else
  match d !! from with
  | None => (Err "Atomic rename file failed", d)
  | Some data => (Ok tt, <[to := data]> (delete from d))
  end.

(** The branches of [pull_single_archive] by the type of the archive, on the content of the temporary file. *)
Definition pull_content (S : SourceReader) (io : ArchiveIo) (info : FileInfo) (config : option CryptConfig)
    (data : list byte) (t : Target) : res SyncStats * Target :=
  let archive_name := fi_filename info in
  let tmp_dec_path := set_extension archive_name "tmpdec" in
  let file := {| f_regular := true; f_data := data |} in
  match name_archive_type V archive_name with
  | DynamicIndexT =>
      try! index := DynReader.new file (ai_map io) for t in
      try! (csum, size) := DynReader.compute_csum (sha256 P) index for t in
      try! _ := verify_archive info csum size for t in
      let create := let? w := DynWriter.create (ai_create_dynamic io) (ai_ctime io) (ai_uuid io)
                                tmp_dec_path (set_extension tmp_dec_path "tmp_didx") in
                    Ok (DecDynamic w) in
      pull_index io (skip_chunk_sync S) config create (ai_run_dynamic io index) archive_name size t
  | FixedIndexT =>
      try! index := Reader.new file (ai_map io) for t in
      try! (csum, size) := Reader.compute_csum (sha256 P) index for t in
      try! _ := verify_archive info csum size for t in
      let create := let? w := Writer.create (ai_create_fixed io) (ai_ctime io) (ai_uuid io)
                                tmp_dec_path (set_extension tmp_dec_path "tmp_fidx") (Some size)
                                (u32 (Reader.chunk_size index)) in
                    Ok (DecFixed w) in
      pull_index io (skip_chunk_sync S) config create (ai_run_fixed io index) archive_name size t
  | BlobT =>
      if negb (ai_rewind io) then (Err "rewind failed", t) else
      try! _ := verify_archive info (sha256 P data) (Z.of_nat (length data)) for t in
      match config with
      | Some config =>
          let '(r, d) := decrypt_blob_into (ai_sizes io) (ai_replaced io) data config tmp_dec_path (t_dir t) in
          let t := set_dir d t in
          try! (csum, size) := r for t in
          let! _, t := add_to_decrypted_manifest archive_name csum size t in
          (Ok stats_default, t)
      | None => (Ok stats_default, t)
      end
  end.

Definition pull_single_archive (S : SourceReader) (io : ArchiveIo) (info : FileInfo)
    (config : option CryptConfig) (t : Target) : res SyncStats * Target :=
  let archive_name := fi_filename info in
  let tmp_path := set_extension archive_name "tmp" in
  let tmp_dec_path := set_extension archive_name "tmpdec" in
  try! _ := ai_log io for t in
  let '(r, d) := load_file_into S (ai_call io) archive_name tmp_path (t_dir t) in
  let t := set_dir d t in
  try! loaded := r for t in
  match loaded with
  | None =>
      let d := if ai_removed io then delete tmp_path (t_dir t) else t_dir t in
      (Err "archive missing on source", set_dir d t)
  | Some _ =>
      try! data := (if ai_open io then from_option Ok (Err "open failed") (t_dir t !! tmp_path)
                    else Err "open failed") for t in
      let! sync_stats, t := pull_content S io info config data t in
      let! source_path, t :=
        match config with
        | Some _ =>
            if negb (ai_removed io) then (Err "Failed to remove temp. file", t)
            else (Ok tmp_dec_path, set_dir (delete tmp_path (t_dir t)) t)
        | None => (Ok tmp_path, t)
        end in
      let '(r, d) := rename (ai_renamed io) source_path archive_name (t_dir t) in
      let t := set_dir d t in
      try! _ := r for t in
      (Ok sync_stats, t)
  end.

(** ** Decryption keys *)
Definition crypt_config_new (key : list byte) : res CryptConfig :=
  let? id := derive_id_key L key in Ok {| id_key := id; enc_key := key |}.

Definition get_sync_source_signature (m : BackupManifest) : res (option (list byte)) :=
  let current := value_index (unprotected m) "sync-source-signature" in
  let legacy := value_index (unprotected m) "change-detection-fingerprint" in
  if negb (is_null current) then let? fp := fingerprint_of_value J current in Ok (Some fp)
  else if negb (is_null legacy) then let? fp := fingerprint_of_value J legacy in Ok (Some fp)
  else Ok None.
Definition set_sync_source_signature (sig : list byte) (m : BackupManifest) : res BackupManifest :=
  let? fp := fingerprint_to_value J sig in
  let? unprot := value_index_mut (unprotected m) "sync-source-signature" fp in
  Ok (with_unprotected m unprot).

Definition mode_is_encrypt (c : CryptModeT) : bool := match c with ModeEncrypt => true | _ => false end.
(** All files of a manifest are marked as encrypted. *)
Definition all_encrypted (m : BackupManifest) : bool :=
  forallb (fun f => mode_is_encrypt (chunk_crypt_mode f)) (m_files m).

Record PullParams := {
  verified_only : bool;
  encrypted_only : bool;
  resync_corrupt : bool;
  transfer_last : option Z;
  remove_vanished : bool;
  worker_threads : option Z;
  crypt_configs : list (string * CryptConfig);
}.

Definition ignore_not_verified_or_encrypted (p : PullParams) (m : BackupManifest) : bool :=
  let not_verified :=
    match manifest_verify_state V m with
    | Ok (Some s) => match sv_state s with VerifyOk => false | VerifyFailed => true end
    | _ => true
    end in
  (verified_only p && not_verified) || (encrypted_only p && negb (all_encrypted m)).

(** The case of a source without a key. *)
Definition check_unencrypted_source (existing : option BackupManifest) (m : BackupManifest) : res unit :=
  match existing with
  | Some existing =>
      let? fp := manifest_fingerprint J existing in
      match fp with
      | Some _ => Err "refusing to overwrite local encrypted snapshot from unencrypted source"
      | None =>
          let? dummy := crypt_config_new (replicate 32 x00) in
          let? a := signature J existing dummy in
          let? b := signature J m dummy in
          if negb (bool_decide (a = b)) then Err "refusing to overwrite local snapshot: content differs from source"
          else Ok tt
      end
  | None => Ok tt
  end.

(** A target that is there already must have what the source has. *)
Definition check_sync_source (config : CryptConfig) (existing m : BackupManifest) : res bool :=
  let? source_fp := get_sync_source_signature m in
  let? stored_source_fp := get_sync_source_signature existing in
  if negb (bool_decide (is_Some source_fp)) && negb (bool_decide (is_Some stored_source_fp))
  then Err "No sync-source-signature found, refuse to continue!" else
  let? skip1 :=
    match source_fp with
    | Some source_fp => let? target_fp := signature J existing config in Ok (bool_decide (target_fp = source_fp))
    | None => Ok false
    end in
  let? skip2 :=
    match stored_source_fp with
    | Some stored =>
        match m_signature m with
        | None => Err "No signature on source manifest."
        | Some current => let? current := parse_fingerprint L current in Ok (skip1 || bool_decide (current = stored))
        end
    | None => Ok skip1
    end in
  if negb skip2 then Err "sync-source-signature mismatch, refuse to continue!" else Ok true.

(** Outcomes of the three messages. *)
Record KeyIo := { ko_no_key : res unit; ko_not_full : res unit; ko_found : res unit }.

Definition optionally_use_decryption_key (io : KeyIo) (p : PullParams) (m : BackupManifest)
    (existing : option BackupManifest) : res (option CryptConfig * bool) :=
  let? key_fp := manifest_fingerprint J m in
  match key_fp with
  | None => let? _ := check_unencrypted_source existing m in Ok (None, false)
  | Some key_fp =>
      let encrypted := all_encrypted m in
      let? resync :=
        match existing with
        | Some existing =>
            let? fp := manifest_fingerprint J existing in
            match fp with
            | Some fp =>
                if bool_decide (fp = key_fp) then Ok (Bool.eqb encrypted (all_encrypted existing))
                else Err "Local encrypted or signed snapshot with different key detected, refuse to sync"
            | None => Ok false
            end
        | None => Ok false
        end in
      if resync then Ok (None, false) else
      match list_find (fun kc => fingerprint P kc.2 = key_fp) (crypt_configs p) with
      | None =>
          if encrypted && bool_decide (is_Some existing) then Err "No matching key found, refusing sync" else
          let? _ := if negb (bool_decide (crypt_configs p = [])) then ko_no_key io else Ok tt in
          Ok (None, false)
      | Some (_, (_, config)) =>
          if negb encrypted then let? _ := ko_not_full io in Ok (None, false) else
          let? _ := check_signature P J m config false in
          let? skip_resync :=
            match existing with Some existing => check_sync_source config existing m | None => Ok false end in
          let? _ := ko_found io in
          Ok (Some config, skip_resync)
      end
  end.

(** ** Snapshots *)
Record SnapshotIo := {
  so_log : res unit; so_log_vanished : res unit; so_log_unchanged : res unit; so_log_filtered : res unit;
  so_call : nat; so_tmp_removed : bool; so_local_read : bool;
  so_key : KeyIo;
  (* for each file of the manifest *)
  so_open : nat -> bool; so_map : nat -> option Z; so_log_changed : nat -> res unit;
  so_archive : nat -> ArchiveIo;
  (* writing a new manifest: opened, the part written before an error, flushed and synced *)
  so_open_manifest : bool; so_write : option nat; so_flush : bool; so_fsync : bool;
  so_renamed : bool;
  so_cleanup : bool; so_unlinked : string -> bool;
}.

(** [fetch_log] and [cleanup], closures of [pull_snapshot]. *)
Definition fetch_log (S : SourceReader) (config : option CryptConfig) (t : Target) : res unit * Target :=
  match t_dir t !! CLIENT_LOG_BLOB_NAME with
  | Some _ => (Ok tt, t)
  | None =>
      let '(r, d) := try_fetch_client_log S CLIENT_LOG_BLOB_NAME config (t_dir t) in
      (r, set_dir d t)
  end.
Definition TMP_MANIFEST : string := set_extension MANIFEST_BLOB_NAME "tmp".
Definition remove_tmp_manifest (io : SnapshotIo) (t : Target) : Target :=
  if so_tmp_removed io then set_dir (delete TMP_MANIFEST (t_dir t)) t else t.
Definition unchanged (S : SourceReader) (io : SnapshotIo) (config : option CryptConfig) (t : Target)
    : res (option SyncStats) * Target :=
  let! _, t := fetch_log S config t in
  try! _ := so_log_unchanged io for t in
  (Ok (Some stats_default), remove_tmp_manifest io t).

(** The manifest of a snapshot that is there, unless it is corrupt. *)
Definition existing_manifest (io : SnapshotIo) (corrupt : bool) (d : dir) : res (option DataBlob) :=
  match d !! MANIFEST_BLOB_NAME with
  | Some data =>
      if corrupt then Ok None else
      if negb (so_local_read io) then Err "unable to read local manifest" else
      let? blob := load_from_reader P (Ok data) in Ok (Some blob)
  | None => Ok None
  end.

(** Checksum and size of an archive file. *)
Definition archive_csum (opened : bool) (map_addr : option Z) (name : string) (data : list byte)
    : res (digest * Z) :=
  let file := if opened then Some {| f_regular := true; f_data := data |} else None in
  match name_archive_type V name with
  | DynamicIndexT => let? index := DynReader.open file map_addr in DynReader.compute_csum (sha256 P) index
  | FixedIndexT => let? index := Reader.open file map_addr in Reader.compute_csum (sha256 P) index
  | BlobT => if opened then Ok (sha256 P data, Z.of_nat (length data)) else Err "open failed"
  end.

(** Whether a file that is there can stay. *)
Definition file_unchanged (io : SnapshotIo) (i : nat) (corrupt : bool) (m : BackupManifest) (info : FileInfo)
    (d : dir) : res bool :=
  match d !! fi_filename info with
  | Some data =>
      if corrupt then Ok false else
      let? (csum, size) := archive_csum (so_open io i) (so_map io i) (fi_filename info) data in
      match verify_file m (fi_filename info) csum size with
      | Ok _ => Ok true
      | Err _ => let? _ := so_log_changed io i in Ok false
      | Panic e => Panic e
      end
  | None => Ok false
  end.

Fixpoint pull_files (S : SourceReader) (io : SnapshotIo) (corrupt : bool) (m : BackupManifest)
    (config : option CryptConfig) (i : nat) (files : list FileInfo) (stats : SyncStats) (t : Target)
    : res SyncStats * Target :=
  match files with
  | [] => (Ok stats, t)
  | item :: files =>
      try! keep := file_unchanged io i corrupt m item (t_dir t) for t in
      if keep then pull_files S io corrupt m config (Datatypes.S i) files stats t else
      let! s, t := pull_single_archive S (so_archive io i) item config t in
      pull_files S io corrupt m config (Datatypes.S i) files (stats_add stats s) t
  end.

(** The manifest of a decrypted snapshot: what is not protected is taken over, without what is about the
    encrypted one. *)
Definition finish_new_manifest (m new_manifest : BackupManifest) : res BackupManifest :=
  match unprotected m with
  | VObject fields =>
      let fields := field_remove fields "change-detection-fingerprint" in
      let fields := field_remove fields "sync-source-signature" in
      let fields := field_remove fields "key-fingerprint" in
      let fields := field_remove fields "verify_state" in
      let new_manifest := with_unprotected new_manifest (VObject fields) in
      match m_signature m with
      | Some expected =>
          let? expected := parse_fingerprint L expected in
          set_sync_source_signature expected new_manifest
      | None => Ok new_manifest
      end
  | _ => Err "Encountered unexpected manifest without 'unprotected' section."
  end.
Definition write_new_manifest (io : SnapshotIo) (m : BackupManifest) (t : Target) : res unit * Target :=
  match t_manifest t with
  | None => (Ok tt, t)
  | Some new_manifest =>
      try! new_manifest := finish_new_manifest m new_manifest for t in
      try! blob := to_data_blob P J new_manifest None for t in
      match (if so_open_manifest io then t_dir t !! TMP_MANIFEST else None) with
      | None => (Err "open failed", t)
      | Some _ =>
          match so_write io with
          | Some k => (Err "write failed", set_dir (<[TMP_MANIFEST := take k (raw_data blob)]> (t_dir t)) t)
          | None =>
              let t := set_dir (<[TMP_MANIFEST := raw_data blob]> (t_dir t)) t in
              if negb (so_flush io && so_fsync io) then (Err "sync failed", t) else (Ok tt, t)
          end
      end
  end.

(** [BackupDir::cleanup_unreferenced_files]; files that cannot be unlinked are left. *)
Definition wanted_files (m : BackupManifest) : list string :=
  MANIFEST_BLOB_NAME :: CLIENT_LOG_BLOB_NAME :: (fi_filename <$> m_files m).
Definition cleanup_unreferenced_files (listed : bool) (unlinked : string -> bool) (m : BackupManifest) (d : dir)
    : res unit * dir :=
  if negb listed then (Err "read_subdir failed", d)
  else (Ok tt, filter (fun f => f.1 ∈ wanted_files m \/ unlinked f.1 = false) d).

(** The part of [pull_snapshot] with a manifest that differs from the one that is there. *)
Definition pull_changed (S : SourceReader) (io : SnapshotIo) (corrupt : bool) (ty id : string) (time : Z)
    (m : BackupManifest) (config : option CryptConfig) (t : Target) : res (option SyncStats) * Target :=
  let t := set_manifest (match config with Some _ => Some (manifest_new ty id time) | None => None end) t in
  let! stats, t := pull_files S io corrupt m config 0 (m_files m) stats_default t in
  let! _, t := write_new_manifest io m t in
  let '(r, d) := rename (so_renamed io) TMP_MANIFEST MANIFEST_BLOB_NAME (t_dir t) in
  let t := set_dir d t in
  try! _ := r for t in
  let! _, t := fetch_log S config t in
  let '(r, d) := cleanup_unreferenced_files (so_cleanup io) (so_unlinked io) m (t_dir t) in
  let t := set_dir d t in
  try! _ := r for t in
  (Ok (Some stats), t).

Definition pull_snapshot (S : SourceReader) (io : SnapshotIo) (p : PullParams) (corrupt : bool)
    (ty id : string) (time : Z) (t : Target) : res (option SyncStats) * Target :=
  try! _ := so_log io for t in
  let '(r, d) := load_file_into S (so_call io) MANIFEST_BLOB_NAME TMP_MANIFEST (t_dir t) in
  let t := set_dir d t in
  try! loaded := r for t in
  match loaded with
  | None => let t := remove_tmp_manifest io t in try! _ := so_log_vanished io for t in (Ok None, t)
  | Some data =>
      try! tmp_manifest_blob := load_from_reader P (Ok data) for t in
      try! existing := existing_manifest io corrupt (t_dir t) for t in
      if bool_decide (raw_data <$> existing = Some (raw_data tmp_manifest_blob)) then unchanged S io None t else
      try! existing_target_manifest :=
        match existing with
        | Some blob => let? m := manifest_try_from P J blob in Ok (Some m)
        | None => Ok None
        end for t in
      try! manifest := manifest_try_from P J tmp_manifest_blob for t in
      if ignore_not_verified_or_encrypted p manifest then
        let t := remove_tmp_manifest io t in try! _ := so_log_filtered io for t in (Ok None, t)
      else
      try! (config, skip) := optionally_use_decryption_key (so_key io) p manifest existing_target_manifest for t in
      if (skip : bool) then unchanged S io config t
      else pull_changed S io corrupt ty id time manifest config t
  end.
End pull.
