(* ===== verification/PullSpec.v ===== *)
(** * Properties of pulling archives and snapshots

    Both sources keep to the interface.  A snapshot that is pulled is complete, for an arbitrary source and
    whatever fails, and its manifest only appears when all the rest is there.  Explicit runs show where the
    code departs from what it means to do. *)

From S2P Require Import Prelude Text IndexFile FixedIndex FixedIndexSpec DynamicIndex DynamicIndexSpec DataBlob DataBlobSpec ChunkStore ChunkStoreSpec Manifest GarbageCollection VerifySnapshot GroupDir BlobReader PullChunks PullChunksSpec Pull.
From Stdlib Require Import Strings.Byte.

(** ** The sources keep to the interface *)
Lemma decrypt_blob_into_other P sizes ok data config target d r d' n :
  decrypt_blob_into P sizes ok data config target d = (r, d') -> n <> target -> d' !! n = d !! n.
Proof.
  unfold decrypt_blob_into. intros E Hn. repeat case_match; simplify_eq; try done.
  by rewrite lookup_insert_ne.
Qed.

Lemma local_load_other source io name into d r d' n :
  local_load_file_into source io name into d = (r, d') -> n <> into -> d' !! n = d !! n.
Proof.
  unfold local_load_file_into. intros E Hn. repeat case_match; simplify_eq; try done;
    by rewrite !lookup_insert_ne.
Qed.

#[global] Instance remote_reader_laws P load log : SourceLaws (remote_reader P load log).
Proof.
  split; cbn.
  - unfold remote_load_file_into. intros k name into d r d' n E Hn. repeat case_match; simplify_eq; try done;
      by rewrite lookup_insert_ne.
  - unfold remote_load_file_into. intros k name into d data d' E. repeat case_match; simplify_eq.
    by rewrite lookup_insert_eq.
  - unfold remote_try_fetch_client_log. intros to_path config d r d' n E Hn1 Hn2.
    destruct (lg_open log); cbn in E; [|by simplify_eq].
    destruct (lg_download log) as [data|part|part]; [|simplify_eq; by rewrite lookup_insert_ne..].
    destruct config as [config|].
    + destruct (decrypt_blob_into _ _ _ _ _ _ _) as [r1 d1] eqn:E1.
      apply (decrypt_blob_into_other _ _ _ _ _ _ _ _ _ n) in E1; [|done]. rewrite lookup_insert_ne in E1 by done.
      repeat case_match; simplify_eq; rewrite ?lookup_delete_ne; done.
    + repeat case_match; simplify_eq; rewrite ?lookup_insert_ne, ?lookup_delete_ne, ?lookup_insert_ne; done.
Qed.

#[global] Instance local_reader_laws P source s1 s2 load log : SourceLaws (local_reader P source s1 s2 load log).
Proof.
  split; cbn.
  - intros k name into d r d' n E Hn. by eapply local_load_other.
  - unfold local_load_file_into. intros k name into d data d' E. repeat case_match; simplify_eq.
    by rewrite lookup_insert_eq.
  - unfold local_try_fetch_client_log. intros to_path config d r d' n E Hn1 Hn2.
    destruct (source !! _) as [data|]; [|by simplify_eq]. destruct config as [config|].
    + destruct (ll_open log); cbn in E; [|by simplify_eq].
      destruct (decrypt_blob_into _ _ _ _ _ _ _) as [r1 d1] eqn:E1.
      apply (decrypt_blob_into_other _ _ _ _ _ _ _ _ _ n) in E1; [|done].
      by repeat case_match; simplify_eq.
    + destruct (local_load_file_into _ _ _ _ _) as [r1 d1] eqn:E1.
      eapply local_load_other in E1; [|done]. by repeat case_match; simplify_eq.
Qed.

(** ** Indexes as contents of files *)
Definition file_of (data : list byte) : File := {| f_regular := true; f_data := data |}.
Definition infos {R} `{IndexFile R} (r : res R) : list ChunkReadInfo :=
  match r with Ok r => index_chunks r | _ => [] end.
(** The chunks that a file refers to. *)
Definition data_chunks (t : ArchiveType) (data : list byte) : list ChunkReadInfo :=
  match t with
  | DynamicIndexT => infos (DynReader.new (file_of data) (Some 0))
  | FixedIndexT => infos (Reader.new (file_of data) (Some 0))
  | BlobT => []
  end.

(** The address of the mapping does not matter. *)
Lemma map_read_addr size_H size_T align_T data addr m :
  size_H mod align_T = 0 -> map_read size_H 8 size_T align_T (file_of data) addr = Ok m ->
  map_read size_H 8 size_T align_T (file_of data) (Some 0) = Ok m.
Proof.
  intros Ha. unfold map_read. cbn [negb f_regular file_of f_data].
  repeat (let x := fresh in destruct (ok_or _ _) as [x| |]; [|done..]; cbn).
  intros E. case_match; [done|]. injection E as <-. cbn. by rewrite Z.add_0_l, Ha.
Qed.

Lemma fixed_new_addr data addr r : Reader.new (file_of data) addr = Ok r -> Reader.new (file_of data) (Some 0) = Ok r.
Proof.
  unfold Reader.new. destruct (map_read _ _ _ _ _ addr) as [m| |] eqn:E; [|done..].
  apply map_read_addr in E; [|done]. by rewrite E.
Qed.

Lemma dynamic_new_addr data addr r :
  DynReader.new (file_of data) addr = Ok r -> DynReader.new (file_of data) (Some 0) = Ok r.
Proof.
  unfold DynReader.new. destruct (map_read _ _ _ _ _ addr) as [m| |] eqn:E; [|done..].
  apply map_read_addr in E; [|done]. by rewrite E.
Qed.

Lemma data_chunks_length t data info : info ∈ data_chunks t data -> length (cri_digest info) = 32%nat.
Proof.
  destruct t; cbn; [| |set_solver]; unfold infos; intros Hin.
  - destruct (Reader.new _ _) as [r| |] eqn:En; [|set_solver..].
    apply list_elem_of_omap in Hin as (pos & Hpos%elem_of_seqZ & Hi).
    apply ReaderSpec.new_spec in En as (_ & _ & _ & _ & Hm & Hh & He & Hl).
    cbn in Hi, Hpos. unfold Reader.chunk_info, Reader.index_digest, mmap_index in Hi.
    rewrite Hh, He in Hi. destruct (_ && _) eqn:Eb; cbn in Hi; [|done]. injection Hi as <-. cbn.
    rewrite length_take, length_drop, Hm. zify_bool. unfold Reader.index_count in *. unfold HEADER_SIZE in *. lia.
  - destruct (DynReader.new _ _) as [r| |] eqn:En; [|set_solver..].
    apply list_elem_of_omap in Hin as (pos & Hpos%elem_of_seqZ & Hi). cbn in Hi, Hpos.
    unfold DynReader.new in En. inv_ok.
    match goal with Hr : map_read _ _ _ _ _ _ = Ok _ |- _ =>
      apply map_read_Ok_inv in Hr as (Hm & Hh & He & Hp & Hl); [|done..] end.
    unfold DynReader.chunk_info, DynReader.index_count, DynReader.index_len, DynReader.index_at, mmap_index in *.
    cbn [DynReader.mmap] in *. repeat case_match; simplify_eq; cbn.
    all: rewrite length_take, length_drop, length_take, length_drop; zify_bool.
    all: rewrite Hm, Hh, He; unfold DYN_HEADER_SIZE, DYN_ENTRY_SIZE in *; cbn [f_data file_of] in *; lia.
Qed.

Section pull_spec.
Context (P : Prims) (J : JsonLib) (V : VerifyLib) (L : PullLib) (X : Hex) `{HX : HexLaws X}.
Context (sync_file : bool) (cap : nat) (source_data : digest -> list byte -> Prop).
Context (S : SourceReader) `{HS : SourceLaws S}.
Implicit Types (t : Target) (d : dir) (info : FileInfo) (m : BackupManifest).

(** The outcomes of pulling chunks are those of a run. *)
Definition runs_valid (io : ArchiveIo) : Prop :=
  (forall index enc w st, pull_index_chunks P X sync_file cap source_data index enc w st
     (ai_run_fixed io index enc w st).1 (ai_run_fixed io index enc w st).2) /\
  (forall index enc w st, pull_index_chunks P X sync_file cap source_data index enc w st
     (ai_run_dynamic io index enc w st).1 (ai_run_dynamic io index enc w st).2).

(** ** Archives *)
Definition has_chunks (st : store) (name : string) (data : list byte) : Prop :=
  forall c : ChunkReadInfo, c ∈ data_chunks (name_archive_type V name) data -> present X st (cri_digest c).
(** The content has the checksum and the size of the manifest. *)
Definition intact info (data : list byte) : Prop :=
  archive_csum P V true (Some 0) (fi_filename info) data = Ok (fi_csum info, fi_size info).
Definition tmp_name info : string := set_extension (fi_filename info) "tmp".

Lemma has_chunks_added st st' name data : chunks_added P X st st' -> has_chunks st name data -> has_chunks st' name data.
Proof. intros Ha Hc i Hi. eapply chunks_added_present; [by eapply data_chunks_length|done|by apply Hc]. Qed.

Lemma verify_archive_ok info csum size :
  verify_archive info csum size = Ok tt -> csum = fi_csum info /\ size = fi_size info.
Proof. unfold verify_archive. destruct (Z.eqb_spec size (fi_size info)); [|done]. by case_bool_decide. Qed.

(** A call of [pull_index] without decryption, for an index whose run is valid. *)
Lemma pull_index_plain {R} `{IndexFile R} (index : R) (io : ArchiveIo) (create : res DecryptedIndexWriter)
    (run : chunk_run) (skip : bool) (name : string) (size : Z) t (r : res SyncStats) t' :
  (forall enc w st, pull_index_chunks P X sync_file cap source_data index enc w st (run enc w st).1 (run enc w st).2) ->
  enc_ok X (t_enc t) (t_store t) ->
  (skip = true -> forall c : ChunkReadInfo, c ∈ index_chunks index -> present X (t_store t) (cri_digest c)) ->
  (forall c : ChunkReadInfo, c ∈ index_chunks index -> length (cri_digest c) = 32%nat) ->
  pull_index P L io skip None create run name size t = (r, t') ->
  t_dir t' = t_dir t /\ t_manifest t' = t_manifest t /\ chunks_added P X (t_store t) (t_store t') /\
  (is_ok r = true -> enc_ok X (t_enc t') (t_store t') /\
     forall c : ChunkReadInfo, c ∈ index_chunks index -> present X (t_store t') (cri_digest c)).
Proof.
  intros Hrun He Hs Hl. unfold pull_index. destruct skip; cbn [negb bool_decide andb].
  { destruct (ai_log_skip io); intros [= <- <-]; (split_and!; [done|done|apply chunks_added_refl|]); [|done..].
    intros _. split; [done|by apply Hs]. }
  clear Hs. specialize (Hrun (t_enc t) None (t_store t)).
  destruct (ai_chunk_reader io); [|intros [= <- <-]; (split_and!; [done|done|apply chunks_added_refl|done])..].
  destruct (run (t_enc t) None (t_store t)) as [r1 s]. cbn [fst snd] in Hrun.
  pose proof (run_added _ _ _ _ _ _ _ _ _ _ _ He Hrun) as Ha.
  destruct r1 as [stats|e|e]; [|intros [= <- <-]; done..].
  destruct (plain_run_ok _ _ _ _ _ _ _ _ _ _ He Hrun) as (Hw & He' & Hm). cbn [ps_writer]. rewrite Hw.
  intros [= <- <-]. cbn. split_and!; [done..|]. intros _. split; [done|].
  intros c Hc. apply He'; [by apply Hl|left].
  apply list_elem_of_omap in Hc as (pos & Hpos%elem_of_seqZ & Hi). apply (Hm pos); [lia|done].
Qed.

(** What holds after an archive was processed without decryption, and what it was if that succeeded. *)
Definition chunks_kept t t' : Prop := t_manifest t' = t_manifest t /\ chunks_added P X (t_store t) (t_store t').

Lemma chunks_kept_refl t : chunks_kept t t.
Proof. split; [done|apply chunks_added_refl]. Qed.

Lemma chunks_kept_trans t1 t2 t3 : chunks_kept t1 t2 -> chunks_kept t2 t3 -> chunks_kept t1 t3.
Proof. intros [H1 H2] [H3 H4]. split; [congruence|by eapply chunks_added_trans]. Qed.

Lemma kept_set_dir d t : chunks_kept t (set_dir d t).
Proof. split; [done|apply chunks_added_refl]. Qed.
Lemma kept_then_dir d t t' : chunks_kept t t' -> chunks_kept t (set_dir d t').
Proof. done. Qed.

Ltac early := intros [= <- <-]; (split; [done|split; [apply chunks_kept_refl|done]]).

Lemma pull_content_plain io info data t r t' :
  runs_valid io -> (skip_chunk_sync S = true -> has_chunks (t_store t) (fi_filename info) data) -> enc_ok X (t_enc t) (t_store t) ->
  pull_content P V L S io info None data t = (r, t') ->
  t_dir t' = t_dir t /\ chunks_kept t t' /\
  (is_ok r = true -> enc_ok X (t_enc t') (t_store t') /\ intact info data /\
     has_chunks (t_store t') (fi_filename info) data).
Proof.
  intros [Hf Hd] Hskip He. unfold pull_content, intact, has_chunks, archive_csum in *.
  destruct (name_archive_type V (fi_filename info)) eqn:Et; fold (file_of data).
  - destruct (Reader.new (file_of data) (ai_map io)) as [index| |] eqn:En; [|early..].
    apply fixed_new_addr in En. cbn [Reader.open]. rewrite En.
    destruct (Reader.compute_csum _ index) as [[csum size]| |]; [|early..].
    destruct (verify_archive info csum size) as [[]| |] eqn:Ev; [|early..].
    apply verify_archive_ok in Ev as [-> ->].
    assert (data_chunks FixedIndexT data = index_chunks index) as Hch by (cbn; by rewrite En).
    pose proof (data_chunks_length FixedIndexT data) as Hlen. rewrite Hch in *.
    intros E. apply (pull_index_plain index) in E as (Hdir & Hm & Ha & Hok); [|by apply Hf|done..].
    split; [done|]. split; [done|]. intros Hr. destruct (Hok Hr) as [He' Hmk]. by split_and!.
  - destruct (DynReader.new (file_of data) (ai_map io)) as [index| |] eqn:En; [|early..].
    apply dynamic_new_addr in En. cbn [DynReader.open]. rewrite En.
    destruct (DynReader.compute_csum _ index) as [[csum size]| |]; [|early..].
    destruct (verify_archive info csum size) as [[]| |] eqn:Ev; [|early..].
    apply verify_archive_ok in Ev as [-> ->].
    assert (data_chunks DynamicIndexT data = index_chunks index) as Hch by (cbn; by rewrite En).
    pose proof (data_chunks_length DynamicIndexT data) as Hlen. rewrite Hch in *.
    intros E. apply (pull_index_plain index) in E as (Hdir & Hm & Ha & Hok); [|by apply Hd|done..].
    split; [done|]. split; [done|]. intros Hr. destruct (Hok Hr) as [He' Hmk]. by split_and!.
  - destruct (ai_rewind io); cbn [negb]; [|early].
    destruct (verify_archive info _ _) as [[]| |] eqn:Ev; [|early..]. apply verify_archive_ok in Ev as [<- <-].
    intros [= <- <-]. split; [done|]. split; [apply chunks_kept_refl|]. intros _. split_and!; [done|done|].
    cbn. set_solver.
Qed.

Lemma rename_cases ok from to d r d' :
  rename ok from to d = (r, d') ->
  (is_ok r = false /\ d' = d) \/ (r = Ok tt /\ exists data, d !! from = Some data /\ d' = <[to := data]> (delete from d)).
Proof. unfold rename. intros E. repeat case_match; simplify_eq; eauto. Qed.

(** [skip_chunk_sync] is set when source and target are the same datastore: then the chunks of what
    the source delivers are there. *)
Definition same_store t : Prop :=
  skip_chunk_sync S = true ->
  forall io name tmp d d' data, load_file_into S io name tmp d = (Ok (Some data), d') ->
    has_chunks (t_store t) name data.
Lemma same_store_kept t t' : chunks_added P X (t_store t) (t_store t') -> same_store t -> same_store t'.
Proof. intros Ha Hs Hk io name tmp d d' data E. eapply has_chunks_added; [done|by eapply Hs]. Qed.

(** An archive that was pulled has the content that the manifest says, with all its chunks; one that could not be pulled is
    as before. *)
Lemma pull_single_plain io info t r t' :
  runs_valid io -> same_store t -> enc_ok X (t_enc t) (t_store t) ->
  fi_filename info <> tmp_name info ->
  pull_single_archive P V L S io info None t = (r, t') ->
  chunks_kept t t' /\
  (forall n, n <> tmp_name info -> n <> fi_filename info -> t_dir t' !! n = t_dir t !! n) /\
  (is_ok r = false -> t_dir t' !! fi_filename info = t_dir t !! fi_filename info) /\
  (is_ok r = true -> enc_ok X (t_enc t') (t_store t') /\ exists data,
     t_dir t' !! fi_filename info = Some data /\ intact info data /\ has_chunks (t_store t') (fi_filename info) data).
Proof.
  intros Hv Hskip He Hne. unfold pull_single_archive. fold (tmp_name info).
  destruct (ai_log io); [|intros [= <- <-]; (split; [apply chunks_kept_refl|done])..].
  destruct (load_file_into S _ _ _ _) as [r1 d1] eqn:E1.
  pose proof (fun n => load_other _ _ _ _ _ _ n E1) as Ho.
  destruct r1 as [[data0|]|e|e]; [| |intros [= <- <-]; (split_and!; [apply kept_set_dir|auto|auto|done])..].
  2: { intros [= <- <-]. cbn. split_and!; [apply kept_then_dir, kept_set_dir| | |done].
    - intros n Hn1 Hn2. case_match; [rewrite lookup_delete_ne by done|]; auto.
    - intros _. case_match; [rewrite lookup_delete_ne by done|]; auto. }
  assert (skip_chunk_sync S = true -> has_chunks (t_store t) (fi_filename info) data0) as Hs
    by (intros Hk; by eapply Hskip).
  apply load_data in E1. cbn [t_dir set_dir]. rewrite E1.
  destruct (ai_open io); cbn [from_option]; [|intros [= <- <-]; (split_and!; [apply kept_set_dir|auto|auto|done])].
  destruct (pull_content _ _ _ _ _ _ _ _ _) as [r2 t2] eqn:E2.
  apply pull_content_plain in E2 as (Hd2 & Hk2 & Hok2); [|done..].
  assert (chunks_kept t t2) as Hk by (eapply chunks_kept_trans; [apply kept_set_dir|exact Hk2]).
  destruct r2 as [stats|e|e].
  2-3: intros [= <- <-]; cbn; rewrite ?Hd2; (split_and!; [apply Hk|auto|auto|done]).
  destruct (rename _ _ _ _) as [r3 d3] eqn:E3.
  apply rename_cases in E3 as [(Hr & ->)|(-> & data & Hdata & ->)]; rewrite ?Hd2 in *.
  - destruct r3; [done|intros [= <- <-]; cbn; (split_and!; [apply Hk|auto|auto|done])..].
  - cbn in Hdata. rewrite E1 in Hdata. injection Hdata as <-. intros [= <- <-]. cbn.
    destruct Hok2 as (He2 & Hi & Hc); [done|]. split_and!; [apply Hk| |done|].
    + intros n Hn1 Hn2. rewrite lookup_insert_ne, lookup_delete_ne by done. auto.
    + intros _. split; [done|]. exists data0. by rewrite lookup_insert_eq.
Qed.

(** ** The files of a manifest *)

(** Names that do not collide: each file once, and none with the name of a temporary file, of the manifest or
    of the log. *)
Definition reserved : list string :=
  [MANIFEST_BLOB_NAME; TMP_MANIFEST; CLIENT_LOG_BLOB_NAME; set_extension CLIENT_LOG_BLOB_NAME "tmp"].
Definition names_ok m : Prop :=
  NoDup (fi_filename <$> m_files m) /\
  Forall (fun n => n ∉ (fi_filename <$> m_files m) ++ reserved) (tmp_name <$> m_files m) /\
  Forall (fun n => n ∉ reserved) (fi_filename <$> m_files m).

Lemma verify_file_ok m info csum size :
  NoDup (fi_filename <$> m_files m) -> info ∈ m_files m ->
  verify_file m (fi_filename info) csum size = Ok tt -> csum = fi_csum info /\ size = fi_size info.
Proof.
  intros Hnd Hin. unfold verify_file, lookup_file_info.
  destruct (list_find _ _) as [[i info']|] eqn:Ef; [|done].
  apply list_find_Some in Ef as (Hi & Hn & _).
  apply list_elem_of_lookup in Hin as [j Hj].
  assert (i = j) as ->.
  { eapply NoDup_lookup; [exact Hnd|by rewrite list_lookup_fmap, Hi|]. by rewrite list_lookup_fmap, Hj; cbn; rewrite Hn. }
  simplify_eq. cbn. destruct (Z.eqb_spec size (fi_size info)); [|done]. by case_bool_decide.
Qed.

Lemma archive_csum_addr opened addr name data x :
  archive_csum P V opened addr name data = Ok x -> archive_csum P V true (Some 0) name data = Ok x.
Proof.
  unfold archive_csum. fold (file_of data). destruct opened; [|by destruct (name_archive_type V name)].
  destruct (name_archive_type V name); [| |done]; cbn.
  - destruct (Reader.new (file_of data) addr) as [r| |] eqn:E; [|done..]. apply fixed_new_addr in E. by rewrite E.
  - destruct (DynReader.new (file_of data) addr) as [r| |] eqn:E; [|done..]. apply dynamic_new_addr in E. by rewrite E.
Qed.

Lemma file_unchanged_ok io i corrupt m info d :
  NoDup (fi_filename <$> m_files m) -> info ∈ m_files m ->
  file_unchanged P V io i corrupt m info d = Ok true ->
  exists data, d !! fi_filename info = Some data /\ intact info data.
Proof.
  intros Hnd Hin. unfold file_unchanged. destruct (d !! _) as [data|]; [|done]. destruct corrupt; [done|].
  destruct (archive_csum _ _ _ _ _ _) as [[csum size]| |] eqn:Ea; [|done..]. apply archive_csum_addr in Ea.
  destruct (verify_file _ _ _ _) as [[]| |] eqn:Ev; [|by destruct (so_log_changed io i)|done].
  apply verify_file_ok in Ev as [-> ->]; [|done..]. intros _. by exists data.
Qed.

(** A file of the manifest that is there as it says, with its chunks. *)
Definition complete_file t info : Prop :=
  exists data, t_dir t !! fi_filename info = Some data /\ intact info data /\
    has_chunks (t_store t) (fi_filename info) data.

Lemma complete_file_kept t t' info :
  complete_file t info -> chunks_added P X (t_store t) (t_store t') ->
  t_dir t' !! fi_filename info = t_dir t !! fi_filename info -> complete_file t' info.
Proof.
  intros (data & Hd & Hi & Hc) Ha Hn. exists data. rewrite Hn. split_and!; [done..|]. by eapply has_chunks_added.
Qed.

(** The files that are there already have their chunks, as all index files of a datastore. *)
Definition referenced_chunks t (l : list FileInfo) : Prop :=
  forall info data, info ∈ l -> t_dir t !! fi_filename info = Some data ->
    has_chunks (t_store t) (fi_filename info) data.

Lemma pull_files_plain io corrupt m :
  (forall i, runs_valid (so_archive io i)) -> names_ok m ->
  forall l i stats t r t',
  same_store t ->
  l ⊆ m_files m -> NoDup (fi_filename <$> l) ->
  enc_ok X (t_enc t) (t_store t) -> referenced_chunks t l ->
  pull_files P V L S io corrupt m None i l stats t = (r, t') ->
  chunks_kept t t' /\
  (forall n, n ∉ fi_filename <$> l -> n ∉ tmp_name <$> l -> t_dir t' !! n = t_dir t !! n) /\
  (is_ok r = true -> Forall (complete_file t') l).
Proof.
  intros Hv (Hnd & Htmp & _).
  assert (forall a b, a ∈ m_files m -> b ∈ m_files m -> tmp_name a <> fi_filename b) as Ht.
  { intros a b Ha Hb Heq. rewrite Forall_forall in Htmp. apply (Htmp (tmp_name a)); [by apply list_elem_of_fmap_2|].
    rewrite Heq. apply elem_of_app. left. by apply list_elem_of_fmap_2. }
  induction l as [|info l IH]; intros i stats t r t' Hskip Hl Hnl He Href; cbn [pull_files].
  { intros [= <- <-]. split; [apply chunks_kept_refl|]. by split. }
  rewrite fmap_cons, NoDup_cons in Hnl. destruct Hnl as [Hnew Hnl].
  assert (info ∈ m_files m) as Hin by set_solver. assert (l ⊆ m_files m) as Hl' by set_solver.
  assert (fi_filename info ∉ tmp_name <$> l) as Hnt.
  { intros (b & Hb & Hbl)%list_elem_of_fmap. eapply (Ht b info); auto. }
  destruct (file_unchanged _ _ _ _ _ _ _ _) as [keep| |] eqn:Ek;
    [|intros [= <- <-]; (split; [apply chunks_kept_refl|done])..].
  destruct keep.
  - apply file_unchanged_ok in Ek as (data & Hd & Hi); [|done..]. intros E.
    destruct (IH _ _ _ _ _ Hskip Hl' Hnl He (fun _ _ H => Href _ _ (list_elem_of_further _ _ _ H)) E) as (Hk & Ho & Hok).
    split; [done|]. split; [intros n Hn1 Hn2; apply Ho; set_solver|]. intros Hr. constructor; [|by apply Hok].
    apply (complete_file_kept t); [|apply Hk|by apply Ho].
    exists data. split_and!; [done..|]. apply Href; [set_solver|done].
  - destruct (pull_single_archive _ _ _ _ _ _ _ _) as [r1 t1] eqn:E1.
    apply pull_single_plain in E1 as (Hk1 & Ho1 & _ & Hok1); [|done..|apply not_eq_sym; by apply Ht].
    destruct r1 as [s|e|e]; [|intros [= <- <-]; (split; [done|split; [|done]]); intros n Hn1 Hn2; apply Ho1; set_solver..].
    destruct Hok1 as (He1 & Hc1); [done|]. intros E.
    assert (referenced_chunks t1 l) as Href1.
    { intros info' data Hi' Hd'. rewrite Ho1 in Hd'.
      - eapply has_chunks_added; [apply Hk1|]. apply (Href info'); [set_solver|done].
      - apply not_eq_sym. by apply Ht; auto.
      - intros Heq. apply Hnew. rewrite <-Heq. by apply list_elem_of_fmap_2. }
    destruct (IH _ _ _ _ _ (same_store_kept _ _ (proj2 Hk1) Hskip) Hl' Hnl He1 Href1 E) as (Hk & Ho & Hok).
    split; [by eapply chunks_kept_trans|]. split.
    + intros n Hn1 Hn2. rewrite Ho by set_solver. apply Ho1; set_solver.
    + intros Hr. constructor; [|by apply Hok]. eapply complete_file_kept; [exact Hc1|apply Hk|by apply Ho].
Qed.

(** ** Snapshots *)
Definition manifest_of (raw : list byte) : res BackupManifest :=
  let? blob := load_from_reader P (Ok raw) in manifest_try_from P J blob.
(** A snapshot with a manifest and all the files that it lists. *)
Definition complete_snapshot t : Prop :=
  exists raw m, t_dir t !! MANIFEST_BLOB_NAME = Some raw /\ manifest_of raw = Ok m /\
    Forall (complete_file t) (m_files m).

Lemma fetch_log_spec config t r t' :
  fetch_log S config t = (r, t') ->
  chunks_kept t t' /\ forall n, n <> CLIENT_LOG_BLOB_NAME -> n <> set_extension CLIENT_LOG_BLOB_NAME "tmp" ->
    t_dir t' !! n = t_dir t !! n.
Proof.
  unfold fetch_log. destruct (t_dir t !! _); [intros [= <- <-]; by split; [apply chunks_kept_refl|]|].
  destruct (try_fetch_client_log _ _ _ _) as [r1 d1] eqn:E. intros [= <- <-]. split; [apply kept_set_dir|].
  intros n H1 H2. by eapply log_other.
Qed.

Lemma remove_tmp_spec io t :
  chunks_kept t (remove_tmp_manifest io t) /\
  forall n, n <> TMP_MANIFEST -> t_dir (remove_tmp_manifest io t) !! n = t_dir t !! n.
Proof.
  unfold remove_tmp_manifest. destruct (so_tmp_removed io); [|by split; [apply chunks_kept_refl|]].
  split; [apply kept_set_dir|]. intros n Hn. cbn. by rewrite lookup_delete_ne.
Qed.

Lemma unchanged_spec io config t r t' :
  unchanged S io config t = (r, t') ->
  chunks_kept t t' /\ t_dir t' !! MANIFEST_BLOB_NAME = t_dir t !! MANIFEST_BLOB_NAME.
Proof.
  unfold unchanged. destruct (fetch_log _ _ _) as [r1 t1] eqn:E1. apply fetch_log_spec in E1 as [Hk Ho].
  specialize (Ho MANIFEST_BLOB_NAME ltac:(done) ltac:(done)).
  destruct (remove_tmp_spec io t1) as [Hk2 Ho2]. specialize (Ho2 MANIFEST_BLOB_NAME ltac:(done)).
  destruct r1; [destruct (so_log_unchanged io)|..]; intros [= <- <-]; try done.
  split; [by eapply chunks_kept_trans|congruence].
Qed.

Lemma decision_no_keys io p m existing c skip :
  crypt_configs p = [] -> optionally_use_decryption_key P J L io p m existing = Ok (c, skip) ->
  c = None /\ skip = false.
Proof.
  intros Hp. unfold optionally_use_decryption_key. rewrite Hp. cbn. intros E.
  repeat (case_match; simplify_eq; try done).
Qed.

Lemma cleanup_spec listed unlinked m d r d' :
  cleanup_unreferenced_files listed unlinked m d = (r, d') ->
  forall n, n ∈ wanted_files m -> d' !! n = d !! n.
Proof.
  unfold cleanup_unreferenced_files. destruct listed; intros [= <- <-]; [|done]. intros n Hn.
  destruct (d !! n) as [data|] eqn:Ed.
  - apply map_lookup_filter_Some. split; [done|]. by left.
  - apply map_lookup_filter_None. by left.
Qed.

Definition complete_with t (raw : list byte) m : Prop :=
  t_dir t !! MANIFEST_BLOB_NAME = Some raw /\ manifest_of raw = Ok m /\ Forall (complete_file t) (m_files m).

Lemma complete_with_kept t t' raw m :
  complete_with t raw m -> chunks_added P X (t_store t) (t_store t') ->
  (forall n, n ∈ MANIFEST_BLOB_NAME :: (fi_filename <$> m_files m) -> t_dir t' !! n = t_dir t !! n) ->
  complete_with t' raw m.
Proof.
  intros (Hd & Hm & Hf) Ha Hn. split_and!; [rewrite Hn; [done|by left]|done|].
  rewrite Forall_forall in Hf |- *. intros info Hi. eapply complete_file_kept; [by apply Hf|done|].
  apply Hn. right. by apply list_elem_of_fmap_2.
Qed.

Lemma Forall_impl_elem {A} (Q Q' : A -> Prop) (l : list A) :
  Forall Q l -> (forall x, x ∈ l -> Q x -> Q' x) -> Forall Q' l.
Proof. rewrite !Forall_forall. eauto. Qed.

(** With a manifest that is new: the manifest stays what it was, or the snapshot is complete. *)
Lemma pull_changed_plain io corrupt ty id time m raw t r t' :
  (forall i, runs_valid (so_archive io i)) -> same_store t -> names_ok m ->
  enc_ok X (t_enc t) (t_store t) -> referenced_chunks t (m_files m) ->
  t_dir t !! TMP_MANIFEST = Some raw -> manifest_of raw = Ok m ->
  pull_changed P J V L S io corrupt ty id time m None t = (r, t') ->
  chunks_added P X (t_store t) (t_store t') /\
  ((is_ok r = false /\ t_dir t' !! MANIFEST_BLOB_NAME = t_dir t !! MANIFEST_BLOB_NAME) \/
   (complete_snapshot t' /\ r <> Ok None)).
Proof.
  intros Hv Hskip Hn He Href Htmp Hm. unfold pull_changed. pose proof Hn as (_ & _ & Hnr). rewrite Forall_forall in Hnr. set (t0 := set_manifest None t).
  destruct (pull_files _ _ _ _ _ _ _ _ _ _ _ _) as [r1 t1] eqn:E1.
  apply pull_files_plain in E1 as ([Hm1 Ha1] & Ho1 & Hok1); [|done..|apply Hn|done|done].
  destruct Hn as (Hnd & Ht & Hres). rewrite Forall_forall in Ht, Hres.
  assert (forall n, n ∈ reserved -> t_dir t1 !! n = t_dir t !! n) as Hr1.
  { intros n Hn. rewrite Ho1; [done|..].
    - intros Hin. by apply (Hres n).
    - intros Hin. apply (Ht n Hin). set_solver. }
  destruct r1 as [stats|e|e].
  2-3: intros [= <- <-]; (split; [done|]); left; (split; [done|]); apply Hr1; by left.
  cbn [write_new_manifest]. unfold write_new_manifest. rewrite Hm1. cbn [t_manifest t0 set_manifest].
  destruct (rename _ _ _ _) as [r2 d2] eqn:E2.
  apply rename_cases in E2 as [(Hr2 & ->)|(-> & data & Hd & ->)].
  { destruct r2; [done|intros [= <- <-]..]; (split; [done|]); left; (split; [done|]); apply Hr1; by left. }
  rewrite Hr1 in Hd by set_solver. rewrite Htmp in Hd. injection Hd as <-.
  set (t2 := set_dir _ t1). assert (complete_with t2 raw m) as Hc2.
  { split_and!; [cbn; apply lookup_insert_eq|done|]. eapply Forall_impl_elem; [by apply Hok1|].
    intros info Hi Hf. eapply (complete_file_kept t1); [done|apply chunks_added_refl|]. cbn.
    assert (fi_filename info ∉ reserved) as Hnot by (apply Hnr; by apply list_elem_of_fmap_2).
    rewrite lookup_insert_ne, lookup_delete_ne; [done|intros Heq..]; apply Hnot; rewrite <-Heq; unfold reserved; set_solver. }
  destruct (fetch_log _ _ _) as [r3 t3] eqn:E3. apply fetch_log_spec in E3 as [[_ Ha3] Ho3].
  assert (complete_with t3 raw m) as Hc3.
  { eapply complete_with_kept; [exact Hc2|done|]. intros n Hn. apply Ho3; intros ->.
    - apply elem_of_cons in Hn as [?|Hn]; [done|]. apply (Hnr _ Hn). set_solver.
    - apply elem_of_cons in Hn as [?|Hn]; [done|]. apply (Hnr _ Hn). set_solver. }
  assert (chunks_added P X (t_store t) (t_store t3)) as Ha by exact (chunks_added_trans P X _ _ _ Ha1 Ha3).
  destruct r3 as [[]|e|e]; [|intros [= <- <-]; (split; [done|right; split; [by exists raw, m|done]])..].
  destruct (cleanup_unreferenced_files _ _ _ _) as [r4 d4] eqn:E4.
  assert (complete_with (set_dir d4 t3) raw m) as Hc4.
  { eapply complete_with_kept; [exact Hc3|apply chunks_added_refl|]. intros n Hn. cbn.
    eapply cleanup_spec; [exact E4|]. unfold wanted_files. set_solver. }
  destruct r4 as [[]|e|e]; intros [= <- <-]; (split; [done|]); right; (split; [by exists raw, m|done]).
Qed.

Lemma load_from_reader_raw data blob : load_from_reader P (Ok data) = Ok blob -> raw_data blob = data.
Proof.
  unfold load_from_reader, from_raw_with_crc_check. destruct (from_raw data) as [b| |] eqn:E; [|done..].
  destruct (verify_crc P b); [|done..]. intros [= <-]. by apply BlobSpec.from_raw_inv in E as (-> & _).
Qed.

(** How pulling a snapshot may end, with [source] being the manifest of the source. *)
Definition pull_outcome t (source : list byte -> Prop) (r : res (option SyncStats)) t' : Prop :=
  chunks_added P X (t_store t) (t_store t') /\
  (t_dir t' !! MANIFEST_BLOB_NAME = t_dir t !! MANIFEST_BLOB_NAME \/ complete_snapshot t') /\
  forall stats, r = Ok (Some stats) ->
    complete_snapshot t' \/
    exists data, source data /\ t_dir t' !! MANIFEST_BLOB_NAME = Some data /\ t_dir t !! MANIFEST_BLOB_NAME = Some data.

Lemma outcome_same t source r t' :
  chunks_kept t t' -> t_dir t' !! MANIFEST_BLOB_NAME = t_dir t !! MANIFEST_BLOB_NAME ->
  (forall stats, r <> Ok (Some stats)) -> pull_outcome t source r t'.
Proof. intros [_ Ha] Hm Hr. split_and!; [done|by left|]. intros stats ->. by destruct (Hr stats). Qed.

Lemma outcome_unchanged io config (source : list byte -> Prop) t t1 r t' data :
  chunks_kept t t1 -> t_dir t1 !! MANIFEST_BLOB_NAME = t_dir t !! MANIFEST_BLOB_NAME ->
  t_dir t !! MANIFEST_BLOB_NAME = Some data -> source data ->
  unchanged S io config t1 = (r, t') -> pull_outcome t source r t'.
Proof.
  intros Hk Hm Hd Hs [[_ Ha] Hm']%unchanged_spec. split_and!.
  - eapply chunks_added_trans; [apply Hk|done].
  - left. congruence.
  - intros stats _. right. exists data. split_and!; [done|congruence|done].
Qed.

Lemma outcome_changed io corrupt ty id time m (source : list byte -> Prop) t d1 raw r t' :
  (forall i, runs_valid (so_archive io i)) -> same_store t -> names_ok m ->
  enc_ok X (t_enc t) (t_store t) -> referenced_chunks t (m_files m) ->
  (forall n, n <> TMP_MANIFEST -> d1 !! n = t_dir t !! n) -> d1 !! TMP_MANIFEST = Some raw -> manifest_of raw = Ok m ->
  pull_changed P J V L S io corrupt ty id time m None (set_dir d1 t) = (r, t') -> pull_outcome t source r t'.
Proof.
  intros Hv Hskip Hn He Href Ho Htmp Hm E.
  apply (pull_changed_plain _ _ _ _ _ _ raw) in E as (Ha & Hc); try done.
  - split; [done|]. destruct Hc as [[Hr Hsame]|[Hc Hr]].
    + split; [left; by rewrite Hsame; apply Ho|]. by intros stats ->.
    + split; [by right|]. intros stats _. by left.
  - intros info data Hi Hd. cbn in Hd. rewrite Ho in Hd; [by apply Href|].
    destruct Hn as (_ & _ & Hres). rewrite Forall_forall in Hres. intros Heq.
    apply (Hres (fi_filename info)); [by apply list_elem_of_fmap_2|]. rewrite Heq. unfold reserved. set_solver.
Qed.

Lemma pull_snapshot_outcome io p corrupt ty id time t r t' :
  (forall i, runs_valid (so_archive io i)) -> same_store t -> crypt_configs p = [] ->
  enc_ok X (t_enc t) (t_store t) ->
  (forall data d m, load_file_into S (so_call io) MANIFEST_BLOB_NAME TMP_MANIFEST (t_dir t) = (Ok (Some data), d) ->
     manifest_of data = Ok m -> names_ok m /\ referenced_chunks t (m_files m)) ->
  pull_snapshot P J V L S io p corrupt ty id time t = (r, t') ->
  pull_outcome t
    (fun data => exists d, load_file_into S (so_call io) MANIFEST_BLOB_NAME TMP_MANIFEST (t_dir t) = (Ok (Some data), d))
    r t'.
Proof.
  intros Hv Hskip Hkeys He Hnames. unfold pull_snapshot.
  destruct (so_log io); [|intros [= <- <-]; by apply outcome_same; [apply chunks_kept_refl|..]..].
  destruct (load_file_into S _ _ _ _) as [r1 d1] eqn:E1.
  pose proof (fun n => load_other _ _ _ _ _ _ n E1) as Ho. pose proof (Ho MANIFEST_BLOB_NAME ltac:(done)) as Hold.
  destruct r1 as [[data|]|e|e]; [| |intros [= <- <-]; by apply outcome_same; [apply kept_set_dir|..]..].
  2: { destruct (remove_tmp_spec io (set_dir d1 t)) as [Hk Hd]. specialize (Hd MANIFEST_BLOB_NAME ltac:(done)).
    destruct (so_log_vanished io); intros [= <- <-]; (apply outcome_same; [exact Hk|by rewrite Hd|done]). }
  destruct (load_from_reader P (Ok data)) as [blob| |] eqn:El;
    [|intros [= <- <-]; by apply outcome_same; [apply kept_set_dir|..]..].
  pose proof (load_from_reader_raw _ _ El) as Hraw.
  destruct (existing_manifest _ _ _ _) as [existing| |] eqn:Ee;
    [|intros [= <- <-]; by apply outcome_same; [apply kept_set_dir|..]..].
  case_bool_decide as Heq.
  { apply (outcome_unchanged _ _ _ _ _ _ _ data); [apply kept_set_dir|exact Hold| |by eauto]. revert Ee. unfold existing_manifest. cbn [t_dir set_dir]. rewrite Hold.
    destruct (t_dir t !! MANIFEST_BLOB_NAME) as [old|]; [|by intros [= <-]]. destruct corrupt; [by intros [= <-]|].
    destruct (so_local_read io); [|done]. cbn [negb].
    destruct (load_from_reader P (Ok old)) as [b| |] eqn:Eb; [|done..]. intros [= <-].
    apply load_from_reader_raw in Eb. cbn in Heq. congruence. }
  destruct (match existing with Some _ => _ | None => _ end) as [etm| |];
    [|intros [= <- <-]; by apply outcome_same; [apply kept_set_dir|..]..].
  destruct (manifest_try_from P J blob) as [m| |] eqn:Em;
    [|intros [= <- <-]; by apply outcome_same; [apply kept_set_dir|..]..].
  destruct (ignore_not_verified_or_encrypted V p m).
  { destruct (remove_tmp_spec io (set_dir d1 t)) as [Hk Hd]. specialize (Hd MANIFEST_BLOB_NAME ltac:(done)).
    destruct (so_log_filtered io); intros [= <- <-]; (apply outcome_same; [exact Hk|by rewrite Hd|done]). }
  destruct (optionally_use_decryption_key _ _ _ _ _ _ _) as [[config skip]| |] eqn:Ek;
    [|intros [= <- <-]; by apply outcome_same; [apply kept_set_dir|..]..].
  apply decision_no_keys in Ek as [-> ->]; [|done].
  assert (manifest_of data = Ok m) as Hm by (unfold manifest_of; by rewrite El).
  destruct (Hnames data d1 m eq_refl Hm) as [Hn Href].
  apply (outcome_changed _ _ _ _ _ _ _ _ _ data); try done. by eapply load_data.
Qed.

(** C12.  The manifest is pulled last.  Let no decryption keys be configured, and let any call of the pull
    fail or not.  Assumed is: in the manifest that the source delivers no file is listed twice or has the name
    of a temporary file, of the manifest or of the log; files that the target has already under the names in that
    manifest have all their chunks in the store, and so has what the source delivers if it is the same
    datastore; what the map of encountered chunks promises is in the store.  Then no chunk is
    lost, and the snapshot either has the manifest that it had before or none, or it is complete, with every
    file that the manifest lists as it says and with all of its chunks.  If the pull succeeds it is
    complete, or it had the manifest of the source already. *)
Theorem pull_snapshot_atomic io p corrupt ty id time t r t' :
  (forall i, runs_valid (so_archive io i)) -> same_store t -> crypt_configs p = [] ->
  enc_ok X (t_enc t) (t_store t) ->
  (forall data d m, load_file_into S (so_call io) MANIFEST_BLOB_NAME TMP_MANIFEST (t_dir t) = (Ok (Some data), d) ->
     manifest_of data = Ok m -> names_ok m /\ referenced_chunks t (m_files m)) ->
  pull_snapshot P J V L S io p corrupt ty id time t = (r, t') ->
  pull_outcome t
    (fun data => exists d, load_file_into S (so_call io) MANIFEST_BLOB_NAME TMP_MANIFEST (t_dir t) = (Ok (Some data), d))
    r t'.
Proof. apply pull_snapshot_outcome. Qed.
End pull_spec.

(** ** Keys *)
Section keys.
Context (P : Prims) (J : JsonLib) (L : PullLib).

Lemma check_sync_source_true config existing m b : check_sync_source J L config existing m = Ok b -> b = true.
Proof. unfold check_sync_source. intros E. repeat (case_match; simplify_eq; try done). Qed.

Lemma check_unencrypted_ok e m :
  check_unencrypted_source J L (Some e) m = Ok tt ->
  manifest_fingerprint J e = Ok None /\
  exists dummy sig, crypt_config_new L (replicate 32 x00) = Ok dummy /\
    signature J e dummy = Ok sig /\ signature J m dummy = Ok sig.
Proof.
  unfold check_unencrypted_source. destruct (manifest_fingerprint J e) as [[fp|]| |]; [done| |done..].
  destruct (crypt_config_new L _) as [dummy| |]; [|done..].
  destruct (signature J e dummy) as [a| |] eqn:Ea; [|done..]. destruct (signature J m dummy) as [b| |] eqn:Eb; [|done..].
  case_bool_decide as Hab; [|done]. subst b. intros _. split; [done|]. by exists dummy, a.
Qed.

Lemma key_decision io p m existing config skip :
  optionally_use_decryption_key P J L io p m existing = Ok (config, skip) ->
  match config with
  | Some c =>
      c ∈ (crypt_configs p).*2 /\ manifest_fingerprint J m = Ok (Some (fingerprint P c)) /\
      all_encrypted m = true /\ check_signature P J m c false = Ok tt /\
      skip = bool_decide (is_Some existing)
  | None =>
      skip = false /\
      forall e, existing = Some e ->
        (manifest_fingerprint J m = Ok None /\ manifest_fingerprint J e = Ok None /\
           exists dummy sig, crypt_config_new L (replicate 32 x00) = Ok dummy /\
             signature J e dummy = Ok sig /\ signature J m dummy = Ok sig) \/
        (exists fp, manifest_fingerprint J m = Ok (Some fp) /\ manifest_fingerprint J e = Ok (Some fp) /\
           all_encrypted m = all_encrypted e) \/
        (exists fp, manifest_fingerprint J m = Ok (Some fp) /\ all_encrypted m = false)
  end.
Proof.
  unfold optionally_use_decryption_key. destruct (manifest_fingerprint J m) as [[fp|]| |] eqn:Em; [| |done..].
  2: { destruct (check_unencrypted_source J L existing m) as [[]| |] eqn:Ec; [|done..]. intros [= <- <-].
    split; [done|]. intros e ->. left. split; [done|]. by apply check_unencrypted_ok. }
  set (resync := match existing with Some _ => _ | None => _ end).
  destruct resync as [b| |] eqn:Er; [|done..]. destruct b.
  { intros [= <- <-]. split; [done|]. intros e ->. right. left. exists fp. split; [done|]. revert Er. unfold resync.
    destruct (manifest_fingerprint J e) as [[fp'|]| |]; [|done..]. case_bool_decide; [subst|done].
    intros [= Hb]. split; [done|]. by apply Bool.eqb_prop. }
  clear Er resync. destruct (list_find _ _) as [[i [kid c]]|] eqn:Ef.
  - apply list_find_Some in Ef as (Hi & Hfp & _). cbn in Hfp.
    destruct (all_encrypted m) eqn:Eall; cbn [negb].
    2: { destruct (ko_not_full io); [|done..]. intros [= <- <-]. split; [done|]. intros e _. right. right. by exists fp. }
    destruct (check_signature P J m c false) as [[]| |] eqn:Es; [|done..].
    destruct existing as [e|].
    + destruct (check_sync_source J L c e m) as [b| |] eqn:Eb; [|done..]. apply check_sync_source_true in Eb as ->.
      destruct (ko_found io); [|done..]. intros [= <- <-]. rewrite <-Hfp. split_and!; try done.
      apply list_elem_of_fmap. exists (kid, c). split; [done|]. by eapply list_elem_of_lookup_2.
    + destruct (ko_found io); [|done..]. intros [= <- <-]. rewrite <-Hfp. split_and!; try done.
      apply list_elem_of_fmap. exists (kid, c). split; [done|]. by eapply list_elem_of_lookup_2.
  - destruct (all_encrypted m) eqn:Eall; cbn [andb].
    + case_bool_decide as He; [done|]. destruct (negb _); [destruct (ko_no_key io); [|done..]|];
        intros [= <- <-]; (split; [done|]); intros e ->; by destruct He.
    + destruct (negb _); [destruct (ko_no_key io); [|done..]|]; intros [= <- <-]; (split; [done|]);
        intros e _; right; right; by exists fp.
Qed.

(** The manifest that [pull_snapshot] compares with: that of the target, unless it is synced again as
    corrupt. *)
Lemma existing_cases io corrupt d old existing :
  existing_manifest P io corrupt d = Ok old ->
  match old with Some blob => let? m := manifest_try_from P J blob in Ok (Some m) | None => Ok None end = Ok existing ->
  bool_decide (is_Some existing) = bool_decide (is_Some (d !! MANIFEST_BLOB_NAME)) && negb corrupt /\
  forall data, corrupt = false -> d !! MANIFEST_BLOB_NAME = Some data ->
    exists e, existing = Some e /\ manifest_of P J data = Ok e.
Proof.
  unfold existing_manifest, manifest_of. destruct (d !! MANIFEST_BLOB_NAME) as [data|]; [|intros [= <-] [= <-]; by split].
  destruct corrupt; [intros [= <-] [= <-]; by split|]. destruct (so_local_read io); [|done]. cbn [negb].
  destruct (load_from_reader P (Ok data)) as [blob| |] eqn:El; [|done..]. intros [= <-].
  destruct (manifest_try_from P J blob) as [e| |] eqn:Em; [|done..]. intros [= <-]. split; [done|].
  intros data' _ [= <-]. exists e. by rewrite El.
Qed.

(** C15.  A key is only used on what it belongs to.  Let [d] be the directory of the snapshot on the target, and
    let [corrupt] tell that it is synced again because verification found it corrupt, in which case its manifest
    is not looked at.  When a snapshot is to be decrypted, the key is one that was configured, its fingerprint
    is that of the manifest of the source, all files are encrypted and the signature of the manifest is valid; and
    nothing is pulled if the target has a manifest, unless it is synced again as corrupt.  When a manifest on
    the target that is not corrupt is to be replaced without decryption, then both are
    unencrypted with the same content, or both have the same key and are both encrypted or both not, or the
    source has a key and is not fully encrypted. *)
Theorem decryption_decision io key_io p corrupt d m old existing config skip :
  existing_manifest P io corrupt d = Ok old ->
  match old with Some blob => let? m := manifest_try_from P J blob in Ok (Some m) | None => Ok None end = Ok existing ->
  optionally_use_decryption_key P J L key_io p m existing = Ok (config, skip) ->
  match config with
  | Some c =>
      c ∈ (crypt_configs p).*2 /\ manifest_fingerprint J m = Ok (Some (fingerprint P c)) /\
      all_encrypted m = true /\ check_signature P J m c false = Ok tt /\
      skip = bool_decide (is_Some (d !! MANIFEST_BLOB_NAME)) && negb corrupt
  | None =>
      skip = false /\
      forall data, corrupt = false -> d !! MANIFEST_BLOB_NAME = Some data ->
        exists e, manifest_of P J data = Ok e /\
        ((manifest_fingerprint J m = Ok None /\ manifest_fingerprint J e = Ok None /\
            exists dummy sig, crypt_config_new L (replicate 32 x00) = Ok dummy /\
              signature J e dummy = Ok sig /\ signature J m dummy = Ok sig) \/
         (exists fp, manifest_fingerprint J m = Ok (Some fp) /\ manifest_fingerprint J e = Ok (Some fp) /\
            all_encrypted m = all_encrypted e) \/
         (exists fp, manifest_fingerprint J m = Ok (Some fp) /\ all_encrypted m = false))
  end.
Proof.
  intros E1 E2 E3%key_decision. destruct (existing_cases _ _ _ _ _ E1 E2) as [Hs He].
  destruct config; [rewrite <- Hs; exact E3|]. destruct E3 as [-> Hc]. split; [done|].
  intros data Hk Hd. destruct (He data Hk Hd) as (e & -> & Hm). exists e. split; [done|by apply Hc].
Qed.
End keys.
