(* ===== verification/PullGroup.v ===== *)
(** * Pulling groups, [src/server/pull.rs]

    The snapshots of a group that the source lists are filtered, selected and pulled one after the other into
    the group of the datastore; snapshots that are not on the source any more may be removed. *)

From S2P Require Import Prelude IndexFile FixedIndex DynamicIndex DataBlob ChunkStore Manifest GarbageCollection VerifySnapshot GroupDir BlobReader PullChunks Pull.
From Stdlib Require Import Strings.Byte.

(** ** What the source lists: [SnapshotListItem] with the content of the snapshot *)
Record SnapshotListItem := {
  it_time : Z;
  it_size : option Z;
  it_verification : option VerifyStateT;
  it_files : list (string * option CryptModeT);
}.

Fixpoint filter_out_in_progress (log : nat -> res unit) (snapshots : list SnapshotListItem)
    : res (list SnapshotListItem) :=
  match snapshots with
  | [] => Ok []
  | item :: snapshots =>
      match it_size item with
      | None => let? _ := log (length snapshots) in filter_out_in_progress log snapshots
      | Some _ => let? rest := filter_out_in_progress log snapshots in Ok (item :: rest)
      end
  end.

Definition exclude_not_verified_or_encrypted (p : PullParams) (item : SnapshotListItem) : bool :=
  let verified := match it_verification item with Some VerifyOk => true | _ => false end in
  let encrypted :=
    forallb (fun '(name, mode) =>
      if bool_decide (name = MANIFEST_BLOB_NAME) then
        match mode with Some ModeSignOnly => true | _ => false end
      else if bool_decide (name = CLIENT_LOG_BLOB_NAME) then true
      else match mode with Some ModeEncrypt => true | _ => false end) (it_files item) in
  (verified_only p && negb verified) || (encrypted_only p && negb encrypted).

(** ** Skipped snapshots *)
Record SkipInfo := { si_oldest : Z; si_newest : Z; si_count : Z }.
Definition skip_new : SkipInfo := {| si_oldest := I64_MAX; si_newest := I64_MIN; si_count := 0 |}.
Definition skip_update (time : Z) (s : SkipInfo) : SkipInfo :=
  {| si_oldest := if time <? si_oldest s then time else si_oldest s;
     si_newest := if si_newest s <? time then time else si_newest s;
     si_count := u64 (si_count s + 1) |}.

Section group.
Variables (P : Prims) (J : JsonLib) (V : VerifyLib) (L : PullLib).
(** [sort_unstable_by_key] on the times. *)
Variable sort : list SnapshotListItem -> list SnapshotListItem.

(** ** One snapshot *)
Record SnapshotFromIo := {
  sf_create : CreateIo; sf_pull : SnapshotIo; sf_destroy : DestroyIo;
  sf_log_cleanup : res unit; sf_log_done : res unit;
}.
(** What a group and the maps of chunks are while it is pulled. *)
Record World := { w_group : Group; w_enc : EncounteredChunks; w_store : store }.

Definition pull_snapshot_from (S : SourceReader) (io : SnapshotFromIo) (p : PullParams) (old_locking corrupt : bool)
    (ty id : string) (time : Z) (w : World) : res SyncStats * World :=
  let '(r, g) := create_locked_backup_dir (sf_create io) time (w_group w) in
  let w := {| w_group := g; w_enc := w_enc w; w_store := w_store w |} in
  try! is_new := r for w in
  let t := {| t_dir := default ∅ (g_snaps g !! time); t_enc := w_enc w; t_store := w_store w;
              t_manifest := None |} in
  let '(result, t) := pull_snapshot P J V L S (sf_pull io) p corrupt ty id time t in
  let g := set_snap time (t_dir t) g in
  let mk g := {| w_group := g; w_enc := t_enc t; w_store := t_store t |} in
  let '(r, g) :=
    if (is_new : bool) then
      match result with
      | Ok None | Err _ =>
          match destroy (sf_destroy io) old_locking true time g with
          | (Err _, g) => (sf_log_cleanup io, g)
          | rg => rg
          end
      | Ok (Some _) => (sf_log_done io, g)
      | Panic _ => (Ok tt, g)
      end
    else (Ok tt, g) in
  let w := mk g in
  try! _ := r for w in
  try! stats := result for w in
  (Ok (default stats_default stats), w).

(** ** The selection *)

(** [verify_state] of the local snapshot: whether it has to be pulled again. *)
Definition local_failed (g : Group) (time : Z) : bool :=
  match g_snaps g !! time with
  | None => false
  | Some d =>
      let files := (fun data => {| f_regular := true; f_data := data |}) <$> d in
      let r := let? (m, _) := load_manifest P J {| sn_files := files; sn_objects := ∅ |} in
               manifest_verify_state V m in
      match r with
      | Ok (Some s) => match sv_state s with VerifyFailed => true | VerifyOk => false end
      | Ok None => false
      | _ => true
      end
  end.

(** The snapshots to consider, with those that failed verification; [dir_ok]: the local directory has a name. *)
Definition candidates (p : PullParams) (dir_ok : Z -> bool) (g : Group) (items : list SnapshotListItem)
    : list (Z * bool) :=
  omap (fun item =>
    if exclude_not_verified_or_encrypted p item then None
    else Some (it_time item, resync_corrupt p && dir_ok (it_time item) && local_failed g (it_time item))) items.
Definition cutoff (p : PullParams) (total_amount : Z) : Z :=
  match transfer_last p with Some count => 0 `max` (total_amount - count) | None => 0 end.

(** The second filter, with the position of each snapshot. *)
Fixpoint select (p : PullParams) (last_sync_time cut pos : Z) (l : list (Z * bool))
    (already transfer : SkipInfo) : list (Z * bool) * (SkipInfo * SkipInfo) :=
  match l with
  | [] => ([], (already, transfer))
  | (time, needs_resync) :: l =>
      let next := select p last_sync_time cut (pos + 1) l in
      if resync_corrupt p && needs_resync then
        let '(rest, skipped) := next already transfer in ((time, needs_resync) :: rest, skipped)
      else if time <? last_sync_time then next (skip_update time already) transfer
      else if (pos <? cut) && negb (last_sync_time =? time) then next already (skip_update time transfer)
      else let '(rest, skipped) := next already transfer in ((time, needs_resync) :: rest, skipped)
  end.

(** ** Chunks of the last backup, which can be reused if they are there *)

Definition open_any (t : ArchiveType) (file : File) (map_addr : option Z) : res (option (list ChunkReadInfo)) :=
  match t with
  | FixedIndexT =>
      let? r := Reader.open (Some file) map_addr in
      let? l := unwrap (mapM (chunk_info r) (seqZ 0 (index_count r))) in Ok (Some l)
  | DynamicIndexT =>
      let? r := DynReader.open (Some file) map_addr in
      let? l := unwrap (mapM (chunk_info r) (seqZ 0 (index_count r))) in Ok (Some l)
  | BlobT => Ok None
  end.
Fixpoint mark_chunks (l : list ChunkReadInfo) (enc : EncounteredChunks) : res unit * EncounteredChunks :=
  match l with
  | [] => (Ok tt, enc)
  | info :: l =>
      let! _, enc := mark_reusable (cri_digest info) (ChunkReadInfo_size info) None enc in
      mark_chunks l enc
  end.
(** The loop over the files; [maps] are the outcomes of mapping the indexes. *)
Fixpoint mark_files (maps : string -> option Z) (d : dir) (files : list FileInfo) (enc : EncounteredChunks)
    : res unit * EncounteredChunks :=
  match files with
  | [] => (Ok tt, enc)
  | file :: files =>
      let name := fi_filename file in
      let t := name_archive_type V name in
      try! chunks :=
        match t with
        | BlobT => Ok None
        | _ =>
            match d !! name with
            | Some data => open_any t {| f_regular := true; f_data := data |} (maps name)
            | None => Err "failed loading index"
            end
        end for enc in
      let! _, enc := mark_chunks (default [] chunks) enc in
      mark_files maps d files enc
  end.
Record ReuseIo := { re_list : bool; re_lock : bool; re_maps : string -> option Z; re_log : res unit }.
Definition collect_reusable (io : ReuseIo) (g : Group) (enc : EncounteredChunks) : res unit * EncounteredChunks :=
  match (if re_list io then newest (finished_times g) else None) with
  | None => (Ok tt, enc)
  | Some time =>
      let d := default ∅ (g_snaps g !! time) in
      let files := (fun data => {| f_regular := true; f_data := data |}) <$> d in
      let '(r, enc) :=
        if negb (re_lock io) then (Err "failed locking last backup of group", enc) else
        try! (m, _) := load_manifest P J {| sn_files := files; sn_objects := ∅ |} for enc in
        try! state := manifest_verify_state V m for enc in
        match state with
        | Some {| sv_state := VerifyFailed |} => (Err "cannot safely reuse chunks of snapshot", enc)
        | _ => mark_files (re_maps io) d (m_files m) enc
        end in
      match r with
      | Ok _ => (Ok tt, enc)
      | Err _ => (re_log io, enc)
      | Panic e => (Panic e, enc)
      end
  end.

(** ** The group *)
Record GroupIo := {
  gi_log_progress : nat -> res unit; gi_scan : bool; gi_dir_ok : Z -> bool;
  gi_log_already : res unit; gi_log_transfer : res unit;
  gi_reuse : ReuseIo;
  (* for each snapshot that is pulled *)
  gi_to_ok : nat -> bool; gi_reader : nat -> res SourceReader; gi_from : nat -> SnapshotFromIo;
  gi_log_done : nat -> res unit;
  (* for each snapshot that is removed *)
  gi_list : bool; gi_log_vanished : Z -> res unit; gi_destroy : Z -> DestroyIo;
  gi_log_end : res unit;
}.

Fixpoint pull_snapshots (io : GroupIo) (p : PullParams) (old_locking : bool) (ty id : string) (i : nat)
    (l : list (Z * bool)) (stats : SyncStats) (w : World) : res SyncStats * World :=
  match l with
  | [] => (Ok stats, w)
  | (time, corrupt) :: l =>
      if negb (gi_to_ok io i) then (Err "invalid backup time", w) else
      try! reader := gi_reader io i for w in
      let '(result, w) := pull_snapshot_from reader (gi_from io i) p old_locking corrupt ty id time w in
      match result with
      | Panic e => (Panic e, w)
      | _ =>
          try! _ := gi_log_done io i for w in
          try! s := result for w in
          pull_snapshots io p old_locking ty id (S i) l (stats_add stats s) w
      end
  end.

(** The loop over the local snapshots, by their times. *)
Fixpoint remove_vanished_snapshots (io : GroupIo) (old_locking : bool) (source_snapshots : list Z)
    (local_list : list Z) (stats : SyncStats) (g : Group) : res SyncStats * Group :=
  match local_list with
  | [] => (Ok stats, g)
  | time :: l =>
      if bool_decide (time ∈ source_snapshots)
      then remove_vanished_snapshots io old_locking source_snapshots l stats g else
      try! _ := gi_log_vanished io time for g in
      if is_protected (default ∅ (g_snaps g !! time))
      then remove_vanished_snapshots io old_locking source_snapshots l stats g else
      let! _, g := destroy (gi_destroy io time) old_locking false time g in
      let removed := {| rv_groups := 0; rv_snapshots := 1; rv_namespaces := 0 |} in
      remove_vanished_snapshots io old_locking source_snapshots l
        (stats_add stats (stats_from_removed removed)) g
  end.

Definition pull_group (io : GroupIo) (p : PullParams) (old_locking : bool) (ty id : string)
    (listed : res (list SnapshotListItem)) (w : World) : res SyncStats * World :=
  try! raw_list := listed for w in
  try! raw_list := filter_out_in_progress (gi_log_progress io) raw_list for w in
  let raw_list := sort raw_list in
  try! last := last_successful_backup (gi_scan io) (w_group w) for w in
  let last_sync_time := default I64_MIN last in
  let list := candidates p (gi_dir_ok io) (w_group w) raw_list in
  let source_snapshots := fst <$> list in
  let cut := cutoff p (Z.of_nat (length list)) in
  let '(list, (already, transfer)) := select p last_sync_time cut 0 list skip_new skip_new in
  try! _ := (if 0 <? si_count already then gi_log_already io else Ok tt) for w in
  try! _ := (if 0 <? si_count transfer then gi_log_transfer io else Ok tt) for w in
  let '(r, enc) := collect_reusable (gi_reuse io) (w_group w) ∅ in
  let w := {| w_group := w_group w; w_enc := enc; w_store := w_store w |} in
  try! _ := r for w in
  let! stats, w := pull_snapshots io p old_locking ty id 0 list stats_default w in
  let '(r, g) :=
    if remove_vanished p then
      if negb (gi_list io && g_exists (w_group w)) then (Err "scandir failed", w_group w) else
      remove_vanished_snapshots io old_locking source_snapshots (fst <$> map_to_list (g_snaps (w_group w)))
        stats (w_group w)
    else (Ok stats, w_group w) in
  let w := {| w_group := g; w_enc := w_enc w; w_store := w_store w |} in
  try! stats := r for w in
  try! _ := (if 1 <? default 1 (worker_threads p) then gi_log_end io else Ok tt) for w in
  (Ok stats, w).
End group.
