(* ===== verification/PullGroupSpec.v ===== *)
(** * Properties of pulling groups

    Which snapshots are pulled and which are removed; a snapshot that is new and finished is complete.
    Explicit runs show where the code departs from what it means to do. *)

From S2P Require Import Prelude IndexFile FixedIndex DynamicIndex DataBlob DataBlobSpec ChunkStore ChunkStoreSpec Manifest ManifestSpec GarbageCollection VerifySnapshot GroupDir GroupDirSpec BlobReader PullChunks PullChunksSpec Pull PullSpec PullGroup.
From Stdlib Require Import Strings.Byte Sorting.Sorted.

Section group_spec.
Context (P : Prims) (J : JsonLib) (V : VerifyLib) (L : PullLib).
Context (sort : list SnapshotListItem -> list SnapshotListItem).
Implicit Types (w : World) (g : Group).

Lemma pull_snapshot_from_others S io p ol corrupt ty id time w r w' :
  pull_snapshot_from P J V L S io p ol corrupt ty id time w = (r, w') ->
  (forall x, x <> time -> g_snaps (w_group w') !! x = g_snaps (w_group w) !! x) /\
  (is_Some (g_snaps (w_group w) !! time) -> is_Some (g_snaps (w_group w') !! time)).
Proof.
  unfold pull_snapshot_from. destruct (create_locked_backup_dir _ _ _) as [r1 g1] eqn:E1.
  apply create_locked_spec in E1 as (Ho1 & Hold & _ & Hex).
  assert (is_Some (g_snaps (w_group w) !! time) -> is_Some (g_snaps g1 !! time)) as Hs.
  { intros [d Hd]. destruct (Hold d Hd) as [-> _]. by exists d. }
  destruct r1 as [is_new|e|e]; [|intros [= <- <-]; by split..].
  destruct (pull_snapshot _ _ _ _ _ _ _ _ _ _ _ _) as [result t]. set (g2 := set_snap time (t_dir t) g1).
  assert (forall x, x <> time -> g_snaps g2 !! x = g_snaps (w_group w) !! x) as Ho2.
  { intros x Hx. unfold g2. rewrite set_snap_ne by done. auto. }
  assert (is_Some (g_snaps g2 !! time)) as Hs2 by (unfold g2; rewrite set_snap_eq by auto; by eexists).
  set (fin := if is_new then _ else _).
  assert ((forall x, x <> time -> g_snaps fin.2 !! x = g_snaps (w_group w) !! x) /\
          (is_new = false -> is_Some (g_snaps fin.2 !! time))) as [Hf1 Hf2].
  { unfold fin. destruct is_new; [|by split]. split; [|done]. intros x Hx.
    destruct (destroy _ _ _ _ _) as [r3 g3] eqn:E3. apply destroy_spec in E3 as (Ho3 & _).
    destruct result as [[]|?|?]; cbn [snd]; try (by apply Ho2); destruct r3; cbn [snd]; rewrite Ho3 by done; by apply Ho2. }
  destruct fin as [r4 g4]. cbn in Hf1, Hf2. intros E.
  assert (w_group w' = g4) as ->.
  { by destruct r4 as [[]|?|?]; [destruct result|..]; simplify_eq. }
  split; [done|]. intros [d Hd]. apply Hf2. destruct is_new; [|done].
  by destruct (Hold d Hd) as [_ []].
Qed.

Lemma pull_snapshots_others io p ol ty id l i stats w r w' :
  pull_snapshots P J V L io p ol ty id i l stats w = (r, w') ->
  forall x,
    (x ∉ l.*1 -> g_snaps (w_group w') !! x = g_snaps (w_group w) !! x) /\
    (is_Some (g_snaps (w_group w) !! x) -> is_Some (g_snaps (w_group w') !! x)).
Proof.
  revert i stats w. induction l as [|[time corrupt] l IH]; intros i stats w; cbn [pull_snapshots].
  { by intros [= <- <-]. }
  destruct (gi_to_ok io i); cbn [negb]; [|by intros [= <- <-]].
  destruct (gi_reader io i) as [S|e|e]; [|by intros [= <- <-]..].
  destruct (pull_snapshot_from _ _ _ _ _ _ _ _ _ _ _ _ _) as [result w1] eqn:E1.
  apply pull_snapshot_from_others in E1 as [Ho1 Hs1]. intros E x.
  assert ((x ∉ ((time, corrupt) :: l).*1 -> g_snaps (w_group w1) !! x = g_snaps (w_group w) !! x) /\
    (is_Some (g_snaps (w_group w) !! x) -> is_Some (g_snaps (w_group w1) !! x))) as [H1 H2].
  { split; [intros Hx; apply Ho1; set_solver|]. intros Hx. destruct (decide (x = time)) as [->|Hne]; [auto|].
    by rewrite Ho1. }
  destruct result as [s|e|e]; [|destruct (gi_log_done io i); by simplify_eq|by simplify_eq].
  destruct (gi_log_done io i); [|by simplify_eq..]. destruct (IH _ _ _ E x) as [H3 H4].
  split; [intros Hx; rewrite H3 by set_solver; auto|auto].
Qed.

Lemma remove_vanished_spec io ol source l stats g r g' :
  remove_vanished_snapshots io ol source l stats g = (r, g') ->
  forall x d, g_snaps g !! x = Some d -> x ∈ source \/ is_protected d = true -> g_snaps g' !! x = Some d.
Proof.
  revert stats g. induction l as [|time l IH]; intros stats g; cbn [remove_vanished_snapshots].
  { by intros [= <- <-]. }
  case_bool_decide as Hin; [apply IH|]. destruct (gi_log_vanished io time); [|by intros [= <- <-]..].
  destruct (is_protected (default ∅ (g_snaps g !! time))) eqn:Ep; [apply IH|].
  destruct (destroy _ _ _ _ _) as [r1 g1] eqn:E1. apply destroy_spec in E1 as (Ho & _).
  intros E x d Hx Hor. assert (g_snaps g1 !! x = Some d) as Hx1.
  { destruct (decide (x = time)) as [->|Hne]; [|by rewrite Ho]. rewrite Hx in Ep. cbn in Ep.
    destruct Hor; [done|congruence]. }
  destruct r1; [by eapply IH|by simplify_eq..].
Qed.

(** The times of the snapshots that the source offers: finished, and not excluded. *)
Definition offered (p : PullParams) (listed : res (list SnapshotListItem)) (time : Z) : Prop :=
  exists items item, listed = Ok items /\ item ∈ items /\ it_time item = time /\ it_size item <> None /\
    exclude_not_verified_or_encrypted p item = false.

Lemma in_progress_spec log items l :
  filter_out_in_progress log items = Ok l -> forall item, item ∈ l <-> item ∈ items /\ it_size item <> None.
Proof.
  revert l. induction items as [|x items IH]; intros l; cbn [filter_out_in_progress].
  { intros [= <-]. set_solver. }
  destruct (it_size x) eqn:Ex.
  - destruct (filter_out_in_progress log items) as [rest| |]; [|done..]. intros [= <-] item.
    rewrite !elem_of_cons, (IH _ eq_refl). naive_solver congruence.
  - destruct (log _); [|done..]. intros E item. rewrite (IH _ E), elem_of_cons. naive_solver congruence.
Qed.

Hypothesis Hsort : forall l, sort l ≡ₚ l.

Lemma offered_candidates p dir_ok log g listed items l :
  listed = Ok items -> filter_out_in_progress log items = Ok l ->
  forall time, time ∈ (candidates P J V p dir_ok g (sort l)).*1 <-> offered p listed time.
Proof using Hsort.
  intros -> Hl time. unfold candidates, offered. rewrite list_elem_of_fmap. setoid_rewrite list_elem_of_omap.
  setoid_rewrite Hsort. setoid_rewrite (in_progress_spec _ _ _ Hl). split.
  - intros ([t b] & -> & item & [Hin Hs] & E). exists items, item. case_match; [done|]. by simplify_eq.
  - intros (? & item & [= <-] & Hin & <- & Hs & Hx). eexists (it_time item, _). split; [done|].
    exists item. by rewrite Hx.
Qed.

Lemma select_subset p last cut pos l a b : (select p last cut pos l a b).1 ⊆ l.
Proof.
  revert pos a b. induction l as [|[time rs] l IH]; intros pos a b; [done|]. cbn [select].
  repeat case_match; cbn [fst]; try (etrans; [apply IH|set_solver]);
    match goal with E : select _ _ _ _ _ ?x ?y = _ |- _ => pose proof (IH (pos + 1) x y) as Hs; rewrite E in Hs end;
    cbn in Hs; set_solver.
Qed.

(** The part of [pull_group] that removes snapshots. *)
Lemma vanished_part io p ol source stats w (off : Z -> Prop) time d :
  (forall x, x ∈ source <-> off x) ->
  is_Some (g_snaps (w_group w) !! time) -> (~ off time -> g_snaps (w_group w) !! time = Some d) ->
  let fin := if remove_vanished p then
      if negb (gi_list io && g_exists (w_group w)) then (Err "scandir failed", w_group w) else
      remove_vanished_snapshots io ol source (fst <$> map_to_list (g_snaps (w_group w))) stats (w_group w)
    else (Ok stats, w_group w) in
  (is_Some (g_snaps fin.2 !! time) \/ (remove_vanished p = true /\ ~ off time /\ is_protected d = false)) /\
  (~ off time -> remove_vanished p = false \/ is_protected d = true -> g_snaps fin.2 !! time = Some d).
Proof.
  intros Hoff Hs Hno fin. subst fin. destruct (remove_vanished p); [|split; [by left|auto]].
  destruct (negb _); [split; [by left|auto]|].
  destruct (remove_vanished_snapshots _ _ _ _ _ _) as [r g'] eqn:E. cbn [snd].
  pose proof (remove_vanished_spec _ _ _ _ _ _ _ _ E) as Hr. split.
  - destruct (decide (time ∈ source)) as [Hin|Hin].
    + left. destruct Hs as [d1 Hd1]. exists d1. apply Hr; auto.
    + rewrite Hoff in Hin. destruct (is_protected d) eqn:Ep; [|by right]. left. exists d. apply Hr; auto.
  - intros Hn [?|Hp]; [done|]. apply Hr; auto.
Qed.

(** C14.  What a pull removes.  Whatever fails, a snapshot of the group that was there before is still there after the
    pull, unless vanished snapshots are to be removed, the source does not offer it and it is not
    protected; and a snapshot that is not offered is not changed if it is protected or if vanished
    snapshots are not to be removed. *)
Theorem pull_group_removals io p ol ty id listed w r w' :
  pull_group P J V L sort io p ol ty id listed w = (r, w') ->
  forall time d, g_snaps (w_group w) !! time = Some d ->
    (is_Some (g_snaps (w_group w') !! time) \/
     (remove_vanished p = true /\ ~ offered p listed time /\ is_protected d = false)) /\
    (~ offered p listed time -> remove_vanished p = false \/ is_protected d = true ->
     g_snaps (w_group w') !! time = Some d).
Proof using Hsort.
  unfold pull_group. intros E time d Hd.
  assert (w_group w' = w_group w -> (is_Some (g_snaps (w_group w') !! time) \/
     (remove_vanished p = true /\ ~ offered p listed time /\ is_protected d = false)) /\
    (~ offered p listed time -> remove_vanished p = false \/ is_protected d = true ->
     g_snaps (w_group w') !! time = Some d)) as Hsame by (intros ->; eauto).
  destruct listed as [items|e|e] eqn:El; [|apply Hsame; by simplify_eq..].
  destruct (filter_out_in_progress _ _) as [l|e|e] eqn:Ef; [|apply Hsame; by simplify_eq..].
  destruct (last_successful_backup _ _) as [last|e|e]; [|apply Hsame; by simplify_eq..].
  set (cands := candidates _ _ _ _ _ _ _) in E.
  pose proof (offered_candidates p (gi_dir_ok io) _ (w_group w) _ _ _ eq_refl Ef : forall x, x ∈ cands.*1 <-> _) as Hoff.
  destruct (select _ _ _ _ _ _ _) as [sel [already transfer]] eqn:Es.
  assert (sel ⊆ cands) as Hsel by (pose proof (select_subset p (default I64_MIN last)
    (cutoff p (Z.of_nat (length cands))) 0 cands skip_new skip_new) as Hx; by rewrite Es in Hx).
  destruct (if 0 <? si_count already then _ else _); [|apply Hsame; by simplify_eq..].
  destruct (if 0 <? si_count transfer then _ else _); [|apply Hsame; by simplify_eq..].
  destruct (collect_reusable _ _ _ _ _ _) as [r0 enc]. destruct r0; [|apply Hsame; by simplify_eq..]. clear Hsame.
  destruct (pull_snapshots _ _ _ _ _ _ _ _ _ _ _ _ _) as [r1 w1] eqn:E1.
  destruct (pull_snapshots_others _ _ _ _ _ _ _ _ _ _ _ E1 time) as [Hsame1 Hsome1].
  cbn [w_group] in Hsame1, Hsome1. specialize (Hsome1 (ex_intro _ d Hd)).
  assert (~ offered p (Ok items) time -> g_snaps (w_group w1) !! time = Some d) as Hno.
  { intros Hno. rewrite Hsame1; [done|]. intros (x & -> & Hx)%list_elem_of_fmap. apply Hno, Hoff.
    apply list_elem_of_fmap_2. by apply Hsel. }
  destruct r1 as [stats|e|e]; [|simplify_eq; by eauto..].
  set (fin := if remove_vanished p then _ else _) in E.
  assert (w_group w' = fin.2) as ->.
  { destruct fin as [r2 g2]. by destruct r2; [destruct (if 1 <? _ then _ else _)|..]; simplify_eq. }
  clear E. apply (vanished_part io p ol cands.*1 stats w1 (offered p (Ok items)) time d Hoff Hsome1 Hno).
Qed.
End group_spec.

Section new_snapshots.
Context (P : Prims) (J : JsonLib) (V : VerifyLib) (L : PullLib) (X : Hex) `{HX : HexLaws X}.
Context (sync_file : bool) (cap : nat) (source_data : digest -> list byte -> Prop).
Context (S : SourceReader) `{HS : SourceLaws S}.

(** A new snapshot is complete or not there.  Whatever fails, after pulling a snapshot that was not there before it has
    a manifest only if it is complete; that it can be removed in one go if it has to be is assumed. *)
Theorem new_snapshot_complete io p ol corrupt ty id time w r w' :
  (forall i, runs_valid P X sync_file cap source_data (so_archive (sf_pull io) i)) ->
  skip_chunk_sync S = false -> crypt_configs p = [] -> enc_ok X (w_enc w) (w_store w) ->
  (forall data d m,
     load_file_into S (so_call (sf_pull io)) MANIFEST_BLOB_NAME TMP_MANIFEST ∅ = (Ok (Some data), d) ->
     manifest_of P J data = Ok m -> names_ok m) ->
  g_snaps (w_group w) !! time = None -> de_remove (sf_destroy io) = None ->
  pull_snapshot_from P J V L S io p ol corrupt ty id time w = (r, w') ->
  chunks_added P X (w_store w) (w_store w') /\
  forall d, g_snaps (w_group w') !! time = Some d -> is_finished d = true ->
    complete_snapshot P J V X {| t_dir := d; t_enc := w_enc w'; t_store := w_store w'; t_manifest := None |}.
Proof.
  intros Hv Hskip Hkeys He Hnames Hnew Hrm. unfold pull_snapshot_from.
  destruct (create_locked_backup_dir _ _ _) as [r1 g1] eqn:E1. apply create_locked_spec in E1 as (_ & _ & Hc & Hex).
  destruct (Hc Hnew) as [Hnf Hempty]. clear Hc.
  destruct r1 as [is_new|e|e].
  2-3: intros [= <- <-]; (split; [apply chunks_added_refl|]); cbn [w_group]; intros d Hd; rewrite Hd in Hempty;
    cbn in Hempty; subst d; unfold is_finished; by rewrite lookup_empty.
  destruct is_new; [|done]. set (t0 := {| t_dir := _ |}).
  destruct (pull_snapshot _ _ _ _ _ _ _ _ _ _ _ _) as [result t] eqn:E2.
  eapply (pull_snapshot_outcome P J V L X sync_file cap source_data) in E2 as (Ha & Hm & Hok); try done.
  2: { intros Hk. congruence. }
  2: { intros data d m. cbn [t0 t_dir]. rewrite Hempty. intros Hl Hm. split; [by eapply Hnames|].
    intros info data' _. cbn [t0 t_dir]. rewrite Hempty. by rewrite lookup_empty. }
  cbn [t0 t_dir t_store] in *. rewrite Hempty, lookup_empty in Hm, Hok.
  assert (forall d, d = t_dir t -> is_finished d = true ->
    complete_snapshot P J V X {| t_dir := d; t_enc := t_enc t; t_store := t_store t; t_manifest := None |}) as Hfin.
  { intros d -> Hf. unfold is_finished in Hf. destruct Hm as [Hm|Hm]; [by rewrite Hm in Hf|]. by destruct t. }
  set (fin := match result with Ok _ => _ | Err _ => _ | Panic _ => _ end). intros E.
  assert (w_group w' = fin.2 /\ w_enc w' = t_enc t /\ w_store w' = t_store t) as (-> & -> & ->).
  { destruct fin as [r4 g4]. by destruct r4 as [[]|?|?]; [destruct result|..]; simplify_eq. }
  split; [done|]. intros d Hd. apply Hfin. revert Hd.
  assert (forall d, g_snaps (set_snap time (t_dir t) g1) !! time = Some d -> d = t_dir t) as Hset.
  { intros d0. rewrite set_snap_eq by auto. by intros [= <-]. }
  unfold fin. destruct (destroy _ _ _ _ _) as [r3 g3] eqn:E3. apply destroy_spec in E3 as (_ & _ & _ & Hrm3).
  assert (forall d, g_snaps g3 !! time = Some d -> d = t_dir t) as Hset3.
  { intros d0 Hd0. destruct (Hrm3 Hrm) as [->|Hn]; [by apply Hset|congruence]. }
  destruct result as [[]|?|?]; [apply Hset| | |apply Hset]; destruct r3; apply Hset3.
Qed.
End new_snapshots.

(** ** The selection *)
Section selection.
Context (P : Prims) (p : PullParams) (last cut : Z).

Definition keeps (pos : Z) (s : Z * bool) : bool :=
  (resync_corrupt p && s.2) || (negb (s.1 <? last) && negb ((pos <? cut) && negb (last =? s.1))).

Lemma select_positions l pos a b s :
  s ∈ (select p last cut pos l a b).1 <-> exists i : nat, l !! i = Some s /\ keeps (pos + Z.of_nat i) s = true.
Proof.
  revert pos a b. induction l as [|[time rs] l IH]; intros pos a b.
  { cbn. split; [set_solver|]. by intros (i & Hi & _). }
  assert ((exists i : nat, ((time, rs) :: l) !! i = Some s /\ keeps (pos + Z.of_nat i) s = true) <->
    (s = (time, rs) /\ keeps pos (time, rs) = true) \/
    exists i : nat, l !! i = Some s /\ keeps (pos + 1 + Z.of_nat i) s = true) as ->.
  { split.
    - intros ([|i] & Hi & Hk); cbn in Hi; [left; simplify_eq; by rewrite Z.add_0_r in Hk|right].
      exists i. split; [done|]. by replace (pos + 1 + Z.of_nat i) with (pos + Z.of_nat (S i)) by lia.
    - intros [[-> Hk]|(i & Hi & Hk)]; [exists 0%nat; by rewrite Z.add_0_r|].
      exists (S i). split; [done|]. by replace (pos + Z.of_nat (S i)) with (pos + 1 + Z.of_nat i) by lia. }
  cbn [select]. unfold keeps at 1. cbn [fst snd].
  destruct (resync_corrupt p && rs); cbn [orb].
  { specialize (IH (pos + 1) a b). destruct (select _ _ _ _ _ a b) as [rest sk]. cbn in *. rewrite elem_of_cons, IH. naive_solver. }
  destruct (time <? last); cbn [negb andb].
  { rewrite IH. naive_solver. }
  destruct (_ && _); cbn [negb].
  { rewrite IH. naive_solver. }
  specialize (IH (pos + 1) a b). destruct (select _ _ _ _ _ a b) as [rest sk]. cbn in *. rewrite elem_of_cons, IH. naive_solver.
Qed.
End selection.

Definition newer (time : Z) (l : list (Z * bool)) : nat := length (filter (fun x => time < x.1) l).

Lemma newer_at (l : list (Z * bool)) (i : nat) s :
  StronglySorted Z.lt l.*1 -> l !! i = Some s -> (newer s.1 l + i + 1 = length l)%nat.
Proof.
  unfold newer. revert i. induction l as [|x l IH]; intros i Hs Hi; [done|].
  rewrite fmap_cons in Hs. apply StronglySorted_inv in Hs as [Hs Hx]. rewrite Forall_fmap, Forall_forall in Hx.
  destruct i as [|i]; cbn in Hi.
  - simplify_eq. rewrite filter_cons_False by lia. cbn. replace (filter _ l) with l; [lia|].
    clear -Hx. induction l as [|y l IH]; [done|]. rewrite filter_cons_True by (apply Hx; by left).
    f_equal. apply IH. intros z Hz. apply Hx. by right.
  - rewrite filter_cons_False.
    + specialize (IH i Hs Hi). cbn. lia.
    + assert (s ∈ l) as Hin by (by eapply list_elem_of_lookup_2). specialize (Hx s Hin). cbn in Hx. lia.
Qed.

(** Which snapshots are pulled.  Of the snapshots that the source offers, in the order of their times, those are
    pulled that failed verification locally and shall be pulled again, and those that are not older than the last one that is
    there and that are this one or among the newest ones that [transfer_last] asks for. *)
Theorem selection_correct p last l a b time resync :
  StronglySorted Z.lt l.*1 -> (forall n, transfer_last p = Some n -> 0 <= n) ->
  (time, resync) ∈ (select p last (cutoff p (Z.of_nat (length l))) 0 l a b).1 <->
  (time, resync) ∈ l /\
  ((resync_corrupt p = true /\ resync = true) \/
   (last <= time /\
    (time = last \/ match transfer_last p with Some n => Z.of_nat (newer time l) < n | None => True end))).
Proof.
  intros Hs Hn. rewrite select_positions.
  assert (forall i : nat, l !! i = Some (time, resync) ->
    keeps p last (cutoff p (Z.of_nat (length l))) (0 + Z.of_nat i) (time, resync) = true <->
    (resync_corrupt p = true /\ resync = true) \/
    (last <= time /\
     (time = last \/ match transfer_last p with Some n => Z.of_nat (newer time l) < n | None => True end))) as Hk.
  { intros i Hi. pose proof (newer_at l i _ Hs Hi) as Hnew. cbn in Hnew. unfold keeps, cutoff. cbn [fst snd].
    rewrite orb_true_iff, !andb_true_iff, !negb_true_iff, Z.ltb_ge, andb_false_iff, Z.ltb_ge, negb_false_iff, Z.eqb_eq.
    destruct (transfer_last p) as [n|]; [specialize (Hn n eq_refl)|]; intuition lia. }
  split.
  - intros (i & Hi & Hkeep). split; [by eapply list_elem_of_lookup_2|]. by apply (Hk i).
  - intros [[i Hi]%list_elem_of_lookup Hc]. exists i. split; [done|]. by apply Hk.
Qed.
