(* ===== verification/PullExample.v ===== *)
(** * Runs of pulls

    An executable strategy for the tasks and threads of [PullChunks], which shows that runs exist for
    every index, and the examples and witnesses for the theorems about pulling. *)

From S2P Require Import Prelude IndexFile FixedIndex DynamicIndex DataBlob DataBlobSpec ChunkStore ChunkStoreSpec Manifest ManifestSpec GarbageCollection Verify VerifySnapshot VerifySnapshotSpec BlobReader GroupDir PullChunks PullChunksSpec Pull PullSpec PullGroup PullGroupSpec.
From Stdlib Require Import Strings.Byte Sorting.Sorted.

(** ** A strategy: one task at a time, and every chunk is stored before the next is looked at *)
Module Strategy.
Section strategy.
Context (P : Prims) (X : Hex) (sync_file : bool).
Context {R : Type} `{IndexFile R}.
(** What the source has. *)
Context (raw_chunk : digest -> res DataBlob) (plain_chunk : digest -> res (list byte)).
Context (index : R).

Definition aio : AddIo := {| add_fixed := Writer.io_ok; add_dynamic := DynWriter.io_ok |}.

(** A thread takes the first item, if there is one and a thread. *)
Definition work (s : PullState) : option PullState :=
  match ps_queue s with
  | item :: _ =>
      if bool_decide (ps_threads s = 0%nat) then None
      else Some (run_work P X sync_file 0 insert_io_ok 0 item s)
  | [] => None
  end.
Definition next (s : PullState) : option PullState :=
  match work s with
  | Some s' => Some s'
  | None =>
      match ps_main s with
      | MStream =>
          match ps_tasks s, ps_todo s with
          | TNew info :: _, _ => Some (run_new X 0 None aio 0 info s)
          | TRead info :: _, _ => Some (run_read 0 info (raw_chunk (cri_digest info)) s)
          | TDecrypt info :: _, _ => Some (run_decrypt P aio 0 info (plain_chunk (cri_digest info)) s)
          | TSend chunk d size :: _, _ => Some (run_send 0 chunk d size s)
          | [], pos :: todo => Some (fetch index pos todo s)
          | [], [] => Some (with_main MComplete s)
          end
      | MComplete =>
          Some (match ps_abort s with
                | Some e => with_main (MDone (Err e)) s
                | None => if (ps_threads s <? 4)%nat then with_main (MDone (Err "panicked")) s
                          else with_main (MDone (pull_result (Ok 0) (Ok tt) s)) s
                end)
      | MDone _ => None
      end
  end.
Fixpoint exec (fuel : nat) (s : PullState) : PullState :=
  match fuel with
  | O => s
  | S fuel => match next s with Some s' => exec fuel s' | None => s end
  end.
Definition run (enc : EncounteredChunks) (w : option DecryptedIndexWriter) (st : store) : res SyncStats * PullState :=
  let s0 := pull_start index enc w st in
  let s := exec (S (measure s0)) s0 in
  (match ps_main s with MDone r => r | _ => Panic "not done" end, s).

Definition has_plain (d : digest) (data : list byte) : Prop := plain_chunk d = Ok data.

Lemma work_step s s' : work s = Some s' -> pull_step P X sync_file 1 has_plain index s s'.
Proof.
  unfold work. destruct (ps_queue s) as [|item q] eqn:Eq; [done|]. case_bool_decide; [done|]. intros [= <-].
  apply step_work; [by rewrite Eq|lia].
Qed.

Lemma work_none s : work s = None -> drained s.
Proof.
  unfold work, drained. destruct (ps_queue s); [by left|]. case_bool_decide; [by right|done].
Qed.

Lemma next_step s s' : next s = Some s' -> pull_step P X sync_file 1 has_plain index s s'.
Proof.
  unfold next. destruct (work s) as [s1|] eqn:Ew; [intros [= <-]; by apply work_step|]. apply work_none in Ew.
  destruct (ps_main s) as [| |r] eqn:Em; [|intros [= <-]|done].
  - destruct (ps_tasks s) as [|t l] eqn:Et.
    { destruct (ps_todo s) as [|pos todo] eqn:Eto; intros [= <-]; [by apply step_streamed|].
      apply step_fetch; [done..|]. rewrite Et. unfold task_limit. cbn. case_match; lia. }
    assert (ps_tasks s !! 0%nat = Some t) as H0 by (by rewrite Et). destruct t; intros [= <-].
    + by apply step_new.
    + by apply step_read.
    + by apply step_decrypt.
    + apply step_send; [done..|]. destruct Ew as [->|Hth]; [left; cbn; lia|by right; right].
  - destruct (ps_abort s) as [e|] eqn:Ea; [by apply step_aborted|].
    destruct (Nat.ltb_spec (ps_threads s) 4); [by apply step_panicked|].
    by apply (step_return _ _ _ _ _ _ _ (Ok 0) (Ok tt)).
Qed.

Lemma next_none s : next s = None -> exists r, pull_returned s r.
Proof.
  unfold next. destruct (work s) eqn:Ew; [done|]. apply work_none in Ew.
  destruct (ps_main s) as [| |r] eqn:Em; [|done|intros _; by exists r].
  destruct (ps_tasks s) as [|[]]; [destruct (ps_todo s)|..]; done.
Qed.

Lemma exec_runs fuel s :
  (measure s < fuel)%nat ->
  rtc (run_step P X sync_file 1 has_plain index) s (exec fuel s) /\ exists r, pull_returned (exec fuel s) r.
Proof.
  revert s. induction fuel as [|fuel IH]; intros s Hf; [lia|]. cbn [exec].
  destruct (next s) as [s'|] eqn:En; [|split; [done|by apply next_none]]. apply next_step in En.
  pose proof (pull_step_measure _ _ _ _ _ _ _ _ En). destruct (IH s') as [Hr Hd]; [lia|].
  split; [|done]. eapply rtc_l; [by apply step_own|done].
Qed.

Lemma run_valid enc w st :
  pull_index_chunks P X sync_file 1 has_plain index enc w st (run enc w st).1 (run enc w st).2.
Proof.
  destruct (exec_runs (S (measure (pull_start index enc w st))) (pull_start index enc w st)) as [Hr [r [Hm Hd]]]; [lia|].
  unfold run. cbn [fst snd]. rewrite Hm. split; [done|]. by split.
Qed.
End strategy.
End Strategy.

(** ** Snapshots to pull *)
Module PullExamples.
Import ToyPrims ToyJson.

Definition lib : PullLib := {|
  parse_fingerprint s := Ok (String.list_byte_of_string s);
  archive_name_try_from := Ok;
  derive_id_key k := Ok k;
|}.
Definition names : VerifyLib := {|
  verify_state_to_value := verify_state_to_value SnapshotExample.toy_verify;
  verify_state_of_value := verify_state_of_value SnapshotExample.toy_verify;
  name_archive_type n := if bool_decide (n = "root.pxar.didx") then DynamicIndexT else BlobT;
|}.

Definition raw_of (r : res DataBlob) : list byte := match r with Ok b => raw_data b | _ => [] end.
Definition text_digest : digest := sha256 toy (bytes "abc").
Definition text_chunk : DataBlob := {| raw_data := raw_of (encode toy (Err "") (bytes "abc") None true) |}.
Definition raw_chunk (d : digest) : res DataBlob := if bool_decide (d = text_digest) then Ok text_chunk else Err "404".
Definition plain_chunk (d : digest) : res (list byte) := Err "404".

(** An index with one chunk. *)
Definition index_file : list byte :=
  match DynWriter.create DynWriter.io_ok 7 (replicate 16 x02) "i" "t" with
  | Ok w =>
      let '(_, w) := DynWriter.add_chunk DynWriter.io_ok 3 text_digest w in
      let '(_, (_, fs)) := DynWriter.close DynWriter.io_ok (sha256 toy) w ∅ in default [] (fs !! "i")
  | _ => []
  end.
Definition index_csum : digest :=
  match DynReader.new (file_of index_file) (Some 0) with
  | Ok r => match DynReader.compute_csum (sha256 toy) r with Ok (c, _) => c | _ => [] end
  | _ => []
  end.
Definition conf : list byte := raw_of (encode toy (Err "") (bytes "memory: 512") None true).
Definition manifest (note : string) : BackupManifest :=
  with_unprotected
    (manifest_add_file "root.pxar.didx" 3 index_csum ModeNone
      (manifest_add_file "qemu.conf.blob" (Z.of_nat (length conf)) (sha256 toy conf) ModeNone
        (manifest_new "vm" "100" 1700000000)))
    (VObject [("notes", VString note)]).
Definition manifest_raw (note : string) : list byte := raw_of (to_data_blob toy toy_json (manifest note) None).
Definition source (note : string) : dir :=
  {[ MANIFEST_BLOB_NAME := manifest_raw note; "root.pxar.didx" := index_file; "qemu.conf.blob" := conf;
     CLIENT_LOG_BLOB_NAME := conf ]}.

(** Everything succeeds. *)
Definition sizes : nat -> Z * Z := fun _ => (4096, 4096).
Definition archive_io : ArchiveIo := {|
  ai_call := 1; ai_log := Ok tt; ai_log_skip := Ok tt; ai_open := true; ai_map := Some 4096;
  ai_ctime := 7; ai_uuid := replicate 16 x02;
  ai_create_fixed := Writer.io_ok; ai_close_fixed := Writer.io_ok;
  ai_create_dynamic := DynWriter.io_ok; ai_close_dynamic := DynWriter.io_ok;
  ai_chunk_reader := Ok tt;
  ai_run_fixed := Strategy.run toy HexImpl.hex false raw_chunk plain_chunk;
  ai_run_dynamic := Strategy.run toy HexImpl.hex false raw_chunk plain_chunk;
  ai_rewind := true; ai_sizes := sizes; ai_replaced := true; ai_removed := true; ai_renamed := true;
|}.
Definition snapshot_io : SnapshotIo := {|
  so_log := Ok tt; so_log_vanished := Ok tt; so_log_unchanged := Ok tt; so_log_filtered := Ok tt;
  so_call := 0; so_tmp_removed := true; so_local_read := true;
  so_key := {| ko_no_key := Ok tt; ko_not_full := Ok tt; ko_found := Ok tt |};
  so_open _ := true; so_map _ := Some 0; so_log_changed _ := Ok tt; so_archive _ := archive_io;
  so_open_manifest := true; so_write := None; so_flush := true; so_fsync := true;
  so_renamed := true; so_cleanup := true; so_unlinked _ := true;
|}.
Definition load_io : LocalIo := {| li_open := true; li_read := true; li_write := None; li_rewind := true |}.
Definition log_io : LocalLogIo :=
  {| ll_open := true; ll_load := load_io; ll_sizes := sizes; ll_replaced := true; ll_log := Ok tt |}.
Definition reader (s : dir) : SourceReader := local_reader toy s "a" "b" (fun _ => load_io) log_io.
Definition params : PullParams := {|
  verified_only := false; encrypted_only := false; resync_corrupt := false; transfer_last := None;
  remove_vanished := false; worker_threads := None; crypt_configs := [];
|}.
Definition target (d : dir) : Target := {| t_dir := d; t_enc := ∅; t_store := ∅; t_manifest := None |}.
Definition pull (s : dir) (t : Target) : res (option SyncStats) * Target :=
  pull_snapshot toy toy_json names lib (reader s) snapshot_io params false "vm" "100" 1700000000 t.
Definition pulled : Target := (pull (source "one") (target ∅)).2.

Lemma pulled_ok : exists stats, (pull (source "one") (target ∅)).1 = Ok (Some stats) /\ ss_chunk_count stats = 1.
Proof. eexists. split; vm_compute; reflexivity. Qed.

(** ** Where the code departs from what it means to do *)

(** Pulling removes the protection of a snapshot.  The local snapshot is protected; on the source only its notes
    have changed.  The pull succeeds, and the snapshot is not protected any more. *)
Theorem pull_drops_protection :
  let t := set_dir (<[PROTECTED_MARKER_FILENAME := []]> (t_dir pulled)) pulled in
  let '(r, t') := pull (source "two") t in
  is_ok r = true /\ is_protected (t_dir t) = true /\ is_protected (t_dir t') = false.
Proof. vm_compute. split_and!; reflexivity. Qed.

(** A truncated log stays.  Writing the log fails halfway, so that the pull fails; all later ones succeed and
    leave the log as it is. *)
Definition torn_reader (s : dir) : SourceReader :=
  local_reader toy s "a" "b" (fun _ => load_io)
    {| ll_open := true; ll_load := {| li_open := true; li_read := true; li_write := Some 5%nat; li_rewind := true |};
       ll_sizes := sizes; ll_replaced := true; ll_log := Ok tt |}.
Theorem truncated_log_stays :
  let '(r1, t1) := pull_snapshot toy toy_json names lib (torn_reader (source "one")) snapshot_io params false
    "vm" "100" 1700000000 (target ∅) in
  let '(r2, t2) := pull (source "one") t1 in
  is_ok r1 = false /\ is_ok r2 = true /\
  source "one" !! CLIENT_LOG_BLOB_NAME = Some conf /\ t_dir t2 !! CLIENT_LOG_BLOB_NAME = Some (take 5 conf).
Proof. vm_compute. split_and!; reflexivity. Qed.

(** A signed snapshot that is not encrypted replaces a local one with other content.  The same content without a key is
    refused. *)
Definition conf2 : list byte := raw_of (encode toy (Err "") (bytes "memory: 1024") None true).
Definition conf_manifest (content : list byte) (mode : CryptModeT) : BackupManifest :=
  manifest_add_file "qemu.conf.blob" (Z.of_nat (length content)) (sha256 toy content) mode
    (manifest_new "vm" "100" 1700000000).
Definition signed_source (content : list byte) (mode : CryptModeT) (config : option CryptConfig) : dir :=
  {[ MANIFEST_BLOB_NAME := raw_of (to_data_blob toy toy_json (conf_manifest content mode) config);
     "qemu.conf.blob" := content ]}.
Theorem signed_source_replaces_local :
  let t := (pull (signed_source conf ModeNone None) (target ∅)).2 in
  let '(r1, t1) := pull (signed_source conf2 ModeNone None) t in
  let '(r2, t2) := pull (signed_source conf2 ModeSignOnly (Some key)) t in
  t_dir t !! "qemu.conf.blob" = Some conf /\
  r1 = Err "refusing to overwrite local snapshot: content differs from source" /\
  is_ok r2 = true /\ t_dir t2 !! "qemu.conf.blob" = Some conf2.
Proof. vm_compute. split_and!; reflexivity. Qed.

(** A file that is left from an earlier pull without the key is missing in the decrypted snapshot.  The
    file stays as it is, encrypted, and the new manifest does not list it. *)
Definition secret : list byte := raw_of (encode toy (Ok (replicate 16 x07)) (bytes "memory: 512") (Some key) false).
Definition key_params : PullParams := {|
  verified_only := false; encrypted_only := false; resync_corrupt := false; transfer_last := None;
  remove_vanished := false; worker_threads := None; crypt_configs := [("k", key)];
|}.
Definition pull_decrypted (t : Target) : res (option SyncStats) * Target :=
  pull_snapshot toy toy_json names lib (reader (signed_source secret ModeEncrypt (Some key))) snapshot_io key_params
    false "vm" "100" 1700000000 t.
Definition listed_files (t : Target) : list string :=
  match t_dir t !! MANIFEST_BLOB_NAME with
  | Some raw => match manifest_of toy toy_json raw with Ok m => fi_filename <$> m_files m | _ => [] end
  | None => []
  end.
Theorem leftover_missing_in_decrypted :
  let '(r1, t1) := pull_decrypted (target ∅) in
  let '(r2, t2) := pull_decrypted (target {[ "qemu.conf.blob" := secret ]}) in
  is_ok r1 = true /\ listed_files t1 = ["qemu.conf.blob"] /\ t_dir t1 !! "qemu.conf.blob" <> Some secret /\
  is_ok r2 = true /\ listed_files t2 = [] /\ t_dir t2 !! "qemu.conf.blob" = Some secret.
Proof. vm_compute. split_and!; try reflexivity. discriminate. Qed.

(** ** Groups *)
Definition destroy_io : DestroyIo := {|
  de_lock := true; de_lock_manifest := true; de_remove := None; de_group_lock := true; de_list := true;
  de_group := {| rg_notes := true; rg_owner := true; rg_dir := true |} |}.
Definition from_io : SnapshotFromIo := {|
  sf_create := {| cd_now := 1700009999; cd_skew := 3600; cd_time_ok := true; cd_create := true; cd_lock := true |};
  sf_pull := snapshot_io; sf_destroy := destroy_io; sf_log_cleanup := Ok tt; sf_log_done := Ok tt |}.
Definition group_io (sources : nat -> dir) : GroupIo := {|
  gi_log_progress _ := Ok tt; gi_scan := true; gi_dir_ok _ := true; gi_log_already := Ok tt; gi_log_transfer := Ok tt;
  gi_reuse := {| re_list := true; re_lock := true; re_maps _ := Some 0; re_log := Ok tt |};
  gi_to_ok _ := true; gi_reader i := Ok (reader (sources i)); gi_from _ := from_io; gi_log_done _ := Ok tt;
  gi_list := true; gi_log_vanished _ := Ok tt; gi_destroy _ := destroy_io; gi_log_end := Ok tt |}.
Definition item (time : Z) : SnapshotListItem :=
  {| it_time := time; it_size := Some 4711; it_verification := None;
     it_files := [(MANIFEST_BLOB_NAME, None); ("qemu.conf.blob", None); ("root.pxar.didx", None)] |}.
Definition world (snaps : gmap Z dir) : World :=
  {| w_group := Some {| gd_owner := None; gd_notes := None; gd_snaps := snaps |}; w_enc := ∅; w_store := t_store pulled |}.
Definition pull_all (sources : nat -> dir) (p : PullParams) : list SnapshotListItem -> World -> res SyncStats * World :=
  fun l => pull_group toy toy_json names lib id (group_io sources) p false "vm" "100" (Ok l).

(** A snapshot that is on the source is removed.  It is not verified there, and only verified snapshots are to be
    pulled. *)
Theorem excluded_snapshot_removed :
  let p := {| verified_only := true; encrypted_only := false; resync_corrupt := false; transfer_last := None;
              remove_vanished := true; worker_threads := None; crypt_configs := [] |} in
  let '(r, w') := pull_all (fun _ => source "one") p [item 1700000000] (world {[ 1700000000 := t_dir pulled ]}) in
  is_ok r = true /\ g_snaps (w_group w') !! 1700000000 = None.
Proof. vm_compute. split; reflexivity. Qed.

(** A snapshot that vanishes can end the pull of a new group.  It is the first one of a group that has no
    others yet; with it the directory of the group is removed, and the next snapshot cannot be created. *)
Theorem vanished_first_snapshot_fails_group :
  let sources i := if bool_decide (i = 0%nat) then ∅ else source "one" in
  let l := [item 1700000000; item 1700003600] in
  (pull_all sources params l (world ∅)).1 = Err "create_dir failed" /\
  is_ok (pull_all (fun _ => source "one") params l (world ∅)).1 = true.
Proof. vm_compute. split; reflexivity. Qed.

(** ** Witnesses *)
Lemma archive_runs : forall i, runs_valid toy HexImpl.hex false 1 (Strategy.has_plain plain_chunk) (so_archive snapshot_io i).
Proof. intros i. split; intros; apply Strategy.run_valid. Qed.

Lemma pairing {A B} (p : A * B) : p = (p.1, p.2).
Proof. by destruct p. Qed.

Lemma is_some_none {A} {x : A} {o o' : option A} : o = Some x -> o = o' -> o' = None -> False.
Proof. by intros -> <-. Qed.

Lemma source_manifest : source "one" !! MANIFEST_BLOB_NAME = Some (manifest_raw "one").
Proof. vm_compute. reflexivity. Qed.
Lemma manifest_parsed : manifest_of toy toy_json (manifest_raw "one") = Ok (manifest "one").
Proof. vm_compute. reflexivity. Qed.
Lemma manifest_names : names_ok (manifest "one").
Proof.
  split_and!; [|repeat constructor..]; apply (bool_decide_unpack _); vm_compute; exact I.
Qed.

Lemma load_source raw s k d data d' :
  s !! MANIFEST_BLOB_NAME = Some raw ->
  load_file_into (reader s) k MANIFEST_BLOB_NAME TMP_MANIFEST d = (Ok (Some data), d') -> data = raw.
Proof.
  intros Hs. unfold reader, local_reader. cbn [load_file_into]. unfold local_load_file_into.
  cbn [li_open li_read li_write li_rewind load_io negb]. rewrite Hs. intros E. injection E as E _. exact (eq_sym E).
Qed.

Lemma source_names k d data d' m :
  load_file_into (reader (source "one")) k MANIFEST_BLOB_NAME TMP_MANIFEST d = (Ok (Some data), d') ->
  manifest_of toy toy_json data = Ok m -> names_ok m.
Proof.
  intros E Hm. rewrite (load_source _ _ _ _ _ _ source_manifest E), manifest_parsed in Hm.
  injection Hm as <-. exact manifest_names.
Qed.

Lemma pull_snapshot_atomic_witness :
  complete_snapshot toy toy_json names HexImpl.hex pulled.
Proof.
  destruct (pull_snapshot_atomic toy toy_json names lib HexImpl.hex false 1 (Strategy.has_plain plain_chunk)
    (reader (source "one")) snapshot_io params false "vm" "100" 1700000000 (target ∅)
    (pull (source "one") (target ∅)).1 pulled archive_runs (fun H => ltac:(discriminate H)) eq_refl
    (PullRuns.empty_enc_ok HexImpl.hex ∅)) as (_ & [Hm|Hc] & _).
  - intros data d m Hl Hm. split; [exact (source_names _ _ _ _ _ Hl Hm)|].
    intros info data' _ Hd. cbn [target t_dir] in Hd. rewrite lookup_empty in Hd. discriminate.
  - exact (pairing _).
  - exfalso. assert (t_dir pulled !! MANIFEST_BLOB_NAME = Some (manifest_raw "one")) as E by (vm_compute; reflexivity).
    exact (is_some_none E Hm (lookup_empty _)).
  - exact Hc.
Defined.

Lemma pull_group_removals_witness :
  let p := {| verified_only := true; encrypted_only := false; resync_corrupt := false; transfer_last := None;
              remove_vanished := true; worker_threads := None; crypt_configs := [] |} in
  let w := world {[ 1700000000 := <[PROTECTED_MARKER_FILENAME := []]> (t_dir pulled) ]} in
  is_Some (g_snaps (w_group (pull_all (fun _ => source "one") p [item 1700000000] w).2) !! 1700000000).
Proof.
  intros p w. destruct (pull_group_removals toy toy_json names lib id (fun l => reflexivity l) (group_io (fun _ => source "one")) p
    false "vm" "100" (Ok [item 1700000000]) w _ _ (pairing _) 1700000000
    (<[PROTECTED_MARKER_FILENAME := []]> (t_dir pulled)) (lookup_singleton_eq _ _)) as [[Hs|(_ & _ & Hp)] _].
  - exact Hs.
  - exfalso. vm_compute in Hp. discriminate.
Defined.

Lemma selection_correct_witness :
  (1700003600, false) ∈ (select (Build_PullParams false false false (Some 1) false None []) 0
    (cutoff (Build_PullParams false false false (Some 1) false None []) 2) 0
    [(1700000000, false); (1700003600, false)] skip_new skip_new).1.
Proof.
  apply (selection_correct (Build_PullParams false false false (Some 1) false None []) 0
    [(1700000000, false); (1700003600, false)] skip_new skip_new 1700003600 false).
  - repeat constructor.
  - intros n [= <-]. lia.
  - split; [apply list_elem_of_further, list_elem_of_here|]. right. split; [lia|]. right. vm_compute. reflexivity.
Defined.

Lemma decryption_decision_witness :
  exists m, optionally_use_decryption_key toy toy_json lib (so_key snapshot_io) key_params m None = Ok (Some key, false) /\
    check_signature toy toy_json m key false = Ok tt.
Proof.
  assert (exists m, manifest_of toy toy_json
      (raw_of (to_data_blob toy toy_json (conf_manifest secret ModeEncrypt) (Some key))) = Ok m /\
    optionally_use_decryption_key toy toy_json lib (so_key snapshot_io) key_params m None = Ok (Some key, false)) as (m & _ & E).
  { eexists. split; [vm_compute; reflexivity|vm_compute; reflexivity]. }
  exists m. split; [exact E|].
  assert (existing_manifest toy snapshot_io false ∅ = Ok None) as E0 by (vm_compute; reflexivity).
  destruct (decryption_decision toy toy_json lib snapshot_io (so_key snapshot_io) key_params false ∅ m None None
    (Some key) false E0 eq_refl E) as (_ & _ & _ & Hs & _).
  exact Hs.
Defined.

Lemma new_snapshot_complete_witness :
  let '(r, w') := pull_snapshot_from toy toy_json names lib (reader (source "one")) from_io params false false
    "vm" "100" 1700000000 {| w_group := Some {| gd_owner := None; gd_notes := None; gd_snaps := ∅ |}; w_enc := ∅; w_store := ∅ |} in
  exists d, g_snaps (w_group w') !! 1700000000 = Some d /\
    complete_snapshot toy toy_json names HexImpl.hex
      {| t_dir := d; t_enc := w_enc w'; t_store := w_store w'; t_manifest := None |}.
Proof.
  destruct (pull_snapshot_from _ _ _ _ _ _ _ _ _ _ _ _ _) as [r w'] eqn:E.
  destruct (new_snapshot_complete toy toy_json names lib HexImpl.hex false 1 (Strategy.has_plain plain_chunk)
    (reader (source "one")) from_io params false false "vm" "100" 1700000000
    {| w_group := Some {| gd_owner := None; gd_notes := None; gd_snaps := ∅ |}; w_enc := ∅; w_store := ∅ |} r w' archive_runs eq_refl eq_refl
    (PullRuns.empty_enc_ok HexImpl.hex ∅) (fun data d m => source_names _ _ data d m) (lookup_empty _) eq_refl E) as [_ Hc].
  assert (g_snaps (w_group w') !! 1700000000 = Some (t_dir pulled)) as Hd.
  { apply (f_equal (fun x => g_snaps (w_group x.2) !! 1700000000)) in E. cbn [snd] in E. rewrite <-E. vm_compute. reflexivity. }
  exists (t_dir pulled). split; [exact Hd|]. apply (Hc _ Hd). vm_compute. reflexivity.
Defined.
End PullExamples.
