(* ===== verification/Datastore.v ===== *)
(** * Namespaces and groups of a datastore, [pbs-datastore/src/datastore.rs] and [backup_info.rs]

    The directory tree of a datastore: namespaces are created and removed, groups are created with their owners,
    destroyed, and moved between namespaces, one by one or with a whole tree of namespaces.

    Only the file system backend is modelled.  Locks and the outcomes of system calls are arguments: records with
    one field per call.  A listing of a directory is a function of what is there, since it is read in the course of an
    operation.  Statistics of deletions belong to the crate of the API types and are an interface. *)

From S2P Require Import Prelude Text GarbageCollection Acl Hierarchy GroupDir.
From Stdlib Require Import Strings.Byte.

(** [BackupGroupDeleteStats]. *)
Class StatsLib := {
  DeleteStats : Type;
  stats_zero : DeleteStats;
  increment_removed_groups : DeleteStats -> DeleteStats;
  increment_removed_snapshots : DeleteStats -> DeleteStats;
  increment_protected_snapshots : DeleteStats -> DeleteStats;
  stats_sum : DeleteStats -> DeleteStats -> DeleteStats;
  all_removed : DeleteStats -> bool;
  removed_snapshots : DeleteStats -> Z;
}.
Class StatsLaws (D : StatsLib) := {
  all_removed_zero : all_removed stats_zero = true;
  all_removed_groups s : all_removed (increment_removed_groups s) = all_removed s;
  all_removed_snapshots s : all_removed (increment_removed_snapshots s) = all_removed s;
  all_removed_protected s : all_removed (increment_protected_snapshots s) = false;
  all_removed_sum a b : all_removed (stats_sum a b) = all_removed a && all_removed b;
}.

(** [sort_by_key], which keeps the order of equal keys. *)
Fixpoint insert_by_key {A} (key : A -> Z) (x : A) (l : list A) : list A :=
  match l with
  | [] => [x]
  | y :: l' => if key x <=? key y then x :: l else y :: insert_by_key key x l'
  end.
Definition sort_by_key {A} (key : A -> Z) (l : list A) : list A := foldr (insert_by_key key) [] l.

(** ** The tree *)

(** The path of a file of a snapshot. *)
Definition FilePath := (namespace * group_id * Z * string)%type.
Record Tree := {
  tr_ns : gset namespace;                           (* all namespaces but the root *)
  tr_groups : gmap (namespace * group_id) GroupDir;
  tr_journal : list FilePath;                       (* what was ever written to the move journal *)
}.
Definition group_at (ns : namespace) (g : group_id) (t : Tree) : Group := tr_groups t !! (ns, g).
Definition set_group (ns : namespace) (g : group_id) (group : Group) (t : Tree) : Tree :=
  {| tr_ns := tr_ns t; tr_groups := partial_alter (fun _ => group) (ns, g) (tr_groups t);
     tr_journal := tr_journal t |}.
Definition set_ns (l : gset namespace) (t : Tree) : Tree :=
  {| tr_ns := l; tr_groups := tr_groups t; tr_journal := tr_journal t |}.
Definition set_journal (j : list FilePath) (t : Tree) : Tree :=
  {| tr_ns := tr_ns t; tr_groups := tr_groups t; tr_journal := j |}.

Definition namespace_exists (ns : namespace) (t : Tree) : bool := is_root ns || bool_decide (ns ∈ tr_ns t).
Definition has_groups (ns : namespace) (t : Tree) : bool :=
  existsb (fun kv => bool_decide (kv.1.1 = ns)) (map_to_list (tr_groups t)).
Definition is_child (ns x : namespace) : bool :=
  bool_decide (length x = S (length ns)) && bool_decide (take (length ns) x = ns).
Definition has_children (ns : namespace) (t : Tree) : bool := existsb (is_child ns) (elements (tr_ns t)).

(** How directories are listed. *)
Record Listing := {
  l_snaps : gmap Z dir -> res (list Item);
  l_types : Tree -> namespace -> res (list Item);
  l_ids : Tree -> namespace -> string -> res (list Item);
  l_ns : Tree -> namespace -> ReadDir;
}.

(** A locked operation on a group: soft errors are worth a retry. *)
Inductive OpRes (A : Type) := Done (x : A) | Soft (err : string) | Hard (err : string).
Arguments Done {A} x.
Arguments Soft {A} err.
Arguments Hard {A} err.
Notation "'hard!' x ':=' m 'for' s 'in' k" :=
  (match m with Ok x => k | Err err | Panic err => (Hard err, s) end)
  (at level 200, x name, s at level 99, k at level 200).

Section datastore.
Context (N : NsLib) (M : NameLib) (L : AclLib) (D : StatsLib).
Variable archive_type : string -> option ArchiveType.

(** The iterators, to their ends. *)
Definition iter_snapshots (ls : Listing) (g : Group) : res (list (res Z)) :=
  match g with
  | None => Err "read dir failed"
  | Some gd =>
      let? fd := l_snaps ls (gd_snaps gd) in
      Ok (default [] (collect (ListSnapshots_next M) (S (length fd)) fd))
  end.
Definition iter_fuel (types : list Item) (ids : string -> res (list Item)) : nat :=
  S (foldr (fun i n => n + match i with
                           | inl _ => 1
                           | inr e => match e_name e with
                                      | Some ty => match ids ty with Ok dir => length dir | _ => 1 end
                                      | None => 0
                                      end
                           end)%nat 0%nat types).
Definition iter_backup_groups (ls : Listing) (ns : namespace) (t : Tree) : res (list (res group_id)) :=
  let? types := l_types ls t ns in
  let ids := l_ids ls t ns in
  Ok (default [] (collect (ListGroups_next M ids) (iter_fuel types ids) (ListGroups_new types))).

(** [collect] into a [Result]: it stops at the first error.  The fuel is that of [collect]. *)
Fixpoint collect_results {I A} (next : I -> option (res A) * I) (fuel : nat) (s : I) : res (list A) :=
  match fuel with
  | O => Err "the listing does not end"
  | S fuel =>
      match next s with
      | (None, _) => Ok []
      | (Some r, s) => let? x := r in let? l := collect_results next fuel s in Ok (x :: l)
      end
  end.
Fixpoint sequence_results {A} (l : list (res A)) : res (list A) :=
  match l with
  | [] => Ok []
  | r :: l => let? x := r in let? l := sequence_results l in Ok (x :: l)
  end.
Definition oks {A} (l : list (res A)) : list A := omap (fun r => match r with Ok x => Some x | _ => None end) l.

(** All namespaces at and below [ns]; there are not more than the tree has. *)
Definition list_namespaces (ls : Listing) (ns : namespace) (max_depth : Z) (t : Tree) : res (list namespace) :=
  let? iter := new_max_depth N ns max_depth in
  collect_results (ListNamespacesRecursive_next N (l_ns ls t)) (S (S (size (tr_ns t)))) iter.

(** ** Namespaces *)
Definition create_namespace (mkdir : bool) (parent : namespace) (name : string) (t : Tree) : res namespace * Tree :=
  if negb (namespace_exists parent t) then (Err "cannot create new namespace, parent doesn't already exists", t) else
  try! ns := from_parent_ns parent name for t in
  if negb mkdir then (Err "create_dir_all failed", t) else (Ok ns, set_ns ({[ ns ]} ∪ tr_ns t) t).

(** ** Owners *)
Record OwnerIo := { ow_open : bool; ow_write : option string }.
Definition with_owner (owner : string) (gd : GroupDir) : GroupDir :=
  {| gd_owner := Some owner; gd_notes := gd_notes gd; gd_snaps := gd_snaps gd |}.
Definition owner_line (auth_id : Authid) : string := authid_to_string L auth_id +:+ String newline "".
Definition set_owner (io : OwnerIo) (force : bool) (auth_id : Authid) (g : Group) : res unit * Group :=
  match g with
  | None => (Err "unable to create owner file", g)
  | Some gd =>
      if negb (ow_open io) || (negb force && bool_decide (is_Some (gd_owner gd)))
      then (Err "unable to create owner file", g) else
      match ow_write io with
      | Some part => (Err "unable to write owner file", Some (with_owner part gd))
      | None => (Ok tt, Some (with_owner (owner_line auth_id) gd))
      end
  end.
Definition first_line (s : string) : string := default ""%string (head (split newline s)).
Definition get_owner (read : bool) (g : Group) : res Authid :=
  match g ≫= gd_owner with
  | Some s => if read then authid_parse L (trim_end (first_line s)) else Err "unable to read owner file"
  | None => Err "unable to read owner file"
  end.
Definition check_backup_owner (owner auth_id : Authid) : bool :=
  bool_decide (owner = auth_id) || (is_token owner && bool_decide (authid_from (auth_user owner) = auth_id)).

(** ** Creating groups *)

(** [create_dir_all]: [Some k] when it fails once [k] levels are there. *)
Definition create_parents (fails : option nat) (ns : namespace) (t : Tree) : bool * Tree :=
  let n := default (length ns) (Nat.min (length ns) <$> fails) in
  (negb (bool_decide (is_Some fails)),
   set_ns (list_to_set ((fun k => take k ns) <$> List.seq 1 n) ∪ tr_ns t) t).

Record CreateGroupIo := {
  cg_parents : option nat; cg_create : bool; cg_lock : bool; cg_rmdir : bool; cg_owner : OwnerIo; cg_read : bool;
}.
Definition empty_group : GroupDir := {| gd_owner := None; gd_notes := None; gd_snaps := ∅ |}.
(** [remove_dir], whose errors are ignored. *)
Definition remove_dir (ok : bool) (g : Group) : Group :=
  match g with
  | Some {| gd_owner := None; gd_notes := None; gd_snaps := snaps |} =>
      if bool_decide (snaps = ∅) && ok then None else g
  | _ => g
  end.
Definition create_locked_backup_group_do (io : CreateGroupIo) (ns : namespace) (g : group_id) (auth_id : Authid)
    (t : Tree) : OpRes (Authid * bool) * Tree :=
  let '(ok, t) := create_parents (cg_parents io) ns t in
  if negb ok then (Hard "create_dir_all failed", t) else
  let created := negb (bool_decide (is_Some (group_at ns g t))) in
  if created && negb (cg_create io) then (Hard "unable to create backup group", t) else
  let t := if created then set_group ns g (Some empty_group) t else t in
  if negb (cg_lock io) then
    (Soft "while creating locked backup group",
     if created then set_group ns g (remove_dir (cg_rmdir io) (group_at ns g t)) t else t)
  else
    let '(r, group) :=
      if created then
        match set_owner (cg_owner io) false auth_id (group_at ns g t) with
        | (Ok _, group) => (Ok tt, group)
        | (Err err, group) | (Panic err, group) =>
            (Err err, remove_dir (cg_rmdir io) group)
        end
      else (Ok tt, group_at ns g t) in
    let t := set_group ns g group t in
    hard! _ := r for t in
    hard! owner := get_owner (cg_read io) (group_at ns g t) for t in
    (Done (owner, created), t).
Definition create_locked_backup_group (io : CreateGroupIo) (ns : namespace) (g : group_id) (auth_id : Authid)
    (t : Tree) : res Authid * Tree :=
  match create_locked_backup_group_do io ns g auth_id t with
  | (Done (owner, _), t) => (Ok owner, t)
  | (Soft err, t) | (Hard err, t) => (Err err, t)
  end.

(** ** Destroying groups and namespaces *)
Record GroupDestroyIo := { gx_list : Listing; gx_snap : Z -> DestroyIo; gx_remove : RemoveGroupIo }.

Fixpoint destroy_snapshots (io : GroupDestroyIo) (old_locking : bool) (l : list (res Z)) (stats : DeleteStats)
    (g : Group) : res DeleteStats * Group :=
  match l with
  | [] => (Ok stats, g)
  | snap :: l =>
      try! time := snap for g in
      if is_protected (default ∅ (g_snaps g !! time))
      then destroy_snapshots io old_locking l (increment_protected_snapshots stats) g else
      let! _, g := destroy (gx_snap io time) old_locking false time g in
      destroy_snapshots io old_locking l (increment_removed_snapshots stats) g
  end.
(** [BackupGroup::destroy]. *)
Definition group_destroy (io : GroupDestroyIo) (old_locking : bool) (g : Group) : res DeleteStats * Group :=
  try! items := iter_snapshots (gx_list io) g for g in
  let! stats, g := destroy_snapshots io old_locking items stats_zero g in
  if all_removed stats && negb old_locking then
    let! _, g := remove_group_dir (gx_remove io) g in
    (Ok (increment_removed_groups stats), g)
  else (Ok stats, g).

Definition remove_backup_group (lock : bool) (io : GroupDestroyIo) (old_locking : bool) (ns : namespace)
    (g : group_id) (t : Tree) : res DeleteStats * Tree :=
  if negb lock then (Err "while destroying group", t) else
  let '(r, group) := group_destroy io old_locking (group_at ns g t) in
  (r, set_group ns g group t).

Record RemoveNsIo := {
  rn_list : Listing; rn_lock : group_id -> bool; rn_group : group_id -> GroupDestroyIo;
  rn_open : bool; rn_rmdir : bool;
}.
Fixpoint remove_groups (io : RemoveNsIo) (old_locking : bool) (ns : namespace) (l : list (res group_id))
    (s : bool * DeleteStats) (t : Tree) : res (bool * DeleteStats) * Tree :=
  match l with
  | [] => (Ok s, t)
  | group :: l =>
      try! g := group for t in
      let! delete_stats, t := remove_backup_group (rn_lock io g) (rn_group io g) old_locking ns g t in
      remove_groups io old_locking ns l (s.1 && all_removed delete_stats, stats_sum s.2 delete_stats) t
  end.
Definition remove_namespace_groups (io : RemoveNsIo) (old_locking : bool) (ns : namespace) (t : Tree)
    : res (bool * DeleteStats) * Tree :=
  try! items := iter_backup_groups (rn_list io) ns t for t in
  remove_groups io old_locking ns items (true, stats_zero) t.

(** The directories of the types and of children are removed if they are empty; [rn_rmdir]: this and the removal
    of the namespace succeed, and nothing else is in it. *)
Definition remove_namespace (io : RemoveNsIo) (old_locking : bool) (ns : namespace) (delete_groups : bool) (t : Tree)
    : res (bool * DeleteStats) * Tree :=
  let! s, t :=
    if delete_groups then
      let! s, t := remove_namespace_groups io old_locking ns t in
      (Ok (true && s.1, stats_sum stats_zero s.2), t)
    else (Ok (true, stats_zero), t) in
  if negb (rn_open io) then (Err "open failed", t) else
  if is_root ns then (Ok s, t) else
  if negb (bool_decide (ns ∈ tr_ns t)) then (Ok s, t) else
  if has_groups ns t || has_children ns t || negb (rn_rmdir io) then (Ok (false, s.2), t)
  else (Ok s, set_ns (tr_ns t ∖ {[ ns ]}) t).

Fixpoint remove_namespaces (io : namespace -> RemoveNsIo) (old_locking delete_groups : bool)
    (children : list namespace) (s : bool * DeleteStats) (t : Tree) : res (bool * DeleteStats) * Tree :=
  match children with
  | [] => (Ok s, t)
  | child :: children =>
      let! removed, t := remove_namespace (io child) old_locking child delete_groups t in
      remove_namespaces io old_locking delete_groups children (s.1 && removed.1, stats_sum s.2 removed.2) t
  end.
Definition remove_namespace_recursive (ls : Listing) (io : namespace -> RemoveNsIo) (old_locking : bool)
    (ns : namespace) (delete_groups : bool) (t : Tree) : res (bool * DeleteStats) * Tree :=
  try! children := list_namespaces ls ns ns_max_depth t for t in
  let children := sort_by_key (fun b => - depth b) children in
  remove_namespaces io old_locking delete_groups children (true, stats_zero) t.

(** ** Moving groups *)
Definition check_move_group (source_ns target_ns : namespace) (g : group_id) (merge_group : bool) (t : Tree)
    : res unit :=
  if bool_decide (source_ns = target_ns) then Err "source and target namespace must be different" else
  if negb (namespace_exists target_ns t) then Err "target namespace does not exist" else
  if negb (bool_decide (is_Some (group_at source_ns g t))) then Err "group does not exist in namespace" else
  if bool_decide (is_Some (group_at target_ns g t)) && negb merge_group
  then Err "group already exists in target namespace and merge-group is disabled" else
  Ok tt.

Record MergeIo := { me_source_owner : bool; me_target_owner : bool; me_source : Listing; me_target : Listing }.
Definition check_merge_invariants (io : MergeIo) (source target : Group) : res unit :=
  let? src_owner := get_owner (me_source_owner io) source in
  let? tgt_owner := get_owner (me_target_owner io) target in
  if negb (bool_decide (src_owner = tgt_owner)) then Err "cannot merge group: owner mismatch" else
  let? source_items := iter_snapshots (me_source io) source in
  let src_oldest := foldl (fun m s => if s <? m then s else m) I64_MAX (oks source_items) in
  if negb (src_oldest =? I64_MAX) then
    let? target_items := iter_snapshots (me_target io) target in
    if existsb (fun s => src_oldest <=? s) (oks target_items)
    then Err "cannot merge group: snapshot time mismatch" else Ok tt
  else Ok tt.

(** [move_to]: the index files are recorded at their new paths, then the directory is renamed.  [mt_list] are the
    entries of the directory with the errors, [mt_journal] is [Some k] when only [k] of the paths could be written. *)
Record MoveIo := { mt_target_name : bool; mt_list : list string -> res (list string); mt_journal : option nat; mt_rename : bool }.
Definition is_index (name : string) : bool :=
  match archive_type name with Some FixedIndexT | Some DynamicIndexT => true | _ => false end.
Definition append_moved_indices (fails : option nat) (paths : list FilePath) (t : Tree) : res unit * Tree :=
  match paths with
  | [] => (Ok tt, t)
  | _ =>
      match fails with
      | Some k => (Err "failed to append to move journal", set_journal (tr_journal t ++ take k paths) t)
      | None => (Ok tt, set_journal (tr_journal t ++ paths) t)
      end
  end.
Definition move_to (io : MoveIo) (source_ns target_ns : namespace) (g : group_id) (time : Z) (t : Tree)
    : res unit * Tree :=
  if negb (mt_target_name io) then (Err "invalid time string", t) else
  match g_snaps (group_at source_ns g t) !! time with
  | None => (Err "failed to list source snapshot dir", t)
  | Some d =>
      try! names := mt_list io (fst <$> map_to_list d) for t in
      let paths := (fun name => (target_ns, g, time, name)) <$> filter (fun name => is_index name = true) names in
      let! _, t := append_moved_indices (mt_journal io) paths t in
      let target := group_at target_ns g t in
      if negb (mt_rename io && g_exists target &&
               bool_decide (default ∅ (g_snaps target !! time) = ∅))
      then (Err "failed to move snapshot", t) else
      let t := set_group source_ns g
                 (set_snaps (delete time (g_snaps (group_at source_ns g t))) (group_at source_ns g t)) t in
      (Ok tt, set_group target_ns g (set_snap time d (group_at target_ns g t)) t)
  end.

Record NotesIo := { nt_read_source : bool; nt_read_target : bool; nt_rename : bool }.
Definition set_notes (notes : option (list byte)) (g : Group) : Group :=
  (fun gd => {| gd_owner := gd_owner gd; gd_notes := notes; gd_snaps := gd_snaps gd |}) <$> g.
Definition move_notes_to (io : NotesIo) (source target : Group) : res unit * (Group * Group) :=
  match source ≫= gd_notes with
  | None => (Ok tt, (source, target))
  | Some notes =>
      if negb (nt_read_source io) then (Err "reading source group notes failed", (source, target)) else
      match target ≫= gd_notes with
      | Some _ =>
          if negb (nt_read_target io) then (Err "reading target group notes failed", (source, target))
          else (Ok tt, (source, target))
      | None =>
          if negb (nt_rename io && g_exists target) then (Err "failed to move group notes", (source, target))
          else (Ok tt, (set_notes None source, set_notes (Some notes) target))
      end
  end.

Record MoveGroupIo := {
  mg_lock : bool; mg_read_owner : bool; mg_create : CreateGroupIo; mg_merge : MergeIo; mg_list : Listing;
  mg_snap_lock : Z -> bool; mg_move : Z -> MoveIo; mg_notes : NotesIo; mg_destroy : GroupDestroyIo;
}.
Fixpoint move_batch (io : MoveGroupIo) (source_ns target_ns : namespace) (g : group_id) (l : list Z) (t : Tree)
    : OpRes unit * Tree :=
  match l with
  | [] => (Done tt, t)
  | time :: l =>
      let '(r, t) := move_to (mg_move io time) source_ns target_ns g time t in
      hard! _ := r for t in
      move_batch io source_ns target_ns g l t
  end.
Definition MAX_SNAPSHOT_LOCKS : nat := 512.
(** [chunks]; the fuel is the number of batches. *)
Fixpoint move_batches (io : MoveGroupIo) (source_ns target_ns : namespace) (g : group_id) (fuel : nat) (l : list Z)
    (t : Tree) : OpRes unit * Tree :=
  match fuel, l with
  | _, [] => (Done tt, t)
  | O, _ => (Hard "more batches than snapshots", t)
  | S fuel, _ =>
      let batch := take MAX_SNAPSHOT_LOCKS l in
      if negb (forallb (mg_snap_lock io) batch) then (Soft "unable to acquire snapshot lock", t) else
      match move_batch io source_ns target_ns g batch t with
      | (Done _, t) => move_batches io source_ns target_ns g fuel (drop MAX_SNAPSHOT_LOCKS l) t
      | r => r
      end
  end.

(** The checks with the lock of the source, the target group, and the times to move. *)
Definition prepare_move (io : MoveGroupIo) (group_ns target_group_ns : namespace) (g : group_id) (merge_groups : bool)
    (t : Tree) : OpRes (list Z) * Tree :=
  hard! _ := check_move_group group_ns target_group_ns g merge_groups t for t in
  hard! source_owner := get_owner (mg_read_owner io) (group_at group_ns g t) for t in
  match create_locked_backup_group_do (mg_create io) target_group_ns g source_owner t with
  | (Done (_, created), t) =>
      let merge := negb created in
      if merge && negb merge_groups then (Hard "group already exists and merging is disabled", t) else
      hard! _ := (if merge then check_merge_invariants (mg_merge io) (group_at group_ns g t) (group_at target_group_ns g t)
                  else Ok tt) for t in
      hard! items := iter_snapshots (mg_list io) (group_at group_ns g t) for t in
      hard! snapshots := sequence_results items for t in
      (Done (sort_by_key id snapshots), t)
  | (Soft err, t) => (Soft err, t)
  | (Hard err, t) => (Hard err, t)
  end.
(** The notes, and what is left of the source. *)
Definition finish_move (io : MoveGroupIo) (group_ns target_group_ns : namespace) (g : group_id) (t : Tree)
    : OpRes unit * Tree :=
  let '(r, (source, target)) := move_notes_to (mg_notes io) (group_at group_ns g t) (group_at target_group_ns g t) in
  let t := set_group target_group_ns g target (set_group group_ns g source t) in
  hard! _ := r for t in
  let '(r, source) := group_destroy (mg_destroy io) false (group_at group_ns g t) in
  let t := set_group group_ns g source t in
  hard! _ := r for t in
  (Done tt, t).
Definition lock_and_move_group (io : MoveGroupIo) (source_ns group_ns : namespace) (g : group_id)
    (target_ns : namespace) (merge_groups : bool) (t : Tree) : OpRes unit * Tree :=
  hard! target_group_ns := map_prefix group_ns source_ns target_ns for t in
  if negb (mg_lock io) then (Soft "unable to acquire backup group lock", t) else
  match prepare_move io group_ns target_group_ns g merge_groups t with
  | (Done snapshots, t) =>
      match move_batches io group_ns target_group_ns g (length snapshots) snapshots t with
      | (Done _, t) => finish_move io group_ns target_group_ns g t
      | r => r
      end
  | (Soft err, t) => (Soft err, t)
  | (Hard err, t) => (Hard err, t)
  end.
Definition move_group (old_locking : bool) (io : MoveGroupIo) (source_ns : namespace) (g : group_id)
    (target_ns : namespace) (merge_group : bool) (t : Tree) : res unit * Tree :=
  if old_locking then (Err "move operations require new-style file-based locking", t) else
  match lock_and_move_group io source_ns source_ns g target_ns merge_group t with
  | (Done _, t) => (Ok tt, t)
  | (Soft err, t) | (Hard err, t) => (Err err, t)
  end.

(** ** Moving namespaces *)
Definition check_move_namespace (source_ns target_ns : namespace) (t : Tree) : res unit :=
  if is_root source_ns then Err "cannot move root namespace" else
  if bool_decide (source_ns = target_ns) then Err "source and target namespace must be different" else
  if negb (namespace_exists source_ns t) then Err "source namespace does not exist" else
  if negb (is_root target_ns) && negb (namespace_exists (ns_parent target_ns) t)
  then Err "target parent namespace does not exist" else
  if bool_decide (is_Some (ns_contains source_ns target_ns)) then Err "cannot move namespace into its own subtree" else
  Ok tt.

Definition check_namespace_depth_limit (source target : namespace) (namespaces : list namespace) : res unit :=
  let sub_depth :=
    match namespaces with
    | [] => 0
    | ns :: l => u64 (foldl (fun m x => m `max` depth x) (depth ns) l - depth source)
    end in
  if ns_max_depth <? u64 (sub_depth + depth target) then Err "namespace depth limit exceeded" else Ok tt.

Record MoveNsIo := {
  mn_attempted : Listing; mn_mkdir : namespace -> bool; mn_groups : Listing;
  mn_move : namespace -> group_id -> MoveGroupIo; mn_retry : namespace -> group_id -> MoveGroupIo;
  mn_children : Listing; mn_remove : namespace -> RemoveNsIo;
}.

(** The target namespaces, parents before children. *)
Fixpoint create_targets (io : MoveNsIo) (source_ns target_ns : namespace) (l : list namespace) (t : Tree)
    : res unit * Tree :=
  match l with
  | [] => (Ok tt, t)
  | ns :: l =>
      try! target_child := map_prefix ns source_ns target_ns for t in
      if is_root target_child || namespace_exists target_child t then create_targets io source_ns target_ns l t else
      try! name := from_option Ok (Err "cannot determine last component") (last target_child) for t in
      let! _, t := create_namespace (mn_mkdir io target_child) (ns_parent target_child) name t in
      create_targets io source_ns target_ns l t
  end.

(** What failed, and the groups to try again. *)
Record Failed := {
  fd_fatal : list (namespace * group_id);
  fd_retryable : list (namespace * group_id);
  fd_ns : list namespace;
  fd_deferred : list (namespace * group_id);
}.
Definition no_failures : Failed := {| fd_fatal := []; fd_retryable := []; fd_ns := []; fd_deferred := [] |}.
Definition fail_ns (ns : namespace) (f : Failed) : Failed :=
  {| fd_fatal := fd_fatal f; fd_retryable := fd_retryable f; fd_ns := ns :: fd_ns f; fd_deferred := fd_deferred f |}.
Definition fail_fatal (ns : namespace) (g : group_id) (f : Failed) : Failed :=
  fail_ns ns {| fd_fatal := fd_fatal f ++ [(ns, g)]; fd_retryable := fd_retryable f; fd_ns := fd_ns f;
                fd_deferred := fd_deferred f |}.
Definition fail_retryable (ns : namespace) (g : group_id) (f : Failed) : Failed :=
  fail_ns ns {| fd_fatal := fd_fatal f; fd_retryable := fd_retryable f ++ [(ns, g)]; fd_ns := fd_ns f;
                fd_deferred := fd_deferred f |}.
Definition defer (ns : namespace) (g : group_id) (f : Failed) : Failed :=
  {| fd_fatal := fd_fatal f; fd_retryable := fd_retryable f; fd_ns := fd_ns f;
     fd_deferred := fd_deferred f ++ [(ns, g)] |}.

Fixpoint move_groups (io : MoveNsIo) (source_ns target_ns : namespace) (merge_groups : bool) (ns : namespace)
    (l : list (res group_id)) (f : Failed) (t : Tree) : Failed * Tree :=
  match l with
  | [] => (f, t)
  | Ok g :: l =>
      match lock_and_move_group (mn_move io ns g) source_ns ns g target_ns merge_groups t with
      | (Done _, t) => move_groups io source_ns target_ns merge_groups ns l f t
      | (Soft _, t) => move_groups io source_ns target_ns merge_groups ns l (defer ns g f) t
      | (Hard _, t) => move_groups io source_ns target_ns merge_groups ns l (fail_fatal ns g f) t
      end
  | _ :: l => move_groups io source_ns target_ns merge_groups ns l (fail_ns ns f) t
  end.
Fixpoint move_all (io : MoveNsIo) (source_ns target_ns : namespace) (merge_groups : bool) (attempted : list namespace)
    (f : Failed) (t : Tree) : Failed * Tree :=
  match attempted with
  | [] => (f, t)
  | ns :: attempted =>
      let '(f, t) :=
        match iter_backup_groups (mn_groups io) ns t with
        | Ok items => move_groups io source_ns target_ns merge_groups ns items f t
        | _ => (fail_ns ns f, t)
        end in
      move_all io source_ns target_ns merge_groups attempted f t
  end.
Fixpoint retry_deferred (io : MoveNsIo) (source_ns target_ns : namespace) (merge_groups : bool)
    (l : list (namespace * group_id)) (f : Failed) (t : Tree) : Failed * Tree :=
  match l with
  | [] => (f, t)
  | (ns, g) :: l =>
      match lock_and_move_group (mn_retry io ns g) source_ns ns g target_ns merge_groups t with
      | (Done _, t) => retry_deferred io source_ns target_ns merge_groups l f t
      | (Soft _, t) => retry_deferred io source_ns target_ns merge_groups l (fail_retryable ns g f) t
      | (Hard _, t) => retry_deferred io source_ns target_ns merge_groups l (fail_fatal ns g f) t
      end
  end.

(** [iter_backup_ns_ok] to its end; [None]: there is none. *)
Definition iter_backup_ns_ok (ls : Listing) (ns : namespace) (t : Tree) : option (list namespace) :=
  match l_ns ls t ns with
  | Opened l => oks <$> collect (ListNamespaces_next N (l_ns ls t)) (S (length l)) (ListNamespaces_new ns)
  | NoEntry => Some []
  | ReadFailed _ => None
  end.
(** Namespaces with children that were not moved stay, whatever the reason.  [false]: the loop does not end. *)
Fixpoint cleanup_sources (io : MoveNsIo) (old_locking : bool) (attempted failed l : list namespace) (t : Tree)
    : bool * Tree :=
  match l with
  | [] => (true, t)
  | ns :: l =>
      if existsb (fun failed => bool_decide (failed = ns) || bool_decide (is_Some (ns_contains ns failed))) failed
      then cleanup_sources io old_locking attempted failed l t else
      match iter_backup_ns_ok (mn_children io) ns t with
      | None => (false, t)
      | Some children =>
          if negb (forallb (fun child => bool_decide (child ∈ attempted)) children)
          then cleanup_sources io old_locking attempted failed l t else
          let '(_, t) := remove_namespace (mn_remove io ns) old_locking ns false t in
          cleanup_sources io old_locking attempted failed l t
      end
  end.

(** [None]: it does not return. *)
Definition move_namespace (io : MoveNsIo) (old_locking : bool) (source_ns target_ns : namespace) (max_depth : option Z)
    (delete_source merge_groups : bool) (t : Tree) : option (res unit) * Tree :=
  if old_locking then (Some (Err "move operations require new-style file-based locking"), t) else
  match
    let? _ := check_move_namespace source_ns target_ns t in
    let? attempted := list_namespaces (mn_attempted io) source_ns (default ns_max_depth max_depth) t in
    let? _ := check_namespace_depth_limit source_ns target_ns attempted in
    Ok attempted
  with
  | Err err | Panic err => (Some (Err err), t)
  | Ok attempted =>
      match create_targets io source_ns target_ns (sort_by_key depth attempted) t with
      | (Err err, t) | (Panic err, t) => (Some (Err err), t)
      | (Ok _, t) =>
          let '(f, t) := move_all io source_ns target_ns merge_groups attempted no_failures t in
          let '(f, t) := retry_deferred io source_ns target_ns merge_groups (fd_deferred f) f t in
          let '(ended, t) :=
            if delete_source then cleanup_sources io old_locking attempted (fd_ns f) (rev attempted) t
            else (true, t) in
          if negb ended then (None, t) else
          if negb (bool_decide (fd_fatal f = [])) || negb (bool_decide (fd_retryable f = []))
          then (Some (Err "namespace move partially completed"), t)
          else (Some (Ok tt), t)
      end
  end.
End datastore.
