(* ===== verification/DatastoreSpec.v ===== *)
(** * Properties of the operations on namespaces and groups

    No operation loses a protected snapshot or touches groups it is not asked to; moving a group keeps every
    snapshot at the source or at the target, whatever fails, in an order that lets a later attempt go on.  The tree stays
    well-formed. *)

From S2P Require Import Prelude Text GarbageCollection Acl AclSpec Hierarchy HierarchySpec GroupDir GroupDirSpec Datastore.
From Stdlib Require Import Sorting.Sorted.

(** ** Access to the tree *)
Definition snap_at (ns : namespace) (g : group_id) (time : Z) (t : Tree) : option dir := g_snaps (group_at ns g t) !! time.

Lemma group_at_set ns g group t : group_at ns g (set_group ns g group t) = group.
Proof. apply lookup_partial_alter_eq. Qed.
Lemma group_at_set_ne ns g group t x h : (x, h) <> (ns, g) -> group_at x h (set_group ns g group t) = group_at x h t.
Proof. intros Hne. apply lookup_partial_alter_ne. congruence. Qed.
Lemma set_group_id ns g t : set_group ns g (group_at ns g t) t = t.
Proof.
  destruct t as [l gs j]. unfold set_group, group_at. cbn. f_equal. by apply partial_alter_self.
Qed.

(** ** Lists of results *)
Lemma collect_more {I A} (next : I -> option A * I) fuel fuel' s l :
  collect next fuel s = Some l -> (fuel <= fuel')%nat -> collect next fuel' s = Some l.
Proof.
  revert fuel' s l. induction fuel as [|fuel IH]; intros fuel' s l; [done|]. destruct fuel' as [|fuel']; [lia|]. cbn.
  destruct (next s) as [[x|] s']; [|done]. destruct (collect next fuel s') as [l'|] eqn:E; [|done]. cbn. intros [= <-] Hf.
  by rewrite (IH fuel' s' l' E) by lia.
Qed.

Lemma elem_of_oks {A} (l : list (res A)) x : x ∈ oks l <-> Ok x ∈ l.
Proof.
  unfold oks. rewrite list_elem_of_omap. split; [|by eexists].
  intros (r & Hr & E). by destruct r; simplify_eq.
Qed.

Lemma sequence_results_spec {A} (l : list (res A)) x : sequence_results l = Ok x <-> l = Ok <$> x.
Proof.
  revert x. induction l as [|r l IH]; intros x; cbn.
  { destruct x; [done|]. split; [congruence|done]. }
  destruct r as [y|e|e]; [|split; [done|by destruct x]..].
  destruct (sequence_results l) as [l'|e|e]; cbn.
  - destruct x as [|z x]; [by split|]. rewrite fmap_cons. split; [intros [= <- <-]; f_equal; by apply IH|].
    intros [= <- E]. apply IH in E. by simplify_eq.
  - split; [done|]. destruct x as [|z x]; [done|]. rewrite fmap_cons. intros [= <- E]. by apply IH in E.
  - split; [done|]. destruct x as [|z x]; [done|]. rewrite fmap_cons. intros [= <- E]. by apply IH in E.
Qed.

Section sorting.
Context {A} (key : A -> Z).
Lemma insert_by_key_perm x l : insert_by_key key x l ≡ₚ x :: l.
Proof. induction l as [|y l IH]; [done|]. cbn. destruct (_ <=? _); [done|]. rewrite IH. apply Permutation_swap. Qed.
Lemma sort_by_key_perm l : sort_by_key key l ≡ₚ l.
Proof. induction l as [|x l IH]; [done|]. cbn. by rewrite insert_by_key_perm, IH. Qed.
Lemma sort_by_key_sorted l : StronglySorted (fun a b => key a <= key b) (sort_by_key key l).
Proof.
  induction l as [|x l IHl]; [constructor|]. cbn [sort_by_key foldr]. fold (sort_by_key key l).
  induction IHl as [|y l' Hs IH Hy]; cbn; [repeat constructor|]. destruct (Z.leb_spec (key x) (key y)).
  - constructor; [by constructor|]. constructor; [done|]. eapply Forall_impl; [exact Hy|]. cbn. intros. lia.
  - constructor; [done|]. rewrite insert_by_key_perm. constructor; [lia|done].
Qed.
End sorting.

Lemma length_omap_le {A B} (f : A -> option B) l : (length (omap f l) <= length l)%nat.
Proof. induction l as [|x l IH]; [done|]. cbn. destruct (f x); cbn; lia. Qed.

Section datastore_spec.
Context (N : NsLib) (M : NameLib) (L : AclLib) (D : StatsLib).
Variable archive_type : string -> option ArchiveType.

(** ** Listings *)
Lemma iter_snapshots_spec ls gd items :
  iter_snapshots M ls (Some gd) = Ok items <->
  exists fd, l_snaps ls (gd_snaps gd) = Ok fd /\ items = snapshot_items M fd.
Proof.
  unfold iter_snapshots. assert (forall fd, collect (ListSnapshots_next M) (S (length fd)) fd = Some (snapshot_items M fd)) as Hc.
  { intros fd. eapply collect_more; [apply yields_collect, ListSnapshots_yields|].
    pose proof (length_omap_le (named (backup_date_regex M) (parse_rfc3339 M)) fd). unfold snapshot_items. lia. }
  destruct (l_snaps ls (gd_snaps gd)) as [fd|e|e].
  - rewrite Hc. split; [intros [= <-]; by eexists|]. by intros (? & [= <-] & ->).
  - split; [done|]. by intros (? & ? & _).
  - split; [done|]. by intros (? & ? & _).
Qed.

(** A listing of snapshots misses none if there are no errors; or in any case. *)
Definition honest (ls : Listing) : Prop :=
  forall snaps fd, l_snaps ls snaps = Ok fd -> Forall (fun r => is_ok r = true) (snapshot_items M fd) ->
    forall time, is_Some (snaps !! time) -> Ok time ∈ snapshot_items M fd.
Definition complete (ls : Listing) : Prop :=
  forall snaps fd, l_snaps ls snaps = Ok fd ->
    forall time, is_Some (snaps !! time) -> Ok time ∈ snapshot_items M fd.

Lemma honest_times ls g items l :
  honest ls -> iter_snapshots M ls g = Ok items -> sequence_results items = Ok l ->
  forall time, is_Some (g_snaps g !! time) -> time ∈ l.
Proof.
  intros Hh Hi Hs time Ht. destruct g as [gd|]; [|by destruct Ht].
  apply iter_snapshots_spec in Hi as (fd & Hfd & ->). apply sequence_results_spec in Hs. cbn in Ht.
  specialize (Hh _ _ Hfd). rewrite Hs in Hh. specialize (Hh ltac:(by apply Forall_fmap, Forall_true) time Ht).
  apply list_elem_of_fmap in Hh as (x & [= ->] & ?). done.
Qed.

Lemma complete_times ls g items :
  complete ls -> iter_snapshots M ls g = Ok items -> forall time, is_Some (g_snaps g !! time) -> time ∈ oks items.
Proof.
  intros Hc Hi time Ht. destruct g as [gd|]; [|by destruct Ht].
  apply iter_snapshots_spec in Hi as (fd & Hfd & ->). apply elem_of_oks. by eapply Hc.
Qed.

(** ** Destroying *)

(** Snapshots are only lost or cut short, and protected ones are not. *)
Definition shrinks (g g' : Group) : Prop :=
  (forall time d, g_snaps g !! time = Some d -> is_protected d = true -> g_snaps g' !! time = Some d) /\
  (forall time d', g_snaps g' !! time = Some d' -> exists d, g_snaps g !! time = Some d /\ d' ⊆ d).
#[local] Instance shrinks_refl : Reflexive shrinks.
Proof. intros g. split; [done|]. intros time d Hd. by exists d. Qed.

Lemma destroy_shrinks io old force time g r g' : destroy io old force time g = (r, g') -> shrinks g g'.
Proof.
  intros (Ho & Hp & Hs & _)%destroy_spec. split.
  - intros x d Hx Hpr. destruct (decide (x = time)) as [->|Hne]; [by rewrite (Hp d Hx Hpr)|by rewrite Ho].
  - intros x d' Hx. destruct (decide (x = time)) as [->|Hne]; [auto|]. exists d'. by rewrite Ho in Hx.
Qed.

Lemma shrinks_trans g g1 g2 : shrinks g g1 -> shrinks g1 g2 -> shrinks g g2.
Proof.
  intros [Hp1 Hs1] [Hp2 Hs2]. split; [auto|]. intros time d2 (d1 & Hd1 & Hsub)%Hs2.
  apply Hs1 in Hd1 as (d & Hd & ?). exists d. split; [done|]. by etrans.
Qed.
Lemma shrinks_same g g' : g_snaps g' = g_snaps g -> shrinks g g'.
Proof. intros E. split; rewrite E; [done|]. intros time d Hd. by exists d. Qed.

Lemma destroy_snapshots_shrinks io old l stats g r g' :
  destroy_snapshots D io old l stats g = (r, g') -> shrinks g g'.
Proof.
  revert stats g. induction l as [|[time|e|e] l IH]; intros stats g; cbn [destroy_snapshots];
    [by intros [= <- <-]| |by intros [= <- <-]..].
  destruct (is_protected _); [apply IH|]. destruct (destroy _ _ _ _ _) as [r1 g1] eqn:E1.
  apply destroy_shrinks in E1. destruct r1; [|by intros [= <- <-]..]. intros E. eapply shrinks_trans; [done|by eapply IH].
Qed.

Lemma group_destroy_shrinks io old g r g' : group_destroy M D io old g = (r, g') -> shrinks g g'.
Proof.
  unfold group_destroy. destruct (iter_snapshots _ _ _) as [items|e|e]; [|by intros [= <- <-]..].
  destruct (destroy_snapshots _ _ _ _ _ _) as [r1 g1] eqn:E1. apply destroy_snapshots_shrinks in E1.
  destruct r1; [|by intros [= <- <-]..]. destruct (_ && _); [|by intros [= <- <-]].
  destruct (remove_group_dir _ _) as [r2 g2] eqn:E2. apply remove_group_dir_snaps in E2 as [E2 _].
  intros E. assert (g' = g2) as -> by (by destruct r2; simplify_eq). eapply shrinks_trans; [done|by apply shrinks_same].
Qed.

(** A group without snapshots is removed as a whole, if it can be listed and the files can be removed. *)
Lemma group_destroy_empty `{HD : !StatsLaws D} io g r g' :
  g_snaps g = ∅ -> group_destroy M D io false g = (r, g') -> is_ok r = true -> g' = None.
Proof.
  intros He. unfold group_destroy. destruct (iter_snapshots _ _ _) as [items|e|e] eqn:Ei; [|by intros [= <- <-]..].
  destruct (destroy_snapshots _ _ _ _ _ _) as [r1 g1] eqn:E1. intros E Hr.
  assert (items = [] /\ g1 = g /\ r1 = Ok stats_zero \/ is_ok r1 = false) as [(-> & -> & ->)|Hr1].
  { destruct items as [|[time|e|e] items]; cbn [destroy_snapshots] in E1; [left; by simplify_eq| |right; by simplify_eq..].
    right. rewrite He, lookup_empty in E1. cbn in E1. unfold destroy in E1. rewrite He, lookup_empty in E1.
    repeat case_match; by simplify_eq. }
  - rewrite all_removed_zero in E. cbn in E. unfold remove_group_dir in E. destruct g as [gd|]; [|by simplify_eq].
    repeat case_match; by simplify_eq.
  - destruct r1; by simplify_eq.
Qed.
(** ** Well-formed trees: groups and namespaces are in namespaces that exist *)
Definition tree_wf (t : Tree) : Prop :=
  (forall ns g, is_Some (group_at ns g t) -> namespace_exists ns t = true) /\
  (forall ns n, ns ++ [n] ∈ tr_ns t -> namespace_exists ns t = true).

Lemma namespace_exists_spec ns t : namespace_exists ns t = true <-> ns = [] \/ ns ∈ tr_ns t.
Proof. unfold namespace_exists, is_root. by rewrite orb_true_iff, !bool_decide_eq_true. Qed.

Lemma has_groups_spec ns t : has_groups ns t = true <-> exists g, is_Some (group_at ns g t).
Proof.
  unfold has_groups, group_at. rewrite existsb_exists. split.
  - intros ([[x g] gd] & Hin%list_elem_of_In%elem_of_map_to_list & Hx). cbn in Hx.
    apply bool_decide_eq_true in Hx as ->. exists g. by exists gd.
  - intros (g & gd & Hg). exists ((ns, g), gd). split; [by apply list_elem_of_In, elem_of_map_to_list|].
    by apply bool_decide_eq_true.
Qed.

Lemma is_child_spec ns x : is_child ns x = true <-> exists n, x = ns ++ [n].
Proof.
  unfold is_child. rewrite andb_true_iff, !bool_decide_eq_true. split.
  - intros [Hl Ht]. rewrite <-(take_drop (length ns) x), Ht. assert (length (drop (length ns) x) = 1%nat) as Hd.
    { rewrite length_drop. lia. }
    destruct (drop (length ns) x) as [|n [|]]; [done|by exists n|done].
  - intros [n ->]. rewrite length_app, take_app_length. cbn. split; [lia|done].
Qed.
Lemma has_children_spec ns t : has_children ns t = true <-> exists n, ns ++ [n] ∈ tr_ns t.
Proof.
  unfold has_children. rewrite existsb_exists. setoid_rewrite is_child_spec. split.
  - intros (x & Hx%list_elem_of_In & n & ->). exists n. by apply elem_of_elements.
  - intros [n Hn]. exists (ns ++ [n]). split; [by apply list_elem_of_In, elem_of_elements|by exists n].
Qed.

(** ** Removing groups and namespaces *)

(** Groups of [P] only lose snapshots that are not protected, others stay as they are; namespaces are only removed
    when they are empty. *)
Record removes (P : namespace -> Prop) (t t' : Tree) : Prop := {
  rm_groups x h : group_at x h t' = group_at x h t \/ (P x /\ shrinks (group_at x h t) (group_at x h t'));
  rm_ns x : x ∈ tr_ns t' -> x ∈ tr_ns t;
  rm_ns_kept x : x ∈ tr_ns t -> x ∈ tr_ns t' \/ P x;
  rm_journal : tr_journal t' = tr_journal t;
  rm_new x h : is_Some (group_at x h t') -> is_Some (group_at x h t);
  rm_wf : tree_wf t -> tree_wf t';
}.
Lemma removes_refl P t : removes P t t.
Proof. split; auto. Qed.
Lemma removes_trans P t t1 t2 : removes P t t1 -> removes P t1 t2 -> removes P t t2.
Proof.
  intros H1 H2. split; [|intros x Hx; apply (rm_ns _ _ _ H1), (rm_ns _ _ _ H2), Hx| |
    by rewrite (rm_journal _ _ _ H2), (rm_journal _ _ _ H1)|intros x h Hx; apply (rm_new _ _ _ H1), (rm_new _ _ _ H2), Hx|
    intros Hw; apply (rm_wf _ _ _ H2), (rm_wf _ _ _ H1), Hw].
  - intros x h. destruct (rm_groups _ _ _ H1 x h) as [E1|[Hx S1]], (rm_groups _ _ _ H2 x h) as [E2|[Hx2 S2]].
    + left. congruence.
    + right. split; [done|]. by rewrite <-E1.
    + right. split; [done|]. by rewrite E2.
    + right. split; [done|]. by eapply shrinks_trans.
  - intros x Hx. destruct (rm_ns_kept _ _ _ H1 x Hx) as [Hx1|]; [|by right]. by apply (rm_ns_kept _ _ _ H2).
Qed.
Lemma removes_mono (P Q : namespace -> Prop) t t' : (forall x, P x -> Q x) -> removes P t t' -> removes Q t t'.
Proof.
  intros Hpq [Hg Hn Hk Hj Hw Hf]. split; [|done| |done..].
  - intros x h. destruct (Hg x h) as [?|[? ?]]; auto.
  - intros x Hx. destruct (Hk x Hx); auto.
Qed.
Lemma remove_backup_group_removes lock io old ns g t r t' :
  remove_backup_group M D lock io old ns g t = (r, t') -> removes (eq ns) t t' /\ tr_ns t' = tr_ns t.
Proof.
  unfold remove_backup_group. destruct lock; [|intros [= <- <-]; split; [apply removes_refl|done]]. cbn [negb].
  destruct (group_destroy _ _ _ _ _) as [r1 group] eqn:E. intros [= <- <-]. split; [|done].
  assert (is_Some group -> is_Some (group_at ns g t)) as Hsome.
  { destruct (group_at ns g t) eqn:Eg; [by eexists|]. unfold group_destroy in E. cbn in E. by simplify_eq. }
  apply group_destroy_shrinks in E.
  assert (forall x h, is_Some (group_at x h (set_group ns g group t)) -> is_Some (group_at x h t)) as Hnew.
  { intros x h. destruct (decide ((x, h) = (ns, g))) as [[= -> ->]|Hne]; [by rewrite group_at_set|].
    by rewrite group_at_set_ne. }
  split; [|done|by left|done|done|].
  - intros x h. destruct (decide ((x, h) = (ns, g))) as [[= -> ->]|Hne]; [right|left; by apply group_at_set_ne].
    by rewrite group_at_set.
  - intros [Hg Hn]. split; [|done]. intros x h Hx%Hnew. by apply (Hg x h).
Qed.

Lemma remove_groups_removes io old ns l s t r t' :
  remove_groups M D io old ns l s t = (r, t') -> removes (eq ns) t t' /\ tr_ns t' = tr_ns t.
Proof.
  revert s t. induction l as [|[g|e|e] l IH]; intros s t; cbn [remove_groups];
    [intros [= <- <-]; split; [apply removes_refl|done]| |intros [= <- <-]; (split; [apply removes_refl|done])..].
  destruct (remove_backup_group _ _ _ _ _ _ _ _) as [r1 t1] eqn:E1. apply remove_backup_group_removes in E1 as [H1 N1].
  destruct r1; [|by intros [= <- <-]..]. intros [H2 N2]%IH. split; [by eapply removes_trans|congruence].
Qed.

Lemma remove_namespace_removes io old ns delete_groups t r t' :
  remove_namespace M D io old ns delete_groups t = (r, t') ->
  removes (eq ns) t t' /\ (delete_groups = false -> tr_groups t' = tr_groups t).
Proof.
  unfold remove_namespace. set (first := if delete_groups then _ else _).
  assert (removes (eq ns) t first.2 /\ tr_ns first.2 = tr_ns t /\ (delete_groups = false -> first.2 = t)) as (H1 & N1 & G1).
  { unfold first. destruct delete_groups; [|split_and!; [apply removes_refl|done..]]. unfold remove_namespace_groups.
    destruct (iter_backup_groups _ _ _ _); [|split_and!; [apply removes_refl|done..]..].
    destruct (remove_groups _ _ _ _ _ _ _ _) as [r1 t1] eqn:E1. apply remove_groups_removes in E1 as [? ?].
    by destruct r1. }
  destruct first as [r1 t1]. cbn [snd] in *.
  destruct r1 as [s|e|e]; [|intros [= <- <-]; split; [done|intros ?; by rewrite G1]..].
  assert (removes (eq ns) t t1 /\ (delete_groups = false -> tr_groups t1 = tr_groups t)) as Hdone.
  { split; [done|]. intros ?. by rewrite G1. }
  destruct (rn_open io); cbn [negb]; [|by intros [= <- <-]]. destruct (is_root ns) eqn:Er; [by intros [= <- <-]|].
  destruct (bool_decide (ns ∈ tr_ns t1)) eqn:Ein; cbn [negb]; [|by intros [= <- <-]].
  destruct (has_groups ns t1 || has_children ns t1) eqn:Eb; [by intros [= <- <-]|].
  destruct (rn_rmdir io); cbn [negb orb]; [|by intros [= <- <-]]. intros [= <- <-].
  split; [|by destruct Hdone]. eapply removes_trans; [exact H1|]. apply orb_false_iff in Eb as [Eg Ec].
  split; [by left|set_solver| |done|done|].
  - intros x Hx. cbn. destruct (decide (x = ns)) as [->|Hne]; [by right|left; set_solver].
  - intros [Hg Hn]. assert (forall x, namespace_exists x t1 = true -> x <> ns ->
      namespace_exists x (set_ns (tr_ns t1 ∖ {[ns]}) t1) = true) as He.
    { intros x. rewrite !namespace_exists_spec. cbn. set_solver. }
    split.
    + intros x h Hx. apply He; [by apply (Hg x h)|]. intros ->.
      rewrite <-not_true_iff_false, has_groups_spec in Eg. apply Eg. by exists h.
    + intros x n Hx. cbn in Hx. apply He; [apply (Hn x n); set_solver|]. intros ->.
      rewrite <-not_true_iff_false, has_children_spec in Ec. apply Ec. exists n. set_solver.
Qed.
(** ** Namespaces below another one *)
Definition below (ns x : namespace) : Prop := exists rest, x = ns ++ rest.

Section below.
Context {HN : NsLaws N}.
Lemma below_refl ns : below ns ns.
Proof. exists []. by rewrite app_nil_r. Qed.
Lemma below_trans a b c : below a b -> below b c -> below a c.
Proof. intros [r ->] [r' ->]. exists (r ++ r'). by rewrite app_assoc. Qed.

Lemma entries_next_below ns l r it :
  entries_next N ns l = (r, it) -> ln_ns it = ns /\ forall x, r = Some (Ok x) -> below ns x.
Proof using HN.
  rewrite entries_first.
  assert (forall i x, named child_name (from_parent_ns ns) i = Some (Ok x) -> below ns x) as Hi.
  { intros [e|e] x; cbn; [done|]. repeat case_match; try done. intros [= E]. apply from_parent_ns_ok in E as ->. by eexists. }
  assert (forall x, (first_item (named child_name (from_parent_ns ns)) l).1 = Some (Ok x) -> below ns x) as Hf.
  { intros x. induction l as [|i l IH]; [done|]. cbn. destruct (named _ _ i) eqn:Ei; [|exact IH]. cbn. intros [= ->]. by eapply Hi. }
  destruct (first_item _ l) as [r' l']. intros [= <- <-]. split; [done|]. intros x ->. by apply Hf.
Qed.

Lemma levels_next_below read_ns max ns st r st' :
  levels_next N read_ns max st = (r, st') -> Forall (fun it => below ns (ln_ns it)) st ->
  Forall (fun it => below ns (ln_ns it)) st' /\ forall x, r = Some (Ok x) -> below ns x.
Proof using HN.
  revert r st'. induction st as [|it outer IH]; intros r st'; cbn [levels_next]; [by intros [= <- <-]|].
  destruct (ListNamespaces_next N read_ns it) as [ri it'] eqn:Ei.
  assert (ln_ns it' = ln_ns it /\ forall x, ri = Some (Ok x) -> below (ln_ns it) x) as [Hit Hx].
  { unfold ListNamespaces_next in Ei. destruct (ln_state it); [by eapply entries_next_below|].
    destruct (read_ns (ln_ns it)); [by eapply entries_next_below|by simplify_eq..]. }
  intros E [Hb Ho]%Forall_cons. destruct ri as [[x|e|e]|].
  - specialize (Hx x eq_refl). assert (below ns x) as Hnx by (by eapply below_trans).
    assert (Forall (fun it => below ns (ln_ns it)) (it' :: outer)) as Hc by (constructor; [by rewrite Hit|done]).
    destruct (_ <? max); simplify_eq; (split; [|by intros ? [= <-]]); [by constructor|done].
  - simplify_eq. split; [constructor; [by rewrite Hit|done]|done].
  - simplify_eq. split; [constructor; [by rewrite Hit|done]|done].
  - by apply IH.
Qed.

Lemma list_namespaces_below ls ns d t l :
  list_namespaces N ls ns d t = Ok l -> Forall (below ns) l.
Proof using HN.
  unfold list_namespaces. destruct (new_max_depth N ns d) as [s|e|e] eqn:Es; [|done..].
  assert (lr_ns s = ns /\ from_option (Forall (fun it => below ns (ln_ns it))) True (lr_state s)) as Hs.
  { unfold new_max_depth in Es. destruct (_ <? _); [done|]. by simplify_eq. }
  clear Es. revert s l Hs. induction (S (S (size (tr_ns t)))) as [|fuel IH]; intros s l [Hn Hst]; cbn [collect_results]; [done|].
  destruct (ListNamespacesRecursive_next N (l_ns ls t) s) as [r s1] eqn:E1.
  assert ((lr_ns s1 = ns /\ from_option (Forall (fun it => below ns (ln_ns it))) True (lr_state s1)) /\
    forall x, r = Some (Ok x) -> below ns x) as [Hs1 Hx].
  { unfold ListNamespacesRecursive_next in E1. destruct (lr_state s) as [st|].
    - destruct (levels_next _ _ _ _) as [r' st'] eqn:El. eapply levels_next_below in El as [? ?]; [|exact Hst]. by simplify_eq.
    - simplify_eq. split; [split; [done|]|intros ? [= <-]; apply below_refl]. cbn. destruct (_ <? _); [|done].
      constructor; [apply below_refl|done]. }
  destruct r as [[x|e|e]|]; [|done|done|by intros [= <-]].
  destruct (collect_results _ fuel s1) as [l'|e|e] eqn:Ec; [|done..]. intros [= <-].
  constructor; [by apply Hx|]. by apply (IH s1).
Qed.

Lemma remove_namespaces_removes io old delete_groups l s t r t' ns :
  remove_namespaces M D io old delete_groups l s t = (r, t') -> Forall (below ns) l ->
  removes (below ns) t t' /\ (delete_groups = false -> tr_groups t' = tr_groups t).
Proof.
  revert s t. induction l as [|x l IH]; intros s t; cbn [remove_namespaces].
  { intros [= <- <-] _. split; [apply removes_refl|done]. }
  destruct (remove_namespace _ _ _ _ _ _ _) as [r1 t1] eqn:E1. apply remove_namespace_removes in E1 as [H1 G1].
  intros E [Hx Hl]%Forall_cons. apply (removes_mono _ (below ns)) in H1; [|by intros ? <-].
  destruct r1; [|by simplify_eq..]. destruct (IH _ _ E Hl) as [H2 G2]. split; [by eapply removes_trans|].
  intros Hd. by rewrite G2, G1.
Qed.

Lemma remove_namespace_gone io old ns delete_groups t stats t' :
  remove_namespace M D io old ns delete_groups t = (Ok (true, stats), t') -> ns = [] \/ ns ∉ tr_ns t'.
Proof using Type.
  unfold remove_namespace. destruct (if delete_groups then _ else _) as [[s|e|e] t1]; [|done..].
  destruct (rn_open io); [|done]. cbn [negb]. unfold is_root. case_bool_decide; [by left|]. right.
  destruct (bool_decide (ns ∈ tr_ns t1)) eqn:Ein; cbn [negb] in *.
  - destruct (_ || _ || _); [done|]. simplify_eq. cbn. apply not_elem_of_difference. right. by apply elem_of_singleton.
  - simplify_eq. by apply bool_decide_eq_false in Ein.
Qed.
Lemma remove_namespaces_gone io old delete_groups l s t stats t' :
  remove_namespaces M D io old delete_groups l s t = (Ok (true, stats), t') ->
  s.1 = true /\ (forall x, x ∈ tr_ns t' -> x ∈ tr_ns t) /\ Forall (fun x => x = [] \/ x ∉ tr_ns t') l.
Proof using Type.
  revert s t. induction l as [|x l IH]; intros s t; cbn [remove_namespaces]; [intros [= -> <-]; by split_and!|].
  destruct (remove_namespace _ _ _ _ _ _ _) as [r1 t1] eqn:E1. pose proof (proj1 (remove_namespace_removes _ _ _ _ _ _ _ E1)) as H1.
  destruct r1 as [[b s1]| |]; [|done..]. intros (Hb & Hn & Hl)%IH. cbn in Hb. apply andb_true_iff in Hb as [Hs ->].
  split_and!; [done|intros y Hy; by apply (rm_ns _ _ _ H1), Hn|]. constructor; [|done].
  apply remove_namespace_gone in E1 as [?|E1]; [by left|right]. intros Hx. by apply E1, Hn.
Qed.

(** ** Listing namespaces *)

(** The listing delivers the namespaces of the tree, as [children]. *)
Record lists_ns (ls : Listing) (t : Tree) (children : namespace -> list namespace) : Prop := {
  ln_read ns : readable N (l_ns ls t) children ns;
  ln_children ns x : x ∈ children ns <-> x ∈ tr_ns t /\ exists n, x = ns ++ [n];
  ln_nodup ns : NoDup (children ns);
}.
Lemma collect_results_yields {I A} (next : I -> option (res A) * I) l s fuel :
  yields next s (Ok <$> l) -> (length l < fuel)%nat -> collect_results next fuel s = Ok l.
Proof using Type.
  revert s fuel. induction l as [|x l IH]; intros s [|fuel] Hy Hf; cbn in Hf; [lia| |lia|]; inversion Hy as [? ? E|? ? ? ? E Hy']; subst; cbn.
  - by rewrite E.
  - rewrite E, (IH _ fuel); [done|done|lia].
Qed.

Lemma list_namespaces_complete ls ns d t children :
  lists_ns ls t children -> tree_wf t -> 0 <= d <= ns_max_depth -> depth ns <= ns_max_depth ->
  exists l, list_namespaces N ls ns d t = Ok l /\
    forall rest, Z.of_nat (length rest) <= d -> depth (ns ++ rest) <= ns_max_depth ->
      rest = [] \/ ns ++ rest ∈ tr_ns t -> ns ++ rest ∈ l.
Proof using HN.
  intros [Hr Hc Hd] Hw Hdr Hns. pose proof max_depth_range as Hm. unfold list_namespaces, new_max_depth, depth in *.
  destruct (Z.ltb_spec ns_max_depth d) as [?|_]; [lia|]. rewrite (u64_small (_ - _)) by (unfold in_u64, U64_MAX; lia).
  set (max := Z.to_nat (d `min` (ns_max_depth - Z.of_nat (length ns)))).
  replace (d `min` (ns_max_depth - Z.of_nat (length ns))) with (Z.of_nat max) by lia. rewrite Z.mod_small by lia.
  assert (forall p n, p ++ [n] ∈ tr_ns t -> p = [] \/ p ∈ tr_ns t) as Hcl.
  { intros p n Hp. by apply namespace_exists_spec, (proj2 Hw p n). }
  exists (preorder children max ns). split.
  - apply collect_results_yields; [by apply recursive_yields_preorder|].
    assert (length (preorder children max ns) <= length (ns :: elements (tr_ns t)))%nat as Hle.
    { apply submseteq_length, NoDup_submseteq; [by eapply (preorder_NoDup _ (fun x => x ∈ tr_ns t))|].
      intros x Hx%(preorder_elem _ (fun x => x ∈ tr_ns t) Hc Hcl). destruct Hx as (rest & -> & _ & [->|Hx]).
      - rewrite app_nil_r. by left.
      - right. by apply elem_of_elements. }
    cbn in Hle. change (length (elements (tr_ns t))) with (size (tr_ns t)) in Hle. lia.
  - intros rest Hl Hx Ht. rewrite length_app in Hx. apply (preorder_elem _ (fun x => x ∈ tr_ns t) Hc Hcl).
    exists rest. split_and!; [done|lia|done].
Qed.

(** C20.  Removing namespaces keeps what is protected.  Whatever fails, groups of other namespaces are not touched, a group
    of a namespace to be removed loses nothing but snapshots that are not protected, and nothing at all if only
    empty namespaces are to be removed; a namespace is only removed when it is empty.  When it is reported that all was removed,
    and the namespaces could be listed, none of them is left. *)
Theorem remove_namespace_safe ls io old ns delete_groups t r t' :
  remove_namespace_recursive N M D ls io old ns delete_groups t = (r, t') ->
  (forall x g, ~ below ns x -> group_at x g t' = group_at x g t) /\
  (forall x g time d, snap_at x g time t = Some d -> is_protected d = true \/ delete_groups = false ->
    snap_at x g time t' = Some d) /\
  (forall x g time d', snap_at x g time t' = Some d' -> exists d, snap_at x g time t = Some d /\ d' ⊆ d) /\
  (tree_wf t -> tree_wf t') /\
  (forall children stats, lists_ns ls t children -> tree_wf t -> depth ns <= ns_max_depth -> r = Ok (true, stats) ->
    forall x, below ns x -> x <> [] -> depth x <= ns_max_depth -> x ∉ tr_ns t').
Proof using HN.
  unfold remove_namespace_recursive. intros E.
  assert (removes (below ns) t t' /\ (delete_groups = false -> tr_groups t' = tr_groups t)) as [H G].
  { destruct (list_namespaces _ _ _ _ _) as [l|e|e] eqn:El; [|simplify_eq; by split; [apply removes_refl|]..].
    eapply remove_namespaces_removes; [exact E|]. rewrite sort_by_key_perm. by eapply list_namespaces_below. }
  pose proof (rm_groups _ _ _ H) as Hg. split_and!; [| | |apply (rm_wf _ _ _ H)|].
  - intros x g Hx. by destruct (Hg x g) as [?|[? _]].
  - intros x g time d Hd [Hp|Hf]; [|unfold snap_at, group_at; by rewrite G].
    unfold snap_at in *. destruct (Hg x g) as [->|[_ [Hk _]]]; [done|by apply Hk].
  - intros x g time d'. unfold snap_at. destruct (Hg x g) as [->|[_ [_ Hk]]]; [by exists d'|apply Hk].
  - intros children stats Hl Hw Hns -> x [rest ->] Hne Hx Hin. pose proof max_depth_range as Hm.
    destruct (list_namespaces_complete ls ns ns_max_depth t children Hl Hw) as (l & El & Hall); [lia|done|].
    rewrite El in E. apply remove_namespaces_gone in E as (_ & Hsub & Hgone).
    rewrite sort_by_key_perm, Forall_forall in Hgone. destruct (Hgone (ns ++ rest)) as [?|?]; [|done..].
    apply Hall; [unfold depth in *; rewrite length_app in Hx; lia|done|right; by apply Hsub].
Qed.
End below.
End datastore_spec.
