(* ===== verification/MoveSpec.v ===== *)
(** * Moving groups and namespaces keeps every snapshot

    Whatever fails, a snapshot is at the source or at the target, with its content, and its index files are in the journal
    once it is at the target; the snapshots that were moved are older than those that were not, so that the next
    attempt can merge them. *)

From S2P Require Import Prelude Text GarbageCollection Acl AclSpec Hierarchy HierarchySpec GroupDir GroupDirSpec Datastore DatastoreSpec.
From Stdlib Require Import Sorting.Sorted.

(** What a group has besides its snapshots. *)
Definition meta (g : Group) : option (option string * option (list Byte.byte)) :=
  (fun gd => (gd_owner gd, gd_notes gd)) <$> g.

Section move.
Context (N : NsLib) (M : NameLib) (L : AclLib) (D : StatsLib).
Variable archive_type : string -> option ArchiveType.

(** ** Creating the target *)
Lemma create_parents_groups fails ns t ok t' :
  create_parents fails ns t = (ok, t') ->
  tr_groups t' = tr_groups t /\ tr_journal t' = tr_journal t /\ (tree_wf t -> tree_wf t') /\
  (forall x, namespace_exists x t = true -> namespace_exists x t' = true) /\
  (ok = true -> namespace_exists ns t' = true).
Proof.
  unfold create_parents. intros [= <- <-]. split_and!; [done..| | |].
  - intros [Hg Hn]. assert (forall x, namespace_exists x t = true -> namespace_exists x (set_ns (list_to_set
      ((fun k => take k ns) <$> List.seq 1 (default (length ns) (Nat.min (length ns) <$> fails))) ∪ tr_ns t) t) = true) as Hm.
    { intros x. rewrite !namespace_exists_spec. cbn. set_solver. }
    split; [intros x h Hx; by apply Hm, (Hg x h)|]. intros x n. cbn [tr_ns set_ns]. rewrite elem_of_union, elem_of_list_to_set.
    intros [(k & Hk & Hin)%list_elem_of_fmap|Hx]; [|by apply Hm, (Hn x n)].
    apply list_elem_of_In, List.in_seq in Hin. rewrite namespace_exists_spec. cbn.
    assert (x = take (k - 1) ns) as Hx.
    { assert (k <= length ns)%nat as Hle by (destruct fails; cbn in Hin; lia).
      assert (length x = k - 1)%nat as Hlx by (apply (f_equal length) in Hk; rewrite length_app, length_take in Hk; cbn in Hk; lia).
      apply (f_equal (take (length x))) in Hk. rewrite take_app_length, take_take in Hk. rewrite Hk, Hlx. f_equal. lia. }
    destruct (decide (k = 1)%nat) as [->|Hne]; [left; by rewrite Hx|right].
    rewrite elem_of_union, elem_of_list_to_set. left. apply list_elem_of_fmap. exists (k - 1)%nat. split; [done|].
    apply list_elem_of_In, List.in_seq. lia.
  - intros x. rewrite !namespace_exists_spec. cbn. set_solver.
  - intros Hok. destruct fails as [k|]; [done|]. rewrite namespace_exists_spec. destruct ns as [|n ns]; [by left|right].
    cbn [tr_ns set_ns]. rewrite elem_of_union, elem_of_list_to_set. left. apply list_elem_of_fmap.
    exists (length (n :: ns)). rewrite firstn_all. split; [done|]. apply list_elem_of_In, List.in_seq. cbn. lia.
Qed.

Lemma remove_dir_spec ok g : remove_dir ok g = g \/ (remove_dir ok g = None /\ g_snaps g = ∅).
Proof.
  destruct g as [[[o|] [n|] snaps]|]; cbn; auto. destruct (bool_decide (snaps = ∅)) eqn:E; [|by left]. cbn.
  apply bool_decide_eq_true in E. destruct ok; auto.
Qed.

Lemma set_owner_snaps io force auth_id g r g' :
  set_owner L io force auth_id g = (r, g') ->
  g_snaps g' = g_snaps g /\ (is_ok r = true -> is_Some g') /\ (is_Some g' <-> is_Some g).
Proof.
  unfold set_owner. destruct g as [gd|]; [|by intros [= <- <-]]. destruct (_ || _); [by intros [= <- <-]|].
  destruct (ow_write io); intros [= <- <-]; (split_and!; [done|by eexists|by split; eexists]).
Qed.

Lemma create_group_spec io ns g auth_id t r t' :
  create_locked_backup_group_do L io ns g auth_id t = (r, t') ->
  (forall x h, (x, h) <> (ns, g) -> group_at x h t' = group_at x h t) /\
  tr_journal t' = tr_journal t /\ (tree_wf t -> tree_wf t') /\
  g_snaps (group_at ns g t') = g_snaps (group_at ns g t) /\
  (is_Some (group_at ns g t) -> group_at ns g t' = group_at ns g t) /\
  forall owner created, r = Done (owner, created) ->
    is_Some (group_at ns g t') /\ created = negb (bool_decide (is_Some (group_at ns g t))) /\
    exists read, get_owner L read (group_at ns g t') = Ok owner.
Proof.
  unfold create_locked_backup_group_do. destruct (create_parents _ _ _) as [ok t1] eqn:E1.
  apply create_parents_groups in E1 as (Hg1 & Hj1 & Hw1 & Hm1 & Hns).
  assert (forall x h, group_at x h t1 = group_at x h t) as Hat by (intros; unfold group_at; by rewrite Hg1).
  destruct ok; cbn [negb]; [|intros [= <- <-]; rewrite !Hat; by split_and!]. specialize (Hns eq_refl). rewrite Hat.
  set (ex := bool_decide (is_Some (group_at ns g t))). destruct (negb ex && negb (cg_create io)); [intros [= <- <-]; rewrite !Hat; by split_and!|].
  set (t2 := if negb ex then _ else t1).
  assert ((forall x h, (x, h) <> (ns, g) -> group_at x h t2 = group_at x h t) /\ tr_ns t2 = tr_ns t1 /\ tr_journal t2 = tr_journal t /\
    group_at ns g t2 = (if ex then group_at ns g t else Some empty_group)) as (Ho2 & Hn2 & Hj2 & Hs2).
  { unfold t2. destruct ex; cbn [negb]; [by rewrite Hat|]. split_and!; [|done|done|apply group_at_set].
    intros x h Hne. by rewrite group_at_set_ne. }
  assert (forall group, (forall x h, (x, h) <> (ns, g) -> group_at x h (set_group ns g group t2) = group_at x h t) /\
    tr_journal (set_group ns g group t2) = tr_journal t /\ (tree_wf t -> tree_wf (set_group ns g group t2))) as Hfin.
  { intros group. split_and!; [intros x h Hne; by rewrite group_at_set_ne, Ho2|done|]. intros Hw%Hw1. split.
    - intros x h Hx. unfold namespace_exists. cbn. rewrite Hn2. destruct (decide ((x, h) = (ns, g))) as [[= -> ->]|Hne]; [exact Hns|].
      rewrite group_at_set_ne, Ho2, <-Hat in Hx by done. by apply (proj1 Hw x h).
    - intros x n. unfold namespace_exists. cbn. rewrite Hn2. apply (proj2 Hw). }
  assert (g_snaps (group_at ns g t2) = g_snaps (group_at ns g t)) as Hsn.
  { rewrite Hs2. unfold ex. case_bool_decide as He; [done|]. destruct (group_at ns g t); [|done]. by destruct He. }
  assert (is_Some (group_at ns g t) -> ex = true) as Hex by apply bool_decide_eq_true_2.
  destruct (cg_lock io); cbn [negb].
  2: { intros [= <- <-]. destruct ex eqn:Ee; cbn [negb].
    - rewrite <-(set_group_id ns g t2). destruct (Hfin (group_at ns g t2)) as (? & ? & ?). rewrite group_at_set. by split_and!.
    - destruct (Hfin (remove_dir (cg_rmdir io) (group_at ns g t2))) as (? & ? & ?). rewrite group_at_set.
      split_and!; [done..| |intros He; by apply Hex in He|done]. rewrite <-Hsn.
      destruct (remove_dir_spec (cg_rmdir io) (group_at ns g t2)) as [->|[-> ->]]; done. }
  set (own := if negb ex then _ else _).
  assert (g_snaps own.2 = g_snaps (group_at ns g t) /\ (ex = true -> own.2 = group_at ns g t) /\
    (is_ok own.1 = true -> is_Some own.2)) as (Hown1 & Hown2 & Hown3).
  { unfold own. destruct ex eqn:Ee; cbn [negb fst snd].
    - rewrite Hs2. split_and!; [done..|]. intros _. by apply bool_decide_eq_true in Ee.
    - rewrite <-Hsn. destruct (set_owner _ _ _ _ _) as [r3 g3] eqn:E3. apply set_owner_snaps in E3 as (E3 & ? & _).
      destruct r3; cbn [fst snd]; [by split_and!|split_and!; try done..];
        destruct (remove_dir_spec (cg_rmdir io) g3) as [->|[-> H0]]; rewrite ?H0 in E3; done. }
  destruct own as [r3 g3]. cbn [fst snd] in *. destruct (Hfin g3) as (Hf1 & Hf2 & Hf3). intros E.
  assert (t' = set_group ns g g3 t2) as -> by (destruct r3; [destruct (get_owner _ _ _)|..]; by simplify_eq).
  rewrite group_at_set in *. split_and!; [done..|by intros ?%Hex%Hown2|]. intros owner created ->.
  destruct r3; [|done..]. destruct (get_owner _ _ _) eqn:Eo; simplify_eq. split_and!; [by apply Hown3|done|by eexists].
Qed.
(** ** Moving snapshots *)
Section batch.
Context (ns tns : namespace) (g : group_id) (Hne : ns <> tns).

(** The snapshots of these times, and nothing else, have gone from the source to the target. *)
Record moved (l : list Z) (t t' : Tree) : Prop := {
  mv_others x h : (x, h) <> (ns, g) -> (x, h) <> (tns, g) -> group_at x h t' = group_at x h t;
  mv_ns : tr_ns t' = tr_ns t;
  mv_meta x h : meta (group_at x h t') = meta (group_at x h t);
  mv_source time : snap_at ns g time t' = if decide (time ∈ l) then None else snap_at ns g time t;
  mv_target time : snap_at tns g time t' = if decide (time ∈ l) then snap_at ns g time t else snap_at tns g time t;
  mv_free time : time ∈ l -> is_Some (snap_at ns g time t) /\ default ∅ (snap_at tns g time t) = ∅;
  mv_journal p : p ∈ tr_journal t -> p ∈ tr_journal t';
}.
(** The index files of what was moved are in the journal. *)
Definition recorded (l : list Z) (t t' : Tree) : Prop :=
  forall time d name, time ∈ l -> snap_at ns g time t = Some d -> is_Some (d !! name) -> is_index archive_type name = true ->
    (tns, g, time, name) ∈ tr_journal t'.

Lemma moved_nil t : moved [] t t.
Proof.
  split; try done; intros time; try (destruct (decide _) as [Hin|]; [by apply elem_of_nil in Hin|done]).
  intros Hin. by apply elem_of_nil in Hin.
Qed.

(** A directory listing misses no file unless it fails. *)
Definition names_read (io : MoveIo) : Prop := forall names l, mt_list io names = Ok l -> names ⊆ l.

Lemma meta_set_snaps snaps group : meta (set_snaps snaps group) = meta group.
Proof. by destruct group. Qed.

Lemma move_to_spec io time t r t' :
  move_to archive_type io ns tns g time t = (r, t') ->
  (is_ok r = false /\ moved [] t t') \/
  (r = Ok tt /\ moved [time] t t' /\ (names_read io -> recorded [time] t t')).
Proof using Hne.
  unfold move_to. destruct (mt_target_name io); cbn [negb]; [|intros [= <- <-]; left; split; [done|apply moved_nil]].
  destruct (g_snaps (group_at ns g t) !! time) as [d|] eqn:Ed; [|intros [= <- <-]; left; split; [done|apply moved_nil]].
  destruct (mt_list io _) as [names|e|e] eqn:El; [|intros [= <- <-]; left; (split; [done|apply moved_nil])..].
  set (paths := (fun name => (tns, g, time, name)) <$> _).
  destruct (append_moved_indices _ _ _) as [r1 t1] eqn:E1.
  assert (exists j, t1 = set_journal (tr_journal t ++ j) t /\ (is_ok r1 = true -> j = paths)) as (j & -> & Hj).
  { unfold append_moved_indices in E1. destruct paths as [|p paths'] eqn:Ep.
    - injection E1 as <- <-. exists []. rewrite app_nil_r. by destruct t.
    - destruct (mt_journal io); injection E1 as <- <-; by eexists. }
  assert (moved [] t (set_journal (tr_journal t ++ j) t)) as Hjm.
  { destruct (moved_nil t). split; try done. cbn. set_solver. }
  destruct r1 as [[]|e|e]; [|intros [= <- <-]; by left..]. specialize (Hj eq_refl). subst j.
  set (t1 := set_journal _ t) in *. change (group_at ?x ?h t1) with (group_at x h t).
  destruct (_ && _) eqn:Eb; cbn [negb]; [|intros [= <- <-]; by left]. intros [= <- <-]. right.
  apply andb_true_iff in Eb as [[_ Htgt%bool_decide_eq_true]%andb_true_iff Hfree%bool_decide_eq_true].
  set (t2 := set_group ns g _ t1). assert (forall x h, (x, h) <> (ns, g) -> group_at x h t2 = group_at x h t) as H2.
  { intros x h Hx. unfold t2. by rewrite group_at_set_ne. }
  assert (group_at ns g t2 = set_snaps (delete time (g_snaps (group_at ns g t))) (group_at ns g t)) as H2s by apply group_at_set.
  assert ((tns, g) <> (ns, g)) as Hng by congruence. rewrite (H2 _ _ Hng).
  assert (is_Some (group_at ns g t)) as Hsrc by (by eapply snap_exists).
  split_and!; [done| |].
  - split.
    + intros x h Hx Hx'. rewrite group_at_set_ne by done. by apply H2.
    + done.
    + intros x h. destruct (decide ((x, h) = (tns, g))) as [[= -> ->]|Hx]; [rewrite group_at_set; apply meta_set_snaps|].
      rewrite group_at_set_ne by done. destruct (decide ((x, h) = (ns, g))) as [[= -> ->]|Hx']; [|by rewrite H2].
      rewrite H2s. apply meta_set_snaps.
    + intros x. unfold snap_at. rewrite group_at_set_ne by congruence. rewrite H2s, g_snaps_set by done.
      destruct (decide (x ∈ [time])) as [->%list_elem_of_singleton|Hx]; [apply lookup_delete_eq|].
      apply lookup_delete_ne. set_solver.
    + intros x. unfold snap_at. rewrite group_at_set.
      destruct (decide (x ∈ [time])) as [->%list_elem_of_singleton|Hx]; [by rewrite set_snap_eq|].
      apply set_snap_ne. set_solver.
    + intros x ->%list_elem_of_singleton. unfold snap_at. rewrite Ed. by split; [eexists|].
    + intros p Hp. cbn. set_solver.
  - intros Hread x d' name ->%list_elem_of_singleton Hx Hname Hidx. unfold snap_at in Hx. rewrite Ed in Hx. simplify_eq.
    cbn. apply elem_of_app. right. apply list_elem_of_fmap. exists name. split; [done|].
    apply list_elem_of_filter. split; [done|]. apply (Hread _ _ El). apply list_elem_of_fmap.
    destruct Hname as [data Hd]. exists (name, data). split; [done|]. by apply elem_of_map_to_list.
Qed.

Lemma moved_app l1 l2 t t1 t2 : moved l1 t t1 -> moved l2 t1 t2 -> moved (l1 ++ l2) t t2.
Proof.
  intros H1 H2. split.
  - intros x h Hx Hx'. by rewrite (mv_others _ _ _ H2), (mv_others _ _ _ H1).
  - by rewrite (mv_ns _ _ _ H2), (mv_ns _ _ _ H1).
  - intros x h. by rewrite (mv_meta _ _ _ H2), (mv_meta _ _ _ H1).
  - intros time. rewrite (mv_source _ _ _ H2), (mv_source _ _ _ H1). repeat case_decide; set_solver.
  - intros time. rewrite (mv_target _ _ _ H2), (mv_target _ _ _ H1), (mv_source _ _ _ H1).
    destruct (decide (time ∈ l2)) as [Hin|Hin].
    + destruct (mv_free _ _ _ H2 time Hin) as [Hs _]. rewrite (mv_source _ _ _ H1) in Hs.
      destruct (decide (time ∈ l1)); [by destruct Hs|]. by rewrite decide_True by set_solver.
    + repeat case_decide; set_solver.
  - intros time [Hin|Hin]%elem_of_app; [by apply (mv_free _ _ _ H1)|].
    destruct (mv_free _ _ _ H2 time Hin) as [Hs Ht]. rewrite (mv_source _ _ _ H1) in Hs. rewrite (mv_target _ _ _ H1) in Ht.
    destruct (decide (time ∈ l1)); [by destruct Hs|done].
  - intros p Hp. by apply (mv_journal _ _ _ H2), (mv_journal _ _ _ H1).
Qed.

Lemma recorded_app l1 l2 t t1 t2 :
  moved l1 t t1 -> moved l2 t1 t2 -> recorded l1 t t1 -> recorded l2 t1 t2 -> recorded (l1 ++ l2) t t2.
Proof.
  intros H1 H2 R1 R2 time d name [Hin|Hin]%elem_of_app Hd Hn Hi; [by eapply (mv_journal _ _ _ H2), R1|].
  eapply (R2 time d); try done. rewrite (mv_source _ _ _ H1). destruct (mv_free _ _ _ H2 time Hin) as [Hs _].
  rewrite (mv_source _ _ _ H1) in Hs. destruct (decide (time ∈ l1)); [by destruct Hs|done].
Qed.

(** A first part of the list has been moved, all of it unless there was an error. *)
Definition moved_part (io : MoveGroupIo) (l : list Z) (t : Tree) (r : OpRes unit) (t' : Tree) : Prop :=
  exists l1 l2, l = l1 ++ l2 /\ moved l1 t t' /\ (r = Done tt -> l2 = []) /\
    ((forall time, names_read (mg_move io time)) -> recorded l1 t t').

Lemma moved_part_none io l t r t' : moved [] t t' -> r <> Done tt -> moved_part io l t r t'.
Proof. intros Hm Hr. exists [], l. split_and!; [done|done|done|]. intros _ time d name Hin. by apply elem_of_nil in Hin. Qed.

Lemma moved_part_app io l l' t t1 r t' :
  moved_part io l t (Done tt) t1 -> moved_part io l' t1 r t' -> moved_part io (l ++ l') t r t'.
Proof.
  intros (a & b & -> & Ha & Hb & Hra) (a' & b' & -> & Ha' & Hb' & Hra'). rewrite (Hb eq_refl), app_nil_r in *.
  exists (a ++ a'), b'. split_and!; [by rewrite app_assoc|by eapply moved_app|done|].
  intros Hn. eapply recorded_app; eauto.
Qed.

Lemma move_batch_part io l t r t' : move_batch archive_type io ns tns g l t = (r, t') -> moved_part io l t r t'.
Proof using Hne.
  revert t. induction l as [|time l IH]; intros t; cbn [move_batch].
  { intros [= <- <-]. exists [], []. split_and!; [done|apply moved_nil|done|]. intros _ x d name Hin. by apply elem_of_nil in Hin. }
  destruct (move_to _ _ _ _ _ _ _) as [r1 t1] eqn:E1. apply move_to_spec in E1 as [[Hr Hm]|(-> & Hm & Hrec)].
  { destruct r1; [done|intros [= <- <-]; by apply moved_part_none..]. }
  intros Hp%IH. apply (moved_part_app io [time]) with t1; [|done]. exists [time], []. split_and!; [done|done|done|auto].
Qed.

Lemma move_batches_part io fuel l t r t' :
  move_batches archive_type io ns tns g fuel l t = (r, t') -> (length l <= fuel)%nat -> moved_part io l t r t'.
Proof using Hne.
  revert l t. induction fuel as [|fuel IH]; intros l t; (destruct l as [|time l]; [intros [= <- <-] _|]).
  1, 3: exists [], []; split_and!; [done|apply moved_nil|done|]; intros _ x d name Hin; by apply elem_of_nil in Hin.
  { cbn. lia. }
  cbn [move_batches]. intros E Hl. set (l0 := time :: l) in *. assert (length (drop MAX_SNAPSHOT_LOCKS l0) <= fuel)%nat as Hd.
  { rewrite length_drop. unfold l0, MAX_SNAPSHOT_LOCKS in *. cbn [length] in *. lia. }
  destruct (forallb _ _); cbn [negb] in E; [|simplify_eq; apply moved_part_none; [apply moved_nil|done]].
  rewrite <-(take_drop MAX_SNAPSHOT_LOCKS l0). destruct (move_batch _ _ _ _ _ _ _) as [[[]|e|e] t1] eqn:E1.
  - apply move_batch_part in E1. eapply moved_part_app; [done|]. by apply IH.
  - apply move_batch_part in E1 as (a & b & -> & Hm & _ & Hrec). simplify_eq. exists a, (b ++ drop MAX_SNAPSHOT_LOCKS l0).
    by rewrite app_assoc.
  - apply move_batch_part in E1 as (a & b & -> & Hm & _ & Hrec). simplify_eq. exists a, (b ++ drop MAX_SNAPSHOT_LOCKS l0).
    by rewrite app_assoc.
Qed.
(** ** Moving a group *)

(** The snapshots of the tree after the move of these times; nothing of the target was replaced. *)
Record conserves (l : list Z) (t t' : Tree) : Prop := {
  cs_others x h : (x, h) <> (ns, g) -> (x, h) <> (tns, g) -> group_at x h t' = group_at x h t;
  cs_source time : snap_at ns g time t' = if decide (time ∈ l) then None else snap_at ns g time t;
  cs_target time : snap_at tns g time t' = if decide (time ∈ l) then snap_at ns g time t else snap_at tns g time t;
  cs_free time : time ∈ l -> is_Some (snap_at ns g time t) /\ snap_at tns g time t = None;
  cs_journal p : p ∈ tr_journal t -> p ∈ tr_journal t';
  cs_wf : tree_wf t -> tree_wf t';
}.

Lemma conserves_nil t t' :
  (forall x h, (x, h) <> (ns, g) -> (x, h) <> (tns, g) -> group_at x h t' = group_at x h t) ->
  g_snaps (group_at ns g t') = g_snaps (group_at ns g t) -> g_snaps (group_at tns g t') = g_snaps (group_at tns g t) ->
  tr_journal t' = tr_journal t -> (tree_wf t -> tree_wf t') -> conserves [] t t'.
Proof.
  intros Ho Hs Ht Hj Hw. unfold snap_at. split; unfold snap_at; [done|intros time..|by rewrite Hj|done].
  - by rewrite decide_False, Hs by apply not_elem_of_nil.
  - by rewrite decide_False, Ht by apply not_elem_of_nil.
  - intros Hin. by apply elem_of_nil in Hin.
Qed.

Lemma check_merge_times io t :
  complete M (me_source io) -> complete M (me_target io) ->
  check_merge_invariants M L io (group_at ns g t) (group_at tns g t) = Ok tt ->
  forall a b, is_Some (snap_at ns g a t) -> a < I64_MAX -> is_Some (snap_at tns g b t) -> b < a.
Proof.
  intros Hs Ht. unfold check_merge_invariants.
  destruct (get_owner _ _ _) as [o1| |]; [|done..]. destruct (get_owner _ _ (group_at tns g t)) as [o2| |]; [|done..].
  destruct (negb _); [done|]. destruct (iter_snapshots _ _ (group_at ns g t)) as [items| |] eqn:Ei; [|done..].
  set (oldest := foldl _ I64_MAX (oks items)). intros E a b Ha Hmax Hb.
  assert (forall l m, foldl (fun m s => if s <? m then s else m) m l <= m /\
    forall x, x ∈ l -> foldl (fun m s => if s <? m then s else m) m l <= x) as Hfold.
  { clear. induction l as [|y l IH]; intros m; cbn; [split; [lia|intros x Hx; by apply elem_of_nil in Hx]|].
    destruct (IH (if y <? m then y else m)) as [H1 H2]. destruct (Z.ltb_spec y m); (split; [lia|]);
      intros x [->|Hx]%elem_of_cons; try lia; auto. }
  assert (oldest <= a) as Hold by (by apply Hfold, (complete_times M _ _ _ Hs Ei)).
  destruct (Z.eqb_spec oldest I64_MAX) as [|_]; [lia|]. cbn [negb] in E.
  destruct (iter_snapshots _ _ (group_at tns g t)) as [items'| |] eqn:Et; [|done..].
  destruct (existsb _ _) eqn:Eb; [done|]. rewrite <-not_true_iff_false, existsb_exists in Eb.
  destruct (decide (b < a)) as [|Hge]; [done|]. destruct Eb. exists b.
  split; [by apply list_elem_of_In, (complete_times M _ _ _ Ht Et)|]. apply Z.leb_le. lia.
Qed.

Lemma moved_wf l t t' : moved l t t' -> tree_wf t -> tree_wf t'.
Proof.
  intros Hm [Hg Hn]. assert (forall x, namespace_exists x t' = namespace_exists x t) as He.
  { intros x. unfold namespace_exists. by rewrite (mv_ns _ _ _ Hm). }
  split; [|intros x n; rewrite He, (mv_ns _ _ _ Hm); apply Hn]. intros x h Hx. rewrite He. apply (Hg x h). pose proof (mv_meta _ _ _ Hm x h) as E.
  destruct (group_at x h t'), (group_at x h t); try done; by destruct Hx.
Qed.

Lemma move_notes_meta io s t r s' t' :
  move_notes_to io s t = (r, (s', t')) ->
  g_snaps s' = g_snaps s /\ g_snaps t' = g_snaps t /\ (is_Some s' -> is_Some s) /\ (is_Some t' -> is_Some t).
Proof.
  unfold move_notes_to. destruct (s ≫= gd_notes); [|by intros [= <- <- <-]]. destruct (negb _); [by intros [= <- <- <-]|].
  destruct (t ≫= gd_notes); [destruct (negb _); by intros [= <- <- <-]|]. destruct (negb _); [by intros [= <- <- <-]|].
  intros [= <- <- <-]. by destruct s, t.
Qed.

Lemma prepare_move_spec io merge_groups t r t' :
  prepare_move M L io ns tns g merge_groups t = (r, t') ->
  conserves [] t t' /\
  forall l, r = Done l ->
    complete M (me_source (mg_merge io)) -> complete M (me_target (mg_merge io)) -> honest M (mg_list io) ->
    StronglySorted Z.le l /\ (forall time, is_Some (snap_at ns g time t) -> time ∈ l) /\
    (forall a b, is_Some (snap_at ns g a t) -> a < I64_MAX -> is_Some (snap_at tns g b t) -> b < a).
Proof using Hne.
  assert (conserves [] t t) as Hid by (by apply conserves_nil).
  unfold prepare_move. destruct (check_move_group _ _ _ _ _) as [[]| |]; [|intros [= <- <-]; by split..].
  destruct (get_owner _ _ _) as [owner| |]; [|intros [= <- <-]; by split..].
  destruct (create_locked_backup_group_do _ _ _ _ _ _) as [rc t1] eqn:Ec.
  apply create_group_spec in Ec as (Ho & Hj & Hw & Hsn & Hold & Hdone).
  assert (group_at ns g t1 = group_at ns g t) as Hsrc by (apply Ho; congruence).
  assert (conserves [] t t1) as Hc by (apply conserves_nil; [auto|by rewrite Hsrc|done..]).
  destruct rc as [[o created]|e|e]; [|intros [= <- <-]; by split..]. destruct (Hdone _ _ eq_refl) as (_ & Hcr & _).
  destruct (_ && _); [intros [= <- <-]; by split|]. set (check := if negb created then _ else _).
  destruct check as [[]| |] eqn:Ek; [|intros [= <- <-]; by split..]. subst check.
  destruct (iter_snapshots _ _ _) as [items| |] eqn:Ei; [|intros [= <- <-]; by split..].
  destruct (sequence_results items) as [l| |] eqn:El; [|intros [= <- <-]; by split..].
  intros [= <- <-]. split; [done|]. intros l0 [= <-] Hms Hmt Hh. split_and!.
  - apply sort_by_key_sorted.
  - intros time Ht. rewrite sort_by_key_perm. eapply honest_times; [done|exact Ei|done|]. by rewrite Hsrc.
  - intros a b Ha Hmax Hb. destruct created; cbn [negb] in Ek.
    + symmetry in Hcr. apply negb_true_iff, bool_decide_eq_false in Hcr. destruct Hb as [d Hd].
      destruct Hcr. by eapply snap_exists.
    + assert (group_at tns g t1 = group_at tns g t) as Htg.
      { apply Hold. symmetry in Hcr. apply negb_false_iff, bool_decide_eq_true in Hcr. done. }
      eapply (check_merge_times _ t1); try done; unfold snap_at; by rewrite ?Hsrc, ?Htg.
Qed.

Lemma finish_move_spec `{HD : !StatsLaws D} io t r t' :
  finish_move M D io ns tns g t = (r, t') -> g_snaps (group_at ns g t) = ∅ ->
  conserves [] t t' /\ (r = Done tt -> group_at ns g t' = None).
Proof using Hne.
  unfold finish_move. intros E He.
  destruct (move_notes_to _ _ _) as [r1 [s1 g1]] eqn:E1. apply move_notes_meta in E1 as (Hs1 & Hg1 & Hex1 & Hex2).
  set (t1 := set_group tns g g1 (set_group ns g s1 t)) in *.
  assert ((tns, g) <> (ns, g)) as Hng by congruence.
  assert (group_at ns g t1 = s1 /\ group_at tns g t1 = g1) as [Hat1 Hat2].
  { unfold t1. by rewrite group_at_set, group_at_set_ne, group_at_set by congruence. }
  assert (forall s, g_snaps s = g_snaps (group_at ns g t) -> (is_Some s -> is_Some (group_at ns g t)) ->
    conserves [] t (set_group ns g s t1)) as Hc.
  { intros s Hs Hse. assert (forall x h, is_Some (group_at x h (set_group ns g s t1)) -> is_Some (group_at x h t)) as Hnew.
    { intros x h. destruct (decide ((x, h) = (ns, g))) as [[= -> ->]|Hx]; [by rewrite group_at_set|].
      rewrite group_at_set_ne by done. destruct (decide ((x, h) = (tns, g))) as [[= -> ->]|Hx']; [by rewrite Hat2|].
      unfold t1. by rewrite !group_at_set_ne. }
    apply conserves_nil; [|by rewrite group_at_set|by rewrite group_at_set_ne, Hat2|done|].
    - intros x h Hx Hx'. unfold t1. by rewrite !group_at_set_ne.
    - intros [Hg Hn]. split; [|done]. intros x h Hx%Hnew. by apply (Hg x h). }
  assert (conserves [] t t1) as Hc1 by (rewrite <-(set_group_id ns g t1); apply Hc; by rewrite Hat1).
  destruct r1; [|simplify_eq; by split..]. rewrite Hat1 in E. destruct (group_destroy _ _ _ _ _) as [r2 s2] eqn:E2.
  assert (g_snaps s2 = ∅) as Hs2.
  { apply group_destroy_shrinks in E2 as [_ Hsh]. apply map_empty. intros time. destruct (g_snaps s2 !! time) as [d|] eqn:Ed; [|done].
    apply Hsh in Ed as (d0 & Hd0 & _). by rewrite Hs1, He, lookup_empty in Hd0. }
  assert (is_Some s2 -> is_Some (group_at ns g t)) as Hs2e.
  { intros Hx. apply Hex1. destruct s1; [by eexists|]. unfold group_destroy in E2. cbn in E2. simplify_eq. }
  assert (t' = set_group ns g s2 t1) as -> by (by destruct r2; simplify_eq).
  split; [apply Hc; [by rewrite Hs2, He|done]|]. intros ->. rewrite group_at_set.
  apply (group_destroy_empty M D _ _ _ _ (eq_trans Hs1 He) E2). by destruct r2; simplify_eq.
Qed.

Lemma conserves_app l t t1 t2 : conserves [] t t1 -> conserves l t1 t2 -> conserves l t t2.
Proof.
  intros H1 H2. assert (forall time, snap_at ns g time t1 = snap_at ns g time t /\ snap_at tns g time t1 = snap_at tns g time t) as Hs.
  { intros time. rewrite (cs_source _ _ _ H1), (cs_target _ _ _ H1). destruct (decide _) as [Hin|]; [by apply elem_of_nil in Hin|done]. }
  split.
  - intros x h Hx Hx'. by rewrite (cs_others _ _ _ H2), (cs_others _ _ _ H1).
  - intros time. rewrite (cs_source _ _ _ H2). by destruct (Hs time) as [-> _].
  - intros time. rewrite (cs_target _ _ _ H2). by destruct (Hs time) as [-> ->].
  - intros time Hin. destruct (Hs time) as [<- <-]. by apply (cs_free _ _ _ H2).
  - intros p Hp. by apply (cs_journal _ _ _ H2), (cs_journal _ _ _ H1).
  - intros Hw. by apply (cs_wf _ _ _ H2), (cs_wf _ _ _ H1).
Qed.
Lemma conserves_app_nil l t t1 t2 : conserves l t t1 -> conserves [] t1 t2 -> conserves l t t2.
Proof.
  intros H1 H2. split.
  - intros x h Hx Hx'. by rewrite (cs_others _ _ _ H2), (cs_others _ _ _ H1).
  - intros time. rewrite (cs_source _ _ _ H2). destruct (decide (time ∈ [])) as [Hin|]; [by apply elem_of_nil in Hin|].
    apply (cs_source _ _ _ H1).
  - intros time. rewrite (cs_target _ _ _ H2). destruct (decide (time ∈ [])) as [Hin|]; [by apply elem_of_nil in Hin|].
    apply (cs_target _ _ _ H1).
  - apply (cs_free _ _ _ H1).
  - intros p Hp. by apply (cs_journal _ _ _ H2), (cs_journal _ _ _ H1).
  - intros Hw. by apply (cs_wf _ _ _ H2), (cs_wf _ _ _ H1).
Qed.
Lemma moved_conserves l t t' :
  moved l t t' -> (forall a b, a ∈ l -> is_Some (snap_at tns g b t) -> b < a) -> conserves l t t'.
Proof.
  intros Hm Hlt. split; try apply Hm; [|by apply (moved_wf l)]. intros time Hin. destruct (mv_free _ _ _ Hm time Hin) as [Hs _].
  split; [done|]. destruct (snap_at tns g time t) eqn:E; [|done]. specialize (Hlt time time Hin). rewrite E in Hlt.
  specialize (Hlt ltac:(by eexists)). lia.
Qed.

(** The move of a group, when it is not refused at once. *)
Lemma move_spec `{HD : !StatsLaws D} io merge_groups t r t' :
  match prepare_move M L io ns tns g merge_groups t with
  | (Done snapshots, t) =>
      match move_batches archive_type io ns tns g (length snapshots) snapshots t with
      | (Done _, t) => finish_move M D io ns tns g t
      | r => r
      end
  | (Soft err, t) => (Soft err, t)
  | (Hard err, t) => (Hard err, t)
  end = (r, t') ->
  complete M (me_source (mg_merge io)) -> complete M (me_target (mg_merge io)) -> honest M (mg_list io) ->
  (forall time, is_Some (snap_at ns g time t) -> time < I64_MAX) ->
  exists l, conserves l t t' /\
    (forall a b, a ∈ l -> is_Some (snap_at ns g b t) -> b ∉ l -> a < b) /\
    ((forall time, names_read (mg_move io time)) -> recorded l t t') /\
    (r = Done tt -> group_at ns g t' = None).
Proof using Hne.
  intros E Hms Hmt Hh Hmax. destruct (prepare_move _ _ _ _ _ _ _ _) as [rp t1] eqn:Ep.
  apply prepare_move_spec in Ep as [Hc Hp].
  assert (r <> Done tt -> t' = t1 -> exists l, conserves l t t' /\
    (forall a b, a ∈ l -> is_Some (snap_at ns g b t) -> b ∉ l -> a < b) /\
    ((forall time, names_read (mg_move io time)) -> recorded l t t') /\
    (r = Done tt -> group_at ns g t' = None)) as Hstop.
  { intros Hr ->. exists []. split_and!; [done|intros ? ? Hin|intros _ ? ? ? Hin|done]; by apply elem_of_nil in Hin. }
  destruct rp as [l|e|e]; [|apply Hstop; by simplify_eq..]. clear Hstop.
  destruct (Hp l eq_refl Hms Hmt Hh) as (Hsort & Hall & Hlt). clear Hp.
  assert (forall time, snap_at ns g time t1 = snap_at ns g time t /\ snap_at tns g time t1 = snap_at tns g time t) as Hs.
  { intros time. rewrite (cs_source _ _ _ Hc), (cs_target _ _ _ Hc). destruct (decide _) as [Hin|]; [by apply elem_of_nil in Hin|done]. }
  destruct (move_batches _ _ _ _ _ _ _ _) as [rb t2] eqn:Eb.
  apply move_batches_part in Eb as (l1 & l2 & -> & Hm & Hdone & Hrec); [|done].
  assert (conserves l1 t t2) as Hc2.
  { eapply conserves_app; [done|]. apply moved_conserves; [done|]. intros a b Ha Hb.
    destruct (mv_free _ _ _ Hm a Ha) as [Hsa _]. destruct (Hs a) as [Ea _], (Hs b) as [_ Eb']. rewrite Ea in Hsa. rewrite Eb' in Hb.
    by apply (Hlt a b Hsa (Hmax a Hsa)). }
  exists l1. assert (forall a b, a ∈ l1 -> is_Some (snap_at ns g b t) -> b ∉ l1 -> a < b) as Hord.
  { intros a b Ha Hb Hnb. assert (b ∈ l2) as Hb2 by (specialize (Hall b Hb); set_solver).
    assert (a <> b) as Hab by (by intros ->). assert (a <= b); [|lia].
    clear -Hsort Ha Hb2. induction l1 as [|x l1 IH]; [by apply elem_of_nil in Ha|]. cbn in Hsort.
    apply StronglySorted_inv in Hsort as [Hs Hx]. rewrite Forall_forall in Hx.
    apply elem_of_cons in Ha as [->|Ha]; [apply Hx; set_solver|by apply IH]. }
  assert ((forall time, names_read (mg_move io time)) -> recorded l1 t t2) as Hr2.
  { intros Hn time d name Hin Hd. apply (Hrec Hn time d name Hin). by destruct (Hs time) as [-> _]. }
  destruct rb as [[]|e|e]; [|simplify_eq; by split_and!..].
  rewrite (Hdone eq_refl), app_nil_r in Hall. apply finish_move_spec in E as [Hc3 Hnone].
  2: { apply map_empty. intros time. pose proof (cs_source _ _ _ Hc2 time) as Hst. unfold snap_at in Hst at 1. rewrite Hst.
    destruct (decide (time ∈ l1)) as [|Hnin]; [done|]. destruct (snap_at ns g time t) eqn:Ed; [|done].
    destruct Hnin. apply Hall. rewrite Ed. by eexists. }
  split_and!; [by eapply conserves_app_nil|done| |done].
  intros Hn time d name Hin Hd Hnm Hi. by eapply (cs_journal _ _ _ Hc3), Hr2.
Qed.
End batch.

(** What the theorems assume of the listings in the course of a move: none of the snapshots is missed without an
    error being delivered, and none at all when groups are compared. *)
Definition listings_ok (io : MoveGroupIo) : Prop :=
  complete M (me_source (mg_merge io)) /\ complete M (me_target (mg_merge io)) /\ honest M (mg_list io).

Lemma lock_and_move_spec `{HD : !StatsLaws D} io source_ns ns g target_ns tns merge_groups t r t' :
  lock_and_move_group N M L D archive_type io source_ns ns g target_ns merge_groups t = (r, t') ->
  map_prefix ns source_ns target_ns = Ok tns -> listings_ok io ->
  (forall time, is_Some (snap_at ns g time t) -> time < I64_MAX) ->
  (r <> Done tt /\ t' = t) \/
  (ns <> tns /\ exists l, conserves ns tns g l t t' /\
    (forall a b, a ∈ l -> is_Some (snap_at ns g b t) -> b ∉ l -> a < b) /\
    ((forall time, names_read (mg_move io time)) -> recorded ns tns g l t t') /\
    (r = Done tt -> group_at ns g t' = None)).
Proof.
  unfold lock_and_move_group. intros E Em (Hms & Hmt & Hh) Hmax. rewrite Em in E. destruct (mg_lock io); cbn [negb] in E; [|left; by simplify_eq].
  destruct (decide (ns = tns)) as [<-|Hne].
  { left. unfold prepare_move, check_move_group in E. rewrite bool_decide_eq_true_2 in E by done. by simplify_eq. }
  right. split; [done|]. by eapply move_spec.
Qed.

(** C17.  Moving a group loses nothing, as long as no directory listing silently leaves out what is there.  Assumed of
    the listings is: the one that selects the snapshots to move misses none without an error, those that compare source and target
    before a merge miss none, and those of the files of a snapshot miss none unless they fail; and the times of the
    snapshots are less than [i64::MAX].  Every other call may fail or not.  Then some of the snapshots have gone from the source to the target, with
    their contents, and all others are where they were; nothing at the target was replaced, other groups are
    not touched, and namespaces and groups stay consistent.  What was moved is older than what was not, and its index files are in
    the journal.  If the move succeeds, the source is gone, and with it every snapshot is at the target. *)
Theorem move_group_conserves `{HN : !NsLaws N} `{HD : !StatsLaws D} old io source_ns g target_ns merge_group t r t' :
  move_group N M L D archive_type old io source_ns g target_ns merge_group t = (r, t') ->
  listings_ok io -> (forall time, names_read (mg_move io time)) ->
  (forall time, is_Some (snap_at source_ns g time t) -> time < I64_MAX) ->
  exists l, conserves source_ns target_ns g l t t' /\
    (forall a b, a ∈ l -> is_Some (snap_at source_ns g b t) -> b ∉ l -> a < b) /\
    recorded source_ns target_ns g l t t' /\
    (r = Ok tt -> group_at source_ns g t' = None /\ forall time, is_Some (snap_at source_ns g time t) -> time ∈ l).
Proof.
  intros E Hl Hn Hmax. assert (r <> Ok tt -> t' = t -> exists l, conserves source_ns target_ns g l t t' /\
    (forall a b, a ∈ l -> is_Some (snap_at source_ns g b t) -> b ∉ l -> a < b) /\
    recorded source_ns target_ns g l t t' /\
    (r = Ok tt -> group_at source_ns g t' = None /\ forall time, is_Some (snap_at source_ns g time t) -> time ∈ l)) as Hsame.
  { intros Hr ->. exists []. split_and!; [by apply conserves_nil|intros ? ? Hin|intros ? ? ? Hin|done]; by apply elem_of_nil in Hin. }
  unfold move_group in E. destruct old; [apply Hsame; by simplify_eq|].
  destruct (lock_and_move_group _ _ _ _ _ _ _ _ _ _ _ _) as [r1 t1] eqn:E1.
  assert (t' = t1 /\ (r = Ok tt -> r1 = Done tt)) as [-> Hr] by (by destruct r1 as [[]|?|?]; simplify_eq).
  destruct (map_prefix source_ns source_ns target_ns) as [tns|e|e] eqn:Em.
  2-3: unfold lock_and_move_group in E1; rewrite Em in E1; simplify_eq; by apply Hsame.
  pose proof (map_prefix_ok _ _ _ _ Em) as (rest & Hs & Ht). assert (rest = []) as ->.
  { apply (f_equal length) in Hs. rewrite length_app in Hs. destruct rest; [done|cbn in Hs; lia]. }
  rewrite app_nil_r in Ht. subst tns.
  destruct (lock_and_move_spec _ _ _ _ _ _ _ _ _ _ E1 Em Hl Hmax) as [[Hnd ->]|(Hne & l & Hc & Ho & Hrec & Hd)].
  { apply Hsame; [by intros ?%Hr|done]. }
  exists l. split_and!; [done|done|by apply Hrec|]. intros Hok%Hr. specialize (Hd Hok). split; [done|].
  intros time Ht. destruct (decide (time ∈ l)) as [|Hnin]; [done|]. pose proof (cs_source _ _ _ _ _ _ Hc time) as Hs'.
  rewrite decide_False in Hs' by done. unfold snap_at in Hs' at 1. rewrite Hd in Hs'. rewrite <-Hs' in Ht. by destruct Ht.
Qed.

(** ** Moving namespaces *)
Definition SnapKey := (namespace * group_id * Z)%type.
Definition snap (k : SnapKey) (t : Tree) : option dir := snap_at k.1.1 k.1.2 k.2 t.
Definition times_ok (t : Tree) : Prop := forall k, is_Some (snap k t) -> k.2 < I64_MAX.

(** Every snapshot of a tree has a place in the other one, with its group, time and content, no two have the same
    one, and there are no others; only snapshots in namespaces of [P] change their place. *)
Record relocated (P : namespace -> Prop) (place : SnapKey -> SnapKey) (t t' : Tree) : Prop := {
  rl_same k : (place k).1.2 = k.1.2 /\ (place k).2 = k.2;
  rl_kept k d : snap k t = Some d -> snap (place k) t' = Some d;
  rl_from k' d : snap k' t' = Some d -> exists k, place k = k' /\ snap k t = Some d;
  rl_distinct k1 k2 : is_Some (snap k1 t) -> is_Some (snap k2 t) -> place k1 = place k2 -> k1 = k2;
  rl_fixed k : ~ P k.1.1 -> place k = k;
}.
Definition relocates (P : namespace -> Prop) (t t' : Tree) : Prop :=
  (exists place, relocated P place t t') /\ (tree_wf t -> tree_wf t').

Lemma relocates_groups (P : namespace -> Prop) t t' :
  tr_groups t' = tr_groups t -> (tree_wf t -> tree_wf t') -> relocates P t t'.
Proof.
  intros Hg Hw. split; [|done]. assert (forall k, snap k t' = snap k t) as Hs by (intros; unfold snap, snap_at, group_at; by rewrite Hg).
  exists id. split; try done; intros *; rewrite ?Hs; eauto.
Qed.
Lemma relocates_trans P t t1 t2 : relocates P t t1 -> relocates P t1 t2 -> relocates P t t2.
Proof.
  intros [[f H1] W1] [[f' H2] W2]. split; [|auto]. exists (f' ∘ f). split; cbn.
  - intros k. destruct (rl_same _ _ _ _ H2 (f k)) as [-> ->]. apply (rl_same _ _ _ _ H1).
  - intros k d Hd. by apply (rl_kept _ _ _ _ H2), (rl_kept _ _ _ _ H1).
  - intros k' d (k1 & <- & Hk1)%(rl_from _ _ _ _ H2). apply (rl_from _ _ _ _ H1) in Hk1 as (k & <- & Hk). by exists k.
  - intros k1 k2 [d1 Hd1] [d2 Hd2] E. apply (rl_distinct _ _ _ _ H2) in E.
    + by apply (rl_distinct _ _ _ _ H1) in E; [|eexists..].
    + eexists. by apply (rl_kept _ _ _ _ H1).
    + eexists. by apply (rl_kept _ _ _ _ H1).
  - intros k Hk. rewrite (rl_fixed _ _ _ _ H1) by done. by apply (rl_fixed _ _ _ _ H2).
Qed.
Lemma relocates_times P t t' : relocates P t t' -> times_ok t -> times_ok t'.
Proof.
  intros [[f H] _] Ht k' [d Hd]. apply (rl_from _ _ _ _ H) in Hd as (k & <- & Hk).
  destruct (rl_same _ _ _ _ H k) as [_ ->]. apply Ht. by eexists.
Qed.

Lemma conserves_relocates (P : namespace -> Prop) ns tns g l t t' :
  conserves ns tns g l t t' -> ns <> tns -> P ns -> relocates P t t'.
Proof.
  intros Hc Hne HP. split; [|apply (cs_wf _ _ _ _ _ _ Hc)].
  set (f := fun k : SnapKey => if decide (k.1 = (ns, g) /\ k.2 ∈ l) then (tns, g, k.2) else k). exists f.
  assert (forall time, time ∈ l -> f (ns, g, time) = (tns, g, time)) as Hf1.
  { intros time Hin. unfold f. by rewrite decide_True. }
  assert (forall k, k.1 <> (ns, g) \/ k.2 ∉ l -> f k = k) as Hf2.
  { intros k Hk. unfold f. rewrite decide_False; [done|]. naive_solver. }
  assert (forall k, (exists time, k = (ns, g, time) /\ time ∈ l) \/ (k.1 <> (ns, g) \/ k.2 ∉ l)) as Hcase.
  { intros [[x h] time]. destruct (decide ((x, h) = (ns, g))) as [[= -> ->]|]; [|by auto].
    destruct (decide (time ∈ l)); [left; by eexists|by auto]. }
  assert (forall k, k.1 <> (ns, g) \/ k.2 ∉ l -> k.1 <> (tns, g) \/ k.2 ∉ l -> snap k t' = snap k t) as Hstay.
  { intros [[x h] time] H1 H2. cbn in H1, H2. unfold snap. cbn [fst snd]. destruct (decide ((x, h) = (ns, g))) as [[= -> ->]|Hx].
    { rewrite (cs_source _ _ _ _ _ _ Hc), decide_False by naive_solver. done. }
    destruct (decide ((x, h) = (tns, g))) as [[= -> ->]|Hx'].
    { rewrite (cs_target _ _ _ _ _ _ Hc), decide_False by naive_solver. done. }
    unfold snap_at. by rewrite (cs_others _ _ _ _ _ _ Hc). }
  assert (forall time, time ∈ l -> snap (tns, g, time) t' = snap (ns, g, time) t /\ snap (tns, g, time) t = None /\
    snap (ns, g, time) t' = None) as Hmv.
  { intros time Hin. unfold snap. cbn [fst snd]. rewrite (cs_target _ _ _ _ _ _ Hc), (cs_source _ _ _ _ _ _ Hc), !decide_True by done.
    split_and!; [done| |done]. by apply (cs_free _ _ _ _ _ _ Hc). }
  split.
  - intros k. destruct (Hcase k) as [(time & -> & Hin)|Hk]; [by rewrite Hf1|by rewrite Hf2].
  - intros k d Hd. destruct (Hcase k) as [(time & -> & Hin)|Hk]; [rewrite Hf1 by done; by destruct (Hmv time Hin) as [-> _]|].
    rewrite Hf2 by done. rewrite Hstay; [done|done|]. destruct k as [[x h] time]. cbn in *.
    destruct (decide ((x, h) = (tns, g))) as [[= -> ->]|]; [right|by left]. intros Hin.
    destruct (Hmv time Hin) as (_ & Hn & _). congruence.
  - intros [[x h] time] d Hd. destruct (decide ((x, h) = (tns, g) /\ time ∈ l)) as [[[= -> ->] Hin]|Hk].
    { exists (ns, g, time). rewrite Hf1 by done. destruct (Hmv time Hin) as [<- _]. done. }
    exists (x, h, time). destruct (Hcase (x, h, time)) as [(tm & [= -> -> <-] & Hin)|Hk2].
    { destruct (Hmv time Hin) as (_ & _ & Hn). congruence. }
    rewrite Hf2 by done. split; [done|]. rewrite <-Hstay; [done|done|]. cbn.
    destruct (decide (time ∈ l)); [left|by right]. intros Hx. by apply Hk.
  - intros k1 k2 [d1 H1] [d2 H2]. destruct (Hcase k1) as [(t1 & -> & Hin1)|Hk1], (Hcase k2) as [(t2 & -> & Hin2)|Hk2];
      rewrite ?Hf1, ?Hf2 by done; try congruence; intros <- || intros ->; exfalso.
    + destruct (Hmv t1 Hin1) as (_ & Hn & _). congruence.
    + destruct (Hmv t2 Hin2) as (_ & Hn & _). congruence.
  - intros k Hk. apply Hf2. left. intros E. rewrite E in Hk. done.
Qed.

Lemma create_namespace_wf `{HN : !NsLaws N} mkdir parent name t r t' :
  create_namespace N mkdir parent name t = (r, t') -> tr_groups t' = tr_groups t /\ (tree_wf t -> tree_wf t').
Proof.
  unfold create_namespace. destruct (namespace_exists parent t) eqn:Ep; [|by intros [= <- <-]]. cbn [negb].
  destruct (from_parent_ns parent name) as [ns| |] eqn:En; [|by intros [= <- <-]..]. apply from_parent_ns_ok in En as ->.
  destruct mkdir; cbn [negb]; [|by intros [= <- <-]]. intros [= <- <-]. split; [done|]. intros [Hg Hn].
  assert (forall x, namespace_exists x t = true ->
    namespace_exists x (set_ns ({[parent ++ [name]]} ∪ tr_ns t) t) = true) as Hm.
  { intros x. rewrite !namespace_exists_spec. cbn. set_solver. }
  split; [intros x h Hx; by apply Hm, (Hg x h)|]. intros x n Hx. apply Hm. cbn in Hx.
  apply elem_of_union in Hx as [Hx%elem_of_singleton|Hx]; [|by apply (Hn x n)]. by apply app_inj_tail in Hx as [-> _].
Qed.

Lemma create_targets_wf `{HN : !NsLaws N} io source_ns target_ns l t r t' :
  create_targets N io source_ns target_ns l t = (r, t') -> tr_groups t' = tr_groups t /\ (tree_wf t -> tree_wf t').
Proof.
  revert t. induction l as [|ns l IH]; intros t; cbn [create_targets]; [by intros [= <- <-]|].
  destruct (map_prefix _ _ _) as [tns| |]; [|by intros [= <- <-]..]. destruct (_ || _); [apply IH|].
  destruct (from_option _ _ _) as [name| |]; [|by intros [= <- <-]..].
  destruct (create_namespace _ _ _ _ _) as [r1 t1] eqn:E1. apply create_namespace_wf in E1 as [Hg1 Hw1].
  destruct r1; [|by intros [= <- <-]..]. intros [Hg2 Hw2]%IH. split; [congruence|auto].
Qed.

Lemma cleanup_wf io old attempted failed l t b t' :
  cleanup_sources N M D io old attempted failed l t = (b, t') -> tr_groups t' = tr_groups t /\ (tree_wf t -> tree_wf t').
Proof.
  revert t. induction l as [|ns l IH]; intros t; cbn [cleanup_sources]; [by intros [= <- <-]|].
  destruct (existsb _ _); [apply IH|]. destruct (iter_backup_ns_ok _ _ _ _); [|by intros [= <- <-]].
  destruct (negb _); [apply IH|]. destruct (remove_namespace _ _ _ _ _ _ _) as [r1 t1] eqn:E1.
  apply remove_namespace_removes in E1 as [H1 G1]. intros [Hg2 Hw2]%IH.
  split; [by rewrite Hg2, G1|]. intros Hw. by apply Hw2, (rm_wf _ _ _ H1).
Qed.

Section namespaces.
Context `{HN : !NsLaws N} `{HD : !StatsLaws D} (io : MoveNsIo) (source_ns target_ns : namespace) (merge_groups : bool).
Hypothesis Hmove : forall ns g, listings_ok (mn_move io ns g).
Hypothesis Hretry : forall ns g, listings_ok (mn_retry io ns g).

Lemma lock_and_move_relocates mio ns g t r t' :
  lock_and_move_group N M L D archive_type mio source_ns ns g target_ns merge_groups t = (r, t') ->
  listings_ok mio -> below source_ns ns -> times_ok t -> relocates (below source_ns) t t'.
Proof using HD.
  intros E Hl Hb Ht. destruct (map_prefix ns source_ns target_ns) as [tns|e|e] eqn:Em.
  2-3: unfold lock_and_move_group in E; rewrite Em in E; simplify_eq; by apply relocates_groups.
  eapply lock_and_move_spec in E as [[_ ->]|(Hne & l & Hc & _)]; [by apply relocates_groups|by eapply conserves_relocates|done|done|].
  intros time Hs. by apply (Ht (ns, g, time)).
Qed.

Lemma move_groups_relocates ns l f t f' t' :
  move_groups N M L D archive_type io source_ns target_ns merge_groups ns l f t = (f', t') ->
  below source_ns ns -> times_ok t ->
  relocates (below source_ns) t t' /\
  (Forall (below source_ns) (fst <$> fd_deferred f) -> Forall (below source_ns) (fst <$> fd_deferred f')).
Proof using HD Hmove.
  intros E Hb. revert f t E. induction l as [|[g|e|e] l IH]; intros f t; cbn [move_groups].
  { intros [= <- <-] _. split; [by apply relocates_groups|done]. }
  2-3: intros E Ht; destruct (IH _ _ E Ht) as [? Hd]; split; [done|exact Hd].
  destruct (lock_and_move_group _ _ _ _ _ _ _ _ _ _ _ _) as [r1 t1] eqn:E1. intros E Ht.
  apply lock_and_move_relocates in E1; [|done..]. pose proof (relocates_times _ _ _ E1 Ht) as Ht1.
  destruct r1; destruct (IH _ _ E Ht1) as [H2 Hd]; (split; [by eapply relocates_trans|]); intros Hf; apply Hd; try exact Hf.
  cbn. rewrite fmap_app, Forall_app. split; [done|]. by constructor.
Qed.

Lemma move_all_relocates l f t f' t' :
  move_all N M L D archive_type io source_ns target_ns merge_groups l f t = (f', t') ->
  Forall (below source_ns) l -> times_ok t ->
  relocates (below source_ns) t t' /\
  (Forall (below source_ns) (fst <$> fd_deferred f) -> Forall (below source_ns) (fst <$> fd_deferred f')).
Proof using HD Hmove.
  revert f t. induction l as [|ns l IH]; intros f t; cbn [move_all].
  { intros [= <- <-] _ _. split; [by apply relocates_groups|done]. }
  set (one := match iter_backup_groups _ _ _ _ with Ok _ => _ | Err _ => _ | Panic _ => _ end).
  intros E [Hb Hl]%Forall_cons Ht. assert (relocates (below source_ns) t one.2 /\
    (Forall (below source_ns) (fst <$> fd_deferred f) -> Forall (below source_ns) (fst <$> fd_deferred one.1))) as [H1 Hd1].
  { unfold one. destruct (iter_backup_groups _ _ _ _); [|split; [by apply relocates_groups|done]..].
    destruct (move_groups _ _ _ _ _ _ _ _ _ _ _ _ _) eqn:E1. by eapply move_groups_relocates. }
  destruct one as [f1 t1]. cbn in *. destruct (IH _ _ E Hl (relocates_times _ _ _ H1 Ht)) as [H2 Hd2].
  split; [by eapply relocates_trans|auto].
Qed.

Lemma retry_relocates l f t f' t' :
  retry_deferred N M L D archive_type io source_ns target_ns merge_groups l f t = (f', t') ->
  Forall (below source_ns) l.*1 -> times_ok t -> relocates (below source_ns) t t'.
Proof using HD Hretry.
  revert f t. induction l as [|[ns g] l IH]; intros f t; cbn [retry_deferred].
  { intros [= <- <-] _ _. by apply relocates_groups. }
  destruct (lock_and_move_group _ _ _ _ _ _ _ _ _ _ _ _) as [r1 t1] eqn:E1. intros E [Hb Hl]%Forall_cons Ht.
  apply lock_and_move_relocates in E1; [|done..]. pose proof (relocates_times _ _ _ E1 Ht) as Ht1.
  eapply relocates_trans; [done|]. destruct r1; by eapply IH.
Qed.

Lemma move_namespace_relocates old max_depth delete_source t r t' :
  move_namespace N M L D archive_type io old source_ns target_ns max_depth delete_source merge_groups t = (r, t') ->
  times_ok t -> relocates (below source_ns) t t'.
Proof using HN HD Hmove Hretry.
  unfold move_namespace. destruct old; [intros [= <- <-] _; by apply relocates_groups|].
  set (pre := let? _ := check_move_namespace _ _ _ _ in _). intros E Ht.
  destruct pre as [attempted|e|e] eqn:Epre; [|simplify_eq; by apply relocates_groups..].
  assert (Forall (below source_ns) attempted) as Hb.
  { unfold pre in Epre. destruct (check_move_namespace _ _ _ _); [|done..].
    destruct (list_namespaces _ _ _ _ _) as [l| |] eqn:El; [|done..]. destruct (check_namespace_depth_limit _ _ _ _); [|done..].
    simplify_eq. by eapply list_namespaces_below. }
  destruct (create_targets _ _ _ _ _ _) as [r1 t1] eqn:E1. apply create_targets_wf in E1 as [Hg1 Hw1].
  pose proof (relocates_groups (below source_ns) _ _ Hg1 Hw1) as H1.
  destruct r1; [|by simplify_eq..]. pose proof (relocates_times _ _ _ H1 Ht) as Ht1.
  destruct (move_all _ _ _ _ _ _ _ _ _ _ _ _) as [f2 t2] eqn:E2. apply move_all_relocates in E2 as [H2 Hd2]; [|done..].
  pose proof (relocates_times _ _ _ H2 Ht1) as Ht2.
  destruct (retry_deferred _ _ _ _ _ _ _ _ _ _ _ _) as [f3 t3] eqn:E3.
  apply retry_relocates in E3; [|by apply Hd2, Forall_nil|done].
  set (last := if delete_source then _ else _) in E.
  assert (relocates (below source_ns) t3 last.2) as H4.
  { unfold last. destruct delete_source; [|by apply relocates_groups].
    destruct (cleanup_sources _ _ _ _ _ _ _ _ _) as [b t4] eqn:E4. apply cleanup_wf in E4 as [Hg4 Hw4]. by apply relocates_groups. }
  destruct last as [ended t4]. assert (t' = t4) as -> by (by destruct ended; cbn in E; [destruct (_ || _)|]; simplify_eq).
  eapply relocates_trans; [exact H1|]. eapply relocates_trans; [exact H2|]. by eapply relocates_trans.
Qed.
End namespaces.

(** C18.  Moving a tree of namespaces loses nothing, as long as no directory listing silently leaves out snapshots.  Assumed is, for every
    group and for both attempts to move it: the listing that selects the snapshots to move misses none without an error, and those
    that compare source and target before a merge miss none; and the times of the snapshots are less than [i64::MAX].  Every
    other call may fail or not.  Then, whether the move returns or not, every snapshot of the
    datastore has a place afterwards, with its group, time and content, no two the same one; only snapshots in or below the
    source have changed their place, and there are no others. *)
Theorem move_namespace_conserves `{HN : !NsLaws N} `{HD : !StatsLaws D} io old source_ns target_ns max_depth
    delete_source merge_groups t r t' :
  move_namespace N M L D archive_type io old source_ns target_ns max_depth delete_source merge_groups t = (r, t') ->
  (forall ns g, listings_ok (mn_move io ns g) /\ listings_ok (mn_retry io ns g)) ->
  times_ok t -> relocates (below source_ns) t t'.
Proof.
  intros E Hl Ht. eapply move_namespace_relocates; [|..|exact E|exact Ht]; intros ns g; apply Hl.
Qed.
End move.
