(* ===== verification/MoveProgress.v ===== *)
(** * A move that failed can be finished

    From any state that an earlier attempt left, a move with merging succeeds when all its calls do. *)

From S2P Require Import Prelude Text GarbageCollection Acl AclSpec Hierarchy HierarchySpec GroupDir GroupDirSpec Datastore DatastoreSpec MoveSpec.
From Stdlib Require Import Sorting.Sorted.

Section progress.
Context (N : NsLib) (M : NameLib) (L : AclLib) (D : StatsLib).
Context {HN : NsLaws N} {HL : AclLaws L} {HD : StatsLaws D}.
Variable archive_type : string -> option ArchiveType.

(** An id that a line can hold. *)
Definition owner_ok (o : Authid) : Prop :=
  authid_parse L (authid_to_string L o) = Ok o /\ has_char newline (authid_to_string L o) = false /\
  ends_well (authid_to_string L o) = true.
Lemma owner_roundtrip auth_id gd :
  owner_ok auth_id -> get_owner L true (Some (with_owner (owner_line L auth_id) gd)) = Ok auth_id.
Proof using Type.
  intros (Ha & Hn & He). unfold get_owner, with_owner, owner_line, first_line. cbn.
  rewrite text_split_app by done. cbn. by rewrite trim_end_ends.
Qed.
Lemma get_owner_ok read g o : get_owner L read g = Ok o -> owner_ok o /\ get_owner L true g = Ok o.
Proof using HL.
  unfold get_owner. destruct (g ≫= gd_owner) as [s|]; [|done]. destruct read; [|done]. intros E. split; [|done].
  unfold owner_ok. rewrite (authid_print _ _ E). split_and!; [done| |apply trim_end_well]. apply trim_end_no_char.
  unfold first_line. pose proof (split_chars newline s) as Hc. destruct (split newline s) as [|p l]; [done|].
  by apply Forall_cons in Hc as [? _].
Qed.

(** ** Calls that succeed *)
Definition faithful (ls : Listing) : Prop :=
  forall snaps, exists fd, l_snaps ls snaps = Ok fd /\ snapshot_items M fd ≡ₚ Ok <$> (map_to_list snaps).*1.

Record good (io : MoveGroupIo) : Prop := {
  good_lock : mg_lock io = true;
  good_read : mg_read_owner io = true;
  good_create : cg_parents (mg_create io) = None /\ cg_create (mg_create io) = true /\ cg_lock (mg_create io) = true /\
    cg_read (mg_create io) = true /\ ow_open (cg_owner (mg_create io)) = true /\ ow_write (cg_owner (mg_create io)) = None;
  good_merge : me_source_owner (mg_merge io) = true /\ me_target_owner (mg_merge io) = true /\
    faithful (me_source (mg_merge io)) /\ faithful (me_target (mg_merge io));
  good_list : faithful (mg_list io);
  good_snap time : mg_snap_lock io time = true /\ mt_target_name (mg_move io time) = true /\
    (forall names, mt_list (mg_move io time) names = Ok names) /\ mt_journal (mg_move io time) = None /\
    mt_rename (mg_move io time) = true;
  good_notes : nt_read_source (mg_notes io) = true /\ nt_read_target (mg_notes io) = true /\ nt_rename (mg_notes io) = true;
  good_destroy : faithful (gx_list (mg_destroy io)) /\
    gx_remove (mg_destroy io) = {| rg_notes := true; rg_owner := true; rg_dir := true |};
}.

Lemma iter_faithful ls gd :
  faithful ls -> exists l, iter_snapshots M ls (Some gd) = Ok (Ok <$> l) /\ l ≡ₚ (map_to_list (gd_snaps gd)).*1.
Proof using Type.
  intros Hf. destruct (Hf (gd_snaps gd)) as (fd & Hfd & Hp). apply Permutation_map_inv in Hp as (l & Hl & Hp).
  exists l. split; [apply iter_snapshots_spec; by exists fd|done].
Qed.
Lemma elem_of_keys (m : gmap Z dir) time : time ∈ (map_to_list m).*1 <-> is_Some (m !! time).
Proof using Type.
  rewrite list_elem_of_fmap. split.
  - intros ([x d] & -> & Hx%elem_of_map_to_list). by exists d.
  - intros [d Hd]. exists (time, d). split; [done|]. by apply elem_of_map_to_list.
Qed.

Section group.
Context (ns tns : namespace) (g : group_id) (Hne : ns <> tns) (o : Authid).

(** The source can be merged into the target: the owner is the same, and all that is there is older. *)
Record mergeable (t : Tree) : Prop := {
  mb_owner : get_owner L true (group_at ns g t) = Ok o;
  mb_ns : namespace_exists tns t = true;
  mb_target : is_Some (group_at tns g t) -> get_owner L true (group_at tns g t) = Ok o;
  mb_older a b : is_Some (snap_at ns g a t) -> is_Some (snap_at tns g b t) -> b < a;
  mb_times time : is_Some (snap_at ns g time t) -> time < I64_MAX;
}.

Lemma mergeable_source t : mergeable t -> is_Some (group_at ns g t).
Proof using Type. intros H. pose proof (mb_owner _ H) as E. unfold get_owner in E. destruct (group_at ns g t); [by eexists|done]. Qed.

Lemma good_create_done io t :
  good io -> mergeable t ->
  exists created t1, create_locked_backup_group_do L (mg_create io) tns g o t = (Done (o, created), t1).
Proof using HL.
  intros Hg Hm. destruct (good_create _ Hg) as (Hp & Hc & Hl & Hr & Ho & Hw). unfold create_locked_backup_group_do, create_parents.
  rewrite Hp. set (t1 := set_ns _ t). rewrite bool_decide_eq_false_2 by (by intros []). cbn [negb].
  change (group_at tns g t1) with (group_at tns g t). destruct (get_owner_ok _ _ _ (mb_owner _ Hm)) as [Hok _].
  rewrite Hc, Hl, Hr, andb_false_r. cbn [negb]. case_bool_decide as He; cbn [negb].
  - rewrite group_at_set. change (group_at tns g t1) with (group_at tns g t). rewrite (mb_target _ Hm He). by eexists _, _.
  - rewrite group_at_set. unfold set_owner. rewrite Ho, Hw. cbn [negb orb is_Some]. rewrite bool_decide_eq_false_2 by (by intros []).
    cbn [andb orb]. rewrite group_at_set, owner_roundtrip by done. by eexists _, _.
Qed.

Lemma good_check_merge io t :
  good io -> mergeable t -> is_Some (group_at tns g t) ->
  check_merge_invariants M L (mg_merge io) (group_at ns g t) (group_at tns g t) = Ok tt.
Proof using Type.
  intros Hg Hm Ht. destruct (good_merge _ Hg) as (H1 & H2 & Hfs & Hft).
  destruct (mergeable_source _ Hm) as [gs Hgs], Ht as [gt Hgt]. unfold check_merge_invariants.
  rewrite H1, H2, (mb_owner _ Hm), (mb_target _ Hm) by (by rewrite Hgt). rewrite bool_decide_eq_true_2 by done. cbn [negb].
  rewrite Hgs, Hgt. destruct (iter_faithful _ gs Hfs) as (ls & -> & Hls), (iter_faithful _ gt Hft) as (lt & -> & Hlt).
  set (oldest := foldl _ _ _). destruct (negb _) eqn:En; [|done].
  destruct (existsb _ _) eqn:Eb; [|done]. apply existsb_exists in Eb as (b & Hb & Hle%Z.leb_le).
  apply list_elem_of_In, elem_of_oks, list_elem_of_fmap in Hb as (b' & [= <-] & Hb). rewrite Hlt, elem_of_keys in Hb.
  assert (forall l m, foldl (fun m s => if s <? m then s else m) m l = m \/ foldl (fun m s => if s <? m then s else m) m l ∈ l) as Hfold.
  { clear. induction l as [|y l IH]; intros m; [by left|]. cbn. destruct (IH (if y <? m then y else m)) as [E|E]; [|right; by right].
    rewrite E. destruct (y <? m); [right; by left|by left]. }
  apply negb_true_iff, Z.eqb_neq in En. destruct (Hfold (oks (Ok <$> ls)) I64_MAX) as [E|E]; [done|].
  fold oldest in E. apply elem_of_oks, list_elem_of_fmap in E as (a & [= <-] & Ha). rewrite Hls, elem_of_keys in Ha.
  assert (b < oldest); [|lia]. apply (mb_older _ Hm); unfold snap_at; [by rewrite Hgs|by rewrite Hgt].
Qed.

Lemma good_prepare io t :
  good io -> mergeable t ->
  exists l t1, prepare_move M L io ns tns g true t = (Done l, t1) /\ is_Some (group_at tns g t1) /\
    group_at ns g t1 = group_at ns g t /\ g_snaps (group_at tns g t1) = g_snaps (group_at tns g t) /\
    l ≡ₚ (map_to_list (g_snaps (group_at ns g t))).*1.
Proof using HL Hne.
  intros Hg Hm. destruct (mergeable_source _ Hm) as [gs Hgs]. destruct (good_create_done _ _ Hg Hm) as (created & t1 & Ec).
  pose proof (create_group_spec _ _ _ _ _ _ _ _ Ec) as (Ho & _ & _ & Hsn & Hold & Hdone).
  destruct (Hdone _ _ eq_refl) as (Htg & Hcr & _). assert (group_at ns g t1 = group_at ns g t) as Hsrc by (apply Ho; congruence).
  unfold prepare_move, check_move_group. rewrite bool_decide_eq_false_2 by done. rewrite (mb_ns _ Hm), Hgs. cbn [negb].
  rewrite bool_decide_eq_true_2 by (by eexists). rewrite andb_false_r. cbn [negb]. rewrite <-Hgs.
  rewrite (good_read _ Hg), (mb_owner _ Hm), Ec, andb_false_r.
  assert ((if negb created then check_merge_invariants M L (mg_merge io) (group_at ns g t1) (group_at tns g t1) else Ok tt) = Ok tt) as ->.
  { destruct created; [done|]. cbn [negb]. symmetry in Hcr. apply negb_false_iff, bool_decide_eq_true in Hcr.
    rewrite Hsrc, (Hold Hcr). by apply good_check_merge. }
  rewrite Hsrc, Hgs. destruct (iter_faithful _ gs (good_list _ Hg)) as (l & -> & Hl).
  rewrite (proj2 (sequence_results_spec _ l)) by done. eexists _, t1. split_and!; [done|done|congruence|done|].
  cbn [g_snaps from_option]. by rewrite sort_by_key_perm.
Qed.

(** ** The snapshots *)
Definition free (l : list Z) (t : Tree) : Prop :=
  is_Some (group_at tns g t) /\ NoDup l /\
  forall time, time ∈ l -> is_Some (snap_at ns g time t) /\ snap_at tns g time t = None.

Lemma free_moved l1 l2 t t' : moved ns tns g l1 t t' -> free (l1 ++ l2) t -> free l2 t'.
Proof using Type.
  intros Hm (Ht & Hnd & Hf). apply NoDup_app in Hnd as (_ & Hdis & Hnd). split_and!; [|done|].
  - pose proof (mv_meta _ _ _ _ _ _ Hm tns g) as E. destruct (group_at tns g t'), (group_at tns g t); try done; by destruct Ht.
  - intros time Hin. assert (time ∉ l1) as Hnin by (intros Hin1; by apply (Hdis time)).
    rewrite (mv_source _ _ _ _ _ _ Hm), (mv_target _ _ _ _ _ _ Hm), !decide_False by done. apply Hf, elem_of_app. by right.
Qed.

Lemma good_move_to io time t :
  good io -> free [time] t -> exists t', move_to archive_type (mg_move io time) ns tns g time t = (Ok tt, t').
Proof using Type.
  intros Hg (Ht & _ & Hf). destruct (good_snap _ Hg time) as (_ & Hn & Hl & Hj & Hr).
  destruct (Hf time) as [[d Hd] Hn0]; [by left|]. unfold snap_at in Hd, Hn0.
  unfold move_to. rewrite Hn. cbn [negb]. rewrite Hd, Hl, Hj. set (paths := _ <$> _). assert (exists j, append_moved_indices None paths t = (Ok tt, set_journal j t)) as [j ->].
  { unfold append_moved_indices. destruct paths; [exists (tr_journal t); by destruct t|by eexists]. }
  change (group_at tns g (set_journal j t)) with (group_at tns g t). rewrite Hr, Hn0. unfold g_exists.
  rewrite bool_decide_eq_true_2 by done. cbn [default andb]. rewrite bool_decide_eq_true_2 by done. by eexists.
Qed.

Lemma good_batch io l t : good io -> free l t -> exists t', move_batch archive_type io ns tns g l t = (Done tt, t').
Proof using Hne.
  intros Hg. revert t. induction l as [|time l IH]; intros t Hf; [by eexists|]. cbn [move_batch].
  assert (free [time] t) as Hf1.
  { destruct Hf as (? & ? & Hf). split_and!; [done|apply NoDup_singleton|]. intros x ->%list_elem_of_singleton. apply Hf. by left. }
  destruct (good_move_to _ _ _ Hg Hf1) as [t1 E1]. rewrite E1.
  apply move_to_spec in E1 as [[? _]|(_ & Hm & _)]; [done| |done]. apply IH. by apply (free_moved [time]) with t.
Qed.

Lemma good_batches io fuel l t :
  good io -> free l t -> (length l <= fuel)%nat ->
  exists t', move_batches archive_type io ns tns g fuel l t = (Done tt, t').
Proof using Hne.
  intros Hg. revert l t. induction fuel as [|fuel IH]; intros l t Hf Hl; (destruct l as [|time l]; [by eexists|]); [cbn in Hl; lia|].
  cbn [move_batches]. set (l0 := time :: l) in *.
  assert (forallb (mg_snap_lock io) (take MAX_SNAPSHOT_LOCKS l0) = true) as ->.
  { apply forallb_forall. intros x _. by destruct (good_snap _ Hg x). }
  cbn [negb]. rewrite <-(take_drop MAX_SNAPSHOT_LOCKS l0) in Hf.
  assert (free (take MAX_SNAPSHOT_LOCKS l0) t) as Hf1.
  { destruct Hf as (? & Hnd & Hx). apply NoDup_app in Hnd as (? & _ & _). split_and!; [done..|]. intros x Hin. apply Hx, elem_of_app. by left. }
  destruct (good_batch _ _ _ Hg Hf1) as [t1 E1]. rewrite E1. apply move_batch_part in E1 as (a & b & Eab & Hm & Hb & _); [|done].
  rewrite (Hb eq_refl), app_nil_r in Eab. apply IH; [by eapply free_moved; [|rewrite <-Eab]|].
  rewrite length_drop. unfold l0, MAX_SNAPSHOT_LOCKS in *. cbn [length] in *. lia.
Qed.

Lemma good_finish io t :
  good io -> is_Some (group_at ns g t) -> is_Some (group_at tns g t) -> g_snaps (group_at ns g t) = ∅ ->
  exists t', finish_move M D io ns tns g t = (Done tt, t').
Proof using HD Hne.
  intros Hg [gs Hs] [gt Ht] He. destruct (good_notes _ Hg) as (H1 & H2 & H3), (good_destroy _ Hg) as [Hl Hr].
  assert (exists s1 g1, move_notes_to (mg_notes io) (group_at ns g t) (group_at tns g t) = (Ok tt, (Some s1, Some g1)) /\ gd_snaps s1 = ∅)
    as (s1 & g1 & En & Hs1).
  { rewrite Hs, Ht in *. unfold move_notes_to. rewrite H1, H2, H3. cbn. destruct (gd_notes gs), (gd_notes gt); cbn; by eexists _, _. }
  unfold finish_move. rewrite En. rewrite group_at_set_ne, group_at_set by congruence.
  assert (exists stats, group_destroy M D (mg_destroy io) false (Some s1) = (Ok stats, None)) as [stats ->]; [|by eexists].
  destruct (iter_faithful _ s1 Hl) as (l & El & Hp). unfold group_destroy. rewrite El. rewrite Hs1, map_to_list_empty in Hp.
  symmetry in Hp. apply Permutation_nil in Hp as ->. cbn [destroy_snapshots fmap list_fmap]. rewrite all_removed_zero. cbn [andb negb].
  unfold remove_group_dir. rewrite Hr. cbn. rewrite !andb_false_r. cbn. rewrite Hs1. rewrite bool_decide_eq_true_2 by done. by eexists.
Qed.

(** A move with merging from such a state succeeds when all calls do. *)
Lemma good_move_done io source_ns target_ns t :
  good io -> mergeable t -> map_prefix ns source_ns target_ns = Ok tns ->
  exists t', lock_and_move_group N M L D archive_type io source_ns ns g target_ns true t = (Done tt, t').
Proof using HL HD Hne.
  intros Hg Hm Em. unfold lock_and_move_group. rewrite Em, (good_lock _ Hg). cbn [negb].
  destruct (good_prepare _ _ Hg Hm) as (l & t1 & -> & Htg & Hsrc & Hsn & Hp).
  assert (forall time, time ∈ l <-> is_Some (snap_at ns g time t)) as Hin by (intros; by rewrite Hp, elem_of_keys).
  assert (free l t1) as Hf.
  { split_and!; [done|rewrite Hp; apply NoDup_fst_map_to_list|]. intros time Ht%Hin. unfold snap_at in *. rewrite Hsrc, Hsn.
    split; [done|]. destruct (g_snaps (group_at tns g t) !! time) eqn:E; [|done].
    assert (time < time); [|lia]. apply (mb_older _ Hm); unfold snap_at; [done|]. rewrite E. by eexists. }
  destruct (good_batches _ (length l) _ _ Hg Hf) as [t2 E2]; [done|]. rewrite E2.
  apply move_batches_part in E2 as (a & b & Eab & Hmv & Hb & _); [|done..]. rewrite (Hb eq_refl), app_nil_r in Eab. subst a.
  assert (forall x, is_Some (group_at x g t1) -> is_Some (group_at x g t2)) as Hex.
  { intros x Hx. pose proof (mv_meta _ _ _ _ _ _ Hmv x g) as E. destruct (group_at x g t2), (group_at x g t1); try done; by destruct Hx. }
  apply good_finish; [done|apply Hex; rewrite Hsrc; by apply mergeable_source|by apply Hex|].
  apply map_empty. intros time. pose proof (mv_source _ _ _ _ _ _ Hmv time) as E. unfold snap_at in E at 1. rewrite E.
  destruct (decide (time ∈ l)) as [|Hnin]; [done|]. rewrite Hin in Hnin. unfold snap_at in *. rewrite Hsrc.
  destruct (g_snaps (group_at ns g t) !! time); [|done]. destruct Hnin. by eexists.
Qed.

(** ** What an attempt leaves *)
Lemma create_group_owner io t r t' :
  create_locked_backup_group_do L io tns g o t = (r, t') -> owner_ok o -> cg_rmdir io = true -> ow_write (cg_owner io) = None ->
  group_at tns g t = None -> group_at tns g t' = None \/ get_owner L true (group_at tns g t') = Ok o.
Proof using HL.
  intros E Ho Hr Hw Hn. unfold create_locked_backup_group_do in E. destruct (create_parents _ _ _) as [ok t1] eqn:E1.
  apply create_parents_groups in E1 as (Hg1 & _). assert (group_at tns g t1 = None) as Hn1 by (unfold group_at; by rewrite Hg1).
  destruct ok; cbn [negb] in E; [|simplify_eq; by left]. rewrite Hn1 in E. rewrite bool_decide_eq_false_2 in E by (by intros []).
  cbn [negb andb] in E. destruct (cg_create io); cbn [negb] in E; [|simplify_eq; by left]. rewrite group_at_set in E.
  destruct (cg_lock io); cbn [negb] in E.
  2: { simplify_eq. left. rewrite group_at_set, Hr. cbn. by rewrite bool_decide_eq_true_2. }
  unfold set_owner in E. cbn [empty_group gd_owner] in E. rewrite bool_decide_eq_false_2, orb_false_r in E by (by intros []).
  destruct (ow_open (cg_owner io)); cbn [negb orb andb] in E.
  - rewrite Hw in E. right. assert (t' = set_group tns g (Some (with_owner (owner_line L o) empty_group)) (set_group tns g (Some empty_group) t1)) as ->.
    { destruct (get_owner _ _ _); by simplify_eq. }
    by rewrite group_at_set, owner_roundtrip.
  - left. simplify_eq. rewrite group_at_set, Hr. cbn. by rewrite bool_decide_eq_true_2.
Qed.

Lemma create_group_ns io t r t' x :
  create_locked_backup_group_do L io tns g o t = (r, t') -> namespace_exists x t = true -> namespace_exists x t' = true.
Proof using Type.
  unfold create_locked_backup_group_do. destruct (create_parents _ _ _) as [ok t1] eqn:E1.
  apply create_parents_groups in E1 as (_ & _ & _ & Hm & _). intros E Hx%Hm.
  assert (forall t2, tr_ns t2 = tr_ns t1 -> namespace_exists x t2 = true) as Hsame by (intros t2 E2; unfold namespace_exists; by rewrite E2).
  destruct (negb ok); [by simplify_eq|]. destruct (_ && _); [by simplify_eq|]. destruct (negb (cg_lock io)).
  { simplify_eq. by destruct (negb _); apply Hsame. }
  set (own := if negb _ then _ else _) in E. destruct own as [r3 g3].
  assert (tr_ns t' = tr_ns t1); [|by apply Hsame].
  destruct r3; [destruct (get_owner _ _ _)|..]; simplify_eq; by destruct (negb _).
Qed.

Lemma prepare_mergeable io merge_groups t r t' :
  prepare_move M L io ns tns g merge_groups t = (r, t') -> mergeable t ->
  cg_rmdir (mg_create io) = true -> ow_write (cg_owner (mg_create io)) = None -> mergeable t'.
Proof using HL Hne.
  intros E Hm Hr Hw. unfold prepare_move in E. destruct (check_move_group _ _ _ _ _) as [[]| |]; [|by simplify_eq..].
  destruct (get_owner L (mg_read_owner io) _) as [o'| |] eqn:Eo; [|by simplify_eq..].
  destruct (get_owner_ok _ _ _ Eo) as [Hok Eo']. rewrite (mb_owner _ Hm) in Eo'. simplify_eq.
  destruct (create_locked_backup_group_do _ _ _ _ _ _) as [rc t1] eqn:Ec.
  assert (t' = t1) as ->.
  { destruct rc as [[? ?]|?|?]; [|by simplify_eq..]. destruct (_ && _); [by simplify_eq|].
    destruct (if negb _ then _ else _); [|by simplify_eq..]. destruct (iter_snapshots _ _ _); [|by simplify_eq..].
    destruct (sequence_results _); by simplify_eq. }
  pose proof (create_group_spec _ _ _ _ _ _ _ _ Ec) as (Ho & _ & _ & Hsn & Hold & _).
  assert (group_at ns g t1 = group_at ns g t) as Hsrc by (apply Ho; congruence).
  assert (forall time, snap_at ns g time t1 = snap_at ns g time t /\ snap_at tns g time t1 = snap_at tns g time t) as Hs.
  { intros time. unfold snap_at. by rewrite Hsrc, Hsn. }
  split.
  - rewrite Hsrc. apply (mb_owner _ Hm).
  - eapply create_group_ns; [exact Ec|apply (mb_ns _ Hm)].
  - intros Ht. destruct (group_at tns g t) as [gt|] eqn:Eg.
    + rewrite Hold by (by eexists). rewrite <-Eg. apply (mb_target _ Hm). by eexists.
    + destruct (create_group_owner _ _ _ _ Ec Hok Hr Hw Eg) as [E0|?]; [rewrite E0 in Ht; by destruct Ht|done].
  - intros a b. destruct (Hs a) as [-> _], (Hs b) as [_ ->]. apply (mb_older _ Hm).
  - intros time. destruct (Hs time) as [-> _]. apply (mb_times _ Hm).
Qed.

Lemma get_owner_meta g1 g2 : meta g1 = meta g2 -> get_owner L true g1 = get_owner L true g2.
Proof using Type. unfold get_owner. destruct g1, g2; cbn; [|done..]. by intros [= -> _]. Qed.

Lemma moved_mergeable l t t' :
  moved ns tns g l t t' -> mergeable t -> (forall a b, b ∈ l -> is_Some (snap_at ns g a t) -> a ∉ l -> b < a) -> mergeable t'.
Proof using Type.
  intros Hmv Hm Hord. split.
  - rewrite (get_owner_meta _ (group_at ns g t)) by apply (mv_meta _ _ _ _ _ _ Hmv). apply (mb_owner _ Hm).
  - unfold namespace_exists. rewrite (mv_ns _ _ _ _ _ _ Hmv). apply (mb_ns _ Hm).
  - intros Ht. pose proof (mv_meta _ _ _ _ _ _ Hmv tns g) as E. rewrite (get_owner_meta _ _ E). apply (mb_target _ Hm).
    destruct (group_at tns g t'), (group_at tns g t); try done; by destruct Ht.
  - intros a b. rewrite (mv_source _ _ _ _ _ _ Hmv), (mv_target _ _ _ _ _ _ Hmv). destruct (decide (a ∈ l)); [by intros []|].
    destruct (decide (b ∈ l)); [intros Ha _; by apply Hord|apply (mb_older _ Hm)].
  - intros time. rewrite (mv_source _ _ _ _ _ _ Hmv). destruct (decide (time ∈ l)); [by intros []|apply (mb_times _ Hm)].
Qed.

Lemma attempt_mergeable io source_ns target_ns merge_groups t r t' :
  lock_and_move_group N M L D archive_type io source_ns ns g target_ns merge_groups t = (r, t') ->
  map_prefix ns source_ns target_ns = Ok tns -> listings_ok M io -> mergeable t ->
  cg_rmdir (mg_create io) = true -> ow_write (cg_owner (mg_create io)) = None ->
  (forall time, snap_at ns g time t' = None) \/ mergeable t'.
Proof using HL HD Hne.
  unfold lock_and_move_group. intros E Em Hl Hm Hr Hw. rewrite Em in E. destruct (mg_lock io); cbn [negb] in E; [|simplify_eq; by right].
  destruct (prepare_move _ _ _ _ _ _ _ _) as [rp t1] eqn:Ep. pose proof (prepare_mergeable _ _ _ _ _ Ep Hm Hr Hw) as Hm1.
  apply prepare_move_spec in Ep as [Hc Hp]; [|done]. destruct rp as [l| |]; [|simplify_eq; by right..].
  destruct Hl as (H1 & H2 & H3). destruct (Hp l eq_refl H1 H2 H3) as (Hsort & Hall & _).
  destruct (move_batches _ _ _ _ _ _ _ _) as [rb t2] eqn:Eb.
  apply move_batches_part in Eb as (l1 & l2 & -> & Hmv & Hdone & _); [|done..].
  assert (forall time, is_Some (snap_at ns g time t1) -> time ∈ l1 ++ l2) as Hall1.
  { intros time. rewrite (cs_source _ _ _ _ _ _ Hc). destruct (decide _); [by intros []|apply Hall]. }
  assert (mergeable t2) as Hm2.
  { apply (moved_mergeable l1 t1); [done..|]. intros a b Hb Ha Hna. apply Hall1 in Ha as [?|Ha]%elem_of_app; [done|].
    assert (b <> a) as Hab by (by intros ->). assert (b <= a); [|lia].
    clear -Hsort Ha Hb. induction l1 as [|x l1 IH]; [by apply elem_of_nil in Hb|]. cbn in Hsort.
    apply StronglySorted_inv in Hsort as [Hs Hx]. rewrite Forall_forall in Hx.
    apply elem_of_cons in Hb as [->|Hb]; [apply Hx, elem_of_app; by right|by apply IH]. }
  destruct rb as [[]| |]; [|simplify_eq; by right..]. rewrite (Hdone eq_refl), app_nil_r in Hall1.
  assert (forall time, snap_at ns g time t2 = None) as He.
  { intros time. rewrite (mv_source _ _ _ _ _ _ Hmv). destruct (decide (time ∈ l1)) as [|Hnin]; [done|].
    destruct (snap_at ns g time t1) eqn:Es; [|done]. destruct Hnin. apply Hall1. rewrite Es. by eexists. }
  apply finish_move_spec in E as [Hc3 _]; [|done|done|apply map_empty, He]. left. intros time.
  rewrite (cs_source _ _ _ _ _ _ Hc3). destruct (decide _); [done|apply He].
Qed.

(** C19.  A move can be resumed.  Let the source group be one that can be merged into the target ([mergeable]): the target namespace
    exists, the group at the target has the same owner if there is one, its snapshots are all older than those of the
    source, and the times are less than [i64::MAX].  Let no listing of an attempt silently leave out snapshots ([listings_ok]).
    Whatever else failed in an attempt to move it, except for removing the directory or writing the
    owner of a new group, afterwards there is no snapshot at the source, or an attempt with merging in which all
    calls succeed ([good]) moves the rest, so that all snapshots are at the target. *)
Theorem move_resumes io io' source_ns target_ns merge_groups t r t1 :
  lock_and_move_group N M L D archive_type io source_ns ns g target_ns merge_groups t = (r, t1) ->
  map_prefix ns source_ns target_ns = Ok tns -> mergeable t -> listings_ok M io ->
  cg_rmdir (mg_create io) = true -> ow_write (cg_owner (mg_create io)) = None -> good io' -> listings_ok M io' ->
  (forall time, snap_at ns g time t1 = None) \/
  exists t2, lock_and_move_group N M L D archive_type io' source_ns ns g target_ns true t1 = (Done tt, t2) /\
    group_at ns g t2 = None /\ forall time d, snap_at ns g time t = Some d -> snap_at tns g time t2 = Some d.
Proof using HL HD Hne.
  intros E Em Hm Hl Hr Hw Hg Hl'. destruct (attempt_mergeable _ _ _ _ _ _ _ E Em Hl Hm Hr Hw) as [?|Hm1]; [by left|right].
  destruct (good_move_done _ _ _ _ Hg Hm1 Em) as [t2 E2]. exists t2. split; [done|].
  destruct (lock_and_move_spec N M L D archive_type _ _ _ _ _ _ _ _ _ _ E2 Em Hl' (mb_times _ Hm1)) as [[Hnd _]|(_ & l2 & Hc2 & _ & _ & Hd2)]; [done|].
  specialize (Hd2 eq_refl). split; [done|]. intros time d Hd.
  assert (snap_at ns g time t2 = None) as Hn2 by (unfold snap_at; by rewrite Hd2).
  destruct (lock_and_move_spec N M L D archive_type _ _ _ _ _ _ _ _ _ _ E Em Hl (mb_times _ Hm)) as [[_ ->]|(_ & l1 & Hc1 & _)].
  - rewrite (cs_source _ _ _ _ _ _ Hc2) in Hn2. rewrite (cs_target _ _ _ _ _ _ Hc2). destruct (decide (time ∈ l2)); [done|congruence].
  - rewrite (cs_source _ _ _ _ _ _ Hc2), (cs_source _ _ _ _ _ _ Hc1) in Hn2.
    rewrite (cs_target _ _ _ _ _ _ Hc2), (cs_source _ _ _ _ _ _ Hc1), (cs_target _ _ _ _ _ _ Hc1).
    destruct (decide (time ∈ l2)) as [Hin|Hnin].
    + destruct (cs_free _ _ _ _ _ _ Hc2 time Hin) as [Hs _]. rewrite (cs_source _ _ _ _ _ _ Hc1) in Hs.
      destruct (decide (time ∈ l1)); [by destruct Hs|done].
    + destruct (decide (time ∈ l1)); [done|congruence].
Qed.

(** Without merging, a conflict of locks is final.  When an attempt fails because a snapshot is locked, the target group is there already, and
    every later attempt fails for good, the automatic one included. *)
Theorem lock_conflict_is_final io io' source_ns target_ns t e t1 :
  lock_and_move_group N M L D archive_type io source_ns ns g target_ns false t = (Soft e, t1) ->
  map_prefix ns source_ns target_ns = Ok tns -> mg_lock io = true -> cg_lock (mg_create io) = true -> mg_lock io' = true ->
  exists e', lock_and_move_group N M L D archive_type io' source_ns ns g target_ns false t1 = (Hard e', t1).
Proof using Hne.
  unfold lock_and_move_group. intros E Em Hl Hc Hl'. rewrite Em in *. rewrite Hl in E. rewrite Hl'. cbn [negb] in *.
  destruct (prepare_move _ _ _ _ _ _ _ _) as [rp t0] eqn:Ep.
  assert (exists l, rp = Done l /\ is_Some (group_at tns g t0)) as (l & -> & Ht0).
  { unfold prepare_move in Ep. destruct (check_move_group _ _ _ _ _); [|by simplify_eq..].
    destruct (get_owner _ _ _); [|by simplify_eq..].
    destruct (create_locked_backup_group_do _ _ _ _ _ _) as [rc t'] eqn:Ec. pose proof (create_group_spec _ _ _ _ _ _ _ _ Ec) as Hs.
    destruct rc as [[ow cr]|err|err].
    - destruct Hs as (_ & _ & _ & _ & _ & Hd). destruct (Hd _ _ eq_refl) as [Hg _].
      repeat case_match; simplify_eq; by eexists.
    - exfalso. unfold create_locked_backup_group_do in Ec. rewrite Hc in Ec. cbn [negb] in Ec. repeat case_match; simplify_eq.
    - by simplify_eq. }
  assert (is_Some (group_at tns g t1)) as Ht1.
  { destruct (move_batches _ _ _ _ _ _ _ _) as [rb t2] eqn:Eb. apply move_batches_part in Eb as (l1 & l2 & _ & Hmv & _); [|done..].
    pose proof (mv_meta _ _ _ _ _ _ Hmv tns g) as Hmeta.
    assert (is_Some (group_at tns g t2)) as Ht2 by (destruct Ht0 as [gd Eg]; rewrite Eg in Hmeta; by destruct (group_at tns g t2)).
    destruct rb; [|by simplify_eq..]. exfalso. unfold finish_move in E. repeat case_match; simplify_eq. }
  unfold prepare_move. assert (exists e', check_move_group ns tns g false t1 = Err e') as [e' Ee].
  { unfold check_move_group. rewrite (bool_decide_eq_true_2 (is_Some (group_at tns g t1))) by done. cbn. repeat case_match; by eexists. }
  rewrite Ee. by eexists.
Qed.
End group.
End progress.
