(* ===== verification/MoveExample.v ===== *)
(** * Runs of operations on namespaces and groups

    Instances of the interfaces of names, namespaces and statistics that satisfy their laws, listings that are
    exact, examples of operations that go wrong, and the witnesses for the theorems about listing, removing and
    moving. *)

From S2P Require Import Prelude Text GarbageCollection Acl AclSpec Hierarchy HierarchySpec GroupDir GroupDirSpec Datastore DatastoreSpec MoveSpec MoveProgress.
From Stdlib Require Import Strings.Byte Ascii.

(** ** Instances of the interfaces *)
Module Concrete.
Definition from_parent_ns (p : namespace) (n : string) : res namespace :=
  if (length p <? 8)%nat then Ok (p ++ [n]) else Err "namespace too deep".
Fixpoint strip (s x : namespace) : option namespace :=
  match s, x with
  | [], x => Some x
  | a :: s, b :: x => if decide (a = b) then strip s x else None
  | _, [] => None
  end.
Lemma strip_spec s x rest : strip s x = Some rest <-> x = s ++ rest.
Proof.
  revert x. induction s as [|a s IH]; intros [|b x]; cbn; try (split; congruence).
  destruct (decide (a = b)) as [->|Hne]; [|split; [done|congruence]]. rewrite IH. split; congruence.
Qed.
Definition map_prefix (x s t : namespace) : res namespace :=
  match strip s x with Some rest => Ok (t ++ rest) | None => Err "prefix mismatch" end.
Definition ns_contains (x y : namespace) : option Z := (fun r => Z.of_nat (length r)) <$> strip x y.
Fixpoint name_len (x : namespace) : Z :=
  match x with [] => 0 | c :: x => 4 + Z.of_nat (String.length c) + name_len x end.
#[global] Instance nslib : NsLib := {|
  Hierarchy.from_parent_ns := from_parent_ns; Hierarchy.map_prefix := map_prefix; Hierarchy.ns_contains := ns_contains;
  ns_parent := @removelast _; Hierarchy.name_len := name_len; ns_max_depth := 7 |}.
#[global] Instance nslaws : NsLaws nslib.
Proof.
  split; cbn.
  - intros p n x. unfold from_parent_ns. case_match; congruence.
  - intros x s t y. unfold map_prefix. destruct (strip s x) as [rest|] eqn:E; [|done]. intros [= <-].
    exists rest. by apply strip_spec in E.
  - intros x y. unfold ns_contains. rewrite fmap_is_Some. split; intros [rest H]; exists rest; by apply strip_spec.
  - apply removelast_last.
  - intros p n. induction p as [|c p IH]; cbn; lia.
  - lia.
Qed.

(** Times are written with a sign and in unary. *)
Fixpoint unary (n : nat) : string := match n with O => "" | S n => String "1"%char (unary n) end.
Definition time_name (z : Z) : string :=
  if z <? 0 then String "-"%char (unary (Z.to_nat (- z))) else String "+"%char (unary (Z.to_nat z)).
Definition name_time (s : string) : res Z :=
  match s with
  | String "-"%char s => Ok (- Z.of_nat (String.length s))
  | String "+"%char s => Ok (Z.of_nat (String.length s))
  | _ => Err "unable to parse"
  end.
Definition names : NameLib := {|
  is_backup_type s := bool_decide (s = "vm" \/ s = "host")%string; backup_id_regex s := negb (bool_decide (s = ""%string));
  backup_date_regex s := is_ok (name_time s); parse_rfc3339 := name_time |}.
Lemma unary_length n : String.length (unary n) = n.
Proof. by induction n as [|n IH]; cbn; [|rewrite IH]. Qed.
Lemma time_roundtrip z : name_time (time_name z) = Ok z.
Proof. unfold time_name. destruct (Z.ltb_spec z 0); cbn; rewrite unary_length; f_equal; lia. Qed.

(** Groups, snapshots and protected snapshots. *)
#[global] Instance statslib : StatsLib := {|
  DeleteStats := nat * nat * nat; stats_zero := (0, 0, 0)%nat;
  increment_removed_groups s := (S s.1.1, s.1.2, s.2); increment_removed_snapshots s := (s.1.1, S s.1.2, s.2);
  increment_protected_snapshots s := (s.1.1, s.1.2, S s.2);
  stats_sum a b := (a.1.1 + b.1.1, a.1.2 + b.1.2, a.2 + b.2)%nat;
  all_removed s := bool_decide (s.2 = 0%nat); removed_snapshots s := Z.of_nat s.1.2 |}.
#[global] Instance statslaws : StatsLaws statslib.
Proof.
  split; try done. intros a b. cbn. apply Bool.eq_true_iff_eq. rewrite andb_true_iff, !bool_decide_eq_true. lia.
Qed.

(** ** Exact listings *)
Definition directory (n : string) : Item :=
  inr {| e_name := Some n; e_type := Some DirectoryType; e_stat := None |}.
Definition children (t : Tree) (ns : namespace) : list namespace := filter (fun x => is_child ns x = true) (elements (tr_ns t)).
Definition exact : Listing := {|
  l_snaps snaps := Ok ((fun s => directory (time_name s.1)) <$> map_to_list snaps);
  l_types t ns := Ok (directory <$> ["vm"; "host"]%string);
  l_ids t ns ty := Ok (omap (fun kv => if decide (kv.1.1 = ns /\ kv.1.2.1 = ty) then Some (directory kv.1.2.2) else None)
                            (map_to_list (tr_groups t)));
  l_ns t ns := Opened ((fun x : namespace => directory (default ""%string (last x))) <$> children t ns);
|}.
Lemma exact_items (snaps : gmap Z dir) fd :
  l_snaps exact snaps = Ok fd -> snapshot_items names fd = Ok <$> (map_to_list snaps).*1.
Proof.
  intros [= <-]. induction (map_to_list snaps) as [|[z d] l IH]; [done|]. rewrite !fmap_cons, <-IH. cbn.
  by rewrite time_roundtrip.
Qed.
Lemma exact_faithful : faithful names exact.
Proof. intros snaps. eexists. split; [done|]. by erewrite exact_items. Qed.
Lemma exact_complete : complete names exact.
Proof.
  intros snaps fd E time Ht. erewrite exact_items by done. apply list_elem_of_fmap. exists time. split; [done|].
  by apply elem_of_keys.
Qed.
Lemma exact_honest : honest names exact.
Proof. intros snaps fd E _. by apply exact_complete. Qed.

(** ** Calls that succeed *)
Definition removed : RemoveGroupIo := {| rg_notes := true; rg_owner := true; rg_dir := true |}.
Definition snap_destroyed : DestroyIo := {|
  de_lock := true; de_lock_manifest := true; de_remove := None; de_group_lock := false; de_list := true; de_group := removed |}.
Definition destroyed : GroupDestroyIo := {| gx_list := exact; gx_snap _ := snap_destroyed; gx_remove := removed |}.
Definition created : CreateGroupIo := {|
  cg_parents := None; cg_create := true; cg_lock := true; cg_rmdir := true;
  cg_owner := {| ow_open := true; ow_write := None |}; cg_read := true |}.
Definition move (locks : Z -> bool) : MoveGroupIo := {|
  mg_lock := true; mg_read_owner := true; mg_create := created;
  mg_merge := {| me_source_owner := true; me_target_owner := true; me_source := exact; me_target := exact |};
  mg_list := exact; mg_snap_lock := locks;
  mg_move _ := {| mt_target_name := true; mt_list := Ok; mt_journal := None; mt_rename := true |};
  mg_notes := {| nt_read_source := true; nt_read_target := true; nt_rename := true |}; mg_destroy := destroyed |}.
Definition remove_ns : RemoveNsIo := {|
  rn_list := exact; rn_lock _ := true; rn_group _ := destroyed; rn_open := true; rn_rmdir := true |}.
Definition move_ns (locks : namespace -> Z -> bool) : MoveNsIo := {|
  mn_attempted := exact; mn_mkdir _ := true; mn_groups := exact; mn_move ns _ := move (locks ns);
  mn_retry _ _ := move (fun _ => true); mn_children := exact; mn_remove _ := remove_ns |}.
Lemma move_listings locks : listings_ok names (move locks).
Proof. split_and!; [apply exact_complete..|apply exact_honest]. Qed.
Lemma move_good : good names (move (fun _ => true)).
Proof. pose proof exact_faithful. by split. Qed.


(** Namespaces that the interface admits are listed exactly. *)
Definition admitted (x : namespace) : Prop := (length x <= 8)%nat /\ Forall (fun c => c <> "." /\ c <> "..")%string x.
Lemma exact_lists t : set_Forall admitted (tr_ns t) -> lists_ns nslib exact t (children t).
Proof.
  intros Ha. split.
  - intros ns. unfold readable, exact, children. cbn [l_ns].
    assert (Forall admitted (elements (tr_ns t))) as Hl by (by apply set_Forall_elements).
    revert Hl. generalize (elements (tr_ns t)). intros l Hl. induction Hl as [|x l [Hx Hn] _ IH]; [done|].
    rewrite filter_cons. destruct (decide (is_child ns x = true)) as [Hc|_]; [|exact IH].
    rewrite !fmap_cons, <-IH. apply is_child_spec in Hc as [n ->]. rewrite last_snoc. rewrite length_app in Hx. cbn in Hx.
    apply Forall_app in Hn as [_ [[H1 H2] _]%Forall_cons]. cbn.
    unfold child_name. rewrite !bool_decide_eq_false_2 by done. cbn. f_equal. unfold from_parent_ns.
    by destruct (Nat.ltb_spec (length ns) 8); [|lia].
  - intros ns x. unfold children. rewrite list_elem_of_filter, elem_of_elements, is_child_spec. tauto.
  - intros ns. apply NoDup_filter, NoDup_elements.
Qed.

Definition archive_type (name : string) : option ArchiveType :=
  if decide (name = "drive.fidx"%string) then Some FixedIndexT else Some BlobT.
Definition a : namespace := ["a"]%string.
Definition b : namespace := ["b"]%string.
Definition vm : group_id := ("vm", "100")%string.
Definition group (times : list Z) : GroupDir := {|
  gd_owner := Some (owner_line AclExample.lib AclExample.user); gd_notes := Some [x41];
  gd_snaps := list_to_map ((fun t => (t, <["drive.fidx"%string := [x00]]> ∅)) <$> times) |}.
Definition tree (namespaces : list namespace) (groups : list (namespace * GroupDir)) : Tree := {|
  tr_ns := list_to_set namespaces; tr_groups := list_to_map ((fun g => (g.1, vm, g.2)) <$> groups); tr_journal := [] |}.
Definition t0 : Tree := tree [a; b] [(a, group [1; 2])].
Definition run_move io merge := move_group nslib names AclExample.lib statslib archive_type false io a vm b merge.
Definition run_move_ns io merge src dst :=
  move_namespace nslib names AclExample.lib statslib archive_type io false src dst None true merge.
End Concrete.
Import Concrete.

(** Evaluation of decidable statements. *)
#[local] Instance GroupDir_eq_dec : EqDecision GroupDir.
Proof. solve_decision. Defined.
Ltac evaluate := intros; apply (bool_decide_unpack _); vm_compute; exact I.

(** ** Operations that go wrong *)

(** A snapshot that the listing for the move does not see, since its type is not known and cannot be found out, is not moved, and is then
    removed with the group; the move succeeds. *)
Definition half_listed : Listing := {|
  l_snaps snaps := Ok ((fun s => if s.1 =? 2 then inr {| e_name := Some (time_name s.1); e_type := None; e_stat := None |}
                                 else directory (time_name s.1)) <$> map_to_list snaps);
  l_types := l_types exact; l_ids := l_ids exact; l_ns := l_ns exact |}.
Definition half_moved : MoveGroupIo :=
  let io := move (fun _ => true) in
  {| mg_lock := true; mg_read_owner := true; mg_create := mg_create io; mg_merge := mg_merge io; mg_list := half_listed;
     mg_snap_lock := mg_snap_lock io; mg_move := mg_move io; mg_notes := mg_notes io; mg_destroy := mg_destroy io |}.
Theorem unlisted_snapshot_destroyed :
  let s := run_move half_moved false t0 in
  s.1 = Ok tt /\ is_Some (snap_at a vm 2 t0) /\ snap_at a vm 2 s.2 = None /\ snap_at b vm 2 s.2 = None.
Proof. evaluate. Qed.

(** When the file with the owner of a new group cannot be written, the group stays, with an empty file, and
    can neither be used nor created any more. *)
Definition owner_not_written : CreateGroupIo := {|
  cg_parents := None; cg_create := true; cg_lock := true; cg_rmdir := true;
  cg_owner := {| ow_open := true; ow_write := Some ""%string |}; cg_read := true |}.
Theorem failed_owner_blocks_group :
  let s := create_locked_backup_group AclExample.lib owner_not_written b vm AclExample.user t0 in
  let s' := create_locked_backup_group AclExample.lib created b vm AclExample.user s.2 in
  is_ok s.1 = false /\ is_Some (group_at b vm s.2) /\ is_ok s'.1 = false /\ group_at b vm s'.2 = group_at b vm s.2.
Proof. evaluate. Qed.

(** When the groups of a namespace cannot be listed, moving the namespace succeeds all the same, and nothing was moved. *)
Definition unlisted_groups : MoveNsIo :=
  let io := move_ns (fun _ _ => true) in
  {| mn_attempted := exact; mn_mkdir := mn_mkdir io;
     mn_groups := {| l_snaps := l_snaps exact; l_types _ _ := Err "permission denied"; l_ids := l_ids exact; l_ns := l_ns exact |};
     mn_move := mn_move io; mn_retry := mn_retry io; mn_children := exact; mn_remove := mn_remove io |}.
Theorem unlisted_groups_not_reported :
  let s := run_move_ns unlisted_groups false a ["c"]%string t0 in s.1 = Some (Ok tt) /\ tr_groups s.2 = tr_groups t0.
Proof. evaluate. Qed.

(** Moving [a/b] to [a], while the group of [a/b] is locked: the group of [a/b/b] is merged into it, and then moved on to [a] with it. *)
Theorem nested_move_misplaces :
  let ab := ["a"; "b"]%string in
  let abb := ["a"; "b"; "b"]%string in
  let t := tree [a; ab; abb] [(ab, group [1]); (abb, group [2])] in
  let locks ns time := negb (bool_decide (ns = ab)) in
  let s := run_move_ns (move_ns locks) true ab a t in
  s.1 = Some (Ok tt) /\ is_Some (snap_at a vm 2 s.2) /\ group_at ab vm s.2 = None.
Proof. evaluate. Qed.

(** ** Witnesses *)
Lemma run_pair {A B} (p : A * B) : p = (p.1, p.2).
Proof. by destruct p. Qed.
Lemma names_all locks time : names_read (mg_move (move locks) time).
Proof. by intros n l [= ->]. Qed.

(** All times of the trees here are small. *)
Lemma lookup_times (ts : list Z) (d : dir) time :
  is_Some ((list_to_map ((fun t => (t, d)) <$> ts) : gmap Z dir) !! time) -> time ∈ ts.
Proof. intros [x Hx%elem_of_list_to_map_2]. apply list_elem_of_fmap in Hx as (t & [= -> _] & Ht). done. Qed.
Lemma group_times ts time : is_Some (gd_snaps (group ts) !! time) -> time ∈ ts.
Proof. apply lookup_times. Qed.
Lemma tree_times nss gs (P : Z -> Prop) ns g time :
  Forall (fun x => exists ts, x.2 = group ts /\ Forall P ts) gs -> is_Some (snap_at ns g time (tree nss gs)) -> P time.
Proof.
  intros Hgs. unfold snap_at, group_at, tree. cbn [tr_groups].
  destruct (list_to_map _ !! (ns, g)) as [gd|] eqn:Eg; [|by intros []]. intros Ht.
  apply elem_of_list_to_map_2, list_elem_of_fmap in Eg as ([x y] & [= -> _ ->] & Hx).
  rewrite Forall_forall in Hgs. destruct (Hgs _ Hx) as (ts & E & Hts). cbn in E. subst y.
  rewrite Forall_forall in Hts. apply Hts, group_times, Ht.
Qed.
Lemma t0_times ns g time : is_Some (snap_at ns g time t0) -> time < I64_MAX.
Proof.
  apply (tree_times _ _ (fun time => time < I64_MAX)). constructor; [|done]. exists [1; 2]. split; [done|].
  unfold I64_MAX. by repeat constructor.
Qed.

Lemma a_b : a <> b.
Proof. done. Qed.

Lemma move_group_conserves_witness :
  let s := run_move (move (fun _ => true)) false t0 in
  exists l, conserves a b vm l t0 s.2 /\
    (forall x y, x ∈ l -> is_Some (snap_at a vm y t0) -> y ∉ l -> x < y) /\
    recorded archive_type a b vm l t0 s.2 /\
    (s.1 = Ok tt -> group_at a vm s.2 = None /\ forall time, is_Some (snap_at a vm time t0) -> time ∈ l).
Proof.
  intros s. apply (move_group_conserves nslib names AclExample.lib statslib archive_type false (move (fun _ => true)) a vm b false t0).
  - apply run_pair.
  - apply move_listings.
  - apply names_all.
  - apply t0_times.
Defined.

Lemma t0_admitted : set_Forall admitted (tr_ns t0).
Proof. intros x. unfold t0, tree, admitted. cbn. rewrite !elem_of_union, !elem_of_singleton. intros [->|[->|?]]; [..|set_solver]; split; cbn; repeat constructor; done || lia. Qed.
Lemma remove_namespace_safe_witness :
  let s := remove_namespace_recursive nslib names statslib exact (fun _ => remove_ns) false a true t0 in
  (forall x g, ~ below a x -> group_at x g s.2 = group_at x g t0) /\
  (forall x g time d, snap_at x g time t0 = Some d -> is_protected d = true \/ true = false -> snap_at x g time s.2 = Some d) /\
  (forall x g time d', snap_at x g time s.2 = Some d' -> exists d, snap_at x g time t0 = Some d /\ d' ⊆ d) /\
  (tree_wf t0 -> tree_wf s.2) /\
  (forall children stats, lists_ns nslib exact t0 children -> tree_wf t0 -> depth a <= ns_max_depth -> s.1 = Ok (true, stats) ->
    forall x, below a x -> x <> [] -> depth x <= ns_max_depth -> x ∉ tr_ns s.2).
Proof.
  intros s. apply (remove_namespace_safe nslib names statslib exact (fun _ => remove_ns) false a true t0 s.1 s.2). exact (run_pair s).
Defined.
(** It is reported that all was removed. *)
Lemma all_is_removed :
  (remove_namespace_recursive nslib names statslib exact (fun _ => remove_ns) false a true t0).1 = Ok (true, (1, 2, 0)%nat).
Proof. vm_compute. reflexivity. Qed.

Lemma recursive_yields_preorder_witness :
  let t := tree [a; b; ["a"; "c"]; ["a"; "c"; "d"]]%string [] in
  yields (ListNamespacesRecursive_next nslib (l_ns exact t)) {| lr_ns := a; lr_max_depth := Z.of_nat 2; lr_state := None |}
    (Ok <$> preorder (children t) 2 a).
Proof.
  intros t. apply (recursive_yields_preorder nslib (l_ns exact t) (children t)). apply exact_lists.
  intros x. unfold t, tree, admitted. cbn. rewrite !elem_of_union, !elem_of_singleton.
  intros [->|[->|[->|[->|?]]]]; [..|set_solver]; split; cbn; repeat constructor; done || lia.
Defined.

Lemma move_namespace_conserves_witness :
  let s := run_move_ns (move_ns (fun _ _ => true)) true a ["c"]%string t0 in relocates (below a) t0 s.2.
Proof.
  intros s.
  apply (move_namespace_conserves nslib names AclExample.lib statslib archive_type (move_ns (fun _ _ => true)) false a ["c"]%string
    None true true t0 s.1 s.2); [exact (run_pair s)|..].
  - intros ns g. split; apply move_listings.
  - intros k. apply t0_times.
Defined.

(** One of the snapshots is locked. *)
Lemma move_resumes_witness :
  let s := lock_and_move_group nslib names AclExample.lib statslib archive_type (move (fun time => negb (time =? 2))) a a vm b true t0 in
  (forall time, snap_at a vm time s.2 = None) \/
  exists t2, lock_and_move_group nslib names AclExample.lib statslib archive_type (move (fun _ => true)) a a vm b true s.2 = (Done tt, t2) /\
    group_at a vm t2 = None /\ forall time d, snap_at a vm time t0 = Some d -> snap_at b vm time t2 = Some d.
Proof.
  intros s. apply (move_resumes nslib names AclExample.lib statslib archive_type a b vm a_b AclExample.user
    (move (fun time => negb (time =? 2))) (move (fun _ => true)) a b true t0 s.1 s.2).
  - exact (run_pair s).
  - reflexivity.
  - split; [by vm_compute..| |intros x y _ Hb|intros time; apply t0_times].
    + intros H. by vm_compute in H; destruct H.
    + unfold snap_at in Hb. vm_compute in Hb. by destruct Hb.
  - apply move_listings.
  - done.
  - done.
  - apply move_good.
  - apply move_listings.
Defined.

Lemma lock_conflict_is_final_witness :
  let lock io := lock_and_move_group nslib names AclExample.lib statslib archive_type io a a vm b false in
  let s := lock (move (fun time => negb (time =? 2))) t0 in
  exists e, lock (move (fun _ => true)) s.2 = (Hard e, s.2).
Proof.
  intros lock s. apply (lock_conflict_is_final nslib names AclExample.lib statslib archive_type a b vm a_b
    (move (fun time => negb (time =? 2))) (move (fun _ => true)) a b t0 "unable to acquire snapshot lock" s.2).
  - transitivity (s.1, s.2); [exact (run_pair s)|]. apply (f_equal (fun r => (r, s.2))). vm_compute. reflexivity.
  - reflexivity.
  - done.
  - done.
  - done.
Defined.
